(* ===== verification/_CoqProject ===== *)
-Q . S2P
Prelude.v
ParseInt.v
RespWriter.v
RespParser.v
StringEncoding.v
ListListpack.v
RingBuffer.v
MemoryLimit.v
ChunkedSortedList.v
Binary64.v
BitMask.v
StoredText.v
Directory.v
SetListpack.v
HashListpack.v
Probe.v
PageArena.v
SetStorage.v
MemberIndex.v
SetValue.v
ScoreWidth.v
ZsetListpack.v
Fenwick.v
SegmentedList.v
SegmentedSpec.v
ListValue.v
ListObject.v
SwissTable.v
Containers.v
TtlSet.v
Glob.v
OutputQueue.v
CommandType.v
CommandTable.v
CommandClass.v
CommandParse.v
Keyspace.v
Store.v
StoreSpec.v
StoreFrame.v
StoreLists.v
StoreListsSpec.v
EncodedReply.v
CommandExec.v
CommandFrame.v
ListCommands.v
ListCommandsSpec.v
CommandRuns.v
Replication.v
ReplicationApply.v
ReplicationSpec.v
PubSubRegistry.v
Transaction.v
