(* ===== verification/Prelude.v ===== *)
(** * Goblin Core: a verification library

    Goblin Core is a Redis-compatible in-memory data server written in C++.  This library
    models its core in Rocq, definition by definition from the sources under [src/] (paths
    below are relative to it), and proves what makes the parts correct, alone and together.

    ** The program and its parts

    A request arrives as bytes on a socket or in a shared-memory ring.  The RESP parser cuts
    the stream into commands; [parse_command] resolves the name through a perfect hash and
    checks the arguments; the dispatcher queues it if the connection is in a transaction and
    otherwise runs it.  Execution passes the gates common to all commands (read-only replica,
    lazy expiry of the key, type of the key), calls the store, and writes the reply.  The
    store keeps one keyspace (names over dense ids, types, objects), an expiry set keyed by
    those ids, and reports every modified key to the transactions that watch it.  A write is
    also turned into canonical commands for replicas, which apply them through the same
    execution path.  Messages of publish/subscribe wait in a queue of their own per session.

    ** Files

    - [Prelude]: machine integers ([wrap], [u64], ...), bytes and byte strings, the outcome
      of partial code ([result]: returned, thrown, undefined), tactics and shared lemmas.
    - [ParseInt] ([include/goblin/core/parse_int.hpp] and the vendored integer reader of
      fast_float), [RespWriter] ([resp_writer.hpp], [resp_writer.cpp]), [RespParser]
      ([resp_parser.cpp], [simd_backend_ops.hpp]), [EncodedReply] (the reply written straight
      from the stored form): the wire.
    - [StringEncoding] ([string_encoding.*]), [StoredText], [Binary64] (IEEE 754 numbers as their bits),
      [BitMask]: how a text or a score is stored.
    - [ListListpack] ([list_listpack.hpp]), [Directory], [SetListpack], [HashListpack]
      ([set_listpack.hpp], [hash_listpack.hpp]), [ScoreWidth] ([score_width.hpp]), [ZsetListpack]
      ([compact_listpack.hpp]): the compact forms of the collections, at the level of their bytes.
    - [Probe], [MemberIndex] ([zset_member_index.hpp]), [PageArena] ([page_arena.hpp]), [SetStorage]
      ([set_storage.hpp]), [SetValue] ([set.hpp]): the index from members to ids, the storage of the members and the
      set object over both its forms.
    - [Fenwick], [SegmentedList], [SegmentedSpec] ([segmented_list.hpp]), [ListValue] ([list.hpp]),
      [ListObject]: the segmented list, the list object over both its forms, and the list as an
      interface with its laws.
    - [RingBuffer] ([ring_buffer.hpp]): one direction of the shared-memory transport, with an
      interleaving step relation for producer and consumer.
    - [MemoryLimit] ([memory_limit.hpp]): the monad of code that allocates under a budget, and
      the state-and-exception monad [M] the store is written in.
    - [ChunkedSortedList], [SwissTable]: the two containers; [Containers]: what they promise,
      as type classes with the instances; [TtlSet] ([ttl_set.hpp]): the expiry set, proved
      against the classes.
    - [Glob]: the matchers of [pubsub.cpp] and [command.cpp]; [OutputQueue], [PubSubRegistry]
      ([pubsub.*]): publish/subscribe.
    - [CommandType], [CommandTable] ([command_hash.hpp]), [CommandClass], [CommandParse]
      ([command.cpp]): from the name of a command to the parsed command.
    - [Keyspace] ([string_value.hpp], class [Keyspace] of [store.hpp]), [Store] ([store.cpp]),
      [StoreSpec], [StoreFrame]: strings, keys and expiry, and what they promise; [StoreLists],
      [StoreListsSpec]: the lists of the store, proved against the interface of a list.
    - [CommandExec] ([execute_command_into] of [command.cpp]), [CommandFrame],
      [CommandRuns]: the dispatcher and the handlers of the string, key and expiry commands;
      [ListCommands], [ListCommandsSpec]: the handlers of the list commands.
    - [Replication], [ReplicationApply], [ReplicationSpec] ([replication.*]): the records, how
      they are built and applied, and what a replica holds.
    - [Transaction] ([transaction.*], the dispatcher of [server.cpp]): MULTI, EXEC, WATCH.

    ** State and operations

    A class is a record of its members, an operation a function that returns the new record
    with its result; names are the source's where Rocq allows them.  Exceptions are values:
    [Exn e s] keeps the state [s] the exception left, so that what a failed operation leaves
    can be stated.  An access out of bounds, a subtraction below zero of a size and a read of
    an absent entry are [Ub] or [Undef], never a default value; every theorem that says an
    operation returns excludes them.  Fixed-width integers are [Z] with their wrap-around
    written out.  The clock is a sequence of readings, one per call.

    Code that is not in the sources is a parameter: the LZ4 library (class [LZ4], with its
    documented contract [LZ4Correct], which [copy_lz4] satisfies), the hash function of the
    standard library, the growth of a vector's capacity, the page size, what the pool allocator
    asks of the system, the content of fresh memory and the generated SBE encoders.  The deep
    copies and readers of collection objects and the handlers of the commands that are not
    modelled are parameters of the store and of the dispatcher.

    ** What the theorems show

    - The wire: what the writer writes the parser reads back, and while there is no protocol error the
      commands do not depend on how the network cuts the stream; every reachable parser state is well formed; the
      integer readers accept exactly what the theorems list, wrapped values included.
    - Compact forms: encode and decode are inverse except for the texts the integer reader
      wraps; the operations of the list, set, hash and sorted-set blobs act as operations on
      lists, sets, maps and score orders, and stay inside their allocations.
    - Sets: the member index refines a finite map under growth, tombstones and rebuilds; a set
      object answers as a set in both forms and across the switch between them.
    - Lists: the segmented list and the list object refine a list of texts, in both forms and
      under memory limits, with what a refused allocation can leave; packing ends, or repeats
      for ever on two values too large to share a leaf.
    - Rings: in every interleaving the records popped are those pushed, in order; operations
      return.
    - Containers: the sorted list and the table refine a sorted sequence and a finite map,
      under memory limits and with the exceptions they raise; the expiry set refines a map
      from ids to times and expires exactly what is due.
    - Publish/subscribe: the registry's tables stay consistent, PUBLISH offers every session
      exactly the frames it is due; the output queue is a queue.
    - Store (no memory limit for strings, keys and expiry): every run of requests within the limits answers and changes the store as a map with expiries says;
      every change is reported; a write that fails leaves no trace; active expiry and SCAN are
      sound and complete.  Runs of list commands act on the same kind of map; under a memory limit
      a refused one leaves one of the listed states.  Without any limit on the arguments, an operation changes only the
      keys it may write and keys that had expired.
    - Commands (no memory limit): the parser delivers what the handlers index; a request with a string, key
      or expiry command changes only the keys it writes, which are those of the positions COMMAND advertises
      and the first argument of GOBLIN.CLAIM; a value within the limits is read back by GET after SET across
      such requests that do not write its key; a list
      command, from its fields to the reply, does what it means for the list under its key, errors included.
    - Transactions: EXEC is all or nothing, and succeeds only if no watched key was modified.
    - Replication: frames round-trip; whatever segments of the log arrive, every record is
      applied once and in order; a string command that succeeds on a string key leaves source and replica with
      the same data.
    - Where the code does not do what it means to, the theorem states what it does (texts that
      change when stored, a list left broken or emptied by a memory limit, COPY losing an expiry, keys
      whose length ends the process, expiries in the past and refused SET NX that diverge on
      replicas).

    ** Fuel and bounds

    Loops that are not structural carry fuel computed from their input: the length of the
    buffer for the parser, the number of blocks, slots or leaves for the containers, the number
    of values for the loops that pack or remove them, the size of the pattern and text for the
    matchers, the number of ids for SCAN and active expiry.  The
    theorems are about the functions with that fuel and prove the result, so the fuel is
    enough; running out would be a different result.  [compact] of the segmented list does not
    always end, so its fuel is an argument, and running out is the answer [false].  Bounds that appear as hypotheses are
    those of the code: 65,535 bytes for a key, 2^48 keys and times, the parser's limits on
    arrays and bulk strings, 65,535 entries and bytes of a compact form, 2^32 members or values of
    a collection, arenas below 4 GiB, 64-bit offsets.

    ** Not modelled

    - The full forms of sorted sets, hashes and arrays, the lists over the packed memory array and
      the linear hash index (alternative implementations behind the same interfaces as what is
      modelled), the operations of the store on sets, hashes and sorted sets, and the handlers of
      their commands; the parking of clients that wait for a list; INCRBYFLOAT and floating-point
      replies, which need the shortest printing of doubles.
    - Snapshots, authentication, Kafka, RDMA, the event loop, the generated SBE codecs and the
      clients over them: I/O and third-party interfaces.
    - The byte arena under the keyspace: blobs are kept with the ids that refer to them.
    - The memory ceiling of the keyspace and of the expiry set inside the store.  [Store] and the
      command handlers over it are a server without a memory limit: there the expiry set is a map whose update
      always succeeds, and the reply [execute_command_into] has for [MaxMemoryExceeded] is not reached.  The
      containers, the collections and the list operations of the store ([StoreLists]) are modelled with
      the exceptions of a limit; a refused first insertion into the expiry set can break its list
      ([sorted_list_limit_unsafe]), so the theorems on commands do not carry over to a server
      with one. *)

From stdpp Require Export base list numbers option strings relations.
From stdpp Require countable.
From Stdlib Require Export Strings.Byte.
From Stdlib Require Import ZArith Lia.

Local Open Scope Z_scope.

(** ** Machine integers *)

(** [wrap w z] is the value of a [w]-bit unsigned C++ integer after the
    (modular) arithmetic produced the mathematical result [z]. *)
Definition wrap (w z : Z) : Z := z mod 2 ^ w.

Declare Scope goblin_scope.
Delimit Scope goblin_scope with goblin.
Abbreviation u16 z := (wrap 16 z) (only parsing).
Abbreviation u32 z := (wrap 32 z) (only parsing).
Abbreviation u64 z := (wrap 64 z) (only parsing).

Definition u64_max : Z := 2 ^ 64 - 1.
Definition i64_max : Z := 2 ^ 63 - 1.
Definition i64_min : Z := - 2 ^ 63.

Lemma wrap_small w z : 0 <= z < 2 ^ w -> wrap w z = z.
Proof. intros. unfold wrap. by apply Z.mod_small. Qed.

Lemma wrap_range w z : 0 <= w -> 0 <= wrap w z < 2 ^ w.
Proof. intros. unfold wrap. apply Z.mod_pos_bound. lia. Qed.

Lemma wrap_wrap w z : 0 <= w -> wrap w (wrap w z) = wrap w z.
Proof. intros. apply wrap_small. by apply wrap_range. Qed.

(** The sum of two values of type [std::size_t]. *)
Definition size_add (a b : nat) : nat := Z.to_nat (u64 (Z.of_nat a + Z.of_nat b)).

Lemma size_add_small a b : Z.of_nat a + Z.of_nat b < 2 ^ 64 -> size_add a b = (a + b)%nat.
Proof. intros Hs. unfold size_add. rewrite wrap_small by lia. lia. Qed.

(** A word shifted left has no bit in common with one that fits below it. *)
Lemma land_shiftl_small v b n : 0 <= n -> 0 <= b < 2 ^ n -> Z.land (Z.shiftl v n) b = 0.
Proof.
  intros Hn Hb. apply Z.bits_inj'. intros i Hi. rewrite Z.land_spec, Z.bits_0.
  destruct (Z.lt_ge_cases i n); [by rewrite Z.shiftl_spec_low|].
  rewrite <- (Z.mod_small b (2 ^ n)) by done. rewrite Z.mod_pow2_bits_high by lia. apply andb_false_r.
Qed.

Lemma lor_shift_add v b n : 0 <= n -> 0 <= b < 2 ^ n -> Z.lor (Z.shiftl v n) b = v * 2 ^ n + b.
Proof.
  intros Hn Hb. rewrite <- Z.shiftl_mul_pow2 by done. symmetry. pose proof (land_shiftl_small v b n Hn Hb).
  rewrite Z.add_nocarry_lxor by done. by apply Z.lxor_lor.
Qed.

(** ** Bytes *)

Abbreviation byte := Byte.byte.
Abbreviation bytes := (list Byte.byte).

#[global] Instance byte_eq_dec : EqDecision byte := Byte.byte_eq_dec.

#[global] Program Instance byte_countable : countable.Countable byte :=
  countable.inj_countable Byte.to_N Byte.of_N _.
Next Obligation. intros b. apply Byte.of_to_N. Qed.

(** [u8 b] is [static_cast<unsigned char>(b)]; [b8 z] is the conversion of an
    integer to [char], which keeps the low eight bits. *)
Definition u8 (b : byte) : Z := Z.of_N (Byte.to_N b).
Definition b8 (z : Z) : byte :=
  match Byte.of_N (Z.to_N (z mod 256)) with Some b => b | None => x00 end.

Lemma u8_range b : 0 <= u8 b < 256.
Proof. unfold u8. pose proof (Byte.to_N_bounded b). lia. Qed.

Lemma u8_b8 z : u8 (b8 z) = z mod 256.
Proof.
  unfold u8, b8.
  pose proof (Z.mod_pos_bound z 256 ltac:(lia)).
  destruct (Byte.of_N (Z.to_N (z mod 256))) as [b|] eqn:E.
  - apply Byte.to_of_N in E. lia.
  - apply Byte.of_N_None_iff in E. lia.
Qed.

Lemma b8_u8 b : b8 (u8 b) = b.
Proof.
  unfold b8, u8. pose proof (u8_range b) as H. unfold u8 in H.
  rewrite Z.mod_small by lia. rewrite N2Z.id. by rewrite Byte.of_to_N.
Qed.

Lemma u8_inj b c : u8 b = u8 c -> b = c.
Proof. intros H. by rewrite <- (b8_u8 b), H, b8_u8. Qed.

#[global] Instance u8_Inj : Inj (=) (=) u8.
Proof. intros ??. apply u8_inj. Qed.

Lemma u8_b8_small z : 0 <= z < 256 -> u8 (b8 z) = z.
Proof. intros. rewrite u8_b8. by apply Z.mod_small. Qed.

(** The bytes of a C++ string literal. *)
Abbreviation str s := (String.list_byte_of_string s).

(** ** Partial memory reads

    A read of [len] bytes at offset [off] of a buffer.  [None] is a read out
    of the buffer, which C++ leaves undefined; a theorem that gives [Some]
    therefore also says that the code stays inside the buffer. *)
Definition slice (off len : nat) (m : bytes) : option bytes :=
  if decide (off + len <= length m)%nat then Some (take len (drop off m)) else None.

Definition byte_at (off : nat) (m : bytes) : option Z := u8 <$> m !! off.

Lemma slice_app (a b c : bytes) off len :
  off = length a -> len = length b -> slice off len (a ++ b ++ c) = Some b.
Proof.
  intros -> ->. unfold slice. rewrite !length_app, decide_True by lia.
  rewrite drop_app_length. by rewrite take_app_length.
Qed.

Lemma slice_Some off len m b :
  slice off len m = Some b -> length b = len /\ (off + len <= length m)%nat.
Proof.
  unfold slice. case_decide; [|done]. intros [= <-].
  rewrite length_take, length_drop. lia.
Qed.

Lemma slice_full m : slice 0 (length m) m = Some m.
Proof. unfold slice. rewrite decide_True by lia. simpl. by rewrite take_ge. Qed.

Lemma slice_app_l off len (a b : bytes) :
  (off + len <= length a)%nat -> slice off len (a ++ b) = slice off len a.
Proof.
  intros. unfold slice. rewrite length_app, !decide_True by lia.
  rewrite drop_app_le by lia. rewrite take_app_le; [done|]. rewrite length_drop. lia.
Qed.

Lemma slice_app_r off len (a b : bytes) :
  slice (length a + off) len (a ++ b) = slice off len b.
Proof.
  unfold slice. rewrite length_app.
  repeat case_decide; try lia; [|done]. by rewrite drop_app_add.
Qed.

Lemma byte_at_app_r off (a b : bytes) : byte_at (length a + off) (a ++ b) = byte_at off b.
Proof. unfold byte_at. rewrite lookup_app_r by lia. do 2 f_equal. lia. Qed.

Lemma byte_at_app_hd (a b : bytes) x : byte_at (length a) (a ++ x :: b) = Some (u8 x).
Proof. unfold byte_at. by rewrite list_lookup_middle. Qed.

(** A [memcpy] of [data] into a buffer at offset [off]; [None] is a write out of
    the buffer. *)
Definition poke (off : nat) (data m : bytes) : option bytes :=
  if decide (off + length data <= length m)%nat
  then Some (take off m ++ data ++ drop (off + length data) m) else None.

Lemma poke_app (a b c data : bytes) off :
  off = length a -> length data = length b -> poke off data (a ++ b ++ c) = Some (a ++ data ++ c).
Proof.
  intros -> Hl. unfold poke. rewrite !length_app, decide_True by lia.
  rewrite take_app_length, drop_app_add, Hl, drop_app_length. done.
Qed.

Lemma poke_length off data m m' : poke off data m = Some m' -> length m' = length m.
Proof.
  unfold poke. case_decide; [|done]. intros [= <-].
  rewrite !length_app, length_take, length_drop. lia.
Qed.

Lemma poke_lookup off data m m' x :
  poke off data m = Some m' ->
  m' !! x = if decide (off <= x < off + length data)%nat then data !! (x - off)%nat else m !! x.
Proof.
  unfold poke. case_decide as Hb; [|done]. intros [= <-].
  assert (Hl : length (take off m) = off) by (rewrite length_take; lia).
  case_decide as Hx.
  - rewrite lookup_app_r, Hl by lia. by rewrite lookup_app_l by lia.
  - destruct (decide (x < off)%nat).
    + rewrite lookup_app_l by lia. by rewrite lookup_take_lt by lia.
    + rewrite lookup_app_r, Hl by lia. rewrite lookup_app_r by lia. rewrite lookup_drop. f_equal. lia.
Qed.

(** [std::string::resize] to a larger size fills with zero bytes. *)
Definition grow (n : nat) (m : bytes) : bytes := m ++ replicate n x00.

(** Writing exactly the grown part appends. *)
Lemma poke_grow m data n :
  length data = n -> poke (length m) data (grow n m) = Some (m ++ data).
Proof.
  intros <-. unfold grow.
  pose proof (poke_app m (replicate (length data) x00) [] data (length m)) as H.
  rewrite !app_nil_r in H. apply H; [done|]. by rewrite length_replicate.
Qed.

(** Writing the first part of a grown region leaves the rest of it for later. *)
Lemma poke_grow_prefix m data n :
  poke (length m) data (grow (length data + n) m) = Some (grow n (m ++ data)).
Proof.
  unfold grow. rewrite replicate_add, <- app_assoc.
  apply poke_app; [done|]. by rewrite length_replicate.
Qed.

(** ** Little-endian words, as [std::memcpy] of an integer stores them *)

Fixpoint le_bytes (n : nat) (v : Z) : bytes :=
  match n with
  | O => []
  | S n => b8 v :: le_bytes n (v / 256)
  end.

Fixpoint le_val (l : bytes) : Z :=
  match l with
  | [] => 0
  | b :: l => u8 b + 256 * le_val l
  end.

Lemma length_le_bytes n v : length (le_bytes n v) = n.
Proof. revert v. induction n; simpl; auto. Qed.

Lemma le_val_bytes n v : le_val (le_bytes n v) = v mod 2 ^ (8 * Z.of_nat n).
Proof.
  revert v. induction n as [|n IH]; intros v; cbn [le_bytes le_val].
  - by rewrite Z.mod_1_r.
  - rewrite IH, u8_b8.
    replace (8 * Z.of_nat (S n)) with (8 + 8 * Z.of_nat n) by lia.
    rewrite Z.pow_add_r by lia. change (2 ^ 8) with 256.
    rewrite Z.rem_mul_r by lia. lia.
Qed.

Lemma le_val_range l : 0 <= le_val l < 2 ^ (8 * Z.of_nat (length l)).
Proof.
  induction l as [|b l IH]; cbn [le_val length]; [lia|].
  replace (8 * Z.of_nat (S (length l))) with (8 + 8 * Z.of_nat (length l)) by lia.
  rewrite Z.pow_add_r by lia. change (2 ^ 8) with 256.
  pose proof (u8_range b). nia.
Qed.

Lemma le_bytes_val l : le_bytes (length l) (le_val l) = l.
Proof.
  induction l as [|b l IH]; cbn [le_bytes le_val length]; [done|].
  pose proof (u8_range b). pose proof (le_val_range l). f_equal.
  - apply u8_inj. rewrite u8_b8. rewrite Z.mul_comm, Z.mod_add by lia.
    by apply Z.mod_small.
  - rewrite Z.mul_comm, Z.div_add, Z.div_small by lia. by rewrite Z.add_0_l.
Qed.

Lemma le_bytes_val' n l : length l = n -> le_bytes n (le_val l) = l.
Proof. intros <-. apply le_bytes_val. Qed.

Lemma le_val_bytes_small n v :
  0 <= v < 2 ^ (8 * Z.of_nat n) -> le_val (le_bytes n v) = v.
Proof. intros. rewrite le_val_bytes. by apply Z.mod_small. Qed.

Lemma le_bytes_add n m v : le_bytes (n + m) v = le_bytes n v ++ le_bytes m (v / 2 ^ (8 * Z.of_nat n)).
Proof.
  revert v. induction n as [|n IH]; intros v; [by rewrite Z.div_1_r|].
  cbn [Nat.add le_bytes app]. rewrite IH, Z.div_div by lia. do 3 f_equal.
  replace (8 * Z.of_nat (S n)) with (8 + 8 * Z.of_nat n) by lia. by rewrite Z.pow_add_r by lia.
Qed.

Lemma le_val_app a b : le_val (a ++ b) = le_val a + 2 ^ (8 * Z.of_nat (length a)) * le_val b.
Proof.
  induction a as [|x a IH]; cbn [le_val length app]; [lia|].
  rewrite IH. replace (8 * Z.of_nat (S (length a))) with (8 + 8 * Z.of_nat (length a)) by lia.
  rewrite Z.pow_add_r by lia. change (2 ^ 8) with 256. lia.
Qed.

(** Reading an [n]-byte little-endian integer at an offset. *)
Definition read_le (n off : nat) (m : bytes) : option Z := le_val <$> slice off n m.

Lemma read_le_app n off (a c : bytes) v :
  off = length a -> 0 <= v < 2 ^ (8 * Z.of_nat n) ->
  read_le n off (a ++ le_bytes n v ++ c) = Some v.
Proof.
  intros. unfold read_le. rewrite slice_app by (auto; by rewrite length_le_bytes).
  simpl. by rewrite le_val_bytes_small.
Qed.

(** ** Results of effectful code

    A C++ function that touches memory or throws either returns, throws (the
    message is kept) or leaves the defined behaviour of the language: a read or
    write out of its buffer, or a failed [assert].  A theorem that gives [Ret]
    or [Throw] therefore also excludes [Undef]. *)
Inductive result (A : Type) :=
| Ret (a : A)
| Throw (message : bytes)
| Undef.
Arguments Ret {_} _.
Arguments Throw {_} _.
Arguments Undef {_}.

#[global] Instance result_ret : MRet result := @Ret.
#[global] Instance result_bind : MBind result := fun A B f x =>
  match x with Ret a => f a | Throw e => Throw e | Undef => Undef end.

Definition of_option {A} (x : option A) : result A :=
  match x with Some a => Ret a | None => Undef end.
Definition assert_ (b : bool) : result unit := if b then Ret tt else Undef.

Lemma result_bind_Ret {A B} (x : result A) (f : A -> result B) b :
  x ≫= f = Ret b <-> exists a, x = Ret a /\ f a = Ret b.
Proof. destruct x; simpl; split; try done; [by exists a|by intros (? & [= ->] & ?)|by intros (? & ? & _)..]. Qed.

(** Loads, stores and copies. *)
Definition load (off len : nat) (m : bytes) : result bytes := of_option (slice off len m).
Definition load_u8 (off : nat) (m : bytes) : result Z := of_option (byte_at off m).
Definition load_le (n off : nat) (m : bytes) : result Z := of_option (read_le n off m).
Definition store (off : nat) (data m : bytes) : result bytes := of_option (poke off data m).
Definition memcpy (dst_off : nat) (src : bytes) (src_off len : nat) (dst : bytes) : result bytes :=
  data ← load src_off len src; store dst_off data dst.

(** A fresh allocation of [n] bytes of unspecified content, here all [junk]. *)
Definition fresh_bytes (junk : byte) (n : nat) : bytes := replicate n junk.

(** Storing at the end of the written part of a fresh allocation. *)
Lemma store_next rest junk (w data : bytes) off k :
  off = length w -> k = (length data + rest)%nat ->
  store off data (w ++ fresh_bytes junk k) = Ret ((w ++ data) ++ fresh_bytes junk rest).
Proof.
  intros -> ->. unfold store, fresh_bytes.
  rewrite replicate_add, <- app_assoc. rewrite poke_app; [done|done|]. by rewrite length_replicate.
Qed.

Lemma load_app (a b c : bytes) off len :
  off = length a -> len = length b -> load off len (a ++ b ++ c) = Ret b.
Proof. intros. unfold load. by rewrite slice_app. Qed.

Lemma memcpy_next rest junk (w src data : bytes) off so len k :
  load so len src = Ret data -> off = length w -> k = (len + rest)%nat ->
  memcpy off src so len (w ++ fresh_bytes junk k) = Ret ((w ++ data) ++ fresh_bytes junk rest).
Proof.
  intros Hl Ho Hk. unfold memcpy. rewrite Hl. cbn [mbind result_bind].
  unfold load in Hl. destruct (slice so len src) eqn:E; [|done]. injection Hl as <-.
  apply slice_Some in E as [E _]. apply store_next; [done|lia].
Qed.

(** ** Lengths of one or two bytes

    The first byte carries a mark in its top bit when a second one follows. *)

Lemma one_byte_code n : 0 <= n < 128 -> (Z.land n 0x80 =? 0) = true.
Proof.
  intros Hn. assert (H : forallb (fun k => Z.land (Z.of_nat k) 128 =? 0) (seq 0 128) = true) by (vm_compute; reflexivity).
  rewrite forallb_forall in H. specialize (H (Z.to_nat n)). rewrite Z2Nat.id in H by lia. apply H, in_seq. lia.
Qed.

Lemma two_byte_code n :
  0 <= n <= 0x7FFF ->
  let first := u8 (b8 (Z.lor 0x80 (Z.land (Z.shiftr n 8) 0x7F))) in let second := u8 (b8 (Z.land n 0xFF)) in
  (Z.land first 0x80 =? 0) = false /\ Z.lor (Z.shiftl (Z.land first 0x7F) 8) second = n.
Proof.
  intros Hn. change 0x7F with (Z.ones 7). change 0xFF with (Z.ones 8). rewrite !Z.land_ones by lia. rewrite Z.shiftr_div_pow2 by lia.
  change (2 ^ 7) with 128. change (2 ^ 8) with 256. set (q := n / 256). set (r := n mod 256).
  assert (Hq : 0 <= q < 128) by (unfold q; split; [apply Z.div_pos; lia|apply Z.div_lt_upper_bound; lia]).
  assert (Hr : 0 <= r < 256) by (apply Z.mod_pos_bound; lia). assert (Hnq : n = q * 256 + r) by (unfold q, r; rewrite (Z.div_mod n 256) at 1; lia).
  rewrite (Z.mod_small q) by lia. replace (Z.lor 128 q) with (128 + q).
  2: { change 128 with (Z.shiftl 1 7). rewrite lor_shift_add by (simpl; lia). change (Z.shiftl 1 7) with 128. lia. }
  rewrite !u8_b8_small by lia. split.
  - assert (H : forallb (fun k => negb (Z.land (128 + Z.of_nat k) 128 =? 0)) (seq 0 128) = true) by (vm_compute; reflexivity).
    rewrite forallb_forall in H. specialize (H (Z.to_nat q)). rewrite Z2Nat.id in H by lia. apply negb_true_iff, H, in_seq. lia.
  - rewrite Z.land_ones by lia. change (2 ^ 7) with 128. replace ((128 + q) mod 128) with q.
    + rewrite lor_shift_add by (simpl; lia). change (2 ^ 8) with 256. lia.
    + replace (128 + q) with (q + 1 * 128) by lia. rewrite Z.mod_add by lia. symmetry. by apply Z.mod_small.
Qed.

Lemma byte_at_app_next (pre post : bytes) x y : byte_at (length pre + 1) (pre ++ x :: y :: post) = Some (u8 y).
Proof. rewrite byte_at_app_r. done. Qed.

#[global] Arguments slice : simpl never.
#[global] Arguments poke : simpl never.
#[global] Arguments grow : simpl never.
#[global] Arguments byte_at : simpl never.
#[global] Arguments read_le : simpl never.
#[global] Arguments load : simpl never.
#[global] Arguments load_u8 : simpl never.
#[global] Arguments load_le : simpl never.
#[global] Arguments store : simpl never.
#[global] Arguments memcpy : simpl never.
#[global] Arguments fresh_bytes : simpl never.
#[global] Arguments wrap : simpl never.
#[global] Arguments u8 : simpl never.
#[global] Arguments b8 : simpl never.

(** ** Hint databases and tactics of the development *)

Create HintDb goblin.
Create Rewrite HintDb lens.
#[export] Hint Resolve u8_range wrap_range le_val_range : goblin.
#[export] Hint Rewrite @length_app @length_take @length_drop @length_cons @length_nil
  length_le_bytes @length_replicate @length_rev @length_map : lens.

(** Normalise list lengths, then call [lia]. *)
Ltac len_lia := autorewrite with lens in *; cbn [length] in *; lia.

(** Split every boolean comparison of the goal and the context that guards a branch. *)
Ltac case_bool :=
  match goal with
  | |- context [Z.ltb ?a ?b] => destruct (Z.ltb_spec a b)
  | |- context [Z.leb ?a ?b] => destruct (Z.leb_spec a b)
  | |- context [Z.eqb ?a ?b] => destruct (Z.eqb_spec a b)
  | |- context [Z.gtb ?a ?b] => rewrite (Z.gtb_ltb a b)
  | |- context [Z.geb ?a ?b] => rewrite (Z.geb_leb a b)
  | H : context [Z.ltb ?a ?b] |- _ => destruct (Z.ltb_spec a b)
  | H : context [Z.leb ?a ?b] |- _ => destruct (Z.leb_spec a b)
  | H : context [Z.eqb ?a ?b] |- _ => destruct (Z.eqb_spec a b)
  | H : context [Z.gtb ?a ?b] |- _ => rewrite (Z.gtb_ltb a b) in H
  | H : context [Z.geb ?a ?b] |- _ => rewrite (Z.geb_leb a b) in H
  end.

(** [rew_true H] rewrites a boolean comparison to the value that [lia] gives it. *)
Ltac btrue b := replace b with true by (symmetry; first [apply Z.leb_le | apply Z.ltb_lt | apply Z.eqb_eq]; lia).
Ltac bfalse b := replace b with false by (symmetry; first [apply Z.leb_gt | apply Z.ltb_ge | apply Z.eqb_neq]; lia).
