(* ===== verification/ParseInt.v ===== *)
(** * Decimal integers

    [include/goblin/core/parse_int.hpp] over the integer reader of the vendored
    fast_float ([third_party/fast_float]): [parse_i64], [parse_u64] and
    [parse_canonical_u64], with [std::to_chars] for the way back.

    The reader multiplies in a wrapping [uint64_t] and checks for overflow
    afterwards, by counting digits and comparing with [min_safe_u64(10)]; the
    model keeps that order. *)

From Stdlib Require Import ZArith Lia.
From S2P Require Import Prelude.

Local Open Scope Z_scope.

(** ** The reader of fast_float *)

Inductive errc := errc_ok | invalid_argument | result_out_of_range.

Record from_chars_result := { ec : errc; ptr : nat; value : Z }.

Definition is_digit (b : byte) : bool := (48 <=? u8 b) && (u8 b <=? 57).

(** The table [int_luts<>::chdigit]. *)
Definition ch_to_digit (b : byte) : Z :=
  if is_digit b then u8 b - 48
  else if (65 <=? u8 b) && (u8 b <=? 90) then u8 b - 55
  else if (97 <=? u8 b) && (u8 b <=? 122) then u8 b - 87
  else 255.

Definition max_digits_u64 : nat := 20.
Definition min_safe_u64 : Z := 10000000000000000000.

(** The value of a digit string. *)
Definition dec_val (l : bytes) : Z := fold_left (fun a b => 10 * a + ch_to_digit b) l 0.

(** The eight-at-a-time loop: while at least eight characters remain and all
    of them are digits, [i = i * 100000000 + parse_eight_digits_unrolled(p)]. *)
Fixpoint loop_parse_if_eight_digits (l : bytes) (i : Z) : Z * bytes :=
  match l with
  | b0 :: b1 :: b2 :: b3 :: b4 :: b5 :: b6 :: b7 :: rest =>
    if forallb is_digit [b0; b1; b2; b3; b4; b5; b6; b7]
    then loop_parse_if_eight_digits rest
           (wrap 64 (i * 100000000 + dec_val [b0; b1; b2; b3; b4; b5; b6; b7]))
    else (i, l)
  | _ => (i, l)
  end.

(** The loop that reads the remaining digits one by one. *)
Fixpoint digit_loop (l : bytes) (i : Z) : Z * bytes :=
  match l with
  | [] => (i, [])
  | b :: rest =>
    if 10 <=? ch_to_digit b then (i, l)
    else digit_loop rest (wrap 64 (10 * i + ch_to_digit b))
  end.

Fixpoint skip_zeros (l : bytes) : bytes :=
  match l with
  | b :: rest => if decide (b = "0"%byte) then skip_zeros rest else l
  | [] => []
  end.

(** [parse_int_string] for base 10 and the default options (no leading plus,
    no white space); [signed] is [std::is_signed<T>::value], with [T] one of
    [long long] and [uint64_t]. *)
Definition parse_int_string (signed : bool) (text : bytes) : from_chars_result :=
  let negative := match text with b :: _ => bool_decide (b = "-"%byte) | [] => false end in
  if negb signed && negative then {| ec := invalid_argument; ptr := 0; value := 0 |}
  else
    let start_num := if negative then tail text else text in
    let start_digits := skip_zeros start_num in
    let has_leading_zeros := (length start_digits <? length start_num)%nat in
    let '(i8, p8) := loop_parse_if_eight_digits start_digits 0 in
    let '(i, p) := digit_loop p8 i8 in
    let digit_count := (length start_digits - length p)%nat in
    let at_p := (length text - length p)%nat in
    if (digit_count =? 0)%nat then
      if has_leading_zeros then {| ec := errc_ok; ptr := at_p; value := 0 |}
      else {| ec := invalid_argument; ptr := 0; value := 0 |}
    else if (max_digits_u64 <? digit_count)%nat then
      {| ec := result_out_of_range; ptr := at_p; value := 0 |}
    else if (digit_count =? max_digits_u64)%nat && (i <? min_safe_u64) then
      {| ec := result_out_of_range; ptr := at_p; value := 0 |}
    else if signed && (i64_max + Z.b2z negative <? i) then
      {| ec := result_out_of_range; ptr := at_p; value := 0 |}
    else {| ec := errc_ok; ptr := at_p; value := if negative then - i else i |}.

(** [from_chars_int_advanced]: the empty range is [invalid_argument]. *)
Definition from_chars_int (signed : bool) (text : bytes) : from_chars_result :=
  match text with
  | [] => {| ec := invalid_argument; ptr := 0; value := 0 |}
  | _ => parse_int_string signed text
  end.

(** ** [parse_int.hpp] *)

Definition full_consume (text : bytes) (answer : from_chars_result) : option Z :=
  match ec answer with
  | errc_ok => if (ptr answer =? length text)%nat then Some (value answer) else None
  | _ => None
  end.

Definition parse_i64 (text : bytes) : option Z :=
  match text with [] => None | _ => full_consume text (from_chars_int true text) end.

Definition parse_u64 (text : bytes) : option Z :=
  match text with [] => None | _ => full_consume text (from_chars_int false text) end.

Definition parse_canonical_u64 (digits : bytes) : option Z :=
  match digits with
  | [] => None
  | b :: rest =>
    if bool_decide (rest <> []) && bool_decide (b = "0"%byte) then None
    else parse_u64 digits
  end.

(** ** [std::to_chars] for an unsigned 64-bit value, base 10 *)

Definition dec_char (d : Z) : byte := b8 (48 + d).

Fixpoint to_dec (fuel : nat) (v : Z) : bytes :=
  match fuel with
  | O => []
  | S fuel => if v <? 10 then [dec_char v] else to_dec fuel (v / 10) ++ [dec_char (v mod 10)]
  end.

(** Twenty digits are enough for every [uint64_t]. *)
Definition to_chars_u64 (v : Z) : bytes := to_dec 20 v.

(** ** Digit strings *)

Definition digits (l : bytes) : Prop := Forall (fun b => is_digit b = true) l.

Lemma is_digit_iff b : is_digit b = true <-> 48 <= u8 b <= 57.
Proof. unfold is_digit. rewrite andb_true_iff, !Z.leb_le. done. Qed.

Lemma ch_to_digit_digit b : is_digit b = true -> ch_to_digit b = u8 b - 48.
Proof. intros H. unfold ch_to_digit. by rewrite H. Qed.

Lemma ch_to_digit_range b : is_digit b = true -> 0 <= ch_to_digit b <= 9.
Proof. intros H. rewrite ch_to_digit_digit by done. apply is_digit_iff in H. lia. Qed.

Lemma ch_to_digit_not b : is_digit b = false -> 10 <= ch_to_digit b.
Proof. intros H. unfold ch_to_digit. rewrite H. repeat case_bool; simpl; lia. Qed.

Lemma forallb_digits l : forallb is_digit l = true -> digits l.
Proof.
  induction l as [|b l IH]; intros H; [constructor|].
  apply andb_true_iff in H as [H1 H2]. apply Forall_cons. split; [exact H1|by apply IH].
Qed.

Lemma dec_val_snoc l b : dec_val (l ++ [b]) = 10 * dec_val l + ch_to_digit b.
Proof. unfold dec_val. by rewrite fold_left_app. Qed.

Lemma dec_val_app l1 l2 :
  dec_val (l1 ++ l2) = dec_val l1 * 10 ^ Z.of_nat (length l2) + dec_val l2.
Proof.
  induction l2 as [|b l2 IH] using rev_ind.
  - rewrite app_nil_r. unfold dec_val at 3. simpl. lia.
  - rewrite app_assoc, !dec_val_snoc, IH, length_app, Nat2Z.inj_add, Z.pow_add_r by lia.
    simpl length. lia.
Qed.

Lemma dec_val_range l : digits l -> 0 <= dec_val l < 10 ^ Z.of_nat (length l).
Proof.
  induction l as [|b l IH] using rev_ind; [unfold dec_val; simpl; lia|].
  intros [H1 H2]%Forall_app. apply Forall_cons in H2 as [Hb _].
  rewrite dec_val_snoc, length_app, Nat2Z.inj_add, Z.pow_add_r by lia.
  apply ch_to_digit_range in Hb. specialize (IH H1). simpl length. lia.
Qed.

Lemma dec_val_lower b l :
  digits (b :: l) -> b <> "0"%byte -> 10 ^ Z.of_nat (length l) <= dec_val (b :: l).
Proof.
  intros H Hb. apply Forall_cons in H as [H1 H2].
  change (b :: l) with ([b] ++ l). rewrite dec_val_app.
  pose proof (dec_val_range _ H2). pose proof (ch_to_digit_range _ H1).
  assert (ch_to_digit b <> 0).
  { rewrite ch_to_digit_digit by done. intros E. apply Hb, u8_inj. change (u8 "0"%byte) with 48. lia. }
  unfold dec_val at 1. simpl. nia.
Qed.

(** ** The digit loops *)

Definition run (l : bytes) : Z * bytes :=
  let '(i8, p8) := loop_parse_if_eight_digits l 0 in digit_loop p8 i8.

Definition no_digit_head (p : bytes) : Prop :=
  match p with [] => True | b :: _ => is_digit b = false end.

Lemma wrap_dec_step i d l :
  wrap 64 (wrap 64 (i * 10 ^ Z.of_nat (length d) + dec_val d) * 10 ^ Z.of_nat (length l) + dec_val l)
  = wrap 64 (i * 10 ^ Z.of_nat (length (d ++ l)) + dec_val (d ++ l)).
Proof.
  rewrite dec_val_app, length_app, Nat2Z.inj_add, Z.pow_add_r by lia.
  unfold wrap. rewrite <- Z.add_mod_idemp_l, Z.mul_mod_idemp_l, Z.add_mod_idemp_l by lia.
  f_equal. ring.
Qed.

Lemma loop8_spec n l i :
  (length l <= n)%nat -> 0 <= i < 2 ^ 64 ->
  exists d p, l = d ++ p /\ digits d /\
    loop_parse_if_eight_digits l i = (wrap 64 (i * 10 ^ Z.of_nat (length d) + dec_val d), p).
Proof.
  assert (Hstop : forall l i, 0 <= i < 2 ^ 64 ->
    exists d p, l = d ++ p /\ digits d /\
      (i, l) = (wrap 64 (i * 10 ^ Z.of_nat (length d) + dec_val d), p)).
  { intros l' i' Hi'. exists [], l'. split; [done|]. split; [constructor|].
    unfold dec_val. simpl. rewrite wrap_small; [f_equal; lia|lia]. }
  revert l i. induction n as [|n IH]; intros l i Hn Hi.
  { destruct l; [|simpl in Hn; lia]. by apply Hstop. }
  do 8 (destruct l as [|? l]; [by apply Hstop|]).
  cbn [loop_parse_if_eight_digits].
  match goal with |- context [forallb is_digit ?x] => set (e := x) end.
  destruct (forallb is_digit e) eqn:E; [|by apply Hstop].
  destruct (IH l (wrap 64 (i * 100000000 + dec_val e))) as (d & p & -> & Hd & ->).
  { simpl in Hn. lia. }
  { by apply wrap_range. }
  exists (e ++ d), p. split; [done|]. split.
  - apply Forall_app. split; [|done]. by apply forallb_digits.
  - f_equal. change 100000000 with (10 ^ Z.of_nat (length e)). apply wrap_dec_step.
Qed.

Lemma digit_loop_spec l i :
  0 <= i < 2 ^ 64 ->
  exists d p, l = d ++ p /\ digits d /\ no_digit_head p /\
    digit_loop l i = (wrap 64 (i * 10 ^ Z.of_nat (length d) + dec_val d), p).
Proof.
  revert i. induction l as [|b l IH]; intros i Hi; cbn [digit_loop].
  - exists [], []. split_and!; [done|constructor|done|]. unfold dec_val. simpl. by rewrite wrap_small; [f_equal; lia|lia].
  - destruct (is_digit b) eqn:Hb.
    + pose proof (ch_to_digit_range _ Hb). bfalse (10 <=? ch_to_digit b).
      destruct (IH (wrap 64 (10 * i + ch_to_digit b))) as (d & p & -> & Hd & Hp & ->).
      { by apply wrap_range. }
      exists (b :: d), p. split_and!; [done|by constructor|done|]. f_equal.
      change (b :: d) with ([b] ++ d). rewrite <- wrap_dec_step.
      do 4 f_equal. unfold dec_val. simpl. lia.
    + pose proof (ch_to_digit_not _ Hb). btrue (10 <=? ch_to_digit b).
      exists [], (b :: l). split_and!; [done|constructor|done|]. unfold dec_val. simpl.
      by rewrite wrap_small; [f_equal; lia|lia].
Qed.

Lemma run_spec l :
  exists d p, l = d ++ p /\ digits d /\ no_digit_head p /\ run l = (wrap 64 (dec_val d), p).
Proof.
  unfold run. destruct (loop8_spec (length l) l 0) as (d & p & -> & Hd & ->); [done|lia|].
  destruct (digit_loop_spec p (wrap 64 (0 * 10 ^ Z.of_nat (length d) + dec_val d)))
    as (d' & p' & -> & Hd' & Hp' & ->); [by apply wrap_range|].
  exists (d ++ d'), p'. rewrite <- app_assoc. split_and!; [done|by apply Forall_app|done|].
  by rewrite wrap_dec_step, Z.mul_0_l, Z.add_0_l.
Qed.

Lemma run_digits l : digits l -> run l = (wrap 64 (dec_val l), []).
Proof.
  intros H. destruct (run_spec l) as (d & p & E & Hd & Hp & ->).
  destruct p as [|b p]; [by rewrite app_nil_r in E; subst|].
  subst l. apply Forall_app in H as [_ H]. apply Forall_cons in H as [H _].
  simpl in Hp. congruence.
Qed.

Lemma run_complete l i : run l = (i, []) -> digits l.
Proof.
  destruct (run_spec l) as (d & p & -> & Hd & _ & ->). intros [= _ ->]. by rewrite app_nil_r.
Qed.

Lemma skip_zeros_spec l :
  exists n, l = replicate n "0"%byte ++ skip_zeros l /\
    match skip_zeros l with [] => True | b :: _ => b <> "0"%byte end.
Proof.
  induction l as [|b l (n & E & H)]; cbn [skip_zeros]; [by exists 0%nat|].
  case_decide as Hb; [|by exists 0%nat].
  exists (S n). simpl. split; [congruence|done].
Qed.

Lemma digits_zeros n : digits (replicate n "0"%byte).
Proof. apply Forall_replicate. reflexivity. Qed.

Lemma dec_val_zeros n l : dec_val (replicate n "0"%byte ++ l) = dec_val l.
Proof.
  rewrite dec_val_app. assert (H : dec_val (replicate n "0"%byte) = 0); [|rewrite H; lia].
  induction n; [done|]. rewrite replicate_S_end, dec_val_snoc, IHn. reflexivity.
Qed.

Lemma digits_skip_zeros l : digits l <-> digits (skip_zeros l).
Proof.
  destruct (skip_zeros_spec l) as (n & E & _). rewrite E at 1. unfold digits.
  rewrite Forall_app. pose proof (digits_zeros n). tauto.
Qed.

(** ** What the reader accepts when the whole text has to be consumed *)

Definition is_minus (text : bytes) : bool :=
  match text with b :: _ => bool_decide (b = "-"%byte) | [] => false end.

Definition body (text : bytes) : bytes := if is_minus text then tail text else text.

Definition accepted (signed neg : bool) (d : bytes) : option Z :=
  let i := wrap 64 (dec_val d) in
  if (length d =? 0)%nat then Some 0
  else if (max_digits_u64 <? length d)%nat then None
  else if (length d =? max_digits_u64)%nat && (i <? min_safe_u64) then None
  else if signed && (i64_max + Z.b2z neg <? i) then None
  else Some (if neg then - i else i).

Lemma length_skip_zeros l : (length (skip_zeros l) <= length l)%nat.
Proof. destruct (skip_zeros_spec l) as (n & E & _). rewrite E at 2. len_lia. Qed.

Lemma parse_int_string_digits signed text :
  (signed = false -> is_minus text = false) -> body text <> [] -> digits (body text) ->
  full_consume text (parse_int_string signed text)
  = accepted signed (is_minus text) (skip_zeros (body text)).
Proof.
  intros Hs Hne Hd. unfold parse_int_string.
  change (match text with | [] => false | b :: _ => bool_decide (b = "-"%byte) end)
    with (is_minus text).
  change (if is_minus text then tail text else text) with (body text).
  assert (Hn : negb signed && is_minus text = false).
  { destruct signed; [done|]. by rewrite Hs. }
  rewrite Hn.
  fold (run (skip_zeros (body text))).
  pose proof (run_digits _ (proj1 (digits_skip_zeros _) Hd)) as Hr. unfold run in Hr.
  destruct (loop_parse_if_eight_digits _ _) as [i8 p8]. rewrite Hr. clear Hr.
  unfold accepted, full_consume. change (length (@nil byte)) with 0%nat. rewrite !Nat.sub_0_r.
  destruct (length (skip_zeros (body text)) =? 0)%nat eqn:E0.
  { apply Nat.eqb_eq in E0. rewrite E0.
    destruct (0 <? length (body text))%nat eqn:E1; simpl; [by rewrite Nat.eqb_refl|].
    apply Nat.ltb_ge in E1. destruct (body text); [done|simpl in E1; lia]. }
  repeat (case_match; simplify_eq/=); try done; try congruence;
    rewrite ?Nat.eqb_refl in *; congruence.
Qed.

Lemma parse_int_string_Some signed text v :
  full_consume text (parse_int_string signed text) = Some v ->
  text <> [] -> (signed = false -> is_minus text = false) /\ body text <> [] /\ digits (body text).
Proof.
  unfold parse_int_string.
  change (match text with | [] => false | b :: _ => bool_decide (b = "-"%byte) end)
    with (is_minus text).
  change (if is_minus text then tail text else text) with (body text).
  destruct (negb signed && is_minus text) eqn:Hn; [done|].
  pose proof (run_spec (skip_zeros (body text))) as (d & p & E & Hd & Hp & Hr).
  unfold run in Hr. destruct (loop_parse_if_eight_digits _ _) as [i8 p8]. rewrite Hr. clear Hr.
  intros H Hne.
  assert (Hlt : (0 < length text)%nat) by (destruct text; simpl; [done|lia]).
  assert (Hfull : length p = 0%nat /\ body text <> []).
  { unfold full_consume in H.
    assert (length (skip_zeros (body text)) <= length (body text))%nat by apply length_skip_zeros.
    repeat (case_match; simplify_eq/=);
      repeat match goal with
      | H : (_ =? _)%nat = true |- _ => apply Nat.eqb_eq in H
      | H : (_ =? _)%nat = false |- _ => apply Nat.eqb_neq in H
      | H : (_ <? _)%nat = true |- _ => apply Nat.ltb_lt in H
      end;
      (split; [lia|]); destruct (body text); simpl in *; try done; lia. }
  destruct Hfull as [Hp0 Hb]. destruct p; [|done].
  rewrite app_nil_r in E. split; [|split; [done|]].
  - intros ->. simpl in Hn. done.
  - apply digits_skip_zeros. by rewrite E.
Qed.

Lemma pow10_19 : 10 ^ Z.of_nat 19 = 10000000000000000000. Proof. reflexivity. Qed.

(** [accepted] in terms of the mathematical value of the digits. *)
Lemma accepted_exact signed neg l :
  digits l -> dec_val l < 2 ^ 64 ->
  accepted signed neg (skip_zeros l) =
    if signed && (i64_max + Z.b2z neg <? dec_val l) then None
    else Some (if neg then - dec_val l else dec_val l).
Proof.
  intros Hd Hv. destruct (skip_zeros_spec l) as (n & E & Hh).
  apply digits_skip_zeros in Hd. rewrite E, dec_val_zeros in Hv |- *.
  rewrite <- E. clear E. set (s := skip_zeros l) in *. clearbody s.
  pose proof (dec_val_range _ Hd) as Hr. unfold accepted.
  rewrite wrap_small by lia.
  destruct s as [|b s].
  { change (dec_val []) with 0. simpl. destruct neg, signed; reflexivity. }
  pose proof (dec_val_lower _ _ Hd Hh) as Hlow.
  change (length (b :: s) =? 0)%nat with false. cbv iota.
  assert (Hlen : (length (b :: s) <= 20)%nat).
  { destruct (decide (length (b :: s) <= 20)%nat) as [|Hgt]; [done|]. exfalso.
    assert (10 ^ 20 <= 10 ^ Z.of_nat (length s)); [|lia].
    apply Z.pow_le_mono_r; simpl in Hgt; lia. }
  unfold max_digits_u64. rewrite (proj2 (Nat.ltb_ge 20 (length (b :: s)))) by lia.
  destruct (length (b :: s) =? 20)%nat eqn:E20; [|done].
  apply Nat.eqb_eq in E20. simpl in E20. injection E20 as E20. rewrite E20, pow10_19 in Hlow.
  unfold min_safe_u64. by bfalse (dec_val (b :: s) <? 10000000000000000000).
Qed.

(** A digit string beyond [2^64] is rejected when a signed result was asked for. *)
Lemma accepted_signed_big neg l :
  digits l -> 2 ^ 64 <= dec_val l -> accepted true neg (skip_zeros l) = None.
Proof.
  intros Hd Hv. destruct (skip_zeros_spec l) as (n & E & Hh).
  apply digits_skip_zeros in Hd. rewrite E, dec_val_zeros in Hv.
  set (s := skip_zeros l) in *. clearbody s. clear E.
  pose proof (dec_val_range _ Hd) as Hr. unfold accepted.
  destruct s as [|b s]; [change (dec_val []) with 0 in Hv; lia|].
  change (length (b :: s) =? 0)%nat with false. cbv iota. unfold max_digits_u64.
  destruct (20 <? length (b :: s))%nat eqn:E1; [done|]. apply Nat.ltb_ge in E1.
  destruct (length (b :: s) =? 20)%nat eqn:E2.
  - simpl. destruct (wrap 64 _ <? min_safe_u64) eqn:E3; [done|]. apply Z.ltb_ge in E3.
    unfold min_safe_u64, i64_max in *. destruct neg; simpl Z.b2z.
    + by btrue (2 ^ 63 - 1 + 1 <? wrap 64 (dec_val (b :: s))).
    + by btrue (2 ^ 63 - 1 + 0 <? wrap 64 (dec_val (b :: s))).
  - exfalso. apply Nat.eqb_neq in E2.
    assert (10 ^ Z.of_nat (length (b :: s)) <= 10 ^ 19); [|lia].
    apply Z.pow_le_mono_r; lia.
Qed.

Lemma is_minus_true text : is_minus text = true -> text = "-"%byte :: tail text.
Proof.
  destruct text as [|b l]; simpl; [done|]. intros H%bool_decide_eq_true. by subst.
Qed.

Lemma digits_not_minus l : digits l -> is_minus l = false.
Proof.
  destruct l as [|b l]; [done|]. intros [H _]%Forall_cons. simpl.
  apply bool_decide_eq_false. intros ->. discriminate H.
Qed.

Lemma parse_i64_unfold text :
  text <> [] -> parse_i64 text = full_consume text (parse_int_string true text).
Proof. by destruct text. Qed.

Lemma parse_u64_unfold text :
  text <> [] -> parse_u64 text = full_consume text (parse_int_string false text).
Proof. by destruct text. Qed.

Lemma parse_i64_nonempty text v : parse_i64 text = Some v -> text <> [].
Proof. by destruct text. Qed.

Lemma parse_u64_nonempty text v : parse_u64 text = Some v -> text <> [].
Proof. by destruct text. Qed.

(** The value of an accepted signed literal. *)
Definition signed_val (neg : bool) (ds : bytes) : Z :=
  if neg then - dec_val ds else dec_val ds.

Lemma accepted_signed neg l :
  digits l -> accepted true neg (skip_zeros l) =
    if (i64_min <=? signed_val neg l) && (signed_val neg l <=? i64_max)
    then Some (signed_val neg l) else None.
Proof.
  intros Hd. pose proof (dec_val_range _ Hd) as Hr. unfold signed_val.
  destruct (decide (dec_val l < 2 ^ 64)).
  - rewrite accepted_exact by done. unfold i64_max, i64_min.
    destruct neg; simpl Z.b2z; simpl andb; repeat case_bool; simpl; done || lia.
  - rewrite accepted_signed_big by (done || lia). unfold i64_max, i64_min.
    destruct neg; repeat case_bool; simpl; done || lia.
Qed.

(** The language [parse_i64] accepts. *)
Lemma parse_i64_iff text v :
  parse_i64 text = Some v <->
  exists neg ds, text = (if neg : bool then ["-"%byte] else []) ++ ds /\ ds <> [] /\ digits ds /\
    v = signed_val neg ds /\ i64_min <= v <= i64_max.
Proof.
  split.
  - intros H. pose proof (parse_i64_nonempty _ _ H) as Hne. rewrite parse_i64_unfold in H by done.
    destruct (parse_int_string_Some _ _ _ H Hne) as (Hs & Hb & Hd).
    rewrite parse_int_string_digits, accepted_signed in H by done.
    exists (is_minus text), (body text). split_and!; try done.
    + unfold body. destruct (is_minus text) eqn:E; [by apply is_minus_true|done].
    + repeat case_bool; by simplify_eq/=.
    + repeat case_bool; simplify_eq/=; lia.
    + repeat case_bool; simplify_eq/=; lia.
  - intros (neg & ds & -> & Hne & Hd & -> & Hr).
    assert (Hm : is_minus ((if neg then ["-"%byte] else []) ++ ds) = neg).
    { destruct neg; [reflexivity|]. by apply digits_not_minus. }
    assert (Hb : body ((if neg then ["-"%byte] else []) ++ ds) = ds).
    { unfold body. rewrite Hm. by destruct neg. }
    rewrite parse_i64_unfold by (destruct neg; [done|by destruct ds]).
    rewrite parse_int_string_digits, Hm, Hb, accepted_signed by (rewrite ?Hb; done).
    repeat case_bool; simpl; done || lia.
Qed.

(** [parse_i64] accepts exactly the texts that are an optional minus sign
    followed by a non-empty run of decimal digits whose value fits in a signed
    64-bit integer, and returns that value; every other text (empty, trailing
    junk, out of range) is [nullopt]. *)
Theorem parse_i64_correct text v :
  parse_i64 text = Some v <->
  exists neg ds, text = (if neg : bool then ["-"%byte] else []) ++ ds /\ ds <> [] /\ digits ds /\
    v = signed_val neg ds /\ i64_min <= v <= i64_max.
Proof. apply parse_i64_iff. Qed.

Example parse_i64_correct_ex : parse_i64 (str "-9223372036854775808") = Some i64_min.
Proof. vm_compute. reflexivity. Qed.

Lemma parse_u64_digits text :
  text <> [] -> digits text -> parse_u64 text = accepted false false (skip_zeros text).
Proof.
  intros Hne Hd. pose proof (digits_not_minus _ Hd) as Hm.
  rewrite parse_u64_unfold, parse_int_string_digits; try done.
  - unfold body. by rewrite Hm.
  - unfold body. by rewrite Hm.
  - unfold body. by rewrite Hm.
Qed.

Lemma parse_u64_is_digits text v : parse_u64 text = Some v -> text <> [] /\ digits text.
Proof.
  intros H. pose proof (parse_u64_nonempty _ _ H) as Hne. rewrite parse_u64_unfold in H by done.
  destruct (parse_int_string_Some _ _ _ H Hne) as (Hs & Hb & Hd).
  unfold body in *. rewrite Hs in * by done. done.
Qed.

Lemma parse_u64_exact text :
  text <> [] -> digits text -> dec_val text < 2 ^ 64 -> parse_u64 text = Some (dec_val text).
Proof. intros. rewrite parse_u64_digits, accepted_exact by done. done. Qed.

(** Digit strings of [2^64] or more: accepted exactly when twenty significant
    digits wrap to at least [10^19]. *)
Lemma accepted_unsigned_big l v :
  digits l -> 2 ^ 64 <= dec_val l ->
  accepted false false (skip_zeros l) = Some v <->
  dec_val l < 10 ^ 20 /\ v = wrap 64 (dec_val l) /\ 10 ^ 19 <= v.
Proof.
  intros Hd Hv. destruct (skip_zeros_spec l) as (n & E & Hh).
  apply digits_skip_zeros in Hd. rewrite E, dec_val_zeros in Hv |- *. rewrite <- E.
  set (s := skip_zeros l) in *. clearbody s. clear E.
  pose proof (dec_val_range _ Hd) as Hr. unfold accepted.
  destruct s as [|b s]; [change (dec_val []) with 0 in Hv; lia|].
  pose proof (dec_val_lower _ _ Hd Hh) as Hlow.
  change (length (b :: s) =? 0)%nat with false. cbv iota. unfold max_digits_u64.
  destruct (20 <? length (b :: s))%nat eqn:E1.
  { apply Nat.ltb_lt in E1. split; [done|]. intros (H & _).
    assert (10 ^ 20 <= 10 ^ Z.of_nat (length s)); [|lia]. apply Z.pow_le_mono_r; simpl in E1; lia. }
  apply Nat.ltb_ge in E1.
  assert (E2 : length (b :: s) = 20%nat).
  { destruct (decide (length (b :: s) <= 19)%nat); [|lia]. exfalso.
    assert (10 ^ Z.of_nat (length (b :: s)) <= 10 ^ 19); [|lia]. apply Z.pow_le_mono_r; lia. }
  rewrite E2 in Hr |- *. unfold min_safe_u64. simpl andb.
  repeat case_bool; split; try done; intros H'; destruct_and?; simplify_eq; split_and?; lia || done.
Qed.

Lemma parse_u64_iff text v :
  parse_u64 text = Some v <->
  text <> [] /\ digits text /\ v = wrap 64 (dec_val text) /\
  (dec_val text < 2 ^ 64 \/ (dec_val text < 10 ^ 20 /\ 10 ^ 19 <= v)).
Proof.
  assert (Hcase : text <> [] -> digits text ->
    parse_u64 text = Some v <-> v = wrap 64 (dec_val text) /\
      (dec_val text < 2 ^ 64 \/ (dec_val text < 10 ^ 20 /\ 10 ^ 19 <= v))).
  { intros Hne Hd. pose proof (dec_val_range _ Hd). destruct (decide (dec_val text < 2 ^ 64)).
    - rewrite parse_u64_exact by done. rewrite wrap_small by lia.
      split; [intros [= <-]; auto|]. by intros [-> _].
    - rewrite parse_u64_digits, accepted_unsigned_big by (done || lia). split; intros; destruct_and!; auto.
      destruct_or!; [lia|]. destruct_and!. auto. }
  split.
  - intros H. destruct (parse_u64_is_digits _ _ H) as [Hne Hd]. apply Hcase in H; [|done..]. tauto.
  - intros (Hne & Hd & H). by apply Hcase.
Qed.

(** C31: [parse_u64] on every text.  A text with a value below [2^64] is read
    exactly; a text of [2^64] or more is still accepted, with its value wrapped
    modulo [2^64], when it has twenty significant digits and the wrapped value
    is at least [10^19]; nothing else is accepted. *)
Theorem parse_u64_correct text v :
  parse_u64 text = Some v <->
  text <> [] /\ digits text /\ v = wrap 64 (dec_val text) /\
  (dec_val text < 2 ^ 64 \/ (dec_val text < 10 ^ 20 /\ 10 ^ 19 <= v)).
Proof. apply parse_u64_iff. Qed.

(** The consequence for a value that does not fit: the twenty-digit text
    28446744073709551616, which is [2^64 + 10^19], is accepted as [10^19]. *)
Theorem parse_u64_wraps :
  parse_u64 (str "28446744073709551616") = Some 10000000000000000000 /\
  dec_val (str "28446744073709551616") = 2 ^ 64 + 10000000000000000000 /\
  parse_canonical_u64 (str "28446744073709551616") = Some 10000000000000000000.
Proof. vm_compute. auto. Qed.

(** ** Printing *)

(** Canonical decimal: non-empty, digits only, no leading zero except "0". *)
Definition canonical (l : bytes) : Prop :=
  digits l /\ l <> [] /\ (head l = Some "0"%byte -> l = ["0"%byte]).

Lemma dec_char_digit d : 0 <= d <= 9 -> is_digit (dec_char d) = true.
Proof. intros. apply is_digit_iff. unfold dec_char. rewrite u8_b8_small; lia. Qed.

Lemma ch_to_digit_dec_char d : 0 <= d <= 9 -> ch_to_digit (dec_char d) = d.
Proof.
  intros. rewrite ch_to_digit_digit by (by apply dec_char_digit).
  unfold dec_char. rewrite u8_b8_small; lia.
Qed.

Lemma dec_char_ch_to_digit b : is_digit b = true -> dec_char (ch_to_digit b) = b.
Proof.
  intros H. rewrite ch_to_digit_digit by done. unfold dec_char.
  apply is_digit_iff in H. apply u8_inj. rewrite u8_b8_small; lia.
Qed.

Lemma canonical_init l b : canonical (l ++ [b]) -> l <> [] -> canonical l /\ 1 <= dec_val l.
Proof.
  intros (Hd & _ & Hz) Hne. destruct l as [|c l]; [done|].
  apply Forall_app in Hd as [Hd _].
  assert (Hc : c <> "0"%byte).
  { intros ->. specialize (Hz eq_refl). destruct l; done. }
  split.
  - split; [done|]. split; [done|]. simpl. congruence.
  - pose proof (dec_val_lower _ _ Hd Hc).
    pose proof (Z.pow_pos_nonneg 10 (Z.of_nat (length l))). lia.
Qed.

Lemma to_dec_dec_val fuel l :
  canonical l -> (length l <= fuel)%nat -> to_dec fuel (dec_val l) = l.
Proof.
  revert l. induction fuel as [|fuel IH]; intros l Hc Hf.
  { destruct Hc as (_ & Hne & _). destruct l; [done|simpl in Hf; lia]. }
  destruct l as [|b l _] using rev_ind; [by destruct Hc as (_ & ? & _)|].
  assert (Hb : is_digit b = true).
  { destruct Hc as (Hd & _). apply Forall_app in Hd as [_ Hd]. by apply Forall_cons in Hd as [? _]. }
  pose proof (ch_to_digit_range _ Hb). cbn [to_dec]. rewrite dec_val_snoc.
  destruct (decide (l = [])) as [->|Hne].
  - change (dec_val []) with 0. btrue (10 * 0 + ch_to_digit b <? 10).
    simpl. f_equal. rewrite Z.add_0_l. by apply dec_char_ch_to_digit.
  - destruct (canonical_init _ _ Hc Hne) as [Hc' H1].
    bfalse (10 * dec_val l + ch_to_digit b <? 10).
    rewrite Z.mul_comm, Z.div_add_l, (Z.add_comm _ (ch_to_digit b)), Z.mod_add by lia.
    rewrite Z.div_small, Z.mod_small, Z.add_0_r, dec_char_ch_to_digit by (done || lia).
    rewrite IH; [done|done|]. rewrite length_app in Hf. simpl in Hf. lia.
Qed.

Lemma to_dec_val fuel v :
  0 <= v < 10 ^ Z.of_nat fuel ->
  dec_val (to_dec fuel v) = v /\ digits (to_dec fuel v) /\ (1 <= v -> exists b l, to_dec fuel v = b :: l /\ b <> "0"%byte).
Proof.
  revert v. induction fuel as [|fuel IH]; intros v Hv.
  { simpl in *. split_and!; [unfold dec_val; simpl; lia|constructor|lia]. }
  cbn [to_dec]. destruct (v <? 10) eqn:E.
  - apply Z.ltb_lt in E. split_and!.
    + unfold dec_val. simpl. rewrite ch_to_digit_dec_char; lia.
    + constructor; [|constructor]. apply dec_char_digit. lia.
    + intros. eexists _, _. split; [done|]. intros Hz. apply (f_equal ch_to_digit) in Hz.
      rewrite ch_to_digit_dec_char in Hz by lia. change (ch_to_digit "0") with 0 in Hz. lia.
  - apply Z.ltb_ge in E. pose proof (Z.mod_pos_bound v 10 ltac:(lia)).
    pose proof (Z.div_mod v 10 ltac:(lia)).
    rewrite Nat2Z.inj_succ, Z.pow_succ_r in Hv by lia.
    destruct (IH (v / 10)) as (H1 & H2 & H3); [lia|].
    split_and!.
    + rewrite dec_val_snoc, H1, ch_to_digit_dec_char; lia.
    + apply Forall_app. split; [done|]. constructor; [|constructor]. apply dec_char_digit. lia.
    + intros _. destruct H3 as (b & l & -> & Hb); [lia|]. eexists _, _. split; [done|done].
Qed.

Lemma to_chars_u64_canonical v :
  0 <= v < 2 ^ 64 -> canonical (to_chars_u64 v) /\ dec_val (to_chars_u64 v) = v.
Proof.
  intros Hv. unfold to_chars_u64. destruct (to_dec_val 20 v) as (H1 & H2 & H3); [lia|].
  split; [|done]. split; [done|]. destruct (decide (v = 0)) as [->|].
  - split; [done|]. reflexivity.
  - destruct H3 as (b & l & -> & Hb); [lia|]. split; [done|]. simpl. congruence.
Qed.

Lemma parse_canonical_u64_iff s v :
  parse_canonical_u64 s = Some v <-> canonical s /\ parse_u64 s = Some v.
Proof.
  destruct s as [|b s]; [split; [done|]; by intros ((_ & ? & _) & _)|].
  unfold parse_canonical_u64.
  destruct (bool_decide_reflect (s <> [])) as [Hs|Hs]; cbn [andb].
  - destruct (bool_decide_reflect (b = "0"%byte)) as [Hb|Hb].
    + split; [done|]. intros ((_ & _ & Hz) & _). subst b. injection (Hz eq_refl). congruence.
    + split; [|by intros (_ & ?)]. intros H. split; [|done].
      split; [by apply parse_u64_is_digits in H as [_ ?]|]. split; [done|]. simpl. congruence.
  - apply dec_stable in Hs. subst s. split; [|by intros (_ & ?)]. intros H. split; [|done].
    split; [by apply parse_u64_is_digits in H as [_ ?]|]. split; [done|]. simpl. congruence.
Qed.

Lemma dec_val_length_20 l : canonical l -> dec_val l < 2 ^ 64 -> (length l <= 20)%nat.
Proof.
  intros (Hd & Hne & Hz) Hv. destruct l as [|b l]; [done|].
  destruct (decide (b = "0"%byte)) as [->|Hb].
  { rewrite (Hz eq_refl). simpl. lia. }
  pose proof (dec_val_lower _ _ Hd Hb). destruct (decide (length l <= 19)%nat); [simpl; lia|].
  exfalso. assert (10 ^ 20 <= 10 ^ Z.of_nat (length l)); [|lia]. apply Z.pow_le_mono_r; lia.
Qed.

Lemma to_chars_u64_dec_val s :
  canonical s -> dec_val s < 2 ^ 64 -> to_chars_u64 (dec_val s) = s.
Proof. intros Hc Hv. apply to_dec_dec_val; [done|]. by apply dec_val_length_20. Qed.

(** Printing and canonical reading are inverse: every 64-bit value printed
    by [std::to_chars] is read back by [parse_canonical_u64], and every text
    [parse_canonical_u64] accepts whose value fits is the print of its result. *)
Theorem parse_canonical_u64_roundtrip :
  (forall v, 0 <= v < 2 ^ 64 -> parse_canonical_u64 (to_chars_u64 v) = Some v) /\
  (forall s v, parse_canonical_u64 s = Some v -> dec_val s < 2 ^ 64 -> to_chars_u64 v = s).
Proof.
  split.
  - intros v Hv. destruct (to_chars_u64_canonical v Hv) as [Hc Hd].
    apply parse_canonical_u64_iff. split; [done|]. destruct Hc as (Hdig & Hne & _).
    rewrite parse_u64_exact by (done || lia). by rewrite Hd.
  - intros s v (Hc & Hp)%parse_canonical_u64_iff Hv. destruct Hc as (Hdig & Hne & Hz).
    rewrite parse_u64_exact in Hp by done. injection Hp as <-. by apply to_chars_u64_dec_val.
Qed.

Lemma parse_i64_to_chars v : 0 <= v <= i64_max -> parse_i64 (to_chars_u64 v) = Some v.
Proof.
  intros Hv. unfold i64_max in Hv. destruct (to_chars_u64_canonical v) as [(Hd & Hne & _) Hdv]; [lia|].
  apply parse_i64_iff. exists false, (to_chars_u64 v). split_and!; try done.
  - unfold i64_min. lia.
  - unfold i64_max. lia.
Qed.
