(* ===== verification/RespWriter.v ===== *)
(** * RESP reply writer

    [include/goblin/core/resp_writer.hpp] and [src/resp_writer.cpp]: the
    precomputed small headers, the in-place bulk-string writer that first
    resizes the output and then copies into it, and the batched writers that
    size a whole reply before the first byte is copied.

    Every append returns [option bytes]: [None] is a copy outside the resized
    output, so the theorems below also say that the size the code computes in
    advance is the size it writes. *)

From Stdlib Require Import ZArith Lia.
From S2P Require Import Prelude ParseInt.

Local Open Scope Z_scope.

Definition CR : byte := "013"%byte.
Definition LF : byte := "010"%byte.
Definition crlf : bytes := [CR; LF].

(** ** [detail] *)

(** [make_header]: at most three digits, least significant first, then reversed. *)
Fixpoint header_digits (fuel : nat) (value : Z) : bytes :=
  match fuel with
  | O => []
  | S fuel =>
    dec_char (value mod 10) :: (if value / 10 =? 0 then [] else header_digits fuel (value / 10))
  end.

Definition make_header (prefix : byte) (value : Z) : bytes :=
  [prefix] ++ rev (header_digits 3 value) ++ crlf.

Definition kSmallBulkHeaders_size : Z := 65.
Definition kSmallArrayHeaders_size : Z := 257.
Definition kSmallPushHeaders_size : Z := 17.

(** [append_decimal] for an unsigned and for a signed value ([std::to_chars]). *)
Definition append_decimal (out : bytes) (value : Z) : bytes := out ++ to_chars_u64 value.
Definition append_decimal_i64 (out : bytes) (value : Z) : bytes :=
  out ++ (if value <? 0 then "-"%byte :: to_chars_u64 (- value) else to_chars_u64 value).

Fixpoint decimal_digits_loop (fuel : nat) (value digits : Z) : Z :=
  match fuel with
  | O => digits
  | S fuel => if 10 <=? value then decimal_digits_loop fuel (value / 10) (digits + 1) else digits
  end.

(** At most nineteen divisions bring a 64-bit value below ten. *)
Definition decimal_digits (value : Z) : Z := decimal_digits_loop 20 value 1.

Definition bulk_string_wire_size (length_ : Z) : Z :=
  if length_ <? kSmallBulkHeaders_size
  then Z.of_nat (length (make_header "$"%byte length_)) + length_ + 2
  else 1 + decimal_digits length_ + 2 + length_ + 2.

Definition array_header_wire_size (count : Z) : Z :=
  if count <? kSmallArrayHeaders_size
  then Z.of_nat (length (make_header "*"%byte count))
  else 1 + decimal_digits count + 2.

Definition can_write_small_bulk_string (length_ : Z) : bool := length_ <? kSmallBulkHeaders_size.

Definition append_bulk_framing (out : bytes) (length_ : Z) : bytes :=
  if length_ <? kSmallBulkHeaders_size
  then out ++ make_header "$"%byte length_
  else append_decimal (out ++ ["$"%byte]) length_ ++ crlf.

Definition append_bulk_payload (out value : bytes) : bytes :=
  append_bulk_framing out (Z.of_nat (length value)) ++ value ++ crlf.

(** [write_small_bulk_string] copies at [dst] and returns the advanced pointer. *)
Definition write_small_bulk_string (buf : bytes) (dst : nat) (value : bytes) : option (bytes * nat) :=
  let header := make_header "$"%byte (Z.of_nat (length value)) in
  buf ← poke dst header buf;
  let dst := (dst + length header)%nat in
  buf ← poke dst value buf;
  let dst := (dst + length value)%nat in
  buf ← poke dst crlf buf;
  Some (buf, (dst + 2)%nat).

(** ** Appends *)

Definition append_simple_string (out value : bytes) : bytes := out ++ ["+"%byte] ++ value ++ crlf.
Definition append_error (out message : bytes) : bytes := out ++ ["-"%byte] ++ message ++ crlf.
Definition append_integer (out : bytes) (value : Z) : bytes :=
  append_decimal_i64 (out ++ [":"%byte]) value ++ crlf.

Definition append_bulk_string (out value : bytes) : option bytes :=
  let n := Z.of_nat (length value) in
  if can_write_small_bulk_string n then
    let offset := length out in
    let out := grow (Z.to_nat (bulk_string_wire_size n)) out in
    '(out, _) ← write_small_bulk_string out offset value;
    Some out
  else Some (append_decimal (out ++ ["$"%byte]) n ++ crlf ++ value ++ crlf).

Definition append_array_header (out : bytes) (count : Z) : bytes :=
  if count <? kSmallArrayHeaders_size
  then out ++ make_header "*"%byte count
  else append_decimal (out ++ ["*"%byte]) count ++ crlf.

Definition append_push_header (out : bytes) (count : Z) : bytes :=
  if count <? kSmallPushHeaders_size
  then out ++ make_header ">"%byte count
  else append_decimal (out ++ [">"%byte]) count ++ crlf.

Definition append_map_header (out : bytes) (count : Z) : bytes :=
  append_decimal (out ++ ["%"%byte]) count ++ crlf.

Inductive Version := resp2 | resp3.

Definition append_null_bulk_string (out : bytes) : bytes := out ++ str "$-1" ++ crlf.
Definition append_null (out : bytes) (version : Version) : bytes :=
  match version with
  | resp3 => out ++ str "_" ++ crlf
  | resp2 => append_null_bulk_string out
  end.

Fixpoint append_bulk_strings (out : bytes) (values : list bytes) : option bytes :=
  match values with
  | [] => Some out
  | v :: values => out ← append_bulk_string out v; append_bulk_strings out values
  end.

(** [resp::array] of [src/resp_writer.cpp]. *)
Definition array (values : list bytes) : option bytes :=
  append_bulk_strings (append_array_header [] (Z.of_nat (length values))) values.

(** ** Batches *)

Definition kBulkWithscoresBatchLimit : nat := 256.

Fixpoint write_small_all (buf : bytes) (dst : nat) (values : list bytes) : option (bytes * nat) :=
  match values with
  | [] => Some (buf, dst)
  | v :: values => '(buf, dst) ← write_small_bulk_string buf dst v; write_small_all buf dst values
  end.

(** The sizing loop: the sum of the wire sizes, or [None] when a value is too
    long for a small header and the caller falls back. *)
Fixpoint small_wire_bytes (values : list bytes) (wire_bytes : Z) : option Z :=
  match values with
  | [] => Some wire_bytes
  | v :: values =>
    if can_write_small_bulk_string (Z.of_nat (length v))
    then small_wire_bytes values (wire_bytes + bulk_string_wire_size (Z.of_nat (length v)))
    else None
  end.

Definition append_bulk_members_batch (out : bytes) (members : list bytes) : option bytes :=
  if (length members =? 0)%nat then Some out
  else if (kBulkWithscoresBatchLimit <? length members)%nat then append_bulk_strings out members
  else match small_wire_bytes members 0 with
       | None => append_bulk_strings out members
       | Some wire_bytes =>
         let offset := length out in
         '(out, _) ← write_small_all (grow (Z.to_nat wire_bytes) out) offset members;
         Some out
       end.

Definition append_bulk_member_and_text (out member text : bytes) : option bytes :=
  if negb (can_write_small_bulk_string (Z.of_nat (length member)))
     || negb (can_write_small_bulk_string (Z.of_nat (length text))) then
    out ← append_bulk_string out member; append_bulk_string out text
  else
    let wire_bytes := bulk_string_wire_size (Z.of_nat (length member))
                      + bulk_string_wire_size (Z.of_nat (length text)) in
    let offset := length out in
    '(out, dst) ← write_small_bulk_string (grow (Z.to_nat wire_bytes) out) offset member;
    '(out, _) ← write_small_bulk_string out dst text;
    Some out.

Fixpoint append_member_texts (out : bytes) (entries : list (bytes * bytes)) : option bytes :=
  match entries with
  | [] => Some out
  | (m, t) :: entries => out ← append_bulk_member_and_text out m t; append_member_texts out entries
  end.

Fixpoint small_wire_bytes2 (entries : list (bytes * bytes)) (wire_bytes : Z) : option Z :=
  match entries with
  | [] => Some wire_bytes
  | (m, t) :: entries =>
    if negb (can_write_small_bulk_string (Z.of_nat (length m)))
       || negb (can_write_small_bulk_string (Z.of_nat (length t))) then None
    else small_wire_bytes2 entries
           (wire_bytes + (bulk_string_wire_size (Z.of_nat (length m))
                          + bulk_string_wire_size (Z.of_nat (length t))))
  end.

Fixpoint write_small_pairs (buf : bytes) (dst : nat) (entries : list (bytes * bytes)) : option (bytes * nat) :=
  match entries with
  | [] => Some (buf, dst)
  | (m, t) :: entries =>
    '(buf, dst) ← write_small_bulk_string buf dst m;
    '(buf, dst) ← write_small_bulk_string buf dst t;
    write_small_pairs buf dst entries
  end.

Definition append_bulk_withscores_text_chunk (out : bytes) (entries : list (bytes * bytes)) : option bytes :=
  if (length entries =? 0)%nat then Some out
  else match small_wire_bytes2 entries 0 with
       | None => append_member_texts out entries
       | Some wire_bytes =>
         let offset := length out in
         '(out, _) ← write_small_pairs (grow (Z.to_nat wire_bytes) out) offset entries;
         Some out
       end.

Definition append_bulk_withscores_text_batch (out : bytes) (entries : list (bytes * bytes)) : option bytes :=
  if (length entries =? 0)%nat then Some out
  else if (kBulkWithscoresBatchLimit <? length entries)%nat then append_member_texts out entries
  else append_bulk_withscores_text_chunk out entries.

(** ** Reference wire format *)

(** One RESP header line and one bulk string, as the protocol defines them. *)
Definition header_line (prefix : byte) (n : Z) : bytes := [prefix] ++ to_chars_u64 n ++ crlf.
Definition bulk (v : bytes) : bytes := header_line "$"%byte (Z.of_nat (length v)) ++ v ++ crlf.
Definition bulks (vs : list bytes) : bytes := concat (bulk <$> vs).
Definition command_wire (vs : list bytes) : bytes :=
  header_line "*"%byte (Z.of_nat (length vs)) ++ bulks vs.

#[global] Arguments header_line : simpl never.
#[global] Arguments bulk : simpl never.
#[global] Arguments bulks : simpl never.
#[global] Arguments make_header : simpl never.
#[global] Arguments bulk_string_wire_size : simpl never.
#[global] Arguments append_bulk_string : simpl never.
#[global] Arguments append_bulk_member_and_text : simpl never.

(** A member followed by its score text, and a list of them. *)
Definition pairs_wire (es : list (bytes * bytes)) : bytes :=
  concat ((fun e => bulk e.1 ++ bulk e.2) <$> es).

#[global] Arguments pairs_wire : simpl never.

Lemma pairs_wire_cons m t es : pairs_wire ((m, t) :: es) = bulk m ++ bulk t ++ pairs_wire es.
Proof. unfold pairs_wire. cbn [fmap list_fmap concat fst snd]. by rewrite <- app_assoc. Qed.

Lemma bulks_cons v vs : bulks (v :: vs) = bulk v ++ bulks vs.
Proof. reflexivity. Qed.

Lemma header_digits_small v :
  0 <= v < 257 -> rev (header_digits 3 v) = to_chars_u64 v.
Proof.
  intros Hv.
  assert (H : forallb (fun n => bool_decide (rev (header_digits 3 (Z.of_nat n)) = to_chars_u64 (Z.of_nat n)))
                (seq 0 257) = true) by (vm_compute; reflexivity).
  rewrite forallb_forall in H. specialize (H (Z.to_nat v)). rewrite Z2Nat.id in H by lia.
  eapply bool_decide_eq_true_1, H, in_seq. lia.
Qed.

Lemma make_header_line p v : 0 <= v < 257 -> make_header p v = header_line p v.
Proof. intros. unfold make_header, header_line. by rewrite header_digits_small. Qed.

Lemma decimal_digits_loop_length fuel v d :
  0 <= v < 10 ^ Z.of_nat (S fuel) ->
  decimal_digits_loop (S fuel) v d = d - 1 + Z.of_nat (length (to_dec (S fuel) v)).
Proof.
  revert v d. induction fuel as [|fuel IH]; intros v d Hv.
  { cbn [decimal_digits_loop to_dec]. bfalse (10 <=? v). btrue (v <? 10). simpl. lia. }
  rewrite Nat2Z.inj_succ, Z.pow_succ_r in Hv by lia.
  cbn [decimal_digits_loop to_dec]. destruct (Z.leb_spec 10 v).
  - bfalse (v <? 10). pose proof (Z.div_mod v 10 ltac:(lia)). pose proof (Z.mod_pos_bound v 10 ltac:(lia)).
    pose proof (IH (v / 10) (d + 1) ltac:(lia)) as HI. cbn [decimal_digits_loop to_dec] in HI |- *.
    rewrite HI, length_app. simpl. lia.
  - btrue (v <? 10). simpl. lia.
Qed.

Lemma decimal_digits_length v :
  0 <= v < 2 ^ 64 -> decimal_digits v = Z.of_nat (length (to_chars_u64 v)).
Proof.
  intros. unfold decimal_digits, to_chars_u64.
  rewrite (decimal_digits_loop_length 19 v 1) by (change (Z.of_nat 20) with 20; lia). lia.
Qed.

Lemma header_line_length p v :
  length (header_line p v) = (1 + length (to_chars_u64 v) + 2)%nat.
Proof. unfold header_line. rewrite !length_app. simpl. lia. Qed.

Lemma bulk_length_small v :
  Z.of_nat (length v) < 65 ->
  Z.of_nat (length (bulk v)) = bulk_string_wire_size (Z.of_nat (length v)).
Proof.
  intros. unfold bulk_string_wire_size, kSmallBulkHeaders_size.
  btrue (Z.of_nat (length v) <? 65). rewrite make_header_line by lia.
  unfold bulk. rewrite !length_app. simpl. lia.
Qed.

Lemma append_bulk_framing_eq out n :
  0 <= n -> append_bulk_framing out n = out ++ header_line "$"%byte n.
Proof.
  intros. unfold append_bulk_framing, kSmallBulkHeaders_size. destruct (Z.ltb_spec n 65).
  - by rewrite make_header_line by lia.
  - unfold append_decimal, header_line. by rewrite <- !app_assoc.
Qed.

(** The in-place writer, when the rest of the region is still zero-filled. *)
Lemma write_small_bulk_string_grow out v n :
  Z.of_nat (length v) < 65 ->
  write_small_bulk_string (grow (length (bulk v) + n) out) (length out) v
  = Some (grow n (out ++ bulk v), length (out ++ bulk v)).
Proof.
  intros Hv. unfold write_small_bulk_string. rewrite make_header_line by lia.
  set (h := header_line _ _).
  assert (E : bulk v = h ++ v ++ crlf) by reflexivity.
  rewrite E, !length_app.
  replace (length h + (length v + length crlf) + n)%nat
    with (length h + (length v + (length crlf + n)))%nat by lia.
  rewrite poke_grow_prefix. cbn [mbind option_bind].
  rewrite <- (length_app out h), poke_grow_prefix. cbn [mbind option_bind].
  rewrite <- (length_app (out ++ h) v), poke_grow_prefix. cbn [mbind option_bind].
  do 2 f_equal; [by rewrite <- !app_assoc|]. rewrite !length_app. simpl. lia.
Qed.

Lemma append_bulk_string_eq out v : append_bulk_string out v = Some (out ++ bulk v).
Proof.
  unfold append_bulk_string, can_write_small_bulk_string, kSmallBulkHeaders_size.
  destruct (Z.ltb_spec (Z.of_nat (length v)) 65).
  - rewrite <- bulk_length_small by lia. rewrite Nat2Z.id.
    rewrite <- (Nat.add_0_r (length (bulk v))), write_small_bulk_string_grow by lia.
    simpl. unfold grow. by rewrite app_nil_r.
  - unfold append_decimal, bulk, header_line. by rewrite <- !app_assoc.
Qed.

Lemma append_bulk_strings_eq out vs : append_bulk_strings out vs = Some (out ++ bulks vs).
Proof.
  revert out. induction vs as [|v vs IH]; intros out; cbn [append_bulk_strings].
  - unfold bulks. simpl. by rewrite app_nil_r.
  - rewrite append_bulk_string_eq. cbn [mbind option_bind]. rewrite IH.
    by rewrite bulks_cons, app_assoc.
Qed.

Lemma append_array_header_eq out n :
  0 <= n -> append_array_header out n = out ++ header_line "*"%byte n.
Proof.
  intros. unfold append_array_header, kSmallArrayHeaders_size. destruct (Z.ltb_spec n 257).
  - by rewrite make_header_line by lia.
  - unfold append_decimal, header_line. by rewrite <- !app_assoc.
Qed.

Lemma array_eq vs : array vs = Some (command_wire vs).
Proof.
  unfold array. rewrite append_array_header_eq by lia. by rewrite append_bulk_strings_eq.
Qed.

(** The wire-size functions are exact: the size computed before a reply is
    written is the number of bytes of the RESP header or bulk string. *)
Theorem wire_size_exact (v : bytes) (n : Z) :
  Z.of_nat (length v) < 2 ^ 64 -> 0 <= n < 2 ^ 64 ->
  bulk_string_wire_size (Z.of_nat (length v)) = Z.of_nat (length (bulk v)) /\
  array_header_wire_size n = Z.of_nat (length (append_array_header [] n)).
Proof.
  intros Hv Hn. split.
  - destruct (Z.ltb_spec (Z.of_nat (length v)) 65); [by rewrite bulk_length_small|].
    unfold bulk_string_wire_size, kSmallBulkHeaders_size.
    bfalse (Z.of_nat (length v) <? 65). rewrite decimal_digits_length by lia.
    unfold bulk. rewrite !length_app, header_line_length. simpl. lia.
  - rewrite append_array_header_eq by lia. simpl app. rewrite header_line_length.
    unfold array_header_wire_size, kSmallArrayHeaders_size. destruct (Z.ltb_spec n 257).
    + rewrite make_header_line by lia. rewrite header_line_length. lia.
    + rewrite decimal_digits_length by lia. lia.
Qed.

Lemma wire_size_exact_witness :
  bulk_string_wire_size 5 = Z.of_nat (length (bulk (str "hello"))) /\
  array_header_wire_size 300 = Z.of_nat (length (append_array_header [] 300)).
Proof. apply (wire_size_exact (str "hello") 300); vm_compute; intuition congruence. Defined.

Lemma small_wire_bytes_Some vs w n :
  small_wire_bytes vs w = Some n ->
  n = w + Z.of_nat (length (bulks vs)) /\ Forall (fun v => Z.of_nat (length v) < 65) vs.
Proof.
  revert w. induction vs as [|v vs IH]; intros w; cbn [small_wire_bytes].
  - intros [= <-]. unfold bulks. simpl. split; [lia|constructor].
  - unfold can_write_small_bulk_string, kSmallBulkHeaders_size.
    destruct (Z.ltb_spec (Z.of_nat (length v)) 65); [|done].
    intros [-> Hf]%IH. split; [|by constructor].
    rewrite <- bulk_length_small by lia. rewrite bulks_cons, length_app. lia.
Qed.

Lemma write_small_all_grow out vs n :
  Forall (fun v => Z.of_nat (length v) < 65) vs ->
  write_small_all (grow (length (bulks vs) + n) out) (length out) vs
  = Some (grow n (out ++ bulks vs), length (out ++ bulks vs)).
Proof.
  revert out. induction vs as [|v vs IH]; intros out Hf; cbn [write_small_all].
  - unfold bulks. simpl. by rewrite app_nil_r.
  - apply Forall_cons in Hf as [Hv Hf].
    rewrite bulks_cons, length_app, <- Nat.add_assoc, write_small_bulk_string_grow by done.
    cbn [mbind option_bind]. rewrite IH by done. by rewrite <- !app_assoc.
Qed.

Lemma small_wire_bytes2_Some es w n :
  small_wire_bytes2 es w = Some n ->
  n = w + Z.of_nat (length (pairs_wire es)) /\
  Forall (fun e => Z.of_nat (length e.1) < 65 /\ Z.of_nat (length e.2) < 65) es.
Proof.
  revert w. induction es as [|[m t] es IH]; intros w; cbn [small_wire_bytes2].
  - intros [= <-]. simpl. split; [lia|constructor].
  - unfold can_write_small_bulk_string, kSmallBulkHeaders_size.
    repeat case_bool; cbn [negb orb]; try done. intros [-> Hf]%IH. split; [|by constructor].
    rewrite <- !bulk_length_small by lia. rewrite pairs_wire_cons, !length_app. lia.
Qed.

Lemma write_small_pairs_grow out es n :
  Forall (fun e => Z.of_nat (length e.1) < 65 /\ Z.of_nat (length e.2) < 65) es ->
  write_small_pairs (grow (length (pairs_wire es) + n) out) (length out) es
  = Some (grow n (out ++ pairs_wire es), length (out ++ pairs_wire es)).
Proof.
  revert out. induction es as [|[m t] es IH]; intros out Hf; cbn [write_small_pairs].
  - simpl. by rewrite app_nil_r.
  - apply Forall_cons in Hf as [[Hm Ht] Hf]. simpl in Hm, Ht. rewrite pairs_wire_cons.
    rewrite !length_app, <- !Nat.add_assoc, write_small_bulk_string_grow by done.
    cbn [mbind option_bind]. rewrite write_small_bulk_string_grow by done.
    cbn [mbind option_bind]. rewrite IH by done. rewrite <- !app_assoc, !length_app. done.
Qed.

Lemma append_bulk_member_and_text_eq out m t :
  append_bulk_member_and_text out m t = Some (out ++ bulk m ++ bulk t).
Proof.
  unfold append_bulk_member_and_text, can_write_small_bulk_string, kSmallBulkHeaders_size.
  repeat case_bool; simpl negb; simpl orb; cbn iota;
    try (rewrite append_bulk_string_eq; simpl; rewrite append_bulk_string_eq; by rewrite <- app_assoc).
  rewrite <- !bulk_length_small by lia.
  replace (Z.to_nat _) with (length (bulk m) + (length (bulk t) + 0))%nat by lia.
  rewrite write_small_bulk_string_grow by lia. cbn [mbind option_bind].
  rewrite write_small_bulk_string_grow by lia. simpl. unfold grow. rewrite app_nil_r. by rewrite <- app_assoc.
Qed.

Lemma append_member_texts_eq out es :
  append_member_texts out es = Some (out ++ pairs_wire es).
Proof.
  revert out. induction es as [|[m t] es IH]; intros out; cbn [append_member_texts].
  - simpl. by rewrite app_nil_r.
  - rewrite append_bulk_member_and_text_eq. cbn [mbind option_bind]. rewrite IH, pairs_wire_cons. by rewrite <- !app_assoc.
Qed.

Lemma append_text_chunk_eq out es :
  append_bulk_withscores_text_chunk out es
  = Some (out ++ pairs_wire es).
Proof.
  unfold append_bulk_withscores_text_chunk. destruct es as [|e es]; [simpl; by rewrite app_nil_r|].
  change (length (e :: es) =? 0)%nat with false. cbn iota.
  destruct (small_wire_bytes2 (e :: es) 0) as [n|] eqn:E; [|apply append_member_texts_eq].
  apply small_wire_bytes2_Some in E as [-> Hf].
  rewrite Z.add_0_l, Nat2Z.id, <- (Nat.add_0_r (length (pairs_wire _))), write_small_pairs_grow by done.
  simpl. unfold grow. by rewrite app_nil_r.
Qed.

(** The batched and the one-by-one reply writers put the same bytes on the
    wire, and those bytes are the RESP encoding: whatever path is taken (the
    small-header in-place path, the long path, the size-first batch or its
    fallback), a list of members is the concatenation of its bulk strings. *)
Theorem batch_writers_equiv out ms es :
  append_bulk_members_batch out ms = append_bulk_strings out ms /\
  append_bulk_strings out ms = Some (out ++ bulks ms) /\
  append_bulk_withscores_text_batch out es = append_member_texts out es /\
  append_member_texts out es = Some (out ++ pairs_wire es).
Proof.
  split_and!; [|apply append_bulk_strings_eq| |apply append_member_texts_eq].
  - unfold append_bulk_members_batch. rewrite append_bulk_strings_eq.
    destruct ms as [|m ms]; [simpl; unfold bulks; simpl; by rewrite app_nil_r|].
    change (length (m :: ms) =? 0)%nat with false. cbn iota.
    destruct (_ <? _)%nat; [done|].
    destruct (small_wire_bytes (m :: ms) 0) as [n|] eqn:E; [|done].
    apply small_wire_bytes_Some in E as [-> Hf].
    rewrite Z.add_0_l, Nat2Z.id, <- (Nat.add_0_r (length (bulks _))), write_small_all_grow by done.
    simpl. unfold grow. by rewrite app_nil_r.
  - unfold append_bulk_withscores_text_batch. rewrite append_text_chunk_eq, append_member_texts_eq.
    destruct es as [|e es]; [simpl; by rewrite app_nil_r|].
    change (length (e :: es) =? 0)%nat with false. cbn iota. by destruct (_ <? _)%nat.
Qed.
