(* ===== verification/RespParser.v ===== *)
(** * RESP request parser

    [src/resp_parser.cpp]: an incremental parser over one growing buffer.
    Parsed commands are queued as ranges of a shared field pool; the consumed
    prefix of the buffer is dropped only when no queued command refers to it.
    Also [simd::find_crlf] of [src/simd_backend_ops.hpp], with its grouped scan. *)

From Stdlib Require Import ZArith Lia.
From S2P Require Import Prelude ParseInt RespWriter.

Local Open Scope Z_scope.

(** ** [simd::find_crlf] *)

(** The scalar tail loop, and the reference for the grouped scan: the first
    position holding CR followed by LF. *)
Fixpoint crlf_index (l : bytes) : option nat :=
  match l with
  | a :: (b :: _) as l' =>
    if decide (a = CR /\ b = LF) then Some O else S <$> crlf_index l'
  | _ => None
  end.

Definition find_crlf (buffer : bytes) (offset : nat) : option nat :=
  if (length buffer <=? offset)%nat then None
  else Nat.add offset <$> crlf_index (drop offset buffer).

(** One group of [w] bytes at [i]: the set bits of the CR mask in ascending
    order, each checked for a following LF inside the buffer. *)
Definition group_hit (buffer : bytes) (i w : nat) : option nat :=
  let bits := filter (fun pos => buffer !! (i + pos)%nat = Some CR) (seq 0 w) in
  head ((fun pos => (i + pos)%nat) <$>
        filter (fun pos => buffer !! (i + pos + 1)%nat = Some LF) bits).

(** The loop over whole groups; [inr i] is where it stops without a hit. *)
Fixpoint group_scan (fuel : nat) (buffer : bytes) (w i : nat) : nat + nat :=
  match fuel with
  | O => inr i
  | S fuel =>
    if (i + w <=? length buffer)%nat then
      match group_hit buffer i w with
      | Some at_ => inl at_
      | None => group_scan fuel buffer w (i + w)
      end
    else inr i
  end.

(** The widths of the compiled-in group loops, widest first: [32; 16] with
    AVX2, [16] with SSE2 or NEON, [] for the portable build. *)
Fixpoint find_crlf_groups (widths : list nat) (buffer : bytes) (i : nat) : option nat :=
  match widths with
  | [] => find_crlf buffer i
  | w :: widths =>
    match group_scan (length buffer) buffer w i with
    | inl at_ => Some at_
    | inr i => find_crlf_groups widths buffer i
    end
  end.

Definition simd_find_crlf (widths : list nat) (buffer : bytes) (offset : nat) : option nat :=
  if (length buffer <=? offset)%nat then None else find_crlf_groups widths buffer offset.

(** ** Data *)

Record FieldRange := { offset : nat; length_ : nat }.
Record QueuedFrame := { field_begin : nat; field_count : nat; consumed : nat }.

Inductive ParseResult := complete (consumed : nat) | incomplete | parse_error (message : bytes).

Record RespParser := {
  buffer_ : bytes;
  frames_ : list QueuedFrame;
  field_pool_ : list FieldRange;
  error_ : bytes;
  parse_offset_ : nat;
  popped_until_ : nat
}.

Definition fresh : RespParser :=
  {| buffer_ := []; frames_ := []; field_pool_ := []; error_ := [];
     parse_offset_ := 0; popped_until_ := 0 |}.

Definition kMaxArrayElements : Z := 1024 * 1024.
Definition kMaxBulkBytes : Z := 128 * 1024 * 1024.
Definition kMaxInlineBytes : Z := 1024 * 1024.

(** [buffer.substr(pos, n)]. *)
Definition substr (buffer : bytes) (pos n : nat) : bytes := take n (drop pos buffer).

(** ** One command *)

(** The loop over the announced bulk strings; [out] is the field pool. *)
Fixpoint parse_bulks (n : nat) (buffer : bytes) (cursor : nat) (out : list FieldRange)
  : ParseResult * list FieldRange :=
  match n with
  | O => (complete cursor, out)
  | S n =>
    match buffer !! cursor with
    | None => (incomplete, out)
    | Some c =>
      if decide (c <> "$"%byte) then (parse_error (str "ERR Protocol error: expected bulk string"), out)
      else
        match find_crlf buffer (cursor + 1) with
        | None => (incomplete, out)
        | Some bulk_line_end =>
          match parse_i64 (substr buffer (cursor + 1) (bulk_line_end - cursor - 1)) with
          | None => (parse_error (str "ERR Protocol error: invalid bulk length"), out)
          | Some bulk_len =>
            if bulk_len <? 0 then (parse_error (str "ERR Protocol error: invalid bulk length"), out)
            else if kMaxBulkBytes <? bulk_len
            then (parse_error (str "ERR Protocol error: bulk length is too large"), out)
            else
              let cursor := (bulk_line_end + 2)%nat in
              let len := Z.to_nat bulk_len in
              if (length buffer <? cursor + len + 2)%nat then (incomplete, out)
              else if decide (buffer !! (cursor + len)%nat = Some CR /\
                              buffer !! (cursor + len + 1)%nat = Some LF)
              then parse_bulks n buffer (cursor + len + 2) (out ++ [{| offset := cursor; length_ := len |}])
              else (parse_error (str "ERR Protocol error: invalid bulk terminator"), out)
          end
        end
    end
  end.

Definition parse_resp_array (buffer : bytes) (offset : nat) (out : list FieldRange)
  : ParseResult * list FieldRange :=
  match find_crlf buffer (offset + 1) with
  | None => (incomplete, out)
  | Some line_end =>
    match parse_i64 (substr buffer (offset + 1) (line_end - offset - 1)) with
    | None => (parse_error (str "ERR Protocol error: invalid multibulk length"), out)
    | Some element_count =>
      if element_count <? 0 then (parse_error (str "ERR Protocol error: invalid multibulk length"), out)
      else if kMaxArrayElements <? element_count
      then (parse_error (str "ERR Protocol error: multibulk length is too large"), out)
      else parse_bulks (Z.to_nat element_count) buffer (line_end + 2) out
    end
  end.

Definition is_inline_separator (c : byte) : bool :=
  bool_decide (c = " "%byte) || bool_decide (c = "009"%byte).

(** How many leading characters satisfy [p]. *)
Fixpoint run_length (p : byte -> bool) (l : bytes) : nat :=
  match l with
  | c :: l => if p c then S (run_length p l) else O
  | [] => O
  end.

(** The tokenising loop; every round consumes at least one character, so the
    length of the line is enough fuel. *)
Fixpoint inline_tokens (fuel : nat) (line : bytes) (cursor base : nat) (out : list FieldRange)
  : list FieldRange :=
  match fuel with
  | O => out
  | S fuel =>
    if (cursor <? length line)%nat then
      let cursor := (cursor + run_length is_inline_separator (drop cursor line))%nat in
      if (length line <=? cursor)%nat then out
      else
        let token_start := cursor in
        let cursor := (cursor + run_length (fun c => negb (is_inline_separator c)) (drop cursor line))%nat in
        inline_tokens fuel line cursor base
          (out ++ [{| offset := base + token_start; length_ := cursor - token_start |}])
    else out
  end.

Definition parse_inline (buffer : bytes) (offset : nat) (out : list FieldRange)
  : ParseResult * list FieldRange :=
  match find_crlf buffer offset with
  | None =>
    if kMaxInlineBytes <? Z.of_nat (length buffer - offset)
    then (parse_error (str "ERR Protocol error: inline command is too large"), out)
    else (incomplete, out)
  | Some line_end =>
    let line := substr buffer offset (line_end - offset) in
    (complete (line_end + 2), inline_tokens (S (length line)) line 0 offset out)
  end.

Definition parse_one (buffer : bytes) (offset : nat) (out : list FieldRange)
  : ParseResult * list FieldRange :=
  match buffer !! offset with
  | None => (incomplete, out)
  | Some c =>
    if decide (c = "*"%byte) then parse_resp_array buffer offset out
    else parse_inline buffer offset out
  end.

(** ** The parser's operations *)

(** [parse_available]; every completed command moves [parse_offset_] forward,
    so one more than the unparsed length is enough fuel. *)
Fixpoint parse_loop (fuel : nat) (s : RespParser) : RespParser :=
  match fuel with
  | O => s
  | S fuel =>
    if (parse_offset_ s <? length (buffer_ s))%nat && bool_decide (error_ s = []) then
      let begin := length (field_pool_ s) in
      match parse_one (buffer_ s) (parse_offset_ s) (field_pool_ s) with
      | (complete c, pool) =>
        parse_loop fuel
          {| buffer_ := buffer_ s;
             frames_ := frames_ s ++
               [{| field_begin := begin; field_count := length pool - begin; consumed := c |}];
             field_pool_ := pool; error_ := error_ s;
             parse_offset_ := c; popped_until_ := popped_until_ s |}
      | (incomplete, pool) =>
        {| buffer_ := buffer_ s; frames_ := frames_ s; field_pool_ := take begin pool;
           error_ := error_ s; parse_offset_ := parse_offset_ s; popped_until_ := popped_until_ s |}
      | (parse_error message, _) =>
        {| buffer_ := []; frames_ := []; field_pool_ := []; error_ := message;
           parse_offset_ := 0; popped_until_ := 0 |}
      end
    else s
  end.

Definition parse_available (s : RespParser) : RespParser :=
  parse_loop (S (length (buffer_ s) - parse_offset_ s)) s.

Definition compact_consumed_prefix (s : RespParser) : RespParser :=
  if (popped_until_ s =? 0)%nat || bool_decide (frames_ s <> []) then s
  else {| buffer_ := drop (popped_until_ s) (buffer_ s); frames_ := frames_ s; field_pool_ := [];
          error_ := error_ s;
          parse_offset_ := parse_offset_ s - Nat.min (parse_offset_ s) (popped_until_ s);
          popped_until_ := 0 |}.

Definition append_buffer (s : RespParser) (b : bytes) : RespParser :=
  {| buffer_ := buffer_ s ++ b; frames_ := frames_ s; field_pool_ := field_pool_ s;
     error_ := error_ s; parse_offset_ := parse_offset_ s; popped_until_ := popped_until_ s |}.

Definition append (s : RespParser) (b : bytes) : RespParser :=
  if bool_decide (b = []) || bool_decide (error_ s <> []) then s
  else
    let s := if bool_decide (frames_ s = []) then compact_consumed_prefix s else s in
    parse_available (append_buffer s b).

Definition field_view (s : RespParser) (r : FieldRange) : bytes :=
  substr (buffer_ s) (offset r) (length_ r).

(** [pop] and [pop_into]: the front frame's fields and the parser after it. *)
Definition pop (s : RespParser) : option (list bytes) * RespParser :=
  match frames_ s with
  | [] => (None, compact_consumed_prefix s)
  | queued :: frames =>
    (Some (field_view s <$> take (field_count queued) (drop (field_begin queued) (field_pool_ s))),
     {| buffer_ := buffer_ s; frames_ := frames; field_pool_ := field_pool_ s; error_ := error_ s;
        parse_offset_ := parse_offset_ s;
        popped_until_ := Nat.max (popped_until_ s) (consumed queued) |})
  end.

Definition has_queued_frames (s : RespParser) : bool := bool_decide (frames_ s <> []).
Definition has_unparsed_input (s : RespParser) : bool :=
  negb (parse_offset_ s =? length (buffer_ s))%nat.
Definition has_error (s : RespParser) : bool := bool_decide (error_ s <> []).
Definition clear (s : RespParser) : RespParser := fresh.

Example parse_ex :
  (pop (append fresh (str "*2" ++ crlf ++ str "$3" ++ crlf ++ str "GET" ++ crlf ++ str "$1" ++ crlf ++ str "k" ++ crlf))).1
  = Some [str "GET"; str "k"].
Proof. vm_compute. reflexivity. Qed.

Example parse_inline_ex :
  (pop (append fresh (str "  SET  a b " ++ crlf))).1 = Some [str "SET"; str "a"; str "b"].
Proof. vm_compute. reflexivity. Qed.

(** ** [find_crlf] *)

Lemma crlf_index_cons2 x y l :
  crlf_index (x :: y :: l) = if decide (x = CR /\ y = LF) then Some O else S <$> crlf_index (y :: l).
Proof. reflexivity. Qed.

Lemma crlf_index_app l b e : crlf_index l = Some e -> crlf_index (l ++ b) = Some e.
Proof.
  revert e. induction l as [|x l IH]; intros e; [done|].
  destruct l as [|y l]; [done|]. simpl app. rewrite !crlf_index_cons2. case_decide; [done|].
  destruct (crlf_index (y :: l)) as [e'|] eqn:E; [|done]. intros [= <-].
  specialize (IH e' eq_refl). simpl app in IH. by rewrite IH.
Qed.

Lemma crlf_index_Some l e :
  crlf_index l = Some e ->
  (e + 2 <= length l)%nat /\ l !! e = Some CR /\ l !! S e = Some LF.
Proof.
  revert e. induction l as [|x l IH]; intros e; [done|].
  destruct l as [|y l]; [done|]. rewrite crlf_index_cons2. case_decide as H.
  - intros [= <-]. destruct H as [-> ->]. simpl. split; [lia|done].
  - destruct (crlf_index (y :: l)) as [e'|] eqn:E; [|done]. intros [= <-].
    destruct (IH e' eq_refl) as (H1 & H2 & H3). simpl in *. split; [lia|done].
Qed.

(** The first CR LF: nothing before [e] is one. *)
Lemma crlf_index_first l e j :
  crlf_index l = Some e -> (j < e)%nat -> ~ (l !! j = Some CR /\ l !! S j = Some LF).
Proof.
  revert e j. induction l as [|x l IH]; intros e j; [done|].
  destruct l as [|y l]; [done|]. rewrite crlf_index_cons2. case_decide as H.
  - intros [= <-]. lia.
  - destruct (crlf_index (y :: l)) as [e'|] eqn:E; [|done]. intros [= <-] Hj.
    destruct j as [|j]; [simpl; intros [[= ->] [= ->]]; naive_solver|]. apply (IH e' j); [done|lia].
Qed.

Lemma crlf_index_None l j :
  crlf_index l = None -> ~ (l !! j = Some CR /\ l !! S j = Some LF).
Proof.
  revert j. induction l as [|x l IH]; intros j; [intros _ [H _]; by rewrite lookup_nil in H|].
  destruct l as [|y l]; [intros _ [_ H]; simpl in H; by rewrite lookup_nil in H|]. rewrite crlf_index_cons2. case_decide as H; [done|].
  destruct (crlf_index (y :: l)) as [e'|] eqn:E; [done|]. intros _.
  destruct j as [|j]; [simpl; intros [[= ->] [= ->]]; naive_solver|]. apply (IH j). done.
Qed.

Lemma crlf_index_no_cr a r : CR ∉ a -> crlf_index (a ++ crlf ++ r) = Some (length a).
Proof.
  induction a as [|x a IH]; intros H; [done|]. simpl app.
  apply not_elem_of_cons in H as [Hx H]. specialize (IH H).
  destruct (a ++ CR :: LF :: r) as [|y l] eqn:E; [by destruct a|].
  rewrite crlf_index_cons2, decide_False by naive_solver. simpl app in IH. rewrite E in IH. by rewrite IH.
Qed.

Lemma find_crlf_app buffer b o e : find_crlf buffer o = Some e -> find_crlf (buffer ++ b) o = Some e.
Proof.
  unfold find_crlf. destruct (length buffer <=? o)%nat eqn:E; [done|]. apply Nat.leb_gt in E.
  rewrite length_app, (proj2 (Nat.leb_gt _ _)) by lia. rewrite drop_app_le by lia.
  destruct (crlf_index (drop o buffer)) as [i|] eqn:Ei; [|done].
  by rewrite (crlf_index_app _ _ _ Ei).
Qed.

Lemma find_crlf_Some buffer o e :
  find_crlf buffer o = Some e ->
  (o <= e)%nat /\ (e + 2 <= length buffer)%nat /\ buffer !! e = Some CR /\ buffer !! S e = Some LF.
Proof.
  unfold find_crlf. destruct (length buffer <=? o)%nat eqn:E; [done|]. apply Nat.leb_gt in E.
  destruct (crlf_index (drop o buffer)) as [i|] eqn:Ei; [|done]. intros [= <-].
  apply crlf_index_Some in Ei as (H1 & H2 & H3). rewrite length_drop in H1.
  rewrite lookup_drop in H2, H3. rewrite Nat.add_succ_r in H3. split; [lia|]. split; [lia|done].
Qed.

(** Specification by positions, which does not mention how the buffer is scanned. *)
Definition crlf_at (buffer : bytes) (i : nat) : Prop := buffer !! i = Some CR /\ buffer !! S i = Some LF.

Definition first_crlf (buffer : bytes) (o : nat) (r : option nat) : Prop :=
  match r with
  | Some e => (o <= e)%nat /\ crlf_at buffer e /\ forall j, (o <= j < e)%nat -> ~ crlf_at buffer j
  | None => forall j, (o <= j)%nat -> ~ crlf_at buffer j
  end.

Lemma find_crlf_first buffer o : first_crlf buffer o (find_crlf buffer o).
Proof.
  unfold first_crlf, crlf_at. destruct (find_crlf buffer o) as [e|] eqn:E.
  - destruct (find_crlf_Some _ _ _ E) as (H1 & H2 & H3 & H4). split; [done|]. split; [done|].
    intros j Hj. unfold find_crlf in E. destruct (_ <=? _)%nat; [done|].
    destruct (crlf_index (drop o buffer)) as [i|] eqn:Ei; [|done]. injection E as <-.
    pose proof (crlf_index_first _ _ (j - o) Ei ltac:(lia)) as H. rewrite !lookup_drop in H.
    replace (o + (j - o))%nat with j in H by lia. by replace (o + S (j - o))%nat with (S j) in H by lia.
  - intros j Hj [Hc Hl]. unfold find_crlf in E. destruct (length buffer <=? o)%nat eqn:El.
    + apply Nat.leb_le in El. apply lookup_lt_Some in Hc. lia.
    + destruct (crlf_index (drop o buffer)) as [i|] eqn:Ei; [done|].
      apply (crlf_index_None _ (j - o) Ei). rewrite !lookup_drop.
      replace (o + (j - o))%nat with j by lia. by replace (o + S (j - o))%nat with (S j) by lia.
Qed.

Lemma first_crlf_unique buffer o r1 r2 :
  first_crlf buffer o r1 -> first_crlf buffer o r2 -> r1 = r2.
Proof.
  unfold first_crlf. destruct r1 as [e1|], r2 as [e2|]; intros H1 H2; [|naive_solver..|done].
  destruct H1 as (A1 & B1 & C1), H2 as (A2 & B2 & C2). f_equal.
  destruct (lt_eq_lt_dec e1 e2) as [[H| ->]|H]; [|done|].
  - destruct (C2 e1); [lia|done].
  - destruct (C1 e2); [lia|done].
Qed.

Lemma head_filter_seq (R : nat -> Prop) `{!forall x, Decision (R x)} a w :
  match head (filter R (seq a w)) with
  | Some k => (a <= k < a + w)%nat /\ R k /\ forall j, (a <= j < k)%nat -> ~ R j
  | None => forall j, (a <= j < a + w)%nat -> ~ R j
  end.
Proof.
  revert a. induction w as [|w IH]; intros a; simpl; [intros; lia|].
  rewrite filter_cons. case_decide; simpl.
  - split; [lia|]. split; [done|]. intros; lia.
  - specialize (IH (S a)). destruct (head _) as [k|].
    + destruct IH as (H1 & H2 & H3). split; [lia|]. split; [done|]. intros j Hj.
      destruct (decide (j = a)) as [->|]; [done|]. apply H3. lia.
    + intros j Hj. destruct (decide (j = a)) as [->|]; [done|]. apply IH. lia.
Qed.

Lemma group_hit_spec buffer i w :
  match group_hit buffer i w with
  | Some e => (i <= e < i + w)%nat /\ crlf_at buffer e /\ forall j, (i <= j < e)%nat -> ~ crlf_at buffer j
  | None => forall j, (i <= j < i + w)%nat -> ~ crlf_at buffer j
  end.
Proof.
  unfold group_hit. rewrite list_filter_filter.
  assert (Hc : forall j, (i <= j)%nat -> crlf_at buffer j ->
    buffer !! (i + (j - i) + 1)%nat = Some LF /\ buffer !! (i + (j - i))%nat = Some CR).
  { intros j Hj [H1 H2]. replace (i + (j - i) + 1)%nat with (S j) by lia.
    by replace (i + (j - i))%nat with j by lia. }
  match goal with |- context [filter ?P (seq 0 w)] =>
    pose proof (head_filter_seq P 0 w) as H; destruct (filter P (seq 0 w)) as [|k l] end; simpl in *.
  - intros j Hj Hat. apply (H (j - i)%nat); [lia|]. apply Hc; [lia|done].
  - destruct H as (H1 & H2 & H3). split; [lia|]. split.
    + destruct H2 as [H2a H2b]. split; [done|]. by rewrite <- Nat.add_1_r.
    + intros j Hj Hat. apply (H3 (j - i)%nat); [lia|]. apply Hc; [lia|done].
Qed.

Lemma group_scan_spec fuel buffer w i :
  match group_scan fuel buffer w i with
  | inl e => first_crlf buffer i (Some e)
  | inr i' => (i <= i')%nat /\ forall j, (i <= j < i')%nat -> ~ crlf_at buffer j
  end.
Proof.
  revert i. induction fuel as [|fuel IH]; intros i; cbn [group_scan]; [split; [lia|]; intros; lia|].
  destruct (_ <=? _)%nat; [|split; [lia|]; intros; lia].
  pose proof (group_hit_spec buffer i w) as H. destruct (group_hit buffer i w) as [e|].
  - destruct H as (H1 & H2 & H3). split; [lia|]. by split.
  - specialize (IH (i + w)%nat). destruct (group_scan _ _ _ _) as [e|i'].
    + destruct IH as (H1 & H2 & H3). split; [lia|]. split; [done|]. intros j Hj.
      destruct (decide (j < i + w)%nat); [apply H; lia|apply H3; lia].
    + destruct IH as (H1 & H3). split; [lia|]. intros j Hj.
      destruct (decide (j < i + w)%nat); [apply H; lia|apply H3; lia].
Qed.

Lemma first_crlf_skip buffer i i' r :
  (i <= i')%nat -> (forall j, (i <= j < i')%nat -> ~ crlf_at buffer j) ->
  first_crlf buffer i' r -> first_crlf buffer i r.
Proof.
  intros Hi Hn. unfold first_crlf. destruct r as [e|].
  - intros (H1 & H2 & H3). split; [lia|]. split; [done|]. intros j Hj.
    destruct (decide (j < i')%nat); [apply Hn; lia|apply H3; lia].
  - intros H j Hj. destruct (decide (j < i')%nat); [apply Hn; lia|apply H; lia].
Qed.

(** The grouped scan of [simd::find_crlf] returns, for every selection of
    compiled-in group widths, what the portable loop returns: the first
    position at or after the offset that holds CR and LF, and nothing when
    there is none. *)
Theorem simd_find_crlf_equiv widths buffer o :
  simd_find_crlf widths buffer o = find_crlf buffer o /\
  first_crlf buffer o (simd_find_crlf widths buffer o).
Proof.
  assert (H : simd_find_crlf widths buffer o = find_crlf buffer o).
  { unfold simd_find_crlf. destruct (_ <=? _)%nat eqn:El; [unfold find_crlf; by rewrite El|].
    clear El. eapply first_crlf_unique; [|apply find_crlf_first].
    revert o. induction widths as [|w ws IH]; intros o; cbn [find_crlf_groups]; [apply find_crlf_first|].
    pose proof (group_scan_spec (length buffer) buffer w o) as H.
    destruct (group_scan _ _ _ _) as [e|i']; [done|].
    destruct H as [H1 H2]. eapply first_crlf_skip; [done..|]. apply IH. }
  split; [done|]. rewrite H. apply find_crlf_first.
Qed.

(** ** What one parse step returns *)

Lemma substr_app buffer b pos n :
  (pos + n <= length buffer)%nat -> substr (buffer ++ b) pos n = substr buffer pos n.
Proof.
  intros. unfold substr. rewrite drop_app_le by lia. rewrite take_app_le; [done|].
  rewrite length_drop. lia.
Qed.

Lemma lookup_app_keep (buffer b : bytes) i c : buffer !! i = Some c -> (buffer ++ b) !! i = Some c.
Proof. intros H. by apply lookup_app_l_Some. Qed.

Definition in_range (hi : nat) (r : FieldRange) : Prop := (offset r + length_ r <= hi)%nat.

Lemma in_range_mono hi hi' r : (hi <= hi')%nat -> in_range hi r -> in_range hi' r.
Proof. unfold in_range. lia. Qed.

(** A decided result (complete or error) does not change when more bytes arrive. *)
Lemma parse_bulks_app n buffer b cursor out r o :
  parse_bulks n buffer cursor out = (r, o) -> r <> incomplete ->
  parse_bulks n (buffer ++ b) cursor out = (r, o).
Proof.
  revert cursor out. induction n as [|n IH]; intros cursor out; cbn [parse_bulks]; [done|].
  destruct (buffer !! cursor) as [c|] eqn:Ec; [|naive_solver].
  rewrite (lookup_app_keep _ b _ _ Ec). case_decide; [done|].
  destruct (find_crlf buffer (cursor + 1)) as [e|] eqn:Ee; [|naive_solver].
  rewrite (find_crlf_app _ b _ _ Ee).
  destruct (find_crlf_Some _ _ _ Ee) as (H1 & H2 & _).
  rewrite substr_app by lia. destruct (parse_i64 _) as [len|]; [|done].
  destruct (len <? 0); [done|]. destruct (_ <? len); [done|].
  destruct (length buffer <? _)%nat eqn:El; [naive_solver|]. apply Nat.ltb_ge in El.
  rewrite length_app, (proj2 (Nat.ltb_ge _ _)) by lia.
  rewrite !lookup_app_l by lia. case_decide; [apply IH|done].
Qed.

Lemma parse_bulks_ok n buffer cursor out r o :
  parse_bulks n buffer cursor out = (r, o) -> (cursor <= length buffer)%nat ->
  exists fs, o = out ++ fs /\
    match r with
    | complete c => (cursor <= c <= length buffer)%nat /\ Forall (in_range c) fs
    | parse_error m => m <> []
    | incomplete => True
    end.
Proof.
  revert cursor out. induction n as [|n IH]; intros cursor out; cbn [parse_bulks].
  { intros [= <- <-] H. exists []. rewrite app_nil_r. split; [done|]. split; [lia|constructor]. }
  assert (Hnil : forall x, exists fs, x = x ++ fs /\ True) by (intros x; exists (@nil FieldRange); by rewrite app_nil_r).
  assert (Herr : forall x (m : bytes), m <> [] -> exists fs : list FieldRange, x = x ++ fs /\ m <> [])
    by (intros x m Hm; exists (@nil FieldRange); by rewrite app_nil_r).
  destruct (buffer !! cursor) as [c|] eqn:Ec; [|by intros [= <- <-]; auto].
  case_decide; [by intros [= <- <-]; auto|].
  destruct (find_crlf buffer (cursor + 1)) as [e|] eqn:Ee; [|by intros [= <- <-]; auto].
  destruct (find_crlf_Some _ _ _ Ee) as (H1 & H2 & _).
  destruct (parse_i64 _) as [len|]; [|by intros [= <- <-]; auto].
  destruct (len <? 0); [by intros [= <- <-]; auto|].
  destruct (_ <? len); [by intros [= <- <-]; auto|].
  destruct (length buffer <? _)%nat eqn:El; [by intros [= <- <-]; auto|]. apply Nat.ltb_ge in El.
  case_decide; [|by intros [= <- <-]; auto].
  intros Hp Hc. apply IH in Hp as (fs & -> & Hr); [|lia].
  exists ({| offset := e + 2; length_ := Z.to_nat len |} :: fs). rewrite <- app_assoc. split; [done|].
  destruct r as [c'| |]; [|done|done]. destruct Hr as [Hr1 Hr2]. split; [lia|].
  constructor; [unfold in_range; simpl; lia|done].
Qed.

(** ** Inline commands: a reference tokeniser *)

Fixpoint words_from (cur l : bytes) : list bytes :=
  match l with
  | [] => if decide (cur = []) then [] else [cur]
  | c :: l =>
    if is_inline_separator c
    then if decide (cur = []) then words_from [] l else cur :: words_from [] l
    else words_from (cur ++ [c]) l
  end.

(** The maximal runs of non-separator characters. *)
Definition words (line : bytes) : list bytes := words_from [] line.

Lemma run_length_le p l : (run_length p l <= length l)%nat.
Proof. induction l as [|c l IH]; simpl; [lia|]. destruct (p c); simpl; lia. Qed.

Lemma words_skip l : words l = words (drop (run_length is_inline_separator l) l).
Proof.
  unfold words. induction l as [|c l IH]; simpl; [done|].
  destruct (is_inline_separator c) eqn:E; simpl; [done|]. by rewrite E.
Qed.

Lemma words_from_cons cur l :
  cur <> [] ->
  let k := run_length (fun c => negb (is_inline_separator c)) l in
  words_from cur l = (cur ++ take k l) :: words (drop k l).
Proof.
  revert cur. induction l as [|c l IH]; intros cur Hcur; cbn [words_from run_length].
  - rewrite decide_False by done. simpl. by rewrite app_nil_r.
  - destruct (is_inline_separator c) eqn:E; simpl.
    + rewrite decide_False by done. rewrite app_nil_r. unfold words. cbn [words_from]. rewrite E.
      by rewrite decide_True.
    + rewrite IH by (by destruct cur). by rewrite <- app_assoc.
Qed.

Lemma words_token l :
  let k := run_length (fun c => negb (is_inline_separator c)) l in
  (0 < k)%nat -> words l = take k l :: words (drop k l).
Proof.
  destruct l as [|c l]; cbn [run_length]; [simpl; lia|].
  destruct (is_inline_separator c) eqn:E; [simpl; lia|]. intros _. simpl negb. cbn iota.
  unfold words at 1. cbn [words_from]. rewrite E. by rewrite words_from_cons.
Qed.

Lemma run_length_stop p l c l' :
  drop (run_length p l) l = c :: l' -> p c = false.
Proof. induction l as [|x l IH]; simpl; [done|]. destruct (p x) eqn:E; simpl; [auto|congruence]. Qed.

(** The token ranges of a line, from a cursor on. *)
Lemma inline_tokens_words fuel line cursor base out :
  (length line - cursor < fuel)%nat ->
  exists fs, inline_tokens fuel line cursor base out = out ++ fs /\
    Forall (in_range (base + length line)) fs /\ Forall (fun r => (base <= offset r)%nat) fs /\
    (fun r => substr line (offset r - base) (length_ r)) <$> fs = words (drop cursor line).
Proof.
  revert cursor out. induction fuel as [|fuel IH]; intros cursor out Hf; [lia|]. cbn [inline_tokens].
  assert (Hend : words (@nil byte) = []) by done.
  destruct (cursor <? length line)%nat eqn:E1.
  2: { apply Nat.ltb_ge in E1. exists []. rewrite app_nil_r, drop_ge by lia. split_and!; (constructor || done). }
  apply Nat.ltb_lt in E1.
  set (c1 := (cursor + run_length is_inline_separator (drop cursor line))%nat).
  assert (Hw : words (drop cursor line) = words (drop c1 line)).
  { rewrite words_skip, drop_drop. done. }
  rewrite Hw. destruct (length line <=? c1)%nat eqn:E2.
  { apply Nat.leb_le in E2. exists []. rewrite app_nil_r, drop_ge by lia. split_and!; (constructor || done). }
  apply Nat.leb_gt in E2.
  set (k := run_length (fun c => negb (is_inline_separator c)) (drop c1 line)).
  pose proof (run_length_le (fun c => negb (is_inline_separator c)) (drop c1 line)) as Hk.
  fold k in Hk. rewrite length_drop in Hk.
  assert (Hk0 : (0 < k)%nat).
  { destruct (drop c1 line) as [|c l'] eqn:Ed.
    - apply (f_equal length) in Ed. rewrite length_drop in Ed. simpl in Ed. lia.
    - unfold c1 in Ed. rewrite <- drop_drop in Ed.
      unfold k. cbn [run_length]. rewrite (run_length_stop _ _ _ _ Ed). simpl. lia. }
  destruct (IH (c1 + k)%nat (out ++ [{| offset := base + c1; length_ := c1 + k - c1 |}]))
    as (fs & -> & H1 & H2 & H3); [lia|].
  exists ({| offset := base + c1; length_ := c1 + k - c1 |} :: fs).
  rewrite <- app_assoc. split; [done|]. split; [|split].
  - constructor; [unfold in_range; simpl; lia|done].
  - constructor; [simpl; lia|done].
  - rewrite fmap_cons. simpl offset. simpl length_. rewrite words_token by done. f_equal.
    + unfold substr. replace (base + c1 - base)%nat with c1 by lia. by replace (c1 + k - c1)%nat with k by lia.
    + rewrite H3, drop_drop. done.
Qed.

(** ** [parse_one] *)

Lemma parse_resp_array_app buffer b o out r pool :
  parse_resp_array buffer o out = (r, pool) -> r <> incomplete ->
  parse_resp_array (buffer ++ b) o out = (r, pool).
Proof.
  unfold parse_resp_array.
  destruct (find_crlf buffer (o + 1)) as [e|] eqn:Ee; [|naive_solver].
  rewrite (find_crlf_app _ b _ _ Ee). destruct (find_crlf_Some _ _ _ Ee) as (H1 & H2 & _).
  rewrite substr_app by lia. destruct (parse_i64 _) as [n|]; [|done].
  destruct (n <? 0); [done|]. destruct (_ <? n); [done|]. apply parse_bulks_app.
Qed.

Lemma parse_one_complete_app buffer b o out c pool :
  parse_one buffer o out = (complete c, pool) ->
  parse_one (buffer ++ b) o out = (complete c, pool).
Proof.
  unfold parse_one. destruct (buffer !! o) as [x|] eqn:Ex; [|done].
  rewrite (lookup_app_keep _ b _ _ Ex). case_decide.
  - intros Hp. by eapply parse_resp_array_app.
  - unfold parse_inline. destruct (find_crlf buffer o) as [e|] eqn:Ee; [|by destruct (_ <? _)].
    rewrite (find_crlf_app _ b _ _ Ee). destruct (find_crlf_Some _ _ _ Ee) as (H1 & H2 & _).
    by rewrite substr_app by lia.
Qed.

Lemma parse_one_array_app buffer b o out r pool :
  buffer !! o = Some "*"%byte -> parse_one buffer o out = (r, pool) -> r <> incomplete ->
  parse_one (buffer ++ b) o out = (r, pool).
Proof.
  unfold parse_one. intros Hx. rewrite (lookup_app_keep _ b _ _ Hx), Hx, !decide_True by done.
  apply parse_resp_array_app.
Qed.

Lemma parse_one_ok buffer o out r pool :
  parse_one buffer o out = (r, pool) ->
  exists fs, pool = out ++ fs /\
    match r with
    | complete c => (o < c <= length buffer)%nat /\ Forall (in_range c) fs
    | parse_error m => m <> []
    | incomplete => True
    end.
Proof.
  unfold parse_one.
  assert (Hnil : forall x, exists fs, x = x ++ fs /\ True) by (intros x; exists (@nil FieldRange); by rewrite app_nil_r).
  assert (Herr : forall x (m : bytes), m <> [] -> exists fs : list FieldRange, x = x ++ fs /\ m <> [])
    by (intros x m Hm; exists (@nil FieldRange); by rewrite app_nil_r).
  destruct (buffer !! o) as [x|] eqn:Ex; [|by intros [= <- <-]; auto].
  case_decide.
  - unfold parse_resp_array.
    destruct (find_crlf buffer (o + 1)) as [e|] eqn:Ee; [|by intros [= <- <-]; auto].
    destruct (find_crlf_Some _ _ _ Ee) as (H1 & H2 & _).
    destruct (parse_i64 _) as [n|]; [|by intros [= <- <-]; auto].
    destruct (n <? 0); [by intros [= <- <-]; auto|]. destruct (_ <? n); [by intros [= <- <-]; auto|].
    intros (fs & -> & Hr)%parse_bulks_ok; [|lia]. exists fs. split; [done|].
    destruct r; [|done|done]. destruct Hr. split; [lia|done].
  - unfold parse_inline. destruct (find_crlf buffer o) as [e|] eqn:Ee.
    + destruct (find_crlf_Some _ _ _ Ee) as (H1 & H2 & _). intros [<- <-]%pair_equal_spec.
      set (line := substr buffer o (e - o)).
      assert (Hl : length line = (e - o)%nat).
      { unfold line, substr. rewrite length_take, length_drop. lia. }
      destruct (inline_tokens_words (S (length line)) line 0 o out) as (fs & -> & Hf & _); [lia|].
      exists fs. split; [done|]. split; [lia|].
      eapply Forall_impl; [exact Hf|]. intros r'. apply in_range_mono. lia.
    + destruct (_ <? _); intros [= <- <-]; auto.
Qed.

(** ** The parse loop *)

Definition measure (s : RespParser) : nat := length (buffer_ s) - parse_offset_ s.

(** The state after one completed command. *)
Definition push_frame (s : RespParser) (c : nat) (pool : list FieldRange) : RespParser :=
  {| buffer_ := buffer_ s;
     frames_ := frames_ s ++
       [{| field_begin := length (field_pool_ s); field_count := length pool - length (field_pool_ s); consumed := c |}];
     field_pool_ := pool; error_ := error_ s; parse_offset_ := c; popped_until_ := popped_until_ s |}.

Lemma parse_loop_fuel f1 f2 s :
  (measure s < f1)%nat -> (measure s < f2)%nat -> parse_loop f1 s = parse_loop f2 s.
Proof.
  revert f2 s. induction f1 as [|f1 IH]; intros [|f2] s H1 H2; [lia..|]. cbn [parse_loop].
  destruct (_ && _); [|done].
  destruct (parse_one _ _ _) as [[c| |m] pool] eqn:E; [|done|done].
  apply parse_one_ok in E as (fs & -> & Hc & _).
  apply IH; unfold measure in *; simpl; lia.
Qed.

Lemma parse_available_eq s :
  error_ s = [] -> (parse_offset_ s < length (buffer_ s))%nat ->
  parse_available s =
    match parse_one (buffer_ s) (parse_offset_ s) (field_pool_ s) with
    | (complete c, pool) => parse_available (push_frame s c pool)
    | (incomplete, _) => s
    | (parse_error m, _) =>
      {| buffer_ := []; frames_ := []; field_pool_ := []; error_ := m; parse_offset_ := 0; popped_until_ := 0 |}
    end.
Proof.
  intros He Hlt. unfold parse_available at 1. cbn [parse_loop].
  rewrite (proj2 (Nat.ltb_lt _ _)) by done. rewrite bool_decide_eq_true_2 by done. simpl andb. cbn iota.
  destruct (parse_one _ _ _) as [[c| |m] pool] eqn:E; [| |done].
  - apply parse_one_ok in E as (fs & -> & Hc & _). unfold parse_available.
    apply parse_loop_fuel; unfold measure; simpl; lia.
  - apply parse_one_ok in E as (fs & -> & _). rewrite take_app_length. by destruct s.
Qed.

Lemma parse_available_done s :
  (length (buffer_ s) <= parse_offset_ s)%nat -> parse_available s = s.
Proof.
  intros H. unfold parse_available. cbn [parse_loop]. by rewrite (proj2 (Nat.ltb_ge _ _)) by done.
Qed.

Lemma parse_available_error s : error_ s <> [] -> parse_available s = s.
Proof.
  intros H. unfold parse_available. cbn [parse_loop].
  rewrite (bool_decide_eq_false_2 (error_ s = [])) by done. by rewrite andb_false_r.
Qed.

(** Induction on the commands that can still be parsed. *)
Lemma parse_available_ind (P : RespParser -> Prop) :
  (forall s, (length (buffer_ s) <= parse_offset_ s)%nat \/ error_ s <> [] -> P s) ->
  (forall s c pool, error_ s = [] -> (parse_offset_ s < length (buffer_ s))%nat ->
     parse_one (buffer_ s) (parse_offset_ s) (field_pool_ s) = (complete c, pool) ->
     P (push_frame s c pool) -> P s) ->
  (forall s r pool, error_ s = [] -> (parse_offset_ s < length (buffer_ s))%nat ->
     parse_one (buffer_ s) (parse_offset_ s) (field_pool_ s) = (r, pool) ->
     (forall c, r <> complete c) -> P s) ->
  forall s, P s.
Proof.
  intros Hdone Hstep Hstop s. remember (measure s) as n eqn:En. revert s En.
  induction (lt_wf n) as [n _ IH]; intros s ->.
  destruct (decide (error_ s = [])) as [He|He]; [|by apply Hdone; right].
  destruct (decide (parse_offset_ s < length (buffer_ s))%nat) as [Hlt|Hge]; [|by apply Hdone; left; lia].
  destruct (parse_one (buffer_ s) (parse_offset_ s) (field_pool_ s)) as [[c| |m] pool] eqn:E.
  - eapply Hstep; [done..|]. apply parse_one_ok in E as (fs & -> & Hc & _).
    eapply IH; [|done]. unfold measure in *. simpl. lia.
  - by eapply Hstop.
  - by eapply Hstop.
Qed.

(** More bytes after a parse that found no error give what one parse of all the
    bytes gives. *)
Lemma parse_available_app s b :
  error_ (parse_available s) = [] ->
  parse_available (append_buffer (parse_available s) b) = parse_available (append_buffer s b).
Proof.
  revert s. apply (parse_available_ind (fun s => error_ (parse_available s) = [] ->
    parse_available (append_buffer (parse_available s) b) = parse_available (append_buffer s b))).
  - intros s [H|H] _; [by rewrite (parse_available_done s)|by rewrite (parse_available_error s)].
  - intros s c pool He Hlt E IH. rewrite (parse_available_eq s), E by done. intros H.
    rewrite IH by done. symmetry. rewrite parse_available_eq; simpl; [|done|len_lia].
    by rewrite (parse_one_complete_app _ b _ _ _ _ E).
  - intros s r pool He Hlt E Hr. rewrite (parse_available_eq s), E by done.
    destruct r as [c| |m]; [by destruct (Hr c)|done|]. intros H. simpl in H. subst m.
    apply parse_one_ok in E as (fs & _ & Hm). done.
Qed.

Lemma compact_idle s : popped_until_ s = 0%nat -> compact_consumed_prefix s = s.
Proof. intros H. unfold compact_consumed_prefix. by rewrite H. Qed.

Lemma compact_error s : error_ (compact_consumed_prefix s) = error_ s.
Proof. unfold compact_consumed_prefix. by destruct (_ || _). Qed.

Lemma parse_available_keep s :
  error_ (parse_available s) = [] ->
  popped_until_ (parse_available s) = popped_until_ s /\
  (frames_ s <> [] -> frames_ (parse_available s) <> []).
Proof.
  revert s. apply (parse_available_ind (fun s => error_ (parse_available s) = [] ->
    popped_until_ (parse_available s) = popped_until_ s /\
    (frames_ s <> [] -> frames_ (parse_available s) <> []))).
  - intros s [H|H] _; [by rewrite (parse_available_done s)|by rewrite (parse_available_error s)].
  - intros s c pool He Hlt E IH. rewrite (parse_available_eq s), E by done. intros H.
    destruct (IH H) as [H1 H2]. split; [done|]. intros _. apply H2. simpl. by destruct (frames_ s).
  - intros s r pool He Hlt E Hr. rewrite (parse_available_eq s), E by done.
    destruct r as [c| |m]; [by destruct (Hr c)|done|]. intros H. simpl in H. subst m.
    apply parse_one_ok in E as (fs & _ & Hm). done.
Qed.

Lemma append_eq s b :
  b <> [] -> error_ s = [] ->
  append s b = parse_available (append_buffer
    (if bool_decide (frames_ s = []) then compact_consumed_prefix s else s) b).
Proof.
  intros Hb He. unfold append. rewrite (bool_decide_eq_false_2 (b = [])) by done.
  by rewrite (bool_decide_eq_false_2 (error_ s <> [])) by (rewrite He; auto).
Qed.

Lemma append_app s a b :
  error_ (append s a) = [] -> append (append s a) b = append s (a ++ b).
Proof.
  destruct (decide (a = [])) as [->|Ha]; [done|].
  destruct (decide (b = [])) as [->|Hb].
  { intros _. rewrite app_nil_r. unfold append at 1. done. }
  intros He.
  assert (Hs : error_ s = []).
  { unfold append in He. destruct (decide (error_ s = [])); [done|].
    rewrite (bool_decide_eq_true_2 (error_ s <> [])), orb_true_r in He by done. done. }
  rewrite (append_eq s a) in He |- * by done. rewrite (append_eq s (a ++ b)) by (done || by destruct a).
  set (s' := if bool_decide (frames_ s = []) then compact_consumed_prefix s else s) in *.
  set (p := parse_available (append_buffer s' a)) in *.
  rewrite (append_eq p b) by done.
  pose proof (parse_available_keep _ He) as [Hp Hf]. fold p in Hp, Hf. simpl in Hp, Hf.
  replace (if bool_decide (frames_ p = []) then compact_consumed_prefix p else p) with p.
  - unfold p. rewrite parse_available_app by done.
    f_equal. unfold append_buffer. simpl. by rewrite app_assoc.
  - destruct (bool_decide_reflect (frames_ p = [])) as [Hfp|]; [|done].
    symmetry. apply compact_idle. rewrite Hp. subst s'.
    destruct (bool_decide_reflect (frames_ s = [])) as [Hfs|Hfs]; [|by destruct (Hf Hfs)].
    unfold compact_consumed_prefix. destruct (popped_until_ s =? 0)%nat eqn:E0; simpl.
    + by apply Nat.eqb_eq in E0.
    + by rewrite Hfs.
Qed.

(** C7: how the network splits a byte stream does not matter: as long as the
    first piece leaves no protocol error, feeding two pieces one after the other
    leaves the parser in exactly the state that feeding them joined does (the
    queued commands, the field pool, the unparsed rest and any later error). *)
Theorem append_chunk_invariant s a b :
  error_ (append s a) = [] -> append (append s a) b = append s (a ++ b).
Proof. apply append_app. Qed.

Lemma append_chunk_invariant_witness :
  append (append fresh (str "*1" ++ [CR])) ([LF] ++ str "$4" ++ crlf ++ str "PING" ++ crlf)
  = append fresh (str "*1" ++ crlf ++ str "$4" ++ crlf ++ str "PING" ++ crlf).
Proof. apply (append_chunk_invariant fresh (str "*1" ++ [CR])). vm_compute. reflexivity. Defined.

(** ** Invariant *)

Record wf (s : RespParser) : Prop := {
  wf_offset : (parse_offset_ s <= length (buffer_ s))%nat;
  wf_popped : (popped_until_ s <= parse_offset_ s)%nat;
  wf_frames : Forall (fun f => (field_begin f + field_count f <= length (field_pool_ s))%nat /\
                               (consumed f <= parse_offset_ s)%nat) (frames_ s);
  wf_pool : Forall (in_range (parse_offset_ s)) (field_pool_ s);
  wf_error : error_ s <> [] -> buffer_ s = [] /\ frames_ s = [] /\ field_pool_ s = []
}.

Lemma wf_fresh : wf fresh.
Proof. constructor; simpl; first [lia | done | constructor]. Qed.

Lemma wf_push_frame s c fs :
  wf s -> error_ s = [] -> (parse_offset_ s < c <= length (buffer_ s))%nat -> Forall (in_range c) fs ->
  wf (push_frame s c (field_pool_ s ++ fs)).
Proof.
  intros [W1 W2 W3 W4 W5] He Hc Hf. constructor; simpl; [lia|lia| | |congruence].
  - apply Forall_app. split.
    + eapply Forall_impl; [exact W3|]. intros f [H1 H2]. split; [len_lia|lia].
    + constructor; [simpl; split; [len_lia|lia]|constructor].
  - apply Forall_app. split; [|done]. eapply Forall_impl; [exact W4|]. intros r. apply in_range_mono. lia.
Qed.

Lemma wf_parse_available s : wf s -> wf (parse_available s).
Proof.
  revert s. apply (parse_available_ind (fun s => wf s -> wf (parse_available s))).
  - intros s [H|H] W; [by rewrite (parse_available_done s)|by rewrite (parse_available_error s)].
  - intros s c pool He Hlt E IH W. rewrite (parse_available_eq s), E by done. apply IH.
    apply parse_one_ok in E as (fs & -> & Hc & Hf). by apply wf_push_frame.
  - intros s r pool He Hlt E Hr W. rewrite (parse_available_eq s), E by done.
    destruct r as [c| |m]; [by destruct (Hr c)|done|]. constructor; simpl; first [lia | done | constructor].
Qed.

Lemma wf_compact s : wf s -> wf (compact_consumed_prefix s).
Proof.
  intros [W1 W2 W3 W4 W5]. unfold compact_consumed_prefix.
  destruct (popped_until_ s =? 0)%nat eqn:E0; simpl; [by constructor|].
  destruct (bool_decide_reflect (frames_ s <> [])) as [Hf|Hf]; [by constructor|]. apply dec_stable in Hf.
  constructor; simpl.
  - rewrite length_drop. lia.
  - lia.
  - rewrite Hf. constructor.
  - constructor.
  - intros He. destruct (W5 He) as (H1 & _ & _). rewrite H1, drop_nil. done.
Qed.

Lemma wf_append s b : wf s -> wf (append s b).
Proof.
  intros W. unfold append. destruct (_ || _) eqn:E; [done|].
  apply orb_false_iff in E as [_ He]. apply bool_decide_eq_false, dec_stable in He.
  apply wf_parse_available.
  assert (W' : wf (if bool_decide (frames_ s = []) then compact_consumed_prefix s else s)).
  { destruct (bool_decide _); [by apply wf_compact|done]. }
  assert (He' : error_ (if bool_decide (frames_ s = []) then compact_consumed_prefix s else s) = []).
  { destruct (bool_decide _); [by rewrite compact_error|done]. }
  revert W' He'. generalize (if bool_decide (frames_ s = []) then compact_consumed_prefix s else s).
  intros s' [W1 W2 W3 W4 W5] He'. constructor; simpl; [len_lia|exact W2|exact W3|exact W4|congruence].
Qed.

Lemma wf_pop s : wf s -> wf (pop s).2.
Proof.
  intros W. unfold pop. destruct (frames_ s) as [|f fs] eqn:E; [by apply wf_compact|].
  destruct W as [W1 W2 W3 W4 W5]. rewrite E in W3. apply Forall_cons in W3 as [[Hf1 Hf2] W3].
  constructor; simpl; [exact W1|lia|exact W3|exact W4|].
  intros He. destruct (W5 He) as (_ & H & _). congruence.
Qed.

(** The parser's operations as a transition system. *)
Inductive step : RespParser -> RespParser -> Prop :=
| step_append s b : step s (append s b)
| step_pop s : step s (pop s).2
| step_clear s : step s (clear s).

Lemma reachable_wf s : rtc step fresh s -> wf s.
Proof.
  revert s. apply (rtc_ind_r wf fresh); [exact wf_fresh|].
  intros y z _ Hs W. destruct Hs; [by apply wf_append|by apply wf_pop|apply wf_fresh].
Qed.

(** In every state a parser can reach by appends, pops and clears, the
    offsets are ordered ([popped_until_ <= parse_offset_ <= size]), every queued
    command is a slice of the field pool, every field lies inside the parsed
    part of the buffer, and a protocol error leaves no buffered data behind. *)
Theorem parser_invariant s :
  rtc step fresh s ->
  (popped_until_ s <= parse_offset_ s <= length (buffer_ s))%nat /\
  Forall (fun f => (field_begin f + field_count f <= length (field_pool_ s))%nat) (frames_ s) /\
  Forall (fun r => (offset r + length_ r <= parse_offset_ s)%nat) (field_pool_ s) /\
  (error_ s <> [] -> buffer_ s = [] /\ frames_ s = [] /\ field_pool_ s = []).
Proof.
  intros [W1 W2 W3 W4 W5]%reachable_wf. split; [lia|]. split; [|by split].
  eapply Forall_impl; [exact W3|]. by intros f [? _].
Qed.

Definition parser_example : RespParser :=
  append fresh (str "*1" ++ crlf ++ str "$4" ++ crlf ++ str "PING" ++ crlf ++ str "*2").

Lemma parser_invariant_witness :
  (popped_until_ parser_example <= parse_offset_ parser_example <= length (buffer_ parser_example))%nat /\
  parse_offset_ parser_example = 14%nat.
Proof.
  split; [|vm_compute; reflexivity].
  apply (parser_invariant parser_example). apply rtc_once. apply step_append.
Defined.

(** ** Queued commands *)

Definition frame_view (s : RespParser) (f : QueuedFrame) : list bytes :=
  field_view s <$> take (field_count f) (drop (field_begin f) (field_pool_ s)).

(** The commands that [pop] will return, in order. *)
Definition queued (s : RespParser) : list (list bytes) := frame_view s <$> frames_ s.

(** Calling [pop] until it returns nothing. *)
Fixpoint drain (fuel : nat) (s : RespParser) : list (list bytes) :=
  match fuel with
  | O => []
  | S fuel => match pop s with
              | (Some f, s) => f :: drain fuel s
              | (None, _) => []
              end
  end.

Lemma pop_queued s f fs :
  queued s = f :: fs -> (pop s).1 = Some f /\ queued (pop s).2 = fs.
Proof.
  unfold queued, pop. destruct (frames_ s) as [|q qs] eqn:E; [done|]. simpl. intros [= H1 H2].
  split; [f_equal; exact H1|]. exact H2.
Qed.

Lemma drain_queued n s : (length (queued s) < n)%nat -> drain n s = queued s.
Proof.
  revert s. induction n as [|n IH]; intros s Hn; [lia|]. cbn [drain].
  destruct (queued s) as [|f fs] eqn:Eq.
  - unfold queued in Eq. apply fmap_nil_inv in Eq. unfold pop. by rewrite Eq.
  - destruct (pop_queued _ _ _ Eq) as [H1 H2]. destruct (pop s) as [o s']. simpl in *. subst o.
    f_equal. rewrite IH; [done|]. rewrite H2. lia.
Qed.

Lemma queued_push_frame s c fs :
  wf s -> queued (push_frame s c (field_pool_ s ++ fs)) = queued s ++ [field_view s <$> fs].
Proof.
  intros W. unfold queued. simpl. rewrite fmap_app. f_equal.
  - apply list_fmap_ext. intros i f Hf. unfold frame_view. simpl.
    pose proof (wf_frames _ W) as HF. rewrite Forall_lookup in HF. destruct (HF i f Hf) as [H1 _].
    rewrite drop_app_le by lia. rewrite take_app_le; [done|]. rewrite length_drop. lia.
  - unfold frame_view. simpl. rewrite drop_app_length, length_app.
    replace (length (field_pool_ s) + length fs - length (field_pool_ s))%nat with (length fs) by lia.
    by rewrite firstn_all.
Qed.

(** ** Round trip with the writer *)

Lemma CR_not_digit l : digits l -> CR ∉ l.
Proof.
  intros H Hin. unfold digits in H. rewrite Forall_forall in H. specialize (H _ Hin). discriminate H.
Qed.

Lemma to_chars_no_CR n : 0 <= n < 2 ^ 64 -> CR ∉ to_chars_u64 n.
Proof. intros H. apply CR_not_digit. by destruct (to_chars_u64_canonical n H) as [(? & _) _]. Qed.

Lemma find_crlf_at q a r :
  CR ∉ a -> find_crlf (q ++ a ++ crlf ++ r) (length q) = Some (length q + length a)%nat.
Proof.
  intros H. unfold find_crlf. rewrite !length_app. rewrite (proj2 (Nat.leb_gt _ _)) by (simpl; lia).
  by rewrite drop_app_length, crlf_index_no_cr.
Qed.

(** Reading back a header line written at the end of [p]. *)
Lemma read_header_line p x n r buffer :
  0 <= n < 2 ^ 64 -> buffer = p ++ header_line x n ++ r ->
  let e := (length p + 1 + length (to_chars_u64 n))%nat in
  buffer !! length p = Some x /\ find_crlf buffer (length p + 1) = Some e /\
  substr buffer (length p + 1) (e - length p - 1) = to_chars_u64 n /\
  (e + 2)%nat = (length p + length (header_line x n))%nat.
Proof.
  intros Hn -> e. unfold header_line.
  assert (Hq : p ++ ([x] ++ to_chars_u64 n ++ crlf) ++ r = (p ++ [x]) ++ to_chars_u64 n ++ crlf ++ r)
    by (by rewrite <- !app_assoc).
  assert (Hl : (length p + 1)%nat = length (p ++ [x])) by (rewrite length_app; done).
  split_and!.
  - by rewrite lookup_app_r, Nat.sub_diag by lia.
  - rewrite Hq, Hl, find_crlf_at by (by apply to_chars_no_CR). f_equal. subst e. by rewrite Hl.
  - rewrite Hq, Hl. unfold substr. rewrite drop_app_length.
    replace (e - length p - 1)%nat with (length (to_chars_u64 n)) by (subst e; lia).
    by rewrite take_app_length.
  - subst e. rewrite !length_app. simpl. lia.
Qed.

Fixpoint bulk_ranges (start : nat) (vs : list bytes) : list FieldRange :=
  match vs with
  | [] => []
  | v :: vs =>
    {| offset := start + length (header_line "$"%byte (Z.of_nat (length v))); length_ := length v |}
    :: bulk_ranges (start + length (bulk v)) vs
  end.

Definition sendable (vs : list bytes) : Prop :=
  Z.of_nat (length vs) <= kMaxArrayElements /\ Forall (fun v => Z.of_nat (length v) <= kMaxBulkBytes) vs.

Lemma parse_bulks_wire vs p r out :
  Forall (fun v => Z.of_nat (length v) <= kMaxBulkBytes) vs ->
  parse_bulks (length vs) (p ++ bulks vs ++ r) (length p) out
  = (complete (length (p ++ bulks vs)), out ++ bulk_ranges (length p) vs).
Proof.
  revert p out. induction vs as [|v vs IH]; intros p out Hf.
  { cbn [length parse_bulks bulk_ranges]. unfold bulks. simpl. by rewrite !app_nil_r. }
  apply Forall_cons in Hf as [Hv Hf]. unfold kMaxBulkBytes in Hv.
  cbn [length parse_bulks bulk_ranges]. rewrite bulks_cons.
  set (h := header_line "$"%byte (Z.of_nat (length v))).
  assert (Hb : bulk v = h ++ v ++ crlf) by reflexivity. rewrite Hb.
  destruct (read_header_line p "$"%byte (Z.of_nat (length v)) (v ++ crlf ++ bulks vs ++ r)
    (p ++ ((h ++ v ++ crlf) ++ bulks vs) ++ r)) as (H1 & H2 & H3 & H4).
  { lia. }
  { fold h. by rewrite <- !app_assoc. }
  fold h in H4. clearbody h. rewrite H1, decide_False by (intros Hx; by apply Hx). rewrite H2, H3.
  rewrite parse_i64_to_chars by (unfold i64_max; lia).
  bfalse (Z.of_nat (length v) <? 0). unfold kMaxBulkBytes. bfalse (128 * 1024 * 1024 <? Z.of_nat (length v)).
  rewrite Nat2Z.id, H4.
  rewrite (proj2 (Nat.ltb_ge _ _)) by (rewrite !length_app; change (length crlf) with 2%nat; lia).
  assert (Hq : p ++ ((h ++ v ++ crlf) ++ bulks vs) ++ r = (p ++ h ++ v) ++ crlf ++ bulks vs ++ r)
    by (by rewrite <- !app_assoc).
  assert (Hl : (length p + length h + length v)%nat = length (p ++ h ++ v)) by (rewrite !length_app; lia).
  rewrite decide_True.
  2: { rewrite Hq, Hl. split; [by rewrite lookup_app_r, Nat.sub_diag by lia|].
       rewrite lookup_app_r by lia. replace (_ + 1 - _)%nat with 1%nat by lia. done. }
  assert (Hq2 : p ++ ((h ++ v ++ crlf) ++ bulks vs) ++ r = (p ++ h ++ v ++ crlf) ++ bulks vs ++ r)
    by (by rewrite <- !app_assoc).
  assert (Hl2 : (length p + length h + length v + 2)%nat = length (p ++ h ++ v ++ crlf))
    by (rewrite !length_app; change (length crlf) with 2%nat; lia).
  rewrite Hq2, Hl2, IH by done. f_equal.
  - f_equal. by rewrite <- !app_assoc.
  - rewrite <- app_assoc. simpl. do 3 f_equal. rewrite !length_app. lia.
Qed.

Lemma bulk_ranges_view vs p r :
  (fun f => substr (p ++ bulks vs ++ r) (offset f) (length_ f)) <$> bulk_ranges (length p) vs = vs.
Proof.
  revert p. induction vs as [|v vs IH]; intros p; [done|].
  cbn [bulk_ranges]. rewrite fmap_cons. cbn [offset length_]. f_equal.
  - rewrite bulks_cons. unfold bulk. generalize (header_line "$"%byte (Z.of_nat (length v))). intros h.
    unfold substr. rewrite <- !app_assoc, app_assoc, <- (length_app p h), drop_app_length.
    by rewrite take_app_length.
  - rewrite bulks_cons, <- app_assoc, app_assoc, <- (length_app p (bulk v)). apply IH.
Qed.

(** One written command, parsed at the end of [p]. *)
Lemma parse_one_wire vs p r out :
  sendable vs ->
  exists fs, parse_one (p ++ command_wire vs ++ r) (length p) out
    = (complete (length (p ++ command_wire vs)), out ++ fs) /\
  (fun f => substr (p ++ command_wire vs ++ r) (offset f) (length_ f)) <$> fs = vs.
Proof.
  intros [Hn Hf]. unfold kMaxArrayElements in Hn. unfold command_wire.
  set (h := header_line "*"%byte (Z.of_nat (length vs))).
  assert (Hq : p ++ (h ++ bulks vs) ++ r = (p ++ h) ++ bulks vs ++ r) by (by rewrite <- !app_assoc).
  destruct (read_header_line p "*"%byte (Z.of_nat (length vs)) (bulks vs ++ r)
    (p ++ (h ++ bulks vs) ++ r)) as (H1 & H2 & H3 & H4).
  { lia. }
  { fold h. by rewrite <- !app_assoc. }
  fold h in H4. exists (bulk_ranges (length (p ++ h)) vs). split.
  - unfold parse_one. rewrite H1, decide_True by done. unfold parse_resp_array. rewrite H2, H3.
    rewrite parse_i64_to_chars by (unfold i64_max; lia).
    bfalse (Z.of_nat (length vs) <? 0). unfold kMaxArrayElements. bfalse (1024 * 1024 <? Z.of_nat (length vs)).
    rewrite Nat2Z.id, H4, Hq, <- (length_app p h), parse_bulks_wire by done. by rewrite <- app_assoc.
  - rewrite Hq. apply bulk_ranges_view.
Qed.

Lemma command_wire_head vs : exists t, command_wire vs = "*"%byte :: t.
Proof. unfold command_wire, header_line. simpl. eauto. Qed.

(** A strict prefix of a written command is incomplete. *)
Lemma parse_one_prefix vs p a c out :
  sendable vs -> command_wire vs = a ++ c -> c <> [] ->
  exists pool, parse_one (p ++ a) (length p) out = (incomplete, pool).
Proof.
  intros Hs Hw Hc. destruct (parse_one (p ++ a) (length p) out) as [res pool] eqn:E.
  exists pool. f_equal. destruct a as [|x a].
  { unfold parse_one in E. rewrite app_nil_r in E.
    rewrite (proj2 (lookup_ge_None p (length p))) in E by lia. by injection E as <- _. }
  assert (Hx : (p ++ x :: a) !! length p = Some "*"%byte).
  { rewrite list_lookup_middle by done. destruct (command_wire_head vs) as [t Ht].
    rewrite Hw in Ht. by injection Ht as -> _. }
  destruct (parse_one_wire vs p [] out Hs) as (fs & Hfull & _). rewrite app_nil_r, Hw in Hfull.
  destruct res as [n| |m]; [|done|].
  - pose proof (parse_one_ok _ _ _ _ _ E) as (_ & _ & Hb & _).
    pose proof (parse_one_complete_app _ c _ _ _ _ E) as E'. rewrite <- app_assoc in E'.
    rewrite E' in Hfull. injection Hfull as Hn _. destruct c; [done|]. rewrite ?length_app in *. simpl in *.
    rewrite ?length_app in *. simpl in *. lia.
  - pose proof (parse_one_array_app _ c _ _ _ _ Hx E ltac:(done)) as E'. rewrite <- app_assoc in E'.
    rewrite E' in Hfull. done.
Qed.

Definition wires (cmds : list (list bytes)) : bytes := concat (command_wire <$> cmds).

Lemma parse_available_wires cmds s p :
  wf s -> error_ s = [] -> buffer_ s = p ++ wires cmds -> parse_offset_ s = length p ->
  Forall sendable cmds ->
  error_ (parse_available s) = [] /\ queued (parse_available s) = queued s ++ cmds /\
  parse_offset_ (parse_available s) = length (buffer_ (parse_available s)).
Proof.
  revert s p. induction cmds as [|vs cmds IH]; intros s p W He Hb Ho Hf.
  - unfold wires in Hb. simpl in Hb. rewrite app_nil_r in Hb.
    rewrite parse_available_done by (rewrite Hb; lia). rewrite app_nil_r. by rewrite Ho, Hb.
  - apply Forall_cons in Hf as [Hs Hf]. change (wires (vs :: cmds)) with (command_wire vs ++ wires cmds) in Hb.
    destruct (parse_one_wire vs p (wires cmds) (field_pool_ s) Hs) as (fs & E & Hv).
    assert (Hpos : (0 < length (command_wire vs))%nat) by (destruct (command_wire_head vs) as [t ->]; simpl; lia).
    rewrite parse_available_eq; [|done|rewrite Hb, Ho, !length_app; lia].
    rewrite Hb, Ho, E. rewrite <- Hb in E, Hv. rewrite <- Ho in E.
    apply parse_one_ok in E as (fs' & Hfs & Hc & Hr). apply app_inv_head in Hfs as <-.
    destruct (IH (push_frame s (length (p ++ command_wire vs)) (field_pool_ s ++ fs)) (p ++ command_wire vs))
      as (H1 & H2 & H3).
    + by apply wf_push_frame.
    + done.
    + simpl. by rewrite Hb, app_assoc.
    + done.
    + done.
    + split; [done|]. split; [|done]. rewrite H2, queued_push_frame by done.
      rewrite <- app_assoc. simpl. unfold field_view. by rewrite Hv.
Qed.

Lemma parse_available_prefix cmds s p a c :
  error_ s = [] -> buffer_ s = p ++ a -> parse_offset_ s = length p ->
  wires cmds = a ++ c -> Forall sendable cmds -> error_ (parse_available s) = [].
Proof.
  revert s p a. induction cmds as [|vs cmds IH]; intros s p a He Hb Ho Hw Hf.
  - symmetry in Hw. apply app_eq_nil in Hw as [-> ->]. rewrite app_nil_r in Hb.
    by rewrite parse_available_done by (rewrite Hb; lia).
  - apply Forall_cons in Hf as [Hs Hf]. change (wires (vs :: cmds)) with (command_wire vs ++ wires cmds) in Hw.
    destruct (decide (a = [])) as [->|Ha].
    { rewrite app_nil_r in Hb. by rewrite parse_available_done by (rewrite Hb; lia). }
    assert (Hlt : (parse_offset_ s < length (buffer_ s))%nat).
    { rewrite Hb, Ho, length_app. destruct a; [done|simpl; lia]. }
    rewrite parse_available_eq by done. rewrite Hb, Ho.
    destruct (decide (length (command_wire vs) <= length a)%nat) as [Hle|Hgt].
    + assert (Ea : a = command_wire vs ++ drop (length (command_wire vs)) a).
      { rewrite <- (take_drop (length (command_wire vs)) a) at 1. f_equal.
        apply (f_equal (take (length (command_wire vs)))) in Hw.
        rewrite take_app_length in Hw. by rewrite take_app_le in Hw by lia. }
      set (a' := drop _ a) in *. clearbody a'. subst a. rewrite <- app_assoc in Hw. apply app_inv_head in Hw.
      destruct (parse_one_wire vs p a' (field_pool_ s) Hs) as (fs & -> & _).
      eapply (IH _ (p ++ command_wire vs) a'); simpl; try done. by rewrite Hb, app_assoc.
    + assert (Ea : command_wire vs = a ++ drop (length a) (command_wire vs)).
      { rewrite <- (take_drop (length a) (command_wire vs)) at 1. f_equal.
        apply (f_equal (take (length a))) in Hw. rewrite take_app_le in Hw by lia.
        by rewrite take_app_length in Hw. }
      destruct (parse_one_prefix vs p a _ (field_pool_ s) Hs Ea) as (pool & ->); [|done].
      intros Hn. apply (f_equal length) in Hn. rewrite length_drop in Hn. cbn [length] in Hn. lia.
Qed.

Lemma append_fresh b : append fresh b = parse_available (append_buffer fresh b).
Proof.
  destruct (decide (b = [])) as [->|Hb]; [done|]. by rewrite append_eq by done.
Qed.

Lemma fold_append_prefix chunks cmds c :
  Forall sendable cmds -> wires cmds = concat chunks ++ c ->
  fold_left append chunks fresh = append fresh (concat chunks).
Proof.
  revert c. induction chunks as [|x chunks IH] using rev_ind; intros c Hf Hw; [done|].
  rewrite concat_app in *. simpl in *. rewrite app_nil_r in *.
  rewrite fold_left_app. simpl. rewrite <- app_assoc in Hw. rewrite (IH (x ++ c)) by done.
  apply append_app. rewrite append_fresh.
  eapply (parse_available_prefix cmds _ [] _ (x ++ c)); done.
Qed.

(** C22: requests survive the wire.  Whatever commands a client writes with
    [resp::array], and however the bytes are cut into reads, the parser reports
    no error, its pops return exactly those commands in order, and no unparsed
    input is left.  Commands are limited to 1048576 fields of at most
    134217728 bytes, the parser's own limits. *)
Theorem commands_roundtrip cmds ws chunks :
  Forall sendable cmds -> Forall2 (fun vs w => array vs = Some w) cmds ws ->
  concat chunks = concat ws ->
  let s := fold_left append chunks fresh in
  has_error s = false /\ drain (S (length cmds)) s = cmds /\ has_unparsed_input s = false.
Proof.
  intros Hf Hws Hc s.
  assert (Hw : concat ws = wires cmds).
  { clear Hf Hc s. induction Hws as [|vs w cmds ws Hvw _ IH]; [done|].
    rewrite array_eq in Hvw. injection Hvw as <-.
    change (wires (vs :: cmds)) with (command_wire vs ++ wires cmds). simpl. by rewrite IH. }
  assert (Hs : s = append fresh (wires cmds)).
  { subst s. rewrite <- Hw, <- Hc. apply (fold_append_prefix chunks cmds []); [done|].
    by rewrite app_nil_r, Hc, Hw. }
  rewrite Hs, append_fresh.
  destruct (parse_available_wires cmds (append_buffer fresh (wires cmds)) []) as (H1 & H2 & H3); try done.
  { constructor; simpl; first [lia | done | constructor]. }
  split_and!.
  - unfold has_error. apply bool_decide_eq_false. intros H. by apply H.
  - rewrite drain_queued; rewrite H2; [done|simpl; lia].
  - unfold has_unparsed_input. by rewrite H3, Nat.eqb_refl.
Qed.

Lemma commands_roundtrip_witness :
  let cmds := [[str "SET"; str "k"; str ""]; [str "GET"; str "k"]] in
  let w := match array [str "SET"; str "k"; str ""], array [str "GET"; str "k"] with
           | Some a, Some b => [a; b] | _, _ => [] end in
  let s := fold_left append [take 7 (concat w); drop 7 (concat w)] fresh in
  has_error s = false /\ drain 3 s = cmds /\ has_unparsed_input s = false.
Proof.
  intros cmds w s. apply (commands_roundtrip cmds w [take 7 (concat w); drop 7 (concat w)]).
  - repeat constructor; vm_compute; congruence.
  - repeat constructor; vm_compute; reflexivity.
  - vm_compute. reflexivity.
Defined.

(** An inline command line is split into the maximal runs of characters
    other than space and tab; the parse is complete, consumes the line and its
    CR LF, and the fields it appends to the pool are exactly those words. *)
Theorem inline_words p line r out :
  CR ∉ line -> (match line with c :: _ => c <> "*"%byte | [] => True end) ->
  exists fs, parse_one (p ++ line ++ crlf ++ r) (length p) out
    = (complete (length p + length line + 2), out ++ fs) /\
    (fun f => substr (p ++ line ++ crlf ++ r) (offset f) (length_ f)) <$> fs = words line.
Proof.
  intros Hcr Hst. unfold parse_one.
  assert (Hx : exists x, (p ++ line ++ crlf ++ r) !! length p = Some x /\ x <> "*"%byte).
  { rewrite lookup_app_r, Nat.sub_diag by lia. destruct line as [|c l]; [by exists CR|by exists c]. }
  destruct Hx as (x & -> & Hx). rewrite decide_False by done. unfold parse_inline.
  rewrite find_crlf_at by done.
  replace (length p + length line - length p)%nat with (length line) by lia.
  assert (Hl : substr (p ++ line ++ crlf ++ r) (length p) (length line) = line).
  { unfold substr. by rewrite drop_app_length, take_app_length. }
  rewrite Hl.
  destruct (inline_tokens_words (S (length line)) line 0 (length p) out) as (fs & -> & H1 & H2 & H3); [lia|].
  exists fs. split; [done|]. rewrite drop_0 in H3. rewrite <- H3. apply list_fmap_ext. intros i f Hf.
  rewrite Forall_lookup in H1, H2. specialize (H1 _ _ Hf). specialize (H2 _ _ Hf).
  unfold in_range in H1. simpl in H1, H2. unfold substr.
  rewrite drop_app_ge by lia. rewrite drop_app_le by lia. rewrite take_app_le; [done|].
  rewrite length_drop. lia.
Qed.

Lemma inline_words_witness :
  exists fs, parse_one (str " PING  x" ++ crlf) 0 []
    = (complete 10, [] ++ fs) /\
    (fun f => substr (str " PING  x" ++ crlf) (offset f) (length_ f)) <$> fs = [str "PING"; str "x"].
Proof.
  apply (inline_words [] (str " PING  x") [] []); [|done].
  apply (bool_decide_unpack _). vm_compute. exact I.
Defined.
