(* ===== verification/StringEncoding.v ===== *)
(** * Stored string encoding

    [include/goblin/core/string_encoding.hpp] and [src/string_encoding.cpp]:
    the packed option word, the classifier [EncodedString] (canonical decimal
    integers, UUIDs, LZ4, raw, verbatim) and the two-piece reader
    [EncodedStringView].

    LZ4 is a system library: it is the class [LZ4] below, and the class
    [LZ4Correct] states the documented contract the code relies on (a
    successful compression is non-empty, fits the capacity and decompresses to
    its source).  Exceptions are [Throw]. *)

From Stdlib Require Import ZArith Lia.
From S2P Require Import Prelude ParseInt RespWriter.

Local Open Scope Z_scope.

(** ** Constants *)

Definition kStringPositiveBase : Z := 0x80.
Definition kStringNegativeBase : Z := 0x88.
Definition kStringUuidHex : Z := 0x90.
Definition kStringUuidDashed : Z := 0x91.
Definition kStringLz4 : Z := 0xfe.
Definition kStringRaw : Z := 0xff.

Definition kStringMaxEncodedBytes : Z := 65535.
Definition kStringMaxBytes : Z := 65534.
Definition kStringMaxVerbatimBytes : Z := 65535.
Definition kStringMaxCompressedLogicalBytes : Z := 0xFFFFFF.

(** ** [StringEncodingOptions]: one 32-bit word *)

Module Options.

Definition kThresholdMask : Z := Z.shiftl 1 25 - 1.
Definition kLevelShift : Z := 25.
Definition kLevelMask : Z := Z.shiftl 0x1f kLevelShift.
Definition kDisabledMask : Z := Z.shiftl 1 30.

(** The word with no flag set, the default. *)
Definition default : Z := 0.

Definition with_lz4 (min_bytes : Z) : Z :=
  let kLargestThreshold := kStringMaxCompressedLogicalBytes + 1 in
  let capped := if kLargestThreshold <? min_bytes then kLargestThreshold else min_bytes in
  wrap 32 (capped + 1).

Definition set_lz4_min_bytes (packed min_bytes : Z) : Z :=
  let flags := Z.land packed (Z.lor kLevelMask kDisabledMask) in
  Z.lor (with_lz4 min_bytes) flags.

Definition valid_lz4_compress_level (level : Z) : bool :=
  (level =? 0) || ((3 <=? level) && (level <=? 12)) || ((level <=? -1) && (-8 <=? level)).

Definition set_lz4_compress_level (packed level : Z) : Z :=
  let level := if valid_lz4_compress_level level then level else 0 in
  let code := if level <? 0 then - level else if 0 <? level then level + 6 else 0 in
  Z.lor (Z.land packed (wrap 32 (Z.lnot kLevelMask))) (Z.shiftl code kLevelShift).

Definition disable (packed : Z) : Z := Z.lor packed kDisabledMask.
Definition encoding_enabled (packed : Z) : bool := Z.land packed kDisabledMask =? 0.
Definition lz4_enabled (packed : Z) : bool :=
  encoding_enabled packed && negb (Z.land packed kThresholdMask =? 0).
Definition lz4_min_bytes (packed : Z) : Z :=
  if lz4_enabled packed then Z.land packed kThresholdMask - 1 else 0.
Definition lz4_compress_level (packed : Z) : Z :=
  let code := Z.shiftr (Z.land packed kLevelMask) kLevelShift in
  if code <=? 8 then - code else code - 6.
Definition max_value_bytes (packed : Z) : Z :=
  if encoding_enabled packed then kStringMaxBytes else kStringMaxVerbatimBytes.

End Options.

Inductive StringCompressionMode := AllowLz4 | NeverLz4.

(** ** The LZ4 library *)

Inductive lz4_mode := lz4_hc (level : Z) | lz4_fast (acceleration : Z) | lz4_default.

Class LZ4 := {
  LZ4_compressBound : Z -> Z;
  (** [Some out] is a positive return value with the bytes written. *)
  LZ4_compress : lz4_mode -> bytes -> Z -> option bytes;
  (** [Some out] is a non-negative return value with the bytes written. *)
  LZ4_decompress_safe : bytes -> Z -> option bytes
}.

Class LZ4Correct (L : LZ4) : Prop := {
  lz4_nonempty : forall m src cap out, LZ4_compress m src cap = Some out -> out <> [];
  lz4_capacity : forall m src cap out, LZ4_compress m src cap = Some out -> Z.of_nat (length out) <= cap;
  lz4_roundtrip : forall m src cap out, LZ4_compress m src cap = Some out ->
    LZ4_decompress_safe out (Z.of_nat (length src)) = Some src
}.

(** ** Helpers of the anonymous namespace *)

(** [write_big_endian] into a [width]-byte destination. *)
Definition write_big_endian (value : Z) (width : nat) : bytes := rev (le_bytes width value).

(** The loop of [width_for_offset]: [capacity = 1 << (width * 8)]. *)
Fixpoint width_loop (widths : list nat) (offset : Z) : nat * Z :=
  match widths with
  | [] => (8%nat, offset)
  | width :: widths =>
    let capacity := Z.shiftl 1 (Z.of_nat width * 8) in
    if offset <? capacity then (width, offset) else width_loop widths (offset - capacity)
  end.

Definition width_for_offset (offset : Z) : nat * Z := width_loop (seq 1 7) offset.

(** [positive_base] and [negative_base] differ in the start value. *)
Definition base_from (start : Z) (width : nat) : Z :=
  fold_left (fun base prior => wrap 64 (base + Z.shiftl 1 (Z.of_nat prior * 8))) (seq 1 (width - 1)) start.
Definition positive_base (width : nat) : Z := base_from 128 width.
Definition negative_base (width : nat) : Z := base_from 1 width.

Definition lower_hex_nibble (ch : byte) : option Z :=
  if (48 <=? u8 ch) && (u8 ch <=? 57) then Some (u8 ch - 48)
  else if (97 <=? u8 ch) && (u8 ch <=? 102) then Some (u8 ch - 97 + 10)
  else None.

Definition lower_hex (value : Z) : byte := if value <? 10 then b8 (48 + value) else b8 (97 + value - 10).

Definition kDashes : list nat := [8; 13; 18; 23]%nat.
Definition is_dash (dashed : bool) (source : nat) : bool := dashed && bool_decide (source ∈ kDashes).

(** The loop over the sixteen bytes: the bytes and the final source index. *)
Fixpoint uuid_loop (n : nat) (dashed : bool) (value : bytes) (source : nat) : option (bytes * nat) :=
  match n with
  | O => Some ([], source)
  | S n =>
    source ← (if is_dash dashed source
              then (ch ← value !! source; if decide (ch = "-"%byte) then Some (S source) else None)
              else Some source);
    high ← value !! source ≫= lower_hex_nibble;
    low ← value !! S source ≫= lower_hex_nibble;
    '(rest, stop) ← uuid_loop n dashed value (source + 2);
    Some (b8 (Z.lor (Z.shiftl high 4) low) :: rest, stop)
  end.

Definition encode_uuid (value : bytes) (dashed : bool) : option bytes :=
  if decide (length value = if dashed then 36%nat else 32%nat) then
    '(out, source) ← uuid_loop 16 dashed value 0;
    if decide (source = length value) then Some out else None
  else None.

(** ** [EncodedString] *)

Inductive Storage :=
| Verbatim
| Raw
| Inline (inline_ : bytes)
| Lz4 (lz4_ : bytes).

(** [encoded_size_] is kept as the code computes it, truncated to 16 bits; the
    bytes of [inline_] are the first [encoded_size_] of the code's array. *)
Record EncodedString := {
  source_ : bytes;
  storage_ : Storage;
  encoded_size_ : Z
}.

Definition maybe_int (value : bytes) : bool :=
  match value with
  | c :: rest =>
    is_digit c ||
    (bool_decide (c = "-"%byte) && match rest with d :: _ => is_digit d | [] => false end)
  | [] => false
  end.

(** The compact-integer attempt. *)
Definition encode_integer (value : bytes) : option bytes :=
  if maybe_int value then
    match parse_canonical_u64 value with
    | Some magnitude =>
      if magnitude <=? 127 then Some [b8 magnitude]
      else
        let '(width, offset) := width_for_offset (magnitude - 128) in
        Some (b8 (kStringPositiveBase + Z.of_nat width - 1) :: write_big_endian offset width)
    | None =>
      match value with
      | c :: ((_ :: _) as digits) =>
        if decide (c = "-"%byte) then
          match parse_canonical_u64 digits with
          | Some magnitude =>
            if magnitude =? 0 then None
            else
              let '(width, offset) := width_for_offset (magnitude - 1) in
              Some (b8 (kStringNegativeBase + Z.of_nat width - 1) :: write_big_endian offset width)
          | None => None
          end
        else None
      | _ => None
      end
    end
  else None.

(** The UUID attempt: only for the two fixed sizes, hex before dashed. *)
Definition encode_uuid_any (value : bytes) : option bytes :=
  if bool_decide (length value = 32%nat) || bool_decide (length value = 36%nat) then
    match encode_uuid value false with
    | Some out => Some (b8 kStringUuidHex :: out)
    | None =>
      match encode_uuid value true with
      | Some out => Some (b8 kStringUuidDashed :: out)
      | None => None
      end
    end
  else None.

Section WithLz4.
Context {L : LZ4}.

(** The LZ4 attempt: 0xfe, a three-byte logical length, the compressed bytes. *)
Definition encode_lz4 (value : bytes) (options : Z) (compression : StringCompressionMode) : option bytes :=
  let size := Z.of_nat (length value) in
  let may_compress :=
    match compression with AllowLz4 => true | NeverLz4 => false end
    && Options.lz4_enabled options
    && ((Options.lz4_min_bytes options <=? size) || (kStringMaxBytes <? size)) in
  if may_compress && (size <=? kStringMaxCompressedLogicalBytes) then
    let kHeaderBytes := 4 in
    let kMaxCompressedBytes := kStringMaxEncodedBytes - kHeaderBytes in
    let destination_capacity := Z.min (LZ4_compressBound size) kMaxCompressedBytes in
    let level := Options.lz4_compress_level options in
    let mode := if 0 <? level then lz4_hc level else if level <? 0 then lz4_fast (- level) else lz4_default in
    match LZ4_compress mode value destination_capacity with
    | Some compressed => Some (b8 kStringLz4 :: write_big_endian size 3 ++ compressed)
    | None => None
    end
  else None.

(** The constructor; [Throw] is the [std::length_error]. *)
Definition encode (value : bytes) (options : Z) (compression : StringCompressionMode)
  : result EncodedString :=
  let size := Z.of_nat (length value) in
  if negb (Options.encoding_enabled options) then
    if kStringMaxVerbatimBytes <? size then Throw (str "verbatim string value too large (max 65,535 bytes)")
    else Ret {| source_ := value; storage_ := Verbatim; encoded_size_ := wrap 16 size |}
  else
    match encode_integer value with
    | Some inline_ =>
      Ret {| source_ := value; storage_ := Inline inline_; encoded_size_ := wrap 16 (Z.of_nat (length inline_)) |}
    | None =>
      match encode_uuid_any value with
      | Some inline_ => Ret {| source_ := value; storage_ := Inline inline_; encoded_size_ := 17 |}
      | None =>
        match encode_lz4 value options compression with
        | Some lz4_ =>
          Ret {| source_ := value; storage_ := Lz4 lz4_; encoded_size_ := wrap 16 (Z.of_nat (length lz4_)) |}
        | None =>
          if kStringMaxBytes <? size then
            Throw (if kStringMaxCompressedLogicalBytes <? size
                 then str "string value exceeds the 24-bit compressed logical length"
                 else if Options.lz4_enabled options
                         && match compression with AllowLz4 => true | NeverLz4 => false end
                      then str "string value is neither LZ4-compressible nor raw-storable"
                      else str "string value too large (max 65,534 raw bytes)")
          else Ret {| source_ := value; storage_ := Raw; encoded_size_ := wrap 16 (size + 1) |}
        end
      end
    end.

(** [string_value_fits]. *)
Definition string_value_fits (value : bytes) (options : Z) (compression : StringCompressionMode) : bool :=
  if Z.of_nat (length value) <=? Options.max_value_bytes options then true
  else match encode value options compression with Ret _ => true | _ => false end.

End WithLz4.

Definition is_raw (e : EncodedString) : bool :=
  match storage_ e with Raw | Verbatim => true | _ => false end.
Definition is_lz4 (e : EncodedString) : bool := match storage_ e with Lz4 _ => true | _ => false end.
Definition es_encoding_enabled (e : EncodedString) : bool :=
  match storage_ e with Verbatim => false | _ => true end.

Definition es_prefix (e : EncodedString) : Z :=
  match storage_ e with
  | Verbatim | Raw => kStringRaw
  | Inline inline_ => match inline_ with b :: _ => u8 b | [] => 0 end
  | Lz4 _ => kStringLz4
  end.

Definition write_to (e : EncodedString) : bytes :=
  match storage_ e with
  | Verbatim => source_ e
  | Raw => b8 kStringRaw :: source_ e
  | Inline inline_ => take (Z.to_nat (encoded_size_ e)) inline_
  | Lz4 lz4_ => lz4_
  end.

(** [write_range_to]: [None] is a copy out of the source buffer. *)
Definition write_range_to (e : EncodedString) (offset len : nat) : option bytes :=
  if (len =? 0)%nat then Some []
  else
    match storage_ e with
    | Verbatim => slice offset len (source_ e)
    | Raw =>
      if (offset =? 0)%nat then
        if (len - 1 =? 0)%nat then Some [b8 kStringRaw]
        else cons (b8 kStringRaw) <$> slice (1 - 1) (len - 1) (source_ e)
      else slice (offset - 1) len (source_ e)
    | Inline inline_ => slice offset len inline_
    | Lz4 lz4_ => slice offset len lz4_
    end.

Definition equals_encoded (e : EncodedString) (stored : bytes) : bool :=
  if negb (Z.of_nat (length stored) =? encoded_size_ e) then false
  else
    match storage_ e with
    | Verbatim => bool_decide (stored = source_ e)
    | Raw =>
      match stored with
      | b :: rest => (u8 b =? kStringRaw) && bool_decide (rest = source_ e)
      | [] => false
      end
    | Inline inline_ => bool_decide (stored = take (Z.to_nat (encoded_size_ e)) inline_)
    | Lz4 lz4_ => bool_decide (stored = lz4_)
    end.

(** ** [EncodedStringView] *)

Record EncodedStringView := { head_ : bytes; tail_ : bytes; encoding_enabled_ : bool }.

Definition encoded_size (v : EncodedStringView) : nat := length (head_ v) + length (tail_ v).

(** [byte_at]; past both pieces the code reads out of bounds, 0 here. *)
Definition view_byte (v : EncodedStringView) (index : nat) : Z :=
  if (index <? length (head_ v))%nat
  then default 0 (u8 <$> head_ v !! index)
  else default 0 (u8 <$> tail_ v !! (index - length (head_ v))%nat).

Definition view_prefix (v : EncodedStringView) : Z :=
  if negb (encoding_enabled_ v) || (encoded_size v =? 0)%nat then kStringRaw else view_byte v 0.

Fixpoint read_big_endian_loop (v : EncodedStringView) (offset width : nat) (value : Z) : Z :=
  match width with
  | O => value
  | S width => read_big_endian_loop v (S offset) width
                 (wrap 64 (Z.lor (Z.shiftl value 8) (view_byte v offset)))
  end.
Definition read_big_endian (v : EncodedStringView) (offset width : nat) : Z :=
  read_big_endian_loop v offset width 0.

Definition read_u24_big_endian (v : EncodedStringView) (offset : nat) : Z :=
  wrap 32 (read_big_endian v offset 3).

Definition valid (v : EncodedStringView) : bool :=
  let size := Z.of_nat (encoded_size v) in
  if negb (encoding_enabled_ v) then size <=? kStringMaxVerbatimBytes
  else if (size =? 0) || (kStringMaxEncodedBytes <? size) then false
  else
    let tag := view_prefix v in
    if tag <=? 0x7f then size =? 1
    else if (kStringPositiveBase <=? tag) && (tag <? kStringUuidHex) then
      let width := if tag <? kStringNegativeBase then tag - kStringPositiveBase + 1
                   else tag - kStringNegativeBase + 1 in
      size =? width + 1
    else if (tag =? kStringUuidHex) || (tag =? kStringUuidDashed) then size =? 17
    else if tag =? kStringLz4 then
      (1 + 3 + 1 <=? size) && (read_u24_big_endian v 1 <=? kStringMaxCompressedLogicalBytes)
    else tag =? kStringRaw.

Definition view_size (v : EncodedStringView) : Z :=
  if negb (encoding_enabled_ v) then Z.of_nat (encoded_size v)
  else if negb (valid v) then 0
  else
    let tag := view_prefix v in
    if tag <=? 0x7f then decimal_digits tag
    else if (kStringPositiveBase <=? tag) && (tag <? kStringNegativeBase) then
      let width := Z.to_nat (tag - kStringPositiveBase + 1) in
      decimal_digits (wrap 64 (positive_base width + read_big_endian v 1 width))
    else if (kStringNegativeBase <=? tag) && (tag <? kStringUuidHex) then
      let width := Z.to_nat (tag - kStringNegativeBase + 1) in
      1 + decimal_digits (wrap 64 (negative_base width + read_big_endian v 1 width))
    else if tag =? kStringUuidHex then 32
    else if tag =? kStringUuidDashed then 36
    else if tag =? kStringLz4 then read_u24_big_endian v 1
    else Z.of_nat (encoded_size v) - 1.

(** [copy_range]: first from the head, then from the tail. *)
Definition copy_range (v : EncodedStringView) (offset len : nat) : option bytes :=
  let from_head := if (offset <? length (head_ v))%nat then Nat.min len (length (head_ v) - offset) else 0%nat in
  first ← (if (from_head =? 0)%nat then Some [] else slice offset from_head (head_ v));
  let tail_offset := if (length (head_ v) <? offset + from_head)%nat
                     then (offset + from_head - length (head_ v))%nat else 0%nat in
  second ← (if (from_head <? len)%nat then slice tail_offset (len - from_head) (tail_ v) else Some []);
  Some (first ++ second).

Definition range_equals (v : EncodedStringView) (offset : nat) (logical : bytes) : bool :=
  if (encoded_size v <? offset + length logical)%nat then false
  else
    let from_head := if (offset <? length (head_ v))%nat
                     then Nat.min (length logical) (length (head_ v) - offset) else 0%nat in
    if negb (from_head =? 0)%nat
       && negb (bool_decide (slice offset from_head (head_ v) = slice 0 from_head logical)) then false
    else
      let tail_offset := if (length (head_ v) <? offset + from_head)%nat
                         then (offset + from_head - length (head_ v))%nat else 0%nat in
      let from_tail := (length logical - from_head)%nat in
      (from_tail =? 0)%nat
      || bool_decide (slice tail_offset from_tail (tail_ v) = slice from_head from_tail logical).

(** The UUID printing loop; [output] is the index of the next character. *)
Fixpoint uuid_print (dashed : bool) (bs : list Z) (output : nat) : bytes :=
  match bs with
  | [] => []
  | value :: bs =>
    let digits := [lower_hex (Z.shiftr value 4); lower_hex (Z.land value 0x0f)] in
    if is_dash dashed output
    then "-"%byte :: digits ++ uuid_print dashed bs (output + 3)
    else digits ++ uuid_print dashed bs (output + 2)
  end.

Section ViewWithLz4.
Context {L : LZ4}.

(** The compressed bytes, by the code's three cases. *)
Definition compressed_bytes (v : EncodedStringView) : option bytes :=
  let kHeaderBytes := 4%nat in
  let compressed_length := (encoded_size v - kHeaderBytes)%nat in
  if (kHeaderBytes + compressed_length <=? length (head_ v))%nat
  then slice kHeaderBytes compressed_length (head_ v)
  else if (length (head_ v) <=? kHeaderBytes)%nat
  then slice (kHeaderBytes - length (head_ v)) compressed_length (tail_ v)
  else copy_range v kHeaderBytes compressed_length.

(** [append_to] an empty destination, which is [to_string]; [Throw] is the
    [std::runtime_error], [Undef] a read out of the two pieces. *)
Definition to_string (v : EncodedStringView) : result bytes :=
  if negb (valid v) then Throw (str "invalid stored string encoding")
  else if negb (encoding_enabled_ v) then Ret (head_ v ++ tail_ v)
  else
    let tag := view_prefix v in
    if tag =? kStringRaw then
      of_option (copy_range v 1 (encoded_size v - 1))
    else if tag <=? 0x7f then Ret (to_chars_u64 tag)
    else if (kStringPositiveBase <=? tag) && (tag <? kStringNegativeBase) then
      let width := Z.to_nat (tag - kStringPositiveBase + 1) in
      Ret (to_chars_u64 (wrap 64 (positive_base width + read_big_endian v 1 width)))
    else if (kStringNegativeBase <=? tag) && (tag <? kStringUuidHex) then
      let width := Z.to_nat (tag - kStringNegativeBase + 1) in
      Ret ("-"%byte :: to_chars_u64 (wrap 64 (negative_base width + read_big_endian v 1 width)))
    else if (tag =? kStringUuidHex) || (tag =? kStringUuidDashed) then
      Ret (uuid_print (tag =? kStringUuidDashed) (view_byte v <$> seq 1 16) 0)
    else
      let decoded_length := view_size v in
      if decoded_length =? 0 then Ret []
      else
        match compressed_bytes v with
        | None => Undef
        | Some compressed =>
          match LZ4_decompress_safe compressed decoded_length with
          | Some out => if Z.of_nat (length out) =? decoded_length then Ret out
                        else Throw (str "invalid stored LZ4 string encoding")
          | None => Throw (str "invalid stored LZ4 string encoding")
          end
        end.

Definition equals (v : EncodedStringView) (logical : bytes) : result bool :=
  if negb (valid v) || negb (view_size v =? Z.of_nat (length logical)) then Ret false
  else if negb (encoding_enabled_ v) then Ret (range_equals v 0 logical)
  else if view_prefix v =? kStringRaw then Ret (range_equals v 1 logical)
  else s ← to_string v; Ret (bool_decide (s = logical)).

End ViewWithLz4.

(** A codec that never compresses, for examples. *)
Definition no_lz4 : LZ4 :=
  {| LZ4_compressBound n := n + n / 255 + 16; LZ4_compress _ _ _ := None; LZ4_decompress_safe _ _ := None |}.

#[global] Instance no_lz4_correct : LZ4Correct no_lz4.
Proof. split; done. Qed.

Definition view1 (enc : bytes) : EncodedStringView := {| head_ := enc; tail_ := []; encoding_enabled_ := true |}.

Example encode_ex1 :
  (write_to <$> match @encode no_lz4 (str "1000") 0 AllowLz4 with Ret e => Some e | _ => None end)
  = Some [b8 0x81; b8 0x02; b8 0x68].
Proof. vm_compute. reflexivity. Qed.

(** ** The two-piece view reads the concatenation of its pieces *)

Definition view_bytes (v : EncodedStringView) : bytes := head_ v ++ tail_ v.

Lemma encoded_size_bytes v : encoded_size v = length (view_bytes v).
Proof. unfold view_bytes. by rewrite length_app. Qed.

Lemma view_byte_lookup v i : view_byte v i = default 0 (u8 <$> view_bytes v !! i).
Proof.
  unfold view_byte, view_bytes. destruct (Nat.ltb_spec i (length (head_ v))).
  - by rewrite lookup_app_l.
  - by rewrite lookup_app_r.
Qed.

(** A read splits at any point of its range. *)
Lemma slice_split k off n (m : bytes) :
  (k <= n)%nat -> (off + n <= length m)%nat ->
  exists a b, slice off k m = Some a /\ slice (off + k) (n - k) m = Some b /\
    slice off n m = Some (a ++ b) /\ length a = k /\ length b = (n - k)%nat.
Proof.
  intros. exists (take k (drop off m)), (take (n - k) (drop (off + k) m)).
  unfold slice. rewrite !decide_True by lia. split_and!; try done.
  - rewrite <- drop_drop, <- (take_drop k (take n (drop off m))).
    rewrite take_take, Nat.min_l by done. by rewrite skipn_firstn_comm.
  - rewrite length_take, length_drop. lia.
  - rewrite length_take, length_drop. lia.
Qed.

Lemma slice_0 off (m : bytes) : (off <= length m)%nat -> slice off 0 m = Some [].
Proof. intros. unfold slice. by rewrite decide_True by lia. Qed.

(** The split point and the tail offset [copy_range] and [range_equals] use:
    each of the two reads is a read of the concatenation. *)
Lemma piece_reads (h t : bytes) off len :
  (off + len <= length h + length t)%nat ->
  let from_head := if (off <? length h)%nat then Nat.min len (length h - off) else 0%nat in
  let tail_offset := if (length h <? off + from_head)%nat then (off + from_head - length h)%nat else 0%nat in
  (from_head <= len)%nat /\
  (from_head <> 0%nat -> slice off from_head h = slice off from_head (h ++ t)) /\
  ((from_head < len)%nat ->
   slice tail_offset (len - from_head) t = slice (off + from_head) (len - from_head) (h ++ t)).
Proof.
  intros Hle from_head tail_offset. unfold tail_offset, from_head. clear from_head tail_offset.
  destruct (Nat.ltb_spec off (length h)).
  - split; [lia|]. split; [intros; by rewrite slice_app_l by lia|]. intros Hlt.
    rewrite (proj2 (Nat.ltb_ge (length h) _)) by lia.
    replace (off + Nat.min len (length h - off))%nat with (length h + 0)%nat by lia.
    by rewrite slice_app_r.
  - split; [lia|]. split; [done|]. intros Hlt. rewrite !Nat.add_0_r.
    replace (if (length h <? off)%nat then (off - length h)%nat else 0%nat) with (off - length h)%nat
      by (destruct (Nat.ltb_spec (length h) off); lia).
    rewrite <- (slice_app_r _ _ h t). f_equal. lia.
Qed.

Lemma copy_range_slice v off len :
  (off + len <= encoded_size v)%nat -> copy_range v off len = slice off len (view_bytes v).
Proof.
  unfold encoded_size, copy_range, view_bytes. intros Hle.
  destruct (piece_reads (head_ v) (tail_ v) off len Hle) as (Hk & Hh & Ht).
  set (k := if (off <? _)%nat then _ else 0%nat) in *.
  destruct (slice_split k off len (head_ v ++ tail_ v)) as (a & b & Ha & Hb & Hab & Hla & Hlb);
    [done|by rewrite length_app|].
  rewrite Hab. replace (if (k =? 0)%nat then _ else _) with (Some a).
  2: { destruct (Nat.eqb_spec k 0) as [E|E]; [|by rewrite Hh]. rewrite E in Hla. by destruct a. }
  cbn [mbind option_bind]. destruct (Nat.ltb_spec k len).
  - rewrite Ht by done. by rewrite Hb.
  - cbn [mbind option_bind]. destruct b; [by rewrite app_nil_r|simpl in Hlb; lia].
Qed.

Lemma range_equals_spec v off logical :
  range_equals v off logical = bool_decide (slice off (length logical) (view_bytes v) = Some logical).
Proof.
  unfold range_equals. destruct (Nat.ltb_spec (encoded_size v) (off + length logical)) as [Hlt|Hle].
  { symmetry. apply bool_decide_eq_false. intros [_ H]%slice_Some. rewrite encoded_size_bytes in Hlt. lia. }
  unfold encoded_size, view_bytes in *.
  destruct (piece_reads (head_ v) (tail_ v) off (length logical) Hle) as (Hk & Hh & Ht).
  set (k := if (off <? _)%nat then _ else 0%nat) in *.
  destruct (slice_split k off (length logical) (head_ v ++ tail_ v)) as (a & b & Ha & Hb & Hab & Hla & Hlb);
    [done|by rewrite length_app|].
  destruct (slice_split k 0 (length logical) logical) as (a' & b' & Ha' & Hb' & Hab' & Hla' & Hlb');
    [done|lia|]. rewrite slice_full in Hab'. simpl in Hb'. injection Hab' as Hab'.
  rewrite Hab, Ha', Hb'.
  rewrite (bool_decide_ext (Some (a ++ b) = Some logical) (a = a' /\ b = b')).
  2: { rewrite Hab'. split; [intros [= H]; apply app_inj_1 in H; [done|congruence]|by intros [-> ->]]. }
  rewrite bool_decide_and.
  replace (negb (k =? 0)%nat && _) with (negb (bool_decide (a = a'))).
  2: { destruct (Nat.eqb_spec k 0) as [E|E]; cbn [negb andb].
       - rewrite bool_decide_true; [done|]. rewrite E in *. destruct a, a'; done.
       - rewrite Hh, Ha by done. f_equal. apply bool_decide_ext. split; congruence. }
  destruct (bool_decide (a = a')); [|done]. cbn [negb andb].
  destruct (Nat.eqb_spec (length logical - k) 0) as [E|E]; cbn [orb].
  - symmetry. apply bool_decide_eq_true. destruct b, b'; done || (simpl in *; lia).
  - rewrite Ht, Hb by lia. apply bool_decide_ext. split; congruence.
Qed.

(** ** Integers *)

Lemma length_write_big_endian o w : length (write_big_endian o w) = w.
Proof. unfold write_big_endian. by rewrite length_rev, length_le_bytes. Qed.

#[local] Hint Rewrite length_write_big_endian : lens.

(** The reading loop is the big-endian value, as long as it fits the word. *)
Lemma read_big_endian_loop_spec v bs pre post value :
  view_bytes v = pre ++ bs ++ post -> (length bs <= 8)%nat ->
  0 <= value -> value * 2 ^ (8 * Z.of_nat (length bs)) + le_val (rev bs) < 2 ^ 64 ->
  read_big_endian_loop v (length pre) (length bs) value =
  value * 2 ^ (8 * Z.of_nat (length bs)) + le_val (rev bs).
Proof.
  revert pre value. induction bs as [|b bs IH]; intros pre value Hv Hl H0 Hr.
  { cbn. lia. }
  cbn [length read_big_endian_loop]. rewrite view_byte_lookup, Hv.
  cbn [app]. rewrite list_lookup_middle by done. cbn [fmap option_fmap option_map default from_option id].
  pose proof (u8_range b). simpl rev in *. rewrite le_val_app, length_rev in *. cbn [le_val] in *.
  rewrite lor_shift_add by (simpl; lia). change (2 ^ 8) with 256.
  cbn [length] in *.
  replace (8 * Z.of_nat (S (length bs))) with (8 + 8 * Z.of_nat (length bs)) in * by lia.
  rewrite Z.pow_add_r in * by lia. change (2 ^ 8) with 256 in *.
  pose proof (le_val_range (rev bs)) as Hlr. rewrite length_rev in Hlr.
  assert (0 < 2 ^ (8 * Z.of_nat (length bs))) by lia.
  rewrite wrap_small by nia.
  replace (S (length pre)) with (length (pre ++ [b])) by (rewrite length_app; simpl; lia).
  rewrite (IH (pre ++ [b])); [nia| |lia|lia|nia].
  by rewrite Hv, <- app_assoc.
Qed.

Lemma read_big_endian_written v tag w o post :
  view_bytes v = tag :: write_big_endian o w ++ post -> (w <= 8)%nat -> 0 <= o < 2 ^ (8 * Z.of_nat w) ->
  read_big_endian v 1 w = o.
Proof.
  intros Hv Hw Ho. unfold read_big_endian.
  assert (Hlv : le_val (rev (write_big_endian o w)) = o).
  { unfold write_big_endian. rewrite rev_involutive. by apply le_val_bytes_small. }
  pose proof (read_big_endian_loop_spec v (write_big_endian o w) [tag] post 0) as H.
  rewrite length_write_big_endian, Hlv in H. simpl length in H. rewrite H; try done; try lia.
  assert (2 ^ (8 * Z.of_nat w) <= 2 ^ 64); [apply Z.pow_le_mono_r; lia|lia].
Qed.

Lemma base_from_S start w :
  (1 <= w)%nat -> base_from start (S w) = wrap 64 (base_from start w + 2 ^ (8 * Z.of_nat w)).
Proof.
  intros. unfold base_from. replace (S w - 1)%nat with (w - 1 + 1)%nat by lia.
  rewrite seq_app, fold_left_app. simpl. rewrite Z.shiftl_mul_pow2 by lia.
  do 2 f_equal. rewrite Z.mul_1_l. f_equal. lia.
Qed.

Lemma width_loop_spec start n k o :
  (k + n = 8)%nat -> (1 <= k)%nat -> 0 <= o -> 0 <= base_from start k -> base_from start k + o < 2 ^ 64 ->
  exists w o', width_loop (seq k n) o = (w, o') /\ (1 <= w <= 8)%nat /\ 0 <= o' < 2 ^ (8 * Z.of_nat w) /\
    wrap 64 (base_from start w + o') = base_from start k + o.
Proof.
  revert k o. induction n as [|n IH]; intros k o Hk H1 Ho Hb Hlt.
  - assert (k = 8%nat) as -> by lia. exists 8%nat, o. simpl width_loop.
    split_and!; try done; try lia. by rewrite wrap_small by lia.
  - simpl seq. cbn [width_loop]. rewrite Z.shiftl_mul_pow2, Z.mul_1_l by lia.
    replace (Z.of_nat k * 8) with (8 * Z.of_nat k) by lia. case_bool.
    + exists k, o. split_and!; try done; try lia. by rewrite wrap_small by lia.
    + destruct (IH (S k) (o - 2 ^ (8 * Z.of_nat k))) as (w & o' & Hw & ? & ? & E); try lia.
      * rewrite base_from_S by done. by apply wrap_range.
      * rewrite base_from_S, wrap_small by lia. lia.
      * exists w, o'. split_and!; try done; try lia.
        rewrite E, base_from_S, wrap_small by lia. lia.
Qed.

(** The width and the residual offset that [width_for_offset] leaves, and the
    base that the reader adds back for this width. *)
Lemma width_for_offset_spec start o :
  0 <= start -> 0 <= o -> start + o < 2 ^ 64 ->
  exists w o', width_for_offset o = (w, o') /\ (1 <= w <= 8)%nat /\ 0 <= o' < 2 ^ (8 * Z.of_nat w) /\
    wrap 64 (base_from start w + o') = start + o.
Proof. intros. apply (width_loop_spec start 7 1 o); done || lia. Qed.

Lemma prefix_byte v tag rest :
  encoding_enabled_ v = true -> view_bytes v = tag :: rest -> view_prefix v = u8 tag.
Proof.
  intros He Hv. unfold view_prefix. rewrite He, encoded_size_bytes, Hv. simpl.
  by rewrite view_byte_lookup, Hv.
Qed.

(** What the reader makes of an integer form of either sign. *)
Definition int_text (negative : bool) (magnitude : Z) : bytes :=
  if negative then "-"%byte :: to_chars_u64 magnitude else to_chars_u64 magnitude.

Definition int_base (negative : bool) : Z := if negative then kStringNegativeBase else kStringPositiveBase.

Definition int_start (negative : bool) : Z := if negative then 1 else 128.

Definition int_form (negative : bool) (magnitude : Z) : bytes :=
  let '(width, offset) := width_for_offset (magnitude - int_start negative) in
  b8 (int_base negative + Z.of_nat width - 1) :: write_big_endian offset width.

(** What a reader recovers from a stored value: the encoding is valid, its
    logical size and its text are those of [s]. *)
Definition reads_as {L : LZ4} (v : EncodedStringView) (s : bytes) : Prop :=
  valid v = true /\ view_size v = Z.of_nat (length s) /\ to_string v = Ret s.

(** Decide every comparison of a known tag. *)
Ltac tag_cases :=
  repeat match goal with
  | |- context [Z.leb ?a ?b] => first [btrue (a <=? b) | bfalse (a <=? b)]
  | |- context [Z.ltb ?a ?b] => first [btrue (a <? b) | bfalse (a <? b)]
  | |- context [Z.eqb ?a ?b] => first [btrue (a =? b) | bfalse (a =? b)]
  end; cbn [negb andb orb].

Ltac unfold_tags :=
  unfold kStringPositiveBase, kStringNegativeBase, kStringUuidHex, kStringUuidDashed, kStringLz4,
    kStringRaw, kStringMaxEncodedBytes, kStringMaxVerbatimBytes, kStringMaxCompressedLogicalBytes in *.

(** Whichever piece holds them, the compressed bytes are those after the header. *)
Lemma compressed_bytes_spec v hdr compressed :
  encoded_size v = (4 + length compressed)%nat -> length hdr = 3%nat ->
  forall tag, view_bytes v = tag :: hdr ++ compressed -> compressed_bytes v = Some compressed.
Proof.
  intros Hsz Hh tag Hv.
  assert (Hs : slice 4 (length compressed) (view_bytes v) = Some compressed).
  { rewrite Hv. replace 4%nat with (length (tag :: hdr) + 0)%nat by (simpl; lia).
    rewrite app_comm_cons, slice_app_r. apply slice_full. }
  unfold compressed_bytes. rewrite Hsz.
  replace (4 + length compressed - 4)%nat with (length compressed) by lia.
  unfold view_bytes, encoded_size in *. destruct (Nat.leb_spec (4 + length compressed) (length (head_ v))).
  { rewrite slice_app_l in Hs by lia. done. }
  destruct (Nat.leb_spec (length (head_ v)) 4).
  - rewrite <- (slice_app_r _ _ (head_ v)), Nat.add_comm, Nat.sub_add by lia. done.
  - rewrite copy_range_slice; [done|]. unfold encoded_size. lia.
Qed.

(** ** UUIDs *)

Lemma lower_hex_nibble_inv ch n :
  lower_hex_nibble ch = Some n -> 0 <= n < 16 /\ lower_hex n = ch.
Proof.
  unfold lower_hex_nibble, lower_hex. pose proof (u8_range ch).
  destruct ((48 <=? u8 ch) && (u8 ch <=? 57)) eqn:E1.
  - apply andb_true_iff in E1 as [?%Z.leb_le ?%Z.leb_le]. intros [= <-].
    btrue (u8 ch - 48 <? 10). split; [lia|]. rewrite Zplus_minus. apply b8_u8.
  - destruct ((97 <=? u8 ch) && (u8 ch <=? 102)) eqn:E2; [|done].
    apply andb_true_iff in E2 as [?%Z.leb_le ?%Z.leb_le]. intros [= <-].
    bfalse (u8 ch - 97 + 10 <? 10). split; [lia|].
    replace (97 + (u8 ch - 97 + 10) - 10) with (u8 ch) by lia. apply b8_u8.
Qed.

(** The high and low nibbles that the decoder extracts. *)
Lemma nibbles h l :
  0 <= h < 16 -> 0 <= l < 16 ->
  let b := u8 (b8 (Z.lor (Z.shiftl h 4) l)) in Z.shiftr b 4 = h /\ Z.land b 0x0f = l.
Proof.
  intros Hh Hl. cbv zeta. rewrite lor_shift_add by (simpl; lia). change (2 ^ 4) with 16.
  rewrite u8_b8_small by lia. rewrite Z.shiftr_div_pow2 by lia. change (2 ^ 4) with 16.
  change 0x0f with (Z.ones 4). rewrite Z.land_ones by lia. change (2 ^ 4) with 16.
  split.
  - rewrite Z.div_add_l, Z.div_small by lia. lia.
  - rewrite Z.add_comm, Z.mod_add by lia. by apply Z.mod_small.
Qed.

Lemma uuid_loop_inv n dashed value src bs stop :
  uuid_loop n dashed value src = Some (bs, stop) ->
  length bs = n /\ exists rest, drop src value = uuid_print dashed (u8 <$> bs) src ++ rest /\
    rest = drop stop value /\ stop = (src + length (uuid_print dashed (u8 <$> bs) src))%nat.
Proof.
  revert src bs. induction n as [|n IH]; intros src bs; cbn [uuid_loop].
  { intros [= <- <-]. split; [done|]. exists (drop src value). split_and!; simpl; done || lia. }
  intros (src' & Hsrc & H)%bind_Some. apply bind_Some in H as (hi & Hhi & H).
  apply bind_Some in H as (lo & Hlo & H). apply bind_Some in H as ([bs' stop'] & Hrec & [= <- <-]).
  apply bind_Some in Hhi as (ch & Hch & [Hhr Hhx]%lower_hex_nibble_inv).
  apply bind_Some in Hlo as (cl & Hcl & [Hlr Hlx]%lower_hex_nibble_inv).
  destruct (IH _ _ Hrec) as (Hlen & rest & Hdrop & Hrest & Hstop). split; [simpl; by f_equal|].
  destruct (nibbles hi lo Hhr Hlr) as [Hn1 Hn2].
  assert (Hd2 : drop src' value = ch :: cl :: drop (src' + 2) value).
  { rewrite (drop_S _ _ _ Hch), (drop_S _ _ _ Hcl). do 2 f_equal. f_equal. lia. }
  cbn [fmap list_fmap uuid_print]. rewrite Hn1, Hn2, Hhx, Hlx. exists rest.
  unfold is_dash in *. destruct (dashed && bool_decide (src ∈ kDashes)).
  - apply bind_Some in Hsrc as (c & Hc & Hsrc). case_decide; [|done]. injection Hsrc as <-.
    assert (Hoff : (src + 3 = S src + 2)%nat) by lia. rewrite Hoff. subst c.
    rewrite (drop_S _ _ _ Hc), Hd2, Hdrop. split_and!; [done..|]. cbn [length app]. lia.
  - injection Hsrc as <-. rewrite Hd2, Hdrop. split_and!; [done..|]. cbn [length app]. lia.
Qed.

Lemma encode_uuid_inv value dashed out :
  encode_uuid value dashed = Some out ->
  length out = 16%nat /\ uuid_print dashed (u8 <$> out) 0 = value /\
  length value = (if dashed then 36 else 32)%nat.
Proof.
  unfold encode_uuid. case_decide as Hl; [|done]. intros ([out' stop] & Hu & H)%bind_Some.
  case_decide; [|done]. injection H as <-. subst stop.
  apply uuid_loop_inv in Hu as (Hlen & rest & Hd & Hr & Hs). split_and!; [done| |done].
  rewrite drop_0 in Hd. rewrite drop_ge in Hr by lia. by rewrite Hd, Hr, app_nil_r.
Qed.

Lemma view_bytes_seq v tag bs :
  view_bytes v = tag :: bs -> view_byte v <$> seq 1 (length bs) = u8 <$> bs.
Proof.
  intros Hv. apply list_eq. intros i. rewrite !list_lookup_fmap.
  destruct (decide (i < length bs)%nat).
  - rewrite lookup_seq_lt by done. simpl. rewrite view_byte_lookup, Hv. simpl.
    destruct (lookup_lt_is_Some_2 bs i) as [b ->]; done.
  - rewrite lookup_seq_ge by lia. by rewrite lookup_ge_None_2 by lia.
Qed.

Section Reads.
Context {L : LZ4} (v : EncodedStringView).
Hypothesis Henabled : encoding_enabled_ v = true.

Lemma int_form_reads negative m :
  int_start negative <= m < 2 ^ 64 -> view_bytes v = int_form negative m -> reads_as v (int_text negative m).
Proof.
  intros Hm Hv. unfold int_form in Hv.
  destruct (width_for_offset_spec (int_start negative) (m - int_start negative)) as (w & o & E & Hw & Ho & Hb);
    [destruct negative; simpl; lia|lia|lia|].
  rewrite E in Hv. pose proof Hv as Hv'. rewrite <- (app_nil_r (write_big_endian o w)) in Hv'.
  assert (Hr : read_big_endian v 1 w = o) by (apply (read_big_endian_written v _ w o [] Hv'); done || lia).
  assert (Hp : view_prefix v = int_base negative + Z.of_nat w - 1).
  { rewrite (prefix_byte _ _ _ Henabled Hv), u8_b8_small; [done|]. destruct negative; unfold int_base; unfold_tags; lia. }
  assert (Hsz : encoded_size v = S w) by (rewrite encoded_size_bytes, Hv; simpl; by rewrite length_write_big_endian).
  rewrite Zplus_minus in Hb.
  assert (Hvalid : valid v = true).
  { unfold valid. rewrite Henabled, Hp, Hsz. unfold int_base. unfold_tags. destruct negative; tag_cases; done || lia. }
  unfold reads_as, view_size, to_string. rewrite Hvalid, Henabled, Hp. unfold int_base. unfold_tags.
  destruct negative; tag_cases; unfold negative_base, positive_base, int_start in *;
    match goal with |- context [Z.to_nat ?z] => replace (Z.to_nat z) with w by lia end;
    rewrite Hr, Hb, decimal_digits_length by lia; split_and!; try done.
  simpl length. lia.
Qed.

Lemma small_int_reads m : 0 <= m <= 127 -> view_bytes v = [b8 m] -> reads_as v (to_chars_u64 m).
Proof.
  intros Hm Hv. assert (Hp : view_prefix v = m) by (rewrite (prefix_byte _ _ _ Henabled Hv), u8_b8_small; lia).
  assert (Hsz : encoded_size v = 1%nat) by (by rewrite encoded_size_bytes, Hv).
  assert (Hvalid : valid v = true).
  { unfold valid. rewrite Henabled, Hp, Hsz. unfold_tags. by tag_cases. }
  unfold reads_as, view_size, to_string. rewrite Hvalid, Henabled, Hp. unfold_tags. tag_cases.
  by rewrite decimal_digits_length by lia.
Qed.

Lemma raw_reads s :
  Z.of_nat (length s) <= 65534 -> view_bytes v = b8 kStringRaw :: s -> reads_as v s.
Proof.
  intros Hs Hv. assert (Hp : view_prefix v = kStringRaw).
  { rewrite (prefix_byte _ _ _ Henabled Hv), u8_b8_small; unfold_tags; lia. }
  assert (Hsz : encoded_size v = S (length s)) by (by rewrite encoded_size_bytes, Hv).
  assert (Hvalid : valid v = true).
  { unfold valid. rewrite Henabled, Hp, Hsz. unfold_tags. by tag_cases. }
  unfold reads_as, view_size, to_string. rewrite Hvalid, Henabled, Hp. unfold_tags. tag_cases.
  split_and!; [done|rewrite Hsz; lia|]. rewrite copy_range_slice by lia.
  replace (encoded_size v - 1)%nat with (length s) by lia. rewrite Hv.
  change (b8 255 :: s) with ([b8 255] ++ s). rewrite (slice_app_r 0 _ [b8 255] s).
  by rewrite slice_full.
Qed.

Lemma uuid_reads s dashed out :
  encode_uuid s dashed = Some out ->
  view_bytes v = b8 (if dashed then kStringUuidDashed else kStringUuidHex) :: out -> reads_as v s.
Proof.
  intros (Hl & Hs & Hsl)%encode_uuid_inv Hv.
  assert (Hp : view_prefix v = if dashed then kStringUuidDashed else kStringUuidHex).
  { rewrite (prefix_byte _ _ _ Henabled Hv), u8_b8_small; unfold_tags; destruct dashed; lia. }
  assert (Hsz : encoded_size v = 17%nat) by (rewrite encoded_size_bytes, Hv; simpl; by rewrite Hl).
  assert (Hvalid : valid v = true).
  { unfold valid. rewrite Henabled, Hp, Hsz. unfold_tags. by destruct dashed. }
  unfold reads_as, view_size, to_string. rewrite Hvalid, Henabled, Hp, <- Hl, (view_bytes_seq _ _ _ Hv), Hsl.
  unfold_tags. destruct dashed; simpl; by rewrite Hs.
Qed.

Lemma lz4_reads {LC : LZ4Correct L} m s cap compressed :
  Z.of_nat (length s) <= kStringMaxCompressedLogicalBytes -> cap <= kStringMaxEncodedBytes - 4 ->
  LZ4_compress m s cap = Some compressed ->
  view_bytes v = b8 kStringLz4 :: write_big_endian (Z.of_nat (length s)) 3 ++ compressed -> reads_as v s.
Proof.
  intros Hs Hcap Hc Hv. pose proof (lz4_nonempty _ _ _ _ Hc). pose proof (lz4_capacity _ _ _ _ Hc).
  pose proof (lz4_roundtrip _ _ _ _ Hc) as Hd.
  assert (Hp : view_prefix v = kStringLz4).
  { rewrite (prefix_byte _ _ _ Henabled Hv), u8_b8_small; unfold_tags; lia. }
  assert (Hsz : encoded_size v = (4 + length compressed)%nat).
  { rewrite encoded_size_bytes, Hv. cbn [length]. by rewrite length_app, length_write_big_endian. }
  assert (Hlen : 0 < Z.of_nat (length compressed)) by (destruct compressed; [done|simpl; lia]).
  assert (Hr : read_u24_big_endian v 1 = Z.of_nat (length s)).
  { unfold read_u24_big_endian. unfold_tags. rewrite (read_big_endian_written v _ 3 _ _ Hv).
    - apply wrap_small. lia.
    - lia.
    - change (2 ^ (8 * Z.of_nat 3)) with 16777216. lia. }
  assert (Hvalid : valid v = true).
  { unfold valid. rewrite Henabled, Hp, Hsz, Hr. unfold_tags. by tag_cases. }
  assert (Hview : view_size v = Z.of_nat (length s)).
  { unfold view_size. rewrite Hvalid, Henabled, Hp. unfold_tags. by tag_cases. }
  unfold reads_as. rewrite Hview. split_and!; [done..|].
  unfold to_string. rewrite Hvalid, Henabled, Hp, Hview. unfold_tags. tag_cases.
  case_bool; [by destruct s|]. rewrite (compressed_bytes_spec _ _ _ Hsz (length_write_big_endian _ _) _ Hv), Hd. by rewrite Z.eqb_refl.
Qed.

End Reads.

(** ** Round trip *)

(** The decimal texts whose value the integer reader wraps (see
    [parse_u64_iff]): twenty digits, [2^64 + 10^19] or more. *)
Definition wraps (ds : bytes) : bool :=
  match parse_canonical_u64 ds with Some m => negb (m =? dec_val ds) | None => false end.

Definition unsigned_part (value : bytes) : bytes :=
  match value with b :: ds => if decide (b = "-"%byte) then ds else value | [] => [] end.

Lemma parse_canonical_exact ds m :
  parse_canonical_u64 ds = Some m -> wraps ds = false -> to_chars_u64 m = ds /\ 0 <= m < 2 ^ 64.
Proof.
  intros H Hw. unfold wraps in Hw. rewrite H in Hw.
  apply negb_false_iff, Z.eqb_eq in Hw. subst m.
  apply parse_canonical_u64_iff in H as [Hc Hp]. apply parse_u64_iff in Hp as (_ & _ & E & _).
  pose proof (wrap_range 64 (dec_val ds) ltac:(lia)). split; [|lia].
  apply to_chars_u64_dec_val; [done|lia].
Qed.

(** The integer form always holds a 64-bit number, whatever text it was made from. *)
Lemma encode_integer_form value out :
  encode_integer value = Some out ->
  (exists m, 0 <= m <= 127 /\ out = [b8 m]) \/ (exists negative m, int_start negative <= m < 2 ^ 64 /\ out = int_form negative m).
Proof.
  assert (Hr : forall ds m, parse_canonical_u64 ds = Some m -> 0 <= m < 2 ^ 64).
  { intros ds m H. apply parse_canonical_u64_iff in H as [_ H]. apply parse_u64_iff in H as (_ & _ & -> & _). apply wrap_range. lia. }
  unfold encode_integer. destruct (maybe_int value); [|done]. destruct (parse_canonical_u64 value) as [m|] eqn:E.
  - apply Hr in E. destruct (Z.leb_spec m 127); [intros [= <-]; left; exists m; split; [lia|done]|]. intros H1. right. exists false, m.
    split; [simpl; lia|]. unfold int_form, int_base. cbn [int_start]. destruct (width_for_offset (m - 128)). congruence.
  - destruct value as [|b [|b' l]]; [done..|]. case_decide; [|done]. destruct (parse_canonical_u64 (b' :: l)) as [m|] eqn:E'; [|done].
    apply Hr in E'. destruct (Z.eqb_spec m 0); [done|]. intros H1. right. exists true, m. split; [simpl; lia|].
    unfold int_form, int_base. cbn [int_start]. destruct (width_for_offset (m - 1)). congruence.
Qed.

Lemma encode_integer_inv value out :
  encode_integer value = Some out -> wraps (unsigned_part value) = false ->
  (exists m, 0 <= m <= 127 /\ out = [b8 m] /\ to_chars_u64 m = value) \/
  (exists negative m, int_start negative <= m < 2 ^ 64 /\ out = int_form negative m /\ int_text negative m = value).
Proof.
  unfold encode_integer. destruct (maybe_int value); [|done].
  destruct (parse_canonical_u64 value) as [m|] eqn:E.
  - intros H Hw. assert (Hu : unsigned_part value = value).
    { destruct value as [|b l]; [done|]. simpl. case_decide; [|done]. subst b. exfalso.
      apply parse_canonical_u64_iff in E as [(Hd & _) _]. apply Forall_cons in Hd as [Hd _]. done. }
    rewrite Hu in Hw. destruct (parse_canonical_exact _ _ E Hw) as [Ht Hr].
    destruct (Z.leb_spec m 127); [left; exists m; split_and!; [lia..| |done]; congruence|].
    right. exists false, m. split; [simpl; lia|]. split; [|done]. unfold int_form, int_base. cbn [int_start].
    destruct (width_for_offset (m - 128)). congruence.
  - destruct value as [|b [|b' l]]; [done..|]. case_decide; [|done]. subst b.
    destruct (parse_canonical_u64 (b' :: l)) as [m|] eqn:E'; [|done].
    destruct (Z.eqb_spec m 0); [done|]. intros H Hw. simpl in Hw.
    destruct (parse_canonical_exact _ _ E' Hw) as [Ht Hr].
    right. exists true, m. split; [simpl; lia|]. split.
    + unfold int_form, int_base. cbn [int_start]. destruct (width_for_offset (m - 1)). congruence.
    + unfold int_text. by rewrite Ht.
Qed.

Lemma encode_uuid_any_inv value out :
  encode_uuid_any value = Some out ->
  exists dashed bs, encode_uuid value dashed = Some bs /\
    out = b8 (if dashed then kStringUuidDashed else kStringUuidHex) :: bs.
Proof.
  unfold encode_uuid_any. destruct (_ || _); [|done].
  destruct (encode_uuid value false) as [bs|] eqn:E; [intros [= <-]; by exists false, bs|].
  destruct (encode_uuid value true) as [bs|] eqn:E'; [intros [= <-]; by exists true, bs|done].
Qed.

Lemma encode_integer_length value out : encode_integer value = Some out -> (1 <= length out <= 9)%nat.
Proof.
  assert (Hc : forall start m b, parse_canonical_u64 b = Some m -> (start = 1 \/ start = 128) -> start <= m ->
    forall t, (length (let '(width, offset) := width_for_offset (m - start) in
       b8 (t + Z.of_nat width - 1) :: write_big_endian offset width) <= 9)%nat).
  { intros start m b Hp Hs Hm t. apply parse_canonical_u64_iff in Hp as [_ Hp].
    apply parse_u64_iff in Hp as (_ & _ & E & _). pose proof (wrap_range 64 (dec_val b) ltac:(lia)).
    destruct (width_for_offset_spec start (m - start)) as (w & o & -> & ? & _); [lia..|].
    cbn [length]. rewrite length_write_big_endian. lia. }
  unfold encode_integer. destruct (maybe_int value); [|done].
  destruct (parse_canonical_u64 value) as [m|] eqn:E.
  - case_bool; [intros [= <-]; simpl; lia|].
    specialize (Hc 128 m _ E (or_intror eq_refl) ltac:(lia) kStringPositiveBase).
    destruct (width_for_offset (m - 128)). intros [= <-]. cbn [length] in *. lia.
  - destruct value as [|b [|b' l]]; [done..|]. case_decide; [|done].
    destruct (parse_canonical_u64 (b' :: l)) as [m|] eqn:E'; [|done]. case_bool; [done|].
    assert (0 <= m).
    { apply parse_canonical_u64_iff in E' as [_ Hp]. apply parse_u64_iff in Hp as (_ & _ & -> & _).
      apply wrap_range. lia. }
    specialize (Hc 1 m _ E' (or_introl eq_refl) ltac:(lia) kStringNegativeBase).
    destruct (width_for_offset (m - 1)). intros [= <-]. cbn [length] in *. lia.
Qed.

Section RoundTrip.
Context {L : LZ4} {LC : LZ4Correct L}.

Lemma encode_lz4_inv value options mode out :
  encode_lz4 value options mode = Some out ->
  Z.of_nat (length value) <= kStringMaxCompressedLogicalBytes /\
  exists m cap compressed, cap <= kStringMaxEncodedBytes - 4 /\ LZ4_compress m value cap = Some compressed /\
    out = b8 kStringLz4 :: write_big_endian (Z.of_nat (length value)) 3 ++ compressed.
Proof.
  unfold encode_lz4. destruct (_ && (Z.of_nat (length value) <=? _)) eqn:E; [|done].
  apply andb_true_iff in E as [_ E%Z.leb_le]. intros H. split; [done|].
  destruct (LZ4_compress _ value _) as [c|] eqn:Ec; [|done]. injection H as <-.
  eexists _, _, c. split; [|by split]. lia.
Qed.

(** The five ways the constructor can end without an exception. *)
Lemma encode_cases value options mode e :
  encode value options mode = Ret e ->
  source_ e = value /\
  ((storage_ e = Verbatim /\ Options.encoding_enabled options = false /\ Z.of_nat (length value) <= 65535
    /\ encoded_size_ e = Z.of_nat (length value)) \/
   (Options.encoding_enabled options = true /\
    ((exists out, storage_ e = Inline out /\ encode_integer value = Some out
        /\ encoded_size_ e = Z.of_nat (length out)) \/
     (exists out, storage_ e = Inline out /\ encode_uuid_any value = Some out
        /\ encoded_size_ e = Z.of_nat (length out)) \/
     (exists out, storage_ e = Lz4 out /\ encode_lz4 value options mode = Some out
        /\ encoded_size_ e = Z.of_nat (length out) /\ Z.of_nat (length out) <= 65535) \/
     (storage_ e = Raw /\ Z.of_nat (length value) <= 65534
        /\ encoded_size_ e = Z.of_nat (length value) + 1)))).
Proof.
  unfold encode. destruct (Options.encoding_enabled options); cbn [negb].
  2: { unfold_tags. case_bool; [done|]. intros [= <-]. simpl. split; [done|]. left.
       rewrite wrap_small by lia. done. }
  destruct (encode_integer value) as [out|] eqn:E1.
  { intros [= <-]. simpl. split; [done|]. right. split; [done|]. left. exists out.
    apply encode_integer_length in E1. rewrite wrap_small by lia. done. }
  destruct (encode_uuid_any value) as [out|] eqn:E2.
  { intros [= <-]. simpl. split; [done|]. right. split; [done|]. right. left. exists out.
    destruct (encode_uuid_any_inv _ _ E2) as (d & bs & (Hl & _)%encode_uuid_inv & ->).
    cbn [length]. by rewrite Hl. }
  destruct (encode_lz4 value options mode) as [out|] eqn:E3.
  { intros [= <-]. simpl. split; [done|]. right. split; [done|]. right. right. left. exists out.
    destruct (encode_lz4_inv _ _ _ _ E3) as (_ & m & cap & c & Hcap & Hc%lz4_capacity & ->).
    cbn [length]. rewrite length_app, length_write_big_endian. unfold_tags.
    rewrite wrap_small by lia. split_and!; done || lia. }
  unfold kStringMaxBytes. destruct (Z.ltb_spec 65534 (Z.of_nat (length value))); [done|].
  intros [= <-]. simpl. split; [done|]. right. split; [done|]. do 3 right.
  rewrite wrap_small by lia. done.
Qed.

Lemma encode_enabled value options mode e : encode value options mode = Ret e -> es_encoding_enabled e = Options.encoding_enabled options.
Proof.
  intros He. unfold es_encoding_enabled.
  by destruct (encode_cases _ _ _ _ He) as (_ & [(-> & -> & _)|(-> & [(? & -> & _)|[(? & -> & _)|[(? & -> & _)|(-> & _)]]])]).
Qed.

(** The recorded size is the number of stored bytes, at most 65,535. *)
Lemma encode_size value options mode e :
  encode value options mode = Ret e ->
  encoded_size_ e = Z.of_nat (length (write_to e)) /\ encoded_size_ e <= 65535 /\
  (forall out, storage_ e = Inline out -> write_to e = out).
Proof.
  intros (Hs & [(Hst & _ & Hl & Hsz)|(_ & [(out & Hst & H & Hsz)|[(out & Hst & H & Hsz)|[(out & Hst & H & Hsz & Hl)|(Hst & Hl & Hsz)]]])])%encode_cases;
    unfold write_to; rewrite Hst, Hsz, ?Hs.
  - done.
  - apply encode_integer_length in H. rewrite Nat2Z.id, take_ge by lia. split_and!; [done|lia|congruence].
  - destruct (encode_uuid_any_inv _ _ H) as (d & bs & (Hbl & _)%encode_uuid_inv & ->).
    rewrite Nat2Z.id, take_ge by done. cbn [length]. split_and!; [done|lia|congruence].
  - split_and!; [done|lia|congruence].
  - cbn [length]. split_and!; [lia|lia|congruence].
Qed.

Lemma verbatim_reads v s :
  encoding_enabled_ v = false -> view_bytes v = s -> Z.of_nat (length s) <= 65535 -> reads_as v s.
Proof.
  intros He Hv Hs. unfold reads_as, valid, view_size, to_string, valid. rewrite He. cbn [negb].
  rewrite encoded_size_bytes, Hv. unfold_tags. tag_cases. unfold view_bytes in Hv. by rewrite Hv.
Qed.

Lemma encode_reads value options mode e v :
  encode value options mode = Ret e -> wraps (unsigned_part value) = false ->
  encoding_enabled_ v = es_encoding_enabled e -> view_bytes v = write_to e -> reads_as v value.
Proof.
  intros He Hw Hen Hv. destruct (encode_size _ _ _ _ He) as (_ & _ & Hin).
  unfold es_encoding_enabled in Hen.
  destruct (encode_cases _ _ _ _ He) as (Hs & [(Hst & _ & Hl & _)|(_ & [(out & Hst & H & _)|[(out & Hst & H & _)|[(out & Hst & H & _ & Hl)|(Hst & Hl & _)]]])]);
    rewrite Hst in Hen; try (specialize (Hin _ Hst); rewrite Hin in Hv);
    try (unfold write_to in Hv; rewrite Hst in Hv; try rewrite Hs in Hv).
  - by apply verbatim_reads.
  - destruct (encode_integer_inv _ _ H Hw) as [(m & Hm & -> & <-)|(neg & m & Hm & -> & <-)].
    + by apply small_int_reads.
    + by apply int_form_reads.
  - destruct (encode_uuid_any_inv _ _ H) as (d & bs & Hu & ->). by eapply uuid_reads.
  - destruct (encode_lz4_inv _ _ _ _ H) as (Hl' & m & cap & c & Hcap & Hc & ->). by eapply lz4_reads.
  - by apply raw_reads.
Qed.

(** Whatever was stored reads as some text. *)
Lemma encode_reads_some value options mode e v :
  encode value options mode = Ret e -> encoding_enabled_ v = es_encoding_enabled e -> view_bytes v = write_to e -> exists text, reads_as v text.
Proof.
  intros He Hen Hv. destruct (wraps (unsigned_part value)) eqn:Hw; [|exists value; by eapply encode_reads].
  destruct (encode_size _ _ _ _ He) as (_ & _ & Hin). pose proof Hen as Hen'. unfold es_encoding_enabled in Hen.
  destruct (encode_cases _ _ _ _ He) as (Hs & [(Hst & _ & Hl & _)|(_ & [(out & Hst & H & _)|[(out & Hst & H & _)|[(out & Hst & H & _ & Hl)|(Hst & Hl & _)]]])]);
    rewrite Hst in Hen; try (specialize (Hin _ Hst); rewrite Hin in Hv);
    try (unfold write_to in Hv; rewrite Hst in Hv; try rewrite Hs in Hv).
  - exists value. by apply verbatim_reads.
  - destruct (encode_integer_form _ _ H) as [(m & Hm & ->)|(neg & m & Hm & ->)]; eexists; [by apply small_int_reads|by apply int_form_reads].
  - destruct (encode_uuid_any_inv _ _ H) as (d & bs & Hu & ->). eexists. by eapply uuid_reads.
  - destruct (encode_lz4_inv _ _ _ _ H) as (Hl' & m & cap & c & Hcap & Hc & ->). eexists. by eapply lz4_reads.
  - eexists. by apply raw_reads.
Qed.

Lemma write_range_raw s off len :
  len <> 0%nat -> (off + len <= S (length s))%nat ->
  (if (off =? 0)%nat then
     if (len - 1 =? 0)%nat then Some [b8 kStringRaw]
     else cons (b8 kStringRaw) <$> slice (1 - 1) (len - 1) s
   else slice (off - 1) len s) = slice off len (b8 kStringRaw :: s).
Proof.
  intros Hz Hl. destruct (Nat.eqb_spec off 0) as [->|H0].
  - destruct len as [|len]; [done|]. simpl (S len - 1)%nat. rewrite Nat.sub_0_r.
    unfold slice. cbn [length]. rewrite (decide_True (P := (0 + S len <= _)%nat)) by lia. simpl.
    destruct (Nat.eqb_spec len 0) as [->|]; [done|]. by rewrite decide_True by lia.
  - destruct off as [|off]; [done|]. simpl (S off - 1)%nat. rewrite Nat.sub_0_r.
    unfold slice. cbn [length drop]. repeat case_decide; done || lia.
Qed.

(** Comparison with a logical string, which reads at most what it needs. *)
Lemma equals_reads v s logical : reads_as v s -> equals v logical = Ret (bool_decide (s = logical)).
Proof.
  intros (Hvalid & Hsize & Hts). unfold equals. rewrite Hvalid, Hsize. cbn [negb orb].
  destruct (Z.eqb_spec (Z.of_nat (length s)) (Z.of_nat (length logical))) as [El|El]; cbn [negb].
  2: { rewrite bool_decide_false by congruence. done. }
  apply Nat2Z.inj in El. destruct (encoding_enabled_ v) eqn:He; cbn [negb].
  - destruct (Z.eqb_spec (view_prefix v) kStringRaw) as [Ep|Ep]; [|by rewrite Hts].
    unfold to_string in Hts. rewrite Hvalid, He, Ep, Z.eqb_refl in Hts. cbn [negb] in Hts.
    assert (encoded_size v <> 0%nat).
    { intros E. unfold valid in Hvalid. by rewrite He, E in Hvalid. }
    rewrite copy_range_slice in Hts by lia. rewrite range_equals_spec.
    destruct (slice 1 _ (view_bytes v)) as [b|] eqn:Ec; [|done]. injection Hts as ->.
    apply slice_Some in Ec as Hc. rewrite <- El, (proj1 Hc), Ec. f_equal. apply bool_decide_ext. split; congruence.
  - unfold to_string in Hts. rewrite Hvalid, He in Hts. injection Hts as Hts.
    rewrite range_equals_spec, <- El, <- Hts. unfold view_bytes.
    rewrite slice_full. f_equal. apply bool_decide_ext. split; congruence.
Qed.

(** C25: storing a value and reading it back.  Whatever the options, the
    compression mode and the split of the stored bytes into the two pieces of
    the view, the view is valid, has the logical size of the value and decodes
    to the value, and comparing it with any string tells whether this is the
    value; unless the value is one of the decimal texts that the integer reader
    wraps. *)
Theorem string_encoding_roundtrip value options mode e head tail :
  encode value options mode = Ret e -> wraps (unsigned_part value) = false ->
  write_to e = head ++ tail ->
  let v := {| head_ := head; tail_ := tail; encoding_enabled_ := es_encoding_enabled e |} in
  valid v = true /\ view_size v = Z.of_nat (length value) /\ to_string v = Ret value /\
  forall logical, equals v logical = Ret (bool_decide (value = logical)).
Proof.
  intros He Hw Hs v.
  assert (Hr : reads_as v value) by (eapply encode_reads; [done..|symmetry; exact Hs]).
  split_and!; [apply Hr..|]. intros. by apply equals_reads.
Qed.

(** The stored form of a value and the ranges of it. *)
Lemma encoded_spec value options mode e :
  encode value options mode = Ret e ->
  encoded_size_ e = Z.of_nat (length (write_to e)) /\ encoded_size_ e <= kStringMaxEncodedBytes /\
  (forall off len, (off + len <= length (write_to e))%nat ->
     write_range_to e off len = slice off len (write_to e)) /\
  (forall stored, equals_encoded e stored = bool_decide (stored = write_to e)).
Proof.
  intros He. destruct (encode_size _ _ _ _ He) as (Hsz & Hle & Hin). split_and!; [done..| |].
  - intros off len Hlen. unfold write_range_to. destruct (Nat.eqb_spec len 0) as [->|Hz].
    { by rewrite slice_0 by lia. }
    destruct (storage_ e) eqn:Est.
    + unfold write_to. by rewrite Est.
    + unfold write_to in *. rewrite Est in *. cbn [length] in Hlen. by apply write_range_raw.
    + by rewrite (Hin _ eq_refl).
    + unfold write_to. by rewrite Est.
  - intros stored. unfold equals_encoded. rewrite Hsz at 1.
    destruct (Z.eqb_spec (Z.of_nat (length stored)) (Z.of_nat (length (write_to e)))) as [El|El]; cbn [negb].
    2: { symmetry. apply bool_decide_eq_false. congruence. }
    unfold write_to in *. destruct (storage_ e); [done| |done|done].
    destruct stored as [|b rest]; [done|]. rewrite (bool_decide_ext (b :: rest = _) (b = b8 kStringRaw /\ rest = source_ e))
      by (split; [by intros [= -> ->]|by intros [-> ->]]).
    rewrite bool_decide_and. f_equal. destruct (Z.eqb_spec (u8 b) kStringRaw) as [Eb|Eb].
    + symmetry. apply bool_decide_eq_true. by rewrite <- (b8_u8 b), Eb.
    + symmetry. apply bool_decide_eq_false. intros ->. by apply Eb.
Qed.

(** The class keeps its stored form consistent: the recorded size is the
    number of bytes [write_to] produces and fits the 16-bit length,
    [write_range_to] produces exactly the requested range of them, and
    [equals_encoded] compares with them. *)
Theorem encoded_string_consistent value options mode e :
  encode value options mode = Ret e ->
  encoded_size_ e = Z.of_nat (length (write_to e)) /\ encoded_size_ e <= kStringMaxEncodedBytes /\
  (forall off len, (off + len <= length (write_to e))%nat ->
     write_range_to e off len = slice off len (write_to e)) /\
  (forall stored, equals_encoded e stored = bool_decide (stored = write_to e)).
Proof. apply encoded_spec. Qed.
(** [string_value_fits] tells whether the constructor succeeds, without
    encoding a value within the raw limit. *)
Theorem string_value_fits_correct value options mode :
  string_value_fits value options mode = true <-> exists e, encode value options mode = Ret e.
Proof.
  unfold string_value_fits. destruct (Z.leb_spec (Z.of_nat (length value)) (Options.max_value_bytes options)) as [Hle|_].
  2: { destruct (encode value options mode) as [e| |]; split; try done; [by exists e|by intros [? ?]..]. }
  split; [|done]. intros _. unfold encode, Options.max_value_bytes in *.
  destruct (Options.encoding_enabled options); cbn [negb].
  - destruct (encode_integer value); [by eexists|]. destruct (encode_uuid_any value); [by eexists|].
    destruct (encode_lz4 value options mode); [by eexists|].
    bfalse (kStringMaxBytes <? Z.of_nat (length value)). by eexists.
  - bfalse (kStringMaxVerbatimBytes <? Z.of_nat (length value)). by eexists.
Qed.

End RoundTrip.

(** A store-only codec, with the size limits of the format. *)
Definition copy_lz4 : LZ4 :=
  {| LZ4_compressBound n := n + n / 255 + 16;
     LZ4_compress _ src cap :=
       if Z.of_nat (S (length src)) <=? cap then Some ("L"%byte :: src) else None;
     LZ4_decompress_safe c cap :=
       match c with _ :: src => if Z.of_nat (length src) <=? cap then Some src else None | [] => None end |}.

#[global] Instance copy_lz4_correct : LZ4Correct copy_lz4.
Proof.
  split; intros m src cap out; simpl; destruct (Z.leb_spec (Z.of_nat (S (length src))) cap); intros [= <-].
  - done.
  - cbn [length]. done.
  - by rewrite (proj2 (Z.leb_le _ _)).
Qed.

Example string_ex : bytes := str "the quick brown fox".

Example encoded_ex : EncodedString :=
  match @encode copy_lz4 string_ex (Options.with_lz4 4) AllowLz4 with
  | Ret e => e
  | _ => {| source_ := []; storage_ := Raw; encoded_size_ := 0 |}
  end.

Lemma string_encoding_roundtrip_witness :
  @encode copy_lz4 string_ex (Options.with_lz4 4) AllowLz4 = Ret encoded_ex /\
  is_lz4 encoded_ex = true /\
  @to_string copy_lz4 {| head_ := take 10 (write_to encoded_ex); tail_ := drop 10 (write_to encoded_ex);
                         encoding_enabled_ := es_encoding_enabled encoded_ex |}
  = Ret string_ex.
Proof.
  split; [vm_compute; reflexivity|]. split; [vm_compute; reflexivity|].
  apply (@string_encoding_roundtrip copy_lz4 copy_lz4_correct string_ex (Options.with_lz4 4) AllowLz4);
    vm_compute; reflexivity.
Defined.

Lemma encoded_string_consistent_witness :
  encoded_size_ encoded_ex <= kStringMaxEncodedBytes /\
  equals_encoded encoded_ex string_ex = bool_decide (string_ex = write_to encoded_ex).
Proof.
  split; apply (@encoded_string_consistent copy_lz4 copy_lz4_correct string_ex (Options.with_lz4 4) AllowLz4);
    vm_compute; reflexivity.
Defined.

(** The excluded values are really altered: with the default options the
    text 28446744073709551616 is stored as the integer [10^19] and read back as
    the text 10000000000000000000. *)
Theorem string_encoding_alters :
  match @encode copy_lz4 (str "28446744073709551616") Options.default AllowLz4 with
  | Ret e => @to_string copy_lz4 {| head_ := write_to e; tail_ := []; encoding_enabled_ := true |}
  | Throw message => Throw message
  | Undef => Undef
  end = Ret (str "10000000000000000000").
Proof. vm_compute. reflexivity. Qed.

(** ** The option word *)

Lemma with_lz4_range n : 0 <= n -> Options.with_lz4 n = Z.min n 16777216 + 1.
Proof.
  intros. unfold Options.with_lz4. unfold_tags. case_bool; rewrite wrap_small by lia; lia.
Qed.

Ltac by_compute := vm_compute; reflexivity.

Lemma valid_levels level :
  Options.valid_lz4_compress_level level = true ->
  level ∈ [0; 3; 4; 5; 6; 7; 8; 9; 10; 11; 12; -1; -2; -3; -4; -5; -6; -7; -8].
Proof.
  unfold Options.valid_lz4_compress_level. intros H. repeat case_bool; simpl in H; try done;
    rewrite !elem_of_cons; lia.
Qed.

Lemma set_threshold_fields packed n :
  0 <= n -> let p := Options.set_lz4_min_bytes packed n in
  Z.land p Options.kThresholdMask = Z.min n 16777216 + 1 /\
  Z.land p Options.kLevelMask = Z.land packed Options.kLevelMask /\
  Z.land p Options.kDisabledMask = Z.land packed Options.kDisabledMask.
Proof.
  intros Hn p. subst p. unfold Options.set_lz4_min_bytes. rewrite with_lz4_range by done.
  set (t := Z.min n 16777216 + 1). assert (0 <= t < 2 ^ 25) by lia.
  assert (Hlow : forall m, Z.land t (Z.shiftl m 25) = 0) by (intros; rewrite Z.land_comm; by apply land_shiftl_small).
  assert (Ht : Z.land t Options.kThresholdMask = t).
  { change Options.kThresholdMask with (Z.ones 25). rewrite Z.land_ones by lia. by apply Z.mod_small. }
  assert (Hl : Z.land t Options.kLevelMask = 0) by apply (Hlow 31).
  assert (Hd : Z.land t Options.kDisabledMask = 0) by apply (Hlow 32).
  rewrite !Z.land_lor_distr_l, Ht, Hl, Hd, <- !Z.land_assoc.
  assert (M1 : Z.land (Z.lor Options.kLevelMask Options.kDisabledMask) Options.kThresholdMask = 0) by by_compute.
  assert (M2 : Z.land (Z.lor Options.kLevelMask Options.kDisabledMask) Options.kLevelMask = Options.kLevelMask) by by_compute.
  assert (M3 : Z.land (Z.lor Options.kLevelMask Options.kDisabledMask) Options.kDisabledMask = Options.kDisabledMask) by by_compute.
  by rewrite M1, M2, M3, Z.land_0_r, Z.lor_0_r, !Z.lor_0_l.
Qed.

(** The level field of a valid level, and the bits it leaves clear. *)
Lemma level_bits level :
  Options.valid_lz4_compress_level level = true ->
  let code := if level <? 0 then - level else if 0 <? level then level + 6 else 0 in
  let bits := Z.shiftl code Options.kLevelShift in
  (let c := Z.shiftr (Z.land bits Options.kLevelMask) Options.kLevelShift in
   if c <=? 8 then - c else c - 6) = level /\
  Z.land bits Options.kThresholdMask = 0 /\ Z.land bits Options.kDisabledMask = 0.
Proof.
  intros Hv%valid_levels. rewrite !elem_of_cons, elem_of_nil in Hv.
  destruct_or! Hv; try done; subst level; split_and!; by_compute.
Qed.

Lemma set_level_fields packed level :
  Options.valid_lz4_compress_level level = true ->
  let p := Options.set_lz4_compress_level packed level in
  Options.lz4_compress_level p = level /\
  Z.land p Options.kThresholdMask = Z.land packed Options.kThresholdMask /\
  Z.land p Options.kDisabledMask = Z.land packed Options.kDisabledMask.
Proof.
  intros Hv p. subst p. destruct (level_bits level Hv) as (B1 & B2 & B3).
  unfold Options.set_lz4_compress_level, Options.lz4_compress_level in *. rewrite Hv.
  set (bits := Z.shiftl _ Options.kLevelShift) in *. clearbody bits.
  assert (M1 : Z.land (wrap 32 (Z.lnot Options.kLevelMask)) Options.kLevelMask = 0) by by_compute.
  assert (M2 : Z.land (wrap 32 (Z.lnot Options.kLevelMask)) Options.kThresholdMask = Options.kThresholdMask) by by_compute.
  assert (M3 : Z.land (wrap 32 (Z.lnot Options.kLevelMask)) Options.kDisabledMask = Options.kDisabledMask) by by_compute.
  rewrite !Z.land_lor_distr_l, <- !Z.land_assoc, M1, M2, M3, B2, B3, Z.land_0_r, !Z.lor_0_r, Z.lor_0_l. done.
Qed.

Lemma disable_fields packed :
  let p := Options.disable packed in
  Z.land p Options.kDisabledMask = Options.kDisabledMask /\
  Z.land p Options.kLevelMask = Z.land packed Options.kLevelMask.
Proof.
  unfold Options.disable. rewrite !Z.land_lor_distr_l. split.
  - rewrite Z.land_diag. apply Z.bits_inj'. intros i Hi. rewrite Z.lor_spec, Z.land_spec.
    by destruct (Z.testbit packed i), (Z.testbit Options.kDisabledMask i).
  - change (Z.land Options.kDisabledMask Options.kLevelMask) with 0. by rewrite Z.lor_0_r.
Qed.

(** The three settings packed in the 32-bit option word are independent:
    each setter stores its value (the threshold capped at [2^24], an invalid
    level as 0) and leaves the two others alone, in every word. *)
Theorem option_fields_independent packed n level :
  0 <= n -> Options.valid_lz4_compress_level level = true ->
  (let p := Options.set_lz4_min_bytes packed n in
   Options.encoding_enabled p = Options.encoding_enabled packed /\
   Options.lz4_compress_level p = Options.lz4_compress_level packed /\
   (Options.encoding_enabled packed = true -> Options.lz4_enabled p = true /\
      Options.lz4_min_bytes p = Z.min n (kStringMaxCompressedLogicalBytes + 1))) /\
  (let p := Options.set_lz4_compress_level packed level in
   Options.lz4_compress_level p = level /\
   Options.encoding_enabled p = Options.encoding_enabled packed /\
   Options.lz4_enabled p = Options.lz4_enabled packed /\
   Options.lz4_min_bytes p = Options.lz4_min_bytes packed) /\
  (let p := Options.disable packed in
   Options.encoding_enabled p = false /\ Options.lz4_enabled p = false /\
   Options.lz4_compress_level p = Options.lz4_compress_level packed).
Proof.
  intros Hn Hv. destruct (set_threshold_fields packed n Hn) as (T1 & T2 & T3).
  destruct (set_level_fields packed level Hv) as (L1 & L2 & L3).
  destruct (disable_fields packed) as (D1 & D2).
  unfold Options.lz4_min_bytes, Options.lz4_enabled, Options.encoding_enabled in *.
  split_and!; rewrite ?T1, ?T3, ?L2, ?L3, ?D1; try done.
  - unfold Options.lz4_compress_level. by rewrite T2.
  - intros ->. bfalse (Z.min n 16777216 + 1 =? 0). split; [done|]. cbn [negb andb]. unfold kStringMaxCompressedLogicalBytes. lia.
  - unfold Options.lz4_compress_level. by rewrite D2.
Qed.

Lemma option_fields_independent_witness :
  let p := Options.set_lz4_compress_level (Options.with_lz4 100) (-3) in
  Options.lz4_compress_level p = -3 /\ Options.lz4_min_bytes p = 100.
Proof.
  split; apply (option_fields_independent (Options.with_lz4 100) 5 (-3)); done || reflexivity.
Defined.
