(* ===== verification/ListListpack.v ===== *)
(** * Compact lists: the list listpack

    [include/goblin/core/list_listpack.hpp]: a Redis list in one blob,
    [u32 entries_len, u16 count, u16 reserved, entries], each entry a one- or
    three-byte header and its payload.  The model works on the bytes of the
    blob: every read and write of the code is a [load] or a [store], so that a
    result [Ret] also says that the code stays inside its allocations.  [junk]
    is the content of freshly allocated memory. *)

From Stdlib Require Import ZArith Lia.
From S2P Require Import Prelude ParseInt StringEncoding.

Local Open Scope Z_scope.

Definition kListListpackHeaderBytes : nat := 8.
Definition kListListpackMaxValueBytes : Z := 65535.
Definition kListListpackMaxBlobBytes : Z := 8 + 65535 + 3.

(** The pointer [p_]: no blob, or a blob. *)
Definition ListListpack : Type := option bytes.

Record Header := { len : Z; count : Z }.
Record Entry := { length_ : Z; header_bytes : nat; raw : bool }.

(** The bytes a pointer gives access to: none through the null pointer. *)
Definition mem (p : ListListpack) : bytes := default [] p.

Definition unpack (p : ListListpack) : result Header :=
  match p with
  | None => Ret {| len := 0; count := 0 |}
  | Some m => len ← load_le 4 0 m; count ← load_le 2 4 m; Ret {| len := len; count := count |}
  end.

Definition entry_total (e : Entry) : nat := (header_bytes e + Z.to_nat (length_ e))%nat.

Definition read_entry (p : nat) (m : bytes) : result Entry :=
  code ← load_u8 p m;
  if (code =? 0x7f) || (code =? 0xff) then
    length ← load_le 2 (p + 1) m;
    Ret {| length_ := length; header_bytes := 3; raw := code =? 0xff |}
  else
    Ret {| length_ := Z.land code 0x7f; header_bytes := 1; raw := negb (Z.land code 0x80 =? 0) |}.

Definition write_header (entries_len count : Z) (m : bytes) : result bytes :=
  m ← store 0 (le_bytes 4 entries_len) m;
  m ← store 4 (le_bytes 2 count) m;
  m ← store 6 [b8 0] m;
  store 7 [b8 0] m.

Definition entry_header_bytes (stored_size : Z) : nat := if stored_size <=? 126 then 1 else 3.
Definition entry_size (stored_size : Z) : Z := Z.of_nat (entry_header_bytes stored_size) + stored_size.

(** [write] is the callback: the bytes it stores at its destination. *)
Definition write_entry (p : nat) (stored_size : Z) (raw : bool) (write : result bytes) (m : bytes) : result bytes :=
  if stored_size <=? 126 then
    m ← store p [b8 (Z.lor stored_size (if raw then 0x80 else 0))] m;
    payload ← write; store (p + 1) payload m
  else
    m ← store p [b8 (if raw then 0xff else 0x7f)] m;
    m ← store (p + 1) (le_bytes 2 stored_size) m;
    payload ← write; store (p + 3) payload m.

Definition view_entry (p : nat) (m : bytes) (encoding : Z) : result EncodedStringView :=
  entry ← read_entry p m;
  payload ← load (p + header_bytes entry) (Z.to_nat (length_ entry)) m;
  if raw entry && Options.encoding_enabled encoding
  then Ret {| head_ := [b8 kStringRaw]; tail_ := payload; encoding_enabled_ := true |}
  else Ret {| head_ := payload; tail_ := []; encoding_enabled_ := Options.encoding_enabled encoding |}.

(** The loop of [offset_of]. *)
Fixpoint offset_from (n : nat) (offset : nat) (m : bytes) : result nat :=
  match n with
  | O => Ret offset
  | S n => entry ← read_entry (kListListpackHeaderBytes + offset) m; offset_from n (offset + entry_total entry) m
  end.
Definition offset_of (index : nat) (m : bytes) : result nat := offset_from index 0 m.

Definition size (p : ListListpack) : result Z := hdr ← unpack p; Ret (count hdr).

Definition at_ (index : nat) (encoding : Z) (p : ListListpack) : result EncodedStringView :=
  hdr ← unpack p;
  _ ← assert_ (Z.of_nat index <? count hdr);
  offset ← offset_of index (mem p);
  view_entry (kListListpackHeaderBytes + offset) (mem p) encoding.

Section WithMemory.
Context {L : LZ4} (junk : byte).

Definition alloc_blob (entries_len : Z) : bytes :=
  fresh_bytes junk (kListListpackHeaderBytes + Z.to_nat entries_len).

Definition insert_prepared (index : nat) (stored_size : Z) (raw : bool) (max_entries max_blob_bytes : Z)
    (write : result bytes) (p : ListListpack) : result (bool * ListListpack) :=
  hdr ← unpack p;
  _ ← assert_ (Z.of_nat index <=? count hdr);
  let added := entry_size stored_size in
  if (kListListpackMaxValueBytes <? stored_size) || (max_entries <? count hdr + 1)
     || (max_blob_bytes <? 8 + len hdr + added) || (count hdr =? 65535)
  then Ret (false, p)
  else
    insert_offset ← offset_of index (mem p);
    let new_len := wrap 32 (len hdr + wrap 32 added) in
    let dst := kListListpackHeaderBytes in
    next ← write_header new_len (wrap 16 (count hdr + 1)) (alloc_blob new_len);
    next ← (if (insert_offset =? 0)%nat then Ret next
            else memcpy dst (mem p) kListListpackHeaderBytes insert_offset next);
    next ← write_entry (dst + insert_offset) stored_size raw write next;
    next ← (if Z.of_nat insert_offset =? len hdr then Ret next
            else memcpy (dst + insert_offset + Z.to_nat added) (mem p)
                        (kListListpackHeaderBytes + insert_offset) (Z.to_nat (len hdr) - insert_offset) next);
    Ret (true, Some next).

(** What [insert], [assign] and [set] derive from an [EncodedString]. *)
Definition skip_prefix (e : EncodedString) : bool := is_raw e && es_encoding_enabled e.
Definition stored_size (e : EncodedString) : Z := encoded_size_ e - Z.b2z (skip_prefix e).
Definition write_stored (e : EncodedString) : result bytes :=
  of_option (write_range_to e (if skip_prefix e then 1 else 0) (Z.to_nat (stored_size e))).

Definition insert (index : nat) (value : bytes) (max_entries encoding : Z) (compression : StringCompressionMode)
    (max_blob_bytes : Z) (p : ListListpack) : result (bool * ListListpack) :=
  encoded ← encode value encoding compression;
  insert_prepared index (stored_size encoded) (is_raw encoded) max_entries max_blob_bytes (write_stored encoded) p.

Definition view_is_raw (v : EncodedStringView) : bool :=
  negb (encoding_enabled_ v) || (view_prefix v =? kStringRaw).

Definition insert_encoded (index : nat) (value : EncodedStringView) (max_entries max_blob_bytes : Z)
    (p : ListListpack) : result (bool * ListListpack) :=
  if negb (valid value) then Ret (false, p)
  else
    let raw := view_is_raw value in
    let skip_prefix := raw && encoding_enabled_ value in
    let stored_size := Z.of_nat (encoded_size value) - Z.b2z skip_prefix in
    insert_prepared index stored_size raw max_entries max_blob_bytes
      (of_option (copy_range value (if skip_prefix then 1 else 0) (Z.to_nat stored_size))) p.

Definition set_prepared (index : nat) (stored_size : Z) (raw_ : bool) (max_blob_bytes : Z)
    (write : result bytes) (p : ListListpack) : result (bool * ListListpack) :=
  hdr ← unpack p;
  _ ← assert_ (Z.of_nat index <? count hdr);
  if kListListpackMaxValueBytes <? stored_size then Ret (false, p)
  else
    offset ← offset_of index (mem p);
    old ← read_entry (kListListpackHeaderBytes + offset) (mem p);
    let new_size := entry_size stored_size in
    let projected := len hdr - Z.of_nat (entry_total old) + new_size in
    if max_blob_bytes <? 8 + projected then Ret (false, p)
    else if (length_ old =? stored_size) && Bool.eqb (raw old) raw_
            && (header_bytes old =? entry_header_bytes stored_size)%nat then
      payload ← write;
      m ← store (kListListpackHeaderBytes + offset + header_bytes old) payload (mem p);
      Ret (true, Some m)
    else
      let dst := kListListpackHeaderBytes in
      next ← write_header (wrap 32 projected) (count hdr) (alloc_blob (wrap 32 projected));
      next ← (if (offset =? 0)%nat then Ret next else memcpy dst (mem p) kListListpackHeaderBytes offset next);
      next ← write_entry (dst + offset) stored_size raw_ write next;
      let tail := (Z.to_nat (len hdr) - offset - entry_total old)%nat in
      next ← (if (tail =? 0)%nat then Ret next
              else memcpy (dst + offset + Z.to_nat new_size) (mem p)
                          (kListListpackHeaderBytes + offset + entry_total old) tail next);
      Ret (true, Some next).

Definition set (index : nat) (value : bytes) (encoding : Z) (compression : StringCompressionMode)
    (max_blob_bytes : Z) (p : ListListpack) : result (bool * ListListpack) :=
  encoded ← encode value encoding compression;
  set_prepared index (stored_size encoded) (is_raw encoded) max_blob_bytes (write_stored encoded) p.

Definition erase_range_at (offset bytes_ : nat) (removed : Z) (hdr : Header) (p : ListListpack) : result ListListpack :=
  let new_len := wrap 32 (len hdr - Z.of_nat bytes_) in
  if new_len =? 0 then Ret None
  else
    let dst := kListListpackHeaderBytes in
    next ← write_header new_len (wrap 16 (count hdr - removed)) (alloc_blob new_len);
    next ← (if (offset =? 0)%nat then Ret next else memcpy dst (mem p) kListListpackHeaderBytes offset next);
    let tail := (Z.to_nat (len hdr) - offset - bytes_)%nat in
    next ← (if (tail =? 0)%nat then Ret next
            else memcpy (dst + offset) (mem p) (kListListpackHeaderBytes + offset + bytes_) tail next);
    Ret (Some next).

Definition erase (index : nat) (encoding : Z) (p : ListListpack) : result (bytes * ListListpack) :=
  hdr ← unpack p;
  _ ← assert_ (Z.of_nat index <? count hdr);
  offset ← offset_of index (mem p);
  entry ← read_entry (kListListpackHeaderBytes + offset) (mem p);
  view ← view_entry (kListListpackHeaderBytes + offset) (mem p) encoding;
  removed ← to_string view;
  p ← erase_range_at offset (entry_total entry) 1 hdr p;
  Ret (removed, p).

Definition erase_range (first count_ : nat) (p : ListListpack) : result ListListpack :=
  hdr ← unpack p;
  if (count hdr <=? Z.of_nat first) || (count_ =? 0)%nat then Ret p
  else
    let removed_count := Nat.min count_ (Z.to_nat (count hdr) - first) in
    offset ← offset_of first (mem p);
    stop ← offset_from removed_count offset (mem p);
    erase_range_at offset (stop - offset) (Z.of_nat removed_count) hdr p.

Definition concat (other : ListListpack) (max_entries max_blob_bytes : Z) (p : ListListpack)
  : result (bool * ListListpack) :=
  self ← unpack p;
  tail ← unpack other;
  let total_count := count self + count tail in
  if (max_entries <? total_count) || (65535 <? total_count) then Ret (false, p)
  else
    let total_len := len self + len tail in
    if max_blob_bytes <? 8 + total_len then Ret (false, p)
    else if count tail =? 0 then Ret (true, p)
    else if count self =? 0 then
      match other with
      | None => Ret (true, None)
      | Some m =>
        next ← memcpy 0 m 0 (kListListpackHeaderBytes + Z.to_nat (len tail)) (alloc_blob (len tail));
        Ret (true, Some next)
      end
    else
      let dst := kListListpackHeaderBytes in
      next ← write_header (wrap 32 total_len) (wrap 16 total_count) (alloc_blob (wrap 32 total_len));
      next ← memcpy dst (mem p) kListListpackHeaderBytes (Z.to_nat (len self)) next;
      next ← memcpy (dst + Z.to_nat (len self)) (mem other) kListListpackHeaderBytes (Z.to_nat (len tail)) next;
      Ret (true, Some next).

(** The first loop of [assign]: encodes every value and sums the entry sizes;
    [None] is the early [return false]. *)
Fixpoint assign_encode (values : list bytes) (encoding : Z) (compression : StringCompressionMode)
    (max_blob_bytes entries_len : Z) : result (option (list EncodedString * Z)) :=
  match values with
  | [] => Ret (Some ([], entries_len))
  | value :: values =>
    item ← encode value encoding compression;
    if (kListListpackMaxValueBytes <? stored_size item)
       || (u64_max - entries_len <? entry_size (stored_size item)) then Ret None
    else
      let entries_len := entries_len + entry_size (stored_size item) in
      if max_blob_bytes <? 8 + entries_len then Ret None
      else
        rest ← assign_encode values encoding compression max_blob_bytes entries_len;
        match rest with
        | None => Ret None
        | Some (encoded, total) => Ret (Some (item :: encoded, total))
        end
  end.

(** The writing loop over [(stored size, raw flag, callback)]. *)
Fixpoint write_entries (items : list (Z * bool * result bytes)) (destination : nat) (next : bytes) : result bytes :=
  match items with
  | [] => Ret next
  | (stored_size, raw, write) :: items =>
    next ← write_entry destination stored_size raw write next;
    write_entries items (destination + Z.to_nat (entry_size stored_size)) next
  end.

Definition item_of (e : EncodedString) : Z * bool * result bytes := (stored_size e, is_raw e, write_stored e).

Definition assign (values : list bytes) (max_entries encoding : Z) (compression : StringCompressionMode)
    (max_blob_bytes : Z) (p : ListListpack) : result (bool * ListListpack) :=
  if (max_entries <? Z.of_nat (length values)) || (65535 <? Z.of_nat (length values)) then Ret (false, p)
  else
    measured ← assign_encode values encoding compression max_blob_bytes 0;
    match measured with
    | None => Ret (false, p)
    | Some ([], _) => Ret (true, None)
    | Some (encoded, entries_len) =>
      next ← write_header (wrap 32 entries_len) (wrap 16 (Z.of_nat (length encoded)))
               (alloc_blob (wrap 32 entries_len));
      next ← write_entries (item_of <$> encoded) kListListpackHeaderBytes next;
      Ret (true, Some next)
    end.

Fixpoint assign_raw_measure (values : list bytes) (max_blob_bytes entries_len : Z) : option Z :=
  match values with
  | [] => Some entries_len
  | value :: values =>
    let stored_size := Z.of_nat (length value) in
    if (kListListpackMaxValueBytes <? stored_size) || (u64_max - entries_len <? entry_size stored_size) then None
    else
      let entries_len := entries_len + entry_size stored_size in
      if max_blob_bytes <? 8 + entries_len then None
      else assign_raw_measure values max_blob_bytes entries_len
  end.

Definition raw_item (value : bytes) : Z * bool * result bytes := (Z.of_nat (length value), true, Ret value).

Definition assign_raw (values : list bytes) (max_entries max_blob_bytes : Z) (p : ListListpack)
  : result (bool * ListListpack) :=
  if (max_entries <? Z.of_nat (length values)) || (65535 <? Z.of_nat (length values)) then Ret (false, p)
  else
    match assign_raw_measure values max_blob_bytes 0 with
    | None => Ret (false, p)
    | Some entries_len =>
      match values with
      | [] => Ret (true, None)
      | _ =>
        next ← write_header (wrap 32 entries_len) (wrap 16 (Z.of_nat (length values)))
                 (alloc_blob (wrap 32 entries_len));
        next ← write_entries (raw_item <$> values) kListListpackHeaderBytes next;
        Ret (true, Some next)
      end
    end.

(** The views [for_each] and [for_range] hand to their callback, in order. *)
Fixpoint views_from (n offset : nat) (m : bytes) (encoding : Z) : result (list EncodedStringView) :=
  match n with
  | O => Ret []
  | S n =>
    entry ← read_entry (kListListpackHeaderBytes + offset) m;
    view ← view_entry (kListListpackHeaderBytes + offset) m encoding;
    rest ← views_from n (offset + entry_total entry) m encoding;
    Ret (view :: rest)
  end.

Definition for_each (encoding : Z) (p : ListListpack) : result (list EncodedStringView) :=
  hdr ← unpack p; views_from (Z.to_nat (count hdr)) 0 (mem p) encoding.

Definition for_range (first count_ : nat) (encoding : Z) (p : ListListpack) : result (list EncodedStringView) :=
  hdr ← unpack p;
  if (count hdr <=? Z.of_nat first) || (count_ =? 0)%nat then Ret []
  else
    let stop := Nat.min (Z.to_nat (count hdr)) (size_add first count_) in
    offset ← offset_of first (mem p);
    views_from (stop - first) offset (mem p) encoding.

Fixpoint find_from (n index offset : nat) (m value : bytes) (encoding : Z) : result (option nat) :=
  match n with
  | O => Ret None
  | S n =>
    entry ← read_entry (kListListpackHeaderBytes + offset) m;
    view ← view_entry (kListListpackHeaderBytes + offset) m encoding;
    hit ← equals view value;
    if hit : bool then Ret (Some index)
    else find_from n (S index) (offset + entry_total entry) m value encoding
  end.

Definition find_first (value : bytes) (first : nat) (encoding : Z) (p : ListListpack) : result (option nat) :=
  hdr ← unpack p;
  if count hdr <=? Z.of_nat first then Ret None
  else
    offset ← offset_of first (mem p);
    find_from (Z.to_nat (count hdr) - first) first offset (mem p) value encoding.

Fixpoint find_last_from (n index offset : nat) (answer : option nat) (m value : bytes) (encoding : Z)
  : result (option nat) :=
  match n with
  | O => Ret answer
  | S n =>
    entry ← read_entry (kListListpackHeaderBytes + offset) m;
    view ← view_entry (kListListpackHeaderBytes + offset) m encoding;
    hit ← equals view value;
    find_last_from n (S index) (offset + entry_total entry)
      (if hit : bool then Some index else answer) m value encoding
  end.

Definition find_last (value : bytes) (end_ : nat) (encoding : Z) (p : ListListpack) : result (option nat) :=
  hdr ← unpack p;
  find_last_from (Nat.min end_ (Z.to_nat (count hdr))) 0 0 None (mem p) value encoding.

End WithMemory.

(** ** Representation: a list of entries, each a raw flag and its payload *)

Abbreviation entry := (bool * bytes)%type.

Definition entry_enc (e : entry) : bytes :=
  let '(r, payload) := e in
  let n := Z.of_nat (length payload) in
  if n <=? 126 then b8 (Z.lor n (if r then 0x80 else 0)) :: payload
  else b8 (if r then 0xff else 0x7f) :: le_bytes 2 n ++ payload.

Definition enc (es : list entry) : bytes := es ≫= entry_enc.

Definition blob_header (es : list entry) : bytes :=
  le_bytes 4 (Z.of_nat (length (enc es))) ++ le_bytes 2 (Z.of_nat (length es)) ++ [b8 0; b8 0].

Definition blob (es : list entry) : bytes := blob_header es ++ enc es.

Definition fits (es : list entry) : Prop :=
  Z.of_nat (length es) <= 65535 /\ Z.of_nat (length (enc es)) < 2 ^ 32 /\
  Forall (fun e => Z.of_nat (length e.2) <= 65535) es.

Definition repr (p : ListListpack) (es : list entry) : Prop :=
  fits es /\ p = match es with [] => None | _ => Some (blob es) end.

Lemma enc_app a b : enc (a ++ b) = enc a ++ enc b.
Proof. apply bind_app. Qed.

Lemma enc_cons e b : enc (e :: b) = entry_enc e ++ enc b.
Proof. done. Qed.

Lemma length_blob_header es : length (blob_header es) = 8%nat.
Proof. unfold blob_header. by rewrite !length_app, !length_le_bytes. Qed.

Lemma length_entry_enc r pl : Z.of_nat (length (entry_enc (r, pl))) = entry_size (Z.of_nat (length pl)).
Proof.
  unfold entry_enc, entry_size, entry_header_bytes. case_bool; cbn [length]; [lia|].
  rewrite length_app, length_le_bytes. lia.
Qed.

Lemma entry_enc_pos e : (1 <= length (entry_enc e))%nat.
Proof. destruct e as [r pl]. unfold entry_enc. case_bool; simpl; lia. Qed.

Lemma enc_nil_inv es : length (enc es) = 0%nat -> es = [].
Proof. destruct es as [|e es]; [done|]. rewrite enc_cons, length_app. pose proof (entry_enc_pos e). lia. Qed.

Lemma fits_app_l a b : fits (a ++ b) -> fits a.
Proof.
  intros (H1 & H2 & H3). rewrite length_app in H1. rewrite enc_app, length_app in H2.
  apply Forall_app in H3 as [H3 _]. split_and!; done || lia.
Qed.

Lemma mem_repr p es : repr p es -> es <> [] -> mem p = blob_header es ++ enc es.
Proof. intros [_ ->] Hne. destruct es; done. Qed.

Lemma unpack_repr p es :
  repr p es -> unpack p = Ret {| len := Z.of_nat (length (enc es)); count := Z.of_nat (length es) |}.
Proof.
  intros [(H1 & H2 & _) ->]. destruct es as [|e es]; [done|]. unfold unpack, load_le, blob, blob_header.
  pose proof (read_le_app 4 0 [] (le_bytes 2 (Z.of_nat (length (e :: es))) ++ [b8 0; b8 0] ++ enc (e :: es))
    (Z.of_nat (length (enc (e :: es)))) eq_refl) as E1.
  pose proof (read_le_app 2 4 (le_bytes 4 (Z.of_nat (length (enc (e :: es))))) ([b8 0; b8 0] ++ enc (e :: es))
    (Z.of_nat (length (e :: es)))) as E2.
  rewrite <- !app_assoc. cbn [app] in E1 |- *. rewrite E1 by (simpl Z.mul; lia). cbn [of_option mbind result_bind].
  cbn [app] in E2. rewrite E2; [done|by rewrite length_le_bytes|]. simpl Z.mul. lia.
Qed.

(** The entry at an offset. *)
Definition entry_of (e : entry) : Entry :=
  {| length_ := Z.of_nat (length e.2); header_bytes := entry_header_bytes (Z.of_nat (length e.2)); raw := e.1 |}.

Lemma code_bits n (r : bool) :
  0 <= n <= 126 -> let code := Z.lor n (if r then 0x80 else 0) in
  0 <= code < 256 /\ code <> 0x7f /\ code <> 0xff /\ Z.land code 0x7f = n /\ negb (Z.land code 0x80 =? 0) = r.
Proof.
  intros Hn code.
  assert (Hc : code = n + (if r then 128 else 0)).
  { unfold code. destruct r; [|by rewrite Z.lor_0_r, Z.add_0_r].
    rewrite Z.lor_comm. change 128 with (Z.shiftl 1 7). rewrite lor_shift_add by (simpl; lia).
    change (Z.shiftl 1 7) with 128. lia. }
  rewrite Hc. clear code Hc. split; [destruct r; lia|]. split; [destruct r; lia|]. split; [destruct r; lia|].
  assert (H : forallb (fun k => let z := Z.of_nat k in
      (Z.land (z + (if r then 128 else 0)) 0x7f =? z)
      && Bool.eqb (negb (Z.land (z + (if r then 128 else 0)) 0x80 =? 0)) r) (seq 0 127) = true)
    by (destruct r; vm_compute; reflexivity).
  rewrite forallb_forall in H. specialize (H (Z.to_nat n)). cbv zeta in H. rewrite Z2Nat.id in H by lia.
  apply andb_true_iff in H as [H1 H2]; [|apply in_seq; lia].
  split; [by apply Z.eqb_eq|by apply Bool.eqb_prop].
Qed.

Lemma read_entry_enc pre e post :
  Z.of_nat (length e.2) <= 65535 ->
  read_entry (length pre) (pre ++ entry_enc e ++ post) = Ret (entry_of e).
Proof.
  destruct e as [r pl]. cbn [snd]. intros Hl. unfold read_entry, load_u8, load_le, entry_of, entry_enc, entry_header_bytes.
  cbn [fst snd]. destruct (Z.leb_spec (Z.of_nat (length pl)) 126) as [H|H].
  - cbn [app]. rewrite byte_at_app_hd. cbn [of_option mbind result_bind].
    destruct (code_bits (Z.of_nat (length pl)) r ltac:(lia)) as (C1 & C2 & C3 & C4 & C5).
    rewrite u8_b8_small by done. rewrite (proj2 (Z.eqb_neq _ _) C2), (proj2 (Z.eqb_neq _ _) C3). cbn [orb].
    by rewrite C4, C5.
  - cbn [app]. rewrite byte_at_app_hd. cbn [of_option mbind result_bind].
    assert (Hc : u8 (b8 (if r then 255 else 127)) = if r then 255 else 127) by (by destruct r).
    rewrite Hc. replace (_ || _) with true by (by destruct r).
    rewrite cons_middle, app_assoc, <- (app_assoc (le_bytes _ _)). rewrite read_le_app.
    + cbn [of_option mbind result_bind]. by destruct r.
    + rewrite length_app. simpl. lia.
    + simpl Z.mul. lia.
Qed.

Lemma entry_total_enc e : entry_total (entry_of e) = length (entry_enc e).
Proof.
  destruct e as [r pl]. apply Nat2Z.inj. rewrite length_entry_enc. unfold entry_total, entry_size. simpl.
  rewrite Nat2Z.id. lia.
Qed.

Lemma offset_from_enc hd a mid post :
  length hd = 8%nat -> Forall (fun e => Z.of_nat (length e.2) <= 65535) mid ->
  offset_from (length mid) (length (enc a)) (hd ++ enc a ++ enc mid ++ post) = Ret (length (enc a) + length (enc mid))%nat.
Proof.
  intros Hh. revert a. induction mid as [|e mid IH]; intros a HF; cbn [offset_from length].
  { f_equal. simpl. lia. }
  apply Forall_cons in HF as [He HF].
  pose proof (read_entry_enc (hd ++ enc a) e (enc mid ++ post) He) as Hr.
  rewrite enc_cons. rewrite length_app, Hh, <- !app_assoc in Hr. rewrite <- app_assoc. unfold kListListpackHeaderBytes.
  rewrite Hr. cbn [mbind result_bind]. rewrite entry_total_enc.
  specialize (IH (a ++ [e]) HF). rewrite enc_app, length_app, <- app_assoc in IH.
  change (enc [e]) with (entry_enc e ++ []) in IH. rewrite app_nil_r in IH.
  rewrite IH. f_equal. rewrite length_app. lia.
Qed.

Lemma offset_of_repr p a b :
  repr p (a ++ b) -> offset_of (length a) (mem p) = Ret (length (enc a)).
Proof.
  intros Hr. unfold offset_of. destruct a as [|e a]; [done|].
  rewrite (mem_repr _ _ Hr) by done. rewrite enc_app. destruct Hr as [(_ & _ & HF) _].
  apply Forall_app in HF as [HF _]. apply (offset_from_enc _ [] (e :: a)); [apply length_blob_header|done].
Qed.

(** The view of an entry. *)
Definition view_of (encoding : Z) (e : entry) : EncodedStringView :=
  if e.1 && Options.encoding_enabled encoding
  then {| head_ := [b8 kStringRaw]; tail_ := e.2; encoding_enabled_ := true |}
  else {| head_ := e.2; tail_ := []; encoding_enabled_ := Options.encoding_enabled encoding |}.

Lemma entry_payload pre e post :
  Z.of_nat (length e.2) <= 65535 ->
  load (length pre + entry_header_bytes (Z.of_nat (length e.2))) (length e.2) (pre ++ entry_enc e ++ post) = Ret e.2.
Proof.
  destruct e as [r pl]. unfold entry_enc, entry_header_bytes, load. cbn [snd]. intros Hl.
  rewrite slice_app_r. apply (f_equal of_option (y := Some pl)). case_bool.
  - by apply (slice_app [_] pl post).
  - rewrite <- app_comm_cons, <- app_assoc, app_comm_cons. apply slice_app; [|done].
    cbn [length]. by rewrite length_le_bytes.
Qed.

Lemma view_entry_enc pre e post encoding :
  Z.of_nat (length e.2) <= 65535 ->
  view_entry (length pre) (pre ++ entry_enc e ++ post) encoding = Ret (view_of encoding e).
Proof.
  intros Hl. unfold view_entry. rewrite read_entry_enc by done. cbn [mbind result_bind entry_of header_bytes length_ raw].
  rewrite Nat2Z.id, entry_payload by done. cbn [mbind result_bind]. unfold view_of.
  by destruct (e.1 && _).
Qed.

Lemma entry_at_repr p a e b :
  repr p (a ++ e :: b) ->
  read_entry (8 + length (enc a)) (mem p) = Ret (entry_of e) /\
  forall encoding, view_entry (8 + length (enc a)) (mem p) encoding = Ret (view_of encoding e).
Proof.
  intros Hr. rewrite (mem_repr _ _ Hr) by (by destruct a). destruct Hr as [(_ & _ & HF) _].
  apply Forall_app in HF as [_ HF]. apply Forall_cons in HF as [He _].
  rewrite enc_app, enc_cons, app_assoc. rewrite <- (length_blob_header (a ++ e :: b)), <- length_app.
  split; intros; [by apply read_entry_enc|by apply view_entry_enc].
Qed.

Lemma write_header_next junk entries_len count k :
  write_header entries_len count (fresh_bytes junk (8 + k)) =
  Ret ((le_bytes 4 entries_len ++ le_bytes 2 count ++ [b8 0; b8 0]) ++ fresh_bytes junk k).
Proof.
  unfold write_header. rewrite <- (app_nil_l (fresh_bytes junk (8 + k))).
  rewrite (store_next (4 + k)) by (rewrite ?length_le_bytes; simpl; lia). cbn [mbind result_bind].
  rewrite (store_next (2 + k)) by len_lia. cbn [mbind result_bind].
  rewrite (store_next (1 + k)) by len_lia. cbn [mbind result_bind].
  rewrite (store_next k) by len_lia. by rewrite <- !app_assoc.
Qed.

Lemma write_entry_next rest junk w r pl off k :
  Z.of_nat (length pl) <= 65535 -> off = length w -> k = (length (entry_enc (r, pl)) + rest)%nat ->
  write_entry off (Z.of_nat (length pl)) r (Ret pl) (w ++ fresh_bytes junk k) =
  Ret ((w ++ entry_enc (r, pl)) ++ fresh_bytes junk rest).
Proof.
  intros Hl -> ->. unfold write_entry, entry_enc. destruct (Z.leb_spec (Z.of_nat (length pl)) 126).
  - rewrite (store_next (length pl + rest)) by len_lia. cbn [mbind result_bind].
    rewrite (store_next rest) by len_lia. by rewrite <- !app_assoc.
  - rewrite (store_next (2 + (length pl + rest))) by len_lia. cbn [mbind result_bind].
    rewrite (store_next (length pl + rest)) by len_lia. cbn [mbind result_bind].
    rewrite (store_next rest) by len_lia. by rewrite <- !app_assoc.
Qed.

(** ** The list operations the code implements *)

Definition insert_at (i : nat) (e : entry) (es : list entry) : list entry := take i es ++ e :: drop i es.

Definition spec_insert (index : nat) (e : entry) (max_entries max_blob_bytes : Z) (es : list entry)
  : result (bool * list entry) :=
  _ ← assert_ (Z.of_nat index <=? Z.of_nat (length es));
  if (65535 <? Z.of_nat (length e.2)) || (max_entries <? Z.of_nat (length es) + 1)
     || (max_blob_bytes <? Z.of_nat (length (blob (insert_at index e es))))
     || (Z.of_nat (length es) =? 65535)
  then Ret (false, es) else Ret (true, insert_at index e es).

Definition spec_set (index : nat) (e : entry) (max_blob_bytes : Z) (es : list entry) : result (bool * list entry) :=
  _ ← assert_ (Z.of_nat index <? Z.of_nat (length es));
  if (65535 <? Z.of_nat (length e.2)) || (max_blob_bytes <? Z.of_nat (length (blob (<[index:=e]> es))))
  then Ret (false, es) else Ret (true, <[index:=e]> es).

Definition spec_concat (other : list entry) (max_entries max_blob_bytes : Z) (es : list entry)
  : result (bool * list entry) :=
  if (max_entries <? Z.of_nat (length (es ++ other))) || (65535 <? Z.of_nat (length (es ++ other)))
     || (max_blob_bytes <? Z.of_nat (length (blob (es ++ other))))
  then Ret (false, es) else Ret (true, es ++ other).

(** A byte-level outcome against a list-level one. *)
Definition refines {A} (x : result (A * ListListpack)) (y : result (A * list entry)) : Prop :=
  match y with
  | Ret (a, es) => exists p, x = Ret (a, p) /\ repr p es
  | Throw message => x = Throw message
  | Undef => x = Undef
  end.

Lemma length_blob es : length (blob es) = (8 + length (enc es))%nat.
Proof. unfold blob. by rewrite length_app, length_blob_header. Qed.

Lemma length_enc_insert i e es :
  length (enc (insert_at i e es)) = (length (enc es) + length (entry_enc e))%nat.
Proof.
  unfold insert_at. rewrite <- (take_drop i es) at 3. rewrite !enc_app, enc_cons, !length_app. lia.
Qed.

Lemma length_enc_entry_enc r pl : length (entry_enc (r, pl)) = Z.to_nat (entry_size (Z.of_nat (length pl))).
Proof. rewrite <- length_entry_enc with (r := r). by rewrite Nat2Z.id. Qed.

(** The blob's entries, read from any point to the end. *)
Lemma load_tail p a b :
  repr p (a ++ b) -> a ++ b <> [] -> load (8 + length (enc a)) (length (enc b)) (mem p) = Ret (enc b).
Proof.
  intros Hr Hne. rewrite (mem_repr _ _ Hr Hne), enc_app, app_assoc.
  pose proof (load_app (blob_header (a ++ b) ++ enc a) (enc b) []) as H. rewrite app_nil_r in H.
  apply H; [|done]. by rewrite length_app, length_blob_header.
Qed.

Lemma load_front p a b :
  repr p (a ++ b) -> a <> [] -> load 8 (length (enc a)) (mem p) = Ret (enc a).
Proof.
  intros Hr Hne. rewrite (mem_repr _ _ Hr) by (by destruct a). rewrite enc_app.
  apply load_app; [|done]. by rewrite length_blob_header.
Qed.

(** Copying the entries before and after a point of the old blob behind what is
    already written; the guards skip the copy of nothing. *)
Lemma copy_front rest junk p a b w k :
  repr p (a ++ b) -> length w = 8%nat -> k = (length (enc a) + rest)%nat ->
  (if (length (enc a) =? 0)%nat then Ret (w ++ fresh_bytes junk k)
   else memcpy 8 (mem p) 8 (length (enc a)) (w ++ fresh_bytes junk k)) =
  Ret ((w ++ enc a) ++ fresh_bytes junk rest).
Proof.
  intros Hr Hw ->. destruct (Nat.eqb_spec (length (enc a)) 0) as [E|E].
  - rewrite (enc_nil_inv _ E), app_nil_r. done.
  - apply memcpy_next; [|done|done]. eapply load_front; [done|]. by intros ->.
Qed.

Lemma copy_back junk p a b w dst :
  repr p (a ++ b) -> dst = length w ->
  (if (length (enc b) =? 0)%nat then Ret (w ++ fresh_bytes junk (length (enc b)))
   else memcpy dst (mem p) (8 + length (enc a)) (length (enc b)) (w ++ fresh_bytes junk (length (enc b)))) =
  Ret (w ++ enc b).
Proof.
  intros Hr ->. destruct (Nat.eqb_spec (length (enc b)) 0) as [E|E].
  - rewrite (enc_nil_inv _ E). done.
  - rewrite (memcpy_next 0 junk w (mem p) (enc b)); [by rewrite app_nil_r| |done|lia].
    apply load_tail; [done|]. intros [_ ->]%app_nil. done.
Qed.

(** The header of the replacement blob for the entries [es]. *)
Lemma write_blob_header junk es :
  write_header (Z.of_nat (length (enc es))) (Z.of_nat (length es)) (alloc_blob junk (Z.of_nat (length (enc es)))) =
  Ret (blob_header es ++ fresh_bytes junk (length (enc es))).
Proof. unfold alloc_blob. rewrite Nat2Z.id. apply write_header_next. Qed.

Lemma repr_blob es : fits es -> es <> [] -> repr (Some (blob es)) es.
Proof. intros Hf Hne. split; [done|]. by destruct es. Qed.

Lemma fits_intro es :
  Z.of_nat (length es) <= 65535 -> Z.of_nat (length (blob es)) <= 2 ^ 32 ->
  Forall (fun e => Z.of_nat (length e.2) <= 65535) es -> fits es.
Proof. intros ? H ?. rewrite length_blob in H. split_and!; done || lia. Qed.

Lemma length_insert_at i e es : length (insert_at i e es) = S (length es).
Proof. unfold insert_at. rewrite length_app, length_take. cbn [length]. rewrite length_drop. lia. Qed.

Lemma insert_prepared_refines junk index r pl max_entries mb p es :
  repr p es -> mb <= 2 ^ 32 ->
  refines (insert_prepared junk index (Z.of_nat (length pl)) r max_entries mb (Ret pl) p)
          (spec_insert index (r, pl) max_entries mb es).
Proof.
  intros Hr Hmb. unfold insert_prepared, spec_insert. rewrite (unpack_repr _ _ Hr). cbn [mbind result_bind len count fst snd].
  destruct (Z.leb_spec (Z.of_nat index) (Z.of_nat (length es))) as [Hi|Hi]; [|done]. cbn [assert_ mbind result_bind].
  rewrite <- length_entry_enc with (r := r).
  replace (8 + Z.of_nat (length (enc es)) + Z.of_nat (length (entry_enc (r, pl))))
    with (Z.of_nat (length (blob (insert_at index (r, pl) es)))) by (rewrite length_blob, length_enc_insert; lia).
  unfold kListListpackMaxValueBytes. destruct (_ || _ || _ || _) eqn:E; [by exists p|].
  rewrite !orb_false_iff, !Z.ltb_ge, Z.eqb_neq in E. destruct E as (((E1 & E2) & E3) & E4).
  pose proof (proj1 Hr) as (Hc & Hf & HF). rewrite <- (take_drop index es) in Hr.
  assert (Hta : length (take index es) = index) by (rewrite length_take; lia).
  pose proof (offset_of_repr _ _ _ Hr) as Ho. rewrite Hta in Ho. rewrite Ho. cbn [mbind result_bind].
  pose proof (length_enc_insert index (r, pl) es) as Hli. pose proof (length_insert_at index (r, pl) es) as Hlc.
  rewrite length_blob in E3. rewrite (wrap_small 32 (Z.of_nat (length (entry_enc (r, pl))))) by lia.
  rewrite (wrap_small 32), (wrap_small 16) by lia.
  replace (Z.of_nat (length (enc es)) + _) with (Z.of_nat (length (enc (insert_at index (r, pl) es)))) by lia.
  replace (Z.of_nat (length es) + 1) with (Z.of_nat (length (insert_at index (r, pl) es))) by lia.
  rewrite write_blob_header. cbn [mbind result_bind]. set (h := blob_header _).
  assert (Hh : length h = 8%nat) by apply length_blob_header.
  assert (Henc : enc (insert_at index (r, pl) es) = enc (take index es) ++ entry_enc (r, pl) ++ enc (drop index es))
    by (unfold insert_at; by rewrite enc_app, enc_cons).
  assert (Hlen : length (enc es) = (length (enc (take index es)) + length (enc (drop index es)))%nat)
    by (rewrite <- (take_drop index es) at 1; by rewrite enc_app, length_app).
  set (a := take index es) in *. set (b := drop index es) in *. unfold kListListpackHeaderBytes.
  rewrite (copy_front (length (entry_enc (r, pl)) + length (enc b)) junk p a b) by (done || lia). cbn [mbind result_bind].
  rewrite (write_entry_next (length (enc b))) by (len_lia || done). cbn [mbind result_bind].
  replace (Z.of_nat (length (enc a)) =? Z.of_nat (length (enc es))) with (length (enc b) =? 0)%nat
    by (destruct (Nat.eqb_spec (length (enc b)) 0), (Z.eqb_spec (Z.of_nat (length (enc a))) (Z.of_nat (length (enc es)))); done || lia).
  rewrite Nat2Z.id, Nat2Z.id. replace (length (enc es) - length (enc a))%nat with (length (enc b)) by lia.
  rewrite (copy_back junk p a b) by (done || len_lia). cbn [mbind result_bind].
  eexists. split; [done|]. rewrite <- !app_assoc, <- Henc. apply repr_blob; [|by intros Hn; rewrite Hn in Hlc].
  apply fits_intro; [lia|rewrite length_blob; lia|]. unfold insert_at. apply Forall_app. split; [by apply Forall_take|].
  apply Forall_cons. split; [done|by apply Forall_drop].
Qed.

Lemma insert_split (es : list entry) i (e' : entry) :
  (i < length es)%nat -> exists a e b, es = a ++ e :: b /\ length a = i /\ <[i:=e']> es = a ++ e' :: b.
Proof.
  intros Hi. destruct (lookup_lt_is_Some_2 es i Hi) as [e He].
  destruct (list_elem_of_split_length es i e He) as (a & b & -> & ->).
  exists a, e, b. split_and!; try done. rewrite insert_app_r_alt by done. by rewrite Nat.sub_diag.
Qed.

(** Overwriting a payload of the same length in place. *)
Lemma store_payload p a r pl pl' b :
  repr p (a ++ (r, pl) :: b) -> length pl' = length pl ->
  store (8 + length (enc a) + entry_header_bytes (Z.of_nat (length pl))) pl' (mem p) =
  Ret (blob (a ++ (r, pl') :: b)).
Proof.
  intros Hr Hl. rewrite (mem_repr _ _ Hr) by (by destruct a). unfold store, blob.
  assert (Hsame : exists hd, entry_enc (r, pl) = hd ++ pl /\ entry_enc (r, pl') = hd ++ pl' /\
    length hd = entry_header_bytes (Z.of_nat (length pl))).
  { unfold entry_enc, entry_header_bytes. rewrite Hl. case_bool.
    - by eexists [_].
    - exists (b8 (if r then 255 else 127) :: le_bytes 2 (Z.of_nat (length pl))).
      split_and!; [done..|]. cbn [length]. by rewrite length_le_bytes. }
  destruct Hsame as (hd & E1 & E2 & E3).
  assert (Hh : blob_header (a ++ (r, pl') :: b) = blob_header (a ++ (r, pl) :: b)).
  { unfold blob_header. rewrite !enc_app, !enc_cons, E1, E2, !length_app. cbn [length]. by rewrite Hl. }
  rewrite Hh. rewrite !enc_app, !enc_cons, E1, E2, <- !app_assoc.
  pose proof (poke_app (blob_header (a ++ (r, pl) :: b) ++ enc a ++ hd) pl (enc b) pl') as Hp.
  rewrite <- !app_assoc in Hp. rewrite Hp; [done| |done]. rewrite !length_app, length_blob_header. lia.
Qed.

Lemma set_prepared_refines junk index r pl mb p es :
  repr p es -> mb <= 2 ^ 32 ->
  refines (set_prepared junk index (Z.of_nat (length pl)) r mb (Ret pl) p) (spec_set index (r, pl) mb es).
Proof.
  intros Hr Hmb. unfold set_prepared, spec_set. rewrite (unpack_repr _ _ Hr). cbn [mbind result_bind len count fst snd].
  destruct (Z.ltb_spec (Z.of_nat index) (Z.of_nat (length es))) as [Hi|Hi]; [|done]. cbn [assert_ mbind result_bind].
  destruct (insert_split es index (r, pl)) as (a & e & b & -> & <- & Hins); [lia|]. rewrite Hins.
  unfold kListListpackMaxValueBytes. destruct (Z.ltb_spec 65535 (Z.of_nat (length pl))) as [E1|E1]; [by exists p|].
  cbn [orb]. rewrite (offset_of_repr _ _ _ Hr). cbn [mbind result_bind].
  destruct (entry_at_repr _ _ _ _ Hr) as [Hre _]. unfold kListListpackHeaderBytes. rewrite Hre. cbn [mbind result_bind].
  rewrite entry_total_enc, <- length_entry_enc with (r := r).
  assert (Hlen : forall x, length (enc (a ++ x :: b)) = (length (enc a) + length (entry_enc x) + length (enc b))%nat)
    by (intros; rewrite enc_app, enc_cons, !length_app; lia).
  assert (Hproj : Z.of_nat (length (enc (a ++ e :: b))) - Z.of_nat (length (entry_enc e)) + Z.of_nat (length (entry_enc (r, pl)))
     = Z.of_nat (length (enc (a ++ (r, pl) :: b)))) by (rewrite !Hlen; lia).
  rewrite Hproj. replace (8 + Z.of_nat (length (enc (a ++ (r, pl) :: b)))) with (Z.of_nat (length (blob (a ++ (r, pl) :: b))))
    by (rewrite length_blob; lia).
  destruct (Z.ltb_spec mb (Z.of_nat (length (blob (a ++ (r, pl) :: b))))) as [E2|E2]; [by exists p|].
  pose proof (proj1 Hr) as (Hc & Hf & HF). apply Forall_app in HF as [HF1 HF2]. apply Forall_cons in HF2 as [He HF2].
  assert (Hrepr : repr (Some (blob (a ++ (r, pl) :: b))) (a ++ (r, pl) :: b)).
  { apply repr_blob; [|by destruct a]. apply fits_intro; [by rewrite length_app in *|lia|].
    apply Forall_app. split; [done|]. by apply Forall_cons. }
  cbn [length_ raw header_bytes entry_of]. destruct e as [r0 pl0]. cbn [fst snd].
  destruct (_ && _ && _) eqn:E.
  - apply andb_true_iff in E as [[El%Z.eqb_eq Eb%Bool.eqb_prop]%andb_true_iff _]. apply Nat2Z.inj in El. subst r0.
    rewrite (store_payload _ _ _ _ pl _ Hr) by done. cbn [mbind result_bind]. by eexists.
  - rewrite length_blob in E2. rewrite (wrap_small 32) by lia.
    replace (Z.of_nat (length (a ++ (r0, pl0) :: b))) with (Z.of_nat (length (a ++ (r, pl) :: b))) by (by rewrite !length_app).
    rewrite write_blob_header. cbn [mbind result_bind]. pose proof (length_blob_header (a ++ (r, pl) :: b)).
    rewrite (copy_front (length (entry_enc (r, pl)) + length (enc b)) junk p a _) by (done || rewrite Hlen; lia).
    cbn [mbind result_bind]. rewrite (write_entry_next (length (enc b))) by (len_lia || done). cbn [mbind result_bind].
    rewrite !Nat2Z.id. replace (_ - _ - _)%nat with (length (enc b)) by (rewrite Hlen; lia).
    replace (8 + length (enc a) + length (entry_enc (r0, pl0)))%nat with (8 + length (enc (a ++ [(r0, pl0)])))%nat
      by (rewrite enc_app; cbn; rewrite app_nil_r, length_app; lia).
    rewrite (copy_back junk p (a ++ [(r0, pl0)]) b) by (rewrite <- ?app_assoc; done || len_lia).
    cbn [mbind result_bind]. eexists. split; [done|].
    rewrite <- !app_assoc. by rewrite <- enc_cons, <- enc_app.
Qed.

Lemma fits_app_middle a mid b : fits (a ++ mid ++ b) -> fits (a ++ b).
Proof.
  intros (H1 & H2 & H3). rewrite !length_app in H1. rewrite !enc_app, !length_app in H2.
  rewrite !Forall_app in H3. split_and!.
  - rewrite length_app. lia.
  - rewrite enc_app, length_app. lia.
  - apply Forall_app. tauto.
Qed.

Lemma erase_range_at_repr junk p a mid b :
  repr p (a ++ mid ++ b) -> mid <> [] ->
  exists p', erase_range_at junk (length (enc a)) (length (enc mid)) (Z.of_nat (length mid))
    {| len := Z.of_nat (length (enc (a ++ mid ++ b))); count := Z.of_nat (length (a ++ mid ++ b)) |} p = Ret p' /\
  repr p' (a ++ b).
Proof.
  intros Hr Hne. unfold erase_range_at. cbn [len count].
  assert (Hlen : length (enc (a ++ mid ++ b)) = (length (enc (a ++ b)) + length (enc mid))%nat)
    by (rewrite !enc_app, !length_app; lia).
  pose proof (proj1 Hr) as Hf. pose proof Hf as (H1 & H2 & _). pose proof (fits_app_middle _ _ _ Hf) as Hf'.
  rewrite (wrap_small 32) by lia. rewrite (wrap_small 16) by (rewrite !length_app in *; lia).
  replace (Z.of_nat (length (enc (a ++ mid ++ b))) - Z.of_nat (length (enc mid)))
    with (Z.of_nat (length (enc (a ++ b)))) by lia.
  destruct (Z.eqb_spec (Z.of_nat (length (enc (a ++ b)))) 0) as [E|E].
  { exists None. split; [done|]. rewrite (enc_nil_inv (a ++ b)) in Hf' |- * by lia. done. }
  replace (Z.of_nat (length (a ++ mid ++ b)) - Z.of_nat (length mid)) with (Z.of_nat (length (a ++ b)))
    by (rewrite !length_app; lia).
  rewrite write_blob_header. cbn [mbind result_bind]. pose proof (length_blob_header (a ++ b)).
  unfold kListListpackHeaderBytes.
  rewrite (copy_front (length (enc b)) junk p a (mid ++ b)) by (done || rewrite enc_app, length_app; lia).
  cbn [mbind result_bind]. rewrite Nat2Z.id.
  replace (_ - _ - _)%nat with (length (enc b)) by (rewrite Hlen, enc_app, length_app; lia).
  replace (8 + length (enc a) + length (enc mid))%nat with (8 + length (enc (a ++ mid)))%nat
    by (rewrite enc_app, length_app; lia).
  rewrite (copy_back junk p (a ++ mid) b) by (rewrite <- ?app_assoc; done || len_lia).
  cbn [mbind result_bind]. eexists. split; [done|]. rewrite <- app_assoc, <- enc_app.
  apply repr_blob; [done|]. intros Hn. rewrite Hn in E. done.
Qed.

Lemma erase_range_repr junk first n p es :
  repr p es -> exists p', erase_range junk first n p = Ret p' /\ repr p' (take first es ++ drop (first + n) es).
Proof.
  intros Hr. unfold erase_range. rewrite (unpack_repr _ _ Hr). cbn [mbind result_bind count].
  destruct (Z.leb_spec (Z.of_nat (length es)) (Z.of_nat first)) as [H1|H1]; cbn [orb].
  { exists p. split; [done|]. rewrite take_ge, drop_ge, app_nil_r by lia. done. }
  destruct (Nat.eqb_spec n 0) as [->|H2].
  { exists p. split; [done|]. by rewrite Nat.add_0_r, take_drop. }
  rewrite Nat2Z.id. set (k := Nat.min n (length es - first)).
  assert (Hes : es = take first es ++ take k (drop first es) ++ drop (first + n) es).
  { rewrite <- (take_drop first es) at 1. f_equal. rewrite <- (take_drop k (drop first es)) at 1. f_equal.
    rewrite drop_drop. destruct (Nat.le_gt_cases n (length es - first)).
    - by replace k with n by lia.
    - rewrite !drop_ge by lia. done. }
  set (a := take first es) in *. set (mid := take k (drop first es)) in *. set (b := drop (first + n) es) in *.
  assert (Ha : length a = first) by (unfold a; rewrite length_take; lia).
  assert (Hm : length mid = k) by (unfold mid; rewrite length_take, length_drop; lia).
  clearbody a mid b. rewrite Hes in Hr. pose proof (offset_of_repr _ _ _ Hr) as Ho. rewrite Ha in Ho. rewrite Ho.
  cbn [mbind result_bind]. rewrite (mem_repr _ _ Hr) by (destruct a, mid; done || (simpl in *; lia)).
  pose proof (proj1 Hr) as (_ & _ & HF). rewrite !Forall_app in HF. destruct HF as (_ & HFm & _).
  pose proof (offset_from_enc (blob_header (a ++ mid ++ b)) a mid (enc b) (length_blob_header _) HFm) as Hof.
  rewrite Hm in Hof. rewrite !enc_app, Hof. cbn [mbind result_bind].
  replace (length (enc a) + length (enc mid) - length (enc a))%nat with (length (enc mid)) by lia.
  destruct (erase_range_at_repr junk p a mid b Hr) as (p' & He & Hp'); [intros ->; simpl in Hm; lia|].
  exists p'. split; [|done]. rewrite <- Hm. by rewrite <- Hes in He.
Qed.

Lemma concat_refines junk other max_entries mb p es os :
  repr p es -> repr other os -> mb <= 2 ^ 32 ->
  refines (concat junk other max_entries mb p) (spec_concat os max_entries mb es).
Proof.
  intros Hr Ho Hmb. unfold concat, spec_concat. rewrite (unpack_repr _ _ Hr), (unpack_repr _ _ Ho).
  cbn [mbind result_bind len count].
  rewrite length_app, Nat2Z.inj_add. destruct (_ || (65535 <? _)) eqn:E; [by exists p|]. cbn [orb].
  rewrite orb_false_iff, !Z.ltb_ge in E. destruct E as [E1 E2].
  assert (Hlen : length (enc (es ++ os)) = (length (enc es) + length (enc os))%nat) by (by rewrite enc_app, length_app).
  rewrite length_blob. replace (8 + (Z.of_nat (length (enc es)) + Z.of_nat (length (enc os))))
    with (Z.of_nat (8 + length (enc (es ++ os)))) by lia.
  destruct (Z.ltb_spec mb (Z.of_nat (8 + length (enc (es ++ os))))) as [E3|E3]; [by exists p|].
  assert (Hf : fits (es ++ os)).
  { apply fits_intro; [rewrite length_app; lia|rewrite length_blob; lia|]. apply Forall_app.
    split; [apply (proj1 Hr)|apply (proj1 Ho)]. }
  destruct (Z.eqb_spec (Z.of_nat (length os)) 0) as [E4|E4].
  { assert (os = []) as -> by (apply nil_length_inv; lia). exists p. by rewrite app_nil_r. }
  assert (Hos : os <> []) by (by intros ->).
  destruct (Z.eqb_spec (Z.of_nat (length es)) 0) as [E5|E5].
  { assert (es = []) as -> by (apply nil_length_inv; lia). cbn [app].
    pose proof (mem_repr _ _ Ho Hos) as Hm. destruct other as [m|]; [|destruct Ho as [_ Ho]; by destruct os].
    change (mem (Some m)) with m in Hm. unfold memcpy, alloc_blob, kListListpackHeaderBytes. rewrite Nat2Z.id.
    assert (Hl : length m = (8 + length (enc os))%nat) by (rewrite Hm, length_app, length_blob_header; lia).
    rewrite <- Hl. unfold load. rewrite slice_full. cbn [of_option mbind result_bind].
    rewrite <- (app_nil_l (fresh_bytes junk (length m))), (store_next 0) by (done || lia). cbn [mbind result_bind].
    eexists. split; [done|]. by rewrite app_nil_r. }
  assert (Hes : es <> []) by (by intros ->).
  rewrite (wrap_small 32), (wrap_small 16) by lia.
  replace (Z.of_nat (length (enc es)) + Z.of_nat (length (enc os))) with (Z.of_nat (length (enc (es ++ os)))) by lia.
  rewrite <- Nat2Z.inj_add, <- length_app, write_blob_header. cbn [mbind result_bind]. rewrite !Nat2Z.id.
  pose proof (length_blob_header (es ++ os)). unfold kListListpackHeaderBytes.
  rewrite (memcpy_next (length (enc os)) junk _ _ (enc es)); [|apply (load_front p es []); [by rewrite app_nil_r|done]|done|done].
  cbn [mbind result_bind]. rewrite (memcpy_next 0 junk _ _ (enc os)); [|by apply (load_tail other [] os)|len_lia|lia].
  cbn [mbind result_bind]. eexists. split; [done|].
  change (fresh_bytes junk 0) with (@nil byte). rewrite app_nil_r, <- app_assoc, <- enc_app. apply repr_blob; [done|]. by destruct es.
Qed.

(** ** Encoded values as entries *)

Definition payload_of (e : EncodedString) : bytes := if skip_prefix e then source_ e else write_to e.
Definition stored_entry (e : EncodedString) : entry := (is_raw e, payload_of e).

Section Encoded.
Context {L : LZ4} {LC : LZ4Correct L}.

Lemma write_stored_spec value options mode e :
  encode value options mode = Ret e ->
  write_stored e = Ret (payload_of e) /\ stored_size e = Z.of_nat (length (payload_of e)) /\
  Z.of_nat (length (payload_of e)) <= 65535.
Proof.
  intros He. destruct (encode_size _ _ _ _ He) as (Hsz & Hle & Hin).
  assert (Hw : write_stored e = Ret (payload_of e) /\ stored_size e = Z.of_nat (length (payload_of e))); [|
    destruct Hw as [? Hs]; split_and!; try done; rewrite <- Hs; unfold stored_size; destruct (skip_prefix e); simpl; lia].
  unfold write_stored, stored_size, payload_of, skip_prefix, is_raw, es_encoding_enabled, write_to, write_range_to in *.
  destruct (storage_ e) as [| |o|o] eqn:Est; cbn [andb Z.b2z] in *.
  - rewrite Hsz, Z.sub_0_r, Nat2Z.id. split; [|done]. destruct (Nat.eqb_spec (length (source_ e)) 0) as [E|E].
    + by rewrite (nil_length_inv _ E).
    + by rewrite slice_full.
  - cbn [length] in Hsz. rewrite Hsz. replace (Z.of_nat (S _) - 1) with (Z.of_nat (length (source_ e))) by lia.
    rewrite Nat2Z.id. split; [|done]. destruct (Nat.eqb_spec (length (source_ e)) 0) as [E|E].
    + by rewrite (nil_length_inv _ E).
    + cbn [Nat.eqb]. change (1 - 1)%nat with 0%nat. by rewrite slice_full.
  - rewrite (Hin _ eq_refl) in Hsz |- *. rewrite Hsz, Z.sub_0_r, Nat2Z.id. split; [|done].
    destruct (Nat.eqb_spec (length o) 0) as [E|E]; [by rewrite (nil_length_inv _ E)|by rewrite slice_full].
  - rewrite Hsz, Z.sub_0_r, Nat2Z.id. split; [|done].
    destruct (Nat.eqb_spec (length o) 0) as [E|E]; [by rewrite (nil_length_inv _ E)|by rewrite slice_full].
Qed.

Lemma insert_refines junk index value max_entries encoding mode mb p es :
  repr p es -> mb <= 2 ^ 32 ->
  refines (insert junk index value max_entries encoding mode mb p)
          (e ← encode value encoding mode; spec_insert index (stored_entry e) max_entries mb es).
Proof.
  intros Hr Hmb. unfold insert. destruct (encode value encoding mode) as [e|m|] eqn:He; [|done..].
  cbn [mbind result_bind]. destruct (write_stored_spec _ _ _ _ He) as (Hw & Hs & _). rewrite Hw, Hs.
  by apply insert_prepared_refines.
Qed.

Lemma set_refines junk index value encoding mode mb p es :
  repr p es -> mb <= 2 ^ 32 ->
  refines (set junk index value encoding mode mb p)
          (e ← encode value encoding mode; spec_set index (stored_entry e) mb es).
Proof.
  intros Hr Hmb. unfold set. destruct (encode value encoding mode) as [e|m|] eqn:He; [|done..].
  cbn [mbind result_bind]. destruct (write_stored_spec _ _ _ _ He) as (Hw & Hs & _). rewrite Hw, Hs.
  by apply set_prepared_refines.
Qed.

(** The entry of an already encoded value. *)
Definition encoded_entry (v : EncodedStringView) : entry :=
  (view_is_raw v, if view_is_raw v && encoding_enabled_ v then drop 1 (view_bytes v) else view_bytes v).

Lemma insert_encoded_refines junk index v max_entries mb p es :
  repr p es -> mb <= 2 ^ 32 ->
  refines (insert_encoded junk index v max_entries mb p)
          (if valid v then spec_insert index (encoded_entry v) max_entries mb es else Ret (false, es)).
Proof.
  intros Hr Hmb. unfold insert_encoded. destruct (valid v) eqn:Hv; cbn [negb]; [|by exists p].
  set (k := view_is_raw v && encoding_enabled_ v).
  assert (Hk : k = true -> (1 <= encoded_size v)%nat).
  { intros [_ He]%andb_true_iff. unfold valid in Hv. rewrite He in Hv. cbn [negb] in Hv.
    destruct (encoded_size v); [done|lia]. }
  assert (Hpl : copy_range v (if k then 1 else 0) (Z.to_nat (Z.of_nat (encoded_size v) - Z.b2z k)) = Some (encoded_entry v).2
    /\ Z.of_nat (encoded_size v) - Z.b2z k = Z.of_nat (length (encoded_entry v).2)).
  { unfold encoded_entry. cbn [snd]. fold k. rewrite encoded_size_bytes in *. destruct k; simpl Z.b2z.
    - specialize (Hk eq_refl). rewrite length_drop. split; [|lia].
      rewrite copy_range_slice by (rewrite encoded_size_bytes; lia). unfold slice.
      rewrite decide_True by lia. rewrite take_ge; [done|]. rewrite length_drop. lia.
    - rewrite Z.sub_0_r, Nat2Z.id. split; [|done].
      rewrite copy_range_slice by (rewrite encoded_size_bytes; lia). by rewrite slice_full. }
  destruct Hpl as [-> ->]. cbn [of_option]. by apply insert_prepared_refines.
Qed.

(** ** Building a blob at once *)

Lemma write_entries_next junk (es : list entry) w dst :
  Forall (fun e => Z.of_nat (length e.2) <= 65535) es -> dst = length w ->
  write_entries ((fun e => (Z.of_nat (length e.2), e.1, Ret e.2)) <$> es) dst (w ++ fresh_bytes junk (length (enc es))) =
  Ret (w ++ enc es).
Proof.
  intros HF. revert w dst. induction HF as [|[r pl] es He HF IH]; intros w dst ->; [done|].
  cbn [fmap list_fmap write_entries fst snd]. rewrite enc_cons.
  rewrite (write_entry_next (length (enc es))) by (done || by rewrite length_app). cbn [mbind result_bind].
  rewrite IH; [by rewrite <- app_assoc|]. rewrite <- length_entry_enc with (r := r), Nat2Z.id. by rewrite length_app.
Qed.

(** The limits [assign] and [assign_raw] check as they go. *)
Fixpoint within (max_blob_bytes total : Z) (es : list entry) : bool :=
  match es with
  | [] => true
  | e :: es =>
    let total := total + Z.of_nat (length (entry_enc e)) in
    (Z.of_nat (length e.2) <=? 65535) && (8 + total <=? max_blob_bytes) && within max_blob_bytes total es
  end.

Definition spec_assign (new : list entry) (max_entries max_blob_bytes : Z) (es : list entry) : result (bool * list entry) :=
  if (max_entries <? Z.of_nat (length new)) || (65535 <? Z.of_nat (length new)) || negb (within max_blob_bytes 0 new)
  then Ret (false, es) else Ret (true, new).

Lemma within_spec mb es total :
  within mb total es = true <->
  Forall (fun e => Z.of_nat (length e.2) <= 65535) es /\ (es = [] \/ 8 + total + Z.of_nat (length (enc es)) <= mb).
Proof.
  revert total. induction es as [|e es IH]; intros total; [naive_solver|]. cbn [within].
  rewrite !andb_true_iff, IH, Forall_cons, !Z.leb_le, enc_cons, length_app.
  split.
  - intros ((H1 & H2) & H3 & [->|H4]); split; auto; right; [simpl; lia|lia].
  - intros ((H1 & H2) & [?|H4]); [done|]. split_and!; auto; [lia|]. right. lia.
Qed.

Lemma assign_blob junk (new : list entry) mb :
  new <> [] -> Z.of_nat (length new) <= 65535 -> mb <= 2 ^ 32 -> within mb 0 new = true ->
  exists p, (next ← write_header (wrap 32 (Z.of_nat (length (enc new)))) (wrap 16 (Z.of_nat (length new)))
                      (alloc_blob junk (wrap 32 (Z.of_nat (length (enc new)))));
             next ← write_entries ((fun e => (Z.of_nat (length e.2), e.1, Ret e.2)) <$> new) kListListpackHeaderBytes next;
             Ret (true, Some next)) = Ret (true, p) /\ repr p new.
Proof.
  intros Hne Hc Hmb [HF [?|Hl]]%within_spec; [done|]. rewrite (wrap_small 32), (wrap_small 16) by lia.
  rewrite write_blob_header. cbn [mbind result_bind].
  rewrite write_entries_next by (done || by rewrite length_blob_header). cbn [mbind result_bind].
  eexists. split; [done|]. apply repr_blob; [|done]. apply fits_intro; [done|rewrite length_blob; lia|done].
Qed.

Lemma assign_raw_measure_spec (values : list bytes) mb total :
  0 <= total -> mb <= 2 ^ 32 -> total <= 2 ^ 32 ->
  assign_raw_measure values mb total =
  (if within mb total (pair true <$> values)
   then Some (total + Z.of_nat (length (enc (pair true <$> values)))) else None).
Proof.
  revert total. induction values as [|v values IH]; intros total H0 Hmb Ht.
  { simpl. f_equal. lia. }
  cbn [assign_raw_measure fmap list_fmap within snd]. unfold kListListpackMaxValueBytes, u64_max.
  rewrite enc_cons, length_app, <- length_entry_enc with (r := true).
  destruct (Z.ltb_spec 65535 (Z.of_nat (length v))) as [H1|H1].
  { bfalse (Z.of_nat (length v) <=? 65535). done. }
  btrue (Z.of_nat (length v) <=? 65535). pose proof (length_entry_enc true v) as He.
  unfold entry_size, entry_header_bytes in He.
  assert (Z.of_nat (length (entry_enc (true, v))) <= 65538) by (destruct (_ <=? _) in He; lia).
  bfalse (2 ^ 64 - 1 - total <? Z.of_nat (length (entry_enc (true, v)))). cbn [orb andb].
  destruct (Z.ltb_spec mb (8 + (total + Z.of_nat (length (entry_enc (true, v)))))) as [H2|H2].
  { by bfalse (8 + (total + Z.of_nat (length (entry_enc (true, v)))) <=? mb). }
  btrue (8 + (total + Z.of_nat (length (entry_enc (true, v)))) <=? mb). cbn [andb].
  rewrite IH by lia. destruct (within _ _ _); [|done]. f_equal. rewrite Nat2Z.inj_add. unfold enc, fmap. lia.
Qed.

Lemma assign_encode_spec encoding mode values encs mb total :
  Forall2 (fun v e => encode v encoding mode = Ret e) values encs ->
  0 <= total <= 2 ^ 32 -> mb <= 2 ^ 32 ->
  assign_encode values encoding mode mb total =
  Ret (if within mb total (stored_entry <$> encs)
       then Some (encs, total + Z.of_nat (length (enc (stored_entry <$> encs)))) else None).
Proof.
  intros HF. revert total. induction HF as [|v e values encs He HF IH]; intros total Ht Hmb.
  { simpl. by rewrite Z.add_0_r. }
  cbn [assign_encode fmap list_fmap within]. rewrite He. cbn [mbind result_bind].
  destruct (write_stored_spec _ _ _ _ He) as (_ & Hs & Hle). rewrite Hs. cbn [snd stored_entry].
  rewrite enc_cons, length_app, <- length_entry_enc with (r := is_raw e). fold (stored_entry e).
  pose proof (length_entry_enc (is_raw e) (payload_of e)) as Hent. fold (stored_entry e) in Hent.
  unfold entry_size, entry_header_bytes in Hent.
  assert (Z.of_nat (length (entry_enc (stored_entry e))) <= 65538) by (destruct (_ <=? _) in Hent; lia).
  unfold kListListpackMaxValueBytes, u64_max. bfalse (65535 <? Z.of_nat (length (payload_of e))).
  bfalse (2 ^ 64 - 1 - total <? Z.of_nat (length (entry_enc (stored_entry e)))). cbn [orb].
  btrue (Z.of_nat (length (payload_of e)) <=? 65535). cbn [andb].
  destruct (Z.ltb_spec mb (8 + (total + Z.of_nat (length (entry_enc (stored_entry e)))))) as [H2|H2].
  { by bfalse (8 + (total + Z.of_nat (length (entry_enc (stored_entry e)))) <=? mb). }
  btrue (8 + (total + Z.of_nat (length (entry_enc (stored_entry e)))) <=? mb). cbn [andb].
  rewrite IH by lia. cbn [mbind result_bind]. destruct (within _ _ _); [|done].
  do 3 f_equal. rewrite Nat2Z.inj_add. unfold enc, fmap. lia.
Qed.

Lemma assign_refines junk values encs max_entries encoding mode mb p es :
  Forall2 (fun v e => encode v encoding mode = Ret e) values encs -> repr p es -> mb <= 2 ^ 32 ->
  refines (assign junk values max_entries encoding mode mb p)
          (spec_assign (stored_entry <$> encs) max_entries mb es).
Proof.
  intros HF Hr Hmb. unfold assign, spec_assign. rewrite length_fmap, <- (Forall2_length _ _ _ HF).
  destruct (_ || (65535 <? _)) eqn:E; [by exists p|]. cbn [orb]. rewrite orb_false_iff, !Z.ltb_ge in E.
  rewrite (assign_encode_spec _ _ _ encs) by (done || lia). cbn [mbind result_bind].
  destruct (within mb 0 (stored_entry <$> encs)) eqn:Hw; cbn [negb]; [|by exists p].
  destruct encs as [|e encs]; [exists None; by split; [|split; [split_and!|]]|].
  set (new := stored_entry <$> e :: encs) in *.
  assert (Hitems : item_of <$> e :: encs = (fun e => (Z.of_nat (length e.2), e.1, Ret e.2)) <$> new).
  { unfold new. rewrite <- list_fmap_compose. apply list_fmap_ext. intros i x Hx.
    destruct (Forall2_lookup_r _ _ _ _ _ HF Hx) as (v & _ & He).
    destruct (write_stored_spec _ _ _ _ He) as (H1 & H2 & _). unfold item_of, compose. cbn. by rewrite H1, H2. }
  assert (Hl : length (e :: encs) = length new) by (unfold new; by rewrite length_fmap).
  rewrite Hitems, Hl, Z.add_0_l.
  destruct (assign_blob junk new mb) as (p' & Hp & Hr'); [done| |done|done|by exists p'].
  rewrite <- Hl, <- (Forall2_length _ _ _ HF). lia.
Qed.

Lemma assign_raw_refines junk values max_entries mb p es :
  repr p es -> mb <= 2 ^ 32 ->
  refines (assign_raw junk values max_entries mb p) (spec_assign (pair true <$> values) max_entries mb es).
Proof.
  intros Hr Hmb. unfold assign_raw, spec_assign. rewrite length_fmap.
  destruct (_ || (65535 <? _)) eqn:E; [by exists p|]. cbn [orb]. rewrite orb_false_iff, !Z.ltb_ge in E.
  rewrite assign_raw_measure_spec by lia.
  destruct (within mb 0 (pair true <$> values)) eqn:Hw; cbn [negb]; [|by exists p].
  destruct values as [|v values]; [exists None; by split; [|split; [split_and!|]]|].
  set (new := pair true <$> v :: values) in *.
  assert (Hitems : raw_item <$> v :: values = (fun e => (Z.of_nat (length e.2), e.1, Ret e.2)) <$> new).
  { unfold new. by rewrite <- list_fmap_compose. }
  assert (Hl : length (v :: values) = length new) by (unfold new; by rewrite length_fmap).
  rewrite Hitems, Hl, Z.add_0_l.
  destruct (assign_blob junk new mb) as (p' & Hp & Hr'); [done| |done|done|by exists p']. lia.
Qed.

(** ** Reading *)

(** One step of every reading loop: the entry after [a]. *)
Lemma loop_entry hd a e post :
  length hd = 8%nat -> Z.of_nat (length e.2) <= 65535 ->
  read_entry (8 + length (enc a)) (hd ++ enc a ++ entry_enc e ++ post) = Ret (entry_of e) /\
  (forall encoding, view_entry (8 + length (enc a)) (hd ++ enc a ++ entry_enc e ++ post) encoding = Ret (view_of encoding e)).
Proof.
  intros Hh He. rewrite app_assoc, <- Hh, <- length_app.
  split; intros; [by apply read_entry_enc|by apply view_entry_enc].
Qed.

Lemma enc_snoc a e : enc (a ++ [e]) = enc a ++ entry_enc e.
Proof. rewrite enc_app. f_equal. apply app_nil_r. Qed.

Lemma views_from_enc encoding hd a mid post :
  length hd = 8%nat -> Forall (fun e => Z.of_nat (length e.2) <= 65535) mid ->
  views_from (length mid) (length (enc a)) (hd ++ enc a ++ enc mid ++ post) encoding = Ret (view_of encoding <$> mid).
Proof.
  intros Hh HF. revert a. induction HF as [|e mid He HF IH]; intros a; [done|].
  cbn [length views_from]. rewrite enc_cons, <- app_assoc. unfold kListListpackHeaderBytes.
  destruct (loop_entry hd a e (enc mid ++ post) Hh He) as [-> Hv]. rewrite Hv. cbn [mbind result_bind].
  rewrite entry_total_enc. specialize (IH (a ++ [e])). rewrite enc_snoc, length_app, <- app_assoc in IH. by rewrite IH.
Qed.

(** The blob holds the strings [l]. *)
Definition holds (encoding : Z) (p : ListListpack) (l : list bytes) : Prop :=
  exists es, repr p es /\ Forall2 (fun e s => reads_as (view_of encoding e) s) es l.

Lemma find_from_enc encoding value hd a mid post strs index :
  length hd = 8%nat -> Forall (fun e => Z.of_nat (length e.2) <= 65535) mid ->
  Forall2 (fun e s => reads_as (view_of encoding e) s) mid strs ->
  find_from (length mid) index (length (enc a)) (hd ++ enc a ++ enc mid ++ post) value encoding =
  Ret ((fun x => (index + x.1)%nat) <$> list_find (fun s => s = value) strs).
Proof.
  intros Hh HF HF2. revert a index HF. induction HF2 as [|e s mid strs Hs HF2 IH]; intros a index HF; [done|].
  apply Forall_cons in HF as [He HF]. cbn [length find_from]. rewrite enc_cons, <- app_assoc. unfold kListListpackHeaderBytes.
  destruct (loop_entry hd a e (enc mid ++ post) Hh He) as [-> Hv]. rewrite Hv. cbn [mbind result_bind].
  rewrite (equals_reads _ _ value Hs). cbn [mbind result_bind list_find]. case_decide as Hd.
  - rewrite bool_decide_true by done. simpl. by rewrite Nat.add_0_r.
  - rewrite bool_decide_false by done. rewrite entry_total_enc.
    specialize (IH (a ++ [e]) (S index) HF). rewrite enc_snoc, length_app, <- app_assoc in IH. rewrite IH.
    f_equal. destruct (list_find _ strs) as [[i x]|]; simpl; f_equal; lia.
Qed.

(** The last hit of a scan, with the answer found so far. *)
Fixpoint last_hit (value : bytes) (strs : list bytes) (index : nat) (answer : option nat) : option nat :=
  match strs with
  | [] => answer
  | s :: strs => last_hit value strs (S index) (if bool_decide (s = value) then Some index else answer)
  end.

Lemma find_last_from_enc encoding value hd a mid post strs index answer :
  length hd = 8%nat -> Forall (fun e => Z.of_nat (length e.2) <= 65535) mid ->
  Forall2 (fun e s => reads_as (view_of encoding e) s) mid strs ->
  find_last_from (length mid) index (length (enc a)) answer (hd ++ enc a ++ enc mid ++ post) value encoding =
  Ret (last_hit value strs index answer).
Proof.
  intros Hh HF HF2. revert a index answer HF. induction HF2 as [|e s mid strs Hs HF2 IH]; intros a index answer HF; [done|].
  apply Forall_cons in HF as [He HF]. cbn [length find_last_from]. rewrite enc_cons, <- app_assoc. unfold kListListpackHeaderBytes.
  destruct (loop_entry hd a e (enc mid ++ post) Hh He) as [-> Hv]. rewrite Hv. cbn [mbind result_bind].
  rewrite (equals_reads _ _ value Hs). cbn [mbind result_bind last_hit]. rewrite entry_total_enc.
  specialize (IH (a ++ [e])). rewrite enc_snoc, length_app, <- app_assoc in IH. by rewrite IH.
Qed.

(** [i] is the last occurrence of [value] before [stop], and there is none otherwise. *)
Definition is_last (value : bytes) (l : list bytes) (stop : nat) (answer : option nat) : Prop :=
  match answer with
  | Some i => l !! i = Some value /\ (i < stop)%nat /\ forall j, (i < j < stop)%nat -> l !! j <> Some value
  | None => forall j, (j < stop)%nat -> l !! j <> Some value
  end.

Lemma last_hit_spec value done_ strs answer :
  is_last value (done_ ++ strs) (length done_) answer ->
  is_last value (done_ ++ strs) (length (done_ ++ strs)) (last_hit value strs (length done_) answer).
Proof.
  revert done_ answer. induction strs as [|s strs IH]; intros done_ answer H.
  { cbn [last_hit]. by rewrite app_nil_r in *. }
  cbn [last_hit]. specialize (IH (done_ ++ [s])). rewrite <- app_assoc in IH. cbn [app] in IH.
  assert (Hl : length (done_ ++ [s]) = S (length done_)) by (rewrite length_app; simpl; lia).
  rewrite Hl in IH. apply IH.
  assert (Hmid : (done_ ++ s :: strs) !! length done_ = Some s) by (by apply list_lookup_middle).
  case_bool_decide as Hs; subst.
  - simpl. split_and!; [done|lia|]. intros j Hj. lia.
  - destruct answer as [i|]; simpl in *.
    + destruct H as (H1 & H2 & H3). split_and!; [done|lia|]. intros j Hj.
      destruct (decide (j = length done_)) as [->|]; [congruence|]. apply H3. lia.
    + intros j Hj. destruct (decide (j = length done_)) as [->|]; [congruence|]. apply H. lia.
Qed.
End Encoded.

(** ** The properties *)

Section Claims.
Context {L : LZ4} {LC : LZ4Correct L} (junk : byte).

Lemma holds_repr encoding p l : holds encoding p l -> exists es, repr p es /\ length es = length l /\
  Forall2 (fun e s => reads_as (view_of encoding e) s) es l.
Proof. intros (es & Hr & HF). exists es. split_and!; [done|by eapply Forall2_length|done]. Qed.

(** The count of a blob has sixteen bits. *)
Lemma holds_small encoding p l : holds encoding p l -> Z.of_nat (length l) <= 65535.
Proof. intros (es & [[Hn _] _] & Hlen & _)%holds_repr. by rewrite <- Hlen. Qed.

Lemma views_all encoding p es (Hr : repr p es) a mid b :
  es = a ++ mid ++ b -> views_from (length mid) (length (enc a)) (mem p) encoding = Ret (view_of encoding <$> mid).
Proof.
  intros ->. destruct (decide (a ++ mid ++ b = [])) as [Hn|Hn].
  { apply app_nil in Hn as [-> Hn]. by apply app_nil in Hn as [-> ->]. }
  rewrite (mem_repr _ _ Hr Hn), !enc_app. pose proof (proj1 Hr) as (_ & _ & HF). rewrite !Forall_app in HF.
  apply views_from_enc; [apply length_blob_header|tauto].
Qed.

Lemma range_split {A} first n (l : list A) :
  (first < length l)%nat -> exists a mid b, l = a ++ mid ++ b /\ length a = first /\ take n (drop first l) = mid /\
    length mid = (Nat.min (length l) (first + n) - first)%nat.
Proof.
  intros. exists (take first l), (take n (drop first l)), (drop n (drop first l)).
  rewrite !take_drop. split_and!; try done; rewrite ?length_take, ?length_drop; lia.
Qed.

(** What an encoded value reads as once it is an entry. *)
Lemma stored_entry_reads value encoding mode e :
  encode value encoding mode = Ret e -> wraps (unsigned_part value) = false ->
  reads_as (view_of encoding (stored_entry e)) value.
Proof.
  intros He Hw. eapply encode_reads; [done|done|..];
    unfold view_of, stored_entry, payload_of, skip_prefix, is_raw, es_encoding_enabled, write_to, view_bytes;
    destruct (encode_cases _ _ _ _ He) as (Hs & [(Hst & Hen & _)|(Hen & [(out & Hst & _)|[(out & Hst & _)|[(out & Hst & _)|(Hst & _)]]])]);
    rewrite Hst, Hen; cbn [fst snd andb encoding_enabled_ head_ tail_ app]; by rewrite ?app_nil_r.
Qed.

(** Every operation that rebuilds or patches the blob acts on it as the
    corresponding list operation acts on the entries, fails in exactly the same
    cases (too long a value, too many entries, too large a blob) leaving the
    list as it was, throws exactly when encoding throws, and never touches
    memory outside the old and the new blob. *)
Theorem listpack_updates_refine p es other os max_entries mb encoding mode :
  repr p es -> repr other os -> mb <= 2 ^ 32 ->
  (forall index value, refines (insert junk index value max_entries encoding mode mb p)
     (e ← encode value encoding mode; spec_insert index (stored_entry e) max_entries mb es)) /\
  (forall index v, refines (insert_encoded junk index v max_entries mb p)
     (if valid v then spec_insert index (encoded_entry v) max_entries mb es else Ret (false, es))) /\
  (forall index value, refines (set junk index value encoding mode mb p)
     (e ← encode value encoding mode; spec_set index (stored_entry e) mb es)) /\
  (forall values encs, Forall2 (fun v e => encode v encoding mode = Ret e) values encs ->
     refines (assign junk values max_entries encoding mode mb p)
             (spec_assign (stored_entry <$> encs) max_entries mb es)) /\
  (forall values, refines (assign_raw junk values max_entries mb p)
     (spec_assign (pair true <$> values) max_entries mb es)) /\
  refines (concat junk other max_entries mb p) (spec_concat os max_entries mb es).
Proof.
  intros Hr Ho Hmb. split_and!; intros.
  - by apply insert_refines.
  - by apply insert_encoded_refines.
  - by apply set_refines.
  - by apply assign_refines.
  - by apply assign_raw_refines.
  - by apply concat_refines.
Qed.

(** Storing a string.  In a blob that holds the strings [l], an insertion or
    replacement within bounds either reports failure and leaves [l], or succeeds
    and the blob holds the updated list. *)
Theorem listpack_store_strings encoding p l index value mode max_entries mb e :
  holds encoding p l -> mb <= 2 ^ 32 -> encode value encoding mode = Ret e -> wraps (unsigned_part value) = false ->
  ((index <= length l)%nat -> exists ok p', insert junk index value max_entries encoding mode mb p = Ret (ok, p') /\
     holds encoding p' (if ok : bool then take index l ++ value :: drop index l else l)) /\
  ((index < length l)%nat -> exists ok p', set junk index value encoding mode mb p = Ret (ok, p') /\
     holds encoding p' (if ok : bool then <[index:=value]> l else l)).
Proof.
  intros (es & Hr & Hlen & HF)%holds_repr Hmb He Hw. pose proof (stored_entry_reads _ _ _ _ He Hw) as Hre. split; intros Hi.
  - pose proof (insert_refines junk index value max_entries encoding mode mb p es Hr Hmb) as H.
    rewrite He in H. cbn [mbind result_bind] in H. unfold spec_insert in H.
    rewrite (proj2 (Z.leb_le _ _)) in H by lia. cbn [assert_ mbind result_bind] in H.
    revert H. destruct (_ || _); intros (p' & -> & Hr'); eexists _, p'; (split; [done|]).
    + by exists es.
    + eexists. split; [done|]. unfold insert_at. apply Forall2_app; [by apply Forall2_take|].
      constructor; [done|by apply Forall2_drop].
  - pose proof (set_refines junk index value encoding mode mb p es Hr Hmb) as H.
    rewrite He in H. cbn [mbind result_bind] in H. unfold spec_set in H.
    rewrite (proj2 (Z.ltb_lt (Z.of_nat index) _)) in H by lia. cbn [assert_ mbind result_bind] in H.
    revert H. destruct (_ || _); intros (p' & -> & Hr'); eexists _, p'; (split; [done|]).
    + by exists es.
    + eexists. split; [done|]. by apply Forall2_insert.
Qed.

(** Removal.  [erase] returns the string at the index and removes it;
    [erase_range] removes the requested part of the list, whatever the bounds. *)
Theorem listpack_erase_correct encoding p l :
  holds encoding p l ->
  (forall index s, l !! index = Some s -> exists p', erase junk index encoding p = Ret (s, p') /\
     holds encoding p' (delete index l)) /\
  (forall first n, exists p', erase_range junk first n p = Ret p' /\
     holds encoding p' (take first l ++ drop (first + n) l)).
Proof.
  intros (es & Hr & Hlen & HF)%holds_repr. split.
  - intros index s Hs. destruct (Forall2_lookup_r _ _ _ _ _ HF Hs) as (e & He & Hre).
    destruct (list_elem_of_split_length es index e He) as (a & b & -> & ->).
    unfold erase. rewrite (unpack_repr _ _ Hr). cbn [mbind result_bind count len].
    rewrite length_app. cbn [length]. btrue (Z.of_nat (length a) <? Z.of_nat (length a + S (length b))).
    cbn [assert_ mbind result_bind]. rewrite (offset_of_repr _ _ _ Hr). cbn [mbind result_bind].
    destruct (entry_at_repr _ _ _ _ Hr) as [He1 He2]. unfold kListListpackHeaderBytes. rewrite He1, He2. cbn [mbind result_bind].
    destruct Hre as (_ & _ & Hts). rewrite Hts. cbn [mbind result_bind]. rewrite entry_total_enc.
    destruct (erase_range_at_repr junk p a [e] b Hr) as (p' & Hp & Hr'); [done|]. cbn [app] in Hp.
    rewrite !length_app in Hp. cbn [length] in Hp. change (enc [e]) with (entry_enc e ++ []) in Hp. rewrite app_nil_r in Hp.
    change (Z.of_nat 1) with 1 in Hp.
    rewrite Hp. cbn [mbind result_bind]. exists p'. split; [done|]. exists (a ++ b). split; [done|].
    apply (Forall2_delete _ _ _ (length a)) in HF. by rewrite delete_middle in HF.
  - intros first n. destruct (erase_range_repr junk first n p es Hr) as (p' & Hp & Hr').
    exists p'. split; [done|]. eexists. split; [done|]. apply Forall2_app; [by apply Forall2_take|by apply Forall2_drop].
Qed.
(** Reading.  On a blob that holds the strings [l], the size is the length
    of [l], [at] gives the string at an index, [for_each] and [for_range] visit
    the strings of their range in order, [find_first] and [find_last] give the
    first occurrence from a start index and the last one before an end index. *)
Theorem listpack_reads_correct encoding p l :
  holds encoding p l ->
  size p = Ret (Z.of_nat (length l)) /\
  (forall index s, l !! index = Some s -> exists v, at_ index encoding p = Ret v /\ reads_as v s) /\
  (exists vs, for_each encoding p = Ret vs /\ Forall2 reads_as vs l) /\
  (forall first n, Z.of_nat first + Z.of_nat n < 2 ^ 64 -> exists vs, for_range first n encoding p = Ret vs /\ Forall2 reads_as vs (take n (drop first l))) /\
  (forall value first, find_first value first encoding p =
     Ret ((fun x => (first + x.1)%nat) <$> list_find (fun s => s = value) (drop first l))) /\
  (forall value stop, exists answer, find_last value stop encoding p = Ret answer /\
     is_last value (take stop l) (length (take stop l)) answer).
Proof.
  intros (es & Hr & Hlen & HF)%holds_repr. pose proof (unpack_repr _ _ Hr) as Hu.
  pose proof (proj1 Hr) as (_ & _ & HFl). split_and!.
  - unfold size. rewrite Hu. simpl. by rewrite Hlen.
  - intros index s Hs. destruct (Forall2_lookup_r _ _ _ _ _ HF Hs) as (e & He & Hre).
    destruct (list_elem_of_split_length es index e He) as (a & b & -> & ->). exists (view_of encoding e). split; [|done].
    unfold at_. rewrite Hu. cbn [mbind result_bind count]. rewrite length_app. cbn [length].
    btrue (Z.of_nat (length a) <? Z.of_nat (length a + S (length b))). cbn [assert_ mbind result_bind].
    rewrite (offset_of_repr _ _ _ Hr). by apply (entry_at_repr _ _ _ _ Hr).
  - exists (view_of encoding <$> es). split; [|by apply Forall2_fmap_l].
    unfold for_each. rewrite Hu. cbn [mbind result_bind count]. rewrite Nat2Z.id. apply (views_all _ _ _ Hr [] es []). by rewrite app_nil_r.
  - intros first n Hsum. unfold for_range. rewrite size_add_small by done. rewrite Hu. cbn [mbind result_bind count]. rewrite Hlen.
    destruct (Z.leb_spec (Z.of_nat (length l)) (Z.of_nat first)) as [H1|H1]; cbn [orb].
    { exists []. rewrite drop_ge by lia. by rewrite take_nil. }
    destruct (Nat.eqb_spec n 0) as [->|H2]; [by exists []|].
    exists (view_of encoding <$> take n (drop first es)). split; [|by apply Forall2_fmap_l, Forall2_take, Forall2_drop].
    rewrite Nat2Z.id, <- Hlen. destruct (range_split first n es) as (a & mid & b & He & Ha & Hm & Hml); [lia|].
    rewrite He in Hr at 1. pose proof (offset_of_repr _ _ _ Hr) as Ho. rewrite Ha in Ho. rewrite Ho. cbn [mbind result_bind]. rewrite <- Hml, Hm. by apply (views_all _ _ _ Hr a mid b).
  - intros value first. unfold find_first. rewrite Hu. cbn [mbind result_bind count]. rewrite Hlen.
    destruct (Z.leb_spec (Z.of_nat (length l)) (Z.of_nat first)) as [H1|H1]; [by rewrite drop_ge by lia|].
    rewrite Nat2Z.id. pose proof Hr as Hr0. rewrite <- (take_drop first es) in Hr0.
    pose proof (offset_of_repr _ _ _ Hr0) as Ho. rewrite length_take, Nat.min_l in Ho by lia. rewrite Ho. cbn [mbind result_bind].
    rewrite (mem_repr _ _ Hr) by (intros ->; simpl in *; lia).
    pose proof (find_from_enc encoding value (blob_header es) (take first es) (drop first es) [] (drop first l) first
      (length_blob_header _) (Forall_drop _ _ _ HFl) (Forall2_drop _ _ _ _ HF)) as Hf.
    rewrite length_drop, app_nil_r, <- enc_app, take_drop, Hlen in Hf. exact Hf.
  - intros value stop. unfold find_last. rewrite Hu. cbn [mbind result_bind count]. rewrite Nat2Z.id.
    eexists. split; [|apply (last_hit_spec value [] (take stop l) None); simpl; lia].
    destruct es as [|e es']; [by rewrite Nat.min_0_r; destruct l; [rewrite take_nil|]|].
    rewrite (mem_repr _ _ Hr) by done.
    pose proof (find_last_from_enc encoding value (blob_header (e :: es')) [] (take stop (e :: es')) (enc (drop stop (e :: es')))
      (take stop l) 0 None (length_blob_header _) (Forall_take _ _ _ HFl) (Forall2_take _ _ _ _ HF)) as Hf.
    rewrite length_take, <- (enc_app (take stop _)), take_drop in Hf. exact Hf.
Qed.

End Claims.

(** A blob of two values, as the code builds it. *)
Example lp_ex : ListListpack :=
  match @assign copy_lz4 x00 [str "hello"; str "42"] 128 Options.default AllowLz4 kListListpackMaxBlobBytes None with
  | Ret (_, p) => p
  | _ => None
  end.

Lemma lp_ex_repr : repr lp_ex [(true, str "hello"); (false, [b8 42])].
Proof. split; [split_and!; [simpl; lia|vm_compute; reflexivity|repeat constructor; simpl; lia]|vm_compute; reflexivity]. Qed.

Lemma lp_ex_holds : @holds copy_lz4 Options.default lp_ex [str "hello"; str "42"].
Proof.
  eexists. split; [apply lp_ex_repr|]. repeat constructor; vm_compute; reflexivity.
Qed.

Lemma listpack_updates_refine_witness :
  refines (@insert copy_lz4 x00 1 (str "x") 128 Options.default AllowLz4 kListListpackMaxBlobBytes lp_ex)
          (Ret (true, [(true, str "hello"); (true, str "x"); (false, [b8 42])])).
Proof.
  refine (eq_rect _ (refines _) (proj1 (@listpack_updates_refine copy_lz4 copy_lz4_correct x00 lp_ex _ lp_ex _ 128
    kListListpackMaxBlobBytes Options.default AllowLz4 lp_ex_repr lp_ex_repr _) 1%nat (str "x")) _ _).
  - vm_compute. discriminate.
  - vm_compute. reflexivity.
Defined.

Lemma listpack_store_strings_witness :
  exists ok p', @insert copy_lz4 x00 1 (str "x") 128 Options.default AllowLz4 kListListpackMaxBlobBytes lp_ex = Ret (ok, p') /\
    @holds copy_lz4 Options.default p' (if ok : bool then [str "hello"; str "x"; str "42"] else [str "hello"; str "42"]).
Proof.
  eapply (@listpack_store_strings copy_lz4 copy_lz4_correct x00 Options.default lp_ex [str "hello"; str "42"] 1 (str "x")
    AllowLz4 128 kListListpackMaxBlobBytes).
  - apply lp_ex_holds.
  - vm_compute. discriminate.
  - vm_compute. reflexivity.
  - vm_compute. reflexivity.
  - simpl. lia.
Defined.

Lemma listpack_erase_correct_witness :
  exists p', @erase copy_lz4 x00 0 Options.default lp_ex = Ret (str "hello", p') /\
    @holds copy_lz4 Options.default p' [str "42"].
Proof.
  apply (@listpack_erase_correct copy_lz4 x00 Options.default lp_ex _ lp_ex_holds). reflexivity.
Defined.

Lemma listpack_reads_correct_witness :
  @find_first copy_lz4 (str "42") 0 Options.default lp_ex = Ret (Some 1%nat).
Proof. apply (@listpack_reads_correct copy_lz4 Options.default lp_ex _ lp_ex_holds). Defined.
