(* ===== verification/RingBuffer.v ===== *)
(** * Shared-memory rings

    [include/goblin/core/ring_buffer.hpp]: one direction of the
    single-producer/single-consumer ring ([Producer], [Consumer]), the sizes, and
    the reconnect handshake of [Mapping].  The mapping calls themselves (open,
    mmap, mlock) are the operating system's.

    A ring is shared by two processes.  The shared part is the two index words
    and the data region; each endpoint has its private copy of the indices.  The
    step relation at the end interleaves the two endpoints at the granularity
    of their atomic accesses: the producer's load of the consumer's head, its
    writes to the region, its store of the tail; the consumer's load of the
    tail with the reads that follow it, its stores of the head.  The stores
    are releases and the loads acquires, so a load that sees an index also sees
    the writes before it, which is what an interleaving gives.

    The indices are 64-bit counters and all index arithmetic wraps. *)

From Stdlib Require Import ZArith Lia.
From S2P Require Import Prelude ParseInt.

Local Open Scope Z_scope.

Definition kCacheLine : Z := 64.
Definition kFlagData : Z := 0.
Definition kFlagWrap : Z := 1.

(** ** Sizes *)

Definition align_up (x a : Z) : Z := Z.land (wrap 64 (x + (a - 1))) (wrap 64 (Z.lnot (a - 1))).

(** [std::from_chars] on a run of digits: out of range is an error. *)
Definition from_chars_u64 (digits : bytes) : option Z :=
  let v := dec_val digits in if v <? 2 ^ 64 then Some v else None.

Definition ascii_lower (b : byte) : byte :=
  if (65 <=? u8 b) && (u8 b <=? 90) then b8 (u8 b + 32) else b.
Definition ieq (suffix s : bytes) : bool := bool_decide (ascii_lower <$> suffix = s).

Fixpoint digit_run (text : bytes) : nat :=
  match text with b :: rest => if is_digit b then S (digit_run rest) else O | [] => O end.

Definition parse_size (text : bytes) : option Z :=
  let digits := digit_run text in
  if (digits =? 0)%nat then None
  else
    match from_chars_u64 (take digits text) with
    | None => None
    | Some value =>
      let suffix := drop digits text in
      let mult :=
        if bool_decide (suffix = []) || ieq suffix (str "b") then Some 1
        else if ieq suffix (str "k") || ieq suffix (str "kb") then Some 1024
        else if ieq suffix (str "m") || ieq suffix (str "mb") then Some (1024 * 1024)
        else if ieq suffix (str "g") || ieq suffix (str "gb") then Some (1024 * 1024 * 1024)
        else None in
      match mult with
      | None => None
      | Some mult =>
        if negb (value =? 0) && (u64_max / mult <? value) then None
        else Some (wrap 64 (value * mult))
      end
    end.

(** [std::bit_ceil]. *)
Definition bit_ceil (x : Z) : Z := if x <=? 1 then 1 else 2 ^ Z.log2_up x.
Definition capacity_for (page_size bytes_ : Z) : Z :=
  bit_ceil (if bytes_ <? page_size then page_size else bytes_).

(** ** The data region

    In mirror mode the region is mapped twice back to back, so that the bytes
    at [i] and [capacity + i] are the same. *)
Definition region_load (mirror : bool) (off len : nat) (data : bytes) : result bytes :=
  if mirror then load off len (data ++ data) else load off len data.

Definition region_store (mirror : bool) (off : nat) (bs data : bytes) : result bytes :=
  if mirror && (length data <? off + length bs)%nat then
    _ ← assert_ (off <=? length data)%nat;
    let first := (length data - off)%nat in
    data ← store off (take first bs) data;
    store 0 (drop first bs) data
  else store off bs data.

Definition region_u32 (mirror : bool) (off : nat) (data : bytes) : result Z :=
  bs ← region_load mirror off 4 data; Ret (le_val bs).

(** ** One direction of the ring *)

Record Ring := { head : Z; tail : Z; data : bytes }.
Record Producer := { cached_head_ : Z; tail_pos_ : Z }.
Record Consumer := { head_pos_ : Z }.

Section Direction.
Context (capacity_ : Z) (mirror_ : bool).

Definition mask_ : Z := capacity_ - 1.
Definition max_payload_ : Z := wrap 64 (capacity_ / 2 - kCacheLine).
Definition index (pos : Z) : nat := Z.to_nat (Z.land pos mask_).

Definition new_producer (r : Ring) : Producer := {| cached_head_ := head r; tail_pos_ := tail r |}.
Definition new_consumer (r : Ring) : Consumer := {| head_pos_ := head r |}.

(** *** [Producer::try_push], in its three atomic parts *)

Definition padded_size (payload : bytes) : Z :=
  wrap 64 (kCacheLine + align_up (Z.of_nat (length payload)) kCacheLine).

(** The free space the record needs: without the mirror, a record that would
    straddle the end also needs the rest of the lap for the filler. *)
Definition space_needed (payload : bytes) (t : Z) : Z :=
  let padded := padded_size payload in
  if mirror_ then padded
  else
    let to_end := capacity_ - Z.land t mask_ in
    if to_end <? padded then wrap 64 (to_end + padded) else padded.

Definition is_short (p : Producer) (need : Z) : bool :=
  wrap 64 (capacity_ - wrap 64 (tail_pos_ p - cached_head_ p)) <? need.

(** The space check; the consumer's head is loaded only when the snapshot is short. *)
Definition push_acquire (payload : bytes) (p : Producer) (r : Ring) : bool * Producer :=
  let need := space_needed payload (tail_pos_ p) in
  if is_short p need then
    let p := {| cached_head_ := head r; tail_pos_ := tail_pos_ p |} in
    (negb (is_short p need), p)
  else (true, p).

(** The control word: the length in the low and the flag in the high half. *)
Definition control (len flag : Z) : Z := Z.lor (wrap 32 len) (Z.shiftl flag 32).

(** The writes, and the tail to publish. *)
Definition push_write (payload : bytes) (p : Producer) (r : Ring) : result (Z * bytes) :=
  let padded := padded_size payload in
  let t := tail_pos_ p in
  let off := Z.land t mask_ in
  let to_end := capacity_ - off in
  wrapped ← (if negb mirror_ && (to_end <? padded) then
               data ← region_store mirror_ (Z.to_nat off) (le_bytes 8 (control 0 kFlagWrap)) (data r);
               Ret (wrap 64 (t + to_end), data)
             else Ret (t, data r));
  let '(t, data) := wrapped : Z * bytes in
  data ← region_store mirror_ (index t) (le_bytes 8 (control (Z.of_nat (length payload)) kFlagData)) data;
  data ← region_store mirror_ (index t + Z.to_nat kCacheLine) payload data;
  Ret (wrap 64 (t + padded), data).

Definition publish (next : Z) (p : Producer) (r : Ring) : Producer * Ring :=
  ({| cached_head_ := cached_head_ p; tail_pos_ := next |}, {| head := head r; tail := next; data := data r |}).

Definition try_push (payload : bytes) (p : Producer) (r : Ring) : result (bool * Producer * Ring) :=
  let '(ok, p) := push_acquire payload p r in
  if ok then
    written ← push_write payload p r;
    let '(next, data) := written : Z * bytes in
    let '(p, r) := publish next p {| head := head r; tail := tail r; data := data |} in
    Ret (true, p, r)
  else Ret (false, p, r).

(** *** [Consumer] *)

(** One turn of [advance_to_record]: [Some true] a record, [Some false] empty,
    [None] a filler was skipped. *)
Definition advance_once (c : Consumer) (r : Ring) : result (option bool * Consumer * Ring) :=
  let h := head_pos_ c in
  if h =? tail r then Ret (Some false, c, r)
  else if mirror_ then Ret (Some true, c, r)
  else
    let off := Z.land h mask_ in
    flag ← region_u32 mirror_ (Z.to_nat off + 4) (data r);
    if flag =? kFlagWrap then
      let h := wrap 64 (h + (capacity_ - off)) in
      Ret (None, {| head_pos_ := h |}, {| head := h; tail := tail r; data := data r |})
    else Ret (Some true, c, r).

Fixpoint advance_to_record (fuel : nat) (c : Consumer) (r : Ring) : result (bool * Consumer * Ring) :=
  match fuel with
  | O => Undef
  | S fuel =>
    turn ← advance_once c r;
    let '(stop, c, r) := turn : option bool * Consumer * Ring in
    match stop with
    | Some found => Ret (found, c, r)
    | None => advance_to_record fuel c r
    end
  end.

(** The payload of the record at the head. *)
Definition read_record (c : Consumer) (r : Ring) : result bytes :=
  len ← region_u32 mirror_ (index (head_pos_ c)) (data r);
  region_load mirror_ (index (head_pos_ c) + Z.to_nat kCacheLine) (Z.to_nat len) (data r).

(** A filler is always followed by a record, so two turns are enough. *)
Definition peek (c : Consumer) (r : Ring) : result (option bytes * Consumer * Ring) :=
  turn ← advance_to_record 2 c r;
  let '(found, c, r) := turn : bool * Consumer * Ring in
  if found : bool then
    payload ← read_record c r;
    Ret (Some payload, c, r)
  else Ret (None, c, r).

Definition pop (c : Consumer) (r : Ring) : result (Consumer * Ring) :=
  let h := head_pos_ c in
  len ← region_u32 mirror_ (index h) (data r);
  let next := wrap 64 (h + kCacheLine + align_up len kCacheLine) in
  Ret ({| head_pos_ := next |}, {| head := next; tail := tail r; data := data r |}).

(** *** [Producer::send]: the records a payload is cut into *)
Fixpoint send_pieces (fuel : nat) (payload : bytes) : list bytes :=
  match fuel with
  | O => []
  | S fuel =>
    match payload with
    | [] => []
    | _ =>
      let chunk := if Z.of_nat (length payload) <? max_payload_ then length payload else Z.to_nat max_payload_ in
      take chunk payload :: send_pieces fuel (drop chunk payload)
    end
  end.

(** The records that [send] pushes, in order.  Each is retried with [try_push]
    until it goes in; [aborted_at] is the index of the record whose wait [stop()]
    ends, if any. *)
Definition send (aborted_at : option nat) (payload : bytes) : list bytes :=
  let records := if Z.of_nat (length payload) <=? max_payload_ then [payload]
                 else send_pieces (length payload) payload in
  match aborted_at with Some n => take n records | None => records end.

(** [Producer::send_record]: one record and [true], no record and [false] when
    [stop()] ends the wait, or the [std::length_error]. *)
Definition send_record (aborted : bool) (payload : bytes) : result (bool * list bytes) :=
  if max_payload_ <? Z.of_nat (length payload) then
    Throw (str "ring record (" ++ to_chars_u64 (Z.of_nat (length payload)) ++
           str " bytes) exceeds the ring's maximum record size (" ++ to_chars_u64 max_payload_ ++
           str " bytes); enlarge the ring")
  else if aborted then Ret (false, []) else Ret (true, [payload]).

End Direction.

(** ** The header of a mapping and the reconnect handshake *)

Record Header := { epoch : Z; epoch_ack : Z; sq : Ring; cq : Ring }.

Definition request_reconnect (h : Header) : Z * Header :=
  let next := wrap 64 (epoch h + 1) in
  (next, {| epoch := next; epoch_ack := epoch_ack h; sq := sq h; cq := cq h |}).

Definition reconnect_acked (h : Header) (e : Z) : bool := epoch_ack h =? e.

Definition ack_epoch (e : Z) (h : Header) : Header :=
  {| epoch := epoch h; epoch_ack := e; sq := sq h; cq := cq h |}.

Definition drain_for_reconnect (h : Header) : Header :=
  {| epoch := epoch h; epoch_ack := epoch_ack h;
     sq := {| head := tail (sq h); tail := tail (sq h); data := data (sq h) |};
     cq := {| head := head (cq h); tail := head (cq h); data := data (cq h) |} |}.

(** [Mapping::create]: all indices and epochs zero. *)
Definition create (sq_cap cq_cap : nat) : Header :=
  {| epoch := 0; epoch_ack := 0;
     sq := {| head := 0; tail := 0; data := replicate sq_cap x00 |};
     cq := {| head := 0; tail := 0; data := replicate cq_cap x00 |} |}.

(** ** Positions and cells

    The proofs follow the unbounded positions behind the 64-bit indices. *)

Section Proofs.
Context (k : Z) (mirror_ : bool).
Hypothesis Hk : 7 <= k <= 62.
Let capacity_ : Z := 2 ^ k.

Lemma capacity_bounds : 128 <= capacity_ <= 2 ^ 62.
Proof.
  unfold capacity_. change 128 with (2 ^ 7). split; apply Z.pow_le_mono_r; lia.
Qed.

Lemma capacity_divides : (capacity_ | 2 ^ 64).
Proof. exists (2 ^ (64 - k)). unfold capacity_. rewrite <- Z.pow_add_r by lia. f_equal. lia. Qed.

Lemma capacity_line : (64 | capacity_).
Proof. exists (2 ^ (k - 6)). unfold capacity_. change 64 with (2 ^ 6). rewrite <- Z.pow_add_r by lia. f_equal. lia. Qed.

Lemma mod_wrap x : wrap 64 x mod capacity_ = x mod capacity_.
Proof. unfold wrap. apply Z.mod_mod_divide, capacity_divides. Qed.

Lemma land_mask x : Z.land (wrap 64 x) (mask_ capacity_) = x mod capacity_.
Proof.
  unfold mask_. rewrite <- mod_wrap. unfold capacity_.
  replace (2 ^ k - 1) with (Z.ones k) by (rewrite Z.ones_equiv; lia). apply Z.land_ones. lia.
Qed.

Definition cell (d : bytes) (pos : Z) : option byte := d !! Z.to_nat (pos mod capacity_).

(** The bytes [bs] are at the positions from [pos] on. *)
Definition at_pos (d : bytes) (pos : Z) (bs : bytes) : Prop :=
  forall i b, bs !! i = Some b -> cell d (pos + Z.of_nat i) = Some b.

Lemma cell_mod d pos pos' : pos mod capacity_ = pos' mod capacity_ -> cell d pos = cell d pos'.
Proof. unfold cell. by intros ->. Qed.

Lemma cell_of_nat d (x : nat) : (x < Z.to_nat capacity_)%nat -> cell d (Z.of_nat x) = d !! x.
Proof. intros. unfold cell. rewrite Z.mod_small by lia. by rewrite Nat2Z.id. Qed.

Lemma at_pos_app d pos a b : at_pos d pos (a ++ b) <-> at_pos d pos a /\ at_pos d (pos + Z.of_nat (length a)) b.
Proof.
  split.
  - intros H. split; intros i x Hx.
    + apply H. by apply lookup_app_l_Some.
    + replace (pos + Z.of_nat (length a) + Z.of_nat i) with (pos + Z.of_nat (length a + i)) by lia.
      apply H. rewrite lookup_app_r by lia. by replace (length a + i - length a)%nat with i by lia.
  - intros [Ha Hb] i x [Hx|[Hl Hx]]%lookup_app_Some; [by apply Ha|].
    specialize (Hb _ _ Hx). by replace (pos + Z.of_nat (length a) + Z.of_nat (i - length a)) with (pos + Z.of_nat i) in Hb by lia.
Qed.

(** A load of bytes that are there; in mirror mode the second copy continues the first. *)
Lemma region_load_at d pos off bs :
  length d = Z.to_nat capacity_ -> at_pos d pos bs -> pos mod capacity_ = Z.of_nat off mod capacity_ ->
  (off + length bs <= (if mirror_ then 2 else 1) * Z.to_nat capacity_)%nat ->
  region_load mirror_ off (length bs) d = Ret bs.
Proof.
  intros Hd Hat Hoff Hle. pose proof capacity_bounds as Hcap.
  assert (Hcell : forall i b, bs !! i = Some b -> d !! ((off + i) mod Z.to_nat capacity_)%nat = Some b).
  { intros i b Hb. rewrite <- (Hat i b Hb). unfold cell. f_equal.
    rewrite <- Z.add_mod_idemp_l, Hoff, Z.add_mod_idemp_l by lia. rewrite <- Nat2Z.inj_add.
    rewrite <- (Z2Nat.id capacity_) at 2 by lia. by rewrite <- Nat2Z.inj_mod, Nat2Z.id. }
  assert (Hmem : forall m, (off + length bs <= length m)%nat ->
    (forall x, (x < length m)%nat -> m !! x = d !! (x mod Z.to_nat capacity_)%nat) -> load off (length bs) m = Ret bs).
  { intros m Hl Hm. unfold load, slice. rewrite decide_True by done. simpl. f_equal. apply list_eq. intros i.
    destruct (decide (i < length bs)%nat) as [Hi|Hi].
    - destruct (lookup_lt_is_Some_2 bs i Hi) as [b Hb]. rewrite lookup_take_lt, lookup_drop, Hm by lia.
      rewrite Hb. by apply Hcell.
    - rewrite lookup_take_ge by lia. by rewrite lookup_ge_None_2 by lia. }
  unfold region_load. destruct mirror_; apply Hmem.
  - rewrite length_app. lia.
  - intros x Hx. rewrite length_app in Hx. destruct (decide (x < length d)%nat).
    + rewrite lookup_app_l by done. by rewrite Nat.mod_small by lia.
    + rewrite lookup_app_r by lia. f_equal. apply (Nat.mod_unique _ _ 1); lia.
  - lia.
  - intros x Hx. by rewrite Nat.mod_small by lia.
Qed.

(** A store: where it lands, and what it leaves alone. *)
Definition stored (d d' : bytes) (pos : Z) (bs : bytes) : Prop :=
  length d' = length d /\ at_pos d' pos bs /\
  forall x, (forall i, (i < length bs)%nat -> x mod capacity_ <> (pos + Z.of_nat i) mod capacity_) -> cell d' x = cell d x.

Lemma stored_mod d d' pos pos' bs :
  pos mod capacity_ = pos' mod capacity_ -> stored d d' pos bs -> stored d d' pos' bs.
Proof.
  intros E (H1 & H2 & H3). pose proof capacity_bounds.
  assert (Hs : forall i, (pos + i) mod capacity_ = (pos' + i) mod capacity_).
  { intros i. rewrite <- Z.add_mod_idemp_l, E, Z.add_mod_idemp_l by lia. done. }
  split_and!; [done| |].
  - intros i b Hb. rewrite <- (H2 i b Hb). by apply cell_mod.
  - intros x Hx. apply H3. intros i Hi. rewrite Hs. by apply Hx.
Qed.

Lemma store_plain d off bs :
  length d = Z.to_nat capacity_ -> (off + length bs <= Z.to_nat capacity_)%nat ->
  exists d', store off bs d = Ret d' /\ stored d d' (Z.of_nat off) bs.
Proof.
  intros Hd Hle. pose proof capacity_bounds. unfold store.
  assert (exists d', poke off bs d = Some d') as [d' Hp] by (unfold poke; rewrite decide_True by lia; by eexists).
  rewrite Hp. exists d'. split; [done|]. split_and!.
  - by eapply poke_length.
  - intros i b Hb. pose proof (lookup_lt_Some _ _ _ Hb). rewrite <- Nat2Z.inj_add, cell_of_nat by lia.
    rewrite (poke_lookup _ _ _ _ _ Hp), decide_True by lia. by replace (off + i - off)%nat with i by lia.
  - intros x Hx. unfold cell. rewrite (poke_lookup _ _ _ _ _ Hp). rewrite decide_False; [done|]. intros [H1 H2].
    pose proof (Z.mod_pos_bound x capacity_ ltac:(lia)).
    apply (Hx (Z.to_nat (x mod capacity_) - off)%nat); [lia|]. rewrite (Z.mod_small (_ + _)); lia.
Qed.

Lemma region_store_at d off bs :
  length d = Z.to_nat capacity_ -> (off <= Z.to_nat capacity_)%nat -> (length bs <= Z.to_nat capacity_)%nat ->
  (mirror_ = false -> (off + length bs <= Z.to_nat capacity_)%nat) ->
  exists d', region_store mirror_ off bs d = Ret d' /\ stored d d' (Z.of_nat off) bs.
Proof.
  intros Hd Ho Hb Hm. pose proof capacity_bounds. unfold region_store.
  destruct (mirror_ && (length d <? off + length bs)%nat) eqn:E.
  2: { apply store_plain; [done|]. apply andb_false_iff in E as [E|E%Nat.ltb_ge]; [by apply Hm|lia]. }
  apply andb_true_iff in E as [_ E%Nat.ltb_lt].
  rewrite (proj2 (Nat.leb_le off (length d))) by lia. cbn [assert_ mbind result_bind].
  set (n := (length d - off)%nat).
  assert (Hln : length (take n bs) = n) by (rewrite length_take; lia).
  destruct (store_plain d off (take n bs)) as (d1 & -> & L1 & A1 & F1); [done|lia|]. cbn [mbind result_bind].
  destruct (store_plain d1 0 (drop n bs)) as (d2 & -> & L2 & A2 & F2); [lia|rewrite length_drop; lia|].
  exists d2. split; [done|].
  assert (Hwrap : forall i, (n <= i)%nat -> (Z.of_nat off + Z.of_nat i) mod capacity_ = Z.of_nat (i - n) mod capacity_).
  { intros i Hi. replace (Z.of_nat off + Z.of_nat i) with (Z.of_nat (i - n) + 1 * capacity_) by lia. apply Z.mod_add. lia. }
  split_and!; [lia| |].
  - intros i b Hi. destruct (decide (i < n)%nat).
    + rewrite F2, A1; [done|by rewrite lookup_take_lt|]. intros j Hj. rewrite length_drop in Hj.
      pose proof (lookup_lt_Some _ _ _ Hi). rewrite !Z.mod_small by lia. lia.
    + rewrite (cell_mod _ _ _ (Hwrap i ltac:(lia))). specialize (A2 (i - n)%nat b). cbn in A2.
      apply A2. rewrite lookup_drop. by replace (n + (i - n))%nat with i by lia.
  - intros x Hx. rewrite F2, F1; [done| |].
    + intros i Hi. apply Hx. lia.
    + intros i Hi. rewrite length_drop in Hi. specialize (Hx (n + i)%nat ltac:(lia)). rewrite Hwrap in Hx by lia.
      replace (n + i - n)%nat with i in Hx by lia. by rewrite Z.add_0_l.
Qed.

(** ** Record sizes *)

Lemma align_up_spec x : 0 <= x < 2 ^ 63 -> align_up x 64 = 64 * ((x + 63) / 64).
Proof.
  intros Hx. unfold align_up. change (64 - 1) with 63. rewrite (wrap_small 64 (x + 63)) by lia.
  assert (Hm : wrap 64 (Z.lnot 63) = Z.land (Z.lnot (Z.ones 6)) (Z.ones 64)) by (vm_compute; reflexivity).
  rewrite Hm, Z.land_comm, <- Z.land_assoc, (Z.land_comm (Z.ones 64)), Z.land_ones, Z.mod_small by lia.
  rewrite Z.land_comm, <- Z.ldiff_land, Z.ldiff_ones_r by lia.
  rewrite Z.shiftr_div_pow2, Z.shiftl_mul_pow2 by lia. change (2 ^ 6) with 64. lia.
Qed.

(** A payload the producer may push. *)
Definition pushable (payload : bytes) : Prop :=
  Z.of_nat (length payload) <= capacity_ / 2 - 64 /\ Z.of_nat (length payload) < 2 ^ 32.

Lemma padded_size_spec payload :
  pushable payload ->
  let n := padded_size payload in
  (64 | n) /\ 64 + Z.of_nat (length payload) <= n <= capacity_ / 2 /\ n = 64 + align_up (Z.of_nat (length payload)) 64.
Proof.
  intros [H1 H2] n. pose proof capacity_bounds. destruct capacity_line as [c Hc].
  assert (Hc2 : exists c2, capacity_ / 2 = 64 * c2).
  { exists (2 ^ (k - 7)). unfold capacity_. replace k with (7 + (k - 7)) at 1 by lia. rewrite Z.pow_add_r by lia.
    change (2 ^ 7) with (64 * 2). rewrite <- Z.mul_assoc, (Z.mul_comm 2), Z.mul_assoc, Z.div_mul by lia. done. }
  destruct Hc2 as [c2 Hc2]. unfold n, padded_size, kCacheLine. rewrite align_up_spec by lia.
  set (len := Z.of_nat (length payload)) in *.
  pose proof (Z.div_mod (len + 63) 64 ltac:(lia)). pose proof (Z.mod_pos_bound (len + 63) 64 ltac:(lia)).
  rewrite wrap_small by lia. split_and!.
  - exists (1 + (len + 63) / 64). lia.
  - lia.
  - lia.
  - done.
Qed.

Lemma control_bytes len flag :
  0 <= len < 2 ^ 32 -> 0 <= flag < 2 ^ 32 -> le_bytes 8 (control len flag) = le_bytes 4 len ++ le_bytes 4 flag.
Proof.
  intros Hl Hf. unfold control. rewrite (wrap_small 32) by done.
  rewrite Z.lor_comm, lor_shift_add by lia. change 8%nat with (4 + 4)%nat. rewrite le_bytes_add.
  change (8 * Z.of_nat 4) with 32. f_equal.
  - rewrite <- (le_bytes_val' 4 (le_bytes 4 (flag * 2 ^ 32 + len))) by apply length_le_bytes.
    rewrite le_val_bytes. change (8 * Z.of_nat 4) with 32. rewrite Z.add_comm, Z.mod_add, Z.mod_small by lia. done.
  - rewrite Z.div_add_l, Z.div_small by lia. by rewrite Z.add_0_r.
Qed.

(** ** What the published part of the region holds *)

Definition to_end (pos : Z) : Z := capacity_ - pos mod capacity_.

(** A data record, and a filler up to the end of the lap. *)
Definition record_at (d : bytes) (pos : Z) (payload : bytes) : Prop :=
  (64 | pos) /\ pushable payload /\
  at_pos d pos (le_bytes 8 (control (Z.of_nat (length payload)) kFlagData)) /\
  at_pos d (pos + 64) payload /\
  (mirror_ = false -> padded_size payload <= to_end pos).

Definition filler_at (d : bytes) (pos : Z) : Prop :=
  mirror_ = false /\ (64 | pos) /\ at_pos d pos (le_bytes 8 (control 0 kFlagWrap)).

Inductive layout (d : bytes) : Z -> Z -> list bytes -> Prop :=
| layout_empty pos : layout d pos pos []
| layout_record pos stop payload q :
    record_at d pos payload -> layout d (pos + padded_size payload) stop q -> layout d pos stop (payload :: q)
| layout_wrap pos stop payload q :
    filler_at d pos -> record_at d (pos + to_end pos) payload ->
    layout d (pos + to_end pos + padded_size payload) stop q -> layout d pos stop (payload :: q).

Lemma to_end_bounds pos : (64 | pos) -> 64 <= to_end pos <= capacity_ /\ (64 | to_end pos) /\ (pos + to_end pos) mod capacity_ = 0.
Proof.
  intros [c Hc]. pose proof capacity_bounds. destruct capacity_line as [cc Hcc]. unfold to_end.
  pose proof (Z.mod_pos_bound pos capacity_ ltac:(lia)). pose proof (Z.div_mod pos capacity_ ltac:(lia)) as Hdm.
  assert (Hd : (64 | capacity_ - pos mod capacity_)).
  { exists (cc - c + cc * (pos / capacity_)). nia. }
  split_and!; [destruct Hd as [e He]; lia|lia|done|].
  replace (pos + (capacity_ - pos mod capacity_)) with ((1 + pos / capacity_) * capacity_) by lia. apply Z.mod_mul. lia.
Qed.

Lemma record_span d pos payload : record_at d pos payload -> 64 + Z.of_nat (length payload) <= padded_size payload.
Proof. intros (_ & Hp & _). destruct (padded_size_spec _ Hp) as (_ & ? & _). lia. Qed.

Lemma filler_span d pos : filler_at d pos -> 64 <= to_end pos.
Proof. intros (_ & Ha & _). destruct (to_end_bounds _ Ha) as (? & _). lia. Qed.

Lemma layout_le d pos stop q : layout d pos stop q -> pos <= stop /\ (pos = stop <-> q = []).
Proof.
  induction 1 as [|pos stop pl q Hr _ IH|pos stop pl q Hf Hr _ IH]; [done| |].
  - apply record_span in Hr. split; [lia|]. split; [lia|done].
  - apply record_span in Hr. apply filler_span in Hf. split; [lia|]. split; [lia|done].
Qed.

Lemma at_pos_frame d d' pos bs lo hi :
  (forall x, lo <= x < hi -> cell d' x = cell d x) -> lo <= pos -> pos + Z.of_nat (length bs) <= hi ->
  at_pos d pos bs -> at_pos d' pos bs.
Proof.
  intros Hf Hlo Hhi H i b Hb. pose proof (lookup_lt_Some _ _ _ Hb). rewrite Hf by lia. by apply H.
Qed.

Lemma record_frame d d' pos payload :
  record_at d pos payload -> (forall x, pos <= x < pos + padded_size payload -> cell d' x = cell d x) ->
  record_at d' pos payload.
Proof.
  intros Hr Hf. pose proof (record_span _ _ _ Hr). destruct Hr as (H1 & H2 & H3 & H4 & H5). split_and!; try done.
  - eapply at_pos_frame; [exact Hf|lia| |done]. rewrite length_le_bytes. lia.
  - eapply at_pos_frame; [exact Hf|lia|lia|done].
Qed.

Lemma filler_frame d d' pos :
  filler_at d pos -> (forall x, pos <= x < pos + to_end pos -> cell d' x = cell d x) -> filler_at d' pos.
Proof.
  intros Hr Hf. pose proof (filler_span _ _ Hr). destruct Hr as (H1 & H2 & H3). split_and!; try done.
  eapply at_pos_frame; [exact Hf|lia| |done]. rewrite length_le_bytes. lia.
Qed.

Lemma layout_frame d d' pos stop q :
  layout d pos stop q -> (forall x, pos <= x < stop -> cell d' x = cell d x) -> layout d' pos stop q.
Proof.
  induction 1 as [|pos stop pl q Hr Hl IH|pos stop pl q Hw Hr Hl IH]; intros Hf; [constructor|..];
    pose proof (layout_le _ _ _ _ Hl) as [Hle _]; pose proof (record_span _ _ _ Hr).
  - apply layout_record; [eapply record_frame; [done|]|apply IH]; intros; apply Hf; lia.
  - pose proof (filler_span _ _ Hw).
    apply layout_wrap; [eapply filler_frame; [done|]|eapply record_frame; [done|]|apply IH]; intros; apply Hf; lia.
Qed.

Lemma layout_app d pos mid stop q q' : layout d pos mid q -> layout d mid stop q' -> layout d pos stop (q ++ q').
Proof. induction 1; intros; [done|..]; cbn [app]; [apply layout_record|apply layout_wrap]; auto. Qed.

(** ** The producer *)

Lemma stored_below d d' pos bs x :
  stored d d' pos bs -> pos + Z.of_nat (length bs) - capacity_ <= x < pos -> cell d' x = cell d x.
Proof.
  intros (_ & _ & Hf) Hx. pose proof capacity_bounds. apply Hf. intros i Hi E.
  assert (Hz : (pos + Z.of_nat i - x) mod capacity_ = 0) by (rewrite Zminus_mod, E, Z.sub_diag; apply Z.mod_0_l; lia).
  rewrite Z.mod_small in Hz; lia.
Qed.

Lemma line_offset pos : (64 | pos) -> 0 <= pos mod capacity_ <= capacity_ - 64.
Proof. intros H. destruct (to_end_bounds _ H) as (? & _). unfold to_end in *. pose proof (Z.mod_pos_bound pos capacity_). lia. Qed.

(** A store at the cache line of a position, [shift] bytes into it. *)
Lemma region_store_pos d pos shift bs :
  length d = Z.to_nat capacity_ -> (64 | pos) -> 0 <= shift <= 64 ->
  shift + Z.of_nat (length bs) <= capacity_ / 2 ->
  (mirror_ = false -> shift + Z.of_nat (length bs) <= to_end pos) ->
  exists d', region_store mirror_ (Z.to_nat (pos mod capacity_) + Z.to_nat shift) bs d = Ret d' /\
    stored d d' (pos + shift) bs.
Proof.
  intros Hd Hp Hs Hl Hm. pose proof (line_offset _ Hp). pose proof capacity_bounds. unfold to_end in *.
  pose proof (Z.div_lt capacity_ 2).
  destruct (region_store_at d (Z.to_nat (pos mod capacity_) + Z.to_nat shift) bs) as (d' & Hd' & Hst); [done|lia|lia| |].
  { intros E. specialize (Hm E). lia. }
  exists d'. split; [done|]. eapply stored_mod; [|done].
  rewrite Nat2Z.inj_add, !Z2Nat.id by lia. apply Z.add_mod_idemp_l. lia.
Qed.

(** The bytes a push needs, without the machine arithmetic. *)
Definition push_span (payload : bytes) (t : Z) : Z :=
  if negb mirror_ && (to_end t <? padded_size payload) then to_end t + padded_size payload else padded_size payload.

(** Where the record itself goes. *)
Definition record_pos (payload : bytes) (t : Z) : Z :=
  if negb mirror_ && (to_end t <? padded_size payload) then t + to_end t else t.

Lemma record_pos_spec payload t :
  (64 | t) -> pushable payload -> (64 | record_pos payload t) /\ t <= record_pos payload t /\
  record_pos payload t + padded_size payload = t + push_span payload t /\
  (mirror_ = false -> padded_size payload <= to_end (record_pos payload t)) /\ push_span payload t <= capacity_.
Proof.
  intros Ht Hp. destruct (to_end_bounds t Ht) as (Hb & Hd & Hz). destruct (padded_size_spec _ Hp) as (_ & Hs & _).
  unfold record_pos, push_span. pose proof capacity_bounds. pose proof (Z.mul_div_le capacity_ 2).
  destruct (negb mirror_ && (to_end t <? padded_size payload)) eqn:E.
  - apply andb_true_iff in E as [E1 E2%Z.ltb_lt]. split_and!; [by apply Z.divide_add_r|lia|lia| |lia].
    intros _. unfold to_end at 1. rewrite Hz. lia.
  - split_and!; [done|lia|lia| |lia]. intros Hm. rewrite Hm in E. cbn [negb andb] in E. apply Z.ltb_ge in E. done.
Qed.

Lemma write_record d pos payload :
  length d = Z.to_nat capacity_ -> (64 | pos) -> pushable payload ->
  (mirror_ = false -> padded_size payload <= to_end pos) ->
  exists d1 d2,
    region_store mirror_ (Z.to_nat (pos mod capacity_)) (le_bytes 8 (control (Z.of_nat (length payload)) kFlagData)) d = Ret d1 /\
    region_store mirror_ (Z.to_nat (pos mod capacity_) + Z.to_nat kCacheLine) payload d1 = Ret d2 /\
    length d2 = length d /\ record_at d2 pos payload /\
    forall x, pos + padded_size payload - capacity_ <= x < pos -> cell d2 x = cell d x.
Proof.
  intros Hd Hp Hpl Hm. destruct (padded_size_spec _ Hpl) as (_ & Hs & _). pose proof capacity_bounds.
  pose proof (Z.mul_div_le capacity_ 2).
  destruct (region_store_pos d pos 0 (le_bytes 8 (control (Z.of_nat (length payload)) kFlagData))) as (d1 & E1 & S1);
    [done|done|lia|rewrite length_le_bytes; lia|rewrite length_le_bytes; intros; specialize (Hm H1); lia|].
  rewrite Nat.add_0_r in E1. rewrite Z.add_0_r in S1. pose proof S1 as (L1 & A1 & _).
  destruct (region_store_pos d1 pos 64 payload) as (d2 & E2 & S2);
    [lia|done|lia|lia|intros; specialize (Hm H1); lia|]. pose proof S2 as (L2 & A2 & _).
  exists d1, d2. split_and!; [done|done|lia| |].
  - split_and!; try done. eapply (at_pos_frame d1 _ _ _ pos (pos + 64)); [|lia|rewrite length_le_bytes; lia|done].
    intros x Hx. eapply stored_below; [done|]. lia.
  - intros x Hx. rewrite (stored_below _ _ _ _ x S2) by lia.
    apply (stored_below _ _ _ _ x S1). rewrite length_le_bytes. lia.
Qed.

Lemma index_wrap pos : index capacity_ (wrap 64 pos) = Z.to_nat (pos mod capacity_).
Proof. unfold index. by rewrite land_mask. Qed.

Lemma push_write_spec payload p r t :
  length (data r) = Z.to_nat capacity_ -> (64 | t) -> pushable payload -> tail_pos_ p = wrap 64 t ->
  exists d, push_write capacity_ mirror_ payload p r = Ret (wrap 64 (t + push_span payload t), d) /\
    length d = Z.to_nat capacity_ /\ layout d t (t + push_span payload t) [payload] /\
    forall x, t + push_span payload t - capacity_ <= x < t -> cell d x = cell (data r) x.
Proof.
  intros Hd Ht Hp Htp. pose proof capacity_bounds. pose proof (Z.mul_div_le capacity_ 2 ltac:(lia)).
  destruct (padded_size_spec _ Hp) as (_ & Hs & _). destruct (to_end_bounds _ Ht) as (Hb & _).
  destruct (record_pos_spec payload t Ht Hp) as (R1 & R2 & R3 & R4 & R5).
  assert (Hwrap : forall y, wrap 64 (wrap 64 t + y) = wrap 64 (t + y)) by (intros; unfold wrap; apply Z.add_mod_idemp_l; lia).
  unfold push_write. rewrite Htp, land_mask. fold (to_end t). unfold record_pos, push_span in *.
  destruct (negb mirror_ && (to_end t <? padded_size payload)) eqn:E.
  - apply andb_true_iff in E as [Em%negb_true_iff _].
    destruct (region_store_pos (data r) t 0 (le_bytes 8 (control 0 kFlagWrap))) as (d0 & E0 & S0);
      [done|done|lia|rewrite length_le_bytes; lia|rewrite length_le_bytes; lia|].
    rewrite Nat.add_0_r in E0. rewrite Z.add_0_r in S0. rewrite E0. cbn [mbind result_bind].
    pose proof S0 as (L0 & A0 & _). rewrite Hwrap, index_wrap.
    destruct (write_record d0 (t + to_end t) payload) as (d1 & d2 & E1 & E2 & L2 & Hrec & Hf); [lia|done|done|done|].
    rewrite E1. cbn [mbind result_bind]. rewrite E2. cbn [mbind result_bind].
    exists d2. split_and!; [|lia| |].
    + do 2 f_equal. unfold wrap. rewrite Z.add_mod_idemp_l by lia. f_equal. lia.
    + eapply layout_wrap; [|done|rewrite <- R3; constructor]. split_and!; try done.
      eapply (at_pos_frame d0 _ _ _ t (t + to_end t)); [|lia|rewrite length_le_bytes; lia|done].
      intros x Hx. apply Hf. lia.
    + intros x Hx. rewrite Hf by lia. apply (stored_below _ _ _ _ x S0). rewrite length_le_bytes. lia.
  - cbn [mbind result_bind]. rewrite index_wrap.
    destruct (write_record (data r) t payload) as (d1 & d2 & E1 & E2 & L2 & Hrec & Hf); [done..|].
    rewrite E1. cbn [mbind result_bind]. rewrite E2. cbn [mbind result_bind].
    exists d2. split_and!; [by rewrite Hwrap|lia| |].
    + eapply layout_record; [done|constructor].
    + intros x Hx. apply Hf. lia.
Qed.

Lemma space_needed_spec payload t :
  (64 | t) -> pushable payload -> space_needed capacity_ mirror_ payload (wrap 64 t) = push_span payload t.
Proof.
  intros Ht Hp. pose proof capacity_bounds. pose proof (Z.mul_div_le capacity_ 2 ltac:(lia)).
  destruct (record_pos_spec payload t Ht Hp) as (_ & _ & _ & _ & Hsp).
  unfold space_needed, push_span in *. destruct mirror_; [done|]. rewrite land_mask. fold (to_end t).
  cbn [negb andb] in *. destruct (Z.ltb_spec (to_end t) (padded_size payload)); [|done].
  destruct (to_end_bounds _ Ht) as (? & _). apply wrap_small. lia.
Qed.

Lemma is_short_spec p t c need :
  tail_pos_ p = wrap 64 t -> cached_head_ p = wrap 64 c -> 0 <= t - c <= capacity_ ->
  is_short capacity_ p need = (capacity_ - (t - c) <? need).
Proof.
  intros Ht Hc Hr. pose proof capacity_bounds. unfold is_short. rewrite Ht, Hc.
  assert (Hd : wrap 64 (wrap 64 t - wrap 64 c) = t - c).
  { unfold wrap. rewrite <- Zminus_mod. apply Z.mod_small. lia. }
  rewrite Hd, wrap_small by lia. done.
Qed.

(** ** The state of one direction, and what it holds *)

(** The program counters between the atomic parts of an operation. *)
Inductive producer_state :=
| Idle
| Ready (payload : bytes)
| Written (payload : bytes) (next : Z).

Inductive consumer_state :=
| Waiting
| Found
| Peeked (payload : bytes).

Record state := {
  ring_ : Ring; prod_ : Producer; cons_ : Consumer; pc_ : producer_state; cc_ : consumer_state
}.

Definition producer_inv (d : bytes) (t c : Z) (pc : producer_state) : Prop :=
  match pc with
  | Idle => True
  | Ready payload => pushable payload /\ t + push_span payload t - c <= capacity_
  | Written payload next =>
    next = wrap 64 (t + push_span payload t) /\ t + push_span payload t - c <= capacity_ /\
    (64 | push_span payload t) /\ layout d t (t + push_span payload t) [payload]
  end.

Definition consumer_inv (d : bytes) (h : Z) (q : list bytes) (cc : consumer_state) : Prop :=
  match cc with
  | Waiting => True
  | Found => exists payload q', q = payload :: q' /\ record_at d h payload
  | Peeked payload => exists q', q = payload :: q' /\ record_at d h payload
  end.

(** The indices agree with positions [h], [t] and [c], the records between
    [h] and [t] are [q], and what lies behind [t] is free from [c] on. *)
Definition inv_at (s : state) (q : list bytes) (h t c : Z) : Prop :=
  (64 | h) /\ (64 | t) /\ c <= h /\ t - c <= capacity_ /\
  head (ring_ s) = wrap 64 h /\ tail (ring_ s) = wrap 64 t /\
  cached_head_ (prod_ s) = wrap 64 c /\ tail_pos_ (prod_ s) = wrap 64 t /\ head_pos_ (cons_ s) = wrap 64 h /\
  length (data (ring_ s)) = Z.to_nat capacity_ /\ layout (data (ring_ s)) h t q /\
  producer_inv (data (ring_ s)) t c (pc_ s) /\ consumer_inv (data (ring_ s)) h q (cc_ s).

Definition inv (s : state) (q : list bytes) : Prop := exists h t c, inv_at s q h t c.

(** ** The consumer *)

Lemma control_words d pos len flag :
  length d = Z.to_nat capacity_ -> (64 | pos) -> 0 <= len < 2 ^ 32 -> 0 <= flag < 2 ^ 32 ->
  at_pos d pos (le_bytes 8 (control len flag)) ->
  region_u32 mirror_ (Z.to_nat (pos mod capacity_)) d = Ret len /\
  region_u32 mirror_ (Z.to_nat (pos mod capacity_) + 4) d = Ret flag.
Proof.
  intros Hd Hp Hl Hf Hat. rewrite control_bytes in Hat by done. apply at_pos_app in Hat as [H1 H2].
  pose proof (line_offset _ Hp). pose proof capacity_bounds. unfold region_u32.
  rewrite length_le_bytes in H2. split.
  - pose proof (region_load_at d pos (Z.to_nat (pos mod capacity_)) _ Hd H1) as E. rewrite length_le_bytes in E.
    rewrite E; [cbn [mbind result_bind]; by rewrite le_val_bytes_small| |destruct mirror_; lia].
    rewrite Z2Nat.id by lia. by rewrite Z.mod_mod by lia.
  - pose proof (region_load_at d (pos + 4) (Z.to_nat (pos mod capacity_) + 4) _ Hd H2) as E. rewrite length_le_bytes in E.
    rewrite E; [cbn [mbind result_bind]; by rewrite le_val_bytes_small| |destruct mirror_; lia].
    rewrite Nat2Z.inj_add, Z2Nat.id by lia. by rewrite Z.add_mod_idemp_l by lia.
Qed.

Lemma record_words d pos payload :
  length d = Z.to_nat capacity_ -> record_at d pos payload ->
  region_u32 mirror_ (Z.to_nat (pos mod capacity_)) d = Ret (Z.of_nat (length payload)) /\
  region_u32 mirror_ (Z.to_nat (pos mod capacity_) + 4) d = Ret kFlagData /\
  region_load mirror_ (Z.to_nat (pos mod capacity_) + Z.to_nat kCacheLine) (length payload) d = Ret payload.
Proof.
  intros Hd Hr. pose proof (record_span _ _ _ Hr). destruct Hr as (Hp & Hpl & Hc & Hpay & Hm).
  destruct (padded_size_spec _ Hpl) as (_ & Hs & _). pose proof capacity_bounds. pose proof (Z.mul_div_le capacity_ 2 ltac:(lia)).
  destruct (control_words d pos (Z.of_nat (length payload)) kFlagData) as [W1 W2]; try done; [destruct Hpl; lia|].
  split_and!; [done..|]. pose proof (line_offset _ Hp). unfold kCacheLine.
  apply (region_load_at d (pos + 64)); [done|done| |].
  - rewrite Nat2Z.inj_add, !Z2Nat.id by lia. by rewrite Z.add_mod_idemp_l by lia.
  - destruct mirror_; [lia|]. specialize (Hm eq_refl). unfold to_end in Hm. lia.
Qed.

(** A record at the start of a layout is its first element. *)
Lemma layout_record_inv d pos stop payload q :
  length d = Z.to_nat capacity_ -> layout d pos stop (payload :: q) -> record_at d pos payload ->
  layout d (pos + padded_size payload) stop q.
Proof.
  intros Hd Hl Hr. inversion Hl as [|? ? ? ? _ Hq|? ? ? ? (Hm & Ha & Hf) _ _]; subst; [done|].
  destruct (record_words _ _ _ Hd Hr) as (_ & H1 & _).
  destruct (control_words d pos 0 kFlagWrap Hd Ha) as [_ H2]; [done|done|done|]. by rewrite H1 in H2.
Qed.

Lemma wrap_inj_near a b : 0 <= b - a <= capacity_ -> wrap 64 a = wrap 64 b -> a = b.
Proof.
  intros Hr E. pose proof capacity_bounds. unfold wrap in E.
  assert (Hz : (b - a) mod 2 ^ 64 = 0) by (rewrite Zminus_mod, E, Z.sub_diag; done).
  rewrite Z.mod_small in Hz; lia.
Qed.

(** ** Steps *)

Inductive event := Pushed (payload : bytes) | Popped (payload : bytes).

Definition set_data (d : bytes) (r : Ring) : Ring := {| head := head r; tail := tail r; data := d |}.

Inductive step : state -> option event -> state -> Prop :=
| step_acquire r p c cc payload ok p' :
    pushable payload -> push_acquire capacity_ mirror_ payload p r = (ok, p') ->
    step {| ring_ := r; prod_ := p; cons_ := c; pc_ := Idle; cc_ := cc |} None
         {| ring_ := r; prod_ := p'; cons_ := c; pc_ := if ok then Ready payload else Idle; cc_ := cc |}
| step_write r p c cc payload next d :
    push_write capacity_ mirror_ payload p r = Ret (next, d) ->
    step {| ring_ := r; prod_ := p; cons_ := c; pc_ := Ready payload; cc_ := cc |} None
         {| ring_ := set_data d r; prod_ := p; cons_ := c; pc_ := Written payload next; cc_ := cc |}
| step_publish r p c cc payload next p' r' :
    publish next p r = (p', r') ->
    step {| ring_ := r; prod_ := p; cons_ := c; pc_ := Written payload next; cc_ := cc |} (Some (Pushed payload))
         {| ring_ := r'; prod_ := p'; cons_ := c; pc_ := Idle; cc_ := cc |}
| step_advance r p c pc found c' r' :
    advance_once capacity_ mirror_ c r = Ret (found, c', r') ->
    step {| ring_ := r; prod_ := p; cons_ := c; pc_ := pc; cc_ := Waiting |} None
         {| ring_ := r'; prod_ := p; cons_ := c'; pc_ := pc;
            cc_ := match found with Some true => Found | _ => Waiting end |}
| step_read r p c pc payload :
    read_record capacity_ mirror_ c r = Ret payload ->
    step {| ring_ := r; prod_ := p; cons_ := c; pc_ := pc; cc_ := Found |} None
         {| ring_ := r; prod_ := p; cons_ := c; pc_ := pc; cc_ := Peeked payload |}
| step_pop r p c pc payload c' r' :
    pop capacity_ mirror_ c r = Ret (c', r') ->
    step {| ring_ := r; prod_ := p; cons_ := c; pc_ := pc; cc_ := Peeked payload |} (Some (Popped payload))
         {| ring_ := r'; prod_ := p; cons_ := c'; pc_ := pc; cc_ := Waiting |}.

Lemma consumer_frame d d' h t q cc :
  length d = Z.to_nat capacity_ -> layout d h t q -> (forall x, h <= x < t -> cell d' x = cell d x) ->
  consumer_inv d h q cc -> consumer_inv d' h q cc.
Proof.
  intros Hd Hl Hf. destruct cc as [| |payload]; cbn [consumer_inv]; [done|..].
  - intros (pl & q' & -> & Hr). exists pl, q'. split; [done|]. eapply record_frame; [done|].
    intros x Hx. apply Hf. pose proof (layout_record_inv _ _ _ _ _ Hd Hl Hr) as Hq. apply layout_le in Hq. lia.
  - intros (q' & -> & Hr). exists q'. split; [done|]. eapply record_frame; [done|].
    intros x Hx. apply Hf. pose proof (layout_record_inv _ _ _ _ _ Hd Hl Hr) as Hq. apply layout_le in Hq. lia.
Qed.

(** One turn of the consumer's loop. *)
Lemma advance_once_spec c r h t q :
  (64 | h) -> 0 <= t - h <= capacity_ -> length (data r) = Z.to_nat capacity_ -> layout (data r) h t q ->
  head_pos_ c = wrap 64 h -> head r = wrap 64 h -> tail r = wrap 64 t ->
  exists found h', advance_once capacity_ mirror_ c r =
      Ret (found, {| head_pos_ := wrap 64 h' |}, {| head := wrap 64 h'; tail := tail r; data := data r |}) /\
    h <= h' /\ (64 | h') /\ layout (data r) h' t q /\
    match found with
    | Some false => h' = h /\ q = []
    | Some true => exists payload q', q = payload :: q' /\ record_at (data r) h' payload
    | None => exists payload q', q = payload :: q' /\ record_at (data r) h' payload
    end.
Proof.
  intros Hh Hr Hd Hl Hhp Hhead Htail. destruct c as [hp]. destruct r as [hd tl d]. simpl in *. subst.
  unfold advance_once. cbn [head_pos_ tail data head].
  destruct (Z.eqb_spec (wrap 64 h) (wrap 64 t)) as [E|E].
  { apply wrap_inj_near in E; [|done]. subst t. exists (Some false), h. split_and!; try done.
    by apply layout_le in Hl as [_ <-]. }
  destruct q as [|payload q]; [inversion Hl; by subst|].
  inversion Hl as [|? ? ? ? Hrec Hq|? ? ? ? Hf Hrec Hq]; subst.
  - exists (Some true), h. assert (Hflag := record_words _ _ _ Hd Hrec).
    destruct mirror_; [split_and!; eauto; lia|]. rewrite land_mask.
    destruct Hflag as (_ & -> & _). cbn [mbind result_bind]. split_and!; eauto; lia.
  - exists None, (h + to_end h). pose proof Hf as (Hm & Ha & Hat). pose proof (filler_span _ _ Hf).
    destruct (control_words d h 0 kFlagWrap Hd Ha) as [_ Hflag]; [done|done|done|].
    rewrite Hm in *. rewrite land_mask, Hflag. cbn [mbind result_bind].
    destruct (to_end_bounds _ Ha) as (_ & Hdiv & _). split_and!; eauto; try lia.
    + assert (Hw : wrap 64 (wrap 64 h + (capacity_ - h mod capacity_)) = wrap 64 (h + to_end h))
        by (unfold wrap, to_end; by rewrite Z.add_mod_idemp_l).
      by rewrite Hw.
    + by apply Z.divide_add_r.
    + apply layout_record; done.
Qed.

Lemma pop_spec c r h payload :
  length (data r) = Z.to_nat capacity_ -> record_at (data r) h payload -> head_pos_ c = wrap 64 h ->
  pop capacity_ mirror_ c r =
  Ret ({| head_pos_ := wrap 64 (h + padded_size payload) |},
       {| head := wrap 64 (h + padded_size payload); tail := tail r; data := data r |}).
Proof.
  intros Hd Hr Hh. unfold pop. rewrite Hh, index_wrap. destruct (record_words _ _ _ Hd Hr) as (-> & _).
  cbn [mbind result_bind]. destruct Hr as (_ & Hp & _). destruct (padded_size_spec _ Hp) as (_ & _ & ->).
  unfold kCacheLine. replace (wrap 64 (wrap 64 h + 64 + align_up (Z.of_nat (length payload)) 64))
    with (wrap 64 (h + (64 + align_up (Z.of_nat (length payload)) 64))); [done|].
  unfold wrap. rewrite <- Z.add_assoc, Z.add_mod_idemp_l by lia. done.
Qed.

Lemma read_record_spec c r h payload :
  length (data r) = Z.to_nat capacity_ -> record_at (data r) h payload -> head_pos_ c = wrap 64 h ->
  read_record capacity_ mirror_ c r = Ret payload.
Proof.
  intros Hd Hr Hh. unfold read_record. rewrite Hh, index_wrap. destruct (record_words _ _ _ Hd Hr) as (-> & _ & Hp).
  cbn [mbind result_bind]. by rewrite Nat2Z.id.
Qed.

Lemma push_span_line payload t : (64 | t) -> pushable payload -> (64 | push_span payload t).
Proof.
  intros Ht Hp. destruct (padded_size_spec _ Hp) as (Hd & _). destruct (to_end_bounds _ Ht) as (_ & He & _).
  unfold push_span. destruct (_ && _); [by apply Z.divide_add_r|done].
Qed.

Lemma push_acquire_spec payload p r t c h :
  (64 | t) -> pushable payload -> tail_pos_ p = wrap 64 t -> cached_head_ p = wrap 64 c -> head r = wrap 64 h ->
  c <= h -> t - c <= capacity_ -> h <= t ->
  exists ok c', push_acquire capacity_ mirror_ payload p r = (ok, {| cached_head_ := wrap 64 c'; tail_pos_ := wrap 64 t |}) /\
    c <= c' <= h /\ (ok = true -> t + push_span payload t - c' <= capacity_) /\
    (ok = false -> c' = h /\ capacity_ < t + push_span payload t - h).
Proof.
  intros Ht Hp Htp Hc Hh Hch Htc Hht. unfold push_acquire. rewrite Htp, space_needed_spec by done.
  rewrite (is_short_spec p t c) by (done || lia).
  destruct (Z.ltb_spec (capacity_ - (t - c)) (push_span payload t)).
  - rewrite (is_short_spec _ t h) by (done || lia).
    destruct (Z.ltb_spec (capacity_ - (t - h)) (push_span payload t)); rewrite Hh.
    + exists false, h. split_and!; try done; lia.
    + exists true, h. split_and!; try done; lia.
  - exists true, c. destruct p as [ch tp]. simpl in *. subst. split_and!; try done; lia.
Qed.

(** ** Every step keeps the invariant and moves the queue *)

(** What a step does to the queue. *)
Definition moves (q : list bytes) (e : option event) (q' : list bytes) : Prop :=
  match e with
  | None => q' = q
  | Some (Pushed payload) => q' = q ++ [payload]
  | Some (Popped payload) => q = payload :: q'
  end.

Lemma consumer_found_some d h q cc payload : consumer_inv d h q cc -> consumer_inv d h (q ++ [payload]) cc.
Proof.
  destruct cc as [| |pl]; cbn [consumer_inv]; [done|..].
  - intros (p' & q' & -> & ?). by exists p', (q' ++ [payload]).
  - intros (q' & -> & ?). by exists (q' ++ [payload]).
Qed.

Lemma producer_cached d t c c' pc : producer_inv d t c pc -> c <= c' -> producer_inv d t c' pc.
Proof. destruct pc; cbn [producer_inv]; naive_solver lia. Qed.

Lemma step_preserves s e s' q : inv s q -> step s e s' -> exists q', inv s' q' /\ moves q e q'.
Proof.
  intros (h & t & c & Hh & Ht & Hch & Htc & H1 & H2 & H3 & H4 & H5 & Hd & Hl & Hp & Hc) Hs.
  pose proof (layout_le _ _ _ _ Hl) as [Hht _].
  destruct Hs as [r p cn cc payload ok p' Hpl Ha|r p cn cc payload next d Hw|r p cn cc payload next p' r' Hpub
                 |r p cn pc found c' r' Ha|r p cn pc payload Hrd|r p cn pc payload c' r' Hpop]; simpl in *.
  - destruct (push_acquire_spec payload p r t c h) as (ok' & c' & E & Hcc & Hok & _); [done..|].
    rewrite E in Ha. injection Ha as <- <-. exists q. split; [|done]. exists h, t, c'.
    split_and!; simpl; try done; try lia. destruct ok'; simpl; auto.
  - destruct Hp as [Hpl Hsp]. destruct (push_write_spec payload p r t) as (d' & E & Hd' & Hl' & Hf); [done..|].
    rewrite E in Hw. injection Hw as <- <-. exists q. split; [|done]. exists h, t, c. split_and!; simpl; try done.
    + eapply layout_frame; [done|]. intros x Hx. apply Hf. lia.
    + split_and!; try done. by apply push_span_line.
    + eapply consumer_frame; [exact Hd|exact Hl| |done]. intros x Hx. apply Hf. lia.
  - destruct Hp as (-> & Hsp & Hdv & Hl'). injection Hpub as <- <-. exists (q ++ [payload]). split; [|done].
    exists h, (t + push_span payload t), c. split_and!; simpl; try done; try lia.
    + by apply Z.divide_add_r.
    + by eapply layout_app.
    + by apply consumer_found_some.
  - destruct (advance_once_spec cn r h t q) as (found' & h' & E & Hle & Hh' & Hl' & Hm); [done|lia|done..|].
    rewrite E in Ha. injection Ha as <- <- <-. exists q. split; [|done]. exists h', t, c.
    split_and!; simpl; try done; try lia. destruct found' as [[|]|]; simpl; done.
  - destruct Hc as (pl & q' & -> & Hrec). rewrite (read_record_spec cn r h pl) in Hrd by done. injection Hrd as <-.
    eexists. split; [|done]. exists h, t, c. split_and!; simpl; eauto.
  - destruct Hc as (q' & -> & Hrec). rewrite (pop_spec cn r h payload) in Hpop by done. injection Hpop as <- <-.
    exists q'. split; [|done]. pose proof (layout_record_inv _ _ _ _ _ Hd Hl Hrec) as Hl'.
    pose proof (record_span _ _ _ Hrec). destruct (padded_size_spec payload) as (Hdv & _); [apply Hrec|].
    exists (h + padded_size payload), t, c. split_and!; simpl; try done; try lia. by apply Z.divide_add_r.
Qed.

(** Executions and their traces. *)
Inductive exec : state -> list event -> state -> Prop :=
| exec_nil s : exec s [] s
| exec_silent s s' s'' tr : step s None s' -> exec s' tr s'' -> exec s tr s''
| exec_event s e s' s'' tr : step s (Some e) s' -> exec s' tr s'' -> exec s (e :: tr) s''.

Definition pushed (tr : list event) : list bytes := tr ≫= fun e => match e with Pushed p => [p] | Popped _ => [] end.
Definition popped (tr : list event) : list bytes := tr ≫= fun e => match e with Popped p => [p] | Pushed _ => [] end.

Lemma exec_queue s tr s' q : inv s q -> exec s tr s' -> exists q', inv s' q' /\ q ++ pushed tr = popped tr ++ q'.
Proof.
  intros Hi He. revert q Hi. induction He as [s|s s1 s2 tr Hs He IH|s e s1 s2 tr Hs He IH]; intros q Hi.
  - exists q. split; [done|]. by rewrite app_nil_r.
  - destruct (step_preserves _ _ _ _ Hi Hs) as (q1 & Hi1 & ->). by apply IH.
  - destruct (step_preserves _ _ _ _ Hi Hs) as (q1 & Hi1 & Hm).
    destruct (IH _ Hi1) as (q' & Hi' & E). exists q'. split; [done|].
    destruct e as [pl|pl]; cbn [moves] in Hm; subst; cbn [pushed popped mbind list_bind app] in *.
    + by rewrite <- app_assoc in E.
    + by f_equal.
Qed.

(** A ring with nothing in it, seen by fresh endpoints. *)
Definition fresh_state (r : Ring) : state :=
  {| ring_ := r; prod_ := new_producer r; cons_ := new_consumer r; pc_ := Idle; cc_ := Waiting |}.

Lemma fresh_inv r h :
  (64 | h) -> head r = wrap 64 h -> tail r = wrap 64 h -> length (data r) = Z.to_nat capacity_ ->
  inv (fresh_state r) [].
Proof.
  intros Hh E1 E2 Hd. pose proof capacity_bounds. exists h, h, h. split_and!; simpl; try done; try lia. constructor.
Qed.
(** ** Operations as the code composes them *)

Lemma peek_spec s q h t c :
  inv_at s q h t c -> exists c' r', peek capacity_ mirror_ (cons_ s) (ring_ s) = Ret (list.head q, c', r').
Proof.
  intros (Hh & Ht & Hch & Htc & H1 & H2 & _ & _ & H5 & Hd & Hl & _). pose proof (layout_le _ _ _ _ Hl) as [Hht _].
  unfold peek. cbn [advance_to_record].
  destruct (advance_once_spec (cons_ s) (ring_ s) h t q) as (found & h' & E & Hle & Hh' & Hl' & Hm); [done|lia|done..|].
  rewrite E. cbn [mbind result_bind]. pose proof (layout_le _ _ _ _ Hl') as [Hht' Hiff].
  destruct found as [[|]|].
  - destruct Hm as (pl & q' & -> & Hrec). cbn [mbind result_bind]. rewrite (read_record_spec _ _ h' pl) by done. simpl. eauto.
  - destruct Hm as [-> ->]. simpl. eauto.
  - destruct Hm as (pl & q' & -> & Hrec).
    set (r1 := {| head := wrap 64 h'; tail := tail (ring_ s); data := data (ring_ s) |}).
    destruct (advance_once_spec {| head_pos_ := wrap 64 h' |} r1 h' t (pl :: q')) as (found & h2 & E2 & _ & _ & Hl2 & Hm2); [done|lia|done..|].
    rewrite E2. cbn [mbind result_bind]. destruct found as [[|]|].
    + destruct Hm2 as (pl2 & q2 & [= <- <-] & Hrec2). cbn [mbind result_bind]. rewrite (read_record_spec _ _ h2 pl) by done. simpl. eauto.
    + by destruct Hm2 as [_ ?].
    + exfalso. revert E2. unfold advance_once, r1. cbn [head_pos_ tail data].
      destruct (_ =? _); [done|]. destruct mirror_ eqn:Em; [done|]. rewrite land_mask.
      pose proof (record_words _ _ _ Hd Hrec) as (_ & Hflag & _). rewrite Em in Hflag. rewrite Hflag. done.
Qed.

Lemma try_push_spec payload s q h t c :
  inv_at s q h t c -> pc_ s = Idle -> pushable payload ->
  exists ok p' r', try_push capacity_ mirror_ payload (prod_ s) (ring_ s) = Ret (ok, p', r') /\ (q = [] -> ok = true).
Proof.
  intros (Hh & Ht & Hch & Htc & H1 & H2 & H3 & H4 & H5 & Hd & Hl & _) Hpc Hpl.
  pose proof (layout_le _ _ _ _ Hl) as [Hht Hiff].
  destruct (push_acquire_spec payload (prod_ s) (ring_ s) t c h) as (ok & c' & E & Hcc & Hok & Hno); [done..|].
  unfold try_push. rewrite E. destruct ok.
  - destruct (push_write_spec payload {| cached_head_ := wrap 64 c'; tail_pos_ := wrap 64 t |} (ring_ s) t) as (d & Ew & _); [done..|].
    rewrite Ew. cbn [mbind result_bind]. unfold publish. eauto 6.
  - do 3 eexists. split; [done|]. intros Hq. apply Hiff in Hq. destruct (Hno eq_refl) as [_ Hno'].
    destruct (record_pos_spec payload t Ht Hpl) as (_ & _ & _ & _ & Hsp). lia.
Qed.
End Proofs.

(** The rings [Mapping::create] makes. *)
Definition new_ring (k : Z) : Ring := {| head := 0; tail := 0; data := replicate (Z.to_nat (2 ^ k)) x00 |}.

Lemma new_ring_inv k mirror : 7 <= k <= 62 -> inv k mirror (fresh_state (new_ring k)) [].
Proof.
  intros Hk. apply (fresh_inv k mirror Hk _ 0); try done; [by exists 0|]. simpl. by rewrite length_replicate.
Qed.

(** C24: the ring is a queue.  However the two endpoints of a new ring
    interleave, with or without the mirror mapping, and however often the
    64-bit indices wrap, the records taken out are the records put in, whole,
    in order, without loss or repetition. *)
Theorem ring_fifo k mirror tr s :
  7 <= k <= 62 -> exec k mirror (fresh_state (new_ring k)) tr s ->
  exists waiting, pushed tr = popped tr ++ waiting.
Proof.
  intros Hk He. destruct (exec_queue k mirror Hk _ _ _ [] (new_ring_inv k mirror Hk) He) as (q & _ & E). by exists q.
Qed.

(** C30: no operation gets stuck.  In every reachable state, [peek] returns the
    oldest record in flight (two turns of its loop are enough), and [try_push]
    by an idle producer returns without touching memory outside the region, and
    succeeds when the ring is drained. *)
Theorem ring_operations_return k mirror tr s waiting :
  7 <= k <= 62 -> exec k mirror (fresh_state (new_ring k)) tr s -> pushed tr = popped tr ++ waiting ->
  (exists c r, peek (2 ^ k) mirror (cons_ s) (ring_ s) = Ret (list.head waiting, c, r)) /\
  (forall payload, pushable k payload -> pc_ s = Idle ->
     exists ok p r, try_push (2 ^ k) mirror payload (prod_ s) (ring_ s) = Ret (ok, p, r) /\ (waiting = [] -> ok = true)).
Proof.
  intros Hk He Hw. destruct (exec_queue k mirror Hk _ _ _ [] (new_ring_inv k mirror Hk) He) as (q & Hi & E).
  cbn [app] in E. rewrite Hw in E. apply app_inv_head in E. subst q. destruct Hi as (h & t & c & Hi).
  split; [by eapply peek_spec|]. intros. by eapply try_push_spec.
Qed.

(** Reconnecting.  Whatever state a dead client left the two directions in,
    mid-write included, draining and binding fresh endpoints gives two empty
    queues again: what the new client reads is only what was sent to it since. *)
Theorem ring_reconnect k mirror h tr1 s1 tr2 s2 :
  7 <= k <= 62 -> exec k mirror (fresh_state (new_ring k)) tr1 s1 -> exec k mirror (fresh_state (new_ring k)) tr2 s2 ->
  sq h = ring_ s1 -> cq h = ring_ s2 ->
  forall tr s, exec k mirror (fresh_state (sq (drain_for_reconnect h))) tr s \/
               exec k mirror (fresh_state (cq (drain_for_reconnect h))) tr s ->
  exists waiting, pushed tr = popped tr ++ waiting.
Proof.
  intros Hk He1 He2 Hsq Hcq tr s He.
  destruct (exec_queue k mirror Hk _ _ _ [] (new_ring_inv k mirror Hk) He1) as (q1 & (h1 & t1 & c1 & Hi1) & _).
  destruct (exec_queue k mirror Hk _ _ _ [] (new_ring_inv k mirror Hk) He2) as (q2 & (h2 & t2 & c2 & Hi2) & _).
  destruct Hi1 as (_ & Ht1 & _ & _ & _ & Et1 & _ & _ & _ & Hd1 & _).
  destruct Hi2 as (Hh2 & _ & _ & _ & Eh2 & _ & _ & _ & _ & Hd2 & _).
  rewrite <- Hsq in *. rewrite <- Hcq in *.
  destruct He as [He|He].
  - destruct (exec_queue k mirror Hk _ _ _ [] (fresh_inv k mirror Hk (sq (drain_for_reconnect h)) t1 Ht1 Et1 Et1 Hd1) He) as (q & _ & E). by exists q.
  - destruct (exec_queue k mirror Hk _ _ _ [] (fresh_inv k mirror Hk (cq (drain_for_reconnect h)) h2 Hh2 Eh2 Eh2 Hd2) He) as (q & _ & E). by exists q.
Qed.

(** ** Sending *)

Lemma send_pieces_spec capacity fuel payload :
  0 < max_payload_ capacity -> (length payload <= fuel)%nat ->
  concat (send_pieces capacity fuel payload) = payload /\
  Forall (fun piece => Z.of_nat (length piece) <= max_payload_ capacity) (send_pieces capacity fuel payload).
Proof.
  intros Hm. revert payload. induction fuel as [|fuel IH]; intros payload Hf.
  { destruct payload; [done|simpl in Hf; lia]. }
  cbn [send_pieces]. destruct payload as [|b payload]; [done|]. set (l := b :: payload) in *.
  set (chunk := if _ <? _ then _ else _).
  assert (Hc : (1 <= chunk)%nat /\ Z.of_nat chunk <= max_payload_ capacity).
  { unfold chunk. destruct (Z.ltb_spec (Z.of_nat (length l)) (max_payload_ capacity)); [|lia]. unfold l in *. simpl in *. lia. }
  destruct (IH (drop chunk l)) as [E1 E2]; [rewrite length_drop; lia|]. cbn [concat]. rewrite E1, take_drop.
  split; [done|]. constructor; [|done]. rewrite length_take. lia.
Qed.

Lemma max_payload_pos k : 8 <= k <= 62 -> max_payload_ (2 ^ k) = 2 ^ k / 2 - 64 /\ 64 <= 2 ^ k / 2 - 64.
Proof.
  intros Hk. assert (2 ^ 8 <= 2 ^ k <= 2 ^ 62) by (split; apply Z.pow_le_mono_r; lia).
  assert (128 <= 2 ^ k / 2 <= 2 ^ 62) by (split; [apply Z.div_le_lower_bound; lia|apply Z.div_le_upper_bound; lia]).
  unfold max_payload_, kCacheLine. rewrite wrap_small by lia. lia.
Qed.

(** [send] loses nothing: the records it cuts a payload into are, in
    order, the payload, whatever its length, each of them is small enough to be
    pushed, and an aborted [send] has pushed a prefix of the payload;
    [send_record] throws exactly when no record of the ring can hold the payload. *)
Theorem send_splits k payload :
  8 <= k <= 62 ->
  concat (send (2 ^ k) None payload) = payload /\
  Forall (fun piece => Z.of_nat (length piece) <= 2 ^ k / 2 - 64) (send (2 ^ k) None payload) /\
  (forall n, exists rest, concat (send (2 ^ k) (Some n) payload) ++ rest = payload) /\
  (send_record (2 ^ k) false payload = Ret (true, [payload]) <-> Z.of_nat (length payload) <= 2 ^ k / 2 - 64).
Proof.
  intros Hk. destruct (max_payload_pos k Hk) as [Hm Hp].
  assert (Hs : concat (send (2 ^ k) None payload) = payload /\
    Forall (fun piece => Z.of_nat (length piece) <= max_payload_ (2 ^ k)) (send (2 ^ k) None payload)).
  { unfold send. case_bool; [|apply send_pieces_spec; lia]. simpl. rewrite app_nil_r. split; [done|]. by constructor. }
  destruct Hs as [H1 H2]. rewrite Hm in H2. split_and!; [done|done| |].
  - intros n. change (send (2 ^ k) (Some n) payload) with (take n (send (2 ^ k) None payload)).
    exists (concat (drop n (send (2 ^ k) None payload))). by rewrite <- concat_app, take_drop.
  - unfold send_record. rewrite Hm. case_bool; split; done || lia.
Qed.

Lemma digit_run_digits text : digits (take (digit_run text) text).
Proof.
  unfold digits. induction text as [|b text IH]; [done|]. cbn [digit_run]. destruct (is_digit b) eqn:E; [|done].
  cbn [take]. by constructor.
Qed.

Lemma digit_run_dec_val text : 0 <= dec_val (take (digit_run text) text).
Proof. apply dec_val_range, digit_run_digits. Qed.

(** Ring sizes.  [parse_size] never wraps: what it returns is the decimal
    number times the unit, below [2^64]; [capacity_for] gives the least power of
    two that covers both the request and a page. *)
Theorem ring_sizes :
  (forall text v, parse_size text = Some v ->
     exists mult, mult ∈ [1; 1024; 1048576; 1073741824] /\
       v = dec_val (take (digit_run text) text) * mult /\ v < 2 ^ 64) /\
  (forall page bytes_, 2 <= page -> exists j, 0 <= j /\ capacity_for page bytes_ = 2 ^ j /\
     page <= 2 ^ j /\ bytes_ <= 2 ^ j /\ (2 ^ (j - 1) < page \/ 2 ^ (j - 1) < bytes_)).
Proof.
  split.
  - intros text v. unfold parse_size. destruct (_ =? _)%nat; [done|]. unfold from_chars_u64.
    set (n := dec_val _). destruct (Z.ltb_spec n (2 ^ 64)) as [Hn|Hn]; [|done].
    assert (H0 : 0 <= n) by apply digit_run_dec_val.
    assert (Hu : forall mult, 1 <= mult -> mult ∈ [1; 1024; 1048576; 1073741824] ->
      (if negb (n =? 0) && (u64_max / mult <? n) then None else Some (wrap 64 (n * mult))) = Some v ->
      exists mult, mult ∈ [1; 1024; 1048576; 1073741824] /\ v = n * mult /\ v < 2 ^ 64).
    { intros mult Hm Hin. destruct (negb _ && _) eqn:E; [done|]. intros [= <-]. exists mult. split; [done|].
      assert (n * mult <= u64_max).
      { apply andb_false_iff in E as [E%negb_false_iff%Z.eqb_eq|E%Z.ltb_ge]; [rewrite E; unfold u64_max; lia|].
        pose proof (Z.mul_div_le u64_max mult ltac:(lia)). nia. }
      unfold u64_max in *. rewrite wrap_small by nia. lia. }
    destruct (_ || _); [apply (Hu 1); [lia|set_solver]|].
    destruct (_ || _); [apply (Hu 1024); [lia|set_solver]|].
    destruct (_ || _); [apply (Hu 1048576); [lia|set_solver]|].
    destruct (_ || _); [apply (Hu 1073741824); [lia|set_solver]|done].
  - intros page b Hp. unfold capacity_for, bit_ceil. set (m := if b <? page then page else b).
    assert (Hm : 2 <= m /\ page <= m /\ b <= m /\ (m = page \/ m = b)) by (unfold m; case_bool; lia).
    bfalse (m <=? 1). exists (Z.log2_up m). pose proof (Z.log2_up_spec m ltac:(lia)) as Hl.
    rewrite <- Z.sub_1_r in Hl. pose proof (Z.log2_up_nonneg m). split_and!; try done; lia.
Qed.

(** The length field has 32 bits, but a ring of 16 GiB lets a record of 4 GiB
    through: its control word is that of an empty record. *)
Lemma ring_length_truncated :
  2 ^ 32 <= max_payload_ (2 ^ 34) /\ control (2 ^ 32) kFlagData = control 0 kFlagData.
Proof. split; [vm_compute; discriminate|vm_compute; reflexivity]. Qed.

(** ** An execution: a record goes through a ring of 256 bytes *)

Example ring_ex (step_no : nat) : state :=
  let payload := str "PING" in
  let s0 := fresh_state (new_ring 8) in
  let r1 := match push_write 256 false payload (prod_ s0) (ring_ s0) with Ret (_, d) => set_data d (ring_ s0) | _ => ring_ s0 end in
  let p2 := (publish 128 (prod_ s0) r1).1 in
  let r2 := (publish 128 (prod_ s0) r1).2 in
  let c3 := match pop 256 false (cons_ s0) r2 with Ret (c, _) => c | _ => cons_ s0 end in
  let r3 := match pop 256 false (cons_ s0) r2 with Ret (_, r) => r | _ => r2 end in
  match step_no with
  | 0%nat => s0
  | 1%nat => {| ring_ := ring_ s0; prod_ := prod_ s0; cons_ := cons_ s0; pc_ := Ready payload; cc_ := Waiting |}
  | 2%nat => {| ring_ := r1; prod_ := prod_ s0; cons_ := cons_ s0; pc_ := Written payload 128; cc_ := Waiting |}
  | 3%nat => {| ring_ := r2; prod_ := p2; cons_ := cons_ s0; pc_ := Idle; cc_ := Waiting |}
  | 4%nat => {| ring_ := r2; prod_ := p2; cons_ := cons_ s0; pc_ := Idle; cc_ := Found |}
  | 5%nat => {| ring_ := r2; prod_ := p2; cons_ := cons_ s0; pc_ := Idle; cc_ := Peeked payload |}
  | _ => {| ring_ := r3; prod_ := p2; cons_ := c3; pc_ := Idle; cc_ := Waiting |}
  end.

Lemma ring_ex_exec : exec 8 false (fresh_state (new_ring 8)) [Pushed (str "PING"); Popped (str "PING")] (ring_ex 6).
Proof.
  apply (exec_silent _ _ _ (ring_ex 1)).
  { apply (step_acquire 8 false _ _ _ _ (str "PING") true); [split; vm_compute; [discriminate|reflexivity]|vm_compute; reflexivity]. }
  apply (exec_silent _ _ _ (ring_ex 2)).
  { apply step_write. vm_compute. reflexivity. }
  apply (exec_event _ _ _ _ (ring_ex 3)).
  { apply step_publish. vm_compute. reflexivity. }
  apply (exec_silent _ _ _ (ring_ex 4)).
  { apply (step_advance 8 false _ _ _ _ (Some true)). vm_compute. reflexivity. }
  apply (exec_silent _ _ _ (ring_ex 5)).
  { apply step_read. vm_compute. reflexivity. }
  apply (exec_event _ _ _ _ (ring_ex 6)).
  { apply step_pop. vm_compute. reflexivity. }
  constructor.
Qed.

Lemma ring_fifo_witness :
  exists waiting, pushed [Pushed (str "PING"); Popped (str "PING")] = popped [Pushed (str "PING"); Popped (str "PING")] ++ waiting.
Proof. apply (ring_fifo 8 false _ _ ltac:(lia) ring_ex_exec). Defined.

Lemma ring_operations_return_witness :
  exists c r, peek (2 ^ 8) false (cons_ (ring_ex 6)) (ring_ (ring_ex 6)) = Ret (None, c, r).
Proof. apply (ring_operations_return 8 false _ _ [] ltac:(lia) ring_ex_exec eq_refl). Defined.

Lemma ring_reconnect_witness :
  let h := {| epoch := 1; epoch_ack := 0; sq := ring_ (ring_ex 6); cq := ring_ (ring_ex 6) |} in
  exists waiting, pushed [] = popped [] ++ waiting.
Proof.
  intros h. eapply (ring_reconnect 8 false h _ (ring_ex 6) _ (ring_ex 6) ltac:(lia) ring_ex_exec ring_ex_exec eq_refl eq_refl).
  left. apply exec_nil.
Defined.

Lemma send_splits_witness : concat (send (2 ^ 8) None (str "PING")) = str "PING".
Proof. apply (send_splits 8 (str "PING")). lia. Defined.
