(* ===== verification/MemoryLimit.v ===== *)
(** * Memory limits: effects of code that allocates

    Models [include/goblin/core/memory_limit.hpp]: the maxmemory ceiling, the
    budget of the active scope and the reservation helpers for vectors.  The
    containers that allocate under a budget ([SwissTable], [ChunkedSortedList])
    are written in the monad of this file: a computation changes a world (the
    active budget and the object it works on) and returns, throws or leaves the
    defined behaviour of C++.  The world after an exception is kept, so that
    exception safety can be stated. *)

From S2P Require Import Prelude.
From Stdlib Require Import ZArith Lia.

Local Open Scope Z_scope.

(** ** A monad of state, exceptions and undefined behaviour *)

Inductive exn :=
| MaxMemoryExceeded
| BadAlloc
| LengthError
| LogicError.

#[global] Instance exn_eq_dec : EqDecision exn.
Proof. solve_decision. Defined.

Inductive outcome (S A : Type) :=
| Ok (a : A) (s : S)
| Exn (e : exn) (s : S)
| Ub.
Arguments Ok {_ _} _ _.
Arguments Exn {_ _} _ _.
Arguments Ub {_ _}.

Definition M (S A : Type) : Type := S -> outcome S A.

#[global] Instance M_ret S : MRet (M S) := fun A a s => Ok a s.
#[global] Instance M_bind S : MBind (M S) := fun A B f m s =>
  match m s with
  | Ok a s => f a s
  | Exn e s => Exn e s
  | Ub => Ub
  end.

Definition gets {S A} (f : S -> A) : M S A := fun s => Ok (f s) s.
Definition modify {S} (f : S -> S) : M S unit := fun s => Ok tt (f s).
Definition throw {S A} (e : exn) : M S A := fun s => Exn e s.
Definition need {S A} (x : option A) : M S A := fun s =>
  match x with Some a => Ok a s | None => Ub end.
Definition require {S} (b : bool) : M S unit := fun s => if b then Ok tt s else Ub.
Definition when {S} (b : bool) (m : M S unit) : M S unit := if b then m else mret tt.
Definition try_catch {S A} (m : M S A) (h : exn -> M S A) : M S A := fun s =>
  match m s with
  | Exn e s => h e s
  | r => r
  end.

(** [wp m Q E s]: started in [s], [m] stays defined, and it returns in a state
    of [Q] or throws in a state of [E]. *)
Definition wp {S A} (m : M S A) (Q : A -> S -> Prop) (E : exn -> S -> Prop) (s : S) : Prop :=
  match m s with
  | Ok a s => Q a s
  | Exn e s => E e s
  | Ub => False
  end.

Section wp_rules.
Context {S : Type}.
Implicit Types (E : exn -> S -> Prop) (s : S).

Lemma wp_mono {A} (m : M S A) (Q Q' : A -> S -> Prop) E E' s :
  wp m Q E s -> (forall a s, Q a s -> Q' a s) -> (forall e s, E e s -> E' e s) -> wp m Q' E' s.
Proof. unfold wp. destruct (m s); auto. Qed.

Lemma wp_bind {A B} (m : M S A) (f : A -> M S B) Q E s :
  wp m (fun a s => wp (f a) Q E s) E s -> wp (m ≫= f) Q E s.
Proof. unfold wp, mbind, M_bind. by destruct (m s). Qed.

Lemma wp_bind_inv {A B} (m : M S A) (f : A -> M S B) Q E s :
  wp (m ≫= f) Q E s -> wp m (fun a s => wp (f a) Q E s) E s.
Proof. unfold wp, mbind, M_bind. by destruct (m s). Qed.

Lemma wp_ret {A} (a : A) (Q : A -> S -> Prop) E s : Q a s -> wp (mret a) Q E s.
Proof. done. Qed.

Lemma wp_gets {A} (f : S -> A) (Q : A -> S -> Prop) E s : Q (f s) s -> wp (gets f) Q E s.
Proof. done. Qed.

Lemma wp_modify (f : S -> S) (Q : unit -> S -> Prop) E s : Q tt (f s) -> wp (modify f) Q E s.
Proof. done. Qed.

Lemma wp_throw {A} e (Q : A -> S -> Prop) E s : E e s -> wp (throw e) Q E s.
Proof. done. Qed.

Lemma wp_need {A} (x : option A) a (Q : A -> S -> Prop) E s : x = Some a -> Q a s -> wp (need x) Q E s.
Proof. by intros ->. Qed.

Lemma wp_require b (Q : unit -> S -> Prop) E s : b = true -> Q tt s -> wp (require b) Q E s.
Proof. by intros ->. Qed.

Lemma wp_when b m (Q : unit -> S -> Prop) E s :
  (b = true -> wp m Q E s) -> (b = false -> Q tt s) -> wp (when b m) Q E s.
Proof. intros H1 H2. destruct b; [by apply H1|by apply wp_ret, H2]. Qed.

Lemma wp_catch {A} (m : M S A) h Q E s :
  wp m Q (fun e s => wp (h e) Q E s) s -> wp (try_catch m h) Q E s.
Proof. unfold wp, try_catch. by destruct (m s). Qed.

(** What an execution proves of its outcome. *)
Lemma wp_Ok {A} (m : M S A) (Q : A -> S -> Prop) E s a s' : wp m Q E s -> m s = Ok a s' -> Q a s'.
Proof. unfold wp. intros H Hm. by rewrite Hm in H. Qed.

Lemma wp_intro {A} (m : M S A) s a s' (Q : A -> S -> Prop) E : m s = Ok a s' -> Q a s' -> wp m Q E s.
Proof. unfold wp. by intros ->. Qed.

End wp_rules.

(** ** Budgets *)

(** A ceiling: its address, its limit and what the bound usage callback reports
    (the footprint of the store, computed elsewhere); [usage] is [None] before
    [bind]. *)
Record MemoryCeiling := {
  address : nat;
  limit_ : Z;
  usage_ : option Z;
}.

Definition enabled (c : MemoryCeiling) : bool := negb (limit_ c =? 0).
Definition current_usage (c : MemoryCeiling) : Z := default 0 (usage_ c).

(** [MemoryCeiling::ensure_growth] and [ensure_current_fits]: [false] is the
    exception [MaxMemoryExceeded]. *)
Definition ensure_growth (c : MemoryCeiling) (bytes : Z) : bool :=
  if (bytes =? 0) || (limit_ c =? 0) then true
  else
    let used := current_usage c in
    negb ((used >=? limit_ c) || (bytes >? limit_ c - used)).
Definition ensure_current_fits (c : MemoryCeiling) : bool :=
  match usage_ c with
  | Some usage => negb (negb (limit_ c =? 0) && (usage >? limit_ c))
  | None => true
  end.

Record ActiveMemoryBudget := {
  ceiling : option MemoryCeiling;
  used : Z;
  reserved_growth : Z;
  used_loaded : bool;
}.

Definition new_budget (c : option MemoryCeiling) : ActiveMemoryBudget :=
  {| ceiling := c; used := 0; reserved_growth := 0; used_loaded := false |}.

Definition load_usage (b : ActiveMemoryBudget) : ActiveMemoryBudget :=
  if used_loaded b then b
  else {| ceiling := ceiling b;
          used := match ceiling b with None => 0 | Some c => current_usage c end;
          reserved_growth := reserved_growth b; used_loaded := true |}.

(** [None] for a budget without a ceiling to enforce. *)
Definition enforced (b : ActiveMemoryBudget) : option MemoryCeiling :=
  c ← ceiling b; if enabled c then Some c else None.

(** [ActiveMemoryBudget::ensure] and [allows]; the boolean of [ensure] is
    [false] when it throws. *)
Definition ensure (bytes : Z) (b : ActiveMemoryBudget) : bool * ActiveMemoryBudget :=
  match enforced b with
  | Some c =>
      if bytes =? 0 then (true, b)
      else
        let b := load_usage b in
        if (used b >=? limit_ c) || (reserved_growth b >? limit_ c - used b)
           || (bytes >? limit_ c - used b - reserved_growth b)
        then (false, b)
        else (true, {| ceiling := ceiling b; used := used b;
                       reserved_growth := reserved_growth b + bytes;
                       used_loaded := used_loaded b |})
  | None => (true, b)
  end.

Definition allows (bytes : Z) (b : ActiveMemoryBudget) : bool * ActiveMemoryBudget :=
  match enforced b with
  | Some c =>
      if bytes =? 0 then (true, b)
      else
        let b := load_usage b in
        ((used b <? limit_ c) && (reserved_growth b <=? limit_ c - used b)
         && (bytes <=? limit_ c - used b - reserved_growth b), b)
  | None => (true, b)
  end.

(** ** Worlds *)

(** [mem] is the thread's [active_memory_budget], [None] for a null pointer;
    [obj] is the object a computation works on. *)
Record world (O : Type) := World {
  mem : option ActiveMemoryBudget;
  obj : O;
}.
Arguments World {_} _ _.
Arguments mem {_} _.
Arguments obj {_} _.

Definition obj_get {O A} (f : O -> A) : M (world O) A := gets (fun w => f (obj w)).
Definition obj_mod {O} (f : O -> O) : M (world O) unit :=
  modify (fun w => World (mem w) (f (obj w))).

(** Runs a computation on a part of the object. *)
Definition zoom {O P A} (get : O -> P) (set : P -> O -> O) (m : M (world P) A) : M (world O) A :=
  fun w =>
    match m (World (mem w) (get (obj w))) with
    | Ok a v => Ok a (World (mem v) (set (obj v) (obj w)))
    | Exn e v => Exn e (World (mem v) (set (obj v) (obj w)))
    | Ub => Ub
    end.

Lemma wp_zoom {O P A} get set (m : M (world P) A) (Q : A -> world O -> Prop) E w :
  wp m (fun a v => Q a (World (mem v) (set (obj v) (obj w))))
       (fun e v => E e (World (mem v) (set (obj v) (obj w)))) (World (mem w) (get (obj w))) ->
  wp (zoom get set m) Q E w.
Proof. unfold wp, zoom. by destruct (m _). Qed.

Lemma wp_obj_get {O A} (f : O -> A) (Q : A -> world O -> Prop) E w : Q (f (obj w)) w -> wp (obj_get f) Q E w.
Proof. done. Qed.

Lemma wp_obj_mod {O} (f : O -> O) (Q : unit -> world O -> Prop) E w :
  Q tt (World (mem w) (f (obj w))) -> wp (obj_mod f) Q E w.
Proof. done. Qed.

Definition ensure_memory_growth {O} (bytes : Z) : M (world O) unit := fun w =>
  match mem w with
  | None => Ok tt w
  | Some b =>
      let '(ok, b) := ensure bytes b in
      if ok then Ok tt (World (Some b) (obj w)) else Exn MaxMemoryExceeded (World (Some b) (obj w))
  end.

Definition memory_growth_allowed {O} (bytes : Z) : M (world O) bool := fun w =>
  match mem w with
  | None => Ok true w
  | Some b => let '(ok, b) := allows bytes b in Ok ok (World (Some b) (obj w))
  end.

Definition memory_ceiling_active {O} (w : world O) : bool :=
  match mem w with
  | Some b => bool_decide (is_Some (enforced b))
  | None => false
  end.

(** [MemoryCeilingScope]: a nested scope of the same ceiling shares the budget
    of the outer one; any other ceiling (or none) gets a budget of its own, and
    leaving the scope restores the outer one. *)
Definition same_ceiling (a b : option MemoryCeiling) : bool :=
  bool_decide (address <$> a = address <$> b).
Definition in_scope {O A} (c : option MemoryCeiling) (m : M (world O) A) : M (world O) A := fun w =>
  let shared := match mem w with Some b => same_ceiling (ceiling b) c | None => false end in
  if shared then m w
  else match m (World (Some (new_budget c)) (obj w)) with
       | Ok a v => Ok a (World (mem w) (obj v))
       | Exn e v => Exn e (World (mem w) (obj v))
       | Ub => Ub
       end.

(** ** Vectors under a budget *)

(** A [std::vector]: its elements and its capacity.  [reserve] of a larger
    capacity gives exactly that capacity. *)
Record vec (T : Type) := Vec {
  elems : list T;
  capacity : Z;
}.
Arguments Vec {_} _ _.
Arguments elems {_} _.
Arguments capacity {_} _.

Definition empty_vec {T} : vec T := Vec [] 0.
Definition vsize {T} (v : vec T) : nat := length (elems v).
Definition with_elems {T} (l : list T) (v : vec T) : vec T := Vec l (capacity v).

Section vectors.
Context {T : Type}.
Variable sizeof : Z.

Definition reserve_memory_vector (n : Z) : M (world (vec T)) unit :=
  cap ← obj_get capacity;
  if n <=? cap then mret tt
  else if n >? u64_max / sizeof then throw BadAlloc
  else
    ensure_memory_growth ((n - cap) * sizeof);;
    obj_mod (fun v => Vec (elems v) n).

Definition push_target (initial_capacity current : Z) : Z :=
  if current =? 0 then Z.max 1 initial_capacity
  else if current <=? u64_max / 2 then current * 2 else current + 1.

Definition reserve_memory_vector_for_push (initial_capacity : Z) : M (world (vec T)) unit :=
  v ← obj_get id;
  if Z.of_nat (vsize v) <? capacity v then mret tt
  else reserve_memory_vector (push_target initial_capacity (capacity v)).
End vectors.

(** Code that returns or throws [std::length_error], run on an object. *)
Definition lift {O A} (x : result A) : M (world O) A :=
  match x with
  | Ret a => mret a
  | Throw _ => throw LengthError
  | Undef => need None
  end.

(** Runs a computation on a local object and returns it; an exception discards it. *)
Definition local {O P} (init : P) (m : M (world P) unit) : M (world O) P := fun w =>
  match m (World (mem w) init) with
  | Ok _ v => Ok (obj v) (World (mem v) (obj w))
  | Exn e v => Exn e (World (mem v) (obj w))
  | Ub => Ub
  end.

Lemma wp_lift {O A} (x : result A) a (Q : A -> world O -> Prop) E w : x = Ret a -> Q a w -> wp (lift x) Q E w.
Proof. by intros ->. Qed.

Lemma wp_local {O P} (init : P) (m : M (world P) unit) (Q : P -> world O -> Prop) E w :
  wp m (fun _ v => Q (obj v) (World (mem v) (obj w))) (fun e v => E e (World (mem v) (obj w))) (World (mem w) init) ->
  wp (local init m) Q E w.
Proof. unfold wp, local. by destruct (m _). Qed.

(** ** Soundness of the budget *)

(** What has been granted fits between the loaded usage and the limit. *)
Definition budget_ok (b : ActiveMemoryBudget) : Prop :=
  0 <= reserved_growth b
  /\ (used_loaded b = false -> reserved_growth b = 0)
  /\ (used_loaded b = true -> forall c, ceiling b = Some c -> used b = current_usage c)
  /\ (0 < reserved_growth b -> forall c, enforced b = Some c -> used b + reserved_growth b <= limit_ c).

Definition world_ok {O} (w : world O) : Prop := from_option budget_ok True (mem w).

(** No active budget limits anything. *)
Definition unlimited (b : option ActiveMemoryBudget) : Prop := (b ≫= enforced) = None.

(** A sequence of requests, until one is refused: the bytes granted in all. *)
Fixpoint ensure_all (requests : list Z) (b : ActiveMemoryBudget) : Z * ActiveMemoryBudget :=
  match requests with
  | [] => (0, b)
  | n :: requests =>
      let '(ok, b) := ensure n b in
      if ok then let '(granted, b) := ensure_all requests b in (n + granted, b) else (0, b)
  end.

Lemma load_usage_spec b : budget_ok b ->
  budget_ok (load_usage b) /\ ceiling (load_usage b) = ceiling b
  /\ reserved_growth (load_usage b) = reserved_growth b /\ used_loaded (load_usage b) = true.
Proof.
  intros Hb. unfold load_usage. destruct (used_loaded b) eqn:E; [done|].
  destruct Hb as (H0 & H1 & H2 & H3). specialize (H1 E). split; [|done]. split_and!; simpl; [lia|done|by intros _ c ->|lia].
Qed.

(** [ensure] on every branch: the ceiling stays, and a granted request is added
    to the reserved growth. *)
Lemma ensure_spec n b ok b' :
  0 <= n -> budget_ok b -> ensure n b = (ok, b') ->
  budget_ok b' /\ ceiling b' = ceiling b
  /\ (enforced b = None -> ok = true /\ b' = b)
  /\ (is_Some (enforced b) -> reserved_growth b' = reserved_growth b + if ok then n else 0).
Proof.
  intros Hn Hb. unfold ensure. destruct (enforced b) as [c|] eqn:Hc.
  2: { intros [= <- <-]. split_and!; auto. by intros [? ?]. }
  case_bool; [intros [= <- <-]; subst; split_and!; auto; lia|].
  destruct (load_usage_spec b Hb) as (Hl & He & Hr & Hld). revert Hl He Hr Hld.
  generalize (load_usage b). intros l Hl He Hr Hld.
  destruct (_ || _ || _)%bool eqn:Hg; intros [= <- <-]; [split_and!; auto; [done|lia]|].
  apply orb_false_iff in Hg as [Hg Hg3]. apply orb_false_iff in Hg as [Hg1 Hg2].
  rewrite Z.geb_leb, Z.leb_gt in Hg1. rewrite Z.gtb_ltb, Z.ltb_ge in Hg2, Hg3.
  destruct Hl as (Hl0 & Hl1 & Hl2 & Hl3).
  split_and!; [|by simpl|done|simpl; intros _; lia].
  split_and!; simpl; [lia|congruence|auto|].
  { unfold enforced in *. simpl. rewrite He, Hc. intros _ c' [= <-]. lia. }
Qed.

Lemma enforced_ceiling b b' : ceiling b' = ceiling b -> enforced b' = enforced b.
Proof. unfold enforced. by intros ->. Qed.

Lemma ensure_all_spec requests b :
  Forall (Z.le 0) requests -> budget_ok b ->
  let '(granted, b') := ensure_all requests b in
  budget_ok b' /\ ceiling b' = ceiling b /\ 0 <= granted
  /\ (is_Some (enforced b) -> reserved_growth b' = reserved_growth b + granted).
Proof.
  intros Hr. revert b. induction Hr as [|n requests Hn Hr IH]; intros b Hb; simpl; [split_and!; auto; lia|].
  destruct (ensure n b) as [ok b1] eqn:E. apply ensure_spec in E as (H1 & H2 & H3 & H4); [|done..].
  destruct ok; [|split_and!; auto; lia].
  specialize (IH b1 H1). destruct (ensure_all requests b1) as [granted b2]. destruct IH as (I1 & I2 & I3 & I4).
  split_and!; auto; [congruence|lia|]. intros Hs. rewrite I4, H4 by (done || by rewrite (enforced_ceiling b b1)). lia.
Qed.

(** [allows] answers what [ensure] would do. *)
Lemma allows_ensure n b : (allows n b).1 = (ensure n b).1.
Proof.
  unfold allows, ensure. destruct (enforced b) as [c|]; [|done]. destruct (n =? 0); [done|].
  generalize (load_usage b). intros l. simpl. repeat case_bool; simpl; try done; lia.
Qed.

(** A nested scope of the same ceiling works on the same budget. *)
Lemma in_scope_shared {O A} c b (m : M (world O) A) (o : O) :
  same_ceiling (ceiling b) c = true -> in_scope c m (World (Some b) o) = m (World (Some b) o).
Proof. unfold in_scope. simpl. by intros ->. Qed.

(** What the clients of the budget see of it: asking never touches the object,
    never fails without a limit, and a granted [allows] makes [ensure] succeed. *)
Lemma unlimited_ensure n b : unlimited (Some b) -> ensure n b = (true, b).
Proof. unfold unlimited, ensure. simpl. by intros ->. Qed.

Lemma unlimited_allows n b : unlimited (Some b) -> allows n b = (true, b).
Proof. unfold unlimited, allows. simpl. by intros ->. Qed.

Lemma wp_ensure_memory_growth {O} n (Q : unit -> world O -> Prop) E w :
  (forall b, (unlimited (mem w) -> b = mem w) -> Q tt (World b (obj w))) ->
  (~ unlimited (mem w) -> forall b, E MaxMemoryExceeded (World b (obj w))) ->
  wp (ensure_memory_growth n) Q E w.
Proof.
  intros HQ HE. destruct w as [[b|] o]; unfold wp, ensure_memory_growth; simpl in *; [|by apply HQ].
  destruct (ensure n b) as [ok b'] eqn:He. destruct ok.
  - apply HQ. intros Hu. rewrite (unlimited_ensure n b Hu) in He. by injection He as ->.
  - apply HE. intros Hu. by rewrite (unlimited_ensure n b Hu) in He.
Qed.

(** A request that the budget would grant. *)
Definition granted (n : Z) (b : option ActiveMemoryBudget) : Prop :=
  match b with Some b => (ensure n b).1 = true | None => True end.

Lemma unlimited_granted n b : unlimited b -> granted n b.
Proof. intros Hu. destruct b; simpl; [|done]. by rewrite unlimited_ensure. Qed.

Lemma wp_memory_growth_allowed {O} n (Q : bool -> world O -> Prop) E w :
  (unlimited (mem w) -> Q true w) ->
  (~ unlimited (mem w) -> forall ok b, (ok = true -> granted n b) -> Q ok (World b (obj w))) ->
  wp (memory_growth_allowed n) Q E w.
Proof.
  intros HQ HE. destruct w as [[b|] o]; unfold wp, memory_growth_allowed; simpl in *; [|by apply HQ].
  destruct (enforced b) as [c|] eqn:Hc.
  2: { rewrite unlimited_allows by done. by apply HQ. }
  pose proof (allows_ensure n b) as Ha. destruct (allows n b) as [ok b'] eqn:He. simpl in Ha.
  apply HE; [by unfold unlimited; simpl; rewrite Hc|]. intros ->. simpl.
  unfold allows in He. unfold ensure in Ha |- *. rewrite Hc in He, Ha.
  destruct (n =? 0) eqn:Hn; [injection He as <-; by rewrite Hc|].
  injection He as He <-. destruct (load_usage b) as [c1 u1 r1 l1] eqn:Hl.
  assert (Hl1 : l1 = true /\ c1 = ceiling b).
  { unfold load_usage in Hl. destruct (used_loaded b) eqn:Hb; [by subst b|by injection Hl as <-]. }
  destruct Hl1 as [-> ->]. unfold enforced in *. simpl in *. rewrite Hc. unfold load_usage. simpl. by destruct (_ || _ || _)%bool.
Qed.

(** Reservations keep the elements; they throw only under a limit or beyond the
    address space, and then leave the vector as it was. *)
Definition is_bad_alloc (e : exn) : bool :=
  match e with MaxMemoryExceeded | BadAlloc => true | LengthError | LogicError => false end.

Section reserve.
Context {T : Type}.
Variable sizeof : Z.
Implicit Types (Q : unit -> world (vec T) -> Prop) (E : exn -> world (vec T) -> Prop) (w : world (vec T)).

Lemma wp_reserve_memory_vector n Q E w :
  (n <= capacity (obj w) -> Q tt w) ->
  (capacity (obj w) < n -> forall b, (unlimited (mem w) -> b = mem w) -> Q tt (World b (Vec (elems (obj w)) n))) ->
  (~ unlimited (mem w) \/ u64_max / sizeof < n -> forall b e, (unlimited (mem w) -> b = mem w) ->
     is_bad_alloc e = true -> E e (World b (obj w))) ->
  wp (reserve_memory_vector sizeof n) Q E w.
Proof.
  intros H1 H2 H3. unfold reserve_memory_vector. apply wp_bind, wp_obj_get.
  case_bool; [by apply wp_ret, H1|]. destruct w as [b v]. simpl in *.
  case_bool; case_bool; [apply wp_throw, H3; [by right|done|done]|].
  apply wp_bind, wp_ensure_memory_growth.
  - intros b' Hb'. apply wp_obj_mod. by apply H2.
  - intros Hu b'. apply H3; [by left|done|done].
Qed.

Lemma push_target_grows initial n : 0 <= n -> n < push_target initial n.
Proof. intros Hn. unfold push_target. repeat case_bool; lia. Qed.

Lemma wp_reserve_for_push initial Q E w :
  (Z.of_nat (vsize (obj w)) < capacity (obj w) -> Q tt w) ->
  (capacity (obj w) <= Z.of_nat (vsize (obj w)) -> forall b n, (unlimited (mem w) -> b = mem w) ->
     capacity (obj w) < n -> Q tt (World b (Vec (elems (obj w)) n))) ->
  (capacity (obj w) <= Z.of_nat (vsize (obj w)) ->
   ~ unlimited (mem w) \/ u64_max / sizeof < push_target initial (capacity (obj w)) ->
   forall b e, (unlimited (mem w) -> b = mem w) -> is_bad_alloc e = true -> E e (World b (obj w))) ->
  0 <= capacity (obj w) ->
  wp (reserve_memory_vector_for_push sizeof initial) Q E w.
Proof.
  intros H1 H2 H3 Hc. unfold reserve_memory_vector_for_push. apply wp_bind, wp_obj_get. unfold id.
  case_bool; [by apply wp_ret, H1|]. pose proof (push_target_grows initial (capacity (obj w)) Hc).
  apply wp_reserve_memory_vector.
  - lia.
  - intros _ b Hb. by apply H2.
  - intros Hx b e Hb He. by apply H3.
Qed.

(** Within the address space only the limit refuses. *)
Lemma wp_reserve_small n Q E w :
  n <= u64_max / sizeof ->
  (forall b, (unlimited (mem w) -> b = mem w) -> Q tt (World b (Vec (elems (obj w)) (Z.max n (capacity (obj w)))))) ->
  (~ unlimited (mem w) -> forall b, E MaxMemoryExceeded (World b (obj w))) ->
  wp (reserve_memory_vector sizeof n) Q E w.
Proof.
  intros Hn H1 H2. unfold reserve_memory_vector. apply wp_bind, wp_obj_get. destruct w as [b [l c]]. simpl in *.
  case_bool; [apply wp_ret; rewrite <- (Z.max_r n c) by lia; by apply H1|]. case_bool; case_bool; [lia|].
  apply wp_bind, wp_ensure_memory_growth; [|done]. intros b' Hb'. apply wp_obj_mod. simpl. rewrite <- (Z.max_l n c) by lia. by apply H1.
Qed.

Lemma wp_reserve_push_small initial Q E w :
  push_target initial (capacity (obj w)) <= u64_max / sizeof -> 0 <= capacity (obj w) ->
  (forall b c, (unlimited (mem w) -> b = mem w) -> Z.of_nat (vsize (obj w)) < c \/ c = push_target initial (capacity (obj w)) ->
     c <= Z.max (capacity (obj w)) (if capacity (obj w) <=? Z.of_nat (vsize (obj w)) then push_target initial (capacity (obj w)) else 0) ->
     Q tt (World b (Vec (elems (obj w)) c))) ->
  (~ unlimited (mem w) -> forall b, E MaxMemoryExceeded (World b (obj w))) ->
  wp (reserve_memory_vector_for_push sizeof initial) Q E w.
Proof.
  intros Hn Hc H1 H2. unfold reserve_memory_vector_for_push. apply wp_bind, wp_obj_get. unfold id. pose proof (push_target_grows initial (capacity (obj w)) Hc).
  case_bool.
  - apply wp_ret. destruct w as [b [l c]]. simpl in *. apply H1; [done|by left|lia].
  - apply wp_reserve_small; [done| |done]. intros b Hb. rewrite Z.max_l by lia. apply H1; [done|by right|]. rewrite (proj2 (Z.leb_le _ _)) by lia. lia.
Qed.

(** A reservation that was allowed beforehand does not throw. *)
Lemma wp_reserve_granted n Q E w :
  n <= u64_max / sizeof ->
  (capacity (obj w) < n -> granted ((n - capacity (obj w)) * sizeof) (mem w)) ->
  (forall b v, (unlimited (mem w) -> b = mem w) -> elems v = elems (obj w) -> Z.max n (capacity (obj w)) <= capacity v -> Q tt (World b v)) ->
  wp (reserve_memory_vector sizeof n) Q E w.
Proof.
  intros Hn Hg HQ. unfold reserve_memory_vector. apply wp_bind, wp_obj_get. destruct w as [b v]. simpl in *.
  case_bool; [apply wp_ret, HQ; [done|done|lia]|]. case_bool. case_bool; [lia|].
  specialize (Hg ltac:(lia)). unfold wp, ensure_memory_growth, mbind, M_bind. simpl.
  destruct b as [b|]; simpl in Hg.
  - destruct (ensure _ b) as [ok b'] eqn:He. simpl in Hg. subst ok. simpl. apply HQ; simpl; [|done|lia].
    intros Hu. rewrite (unlimited_ensure _ b Hu) in He. by injection He as ->.
  - apply HQ; simpl; [done|done|lia].
Qed.

Lemma push_target_small initial n :
  0 < sizeof <= 1024 -> 0 <= initial <= 2 ^ 48 -> 0 <= n <= 2 ^ 48 -> push_target initial n <= u64_max / sizeof.
Proof.
  intros Hs Hi Hn. assert (H : u64_max / 1024 <= u64_max / sizeof) by (apply Z.div_le_compat_l; unfold u64_max; lia).
  assert (Hu : u64_max / 1024 = 2 ^ 54 - 1) by (vm_compute; reflexivity).
  unfold push_target. repeat case_bool; lia.
Qed.
End reserve.

(** However many allocation sites ask the budget of a scope, and whether or
    not it runs out, what is granted in all fits between the footprint of the
    store and the limit; a site that asks beforehand with [allows] learns what
    [ensure] would do, and a nested scope of the same ceiling draws on the same
    budget. *)
Theorem memory_budget_sound (c : MemoryCeiling) (requests : list Z) :
  limit_ c <> 0 -> Forall (Z.le 0) requests ->
  let '(granted, b) := ensure_all requests (new_budget (Some c)) in
  (granted = 0 \/ current_usage c + granted <= limit_ c)
  /\ (forall n, (allows n b).1 = (ensure n b).1)
  /\ (forall O A (m : M (world O) A) o, in_scope (Some c) m (World (Some b) o) = m (World (Some b) o)).
Proof.
  intros Hl Hr. pose proof (ensure_all_spec requests (new_budget (Some c)) Hr) as H.
  destruct (ensure_all requests _) as [granted b]. destruct H as (H1 & H2 & H3 & H4); [by split_and!|].
  assert (He : enforced (new_budget (Some c)) = Some c).
  { unfold enforced, enabled. simpl. by rewrite (proj2 (Z.eqb_neq _ _) Hl). }
  rewrite He in H4. specialize (H4 ltac:(done)). simpl in H4. split_and!.
  - destruct H1 as (H10 & H11 & H12 & H13). destruct (decide (granted = 0)) as [|Hg]; [by left|right].
    rewrite <- (H12 ltac:(destruct (used_loaded b); [done|specialize (H11 eq_refl); lia]) c ltac:(done)).
    specialize (H13 ltac:(lia) c). rewrite (enforced_ceiling _ b H2) in H13. specialize (H13 He). lia.
  - intros n. apply allows_ensure.
  - intros O A m o. apply in_scope_shared. rewrite H2. unfold same_ceiling. by rewrite bool_decide_eq_true_2.
Qed.

Definition sample_ceiling : MemoryCeiling := {| address := 1; limit_ := 1000; usage_ := Some 900 |}.

Lemma memory_budget_sound_witness :
  let '(granted, b) := ensure_all [40; 50; 20; 5] (new_budget (Some sample_ceiling)) in
  granted = 90 /\ (granted = 0 \/ current_usage sample_ceiling + granted <= limit_ sample_ceiling).
Proof.
  assert (H : Forall (Z.le 0) [40; 50; 20; 5]) by (repeat constructor; lia).
  pose proof (memory_budget_sound sample_ceiling [40; 50; 20; 5] ltac:(discriminate) H) as Hs.
  vm_compute in Hs |- *. destruct Hs as (Hs & _). split; [reflexivity|exact Hs].
Defined.
