(* ===== verification/ChunkedSortedList.v ===== *)
(** * Chunked sorted list

    Models [include/goblin/core/chunked_sorted_list.hpp]: a sorted sequence kept
    in blocks of bounded size, with the largest element of each block in a second
    vector and a lazily built tree of block sizes for positional access.  Every
    operation allocates under the budget of [MemoryLimit]; a count that would
    wrap below zero and an access out of a vector are undefined outcomes, so the
    theorems exclude both. *)

From S2P Require Import Prelude MemoryLimit.
From Stdlib Require Import ZArith Lia Sorting.Sorted.

#[local] Arguments Nat.div : simpl never.

(** ** Binary search, as [std::ranges::lower_bound] and [upper_bound] do it *)

Section search.
Context {T : Type}.
Implicit Types (p : T -> bool) (l : list T).

Fixpoint partition_loop (fuel : nat) p l (first len : nat) : nat :=
  match fuel with
  | O => first
  | S fuel =>
      match len with
      | O => first
      | S _ =>
          let half := Nat.div2 len in
          let mid := (first + half)%nat in
          match l !! mid with
          | Some x =>
              if p x then partition_loop fuel p l (mid + 1) (len - half - 1)
              else partition_loop fuel p l first half
          | None => first
          end
      end
  end.
Definition partition_point p l : nat := partition_loop (length l) p l 0 (length l).

(** The reference: the length of the longest prefix that satisfies [p]. *)
Fixpoint prefix_count p l : nat :=
  match l with
  | [] => 0
  | x :: l => if p x then S (prefix_count p l) else 0
  end.

Lemma prefix_count_le p l : (prefix_count p l <= length l)%nat.
Proof. induction l as [|x l IH]; simpl; [done|]. destruct (p x); lia. Qed.

Lemma prefix_count_app p a b :
  prefix_count p (a ++ b) = if forallb p a then (length a + prefix_count p b)%nat else prefix_count p a.
Proof. induction a as [|x a IH]; simpl; [done|]. destruct (p x); simpl; [|done]. rewrite IH. by destruct (forallb p a). Qed.

Lemma prefix_count_split p l :
  exists a b, l = a ++ b /\ length a = prefix_count p l /\ Forall (fun x => p x = true) a
    /\ (forall x b', b = x :: b' -> p x = false).
Proof.
  induction l as [|x l (a & b & -> & Ha & Hf & Hb)]; [by exists [], []|]. simpl. destruct (p x) eqn:Hx.
  - exists (x :: a), b. split_and!; simpl; auto.
  - exists [], (x :: a ++ b). split_and!; auto. by intros ? ? [= <- <-].
Qed.

(** [p] holds on a prefix and nowhere after it. *)
Definition partitioned p l : Prop :=
  forall i j x y, (i <= j)%nat -> l !! i = Some x -> l !! j = Some y -> p y = true -> p x = true.

Lemma prefix_count_true p l i x :
  l !! i = Some x -> (i < prefix_count p l)%nat -> p x = true.
Proof.
  revert i. induction l as [|y l IH]; intros i Hl Hi; simpl in *; [lia|]. destruct (p y) eqn:Hy; [|lia].
  destruct i; simpl in Hl; [congruence|]. apply (IH i); auto with lia.
Qed.

Lemma prefix_count_false p l i x :
  partitioned p l -> l !! i = Some x -> (prefix_count p l <= i)%nat -> p x = false.
Proof.
  revert i. induction l as [|y l IH]; intros i Hp Hl Hi; simpl in *; [done|]. destruct (p y) eqn:Hy.
  - destruct i; [lia|]. simpl in Hl. apply (IH i); [|done|lia].
    intros i' j' x' y' ? H1 H2. apply (Hp (S i') (S j') x' y'); simpl; auto with lia.
  - destruct (p x) eqn:Hx; [|done]. rewrite (Hp 0%nat i y x) in Hy; auto with lia.
Qed.

Lemma partition_loop_spec p l fuel first len :
  partitioned p l -> (len <= fuel)%nat -> (first <= prefix_count p l <= first + len)%nat ->
  (first + len <= length l)%nat -> partition_loop fuel p l first len = prefix_count p l.
Proof.
  intros Hp. revert first len. induction fuel as [|fuel IH]; intros first len Hf Hr Hl; simpl; [lia|].
  destruct len as [|len']; [lia|].
  pose proof (Nat.div2_div (S len')) as Hd. pose proof (Nat.div_lt (S len') 2 ltac:(lia) ltac:(lia)).
  set (half := Nat.div2 (S len')) in *. clearbody half.
  destruct (lookup_lt_is_Some_2 l (first + half)%nat ltac:(lia)) as [x Hx].
  rewrite Hx. destruct (p x) eqn:E.
  - apply IH; try lia. split; [|lia].
    destruct (decide (first + half < prefix_count p l)%nat); [lia|].
    rewrite (prefix_count_false p l _ x Hp Hx) in E by lia. done.
  - apply IH; try lia. split; [lia|].
    destruct (decide (prefix_count p l <= first + half)%nat); [lia|].
    rewrite (prefix_count_true p l _ x Hx) in E by lia. done.
Qed.

(** Binary search finds the end of the prefix. *)
Lemma partition_point_spec p l : partitioned p l -> partition_point p l = prefix_count p l.
Proof. intros. apply partition_loop_spec; auto with lia. pose proof (prefix_count_le p l). lia. Qed.
End search.

(** ** The list *)

Section list.
Context {T : Type}.
Variable compare_ : T -> T -> bool.
Variable sizeof_T : Z.
Variable Load : nat.

Abbreviation Block := (vec T).
(** [sizeof (std::vector<T>)]: three pointers; [sizeof (size_type)]. *)
Definition sizeof_Block : Z := 24.
Definition sizeof_size_type : Z := 8.

Record ChunkedSortedList := {
  blocks_ : vec Block;
  maxes_ : vec T;
  index_ : vec nat;
  index_offset_ : nat;
  size_ : nat;
}.

Definition empty_list : ChunkedSortedList :=
  {| blocks_ := empty_vec; maxes_ := empty_vec; index_ := empty_vec; index_offset_ := 0; size_ := 0 |}.

Abbreviation L := ChunkedSortedList.
Abbreviation Op A := (M (world ChunkedSortedList) A).

Definition set_blocks (b : vec Block) (l : L) : L :=
  {| blocks_ := b; maxes_ := maxes_ l; index_ := index_ l; index_offset_ := index_offset_ l; size_ := size_ l |}.
Definition set_maxes (m : vec T) (l : L) : L :=
  {| blocks_ := blocks_ l; maxes_ := m; index_ := index_ l; index_offset_ := index_offset_ l; size_ := size_ l |}.
Definition set_index (i : vec nat) (offset : nat) (l : L) : L :=
  {| blocks_ := blocks_ l; maxes_ := maxes_ l; index_ := i; index_offset_ := offset; size_ := size_ l |}.
Definition set_size (n : nat) (l : L) : L :=
  {| blocks_ := blocks_ l; maxes_ := maxes_ l; index_ := index_ l; index_offset_ := index_offset_ l; size_ := n |}.

(** Vector [insert] and [erase] at a position, and [operator[]] assignment. *)
Definition insert_at {A} (i : nat) (x : A) (l : list A) : list A := take i l ++ x :: drop i l.
Definition erase_at {A} (i : nat) (l : list A) : list A := take i l ++ drop (S i) l.
Definition assign_at {A} (i : nat) (x : A) (l : list A) : option (list A) :=
  if decide (i < length l)%nat then Some (<[i := x]> l) else None.

Definition lower_bound (value : T) (l : list T) : nat := partition_point (fun x => compare_ x value) l.
Definition upper_bound (value : T) (l : list T) : nat := partition_point (fun x => negb (compare_ value x)) l.

Definition equivalent (lhs rhs : T) : bool := negb (compare_ lhs rhs) && negb (compare_ rhs lhs).

Definition block_count (l : L) : nat := vsize (blocks_ l).
Definition is_empty (l : L) : bool := Nat.eqb (size_ l) 0.

Definition lower_block (value : T) (l : L) : nat := lower_bound value (elems (maxes_ l)).
Definition upper_block (value : T) (l : L) : nat :=
  let block_index := upper_bound value (elems (maxes_ l)) in
  if Nat.eqb block_index (block_count l) then (block_count l - 1)%nat else block_index.

Definition block_at (i : nat) : Op Block := b ← obj_get (fun l => elems (blocks_ l) !! i); need b.

(** Updates of one block and of one maximum. *)
Definition set_block (i : nat) (b : Block) : Op unit :=
  bs ← obj_get (fun l => assign_at i b (elems (blocks_ l)));
  bs ← need bs;
  obj_mod (fun l => set_blocks (with_elems bs (blocks_ l)) l).
Definition set_max (i : nat) (b : list T) : Op unit :=
  m ← need (last b);
  ms ← obj_get (fun l => assign_at i m (elems (maxes_ l)));
  ms ← need ms;
  obj_mod (fun l => set_maxes (with_elems ms (maxes_ l)) l).
Definition insert_block (i : nat) (b : Block) : Op unit :=
  obj_mod (fun l => set_blocks (with_elems (insert_at i b (elems (blocks_ l))) (blocks_ l)) l).
Definition insert_max (i : nat) (b : list T) : Op unit :=
  m ← need (last b);
  obj_mod (fun l => set_maxes (with_elems (insert_at i m (elems (maxes_ l))) (maxes_ l)) l).
Definition erase_block (i : nat) : Op unit :=
  obj_mod (fun l => set_maxes (with_elems (erase_at i (elems (maxes_ l))) (maxes_ l))
                      (set_blocks (with_elems (erase_at i (elems (blocks_ l))) (blocks_ l)) l)).

Definition on_blocks {A} : M (world (vec Block)) A -> Op A := zoom blocks_ set_blocks.
Definition on_maxes {A} : M (world (vec T)) A -> Op A := zoom maxes_ set_maxes.

(** A reservation on a block of the list. *)
Definition reserve_block_for_push (i : nat) (initial : Z) : Op unit :=
  b ← block_at i;
  b ← local b (reserve_memory_vector_for_push sizeof_T initial);
  set_block i b.

Definition invalidate_index : Op unit :=
  obj_mod (fun l => set_index (with_elems [] (index_ l)) 0 l).

(** Room for one more block and its maximum. *)
Definition reserve_metadata : Op unit :=
  on_blocks (reserve_memory_vector_for_push sizeof_Block 1);;
  on_maxes (reserve_memory_vector_for_push sizeof_T 1).

Definition split_block (block_index : nat) : Op unit :=
  reserve_metadata;;
  block ← block_at block_index;
  let split_at := (vsize block / 2)%nat in
  right ← local empty_vec (reserve_memory_vector sizeof_T (Z.of_nat (vsize block - split_at)));
  let right := with_elems (drop split_at (elems block)) right in
  let block := with_elems (take split_at (elems block)) block in
  set_block block_index block;;
  insert_block (block_index + 1) right;;
  set_max block_index (elems block);;
  insert_max (block_index + 1) (elems right).

(** [try { split_block(...) } catch (const std::bad_alloc&) {}]: whether it was split. *)
Definition try_split (block_index : nat) (after : Op unit) : Op bool :=
  try_catch (split_block block_index;; after;; mret true)
    (fun e => if is_bad_alloc e then mret false else throw e).

Fixpoint update_loop (fuel : nat) (up : bool) (node : nat) (index : list nat) : option (list nat) :=
  match fuel with
  | O => None
  | S fuel =>
      x ← index !! node;
      x ← (if up then Some (S x) else match x with O => None | S x => Some x end);
      let index := <[node := x]> index in
      match node with
      | O => Some index
      | S n => update_loop fuel up (n / 2) index
      end
  end.

(** [update_index]: the sign of [delta] is [up]. *)
Definition update_index (block_index : nat) (up : bool) : Op unit :=
  l ← obj_get id;
  match elems (index_ l) with
  | [] => mret tt
  | index =>
      let node := (index_offset_ l + block_index)%nat in
      index ← need (update_loop (S node) up node index);
      obj_mod (set_index (with_elems index (index_ l)) (index_offset_ l))
  end.

(** The first value of an empty list. *)
Definition insert_first (value : T) : Op unit :=
  reserve_metadata;;
  obj_mod (fun l => set_blocks (with_elems (elems (blocks_ l) ++ [empty_vec]) (blocks_ l)) l);;
  reserve_block_for_push 0 (Z.of_nat Load);;
  b ← block_at 0;
  set_block 0 (with_elems (elems b ++ [value]) b);;
  obj_mod (fun l => set_size 1 (set_maxes (with_elems (elems (maxes_ l) ++ [value]) (maxes_ l)) l));;
  invalidate_index.

(** [auto& block = blocks_[block_index]] refers into the storage of [blocks_];
    [storage] stands for the address of that storage, which changes with the
    capacity.  The reference is used again after a failed split. *)
Definition insert_into (value : T) (block_index : nat) : Op unit :=
  block ← block_at block_index;
  storage ← obj_get (fun l => capacity (blocks_ l));
  let insert_offset := upper_bound value (elems block) in
  reserve_block_for_push block_index (Z.of_nat Load);;
  block ← block_at block_index;
  let block := with_elems (insert_at insert_offset value (elems block)) block in
  set_block block_index block;;
  obj_mod (fun l => set_size (S (size_ l)) l);;
  split ← (if (Load * 2 <? vsize block)%nat then try_split block_index invalidate_index else mret false);
  if split : bool then mret tt
  else
    storage' ← obj_get (fun l => capacity (blocks_ l));
    require (storage' =? storage)%Z;;
    block ← block_at block_index;
    set_max block_index (elems block);;
    update_index block_index true.

Definition insert (value : T) : Op unit :=
  l ← obj_get id;
  match elems (blocks_ l) with
  | [] => insert_first value
  | _ =>
      block_index ← obj_get (upper_block value);
      block ← block_at block_index;
      block_index ← (if (Load * 2 <? vsize block)%nat then
                       split_block block_index;;
                       invalidate_index;;
                       obj_get (upper_block value)
                     else mret block_index);
      insert_into value block_index
  end.

(** [left] takes the place of the two blocks it merges. *)
Definition replace_two (block_index : nat) (left : Block) : Op unit :=
  set_block block_index left;;
  erase_block (block_index + 1);;
  set_max block_index (elems left);;
  when (Load * 2 <? vsize left)%nat (try_split block_index (mret tt);; mret tt).

Definition merge_with_next (block_index : nat) : Op unit :=
  left ← block_at block_index;
  right ← block_at (block_index + 1);
  let required := Z.of_nat (vsize left + vsize right) in
  let growth := (if required >? capacity left then (required - capacity left) * sizeof_T else 0)%Z in
  ok ← memory_growth_allowed growth;
  if negb ok then mret tt
  else
    left ← local left (reserve_memory_vector sizeof_T required);
    replace_two block_index (with_elems (elems left ++ elems right) left).

Definition rebalance_after_erase (block_index : nat) : Op unit :=
  n ← obj_get block_count;
  if (block_index + 1 <? n)%nat then merge_with_next block_index
  else merge_with_next (block_index - 1).

(** The position of the first element equivalent to [value] in its block. *)
Definition find_in_block (value : T) (block : list T) : option nat :=
  let found := lower_bound value block in
  x ← block !! found;
  if equivalent x value then Some found else None.

(** [erase_one] once the element is out of its block. *)
Definition after_erase (block_index : nat) (block : Block) : Op unit :=
  if Nat.eqb (vsize block) 0 then
    erase_block block_index;;
    invalidate_index
  else
    set_max block_index (elems block);;
    update_index block_index false;;
    n ← obj_get block_count;
    when ((vsize block <? Load / 2)%nat && (1 <? n)%nat)
      (rebalance_after_erase block_index;; invalidate_index).

Definition erase_one (value : T) : Op bool :=
  l ← obj_get id;
  match elems (blocks_ l) with
  | [] => mret false
  | _ =>
      let block_index := lower_block value l in
      if Nat.eqb block_index (block_count l) then mret false
      else
        block ← block_at block_index;
        match find_in_block value (elems block) with
        | None => mret false
        | Some found =>
            let block := with_elems (erase_at found (elems block)) block in
            set_block block_index block;;
            obj_mod (fun l => set_size (size_ l - 1) l);;
            after_erase block_index block;;
            mret true
        end
  end.

(** *** Positional access *)

Definition bit_ceil (n : nat) : nat := (2 ^ Nat.log2_up n)%nat.

Fixpoint sum_nodes (i : nat) (index : list nat) : option (list nat) :=
  match i with
  | O => Some index
  | S node =>
      a ← index !! (node * 2 + 1)%nat;
      b ← index !! (node * 2 + 2)%nat;
      sum_nodes node (<[node := (a + b)%nat]> index)
  end.

(** The leaves: the block sizes, then the zeros of [assign]. *)
Definition leaves (leaf_count : nat) (blocks : list Block) : list nat :=
  map vsize blocks ++ replicate (leaf_count - length blocks) 0%nat.

Definition build_index : Op unit :=
  l ← obj_get id;
  match elems (index_ l), elems (blocks_ l) with
  | [], _ :: _ =>
      let leaf_count := bit_ceil (block_count l) in
      let index_offset := (leaf_count - 1)%nat in
      let required := (index_offset + leaf_count)%nat in
      let growth := (if Z.of_nat required >? capacity (index_ l)
                     then (Z.of_nat required - capacity (index_ l)) * sizeof_size_type else 0)%Z in
      ok ← memory_growth_allowed growth;
      if negb ok then mret tt
      else
        zoom index_ (fun i l => set_index i (index_offset_ l) l)
          (reserve_memory_vector sizeof_size_type (Z.of_nat required));;
        index ← need (sum_nodes index_offset
                        (replicate index_offset 0%nat ++ leaves leaf_count (elems (blocks_ l))));
        obj_mod (fun l => set_index (with_elems index (index_ l)) index_offset l)
  | _, _ => mret tt
  end.

Fixpoint climb (fuel : nat) (index : list nat) (node total : nat) : option nat :=
  match fuel, node with
  | _, O => Some total
  | O, _ => None
  | S fuel, S n =>
      let parent := (n / 2)%nat in
      let right_child := (parent * 2 + 2)%nat in
      total ← (if Nat.eqb node right_child
               then x ← index !! (parent * 2 + 1)%nat; Some (total + x)%nat
               else Some total);
      climb fuel index parent total
  end.

Definition prefix_size (block_index : nat) : Op nat :=
  build_index;;
  l ← obj_get id;
  match elems (index_ l) with
  | [] => mret (list_sum (map vsize (take block_index (elems (blocks_ l)))))
  | index =>
      let node := (index_offset_ l + block_index)%nat in
      need (climb node index node 0)
  end.

Fixpoint walk (blocks : list Block) (block index : nat) : nat * nat :=
  match blocks with
  | [] => (block, 0%nat)
  | b :: blocks => if (index <? vsize b)%nat then (block, index) else walk blocks (S block) (index - vsize b)
  end.

Fixpoint descend (fuel : nat) (tree : list nat) (offset node index : nat) : option (nat * nat) :=
  match fuel with
  | O => None
  | S fuel =>
      if (node <? offset)%nat then
        let left := (node * 2 + 1)%nat in
        left_size ← tree !! left;
        if (index <? left_size)%nat then descend fuel tree offset left index
        else descend fuel tree offset (left + 1) (index - left_size)
      else Some ((node - offset)%nat, index)
  end.

Definition position_at (index : nat) : Op (nat * nat) :=
  build_index;;
  l ← obj_get id;
  match elems (index_ l) with
  | [] => mret (walk (elems (blocks_ l)) 0 index)
  | tree => need (descend (S (index_offset_ l)) tree (index_offset_ l) 0 index)
  end.

Definition at_ (index : nat) : Op T :=
  '(block_index, offset) ← position_at index;
  block ← block_at block_index;
  need (elems block !! offset).

Fixpoint collect (blocks : list Block) (offset count : nat) : list T :=
  match blocks with
  | [] => []
  | b :: blocks =>
      match count with
      | O => []
      | S _ =>
          let take_ := Nat.min count (vsize b - offset) in
          take take_ (drop offset (elems b)) ++ collect blocks 0 (count - take_)
      end
  end.

Definition range (start count : nat) : Op (list T) :=
  l ← obj_get id;
  if Nat.eqb count 0 || (size_ l <=? start)%nat then mret []
  else
    let count := Nat.min count (size_ l - start) in
    '(block_index, offset) ← position_at start;
    blocks ← obj_get (fun l => elems (blocks_ l));
    mret (collect (drop block_index blocks) offset count).

Definition lower_bound_rank (value : T) : Op nat :=
  l ← obj_get id;
  match elems (blocks_ l) with
  | [] => mret 0%nat
  | _ =>
      let block_index := lower_block value l in
      if Nat.eqb block_index (block_count l) then mret (size_ l)
      else
        block ← block_at block_index;
        let found := lower_bound value (elems block) in
        before ← prefix_size block_index;
        mret (before + found)%nat
  end.

Definition rank (value : T) : Op (option nat) :=
  l ← obj_get id;
  match elems (blocks_ l) with
  | [] => mret None
  | _ =>
      let block_index := lower_block value l in
      if Nat.eqb block_index (block_count l) then mret None
      else
        block ← block_at block_index;
        match find_in_block value (elems block) with
        | None => mret None
        | Some found => before ← prefix_size block_index; mret (Some (before + found)%nat)
        end
  end.

Definition contains (value : T) : Op bool := r ← rank value; mret (bool_decide (is_Some r)).

Definition clear (l : L) : L :=
  {| blocks_ := with_elems [] (blocks_ l); maxes_ := with_elems [] (maxes_ l);
     index_ := with_elems [] (index_ l); index_offset_ := 0; size_ := 0 |}.

(** [validate]: adjacent elements, in a block and across blocks, are in order. *)
Fixpoint in_order (l : list T) : bool :=
  match l with
  | x :: (y :: _) as rest => negb (compare_ y x) && in_order rest
  | _ => true
  end.
Fixpoint validate_blocks (previous : option T) (blocks : list Block) (maxes : list T) (counted : nat) : option nat :=
  match blocks, maxes with
  | [], _ => Some counted
  | b :: blocks, m :: maxes =>
      match head (elems b), last (elems b) with
      | Some front, Some back =>
          if equivalent back m && in_order (elems b)
             && match previous with Some p => negb (compare_ front p) | None => true end
          then validate_blocks (Some back) blocks maxes (counted + vsize b)
          else None
      | _, _ => None
      end
  | _ :: _, [] => None
  end.
Definition validate (l : L) : bool :=
  if negb (Nat.eqb (vsize (blocks_ l)) (vsize (maxes_ l))) then false
  else match elems (blocks_ l) with
       | [] => Nat.eqb (size_ l) 0
       | blocks => bool_decide (validate_blocks None blocks (elems (maxes_ l)) 0 = Some (size_ l))
       end.

(** ** Invariant and specification *)

(** The order is a strict weak order. *)
Context (compare_asym : forall a b, compare_ a b = true -> compare_ b a = false).
Context (compare_cotrans : forall a b c, compare_ a c = true -> compare_ a b = true \/ compare_ b c = true).
Context (Load_big : (1 < Load)%nat) (Load_small : (Z.of_nat Load <= 2 ^ 40)%Z) (sizeof_T_pos : (0 < sizeof_T <= 1024)%Z).

Definition le (a b : T) : Prop := compare_ b a = false.

Definition view (l : L) : list (list T) := map elems (elems (blocks_ l)).
Definition contents (l : L) : list T := concat (view l).

(** What the operations do to the sorted sequence. *)
Definition sorted_insert (v : T) (l : list T) : list T :=
  insert_at (prefix_count (fun x => negb (compare_ v x)) l) v l.
Definition sorted_rank (v : T) (l : list T) : option nat :=
  let n := prefix_count (fun x => compare_ x v) l in
  x ← l !! n;
  if equivalent x v then Some n else None.
Definition sorted_erase (v : T) (l : list T) : list T :=
  match sorted_rank v l with Some n => erase_at n l | None => l end.

Definition vec_ok {A} (v : vec A) : Prop := (Z.of_nat (vsize v) <= capacity v)%Z.

(** The tree of block sizes: a perfect binary tree in breadth-first order. *)
Definition tree_ok (depth : nat) (blocks : list Block) (tree : list nat) : Prop :=
  length tree = (2 * 2 ^ depth - 1)%nat
  /\ (length blocks <= 2 ^ depth)%nat
  /\ (forall j, (j < 2 ^ depth)%nat -> tree !! (2 ^ depth - 1 + j)%nat = leaves (2 ^ depth) blocks !! j)
  /\ (forall n x, (n < 2 ^ depth - 1)%nat -> tree !! n = Some x ->
       exists a b, tree !! (n * 2 + 1)%nat = Some a /\ tree !! (n * 2 + 2)%nat = Some b /\ x = (a + b)%nat).

Definition index_ok (l : L) : Prop :=
  elems (index_ l) = []
  \/ exists depth, index_offset_ l = (2 ^ depth - 1)%nat /\ tree_ok depth (elems (blocks_ l)) (elems (index_ l)).

Record inv (l : L) : Prop := {
  inv_maxes : Forall2 (fun b m => last (elems b) = Some m) (elems (blocks_ l)) (elems (maxes_ l));
  inv_sorted : StronglySorted le (contents l);
  inv_size : size_ l = length (contents l);
  inv_index : index_ok l;
  inv_caps : vec_ok (blocks_ l) /\ vec_ok (maxes_ l) /\ vec_ok (index_ l) /\ Forall vec_ok (elems (blocks_ l));
}.

(** *** Order *)

Definition closed (p : T -> bool) : Prop := forall x y, le x y -> p y = true -> p x = true.

Lemma closed_lower v : closed (fun x => compare_ x v).
Proof. intros x y Hl Hy. destruct (compare_cotrans y x v Hy); [unfold le in Hl; congruence|done]. Qed.

Lemma closed_upper v : closed (fun x => negb (compare_ v x)).
Proof.
  intros x y Hl Hy. apply negb_true_iff in Hy. apply negb_true_iff. destruct (compare_ v x) eqn:E; [|done].
  destruct (compare_cotrans v y x E); unfold le in Hl; congruence.
Qed.

Lemma le_refl x : le x x.
Proof. unfold le. destruct (compare_ x x) eqn:E; [|done]. by rewrite (compare_asym x x E) in E. Qed.

Lemma le_trans x y z : le x y -> le y z -> le x z.
Proof.
  unfold le. intros H1 H2. destruct (compare_ z x) eqn:E; [|done].
  destruct (compare_cotrans z y x E); congruence.
Qed.

Lemma sorted_lookup l i j x y :
  StronglySorted le l -> (i <= j)%nat -> l !! i = Some x -> l !! j = Some y -> le x y.
Proof.
  intros Hs. revert i j. induction Hs as [|z l Hs IH Hz]; intros i j Hij Hi Hj; [done|].
  destruct i, j; simpl in *; [simplify_eq; apply le_refl| |lia|by eapply (IH i j); auto with lia].
  simplify_eq. rewrite Forall_lookup in Hz. by apply (Hz j).
Qed.

Lemma sorted_partitioned p l : closed p -> StronglySorted le l -> partitioned p l.
Proof. intros Hc Hs i j x y Hij Hi Hj. apply Hc. by eapply sorted_lookup. Qed.

Lemma sorted_app a b :
  StronglySorted le (a ++ b) <->
  StronglySorted le a /\ StronglySorted le b /\ (forall x y, x ∈ a -> y ∈ b -> le x y).
Proof.
  induction a as [|z a IH]; simpl.
  - split; [intros H; split_and!; [constructor|done|by intros ? ? ?%not_elem_of_nil]|by intros (_ & ? & _)].
  - split.
    + intros [H1 H2]%StronglySorted_inv. apply IH in H1 as (H3 & H4 & H5). apply Forall_app in H2 as [H6 H7].
      split_and!; [by constructor|done|]. intros x y [->|Hx]%elem_of_cons Hy; [|by apply H5].
      rewrite Forall_forall in H7. by apply H7.
    + intros ([H1 H2]%StronglySorted_inv & H3 & H4). constructor.
      * apply IH. split_and!; auto. intros. apply H4; [by right|done].
      * apply Forall_app. split; [done|]. apply Forall_forall. intros. apply H4; [by left|done].
Qed.

Lemma sorted_insert_sorted v l : StronglySorted le l -> StronglySorted le (sorted_insert v l).
Proof.
  intros Hs. unfold sorted_insert, insert_at. set (p := fun x => negb (compare_ v x)).
  set (n := prefix_count p l). assert (Hp : partitioned p l) by (apply sorted_partitioned; [apply closed_upper|done]).
  pose proof Hs as Hs'. rewrite <- (take_drop n l) in Hs'. apply sorted_app in Hs' as (H1 & H2 & H3).
  assert (Ha : forall x, x ∈ take n l -> le x v).
  { intros x (i & Hi)%list_elem_of_lookup. apply lookup_take_Some in Hi as [Hi Hin].
    pose proof (prefix_count_true p l i x Hi Hin) as Hx. by apply negb_true_iff in Hx. }
  assert (Hb : forall y, y ∈ drop n l -> le v y).
  { intros y (i & Hi)%list_elem_of_lookup. rewrite lookup_drop in Hi.
    pose proof (prefix_count_false p l _ y Hp Hi ltac:(lia)) as Hy. apply negb_false_iff in Hy. by apply compare_asym. }
  apply sorted_app. split_and!; [done| |].
  - constructor; [done|]. apply Forall_forall. auto.
  - intros x y Hx [->|Hy]%elem_of_cons; [by apply Ha|by apply H3].
Qed.

Lemma erase_at_sorted n l : StronglySorted le l -> StronglySorted le (erase_at n l).
Proof.
  intros Hs. unfold erase_at. rewrite <- (take_drop n l) in Hs. apply sorted_app in Hs as (H1 & H2 & H3).
  rewrite <- (take_drop 1 (drop n l)), drop_drop in H2, H3. apply sorted_app in H2 as (_ & H4 & _).
  replace (n + 1)%nat with (S n) in * by lia. apply sorted_app. split_and!; auto.
  intros x y Hx Hy. apply H3; [done|]. apply elem_of_app. by right.
Qed.

Lemma sorted_erase_sorted v l : StronglySorted le l -> StronglySorted le (sorted_erase v l).
Proof. intros. unfold sorted_erase. destruct (sorted_rank v l); [by apply erase_at_sorted|done]. Qed.

Lemma sorted_concat_block (B : list (list T)) i b :
  StronglySorted le (concat B) -> B !! i = Some b -> StronglySorted le b.
Proof.
  intros Hs Hb. rewrite <- (take_drop_middle B i b Hb), concat_app in Hs. simpl in Hs.
  apply sorted_app in Hs as (_ & Hs & _). by apply sorted_app in Hs as (Hs & _).
Qed.

(** *** Finding the block *)

Definition maxes_of (B : list (list T)) (ms : list T) : Prop := Forall2 (fun b m => last b = Some m) B ms.

Lemma maxes_of_length B ms : maxes_of B ms -> length B = length ms.
Proof. apply Forall2_length. Qed.

Lemma maxes_of_view l : inv l -> maxes_of (view l) (elems (maxes_ l)).
Proof. intros H. unfold maxes_of, view. apply Forall2_fmap_l. apply (inv_maxes _ H). Qed.

Lemma last_elem (b : list T) m : last b = Some m -> m ∈ b.
Proof. intros (a & ->)%last_Some. apply elem_of_app. right. by left. Qed.

Lemma maxes_sorted B ms : maxes_of B ms -> StronglySorted le (concat B) -> StronglySorted le ms.
Proof.
  induction 1 as [|b m B ms Hm HB IH]; simpl; [done|]. intros (H1 & H2 & H3)%sorted_app.
  constructor; [by apply IH|]. apply Forall_forall. intros m' (j & Hj)%list_elem_of_lookup.
  apply H3; [by apply last_elem|]. destruct (Forall2_lookup_r _ _ _ _ _ HB Hj) as (b' & Hb' & Hl).
  apply list_elem_of_In, in_concat. exists b'. split; apply list_elem_of_In; [by eapply list_elem_of_lookup_2|by apply last_elem].
Qed.

Lemma forallb_last p b m : closed p -> StronglySorted le b -> last b = Some m -> forallb p b = p m.
Proof.
  intros Hc Hs Hm. destruct (p m) eqn:E.
  - apply forallb_forall. intros x Hx. apply list_elem_of_In, list_elem_of_lookup in Hx as (i & Hi).
    apply (Hc x m); [|done]. rewrite last_lookup in Hm. apply (sorted_lookup b i (pred (length b))); auto.
    apply lookup_lt_Some in Hi. lia.
  - apply not_true_iff_false. intros Hf. rewrite forallb_forall in Hf.
    rewrite (Hf m) in E; [done|]. by apply list_elem_of_In, last_elem.
Qed.

Lemma locate p B ms :
  closed p -> maxes_of B ms -> StronglySorted le (concat B) ->
  match B !! prefix_count p ms with
  | Some b => prefix_count p (concat B) = (length (concat (take (prefix_count p ms) B)) + prefix_count p b)%nat
  | None => prefix_count p ms = length B /\ prefix_count p (concat B) = length (concat B)
  end.
Proof.
  intros Hc. induction 1 as [|b m B ms Hm HB IH]; simpl; [done|]. intros (H1 & H2 & _)%sorted_app.
  rewrite prefix_count_app, (forallb_last p b m) by done. destruct (p m); simpl; [|done].
  specialize (IH H2). destruct (B !! prefix_count p ms); rewrite ?length_app; lia.
Qed.

(** The block an insertion goes to: past the end, the last one. *)
Lemma locate_clamped p B ms i :
  closed p -> maxes_of B ms -> StronglySorted le (concat B) -> B <> [] ->
  i = (if Nat.eqb (prefix_count p ms) (length B) then length B - 1 else prefix_count p ms)%nat ->
  exists b, B !! i = Some b
    /\ prefix_count p (concat B) = (length (concat (take i B)) + prefix_count p b)%nat.
Proof.
  intros Hc Hm Hs HB ->. pose proof (locate p B ms Hc Hm Hs) as HL.
  pose proof (prefix_count_le p ms) as Hle. rewrite <- (maxes_of_length B ms Hm) in Hle.
  destruct (Nat.eqb_spec (prefix_count p ms) (length B)) as [He|He].
  - rewrite lookup_ge_None_2 in HL by lia. destruct HL as [_ HL].
    destruct (lookup_lt_is_Some_2 B (length B - 1)) as [b Hb]; [by destruct B; simpl in *; [|lia]|].
    exists b. split; [done|]. rewrite HL. rewrite <- (take_drop_middle B _ b Hb) at 1.
    rewrite drop_ge by (destruct B; simpl in *; lia). rewrite concat_app, length_app. simpl. rewrite app_nil_r. f_equal.
    destruct (Forall2_lookup_l _ _ _ _ _ Hm Hb) as (m & Hm' & Hl).
    rewrite <- (app_nil_r b) at 2. rewrite prefix_count_app, (forallb_last p b m); [|done|by eapply sorted_concat_block|done].
    rewrite (prefix_count_true p ms _ m Hm') by (apply lookup_lt_Some in Hb; lia). simpl. lia.
  - destruct (lookup_lt_is_Some_2 B (prefix_count p ms)) as [b Hb]; [lia|]. rewrite Hb in HL. eauto.
Qed.

Lemma lower_block_spec v l :
  inv l -> lower_block v l = prefix_count (fun x => compare_ x v) (elems (maxes_ l)).
Proof.
  intros Hi. unfold lower_block, lower_bound. apply partition_point_spec, sorted_partitioned; [apply closed_lower|].
  apply (maxes_sorted (view l)); [by apply maxes_of_view|apply (inv_sorted _ Hi)].
Qed.

Lemma upper_block_spec v l :
  inv l -> elems (blocks_ l) <> [] ->
  exists b, elems (blocks_ l) !! upper_block v l = Some b
    /\ upper_bound v (elems b) = prefix_count (fun x => negb (compare_ v x)) (elems b)
    /\ prefix_count (fun x => negb (compare_ v x)) (contents l)
       = (length (concat (take (upper_block v l) (view l))) + upper_bound v (elems b))%nat.
Proof.
  intros Hi Hne. pose proof (maxes_of_view l Hi) as Hm. pose proof (inv_sorted _ Hi) as Hs.
  destruct (locate_clamped (fun x => negb (compare_ v x)) (view l) (elems (maxes_ l)) (upper_block v l))
    as (b & Hb & Hp); auto using closed_upper.
  - unfold view. by destruct (elems (blocks_ l)).
  - unfold upper_block, upper_bound, block_count, vsize. rewrite partition_point_spec.
    2: { apply sorted_partitioned; [apply closed_upper|]. by apply (maxes_sorted (view l)). }
    unfold view. by rewrite length_map.
  - unfold view in Hb. rewrite list_lookup_fmap in Hb. apply fmap_Some in Hb as (vb & Hb & ->).
    assert (Hu : upper_bound v (elems vb) = prefix_count (fun x => negb (compare_ v x)) (elems vb)).
    { apply partition_point_spec, sorted_partitioned; [apply closed_upper|].
      apply (sorted_concat_block (view l) (upper_block v l)); [done|]. unfold view. by rewrite list_lookup_fmap, Hb. }
    exists vb. rewrite Hu. split_and!; auto.
Qed.

(** *** Steps of the operations *)

Implicit Types (w : world L).

Lemma wp_block_at i b (Q : Block -> world L -> Prop) E w :
  elems (blocks_ (obj w)) !! i = Some b -> Q b w -> wp (block_at i) Q E w.
Proof. intros Hb HQ. apply wp_bind, wp_obj_get. by apply (wp_need _ b). Qed.

Lemma wp_set_block i b (Q : unit -> world L -> Prop) E w :
  (i < block_count (obj w))%nat ->
  Q tt (World (mem w) (set_blocks (with_elems (<[i := b]> (elems (blocks_ (obj w)))) (blocks_ (obj w))) (obj w))) ->
  wp (set_block i b) Q E w.
Proof.
  intros Hi HQ. apply wp_bind, wp_obj_get, wp_bind, (wp_need _ (<[i := b]> (elems (blocks_ (obj w))))), wp_obj_mod, HQ.
  unfold assign_at. by rewrite decide_True.
Qed.

Lemma wp_set_max i b m (Q : unit -> world L -> Prop) E w :
  last b = Some m -> (i < vsize (maxes_ (obj w)))%nat ->
  Q tt (World (mem w) (set_maxes (with_elems (<[i := m]> (elems (maxes_ (obj w)))) (maxes_ (obj w))) (obj w))) ->
  wp (set_max i b) Q E w.
Proof.
  intros Hm Hi HQ. apply wp_bind, (wp_need _ m), wp_bind, wp_obj_get, wp_bind,
    (wp_need _ (<[i := m]> (elems (maxes_ (obj w))))), wp_obj_mod, HQ; [done|].
  unfold assign_at. by rewrite decide_True.
Qed.

Lemma wp_insert_max i b m (Q : unit -> world L -> Prop) E w :
  last b = Some m ->
  Q tt (World (mem w) (set_maxes (with_elems (insert_at i m (elems (maxes_ (obj w)))) (maxes_ (obj w))) (obj w))) ->
  wp (insert_max i b) Q E w.
Proof. intros Hm HQ. by apply wp_bind, (wp_need _ m), wp_obj_mod. Qed.

Lemma insert_at_assign {A} i (x y : A) l :
  (i < length l)%nat -> insert_at (i + 1) y (<[i := x]> l) = take i l ++ x :: y :: drop (S i) l.
Proof.
  intros Hi. unfold insert_at. rewrite insert_take_drop by done.
  replace (i + 1)%nat with (length (take i l ++ [x])) by (rewrite length_app, length_take; simpl; lia).
  change (x :: drop (S i) l) with ([x] ++ drop (S i) l). rewrite app_assoc.
  rewrite take_app_length, drop_app_length. by rewrite <- app_assoc.
Qed.

Lemma insert_at_length {A} i (x : A) l : length (insert_at i x l) = S (length l).
Proof. unfold insert_at. rewrite length_app. simpl. rewrite length_take, length_drop. lia. Qed.

(** Capacities small enough for every reservation to fit the address space. *)
Definition roomy (l : L) : Prop := (capacity (blocks_ l) <= 2 ^ 48 /\ capacity (maxes_ l) <= 2 ^ 48)%Z.

(** Only vector capacities differ. *)
Definition same_elems (l l' : L) : Prop :=
  elems (blocks_ l') = elems (blocks_ l) /\ elems (maxes_ l') = elems (maxes_ l)
  /\ index_ l' = index_ l /\ index_offset_ l' = index_offset_ l /\ size_ l' = size_ l
  /\ vec_ok (blocks_ l') /\ vec_ok (maxes_ l')
  /\ (Z.of_nat (block_count l) < capacity (blocks_ l) -> blocks_ l' = blocks_ l)%Z.

Ltac caps := unfold same_elems, vec_ok, block_count, vsize in *; simpl in *; split_and!; auto; lia.

(** The reservations of [split_block] and of the first insertion. *)
Lemma wp_reserve_metadata (Q : unit -> world L -> Prop) E w :
  vec_ok (blocks_ (obj w)) -> vec_ok (maxes_ (obj w)) ->
  (forall b l', (unlimited (mem w) -> b = mem w) -> same_elems (obj w) l' ->
     (Z.of_nat (block_count (obj w)) < capacity (blocks_ l'))%Z ->
     (Z.of_nat (vsize (maxes_ (obj w))) < capacity (maxes_ l'))%Z -> Q tt (World b l')) ->
  (forall b l' e, (unlimited (mem w) -> b = mem w) -> ~ (unlimited (mem w) /\ roomy (obj w)) -> is_bad_alloc e = true -> same_elems (obj w) l' ->
     E e (World b l')) ->
  wp reserve_metadata Q E w.
Proof.
  intros Hb Hm HQ HE. unfold vec_ok in *. destruct w as [bu l]. destruct l as [[be bc] [me mc] ix io sz].
  unfold block_count, vsize in *. simpl in *.
  assert (Hpt : roomy {| blocks_ := Vec be bc; maxes_ := Vec me mc; index_ := ix; index_offset_ := io; size_ := sz |} ->
                (push_target 1 bc <= u64_max / sizeof_Block /\ push_target 1 mc <= u64_max / sizeof_T)%Z).
  { intros (H1 & H2). simpl in *. split; apply push_target_small; unfold sizeof_Block; lia. }
  apply wp_bind, wp_zoom, wp_reserve_for_push; unfold vsize; simpl; [intros Hs|intros Hs b n Hu Hn|intros Hs Hx b e Hu He|lia].
  - apply wp_zoom, wp_reserve_for_push; unfold vsize; simpl; [intros Hs2|intros Hs2 b2 n2 Hu2 Hn2|intros Hs2 Hx b2 e Hu2 He|lia].
    + apply HQ; simpl; auto; try lia. caps.
    + apply HQ; simpl; auto; try lia. caps.
    + apply HE; [simpl in *; intros HU; first [by auto|by rewrite Hu2, Hu by (by rewrite ?Hu)]| |done|caps]. intros [HU Hr]. destruct Hx as [Hx|Hx]; [done|].
      destruct (Hpt Hr). lia.
  - apply wp_zoom, wp_reserve_for_push; unfold vsize; simpl; [intros Hs2|intros Hs2 b2 n2 Hu2 Hn2|intros Hs2 Hx b2 e Hu2 He|lia].
    + apply HQ; simpl; auto; try lia. caps.
    + apply HQ; simpl; auto; try lia.
      * intros HU. by rewrite Hu2, Hu by (by rewrite ?Hu).
      * caps.
    + apply HE; [simpl in *; intros HU; first [by auto|by rewrite Hu2, Hu by (by rewrite ?Hu)]| |done|caps].
      intros [HU Hr]. rewrite Hu in Hx by done. destruct Hx as [Hx|Hx]; [done|]. destruct (Hpt Hr). lia.
  - apply HE; [simpl in *; intros HU; first [by auto|by rewrite Hu2, Hu by (by rewrite ?Hu)]| |done|caps]. intros [HU Hr]. destruct Hx as [Hx|Hx]; [done|].
    destruct (Hpt Hr). lia.
Qed.

(** Splitting block [i] in two halves. *)
Definition split_of (i : nat) (b : Block) (l l' : L) : Prop :=
  exists b1 b2 m1 m2,
    elems b1 = take (vsize b / 2) (elems b) /\ elems b2 = drop (vsize b / 2) (elems b)
    /\ last (elems b1) = Some m1 /\ last (elems b2) = Some m2 /\ vec_ok b1 /\ vec_ok b2
    /\ elems (blocks_ l') = take i (elems (blocks_ l)) ++ b1 :: b2 :: drop (S i) (elems (blocks_ l))
    /\ elems (maxes_ l') = take i (elems (maxes_ l)) ++ m1 :: m2 :: drop (S i) (elems (maxes_ l))
    /\ index_ l' = index_ l /\ index_offset_ l' = index_offset_ l /\ size_ l' = size_ l
    /\ vec_ok (blocks_ l') /\ vec_ok (maxes_ l')
    /\ (Z.of_nat (block_count l) < capacity (blocks_ l) -> capacity (blocks_ l') = capacity (blocks_ l))%Z.

Lemma last_of_nonempty (b : list T) : (0 < length b)%nat -> exists m, last b = Some m.
Proof. intros. destruct (last b) eqn:E; [by eexists|]. apply last_None in E. subst. simpl in *. lia. Qed.

Definition finish_split (i : nat) (b right : Block) : Op unit :=
  set_block i (with_elems (take (vsize b / 2) (elems b)) b);;
  insert_block (i + 1) (with_elems (drop (vsize b / 2) (elems b)) right);;
  set_max i (take (vsize b / 2) (elems b));;
  insert_max (i + 1) (drop (vsize b / 2) (elems b)).

Lemma half_bounds n : (2 <= n -> 1 <= n / 2 < n)%nat.
Proof. pose proof (Nat.div_mod_eq n 2). pose proof (Nat.mod_upper_bound n 2). lia. Qed.

Lemma wp_finish_split i b right m (Q : unit -> world L -> Prop) E l l1 :
  same_elems l l1 -> (Z.of_nat (block_count l) < capacity (blocks_ l1))%Z ->
  (Z.of_nat (vsize (maxes_ l)) < capacity (maxes_ l1))%Z ->
  (i < block_count l)%nat -> (i < vsize (maxes_ l))%nat -> (2 <= vsize b)%nat -> vec_ok b ->
  (Z.of_nat (vsize b - vsize b / 2) <= capacity right)%Z ->
  (forall l', split_of i b l l' -> Q tt (World m l')) ->
  wp (finish_split i b right) Q E (World m l1).
Proof.
  intros (Eb & Em & Ei & Eo & Es & Hvb & Hvm & Hst) Hrb Hrm Hib Him H2 Hvok Hr HQ.
  pose proof (half_bounds _ H2) as Hh. unfold finish_split. set (half := (vsize b / 2)%nat) in *.
  unfold vsize, vec_ok, block_count in *.
  destruct (last_of_nonempty (take half (elems b))) as [x1 Hx1]; [rewrite length_take; lia|].
  destruct (last_of_nonempty (drop half (elems b))) as [x2 Hx2]; [rewrite length_drop; lia|].
  apply wp_bind, wp_set_block; [unfold block_count, vsize; simpl; by rewrite Eb|].
  apply wp_bind, wp_obj_mod. apply wp_bind, (wp_set_max _ _ x1); [done|unfold vsize; simpl; by rewrite Em|].
  apply (wp_insert_max _ _ x2); [done|]. simpl. apply HQ.
  exists (with_elems (take half (elems b)) b), (with_elems (drop half (elems b)) right), x1, x2. simpl.
  unfold vec_ok, vsize, block_count in *. simpl. rewrite Eb, Em, !insert_at_assign by done.
  split_and!; auto; try done; try len_lia. intros Hlt. by rewrite (Hst Hlt).
Qed.

Lemma wp_split_block i b (Q : unit -> world L -> Prop) E w :
  vec_ok (blocks_ (obj w)) -> vec_ok (maxes_ (obj w)) -> Forall vec_ok (elems (blocks_ (obj w))) ->
  elems (blocks_ (obj w)) !! i = Some b -> (2 <= vsize b)%nat -> (i < vsize (maxes_ (obj w)))%nat ->
  (forall m l', (unlimited (mem w) -> m = mem w) -> split_of i b (obj w) l' -> Q tt (World m l')) ->
  (forall m l' e, (unlimited (mem w) -> m = mem w) -> ~ (unlimited (mem w) /\ roomy (obj w) /\ (Z.of_nat (vsize b) <= 2 ^ 49)%Z) -> is_bad_alloc e = true -> same_elems (obj w) l' ->
     E e (World m l')) ->
  wp (split_block i) Q E w.
Proof.
  intros Hcb Hcm Hcs Hb H2 Him HQ HE. apply wp_bind, wp_reserve_metadata; [done..| |intros m1 l1 e Hm Hn; apply HE; tauto].
  intros m1 l1 Hu1 Hse Hrb Hrm.
  assert (Hib : (i < block_count (obj w))%nat) by (by apply lookup_lt_Some in Hb).
  assert (Hvok : vec_ok b) by (rewrite Forall_forall in Hcs; eapply Hcs, list_elem_of_lookup_2, Hb).
  apply wp_bind, (wp_block_at _ b); [simpl; by rewrite (proj1 Hse)|].
  apply wp_bind, wp_local, wp_reserve_memory_vector; simpl.
  - intros Hz. exfalso. pose proof (half_bounds _ H2). lia.
  - intros _ m2 Hm2. apply (wp_finish_split i b (Vec [] _) m2 Q E (obj w) l1); simpl; auto; [lia|].
    intros l' Hl'. apply HQ; [|done]. intros HU. by rewrite Hm2, Hu1 by (by rewrite ?Hu1).
  - intros Hx m2 e Hm2 He. apply HE; [intros HU; by rewrite Hm2, Hu1 by (by rewrite ?Hu1)| |done|done]. intros (HU & _ & HR).
    rewrite Hu1 in Hx by done. destruct Hx as [Hx|Hx]; [done|]. pose proof (Z.div_le_compat_l u64_max sizeof_T 1024 ltac:(unfold u64_max; lia) ltac:(lia)).
    assert (u64_max / 1024 = 2 ^ 54 - 1)%Z by (vm_compute; reflexivity). lia.
Qed.

(** *** The tree of block sizes *)

Definition bump (up : bool) (x y : nat) : Prop := if up then y = S x else x = S y.

(** Every inner node is the sum of its children, the one at [node] still short of its update. *)
Definition sums_but (up : bool) (off node : nat) (tree : list nat) : Prop :=
  forall n x, (n < off)%nat -> tree !! n = Some x ->
    exists a b, tree !! (n * 2 + 1)%nat = Some a /\ tree !! (n * 2 + 2)%nat = Some b
      /\ if decide (n = node) then bump up x (a + b) else x = (a + b)%nat.

Lemma parent_spec n : (S n = n / 2 * 2 + 1 \/ S n = n / 2 * 2 + 2)%nat /\ (n / 2 <= n)%nat.
Proof. pose proof (Nat.div_mod_eq n 2). pose proof (Nat.mod_upper_bound n 2). lia. Qed.

Lemma sums_but_step up off n x y tree :
  tree !! S n = Some x -> bump up x y -> (S n < length tree)%nat ->
  sums_but up off (S n) tree -> sums_but up off (n / 2) (<[S n := y]> tree).
Proof.
  intros Hx Hb Hl HJ m z Hm Hz. destruct (parent_spec n) as [Hp Hpl].
  destruct (decide (m = S n)) as [->|Hne].
  - rewrite list_lookup_insert_eq in Hz by done. injection Hz as <-.
    destruct (HJ _ _ Hm Hx) as (a & b & Ha & Hb' & Hs). rewrite decide_True in Hs by done.
    exists a, b. rewrite !list_lookup_insert_ne by lia. split_and!; auto.
    rewrite decide_False by lia. destruct up; simpl in *; lia.
  - rewrite list_lookup_insert_ne in Hz by done. destruct (HJ _ _ Hm Hz) as (a & b & Ha & Hb' & Hs).
    rewrite decide_False in Hs by done.
    destruct (decide (m = n / 2)%nat) as [->|Hnp].
    + destruct Hp as [Hp|Hp].
      * exists y, b. rewrite Hp in Hx |- *. rewrite Ha in Hx. injection Hx as <-.
        rewrite list_lookup_insert_eq by lia. rewrite list_lookup_insert_ne by lia.
        split_and!; auto. destruct up; simpl in *; lia.
      * exists a, y. rewrite Hp in Hx |- *. rewrite Hb' in Hx. injection Hx as <-.
        rewrite list_lookup_insert_ne by lia. rewrite list_lookup_insert_eq by lia.
        split_and!; auto. destruct up; simpl in *; lia.
    + exists a, b. rewrite !list_lookup_insert_ne by lia. by split_and!.
Qed.

Lemma update_loop_spec up off fuel node tree x y :
  (node < fuel)%nat -> length tree = (2 * off + 1)%nat -> (node < length tree)%nat ->
  tree !! node = Some x -> bump up x y -> sums_but up off node tree ->
  exists tree', update_loop fuel up node tree = Some tree' /\ length tree' = length tree
    /\ (forall n z, (n < off)%nat -> tree' !! n = Some z ->
         exists a b, tree' !! (n * 2 + 1)%nat = Some a /\ tree' !! (n * 2 + 2)%nat = Some b /\ z = (a + b)%nat)
    /\ (forall m, (off <= m)%nat -> m <> node -> tree' !! m = tree !! m)
    /\ ((off <= node)%nat -> tree' !! node = Some y).
Proof.
  revert node tree x y. induction fuel as [|fuel IH]; intros node tree x y Hf Hlen Hn Hx Hb HJ; [lia|].
  assert (Hy : (x' ← Some x; if up then Some (S x') else match x' with O => None | S x' => Some x' end) = Some y).
  { destruct up; simpl in *; subst; done. }
  simpl in Hy. cbn [update_loop]. rewrite Hx. cbn [mbind option_bind]. rewrite Hy. cbn [mbind option_bind].
  destruct node as [|n].
  - exists (<[0%nat := y]> tree). rewrite length_insert. split_and!; auto.
    + intros n z Hno Hz. destruct n as [|n].
      * rewrite list_lookup_insert_eq in Hz by done. injection Hz as <-.
        destruct (HJ _ _ Hno Hx) as (a & b & Ha & Hb' & Hs). exists a, b.
        rewrite !list_lookup_insert_ne by lia. split_and!; auto. rewrite decide_True in Hs by done. destruct up; simpl in *; lia.
      * rewrite list_lookup_insert_ne in Hz by lia. destruct (HJ _ _ Hno Hz) as (a & b & Ha & Hb' & Hs).
        exists a, b. rewrite !list_lookup_insert_ne by lia. by split_and!.
    + intros m _ Hm. by rewrite list_lookup_insert_ne by lia.
    + intros _. by rewrite list_lookup_insert_eq.
  - pose proof (sums_but_step up off n x y tree Hx Hb Hn HJ) as HJ'. destruct (parent_spec n) as [Hp Hpl].
    assert (Hpo : (n / 2 < off)%nat) by lia.
    destruct (lookup_lt_is_Some_2 (<[S n := y]> tree) (n / 2)) as [xp Hxp]; [rewrite length_insert; lia|].
    destruct (HJ' _ _ Hpo Hxp) as (a & b & _ & _ & Hs). rewrite decide_True in Hs by done.
    destruct (IH (n / 2)%nat (<[S n := y]> tree) xp (a + b)%nat) as (t & Ht & Hl & H1 & H2 & _);
      auto; rewrite ?length_insert; try lia.
    exists t. rewrite Hl, length_insert. split_and!; auto.
    + intros m Hm Hne. rewrite H2 by lia. by rewrite list_lookup_insert_ne by lia.
    + intros Hm. rewrite H2 by lia. by rewrite list_lookup_insert_eq.
Qed.

Lemma leaves_lookup n B j :
  (length B <= n)%nat -> (j < n)%nat -> leaves n B !! j = Some (from_option vsize 0%nat (B !! j)).
Proof.
  intros Hn Hj. unfold leaves. destruct (B !! j) as [b|] eqn:Hb; simpl.
  - pose proof (lookup_lt_Some _ _ _ Hb). rewrite lookup_app_l by (by rewrite length_map).
    by rewrite list_lookup_fmap, Hb.
  - apply lookup_ge_None in Hb. rewrite lookup_app_r, length_map by (by rewrite length_map).
    apply lookup_replicate. lia.
Qed.

(** Changing the size of one block by one and updating the tree along its path. *)
Lemma update_tree_ok up depth B i b b' tree :
  tree_ok depth B tree -> B !! i = Some b -> bump up (vsize b) (vsize b') ->
  exists tree', update_loop (S (2 ^ depth - 1 + i)) up (2 ^ depth - 1 + i) tree = Some tree'
    /\ tree_ok depth (<[i := b']> B) tree' /\ tree' <> [].
Proof.
  intros (Hlen & HB & Hlv & Hsum) Hb Hbump. pose proof (lookup_lt_Some _ _ _ Hb) as Hi.
  assert (Hpos : (0 < 2 ^ depth)%nat) by (apply Nat.neq_0_lt_0, Nat.pow_nonzero; lia).
  destruct (update_loop_spec up (2 ^ depth - 1) (S (2 ^ depth - 1 + i)) (2 ^ depth - 1 + i) tree (vsize b) (vsize b'))
    as (t & Ht & Hl & H1 & H2 & H3); auto; try lia.
  - rewrite Hlv by lia. rewrite leaves_lookup by lia. by rewrite Hb.
  - intros n x Hn Hx. destruct (Hsum n x Hn Hx) as (a & b0 & Ha & Hb0 & ->). exists a, b0. split_and!; auto.
    by rewrite decide_False by lia.
  - exists t. split_and!; auto; [|intros ->; simpl in Hl; lia]. split_and!; auto; [lia|by rewrite length_insert|].
    intros j Hj. rewrite leaves_lookup by (by rewrite ?length_insert). destruct (decide (j = i)) as [->|Hne].
    + rewrite H3 by lia. by rewrite list_lookup_insert_eq.
    + rewrite H2, Hlv by lia. rewrite leaves_lookup by lia. by rewrite list_lookup_insert_ne.
Qed.

(** The index describes the blocks [B]. *)
Definition index_for (B : list Block) (l : L) : Prop :=
  elems (index_ l) = []
  \/ exists depth, index_offset_ l = (2 ^ depth - 1)%nat /\ tree_ok depth B (elems (index_ l)).

Lemma wp_update_index i up B b b' (Q : unit -> world L -> Prop) E w :
  index_for B (obj w) -> B !! i = Some b -> bump up (vsize b) (vsize b') ->
  elems (blocks_ (obj w)) = <[i := b']> B -> vec_ok (index_ (obj w)) ->
  (forall ix, vec_ok ix -> index_ok (set_index ix (index_offset_ (obj w)) (obj w)) ->
     Q tt (World (mem w) (set_index ix (index_offset_ (obj w)) (obj w)))) ->
  wp (update_index i up) Q E w.
Proof.
  intros Hix Hb Hbump HB Hvok HQ. destruct w as [m [bl ma ix off sz]]. simpl in *.
  apply wp_bind, wp_obj_get. unfold id. simpl. destruct Hix as [He|(d & Ho & Ht)]; simpl in *.
  - rewrite He. apply wp_ret. apply (HQ ix Hvok). by left.
  - destruct (elems ix) as [|x0 rest] eqn:Hel; [exfalso; destruct Ht as (Hl & _); simpl in Hl; pose proof (Nat.pow_nonzero 2 d); lia|].
    destruct (update_tree_ok up d B i b b' (x0 :: rest) Ht Hb Hbump) as (t & Hu & Hok & Hne).
    apply wp_bind, (wp_need _ t); [by rewrite Ho|]. apply wp_obj_mod. apply HQ.
    + unfold vec_ok, vsize in *. simpl. rewrite Hel in Hvok. destruct Hok as (Hl & _). destruct Ht as (Hl' & _). by rewrite Hl, <- Hl'.
    + right. exists d. simpl. by rewrite HB.
Qed.

(** *** Rebuilding the invariant after a change at one block *)

Definition around (i : nat) (B : list Block) (ms : list T) : Prop :=
  (i < length B)%nat /\ length B = length ms
  /\ Forall2 (fun b m => last (elems b) = Some m) (take i B) (take i ms)
  /\ Forall2 (fun b m => last (elems b) = Some m) (drop (S i) B) (drop (S i) ms).

Lemma around_full i B ms :
  Forall2 (fun b m => last (elems b) = Some m) B ms -> (i < length B)%nat -> around i B ms.
Proof. intros H Hi. split_and!; [done|by eapply Forall2_length|by apply Forall2_take|by apply Forall2_drop]. Qed.

Lemma around_set i b B ms : around i B ms -> around i (<[i := b]> B) ms.
Proof.
  intros (H1 & H2 & H3 & H4). unfold around. rewrite length_insert, take_insert_ge, drop_insert_lt by lia. done.
Qed.

Lemma around_assign i b m B ms :
  around i B ms -> B !! i = Some b -> last (elems b) = Some m ->
  Forall2 (fun b m => last (elems b) = Some m) B (<[i := m]> ms).
Proof.
  intros (H1 & H2 & H3 & H4) Hb Hm. rewrite <- (take_drop_middle B i b Hb).
  rewrite insert_take_drop by lia. apply Forall2_app; [done|]. by constructor.
Qed.

Lemma concat_set i (b b' : Block) (B : list Block) :
  B !! i = Some b ->
  concat (map elems (<[i := b']> B))
  = concat (map elems (take i B)) ++ elems b' ++ concat (map elems (drop (S i) B)).
Proof.
  intros Hb. rewrite insert_take_drop by (by apply lookup_lt_Some in Hb).
  rewrite map_app, concat_app. done.
Qed.

Lemma concat_at i b (B : list Block) :
  B !! i = Some b ->
  concat (map elems B) = concat (map elems (take i B)) ++ elems b ++ concat (map elems (drop (S i) B)).
Proof. intros Hb. rewrite <- (list_insert_id B i b Hb) at 1. by apply (concat_set i b b). Qed.

Lemma split_contents i b l l' : elems (blocks_ l) !! i = Some b -> split_of i b l l' -> contents l' = contents l.
Proof.
  intros Hb (b1 & b2 & m1 & m2 & H1 & H2 & _ & _ & _ & _ & HB & _). unfold contents, view.
  rewrite HB, (concat_at i b _ Hb), map_app, concat_app. simpl. rewrite H1, H2. f_equal.
  by rewrite app_assoc, take_drop.
Qed.

Lemma split_maxes i b l l' :
  around i (elems (blocks_ l)) (elems (maxes_ l)) -> split_of i b l l' ->
  Forall2 (fun b m => last (elems b) = Some m) (elems (blocks_ l')) (elems (maxes_ l')).
Proof.
  intros (_ & _ & H3 & H4) (b1 & b2 & m1 & m2 & _ & _ & Hm1 & Hm2 & _ & _ & HB & HM & _). rewrite HB, HM.
  apply Forall2_app; [done|]. by repeat constructor.
Qed.

Lemma split_caps i b l l' :
  Forall vec_ok (elems (blocks_ l)) -> split_of i b l l' ->
  vec_ok (blocks_ l') /\ vec_ok (maxes_ l') /\ Forall vec_ok (elems (blocks_ l')).
Proof.
  intros Hf (b1 & b2 & m1 & m2 & _ & _ & _ & _ & Hv1 & Hv2 & HB & _ & _ & _ & _ & Hb & Hm & _).
  split_and!; auto. rewrite HB. apply Forall_app. split; [by apply Forall_take|].
  repeat constructor; auto. by apply Forall_drop.
Qed.

(** A state whose blocks, maxima and capacities are right, with the index cleared. *)
Lemma inv_cleared l :
  Forall2 (fun b m => last (elems b) = Some m) (elems (blocks_ l)) (elems (maxes_ l)) ->
  StronglySorted le (contents l) -> size_ l = length (contents l) ->
  vec_ok (blocks_ l) /\ vec_ok (maxes_ l) /\ Forall vec_ok (elems (blocks_ l)) -> vec_ok (index_ l) ->
  inv (set_index (with_elems [] (index_ l)) 0 l).
Proof.
  intros H1 H2 H3 (H4 & H5 & H6) H7. split; auto; [by left|]. split_and!; auto.
  unfold vec_ok, vsize in *. simpl. lia.
Qed.

Lemma inv_same_elems l l' : inv l -> same_elems l l' -> inv l' /\ contents l' = contents l.
Proof.
  intros [H1 H2 H3 H4 (H5 & H6 & H7 & H8)] (Eb & Em & Ei & Eo & Es & Hvb & Hvm & _).
  assert (Hc : contents l' = contents l) by (unfold contents, view; by rewrite Eb).
  split; [|done]. split; rewrite ?Hc, ?Eb, ?Em, ?Es, ?Ei; auto.
  unfold index_ok. by rewrite Ei, Eo, Eb.
Qed.

(** *** Insertion *)

Definition bounded (l : L) : Prop := Forall (fun b => vsize b <= 2 * Load)%nat (elems (blocks_ l)).
Definition roomy_blocks (l : L) : Prop := Forall (fun b => capacity b <= 2 ^ 48)%Z (elems (blocks_ l)).

Lemma wp_reserve_block i initial b (Q : unit -> world L -> Prop) E w :
  elems (blocks_ (obj w)) !! i = Some b -> (0 <= capacity b)%Z -> (0 <= initial <= 2 ^ 48)%Z -> vec_ok b ->
  (forall m b', (unlimited (mem w) -> m = mem w) -> elems b' = elems b ->
     (Z.of_nat (vsize b) < capacity b')%Z ->
     Q tt (World m (set_blocks (with_elems (<[i := b']> (elems (blocks_ (obj w)))) (blocks_ (obj w))) (obj w)))) ->
  (forall m e, ~ (unlimited (mem w) /\ (capacity b <= 2 ^ 48)%Z) -> is_bad_alloc e = true -> E e (World m (obj w))) ->
  wp (reserve_block_for_push i initial) Q E w.
Proof.
  intros Hb Hc Hin Hv HQ HE. assert (Hi : (i < block_count (obj w))%nat) by (by apply lookup_lt_Some in Hb).
  apply wp_bind, (wp_block_at _ b); [done|]. apply wp_bind, wp_local, wp_reserve_for_push; simpl; auto.
  - intros Hlt. apply wp_set_block; [done|]. simpl. by apply HQ.
  - intros Hge m n Hm Hn. apply wp_set_block; [done|]. simpl. apply HQ; auto. simpl. unfold vec_ok in *. lia.
  - intros _ Hx m e Hm He. apply HE; [|done]. intros [HU HR]. destruct Hx as [Hx|Hx]; [done|].
    pose proof (push_target_small sizeof_T initial (capacity b) sizeof_T_pos Hin ltac:(lia)). lia.
Qed.

Lemma wp_try_split i b after (Q : bool -> world L -> Prop) E w :
  vec_ok (blocks_ (obj w)) -> vec_ok (maxes_ (obj w)) -> Forall vec_ok (elems (blocks_ (obj w))) ->
  elems (blocks_ (obj w)) !! i = Some b -> (2 <= vsize b)%nat -> (i < vsize (maxes_ (obj w)))%nat ->
  (forall m l', (unlimited (mem w) -> m = mem w) -> split_of i b (obj w) l' ->
     wp (after;; mret true) Q (fun _ _ => False) (World m l')) ->
  (forall m l', (unlimited (mem w) -> m = mem w) -> ~ (unlimited (mem w) /\ roomy (obj w) /\ (Z.of_nat (vsize b) <= 2 ^ 49)%Z) -> same_elems (obj w) l' ->
     Q false (World m l')) ->
  wp (try_split i after) Q E w.
Proof.
  intros. apply wp_catch, wp_bind, (wp_split_block i b); auto.
  - intros m l' Hm Hl'. eapply wp_mono; [by apply H5|done|done].
  - intros m l' e Hm Hn He Hs. rewrite He. apply wp_ret. by apply H6.
Qed.

(** A value put at [off] of block [i]. *)
Lemma insert_contents i b off v (b' : Block) B :
  B !! i = Some b -> (off <= length (elems b))%nat -> elems b' = insert_at off v (elems b) ->
  concat (map elems (<[i := b']> B))
  = insert_at (length (concat (map elems (take i B))) + off) v (concat (map elems B)).
Proof.
  intros Hb Ho He. rewrite (concat_set i b b' B Hb), (concat_at i b B Hb), He. unfold insert_at.
  rewrite take_app_add, drop_app_add, take_app_le, drop_app_le by done. by rewrite <- !app_assoc.
Qed.

Lemma length_sorted_insert v l : length (sorted_insert v l) = S (length l).
Proof. apply insert_at_length. Qed.

(** After the value is in block [i] and the size is counted, before the split. *)
Record inserted (v : T) (i : nat) (b b' : Block) (l l' : L) : Prop := {
  ins_blocks : elems (blocks_ l') = <[i := b']> (elems (blocks_ l)) /\ vsize b' = S (vsize b) /\ vec_ok b'
    /\ elems (blocks_ l) !! i = Some b;
  ins_maxes : elems (maxes_ l') = elems (maxes_ l);
  ins_index : index_ l' = index_ l /\ index_offset_ l' = index_offset_ l;
  ins_size : size_ l' = S (size_ l);
  ins_contents : contents l' = sorted_insert v (contents l);
  ins_caps : vec_ok (blocks_ l') /\ vec_ok (maxes_ l');
}.

Lemma inserted_facts v i b b' l l' :
  inv l -> inserted v i b b' l l' ->
  around i (elems (blocks_ l')) (elems (maxes_ l')) /\ Forall vec_ok (elems (blocks_ l'))
  /\ StronglySorted le (contents l') /\ size_ l' = length (contents l') /\ vec_ok (index_ l').
Proof.
  intros [H1 H2 H3 H4 (H5 & H6 & H7 & H8)] [(HB & Hs & Hv & Hb) HM [Hi Ho] Hsz Hc _].
  rewrite HB, HM, Hc, Hi, Hsz, length_sorted_insert. split_and!; auto.
  - apply around_set, around_full; [done|]. by apply lookup_lt_Some in Hb.
  - by apply Forall_insert.
  - by apply sorted_insert_sorted.
Qed.

(** The end of an insertion that did not split. *)
Lemma wp_insert_finish v i b b' (Q : unit -> world L -> Prop) E m l l' :
  inv l -> inserted v i b b' l l' ->
  (forall l2, inv l2 -> contents l2 = sorted_insert v (contents l) -> blocks_ l2 = blocks_ l' -> Q tt (World m l2)) ->
  wp (block ← block_at i; set_max i (elems block);; update_index i true) Q E (World m l').
Proof.
  intros Hi Hin HQ. destruct (inserted_facts v i b b' l l' Hi Hin) as (Ha & Hvb & Hso & Hsz & Hvi).
  destruct Hin as [(HB & Hs & Hv & Hb) HM [Hix Ho] _ Hc (Hc1 & Hc2)].
  assert (Hib : (i < length (elems (blocks_ l)))%nat) by (by apply lookup_lt_Some in Hb).
  assert (Hb' : elems (blocks_ l') !! i = Some b') by (rewrite HB; by apply list_lookup_insert_eq).
  destruct (last_of_nonempty (elems b')) as [mx Hmx]; [unfold vsize in Hs; lia|].
  apply wp_bind, (wp_block_at _ b'); [done|].
  apply wp_bind, (wp_set_max _ _ mx); [done|unfold vsize; simpl; destruct Ha as (? & <- & _); done|].
  apply (wp_update_index i true (elems (blocks_ l)) b b'); simpl; auto.
  - destruct Hi as [_ _ _ Hix' _]. unfold index_for. simpl. by rewrite Hix, Ho.
  - intros ix Hvx Hok. apply HQ; [|done|done]. split; simpl; auto.
    + by apply (around_assign i b').
    + unfold vec_ok, vsize in *. simpl. by rewrite length_insert.
Qed.

Lemma inserted_same v i b b' l l' l2 : inserted v i b b' l l' -> same_elems l' l2 -> inserted v i b b' l l2.
Proof.
  intros [HB HM [Hi Ho] Hsz Hc Hcap] (Eb & Em & Ei & Eo & Es & Hvb & Hvm & _).
  split; rewrite ?Eb, ?Em, ?Ei, ?Eo, ?Es; auto. unfold contents, view in *. by rewrite Eb.
Qed.

Lemma bounded_split i b l l' :
  Forall (fun b => vsize b <= 2 * Load)%nat (take i (elems (blocks_ l)) ++ drop (S i) (elems (blocks_ l))) ->
  (vsize b <= 4 * Load)%nat -> split_of i b l l' -> bounded l'.
Proof.
  intros [H1 H2]%Forall_app Hb (b1 & b2 & m1 & m2 & E1 & E2 & _ & _ & _ & _ & HB & _). unfold bounded. rewrite HB.
  pose proof (Nat.div_mod_eq (vsize b) 2). pose proof (Nat.mod_upper_bound (vsize b) 2).
  assert (vsize b1 <= 2 * Load /\ vsize b2 <= 2 * Load)%nat as [Hv1 Hv2].
  { unfold vsize in *. rewrite E1, E2, length_take, length_drop. lia. }
  apply Forall_app. split; [done|]. by repeat constructor.
Qed.

Lemma wp_insert_commit v i b b' (Q : unit -> world L -> Prop) E m l l3 :
  inv l -> inserted v i b b' l l3 ->
  capacity (blocks_ l3) = capacity (blocks_ l) -> block_count l3 = block_count l -> maxes_ l3 = maxes_ l ->
  (unlimited m /\ roomy l /\ (capacity b <= 2 ^ 48)%Z) \/ (Z.of_nat (block_count l) < capacity (blocks_ l))%Z ->
  (forall m' l', (unlimited m -> m' = m) -> inv l' -> contents l' = sorted_insert v (contents l) ->
     (unlimited m /\ roomy l /\ (capacity b <= 2 ^ 48)%Z -> bounded l -> bounded l') -> Q tt (World m' l')) ->
  wp (split ← (if (Load * 2 <? vsize b')%nat then try_split i invalidate_index else mret false);
      if split : bool then mret tt
      else
        storage' ← obj_get (fun l => capacity (blocks_ l));
        require (storage' =? capacity (blocks_ l))%Z;;
        block ← block_at i;
        set_max i (elems block);;
        update_index i true) Q E (World m l3).
Proof.
  intros Hi Hin Hcap Hcnt Hmx Hsafe HQ. destruct (inserted_facts v i b b' l l3 Hi Hin) as (Ha & Hvb3 & Hso & Hsz & Hvi).
  assert (Hfin : forall m' l4, (unlimited m -> m' = m) -> same_elems l3 l4 -> capacity (blocks_ l4) = capacity (blocks_ l) ->
    (unlimited m /\ roomy l /\ (capacity b <= 2 ^ 48)%Z -> (vsize b' <= 2 * Load)%nat) ->
    wp (storage' ← obj_get (fun l => capacity (blocks_ l));
        require (storage' =? capacity (blocks_ l))%Z;;
        block ← block_at i; set_max i (elems block);; update_index i true) Q E (World m' l4)).
  { intros m' l4 Hm' Hs Hc4 Hbd. apply wp_bind, wp_obj_get, wp_bind, wp_require; [by apply Z.eqb_eq|].
    apply (wp_insert_finish v i b b' _ _ _ l); auto; [by eapply inserted_same|].
    intros l2 H1 H2 H3. apply HQ; auto. intros Hcalm Hb. unfold bounded. rewrite H3, (proj1 Hs).
    rewrite (proj1 (ins_blocks _ _ _ _ _ _ Hin)). apply Forall_insert; [done|]. by apply Hbd. }
  pose proof Hin as [(HB & Hvs & Hvb' & Hb) HM _ _ Hc (Hc1 & Hc2)]. pose proof (lookup_lt_Some _ _ _ Hb) as Hib.
  assert (Hvb : vec_ok b).
  { destruct (inv_caps _ Hi) as (_ & _ & _ & Hv). rewrite Forall_forall in Hv. eapply Hv, list_elem_of_lookup_2, Hb. }
  destruct (Nat.ltb_spec (Load * 2) (vsize b')) as [Hbig|Hsmall].
  2: { apply wp_bind, wp_ret, Hfin; auto; [repeat split; auto|intros _; lia]. }
  apply wp_bind, (wp_try_split i b'); simpl; auto.
  - rewrite HB. by apply list_lookup_insert_eq.
  - lia.
  - unfold vsize. destruct Ha as (_ & <- & _). rewrite HB. by rewrite length_insert.
  - intros m' l' Hm' Hsp. apply wp_bind, wp_obj_mod, wp_ret, wp_ret. simpl.
    assert (Hb3 : elems (blocks_ l3) !! i = Some b') by (rewrite HB; by apply list_lookup_insert_eq).
    pose proof (split_contents i b' l3 l' Hb3 Hsp) as Hc'.
    assert (Hss : size_ l' = size_ l3 /\ index_ l' = index_ l3).
    { destruct Hsp as (? & ? & ? & ? & _ & _ & _ & _ & _ & _ & _ & _ & -> & _ & -> & _). done. }
    apply HQ; auto.
    + apply inv_cleared; [by eapply split_maxes|by rewrite Hc'|by rewrite Hc', (proj1 Hss)|by eapply split_caps|by rewrite (proj2 Hss)].
    + unfold contents, view in *. simpl. by rewrite Hc'.
    + intros _ Hbd. pose proof (Forall_lookup_1 _ _ _ _ Hbd Hb) as Hbb. simpl in Hbb.
      apply (bounded_split i b' l3 l'); [|lia|done]. rewrite HB, take_insert_ge, drop_insert_lt by lia.
      apply Forall_app. split; [by apply Forall_take|by apply Forall_drop].
  - intros m' l' Hm' Hn Hs. destruct Hsafe as [(HU & (HR1 & HR2) & HRb)|Hsp].
    + exfalso. apply Hn. split_and!; auto; [unfold roomy; rewrite Hcap, Hmx; done|]. unfold vec_ok in Hvb. lia.
    + apply Hfin; auto; [destruct Hs as (_ & _ & _ & _ & _ & _ & _ & Hst); by rewrite Hst by (by rewrite Hcnt, Hcap)|].
      intros (HU & (HR1 & HR2) & HRb). exfalso. apply Hn. split_and!; auto; [unfold roomy; rewrite Hcap, Hmx; done|].
      unfold vec_ok in Hvb. lia.
Qed.

Lemma wp_insert_into v (Q : unit -> world L -> Prop) E w :
  inv (obj w) -> elems (blocks_ (obj w)) <> [] ->
  (unlimited (mem w) /\ roomy (obj w) /\ roomy_blocks (obj w))
  \/ (Z.of_nat (block_count (obj w)) < capacity (blocks_ (obj w)))%Z ->
  (forall m l', (unlimited (mem w) -> m = mem w) -> inv l' -> contents l' = sorted_insert v (contents (obj w)) ->
     (unlimited (mem w) /\ roomy (obj w) /\ roomy_blocks (obj w) -> bounded (obj w) -> bounded l') ->
     Q tt (World m l')) ->
  (forall m e, ~ (unlimited (mem w) /\ roomy_blocks (obj w)) -> is_bad_alloc e = true -> E e (World m (obj w))) ->
  wp (insert_into v (upper_block v (obj w))) Q E w.
Proof.
  intros Hi Hne Hsafe HQ HE. destruct (upper_block_spec v (obj w) Hi Hne) as (b & Hb & Hu & Hp).
  revert Hb Hp. generalize (upper_block v (obj w)). intros i Hb Hp. pose proof (lookup_lt_Some _ _ _ Hb) as Hib.
  destruct (inv_caps _ Hi) as (Hv1 & Hv2 & Hv3 & Hv4).
  assert (Hvb : vec_ok b) by (rewrite Forall_forall in Hv4; eapply Hv4, list_elem_of_lookup_2, Hb).
  apply wp_bind, (wp_block_at _ b); [done|]. apply wp_bind, wp_obj_get.
  apply wp_bind, (wp_reserve_block i _ b); auto; [unfold vec_ok in Hvb; lia|lia| |].
  2: { intros m e Hn He. apply HE; [|done]. intros [HU HR]. apply Hn. split; [done|].
       unfold roomy_blocks in HR. rewrite Forall_forall in HR. eapply HR, list_elem_of_lookup_2, Hb. }
  intros m1 b1 Hm1 Eb1 Hcap1. apply wp_bind, (wp_block_at _ b1); [simpl; by rewrite list_lookup_insert_eq|].
  apply wp_bind, wp_set_block; [unfold block_count, vsize; simpl; by rewrite length_insert|].
  apply wp_bind, wp_obj_mod. simpl. rewrite list_insert_insert_eq, Eb1.
  set (b2 := with_elems _ b1). set (l3 := set_size _ _). cbn [set_blocks blocks_ elems with_elems capacity] in l3.
  assert (Hvs : vsize b2 = S (vsize b)) by apply insert_at_length.
  assert (Hin : inserted v i b b2 (obj w) l3).
  { split; simpl; auto.
    - split_and!; auto. unfold vec_ok. rewrite Hvs. simpl. lia.
    - unfold contents, view. simpl.
      rewrite (insert_contents i b (upper_bound v (elems b)) v b2 _ Hb); [|rewrite Hu; apply prefix_count_le|done].
      unfold sorted_insert. unfold contents, view in Hp. by rewrite Hp, firstn_map.
    - unfold vec_ok, vsize in *. simpl. rewrite length_insert. auto. }
  apply (wp_insert_commit v i b b2 Q E m1 (obj w) l3); auto.
  - unfold block_count, vsize. simpl. by rewrite length_insert.
  - destruct Hsafe as [(HU & HR & HRb)|Hs]; [left|by right]. split_and!; auto; [by rewrite Hm1|].
    unfold roomy_blocks in HRb. rewrite Forall_forall in HRb. eapply HRb, list_elem_of_lookup_2, Hb.
  - intros m l' Hm Hi' Hc Hbd. apply HQ; auto.
    + intros HU. by rewrite Hm, Hm1 by (by rewrite ?Hm1).
    + intros (HU & HR & HRb). apply Hbd. split_and!; auto; [by rewrite Hm1|].
      unfold roomy_blocks in HRb. rewrite Forall_forall in HRb. eapply HRb, list_elem_of_lookup_2, Hb.
Qed.

(** Memory enough for an insertion: no limit, or a list whose block vector has
    room for two more blocks. *)
Definition calm (w : world L) : Prop :=
  unlimited (mem w) /\ roomy (obj w) /\ roomy_blocks (obj w) /\ bounded (obj w).
Definition insertable (w : world L) : Prop :=
  calm w \/ elems (blocks_ (obj w)) <> [] /\ (Z.of_nat (block_count (obj w)) + 1 < capacity (blocks_ (obj w)))%Z.

Lemma wp_insert_first v (Q : unit -> world L -> Prop) E w :
  inv (obj w) -> elems (blocks_ (obj w)) = [] -> calm w ->
  (forall l', inv l' -> contents l' = [v] -> bounded l' -> Q tt (World (mem w) l')) ->
  wp (insert_first v) Q E w.
Proof.
  intros Hi Hem (HU & HR & _) HQ. destruct (inv_caps _ Hi) as (Hv1 & Hv2 & Hv3 & _).
  apply wp_bind, wp_reserve_metadata; [done..| |intros m l' e _ Hn; exfalso; by apply Hn].
  intros m1 l1 Hm1 (Eb & Em & Ei & Eo & Es & Hvb & Hvm & _) Hrb Hrm. rewrite (Hm1 HU).
  assert (HM : elems (maxes_ l1) = []).
  { rewrite Em. apply length_zero_iff_nil. rewrite <- (Forall2_length _ _ _ (inv_maxes _ Hi)). by rewrite Hem. }
  apply wp_bind, wp_obj_mod. simpl. rewrite Eb, Hem. simpl.
  apply wp_bind, (wp_reserve_block 0 _ empty_vec); simpl; try done; [lia| |intros m e Hn; exfalso; by apply Hn].
  intros m2 b' Hm2 Hb' Hcap. rewrite (Hm2 HU). apply wp_bind, (wp_block_at _ b'); [done|].
  apply wp_bind, wp_set_block; [unfold block_count, vsize; simpl; lia|]. apply wp_bind, wp_obj_mod, wp_obj_mod. simpl.
  unfold vec_ok, block_count, vsize in *. rewrite Hem in Hrb. rewrite <- Em, HM in Hrm. rewrite HM, Hb'. simpl in *.
  apply HQ; [split; simpl; auto|done|].
  - unfold contents, view. simpl. by repeat constructor.
  - by left.
  - unfold vec_ok, vsize. simpl. rewrite Ei. simpl. unfold vsize in Hv3. split_and!; try lia. repeat constructor. simpl. lia.
  - unfold bounded. simpl. repeat constructor. unfold vsize. simpl. lia.
Qed.

Lemma inv_split i b l l' :
  inv l -> elems (blocks_ l) !! i = Some b -> split_of i b l l' ->
  inv (set_index (with_elems [] (index_ l')) 0 l').
Proof.
  intros Hi Hb Hsp. pose proof (split_contents i b l l' Hb Hsp) as Hc. destruct (inv_caps _ Hi) as (_ & _ & Hv3 & Hv4).
  assert (Hss : size_ l' = size_ l /\ index_ l' = index_ l).
  { destruct Hsp as (? & ? & ? & ? & _ & _ & _ & _ & _ & _ & _ & _ & -> & _ & -> & _). done. }
  apply inv_cleared; rewrite ?Hc, ?(proj1 Hss), ?(proj2 Hss); auto; [|apply (inv_sorted _ Hi)|apply (inv_size _ Hi)|by eapply split_caps].
  eapply split_maxes; [|done]. apply around_full; [apply (inv_maxes _ Hi)|]. by apply lookup_lt_Some in Hb.
Qed.

Lemma wp_insert v (Q : unit -> world L -> Prop) E w :
  inv (obj w) -> insertable w ->
  (forall m l', (unlimited (mem w) -> m = mem w) -> inv l' -> contents l' = sorted_insert v (contents (obj w)) ->
     (calm w -> bounded l') -> Q tt (World m l')) ->
  (forall m l' e, ~ calm w -> is_bad_alloc e = true -> inv l' -> contents l' = contents (obj w) -> E e (World m l')) ->
  wp (insert v) Q E w.
Proof.
  intros Hi Hins HQ HE. apply wp_bind, wp_obj_get. unfold id. destruct (elems (blocks_ (obj w))) as [|b0 B] eqn:Hem.
  { destruct Hins as [Hc|[Hc _]]; [|done]. apply wp_insert_first; auto. intros l' H1 H2 H3. apply HQ; auto.
    rewrite H2. unfold contents, view. by rewrite Hem. }
  assert (Hne : elems (blocks_ (obj w)) <> []) by (by rewrite Hem). clear b0 B Hem.
  destruct (upper_block_spec v (obj w) Hi Hne) as (b & Hb & _ & _). destruct (inv_caps _ Hi) as (Hv1 & Hv2 & Hv3 & Hv4).
  apply wp_bind, wp_obj_get, wp_bind, (wp_block_at _ b); [done|]. destruct (Nat.ltb_spec (Load * 2) (vsize b)) as [Hbig|Hsmall].
  - destruct Hins as [(_ & _ & _ & Hbd)|[_ Hsp]].
    { pose proof (Forall_lookup_1 _ _ _ _ Hbd Hb). simpl in *. lia. }
    apply wp_bind, wp_bind, (wp_split_block _ b); auto; [lia| | |].
    + unfold vsize. rewrite <- (Forall2_length _ _ _ (inv_maxes _ Hi)). by apply lookup_lt_Some in Hb.
    + intros m1 l1 Hm1 Hsplit. apply wp_bind, wp_obj_mod, wp_obj_get. simpl.
      pose proof (inv_split _ _ _ _ Hi Hb Hsplit) as Hi1. pose proof (split_contents _ _ _ _ Hb Hsplit) as Hc1.
      assert (Hnc : ~ calm w) by (intros (_ & _ & _ & Hbd); pose proof (Forall_lookup_1 _ _ _ _ Hbd Hb); simpl in *; lia).
      pose proof (lookup_lt_Some _ _ _ Hb) as Hlt.
      destruct Hsplit as (b1 & b2 & mx1 & mx2 & _ & _ & _ & _ & _ & _ & HB & _ & _ & _ & _ & _ & _ & Hst).
      apply (wp_insert_into v Q E (World m1 (set_index _ 0 l1))); cbn [mem obj].
      * exact Hi1.
      * simpl. rewrite HB. by destruct (take _ _).
      * right. unfold block_count, vsize in *. simpl. rewrite HB, (Hst ltac:(lia)). len_lia.
      * intros m2 l2 Hm2 Hi2 Hc2 _. apply HQ; [intros HU; by rewrite Hm2, Hm1 by (by rewrite ?Hm1)|done| |done].
        rewrite Hc2. unfold contents, view in *. simpl. by rewrite Hc1.
      * intros m2 e _ He. by apply HE.
    + intros m1 l1 e _ Hn He Hs. destruct (inv_same_elems _ _ Hi Hs). apply HE; auto.
      intros (_ & _ & _ & Hbd). pose proof (Forall_lookup_1 _ _ _ _ Hbd Hb). simpl in *. lia.
  - apply wp_bind, wp_ret, wp_insert_into; auto.
    + destruct Hins as [(H1 & H2 & H3 & _)|[_ Hsp]]; [by left|right; lia].
    + intros m l' Hm Hi' Hc Hbd. apply HQ; auto. intros (H1 & H2 & H3 & H4). by apply Hbd.
    + intros m e Hn He. apply HE; auto. intros (H1 & H2 & H3 & H4). by apply Hn.
Qed.

(** *** Removal *)

Lemma lower_bound_spec v b : StronglySorted le b -> lower_bound v b = prefix_count (fun x => compare_ x v) b.
Proof. intros. by apply partition_point_spec, sorted_partitioned; [apply closed_lower|]. Qed.

Lemma block_sorted l i b : inv l -> elems (blocks_ l) !! i = Some b -> StronglySorted le (elems b).
Proof.
  intros Hi Hb. apply (sorted_concat_block (view l) i); [apply (inv_sorted _ Hi)|].
  unfold view. by rewrite list_lookup_fmap, Hb.
Qed.

(** Where [lower_block] leads. *)
Lemma lower_block_cases v l :
  inv l ->
  (lower_block v l = block_count l /\ prefix_count (fun x => compare_ x v) (contents l) = length (contents l))
  \/ exists b, elems (blocks_ l) !! lower_block v l = Some b
       /\ (lower_bound v (elems b) < length (elems b))%nat
       /\ prefix_count (fun x => compare_ x v) (contents l)
          = (length (concat (take (lower_block v l) (view l))) + lower_bound v (elems b))%nat.
Proof.
  intros Hi. pose proof (locate _ _ _ (closed_lower v) (maxes_of_view l Hi) (inv_sorted _ Hi)) as HL.
  pose proof (inv_maxes _ Hi) as Hm.
  rewrite <- (lower_block_spec v l Hi) in HL. unfold view at 1 in HL. rewrite list_lookup_fmap in HL.
  destruct (elems (blocks_ l) !! lower_block v l) as [b|] eqn:Hb; simpl in HL.
  - right. exists b. rewrite lower_bound_spec by (by eapply block_sorted). split_and!; auto.
    destruct (Forall2_lookup_l _ _ _ _ _ Hm Hb) as (m & Hmx & Hl).
    destruct (decide (prefix_count (fun x => compare_ x v) (elems b) < length (elems b))%nat) as [|Hge]; [done|].
    exfalso. assert (Hx : compare_ m v = true).
    { rewrite last_lookup in Hl. apply (prefix_count_true (fun x => compare_ x v) _ _ _ Hl). apply lookup_lt_Some in Hl. lia. }
    rewrite lower_block_spec in Hmx by done. assert (Hp : partitioned (fun x => compare_ x v) (elems (maxes_ l))).
    { apply sorted_partitioned; [apply closed_lower|]. apply (maxes_sorted (view l)); [by apply maxes_of_view|apply (inv_sorted _ Hi)]. }
    pose proof (prefix_count_false _ _ _ _ Hp Hmx ltac:(lia)) as Hf. simpl in Hf. congruence.
  - left. destruct HL as [HL1 HL2]. split; [|done]. rewrite HL1. unfold view, block_count, vsize. by rewrite length_map.
Qed.

Lemma contents_at l i b off :
  elems (blocks_ l) !! i = Some b -> (off < length (elems b))%nat ->
  contents l !! (length (concat (take i (view l))) + off)%nat = elems b !! off.
Proof.
  intros Hb Ho. unfold contents, view. rewrite (concat_at i b _ Hb), <- firstn_map.
  rewrite lookup_app_r by lia. rewrite lookup_app_l by lia. f_equal. lia.
Qed.

Lemma rank_in_block v l b :
  inv l -> elems (blocks_ l) !! lower_block v l = Some b ->
  sorted_rank v (contents l)
  = (fun off => length (concat (take (lower_block v l) (view l))) + off)%nat <$> find_in_block v (elems b).
Proof.
  intros Hi Hb. destruct (lower_block_cases v l Hi) as [[HL _]|(b' & Hb' & Ho & Hp)].
  { rewrite HL in Hb. apply lookup_lt_Some in Hb. unfold block_count, vsize in *. lia. }
  assert (b' = b) as -> by congruence. unfold sorted_rank, find_in_block. rewrite Hp, (contents_at l _ b) by done.
  destruct (elems b !! lower_bound v (elems b)) as [x|]; [|done]. simpl. by destruct (equivalent x v).
Qed.

Lemma rank_past_end v l :
  prefix_count (fun x => compare_ x v) l = length l -> sorted_rank v l = None.
Proof. intros H. unfold sorted_rank. by rewrite H, lookup_ge_None_2. Qed.

(** Everything of the invariant but the index. *)
Definition core (l : L) : Prop := inv (set_index (with_elems [] (index_ l)) 0 l) /\ vec_ok (index_ l).

Lemma inv_core l : inv l -> core l.
Proof.
  intros Hi. destruct (inv_caps _ Hi) as (H1 & H2 & H3 & H4).
  split; [|done]. apply inv_cleared; auto; [apply (inv_maxes _ Hi)|apply (inv_sorted _ Hi)|apply (inv_size _ Hi)].
Qed.

Lemma core_intro l :
  Forall2 (fun b m => last (elems b) = Some m) (elems (blocks_ l)) (elems (maxes_ l)) ->
  StronglySorted le (contents l) -> size_ l = length (contents l) ->
  vec_ok (blocks_ l) /\ vec_ok (maxes_ l) /\ Forall vec_ok (elems (blocks_ l)) -> vec_ok (index_ l) -> core l.
Proof. intros. split; [by apply inv_cleared|done]. Qed.

Lemma core_elim l : core l ->
  Forall2 (fun b m => last (elems b) = Some m) (elems (blocks_ l)) (elems (maxes_ l)) /\
  StronglySorted le (contents l) /\ size_ l = length (contents l) /\
  (vec_ok (blocks_ l) /\ vec_ok (maxes_ l) /\ Forall vec_ok (elems (blocks_ l))) /\ vec_ok (index_ l).
Proof. intros [[H1 H2 H3 _ (H4 & H5 & _ & H6)] H7]. split_and!; auto. Qed.

Lemma core_split i b l l' : core l -> elems (blocks_ l) !! i = Some b -> split_of i b l l' -> core l'.
Proof.
  intros (H1 & H2 & H3 & (H4 & H5 & H6) & H7)%core_elim Hb Hsp. pose proof (split_contents i b l l' Hb Hsp) as Hc.
  assert (Hss : size_ l' = size_ l /\ index_ l' = index_ l).
  { destruct Hsp as (? & ? & ? & ? & _ & _ & _ & _ & _ & _ & _ & _ & -> & _ & -> & _). done. }
  apply core_intro; rewrite ?Hc, ?(proj1 Hss), ?(proj2 Hss); auto; [|by eapply split_caps].
  eapply split_maxes; [|done]. apply around_full; [done|]. by apply lookup_lt_Some in Hb.
Qed.

Lemma core_same_elems l l' : core l -> same_elems l l' -> core l' /\ contents l' = contents l.
Proof.
  intros (H1 & H2 & H3 & (H4 & H5 & H6) & H7)%core_elim (Eb & Em & Ei & Eo & Es & Hvb & Hvm & _).
  assert (Hc : contents l' = contents l) by (unfold contents, view; by rewrite Eb).
  split; [|done]. apply core_intro; rewrite ?Hc, ?Eb, ?Em, ?Es, ?Ei; auto.
Qed.

Lemma erase_next_assign {A} i (x : A) l :
  (i < length l)%nat -> erase_at (i + 1) (<[i := x]> l) = take i l ++ x :: drop (i + 2) l.
Proof.
  intros Hi. unfold erase_at. rewrite insert_take_drop by done.
  assert (Hl : length (take i l) = i) by (rewrite length_take; lia).
  rewrite take_app_ge, drop_app_ge, Hl by lia.
  replace (i + 1 - i)%nat with 1%nat by lia. replace (S (i + 1) - i)%nat with 2%nat by lia.
  simpl. rewrite drop_drop. replace (i + 2)%nat with (S (i + 1)) by lia. simpl. rewrite take_0.
  by rewrite <- app_assoc.
Qed.

Lemma assign_erase_next {A} i (x : A) l :
  (i < length l)%nat -> <[i := x]> (erase_at (i + 1) l) = take i l ++ x :: drop (i + 2) l.
Proof.
  intros Hi. rewrite <- (erase_next_assign i x l Hi). unfold erase_at.
  rewrite drop_insert_lt by lia. rewrite take_insert_lt by lia. rewrite insert_app_l; [done|].
  rewrite length_take. lia.
Qed.

Lemma merged_core i left right left2 mx l l' :
  core l -> elems (blocks_ l) !! i = Some left -> elems (blocks_ l) !! (i + 1)%nat = Some right ->
  elems left2 = elems left ++ elems right -> last (elems left2) = Some mx -> vec_ok left2 ->
  elems (blocks_ l') = take i (elems (blocks_ l)) ++ left2 :: drop (i + 2) (elems (blocks_ l)) ->
  elems (maxes_ l') = take i (elems (maxes_ l)) ++ mx :: drop (i + 2) (elems (maxes_ l)) ->
  index_ l' = index_ l -> size_ l' = size_ l ->
  capacity (blocks_ l') = capacity (blocks_ l) -> capacity (maxes_ l') = capacity (maxes_ l) ->
  core l' /\ contents l' = contents l.
Proof.
  intros (H1 & H2 & H3 & (H4 & H5 & H6) & H7)%core_elim Hl Hr He Hmx Hv HB HM Hix Hsz Hcb Hcm.
  pose proof (lookup_lt_Some _ _ _ Hr) as Hlt. pose proof (Forall2_length _ _ _ H1) as Hlen.
  assert (Hc : contents l' = contents l).
  { unfold contents, view. rewrite HB, (concat_at i left _ Hl), map_app, concat_app. simpl. rewrite He. f_equal.
    rewrite <- app_assoc. f_equal. rewrite (drop_S _ right (S i)) by (by replace (S i) with (i + 1)%nat by lia).
    simpl. do 3 f_equal. f_equal. lia. }
  split; [|done]. apply core_intro; rewrite ?Hc, ?Hsz, ?Hix; auto.
  - rewrite HB, HM. apply Forall2_app; [by apply Forall2_take|]. constructor; [done|]. by apply Forall2_drop.
  - unfold vec_ok, vsize in *. rewrite HB, HM, Hcb, Hcm. split_and!; [len_lia..|].
    apply Forall_app. split; [by apply Forall_take|]. constructor; [done|]. by apply Forall_drop.
Qed.

Lemma size_fits n : (n <= 2 ^ 48 -> n <= u64_max / sizeof_T)%Z.
Proof.
  intros Hn. pose proof (Z.div_le_compat_l u64_max sizeof_T 1024 ltac:(unfold u64_max; lia) ltac:(lia)).
  assert (u64_max / 1024 = 2 ^ 54 - 1)%Z by (vm_compute; reflexivity). lia.
Qed.

Lemma merge_sizes i (left right : Block) B :
  B !! i = Some left -> B !! (i + 1)%nat = Some right ->
  (vsize left + vsize right <= length (concat (map elems B)))%nat.
Proof.
  intros Hl Hr. rewrite (concat_at i left B Hl), (drop_S B right (S i)) by (by replace (S i) with (i + 1)%nat by lia).
  simpl. unfold vsize. rewrite !length_app. lia.
Qed.

Lemma wp_replace_two i left right left2 (Q : unit -> world L -> Prop) E w :
  core (obj w) -> elems (blocks_ (obj w)) !! i = Some left -> elems (blocks_ (obj w)) !! (i + 1)%nat = Some right ->
  elems left2 = elems left ++ elems right -> vec_ok left2 ->
  (forall m l', (unlimited (mem w) -> m = mem w) -> core l' -> contents l' = contents (obj w) -> Q tt (World m l')) ->
  wp (replace_two i left2) Q E w.
Proof.
  intros Hco Hl Hr Hel Hvok HQ. destruct (core_elim _ Hco) as (H1 & H2 & H3 & (H4 & H5 & H6) & H7).
  pose proof (Forall2_length _ _ _ H1) as Hlen. pose proof (lookup_lt_Some _ _ _ Hr) as Hi.
  destruct (last_of_nonempty (elems left2)) as [mx Hmx].
  { destruct (Forall2_lookup_l _ _ _ _ _ H1 Hl) as (ml & _ & Hml). rewrite Hel, length_app.
    destruct (elems left); [done|simpl; lia]. }
  apply wp_bind, wp_set_block; [unfold block_count, vsize in *; simpl; lia|].
  apply wp_bind, wp_obj_mod. simpl. rewrite erase_next_assign by lia.
  apply wp_bind, (wp_set_max _ _ mx); [done|unfold vsize, erase_at in *; simpl; len_lia|]. simpl.
  rewrite assign_erase_next by lia. set (l' := set_maxes _ _).
  destruct (merged_core i left right left2 mx (obj w) l') as [Hco' Hc']; auto.
  assert (Hb' : elems (blocks_ l') !! i = Some left2).
  { simpl. rewrite lookup_app_r by (rewrite length_take; lia). rewrite length_take. by replace (i - _)%nat with 0%nat by lia. }
  clearbody l'. apply wp_when; intros Hbig; [|by apply HQ]. apply Nat.ltb_lt in Hbig.
  destruct (core_elim _ Hco') as (G1 & G2 & G3 & (G4 & G5 & G6) & G7).
  apply wp_bind, (wp_try_split i left2); auto; simpl; [lia| | |].
  - unfold vsize. rewrite <- (Forall2_length _ _ _ G1). by apply lookup_lt_Some in Hb'.
  - intros m3 l3 Hm3 Hsp. apply wp_ret, HQ; [done|by eapply core_split|]. by rewrite <- Hc', (split_contents _ _ _ _ Hb' Hsp).
  - intros m3 l3 Hm3 _ Hs. destruct (core_same_elems _ _ Hco' Hs) as [? Hc3]. apply wp_ret, HQ; [done|done|congruence].
Qed.

Lemma wp_merge_with_next i (Q : unit -> world L -> Prop) E w :
  core (obj w) -> (i + 1 < block_count (obj w))%nat -> (Z.of_nat (size_ (obj w)) <= 2 ^ 48)%Z ->
  (forall m l', (unlimited (mem w) -> m = mem w) -> core l' -> contents l' = contents (obj w) -> Q tt (World m l')) ->
  wp (merge_with_next i) Q E w.
Proof.
  intros Hco Hi Hsz HQ. destruct (core_elim _ Hco) as (H1 & H2 & H3 & (H4 & H5 & H6) & H7). unfold block_count in Hi.
  destruct (lookup_lt_is_Some_2 (elems (blocks_ (obj w))) i) as [left Hl]; [unfold vsize in *; lia|].
  destruct (lookup_lt_is_Some_2 (elems (blocks_ (obj w))) (i + 1)) as [right Hr]; [unfold vsize in *; lia|].
  pose proof (merge_sizes i left right _ Hl Hr) as Hms.
  pose proof (Forall2_length _ _ _ H1) as Hlen.
  apply wp_bind, (wp_block_at _ left); [done|]. apply wp_bind, (wp_block_at _ right); [done|].
  assert (Hafter : forall ok m, (unlimited (mem w) -> m = mem w) -> (ok = true -> granted (if (Z.of_nat (vsize left + vsize right) >? capacity left)%Z
      then (Z.of_nat (vsize left + vsize right) - capacity left) * sizeof_T else 0) m) ->
    wp (if negb ok then mret tt else
          left ← local left (reserve_memory_vector sizeof_T (Z.of_nat (vsize left + vsize right)));
          replace_two i (with_elems (elems left ++ elems right) left)) Q E (World m (obj w))).
  2: { apply wp_bind, wp_memory_growth_allowed.
       - intros Hu. destruct w as [m l]. apply Hafter; [done|]. intros _. by apply unlimited_granted.
       - intros Hu ok m Hg. by apply Hafter. }
  intros [|] m Hm Hg; [|by apply wp_ret, HQ]. specialize (Hg eq_refl). simpl.
  apply wp_bind, wp_local, wp_reserve_granted; simpl.
  { apply size_fits. unfold contents, view in H3. lia. }
  { intros Hlt. by rewrite (proj2 (Z.gtb_lt _ _)) in Hg. }
  intros m2 left1 Hm2 Hel Hcap.
  apply (wp_replace_two i left right); auto; simpl; [by rewrite Hel| |].
  2: { intros m3 l3 Hm3 Hc3 He3. apply HQ; auto. intros HU. by rewrite Hm3, Hm2, Hm by (rewrite ?Hm2, ?Hm; by rewrite ?Hm). }
  unfold vec_ok, vsize. simpl. rewrite Hel, length_app. unfold vsize in Hcap. lia.
Qed.

Lemma length_erase_at {A} i (l : list A) : (i < length l)%nat -> length l = S (length (erase_at i l)).
Proof. intros. unfold erase_at. rewrite length_app, length_take, length_drop. lia. Qed.

Lemma erase_contents k b off (b' : Block) B :
  B !! k = Some b -> (off < length (elems b))%nat -> elems b' = erase_at off (elems b) ->
  concat (map elems (<[k := b']> B))
  = erase_at (length (concat (map elems (take k B))) + off) (concat (map elems B)).
Proof.
  intros Hb Ho He. rewrite (concat_set k b b' B Hb), (concat_at k b B Hb), He. unfold erase_at.
  rewrite take_app_add, take_app_le by lia. replace (S (_ + off))%nat with (length (concat (map elems (take k B))) + S off)%nat by lia.
  rewrite drop_app_add, drop_app_le by lia. by rewrite <- !app_assoc.
Qed.

Lemma erase_block_core k b' l2 ms :
  around k (elems (blocks_ l2)) ms -> elems (maxes_ l2) = ms -> elems (blocks_ l2) !! k = Some b' -> elems b' = [] ->
  StronglySorted le (contents l2) -> size_ l2 = length (contents l2) -> vec_ok (index_ l2) ->
  vec_ok (blocks_ l2) /\ vec_ok (maxes_ l2) /\ Forall vec_ok (elems (blocks_ l2)) ->
  forall l3, l3 = set_maxes (with_elems (erase_at k (elems (maxes_ l2))) (maxes_ l2))
                    (set_blocks (with_elems (erase_at k (elems (blocks_ l2))) (blocks_ l2)) l2) ->
  core l3 /\ contents l3 = contents l2.
Proof.
  intros (Ha1 & Ha2 & Ha3 & Ha4) HM Hb He Hs Hsz Hvi (Hv1 & Hv2 & Hv3) l3 ->.
  assert (Hc : contents (set_maxes (with_elems (erase_at k (elems (maxes_ l2))) (maxes_ l2))
                    (set_blocks (with_elems (erase_at k (elems (blocks_ l2))) (blocks_ l2)) l2)) = contents l2).
  { unfold contents, view. simpl. unfold erase_at. rewrite (concat_at k b' _ Hb), map_app, concat_app, He. done. }
  split; [|done]. apply core_intro; rewrite ?Hc; simpl; auto.
  - rewrite HM. unfold erase_at. by apply Forall2_app.
  - unfold vec_ok, vsize, erase_at in *. simpl. rewrite HM. split_and!; [len_lia|rewrite HM in Hv2; len_lia|].
    apply Forall_app. split; [by apply Forall_take|by apply Forall_drop].
Qed.

Lemma wp_rebalance k (Q : unit -> world L -> Prop) E w :
  core (obj w) -> (k < block_count (obj w))%nat -> (1 < block_count (obj w))%nat -> (Z.of_nat (size_ (obj w)) <= 2 ^ 48)%Z ->
  (forall m l', (unlimited (mem w) -> m = mem w) -> core l' -> contents l' = contents (obj w) -> Q tt (World m l')) ->
  wp (rebalance_after_erase k) Q E w.
Proof.
  intros Hco Hk H1 Hsz HQ. apply wp_bind, wp_obj_get. destruct (Nat.ltb_spec (k + 1) (block_count (obj w)));
    apply wp_merge_with_next; auto; lia.
Qed.

(** After an element was taken out of block [k]. *)
Lemma wp_after_erase k b b' (Q : unit -> world L -> Prop) E m l l2 :
  inv l -> elems (blocks_ l) !! k = Some b -> vsize b = S (vsize b') -> vec_ok b' ->
  elems (blocks_ l2) = <[k := b']> (elems (blocks_ l)) -> maxes_ l2 = maxes_ l ->
  index_ l2 = index_ l -> index_offset_ l2 = index_offset_ l -> capacity (blocks_ l2) = capacity (blocks_ l) ->
  StronglySorted le (contents l2) -> size_ l2 = length (contents l2) -> (Z.of_nat (size_ l2) <= 2 ^ 48)%Z ->
  (forall m' l', (unlimited m -> m' = m) -> inv l' -> contents l' = contents l2 -> Q tt (World m' l')) ->
  wp (after_erase k b') Q E (World m l2).
Proof.
  intros Hi Hb Hvs Hvb' HB HM Hix Ho Hcb Hs Hsz Hsm HQ. pose proof (lookup_lt_Some _ _ _ Hb) as Hk.
  destruct (inv_caps _ Hi) as (Hv1 & Hv2 & Hv3 & Hv4).
  assert (Ha : around k (elems (blocks_ l2)) (elems (maxes_ l2))).
  { rewrite HB, HM. apply around_set, around_full; [apply (inv_maxes _ Hi)|done]. }
  assert (Hcaps : vec_ok (blocks_ l2) /\ vec_ok (maxes_ l2) /\ Forall vec_ok (elems (blocks_ l2))).
  { unfold vec_ok, vsize in *. rewrite HB, HM, Hcb, length_insert. split_and!; auto. by apply Forall_insert. }
  assert (Hb2 : elems (blocks_ l2) !! k = Some b') by (rewrite HB; by apply list_lookup_insert_eq).
  unfold after_erase. destruct (Nat.eqb_spec (vsize b') 0) as [H0|H0].
  - apply length_zero_iff_nil in H0. apply wp_bind, wp_obj_mod, wp_obj_mod. cbn [mem obj].
    destruct (erase_block_core k b' l2 (elems (maxes_ l2)) Ha eq_refl Hb2 H0 Hs Hsz ltac:(by rewrite Hix) Hcaps _ eq_refl)
      as [[Hc3 _] Hc4]. apply HQ; [done|exact Hc3|exact Hc4].
  - destruct (last_of_nonempty (elems b')) as [mx Hmx]; [unfold vsize in *; lia|].
    apply wp_bind, (wp_set_max _ _ mx); [done|unfold vsize; simpl; destruct Ha as (? & <- & _); done|].
    apply wp_bind, (wp_update_index k false (elems (blocks_ l)) b b'); simpl; auto.
    + destruct Hi as [_ _ _ Hix' _]. unfold index_for. simpl. by rewrite Hix, Ho.
    + by rewrite Hix.
    + intros ix Hvx Hok. set (l3 := set_index _ _ _) in *.
      assert (Hi3 : inv l3).
      { split; simpl; auto; [by apply (around_assign k b')|]. unfold vec_ok, vsize in *. simpl. rewrite length_insert. tauto. }
      assert (Hc3 : contents l3 = contents l2) by done. assert (Hs3 : size_ l3 = size_ l2) by done.
      assert (Hk3 : (k < block_count l3)%nat) by (unfold block_count, vsize; simpl; by rewrite HB, length_insert).
      clearbody l3. apply wp_bind, wp_obj_get, wp_when; intros Hbig; [|by apply HQ]. apply andb_true_iff in Hbig as [_ Hn%Nat.ltb_lt].
      apply wp_bind, wp_rebalance; simpl; [by apply inv_core|done|done|by rewrite Hs3|].
      intros m4 l4 Hm4 [Hi4 _] Hc4. apply wp_obj_mod. cbn [mem obj]. apply HQ; [done|exact Hi4|]. by rewrite <- Hc3, <- Hc4.
Qed.

Lemma wp_erase_one v (Q : bool -> world L -> Prop) E w :
  inv (obj w) -> (Z.of_nat (size_ (obj w)) <= 2 ^ 48)%Z ->
  (forall m l', (unlimited (mem w) -> m = mem w) -> inv l' -> contents l' = sorted_erase v (contents (obj w)) ->
     Q (bool_decide (is_Some (sorted_rank v (contents (obj w))))) (World m l')) ->
  wp (erase_one v) Q E w.
Proof.
  intros Hi Hsz HQ. unfold sorted_erase in HQ.
  assert (Hnone : sorted_rank v (contents (obj w)) = None -> wp (mret false) Q E w).
  { intros Hr. apply wp_ret. rewrite Hr in HQ. destruct w. by apply HQ. }
  apply wp_bind, wp_obj_get. unfold id. destruct (elems (blocks_ (obj w))) as [|b0 B0] eqn:Hem.
  { apply Hnone. unfold contents, view. by rewrite Hem. }
  clear Hem. destruct (lower_block_cases v (obj w) Hi) as [[HL HP]|(b & Hb & Ho & Hp)].
  { rewrite HL, Nat.eqb_refl. apply Hnone. by apply rank_past_end. }
  pose proof (lookup_lt_Some _ _ _ Hb) as Hk. destruct (Nat.eqb_spec (lower_block v (obj w)) (block_count (obj w))) as [He|_].
  { unfold block_count, vsize in *. lia. }
  pose proof (rank_in_block v (obj w) b Hi Hb) as Hr. apply wp_bind, (wp_block_at _ b); [done|].
  destruct (find_in_block v (elems b)) as [found|] eqn:Hf; [|by apply Hnone].
  assert (Hfl : (found < length (elems b))%nat).
  { unfold find_in_block in Hf. destruct (elems b !! _) as [x|] eqn:Hx; [|done]. simpl in Hf.
    destruct (equivalent x v); [|done]. injection Hf as <-. by apply lookup_lt_Some in Hx. }
  simpl in Hr. rewrite Hr in HQ. set (b' := with_elems (erase_at found (elems b)) b).
  assert (Hvs : vsize b = S (vsize b')) by (unfold vsize; simpl; by apply length_erase_at).
  assert (Hvb : vec_ok b) by (destruct (inv_caps _ Hi) as (_ & _ & _ & Hv4); rewrite Forall_forall in Hv4; eapply Hv4, list_elem_of_lookup_2, Hb).
  apply wp_bind, wp_set_block; [done|]. apply wp_bind, wp_obj_mod. simpl.
  set (l2 := set_size _ _). assert (Hc : contents l2 = erase_at (length (concat (take (lower_block v (obj w)) (view (obj w)))) + found) (contents (obj w))).
  { unfold contents, view. simpl. rewrite (erase_contents _ b found b' _ Hb Hfl) by done. by rewrite firstn_map. }
  assert (Hlen : length (contents (obj w)) = S (length (contents l2))).
  { rewrite Hc. apply length_erase_at. unfold contents, view. rewrite (concat_at _ b _ Hb), <- firstn_map, !length_app. lia. }
  pose proof (inv_size _ Hi) as Hsize.
  apply wp_bind, (wp_after_erase _ b b' _ _ _ (obj w)); simpl; auto.
  - unfold vec_ok in *. simpl. lia.
  - rewrite Hc. apply erase_at_sorted, (inv_sorted _ Hi).
  - lia.
  - lia.
  - intros m' l' Hm' Hi' Hc'. apply wp_ret. apply HQ; [done|done|]. by rewrite Hc', Hc.
Qed.

(** *** The tree answers positional questions *)

Fixpoint psum (f : nat -> nat) (n : nat) : nat :=
  match n with O => 0%nat | S n => (psum f n + f n)%nat end.

Lemma psum_pairs f g q : (forall i, (i < q)%nat -> g i = (f (2 * i) + f (2 * i + 1))%nat) -> psum g q = psum f (2 * q).
Proof.
  induction q as [|q IH]; intros H; [done|]. replace (2 * S q)%nat with (S (S (2 * q))) by lia. cbn [psum].
  rewrite IH by (intros; apply H; lia). rewrite H by lia. replace (2 * q + 1)%nat with (S (2 * q)) by lia. lia.
Qed.

Lemma psum_ext f g n : (forall i, (i < n)%nat -> f i = g i) -> psum f n = psum g n.
Proof. induction n as [|n IH]; intros H; [done|]. simpl. rewrite IH, H; auto. Qed.

(** The nodes of one level, from the left. *)
Definition level (tree : list nat) (k i : nat) : nat := default 0%nat (tree !! (2 ^ k - 1 + i)%nat).

Lemma pow2_pos k : (1 <= 2 ^ k)%nat.
Proof. pose proof (Nat.pow_nonzero 2 k). lia. Qed.

Lemma level_sum depth B tree k i :
  tree_ok depth B tree -> (k < depth)%nat -> (i < 2 ^ k)%nat ->
  level tree k i = (level tree (S k) (2 * i) + level tree (S k) (2 * i + 1))%nat
  /\ (exists a b, tree !! ((2 ^ k - 1 + i) * 2 + 1)%nat = Some a /\ tree !! ((2 ^ k - 1 + i) * 2 + 2)%nat = Some b
        /\ level tree (S k) (2 * i) = a /\ level tree (S k) (2 * i + 1) = b).
Proof.
  intros (Hlen & _ & _ & Hsum) Hk Hi. pose proof (pow2_pos k). pose proof (Nat.pow_le_mono_r 2 (S k) depth ltac:(lia) ltac:(lia)).
  simpl in H0. destruct (lookup_lt_is_Some_2 tree (2 ^ k - 1 + i)) as [x Hx]; [lia|].
  destruct (Hsum (2 ^ k - 1 + i)%nat x ltac:(lia) Hx) as (a & b & Ha & Hb & ->). unfold level. rewrite Hx. simpl.
  replace (2 ^ k + (2 ^ k + 0) - 1 + (i + (i + 0)))%nat with ((2 ^ k - 1 + i) * 2 + 1)%nat by lia.
  replace (2 ^ k + (2 ^ k + 0) - 1 + (i + (i + 0) + 1))%nat with ((2 ^ k - 1 + i) * 2 + 2)%nat by lia.
  rewrite Ha, Hb. simpl. eauto 10.
Qed.

Lemma level_prefix depth B tree k q :
  tree_ok depth B tree -> (k < depth)%nat -> (q <= 2 ^ k)%nat ->
  psum (level tree k) q = psum (level tree (S k)) (2 * q).
Proof.
  intros Ht Hk Hq. apply psum_pairs. intros i Hi. by apply (level_sum depth B tree k i Ht Hk ltac:(lia)).
Qed.

(** [climb] adds the left siblings on the way up. *)
Lemma climb_spec depth B tree k j fuel total :
  tree_ok depth B tree -> (k <= depth)%nat -> (j < 2 ^ k)%nat -> (2 ^ k - 1 + j <= fuel)%nat ->
  climb fuel tree (2 ^ k - 1 + j) total = Some (total + psum (level tree k) j)%nat.
Proof.
  intros Ht. revert j fuel total. induction k as [|k IH]; intros j fuel total Hk Hj Hf.
  { simpl in *. replace j with 0%nat in * by lia. simpl. rewrite Nat.add_0_r. by destruct fuel. }
  pose proof (pow2_pos k). set (n := (2 ^ S k - 2 + j)%nat).
  assert (Hn : (2 ^ S k - 1 + j)%nat = S n) by (unfold n; simpl; lia). rewrite Hn in *.
  destruct fuel as [|fuel]; [lia|]. cbn [climb].
  pose proof (Nat.div_mod_eq j 2) as Hdm. pose proof (Nat.mod_upper_bound j 2 ltac:(lia)) as Hmod.
  assert (Hpar : (n / 2 = 2 ^ k - 1 + j / 2)%nat).
  { unfold n. simpl. replace (2 ^ k + (2 ^ k + 0) - 2 + j)%nat with (j + (2 ^ k - 1) * 2)%nat by lia.
    rewrite Nat.div_add by lia. lia. }
  rewrite Hpar. simpl in Hj.
  assert (Hq : (j / 2 < 2 ^ k)%nat) by lia.
  destruct (level_sum depth B tree k (j / 2) Ht ltac:(lia) Hq) as (_ & a & b & Ha & _ & Hla & _).
  pose proof (level_prefix depth B tree k (j / 2) Ht ltac:(lia) ltac:(lia)) as Hlp.
  destruct (Nat.eqb_spec (S n) ((2 ^ k - 1 + j / 2) * 2 + 2)) as [He|He].
  - rewrite Ha. cbn [mbind option_bind]. rewrite IH; [|lia|lia|unfold n in *; simpl in *; lia].
    assert (Hodd : j = (2 * (j / 2) + 1)%nat) by (unfold n in He; simpl in He; lia).
    rewrite Hodd at 2. replace (2 * (j / 2) + 1)%nat with (S (2 * (j / 2))) by lia. cbn [psum]. rewrite <- Hlp, Hla. f_equal. lia.
  - cbn [mbind option_bind]. rewrite IH; [|lia|lia|unfold n in *; simpl in *; lia].
    assert (Heven : j = (2 * (j / 2))%nat) by (unfold n in He; simpl in He; lia).
    rewrite Heven at 2. by rewrite <- Hlp.
Qed.

Lemma leaf_prefix depth B tree j :
  tree_ok depth B tree -> (j <= length B)%nat ->
  psum (level tree depth) j = list_sum (map vsize (take j B)).
Proof.
  intros (Hlen & HB & Hlv & _). induction j as [|j IH]; intros Hj; [done|]. cbn [psum]. rewrite IH by lia.
  destruct (lookup_lt_is_Some_2 B j) as [b Hb]; [lia|].
  rewrite (take_S_r B j b Hb), map_app, list_sum_app. simpl. f_equal. rewrite Nat.add_0_r.
  unfold level. rewrite Hlv by lia. rewrite leaves_lookup by lia. by rewrite Hb.
Qed.

Lemma sum_sizes (B : list Block) : list_sum (map vsize B) = length (concat (map elems B)).
Proof. induction B as [|b B IH]; simpl; [done|]. by rewrite IH, length_app. Qed.

(** [descend] keeps the position it looks for. *)
Lemma descend_spec depth B tree fuel k j index :
  tree_ok depth B tree -> (k <= depth)%nat -> (j < 2 ^ k)%nat -> (depth - k < fuel)%nat ->
  (index < level tree k j)%nat ->
  exists j' index', descend fuel tree (2 ^ depth - 1) (2 ^ k - 1 + j) index = Some (j', index')
    /\ (j' < 2 ^ depth)%nat /\ (index' < level tree depth j')%nat
    /\ (psum (level tree depth) j' + index' = psum (level tree k) j + index)%nat.
Proof.
  intros Ht. revert k j index. induction fuel as [|fuel IH]; intros k j index Hk Hj Hf Hin; [lia|]. cbn [descend].
  pose proof (pow2_pos k). destruct (Nat.ltb_spec (2 ^ k - 1 + j) (2 ^ depth - 1)) as [Hlt|Hge].
  - assert (Hkd : (k < depth)%nat).
    { destruct (decide (k = depth)); [subst; lia|lia]. }
    destruct (level_sum depth B tree k j Ht Hkd Hj) as (Hs & a & b & Ha & _ & Hla & Hlb).
    pose proof (level_prefix depth B tree k j Ht Hkd ltac:(lia)) as Hlp.
    rewrite Ha. cbn [mbind option_bind].
    assert (Hleft : ((2 ^ k - 1 + j) * 2 + 1 = 2 ^ S k - 1 + 2 * j)%nat) by (simpl; lia).
    assert (Hright : ((2 ^ k - 1 + j) * 2 + 1 + 1 = 2 ^ S k - 1 + (2 * j + 1))%nat) by (simpl; lia).
    destruct (Nat.ltb_spec index a) as [Hl|Hr].
    + rewrite Hleft. destruct (IH (S k) (2 * j)%nat index) as (j' & i' & E1 & E2 & E3 & E4); [lia|simpl; lia|lia|lia|].
      exists j', i'. split_and!; auto. lia.
    + rewrite Hright. destruct (IH (S k) (2 * j + 1)%nat (index - a)%nat) as (j' & i' & E1 & E2 & E3 & E4); [lia|simpl; lia|lia|lia|].
      exists j', i'. split_and!; auto. rewrite E4. replace (2 * j + 1)%nat with (S (2 * j)) by lia. cbn [psum]. lia.
  - assert (k = depth) as ->.
    { destruct (decide (k = depth)); [done|]. pose proof (Nat.pow_le_mono_r 2 (S k) depth ltac:(lia) ltac:(lia)) as Hp. simpl in Hp. lia. }
    exists j, index. split_and!; auto. do 2 f_equal. lia.
Qed.

(** A position of the list as a block and an offset. *)
Definition position_of (B : list Block) (n i off : nat) : Prop :=
  exists b, B !! i = Some b /\ (off < vsize b)%nat /\ (list_sum (map vsize (take i B)) + off = n)%nat.

Lemma descend_position depth B tree n :
  tree_ok depth B tree -> (n < list_sum (map vsize B))%nat ->
  exists i off, descend (S (2 ^ depth - 1)) tree (2 ^ depth - 1) 0 n = Some (i, off) /\ position_of B n i off.
Proof.
  intros Ht Hn. pose proof Ht as (Hlen & HB & Hlv & _). pose proof (pow2_pos depth).
  assert (Hroot : forall k, (k <= depth)%nat -> psum (level tree k) (2 ^ k) = psum (level tree depth) (2 ^ depth)).
  { intros k. remember (depth - k)%nat as e eqn:He. revert k He. induction e as [|e IHe]; intros k He Hk.
    - by replace k with depth by lia.
    - rewrite <- (IHe (S k)) by lia. rewrite (level_prefix depth B tree k) by (done || lia). done. }
  assert (Htot : (psum (level tree depth) (2 ^ depth) >= list_sum (map vsize B))%nat).
  { rewrite <- (firstn_all B) at 1. rewrite <- (leaf_prefix depth B tree) by done.
    clear - HB. induction HB; [lia|]. cbn [psum]. lia. }
  specialize (Hroot 0%nat ltac:(lia)). cbn in Hroot.
  destruct (descend_spec depth B tree (S (2 ^ depth - 1)) 0 0 n) as (i & off & E1 & E2 & E3 & E4); auto; try (simpl; lia).
  { pose proof (Nat.pow_gt_lin_r 2 depth ltac:(lia)). lia. }
  exists i, off. split; [exact E1|]. unfold level in E3. rewrite Hlv, leaves_lookup in E3 by done. simpl in E3.
  destruct (B !! i) as [b|] eqn:Hb; simpl in E3; [|lia]. exists b. split_and!; auto.
  apply lookup_lt_Some in Hb. rewrite <- (leaf_prefix depth B tree) by (done || lia). simpl in E4. lia.
Qed.

Lemma walk_position B k n :
  (n < list_sum (map vsize B))%nat ->
  exists i off, walk B k n = ((k + i)%nat, off) /\ position_of B n i off.
Proof.
  revert k n. induction B as [|b B IH]; intros k n Hn; simpl in *; [lia|]. destruct (Nat.ltb_spec n (vsize b)).
  - exists 0%nat, n. split; [f_equal; lia|]. exists b. simpl. split_and!; auto.
  - destruct (IH (S k) (n - vsize b)%nat ltac:(lia)) as (i & off & E & b' & Hb & Ho & Hs).
    exists (S i), off. rewrite E. split; [f_equal; lia|]. exists b'. simpl. split_and!; auto. lia.
Qed.

(** *** Building the tree *)

Lemma sum_nodes_spec off i tree :
  (i <= off)%nat -> length tree = (2 * off + 1)%nat ->
  (forall n x, (i <= n < off)%nat -> tree !! n = Some x ->
     exists a b, tree !! (n * 2 + 1)%nat = Some a /\ tree !! (n * 2 + 2)%nat = Some b /\ x = (a + b)%nat) ->
  exists tree', sum_nodes i tree = Some tree' /\ length tree' = length tree
    /\ (forall m, (off <= m)%nat -> tree' !! m = tree !! m)
    /\ (forall n x, (n < off)%nat -> tree' !! n = Some x ->
         exists a b, tree' !! (n * 2 + 1)%nat = Some a /\ tree' !! (n * 2 + 2)%nat = Some b /\ x = (a + b)%nat).
Proof.
  revert tree. induction i as [|i IH]; intros tree Hi Hlen Hs.
  { exists tree. split_and!; auto. intros n x Hn. apply Hs. lia. }
  cbn [sum_nodes]. destruct (lookup_lt_is_Some_2 tree (i * 2 + 1)) as [a Ha]; [lia|].
  destruct (lookup_lt_is_Some_2 tree (i * 2 + 2)) as [b Hb]; [lia|]. rewrite Ha, Hb. cbn [mbind option_bind].
  destruct (IH (<[i := (a + b)%nat]> tree)) as (t & Ht & Hl & Hm & Hn); rewrite ?length_insert; auto with lia.
  - intros n x Hn Hx. destruct (decide (n = i)) as [->|Hne].
    + rewrite list_lookup_insert_eq in Hx by lia. injection Hx as <-.
      exists a, b. rewrite !list_lookup_insert_ne by lia. done.
    + rewrite list_lookup_insert_ne in Hx by done. destruct (Hs n x ltac:(lia) Hx) as (a' & b' & Ha' & Hb' & ->).
      exists a', b'. rewrite !list_lookup_insert_ne by lia. done.
  - exists t. rewrite length_insert in Hl. split_and!; auto. intros m Hge. rewrite Hm by done. by rewrite list_lookup_insert_ne by lia.
Qed.

Lemma bit_ceil_ge n : (1 <= n)%nat -> (n <= bit_ceil n < 2 * n \/ n = 1 /\ bit_ceil n = 1)%nat.
Proof.
  intros Hn. unfold bit_ceil. destruct (decide (n = 1)%nat) as [->|]; [by right|left].
  destruct (Nat.log2_up_spec n) as [H1 H2]; [lia|]. split; [done|].
  destruct (Nat.log2_up n) as [|k]; simpl in *; lia.
Qed.

Lemma length_leaves n B : (length B <= n)%nat -> length (leaves n B) = n.
Proof. intros. unfold leaves. rewrite length_app, length_map, length_replicate. lia. Qed.

Lemma built_tree_ok (B : list Block) :
  (1 <= length B)%nat ->
  exists tree, sum_nodes (bit_ceil (length B) - 1)
                 (replicate (bit_ceil (length B) - 1) 0%nat ++ leaves (bit_ceil (length B)) B) = Some tree
    /\ tree_ok (Nat.log2_up (length B)) B tree.
Proof.
  intros HB. pose proof (bit_ceil_ge (length B) HB) as Hc. unfold bit_ceil in *.
  set (d := Nat.log2_up (length B)) in *. pose proof (pow2_pos d).
  assert (Hl : length (leaves (2 ^ d) B) = (2 ^ d)%nat) by (apply length_leaves; lia).
  destruct (sum_nodes_spec (2 ^ d - 1) (2 ^ d - 1) (replicate (2 ^ d - 1) 0%nat ++ leaves (2 ^ d) B))
    as (t & Ht & Hlt & Hm & Hs); [done|rewrite length_app, length_replicate; lia|lia|].
  rewrite length_app, length_replicate in Hlt. exists t. split; [done|]. split_and!; [lia|lia| |done].
  intros j Hj. rewrite Hm by lia. rewrite lookup_app_r, length_replicate by (rewrite length_replicate; lia). f_equal. lia.
Qed.

Definition reindexed (l l' : L) : Prop := exists ix off, l' = set_index ix off l.

Lemma blocks_le_size l : inv l -> (block_count l <= size_ l)%nat.
Proof.
  intros Hi. rewrite (inv_size _ Hi). pose proof (inv_maxes _ Hi) as Hm. unfold block_count, vsize, contents, view.
  induction Hm as [|b m B ms Hb HB IH]; simpl; [done|]. rewrite length_app.
  destruct (elems b); [done|]. simpl. lia.
Qed.

Lemma wp_build_index (Q : unit -> world L -> Prop) E w :
  inv (obj w) -> (Z.of_nat (size_ (obj w)) <= 2 ^ 48)%Z ->
  (forall m l', (unlimited (mem w) -> m = mem w) -> inv l' -> reindexed (obj w) l' -> Q tt (World m l')) ->
  wp build_index Q E w.
Proof.
  intros Hi Hsz HQ. pose proof (blocks_le_size _ Hi) as Hbs. apply wp_bind, wp_obj_get. unfold id.
  assert (Hsame : wp (mret tt) Q E w).
  { apply wp_ret. destruct w as [m l]. apply HQ; auto. exists (index_ l), (index_offset_ l). by destruct l. }
  destruct (elems (index_ (obj w))) as [|x0 rest] eqn:Hel; [|done].
  destruct (elems (blocks_ (obj w))) as [|b0 B0] eqn:Hem; [done|]. rewrite <- Hem.
  assert (Hpos : (1 <= block_count (obj w))%nat) by (unfold block_count, vsize; rewrite Hem; simpl; lia). clear b0 B0 Hem.
  pose proof (bit_ceil_ge _ Hpos) as Hbc. destruct (built_tree_ok _ Hpos) as (tree & Htree & Hok). unfold block_count, vsize in *.
  set (leaf := bit_ceil (length (elems (blocks_ (obj w))))) in *.
  assert (Hafter : forall ok m, (unlimited (mem w) -> m = mem w) ->
    (ok = true -> granted (if (Z.of_nat (leaf - 1 + leaf) >? capacity (index_ (obj w)))%Z
       then (Z.of_nat (leaf - 1 + leaf) - capacity (index_ (obj w))) * sizeof_size_type else 0) m) ->
    wp (if negb ok then mret tt else
        zoom index_ (fun i l => set_index i (index_offset_ l) l)
          (reserve_memory_vector sizeof_size_type (Z.of_nat (leaf - 1 + leaf)));;
        index ← need (sum_nodes (leaf - 1)
                        (replicate (leaf - 1) 0%nat ++ leaves leaf (elems (blocks_ (obj w)))));
        obj_mod (fun l => set_index (with_elems index (index_ l)) (leaf - 1) l)) Q E (World m (obj w))).
  2: { apply wp_bind, wp_memory_growth_allowed.
       - intros Hu. destruct w as [m l]. apply Hafter; [done|]. intros _. by apply unlimited_granted.
       - intros Hu ok m Hg. by apply Hafter. }
  intros [|] m Hm Hg; [|].
  2: { apply wp_ret. apply HQ; auto. exists (index_ (obj w)), (index_offset_ (obj w)). by destruct (obj w). }
  specialize (Hg eq_refl). simpl. apply wp_bind, wp_zoom, wp_reserve_granted; simpl.
  { unfold sizeof_size_type. assert (u64_max / 8 = 2 ^ 61 - 1)%Z by (vm_compute; reflexivity). lia. }
  { intros Hlt. by rewrite (proj2 (Z.gtb_lt _ _)) in Hg. }
  intros m2 ix Hm2 Hex Hcap. apply wp_bind, (wp_need _ tree); [done|]. apply wp_obj_mod. simpl.
  apply HQ.
  - intros HU. by rewrite Hm2, Hm by (by rewrite ?Hm).
  - destruct Hi as [H1 H2 H3 H4 (H5 & H6 & H7 & H8)]. split; auto.
    + right. exists (Nat.log2_up (length (elems (blocks_ (obj w))))). done.
    + split_and!; auto. unfold vec_ok, vsize. simpl. destruct Hok as (-> & _).
      unfold leaf, bit_ceil in *. pose proof (pow2_pos (Nat.log2_up (length (elems (blocks_ (obj w)))))). lia.
  - exists (with_elems tree ix), (leaf - 1)%nat. done.
Qed.

Lemma wp_prefix_size k (Q : nat -> world L -> Prop) E w :
  inv (obj w) -> (Z.of_nat (size_ (obj w)) <= 2 ^ 48)%Z -> (k < block_count (obj w))%nat ->
  (forall m l', (unlimited (mem w) -> m = mem w) -> inv l' -> reindexed (obj w) l' ->
     Q (length (concat (take k (view (obj w))))) (World m l')) ->
  wp (prefix_size k) Q E w.
Proof.
  intros Hi Hsz Hk HQ. apply wp_bind, wp_build_index; auto. intros m l' Hm Hi' Hre. apply wp_bind, wp_obj_get. unfold id. simpl.
  assert (HB : elems (blocks_ l') = elems (blocks_ (obj w))) by (by destruct Hre as (? & ? & ->)).
  assert (Hlen : length (concat (take k (view (obj w)))) = list_sum (map vsize (take k (elems (blocks_ l'))))).
  { by rewrite sum_sizes, HB, <- firstn_map. }
  rewrite Hlen in HQ. destruct (inv_index _ Hi') as [He|(d & Ho & Ht)]; [rewrite He; by apply wp_ret, HQ|].
  destruct (elems (index_ l')) as [|x0 rest] eqn:Hel.
  { apply wp_ret. by apply HQ. }
  rewrite Ho. unfold block_count, vsize in Hk. rewrite <- HB in Hk. pose proof Ht as (_ & Hd & _).
  apply (wp_need _ (list_sum (map vsize (take k (elems (blocks_ l')))))); [|by apply HQ].
  rewrite (climb_spec d (elems (blocks_ l'))) by (done || lia). simpl. by rewrite (leaf_prefix d (elems (blocks_ l'))) by (done || lia).
Qed.

Lemma wp_position_at n (Q : nat * nat -> world L -> Prop) E w :
  inv (obj w) -> (Z.of_nat (size_ (obj w)) <= 2 ^ 48)%Z -> (n < size_ (obj w))%nat ->
  (forall m l' i off, (unlimited (mem w) -> m = mem w) -> inv l' -> reindexed (obj w) l' ->
     position_of (elems (blocks_ (obj w))) n i off -> Q (i, off) (World m l')) ->
  wp (position_at n) Q E w.
Proof.
  intros Hi Hsz Hn HQ. apply wp_bind, wp_build_index; auto. intros m l' Hm Hi' Hre. apply wp_bind, wp_obj_get. unfold id. simpl.
  assert (HB : elems (blocks_ l') = elems (blocks_ (obj w))) by (by destruct Hre as (? & ? & ->)).
  assert (Hsum : (n < list_sum (map vsize (elems (blocks_ l'))))%nat) by (rewrite sum_sizes, HB; by rewrite (inv_size _ Hi) in Hn).
  assert (Hwalk : wp (mret (walk (elems (blocks_ l')) 0 n)) Q E (World m l')).
  { destruct (walk_position (elems (blocks_ l')) 0 n Hsum) as (i & off & -> & Hp). apply wp_ret, HQ; auto. by rewrite <- HB. }
  destruct (inv_index _ Hi') as [He|(d & Ho & Ht)]; [by rewrite He|].
  destruct (elems (index_ l')) as [|x0 rest] eqn:Hel; [done|].
  destruct (descend_position d _ _ n Ht Hsum) as (i & off & Hde & Hp). rewrite Ho. apply (wp_need _ (i, off)); [done|].
  apply HQ; auto. by rewrite <- HB.
Qed.

(** *** Reading *)

Lemma reindexed_contents l l' : reindexed l l' -> contents l' = contents l.
Proof. by intros (? & ? & ->). Qed.

Lemma position_contents l n i off :
  position_of (elems (blocks_ l)) n i off ->
  exists b x, elems (blocks_ l) !! i = Some b /\ elems b !! off = Some x /\ contents l !! n = Some x.
Proof.
  intros (b & Hb & Ho & Hs). unfold vsize in Ho. destruct (lookup_lt_is_Some_2 (elems b) off Ho) as [x Hx].
  exists b, x. split_and!; auto. rewrite <- Hx, <- (contents_at l i b off Hb Ho). f_equal.
  rewrite <- Hs, sum_sizes. unfold view. by rewrite firstn_map.
Qed.

Lemma collect_drop B off count :
  (off <= list_sum (map vsize B))%nat ->
  (match B with b :: _ => off <= vsize b | [] => True end)%nat ->
  collect B off count = take count (drop off (concat (map elems B))).
Proof.
  revert off count. induction B as [|b B IH]; intros off count Hs Ho; simpl in *; [by rewrite drop_nil, take_nil|].
  destruct count as [|count']; [done|]. set (count := S count') in *. unfold vsize in Ho.
  rewrite drop_app_le by done. rewrite IH; [|lia|destruct B; lia]. rewrite drop_0. unfold vsize.
  rewrite take_app. rewrite length_drop. f_equal.
  - destruct (Nat.min_spec count (length (elems b) - off)) as [[? ->]|[? ->]]; [done|].
    rewrite !take_ge; rewrite ?length_drop; auto.
  - f_equal. lia.
Qed.

Lemma collect_position l n i off count :
  position_of (elems (blocks_ l)) n i off ->
  collect (drop i (elems (blocks_ l))) off count = take count (drop n (contents l)).
Proof.
  intros (b & Hb & Ho & Hs). rewrite (drop_S _ b i Hb). rewrite collect_drop; simpl; [|lia|lia].
  f_equal. unfold contents, view. rewrite (concat_at i b _ Hb), <- Hs, sum_sizes, drop_app_add. done.
Qed.

Section reading.
Variable w : world L.
Hypothesis Hinv : inv (obj w).
Hypothesis Hfits : (Z.of_nat (size_ (obj w)) <= 2 ^ 48)%Z.

(** A read returns [r] and leaves the sequence; only the index may be built. *)
Definition reads {A} (r : A) (a : A) (w' : world L) : Prop :=
  a = r /\ inv (obj w') /\ contents (obj w') = contents (obj w) /\ (unlimited (mem w) -> mem w' = mem w).

Lemma reads_here {A} (r : A) : reads r r w.
Proof. by split_and!. Qed.

Lemma wp_at n x (E : exn -> world L -> Prop) : contents (obj w) !! n = Some x -> wp (at_ n) (reads x) E w.
Proof.
  intros Hx. apply wp_bind, wp_position_at; auto.
  { rewrite (inv_size _ Hinv). by apply lookup_lt_Some in Hx. }
  intros m l' i off Hm Hi' Hre Hp. destruct (position_contents _ _ _ _ Hp) as (b & y & Hb & Hy & Hc).
  assert (y = x) as -> by congruence. apply wp_bind, (wp_block_at _ b); [by destruct Hre as (? & ? & ->)|].
  apply (wp_need _ x); [done|]. split_and!; auto. by apply reindexed_contents.
Qed.

Lemma wp_range start count (E : exn -> world L -> Prop) :
  wp (range start count) (reads (take count (drop start (contents (obj w))))) E w.
Proof.
  pose proof (inv_size _ Hinv) as Hs. apply wp_bind, wp_obj_get. unfold id.
  destruct (Nat.eqb_spec count 0) as [->|Hc]; [apply wp_ret, reads_here|].
  destruct (Nat.leb_spec (size_ (obj w)) start) as [Hst|Hst].
  { simpl. apply wp_ret. rewrite drop_ge, take_nil by lia. apply reads_here. }
  simpl. apply wp_bind, wp_position_at; auto. intros m l' i off Hm Hi' Hre Hp. apply wp_bind, wp_obj_get. simpl.
  apply wp_ret. split_and!; auto; [|by apply reindexed_contents]. destruct Hre as (ix & o & ->). simpl.
  rewrite (collect_position _ _ _ _ _ Hp). rewrite Hs.
  destruct (Nat.min_spec count (length (contents (obj w)) - start)) as [[? ->]|[? ->]]; [done|].
  rewrite !take_ge; rewrite ?length_drop; auto.
Qed.

Lemma wp_lower_bound_rank v (E : exn -> world L -> Prop) :
  wp (lower_bound_rank v) (reads (prefix_count (fun x => compare_ x v) (contents (obj w)))) E w.
Proof.
  apply wp_bind, wp_obj_get. unfold id. destruct (elems (blocks_ (obj w))) as [|b0 B0] eqn:Hem.
  { apply wp_ret. assert (Hc : prefix_count (fun x => compare_ x v) (contents (obj w)) = 0%nat) by (unfold contents, view; by rewrite Hem).
    rewrite Hc. apply reads_here. }
  clear Hem. destruct (lower_block_cases v (obj w) Hinv) as [[HL HP]|(b & Hb & Ho & Hp)].
  { rewrite HL, Nat.eqb_refl. apply wp_ret. rewrite HP, <- (inv_size _ Hinv). apply reads_here. }
  pose proof (lookup_lt_Some _ _ _ Hb) as Hk. rewrite (proj2 (Nat.eqb_neq _ _)) by (unfold block_count, vsize; lia).
  apply wp_bind, (wp_block_at _ b); [done|]. apply wp_bind, wp_prefix_size; auto.
  intros m l' Hm Hi' Hre. apply wp_ret. split_and!; auto. by apply reindexed_contents.
Qed.

Lemma wp_rank v (E : exn -> world L -> Prop) : wp (rank v) (reads (sorted_rank v (contents (obj w)))) E w.
Proof.
  apply wp_bind, wp_obj_get. unfold id. destruct (elems (blocks_ (obj w))) as [|b0 B0] eqn:Hem.
  { apply wp_ret. assert (Hc : sorted_rank v (contents (obj w)) = None) by (unfold contents, view; by rewrite Hem).
    rewrite Hc. apply reads_here. }
  clear Hem. destruct (lower_block_cases v (obj w) Hinv) as [[HL HP]|(b & Hb & Ho & Hp)].
  { rewrite HL, Nat.eqb_refl, rank_past_end by done. apply wp_ret, reads_here. }
  pose proof (lookup_lt_Some _ _ _ Hb) as Hk. rewrite (proj2 (Nat.eqb_neq _ _)) by (unfold block_count, vsize; lia).
  apply wp_bind, (wp_block_at _ b); [done|]. rewrite (rank_in_block v (obj w) b Hinv Hb).
  destruct (find_in_block v (elems b)) as [found|]; [|apply wp_ret, reads_here].
  apply wp_bind, wp_prefix_size; auto. intros m l' Hm Hi' Hre. apply wp_ret. split_and!; auto. by apply reindexed_contents.
Qed.

Lemma wp_contains v (E : exn -> world L -> Prop) :
  wp (contains v) (reads (bool_decide (is_Some (sorted_rank v (contents (obj w)))))) E w.
Proof.
  apply wp_bind. eapply wp_mono; [apply (wp_rank v E)| |done].
  intros r w' (-> & H). apply wp_ret. by split.
Qed.
End reading.

(** *** The self-check *)

Lemma in_order_sorted b : StronglySorted le b -> in_order b = true.
Proof.
  induction 1 as [|x b Hs IH Hx]; [done|]. destruct b as [|y b]; [done|]. simpl in *.
  apply Forall_inv in Hx. unfold le in Hx. by rewrite Hx, IH.
Qed.

Lemma equivalent_refl x : equivalent x x = true.
Proof. unfold equivalent. pose proof (le_refl x) as H. unfold le in H. by rewrite H. Qed.

Lemma validate_blocks_ok B ms prev n :
  Forall2 (fun b m => last (elems b) = Some m) B ms ->
  StronglySorted le (from_option (fun p => [p]) [] prev ++ concat (map elems B)) ->
  validate_blocks prev B ms n = Some (n + length (concat (map elems B)))%nat.
Proof.
  intros Hm. revert prev n. induction Hm as [|b m B ms Hb HB IH]; intros prev n Hs; simpl in *; [f_equal; lia|].
  apply sorted_app in Hs as (_ & Hs & Hp). pose proof Hs as (Hsb & Hsr & Hx)%sorted_app.
  destruct (elems b) as [|front rest] eqn:He; [done|]. rewrite <- He in *. rewrite He at 1. simpl. rewrite Hb.
  rewrite equivalent_refl, (in_order_sorted _ Hsb). simpl.
  assert (Hpr : match prev with Some p => negb (compare_ front p) | None => true end = true).
  { destruct prev as [p|]; [|done]. apply negb_true_iff. apply (Hp p front); [by left|]. rewrite He. simpl. by left. }
  rewrite Hpr. rewrite IH.
  - rewrite length_app. unfold vsize. f_equal. lia.
  - simpl. constructor; [done|]. apply Forall_forall. intros y Hy. apply Hx; [by apply last_elem|done].
Qed.

Lemma inv_validate l : inv l -> validate l = true.
Proof.
  intros Hi. unfold validate, vsize. rewrite (Forall2_length _ _ _ (inv_maxes _ Hi)), Nat.eqb_refl. cbn [negb].
  pose proof (validate_blocks_ok _ _ None 0 (inv_maxes _ Hi) (inv_sorted _ Hi)) as Hv.
  pose proof (inv_size _ Hi) as Hs. unfold contents, view in Hs.
  destruct (elems (blocks_ l)) as [|b0 B0] eqn:Hem; [simpl in Hs; by rewrite Hs|].
  apply bool_decide_eq_true_2. by rewrite Hv, Hs.
Qed.

Lemma inv_empty : inv empty_list.
Proof. split; simpl; [constructor|unfold contents, view; constructor|done|by left|]. unfold vec_ok, vsize. simpl. split_and!; (lia || constructor). Qed.

(** ** The contract of the list *)

(** C23: inserting a value into an [insertable] list (no memory limit and capacities up to 2^48, or
    a list that is not empty and whose vector of blocks has room for two more; elsewhere a refusal can
    break the list, see [sorted_list_limit_unsafe]) puts it after the values that are not greater, in
    whichever block that is, through any splits, and keeps the invariant (blocks,
    maxima, sizes and tree of sizes agree, the whole sequence is sorted); when a
    memory limit stops it, the exception leaves the sequence as it was, and
    without a limit it never throws and blocks stay within twice the load. *)
Theorem sorted_list_insert (v : T) (w : world L) :
  inv (obj w) -> insertable w ->
  wp (insert v)
    (fun _ w' => inv (obj w') /\ contents (obj w') = sorted_insert v (contents (obj w))
       /\ (calm w -> mem w' = mem w /\ bounded (obj w')))
    (fun e w' => ~ calm w /\ is_bad_alloc e = true /\ inv (obj w') /\ contents (obj w') = contents (obj w)) w.
Proof.
  intros Hi Hins. apply wp_insert; auto.
  intros m l' Hm Hi' Hc Hb. split_and!; auto. intros Hcalm. split; [by apply Hm, Hcalm|by apply Hb].
Qed.

(** Removing a value takes out the first element equivalent to it and tells
    whether there was one; emptied blocks disappear, small ones are merged with a
    neighbour when the memory limit allows it, and no exception is thrown. *)
Theorem sorted_list_erase (v : T) (w : world L) :
  inv (obj w) -> (Z.of_nat (size_ (obj w)) <= 2 ^ 48)%Z ->
  wp (erase_one v)
    (fun found w' => found = bool_decide (is_Some (sorted_rank v (contents (obj w))))
       /\ inv (obj w') /\ contents (obj w') = sorted_erase v (contents (obj w)))
    (fun _ _ => False) w.
Proof. intros Hi Hs. apply wp_erase_one; auto. Qed.

(** Positional access, ranks and ranges read the sorted sequence, whether the
    tree of block sizes was built before, is built now or cannot be built for lack
    of memory; they change nothing but that tree, and the self-check accepts every
    list that satisfies the invariant. *)
Theorem sorted_list_reads (w : world L) :
  inv (obj w) -> (Z.of_nat (size_ (obj w)) <= 2 ^ 48)%Z ->
  (forall n x, contents (obj w) !! n = Some x -> wp (at_ n) (reads w x) (fun _ _ => False) w)
  /\ (forall start count, wp (range start count) (reads w (take count (drop start (contents (obj w))))) (fun _ _ => False) w)
  /\ (forall v, wp (lower_bound_rank v) (reads w (prefix_count (fun x => compare_ x v) (contents (obj w)))) (fun _ _ => False) w)
  /\ (forall v, wp (rank v) (reads w (sorted_rank v (contents (obj w)))) (fun _ _ => False) w)
  /\ (forall v, wp (contains v) (reads w (bool_decide (is_Some (sorted_rank v (contents (obj w)))))) (fun _ _ => False) w)
  /\ validate (obj w) = true.
Proof.
  intros Hi Hs. split_and!; intros.
  - by apply wp_at.
  - by apply wp_range.
  - by apply wp_lower_bound_rank.
  - by apply wp_rank.
  - by apply wp_contains.
  - by apply inv_validate.
Qed.
End list.

#[global] Arguments ChunkedSortedList : clear implicits.

(** ** Concrete lists *)

Section samples.
Local Open Scope Z_scope.

Lemma ltb_asym a b : (a <? b) = true -> (b <? a) = false.
Proof. rewrite Z.ltb_lt, Z.ltb_ge. lia. Qed.
Lemma ltb_cotrans a b c : (a <? c) = true -> (a <? b) = true \/ (b <? c) = true.
Proof. rewrite !Z.ltb_lt. lia. Qed.

(** Two blocks, under a limit that leaves room for the next insertion only. *)
Definition sample_list : ChunkedSortedList Z :=
  {| blocks_ := Vec [Vec [1; 2] 2; Vec [4] 2] 8; maxes_ := Vec [2; 4] 8; index_ := empty_vec;
     index_offset_ := 0; size_ := 3 |}.
Definition sample_limit (limit : Z) : option ActiveMemoryBudget :=
  Some (new_budget (Some {| address := 0; limit_ := limit; usage_ := Some 0 |})).

Lemma sample_inv : inv Z.ltb sample_list.
Proof.
  split; simpl.
  - by repeat constructor.
  - unfold contents, view. simpl. by repeat constructor.
  - done.
  - by left.
  - unfold vec_ok, vsize. simpl. split_and!; try lia. repeat constructor; simpl; lia.
Qed.

Lemma sorted_list_insert_witness :
  wp (insert Z.ltb 8 2 3)
    (fun _ w' => contents (obj w') = [1; 2; 3; 4]) (fun _ _ => True) (World (sample_limit 40) sample_list).
Proof.
  eapply wp_mono; [apply (sorted_list_insert Z.ltb 8 2 ltb_asym ltb_cotrans ltac:(lia) ltac:(lia) ltac:(lia) 3)| |done].
  - exact sample_inv.
  - right. split; [discriminate|reflexivity].
  - intros _ w' (_ & H & _). rewrite H. reflexivity.
Defined.

Lemma sorted_list_erase_witness :
  wp (erase_one Z.ltb 8 2 2)
    (fun found w' => found = true /\ contents (obj w') = [1; 4]) (fun _ _ => False) (World (sample_limit 40) sample_list).
Proof.
  eapply wp_mono; [apply (sorted_list_erase Z.ltb 8 2 ltb_asym ltb_cotrans ltac:(lia) ltac:(lia) 2)| |done].
  - exact sample_inv.
  - simpl. lia.
  - intros found w' (-> & _ & H). rewrite H. split; reflexivity.
Defined.

Lemma sorted_list_reads_witness :
  wp (at_ 2) (reads Z.ltb (World (sample_limit 40) sample_list) 4) (fun _ _ => False) (World (sample_limit 40) sample_list).
Proof.
  apply (sorted_list_reads Z.ltb 2 ltb_asym ltb_cotrans ltac:(lia) (World (sample_limit 40) sample_list)); [exact sample_inv|simpl; lia|reflexivity].
Defined.

(** A full list of one block: the next insertion has to split it. *)
Definition full_list : ChunkedSortedList Z :=
  {| blocks_ := Vec [Vec (map Z.of_nat (seq 0 512)) 512] 1; maxes_ := Vec [511] 1; index_ := empty_vec;
     index_offset_ := 0; size_ := 512 |}.

(** Two insertions of twelve-byte entries in blocks of load 256 that meet
    the memory limit at the wrong moment.  The first value of an empty list, when
    the limit refuses the storage of the block, throws but leaves an empty block
    without maximum, which the self-check rejects, and the next insertion writes
    past the vector of maxima.  And when a split gets the storage for the block
    vector but not for the maxima, the insertion goes on through a reference
    into the storage that was just given up. *)
Theorem sorted_list_limit_unsafe :
  (exists w', insert Z.ltb 12 256 7 (World (sample_limit 100) (@empty_list Z)) = Exn MaxMemoryExceeded w'
     /\ validate Z.ltb (obj w') = false /\ insert Z.ltb 12 256 7 (World None (obj w')) = Ub)
  /\ (validate Z.ltb full_list = true
      /\ insert Z.ltb 12 256 600 (World (sample_limit (512 * 12 + 30)) full_list) = Ub
      /\ exists w', insert Z.ltb 12 256 600 (World (sample_limit (512 * 12 + 10)) full_list) = Ok tt w').
Proof.
  split.
  - eexists. split; [vm_compute; reflexivity|]. split; vm_compute; reflexivity.
  - split_and!; [vm_compute; reflexivity..|]. eexists. vm_compute. reflexivity.
Qed.
End samples.
