(* ===== verification/Binary64.v ===== *)
(** * Binary64 arithmetic

    The products and quotients of positive [double] values the sizing formulas of the
    containers use, rounded as IEEE 754 does, with the bounds their truncations obey. *)

From S2P Require Import Prelude.
From Stdlib Require Import ZArith Lia.

Local Open Scope Z_scope.

(** ** Binary64 numbers

    A positive number [mant * 2 ^ expo]; every operation rounds the exact result
    to 53 significant bits, ties to even. *)
Module Double.

Record double := Dbl { mant : Z; expo : Z }.

Definition round_even (a b : Z) : Z :=
  let q := a / b in
  let r := a mod b in
  if 2 * r <? b then q
  else if b <? 2 * r then q + 1
  else if Z.even q then q else q + 1.

(** The double nearest to [a / b]; the exponent puts the quotient in [2^52, 2^53]. *)
Definition round_double (a b : Z) : double :=
  if a =? 0 then Dbl 0 0
  else
    let e := Z.log2 (a * 2 ^ 128 / b) - 180 in
    Dbl (if 0 <=? e then round_even a (b * 2 ^ e) else round_even (a * 2 ^ (- e)) b) e.

Definition of_int (n : Z) : double := round_double n 1.
Definition mul (x y : double) : double :=
  let e := expo x + expo y in
  if 0 <=? e then round_double (mant x * mant y * 2 ^ e) 1
  else round_double (mant x * mant y) (2 ^ (- e)).
Definition div (x y : double) : double :=
  let e := expo x - expo y in
  if 0 <=? e then round_double (mant x * 2 ^ e) (mant y)
  else round_double (mant x) (mant y * 2 ^ (- e)).

(** [static_cast<size_type>] of a non-negative double. *)
Definition trunc (x : double) : Z :=
  if 0 <=? expo x then mant x * 2 ^ expo x else mant x / 2 ^ (- expo x).

(** The same where the source relies on the result being in range: undefined past 64 bits. *)
Definition to_size (x : double) : option Z := if trunc x <? 2 ^ 64 then Some (trunc x) else None.

Lemma round_even_bound a b : 0 < b -> 2 * Z.abs (round_even a b * b - a) <= b.
Proof.
  intros Hb. unfold round_even. pose proof (Z.div_mod a b ltac:(lia)). pose proof (Z.mod_pos_bound a b Hb).
  repeat case_bool; try (destruct (Z.even (a / b))); nia.
Qed.

Lemma round_even_1 a : round_even a 1 = a.
Proof. unfold round_even. by rewrite Z.mod_1_r, Z.div_1_r. Qed.

(** Truncating a rounded quotient is right up to one part in [2^53]. *)
Lemma trunc_round a b :
  0 < a -> 0 < b -> b <= a * 2 ^ 128 ->
  let t := trunc (round_double a b) in
  t * b * 2 ^ 53 <= a * (2 ^ 53 + 1) /\ a * (2 ^ 53 - 1) < (t + 1) * b * 2 ^ 53.
Proof.
  intros Ha Hb Hab. unfold round_double. rewrite (proj2 (Z.eqb_neq a 0)) by lia. cbv zeta.
  set (l := a * 2 ^ 128 / b). assert (Hl : 1 <= l) by (apply Z.div_le_lower_bound; lia).
  assert (Hlow : b * 2 ^ Z.log2 l <= a * 2 ^ 128).
  { pose proof (Z.log2_spec l ltac:(lia)) as [Hs _]. pose proof (Z.mul_div_le (a * 2 ^ 128) b ltac:(lia)). unfold l in *. nia. }
  pose proof (Z.log2_nonneg l) as Hnn. set (e := Z.log2 l - 180) in *.
  replace (Z.log2 l) with (e + 180) in Hlow, Hnn by (unfold e; lia). clearbody e. clear l Hl. unfold trunc. simpl expo. simpl mant.
  destruct (Z.leb_spec 0 e) as [He|He].
  - assert (Hp : 0 < 2 ^ e) by (apply Z.pow_pos_nonneg; lia).
    pose proof (round_even_bound a (b * 2 ^ e) ltac:(nia)) as Hr. set (m := round_even a (b * 2 ^ e)) in *. clearbody m.
    replace (e + 180) with (e + 52 + 128) in Hlow by lia. rewrite (Z.pow_add_r 2 (e + 52) 128), (Z.pow_add_r 2 e 52) in Hlow by lia.
    assert (Hq : b * 2 ^ e * 2 ^ 52 <= a) by nia. set (p := b * 2 ^ e) in *.
    replace (m * 2 ^ e * b) with (m * p) by (unfold p; lia). replace ((m * 2 ^ e + 1) * b) with (m * p + b) by (unfold p; lia).
    change (2 ^ 53) with (2 * 2 ^ 52). nia.
  - assert (Hp : 0 < 2 ^ (- e)) by (apply Z.pow_pos_nonneg; lia). set (q := 2 ^ (- e)) in *.
    pose proof (round_even_bound (a * q) b Hb) as Hr. set (m := round_even (a * q) b) in *. clearbody m.
    assert (Hq : b * 2 ^ 52 <= a * q).
    { assert (H1 : b * 2 ^ (e + 180) * q <= a * 2 ^ 128 * q) by (apply Z.mul_le_mono_nonneg_r; lia).
      assert (H2 : 2 ^ (e + 180) * q = 2 ^ 52 * 2 ^ 128) by (unfold q; rewrite <- !Z.pow_add_r by lia; f_equal; lia).
      rewrite <- Z.mul_assoc, H2 in H1. apply (Z.mul_le_mono_pos_r _ _ (2 ^ 128)); lia. }
    pose proof (Z.div_mod m q ltac:(lia)). pose proof (Z.mod_pos_bound m q Hp). set (t := m / q) in *. clearbody t.
    assert (Ht : t * q <= m < (t + 1) * q) by lia. change (2 ^ 53) with (2 * 2 ^ 52).
    assert (Hu : m * b * (2 * 2 ^ 52) <= a * q * (2 * 2 ^ 52 + 1)) by nia.
    assert (Hd : a * q * (2 * 2 ^ 52 - 1) <= m * b * (2 * 2 ^ 52)) by nia.
    assert (Hu2 : t * q * b * (2 * 2 ^ 52) <= m * b * (2 * 2 ^ 52)) by nia.
    assert (Hd2 : m * b * (2 * 2 ^ 52) < (t + 1) * q * b * (2 * 2 ^ 52)) by nia.
    split; nia.
Qed.

(** An integer below [2^53] is a double. *)
Lemma of_int_exact n :
  0 < n < 2 ^ 53 -> expo (of_int n) <= 0 /\ mant (of_int n) = n * 2 ^ (- expo (of_int n)) /\ -52 <= expo (of_int n).
Proof.
  intros Hn. unfold of_int, round_double. rewrite (proj2 (Z.eqb_neq n 0)) by lia. cbv zeta. rewrite Z.div_1_r.
  rewrite Z.log2_mul_pow2 by lia. pose proof (Z.log2_lt_pow2 n 53 ltac:(lia)) as Hl. pose proof (Z.log2_nonneg n).
  set (e := 128 + Z.log2 n - 180). assert (He : -52 <= e <= 0) by (unfold e; lia). clearbody e. simpl. split_and!; [lia| |lia].
  destruct (Z.leb_spec 0 e).
  - replace e with 0 by lia. rewrite !Z.mul_1_r. apply round_even_1.
  - apply round_even_1.
Qed.

Lemma trunc_mul n c k :
  0 < n < 2 ^ 50 -> 2 ^ 52 <= c < 2 ^ 53 -> 0 < k <= 60 ->
  let t := trunc (mul (of_int n) (Dbl c (- k))) in
  t * 2 ^ k * 2 ^ 53 <= n * c * (2 ^ 53 + 1) /\ n * c * (2 ^ 53 - 1) < (t + 1) * 2 ^ k * 2 ^ 53.
Proof.
  intros Hn Hc Hk. destruct (of_int_exact n ltac:(lia)) as (He & Hm & Hlow). unfold mul. simpl expo. simpl mant.
  set (e := expo (of_int n)) in *. rewrite Hm. rewrite (proj2 (Z.leb_gt _ _)) by lia.
  assert (Hp : 0 < 2 ^ (- e)) by (apply Z.pow_pos_nonneg; lia).
  replace (2 ^ (- (e + - k))) with (2 ^ (- e) * 2 ^ k) by (rewrite <- Z.pow_add_r by lia; f_equal; lia).
  assert (Hk' : 0 < 2 ^ k) by (apply Z.pow_pos_nonneg; lia).
  assert (Hkb : 2 ^ k <= 2 ^ 128) by (apply Z.pow_le_mono_r; lia).
  set (q := 2 ^ (- e)) in *. set (r := 2 ^ k) in *. clearbody q r.
  assert (Hnc : 1 <= n * c) by nia. assert (Hqr : q * r <= q * 2 ^ 128) by (apply Z.mul_le_mono_nonneg_l; lia).
  assert (Hbound : q * r <= n * q * c * 2 ^ 128).
  { replace (n * q * c * 2 ^ 128) with (n * c * (q * 2 ^ 128)) by lia.
    assert (1 * (q * 2 ^ 128) <= n * c * (q * 2 ^ 128)) by (apply Z.mul_le_mono_nonneg_r; lia). lia. }
  pose proof (trunc_round (n * q * c) (q * r) ltac:(nia) ltac:(nia) Hbound) as H. cbv zeta in H. destruct H as [H1 H2].
  set (t := trunc _) in *. clearbody t. cbv zeta. split.
  - apply (Z.mul_le_mono_pos_r _ _ q Hp). lia.
  - apply (Z.mul_lt_mono_pos_r q _ _ Hp). lia.
Qed.

Lemma trunc_quot n c k :
  0 < n < 2 ^ 50 -> 2 ^ 52 <= c < 2 ^ 53 -> 52 <= k <= 60 ->
  let t := trunc (div (of_int n) (Dbl c (- k))) in
  t * c * 2 ^ 53 <= n * 2 ^ k * (2 ^ 53 + 1) /\ n * 2 ^ k * (2 ^ 53 - 1) < (t + 1) * c * 2 ^ 53.
Proof.
  intros Hn Hc Hk. destruct (of_int_exact n ltac:(lia)) as (He & Hm & Hlow). unfold div. simpl expo. simpl mant.
  set (e := expo (of_int n)) in *. rewrite Hm. rewrite (proj2 (Z.leb_le _ _)) by lia.
  replace (n * 2 ^ (- e) * 2 ^ (e - - k)) with (n * 2 ^ k).
  2: { rewrite <- Z.mul_assoc, <- Z.pow_add_r by lia. do 2 f_equal. lia. }
  assert (Hk' : 2 ^ 52 <= 2 ^ k) by (apply Z.pow_le_mono_r; lia). apply (trunc_round (n * 2 ^ k) c); nia.
Qed.

End Double.
