(* ===== verification/BitMask.v ===== *)
(** * Bit masks of byte groups

    The masks [src/simd_backend_ops.hpp] returns for a group of bytes and the two
    steps every client takes with them: the index of the lowest set bit
    ([std::countr_zero]) and the mask without it ([m & (m - 1)]). *)

From S2P Require Import Prelude.
From Stdlib Require Import ZArith Lia.

Local Open Scope Z_scope.

(** The bit mask of the bytes of a group equal to [needle], lowest byte first. *)
Fixpoint match_byte (group : list Z) (needle : Z) : Z :=
  match group with
  | [] => 0
  | b :: group => Z.b2z (b =? needle) + 2 * match_byte group needle
  end.
Definition first_set_bit (mask : Z) : nat := Z.to_nat (Z.log2 (Z.land mask (- mask))).

(** ** What a mask says *)

Definition mask_of (l : list bool) : Z := fold_right (fun b m => Z.b2z b + 2 * m) 0 l.

Lemma match_byte_mask group needle : match_byte group needle = mask_of (map (fun b => b =? needle) group).
Proof. induction group as [|b group IH]; [done|]. simpl. by rewrite IH. Qed.

Lemma mask_nonneg l : 0 <= mask_of l.
Proof. induction l as [|[] l IH]; simpl; lia. Qed.

Lemma land_cons a b x y : Z.land (Z.b2z a + 2 * x) (Z.b2z b + 2 * y) = Z.b2z (a && b) + 2 * Z.land x y.
Proof.
  rewrite !(Z.add_comm (Z.b2z _)). apply Z.bits_inj'. intros n Hn. rewrite Z.land_spec. destruct (decide (n = 0)) as [->|].
  - rewrite !Z.testbit_0_r. done.
  - replace n with (Z.succ (n - 1)) by lia. rewrite !Z.testbit_succ_r by lia. by rewrite Z.land_spec.
Qed.

Lemma mask_zero l : mask_of l = 0 <-> Forall (fun b => b = false) l.
Proof.
  induction l as [|b l IH]; simpl; [split; [constructor|done]|]. rewrite Forall_cons, <- IH.
  pose proof (mask_nonneg l). destruct b; simpl; split; intros; try lia; split; (done || lia).
Qed.

(** The lowest set bit, and the mask without it. *)
Lemma mask_lowest l :
  mask_of l <> 0 ->
  exists a b, l = a ++ true :: b /\ Forall (fun b => b = false) a
    /\ Z.land (mask_of l) (- mask_of l) = 2 ^ Z.of_nat (length a)
    /\ Z.land (mask_of l) (mask_of l - 1) = mask_of (a ++ false :: b).
Proof.
  induction l as [|x l IH]; [done|]. intros Hne. cbn [mask_of fold_right] in *. fold (mask_of l) in *. destruct x.
  - exists [], l. cbn [app mask_of fold_right]. fold (mask_of l). split_and!; [done|done| |].
    + replace (- (Z.b2z true + 2 * mask_of l)) with (Z.b2z true + 2 * (Z.lnot (mask_of l))) by (unfold Z.lnot; simpl; lia).
      by rewrite land_cons, Z.land_lnot_diag.
    + replace (Z.b2z true + 2 * mask_of l - 1) with (Z.b2z false + 2 * mask_of l) by (simpl; lia).
      by rewrite land_cons, Z.land_diag.
  - destruct IH as (a & b & Hl & Ha & Hf & Hc); [simpl in Hne; lia|]. exists (false :: a), b.
    cbn [app mask_of fold_right]. fold (mask_of (a ++ false :: b)).
    split_and!; [by rewrite Hl|by constructor| |].
    + replace (- (Z.b2z false + 2 * mask_of l)) with (Z.b2z false + 2 * (- mask_of l)) by (simpl; lia).
      rewrite land_cons, Hf. cbn [length]. rewrite Nat2Z.inj_succ, Z.pow_succ_r by lia. done.
    + replace (Z.b2z false + 2 * mask_of l - 1) with (Z.b2z true + 2 * (mask_of l - 1)) by (simpl; lia).
      by rewrite land_cons, Hc.
Qed.

Lemma mask_first l :
  mask_of l <> 0 ->
  exists a b, l = a ++ true :: b /\ Forall (fun b => b = false) a
    /\ first_set_bit (mask_of l) = length a /\ Z.land (mask_of l) (mask_of l - 1) = mask_of (a ++ false :: b).
Proof.
  intros Hne. destruct (mask_lowest l Hne) as (a & b & Hl & Ha & Hf & Hc). exists a, b. split_and!; auto.
  unfold first_set_bit. rewrite Hf, Z.log2_pow2 by lia. lia.
Qed.
