(* ===== verification/StoredText.v ===== *)
(** * Stored texts

    The stored form of a text as the compact blobs use it: the bytes
    [EncodedString] writes under given options, and when they read back. *)

From S2P Require Import Prelude StringEncoding.
From Stdlib Require Import ZArith Lia.

Local Open Scope Z_scope.

Section stored.
Context {L : LZ4} {LC : LZ4Correct L}.
Variable encoding : Z.
Implicit Types (text : bytes) (mode : StringCompressionMode).

Definition stored_form mode text : bytes := match encode text encoding mode with Ret e => write_to e | _ => [] end.

Definition stored_view (stored : bytes) : EncodedStringView :=
  {| head_ := stored; tail_ := []; encoding_enabled_ := Options.encoding_enabled encoding |}.

(** A text the classifier accepts and whose value the integer form does not wrap. *)
Definition faithful mode text : Prop := (exists e, encode text encoding mode = Ret e) /\ wraps (unsigned_part text) = false.

Lemma encode_stored mode text e :
  encode text encoding mode = Ret e ->
  stored_form mode text = write_to e /\ encoded_size_ e = Z.of_nat (length (stored_form mode text)) /\
  (forall stored, equals_encoded e stored = bool_decide (stored = stored_form mode text)).
Proof. intros He. unfold stored_form. rewrite He. by destruct (encoded_spec _ _ _ _ He) as (H1 & _ & _ & H4). Qed.

Lemma encode_short mode text : Z.of_nat (length text) <= Options.max_value_bytes encoding -> exists e, encode text encoding mode = Ret e.
Proof. intros Hm. apply string_value_fits_correct. unfold string_value_fits. by rewrite (proj2 (Z.leb_le _ _) Hm). Qed.

Lemma stored_reads mode text : faithful mode text -> reads_as (stored_view (stored_form mode text)) text.
Proof.
  intros [[e He] Hw]. destruct (encode_stored _ _ _ He) as (Hen & _). eapply encode_reads; [done|done| |].
  - cbn. by rewrite (encode_enabled _ _ _ _ He).
  - unfold view_bytes. cbn. by rewrite app_nil_r, Hen.
Qed.

Lemma stored_inj mode text text' : faithful mode text -> faithful mode text' -> stored_form mode text = stored_form mode text' -> text = text'.
Proof. intros H1%stored_reads H2%stored_reads E. rewrite E in H1. destruct H1 as (_ & _ & H1), H2 as (_ & _ & H2). congruence. Qed.
End stored.
