(* ===== verification/Directory.v ===== *)
(** * Blobs with a fingerprint directory

    The layout [include/goblin/core/set_listpack.hpp] and
    [include/goblin/core/hash_listpack.hpp] share: a header with the length of the
    entries and their number, one fingerprint byte per entry, one 16-bit offset per
    entry, and the entries.  The operations of both classes on that layout are here,
    over the entry format, which is a parameter; the classes instantiate it.  As in
    [ListListpack], every access is a [load] or a [store] of the bytes, [junk] is the
    content of fresh memory, and [width] the number of fingerprints a vector holds. *)

From S2P Require Import Prelude BitMask.
From Stdlib Require Import ZArith Lia ZifyBool.

Local Open Scope Z_scope.

Definition kDirHeaderBytes : nat := 4.
Definition kDirMaxBlobBytes : Z := 0xFFFF.
Definition kDirMaxStringBytes : Z := 0x7FFF.

(** The pointer [p_]. *)
Definition Blob : Type := option bytes.
Definition dmem (p : Blob) : bytes := default [] p.

Record DirHeader := mkDirHeader { dlen : Z; dcount : Z }.

Definition unpack_blob (p : Blob) : result DirHeader :=
  match p with
  | None => Ret (mkDirHeader 0 0)
  | Some m => len ← load_le 2 0 m; count ← load_le 2 2 m; Ret (mkDirHeader len count)
  end.

(** The pointers the header is unpacked to, as positions. *)
Definition fingerprints : nat := kDirHeaderBytes.
Definition offsets (hdr : DirHeader) : nat := fingerprints + Z.to_nat (dcount hdr).
Definition entries (hdr : DirHeader) : nat := offsets hdr + Z.to_nat (dcount hdr) * 2.

Definition write_dir_header (entries_len n : Z) (m : bytes) : result bytes :=
  _ ← assert_ (entries_len <=? 65535);
  m ← store 0 (le_bytes 2 (wrap 16 entries_len)) m;
  store 2 (le_bytes 2 n) m.

Definition blob_size (entries_len count : Z) : Z := 4 + count * 3 + entries_len.

Definition packed_length_size (length : Z) : Z := if length <=? 0x7F then 1 else 2.

(** The value and the bytes it takes. *)
Definition read_length (p : nat) (m : bytes) : result (Z * nat) :=
  first ← load_u8 p m;
  if Z.land first 0x80 =? 0 then Ret (first, 1%nat)
  else
    second ← load_u8 (p + 1) m;
    Ret (Z.lor (Z.shiftl (Z.land first 0x7F) 8) second, 2%nat).

(** The memory and the position behind the length. *)
Definition write_length (p : nat) (length : Z) (m : bytes) : result (bytes * nat) :=
  _ ← assert_ (length <=? kDirMaxStringBytes);
  if length <=? 0x7F then m ← store p [b8 length] m; Ret (m, (p + 1)%nat)
  else
    m ← store p [b8 (Z.lor 0x80 (Z.land (Z.shiftr length 8) 0x7F))] m;
    m ← store (p + 1) [b8 (Z.land length 0xFF)] m;
    Ret (m, (p + 2)%nat).

Definition offset_at (hdr : DirHeader) (index : nat) (m : bytes) : result Z := load_le 2 (offsets hdr + index * 2) m.
Definition write_offset (hdr : DirHeader) (index : nat) (offset : Z) (m : bytes) : result bytes :=
  store (offsets hdr + index * 2) (le_bytes 2 offset) m.

(** [std::hash] is a parameter. *)
Definition fingerprint (hash : bytes -> Z) (text : bytes) : Z := wrap 8 (Z.lxor (hash text) (Z.shiftr (hash text) 32)).

Section code.
Context {V : Type} (entry_at : nat -> bytes -> result V) (view_key : V -> bytes) (view_size : V -> nat).
Variable junk : byte.
Variable width : nat.

Definition alloc_dir (entries_len count : Z) : bytes := fresh_bytes junk (Z.to_nat (blob_size entries_len count)).

(** The entries whose fingerprint matches in a group, lowest first, until one has the key. *)
Fixpoint match_loop (fuel : nat) (equals : bytes -> bool) (hdr : DirHeader) (base : nat) (matches : Z) (m : bytes) : result (option (nat * nat)) :=
  if matches =? 0 then Ret None
  else
    match fuel with
    | O => Undef
    | S fuel =>
        let index := (base + first_set_bit matches)%nat in
        off ← offset_at hdr index m;
        entry ← entry_at (entries hdr + Z.to_nat off) m;
        if equals (view_key entry) then Ret (Some (Z.to_nat off, index))
        else match_loop fuel equals hdr base (Z.land matches (matches - 1)) m
    end.

(** Whole groups; [inr] is the position the loop stops at. *)
Fixpoint group_loop (fuel : nat) (equals : bytes -> bool) (needle : Z) (hdr : DirHeader) (base : nat) (m : bytes) : result ((nat * nat) + nat) :=
  if Z.of_nat (base + width) <=? dcount hdr then
    match fuel with
    | O => Undef
    | S fuel =>
        group ← load (fingerprints + base) width m;
        found ← match_loop width equals hdr base (match_byte (map u8 group) needle) m;
        match found with
        | Some r => Ret (inl r)
        | None => group_loop fuel equals needle hdr (base + width) m
        end
    end
  else Ret (inr base).

(** The rest, one by one. *)
Fixpoint tail_loop (n : nat) (equals : bytes -> bool) (needle : Z) (hdr : DirHeader) (base : nat) (m : bytes) : result (option (nat * nat)) :=
  match n with
  | O => Ret None
  | S n =>
      fp ← load_u8 (fingerprints + base) m;
      if negb (fp =? needle) then tail_loop n equals needle hdr (S base) m
      else
        off ← offset_at hdr base m;
        entry ← entry_at (entries hdr + Z.to_nat off) m;
        if equals (view_key entry) then Ret (Some (Z.to_nat off, base)) else tail_loop n equals needle hdr (S base) m
  end.

(** Offset and index of the entry, if there is one. *)
Definition find_entry (equals : bytes -> bool) (needle : Z) (hdr : DirHeader) (m : bytes) : result (option (nat * nat)) :=
  grouped ← group_loop (Z.to_nat (dcount hdr)) equals needle hdr 0 m;
  match grouped with
  | inl r => Ret (Some r)
  | inr base => tail_loop (Z.to_nat (dcount hdr) - base) equals needle hdr base m
  end.

(** The offsets behind a changed entry move with it. *)
Fixpoint shift_loop (n dst : nat) (skip : nat -> bool) (off : nat) (delta : Z) (hdr : DirHeader) (m : bytes) : result bytes :=
  match n with
  | O => Ret m
  | S n =>
      m ← (if skip dst then Ret m
           else
             entry_offset ← offset_at hdr dst m;
             if Z.of_nat off <? entry_offset then write_offset hdr dst (wrap 16 (entry_offset + delta)) m else Ret m);
      shift_loop n (S dst) skip off delta hdr m
  end.

Definition erase_entry_at (off index : nat) (hdr : DirHeader) (p : Blob) : result Blob :=
  entry ← entry_at (entries hdr + off) (dmem p);
  let elem := view_size entry in
  let new_len := dlen hdr - Z.of_nat elem in
  let new_count := wrap 16 (dcount hdr - 1) in
  if new_count =? 0 then Ret None
  else
    np ← write_dir_header new_len new_count (alloc_dir new_len new_count);
    next ← unpack_blob (Some np);
    np ← (if (0 <? index)%nat then
            np ← memcpy fingerprints (dmem p) fingerprints index np;
            memcpy (offsets next) (dmem p) (offsets hdr) (index * 2) np
          else Ret np);
    np ← (if Z.of_nat index + 1 <? dcount hdr then
            let tail := (Z.to_nat (dcount hdr) - index - 1)%nat in
            np ← memcpy (fingerprints + index) (dmem p) (fingerprints + index + 1) tail np;
            memcpy (offsets next + index * 2) (dmem p) (offsets hdr + (index + 1) * 2) (tail * 2) np
          else Ret np);
    np ← shift_loop (Z.to_nat new_count) 0 (fun _ => false) off (- Z.of_nat elem) next np;
    np ← memcpy (entries next) (dmem p) (entries hdr) off np;
    np ← memcpy (entries next + off) (dmem p) (entries hdr + off + elem) (Z.to_nat (dlen hdr) - off - elem) np;
    Ret (Some np).

(** An entry to be written: its size and the writing of its bytes at a position. *)
Record Pending := mkPending { pe_fingerprint : Z; pe_size : Z; pe_write : nat -> bytes -> result bytes }.

Definition append_entry (e : Pending) (hdr : DirHeader) (p : Blob) : result Blob :=
  let new_len := dlen hdr + pe_size e in
  let new_count := wrap 16 (dcount hdr + 1) in
  np ← write_dir_header new_len new_count (alloc_dir new_len new_count);
  next ← unpack_blob (Some np);
  np ← (if negb (dcount hdr =? 0) then
          np ← memcpy fingerprints (dmem p) fingerprints (Z.to_nat (dcount hdr)) np;
          memcpy (offsets next) (dmem p) (offsets hdr) (Z.to_nat (dcount hdr) * 2) np
        else Ret np);
  np ← store (fingerprints + Z.to_nat (dcount hdr)) [b8 (pe_fingerprint e)] np;
  np ← write_offset next (Z.to_nat (dcount hdr)) (wrap 16 (dlen hdr)) np;
  np ← (if negb (dlen hdr =? 0) then memcpy (entries next) (dmem p) (entries hdr) (Z.to_nat (dlen hdr)) np else Ret np);
  np ← pe_write e (entries next + Z.to_nat (dlen hdr)) np;
  Ret (Some np).

Definition replace_entry_at (off index : nat) (e : Pending) (old_elem : nat) (hdr : DirHeader) (p : Blob) : result Blob :=
  let new_len := dlen hdr - Z.of_nat old_elem + pe_size e in
  np ← write_dir_header new_len (dcount hdr) (alloc_dir new_len (dcount hdr));
  next ← unpack_blob (Some np);
  np ← memcpy fingerprints (dmem p) fingerprints (Z.to_nat (dcount hdr)) np;
  np ← memcpy (offsets next) (dmem p) (offsets hdr) (Z.to_nat (dcount hdr) * 2) np;
  let delta := pe_size e - Z.of_nat old_elem in
  np ← (if negb (delta =? 0) then shift_loop (Z.to_nat (dcount hdr)) 0 (fun i => (i =? index)%nat) off delta next np else Ret np);
  np ← (if negb (off =? 0)%nat then memcpy (entries next) (dmem p) (entries hdr) off np else Ret np);
  np ← pe_write e (entries next + off) np;
  let tail := (Z.to_nat (dlen hdr) - off - old_elem)%nat in
  np ← (if negb (tail =? 0)%nat then memcpy (entries next + off + Z.to_nat (pe_size e)) (dmem p) (entries hdr + off + old_elem) tail np else Ret np);
  Ret (Some np).

Fixpoint write_all (es : list Pending) (index : nat) (offset : Z) (next : DirHeader) (np : bytes) : result bytes :=
  match es with
  | [] => Ret np
  | e :: es =>
      np ← store (fingerprints + index) [b8 (pe_fingerprint e)] np;
      np ← write_offset next index offset np;
      np ← pe_write e (entries next + Z.to_nat offset) np;
      write_all es (S index) (wrap 16 (offset + pe_size e)) next np
  end.

Definition sum_sizes (es : list Pending) : Z := foldr (fun e n => pe_size e + n) 0 es.

Definition replace_with_entries (es : list Pending) : result Blob :=
  let entries_len := sum_sizes es in
  let count := wrap 16 (Z.of_nat (length es)) in
  np ← write_dir_header entries_len count (alloc_dir entries_len count);
  next ← unpack_blob (Some np);
  np ← write_all es 0 0 next np;
  Ret (Some np).

Definition entries_fit_in_blob (es : list Pending) : bool := blob_size (sum_sizes es) (Z.of_nat (length es)) <=? kDirMaxBlobBytes.

(** The entries in order, walked by their sizes. *)
Fixpoint walk (n off : nat) (hdr : DirHeader) (m : bytes) : result (list V) :=
  match n with
  | O => Ret []
  | S n =>
      entry ← entry_at (entries hdr + off) m;
      rest ← walk n (off + view_size entry) hdr m;
      Ret (entry :: rest)
  end.

Definition for_each_encoded (hdr : DirHeader) (m : bytes) : result (list V) := walk (Z.to_nat (dcount hdr)) 0 hdr m.
End code.

(** ** Regions *)

Lemma poke_inside (a x c data : bytes) i :
  (i + length data <= length x)%nat -> poke (length a + i) data (a ++ x ++ c) = (fun x' => a ++ x' ++ c) <$> poke i data x.
Proof.
  intros Hi. unfold poke. rewrite !length_app, !decide_True by lia. cbn. f_equal.
  rewrite take_app_add, take_app_le by lia. rewrite <- Nat.add_assoc, drop_app_add, drop_app_le by lia. by rewrite <- !app_assoc.
Qed.

Lemma slice_inside (a x c : bytes) i n : (i + n <= length x)%nat -> slice (length a + i) n (a ++ x ++ c) = slice i n x.
Proof. intros Hi. by rewrite slice_app_r, slice_app_l. Qed.

(** A blob of header, fingerprints, offsets and entries. *)
Definition lay (h f o e : bytes) : bytes := h ++ f ++ o ++ e.

Lemma length_lay h f o e : length (lay h f o e) = (length h + length f + length o + length e)%nat.
Proof. unfold lay. rewrite !length_app. lia. Qed.

Section lay.
Variables (h f o e : bytes).
Hypothesis Hh : length h = 4%nat.

Lemma store_f i data : (i + length data <= length f)%nat -> store (4 + i) data (lay h f o e) = (f ← store i data f; Ret (lay h f o e)).
Proof. intros Hi. unfold store, lay. rewrite <- Hh, poke_inside by done. by destruct (poke i data f). Qed.

Lemma store_o n i data :
  length f = n -> (i + length data <= length o)%nat -> store (4 + n + i) data (lay h f o e) = (o ← store i data o; Ret (lay h f o e)).
Proof.
  intros <- Hi. unfold store, lay. rewrite <- Hh, app_assoc, <- length_app, poke_inside by done. destruct (poke i data o); cbn; [|done]. by rewrite <- app_assoc.
Qed.

Lemma store_e n i data :
  (length f + length o)%nat = n -> (i + length data <= length e)%nat -> store (4 + n + i) data (lay h f o e) = (e ← store i data e; Ret (lay h f o e)).
Proof.
  intros <- Hi. unfold store, lay. rewrite <- Hh. pose proof (poke_inside (h ++ f ++ o) e [] data i Hi) as E. rewrite !length_app, app_nil_r, <- !app_assoc in E.
  rewrite <- !Nat.add_assoc in E |- *. rewrite E. destruct (poke i data e); cbn; [|done]. by rewrite app_nil_r, <- !app_assoc.
Qed.

Lemma load_f i n : (i + n <= length f)%nat -> load (4 + i) n (lay h f o e) = load i n f.
Proof. intros Hi. unfold load, lay. by rewrite <- Hh, slice_inside. Qed.

Lemma load_o k i n : length f = k -> (i + n <= length o)%nat -> load (4 + k + i) n (lay h f o e) = load i n o.
Proof. intros <- Hi. unfold load, lay. by rewrite <- Hh, app_assoc, <- length_app, slice_inside. Qed.

Lemma load_e k i n : (length f + length o)%nat = k -> (i + n <= length e)%nat -> load (4 + k + i) n (lay h f o e) = load i n e.
Proof.
  intros <- Hi. unfold load, lay. rewrite <- Hh. pose proof (slice_inside (h ++ f ++ o) e [] i n Hi) as E. rewrite !length_app, app_nil_r, <- !app_assoc in E.
  rewrite <- !Nat.add_assoc in E |- *. by rewrite E.
Qed.

Lemma load_le_o k i n : length f = k -> (i + n <= length o)%nat -> load_le n (4 + k + i) (lay h f o e) = load_le n i o.
Proof. intros Hk Hi. pose proof (load_o k i n Hk Hi) as E. unfold load_le, read_le, load in *. destruct (slice (4 + k + i) n _), (slice i n o); cbn in *; congruence. Qed.
End lay.

(** ** The blob of a list of entries *)

(** What the loops need of an entry format: the bytes of an entry, and that reading at its position finds it. *)
Class EntryFormat (E V : Type) := {
  entry_at_ : nat -> bytes -> result V;
  view_key_ : V -> bytes;
  view_size_ : V -> nat;
  ebytes : E -> bytes;
  eview : E -> V;
  eok : E -> Prop;
  entry_at_reads : forall e pre post, eok e -> entry_at_ (length pre) (pre ++ ebytes e ++ post) = Ret (eview e);
  view_size_length : forall e, eok e -> view_size_ (eview e) = length (ebytes e);
  ebytes_pos : forall e, (1 <= length (ebytes e))%nat;
}.

Section repr.
Context {E V : Type} `{!EntryFormat E V}.

Definition area (es : list (byte * E)) : bytes := concat (map (fun x => ebytes x.2) es).

(** The offsets of entries from position [o] on. *)
Fixpoint offs (o : nat) (es : list (byte * E)) : bytes :=
  match es with
  | [] => []
  | e :: es => le_bytes 2 (Z.of_nat o) ++ offs (o + length (ebytes e.2)) es
  end.

Definition dir_header (len count : nat) : bytes := le_bytes 2 (Z.of_nat len) ++ le_bytes 2 (Z.of_nat count).
Definition dir (es : list (byte * E)) : bytes := lay (dir_header (length (area es)) (length es)) es.*1 (offs 0 es) (area es).

Definition dir_fits (es : list (byte * E)) : Prop :=
  blob_size (Z.of_nat (length (area es))) (Z.of_nat (length es)) <= kDirMaxBlobBytes /\ Forall (fun x => eok x.2) es.

Definition dir_repr (p : Blob) (es : list (byte * E)) : Prop := dir_fits es /\ p = match es with [] => None | _ => Some (dir es) end.

Lemma length_dir_header a b : length (dir_header a b) = 4%nat.
Proof. unfold dir_header. by rewrite length_app, !length_le_bytes. Qed.

Lemma length_offs o es : length (offs o es) = (2 * length es)%nat.
Proof. revert o. induction es as [|e es IH]; intros o; [done|]. cbn [offs length]. rewrite length_app, length_le_bytes, IH. lia. Qed.

Lemma area_app a b : area (a ++ b) = area a ++ area b.
Proof. unfold area. by rewrite map_app, concat_app. Qed.

Lemma area_cons e b : area (e :: b) = ebytes e.2 ++ area b.
Proof. done. Qed.

Lemma offs_app o a b : offs o (a ++ b) = offs o a ++ offs (o + length (area a)) b.
Proof.
  revert o. induction a as [|e a IH]; intros o; cbn [app offs]; [by rewrite Nat.add_0_r|].
  rewrite IH, area_cons, length_app, <- app_assoc. by rewrite Nat.add_assoc.
Qed.

Lemma dir_small es : dir_fits es -> Z.of_nat (length (area es)) <= 65535 /\ Z.of_nat (length es) <= 65535.
Proof. intros [Hf _]. unfold blob_size, kDirMaxBlobBytes in Hf. lia. Qed.

Lemma dmem_repr p es : dir_repr p es -> es <> [] -> dmem p = dir es.
Proof. intros [_ ->] Hne. by destruct es. Qed.

Lemma unpack_header a b f o e : Z.of_nat a <= 65535 -> Z.of_nat b <= 65535 -> unpack_blob (Some (lay (dir_header a b) f o e)) = Ret (mkDirHeader (Z.of_nat a) (Z.of_nat b)).
Proof.
  intros Ha Hb. unfold unpack_blob, load_le, lay, dir_header. rewrite <- !app_assoc.
  pose proof (read_le_app 2 0 [] (le_bytes 2 (Z.of_nat b) ++ f ++ o ++ e) (Z.of_nat a) eq_refl) as E1.
  pose proof (read_le_app 2 2 (le_bytes 2 (Z.of_nat a)) (f ++ o ++ e) (Z.of_nat b)) as E2.
  cbn [app] in E1. rewrite E1 by (simpl Z.mul; lia). cbn [of_option mbind result_bind]. rewrite E2; [done|by rewrite length_le_bytes|simpl Z.mul; lia].
Qed.

Lemma unpack_repr_dir p es : dir_repr p es -> unpack_blob p = Ret (mkDirHeader (Z.of_nat (length (area es))) (Z.of_nat (length es))).
Proof.
  intros [Hf ->]. destruct (dir_small _ Hf). destruct es as [|e es]; [done|]. by apply unpack_header.
Qed.

Lemma fresh_add junk a b : fresh_bytes junk (a + b) = fresh_bytes junk a ++ fresh_bytes junk b.
Proof. apply replicate_add. Qed.

Lemma length_fresh junk n : length (fresh_bytes junk n) = n.
Proof. apply length_replicate. Qed.

(** A fresh allocation with its header. *)
Lemma header_written junk len count :
  Z.of_nat len <= 65535 ->
  write_dir_header (Z.of_nat len) (Z.of_nat count) (alloc_dir junk (Z.of_nat len) (Z.of_nat count)) =
  Ret (lay (dir_header len count) (fresh_bytes junk count) (fresh_bytes junk (2 * count)) (fresh_bytes junk len)).
Proof.
  intros Hl. unfold write_dir_header, assert_, alloc_dir, blob_size. replace (Z.of_nat len <=? 65535) with true by lia. cbn [mbind result_bind].
  rewrite wrap_small by lia. replace (Z.to_nat _) with (2 + (2 + (count + (2 * count + len))))%nat by lia. rewrite !fresh_add.
  unfold store. pose proof (poke_app [] (fresh_bytes junk 2)) as E1. cbn [app] in E1. rewrite E1 by (by rewrite ?length_le_bytes). cbn [of_option mbind result_bind app].
  rewrite poke_app by (by rewrite ?length_le_bytes). cbn [of_option]. unfold lay, dir_header. by rewrite <- !app_assoc.
Qed.

(** *** Reading the directory *)

Definition hdr_of (es : list (byte * E)) : DirHeader := mkDirHeader (Z.of_nat (length (area es))) (Z.of_nat (length es)).

Lemma offset_region n l h f e o a x b :
  length h = 4%nat -> length f = n -> Z.of_nat (o + length (area a)) <= 65535 ->
  offset_at (mkDirHeader l (Z.of_nat n)) (length a) (lay h f (offs o (a ++ x :: b)) e) = Ret (Z.of_nat (o + length (area a))).
Proof.
  intros Hh Hf Hs. unfold offset_at, offsets, fingerprints, kDirHeaderBytes. cbn [dcount]. rewrite Nat2Z.id.
  rewrite load_le_o by (done || (rewrite length_offs, length_app; cbn [length]; lia)). rewrite offs_app. cbn [offs].
  unfold load_le. rewrite read_le_app; [done|rewrite length_offs; lia|simpl Z.mul; lia].
Qed.

Lemma offset_dir a x b : dir_fits (a ++ x :: b) -> offset_at (hdr_of (a ++ x :: b)) (length a) (dir (a ++ x :: b)) = Ret (Z.of_nat (length (area a))).
Proof.
  intros Hf. destruct (dir_small _ Hf) as [Ha _]. rewrite area_app, length_app in Ha. unfold hdr_of, dir.
  rewrite offset_region; [done|apply length_dir_header|by rewrite length_fmap|lia].
Qed.

Lemma entries_dir es : entries (hdr_of es) = (4 + 3 * length es)%nat.
Proof. unfold entries, offsets, hdr_of, fingerprints, kDirHeaderBytes. cbn [dcount]. lia. Qed.

Lemma entry_dir a x b : dir_fits (a ++ x :: b) -> entry_at_ (entries (hdr_of (a ++ x :: b)) + length (area a)) (dir (a ++ x :: b)) = Ret (eview x.2).
Proof.
  intros [_ Hok]. apply Forall_app in Hok as [_ Hok]. apply Forall_cons in Hok as [Hx _]. rewrite entries_dir.
  set (pre := dir_header (length (area (a ++ x :: b))) (length (a ++ x :: b)) ++ (a ++ x :: b).*1 ++ offs 0 (a ++ x :: b) ++ area a).
  assert (Hp : length pre = (4 + 3 * length (a ++ x :: b) + length (area a))%nat).
  { unfold pre. rewrite !(length_app (dir_header _ _)), length_dir_header, !(length_app _.*1), length_fmap, (length_app (offs _ _)), length_offs. lia. }
  rewrite <- Hp. replace (dir (a ++ x :: b)) with (pre ++ ebytes x.2 ++ area b); [by apply entry_at_reads|].
  unfold dir, lay, pre. rewrite area_app, area_cons. by rewrite <- !app_assoc.
Qed.

(** *** Finding an entry *)

Lemma load_fingerprints a b c : load (fingerprints + length a) (length b) (dir (a ++ b ++ c)) = Ret b.*1.
Proof.
  unfold dir, fingerprints, kDirHeaderBytes. rewrite load_f; [|apply length_dir_header|rewrite length_fmap, !length_app; lia].
  rewrite !fmap_app. apply load_app; by rewrite length_fmap.
Qed.

Lemma load_fingerprint a x b : load_u8 (fingerprints + length a) (dir (a ++ x :: b)) = Ret (u8 x.1).
Proof.
  pose proof (load_fingerprints a [x] b) as Hl. unfold load_u8, load in *. cbn [length app] in Hl. unfold byte_at.
  destruct (slice _ 1 _) as [d|] eqn:Es; [|done]. injection Hl as ->. unfold slice in Es. destruct (decide _); [|done]. injection Es as Es.
  rewrite <- (Nat.add_0_r (fingerprints + length a)), <- lookup_drop. destruct (drop _ _) as [|y t]; [done|]. cbn in Es. by injection Es as ->.
Qed.

Section find.
Variables (equals : bytes -> bool) (needle : Z).

Definition hit (x : byte * E) : Prop := u8 x.1 = needle /\ equals (view_key_ (eview x.2)) = true.
#[global] Instance hit_dec x : Decision (hit x).
Proof. unfold hit. apply _. Defined.

(** The first entry of [b] that is looked for, after the entries of [a]. *)
Definition found_from (a b : list (byte * E)) : option (nat * nat) :=
  (fun r => (length (area (a ++ take r.1 b)), (length a + r.1)%nat)) <$> list_find hit b.

Lemma found_skip a b c : list_find hit b = None -> found_from a (b ++ c) = found_from (a ++ b) c.
Proof.
  intros Hn. unfold found_from. rewrite list_find_app_r by done. destruct (list_find hit c) as [[i y]|]; [|done]. cbn. f_equal.
  rewrite (Nat.add_comm i), take_app_add, app_assoc, (length_app a b). f_equal. lia.
Qed.

Lemma found_here a b c r : found_from a b = Some r -> found_from a (b ++ c) = Some r.
Proof.
  unfold found_from. destruct (list_find hit b) as [[i y]|] eqn:Hl; [|done]. intros [= <-]. rewrite (list_find_app_l _ _ _ _ _ Hl). cbn. f_equal.
  apply list_find_Some in Hl as (Hl & _). apply lookup_lt_Some in Hl. by rewrite take_app_le by lia.
Qed.

Lemma found_first a b1 x b2 : hit x -> list_find hit b1 = None -> found_from a (b1 ++ x :: b2) = Some (length (area (a ++ b1)), length (a ++ b1)).
Proof.
  intros Hx Hn. rewrite found_skip by done. unfold found_from. cbn [list_find]. rewrite decide_True by done. cbn. by rewrite app_nil_r, Nat.add_0_r.
Qed.

(** The marked entries of a group in turn. *)
Lemma match_loop_found fuel a b c l :
  dir_fits (a ++ b ++ c) -> length l = length b -> (length (List.filter id l) <= fuel)%nat ->
  (forall i x, b !! i = Some x -> hit x -> l !! i = Some true) -> (forall i x, b !! i = Some x -> l !! i = Some true -> u8 x.1 = needle) ->
  match_loop entry_at_ view_key_ fuel equals (hdr_of (a ++ b ++ c)) (length a) (mask_of l) (dir (a ++ b ++ c)) = Ret (found_from a b).
Proof.
  intros Hf. revert l. induction fuel as [|fuel IH]; intros l Hl Hc Hin Hfp; cbn [match_loop];
    (destruct (Z.eqb_spec (mask_of l) 0) as [Hz|Hz];
      [f_equal; unfold found_from; rewrite (proj2 (list_find_None _ _)); [done|]; apply Forall_forall; intros x Hx Hh;
        apply list_elem_of_lookup in Hx as [i Hi]; apply mask_zero in Hz; specialize (Hin i x Hi Hh); rewrite Forall_lookup in Hz; by specialize (Hz _ _ Hin)|]);
    destruct (mask_first l Hz) as (l1 & l2 & -> & Hl1 & Hb & Hcl).
  { exfalso. rewrite List.filter_app, length_app in Hc. cbn in Hc. lia. }
  rewrite length_app in Hl. cbn [length] in Hl.
  destruct (lookup_lt_is_Some_2 b (length l1) ltac:(lia)) as [x Hx]. pose proof (take_drop_middle _ _ _ Hx) as Hsplit.
  set (b1 := take (length l1) b) in *. set (b2 := drop (S (length l1)) b) in *.
  assert (Hb1 : length b1 = length l1) by (unfold b1; rewrite length_take; lia).
  assert (Hn1 : list_find hit b1 = None).
  { apply list_find_None, Forall_forall. intros y Hy Hh. apply list_elem_of_lookup in Hy as [i Hi]. pose proof (lookup_lt_Some _ _ _ Hi) as Hlt.
    assert (Hbi : b !! i = Some y) by (rewrite <- Hsplit; by apply lookup_app_l_Some).
    specialize (Hin i y Hbi Hh). rewrite lookup_app_l in Hin by lia. rewrite Forall_lookup in Hl1. by specialize (Hl1 _ _ Hin). }
  rewrite Hb, Hcl. replace (a ++ b ++ c) with ((a ++ b1) ++ x :: (b2 ++ c)) in * by (rewrite <- Hsplit, <- !app_assoc; done).
  rewrite <- Hb1, <- length_app. rewrite offset_dir by done. cbn [mbind result_bind]. rewrite Nat2Z.id, entry_dir by done. cbn [mbind result_bind].
  assert (Hneedle : u8 x.1 = needle) by (apply (Hfp (length l1)); [done|by rewrite list_lookup_middle]).
  destruct (equals (view_key_ (eview x.2))) eqn:He.
  - rewrite <- Hsplit. f_equal. rewrite found_first; [by rewrite length_app|done|done].
  - assert (Hsub : forall i, (l1 ++ false :: l2) !! i = Some true <-> (l1 ++ true :: l2) !! i = Some true /\ i <> length l1).
    { intros i. destruct (decide (i = length l1)) as [->|Hne]; [rewrite !list_lookup_middle by done; naive_solver|].
      destruct (decide (i < length l1)%nat); [by rewrite !lookup_app_l by lia; naive_solver|].
      rewrite !lookup_app_r by lia. destruct (i - length l1)%nat eqn:E'; [lia|]. cbn. naive_solver. }
    specialize (IH (l1 ++ false :: l2)). rewrite IH; [done|rewrite length_app; cbn; lia| | |].
    + rewrite !List.filter_app, !length_app in *. cbn in *. lia.
    + intros i y Hi Hh. apply Hsub. split; [by eapply Hin|]. intros ->. rewrite Hx in Hi. injection Hi as <-. destruct Hh as [_ Hh]. congruence.
    + intros i y Hi Ht. eapply Hfp; [done|]. by apply Hsub.
Qed.

Lemma tail_loop_found a b :
  dir_fits (a ++ b) -> tail_loop entry_at_ view_key_ (length b) equals needle (hdr_of (a ++ b)) (length a) (dir (a ++ b)) = Ret (found_from a b).
Proof.
  intros Hf. revert a Hf. induction b as [|x b IH]; intros a Hf; [done|]. cbn [length tail_loop].
  rewrite load_fingerprint. cbn [mbind result_bind].
  assert (Hnext : tail_loop entry_at_ view_key_ (length b) equals needle (hdr_of (a ++ x :: b)) (S (length a)) (dir (a ++ x :: b)) = Ret (found_from (a ++ [x]) b)).
  { specialize (IH (a ++ [x])). rewrite <- app_assoc, length_app in IH. cbn [app length] in IH. rewrite Nat.add_1_r in IH. by apply IH. }
  destruct (Z.eqb_spec (u8 x.1) needle) as [Hn|Hn]; cbn [negb].
  - rewrite offset_dir by done. cbn [mbind result_bind]. rewrite Nat2Z.id, entry_dir by done. cbn [mbind result_bind].
    destruct (equals _) eqn:He.
    + f_equal. pose proof (found_first a [] x b (conj Hn He) eq_refl) as Hx. by rewrite app_nil_r in Hx.
    + rewrite Hnext. f_equal. symmetry. apply (found_skip a [x] b). cbn. rewrite decide_False; [done|]. intros [_ ?]. congruence.
  - rewrite Hnext. f_equal. symmetry. apply (found_skip a [x] b). cbn. rewrite decide_False; [done|]. by intros [? _].
Qed.

Variable width : nat.
Hypothesis Hwidth : (0 < width)%nat.

Lemma group_loop_found fuel a b :
  dir_fits (a ++ b) -> (length b <= fuel)%nat ->
  match group_loop entry_at_ view_key_ width fuel equals needle (hdr_of (a ++ b)) (length a) (dir (a ++ b)) with
  | Ret (inl r) => found_from a b = Some r
  | Ret (inr base) => exists b1 b2, b = b1 ++ b2 /\ base = length (a ++ b1) /\ list_find hit b1 = None
  | _ => False
  end.
Proof.
  revert a b. induction fuel as [|fuel IH]; intros a b Hf Hl; cbn [group_loop hdr_of dcount];
    (destruct (Z.leb_spec (Z.of_nat (length a + width)) (Z.of_nat (length (a ++ b)))) as [Hw|Hw]; [|exists [], b; by rewrite app_nil_r]).
  { rewrite length_app in Hw. lia. }
  rewrite length_app in Hw. assert (exists b1 b2, b = b1 ++ b2 /\ length b1 = width) as (b1 & b2 & -> & Hb1).
  { exists (take width b), (drop width b). split; [by rewrite take_drop|rewrite length_take; lia]. }
  rewrite length_app in Hl. pose proof (load_fingerprints a b1 b2) as Hlf. rewrite Hb1 in Hlf.
  rewrite Hlf. cbn [mbind result_bind]. rewrite match_byte_mask.
  change (mkDirHeader _ _) with (hdr_of (a ++ b1 ++ b2)). rewrite match_loop_found; [|done|by rewrite length_map, length_map, length_fmap| | |].
  - cbn [mbind result_bind]. destruct (found_from a b1) as [r|] eqn:Hr; [by apply found_here|].
    assert (Hn : list_find hit b1 = None) by (unfold found_from in Hr; by destruct (list_find hit b1)).
    rewrite app_assoc in Hf |- *. specialize (IH (a ++ b1) b2 Hf ltac:(lia)). rewrite length_app, Hb1 in IH.
    destruct (group_loop _ _ _ _ _ _ _ _ _) as [[r|base]| |]; [|destruct IH as (c1 & c2 & -> & -> & Hcn)|done|done].
    + by rewrite found_skip.
    + exists (b1 ++ c1), c2. split_and!; [by rewrite app_assoc|by rewrite app_assoc|by rewrite list_find_app_r, Hcn].
  - transitivity (length (map (fun z => z =? needle) (map u8 b1.*1))); [apply List.filter_length_le|by rewrite !length_map, Hb1].
  - intros i x Hi [Hx _]. rewrite !list_lookup_fmap, Hi. cbn. f_equal. lia.
  - intros i x Hi. rewrite !list_lookup_fmap, Hi. cbn. intros [= Ht]. lia.
Qed.

Lemma find_entry_repr p es :
  dir_repr p es -> find_entry entry_at_ view_key_ width equals needle (hdr_of es) (dmem p) = Ret (found_from [] es).
Proof.
  intros Hr. unfold find_entry. destruct es as [|x es].
  - change (Z.to_nat (dcount (hdr_of []))) with 0%nat. cbn [group_loop]. change (dcount (hdr_of [])) with 0. by replace (Z.of_nat (0 + width) <=? 0) with false by lia.
  - rewrite (dmem_repr _ _ Hr) by done. pose proof (group_loop_found (length (x :: es)) [] (x :: es) (proj1 Hr) ltac:(done)) as Hg.
    cbn [hdr_of dcount]. rewrite Nat2Z.id. fold (hdr_of (x :: es)). cbn [app] in Hg.
    destruct (group_loop _ _ _ _ _ _ _ _ _) as [[r|base]| |]; [by rewrite Hg|destruct Hg as (b1 & b2 & Hb & -> & Hn)|done|done]. cbn [mbind result_bind app].
    rewrite Hb in Hr |- *. rewrite length_app. replace (length b1 + length b2 - length b1)%nat with (length b2) by lia.
    rewrite tail_loop_found by apply Hr. f_equal. symmetry. by apply (found_skip [] b1 b2).
Qed.
End find.

(** *** Copying from a blob, writing into a fresh one *)

Lemma src_offsets a b c :
  load (offsets (hdr_of (a ++ b ++ c)) + length a * 2) (length b * 2) (dir (a ++ b ++ c)) = Ret (offs (length (area a)) b).
Proof.
  unfold offsets, fingerprints, kDirHeaderBytes, dir. cbn [hdr_of dcount]. rewrite Nat2Z.id.
  rewrite load_o; [|apply length_dir_header|by rewrite length_fmap|rewrite length_offs, !length_app; lia].
  rewrite !offs_app. apply load_app; rewrite length_offs; lia.
Qed.

Lemma src_entries a b c :
  load (entries (hdr_of (a ++ b ++ c)) + length (area a)) (length (area b)) (dir (a ++ b ++ c)) = Ret (area b).
Proof.
  rewrite entries_dir. unfold dir.
  rewrite load_e; [|apply length_dir_header|rewrite length_fmap, length_offs; lia|rewrite !area_app, !length_app; lia].
  rewrite !area_app. by apply load_app.
Qed.

Section put.
Variables (h : bytes) (hdr : DirHeader) (junk : byte).
Hypothesis Hh : length h = 4%nat.

Lemma put_f rest f1 data i n o e :
  i = length f1 -> n = (length data + rest)%nat ->
  store (fingerprints + i) data (lay h (f1 ++ fresh_bytes junk n) o e) = Ret (lay h ((f1 ++ data) ++ fresh_bytes junk rest) o e).
Proof.
  intros Hi Hn. unfold fingerprints, kDirHeaderBytes. rewrite store_f; [|done|rewrite length_app, length_fresh; lia].
  by rewrite (store_next rest).
Qed.

Lemma put_o rest f o1 data i n e :
  Z.to_nat (dcount hdr) = length f -> i = length o1 -> n = (length data + rest)%nat ->
  store (offsets hdr + i) data (lay h f (o1 ++ fresh_bytes junk n) e) = Ret (lay h f ((o1 ++ data) ++ fresh_bytes junk rest) e).
Proof.
  intros Hc Hi Hn. unfold offsets, fingerprints, kDirHeaderBytes. rewrite Hc. rewrite store_o; [|done|done|rewrite length_app, length_fresh; lia].
  by rewrite (store_next rest).
Qed.

Lemma put_e rest f o e1 data i n :
  Z.to_nat (dcount hdr) = length f -> length o = (2 * length f)%nat -> i = length e1 -> n = (length data + rest)%nat ->
  store (entries hdr + i) data (lay h f o (e1 ++ fresh_bytes junk n)) = Ret (lay h f o ((e1 ++ data) ++ fresh_bytes junk rest)).
Proof.
  intros Hc Ho Hi Hn. replace (entries hdr + i)%nat with (4 + (length f + length o) + i)%nat by (unfold entries, offsets, fingerprints, kDirHeaderBytes; lia).
  rewrite store_e; [|done|done|rewrite length_app, length_fresh; lia]. by rewrite (store_next rest).
Qed.
End put.

(** *** Moving offsets *)

Section shift.
Variables (h f e : bytes) (hdr : DirHeader) (skip : nat -> bool) (off : nat) (delta : Z).
Hypothesis Hh : length h = 4%nat.
Hypothesis Hf : Z.to_nat (dcount hdr) = length f.

Lemma offset_middle o1 o x es o2 dst :
  length o1 = (dst * 2)%nat -> Z.of_nat o <= 65535 -> offset_at hdr dst (lay h f (o1 ++ offs o (x :: es) ++ o2) e) = Ret (Z.of_nat o).
Proof.
  intros Hd Ho. unfold offset_at, offsets, fingerprints, kDirHeaderBytes. rewrite Hf. rewrite load_le_o; [|done|done|rewrite !length_app, length_offs; cbn [length]; lia].
  cbn [offs]. unfold load_le. rewrite <- !app_assoc. rewrite read_le_app; [done|lia|simpl Z.mul; lia].
Qed.

Lemma shift_below n dst o1 o es o2 :
  length o1 = (dst * 2)%nat -> (o + length (area es) <= off)%nat -> Z.of_nat off <= 65535 ->
  shift_loop (length es + n) dst skip off delta hdr (lay h f (o1 ++ offs o es ++ o2) e) =
  shift_loop n (dst + length es) skip off delta hdr (lay h f (o1 ++ offs o es ++ o2) e).
Proof.
  intros Hd Hb Hs. revert dst o1 o Hd Hb. induction es as [|x es IH]; intros dst o1 o Hd Hb; [by rewrite Nat.add_0_r|]. cbn [length Nat.add shift_loop].
  rewrite area_cons, length_app in Hb. pose proof (ebytes_pos x.2) as Hx.
  assert (Hk : (if skip dst then Ret (lay h f (o1 ++ offs o (x :: es) ++ o2) e) else
      entry_offset ← offset_at hdr dst (lay h f (o1 ++ offs o (x :: es) ++ o2) e);
      if Z.of_nat off <? entry_offset then write_offset hdr dst (wrap 16 (entry_offset + delta)) (lay h f (o1 ++ offs o (x :: es) ++ o2) e)
      else Ret (lay h f (o1 ++ offs o (x :: es) ++ o2) e)) = Ret (lay h f (o1 ++ offs o (x :: es) ++ o2) e)).
  { destruct (skip dst); [done|]. rewrite offset_middle by (done || lia). cbn [mbind result_bind]. by replace (_ <? _) with false by lia. }
  rewrite Hk. cbn [mbind result_bind offs].
  specialize (IH (S dst) (o1 ++ le_bytes 2 (Z.of_nat o)) (o + length (ebytes x.2))%nat). rewrite length_app, length_le_bytes in IH. rewrite <- !app_assoc in IH |- *.
  rewrite IH by lia. f_equal. lia.
Qed.

Lemma shift_above dst o1 o o' es :
  length o1 = (dst * 2)%nat -> (off < o)%nat -> Z.of_nat o' = Z.of_nat o + delta -> Z.of_nat (o + length (area es)) <= 65535 -> Z.of_nat (o' + length (area es)) <= 65535 ->
  (forall i, (dst <= i)%nat -> skip i = false) ->
  shift_loop (length es) dst skip off delta hdr (lay h f (o1 ++ offs o es) e) = Ret (lay h f (o1 ++ offs o' es) e).
Proof.
  intros Hd Hlt Ho Hs Hs' Hskip. revert dst o1 o o' Hd Hlt Ho Hs Hs' Hskip. induction es as [|x es IH]; intros dst o1 o o' Hd Hlt Ho Hs Hs' Hskip; [done|]. cbn [length shift_loop].
  rewrite Hskip by lia. pose proof (offset_middle o1 o x es [] dst Hd) as Hm. rewrite app_nil_r in Hm. rewrite area_cons, length_app in Hs, Hs'. rewrite Hm by lia.
  cbn [mbind result_bind]. replace (_ <? _) with true by lia. rewrite wrap_small by lia. rewrite <- Ho.
  unfold write_offset, offsets, fingerprints, kDirHeaderBytes. rewrite Hf. cbn [offs].
  rewrite store_o; [|done|done|rewrite !length_app, !length_le_bytes; lia]. unfold store. rewrite poke_app by (rewrite ?length_le_bytes; lia). cbn [of_option mbind result_bind].
  specialize (IH (S dst) (o1 ++ le_bytes 2 (Z.of_nat o')) (o + length (ebytes x.2))%nat (o' + length (ebytes x.2))%nat). rewrite length_app, length_le_bytes, <- !app_assoc in IH.
  apply IH; [lia|lia|lia|lia|lia|]. intros i Hi. apply Hskip. lia.
Qed.
End shift.

(** *** The updates *)

Section updates.
Variable junk : byte.

(** An entry ready to be written. *)
Record pends (pe : Pending) (fp : byte) (x : E) : Prop := mkPends {
  pd_fingerprint : b8 (pe_fingerprint pe) = fp;
  pd_size : pe_size pe = Z.of_nat (length (ebytes x));
  pd_write : forall w rest, pe_write pe (length w) (w ++ fresh_bytes junk (length (ebytes x) + rest)) = Ret ((w ++ ebytes x) ++ fresh_bytes junk rest);
}.

Lemma put_entry pe fp x hdr h f o e1 rest n i :
  pends pe fp x -> length h = 4%nat -> Z.to_nat (dcount hdr) = length f -> length o = (2 * length f)%nat -> i = length e1 -> n = (length (ebytes x) + rest)%nat ->
  pe_write pe (entries hdr + i) (lay h f o (e1 ++ fresh_bytes junk n)) = Ret (lay h f o ((e1 ++ ebytes x) ++ fresh_bytes junk rest)).
Proof.
  intros Hp Hh Hc Ho -> ->. pose proof (pd_write _ _ _ Hp (lay h f o e1) rest) as Hw. unfold lay in *. rewrite !length_app in Hw. repeat rewrite <- app_assoc in Hw. rewrite <- !app_assoc.
  replace (entries hdr + length e1)%nat with (length h + (length f + (length o + length e1)))%nat; [done|].
  unfold entries, offsets, fingerprints, kDirHeaderBytes. lia.
Qed.

Lemma memcpy_into dst src so n data m m' : load so n src = Ret data -> store dst data m = Ret m' -> memcpy dst src so n m = Ret m'.
Proof. intros Hl Hs. unfold memcpy. rewrite Hl. exact Hs. Qed.

Lemma dir_all es : lay (dir_header (length (area es)) (length es)) (es.*1 ++ fresh_bytes junk 0) (offs 0 es ++ fresh_bytes junk 0) (area es ++ fresh_bytes junk 0) = dir es.
Proof. unfold dir, fresh_bytes. cbn. by rewrite !app_nil_r. Qed.

(** Copies of whole regions of the old blob, skipped when there is nothing to copy. *)
Lemma copy_directory p es hdr h rf ro e :
  dir_repr p es -> length h = 4%nat -> Z.to_nat (dcount hdr) = (length es + rf)%nat -> 
  (if negb (dcount (hdr_of es) =? 0) then
     np ← memcpy fingerprints (dmem p) fingerprints (Z.to_nat (dcount (hdr_of es))) (lay h (fresh_bytes junk (length es + rf)) (fresh_bytes junk (2 * length es + ro)) e);
     memcpy (offsets hdr) (dmem p) (offsets (hdr_of es)) (Z.to_nat (dcount (hdr_of es)) * 2) np
   else Ret (lay h (fresh_bytes junk (length es + rf)) (fresh_bytes junk (2 * length es + ro)) e)) =
  Ret (lay h (es.*1 ++ fresh_bytes junk rf) (offs 0 es ++ fresh_bytes junk ro) e).
Proof.
  intros Hr Hh Hc. cbn [hdr_of dcount]. destruct es as [|x es]; [done|]. replace (Z.of_nat (length (x :: es)) =? 0) with false by (cbn [length]; lia). cbn [negb].
  rewrite Nat2Z.id, (dmem_repr _ _ Hr) by done. set (l := x :: es) in *.
  pose proof (load_fingerprints [] l []) as H1. pose proof (src_offsets [] l []) as H2. rewrite !app_nil_l, !app_nil_r in H1, H2. cbn [length] in H1, H2. rewrite Nat.add_0_r in H1, H2.
  pose proof (put_f h junk Hh rf [] l.*1 0 (length l + rf) (fresh_bytes junk (2 * length l + ro)) e eq_refl ltac:(by rewrite length_fmap)) as P1.
  rewrite !app_nil_l, Nat.add_0_r in P1. rewrite (memcpy_into _ _ _ _ _ _ _ H1 P1). cbn [mbind result_bind].
  pose proof (put_o h hdr junk Hh ro (l.*1 ++ fresh_bytes junk rf) [] (offs 0 l) 0 (2 * length l + ro) e) as P2. rewrite !app_nil_l, Nat.add_0_r in P2.
  apply (memcpy_into _ _ _ _ (offs 0 l)); [exact H2|]. apply P2; [rewrite length_app, length_fmap, length_fresh; lia|done|by rewrite length_offs].
Qed.

Lemma append_repr p es pe fp x :
  dir_repr p es -> pends pe fp x -> eok x -> blob_size (Z.of_nat (length (area es)) + pe_size pe) (Z.of_nat (length es) + 1) <= kDirMaxBlobBytes ->
  exists p', append_entry junk pe (hdr_of es) p = Ret p' /\ dir_repr p' (es ++ [(fp, x)]).
Proof.
  intros Hr Hp Hx Hs. rewrite (pd_size _ _ _ Hp) in Hs. unfold blob_size, kDirMaxBlobBytes in Hs.
  assert (Har : length (area (es ++ [(fp, x)])) = (length (area es) + length (ebytes x))%nat) by (rewrite area_app, length_app; unfold area; cbn; by rewrite app_nil_r).
  exists (Some (dir (es ++ [(fp, x)]))). split.
  2: { split; [split|by destruct es]; [unfold blob_size, kDirMaxBlobBytes; rewrite Har, length_app; cbn [length]; lia|]. apply Forall_app. split; [apply Hr|by repeat constructor]. }
  unfold append_entry. cbn [hdr_of dlen dcount]. rewrite (pd_size _ _ _ Hp).
  replace (wrap 16 (Z.of_nat (length es) + 1)) with (Z.of_nat (length es + 1)) by (rewrite wrap_small; lia). rewrite <- Nat2Z.inj_add.
  rewrite header_written by lia. cbn [mbind result_bind]. rewrite unpack_header by lia. cbn [mbind result_bind].
  set (next := mkDirHeader _ _). set (h := dir_header _ _). assert (Hh : length h = 4%nat) by apply length_dir_header.
  assert (Hn : Z.to_nat (dcount next) = (length es + 1)%nat) by (cbn; lia).
  pose proof (copy_directory p es next h 1 2 (fresh_bytes junk (length (area es) + length (ebytes x))) Hr Hh Hn) as Hc.
  cbn [hdr_of dcount] in Hc. replace (2 * (length es + 1))%nat with (2 * length es + 2)%nat by lia. rewrite Hc. cbn [mbind result_bind]. rewrite !Nat2Z.id.
  rewrite (put_f h junk Hh 0) by (by rewrite ?length_fmap). cbn [mbind result_bind]. unfold write_offset.
  rewrite (put_o h next junk Hh 0) by (rewrite ?length_app, ?length_fmap, ?length_offs, ?length_le_bytes; cbn [length]; rewrite ?length_fresh; lia). cbn [mbind result_bind].
  set (f := (_ ++ _) ++ fresh_bytes junk 0). set (o := (_ ++ _) ++ fresh_bytes junk 0).
  assert (Hf : length f = (length es + 1)%nat) by (unfold f; rewrite !length_app, length_fmap; done).
  assert (Ho : length o = (2 * length f)%nat) by (unfold o; rewrite !length_app, length_offs, length_le_bytes, Hf, length_fresh; lia).
  assert (He : (if negb (Z.of_nat (length (area es)) =? 0)
      then memcpy (entries next) (dmem p) (entries (hdr_of es)) (length (area es)) (lay h f o (fresh_bytes junk (length (area es) + length (ebytes x))))
      else Ret (lay h f o (fresh_bytes junk (length (area es) + length (ebytes x))))) = Ret (lay h f o (area es ++ fresh_bytes junk (length (ebytes x))))).
  { destruct (Z.eqb_spec (Z.of_nat (length (area es))) 0) as [Ez|Ez]; cbn [negb]; [by destruct (area es)|].
    assert (es <> []) by (by intros ->). rewrite (dmem_repr _ _ Hr) by done. pose proof (src_entries [] es []) as H3. rewrite app_nil_r in H3. cbn [app] in H3.
    change (length (area [])) with 0%nat in H3. rewrite Nat.add_0_r in H3. apply (memcpy_into _ _ _ _ (area es)); [exact H3|].
    pose proof (put_e h next junk Hh (length (ebytes x)) f o [] (area es) 0 (length (area es) + length (ebytes x))) as P3. rewrite !app_nil_l, Nat.add_0_r in P3.
    apply P3; [lia|done|done|done]. }
  change (mkDirHeader (Z.of_nat (length (area es))) (Z.of_nat (length es))) with (hdr_of es). rewrite He. cbn [mbind result_bind].
  rewrite (put_entry pe fp x next h f o (area es) 0) by (done || lia). cbn [mbind result_bind]. do 2 f_equal.
  rewrite <- dir_all. unfold f, o, h. rewrite (pd_fingerprint _ _ _ Hp), Har, length_app, fmap_app, offs_app, area_app. rewrite wrap_small by lia.
  f_equal. f_equal. f_equal. unfold area. cbn. by rewrite app_nil_r.
Qed.

(** The directory around the entry that goes. *)
Lemma copy_before p a x b hdr h e :
  dir_repr p (a ++ x :: b) -> length h = 4%nat -> Z.to_nat (dcount hdr) = (length a + length b)%nat ->
  (if (0 <? length a)%nat then
     np ← memcpy fingerprints (dmem p) fingerprints (length a) (lay h (fresh_bytes junk (length a + length b)) (fresh_bytes junk (2 * (length a + length b))) e);
     memcpy (offsets hdr) (dmem p) (offsets (hdr_of (a ++ x :: b))) (length a * 2) np
   else Ret (lay h (fresh_bytes junk (length a + length b)) (fresh_bytes junk (2 * (length a + length b))) e)) =
  Ret (lay h (a.*1 ++ fresh_bytes junk (length b)) (offs 0 a ++ fresh_bytes junk (2 * length b)) e).
Proof.
  intros Hr Hh Hc. rewrite (dmem_repr _ _ Hr) by (by destruct a).
  destruct (Nat.ltb_spec 0 (length a)) as [Ha|Ha]; [|by destruct a; [|cbn in Ha; lia]].
  pose proof (load_fingerprints [] a (x :: b)) as L1. pose proof (src_offsets [] a (x :: b)) as L2. rewrite !app_nil_l in L1, L2. cbn [length] in L1, L2. rewrite Nat.add_0_r in L1, L2.
  pose proof (put_f h junk Hh (length b) [] a.*1 0 (length a + length b) (fresh_bytes junk (2 * (length a + length b))) e eq_refl ltac:(by rewrite length_fmap)) as P1.
  rewrite !app_nil_l, Nat.add_0_r in P1. rewrite (memcpy_into _ _ _ _ _ _ _ L1 P1). cbn [mbind result_bind].
  apply (memcpy_into _ _ _ _ (offs 0 a)); [exact L2|].
  pose proof (put_o h hdr junk Hh (2 * length b) (a.*1 ++ fresh_bytes junk (length b)) [] (offs 0 a) 0 (2 * (length a + length b)) e) as P2. rewrite !app_nil_l, Nat.add_0_r in P2.
  apply P2; [rewrite length_app, length_fmap, length_fresh; lia|done|rewrite length_offs; lia].
Qed.

Lemma copy_after p a x b hdr h e :
  dir_repr p (a ++ x :: b) -> length h = 4%nat -> Z.to_nat (dcount hdr) = (length a + length b)%nat ->
  (if Z.of_nat (length a) + 1 <? Z.of_nat (length (a ++ x :: b)) then
     np ← memcpy (fingerprints + length a) (dmem p) (fingerprints + length a + 1) (length b) (lay h (a.*1 ++ fresh_bytes junk (length b)) (offs 0 a ++ fresh_bytes junk (2 * length b)) e);
     memcpy (offsets hdr + length a * 2) (dmem p) (offsets (hdr_of (a ++ x :: b)) + (length a + 1) * 2) (length b * 2) np
   else Ret (lay h (a.*1 ++ fresh_bytes junk (length b)) (offs 0 a ++ fresh_bytes junk (2 * length b)) e)) =
  Ret (lay h (a.*1 ++ b.*1) (offs 0 a ++ offs (length (area (a ++ [x]))) b) e).
Proof.
  intros Hr Hh Hc. rewrite (dmem_repr _ _ Hr) by (by destruct a). rewrite length_app. cbn [length].
  destruct (Z.ltb_spec (Z.of_nat (length a) + 1) (Z.of_nat (length a + S (length b)))) as [Hb|Hb]; [|destruct b; [done|cbn in Hb; lia]].
  pose proof (load_fingerprints (a ++ [x]) b []) as L1. pose proof (src_offsets (a ++ [x]) b []) as L2. rewrite !app_nil_r, <- !app_assoc, !length_app in L1, L2. cbn [app length] in L1, L2.
  rewrite Nat.add_assoc in L1.
  pose proof (put_f h junk Hh 0 a.*1 b.*1 (length a) (length b) (offs 0 a ++ fresh_bytes junk (2 * length b)) e ltac:(by rewrite length_fmap) ltac:(rewrite length_fmap; lia)) as P1.
  rewrite (memcpy_into _ _ _ _ _ _ _ L1 P1). cbn [mbind result_bind]. change (fresh_bytes junk 0) with (@nil byte). rewrite app_nil_r.
  apply (memcpy_into _ _ _ _ (offs (length (area (a ++ [x]))) b)); [exact L2|].
  pose proof (put_o h hdr junk Hh 0 (a.*1 ++ b.*1) (offs 0 a) (offs (length (area (a ++ [x]))) b) (length a * 2) (2 * length b) e) as P2.
  change (fresh_bytes junk 0) with (@nil byte) in P2. rewrite app_nil_r in P2. apply P2; [rewrite length_app, !length_fmap; lia|rewrite length_offs; lia|rewrite length_offs; lia].
Qed.

(** The offsets behind the entry that goes. *)
Lemma offsets_closed hdr h f e a x b :
  length h = 4%nat -> Z.to_nat (dcount hdr) = length f -> dir_fits (a ++ x :: b) ->
  shift_loop (length (a ++ b)) 0 (fun _ => false) (length (area a)) (- Z.of_nat (length (ebytes x.2))) hdr
    (lay h f (offs 0 a ++ offs (length (area (a ++ [x]))) b) e) = Ret (lay h f (offs 0 (a ++ b)) e).
Proof.
  intros Hh Hf Hfit. destruct (dir_small _ Hfit) as [Hs _]. rewrite area_app, area_cons, !length_app in Hs. pose proof (ebytes_pos x.2) as Hx.
  assert (Hax : length (area (a ++ [x])) = (length (area a) + length (ebytes x.2))%nat) by (rewrite area_app, length_app; unfold area; cbn; by rewrite app_nil_r).
  rewrite length_app. pose proof (shift_below h f e hdr (fun _ => false) (length (area a)) (- Z.of_nat (length (ebytes x.2))) Hh Hf (length b) 0 [] 0 a
    (offs (length (area (a ++ [x]))) b) eq_refl ltac:(done) ltac:(lia)) as H1. cbn [app] in H1. rewrite H1.
  rewrite offs_app. apply shift_above; try done; try lia. rewrite length_offs. lia.
Qed.

(** The entries around the one that goes. *)
Lemma copy_entries_around p a x b hdr h f o :
  dir_repr p (a ++ x :: b) -> length h = 4%nat -> Z.to_nat (dcount hdr) = length f -> length o = (2 * length f)%nat ->
  (np ← memcpy (entries hdr) (dmem p) (entries (hdr_of (a ++ x :: b))) (length (area a)) (lay h f o (fresh_bytes junk (length (area (a ++ b)))));
   np ← memcpy (entries hdr + length (area a)) (dmem p) (entries (hdr_of (a ++ x :: b)) + length (area a) + length (ebytes x.2)) (length (area b)) np;
   Ret (Some np)) = Ret (Some (lay h f o (area (a ++ b)))).
Proof.
  intros Hr Hh Hf Ho. rewrite (dmem_repr _ _ Hr) by (by destruct a). rewrite area_app, length_app.
  pose proof (src_entries [] a (x :: b)) as L1. rewrite !app_nil_l in L1. change (length (area [])) with 0%nat in L1. rewrite Nat.add_0_r in L1.
  pose proof (put_e h hdr junk Hh (length (area b)) f o [] (area a) 0 (length (area a) + length (area b)) Hf Ho eq_refl eq_refl) as P1. rewrite !app_nil_l, Nat.add_0_r in P1.
  rewrite (memcpy_into _ _ _ _ _ _ _ L1 P1). cbn [mbind result_bind].
  pose proof (src_entries (a ++ [x]) b []) as L2. rewrite app_nil_r, <- app_assoc, area_app, length_app in L2. change (area [x]) with (ebytes x.2 ++ []) in L2. rewrite app_nil_r in L2. cbn [app] in L2.
  rewrite Nat.add_assoc in L2. rewrite (memcpy_into _ _ _ _ _ _ _ L2 (put_e h hdr junk Hh 0 f o (area a) (area b) (length (area a)) (length (area b)) Hf Ho eq_refl ltac:(lia))).
  cbn [mbind result_bind]. change (fresh_bytes junk 0) with (@nil byte). by rewrite app_nil_r.
Qed.

Lemma erase_repr p a x b :
  dir_repr p (a ++ x :: b) ->
  exists p', erase_entry_at entry_at_ view_size_ junk (length (area a)) (length a) (hdr_of (a ++ x :: b)) p = Ret p' /\ dir_repr p' (a ++ b).
Proof.
  intros Hr. destruct (dir_small _ (proj1 Hr)) as [Hs1 Hs2]. rewrite area_app, area_cons, !length_app in Hs1. rewrite length_app in Hs2. cbn [length] in Hs2.
  assert (Har : length (area (a ++ x :: b)) = (length (area (a ++ b)) + length (ebytes x.2))%nat) by (rewrite !area_app, area_cons, !length_app; lia).
  assert (Hfit : dir_fits (a ++ b)).
  { destruct Hr as [[Hf Hok] _]. split; [|apply Forall_app in Hok as [? Hok]; apply Forall_cons in Hok as [? ?]; by apply Forall_app].
    unfold blob_size in *. rewrite Har in Hf. rewrite !length_app in *. cbn [length] in Hf. lia. }
  assert (Hx : eok x.2) by (destruct Hr as [[_ Hok] _]; apply Forall_app in Hok as [_ Hok]; by apply Forall_cons in Hok as [? _]).
  exists (match a ++ b with [] => None | _ => Some (dir (a ++ b)) end). split; [|by split].
  assert (He : entry_at_ (entries (hdr_of (a ++ x :: b)) + length (area a)) (dmem p) = Ret (eview x.2)).
  { rewrite (dmem_repr _ _ Hr) by (by destruct a). apply entry_dir, Hr. }
  unfold erase_entry_at. rewrite He. cbn [mbind result_bind]. rewrite view_size_length by done.
  cbn [hdr_of dlen dcount]. replace (wrap 16 _) with (Z.of_nat (length (a ++ b))) by (rewrite wrap_small; rewrite !length_app; cbn [length]; lia).
  destruct (a ++ b) as [|y l] eqn:Hab; [done|]. rewrite <- Hab in *. replace (Z.of_nat (length (a ++ b)) =? 0) with false by (rewrite Hab; cbn [length]; lia).
  replace (Z.of_nat (length (area (a ++ x :: b))) - Z.of_nat (length (ebytes x.2))) with (Z.of_nat (length (area (a ++ b)))) by lia.
  destruct (dir_small _ Hfit) as [Hf1 Hf2]. rewrite header_written by done. cbn [mbind result_bind]. rewrite unpack_header by done. cbn [mbind result_bind].
  set (next := mkDirHeader (Z.of_nat (length (area (a ++ b)))) _). set (h := dir_header _ _). assert (Hh : length h = 4%nat) by apply length_dir_header.
  assert (Hn : Z.to_nat (dcount next) = (length a + length b)%nat) by (cbn; rewrite Nat2Z.id; apply length_app).
  change (mkDirHeader (Z.of_nat (length (area (a ++ x :: b)))) (Z.of_nat (length (a ++ x :: b)))) with (hdr_of (a ++ x :: b)).
  rewrite !Nat2Z.id. replace (length (a ++ x :: b) - length a - 1)%nat with (length b) by (rewrite length_app; cbn [length]; lia).
  replace (length (area (a ++ x :: b)) - length (area a) - length (ebytes x.2))%nat with (length (area b)) by (rewrite area_app, area_cons, !length_app; lia).
  rewrite (length_app a b). rewrite copy_before by done. cbn [mbind result_bind]. rewrite copy_after by done. cbn [mbind result_bind].
  assert (Hlf : Z.to_nat (dcount next) = length (a.*1 ++ b.*1)) by (rewrite length_app, !length_fmap; exact Hn).
  rewrite <- (length_app a b), offsets_closed by (done || apply Hr). cbn [mbind result_bind].
  rewrite copy_entries_around by (done || (rewrite length_offs, !length_app, !length_fmap; lia)). do 2 f_equal.
  unfold dir, h. by rewrite fmap_app.
Qed.

(** *** Rebuilding *)

Lemma sum_sizes_area pes es : Forall2 (fun pe x => pends pe x.1 x.2) pes es -> sum_sizes pes = Z.of_nat (length (area es)).
Proof.
  induction 1 as [|pe x pes es Hp _ IH]; [done|]. unfold sum_sizes in *. cbn [foldr]. rewrite IH, (pd_size _ _ _ Hp), area_cons, length_app. lia.
Qed.

Lemma write_all_run pes b a next h :
  Forall2 (fun pe x => pends pe x.1 x.2) pes b -> length h = 4%nat -> Z.to_nat (dcount next) = length (a ++ b) -> Z.of_nat (length (area (a ++ b))) <= 65535 ->
  write_all pes (length a) (Z.of_nat (length (area a))) next
    (lay h (a.*1 ++ fresh_bytes junk (length b)) (offs 0 a ++ fresh_bytes junk (2 * length b)) (area a ++ fresh_bytes junk (length (area b)))) =
  Ret (lay h (a ++ b).*1 (offs 0 (a ++ b)) (area (a ++ b))).
Proof.
  intros Hp Hh. revert a. induction Hp as [|pe x pes b Hp _ IH]; intros a Hn Hs.
  { cbn [length write_all area map concat Nat.mul]. change (fresh_bytes junk 0) with (@nil byte). by rewrite !app_nil_r. }
  cbn [write_all length]. rewrite area_app, area_cons, !length_app in Hs. rewrite length_app in Hn. cbn [length] in Hn.
  rewrite (put_f h junk Hh (length b)) by (rewrite ?length_fmap; cbn [length]; lia). cbn [mbind result_bind]. unfold write_offset.
  rewrite (put_o h next junk Hh (2 * length b)) by (rewrite ?length_app, ?length_fmap, ?length_fresh, ?length_offs, ?length_le_bytes; cbn [length]; lia). cbn [mbind result_bind].
  rewrite Nat2Z.id. rewrite (put_entry pe x.1 x.2 next h _ _ (area a) (length (area b))); [|done|done| | |done|by rewrite area_cons, length_app].
  2: rewrite !length_app, length_fmap, length_fresh; cbn [length]; lia.
  2: rewrite !length_app, length_fmap, length_offs, length_le_bytes, !length_fresh; cbn [length]; lia.
  cbn [mbind result_bind]. rewrite (pd_size _ _ _ Hp), wrap_small by lia.
  assert (Ea : area (a ++ [x]) = area a ++ ebytes x.2) by (rewrite area_app; unfold area at 2; cbn; by rewrite app_nil_r).
  assert (Ef : (a ++ [x]).*1 = a.*1 ++ [x.1]) by (by rewrite fmap_app).
  assert (Eo : offs 0 (a ++ [x]) = offs 0 a ++ le_bytes 2 (Z.of_nat (length (area a)))) by (rewrite offs_app; cbn [offs]; by rewrite app_nil_r).
  specialize (IH (a ++ [x])). rewrite Ea, Ef, Eo, (length_app a [x]), (length_app (area a) (ebytes x.2)), Nat2Z.inj_add, <- (app_assoc a [x] b) in IH.
  cbn [length app] in IH. rewrite Nat.add_1_r in IH. rewrite (pd_fingerprint _ _ _ Hp). apply IH; [rewrite length_app; cbn [length]; lia|].
  rewrite area_app, area_cons, !length_app. lia.
Qed.

Lemma replace_with_repr pes es :
  Forall2 (fun pe x => pends pe x.1 x.2) pes es -> es <> [] -> dir_fits es ->
  exists p', replace_with_entries junk pes = Ret p' /\ dir_repr p' es.
Proof.
  intros Hp Hne Hf. destruct (dir_small _ Hf) as [Hs1 Hs2]. exists (Some (dir es)). split; [|split; [done|by destruct es]].
  unfold replace_with_entries. rewrite (sum_sizes_area _ _ Hp), (Forall2_length _ _ _ Hp), wrap_small by lia. rewrite header_written by done. cbn [mbind result_bind].
  rewrite unpack_header by done. cbn [mbind result_bind].
  pose proof (write_all_run pes es [] (mkDirHeader (Z.of_nat (length (area es))) (Z.of_nat (length es))) (dir_header (length (area es)) (length es)) Hp
    (length_dir_header _ _) ltac:(cbn; lia) ltac:(done)) as Hw.
  change (area (@nil (byte * E))) with (@nil byte) in Hw. cbn [length app fmap list_fmap offs] in Hw. change (Z.of_nat 0) with 0 in Hw. rewrite Hw. done.
Qed.

(** The offsets behind the entry that changes its size. *)
Lemma offsets_moved hdr h f e a x b (y : E) :
  length h = 4%nat -> Z.to_nat (dcount hdr) = length f -> dir_fits (a ++ x :: b) -> Z.of_nat (length (area a) + length (ebytes y) + length (area b)) <= 65535 ->
  (if negb (Z.of_nat (length (ebytes y)) - Z.of_nat (length (ebytes x.2)) =? 0)
   then shift_loop (length (a ++ x :: b)) 0 (fun i => (i =? length a)%nat) (length (area a)) (Z.of_nat (length (ebytes y)) - Z.of_nat (length (ebytes x.2))) hdr (lay h f (offs 0 (a ++ x :: b)) e)
   else Ret (lay h f (offs 0 (a ++ x :: b)) e)) = Ret (lay h f (offs 0 (a ++ (x.1, y) :: b)) e).
Proof.
  intros Hh Hf Hfit Hs'. destruct (dir_small _ Hfit) as [Hs _]. rewrite area_app, area_cons, !length_app in Hs. pose proof (ebytes_pos x.2) as Hx. pose proof (ebytes_pos y) as Hy.
  destruct (Z.eqb_spec (Z.of_nat (length (ebytes y)) - Z.of_nat (length (ebytes x.2))) 0) as [Ed|Ed]; cbn [negb].
  { do 2 f_equal. rewrite !offs_app. cbn [offs snd]. do 3 f_equal. lia. }
  set (delta := Z.of_nat (length (ebytes y)) - _) in *. rewrite length_app, offs_app. cbn [length Nat.add].
  pose proof (shift_below h f e hdr (fun i => (i =? length a)%nat) (length (area a)) delta Hh Hf (S (length b)) 0 [] 0 a (offs (0 + length (area a)) (x :: b))
    eq_refl ltac:(done) ltac:(lia)) as H1. cbn [app Nat.add] in H1. rewrite H1. cbn [Nat.add shift_loop]. rewrite Nat.eqb_refl. cbn [mbind result_bind offs].
  pose proof (shift_above h f e hdr (fun i => (i =? length a)%nat) (length (area a)) delta Hh Hf (S (length a)) (offs 0 a ++ le_bytes 2 (Z.of_nat (length (area a))))
    (length (area a) + length (ebytes x.2)) (length (area a) + length (ebytes y)) b) as H2. rewrite <- !app_assoc in H2. rewrite H2.
  - rewrite offs_app. done.
  - rewrite length_app, length_offs, length_le_bytes. lia.
  - lia.
  - unfold delta. lia.
  - lia.
  - lia.
  - intros i Hi. by apply Nat.eqb_neq; lia.
Qed.

(** The entries around the one that changes. *)
Lemma copy_entries_rewriting p a x b pe y hdr h f o :
  dir_repr p (a ++ x :: b) -> pends pe x.1 y -> length h = 4%nat -> Z.to_nat (dcount hdr) = length f -> length o = (2 * length f)%nat ->
  (np ← (if negb (length (area a) =? 0)%nat
         then memcpy (entries hdr) (dmem p) (entries (hdr_of (a ++ x :: b))) (length (area a)) (lay h f o (fresh_bytes junk (length (area (a ++ (x.1, y) :: b)))))
         else Ret (lay h f o (fresh_bytes junk (length (area (a ++ (x.1, y) :: b))))));
   np ← pe_write pe (entries hdr + length (area a)) np;
   np ← (if negb (length (area b) =? 0)%nat
         then memcpy (entries hdr + length (area a) + length (ebytes y)) (dmem p) (entries (hdr_of (a ++ x :: b)) + length (area a) + length (ebytes x.2)) (length (area b)) np
         else Ret np);
   Ret (Some np)) = Ret (Some (lay h f o (area (a ++ (x.1, y) :: b)))).
Proof.
  intros Hr Hp Hh Hf Ho. rewrite (dmem_repr _ _ Hr) by (by destruct a). rewrite (area_app a ((x.1, y) :: b)), area_cons, !length_app. cbn [snd].
  assert (H1 : (if negb (length (area a) =? 0)%nat
       then memcpy (entries hdr) (dir (a ++ x :: b)) (entries (hdr_of (a ++ x :: b))) (length (area a)) (lay h f o (fresh_bytes junk (length (area a) + (length (ebytes y) + length (area b)))))
       else Ret (lay h f o (fresh_bytes junk (length (area a) + (length (ebytes y) + length (area b)))))) =
     Ret (lay h f o (area a ++ fresh_bytes junk (length (ebytes y) + length (area b))))).
  { destruct (Nat.eqb_spec (length (area a)) 0) as [Ez|Ez]; cbn [negb]; [by destruct (area a)|].
    pose proof (src_entries [] a (x :: b)) as L1. rewrite !app_nil_l in L1. change (length (area [])) with 0%nat in L1. rewrite Nat.add_0_r in L1.
    pose proof (put_e h hdr junk Hh (length (ebytes y) + length (area b)) f o [] (area a) 0 (length (area a) + (length (ebytes y) + length (area b))) Hf Ho eq_refl eq_refl) as P1.
    rewrite !app_nil_l, Nat.add_0_r in P1. exact (memcpy_into _ _ _ _ _ _ _ L1 P1). }
  rewrite H1. cbn [mbind result_bind]. rewrite (put_entry pe x.1 y hdr h f o (area a) (length (area b))) by done. cbn [mbind result_bind].
  destruct (Nat.eqb_spec (length (area b)) 0) as [Ez|Ez]; cbn [negb].
  { rewrite Ez. change (fresh_bytes junk 0) with (@nil byte). destruct (area b); [|done]. cbn [mbind result_bind]. by rewrite !app_nil_r. }
  pose proof (src_entries (a ++ [x]) b []) as L2. rewrite app_nil_r, <- app_assoc, area_app, length_app in L2. change (area [x]) with (ebytes x.2 ++ []) in L2. rewrite app_nil_r in L2. cbn [app] in L2.
  rewrite Nat.add_assoc in L2. pose proof (put_e h hdr junk Hh 0 f o (area a ++ ebytes y) (area b) (length (area a) + length (ebytes y)) (length (area b)) Hf Ho
    ltac:(by rewrite length_app) ltac:(lia)) as P2. rewrite Nat.add_assoc in P2. rewrite (memcpy_into _ _ _ _ _ _ _ L2 P2).
  cbn [mbind result_bind]. change (fresh_bytes junk 0) with (@nil byte). by rewrite app_nil_r, <- app_assoc.
Qed.

Lemma replace_entry_repr p a x b pe y :
  dir_repr p (a ++ x :: b) -> pends pe x.1 y -> eok y -> dir_fits (a ++ (x.1, y) :: b) ->
  exists p', replace_entry_at junk (length (area a)) (length a) pe (length (ebytes x.2)) (hdr_of (a ++ x :: b)) p = Ret p' /\ dir_repr p' (a ++ (x.1, y) :: b).
Proof.
  intros Hr Hp Hy Hf. destruct (dir_small _ (proj1 Hr)) as [Hs1 Hs2]. destruct (dir_small _ Hf) as [Hf1 Hf2].
  pose proof (ebytes_pos x.2) as Hx. pose proof (ebytes_pos y) as Hyp.
  assert (Hl : length (a ++ (x.1, y) :: b) = length (a ++ x :: b)) by (rewrite !length_app; done).
  assert (Har : length (area (a ++ (x.1, y) :: b)) = (length (area a) + length (ebytes y) + length (area b))%nat) by (rewrite area_app, area_cons, !length_app; cbn; lia).
  assert (Har' : length (area (a ++ x :: b)) = (length (area a) + length (ebytes x.2) + length (area b))%nat) by (rewrite area_app, area_cons, !length_app; lia).
  exists (Some (dir (a ++ (x.1, y) :: b))). split; [|split; [done|by destruct a]].
  unfold replace_entry_at. cbn [hdr_of dlen dcount]. rewrite (pd_size _ _ _ Hp).
  replace (Z.of_nat (length (area (a ++ x :: b))) - Z.of_nat (length (ebytes x.2)) + Z.of_nat (length (ebytes y))) with (Z.of_nat (length (area (a ++ (x.1, y) :: b)))) by lia.
  rewrite header_written by done. cbn [mbind result_bind]. rewrite unpack_header by done. cbn [mbind result_bind].
  set (next := mkDirHeader (Z.of_nat (length (area (a ++ (x.1, y) :: b)))) _). set (h := dir_header _ _). assert (Hh : length h = 4%nat) by apply length_dir_header.
  change (mkDirHeader (Z.of_nat (length (area (a ++ x :: b)))) (Z.of_nat (length (a ++ x :: b)))) with (hdr_of (a ++ x :: b)).
  assert (Hn : Z.to_nat (dcount next) = length (a ++ x :: b)) by (cbn; lia).
  set (l := a ++ x :: b) in *. assert (Hne : l <> []) by (by unfold l; destruct a).
  pose proof (copy_directory p l next h 0 0 (fresh_bytes junk (length (area (a ++ (x.1, y) :: b)))) Hr Hh ltac:(lia)) as Hc.
  cbn [hdr_of dcount] in Hc. replace (Z.of_nat (length l) =? 0) with false in Hc by (destruct l; [done|cbn [length]; lia]). cbn [negb] in Hc.
  rewrite !Nat.add_0_r, !Nat2Z.id in Hc. change (fresh_bytes junk 0) with (@nil byte) in Hc. rewrite !app_nil_r in Hc.
  rewrite !Nat2Z.id. apply result_bind_Ret in Hc as (np & Hc1 & Hc2). rewrite Hc1. cbn [mbind result_bind].
  change (mkDirHeader (Z.of_nat (length (area l))) (Z.of_nat (length l))) with (hdr_of l) in Hc2. rewrite Hc2. cbn [mbind result_bind].
  assert (Hlf : Z.to_nat (dcount next) = length l.*1) by (rewrite length_fmap; exact Hn).
  pose proof (offsets_moved next h l.*1 (fresh_bytes junk (length (area (a ++ (x.1, y) :: b)))) a x b y Hh Hlf (proj1 Hr) ltac:(lia)) as Hm. fold l in Hm.
  rewrite Hm. cbn [mbind result_bind].
  replace (length (area l) - length (area a) - length (ebytes x.2))%nat with (length (area b)) by lia.
  pose proof (copy_entries_rewriting p a x b pe y next h l.*1 (offs 0 (a ++ (x.1, y) :: b)) Hr Hp Hh Hlf ltac:(rewrite length_offs, length_fmap, Hl; lia)) as He.
  fold l in He. rewrite He. do 2 f_equal.
  unfold dir, h. rewrite Hl. f_equal. unfold l. by rewrite !fmap_app.
Qed.

(** Overwriting part of an entry in place. *)
Lemma overwrite_repr p a x b y u w t data :
  dir_repr p (a ++ x :: b) -> ebytes x.2 = u ++ w ++ t -> ebytes y = u ++ data ++ t -> length data = length w -> eok y ->
  exists m, store (entries (hdr_of (a ++ x :: b)) + length (area a) + length u) data (dmem p) = Ret m /\ dir_repr (Some m) (a ++ (x.1, y) :: b).
Proof.
  intros Hr Hx Hy Hl Hok. rewrite (dmem_repr _ _ Hr) by (by destruct a). rewrite entries_dir.
  assert (Hsz : length (ebytes y) = length (ebytes x.2)) by (rewrite Hx, Hy, !length_app; lia).
  assert (Har : length (area (a ++ (x.1, y) :: b)) = length (area (a ++ x :: b))) by (rewrite !area_app, !area_cons, !length_app; cbn [snd]; lia).
  assert (Hlen : length (a ++ (x.1, y) :: b) = length (a ++ x :: b)) by (by rewrite !length_app).
  exists (dir (a ++ (x.1, y) :: b)). split.
  - set (h := dir_header (length (area (a ++ x :: b))) (length (a ++ x :: b)) ++ (a ++ x :: b).*1 ++ offs 0 (a ++ x :: b) ++ area a ++ u).
    assert (Hh : length h = (4 + 3 * length (a ++ x :: b) + length (area a) + length u)%nat).
    { unfold h. rewrite (length_app (dir_header _ _)), length_dir_header, (length_app _.*1), length_fmap, (length_app (offs _ _)), length_offs, (length_app (area a)). lia. }
    replace (dir (a ++ x :: b)) with (h ++ w ++ t ++ area b).
    2: { unfold dir, lay, h. rewrite area_app, area_cons, Hx. by rewrite <- !app_assoc. }
    unfold store. rewrite poke_app by done. cbn [of_option]. f_equal. unfold dir, lay, h. rewrite Har, Hlen, (area_app a ((x.1, y) :: b)), area_cons. cbn [snd]. rewrite Hy.
    rewrite !fmap_app, !offs_app. cbn [fmap list_fmap fst offs snd]. rewrite Hsz. by rewrite <- !app_assoc.
  - destruct Hr as [[Hf Hoks] _]. split; [split; [by rewrite Har, Hlen|]|by destruct a].
    apply Forall_app in Hoks as [? [? ?]%Forall_cons]. apply Forall_app. split; [done|]. by constructor.
Qed.

(** *** Walking *)

Lemma walk_run a b : dir_fits (a ++ b) -> walk entry_at_ view_size_ (length b) (length (area a)) (hdr_of (a ++ b)) (dir (a ++ b)) = Ret (map (fun x => eview x.2) b).
Proof.
  revert a. induction b as [|x b IH]; intros a Hf; [done|]. cbn [length walk map]. rewrite entry_dir by done. cbn [mbind result_bind].
  assert (Hx : eok x.2) by (destruct Hf as [_ Hok]; apply Forall_app in Hok as [_ Hok]; by apply Forall_cons in Hok as [? _]). rewrite view_size_length by done.
  specialize (IH (a ++ [x])). rewrite <- app_assoc, area_app, length_app in IH. change (area [x]) with (ebytes x.2 ++ []) in IH. rewrite app_nil_r in IH.
  cbn [app] in IH. by rewrite IH.
Qed.

Lemma for_each_repr p es : dir_repr p es -> for_each_encoded entry_at_ view_size_ (hdr_of es) (dmem p) = Ret (map (fun x => eview x.2) es).
Proof.
  intros Hr. unfold for_each_encoded. cbn [hdr_of dcount]. rewrite Nat2Z.id. destruct es as [|x es]; [done|]. rewrite (dmem_repr _ _ Hr) by done. apply (walk_run []), Hr.
Qed.
End updates.
End repr.

(** ** Packed lengths *)

Definition length_code (n : Z) : bytes :=
  if n <=? 0x7F then [b8 n] else [b8 (Z.lor 0x80 (Z.land (Z.shiftr n 8) 0x7F)); b8 (Z.land n 0xFF)].

Lemma length_length_code n : Z.of_nat (length (length_code n)) = packed_length_size n.
Proof. unfold length_code, packed_length_size. by destruct (n <=? 127). Qed.

Lemma read_length_code n pre post :
  0 <= n <= kDirMaxStringBytes -> read_length (length pre) (pre ++ length_code n ++ post) = Ret (n, length (length_code n)).
Proof.
  unfold kDirMaxStringBytes. intros Hn. unfold read_length, load_u8, length_code. destruct (Z.leb_spec n 127) as [Hs|Hs]; cbn [app].
  - rewrite byte_at_app_hd. cbn [of_option mbind result_bind]. rewrite u8_b8_small by lia.
    by rewrite one_byte_code by lia.
  - rewrite byte_at_app_hd. cbn [of_option mbind result_bind]. destruct (two_byte_code n ltac:(lia)) as [H1 H2]. rewrite H1, byte_at_app_next. cbn [of_option mbind result_bind].
    by rewrite H2.
Qed.

Lemma write_length_code junk rest w n off k :
  0 <= n <= kDirMaxStringBytes -> off = length w -> k = (length (length_code n) + rest)%nat ->
  write_length off n (w ++ fresh_bytes junk k) = Ret ((w ++ length_code n) ++ fresh_bytes junk rest, (off + length (length_code n))%nat).
Proof.
  intros Hn -> ->. unfold write_length, assert_, length_code. replace (n <=? kDirMaxStringBytes) with true by lia. cbn [mbind result_bind].
  destruct (n <=? 127); cbn [length].
  - rewrite (store_next rest) by done. done.
  - rewrite (store_next (1 + rest)) by done. cbn [mbind result_bind]. rewrite (store_next rest) by (rewrite ?length_app; done). cbn [mbind result_bind].
    by rewrite <- (app_assoc w).
Qed.
