(* ===== verification/SetListpack.v ===== *)
(** * Compact sets

    Models [include/goblin/core/set_listpack.hpp]: a Redis set in one blob with a
    fingerprint directory ([Directory]), each entry the length and the bytes of an
    encoded member.  The blob holds the members in the order they were added; adding,
    looking up and removing act on them as on a set. *)

From S2P Require Import Prelude BitMask StringEncoding StoredText Directory.
From Stdlib Require Import ZArith Lia ZifyBool.

Local Open Scope Z_scope.

Record AddResult := mkAdd { added : bool; needs_full : bool }.
Record AddManyResult := mkAddMany { added_many : Z; many_needs_full : bool }.

(** [EntryView]. *)
Record SetEntry := mkSetEntry { member_ : bytes; header_bytes_ : nat }.
Definition set_entry_total (e : SetEntry) : nat := (header_bytes_ e + length (member_ e))%nat.

Definition set_entry_at (p : nat) (m : bytes) : result SetEntry :=
  '(length_, header_bytes) ← read_length p m;
  member ← load (p + header_bytes) (Z.to_nat length_) m;
  Ret (mkSetEntry member header_bytes).

Definition set_entry_size (member_len : Z) : Z := packed_length_size member_len + member_len.

(** Worst case per entry: a tag, two bytes of length, three of directory. *)
Definition set_can_encode (entry_count payload_bytes : Z) : bool :=
  if (65535 <? entry_count) || ((kDirMaxBlobBytes - 4) / 6 <? entry_count) then false
  else payload_bytes <=? kDirMaxBlobBytes - 4 - entry_count * 6.

Section code.
Context {L : LZ4}.
Variable hash : bytes -> Z.
Variable width : nat.
Variable junk : byte.
Variable encoding : Z.

Definition set_size (p : Blob) : result Z := hdr ← unpack_blob p; Ret (dcount hdr).
Definition set_allocated_bytes (p : Blob) : result Z :=
  match p with None => Ret 0 | Some _ => hdr ← unpack_blob p; Ret (blob_size (dlen hdr) (dcount hdr)) end.

Definition find_member (member : EncodedString) (hdr : DirHeader) (needle : Z) (p : Blob) : result (option (nat * nat)) :=
  find_entry set_entry_at member_ width (equals_encoded member) needle hdr (dmem p).

(** What [append_entry] and [replace_with_entries] write. *)
Definition write_member (size : Z) (data : bytes) (pos : nat) (m : bytes) : result bytes :=
  '(m, payload) ← write_length pos size m;
  store payload data m.

Definition member_pending (fp : Z) (e : EncodedString) : Pending :=
  mkPending fp (set_entry_size (encoded_size_ e)) (write_member (encoded_size_ e) (write_to e)).

Definition add (member : bytes) (max_entries : Z) (p : Blob) : result (AddResult * Blob) :=
  if Options.max_value_bytes encoding <? Z.of_nat (length member) then Ret (mkAdd false true, p)
  else
    encoded ← encode member encoding NeverLz4;
    if kDirMaxStringBytes <? encoded_size_ encoded then Ret (mkAdd false true, p)
    else
      hdr ← unpack_blob p;
      let fp := fingerprint hash member in
      found ← find_member encoded hdr fp p;
      match found with
      | Some _ => Ret (mkAdd false false, p)
      | None =>
          let new_count := dcount hdr + 1 in
          let elem := set_entry_size (encoded_size_ encoded) in
          if (max_entries <? new_count) || (kDirMaxBlobBytes <? blob_size (dlen hdr + elem) new_count) then Ret (mkAdd false true, p)
          else p ← append_entry junk (member_pending fp encoded) hdr p; Ret (mkAdd true false, p)
      end.

(** [PendingEntry]: a stored member, or one of the command. *)
Inductive PendingMember :=
| StoredMember (encoded : bytes) (fp : Z)
| IncomingMember (logical : bytes) (incoming : EncodedString) (fp : Z).

Definition pm_fingerprint (e : PendingMember) : Z := match e with StoredMember _ fp => fp | IncomingMember _ _ fp => fp end.
Definition pm_equals (logical_member : bytes) (enc : EncodedString) (e : PendingMember) : bool :=
  match e with StoredMember encoded _ => equals_encoded enc encoded | IncomingMember logical _ _ => bool_decide (logical = logical_member) end.
Definition pm_pending (e : PendingMember) : Pending :=
  match e with
  | StoredMember encoded fp => mkPending fp (set_entry_size (Z.of_nat (length encoded))) (write_member (Z.of_nat (length encoded)) encoded)
  | IncomingMember _ incoming fp => member_pending fp incoming
  end.

(** The entries of the blob with their fingerprints. *)
Fixpoint stored_members (views : list SetEntry) (index : nat) (m : bytes) : result (list PendingMember) :=
  match views with
  | [] => Ret []
  | v :: views =>
      fp ← load_u8 (fingerprints + index) m;
      rest ← stored_members views (S index) m;
      Ret (StoredMember (member_ v) fp :: rest)
  end.

(** The loop over the members; [None] is the return with [needs_full]. *)
Fixpoint merge_members (members : list bytes) (merged : list PendingMember) (n : Z) : result (option (list PendingMember * Z)) :=
  match members with
  | [] => Ret (Some (merged, n))
  | member :: members =>
      if Options.max_value_bytes encoding <? Z.of_nat (length member) then Ret None
      else
        encoded ← encode member encoding NeverLz4;
        if kDirMaxStringBytes <? encoded_size_ encoded then Ret None
        else
          let fp := fingerprint hash member in
          if existsb (fun e => (pm_fingerprint e =? fp) && pm_equals member encoded e) merged then merge_members members merged n
          else merge_members members (merged ++ [IncomingMember member encoded fp]) (n + 1)
  end.

Definition add_many (members : list bytes) (max_entries : Z) (p : Blob) : result (AddManyResult * Blob) :=
  match members with
  | [] => Ret (mkAddMany 0 false, p)
  | _ =>
      hdr ← unpack_blob p;
      views ← for_each_encoded set_entry_at set_entry_total hdr (dmem p);
      stored ← stored_members views 0 (dmem p);
      outcome ← merge_members members stored 0;
      match outcome with
      | None => Ret (mkAddMany 0 true, p)
      | Some (merged, n) =>
          let es := map pm_pending merged in
          if (max_entries <? Z.of_nat (length merged)) || negb (entries_fit_in_blob es) then Ret (mkAddMany 0 true, p)
          else p ← replace_with_entries junk es; Ret (mkAddMany n false, p)
      end
  end.

Definition contains (member : bytes) (p : Blob) : result bool :=
  if Options.max_value_bytes encoding <? Z.of_nat (length member) then Ret false
  else
    encoded ← encode member encoding NeverLz4;
    if kDirMaxStringBytes <? encoded_size_ encoded then Ret false
    else
      hdr ← unpack_blob p;
      found ← find_member encoded hdr (fingerprint hash member) p;
      Ret (bool_decide (is_Some found)).

Definition erase (member : bytes) (p : Blob) : result (bool * Blob) :=
  if Options.max_value_bytes encoding <? Z.of_nat (length member) then Ret (false, p)
  else
    encoded ← encode member encoding NeverLz4;
    if kDirMaxStringBytes <? encoded_size_ encoded then Ret (false, p)
    else
      hdr ← unpack_blob p;
      found ← find_member encoded hdr (fingerprint hash member) p;
      match found with
      | None => Ret (false, p)
      | Some (off, index) => p ← erase_entry_at set_entry_at set_entry_total junk off index hdr p; Ret (true, p)
      end.

Definition erase_at_index (index : nat) (p : Blob) : result (bool * Blob) :=
  hdr ← unpack_blob p;
  if dcount hdr <=? Z.of_nat index then Ret (false, p)
  else
    off ← offset_at hdr index (dmem p);
    p ← erase_entry_at set_entry_at set_entry_total junk (Z.to_nat off) index hdr p;
    Ret (true, p).

Definition member_view (e : SetEntry) : EncodedStringView := stored_view encoding (member_ e).

Definition at_index (index : nat) (p : Blob) : result EncodedStringView :=
  hdr ← unpack_blob p;
  _ ← assert_ (Z.of_nat index <? dcount hdr);
  off ← offset_at hdr index (dmem p);
  entry ← set_entry_at (entries hdr + Z.to_nat off) (dmem p);
  Ret (member_view entry).

(** The views [for_each] hands out. *)
Definition for_each_member (p : Blob) : result (list EncodedStringView) :=
  hdr ← unpack_blob p;
  views ← for_each_encoded set_entry_at set_entry_total hdr (dmem p);
  Ret (map member_view views).
End code.

(** ** The entry format *)

Definition set_entry_bytes (m : bytes) : bytes := length_code (Z.of_nat (length m)) ++ m.
Definition set_entry_view (m : bytes) : SetEntry := mkSetEntry m (length (length_code (Z.of_nat (length m)))).

Lemma set_entry_reads m pre post :
  Z.of_nat (length m) <= kDirMaxStringBytes -> set_entry_at (length pre) (pre ++ set_entry_bytes m ++ post) = Ret (set_entry_view m).
Proof.
  intros Hm. unfold set_entry_at, set_entry_bytes. rewrite <- app_assoc, read_length_code by lia. cbn [mbind result_bind]. rewrite Nat2Z.id.
  pose proof (load_app (pre ++ length_code (Z.of_nat (length m))) m post (length pre + length (length_code (Z.of_nat (length m)))) (length m)
    ltac:(by rewrite length_app) eq_refl) as Hl. rewrite <- app_assoc in Hl. by rewrite Hl.
Qed.

#[global] Instance set_format : EntryFormat bytes SetEntry.
Proof.
  refine {| entry_at_ := set_entry_at; view_key_ := member_; view_size_ := set_entry_total; ebytes := set_entry_bytes; eview := set_entry_view;
            eok := fun m => Z.of_nat (length m) <= kDirMaxStringBytes |}.
  - intros m pre post Hm. by apply set_entry_reads.
  - intros m _. unfold set_entry_bytes. by rewrite length_app.
  - intros m. unfold set_entry_bytes, length_code. rewrite length_app. destruct (_ <=? _); cbn; lia.
Defined.

Lemma set_entry_size_bytes m : set_entry_size (Z.of_nat (length m)) = Z.of_nat (length (set_entry_bytes m)).
Proof. unfold set_entry_size, set_entry_bytes. rewrite length_app, <- length_length_code. lia. Qed.

Lemma write_member_pends junk fp m :
  Z.of_nat (length m) <= kDirMaxStringBytes ->
  pends junk (mkPending fp (set_entry_size (Z.of_nat (length m))) (write_member (Z.of_nat (length m)) m)) (b8 fp) m.
Proof.
  intros Hm. split; [done|apply set_entry_size_bytes|]. intros w rest. cbn [pe_write ebytes set_format]. unfold write_member, set_entry_bytes. rewrite length_app.
  rewrite (write_length_code junk (length m + rest)) by (lia || done). cbn [mbind result_bind].
  rewrite (store_next rest) by (rewrite ?length_app; lia). by rewrite <- (app_assoc w).
Qed.

(** ** The set a blob holds *)

Section spec.
Context {L : LZ4} {LC : LZ4Correct L}.
Variable hash : bytes -> Z.
Variable junk : byte.
Variable encoding : Z.

(** The stored form of a member. *)
Definition enc (m : bytes) : bytes := stored_form encoding NeverLz4 m.

(** A member the compact form accepts and reads back. *)
Definition storable_member (m : bytes) : Prop :=
  Z.of_nat (length m) <= Options.max_value_bytes encoding /\ Z.of_nat (length (enc m)) <= kDirMaxStringBytes /\ wraps (unsigned_part m) = false.

Lemma storable_faithful m : storable_member m -> faithful encoding NeverLz4 m.
Proof. intros (H1 & _ & H3). split; [by apply encode_short|done]. Qed.

Definition item (m : bytes) : byte * bytes := (b8 (fingerprint hash m), enc m).

Record set_repr (p : Blob) (ms : list bytes) : Prop := mkSetRepr {
  sr_dir : dir_repr p (map item ms);
  sr_distinct : NoDup ms;
  sr_members : Forall storable_member ms;
}.

Lemma encode_member m :
  Z.of_nat (length m) <= Options.max_value_bytes encoding ->
  exists e, encode m encoding NeverLz4 = Ret e /\ enc m = write_to e /\ encoded_size_ e = Z.of_nat (length (enc m)) /\
    (forall stored, equals_encoded e stored = bool_decide (stored = enc m)).
Proof. intros Hm. destruct (encode_short encoding NeverLz4 m Hm) as [e He]. exists e. split; [done|]. by apply encode_stored. Qed.

Lemma enc_reads m : storable_member m -> reads_as (stored_view encoding (enc m)) m.
Proof. intros Hm. by apply stored_reads, storable_faithful. Qed.

Lemma enc_inj m m' : storable_member m -> storable_member m' -> enc m = enc m' -> m = m'.
Proof. intros H1%storable_faithful H2%storable_faithful. by apply stored_inj. Qed.

Lemma member_fingerprint m : u8 (b8 (fingerprint hash m)) = fingerprint hash m.
Proof. apply u8_b8_small. apply (wrap_range 8). lia. Qed.

(** Looking a member up. *)
Lemma hit_item e m m' :
  encode m encoding NeverLz4 = Ret e -> storable_member m -> storable_member m' -> hit (equals_encoded e) (fingerprint hash m) (item m') <-> m' = m.
Proof.
  intros He Hm Hm'. destruct (encode_member m (proj1 Hm)) as (e' & He' & _ & _ & Heq). rewrite He in He'. injection He' as <-.
  unfold hit, item. cbn [fst snd view_key_ eview set_format set_entry_view member_]. rewrite member_fingerprint, Heq, bool_decide_eq_true. split; [|by intros ->].
  intros [_ E]. by apply enc_inj.
Qed.

Variable width : nat.
Hypothesis Hwidth : (0 < width)%nat.

Lemma find_member_spec p ms m e :
  set_repr p ms -> storable_member m -> encode m encoding NeverLz4 = Ret e ->
  (m ∉ ms -> find_member width e (hdr_of (map item ms)) (fingerprint hash m) p = Ret None) /\
  (forall a b, ms = a ++ m :: b -> find_member width e (hdr_of (map item ms)) (fingerprint hash m) p = Ret (Some (length (area (map item a)), length a))).
Proof.
  intros [Hd Hn Hok] Hm He.
  assert (Hfind : find_member width e (hdr_of (map item ms)) (fingerprint hash m) p = Ret (found_from (equals_encoded e) (fingerprint hash m) [] (map item ms))).
  { apply (find_entry_repr (equals_encoded e) (fingerprint hash m) width Hwidth p (map item ms) Hd). }
  rewrite Hfind.
  assert (Hnone : forall l, Forall storable_member l -> m ∉ l -> list_find (hit (equals_encoded e) (fingerprint hash m)) (map item l) = None).
  { intros l Hl Hin. apply list_find_None, Forall_map, Forall_forall. intros m' Hm' Hh. rewrite Forall_forall in Hl.
    apply (hit_item e m m' He Hm (Hl _ Hm')) in Hh. by subst. }
  split.
  - intros Hin. unfold found_from. by rewrite Hnone.
  - intros a b ->. f_equal. rewrite map_app. cbn [map]. apply Forall_app in Hok as [Hoka _]. apply NoDup_app in Hn as (_ & Hdis & _).
    rewrite found_first; [by rewrite !app_nil_l, length_map|by apply hit_item|]. apply Hnone; [done|]. intros Ha. apply (Hdis m Ha). by left.
Qed.

Lemma set_hdr p ms : set_repr p ms -> unpack_blob p = Ret (hdr_of (map item ms)).
Proof. intros [Hd _ _]. apply unpack_repr_dir, Hd. Qed.

(** The members fit in a blob of at most [max_entries] entries. *)
Definition room (max_entries : Z) (ms : list bytes) : bool :=
  (Z.of_nat (length ms) <=? max_entries) && (blob_size (Z.of_nat (length (area (map item ms)))) (Z.of_nat (length ms)) <=? kDirMaxBlobBytes).

Lemma area_snoc ms m : length (area (map item (ms ++ [m]))) = (length (area (map item ms)) + length (set_entry_bytes (enc m)))%nat.
Proof. rewrite map_app, area_app, length_app. unfold area at 2. cbn. by rewrite app_nil_r. Qed.

Lemma add_spec p ms m max_entries :
  set_repr p ms -> storable_member m ->
  if decide (m ∈ ms) then add hash width junk encoding m max_entries p = Ret (mkAdd false false, p)
  else if room max_entries (ms ++ [m]) then exists p', add hash width junk encoding m max_entries p = Ret (mkAdd true false, p') /\ set_repr p' (ms ++ [m])
  else add hash width junk encoding m max_entries p = Ret (mkAdd false true, p).
Proof.
  intros Hr Hm. pose proof Hm as (Hm1 & Hm2 & _). destruct (encode_member m Hm1) as (e & He & Hen & Hsz & _). destruct (find_member_spec p ms m e Hr Hm He) as [Hno Hyes].
  unfold add. replace (_ <? _) with false by lia. rewrite He. cbn [mbind result_bind]. rewrite Hsz. replace (_ <? _) with false by lia.
  rewrite (set_hdr _ _ Hr). cbn [mbind result_bind]. destruct (decide (m ∈ ms)) as [Hin|Hin].
  { apply list_elem_of_split in Hin as (a & b & ->). by rewrite (Hyes a b eq_refl). }
  rewrite (Hno Hin). cbn [mbind result_bind hdr_of dlen dcount]. rewrite set_entry_size_bytes, <- Nat2Z.inj_add, <- area_snoc, length_map.
  replace (Z.of_nat (length ms) + 1) with (Z.of_nat (length (ms ++ [m]))) by (rewrite length_app; cbn; lia).
  unfold room. destruct (_ && _) eqn:Hroom.
  - replace (_ || _) with false by lia.
    destruct (append_repr junk p (map item ms) (member_pending (fingerprint hash m) e) (b8 (fingerprint hash m)) (enc m)) as (p' & Ep & Rp).
    + apply Hr.
    + unfold member_pending. rewrite Hsz, <- Hen. by apply write_member_pends.
    + done.
    + cbn [pe_size member_pending]. rewrite Hsz, set_entry_size_bytes, <- Nat2Z.inj_add, <- area_snoc, length_map. rewrite (length_app ms [m]) in Hroom. cbn [length] in Hroom. unfold blob_size in *. lia.
    + exists p'. split; [|split].
      * unfold hdr_of in Ep |- *. rewrite ?length_map in Ep |- *. by rewrite Ep.
      * by rewrite map_app.
      * apply NoDup_app. split_and!; [apply Hr|intros y Hy ->%list_elem_of_singleton; done|apply NoDup_singleton].
      * apply Forall_app. split; [apply Hr|by constructor].
  - by replace (_ || _) with true by lia.
Qed.

Lemma member_contains_spec p ms m :
  set_repr p ms -> storable_member m -> contains hash width encoding m p = Ret (bool_decide (m ∈ ms)).
Proof.
  intros Hr Hm. pose proof Hm as (Hm1 & Hm2 & _). destruct (encode_member m Hm1) as (e & He & Hen & Hsz & _). destruct (find_member_spec p ms m e Hr Hm He) as [Hno Hyes].
  unfold contains. replace (_ <? _) with false by lia. rewrite He. cbn [mbind result_bind]. rewrite Hsz. replace (_ <? _) with false by lia.
  rewrite (set_hdr _ _ Hr). cbn [mbind result_bind]. destruct (decide (m ∈ ms)) as [Hin|Hin].
  - rewrite (bool_decide_eq_true_2 _ Hin). apply list_elem_of_split in Hin as (a & b & ->). by rewrite (Hyes a b eq_refl).
  - by rewrite (bool_decide_eq_false_2 _ Hin), (Hno Hin).
Qed.

(** Removing the entry at a position. *)
Lemma erase_position p a m b :
  set_repr p (a ++ m :: b) ->
  exists p', erase_entry_at set_entry_at set_entry_total junk (length (area (map item a))) (length a) (hdr_of (map item (a ++ m :: b))) p = Ret p' /\ set_repr p' (a ++ b).
Proof.
  intros [Hd Hn Hok]. rewrite map_app in Hd |- *. destruct (erase_repr junk p (map item a) (item m) (map item b) Hd) as (p' & E & R). rewrite length_map in E. exists p'. split; [done|].
  split; [by rewrite map_app|rewrite <- Permutation_middle in Hn; by apply NoDup_cons in Hn as [_ ?]|]. apply Forall_app in Hok as [? [? ?]%Forall_cons]. by apply Forall_app.
Qed.

Lemma erase_spec p ms m :
  set_repr p ms -> storable_member m ->
  (m ∉ ms -> erase hash width junk encoding m p = Ret (false, p)) /\
  (forall a b, ms = a ++ m :: b -> exists p', erase hash width junk encoding m p = Ret (true, p') /\ set_repr p' (a ++ b)).
Proof.
  intros Hr Hm. pose proof Hm as (Hm1 & Hm2 & _). destruct (encode_member m Hm1) as (e & He & Hen & Hsz & _). destruct (find_member_spec p ms m e Hr Hm He) as [Hno Hyes].
  unfold erase. replace (_ <? _) with false by lia. rewrite He. cbn [mbind result_bind]. rewrite Hsz. replace (_ <? _) with false by lia.
  rewrite (set_hdr _ _ Hr). cbn [mbind result_bind]. split.
  - intros Hin. by rewrite (Hno Hin).
  - intros a b ->. rewrite (Hyes a b eq_refl). cbn [mbind result_bind]. destruct (erase_position p a m b Hr) as (p' & E & R). exists p'. by rewrite E.
Qed.

Lemma position_offset p a m b :
  set_repr p (a ++ m :: b) -> offset_at (hdr_of (map item (a ++ m :: b))) (length a) (dmem p) = Ret (Z.of_nat (length (area (map item a)))).
Proof.
  intros [Hd _ _]. rewrite (dmem_repr _ _ Hd) by (by destruct a). rewrite map_app in Hd |- *. rewrite <- (length_map item a). apply offset_dir, Hd.
Qed.

Lemma index_spec p ms :
  set_repr p ms ->
  (forall i, (length ms <= i)%nat -> erase_at_index junk i p = Ret (false, p)) /\
  (forall a m b, ms = a ++ m :: b ->
     (exists p', erase_at_index junk (length a) p = Ret (true, p') /\ set_repr p' (a ++ b)) /\
     exists v, at_index encoding (length a) p = Ret v /\ reads_as v m).
Proof.
  intros Hr. unfold erase_at_index, at_index. rewrite (set_hdr _ _ Hr). cbn [mbind result_bind]. split.
  - intros i Hi. cbn [hdr_of dcount]. rewrite length_map. by replace (_ <=? _) with true by lia.
  - intros a m b ->. replace (dcount _ <=? _) with false by (cbn [hdr_of dcount]; rewrite length_map, length_app; cbn [length]; lia).
    replace (_ <? dcount _) with true by (cbn [hdr_of dcount]; rewrite length_map, length_app; cbn [length]; lia). cbn [assert_ mbind result_bind].
    rewrite (position_offset _ _ _ _ Hr). cbn [mbind result_bind]. rewrite Nat2Z.id. split.
    + destruct (erase_position p a m b Hr) as (p' & E & R). exists p'. by rewrite E.
    + destruct Hr as [Hd _ Hok]. rewrite (dmem_repr _ _ Hd) by (by destruct a). rewrite map_app in Hd |- *.
      pose proof (entry_dir (map item a) (item m) (map item b) (proj1 Hd)) as E. cbn [entry_at_ set_format] in E. cbn [map]. rewrite E. cbn [mbind result_bind].
      eexists. split; [done|]. unfold member_view. apply Forall_app in Hok as [_ [Hm _]%Forall_cons]. by apply enc_reads.
Qed.

Lemma members_walk_spec p ms : set_repr p ms -> exists views, for_each_member encoding p = Ret views /\ Forall2 reads_as views ms.
Proof.
  intros Hr. unfold for_each_member. rewrite (set_hdr _ _ Hr). cbn [mbind result_bind]. destruct Hr as [Hd _ Hok].
  pose proof (for_each_repr p (map item ms) Hd) as E. cbn [entry_at_ view_size_ set_format] in E. rewrite E. cbn [mbind result_bind]. eexists. split; [done|].
  clear -Hok LC. induction Hok as [|m ms Hm _ IH]; cbn [map]; [constructor|]. constructor; [by apply enc_reads|done].
Qed.

(** *** Several members at once *)

(** The members in the order they come in. *)
Definition adds (ms members : list bytes) : list bytes := foldl (fun ms m => if decide (m ∈ ms) then ms else ms ++ [m]) ms members.

(** What [add_many] keeps of a member. *)
Record held (e : PendingMember) (m : bytes) : Prop := mkHeld {
  he_writes : pends junk (pm_pending e) (b8 (fingerprint hash m)) (enc m);
  he_fingerprint : pm_fingerprint e = fingerprint hash m;
  he_equals : forall q enc_q, encode q encoding NeverLz4 = Ret enc_q -> storable_member q -> pm_equals q enc_q e = bool_decide (m = q);
}.

Lemma held_stored m : storable_member m -> held (StoredMember (enc m) (fingerprint hash m)) m.
Proof.
  intros Hm. split; [by apply write_member_pends, Hm|done|]. intros q e He Hq. destruct (encode_member q (proj1 Hq)) as (e' & He' & _ & _ & Heq). rewrite He in He'. injection He' as <-.
  cbn [pm_equals]. rewrite Heq. apply bool_decide_ext. split; [by apply enc_inj|by intros ->].
Qed.

Lemma held_incoming m e : encode m encoding NeverLz4 = Ret e -> storable_member m -> held (IncomingMember m e (fingerprint hash m)) m.
Proof.
  intros He Hm. split; [|done|done]. destruct (encode_member m (proj1 Hm)) as (e' & He' & Hen & Hsz & _). rewrite He in He'. injection He' as <-.
  cbn [pm_pending]. unfold member_pending. rewrite Hsz, <- Hen. by apply write_member_pends, Hm.
Qed.

Lemma stored_members_run p a b :
  set_repr p (a ++ b) -> stored_members (map (fun x => set_entry_view x.2) (map item b)) (length a) (dmem p) = Ret (map (fun m => StoredMember (enc m) (fingerprint hash m)) b).
Proof.
  intros Hr. revert a Hr. induction b as [|m b IH]; intros a Hr; [done|]. cbn [map stored_members].
  assert (Hl : load_u8 (fingerprints + length a) (dmem p) = Ret (fingerprint hash m)).
  { destruct Hr as [Hd _ _]. rewrite (dmem_repr _ _ Hd) by (by destruct a). rewrite map_app. rewrite <- (length_map item a). cbn [map]. rewrite load_fingerprint. cbn. by rewrite member_fingerprint. }
  rewrite Hl. cbn [mbind result_bind]. specialize (IH (a ++ [m])). rewrite <- app_assoc, length_app in IH. cbn [app length] in IH. rewrite Nat.add_1_r in IH. by rewrite IH.
Qed.

Lemma merge_run members merged ms n :
  Forall storable_member members -> Forall storable_member ms -> Forall2 held merged ms ->
  exists merged', merge_members hash encoding members merged n = Ret (Some (merged', n + Z.of_nat (length (adds ms members)) - Z.of_nat (length ms))) /\
    Forall2 held merged' (adds ms members).
Proof.
  intros Hf. revert merged ms n. induction Hf as [|m members Hm _ IH]; intros merged ms n Hok Hh.
  { exists merged. cbn. split; [|done]. do 3 f_equal. lia. }
  pose proof Hm as (Hm1 & Hm2 & _). destruct (encode_member m Hm1) as (e & He & Hen & Hsz & _). cbn [merge_members adds foldl].
  replace (_ <? _) with false by lia. rewrite He. cbn [mbind result_bind]. rewrite Hsz. replace (_ <? _) with false by lia.
  replace (existsb _ merged) with (bool_decide (m ∈ ms)).
  2: { clear IH Hok. induction Hh as [|e' m' merged ms He' _ IH]; [done|]. cbn [existsb]. rewrite <- IH, (he_fingerprint _ _ He'), (he_equals _ _ He' m e He Hm).
       rewrite (bool_decide_ext _ _ (elem_of_cons ms m m')), bool_decide_or. f_equal. destruct (decide (m = m')) as [->|Hd].
       - by rewrite !bool_decide_eq_true_2, Z.eqb_refl by done.
       - rewrite !bool_decide_eq_false_2 by congruence. by rewrite andb_false_r. }
  case_bool_decide as Hin.
  - rewrite decide_True by done. apply IH; done.
  - rewrite decide_False by done. destruct (IH (merged ++ [IncomingMember m e (fingerprint hash m)]) (ms ++ [m]) (n + 1)) as (merged' & E & H').
    + apply Forall_app. split; [done|by constructor].
    + apply Forall2_app; [done|]. constructor; [by apply held_incoming|constructor].
    + exists merged'. split; [|done]. rewrite E. do 3 f_equal. unfold adds. rewrite length_app. cbn [length]. lia.
Qed.

Lemma adds_good ms members : NoDup ms -> Forall storable_member ms -> Forall storable_member members -> NoDup (adds ms members) /\ Forall storable_member (adds ms members).
Proof.
  intros Hn Hok Hf. revert ms Hn Hok. induction Hf as [|m members Hm _ IH]; intros ms Hn Hok; [done|]. cbn [adds foldl]. destruct (decide (m ∈ ms)) as [Hin|Hin]; [by apply IH|].
  apply IH; [|apply Forall_app; split; [done|by constructor]]. apply NoDup_app. split_and!; [done|intros y Hy ->%list_elem_of_singleton; done|apply NoDup_singleton].
Qed.

Lemma adds_elem ms members m : m ∈ adds ms members <-> m ∈ ms \/ m ∈ members.
Proof.
  revert ms. induction members as [|x members IH]; intros ms; cbn [adds foldl]; [set_solver|]. fold (adds (if decide (x ∈ ms) then ms else ms ++ [x]) members). rewrite IH.
  destruct (decide (x ∈ ms)); set_solver.
Qed.

Lemma held_pends merged ms : Forall2 held merged ms -> Forall2 (fun pe x => pends junk pe x.1 x.2) (map pm_pending merged) (map item ms).
Proof. induction 1 as [|e m merged ms He _ IH]; cbn [map]; [constructor|]. constructor; [apply He|done]. Qed.

Lemma add_many_spec p ms members max_entries :
  set_repr p ms -> Forall storable_member members -> members <> [] ->
  if room max_entries (adds ms members)
  then exists p', add_many hash junk encoding members max_entries p = Ret (mkAddMany (Z.of_nat (length (adds ms members)) - Z.of_nat (length ms)) false, p') /\ set_repr p' (adds ms members)
  else add_many hash junk encoding members max_entries p = Ret (mkAddMany 0 true, p).
Proof.
  intros Hr Hf Hne. unfold add_many. destruct members as [|x l] eqn:Hmem; [done|]. rewrite <- Hmem in *. clear Hne.
  rewrite (set_hdr _ _ Hr). cbn [mbind result_bind]. pose proof (for_each_repr p (map item ms) (sr_dir _ _ Hr)) as E. cbn [entry_at_ view_size_ set_format] in E. rewrite E. cbn [mbind result_bind].
  pose proof (stored_members_run p [] ms Hr) as Es. cbn [length] in Es. cbn [eview set_format]. rewrite Es. cbn [mbind result_bind].
  destruct (merge_run members (map (fun m => StoredMember (enc m) (fingerprint hash m)) ms) ms 0 Hf (sr_members _ _ Hr)) as (merged & Em & Hh).
  { pose proof (sr_members _ _ Hr) as Hok. clear -Hok LC. induction Hok as [|m ms Hm _ IH]; cbn [map]; [constructor|]. constructor; [by apply held_stored|done]. }
  rewrite Em. cbn [mbind result_bind]. pose proof (held_pends _ _ Hh) as Hp. unfold entries_fit_in_blob. rewrite (sum_sizes_area _ _ _ Hp), length_map, (Forall2_length _ _ _ Hh).
  destruct (adds_good ms members (sr_distinct _ _ Hr) (sr_members _ _ Hr) Hf) as [Hn Hok]. unfold room. destruct (_ && _) eqn:Hroom.
  - replace (_ || _) with false by lia.
    destruct (replace_with_repr junk (map pm_pending merged) (map item (adds ms members)) Hp) as (p' & Ep & Rp).
    + intros Hnil%fmap_nil_inv. assert (Hx : x ∈ adds ms members) by (apply adds_elem; right; subst; by left). rewrite Hnil in Hx. by apply not_elem_of_nil in Hx.
    + split; [rewrite length_map; lia|]. apply Forall_map. eapply Forall_impl; [exact Hok|]. by intros m (_ & ? & _).
    + exists p'. rewrite Ep. cbn [mbind result_bind]. split; [by rewrite Z.add_0_l|]. by split.
  - by replace (_ || _) with true by lia.
Qed.

(** A batch with a member that is too large asks for the full form. *)
Lemma merge_refused members merged n :
  Forall (fun m => wraps (unsigned_part m) = false) members -> ~ Forall storable_member members ->
  merge_members hash encoding members merged n = Ret None.
Proof.
  intros Hw. revert merged n. induction Hw as [|m members Hm _ IH]; intros merged n Hn; [by exfalso; apply Hn|]. cbn [merge_members].
  destruct (Z.ltb_spec (Options.max_value_bytes encoding) (Z.of_nat (length m))) as [|Hle]; [done|]. destruct (encode_member m Hle) as (e & He & _ & Hsz & _). rewrite He. cbn [mbind result_bind]. rewrite Hsz.
  destruct (Z.ltb_spec kDirMaxStringBytes (Z.of_nat (length (enc m)))) as [|Hle2]; [done|].
  assert (Hr : ~ Forall storable_member members) by (intros Hf; apply Hn; constructor; [by split_and!|done]).
  destruct (existsb _ merged); by apply IH.
Qed.

Lemma add_many_refused p ms members max_entries :
  set_repr p ms -> Forall (fun m => wraps (unsigned_part m) = false) members -> ~ Forall storable_member members ->
  add_many hash junk encoding members max_entries p = Ret (mkAddMany 0 true, p).
Proof.
  intros Hr Hw Hn. unfold add_many. destruct members as [|x l] eqn:Hmem; [by exfalso; apply Hn|]. rewrite <- Hmem in *.
  rewrite (set_hdr _ _ Hr). cbn [mbind result_bind]. pose proof (for_each_repr p (map item ms) (sr_dir _ _ Hr)) as E. cbn [entry_at_ view_size_ set_format] in E. rewrite E. cbn [mbind result_bind].
  pose proof (stored_members_run p [] ms Hr) as Es. cbn [length] in Es. cbn [eview set_format]. rewrite Es. cbn [mbind result_bind].
  by rewrite merge_refused.
Qed.

(** Members that are too large never enter. *)
Lemma oversized p m max_entries :
  Options.max_value_bytes encoding < Z.of_nat (length m) \/ kDirMaxStringBytes < Z.of_nat (length (enc m)) ->
  add hash width junk encoding m max_entries p = Ret (mkAdd false true, p) /\ contains hash width encoding m p = Ret false /\ erase hash width junk encoding m p = Ret (false, p).
Proof.
  intros Hm. unfold add, contains, erase. destruct (Z.ltb_spec (Options.max_value_bytes encoding) (Z.of_nat (length m))) as [|Hle]; [done|].
  destruct Hm as [|Hm]; [lia|]. destruct (encode_member m Hle) as (e & He & _ & Hsz & _). rewrite He. cbn [mbind result_bind]. rewrite Hsz.
  by replace (_ <? _) with true by lia.
Qed.

Lemma set_repr_empty : set_repr None [].
Proof. split; [split; [split; [vm_compute; discriminate|constructor]|done]|constructor|constructor]. Qed.

(** The compact set is a set.  For a blob that holds the members [ms], whatever the hash function and
    the vector width: the size is their number; a member is found exactly when it is one of them; adding
    one that is there changes nothing, adding another one appends it if it fits and otherwise asks for the
    full form and changes nothing; removing takes out exactly the member; positions and the walk read
    the members; a batch adds its new members in order, all of them or none.  Every access stays inside
    the blob. *)
Theorem set_listpack_refines (p : Blob) (ms : list bytes) (m : bytes) :
  set_repr p ms -> storable_member m ->
  set_size p = Ret (Z.of_nat (length ms)) /\
  contains hash width encoding m p = Ret (bool_decide (m ∈ ms)) /\
  (forall max_entries,
     if decide (m ∈ ms) then add hash width junk encoding m max_entries p = Ret (mkAdd false false, p)
     else if room max_entries (ms ++ [m]) then exists p', add hash width junk encoding m max_entries p = Ret (mkAdd true false, p') /\ set_repr p' (ms ++ [m])
     else add hash width junk encoding m max_entries p = Ret (mkAdd false true, p)) /\
  (m ∉ ms -> erase hash width junk encoding m p = Ret (false, p)) /\
  (forall a b, ms = a ++ m :: b -> exists p', erase hash width junk encoding m p = Ret (true, p') /\ set_repr p' (a ++ b)) /\
  (forall a x b, ms = a ++ x :: b ->
     (exists p', erase_at_index junk (length a) p = Ret (true, p') /\ set_repr p' (a ++ b)) /\
     exists v, at_index encoding (length a) p = Ret v /\ reads_as v x) /\
  (exists views, for_each_member encoding p = Ret views /\ Forall2 reads_as views ms) /\
  (forall members max_entries, Forall storable_member members -> members <> [] ->
     if room max_entries (adds ms members)
     then exists p', add_many hash junk encoding members max_entries p = Ret (mkAddMany (Z.of_nat (length (adds ms members)) - Z.of_nat (length ms)) false, p') /\ set_repr p' (adds ms members)
     else add_many hash junk encoding members max_entries p = Ret (mkAddMany 0 true, p)).
Proof.
  intros Hr Hm. split; [unfold set_size; rewrite (set_hdr _ _ Hr); cbn; by rewrite length_map|]. split; [by apply member_contains_spec|].
  split; [intros max_entries; by apply add_spec|]. destruct (erase_spec p ms m Hr Hm) as [He1 He2]. split; [done|]. split; [done|].
  destruct (index_spec p ms Hr) as [_ Hi]. split; [done|]. split; [by apply members_walk_spec|]. intros members max_entries Hf Hne. by apply add_many_spec.
Qed.
End spec.

(** ** A concrete run *)

Section examples.
#[local] Existing Instance copy_lz4.
#[local] Existing Instance copy_lz4_correct.

(** A hash under which many members collide. *)
Definition example_hash (m : bytes) : Z := Z.of_nat (length m).
Definition example_set : list bytes := [str "a"; str "12"; str "b"].

Definition example_blob : Blob := match add_many example_hash x00 0 example_set 8 None with Ret (_, p) => p | _ => None end.

Lemma example_storable : Forall (storable_member 0) example_set.
Proof. repeat constructor; vm_compute; discriminate. Qed.

Lemma example_set_repr : set_repr example_hash 0 example_blob example_set.
Proof.
  pose proof (add_many_spec example_hash x00 0 2 ltac:(lia) None [] example_set 8 (set_repr_empty _ _) example_storable ltac:(done)) as H.
  replace (room _ _ _ _) with true in H by (vm_compute; reflexivity). destruct H as (p' & E & R). unfold example_blob. rewrite E. exact R.
Qed.

Lemma set_listpack_refines_witness :
  contains example_hash 2 0 (str "b") example_blob = Ret true /\
  exists p', erase example_hash 2 x00 0 (str "12") example_blob = Ret (true, p') /\ set_repr example_hash 0 p' [str "a"; str "b"].
Proof.
  split.
  - refine (proj1 (proj2 (set_listpack_refines example_hash x00 0 2 _ example_blob example_set (str "b") example_set_repr _))); [lia|].
    repeat constructor; vm_compute; discriminate.
  - refine (proj1 (proj2 (proj2 (proj2 (proj2 (set_listpack_refines example_hash x00 0 2 _ example_blob example_set (str "12") example_set_repr _))))) [str "a"] [str "b"] eq_refl); [lia|].
    repeat constructor; vm_compute; discriminate.
Defined.

(** A text the integer form wraps (see [StringEncoding.string_encoding_alters]) is taken for the member it wraps to. *)
Example wrapped_member_found :
  (p ← add example_hash 2 x00 0 (str "10000000000000000000") 8 None; contains example_hash 2 0 (str "28446744073709551616") p.2) = Ret true.
Proof. vm_compute. reflexivity. Qed.
End examples.
