(* ===== verification/HashListpack.v ===== *)
(** * Compact hashes

    Models [include/goblin/core/hash_listpack.hpp]: a Redis hash in one blob with a
    fingerprint directory ([Directory]), each entry the lengths and the bytes of an
    encoded field and an encoded value.  Where the blob lives (the pool or another
    storage) does not change its bytes and is not modelled. *)

From stdpp Require Import gmap.
From S2P Require Import Prelude BitMask StringEncoding StoredText Directory.
From Stdlib Require Import ZArith Lia ZifyBool.

Local Open Scope Z_scope.

Record SetResult := mkSet { set_added : bool; set_needs_full : bool }.
Record SetManyResult := mkSetMany { set_many_added : Z; set_many_needs_full : bool }.

(** [EntryView]. *)
Record HashEntry := mkHashEntry { field_ : bytes; value_ : bytes; hash_header_bytes : nat }.
Definition hash_entry_total (e : HashEntry) : nat := (hash_header_bytes e + length (field_ e) + length (value_ e))%nat.

Definition hash_entry_at (p : nat) (m : bytes) : result HashEntry :=
  '(field_len, field_bytes) ← read_length p m;
  '(value_len, value_bytes) ← read_length (p + field_bytes) m;
  let header_bytes := (field_bytes + value_bytes)%nat in
  field ← load (p + header_bytes) (Z.to_nat field_len) m;
  value ← load (p + header_bytes + Z.to_nat field_len) (Z.to_nat value_len) m;
  Ret (mkHashEntry field value header_bytes).

Definition hash_entry_size (field_len value_len : Z) : Z := packed_length_size field_len + packed_length_size value_len + field_len + value_len.

Definition hash_can_encode (entry_count payload_bytes : Z) : bool :=
  if (65535 <? entry_count) || ((kDirMaxBlobBytes - 4) / 8 <? entry_count) then false
  else payload_bytes <=? kDirMaxBlobBytes - 4 - entry_count * 8.

(** [write_entry_bytes]. *)
Definition write_entry_bytes (field_size value_size : Z) (field value : bytes) (dst : nat) (m : bytes) : result bytes :=
  '(m, payload) ← write_length dst field_size m;
  '(m, payload) ← write_length payload value_size m;
  m ← store payload field m;
  store (payload + Z.to_nat field_size) value m.

Section code.
Context {L : LZ4}.
Variable hash : bytes -> Z.
Variable width : nat.
Variable junk : byte.
Variable encoding : Z.

Definition hash_size (p : Blob) : result Z := hdr ← unpack_blob p; Ret (dcount hdr).
Definition blob_bytes (p : Blob) : result Z :=
  match p with None => Ret 0 | Some _ => hdr ← unpack_blob p; Ret (blob_size (dlen hdr) (dcount hdr)) end.

Definition find_field (field : EncodedString) (hdr : DirHeader) (needle : Z) (p : Blob) : result (option (nat * nat)) :=
  find_entry hash_entry_at field_ width (equals_encoded field) needle hdr (dmem p).

Definition field_pending (fp : Z) (field value : EncodedString) : Pending :=
  mkPending fp (hash_entry_size (encoded_size_ field) (encoded_size_ value))
    (write_entry_bytes (encoded_size_ field) (encoded_size_ value) (write_to field) (write_to value)).

Definition set (field value : bytes) (max_entries : Z) (p : Blob) : result (SetResult * Blob) :=
  if Options.max_value_bytes encoding <? Z.of_nat (length field) then Ret (mkSet false true, p)
  else
    encoded_field ← encode field encoding NeverLz4;
    encoded_value ← encode value encoding AllowLz4;
    if (kDirMaxStringBytes <? encoded_size_ encoded_field) || (kDirMaxStringBytes <? encoded_size_ encoded_value) then Ret (mkSet false true, p)
    else
      hdr ← unpack_blob p;
      let fp := fingerprint hash field in
      found ← find_field encoded_field hdr fp p;
      let new_elem := hash_entry_size (encoded_size_ encoded_field) (encoded_size_ encoded_value) in
      match found with
      | Some (off, index) =>
          old ← hash_entry_at (entries hdr + off) (dmem p);
          let old_elem := hash_entry_total old in
          if encoded_size_ encoded_value =? Z.of_nat (length (value_ old)) then
            m ← store (entries hdr + off + hash_header_bytes old + length (field_ old)) (write_to encoded_value) (dmem p);
            Ret (mkSet false false, Some m)
          else
            let projected := dlen hdr - Z.of_nat old_elem + new_elem in
            if kDirMaxBlobBytes <? blob_size projected (dcount hdr) then Ret (mkSet false true, p)
            else p ← replace_entry_at junk off index (field_pending fp encoded_field encoded_value) old_elem hdr p; Ret (mkSet false false, p)
      | None =>
          let new_count := dcount hdr + 1 in
          if (max_entries <? new_count) || (kDirMaxBlobBytes <? blob_size (dlen hdr + new_elem) new_count) then Ret (mkSet false true, p)
          else p ← append_entry junk (field_pending fp encoded_field encoded_value) hdr p; Ret (mkSet true false, p)
      end.

(** [PendingEntry]: the field and the value are stored ones or of the command. *)
Inductive PendingField := StoredField (encoded : bytes) | IncomingField (logical : bytes) (incoming : EncodedString).
Inductive PendingValue := StoredValue (encoded : bytes) | IncomingValue (incoming : EncodedString).
Record PendingPair := mkPair { pp_field : PendingField; pp_value : PendingValue; pp_fingerprint : Z }.

Definition field_equals (logical : bytes) (encoded : EncodedString) (e : PendingPair) : bool :=
  match pp_field e with StoredField stored => equals_encoded encoded stored | IncomingField own _ => bool_decide (own = logical) end.
Definition field_size (e : PendingPair) : Z := match pp_field e with StoredField stored => Z.of_nat (length stored) | IncomingField _ i => encoded_size_ i end.
Definition value_size (e : PendingPair) : Z := match pp_value e with StoredValue stored => Z.of_nat (length stored) | IncomingValue i => encoded_size_ i end.
Definition field_data (e : PendingPair) : bytes := match pp_field e with StoredField stored => stored | IncomingField _ i => write_to i end.
Definition value_data (e : PendingPair) : bytes := match pp_value e with StoredValue stored => stored | IncomingValue i => write_to i end.
Definition pair_pending (e : PendingPair) : Pending :=
  mkPending (pp_fingerprint e) (hash_entry_size (field_size e) (value_size e)) (write_entry_bytes (field_size e) (value_size e) (field_data e) (value_data e)).

Fixpoint stored_pairs (views : list HashEntry) (index : nat) (m : bytes) : result (list PendingPair) :=
  match views with
  | [] => Ret []
  | v :: views =>
      fp ← load_u8 (fingerprints + index) m;
      rest ← stored_pairs views (S index) m;
      Ret (mkPair (StoredField (field_ v)) (StoredValue (value_ v)) fp :: rest)
  end.

(** The first entry with the field takes the new value; [None] if there is none. *)
Fixpoint update_pair (same : PendingPair -> bool) (value : EncodedString) (merged : list PendingPair) : option (list PendingPair) :=
  match merged with
  | [] => None
  | e :: merged => if same e then Some (mkPair (pp_field e) (IncomingValue value) (pp_fingerprint e) :: merged) else cons e <$> update_pair same value merged
  end.

Fixpoint merge_fields (fields : list (bytes * bytes)) (merged : list PendingPair) (n : Z) : result (option (list PendingPair * Z)) :=
  match fields with
  | [] => Ret (Some (merged, n))
  | (field, value) :: fields =>
      if Options.max_value_bytes encoding <? Z.of_nat (length field) then Ret None
      else
        encoded_field ← encode field encoding NeverLz4;
        encoded_value ← encode value encoding AllowLz4;
        if (kDirMaxStringBytes <? encoded_size_ encoded_field) || (kDirMaxStringBytes <? encoded_size_ encoded_value) then Ret None
        else
          let fp := fingerprint hash field in
          match update_pair (fun e => (pp_fingerprint e =? fp) && field_equals field encoded_field e) encoded_value merged with
          | Some merged => merge_fields fields merged n
          | None => merge_fields fields (merged ++ [mkPair (IncomingField field encoded_field) (IncomingValue encoded_value) fp]) (n + 1)
          end
  end.

Definition set_many (fields : list (bytes * bytes)) (max_entries : Z) (p : Blob) : result (SetManyResult * Blob) :=
  match fields with
  | [] => Ret (mkSetMany 0 false, p)
  | _ =>
      hdr ← unpack_blob p;
      views ← for_each_encoded hash_entry_at hash_entry_total hdr (dmem p);
      stored ← stored_pairs views 0 (dmem p);
      outcome ← merge_fields fields stored 0;
      match outcome with
      | None => Ret (mkSetMany 0 true, p)
      | Some (merged, n) =>
          let es := map pair_pending merged in
          if (max_entries <? Z.of_nat (length merged)) || negb (entries_fit_in_blob es) then Ret (mkSetMany 0 true, p)
          else p ← replace_with_entries junk es; Ret (mkSetMany n false, p)
      end
  end.

Definition value_view (e : HashEntry) : EncodedStringView := stored_view encoding (value_ e).
Definition field_view (e : HashEntry) : EncodedStringView := stored_view encoding (field_ e).

Definition get (field : bytes) (p : Blob) : result (option EncodedStringView) :=
  if Options.max_value_bytes encoding <? Z.of_nat (length field) then Ret None
  else
    encoded_field ← encode field encoding NeverLz4;
    if kDirMaxStringBytes <? encoded_size_ encoded_field then Ret None
    else
      hdr ← unpack_blob p;
      found ← find_field encoded_field hdr (fingerprint hash field) p;
      match found with
      | None => Ret None
      | Some (off, _) => entry ← hash_entry_at (entries hdr + off) (dmem p); Ret (Some (value_view entry))
      end.

Definition contains (field : bytes) (p : Blob) : result bool := v ← get field p; Ret (bool_decide (is_Some v)).
Definition absent (field : bytes) (p : Blob) : result bool := b ← contains field p; Ret (negb b).

Definition erase (field : bytes) (p : Blob) : result (bool * Blob) :=
  if Options.max_value_bytes encoding <? Z.of_nat (length field) then Ret (false, p)
  else
    encoded_field ← encode field encoding NeverLz4;
    if kDirMaxStringBytes <? encoded_size_ encoded_field then Ret (false, p)
    else
      hdr ← unpack_blob p;
      found ← find_field encoded_field hdr (fingerprint hash field) p;
      match found with
      | None => Ret (false, p)
      | Some (off, index) => p ← erase_entry_at hash_entry_at hash_entry_total junk off index hdr p; Ret (true, p)
      end.

(** What [for_each] and [for_range] hand out: the text of the field and a view of the value. *)
Fixpoint handed (views : list HashEntry) : result (list (bytes * EncodedStringView)) :=
  match views with
  | [] => Ret []
  | e :: views =>
      logical ← to_string (field_view e);
      rest ← handed views;
      Ret ((logical, value_view e) :: rest)
  end.

Definition for_each (p : Blob) : result (list (bytes * EncodedStringView)) :=
  hdr ← unpack_blob p;
  views ← for_each_encoded hash_entry_at hash_entry_total hdr (dmem p);
  handed views.

Fixpoint range_from (n index : nat) (hdr : DirHeader) (m : bytes) : result (list (bytes * EncodedStringView)) :=
  match n with
  | O => Ret []
  | S n =>
      off ← offset_at hdr index m;
      entry ← hash_entry_at (entries hdr + Z.to_nat off) m;
      logical ← to_string (field_view entry);
      rest ← range_from n (S index) hdr m;
      Ret ((logical, value_view entry) :: rest)
  end.

Definition for_range (first count : nat) (p : Blob) : result (list (bytes * EncodedStringView)) :=
  hdr ← unpack_blob p;
  let stop := Nat.min (Z.to_nat (dcount hdr)) (size_add first count) in
  range_from (stop - first) first hdr (dmem p).
End code.

(** ** The entry format *)

Definition hash_entry_bytes (e : bytes * bytes) : bytes :=
  length_code (Z.of_nat (length e.1)) ++ length_code (Z.of_nat (length e.2)) ++ e.1 ++ e.2.
Definition hash_entry_view (e : bytes * bytes) : HashEntry :=
  mkHashEntry e.1 e.2 (length (length_code (Z.of_nat (length e.1))) + length (length_code (Z.of_nat (length e.2)))).

Definition hash_entry_ok (e : bytes * bytes) : Prop := Z.of_nat (length e.1) <= kDirMaxStringBytes /\ Z.of_nat (length e.2) <= kDirMaxStringBytes.

Lemma hash_entry_reads e pre post :
  hash_entry_ok e -> hash_entry_at (length pre) (pre ++ hash_entry_bytes e ++ post) = Ret (hash_entry_view e).
Proof.
  destruct e as [f v]. intros [Hf Hv]. cbn [fst snd] in *. unfold hash_entry_at, hash_entry_bytes, hash_entry_view. cbn [fst snd].
  set (lf := length_code (Z.of_nat (length f))). set (lv := length_code (Z.of_nat (length v))). rewrite <- !app_assoc.
  pose proof (read_length_code (Z.of_nat (length f)) pre (lv ++ f ++ v ++ post) ltac:(lia)) as E1. fold lf in E1. rewrite E1. cbn [mbind result_bind].
  pose proof (read_length_code (Z.of_nat (length v)) (pre ++ lf) (f ++ v ++ post) ltac:(lia)) as E2. fold lv in E2. rewrite <- app_assoc, length_app in E2. rewrite E2. cbn [mbind result_bind].
  rewrite !Nat2Z.id.
  pose proof (load_app (pre ++ lf ++ lv) f (v ++ post) (length pre + (length lf + length lv)) (length f) ltac:(by rewrite !length_app) eq_refl) as E3.
  rewrite <- !app_assoc in E3. rewrite E3. cbn [mbind result_bind].
  pose proof (load_app (pre ++ lf ++ lv ++ f) v post (length pre + (length lf + length lv) + length f) (length v) ltac:(rewrite !length_app; lia) eq_refl) as E4.
  rewrite <- !app_assoc in E4. by rewrite E4.
Qed.

#[global] Instance hash_format : EntryFormat (bytes * bytes) HashEntry.
Proof.
  refine {| entry_at_ := hash_entry_at; view_key_ := field_; view_size_ := hash_entry_total; ebytes := hash_entry_bytes; eview := hash_entry_view; eok := hash_entry_ok |}.
  - intros e pre post He. by apply hash_entry_reads.
  - intros [f v] _. unfold hash_entry_bytes, hash_entry_total, hash_entry_view. cbn. rewrite !length_app. lia.
  - intros [f v]. unfold hash_entry_bytes, length_code. rewrite !length_app. destruct (_ <=? _); cbn; lia.
Defined.

Lemma hash_entry_size_bytes e : hash_entry_size (Z.of_nat (length e.1)) (Z.of_nat (length e.2)) = Z.of_nat (length (hash_entry_bytes e)).
Proof. unfold hash_entry_size, hash_entry_bytes. rewrite !length_app, <- !length_length_code. lia. Qed.

Lemma write_entry_pends junk fp f v :
  hash_entry_ok (f, v) ->
  pends junk (mkPending fp (hash_entry_size (Z.of_nat (length f)) (Z.of_nat (length v))) (write_entry_bytes (Z.of_nat (length f)) (Z.of_nat (length v)) f v)) (b8 fp) (f, v).
Proof.
  intros [Hf Hv]. cbn [fst snd] in *. split; [done|apply (hash_entry_size_bytes (f, v))|]. intros w rest. cbn [pe_write ebytes hash_format]. unfold write_entry_bytes, hash_entry_bytes. cbn [fst snd].
  set (lf := length_code (Z.of_nat (length f))). set (lv := length_code (Z.of_nat (length v))). rewrite !length_app.
  rewrite (write_length_code junk (length lv + length f + length v + rest)) by (done || fold lf; lia). cbn [mbind result_bind]. fold lf.
  rewrite (write_length_code junk (length f + length v + rest)) by (rewrite ?length_app; done || fold lv; lia). cbn [mbind result_bind]. fold lv.
  rewrite (store_next (length v + rest)) by (rewrite ?length_app; lia). cbn [mbind result_bind]. rewrite Nat2Z.id.
  rewrite (store_next rest) by (rewrite ?length_app; lia). by rewrite <- !app_assoc.
Qed.

(** ** The hash a blob holds *)

Section spec.
Context {L : LZ4} {LC : LZ4Correct L}.
Variable hash : bytes -> Z.
Variable junk : byte.
Variable encoding : Z.

Definition fenc (f : bytes) : bytes := stored_form encoding NeverLz4 f.
Definition venc (v : bytes) : bytes := stored_form encoding AllowLz4 v.

Definition storable_field (f : bytes) : Prop :=
  Z.of_nat (length f) <= Options.max_value_bytes encoding /\ Z.of_nat (length (fenc f)) <= kDirMaxStringBytes /\ wraps (unsigned_part f) = false.
Definition storable_value (v : bytes) : Prop := faithful encoding AllowLz4 v /\ Z.of_nat (length (venc v)) <= kDirMaxStringBytes.
Definition storable_pair (kv : bytes * bytes) : Prop := storable_field kv.1 /\ storable_value kv.2.

(** Texts that are stored as they are: the integer reader does not wrap them, and the value can be encoded at all. *)
Definition plain_pair (kv : bytes * bytes) : Prop := wraps (unsigned_part kv.1) = false /\ faithful encoding AllowLz4 kv.2.

(** What the compact form takes. *)
Definition field_admitted (f : bytes) : bool := (Z.of_nat (length f) <=? Options.max_value_bytes encoding) && (Z.of_nat (length (fenc f)) <=? kDirMaxStringBytes).
Definition admitted (kv : bytes * bytes) : bool := field_admitted kv.1 && (Z.of_nat (length (venc kv.2)) <=? kDirMaxStringBytes).

Lemma field_admitted_storable f : wraps (unsigned_part f) = false -> field_admitted f = true -> storable_field f.
Proof. unfold field_admitted. intros Hw [? ?]%andb_true_iff. split_and!; [lia|lia|done]. Qed.

Lemma admitted_storable kv : plain_pair kv -> admitted kv = true -> storable_pair kv.
Proof. unfold admitted. intros [Hw Hv] [Hf Hl]%andb_true_iff. split; [by apply field_admitted_storable|]. split; [done|lia]. Qed.

Definition pair_item (kv : bytes * bytes) : byte * (bytes * bytes) := (b8 (fingerprint hash kv.1), (fenc kv.1, venc kv.2)).

Record hash_repr (p : Blob) (kvs : list (bytes * bytes)) : Prop := mkHashRepr {
  hr_dir : dir_repr p (map pair_item kvs);
  hr_distinct : NoDup kvs.*1;
  hr_pairs : Forall storable_pair kvs;
}.

Lemma field_faithful f : storable_field f -> faithful encoding NeverLz4 f.
Proof. intros (H1 & _ & H3). split; [by apply encode_short|done]. Qed.

Lemma fenc_inj f f' : storable_field f -> storable_field f' -> fenc f = fenc f' -> f = f'.
Proof. intros H1%field_faithful H2%field_faithful. by apply stored_inj. Qed.

Lemma pair_item_ok kv : storable_pair kv -> hash_entry_ok (fenc kv.1, venc kv.2).
Proof. by intros [(_ & ? & _) [_ ?]]. Qed.

Lemma hash_hdr p kvs : hash_repr p kvs -> unpack_blob p = Ret (hdr_of (map pair_item kvs)).
Proof. intros [Hd _ _]. apply unpack_repr_dir, Hd. Qed.

Lemma pair_fingerprint f : u8 (b8 (fingerprint hash f)) = fingerprint hash f.
Proof. apply u8_b8_small. apply (wrap_range 8). lia. Qed.

Lemma hit_pair e f kv :
  encode f encoding NeverLz4 = Ret e -> storable_field f -> storable_field kv.1 -> hit (equals_encoded e) (fingerprint hash f) (pair_item kv) <-> kv.1 = f.
Proof.
  intros He Hf Hk. destruct (encode_stored encoding _ _ _ He) as (_ & _ & Heq). unfold hit, pair_item. cbn [fst snd view_key_ eview hash_format hash_entry_view field_].
  rewrite pair_fingerprint, Heq, bool_decide_eq_true. split; [|by intros <-]. intros [_ E]. by apply fenc_inj.
Qed.

Variable width : nat.
Hypothesis Hwidth : (0 < width)%nat.

Lemma find_field_spec p kvs f e :
  hash_repr p kvs -> storable_field f -> encode f encoding NeverLz4 = Ret e ->
  (f ∉ kvs.*1 -> find_field width e (hdr_of (map pair_item kvs)) (fingerprint hash f) p = Ret None) /\
  (forall a v b, kvs = a ++ (f, v) :: b -> find_field width e (hdr_of (map pair_item kvs)) (fingerprint hash f) p = Ret (Some (length (area (map pair_item a)), length a))).
Proof.
  intros [Hd Hn Hok] Hf He.
  assert (Hfind : find_field width e (hdr_of (map pair_item kvs)) (fingerprint hash f) p = Ret (found_from (equals_encoded e) (fingerprint hash f) [] (map pair_item kvs))).
  { apply (find_entry_repr (equals_encoded e) (fingerprint hash f) width Hwidth p (map pair_item kvs) Hd). }
  rewrite Hfind.
  assert (Hnone : forall l, Forall storable_pair l -> f ∉ l.*1 -> list_find (hit (equals_encoded e) (fingerprint hash f)) (map pair_item l) = None).
  { intros l Hl Hin. apply list_find_None, Forall_map, Forall_forall. intros kv Hkv Hh. rewrite Forall_forall in Hl.
    apply (hit_pair e f kv He Hf (proj1 (Hl _ Hkv))) in Hh. apply Hin. rewrite <- Hh. by apply list_elem_of_fmap_2. }
  split.
  - intros Hin. unfold found_from. by rewrite Hnone.
  - intros a v b ->. f_equal. rewrite map_app. cbn [map]. apply Forall_app in Hok as [Hoka _]. rewrite fmap_app in Hn. apply NoDup_app in Hn as (_ & Hdis & _).
    rewrite found_first; [by rewrite !app_nil_l, length_map|by apply hit_pair|]. apply Hnone; [done|]. intros Ha. apply (Hdis f Ha). by left.
Qed.

Lemma field_get_spec p kvs f :
  hash_repr p kvs -> storable_field f ->
  (f ∉ kvs.*1 -> get hash width encoding f p = Ret None) /\
  (forall a v b, kvs = a ++ (f, v) :: b -> exists view, get hash width encoding f p = Ret (Some view) /\ reads_as view v).
Proof.
  intros Hr Hf. pose proof Hf as (Hf1 & Hf2 & _). destruct (encode_short encoding NeverLz4 f Hf1) as [e He]. destruct (encode_stored _ _ _ _ He) as (Hen & Hsz & _). fold (fenc f) in Hsz.
  destruct (find_field_spec p kvs f e Hr Hf He) as [Hno Hyes].
  unfold get. replace (_ <? _) with false by lia. rewrite He. cbn [mbind result_bind]. rewrite Hsz. replace (_ <? _) with false by lia. rewrite (hash_hdr _ _ Hr). cbn [mbind result_bind]. split.
  - intros Hin. by rewrite (Hno Hin).
  - intros a v b ->. rewrite (Hyes a v b eq_refl). cbn [mbind result_bind]. destruct Hr as [Hd _ Hok]. rewrite (dmem_repr _ _ Hd) by (by destruct a). rewrite map_app in Hd |- *.
    pose proof (entry_dir (map pair_item a) (pair_item (f, v)) (map pair_item b) (proj1 Hd)) as E. cbn [entry_at_ hash_format] in E. cbn [map]. rewrite E. cbn [mbind result_bind].
    eexists. split; [done|]. apply Forall_app in Hok as [_ [[_ [Hv _]] _]%Forall_cons]. by apply stored_reads.
Qed.

Lemma field_erase_spec p kvs f :
  hash_repr p kvs -> storable_field f ->
  (f ∉ kvs.*1 -> erase hash width junk encoding f p = Ret (false, p)) /\
  (forall a v b, kvs = a ++ (f, v) :: b -> exists p', erase hash width junk encoding f p = Ret (true, p') /\ hash_repr p' (a ++ b)).
Proof.
  intros Hr Hf. pose proof Hf as (Hf1 & Hf2 & _). destruct (encode_short encoding NeverLz4 f Hf1) as [e He]. destruct (encode_stored _ _ _ _ He) as (Hen & Hsz & _). fold (fenc f) in Hsz.
  destruct (find_field_spec p kvs f e Hr Hf He) as [Hno Hyes].
  unfold erase. replace (_ <? _) with false by lia. rewrite He. cbn [mbind result_bind]. rewrite Hsz. replace (_ <? _) with false by lia. rewrite (hash_hdr _ _ Hr). cbn [mbind result_bind]. split.
  - intros Hin. by rewrite (Hno Hin).
  - intros a v b ->. rewrite (Hyes a v b eq_refl). cbn [mbind result_bind]. destruct Hr as [Hd Hn Hok]. rewrite map_app in Hd |- *.
    destruct (erase_repr junk p (map pair_item a) (pair_item (f, v)) (map pair_item b) Hd) as (p' & E & R). rewrite length_map in E. cbn [entry_at_ view_size_ hash_format] in E. exists p'. cbn [map]. rewrite E. split; [done|].
    split; [by rewrite map_app| |apply Forall_app in Hok as [? [? ?]%Forall_cons]; by apply Forall_app].
    rewrite fmap_app in Hn |- *. cbn [fmap list_fmap fst] in Hn. rewrite <- Permutation_middle in Hn. by apply NoDup_cons in Hn as [_ ?].
Qed.

(** *** Writing *)

(** The field takes the value in its place, or comes last. *)
Fixpoint put (f v : bytes) (kvs : list (bytes * bytes)) : list (bytes * bytes) :=
  match kvs with
  | [] => [(f, v)]
  | kv :: kvs => if decide (kv.1 = f) then (f, v) :: kvs else kv :: put f v kvs
  end.

Lemma put_absent f v kvs : f ∉ kvs.*1 -> put f v kvs = kvs ++ [(f, v)].
Proof.
  induction kvs as [|kv kvs IH]; [done|]. cbn [fmap list_fmap put app]. rewrite not_elem_of_cons. intros [Hn Hin]. rewrite decide_False by congruence. by rewrite IH.
Qed.

Lemma put_present f v w (a b : list (bytes * bytes)) : f ∉ a.*1 -> put f v (a ++ (f, w) :: b) = a ++ (f, v) :: b.
Proof.
  induction a as [|kv a IH]; cbn [app put]; [by rewrite decide_True|]. cbn [fmap list_fmap]. rewrite not_elem_of_cons. intros [Hn Hin]. rewrite decide_False by congruence. by rewrite IH.
Qed.

(** The two cases of a field. *)
Lemma field_cases (f : bytes) (kvs : list (bytes * bytes)) : f ∉ kvs.*1 \/ exists a w b, kvs = a ++ (f, w) :: b /\ f ∉ a.*1.
Proof.
  induction kvs as [|[f' w] kvs IH]; [left; apply not_elem_of_nil|]. destruct (decide (f' = f)) as [->|Hn].
  - right. exists [], w, kvs. split; [done|apply not_elem_of_nil].
  - destruct IH as [IH|(a & w' & b & -> & Ha)].
    + left. cbn. apply not_elem_of_cons. by split.
    + right. exists ((f', w) :: a), w', b. split; [done|]. cbn. apply not_elem_of_cons. by split.
Qed.

Lemma put_fields f v kvs : (put f v kvs).*1 = if decide (f ∈ kvs.*1) then kvs.*1 else kvs.*1 ++ [f].
Proof.
  destruct (field_cases f kvs) as [Hn|(a & w & b & -> & Ha)].
  - rewrite put_absent, decide_False, fmap_app by done. done.
  - rewrite put_present, decide_True; [by rewrite !fmap_app|rewrite fmap_app; apply elem_of_app; right; by left|done].
Qed.

Lemma put_good f v kvs : NoDup kvs.*1 -> Forall storable_pair kvs -> storable_pair (f, v) -> NoDup (put f v kvs).*1 /\ Forall storable_pair (put f v kvs).
Proof.
  intros Hn Hok Hp. split.
  - rewrite put_fields. destruct (decide _) as [|Hin]; [done|]. apply NoDup_app. split_and!; [done|intros y Hy ->%list_elem_of_singleton; done|apply NoDup_singleton].
  - destruct (field_cases f kvs) as [Hnf|(a & w & b & -> & Ha)]; [rewrite put_absent by done|rewrite put_present by done; apply Forall_app in Hok as [? [? ?]%Forall_cons]]; apply Forall_app; split; auto.
Qed.

(** As maps. *)
Lemma put_map f v kvs : list_to_map (put f v kvs) =@{gmap bytes bytes} <[f := v]> (list_to_map kvs).
Proof.
  destruct (field_cases f kvs) as [Hnf|(a & w & b & -> & Ha)].
  - rewrite put_absent, list_to_map_snoc by done. done.
  - rewrite put_present by done. rewrite !list_to_map_app. cbn [list_to_map foldr fst snd]. rewrite insert_union_r by (by apply not_elem_of_list_to_map). by rewrite insert_insert_eq.
Qed.

(** The pairs fit in a blob. *)
Definition fits (kvs : list (bytes * bytes)) : bool :=
  blob_size (Z.of_nat (length (area (map pair_item kvs)))) (Z.of_nat (length kvs)) <=? kDirMaxBlobBytes.

Lemma dir_fits_pairs kvs : Forall storable_pair kvs -> fits kvs = true -> dir_fits (map pair_item kvs).
Proof.
  intros Hok Hf. unfold fits in Hf. split; [rewrite length_map; lia|]. apply Forall_map. eapply Forall_impl; [exact Hok|]. intros kv Hkv. by apply pair_item_ok.
Qed.

Lemma area_split a kv b : length (area (map pair_item (a ++ kv :: b))) = (length (area (map pair_item a)) + length (hash_entry_bytes (fenc kv.1, venc kv.2)) + length (area (map pair_item b)))%nat.
Proof. rewrite map_app, area_app. cbn [map]. rewrite area_cons, !length_app. cbn [pair_item snd ebytes hash_format]. lia. Qed.

Lemma field_pends f v ef ev :
  storable_pair (f, v) -> encode f encoding NeverLz4 = Ret ef -> encode v encoding AllowLz4 = Ret ev ->
  pends junk (field_pending (fingerprint hash f) ef ev) (b8 (fingerprint hash f)) (fenc f, venc v).
Proof.
  intros Hp Hf Hv. destruct (encode_stored _ _ _ _ Hf) as (Hfe & Hfs & _), (encode_stored _ _ _ _ Hv) as (Hve & Hvs & _).
  unfold field_pending. rewrite Hfs, Hvs, <- Hfe, <- Hve. fold (fenc f) (venc v). apply write_entry_pends, (pair_item_ok _ Hp).
Qed.

Lemma set_absent p kvs f v ef ev :
  hash_repr p kvs -> storable_pair (f, v) -> encode f encoding NeverLz4 = Ret ef -> encode v encoding AllowLz4 = Ret ev -> fits (kvs ++ [(f, v)]) = true -> f ∉ kvs.*1 ->
  exists p', append_entry junk (field_pending (fingerprint hash f) ef ev) (hdr_of (map pair_item kvs)) p = Ret p' /\ hash_repr p' (put f v kvs).
Proof.
  intros Hr Hp Hf Hv Hfit Hin. pose proof (field_pends f v ef ev Hp Hf Hv) as Hpe.
  destruct (append_repr junk p (map pair_item kvs) _ _ _ (hr_dir _ _ Hr) Hpe (pair_item_ok _ Hp)) as (p' & E & R).
  - rewrite (pd_size _ _ _ _ Hpe). unfold fits in Hfit. rewrite area_split, length_app in Hfit. cbn [length map fst snd] in Hfit. change (area []) with (@nil byte) in Hfit. cbn [length] in Hfit.
    rewrite length_map. cbn [ebytes hash_format]. unfold blob_size in *. lia.
  - exists p'. split; [done|]. destruct (put_good f v kvs (hr_distinct _ _ Hr) (hr_pairs _ _ Hr) Hp) as [H1 H2]. split; [|done|done]. rewrite put_absent by done. by rewrite map_app.
Qed.

(** The value of a field that is there: in place when the length is the same, else in a blob of its own. *)
Lemma set_in_place p a f w b v :
  hash_repr p (a ++ (f, w) :: b) -> storable_pair (f, v) -> length (venc v) = length (venc w) ->
  let old := hash_entry_view (fenc f, venc w) in
  exists m, store (entries (hdr_of (map pair_item (a ++ (f, w) :: b))) + length (area (map pair_item a)) + hash_header_bytes old + length (field_ old)) (venc v) (dmem p) = Ret m /\
    hash_repr (Some m) (a ++ (f, v) :: b).
Proof.
  intros [Hd Hn Hok] Hp Hl old. rewrite map_app in Hd |- *. cbn [map] in Hd |- *.
  set (u := length_code (Z.of_nat (length (fenc f))) ++ length_code (Z.of_nat (length (venc w))) ++ fenc f).
  destruct (overwrite_repr p (map pair_item a) (pair_item (f, w)) (map pair_item b) (fenc f, venc v) u (venc w) [] (venc v) Hd) as (m & E & R).
  - unfold u. cbn [pair_item snd ebytes hash_format]. unfold hash_entry_bytes. cbn [fst snd]. by rewrite app_nil_r, <- !app_assoc.
  - unfold u. cbn [ebytes hash_format]. unfold hash_entry_bytes. cbn [fst snd]. by rewrite Hl, app_nil_r, <- !app_assoc.
  - done.
  - apply (pair_item_ok _ Hp).
  - exists m. split.
    + rewrite <- E. f_equal. unfold u, old, hash_entry_view. cbn [hash_header_bytes field_ fst snd]. rewrite !length_app. lia.
    + split; [by rewrite map_app|by rewrite fmap_app in Hn |- *|apply Forall_app in Hok as [? [? ?]%Forall_cons]; apply Forall_app; split; auto].
Qed.

Lemma set_rebuilt p a f w b v ef ev :
  hash_repr p (a ++ (f, w) :: b) -> storable_pair (f, v) -> encode f encoding NeverLz4 = Ret ef -> encode v encoding AllowLz4 = Ret ev -> fits (a ++ (f, v) :: b) = true ->
  exists p', replace_entry_at junk (length (area (map pair_item a))) (length a) (field_pending (fingerprint hash f) ef ev) (hash_entry_total (hash_entry_view (fenc f, venc w)))
      (hdr_of (map pair_item (a ++ (f, w) :: b))) p = Ret p' /\ hash_repr p' (a ++ (f, v) :: b).
Proof.
  intros [Hd Hn Hok] Hp Hf Hv Hfit.
  assert (Hok' : Forall storable_pair (a ++ (f, v) :: b)) by (apply Forall_app in Hok as [? [? ?]%Forall_cons]; apply Forall_app; split; auto).
  pose proof (dir_fits_pairs _ Hok' Hfit) as Hdf. rewrite map_app in Hd, Hdf |- *. cbn [map] in Hd, Hdf |- *.
  destruct (replace_entry_repr junk p (map pair_item a) (pair_item (f, w)) (map pair_item b) _ _ Hd (field_pends f v ef ev Hp Hf Hv) (pair_item_ok _ Hp) Hdf) as (p' & E & R).
  exists p'. split.
  - rewrite length_map in E. rewrite <- E. f_equal. apply (view_size_length (EntryFormat:=hash_format) (fenc f, venc w)), (pair_item_ok (f, w)). by apply Forall_app in Hok as [_ [? _]%Forall_cons].
  - split; [by rewrite map_app|by rewrite fmap_app in Hn |- *|done].
Qed.

(** [set] takes the pair: the field is there or may be added, and the pairs fit. *)
Definition takes (max_entries : Z) (kvs : list (bytes * bytes)) (f v : bytes) : bool :=
  (bool_decide (f ∈ kvs.*1) || (Z.of_nat (length (put f v kvs)) <=? max_entries)) && fits (put f v kvs).

Lemma hash_fits p kvs : hash_repr p kvs -> fits kvs = true.
Proof. intros [[[Hd _] _] _ _]. unfold fits. rewrite length_map in Hd. lia. Qed.

Lemma fits_split a kv b :
  fits (a ++ kv :: b) = (blob_size (Z.of_nat (length (area (map pair_item a)) + length (hash_entry_bytes (fenc kv.1, venc kv.2)) + length (area (map pair_item b)))) (Z.of_nat (length a + S (length b))) <=? kDirMaxBlobBytes).
Proof. unfold fits. by rewrite area_split, length_app. Qed.

Lemma same_length_fits a f w v b : length (venc v) = length (venc w) -> fits (a ++ (f, v) :: b) = fits (a ++ (f, w) :: b).
Proof. intros Hl. rewrite !fits_split. cbn [fst snd]. unfold hash_entry_bytes. cbn [fst snd]. by rewrite !length_app, Hl. Qed.

(** The checks before the lookup pass. *)
Lemma set_enters p kvs f v max_entries :
  hash_repr p kvs -> storable_pair (f, v) ->
  exists ef ev, encode f encoding NeverLz4 = Ret ef /\ encode v encoding AllowLz4 = Ret ev /\ write_to ev = venc v /\
  set hash width junk encoding f v max_entries p =
    (let hdr := hdr_of (map pair_item kvs) in
     let new_elem := Z.of_nat (length (hash_entry_bytes (fenc f, venc v))) in
     found ← find_field width ef hdr (fingerprint hash f) p;
     match found with
     | Some (off, index) =>
         old ← hash_entry_at (entries hdr + off) (dmem p);
         if Z.of_nat (length (venc v)) =? Z.of_nat (length (value_ old)) then
           m ← store (entries hdr + off + hash_header_bytes old + length (field_ old)) (venc v) (dmem p);
           Ret (mkSet false false, Some m)
         else
           if kDirMaxBlobBytes <? blob_size (dlen hdr - Z.of_nat (hash_entry_total old) + new_elem) (dcount hdr) then Ret (mkSet false true, p)
           else p ← replace_entry_at junk off index (field_pending (fingerprint hash f) ef ev) (hash_entry_total old) hdr p; Ret (mkSet false false, p)
     | None =>
         if (max_entries <? dcount hdr + 1) || (kDirMaxBlobBytes <? blob_size (dlen hdr + new_elem) (dcount hdr + 1)) then Ret (mkSet false true, p)
         else p ← append_entry junk (field_pending (fingerprint hash f) ef ev) hdr p; Ret (mkSet true false, p)
     end).
Proof.
  intros Hr [(Hf1 & Hf2 & _) [[[ev Hev] _] Hv2]]. cbn [fst snd] in *. destruct (encode_short encoding NeverLz4 f Hf1) as [ef Hef].
  destruct (encode_stored _ _ _ _ Hef) as (_ & Hsf & _), (encode_stored _ _ _ _ Hev) as (Hve & Hsv & _). fold (fenc f) in Hsf. fold (venc v) in Hsv, Hve.
  exists ef, ev. split_and!; [done..|]. unfold set. replace (_ <? _) with false by lia. rewrite Hef. cbn [mbind result_bind]. rewrite Hev. cbn [mbind result_bind].
  rewrite Hsf, Hsv. replace (_ || _) with false by lia. pose proof (hash_entry_size_bytes (fenc f, venc v)) as Hes. cbn [fst snd] in Hes.
  by rewrite (hash_hdr _ _ Hr), <- Hve, Hes.
Qed.

Lemma set_new p kvs f v max_entries :
  hash_repr p kvs -> storable_pair (f, v) -> f ∉ kvs.*1 ->
  if (Z.of_nat (length (put f v kvs)) <=? max_entries) && fits (put f v kvs)
  then exists p', set hash width junk encoding f v max_entries p = Ret (mkSet true false, p') /\ hash_repr p' (put f v kvs)
  else set hash width junk encoding f v max_entries p = Ret (mkSet false true, p).
Proof.
  intros Hr Hp Hin. destruct (set_enters p kvs f v max_entries Hr Hp) as (ef & ev & Hef & Hev & _ & ->). cbv zeta.
  rewrite (proj1 (find_field_spec p kvs f ef Hr (proj1 Hp) Hef) Hin). cbn [mbind result_bind].
  pose proof (set_absent p kvs f v ef ev Hr Hp Hef Hev) as Happ. rewrite put_absent in * by done. rewrite fits_split in *. rewrite length_app.
  cbn [length map fst snd hdr_of dlen dcount] in *. change (area []) with (@nil byte) in *. cbn [length] in *. rewrite !length_map.
  destruct ((_ <=? max_entries) && _) eqn:Hroom.
  - replace (_ || _) with false by (unfold blob_size in *; lia). destruct Happ as (p' & E & R); [lia|done|]. unfold hdr_of in E |- *. rewrite ?length_map in E |- *. exists p'. by rewrite E.
  - by replace (_ || _) with true by (unfold blob_size in *; lia).
Qed.

Lemma set_old p a f w b v max_entries :
  hash_repr p (a ++ (f, w) :: b) -> storable_pair (f, v) ->
  if fits (a ++ (f, v) :: b)
  then exists p', set hash width junk encoding f v max_entries p = Ret (mkSet false false, p') /\ hash_repr p' (a ++ (f, v) :: b)
  else set hash width junk encoding f v max_entries p = Ret (mkSet false true, p).
Proof.
  intros Hr Hp. destruct (set_enters p _ f v max_entries Hr Hp) as (ef & ev & Hef & Hev & Hve & ->). cbv zeta.
  rewrite (proj2 (find_field_spec p _ f ef Hr (proj1 Hp) Hef) a w b eq_refl). cbn [mbind result_bind].
  assert (Hget : hash_entry_at (entries (hdr_of (map pair_item (a ++ (f, w) :: b))) + length (area (map pair_item a))) (dmem p) = Ret (hash_entry_view (fenc f, venc w))).
  { rewrite (dmem_repr _ _ (hr_dir _ _ Hr)) by (by destruct a). pose proof (hr_dir _ _ Hr) as Hd. rewrite map_app in Hd |- *. apply (entry_dir (map pair_item a) (pair_item (f, w)) (map pair_item b) (proj1 Hd)). }
  rewrite Hget. cbn [mbind result_bind]. cbn [value_ hash_entry_view snd]. destruct (Z.eqb_spec (Z.of_nat (length (venc v))) (Z.of_nat (length (venc w)))) as [Hl|Hl].
  - rewrite (same_length_fits a f w v b), (hash_fits _ _ Hr) by lia. destruct (set_in_place p a f w b v Hr Hp) as (m & E & R); [lia|]. rewrite E. by eexists.
  - pose proof (set_rebuilt p a f w b v ef ev Hr Hp Hef Hev) as Hre.
    assert (Ht : hash_entry_total (hash_entry_view (fenc f, venc w)) = length (hash_entry_bytes (fenc f, venc w))).
    { apply (view_size_length (EntryFormat:=hash_format) (fenc f, venc w)), (pair_item_ok (f, w)). by apply hr_pairs, Forall_app in Hr as [_ [? _]%Forall_cons]. }
    replace (kDirMaxBlobBytes <? _) with (negb (fits (a ++ (f, v) :: b))).
    2: { rewrite fits_split. cbn [hdr_of dlen dcount fst snd]. rewrite Ht, area_split, length_map, length_app. cbn [length fst snd]. unfold blob_size. lia. }
    destruct (fits _); cbn [negb]; [|done]. destruct (Hre eq_refl) as (p' & E & R). rewrite E. by exists p'.
Qed.

Lemma field_set_spec p kvs f v max_entries :
  hash_repr p kvs -> storable_pair (f, v) ->
  if takes max_entries kvs f v
  then exists p', set hash width junk encoding f v max_entries p = Ret (mkSet (negb (bool_decide (f ∈ kvs.*1))) false, p') /\ hash_repr p' (put f v kvs)
  else set hash width junk encoding f v max_entries p = Ret (mkSet false true, p).
Proof.
  intros Hr Hp. unfold takes. destruct (field_cases f kvs) as [Hin|(a & w & b & -> & Ha)].
  - rewrite (bool_decide_eq_false_2 _ Hin). by apply set_new.
  - rewrite put_present by done. rewrite bool_decide_eq_true_2 by (rewrite fmap_app; apply elem_of_app; right; by left). by apply (set_old p a f w b v).
Qed.

(** *** Several pairs at once *)

Definition puts (kvs fields : list (bytes * bytes)) : list (bytes * bytes) := foldl (fun kvs fv => put fv.1 fv.2 kvs) kvs fields.

(** What [set_many] keeps of a pair. *)
Record held (e : PendingPair) (kv : bytes * bytes) : Prop := mkHeld {
  hd_field : field_data e = fenc kv.1;
  hd_field_size : field_size e = Z.of_nat (length (fenc kv.1));
  hd_value : value_data e = venc kv.2;
  hd_value_size : value_size e = Z.of_nat (length (venc kv.2));
  hd_fingerprint : pp_fingerprint e = fingerprint hash kv.1;
  hd_equals : forall q enc_q, encode q encoding NeverLz4 = Ret enc_q -> storable_field q -> field_equals q enc_q e = bool_decide (kv.1 = q);
}.

Definition stored_pair (kv : bytes * bytes) : PendingPair := mkPair (StoredField (fenc kv.1)) (StoredValue (venc kv.2)) (fingerprint hash kv.1).

Lemma held_stored_pair kv : storable_field kv.1 -> held (stored_pair kv) kv.
Proof.
  intros Hk. split; try done. intros q e He Hq. destruct (encode_stored _ _ _ _ He) as (_ & _ & Heq). cbn. rewrite Heq. apply bool_decide_ext. split; [by apply fenc_inj|by intros <-].
Qed.

Lemma held_incoming_pair f v ef ev :
  encode f encoding NeverLz4 = Ret ef -> encode v encoding AllowLz4 = Ret ev -> held (mkPair (IncomingField f ef) (IncomingValue ev) (fingerprint hash f)) (f, v).
Proof. intros Hf Hv. destruct (encode_stored _ _ _ _ Hf) as (Hfe & Hfs & _), (encode_stored _ _ _ _ Hv) as (Hve & Hvs & _). by split. Qed.

Lemma held_with_value e kv v ev : encode v encoding AllowLz4 = Ret ev -> held e kv -> held (mkPair (pp_field e) (IncomingValue ev) (pp_fingerprint e)) (kv.1, v).
Proof. intros Hv [H1 H2 _ _ H5 H6]. destruct (encode_stored _ _ _ _ Hv) as (Hve & Hvs & _). by split. Qed.

Lemma held_pair_pends merged kvs : Forall storable_pair kvs -> Forall2 held merged kvs -> Forall2 (fun pe x => pends junk pe x.1 x.2) (map pair_pending merged) (map pair_item kvs).
Proof.
  intros Hok Hh. induction Hh as [|e kv merged kvs [H1 H2 H3 H4 H5 _] _ IH]; cbn [map]; [constructor|]. apply Forall_cons in Hok as [Hk Hok]. constructor; [|by apply IH].
  unfold pair_pending. rewrite H1, H2, H3, H4, H5. apply write_entry_pends, (pair_item_ok _ Hk).
Qed.

Lemma stored_pairs_run p a b :
  hash_repr p (a ++ b) -> stored_pairs (map (fun x => hash_entry_view x.2) (map pair_item b)) (length a) (dmem p) = Ret (map stored_pair b).
Proof.
  intros Hr. revert a Hr. induction b as [|kv b IH]; intros a Hr; [done|]. cbn [map stored_pairs].
  assert (Hl : load_u8 (fingerprints + length a) (dmem p) = Ret (fingerprint hash kv.1)).
  { destruct Hr as [Hd _ _]. rewrite (dmem_repr _ _ Hd) by (by destruct a). rewrite map_app. rewrite <- (length_map pair_item a). cbn [map]. rewrite load_fingerprint. cbn. by rewrite pair_fingerprint. }
  rewrite Hl. cbn [mbind result_bind]. specialize (IH (a ++ [kv])). rewrite <- app_assoc, length_app in IH. cbn [app length] in IH. rewrite Nat.add_1_r in IH. by rewrite IH.
Qed.

Lemma stored_views_run p kvs : hash_repr p kvs -> for_each_encoded hash_entry_at hash_entry_total (hdr_of (map pair_item kvs)) (dmem p) = Ret (map (fun x => hash_entry_view x.2) (map pair_item kvs)).
Proof. intros Hr. exact (for_each_repr p (map pair_item kvs) (hr_dir _ _ Hr)). Qed.

Lemma stored_held p kvs : hash_repr p kvs -> Forall2 held (map stored_pair kvs) kvs.
Proof. intros Hr. pose proof (hr_pairs _ _ Hr) as Hok. clear -Hok LC. induction Hok as [|m ms Hm _ IH]; cbn [map]; [constructor|]. constructor; [by apply held_stored_pair, Hm|done]. Qed.

(** The search for the field among the merged entries. *)
Lemma update_run merged kvs f v ef ev :
  Forall2 held merged kvs -> storable_field f -> encode f encoding NeverLz4 = Ret ef -> encode v encoding AllowLz4 = Ret ev ->
  match update_pair (fun e => (pp_fingerprint e =? fingerprint hash f) && field_equals f ef e) ev merged with
  | Some merged' => f ∈ kvs.*1 /\ Forall2 held merged' (put f v kvs)
  | None => f ∉ kvs.*1
  end.
Proof.
  intros Hh Hf Hef Hev. induction Hh as [|e kv merged kvs He Hh IH]; cbn [update_pair put fmap list_fmap]; [apply not_elem_of_nil|].
  rewrite (hd_fingerprint _ _ He), (hd_equals _ _ He f ef Hef Hf). destruct (decide (kv.1 = f)) as [Hk|Hk].
  - rewrite Hk, Z.eqb_refl, bool_decide_eq_true_2 by done. cbn [andb]. split; [left|]. constructor; [|done]. rewrite <- Hk, <- (hd_fingerprint _ _ He). by apply held_with_value.
  - rewrite bool_decide_eq_false_2, andb_false_r by done. destruct (update_pair _ _ merged) as [merged'|]; cbn [fmap option_fmap option_map].
    + destruct IH as [Hin Hm]. split; [by right|by constructor].
    + apply not_elem_of_cons. by split.
Qed.

Lemma length_put f v kvs : length (put f v kvs) = if decide (f ∈ kvs.*1) then length kvs else S (length kvs).
Proof. rewrite <- (length_fmap fst), put_fields. destruct (decide _); [by rewrite length_fmap|]. rewrite length_app, length_fmap. cbn. lia. Qed.

(** One pair of a batch. *)
Lemma merge_step f v fields merged kvs n :
  storable_pair (f, v) -> Forall2 held merged kvs ->
  exists merged', merge_fields hash encoding ((f, v) :: fields) merged n = merge_fields hash encoding fields merged' (n + Z.of_nat (length (put f v kvs)) - Z.of_nat (length kvs)) /\
    Forall2 held merged' (put f v kvs).
Proof.
  intros Hp Hh. pose proof Hp as [(Hf1 & Hf2 & _) [[[ev Hev] _] Hv2]]. cbn [fst snd] in *. destruct (encode_short encoding NeverLz4 f Hf1) as [ef Hef].
  destruct (encode_stored _ _ _ _ Hef) as (_ & Hsf & _), (encode_stored _ _ _ _ Hev) as (_ & Hsv & _). fold (fenc f) in Hsf. fold (venc v) in Hsv.
  cbn [merge_fields]. replace (_ <? _) with false by lia. rewrite Hef. cbn [mbind result_bind]. rewrite Hev. cbn [mbind result_bind]. rewrite Hsf, Hsv. replace (_ || _) with false by lia.
  pose proof (update_run merged kvs f v ef ev Hh (proj1 Hp) Hef Hev) as Hu. rewrite length_put. destruct (update_pair _ _ merged) as [merged'|].
  - destruct Hu as [Hin Hm]. rewrite decide_True by done. exists merged'. split; [f_equal; lia|done].
  - rewrite decide_False by done. eexists. split; [f_equal; lia|]. rewrite put_absent by done. apply Forall2_app; [done|]. constructor; [by apply held_incoming_pair|constructor].
Qed.

Lemma merge_fields_run fields merged kvs n :
  Forall storable_pair fields -> Forall2 held merged kvs ->
  exists merged', merge_fields hash encoding fields merged n = Ret (Some (merged', n + Z.of_nat (length (puts kvs fields)) - Z.of_nat (length kvs))) /\
    Forall2 held merged' (puts kvs fields).
Proof.
  intros Hf. revert merged kvs n. induction Hf as [|[f v] fields Hp _ IH]; intros merged kvs n Hh.
  { exists merged. cbn. split; [|done]. do 3 f_equal. lia. }
  destruct (merge_step f v fields merged kvs n Hp Hh) as (merged1 & -> & H1). cbn [puts foldl fst snd].
  destruct (IH merged1 (put f v kvs) (n + Z.of_nat (length (put f v kvs)) - Z.of_nat (length kvs)) H1) as (merged2 & -> & H2). exists merged2. split; [|done]. do 3 f_equal. unfold puts. lia.
Qed.

(** A pair the compact form does not take stops the batch. *)
Lemma pairs_merge_refused fields merged kvs n :
  Forall plain_pair fields -> forallb admitted fields = false -> Forall2 held merged kvs -> merge_fields hash encoding fields merged n = Ret None.
Proof.
  intros Hf. revert merged kvs n. induction Hf as [|[f v] fields Hp _ IH]; intros merged kvs n Ha Hh; [done|]. cbn [forallb] in Ha. destruct (admitted (f, v)) eqn:Hfv.
  - destruct (merge_step f v fields merged kvs n (admitted_storable _ Hp Hfv) Hh) as (merged1 & -> & H1). by eapply IH.
  - destruct Hp as [_ [[ev Hev] _]]. cbn [fst snd] in *. unfold admitted, field_admitted in Hfv. cbn [fst snd] in Hfv. cbn [merge_fields].
    destruct (Z.ltb_spec (Options.max_value_bytes encoding) (Z.of_nat (length f))) as [|Hl]; [done|]. destruct (encode_short encoding NeverLz4 f Hl) as [ef Hef]. rewrite Hef. cbn [mbind result_bind]. rewrite Hev. cbn [mbind result_bind].
    destruct (encode_stored _ _ _ _ Hef) as (_ & -> & _), (encode_stored _ _ _ _ Hev) as (_ & -> & _). fold (fenc f) (venc v). by replace (_ || _) with true by lia.
Qed.

Lemma puts_good kvs fields :
  NoDup kvs.*1 -> Forall storable_pair kvs -> Forall storable_pair fields -> NoDup (puts kvs fields).*1 /\ Forall storable_pair (puts kvs fields).
Proof.
  intros Hn Hok Hf. revert kvs Hn Hok. induction Hf as [|[f v] fields Hp _ IH]; intros kvs Hn Hok; [done|]. cbn [puts foldl fst snd].
  destruct (put_good f v kvs Hn Hok Hp) as [Hn' Hok']. by apply IH.
Qed.

Lemma puts_map kvs fields : list_to_map (puts kvs fields) =@{gmap bytes bytes} foldl (fun m fv => <[fv.1 := fv.2]> m) (list_to_map kvs) fields.
Proof. revert kvs. induction fields as [|[f v] fields IH]; intros kvs; [done|]. cbn [puts foldl fst snd]. rewrite <- put_map. apply IH. Qed.

Lemma puts_nonempty kvs fields : fields <> [] -> puts kvs fields <> [].
Proof.
  assert (Hput : forall f v kvs, put f v kvs <> []) by (intros f v [|kv l]; cbn; [done|]; by destruct (decide _)).
  assert (Hk : forall l k, k <> [] -> puts k l <> []) by (induction l as [|fv l IH]; intros k Hk; [done|]; apply IH, Hput).
  destruct fields as [|fv fields]; [done|]. intros _. apply (Hk fields (put fv.1 fv.2 kvs)), Hput.
Qed.

Lemma set_many_spec p kvs fields max_entries :
  hash_repr p kvs -> Forall storable_pair fields -> fields <> [] ->
  if (Z.of_nat (length (puts kvs fields)) <=? max_entries) && fits (puts kvs fields)
  then exists p', set_many hash junk encoding fields max_entries p = Ret (mkSetMany (Z.of_nat (length (puts kvs fields)) - Z.of_nat (length kvs)) false, p') /\ hash_repr p' (puts kvs fields)
  else set_many hash junk encoding fields max_entries p = Ret (mkSetMany 0 true, p).
Proof.
  intros Hr Hf Hne. unfold set_many. destruct fields as [|x l] eqn:Hmem; [done|]. rewrite <- Hmem in *. pose proof (puts_nonempty kvs fields Hne) as Hne'.
  rewrite (hash_hdr _ _ Hr). cbn [mbind result_bind]. rewrite (stored_views_run p kvs Hr). cbn [mbind result_bind].
  pose proof (stored_pairs_run p [] kvs Hr) as Es. cbn [length] in Es. rewrite Es. cbn [mbind result_bind].
  destruct (merge_fields_run fields (map stored_pair kvs) kvs 0 Hf (stored_held p kvs Hr)) as (merged & Em & Hh).
  destruct (puts_good kvs fields (hr_distinct _ _ Hr) (hr_pairs _ _ Hr) Hf) as [Hn Hok]. rewrite Em. cbn [mbind result_bind]. pose proof (held_pair_pends _ _ Hok Hh) as Hp.
  unfold entries_fit_in_blob. rewrite (sum_sizes_area _ _ _ Hp), length_map, (Forall2_length _ _ _ Hh). fold (fits (puts kvs fields)). destruct (_ && _) eqn:Hroom.
  - replace (_ || _) with false by lia. destruct (replace_with_repr junk _ _ Hp) as (p' & Ep & Rp); [by intros Hnil%fmap_nil_inv|apply dir_fits_pairs; [done|lia]|].
    exists p'. rewrite Ep. cbn [mbind result_bind]. split; [by rewrite Z.add_0_l|by split].
  - by replace (_ || _) with true by lia.
Qed.

(** *** Reading in order *)

Definition hands (out : bytes * EncodedStringView) (kv : bytes * bytes) : Prop := out.1 = kv.1 /\ reads_as out.2 kv.2.

Definition handed_pair (kv : bytes * bytes) : bytes * EncodedStringView := (kv.1, stored_view encoding (venc kv.2)).

Lemma field_text kv : storable_pair kv -> to_string (field_view encoding (hash_entry_view (fenc kv.1, venc kv.2))) = Ret kv.1.
Proof. intros [Hf _]. by destruct (stored_reads encoding NeverLz4 kv.1 (field_faithful _ Hf)) as (_ & _ & ?). Qed.

Lemma handed_hands kvs : Forall storable_pair kvs -> Forall2 hands (map handed_pair kvs) kvs.
Proof. induction 1 as [|kv kvs [_ [Hv _]] _ IH]; cbn [map]; [constructor|]. constructor; [|done]. split; [done|]. by apply stored_reads. Qed.

Lemma handed_run kvs : Forall storable_pair kvs -> handed encoding (map (fun x => hash_entry_view x.2) (map pair_item kvs)) = Ret (map handed_pair kvs).
Proof. induction 1 as [|kv kvs Hk _ IH]; [done|]. cbn [map handed pair_item snd]. rewrite field_text by done. cbn [mbind result_bind]. by rewrite IH. Qed.

Lemma range_run p a b c : hash_repr p (a ++ b ++ c) -> range_from encoding (length b) (length a) (hdr_of (map pair_item (a ++ b ++ c))) (dmem p) = Ret (map handed_pair b).
Proof.
  revert a. induction b as [|kv b IH]; intros a Hr; [done|]. cbn [length range_from app map]. specialize (IH (a ++ [kv])). rewrite <- app_assoc, length_app in IH. cbn [app length] in IH. rewrite Nat.add_1_r in IH.
  specialize (IH Hr). cbn [app] in Hr. destruct Hr as [Hd _ Hok]. rewrite (dmem_repr _ _ Hd) in * by (by destruct a). rewrite map_app in *. cbn [map] in *.
  pose proof (offset_dir (map pair_item a) (pair_item kv) (map pair_item (b ++ c)) (proj1 Hd)) as Eo. rewrite length_map in Eo. rewrite Eo. cbn [mbind result_bind]. rewrite Nat2Z.id.
  pose proof (entry_dir (map pair_item a) (pair_item kv) (map pair_item (b ++ c)) (proj1 Hd)) as Ee. cbn [entry_at_ hash_format] in Ee. rewrite Ee. cbn [mbind result_bind eview hash_format pair_item snd].
  apply Forall_app in Hok as [_ [Hk _]%Forall_cons]. rewrite field_text by done. cbn [mbind result_bind]. by rewrite IH.
Qed.

Lemma walk_spec p kvs : hash_repr p kvs -> exists out, for_each encoding p = Ret out /\ Forall2 hands out kvs.
Proof.
  intros Hr. unfold for_each. rewrite (hash_hdr _ _ Hr). cbn [mbind result_bind]. pose proof (for_each_repr p (map pair_item kvs) (hr_dir _ _ Hr)) as E. cbn [entry_at_ view_size_ hash_format] in E.
  rewrite E. cbn [mbind result_bind eview hash_format]. rewrite handed_run by apply Hr. eexists. split; [done|]. apply handed_hands, Hr.
Qed.

Lemma range_spec p kvs first count : hash_repr p kvs -> Z.of_nat first + Z.of_nat count < 2 ^ 64 -> exists out, for_range encoding first count p = Ret out /\ Forall2 hands out (take count (drop first kvs)).
Proof.
  intros Hr Hsum. unfold for_range. rewrite size_add_small by done. rewrite (hash_hdr _ _ Hr). cbn [mbind result_bind]. replace (Z.to_nat (dcount _)) with (length kvs) by (cbn; rewrite length_map; lia).
  set (b := take count (drop first kvs)). assert (Hb : (length kvs `min` (first + count) - first)%nat = length b) by (unfold b; rewrite length_take, length_drop; lia). rewrite Hb.
  destruct (Nat.le_gt_cases (length kvs) first) as [Hl|Hl]; [exists []; replace (length b) with 0%nat by lia; split; [done|]; destruct b; [constructor|cbn in Hb; lia]|].
  assert (Hk : kvs = take first kvs ++ b ++ drop count (drop first kvs)) by (unfold b; by rewrite take_drop, take_drop).
  pose proof Hr as Hr'. rewrite Hk in Hr'. pose proof (range_run _ _ _ _ Hr') as E. rewrite <- Hk in E. rewrite length_take in E. replace (first `min` length kvs)%nat with first in E by lia.
  exists (map handed_pair b). split; [done|]. apply handed_hands. apply hr_pairs in Hr'. by apply Forall_app in Hr' as [_ [? _]%Forall_app].
Qed.

Lemma hash_repr_empty : hash_repr None [].
Proof. split; [split; [split; [vm_compute; discriminate|constructor]|done]|constructor|constructor]. Qed.

(** Fields and values that are too large never enter. *)
Lemma field_refused p f : field_admitted f = false -> get hash width encoding f p = Ret None /\ erase hash width junk encoding f p = Ret (false, p).
Proof.
  unfold field_admitted, get, erase. intros Ha. destruct (Z.ltb_spec (Options.max_value_bytes encoding) (Z.of_nat (length f))) as [|Hl]; [done|].
  destruct (encode_short encoding NeverLz4 f Hl) as [ef Hef]. rewrite Hef. cbn [mbind result_bind]. destruct (encode_stored _ _ _ _ Hef) as (_ & -> & _). fold (fenc f). by replace (_ <? _) with true by lia.
Qed.

Lemma set_refused p f v max_entries : (exists e, encode v encoding AllowLz4 = Ret e) -> admitted (f, v) = false -> set hash width junk encoding f v max_entries p = Ret (mkSet false true, p).
Proof.
  unfold admitted, field_admitted, set. cbn [fst snd]. intros [ev Hev] Ha. destruct (Z.ltb_spec (Options.max_value_bytes encoding) (Z.of_nat (length f))) as [|Hl]; [done|].
  destruct (encode_short encoding NeverLz4 f Hl) as [ef Hef]. rewrite Hef. cbn [mbind result_bind]. rewrite Hev. cbn [mbind result_bind].
  destruct (encode_stored _ _ _ _ Hef) as (_ & -> & _), (encode_stored _ _ _ _ Hev) as (_ & -> & _). fold (fenc f) (venc v). by replace (_ || _) with true by lia.
Qed.

(** A value that cannot be encoded is an exception. *)
Lemma set_throws p f v max_entries message :
  Z.of_nat (length f) <= Options.max_value_bytes encoding -> encode v encoding AllowLz4 = Throw message -> set hash width junk encoding f v max_entries p = Throw message.
Proof.
  intros Hl Hv. unfold set. replace (_ <? _) with false by lia. destruct (encode_short encoding NeverLz4 f Hl) as [ef ->]. cbn [mbind result_bind]. by rewrite Hv.
Qed.

Lemma held_field p kvs f : hash_repr p kvs -> f ∈ kvs.*1 -> storable_field f.
Proof. intros Hr ((f' & w) & -> & Hin)%list_elem_of_fmap. pose proof (hr_pairs _ _ Hr) as Hok. rewrite Forall_forall in Hok. apply (Hok _ Hin). Qed.

Lemma any_get_spec p kvs f : hash_repr p kvs -> wraps (unsigned_part f) = false -> f ∉ kvs.*1 -> get hash width encoding f p = Ret None /\ erase hash width junk encoding f p = Ret (false, p).
Proof.
  intros Hr Hw Hn. destruct (field_admitted f) eqn:Ha; [|by apply field_refused]. pose proof (field_admitted_storable f Hw Ha) as Hf.
  destruct (field_get_spec p kvs f Hr Hf) as [Hg _], (field_erase_spec p kvs f Hr Hf) as [He _]. by split; [apply Hg|apply He].
Qed.

Lemma any_set_spec p kvs f v max_entries :
  hash_repr p kvs -> plain_pair (f, v) ->
  if admitted (f, v) && takes max_entries kvs f v
  then exists p', set hash width junk encoding f v max_entries p = Ret (mkSet (negb (bool_decide (f ∈ kvs.*1))) false, p') /\ hash_repr p' (put f v kvs)
  else set hash width junk encoding f v max_entries p = Ret (mkSet false true, p).
Proof.
  intros Hr Hp. destruct (admitted (f, v)) eqn:Ha; cbn [andb]; [by apply field_set_spec, admitted_storable|]. apply set_refused; [apply Hp|done].
Qed.

Lemma any_set_many_spec p kvs fields max_entries :
  hash_repr p kvs -> Forall plain_pair fields -> fields <> [] ->
  if forallb admitted fields && (Z.of_nat (length (puts kvs fields)) <=? max_entries) && fits (puts kvs fields)
  then exists p', set_many hash junk encoding fields max_entries p = Ret (mkSetMany (Z.of_nat (length (puts kvs fields)) - Z.of_nat (length kvs)) false, p') /\ hash_repr p' (puts kvs fields)
  else set_many hash junk encoding fields max_entries p = Ret (mkSetMany 0 true, p).
Proof.
  intros Hr Hf Hne. destruct (forallb admitted fields) eqn:Ha; cbn [andb].
  - apply set_many_spec; [done| |done]. apply Forall_forall. intros kv Hkv. rewrite Forall_forall in Hf. apply admitted_storable; [by apply Hf|]. rewrite forallb_forall in Ha. by apply Ha, list_elem_of_In.
  - unfold set_many. destruct fields as [|x l] eqn:Hl; [done|]. rewrite <- Hl in *. rewrite (hash_hdr _ _ Hr). cbn [mbind result_bind]. rewrite (stored_views_run p kvs Hr). cbn [mbind result_bind]. pose proof (stored_pairs_run p [] kvs Hr) as Es. cbn [length] in Es. rewrite Es. cbn [mbind result_bind].
    by rewrite (pairs_merge_refused fields (map stored_pair kvs) kvs 0 Hf Ha (stored_held p kvs Hr)).
Qed.

(** C27: the compact hash is a map in insertion order.  For a blob that holds the pairs [kvs], whatever the
    hash function and the vector width, and for texts of any length that the integer reader does not wrap: the
    size is the number of pairs; a field reads as its value and as nothing when it is not there; setting a
    field puts the value in its place, or the pair at the end, which is the insertion into the map, unless
    the field or the value is too long for an entry, it would be one field too many, or the pairs outgrow the
    blob: then the full form is asked for and nothing changes; a value that cannot be encoded at all is an
    exception; removing takes out exactly the field; a batch is the sequence of its insertions, all of them
    or none; the walk and its ranges read the pairs in order.  Every access stays inside the blob. *)
Theorem hash_listpack_refines (p : Blob) (kvs : list (bytes * bytes)) (f v : bytes) :
  hash_repr p kvs -> plain_pair (f, v) ->
  hash_size p = Ret (Z.of_nat (length kvs)) /\
  (f ∉ kvs.*1 -> get hash width encoding f p = Ret None) /\
  (forall a w b, kvs = a ++ (f, w) :: b -> exists view, get hash width encoding f p = Ret (Some view) /\ reads_as view w) /\
  (forall max_entries,
     if admitted (f, v) && takes max_entries kvs f v
     then exists p', set hash width junk encoding f v max_entries p = Ret (mkSet (negb (bool_decide (f ∈ kvs.*1))) false, p') /\ hash_repr p' (put f v kvs)
     else set hash width junk encoding f v max_entries p = Ret (mkSet false true, p)) /\
  (forall long message max_entries, Z.of_nat (length f) <= Options.max_value_bytes encoding -> encode long encoding AllowLz4 = Throw message -> set hash width junk encoding f long max_entries p = Throw message) /\
  list_to_map (put f v kvs) =@{gmap bytes bytes} <[f := v]> (list_to_map kvs) /\
  (f ∉ kvs.*1 -> erase hash width junk encoding f p = Ret (false, p)) /\
  (forall a w b, kvs = a ++ (f, w) :: b -> exists p', erase hash width junk encoding f p = Ret (true, p') /\ hash_repr p' (a ++ b)) /\
  (forall fields max_entries, Forall plain_pair fields -> fields <> [] ->
     list_to_map (puts kvs fields) =@{gmap bytes bytes} foldl (fun m fv => <[fv.1 := fv.2]> m) (list_to_map kvs) fields /\
     if forallb admitted fields && (Z.of_nat (length (puts kvs fields)) <=? max_entries) && fits (puts kvs fields)
     then exists p', set_many hash junk encoding fields max_entries p = Ret (mkSetMany (Z.of_nat (length (puts kvs fields)) - Z.of_nat (length kvs)) false, p') /\ hash_repr p' (puts kvs fields)
     else set_many hash junk encoding fields max_entries p = Ret (mkSetMany 0 true, p)) /\
  (exists out, for_each encoding p = Ret out /\ Forall2 hands out kvs) /\
  (forall first count, Z.of_nat first + Z.of_nat count < 2 ^ 64 -> exists out, for_range encoding first count p = Ret out /\ Forall2 hands out (take count (drop first kvs))).
Proof.
  intros Hr Hp. assert (Hin : forall a w b, kvs = a ++ (f, w) :: b -> storable_field f) by (intros a w b ->; eapply held_field; [done|]; rewrite fmap_app; apply elem_of_app; right; by left).
  split; [unfold hash_size; rewrite (hash_hdr _ _ Hr); cbn; by rewrite length_map|]. split; [intros Hn; by apply (any_get_spec p kvs f Hr (proj1 Hp))|].
  split; [intros a w b Hk; by eapply (field_get_spec p kvs f Hr (Hin a w b Hk))|]. split; [intros max_entries; by apply any_set_spec|]. split; [intros long message max_entries; apply set_throws|]. split; [apply put_map|].
  split; [intros Hn; by apply (any_get_spec p kvs f Hr (proj1 Hp))|]. split; [intros a w b Hk; by eapply (field_erase_spec p kvs f Hr (Hin a w b Hk))|].
  split; [intros fields max_entries Hf Hne; split; [apply puts_map|by apply any_set_many_spec]|]. split; [by apply walk_spec|]. intros first count Hsum. by apply range_spec.
Qed.
End spec.

(** ** A concrete run *)

Section examples.
#[local] Existing Instance copy_lz4.
#[local] Existing Instance copy_lz4_correct.

(** A hash under which many fields collide. *)
Definition hash_example (m : bytes) : Z := Z.of_nat (length m).
Definition example_pairs : list (bytes * bytes) := [(str "a", str "1"); (str "b", str "x"); (str "17", str "")].
Definition example_hash_blob : Blob := match set_many hash_example x00 0 example_pairs 8 None with Ret (_, p) => p | _ => None end.

Lemma example_pair_storable f v :
  (Z.of_nat (length f) <=? Options.max_value_bytes 0) && (Z.of_nat (length v) <=? Options.max_value_bytes 0) && (Z.of_nat (length (fenc 0 f)) <=? kDirMaxStringBytes) &&
  (Z.of_nat (length (venc 0 v)) <=? kDirMaxStringBytes) && negb (wraps (unsigned_part f)) && negb (wraps (unsigned_part v)) = true -> storable_pair 0 (f, v).
Proof.
  rewrite !andb_true_iff, !negb_true_iff, !Z.leb_le. intros (((((? & ?) & ?) & ?) & ?) & ?). split; [by split|]. split; [|done]. split; [by apply encode_short|done].
Qed.

Lemma example_pairs_storable : Forall (storable_pair 0) example_pairs.
Proof. repeat constructor; apply example_pair_storable; vm_compute; reflexivity. Qed.

Lemma example_hash_repr : hash_repr hash_example 0 example_hash_blob example_pairs.
Proof.
  pose proof (set_many_spec hash_example x00 0 2 ltac:(lia) None [] example_pairs 8 (hash_repr_empty _ _) example_pairs_storable ltac:(done)) as H.
  replace ((_ <=? _) && _) with true in H by (vm_compute; reflexivity). destruct H as (p' & E & R). unfold example_hash_blob. rewrite E. exact R.
Qed.

Lemma hash_listpack_refines_witness :
  exists p', set hash_example 2 x00 0 (str "b") (str "longer") 8 example_hash_blob = Ret (mkSet false false, p') /\
    hash_repr hash_example 0 p' [(str "a", str "1"); (str "b", str "longer"); (str "17", str "")].
Proof.
  refine (proj1 (proj2 (proj2 (proj2 (hash_listpack_refines hash_example x00 0 2 _ example_hash_blob example_pairs (str "b") (str "longer") example_hash_repr _)))) 8); [lia|].
  split; [reflexivity|]. split; [eexists|]; vm_compute; reflexivity.
Defined.
End examples.
