(* ===== verification/Probe.v ===== *)
(** * Probing a table of control bytes

    The probe sequence shared by the open-addressing tables: control bytes are read
    in groups of [W] from a start that need not be aligned, the first [W] of them being
    mirrored behind the last, and the walk goes on group by group, wrapping around, until
    a group has an empty byte.  Here are the loops, over the control bytes alone, and
    what they find. *)

From S2P Require Import Prelude BitMask.
From Stdlib Require Import ZArith Lia.

Local Open Scope Z_scope.

Definition kEmpty : Z := 0x80.
Definition kDeleted : Z := 0xFE.
Definition is_full_control (c : Z) : bool := c <? kEmpty.

Section code.
Variable W cap : nat.
Variable control : list Z.

Definition group_at (start : nat) : list Z := take W (drop start control).

(** An index or a start past the end wraps around. *)
Definition wrap_at (index : nat) : nat := if (cap <=? index)%nat then (index - cap)%nat else index.

(** The number of rounds of [for (probed = 0; probed < capacity_; probed += kGroupWidth)]. *)
Definition group_count : nat := ((cap + W - 1) / W)%nat.

(** The slots of a group whose byte matches, lowest first, until [eqi] accepts one. *)
Fixpoint match_loop (fuel : nat) (eqi : nat -> option bool) (start : nat) (matches : Z) : option (option nat) :=
  if matches =? 0 then Some None
  else
    match fuel with
    | O => None
    | S fuel =>
        let index := wrap_at (start + first_set_bit matches) in
        equal ← eqi index;
        if equal : bool then Some (Some index) else match_loop fuel eqi start (Z.land matches (matches - 1))
    end.

Fixpoint find_loop (groups : nat) (eqi : nat -> option bool) (needle : Z) (start : nat) : option (option nat) :=
  match groups with
  | O => Some None
  | S groups =>
      let group := group_at start in
      found ← match_loop W eqi start (match_byte group needle);
      match found with
      | Some index => Some (Some index)
      | None =>
          if negb (match_byte group kEmpty =? 0) then Some None
          else find_loop groups eqi needle (wrap_at (start + W))
      end
  end.

(** [may_have_deleted]: a table without tombstones need not look for them. *)
Definition note_deleted (may_have_deleted : bool) (group : list Z) (start : nat) (first_deleted : option nat) : option nat :=
  match first_deleted with
  | Some d => Some d
  | None =>
      let deleted := match_byte group kDeleted in
      if may_have_deleted && negb (deleted =? 0) then Some (wrap_at (start + first_set_bit deleted)) else None
  end.

(** [None] is [npos]. *)
Fixpoint insert_loop (may_have_deleted : bool) (groups : nat) (start : nat) (first_deleted : option nat) : option nat :=
  match groups with
  | O => first_deleted
  | S groups =>
      let group := group_at start in
      let first_deleted := note_deleted may_have_deleted group start first_deleted in
      let empty := match_byte group kEmpty in
      if negb (empty =? 0) then Some (default (wrap_at (start + first_set_bit empty)) first_deleted)
      else insert_loop may_have_deleted groups (wrap_at (start + W)) first_deleted
  end.

(** Both in one walk: the slot of the key, or a slot for it. *)
Fixpoint find_or_insert_loop (may_have_deleted : bool) (groups : nat) (eqi : nat -> option bool) (needle : Z) (start : nat) (first_deleted : option nat)
    : option (option nat * bool) :=
  match groups with
  | O => Some (first_deleted, false)
  | S groups =>
      let group := group_at start in
      found ← match_loop W eqi start (match_byte group needle);
      match found with
      | Some index => Some (Some index, true)
      | None =>
          let first_deleted := note_deleted may_have_deleted group start first_deleted in
          let empty := match_byte group kEmpty in
          if negb (empty =? 0) then Some (Some (default (wrap_at (start + first_set_bit empty)) first_deleted), false)
          else find_or_insert_loop may_have_deleted groups eqi needle (wrap_at (start + W)) first_deleted
      end
  end.

(** One walk finds what two walks find. *)
Lemma find_or_insert_two_walks md groups eqi needle start fd :
  find_or_insert_loop md groups eqi needle start fd =
    (found ← find_loop groups eqi needle start;
     Some (match found with Some index => (Some index, true) | None => (insert_loop md groups start fd, false) end)).
Proof.
  revert start fd. induction groups as [|groups IH]; intros start fd; [done|]. cbn [find_or_insert_loop find_loop insert_loop].
  destruct (match_loop _ _ _ _) as [[index|]|]; cbn [mbind option_bind]; [done| |done].
  destruct (negb _); [done|]. apply IH.
Qed.

Definition set_control (index : nat) (value : Z) : list Z :=
  let control := <[index := value]> control in
  if (index <? W)%nat then <[(cap + index)%nat := value]> control else control.
End code.

(** ** Bytes of a group *)

Definition count {A} (p : A -> bool) (l : list A) : nat := length (List.filter p l).

Definition has_byte (needle : Z) (group : list Z) : bool := negb (match_byte group needle =? 0).

Lemma has_byte_spec needle group : has_byte needle group = true <-> exists o, group !! o = Some needle.
Proof.
  unfold has_byte. rewrite match_byte_mask, negb_true_iff, Z.eqb_neq. split.
  - intros Hz. destruct (mask_first _ Hz) as (a & b & Hl & _). exists (length a).
    assert (Hx : map (fun b => b =? needle) group !! length a = Some true) by (rewrite Hl; apply list_lookup_middle; done).
    rewrite list_lookup_fmap in Hx. apply fmap_Some in Hx as (c & Hc & Ht). symmetry in Ht. apply Z.eqb_eq in Ht. by subst.
  - intros (o & Ho) Hz. apply mask_zero in Hz. rewrite Forall_lookup in Hz. specialize (Hz o true).
    rewrite list_lookup_fmap, Ho in Hz. simpl in Hz. rewrite Z.eqb_refl in Hz. by specialize (Hz eq_refl).
Qed.

Lemma first_byte needle group : has_byte needle group = true -> group !! first_set_bit (match_byte group needle) = Some needle.
Proof.
  unfold has_byte. rewrite match_byte_mask, negb_true_iff, Z.eqb_neq. intros Hz.
  destruct (mask_first _ Hz) as (a & b & Hl & _ & Hf & _). rewrite Hf.
  assert (Hx : map (fun b => b =? needle) group !! length a = Some true) by (rewrite Hl; apply list_lookup_middle; done).
  rewrite list_lookup_fmap in Hx. apply fmap_Some in Hx as (c & Hc & Ht). symmetry in Ht. apply Z.eqb_eq in Ht. by subst.
Qed.

Lemma count_insert {A} (p : A -> bool) l i x y :
  l !! i = Some x -> (count p (<[i := y]> l) + Nat.b2n (p x) = count p l + Nat.b2n (p y))%nat.
Proof.
  unfold count. revert i. induction l as [|z l IH]; intros [|i]; simpl; try done.
  - intros [= ->]. destruct (p x), (p y); simpl; lia.
  - intros Hi. specialize (IH i Hi). destruct (p z); simpl; lia.
Qed.

Lemma count_pos {A} (p : A -> bool) l : (0 < count p l)%nat <-> exists i x, l !! i = Some x /\ p x = true.
Proof.
  unfold count. induction l as [|z l IH]; simpl; [split; [lia|by intros (i & x & Hi & _)]|]. destruct (p z) eqn:Hp; simpl.
  - split; [|lia]. intros _. by exists 0%nat, z.
  - rewrite IH. split.
    + intros (i & x & Hi & Hx). by exists (S i), x.
    + intros ([|i] & x & Hi & Hx); simpl in Hi; [congruence|]. by exists i, x.
Qed.

Lemma count_replicate {A} (p : A -> bool) n x : count p (replicate n x) = if p x then n else 0%nat.
Proof. unfold count. induction n as [|n IH]; simpl; [by destruct (p x)|]. destruct (p x); simpl; lia. Qed.

(** The three kinds of bytes. *)
Lemma count_kinds l :
  Forall (fun c => 0 <= c < 128 \/ c = kEmpty \/ c = kDeleted) l ->
  (count is_full_control l + count (Z.eqb kDeleted) l + count (Z.eqb kEmpty) l = length l)%nat.
Proof.
  unfold count. induction 1 as [|c l Hc _ IH]; [done|]. cbn [List.filter length]. unfold is_full_control, kEmpty, kDeleted in *.
  destruct Hc as [Hc|[-> | ->]]; [|simpl; lia..].
  replace (c <? 128) with true by lia. replace (254 =? c) with false by lia. replace (128 =? c) with false by lia. cbn [length]. lia.
Qed.

(** The marked slots of a group are tried in turn. *)
Lemma match_loop_spec cap fuel eqi start l :
  (count id l <= fuel)%nat ->
  (forall o, l !! o = Some true -> exists b, eqi (wrap_at cap (start + o)) = Some b) ->
  exists r, match_loop cap fuel eqi start (mask_of l) = Some r /\
    match r with
    | Some i => exists o, l !! o = Some true /\ i = wrap_at cap (start + o) /\ eqi i = Some true
    | None => forall o, l !! o = Some true -> eqi (wrap_at cap (start + o)) = Some false
    end.
Proof.
  assert (Hnone : forall l, mask_of l = 0 -> forall o, l !! o <> Some true).
  { intros l' Hz o Ho. apply mask_zero in Hz. rewrite Forall_lookup in Hz. by specialize (Hz _ _ Ho). }
  revert l. induction fuel as [|fuel IH]; intros l Hc Hs; cbn [match_loop].
  - assert (Hz : mask_of l = 0).
    { apply mask_zero, Forall_lookup. intros i b Hi. destruct b; [|done]. exfalso. assert (0 < count id l)%nat by (apply count_pos; by exists i, true). lia. }
    rewrite Hz. exists None. split; [done|]. intros o Ho. by destruct (Hnone l Hz o).
  - destruct (Z.eqb_spec (mask_of l) 0) as [Hz|Hz]; [exists None; split; [done|]; intros o Ho; by destruct (Hnone l Hz o)|].
    destruct (mask_first l Hz) as (a & b & -> & Ha & Hf & Hcl). rewrite Hf, Hcl.
    destruct (Hs (length a)) as [e He]; [by rewrite list_lookup_middle|]. rewrite He. cbn [mbind option_bind].
    destruct e; [eexists; split; [done|]; exists (length a); by rewrite list_lookup_middle|].
    assert (Hsub : forall o, o <> length a -> (a ++ false :: b) !! o = (a ++ true :: b) !! o).
    { intros o Hne. destruct (decide (o < length a)%nat); [by rewrite !lookup_app_l by lia|]. rewrite !lookup_app_r by lia. by destruct (o - length a)%nat eqn:E; [lia|]. }
    assert (Hat : forall o, (a ++ false :: b) !! o = Some true -> (a ++ true :: b) !! o = Some true).
    { intros o Ho. destruct (decide (o = length a)) as [->|Hne]; [by rewrite list_lookup_middle in Ho|]. by rewrite <- Hsub. }
    destruct (IH (a ++ false :: b)) as (r & Hr & Hspec).
    + unfold count in *. rewrite !List.filter_app, !length_app in *. simpl in *. lia.
    + intros o Ho. by apply Hs, Hat.
    + exists r. split; [done|]. destruct r as [i|].
      * destruct Hspec as (o & Ho & Hi). exists o. split; [by apply Hat|done].
      * intros o Ho. destruct (decide (o = length a)) as [->|Hne]; [done|]. apply Hspec. by rewrite Hsub.
Qed.

(** ** What a probe finds *)

Section spec.
Variables W cap : nat.
Hypotheses (HW : (0 < W)%nat) (Hmod : (cap mod W = 0)%nat) (Hcap : cap <> 0%nat).
Implicit Types (ctl : list Z) (s i g o p : nat).

(** The slot at displacement [p] of the probe sequence from [s]. *)
Definition pos s p : nat := ((s + p) mod cap)%nat.

(** The control bytes with the mirrored first group. *)
Definition mirrored ctl : list Z := ctl ++ take W ctl.

Lemma mirrored_lookup ctl i : (i < length ctl)%nat -> mirrored ctl !! i = ctl !! i.
Proof. apply lookup_app_l. Qed.

Definition no_empty_before ctl s g : Prop := forall p, (p < g * W)%nat -> ctl !! pos s p <> Some kEmpty.

(** A probe from [s] gets to slot [i]. *)
Definition reach ctl s i : Prop :=
  exists g o, (g * W + o < cap)%nat /\ (o < W)%nat /\ i = pos s (g * W + o) /\ no_empty_before ctl s g.

Definition free_at ctl s i : Prop := (ctl !! i = Some kEmpty \/ ctl !! i = Some kDeleted) /\ reach ctl s i.

Lemma cap_groups : (W <= cap)%nat /\ cap = (group_count W cap * W)%nat.
Proof.
  pose proof (Nat.div_mod_eq cap W) as Hd. rewrite Hmod in Hd. unfold group_count. set (q := (cap / W)%nat) in *.
  assert (Hq : ((cap + W - 1) / W)%nat = q) by (symmetry; apply (Nat.div_unique _ _ q (W - 1)%nat); lia).
  rewrite Hq. clearbody q. rewrite Nat.add_0_r in Hd. rewrite Hd in Hcap |- *. destruct q; lia.
Qed.

Lemma wrap_at_mod x : (x < 2 * cap)%nat -> wrap_at cap x = (x mod cap)%nat.
Proof.
  intros Hx. unfold wrap_at. destruct (Nat.leb_spec cap x).
  - apply (Nat.mod_unique x cap 1 (x - cap)); lia.
  - by rewrite Nat.mod_small.
Qed.

Lemma pos_lt s p : (pos s p < cap)%nat.
Proof. by apply Nat.mod_upper_bound. Qed.

Lemma pos_wrap s p o : (o <= cap)%nat -> wrap_at cap (pos s p + o) = pos s (p + o).
Proof.
  intros Ho. rewrite wrap_at_mod by (pose proof (pos_lt s p); lia). unfold pos. rewrite Nat.Div0.add_mod_idemp_l. f_equal. lia.
Qed.

Lemma pos_0 s : (s < cap)%nat -> pos s 0 = s.
Proof. intros Hs. unfold pos. by rewrite Nat.add_0_r, Nat.mod_small. Qed.

Lemma reach_lt ctl s i : reach ctl s i -> (i < cap)%nat.
Proof. intros (g & o & _ & _ & -> & _). apply pos_lt. Qed.

(** Every slot is some displacement from the start. *)
Lemma pos_surjective s i : (i < cap)%nat -> (s < cap)%nat -> exists p, (p < cap)%nat /\ i = pos s p.
Proof.
  intros Hi Hs. unfold pos. destruct (decide (s <= i)%nat).
  - exists (i - s)%nat. split; [lia|]. replace (s + (i - s))%nat with i by lia. by rewrite Nat.mod_small.
  - exists (i + cap - s)%nat. split; [lia|]. replace (s + (i + cap - s))%nat with (i + 1 * cap)%nat by lia. by rewrite Nat.Div0.mod_add, Nat.mod_small.
Qed.

Section bytes.
Variable ctl : list Z.
Hypothesis Hlen : length ctl = cap.
Abbreviation control := (mirrored ctl).
Abbreviation group s g := (group_at W control (pos s (g * W))).

(** The bytes of a group are the control bytes of its slots. *)
Lemma group_byte s p o : (o < W)%nat -> group_at W control (pos s p) !! o = ctl !! pos s (p + o).
Proof.
  intros Ho. destruct cap_groups as [Hg _]. pose proof (pos_lt s p) as Hp. rewrite <- pos_wrap by lia. unfold group_at, mirrored.
  rewrite lookup_take_lt, lookup_drop by done. unfold wrap_at. destruct (Nat.leb_spec cap (pos s p + o)).
  - rewrite lookup_app_r, Hlen by lia. by rewrite lookup_take_lt by lia.
  - by rewrite lookup_app_l by lia.
Qed.

Lemma group_length s p : length (group_at W control (pos s p)) = W.
Proof. destruct cap_groups as [Hg _]. pose proof (pos_lt s p). unfold group_at, mirrored. rewrite length_take, length_drop, length_app, length_take. lia. Qed.

Lemma next_group s g : wrap_at cap (pos s (g * W) + W) = pos s (S g * W).
Proof. rewrite pos_wrap by apply cap_groups. f_equal. lia. Qed.

Lemma no_empty_next s g : no_empty_before ctl s g -> has_byte kEmpty (group s g) = false -> no_empty_before ctl s (S g).
Proof.
  intros Hb Hh p Hp. destruct (decide (p < g * W)%nat); [by apply Hb|]. intros Hx. apply not_true_iff_false in Hh. apply Hh, has_byte_spec.
  exists (p - g * W)%nat. rewrite group_byte by lia. by replace (g * W + (p - g * W))%nat with p by lia.
Qed.

(** The first byte of a kind in a group that the probe gets to. *)
Lemma byte_found needle s g :
  (g < group_count W cap)%nat -> no_empty_before ctl s g -> has_byte needle (group s g) = true ->
  let r := wrap_at cap (pos s (g * W) + first_set_bit (match_byte (group s g) needle)) in
  ctl !! r = Some needle /\ reach ctl s r.
Proof.
  intros Hg Hb Hh r. destruct cap_groups as [Hgc Hcg]. pose proof (first_byte _ _ Hh) as Hf.
  set (o := first_set_bit _) in *. assert (Ho : (o < W)%nat) by (apply lookup_lt_Some in Hf; by rewrite group_length in Hf).
  rewrite group_byte in Hf by done. assert (Hr : r = pos s (g * W + o)) by (unfold r; apply pos_wrap; lia).
  rewrite Hr. split; [done|]. exists g, o. split_and!; auto. nia.
Qed.

Lemma match_group eqi needle s g :
  (forall i, ctl !! i = Some needle -> exists b, eqi i = Some b) ->
  exists r, match_loop cap W eqi (pos s (g * W)) (match_byte (group s g) needle) = Some r /\
    match r with
    | Some i => ctl !! i = Some needle /\ eqi i = Some true
    | None => forall o, (o < W)%nat -> ctl !! pos s (g * W + o) = Some needle -> eqi (pos s (g * W + o)) = Some false
    end.
Proof.
  intros He. destruct cap_groups as [Hg _].
  assert (Hbit : forall o, map (fun b => b =? needle) (group s g) !! o = Some true -> (o < W)%nat /\ ctl !! pos s (g * W + o) = Some needle).
  { intros o Ho. rewrite list_lookup_fmap in Ho. apply fmap_Some in Ho as (c & Hc' & Ht). symmetry in Ht. apply Z.eqb_eq in Ht. subst c.
    pose proof (lookup_lt_Some _ _ _ Hc') as Hlt. rewrite group_length in Hlt. split; [done|]. by rewrite <- group_byte. }
  destruct (match_loop_spec cap W eqi (pos s (g * W)) (map (fun b => b =? needle) (group s g))) as (r & Hr & Hspec).
  - unfold count. pose proof (List.filter_length_le id (map (fun b => b =? needle) (group s g))) as Hle. by rewrite length_map, group_length in Hle.
  - intros o Ho. apply Hbit in Ho as [Ho Hb]. rewrite pos_wrap by lia. by apply He.
  - rewrite match_byte_mask. exists r. split; [done|]. destruct r as [i|].
    + destruct Hspec as (o & Ho & -> & Heq). apply Hbit in Ho as [Ho Hb]. rewrite pos_wrap in Heq |- * by lia. done.
    + intros o Ho Hb. specialize (Hspec o). rewrite pos_wrap in Hspec by lia. apply Hspec.
      rewrite list_lookup_fmap, group_byte by done. rewrite Hb. simpl. by rewrite Z.eqb_refl.
Qed.

Lemma find_walk eqi needle s n g :
  (forall i, ctl !! i = Some needle -> exists b, eqi i = Some b) ->
  exists r, find_loop W cap control n eqi needle (pos s (g * W)) = Some r /\
    match r with
    | Some i => ctl !! i = Some needle /\ eqi i = Some true
    | None => forall g' o, (g <= g' < g + n)%nat -> (o < W)%nat -> no_empty_before ctl s g' -> ctl !! pos s (g' * W + o) = Some needle ->
                eqi (pos s (g' * W + o)) = Some false
    end.
Proof.
  intros He. revert g. induction n as [|n IH]; intros g; cbn [find_loop].
  { exists None. split; [done|]. intros. lia. }
  destruct (match_group eqi needle s g He) as (r & Hr & Hspec). rewrite Hr. cbn [mbind option_bind]. destruct r as [i|]; [by eexists|].
  fold (has_byte kEmpty (group s g)). destruct (has_byte kEmpty _) eqn:Hh.
  - exists None. split; [done|]. intros g' o Hg' Ho Hb Hx. destruct (decide (g' = g)) as [->|]; [by apply Hspec|].
    exfalso. apply has_byte_spec in Hh as (o' & Ho'). assert (Hlt : (o' < W)%nat) by (apply lookup_lt_Some in Ho'; by rewrite group_length in Ho').
    rewrite group_byte in Ho' by done. apply (Hb (g * W + o')%nat); [nia|done].
  - rewrite next_group. destruct (IH (S g)) as (r & Hr' & Hspec'). exists r. split; [done|]. destruct r; [done|].
    intros g' o Hg' Ho Hb Hx. destruct (decide (g' = g)) as [->|]; [by apply Hspec|]. apply Hspec'; auto with lia.
Qed.

(** The lookup finds a slot the key matches, or there is none the probe can get to. *)
Lemma find_loop_spec eqi needle s :
  (s < cap)%nat -> (forall i, ctl !! i = Some needle -> exists b, eqi i = Some b) ->
  exists r, find_loop W cap control (group_count W cap) eqi needle s = Some r /\
    match r with
    | Some i => ctl !! i = Some needle /\ eqi i = Some true
    | None => forall i, reach ctl s i -> ctl !! i = Some needle -> eqi i = Some false
    end.
Proof.
  intros Hs He. destruct (find_walk eqi needle s (group_count W cap) 0 He) as (r & Hr & Hspec). simpl in Hr. rewrite pos_0 in Hr by done.
  exists r. split; [done|]. destruct r; [done|]. intros i (g & o & Hgo & Ho & -> & Hb) Hx. destruct cap_groups as [_ Hcg]. apply Hspec; auto. nia.
Qed.

Lemma insert_walk md s n g fd :
  no_empty_before ctl s g -> (g + n <= group_count W cap)%nat ->
  match fd with Some d => free_at ctl s d | None => md = true -> forall p, (p < g * W)%nat -> ctl !! pos s p <> Some kDeleted end ->
  match insert_loop W cap control md n (pos s (g * W)) fd with
  | Some r => free_at ctl s r /\ (md = false -> fd = None -> ctl !! r = Some kEmpty)
  | None => forall p, (p < (g + n) * W)%nat -> ctl !! pos s p <> Some kEmpty /\ (md = true -> ctl !! pos s p <> Some kDeleted)
  end.
Proof.
  revert g fd. induction n as [|n IH]; intros g fd Hb Hn Hfd; cbn [insert_loop].
  { destruct fd as [d|]; [done|]. intros p Hp. rewrite Nat.add_0_r in Hp. split; [by apply Hb|intros Hm; by apply Hfd]. }
  assert (Hfd' : match note_deleted cap md (group s g) (pos s (g * W)) fd with Some d => free_at ctl s d | None => md = true -> forall p, (p < S g * W)%nat -> ctl !! pos s p <> Some kDeleted end).
  { unfold note_deleted. destruct fd as [d|]; [done|]. fold (has_byte kDeleted (group s g)). destruct md; cbn [andb]; [|done]. destruct (has_byte kDeleted (group s g)) eqn:Hh.
    - destruct (byte_found kDeleted s g ltac:(lia) Hb Hh) as [H1 H2]. split; [by right|done].
    - intros _ p Hp Hx. destruct (decide (p < g * W)%nat); [by eapply Hfd|]. apply not_true_iff_false in Hh. apply Hh, has_byte_spec.
      exists (p - g * W)%nat. rewrite group_byte by lia. by replace (g * W + (p - g * W))%nat with p by lia. }
  assert (Hno : md = false -> fd = None -> note_deleted cap md (group s g) (pos s (g * W)) fd = None) by (by intros -> ->).
  fold (has_byte kEmpty (group s g)). destruct (has_byte kEmpty (group s g)) eqn:Hh.
  - destruct (byte_found kEmpty s g ltac:(lia) Hb Hh) as [H1 H2]. destruct (note_deleted _ _ _ _ _) as [d|]; cbn [default].
    + split; [done|]. intros E1 E2. by specialize (Hno E1 E2).
    + split; [split; [by left|done]|done].
  - rewrite next_group. specialize (IH (S g) _ (no_empty_next s g Hb Hh) ltac:(lia) Hfd'). rewrite Nat.add_succ_comm in IH.
    destruct (insert_loop _ _ _ _ _ _ _); [|done]. destruct IH as [H1 H2]. split; [done|]. intros E1 E2. by apply H2, Hno.
Qed.

(** A slot for an insertion: a free one the probe gets to; none only if every slot is taken. *)
Lemma insert_loop_spec md s :
  (s < cap)%nat ->
  match insert_loop W cap control md (group_count W cap) s None with
  | Some r => free_at ctl s r /\ (md = false -> ctl !! r = Some kEmpty)
  | None => forall i, (i < cap)%nat -> ctl !! i <> Some kEmpty /\ (md = true -> ctl !! i <> Some kDeleted)
  end.
Proof.
  intros Hs. destruct cap_groups as [_ Hcg]. pose proof (insert_walk md s (group_count W cap) 0 None) as H. simpl in H. rewrite pos_0 in H by done.
  specialize (H ltac:(intros p Hp; lia) ltac:(lia) ltac:(intros _ p Hp; lia)). destruct (insert_loop _ _ _ _ _ _ _); [destruct H; auto|].
  intros i Hi. destruct (pos_surjective s i Hi Hs) as (p & Hp & ->). apply H. lia.
Qed.

(** Writing a byte keeps the mirror. *)
Lemma set_control_mirrored i c : (i < cap)%nat -> set_control W cap control i c = mirrored (<[i := c]> ctl).
Proof.
  intros Hi. destruct cap_groups as [Hg _]. unfold set_control, mirrored. rewrite insert_app_l by lia. destruct (Nat.ltb_spec i W).
  - rewrite insert_app_r_alt by (rewrite length_insert; lia). rewrite length_insert, Hlen. replace (cap + i - cap)%nat with i by lia. by rewrite take_insert_lt.
  - by rewrite take_insert_ge.
Qed.

(** A byte that is not empty afterwards blocks no probe. *)
Lemma reach_insert s i c j : c <> kEmpty -> reach ctl s j -> reach (<[i := c]> ctl) s j.
Proof.
  intros Hc (g & o & Hgo & Ho & -> & Hb). exists g, o. split_and!; [done..|]. intros p Hp Hx. apply (Hb p Hp).
  destruct (decide (i = pos s p)) as [->|Hne]; [|by rewrite list_lookup_insert_ne in Hx].
  rewrite list_lookup_insert_eq in Hx by (rewrite Hlen; apply pos_lt). congruence.
Qed.
End bytes.
End spec.
