(* ===== verification/PageArena.v ===== *)
(** * Page-aligned byte runs

    Models [include/goblin/core/page_arena.hpp]: blocks of memory that grow geometrically
    up to a chunk, and a run of bytes that is appended to across blocks, each of which
    owns one chunk of the offsets.  A block is the bytes written into it so far, from its
    start; reading what was not written is undefined.  The page size and whether a huge
    page is available are parameters: they come from the operating system. *)

From S2P Require Import Prelude Binary64 MemoryLimit.
From Stdlib Require Import ZArith Lia ZifyBool.

Import Double.

Local Open Scope Z_scope.

(** A block: what has been written, the bytes allocated for it (the deleter's [bytes]) and
    whether another arena still holds it ([use_count() > 1]). *)
Record Block := mkBlock { data : bytes; block_bytes : Z; shared : bool }.

(** The variables an arena keeps for a run. *)
Record Run := mkRun { blocks : vec Block; next_offset : Z; active_bytes : Z; committed_bytes : Z }.

Definition empty_run : Run := mkRun empty_vec 0 0 0.

(** [2^0.25], and the bytes of a first block. *)
Definition kDefaultArenaGrowth : double := Dbl 5355712719992597 (-52).
Definition kInitialArenaBytes : Z := 64.

(** [sizeof(std::shared_ptr<char[]>)]. *)
Definition sizeof_block_ptr : Z := 16.

Section code.
(** [page_bytes()]; the binary logarithm of [chunk_bytes]; the growth factor; whether a huge
    page is to be had when the run is at a given offset. *)
Variable page : Z.
Variable chunk_shift : Z.
Variable growth : double.
Variable huge_page : Z -> bool.

Definition chunk_bytes : Z := 2 ^ chunk_shift.
Definition chunk_mask : Z := chunk_bytes - 1.

Definition round_up_to_page (bytes_ : Z) : Z := (bytes_ + page - 1) / page * page.
Definition page_block_alloc_bytes (bytes_ : Z) : Z := if page <=? bytes_ then round_up_to_page bytes_ else bytes_.

Section ops.
Context {O : Type}.

Definition alloc_page_block (bytes_ : Z) : M (world O) Block :=
  ensure_memory_growth (page_block_alloc_bytes bytes_);;
  mret (mkBlock [] (page_block_alloc_bytes bytes_) false).

(** Copying needs [used] bytes in the old block and room for them in the new one. *)
Definition grow_page_block (old : Block) (used new_bytes : Z) : M (world O) Block :=
  let old_bytes := block_bytes old in
  let allocated := page_block_alloc_bytes new_bytes in
  when (old_bytes <? allocated) (ensure_memory_growth (allocated - old_bytes));;
  require ((used <=? Z.of_nat (length (data old))) && (used <=? allocated));;
  mret (mkBlock (take (Z.to_nat used) (data old)) allocated false).
End ops.

Definition next_grow_bytes (current needed : Z) : option Z :=
  want ← to_size (mul (of_int current) growth);
  let want := if want <? needed then needed else want in
  let want := if want <=? current then current + 1 else want in
  Some (if page <=? want then round_up_to_page want else want).

Abbreviation Op A := (M (world Run) A).

Definition with_block (index : Z) (b : Block) (r : Run) : Run :=
  mkRun (with_elems (<[Z.to_nat index := b]> (elems (blocks r))) (blocks r)) (next_offset r) (active_bytes r) (committed_bytes r).
Definition with_sizes (committed active : Z) (r : Run) : Run := mkRun (blocks r) (next_offset r) active committed.
Definition advance (n : Z) (r : Run) : Run := mkRun (blocks r) (next_offset r + n) (active_bytes r) (committed_bytes r).

(** [maybe_freeze_block_to_huge] on block [index]. *)
Definition maybe_freeze_block_to_huge (index used current_capacity : Z) : Op bool :=
  let grown := if current_capacity <? chunk_bytes then chunk_bytes - current_capacity else 0 in
  allowed ← memory_growth_allowed grown;
  if negb allowed then mret false
  else
    r ← obj_get (fun r => r);
    block ← need (elems (blocks r) !! Z.to_nat index);
    if huge_page (next_offset r) then
      ensure_memory_growth grown;;
      require (used <=? Z.of_nat (length (data block)));;
      obj_mod (fun r => with_block index (mkBlock (take (Z.to_nat used) (data block)) chunk_bytes false)
                          (with_sizes (committed_bytes r + (chunk_bytes - current_capacity)) (active_bytes r) r));;
      mret true
    else mret false.

(** Writing into the last block: the index and the offset in it at which to go on. *)
Definition use_active (size block_index block_offset : Z) : Op (Z * Z) :=
  r ← obj_get (fun r => r);
  block ← need (elems (blocks r) !! Z.to_nat block_index);
  if block_offset + size <=? active_bytes r then
    when (shared block)
      (fresh ← grow_page_block block block_offset (active_bytes r);
       obj_mod (with_block block_index fresh));;
    mret (block_index, block_offset)
  else if block_offset + size <=? chunk_bytes then
    grown ← need (next_grow_bytes (active_bytes r) (block_offset + size));
    let want := Z.min chunk_bytes grown in
    fresh ← grow_page_block block block_offset want;
    obj_mod (with_block block_index fresh);;
    let committed := page_block_alloc_bytes want in
    obj_mod (fun r => with_sizes (committed_bytes r + (committed - active_bytes r)) committed r);;
    mret (block_index, block_offset)
  else
    maybe_freeze_block_to_huge block_index block_offset (active_bytes r);;
    obj_mod (advance (chunk_bytes - block_offset));;
    mret (block_index + 1, 0).

(** A fresh block at the end. *)
Definition start_block (size : Z) : Op (Z * Z) :=
  let want := Z.min chunk_bytes (Z.max kInitialArenaBytes size) in
  zoom blocks (fun v r => mkRun v (next_offset r) (active_bytes r) (committed_bytes r)) (reserve_memory_vector_for_push sizeof_block_ptr 1);;
  block ← alloc_page_block want;
  obj_mod (fun r => mkRun (with_elems (elems (blocks r) ++ [block]) (blocks r)) (next_offset r) (active_bytes r) (committed_bytes r));;
  let committed := page_block_alloc_bytes want in
  obj_mod (fun r => with_sizes (committed_bytes r + committed) committed r);;
  r ← obj_get (fun r => r);
  mret (Z.of_nat (length (elems (blocks r))) - 1, 0).

(** The part both variants share: where [size > 0] bytes go. *)
Definition reserve_space (size : Z) : Op (Z * Z) :=
  r ← obj_get (fun r => r);
  let block_offset := Z.land (next_offset r) chunk_mask in
  let block_index := Z.shiftr (next_offset r) chunk_shift in
  place ← (if block_index <? Z.of_nat (length (elems (blocks r))) then use_active size block_index block_offset else mret (block_index, block_offset));
  r ← obj_get (fun r => r);
  if Z.of_nat (length (elems (blocks r))) <=? place.1 then start_block size else mret place.

(** The offset as 32 bits, and the place to write to. *)
Definition reserve_run_bytes (size : Z) : Op (Z * option (Z * Z)) :=
  r ← obj_get (fun r => r);
  if size =? 0 then mret (wrap 32 (next_offset r), None)
  else
    place ← reserve_space size;
    r ← obj_get (fun r => r);
    obj_mod (advance size);;
    mret (wrap 32 (next_offset r), Some place).

(** The variant that returns the block and the offset in it separately. *)
Definition reserve_run_bytes_split (size : Z) : Op (Z * Z * option (Z * Z)) :=
  r ← obj_get (fun r => r);
  if size =? 0 then mret (wrap 32 (Z.shiftr (next_offset r) chunk_shift), wrap 32 (Z.land (next_offset r) chunk_mask), None)
  else
    place ← reserve_space size;
    obj_mod (advance size);;
    mret (wrap 32 place.1, wrap 32 place.2, Some place).

(** Copying [bs] to a reserved place. *)
Definition write_at (place : Z * Z) (bs : bytes) : Op unit :=
  r ← obj_get (fun r => r);
  block ← need (elems (blocks r) !! Z.to_nat place.1);
  let off := Z.to_nat place.2 in
  require ((off <=? length (data block))%nat && (place.2 + Z.of_nat (length bs) <=? block_bytes block));;
  obj_mod (with_block place.1 (mkBlock (take off (data block) ++ bs ++ drop (off + length bs) (data block)) (block_bytes block) (shared block))).

(** The bytes at an offset. *)
Definition read (offset : Z) (n : nat) (r : Run) : option bytes :=
  block ← elems (blocks r) !! Z.to_nat (Z.shiftr offset chunk_shift);
  slice (Z.to_nat (Z.land offset chunk_mask)) n (data block).

(** What the users of a run do with it: reserve, then copy. *)
Definition append_run (bs : bytes) : Op Z :=
  '(offset, dst) ← reserve_run_bytes (Z.of_nat (length bs));
  match dst with
  | Some place => write_at place bs;; mret offset
  | None => mret offset
  end.
End code.

(** ** The run is an append-only memory *)

Section spec.
Variable page : Z.
Variable chunk_shift : Z.
Variable growth : double.
Variable huge_page : Z -> bool.
Hypothesis Hpage : exists k, 0 <= k /\ page = 2 ^ k.
Hypothesis Hshift : 16 <= chunk_shift <= 31.
Hypothesis Hgrowth : forall c, 0 < c < 2 ^ 32 -> 0 <= trunc (mul (of_int c) growth) < 2 ^ 60.
Implicit Types (r : Run) (bs : bytes).

Abbreviation chunk := (chunk_bytes chunk_shift).
Abbreviation alloc := (page_block_alloc_bytes page).

Lemma chunk_range : 2 ^ 16 <= chunk <= 2 ^ 31.
Proof. unfold chunk_bytes. split; apply Z.pow_le_mono_r; lia. Qed.

Lemma offset_in_block n : Z.land n (chunk_mask chunk_shift) = n mod chunk.
Proof. unfold chunk_mask, chunk_bytes. rewrite Z.sub_1_r, <- Z.ones_equiv. apply Z.land_ones. lia. Qed.

Lemma block_of_offset n : Z.shiftr n chunk_shift = n / chunk.
Proof. apply Z.shiftr_div_pow2. lia. Qed.

Lemma alloc_spec b : 0 < b <= chunk -> b <= alloc b <= chunk.
Proof.
  intros Hb. unfold page_block_alloc_bytes. destruct (Z.leb_spec page b) as [Hp|]; [|lia]. destruct Hpage as (k & Hk & Ek).
  assert (Hks : k <= chunk_shift). { destruct (Z.le_gt_cases k chunk_shift); [done|]. pose proof (Z.pow_lt_mono_r 2 chunk_shift k). unfold chunk_bytes in *. lia. }
  assert (Ec : chunk = page * 2 ^ (chunk_shift - k)) by (unfold chunk_bytes; rewrite Ek, <- Z.pow_add_r by lia; f_equal; lia).
  assert (0 < page) by (rewrite Ek; apply Z.pow_pos_nonneg; lia). unfold round_up_to_page.
  pose proof (Z.div_mod (b + page - 1) page ltac:(lia)). pose proof (Z.mod_pos_bound (b + page - 1) page ltac:(lia)).
  assert ((b + page - 1) / page < 2 ^ (chunk_shift - k) + 1) by (apply Z.div_lt_upper_bound; lia). nia.
Qed.

Lemma alloc_idem b : 0 <= b -> alloc (alloc b) = alloc b.
Proof.
  intros Hb. destruct Hpage as (k & Hk & Ek). assert (Hp : 0 < page) by (rewrite Ek; apply Z.pow_pos_nonneg; lia). unfold page_block_alloc_bytes, round_up_to_page.
  destruct (Z.leb_spec page b) as [H|]; [|by rewrite (proj2 (Z.leb_gt _ _))]. set (q := (b + page - 1) / page).
  assert (1 <= q) by (apply Z.div_le_lower_bound; lia). rewrite (proj2 (Z.leb_le _ _)) by nia. f_equal.
  replace (q * page + page - 1) with (page - 1 + q * page) by lia. rewrite Z.div_add by lia. rewrite (Z.div_small (page - 1)) by lia. lia.
Qed.

Lemma next_grow_spec current needed :
  0 < current <= chunk -> 0 < needed <= chunk -> exists g, next_grow_bytes page growth current needed = Some g /\ needed <= g.
Proof.
  intros Hc Hn. pose proof chunk_range. destruct (Hgrowth current ltac:(lia)) as [H0 H1]. unfold next_grow_bytes, to_size. rewrite (proj2 (Z.ltb_lt _ _)) by lia. cbn [mbind option_bind].
  set (t := trunc _) in *. clearbody t. eexists. split; [done|]. set (want := if _ <=? current then _ else _). assert (Hw : needed <= want) by (subst want; repeat case_match; lia). clearbody want.
  destruct (_ <=? want); [|done]. destruct Hpage as (k & Hk & Ek). assert (0 < page) by (rewrite Ek; apply Z.pow_pos_nonneg; lia). unfold round_up_to_page.
  pose proof (Z.div_mod (want + page - 1) page ltac:(lia)). pose proof (Z.mod_pos_bound (want + page - 1) page ltac:(lia)). nia.
Qed.

(** *** Invariant *)

Definition sum_bytes (l : list Block) : Z := foldr (fun b n => block_bytes b + n) 0 l.

(** What always holds: the committed bytes are those of the blocks, and the vector of blocks is
    no larger than doubling makes it. *)
Record sound r : Prop := mkSound {
  so_next : 0 <= next_offset r;
  so_vec : 0 <= capacity (blocks r) <= 2 * Z.of_nat (length (elems (blocks r))) + 1;
  so_committed : committed_bytes r = sum_bytes (elems (blocks r));
  so_active : 0 <= active_bytes r <= chunk;
  so_alloc : alloc (active_bytes r) = active_bytes r;
}.

(** The last block is the one [next_offset] lies in, written up to there, with room for [room] more bytes. *)
Definition open_at (room : Z) r : Prop :=
  next_offset r / chunk = Z.of_nat (length (elems (blocks r))) - 1 /\ next_offset r mod chunk + room <= active_bytes r /\
  exists b, elems (blocks r) !! Z.to_nat (next_offset r / chunk) = Some b /\ Z.of_nat (length (data b)) = next_offset r mod chunk /\ block_bytes b = active_bytes r.

(** All blocks are closed. *)
Definition closed r : Prop := next_offset r / chunk = Z.of_nat (length (elems (blocks r))) /\ next_offset r mod chunk = 0.

Definition run_ok r : Prop := sound r /\ (closed r \/ 0 < next_offset r mod chunk /\ open_at 0 r).

(** Everything that can be read stays. *)
Definition keeps r r' : Prop := forall offset n bs, read chunk_shift offset n r = Some bs -> read chunk_shift offset n r' = Some bs.

Lemma keeps_refl r : keeps r r.
Proof. by intros ???. Qed.

Lemma keeps_trans r1 r2 r3 : keeps r1 r2 -> keeps r2 r3 -> keeps r1 r3.
Proof. intros H1 H2 o n bs H. by apply H2, H1. Qed.

Lemma keeps_blocks r r' : elems (blocks r') = elems (blocks r) -> keeps r r'.
Proof. intros E o n bs. unfold read. by rewrite E. Qed.

Lemma slice_prefix off n (l l' : bytes) bs : l `prefix_of` l' -> slice off n l = Some bs -> slice off n l' = Some bs.
Proof.
  intros [k ->]. unfold slice. destruct (decide (off + n <= length l)%nat) as [Hl|]; [|done]. rewrite decide_True by (rewrite length_app; lia). intros [= <-].
  by rewrite drop_app_le, take_app_le by (rewrite ?length_drop; lia).
Qed.

(** Replacing a block by one that starts with the same bytes keeps what can be read. *)
Lemma keeps_block r r' i b b' :
  elems (blocks r) !! i = Some b -> elems (blocks r') = <[i := b']> (elems (blocks r)) -> data b `prefix_of` data b' -> keeps r r'.
Proof.
  intros Hb E Hp o n bs. unfold read. rewrite E. set (j := Z.to_nat (Z.shiftr o chunk_shift)). destruct (decide (i = j)) as [<-|Hne].
  - rewrite list_lookup_insert_eq, Hb by (by eapply lookup_lt_Some). by apply slice_prefix.
  - by rewrite list_lookup_insert_ne.
Qed.

Lemma sum_bytes_app l l' : sum_bytes (l ++ l') = sum_bytes l + sum_bytes l'.
Proof. unfold sum_bytes. induction l as [|b l IH]; simpl; [lia|]. rewrite IH. lia. Qed.

Lemma sum_bytes_insert l i b b' : l !! i = Some b -> sum_bytes (<[i := b']> l) = sum_bytes l - block_bytes b + block_bytes b'.
Proof.
  revert i. induction l as [|c l IH]; intros [|i] Hb; simplify_eq/=; [lia|]. rewrite (IH i) by done. lia.
Qed.

Lemma run_ok_empty : run_ok empty_run.
Proof.
  pose proof chunk_range. split; [split; cbn; try lia|]. { destruct Hpage as (k & Hk & ->). unfold page_block_alloc_bytes. by rewrite (proj2 (Z.leb_gt _ _)) by (apply Z.pow_pos_nonneg; lia). } left. unfold closed. cbn. rewrite Z.div_0_l, Z.mod_0_l by lia. done.
Qed.

(** *** Each step *)

Lemma sound_block r i b b' :
  sound r -> elems (blocks r) !! i = Some b -> block_bytes b' = block_bytes b -> sound (with_block (Z.of_nat i) b' r).
Proof.
  intros [H1 H2 H3 H4 H5] Hb Eb. split; cbn; rewrite ?length_insert; [done|done| |done|done]. rewrite Nat2Z.id, (sum_bytes_insert _ _ b) by done. lia.
Qed.

Lemma wp_grow_page_block {O} old used new_bytes (Q : Block -> world O -> Prop) E w :
  used = Z.of_nat (length (data old)) -> 0 < new_bytes <= chunk -> used <= new_bytes ->
  (forall mm, (unlimited (mem w) -> mm = mem w) -> Q (mkBlock (data old) (alloc new_bytes) false) (World mm (obj w))) ->
  (~ unlimited (mem w) -> alloc new_bytes <> block_bytes old -> forall mm, E MaxMemoryExceeded (World mm (obj w))) ->
  wp (grow_page_block page old used new_bytes) Q E w.
Proof.
  intros -> Hn Hu HQ HE. pose proof (alloc_spec new_bytes Hn). unfold grow_page_block. apply wp_bind.
  assert (Hk : forall mm, (unlimited (mem w) -> mm = mem w) -> wp (require ((Z.of_nat (length (data old)) <=? Z.of_nat (length (data old))) && (Z.of_nat (length (data old)) <=? alloc new_bytes));;
    mret (mkBlock (take (Z.to_nat (Z.of_nat (length (data old)))) (data old)) (alloc new_bytes) false)) Q E (World mm (obj w))).
  { intros mm Hm. apply wp_bind, wp_require; [lia|]. apply wp_ret. rewrite Nat2Z.id, firstn_all. by apply HQ. }
  apply wp_when.
  - intros Hlt. apply wp_ensure_memory_growth; [done|]. intros Hl mm. apply HE; [done|lia].
  - intros _. destruct w as [mm o]. by apply (Hk mm).
Qed.

(** A block that does not get larger is not refused. *)
Lemma wp_shrink_page_block {O} old used new_bytes (Q : Block -> world O -> Prop) E w :
  used = Z.of_nat (length (data old)) -> 0 < new_bytes <= chunk -> used <= new_bytes -> alloc new_bytes <= block_bytes old ->
  Q (mkBlock (data old) (alloc new_bytes) false) w -> wp (grow_page_block page old used new_bytes) Q E w.
Proof.
  intros -> Hn Hu Hle HQ. pose proof (alloc_spec new_bytes Hn). unfold grow_page_block. apply wp_bind, wp_when; [lia|]. intros _.
  apply wp_bind, wp_require; [lia|]. apply wp_ret. by rewrite Nat2Z.id, firstn_all.
Qed.

(** After a step towards [size] bytes: the offsets go on by less than [size]. *)
Definition moved (size : Z) r r' : Prop := keeps r r' /\ next_offset r <= next_offset r' <= next_offset r + size.

Lemma moved_refl size r : 0 <= size -> moved size r r.
Proof. intros Hs. split; [apply keeps_refl|lia]. Qed.

Lemma wp_freeze i b (Q : bool -> world Run -> Prop) E w :
  sound (obj w) -> elems (blocks (obj w)) !! i = Some b -> block_bytes b = active_bytes (obj w) ->
  (forall ok mm r', (unlimited (mem w) -> mm = mem w) -> sound r' -> keeps (obj w) r' -> length (elems (blocks r')) = length (elems (blocks (obj w))) ->
     next_offset r' = next_offset (obj w) -> Q ok (World mm r')) ->
  wp (maybe_freeze_block_to_huge chunk_shift huge_page (Z.of_nat i) (Z.of_nat (length (data b))) (active_bytes (obj w))) Q E w.
Proof.
  intros Hs Hb Ha HQ. destruct w as [mm r]. cbn [mem obj] in *. unfold maybe_freeze_block_to_huge. set (grown := if _ <? chunk then _ else _).
  assert (Hk : forall mm', (unlimited mm -> mm' = mm) -> granted grown mm' -> wp (r ← obj_get (fun r => r); block ← need (elems (blocks r) !! Z.to_nat (Z.of_nat i));
    if huge_page (next_offset r) then
      ensure_memory_growth grown;;
      require (Z.of_nat (length (data b)) <=? Z.of_nat (length (data block)));;
      obj_mod (fun r0 => with_block (Z.of_nat i) (mkBlock (take (Z.to_nat (Z.of_nat (length (data b)))) (data block)) chunk false)
                          (with_sizes (committed_bytes r0 + (chunk - active_bytes r)) (active_bytes r0) r0));;
      mret true
    else mret false) Q E (World mm' r)).
  { intros mm' Hm Hg. apply wp_bind, wp_obj_get, wp_bind. cbn [obj]. apply (wp_need _ b); [by rewrite Nat2Z.id|]. destruct (huge_page _).
    2: { apply wp_ret. apply HQ; [done|done|apply keeps_refl|done|done]. }
    assert (Hg' : wp (ensure_memory_growth grown) (fun _ w' => (unlimited mm -> mem w' = mm) /\ obj w' = r) E (World mm' r)).
    { unfold wp, ensure_memory_growth. cbn [mem obj]. destruct mm' as [bu|]; [|done]. cbn in Hg. destruct (ensure grown bu) as [ok bu'] eqn:He. cbn in Hg. subst ok. cbn. split; [|done].
      intros Hu. rewrite <- (Hm Hu). rewrite <- (Hm Hu) in Hu. rewrite (unlimited_ensure grown bu Hu) in He. by injection He as ->. }
    apply wp_bind. eapply wp_mono; [exact Hg'| |done]. intros u [m2 r2] [Hm2 Hr2]. cbn in Hm2, Hr2. subst r2.
    apply wp_bind, wp_require; [lia|]. apply wp_bind, wp_obj_mod, wp_ret. cbn [mem obj]. rewrite Nat2Z.id, firstn_all.
    apply HQ; [done| | |by cbn; rewrite length_insert|done].
    - destruct Hs as [H1 H2 H3 H4 H5]. split; cbn; rewrite ?length_insert; [done|done| |done|done]. rewrite Nat2Z.id, (sum_bytes_insert _ _ b) by done. cbn. lia.
    - eapply (keeps_block _ _ i b); [done|cbn; by rewrite Nat2Z.id|done]. }
  apply wp_bind, wp_memory_growth_allowed.
  - intros Hu. apply Hk; [done|by apply unlimited_granted].
  - intros Hu ok bu Hok. cbn [obj]. destruct ok; cbn [negb]; [apply Hk; [done|by apply Hok]|]. apply wp_ret. apply HQ; [done|done|apply keeps_refl|done|done].
Qed.

(** In the last block there is room, or it is closed. *)
Lemma wp_use_active size (Q : Z * Z -> world Run -> Prop) E w :
  let r := obj w in
  sound r -> open_at 0 r -> 0 < next_offset r mod chunk -> 0 < size <= chunk ->
  (forall mm r', (unlimited (mem w) -> mm = mem w) -> sound r' -> keeps r r' -> next_offset r' = next_offset r -> open_at size r' ->
     Q (next_offset r / chunk, next_offset r mod chunk) (World mm r')) ->
  (forall mm r', (unlimited (mem w) -> mm = mem w) -> sound r' -> moved size r r' -> closed r' ->
     Q (next_offset r' / chunk, next_offset r' mod chunk) (World mm r')) ->
  (~ unlimited (mem w) -> forall mm, E MaxMemoryExceeded (World mm r)) ->
  wp (use_active page chunk_shift growth huge_page size (next_offset r / chunk) (next_offset r mod chunk)) Q E w.
Proof.
  destruct w as [mm r]. cbn [mem obj]. cbv zeta. intros Hs (Hlast & Hact & b & Hb & Hlen & Hbb) Hoff Hsize HQ1 HQ2 HE. pose proof chunk_range as Hc.
  pose proof (so_next _ Hs) as Hn. assert (Hi : 0 <= next_offset r / chunk) by (apply Z.div_pos; lia). pose proof (so_active _ Hs) as Ha.
  set (i := Z.to_nat (next_offset r / chunk)) in *. assert (Ei : next_offset r / chunk = Z.of_nat i) by lia.
  assert (Hfresh : forall n mm', (unlimited mm -> mm' = mm) -> 0 < n <= chunk -> next_offset r mod chunk + size <= alloc n ->
    let r' := with_sizes (committed_bytes r + (alloc n - active_bytes r)) (alloc n) (with_block (Z.of_nat i) (mkBlock (data b) (alloc n) false) r) in
    sound r' /\ keeps r r' /\ open_at size r').
  { intros n mm' Hm Hn' Hroom. cbv zeta. pose proof (alloc_spec n Hn'). destruct Hs as [H1 H2 H3 H4 H5]. split_and!.
    - split; cbn; rewrite ?length_insert; [done|done| |lia|apply alloc_idem; lia]. rewrite Nat2Z.id, (sum_bytes_insert _ _ b) by done. cbn. lia.
    - eapply (keeps_block _ _ i b); [done|cbn; by rewrite Nat2Z.id|done].
    - split_and!; cbn; rewrite ?length_insert; [done|lia|]. exists (mkBlock (data b) (alloc n) false). split_and!; [|done|done].
      fold i. rewrite Nat2Z.id. apply list_lookup_insert_eq. by eapply lookup_lt_Some. }
  rewrite Ei in HQ1 |- *. unfold use_active. apply wp_bind, wp_obj_get, wp_bind. cbn [obj]. apply (wp_need _ b); [by rewrite Nat2Z.id|].
  destruct (Z.leb_spec (next_offset r mod chunk + size) (active_bytes r)) as [Hfit|Hfit]; [|destruct (Z.leb_spec (next_offset r mod chunk + size) chunk) as [Hgrow|Hstr]].
  - apply wp_bind, wp_when.
    + intros _. apply wp_bind, wp_grow_page_block; [by rewrite Hlen|lia|lia| |].
      * intros mm' Hm. cbn [mem obj] in *. apply wp_obj_mod, wp_ret. cbn [mem obj]. destruct (Hfresh (active_bytes r) mm' Hm ltac:(lia) ltac:(rewrite (so_alloc _ Hs); lia)) as (K1 & K2 & K3).
        rewrite (so_alloc _ Hs) in K1, K2, K3 |- *. rewrite Z.sub_diag, Z.add_0_r in K1, K2, K3. by apply HQ1.
      * intros Hu _ mm'. by apply HE.
    + intros _. apply wp_ret. apply HQ1; [done|done|apply keeps_refl|done|]. split_and!; [done|lia|]. by exists b.
  - destruct (next_grow_spec (active_bytes r) (next_offset r mod chunk + size) ltac:(lia) ltac:(lia)) as (g & Hg & Hng). apply wp_bind, (wp_need _ g); [done|].
    apply wp_bind, wp_grow_page_block; [by rewrite Hlen|lia|lia| |].
    + intros mm' Hm. cbn [mem obj] in *. apply wp_bind, wp_obj_mod, wp_bind, wp_obj_mod, wp_ret. cbn [mem obj]. pose proof (alloc_spec (Z.min chunk g) ltac:(lia)).
      destruct (Hfresh (Z.min chunk g) mm' Hm ltac:(lia) ltac:(lia)) as (K1 & K2 & K3). by apply HQ1.
    + intros Hu _ mm'. by apply HE.
  - apply wp_bind. rewrite <- Hlen. apply wp_freeze; [done|done|done|]. intros ok mm' r' Hm Hs' Hk El En. cbn [mem obj] in *. apply wp_bind, wp_obj_mod, wp_ret. cbn [mem obj].
    pose proof (Z.div_mod (next_offset r) chunk ltac:(lia)) as Hdm. pose proof (Z.mod_pos_bound (next_offset r) chunk ltac:(lia)).
    assert (En' : next_offset (advance (chunk - Z.of_nat (length (data b))) r') = (Z.of_nat i + 1) * chunk) by (cbn; lia).
    assert (Ed : next_offset (advance (chunk - Z.of_nat (length (data b))) r') / chunk = Z.of_nat i + 1) by (rewrite En'; apply Z.div_mul; lia).
    assert (Em : next_offset (advance (chunk - Z.of_nat (length (data b))) r') mod chunk = 0) by (rewrite En'; apply Z.mod_mul; lia).
    rewrite <- Ed. rewrite <- Em. apply HQ2; [done| | |].
    + destruct Hs' as [H1 H2 H3 H4 H5]. split; cbn; [lia|done..].
    + split; [by eapply keeps_trans, keeps_blocks|]. rewrite En'. lia.
    + split; [|done]. rewrite Ed. cbn. lia.
Qed.

(** A fresh block has room for what it is started for. *)
Lemma wp_start_block size (Q : Z * Z -> world Run -> Prop) E w :
  let r := obj w in
  sound r -> closed r -> 0 < size <= chunk -> next_offset r <= 2 ^ 40 ->
  (forall mm r', (unlimited (mem w) -> mm = mem w) -> sound r' -> keeps r r' -> next_offset r' = next_offset r -> open_at size r' ->
     Q (next_offset r / chunk, next_offset r mod chunk) (World mm r')) ->
  (~ unlimited (mem w) -> forall mm r', sound r' -> keeps r r' -> next_offset r' = next_offset r -> closed r' -> E MaxMemoryExceeded (World mm r')) ->
  wp (start_block page chunk_shift size) Q E w.
Proof.
  destruct w as [mm r]. cbn [mem obj]. cbv zeta. intros Hs [Hl Ho] Hsize Hsmall HQ HE. pose proof chunk_range as Hc. pose proof Hs as [H1 H2 H3 H4 H5].
  assert (Hlen : Z.of_nat (length (elems (blocks r))) <= 2 ^ 40).
  { rewrite <- Hl. apply Z.div_le_upper_bound; nia. }
  set (want := Z.min chunk (Z.max kInitialArenaBytes size)). assert (Hw : 0 < want <= chunk /\ size <= want) by (unfold want, kInitialArenaBytes; lia).
  pose proof (alloc_spec want ltac:(lia)) as Haw.
  assert (Hgo : forall v mm', (unlimited mm -> mm' = mm) -> elems v = elems (blocks r) -> 0 <= capacity v <= 2 * Z.of_nat (length (elems (blocks r))) + 1 ->
    wp (block ← alloc_page_block page want;
        obj_mod (fun r => mkRun (with_elems (elems (blocks r) ++ [block]) (blocks r)) (next_offset r) (active_bytes r) (committed_bytes r));;
        obj_mod (fun r => with_sizes (committed_bytes r + alloc want) (alloc want) r);;
        r ← obj_get (fun r => r); mret (Z.of_nat (length (elems (blocks r))) - 1, 0)) Q E (World mm' (mkRun v (next_offset r) (active_bytes r) (committed_bytes r)))).
  { intros v mm' Hm Ev Hcap. apply wp_bind. unfold alloc_page_block. apply wp_bind, wp_ensure_memory_growth.
    - intros m2 Hm2. apply wp_ret, wp_bind, wp_obj_mod, wp_bind, wp_obj_mod, wp_bind, wp_obj_get, wp_ret. cbn [mem obj blocks with_sizes with_elems elems]. rewrite Ev, length_app. cbn [length].
      replace (Z.of_nat (length (elems (blocks r)) + 1) - 1) with (next_offset r / chunk) by lia. rewrite <- Ho. apply HQ.
      + intros Hu. rewrite <- (Hm Hu). apply Hm2. by rewrite (Hm Hu).
      + split; cbn; rewrite ?length_app; cbn [length]; [done|lia| |lia|apply alloc_idem; lia]. rewrite H3, sum_bytes_app. cbn. lia.
      + intros o n bs Hr. unfold read in *. cbn. destruct (elems (blocks r) !! Z.to_nat (Z.shiftr o chunk_shift)) as [c|] eqn:Hc'; [|done]. by rewrite (lookup_app_l_Some _ _ _ _ Hc').
      + done.
      + split_and!; cbn; [rewrite length_app; cbn; lia|lia|]. exists (mkBlock [] (alloc want) false). split_and!; [|done|done].
        rewrite lookup_app_r by lia. by replace (Z.to_nat _ - _)%nat with 0%nat by lia.
    - intros Hu m2. apply HE; [intros Hu'; apply Hu; cbn; by rewrite (Hm Hu')| |by apply keeps_blocks|done|].
      + split; cbn; rewrite ?Ev; done.
      + split; [by cbn; rewrite Ev|done]. }
  unfold start_block. fold want. apply wp_bind, wp_zoom, wp_reserve_push_small; cbn [mem obj].
  - apply push_target_small; unfold sizeof_block_ptr; lia.
  - lia.
  - intros m2 c Hm Hc1 Hc2. assert (0 <= c) by (unfold vsize in Hc1; pose proof (push_target_grows 1 (capacity (blocks r)) ltac:(lia)); lia).
    apply (Hgo (Vec (elems (blocks r)) c) m2 Hm eq_refl). split; [done|]. cbn. unfold vsize, push_target, u64_max in *. repeat case_match; lia.
  - intros Hu m2. destruct r as [v n a c]. apply HE; [done|done|apply keeps_refl|done|done].
Qed.

Lemma wp_reserve_space size (Q : Z * Z -> world Run -> Prop) E w :
  let r := obj w in
  run_ok r -> 0 < size <= chunk -> next_offset r <= 2 ^ 39 ->
  (forall mm r', (unlimited (mem w) -> mm = mem w) -> sound r' -> open_at size r' -> moved size r r' -> Q (next_offset r' / chunk, next_offset r' mod chunk) (World mm r')) ->
  (~ unlimited (mem w) -> forall mm r', run_ok r' -> moved size r r' -> E MaxMemoryExceeded (World mm r')) ->
  wp (reserve_space page chunk_shift growth huge_page size) Q E w.
Proof.
  destruct w as [mm r]. cbn [mem obj]. cbv zeta. intros [Hs Htail] Hsize Hsmall HQ HE. pose proof chunk_range as Hc.
  assert (Hclosed : forall mm' r', (unlimited mm -> mm' = mm) -> sound r' -> moved size r r' -> closed r' ->
    wp (r2 ← obj_get (fun r => r); if Z.of_nat (length (elems (blocks r2))) <=? next_offset r' / chunk then start_block page chunk_shift size else mret (next_offset r' / chunk, next_offset r' mod chunk)) Q E (World mm' r')).
  { intros mm' r' Hm Hs' [Hk Hn'] Hcl. apply wp_bind, wp_obj_get. cbn [obj]. rewrite (proj2 (Z.leb_le _ _)) by (destruct Hcl; lia).
    apply wp_start_block; cbn [mem obj]; [done|done|done|lia| |].
    - intros m2 r2 Hm2 Hs2 Hk2 En Ho. rewrite <- En. apply HQ; [intros Hu; rewrite <- (Hm Hu); apply Hm2; by rewrite (Hm Hu)|done|done|]. split; [by eapply keeps_trans|lia].
    - intros Hu m2 r2 Hs2 Hk2 En Hcl2. apply HE; [intros Hu'; apply Hu; by rewrite (Hm Hu')|by split; [|left]|]. split; [by eapply keeps_trans|lia]. }
  unfold reserve_space. apply wp_bind, wp_obj_get, wp_bind. cbn [obj]. rewrite offset_in_block, block_of_offset. destruct Htail as [Hcl|[Ho1 Ho2]].
  - rewrite (proj2 (Z.ltb_ge _ _)) by (destruct Hcl; lia). apply wp_ret. cbn [fst]. apply Hclosed; [done|done|apply moved_refl; lia|done].
  - pose proof (proj1 Ho2) as Hlast. rewrite (proj2 (Z.ltb_lt _ _)) by lia. apply wp_use_active; cbn [mem obj]; [done..| | |].
    + intros mm' r' Hm Hs' Hk En Hop. cbn [fst]. apply wp_bind, wp_obj_get. cbn [obj]. pose proof (proj1 Hop) as Hl'. rewrite En in Hl'. rewrite (proj2 (Z.leb_gt _ _)) by lia. apply wp_ret. rewrite <- En. apply HQ; [done..|]. split; [done|lia].
    + intros mm' r' Hm Hs' Hmv Hcl. cbn [fst]. by apply Hclosed.
    + intros Hu mm'. apply HE; [done|by split; [|right]|apply moved_refl; lia].
Qed.

(** What is written at the reserved place is there, and the run is ready for more. *)
Lemma wp_write size bs (Q : unit -> world Run -> Prop) E w r :
  sound r -> open_at size r -> Z.of_nat (length bs) = size -> 0 < size <= chunk -> obj w = advance size r ->
  (forall r', run_ok r' -> keeps r r' -> read chunk_shift (next_offset r) (length bs) r' = Some bs -> next_offset r' = next_offset r + size -> Q tt (World (mem w) r')) ->
  wp (write_at (next_offset r / chunk, next_offset r mod chunk) bs) Q E w.
Proof.
  intros Hs (Hlast & Hroom & b & Hb & Hlen & Hbb) Hbs Hsize Hw HQ. destruct w as [mm r0]. cbn [mem obj] in *. subst r0. pose proof chunk_range as Hc. pose proof Hs as [H1 H2 H3 H4 H5].
  pose proof (Z.mod_pos_bound (next_offset r) chunk ltac:(lia)) as Hm. pose proof (Z.div_mod (next_offset r) chunk ltac:(lia)) as Hd.
  assert (Hi : 0 <= next_offset r / chunk) by (apply Z.div_pos; lia).
  unfold write_at. apply wp_bind, wp_obj_get, wp_bind. cbn [obj fst snd]. apply (wp_need _ b); [done|]. apply wp_bind, wp_require; [lia|]. apply wp_obj_mod. cbn [mem obj].
  replace (Z.to_nat (next_offset r mod chunk)) with (length (data b)) by lia. rewrite firstn_all, drop_ge by lia. rewrite app_nil_r.
  set (b' := mkBlock (data b ++ bs) (block_bytes b) (shared b)). set (i := Z.to_nat (next_offset r / chunk)) in *. assert (Ei : next_offset r / chunk = Z.of_nat i) by lia.
  assert (Hlt : (i < length (elems (blocks r)))%nat) by (by eapply lookup_lt_Some).
  set (r' := with_block (next_offset r / chunk) b' (advance size r)). assert (Eb : elems (blocks r') = <[i := b']> (elems (blocks r))) by done.
  assert (Es : sound r').
  { split; [cbn; lia|cbn; by rewrite length_insert| |cbn; done|done]. rewrite Eb, (sum_bytes_insert _ _ b) by done. cbn. lia. }
  apply HQ; [split; [done|]|apply (keeps_block r r' i b b' Hb Eb); by exists bs| |done].
  - assert (Hcase : (next_offset r + size = (Z.of_nat i + 1) * chunk) \/ next_offset r + size < (Z.of_nat i + 1) * chunk) by lia.
    unfold closed, open_at. rewrite Eb. cbn [next_offset r' with_block advance active_bytes]. rewrite length_insert. destruct Hcase as [Efull|Hmore].
    + left. rewrite Efull. split; [rewrite Z.div_mul by lia; lia|apply Z.mod_mul; lia].
    + right. assert (Ed : (next_offset r + size) / chunk = Z.of_nat i) by (symmetry; apply (Z.div_unique _ _ _ (next_offset r mod chunk + size)); lia).
      assert (Em : (next_offset r + size) mod chunk = next_offset r mod chunk + size) by (symmetry; apply (Z.mod_unique _ _ (Z.of_nat i)); lia).
      rewrite Ed, Em. split; [lia|]. split_and!; [lia|lia|]. exists b'. rewrite Nat2Z.id. split_and!; [by apply list_lookup_insert_eq|cbn; rewrite length_app; lia|done].
  - unfold read. rewrite block_of_offset, offset_in_block, Eb. fold i. rewrite list_lookup_insert_eq by done. cbn [mbind option_bind b' data].
    replace (Z.to_nat (next_offset r mod chunk)) with (length (data b)) by lia. rewrite <- (app_nil_r bs) at 2. by apply slice_app.
Qed.

(** Appending: the bytes can be read at the offset from then on, and whatever could be read before still can;
    the run goes on by less than twice their number.  Only a memory limit refuses, and then nothing is lost. *)
Lemma wp_append_run bs (Q : Z -> world Run -> Prop) E w :
  let r := obj w in
  run_ok r -> Z.of_nat (length bs) <= chunk -> next_offset r <= 2 ^ 39 ->
  (forall mm r' offset, (unlimited (mem w) -> mm = mem w) -> run_ok r' -> keeps r r' -> (bs <> [] -> read chunk_shift offset (length bs) r' = Some bs) ->
     next_offset r <= offset -> offset + Z.of_nat (length bs) = next_offset r' -> next_offset r' <= next_offset r + 2 * Z.of_nat (length bs) -> Q (wrap 32 offset) (World mm r')) ->
  (~ unlimited (mem w) -> forall mm r', run_ok r' -> keeps r r' -> next_offset r <= next_offset r' <= next_offset r + Z.of_nat (length bs) -> E MaxMemoryExceeded (World mm r')) ->
  wp (append_run page chunk_shift growth huge_page bs) Q E w.
Proof.
  destruct w as [mm r]. cbn [mem obj]. cbv zeta. intros Hr Hbs Hsmall HQ HE. unfold append_run. apply wp_bind. unfold reserve_run_bytes. apply wp_bind, wp_obj_get. cbn [obj].
  destruct (Z.eqb_spec (Z.of_nat (length bs)) 0) as [Hz|Hz].
  { apply wp_ret, wp_ret. apply HQ; [done|done|apply keeps_refl|by destruct bs|lia|lia|lia]. }
  apply wp_bind, wp_reserve_space; cbn [mem obj]; [done|lia|done| |].
  - intros mm' r' Hm Hs Ho [Hk Hn]. apply wp_bind, wp_obj_get, wp_bind, wp_obj_mod, wp_ret, wp_bind. cbn [mem obj].
    apply (wp_write (Z.of_nat (length bs)) bs _ _ _ r'); [done|done|done|lia|done|]. intros r2 Hr2 Hk2 Hrd En. cbn [mem]. apply wp_ret. apply HQ; [done|done|by eapply keeps_trans|done|lia|lia|lia].
  - intros Hu mm' r' Hr' [Hk Hn]. by apply HE.
Qed.
End spec.

(** ** Beyond 4 GiB *)

(** A run of two chunks of 2 GiB that are used up. *)
Definition full_run : Run :=
  mkRun (Vec [mkBlock (str "first") (2 ^ 31) false; mkBlock (str "second") (2 ^ 31) false] 2) (2 ^ 32) (2 ^ 31) (2 ^ 32).

(** The next offset does not fit 32 bits: what is appended is announced at offset 0, where other bytes are. *)
Example run_offset_wraps :
  match append_run 4096 31 kDefaultArenaGrowth (fun _ => false) (str "third") (World None full_run) with
  | Ok offset w => offset = 0 /\ read 31 offset 5 (obj w) = Some (str "first") /\ read 31 (2 ^ 32) 5 (obj w) = Some (str "third")
  | _ => False
  end.
Proof. vm_compute. split_and!; reflexivity. Qed.
