(* ===== verification/SetStorage.v ===== *)
(** * Storage of the members of a set

    Models [include/goblin/core/set_storage.hpp]: the encoded members of a set under dense
    ids, as offsets and lengths over a run of bytes ([PageArena]).  A member that is removed
    leaves its bytes behind, counted as dead; compaction repacks the run without changing
    ids. *)

From S2P Require Import Prelude StringEncoding Binary64 MemoryLimit PageArena.
From Stdlib Require Import ZArith Lia ZifyBool.

Import Double.

Local Open Scope Z_scope.

Record SetStorage := mkStorage {
  offsets_ : vec Z;
  lengths_ : vec Z;
  run_ : Run;
  used_bytes_ : Z;
  dead_bytes_ : Z;
}.

Definition empty_storage : SetStorage := mkStorage empty_vec empty_vec empty_run 0 0.

(** [kMaxEncodedBytes]. *)
Definition kMaxEncodedBytes : Z := kStringMaxEncodedBytes.

(** [configure_chunk_bytes]: the binary logarithm of the chunk. *)
Definition configured_shift (chunk_bytes : Z) : Z :=
  if negb ((0 <? chunk_bytes) && (Z.land chunk_bytes (chunk_bytes - 1) =? 0)) || (chunk_bytes <? 2 ^ 16) || (2 ^ 31 <? chunk_bytes) then 21
  else Z.log2 chunk_bytes.

Lemma configured_shift_range chunk_bytes : 16 <= configured_shift chunk_bytes <= 31.
Proof.
  unfold configured_shift. destruct (_ || _) eqn:E; [lia|]. apply orb_false_iff in E as [E H2%Z.ltb_ge]. apply orb_false_iff in E as [_ H1%Z.ltb_ge].
  split; [apply Z.log2_le_pow2; lia|]. pose proof (Z.log2_le_mono chunk_bytes (2 ^ 31) H2) as H. rewrite Z.log2_pow2 in H by lia. done.
Qed.

Definition size (st : SetStorage) : nat := vsize (offsets_ st).
Definition live_bytes (st : SetStorage) : Z := used_bytes_ st - dead_bytes_ st.
Definition allocated_bytes (st : SetStorage) : Z :=
  committed_bytes (run_ st) + capacity (offsets_ st) * 4 + capacity (lengths_ st) * 2 + capacity (blocks (run_ st)) * sizeof_block_ptr.

Section code.
Variable page : Z.
Variable chunk_shift : Z.
Variable growth_ : double.
Variable huge_page : Z -> bool.
(** The capacity a full [std::vector] of [n] elements grows to when one is pushed. *)
Variable vector_growth : Z -> Z.
(** [arena_compaction_allowed()]. *)
Variable compaction_allowed : bool.

Abbreviation Op A := (M (world SetStorage) A).
Abbreviation append := (append_run page chunk_shift growth_ huge_page).

Definition on_offsets {A} : M (world (vec Z)) A -> Op A :=
  zoom offsets_ (fun v st => mkStorage v (lengths_ st) (run_ st) (used_bytes_ st) (dead_bytes_ st)).
Definition on_lengths {A} : M (world (vec Z)) A -> Op A :=
  zoom lengths_ (fun v st => mkStorage (offsets_ st) v (run_ st) (used_bytes_ st) (dead_bytes_ st)).
Definition on_run {A} : M (world Run) A -> Op A :=
  zoom run_ (fun r st => mkStorage (offsets_ st) (lengths_ st) r (used_bytes_ st) (dead_bytes_ st)).

(** [std::vector::push_back]. *)
Definition push {T} (x : T) (v : vec T) : vec T :=
  Vec (elems v ++ [x]) (if Z.of_nat (vsize v) <? capacity v then capacity v else vector_growth (Z.of_nat (vsize v))).

Definition reserve (member_count : Z) : Op unit :=
  on_offsets (reserve_memory_vector 4 member_count);;
  on_lengths (reserve_memory_vector 2 member_count).

(** The loop of [reserve_additional]: the capacity grows in every round. *)
Fixpoint grow_to (fuel : nat) (need_ capacity : Z) : option Z :=
  if capacity <? need_ then
    match fuel with
    | O => None
    | S fuel =>
        grown ← to_size (mul (of_int capacity) growth_);
        grow_to fuel need_ (if capacity <? grown then grown else capacity + 1)
    end
  else Some capacity.

Definition reserve_additional (additional : Z) : Op unit :=
  if additional =? 0 then mret tt
  else
    st ← obj_get (fun st => st);
    let need_ := Z.of_nat (size st) + additional in
    if need_ <=? capacity (offsets_ st) then mret tt
    else
      capacity ← need (grow_to (Z.to_nat need_) need_ (if capacity (offsets_ st) =? 0 then 8 else capacity (offsets_ st)));
      on_offsets (reserve_memory_vector 4 capacity);;
      on_lengths (reserve_memory_vector 2 capacity).

(** The bytes an [EncodedString] writes, of the size it announces. *)
Definition append_encoded (encoded : EncodedString) : Op Z :=
  offset ← on_run (append (write_to encoded));
  obj_mod (fun st => mkStorage (offsets_ st) (lengths_ st) (run_ st) (used_bytes_ st + encoded_size_ encoded) (dead_bytes_ st));;
  mret offset.

Definition push_back_encoded (encoded : EncodedString) : Op nat :=
  st ← obj_get (fun st => st);
  if 2 ^ 32 - 1 <=? Z.of_nat (size st) then throw LengthError
  else if kMaxEncodedBytes <? encoded_size_ encoded then throw LengthError
  else
    let id := size st in
    when (Z.of_nat (size st) =? capacity (offsets_ st)) (reserve_additional 1);;
    offset ← append_encoded encoded;
    obj_mod (fun st => mkStorage (push offset (offsets_ st)) (push (wrap 16 (encoded_size_ encoded)) (lengths_ st)) (run_ st) (used_bytes_ st) (dead_bytes_ st));;
    mret id.

(** [None] is an access out of range, or to bytes that were not written. *)
Definition storage_view (st : SetStorage) (member_id : nat) : option bytes :=
  length_ ← elems (lengths_ st) !! member_id;
  if length_ =? 0 then Some []
  else
    offset ← elems (offsets_ st) !! member_id;
    read chunk_shift offset (Z.to_nat length_) (run_ st).

Definition orphan (member_id : nat) : Op unit :=
  st ← obj_get (fun st => st);
  n ← need (elems (lengths_ st) !! member_id);
  obj_mod (fun st => mkStorage (offsets_ st) (lengths_ st) (run_ st) (used_bytes_ st) (dead_bytes_ st + n)).

Definition copy_ref (dst src : nat) : Op unit :=
  st ← obj_get (fun st => st);
  require (dst <? size st)%nat;;
  offset ← need (elems (offsets_ st) !! src);
  length_ ← need (elems (lengths_ st) !! src);
  obj_mod (fun st => mkStorage (with_elems (<[dst := offset]> (elems (offsets_ st))) (offsets_ st)) (with_elems (<[dst := length_]> (elems (lengths_ st))) (lengths_ st))
                       (run_ st) (used_bytes_ st) (dead_bytes_ st)).

Definition pop_back (st : SetStorage) : SetStorage :=
  mkStorage (with_elems (removelast (elems (offsets_ st))) (offsets_ st)) (with_elems (removelast (elems (lengths_ st))) (lengths_ st)) (run_ st) (used_bytes_ st) (dead_bytes_ st).

(** The loop of [compact] over the ids: the offsets in the fresh run and the bytes in use. *)
Fixpoint repack (st : SetStorage) (ids : list nat) (offsets : list Z) (fresh_used : Z) : M (world Run) (list Z * Z) :=
  match ids with
  | [] => mret (offsets, fresh_used)
  | id :: ids =>
      member ← need (storage_view st id);
      offset ← append member;
      repack st ids (offsets ++ [offset]) (fresh_used + Z.of_nat (length member))
  end.

(** The run is built aside and then takes the place of the old one; an exception discards it. *)
Definition repack_all (st : SetStorage) (fresh : vec Z) : Op unit := fun w =>
  match repack st (seq 0 (size st)) [] 0 (World (mem w) empty_run) with
  | Ok (offsets, fresh_used) v => Ok tt (World (mem v) (mkStorage (with_elems offsets fresh) (lengths_ st) (obj v) fresh_used 0))
  | Exn e v => Exn e (World (mem v) (obj w))
  | Ub => Ub
  end.

Definition compact : Op unit :=
  st ← obj_get (fun st => st);
  if negb compaction_allowed || (dead_bytes_ st =? 0) then mret tt
  else
    fresh ← local empty_vec (reserve_memory_vector 4 (Z.of_nat (size st)));
    repack_all st fresh.

(** [std::vector::shrink_to_fit]. *)
Definition shrunk {T} (v : vec T) : vec T := Vec (elems v) (Z.of_nat (vsize v)).

Definition shrink_to_fit : Op unit :=
  obj_mod (fun st => mkStorage (shrunk (offsets_ st)) (shrunk (lengths_ st))
     (mkRun (shrunk (blocks (run_ st))) (next_offset (run_ st)) (active_bytes (run_ st)) (committed_bytes (run_ st))) (used_bytes_ st) (dead_bytes_ st));;
  on_run
    (r ← obj_get (fun r => r);
     match last (elems (blocks r)) with
     | None => mret tt
     | Some block =>
         let used := Z.land (next_offset r) (chunk_mask chunk_shift) in
         let used := if (used =? 0) && negb (next_offset r =? 0) then chunk_bytes chunk_shift else used in
         let desired := page_block_alloc_bytes page used in
         if active_bytes r <=? desired then mret tt
         else
           fresh ← grow_page_block page block used used;
           obj_mod (with_block (Z.of_nat (length (elems (blocks r)) - 1)) fresh);;
           obj_mod (fun r => with_sizes (committed_bytes r - (active_bytes r - desired)) desired r)
     end).
End code.

(** ** The members a storage holds *)

Section spec.
Variable page : Z.
Variable chunk_shift : Z.
Variable growth_ : double.
Variable huge_page : Z -> bool.
Variable vector_growth : Z -> Z.
Hypothesis Hpage : exists k, 0 <= k /\ page = 2 ^ k.
Hypothesis Hshift : 16 <= chunk_shift <= 31.
Hypothesis Hgrowth : forall c, 0 < c < 2 ^ 32 -> 0 <= trunc (mul (of_int c) growth_) < 2 ^ 60.
Implicit Types (st : SetStorage) (ms : list bytes) (m : bytes).

Abbreviation chunk := (chunk_bytes chunk_shift).
Abbreviation view := (storage_view chunk_shift).
Abbreviation run_ok := (run_ok page chunk_shift).

Definition total (ms : list bytes) : Z := foldr (fun m n => Z.of_nat (length m) + n) 0 ms.

(** Member [m] lies at [offset] and [n] of the run. *)
Definition lies (r : Run) (offset n : Z) (m : bytes) : Prop := n = Z.of_nat (length m) /\ (m <> [] -> read chunk_shift offset (length m) r = Some m).

(** The members by id; [extra] bytes of them are counted as dead already. *)
Record stores (extra : Z) st ms : Prop := mkStores {
  sr_offsets : length (elems (offsets_ st)) = length ms;
  sr_lengths : length (elems (lengths_ st)) = length ms;
  sr_lies : forall i o n m, elems (offsets_ st) !! i = Some o -> elems (lengths_ st) !! i = Some n -> ms !! i = Some m -> lies (run_ st) o n m;
  sr_run : run_ok (run_ st);
  sr_next : next_offset (run_ st) <= 2 ^ 32;
  sr_live : live_bytes st + extra = total ms;
  sr_used : used_bytes_ st <= next_offset (run_ st);
  sr_room : Z.of_nat (length ms) <= capacity (offsets_ st);
  sr_ids : Z.of_nat (length ms) < 2 ^ 32;
  sr_small : Forall (fun m => Z.of_nat (length m) <= kMaxEncodedBytes) ms;
}.

Lemma total_app ms ms' : total (ms ++ ms') = total ms + total ms'.
Proof. unfold total. induction ms as [|m ms IH]; simpl; [lia|]. rewrite IH. lia. Qed.

Lemma total_nonneg ms : 0 <= total ms.
Proof. unfold total. induction ms as [|m ms IH]; simpl; lia. Qed.

Lemma total_insert ms i m m' : ms !! i = Some m -> total (<[i := m']> ms) = total ms - Z.of_nat (length m) + Z.of_nat (length m').
Proof. unfold total. revert i. induction ms as [|x ms IH]; intros [|i] H; simplify_eq/=; [lia|]. rewrite (IH i) by done. lia. Qed.

Lemma total_lookup ms i m : ms !! i = Some m -> Z.of_nat (length m) <= total ms.
Proof. intros H. pose proof (total_insert ms i m [] H) as E. pose proof (total_nonneg (<[i := []]> ms)). cbn [length] in E. lia. Qed.

Lemma total_perm ms ms' : ms ≡ₚ ms' -> total ms = total ms'.
Proof. unfold total. induction 1; simpl; lia. Qed.

Lemma stores_empty : stores 0 empty_storage [].
Proof. split; cbn; try done. by apply run_ok_empty. Qed.

(** Reading by id. *)
Lemma view_spec extra st ms i : stores extra st ms -> view st i = ms !! i.
Proof.
  intros [H1 H2 H3 _ _ _ _ _ _ _]. unfold storage_view. destruct (ms !! i) as [m|] eqn:Hm.
  - destruct (lookup_lt_is_Some_2 (elems (lengths_ st)) i) as [n Hn]; [rewrite H2; by eapply lookup_lt_Some|].
    destruct (lookup_lt_is_Some_2 (elems (offsets_ st)) i) as [o Ho]; [rewrite H1; by eapply lookup_lt_Some|].
    destruct (H3 i o n m Ho Hn Hm) as [-> Hr]. rewrite Hn, Ho. cbn [mbind option_bind]. destruct (Z.eqb_spec (Z.of_nat (length m)) 0) as [E|E].
    + destruct m; [done|cbn in E; lia].
    + rewrite Nat2Z.id. apply Hr. by intros ->.
  - assert (elems (lengths_ st) !! i = None) as -> by (apply lookup_ge_None; rewrite H2; by apply lookup_ge_None). done.
Qed.

Lemma lies_keeps r r' o n m : keeps chunk_shift r r' -> lies r o n m -> lies r' o n m.
Proof. intros Hk [-> Hr]. split; [done|]. intros Hm. by apply Hk, Hr. Qed.

(** *** Appending *)

Lemma grow_to_spec fuel need_ capacity :
  0 < capacity -> need_ <= 2 ^ 32 -> need_ - capacity <= Z.of_nat fuel -> exists c, grow_to growth_ fuel need_ capacity = Some c /\ need_ <= c /\ capacity <= c /\ (c <= capacity \/ c <= 2 ^ 60).
Proof.
  revert capacity. induction fuel as [|fuel IH]; intros capacity Hc Hn Hf; cbn [grow_to].
  - rewrite (proj2 (Z.ltb_ge _ _)) by lia. exists capacity. split_and!; [done|lia|lia|by left].
  - destruct (Z.ltb_spec capacity need_) as [Hlt|]; [|exists capacity; split_and!; [done|lia|lia|by left]].
    destruct (Hgrowth capacity ltac:(lia)) as [Hg0 Hg1]. unfold to_size. rewrite (proj2 (Z.ltb_lt _ _)) by lia. cbn [mbind option_bind]. set (g := trunc _) in *. clearbody g.
    destruct (IH (if capacity <? g then g else capacity + 1)) as (c & E & H1 & H2 & H3); [case_match; lia|done|case_match; lia|].
    exists c. split_and!; [done|done|case_match; lia|]. right. case_match; lia.
Qed.

Lemma stores_vectors extra st ms o l :
  stores extra st ms -> elems o = elems (offsets_ st) -> elems l = elems (lengths_ st) -> capacity (offsets_ st) <= capacity o ->
  stores extra (mkStorage o l (run_ st) (used_bytes_ st) (dead_bytes_ st)) ms.
Proof. intros [H1 H2 H3 H4 H5 H6 H7 H8 Hids' H9] Eo El Hc. split; cbn; rewrite ?Eo, ?El; try done. lia. Qed.

(** Room for [n] more ids. *)
Lemma wp_reserve_additional_ids extra ms n (Q : unit -> world SetStorage -> Prop) E w :
  stores extra (obj w) ms -> 0 <= n -> Z.of_nat (length ms) + n <= 2 ^ 32 ->
  (forall mm st', (unlimited (mem w) -> mm = mem w) -> stores extra st' ms -> run_ st' = run_ (obj w) -> Z.of_nat (length ms) + n <= capacity (offsets_ st') -> Q tt (World mm st')) ->
  (~ unlimited (mem w) -> forall mm st', stores extra st' ms -> run_ st' = run_ (obj w) -> E MaxMemoryExceeded (World mm st')) ->
  wp (reserve_additional growth_ n) Q E w.
Proof.
  destruct w as [mm st]. cbn [mem obj]. intros Hs Hn Hsmall HQ HE. pose proof Hs as [H1 H2 H3 H4 H5 H6 H7 H8 Hids' H9]. unfold reserve_additional.
  destruct (Z.eqb_spec n 0) as [->|Hne]; [apply wp_ret; apply HQ; auto; lia|]. apply wp_bind, wp_obj_get. cbn [obj]. unfold size, vsize. rewrite H1.
  destruct (Z.leb_spec (Z.of_nat (length ms) + n) (capacity (offsets_ st))) as [Hle|Hgt]; [apply wp_ret; by apply HQ|].
  set (c0 := if _ =? 0 then 8 else _). assert (Hc0 : 0 < c0) by (subst c0; case_match; lia).
  destruct (grow_to_spec (Z.to_nat (Z.of_nat (length ms) + n)) (Z.of_nat (length ms) + n) c0) as (c & Hc & Hc1 & Hc2 & Hc3); [done|lia|lia|].
  assert (Hc4 : c <= 2 ^ 60) by (subst c0; case_match; lia). apply wp_bind, (wp_need _ c); [done|]. apply wp_bind, wp_zoom, wp_reserve_small; [cbn; change (u64_max / 4) with 4611686018427387903; lia| |].
  - intros m2 Hm2. cbn [mem obj] in *. apply wp_zoom, wp_reserve_small; [change (u64_max / 2) with 9223372036854775807; lia| |].
    + intros m3 Hm3. cbn [mem obj] in *. apply HQ; [intros Hu; rewrite <- (Hm2 Hu); apply Hm3; by rewrite (Hm2 Hu)| |done|cbn; lia]. eapply (stores_vectors extra st); [done|done|done|cbn; lia].
    + intros Hu m3. cbn [mem obj] in *. apply HE; [intros Hu'; apply Hu; by rewrite (Hm2 Hu')| |done]. eapply (stores_vectors extra st); [done|done|done|cbn; lia].
  - intros Hu m2. cbn [mem obj] in *. apply HE; [done| |done]. by destruct st.
Qed.

Lemma wp_reserve_ids extra ms n (Q : unit -> world SetStorage -> Prop) E w :
  stores extra (obj w) ms -> n <= 2 ^ 32 ->
  (forall mm st', (unlimited (mem w) -> mm = mem w) -> stores extra st' ms -> run_ st' = run_ (obj w) -> Q tt (World mm st')) ->
  (~ unlimited (mem w) -> forall mm st', E MaxMemoryExceeded (World mm st')) ->
  wp (reserve n) Q E w.
Proof.
  destruct w as [mm st]. cbn [mem obj]. intros Hs Hn HQ HE. unfold reserve. apply wp_bind, wp_zoom, wp_reserve_small; [change (u64_max / 4) with 4611686018427387903; lia| |].
  - intros m2 Hm2. cbn [mem obj] in *. apply wp_zoom, wp_reserve_small; [change (u64_max / 2) with 9223372036854775807; lia| |].
    + intros m3 Hm3. cbn [mem obj] in *. apply HQ; [intros Hu; rewrite <- (Hm2 Hu); apply Hm3; by rewrite (Hm2 Hu)| |done]. eapply (stores_vectors extra st); [done|done|done|cbn; lia].
    + intros Hu m3. cbn [mem obj] in *. apply HE. intros Hu'. apply Hu. by rewrite (Hm2 Hu').
  - intros Hu m2. by apply HE.
Qed.

(** A member gets the next id. *)
Lemma wp_push_back_encoded e ms (Q : nat -> world SetStorage -> Prop) E w :
  let st := obj w in
  let n := Z.of_nat (length (write_to e)) in
  stores 0 st ms -> encoded_size_ e = n -> n <= kMaxEncodedBytes -> next_offset (run_ st) + 2 * n <= 2 ^ 32 ->
  (forall mm st', (unlimited (mem w) -> mm = mem w) -> stores 0 st' (ms ++ [write_to e]) -> next_offset (run_ st') <= next_offset (run_ st) + 2 * n ->
     Z.of_nat (length ms) < 2 ^ 32 - 1 -> Q (length ms) (World mm st')) ->
  (~ unlimited (mem w) -> forall mm st', stores 0 st' ms -> next_offset (run_ st') <= next_offset (run_ st) + n -> E MaxMemoryExceeded (World mm st')) ->
  (2 ^ 32 - 1 <= Z.of_nat (length ms) -> E LengthError w) ->
  wp (push_back_encoded page chunk_shift growth_ huge_page vector_growth e) Q E w.
Proof.
  destruct w as [mm st]. cbn [mem obj]. cbv zeta. intros Hs He Hn Hroom HQ HE HE2. unfold kMaxEncodedBytes, kStringMaxEncodedBytes in Hn.
  pose proof (chunk_range chunk_shift Hshift) as Hc. pose proof (sr_offsets _ _ _ Hs) as Ho. unfold push_back_encoded. apply wp_bind, wp_obj_get. cbn [obj]. unfold size, vsize. rewrite Ho, He.
  destruct (Z.leb_spec (2 ^ 32 - 1) (Z.of_nat (length ms))) as [Hfull|Hids]; [by apply wp_throw, HE2|].
  unfold kMaxEncodedBytes, kStringMaxEncodedBytes. rewrite (proj2 (Z.ltb_ge _ _)) by lia.
  assert (Hgo : forall mm' st', (unlimited mm -> mm' = mm) -> stores 0 st' ms -> run_ st' = run_ st -> Z.of_nat (length ms) < capacity (offsets_ st') ->
    wp (offset ← append_encoded page chunk_shift growth_ huge_page e;
        obj_mod (fun st => mkStorage (push vector_growth offset (offsets_ st)) (push vector_growth (wrap 16 (Z.of_nat (length (write_to e)))) (lengths_ st)) (run_ st) (used_bytes_ st) (dead_bytes_ st));;
        mret (length ms)) Q E (World mm' st')).
  { intros mm' st' Hm Hs' Er Hcap. pose proof Hs' as [H1 H2 H3 H4 H5 H6 H7 H8 Hids' H9]. unfold append_encoded. apply wp_bind, wp_bind, wp_zoom. cbn [mem obj]. eapply wp_append_run; [exact Hpage|done|done|done|cbn; lia|cbn; lia| |].
    - intros m2 r' offset Hm2 Hr' Hk Hrd Hlo Heq Hhi. cbn [mem obj] in *. apply wp_bind, wp_obj_mod, wp_ret, wp_bind, wp_obj_mod, wp_ret. cbn [mem obj offsets_ lengths_ run_ used_bytes_ dead_bytes_].
      rewrite Er in *. apply HQ; [intros Hu; rewrite <- (Hm Hu); apply Hm2; by rewrite (Hm Hu)| |cbn; lia|done].
      split; cbn [offsets_ lengths_ run_ used_bytes_ dead_bytes_ push elems capacity]; unfold live_bytes in *; cbn [used_bytes_ dead_bytes_]; rewrite ?length_app, ?He; cbn [length]; [lia|lia| |done|lia|rewrite total_app; cbn; lia|lia| |lia|apply Forall_app; split; [done|constructor; [by unfold kMaxEncodedBytes, kStringMaxEncodedBytes|constructor]]].
      + intros i o l m Hi Hl Hmi. destruct (decide (i = length ms)) as [->|Hne].
        * rewrite lookup_app_r in Hi, Hl by lia. rewrite lookup_app_r in Hmi by lia. rewrite H1, Nat.sub_diag in Hi. rewrite H2, Nat.sub_diag in Hl. rewrite Nat.sub_diag in Hmi. injection Hi as <-. injection Hl as <-. injection Hmi as <-. rewrite (wrap_small 16) by lia.
          split; [done|]. intros Hnil. rewrite (wrap_small 32); [by apply Hrd|]. assert (0 < Z.of_nat (length (write_to e))) by (destruct (write_to e); [done|cbn; lia]).
          pose proof (so_next _ _ _ (proj1 H4)). lia.
        * assert (i < length ms)%nat. { apply lookup_lt_Some in Hmi. rewrite length_app in Hmi. cbn in Hmi. lia. }
          rewrite lookup_app_l in Hi, Hl by lia. rewrite lookup_app_l in Hmi by lia. eapply lies_keeps; [exact Hk|]. by eapply H3.
      + unfold vsize. rewrite H1. rewrite (proj2 (Z.ltb_lt _ _)) by lia. lia.
    - intros Hu m2 r' Hr' Hk Hhi. cbn [mem obj] in *. rewrite Er in *. apply HE; [intros Hu'; apply Hu; by rewrite (Hm Hu')| |cbn; lia].
      split; cbn; [done|done| |done|lia|done|lia|done|done|done]. intros i o l m Hi Hl Hmi. eapply lies_keeps; [exact Hk|]. by eapply H3. }
  apply wp_bind, wp_when.
  - intros Heq. eapply wp_reserve_additional_ids; [exact Hs|lia|lia| |].
    + intros mm' st' Hm Hs' Er Hcap. apply Hgo; [done|done|done|lia].
    + intros Hu mm' st' Hs' Er. apply HE; [done|done|rewrite Er; cbn; lia].
  - intros Hne. apply Hgo; [done|done|done|]. pose proof (sr_room _ _ _ Hs). lia.
Qed.

(** *** Removing by moving the last member *)

Lemma wp_orphan ms i m (Q : unit -> world SetStorage -> Prop) E w :
  stores 0 (obj w) ms -> ms !! i = Some m ->
  (forall st', stores (Z.of_nat (length m)) st' ms -> run_ st' = run_ (obj w) -> Q tt (World (mem w) st')) ->
  wp (orphan i) Q E w.
Proof.
  intros Hs Hm HQ. destruct w as [mm st]. cbn [mem obj] in *. pose proof Hs as [H1 H2 H3 H4 H5 H6 H7 H8 Hids' H9]. unfold orphan. apply wp_bind, wp_obj_get, wp_bind. cbn [obj].
  destruct (lookup_lt_is_Some_2 (elems (lengths_ st)) i) as [n Hn]; [rewrite H2; by eapply lookup_lt_Some|].
  destruct (lookup_lt_is_Some_2 (elems (offsets_ st)) i) as [o Ho]; [rewrite H1; by eapply lookup_lt_Some|].
  destruct (H3 i o n m Ho Hn Hm) as [-> _]. apply (wp_need _ (Z.of_nat (length m))); [done|]. apply wp_obj_mod. cbn [mem obj]. apply HQ; [|done].
  split; cbn; try done. unfold live_bytes in *. cbn. lia.
Qed.

Lemma wp_copy_ref ms i j m m' (Q : unit -> world SetStorage -> Prop) E w :
  stores (Z.of_nat (length m)) (obj w) ms -> ms !! i = Some m -> ms !! j = Some m' ->
  (forall st', stores (Z.of_nat (length m')) st' (<[i := m']> ms) -> run_ st' = run_ (obj w) -> Q tt (World (mem w) st')) ->
  wp (copy_ref i j) Q E w.
Proof.
  intros Hs Hi Hj HQ. destruct w as [mm st]. cbn [mem obj] in *. pose proof Hs as [H1 H2 H3 H4 H5 H6 H7 H8 Hids' H9]. pose proof (lookup_lt_Some _ _ _ Hi). unfold copy_ref. apply wp_bind, wp_obj_get. cbn [obj].
  destruct (lookup_lt_is_Some_2 (elems (lengths_ st)) j) as [n Hn]; [rewrite H2; by eapply lookup_lt_Some|].
  destruct (lookup_lt_is_Some_2 (elems (offsets_ st)) j) as [o Ho]; [rewrite H1; by eapply lookup_lt_Some|].
  apply wp_bind, wp_require; [unfold size, vsize; lia|]. apply wp_bind, (wp_need _ o); [done|]. apply wp_bind, (wp_need _ n); [done|]. apply wp_obj_mod. cbn [mem obj].
  apply HQ; [|done]. split; cbn; rewrite ?length_insert; try done.
  - intros k o' n' x Hk Hk' Hx. destruct (decide (k = i)) as [->|Hne].
    + rewrite list_lookup_insert_eq in Hk, Hk' by lia. rewrite list_lookup_insert_eq in Hx by lia. injection Hk as <-. injection Hk' as <-. injection Hx as <-. by eapply H3.
    + rewrite list_lookup_insert_ne in Hk, Hk' by done. rewrite list_lookup_insert_ne in Hx by done. by eapply H3.
  - unfold live_bytes in *. cbn. rewrite (total_insert _ _ m) by done. lia.
  - apply Forall_insert; [done|]. exact (proj1 (Forall_lookup _ _) H9 _ _ Hj).
Qed.

Lemma removelast_snoc {A} (l : list A) x : removelast (l ++ [x]) = l.
Proof. apply removelast_last. Qed.

Lemma stores_pop_back st ms m : stores (Z.of_nat (length m)) st (ms ++ [m]) -> stores 0 (pop_back st) ms.
Proof.
  intros [H1 H2 H3 H4 H5 H6 H7 H8 Hids' H9]. rewrite length_app in H1, H2. cbn [length] in *. unfold pop_back.
  destruct (exists_last (l := elems (offsets_ st))) as (os & o & Eo); [by intros E; rewrite E in H1; cbn in H1; lia|]. destruct (exists_last (l := elems (lengths_ st))) as (ls & n & El); [by intros E; rewrite E in H2; cbn in H2; lia|].
  rewrite Eo, length_app in H1. rewrite El, length_app in H2. cbn [length] in *.
  split; cbn; rewrite ?Eo, ?El, ?removelast_snoc; [lia|lia| |done|done| |done|rewrite length_app in H8; cbn in H8; lia|rewrite length_app in Hids'; lia|by apply Forall_app in H9 as [? _]].
  - intros i a b x Ha Hb Hx. apply (H3 i); [rewrite Eo; by apply lookup_app_l_Some|rewrite El; by apply lookup_app_l_Some|by apply lookup_app_l_Some].
  - rewrite total_app in H6. unfold live_bytes in *. cbn in *. lia.
Qed.

(** *** Reclaiming *)

Lemma wp_repack st ms ids done_ (Q : list Z * Z -> world Run -> Prop) E w offsets used :
  stores 0 st ms -> total ms <= 2 ^ 31 -> ms = done_ ++ ids ->
  run_ok (obj w) -> length offsets = length done_ -> used = total done_ -> used <= next_offset (obj w) <= 2 * total done_ ->
  (forall i o m, offsets !! i = Some o -> done_ !! i = Some m -> m <> [] -> read chunk_shift o (length m) (obj w) = Some m) ->
  (forall mm r' offsets', (unlimited (mem w) -> mm = mem w) -> run_ok r' -> length offsets' = length ms -> total ms <= next_offset r' <= 2 * total ms ->
     (forall i o m, offsets' !! i = Some o -> ms !! i = Some m -> m <> [] -> read chunk_shift o (length m) r' = Some m) -> Q (offsets', total ms) (World mm r')) ->
  (~ unlimited (mem w) -> forall mm r', E MaxMemoryExceeded (World mm r')) ->
  wp (repack page chunk_shift growth_ huge_page st (seq (length done_) (length ids)) offsets used) Q E w.
Proof.
  intros Hs Htot. revert done_ offsets used w. induction ids as [|m ids IH]; intros done_ offsets used w Ems Hr Hl Hu Hn Hrd HQ HE.
  { cbn [length seq repack]. apply wp_ret. destruct w as [mm r]. rewrite app_nil_r in Ems. subst done_. subst used. apply HQ; done. }
  cbn [length seq repack]. assert (Hm : ms !! length done_ = Some m) by (rewrite Ems; apply list_lookup_middle; lia).
  pose proof (chunk_range chunk_shift Hshift) as Hc. apply wp_bind, (wp_need _ m); [by rewrite (view_spec _ _ _ _ Hs)|].
  pose proof (proj1 (Forall_lookup _ _) (sr_small _ _ _ Hs) _ _ Hm) as Hmb. unfold kMaxEncodedBytes, kStringMaxEncodedBytes in Hmb.
  assert (Hdone : total done_ + Z.of_nat (length m) <= total ms). { rewrite Ems, total_app. pose proof (total_nonneg ids). cbn. unfold total in *. simpl. lia. }
  apply wp_bind. eapply wp_append_run; [exact Hpage|done|done|done|lia|lia| |].
  - intros mm r' offset Hmm Hr' Hk Hw Hlo Heq Hhi. destruct w as [m0 r]. cbn [mem obj] in *.
    replace (S (length done_)) with (length (done_ ++ [m])) by (rewrite length_app; cbn; lia). apply IH; cbn [mem obj].
    + by rewrite <- app_assoc.
    + done.
    + rewrite !length_app. cbn. lia.
    + rewrite Hu, total_app. cbn. lia.
    + rewrite Hu, total_app. cbn. lia.
    + intros i o x Ho Hx Hne. destruct (decide (i = length done_)) as [->|Hni].
      * rewrite lookup_app_r in Ho by lia. rewrite lookup_app_r in Hx by lia. rewrite Hl, Nat.sub_diag in Ho. rewrite Nat.sub_diag in Hx. injection Ho as <-. injection Hx as <-.
        assert (0 < Z.of_nat (length m)) by (destruct m; [done|cbn; lia]). pose proof (so_next _ _ _ (proj1 Hr)). rewrite (wrap_small 32) by lia. by apply Hw.
      * assert (i < length done_)%nat. { apply lookup_lt_Some in Hx. rewrite length_app in Hx. cbn in Hx. lia. }
        rewrite lookup_app_l in Ho by lia. rewrite lookup_app_l in Hx by lia. apply Hk. by eapply Hrd.
    + intros m2 r2 os Hm2. apply HQ. intros Hu'. rewrite <- (Hmm Hu'). apply Hm2. by rewrite (Hmm Hu').
    + intros Hu'. apply HE. intros Hu2. apply Hu'. by rewrite (Hmm Hu2).
  - intros Hu' mm r' _ _ _. by apply HE.
Qed.

(** Compaction keeps the members and their ids; when it is refused memory, nothing has changed. *)
Lemma wp_compact allowed ms (Q : unit -> world SetStorage -> Prop) E w :
  stores 0 (obj w) ms -> total ms <= 2 ^ 31 ->
  (forall mm st', (unlimited (mem w) -> mm = mem w) -> stores 0 st' ms -> Q tt (World mm st')) ->
  (~ unlimited (mem w) -> forall mm, E MaxMemoryExceeded (World mm (obj w))) ->
  wp (compact page chunk_shift growth_ huge_page allowed) Q E w.
Proof.
  destruct w as [mm st]. cbn [mem obj]. intros Hs Htot HQ HE. pose proof Hs as [H1 H2 H3 H4 H5 H6 H7 H8 Hids' H9]. unfold compact. apply wp_bind, wp_obj_get. cbn [obj].
  destruct (_ || _); [apply wp_ret; by apply HQ|].
  unfold size, vsize. rewrite H1. apply wp_bind, wp_local, wp_reserve_small; cbn [mem obj empty_vec elems capacity]; [change (u64_max / 4) with 4611686018427387903; lia| |].
  2: { intros Hu mm'. by apply HE. }
  intros mm' Hm. unfold repack_all. set (fresh := Vec _ _).
  assert (Hw : wp (repack page chunk_shift growth_ huge_page st (seq 0 (size st)) [] 0)
    (fun p w => Q tt (World (mem w) (mkStorage (with_elems p.1 fresh) (lengths_ st) (obj w) p.2 0))) (fun e w => E e (World (mem w) st)) (World mm' empty_run)).
  { unfold size, vsize. rewrite H1. apply (wp_repack st ms ms []); cbn [mem obj]; [done|done|done|by apply run_ok_empty|done|done|cbn; lia|by intros i o m Ho| |].
    - intros m2 r' os Hm2 Hr Hlen Hn Hrd. cbn [fst snd]. apply HQ; [intros Hu; rewrite <- (Hm Hu); apply Hm2; by rewrite (Hm Hu)|].
      split; cbn; try done; [|lia|unfold live_bytes; cbn; lia|lia|lia]. intros i o n m Ho Hn' Hmi. destruct (lookup_lt_is_Some_2 (elems (offsets_ st)) i) as [o' Ho']; [rewrite H1; by eapply lookup_lt_Some|].
      destruct (H3 i o' n m Ho' Hn' Hmi) as [-> _]. split; [done|]. intros Hne. by eapply Hrd.
    - intros Hu m2 r'. apply HE. intros Hu'. apply Hu. by rewrite (Hm Hu'). }
  unfold wp in Hw |- *. cbn [mem obj]. destruct (repack _ _ _ _ _ _ _ _) as [[os us] v|e v|]; done.
Qed.

Lemma run_ok_shrunk r : run_ok r -> run_ok (mkRun (shrunk (blocks r)) (next_offset r) (active_bytes r) (committed_bytes r)).
Proof. intros [[G1 G2 G3 G4 G5] Ht]. split; [split; cbn; try done; unfold vsize; lia|done]. Qed.

(** Giving memory back changes nothing and is never refused. *)
Lemma wp_shrink_to_fit ms (Q : unit -> world SetStorage -> Prop) E w :
  stores 0 (obj w) ms -> (forall st', stores 0 st' ms -> Q tt (World (mem w) st')) -> wp (shrink_to_fit page chunk_shift) Q E w.
Proof.
  destruct w as [mm st]. cbn [mem obj]. intros Hs HQ. pose proof (chunk_range chunk_shift Hshift) as Hc. unfold shrink_to_fit. apply wp_bind, wp_obj_mod. cbn [mem obj].
  set (st1 := mkStorage _ _ _ _ _). assert (Hs1 : stores 0 st1 ms).
  { destruct Hs as [H1 H2 H3 H4 H5 H6 H7 H8 Hids' H9]. split; cbn; try done; [by apply run_ok_shrunk|unfold vsize; lia]. }
  clearbody st1. clear Hs. destruct st1 as [ov lv r ub db]. pose proof Hs1 as [H1 H2 H3 H4 H5 H6 H7 H8 Hids' H9]. cbn in H1, H2, H3, H4, H5, H7, H8. apply wp_zoom. cbn [mem obj run_ offsets_ lengths_ used_bytes_ dead_bytes_]. apply wp_bind, wp_obj_get. cbn [obj].
  destruct (last (elems (blocks r))) as [block|] eqn:El; [|by apply wp_ret, HQ]. pose proof H4 as [Hsr Ht]. pose proof (so_active _ _ _ Hsr) as Ha. pose proof (so_next _ _ _ Hsr).
  rewrite (offset_in_block _ Hshift). assert (Hlb : elems (blocks r) <> []) by (intros E0; by rewrite E0 in El). destruct Ht as [[Hcl Hcm]|[Hpos (Hop & Hroom & b & Hb & Hlen & Hbb)]].
  - rewrite Hcm. assert (next_offset r <> 0). { intros E0. rewrite E0, Z.div_0_l in Hcl by lia. destruct (elems (blocks r)); [done|cbn in Hcl; lia]. }
    replace (_ && _) with true by lia. pose proof (alloc_spec page chunk_shift Hpage Hshift chunk ltac:(lia)). rewrite (proj2 (Z.leb_le _ _)) by lia. by apply wp_ret, HQ.
  - replace (_ && _) with false by lia. pose proof (Z.mod_pos_bound (next_offset r) chunk ltac:(lia)). destruct (Z.leb_spec (active_bytes r) (page_block_alloc_bytes page (next_offset r mod chunk))) as [|Hlt]; [by apply wp_ret, HQ|].
    assert (block = b) as ->. { rewrite last_lookup in El. replace (Init.Nat.pred _) with (Z.to_nat (next_offset r / chunk)) in El by lia. congruence. }
    apply wp_bind, (wp_shrink_page_block page chunk_shift Hpage Hshift); [done|lia|lia|lia|]. apply wp_bind, wp_obj_mod, wp_obj_mod. cbn [mem obj]. apply HQ.
    set (n := length (elems (blocks r))). set (d := page_block_alloc_bytes page (next_offset r mod chunk)) in *. set (r' := with_sizes _ _ _).
    assert (Hk : keeps chunk_shift r r'). { eapply (keeps_block _ _ _ (n - 1) b); [rewrite <- Hb; f_equal; lia|cbn; by rewrite Nat2Z.id|done]. }
    pose proof (alloc_spec page chunk_shift Hpage Hshift (next_offset r mod chunk) ltac:(lia)) as Hd. fold d in Hd. assert (Hn1 : (n - 1 < n)%nat) by (unfold n; destruct (elems (blocks r)); [done|cbn; lia]).
    split; cbn; try done; [intros i o l x Ho Hl Hx; eapply lies_keeps; [exact Hk|by eapply H3]|].
    split; [|right; split; [done|]].
    + destruct Hsr as [G1 G2 G3 G4 G5]. split; cbn; rewrite ?length_insert; [done|done| |lia|eapply alloc_idem; [exact Hpage|exact Hshift|lia]]. rewrite Nat2Z.id, (sum_bytes_insert _ _ b) by (rewrite <- Hb; f_equal; lia). cbn. lia.
    + split_and!; cbn; rewrite ?length_insert; [done|lia|]. exists (mkBlock (data b) d false). split_and!; [|done|done]. rewrite Nat2Z.id. replace (Z.to_nat _) with (n - 1)%nat by lia. by apply list_lookup_insert_eq.
Qed.
End spec.
