(* ===== verification/MemberIndex.v ===== *)
(** * Index of member ids

    Models [include/goblin/core/zset_member_index.hpp]: the open-addressing table in
    which hashes, sets, sorted sets and the keyspace find the id of a member.  A slot
    holds only the id; the bytes of the member are read from the storage through its
    [view], an argument here, as are the hash and the growth factor.  The dump of the
    table into a snapshot is not modelled. *)

From S2P Require Import Prelude Binary64 BitMask MemoryLimit Probe.
From stdpp Require Import gmap.
From Stdlib Require Import ZArith Lia.
Import Double.

Local Open Scope Z_scope.

Definition kGroupWidth : nat := 16.
Definition kMinTombstonesForSameCapacityCleanup : nat := 4096.

(** The double [1.1892071150027210]. *)
Definition kDefaultGrowth : double := Dbl 5355712719992597 (-52).

(** [vec_bytes_]: the bytes the capacities of the two vectors amount to; clearing them keeps their
    capacity, a table that is assigned brings its own. *)
Record MemberIndex := mkIndex {
  control_ : list Z;
  slots_ : list nat;
  vec_bytes_ : Z;
  size_ : nat;
  tombstones_ : nat;
  capacity_ : nat;
}.

Abbreviation Op A := (M (world MemberIndex) A).

(** ** Sizes *)

Definition max_usable (capacity : nat) : nat := capacity - capacity / 32.

Definition round_up_to_group (value : Z) : Z :=
  if value <? 16 then 16 else wrap 64 (value + 16 - 1) / 16 * 16.

Definition capacity_for_size (expected_size : Z) : Z :=
  if expected_size =? 0 then 0 else round_up_to_group (wrap 64 (wrap 64 (expected_size * 32) + 30) / 31).

Section code.
(** [std::hash<std::string_view>], [sizeof(Slot)] and [growth_]. *)
Variable hasher_ : bytes -> Z.
Variable sizeof_slot : Z.
Variable growth_ : double.
(** [members_->view]; [None] past the members. *)
Variable view : nat -> option bytes.

Definition grow_capacity (capacity : Z) : option Z :=
  scaled ← to_size (mul (of_int capacity) growth_);
  let next := round_up_to_group scaled in
  Some (if capacity <? next then next else capacity + 16).

Definition hash_member (member : bytes) : Z := wrap 32 (Z.lxor (hasher_ member) (Z.shiftr (hasher_ member) 32)).
Definition fingerprint (hash : Z) : Z := Z.land hash 0x7F.
Definition bucket (hash : Z) (capacity : nat) : nat := Z.to_nat (Z.shiftr (hash * Z.of_nat capacity) 32).

Definition is_full (t : MemberIndex) (index : nat) : bool := from_option is_full_control false (control_ t !! index).

(** *** Lookup *)

(** [simd::bytes_equal(member_view(slots_[index].meta.get()), member)] *)
Definition slot_equals (member : bytes) (t : MemberIndex) (index : nat) : option bool :=
  id ← slots_ t !! index;
  stored ← view id;
  Some (bool_decide (stored = member)).

Definition find_index_with_hash (member : bytes) (hash : Z) (t : MemberIndex) : option (option nat) :=
  find_loop kGroupWidth (capacity_ t) (control_ t) (group_count kGroupWidth (capacity_ t)) (slot_equals member t)
    (fingerprint hash) (bucket hash (capacity_ t)).

Definition find_index (member : bytes) (t : MemberIndex) : option (option nat) :=
  if Nat.eqb (capacity_ t) 0 then Some None else find_index_with_hash member (hash_member member) t.

Definition find_or_insert_index_with_hash (member : bytes) (hash : Z) (t : MemberIndex) : option (option nat * bool) :=
  find_or_insert_loop kGroupWidth (capacity_ t) (control_ t) true (group_count kGroupWidth (capacity_ t)) (slot_equals member t)
    (fingerprint hash) (bucket hash (capacity_ t)) None.

Definition find_insert_index (hash : Z) (t : MemberIndex) : option nat :=
  insert_loop kGroupWidth (capacity_ t) (control_ t) true (group_count kGroupWidth (capacity_ t)) (bucket hash (capacity_ t)) None.

(** [find]: the id of the member. *)
Definition find (member : bytes) (t : MemberIndex) : option (option nat) :=
  index ← find_index member t;
  match index with None => Some None | Some index => id ← slots_ t !! index; Some (Some id) end.

Definition find_slot (member : bytes) (t : MemberIndex) : option (option nat) := find_index member t.
Definition member_id_at (index : nat) (t : MemberIndex) : option nat := slots_ t !! index.

(** *** Changing slots *)

Definition with_control (index : nat) (value : Z) (t : MemberIndex) : list Z := Probe.set_control kGroupWidth (capacity_ t) (control_ t) index value.

(** Writes a slot that [find_insert_index] returned; [adjust]: a tombstone it reuses is no longer counted. *)
Definition occupy (adjust : bool) (index : nat) (hash : Z) (id : nat) (t : MemberIndex) : option MemberIndex :=
  old_control ← control_ t !! index;
  if (index <? capacity_ t)%nat then
    Some (mkIndex (with_control index (fingerprint hash) t) (<[index := id]> (slots_ t)) (vec_bytes_ t) (S (size_ t))
            (if adjust && (old_control =? kDeleted) then (tombstones_ t - 1)%nat else tombstones_ t) (capacity_ t))
  else None.

Definition insert_existing (id : nat) (t : MemberIndex) : option MemberIndex :=
  member ← view id;
  let hash := hash_member member in
  index ← find_insert_index hash t;
  occupy false index hash id t.

Fixpoint insert_all (ids : list nat) (t : MemberIndex) : option MemberIndex :=
  match ids with
  | [] => Some t
  | id :: ids => t ← insert_existing id t; insert_all ids t
  end.

(** The ids of the full slots, in the order of the slots. *)
Definition full_slot (c : Z) (id : nat) : option nat := if is_full_control c then Some id else None.
Definition entries (t : MemberIndex) : list nat := omap (fun x => x) (zip_with full_slot (control_ t) (slots_ t)).

Definition table_bytes (capacity : Z) : Z := wrap 64 (capacity + 16 + capacity * sizeof_slot).

(** [allocate_capacity] of a new table. *)
Definition allocate (capacity : nat) : MemberIndex :=
  mkIndex (replicate (capacity + kGroupWidth) kEmpty) (replicate capacity 0%nat) (Z.of_nat (capacity + 16) + Z.of_nat capacity * sizeof_slot) 0 0 capacity.

Definition rehash (requested_capacity : Z) : Op unit :=
  let normalized := round_up_to_group requested_capacity in
  let requested_bytes := table_bytes normalized in
  t ← obj_get (fun t => t);
  when (vec_bytes_ t <? requested_bytes) (ensure_memory_growth (requested_bytes - vec_bytes_ t));;
  if 2 ^ 32 - 1 <? normalized then throw LengthError
  else
    replacement ← need (insert_all (entries t) (allocate (Z.to_nat normalized)));
    obj_mod (fun _ => replacement).

(** [true] if the table was rebuilt. *)
Definition ensure_capacity_for_insert : Op bool :=
  t ← obj_get (fun t => t);
  if Nat.eqb (capacity_ t) 0 then rehash 16;; mret true
  else if (max_usable (capacity_ t) <? size_ t + tombstones_ t + 1)%nat then
    (if (size_ t + 1 <=? max_usable (capacity_ t))%nat then rehash (Z.of_nat (capacity_ t))
     else grown ← need (grow_capacity (Z.of_nat (capacity_ t))); rehash grown);;
    mret true
  else mret false.

(** *** Operations *)

(** [insert]: the slot of the member and whether it is new. *)
Definition insert (member : bytes) (id : nat) : Op (nat * bool) :=
  ensure_capacity_for_insert;;
  t ← obj_get (fun t => t);
  let hash := hash_member member in
  existing ← need (find_index_with_hash member hash t);
  match existing with
  | Some index => mret (index, false)
  | None =>
      index ← need (find_insert_index hash t);
      t ← need (occupy true index hash id t);
      obj_mod (fun _ => t);;
      mret (index, true)
  end.

Definition insert_absent (member : bytes) (id : nat) : Op unit :=
  ensure_capacity_for_insert;;
  t ← obj_get (fun t => t);
  let hash := hash_member member in
  index ← need (find_insert_index hash t);
  t ← need (occupy true index hash id t);
  obj_mod (fun _ => t).

Definition insert_packed (member : bytes) (id : nat) : Op unit :=
  t ← obj_get (fun t => t);
  let hash := hash_member member in
  index ← need (find_insert_index hash t);
  t ← need (occupy false index hash id t);
  obj_mod (fun _ => t).

(** The first half of [find_or_emplace]: [inl] is the slot of the member, [inr] one for it. *)
Definition probe_for_emplace (member : bytes) : Op (nat + nat) :=
  t ← obj_get (fun t => t);
  let hash := hash_member member in
  probe ← (if Nat.eqb (capacity_ t) 0 then mret (None, false) else need (find_or_insert_index_with_hash member hash t));
  if (probe.2 : bool) then index ← need probe.1; mret (inl index)
  else
    rebuilt ← ensure_capacity_for_insert;
    probe ← (if rebuilt : bool then t ← obj_get (fun t => t); need (find_or_insert_index_with_hash member hash t) else mret probe);
    match probe.1 with
    | None => throw LogicError
    | Some index => mret (inr index)
    end.

(** The second half, after [make_meta]. *)
Definition emplace_at (member : bytes) (index id : nat) : Op unit :=
  t ← obj_get (fun t => t);
  t ← need (occupy true index (hash_member member) id t);
  obj_mod (fun _ => t).

Definition erase_at_index (index : nat) : Op bool :=
  t ← obj_get (fun t => t);
  if (capacity_ t <=? index)%nat || negb (is_full t index) then mret false
  else
    obj_mod (fun t => mkIndex (with_control index kDeleted t) (slots_ t) (vec_bytes_ t) (size_ t - 1) (S (tombstones_ t)) (capacity_ t));;
    mret true.

Definition erase (member : bytes) : Op bool :=
  t ← obj_get (fun t => t);
  index ← need (find_index member t);
  match index with
  | None => mret false
  | Some index =>
      obj_mod (fun t => mkIndex (with_control index kDeleted t) (slots_ t) (vec_bytes_ t) (size_ t - 1) (S (tombstones_ t)) (capacity_ t));;
      mret true
  end.

Definition move_member_id_at_slot (index old_member_id new_member_id : nat) : Op bool :=
  t ← obj_get (fun t => t);
  if (capacity_ t <=? index)%nat || negb (is_full t index) then mret false
  else
    id ← need (slots_ t !! index);
    if negb (id =? old_member_id)%nat then mret false
    else obj_mod (fun t => mkIndex (control_ t) (<[index := new_member_id]> (slots_ t)) (vec_bytes_ t) (size_ t) (tombstones_ t) (capacity_ t));; mret true.

Definition move_member_id (old_member_id new_member_id : nat) : Op bool :=
  t ← obj_get (fun t => t);
  member ← need (view old_member_id);
  index ← need (find_index member t);
  match index with
  | None => mret false
  | Some index => move_member_id_at_slot index old_member_id new_member_id
  end.

Definition clear (t : MemberIndex) : MemberIndex := mkIndex [] [] (vec_bytes_ t) 0 0 0.

Definition cleanup_after_removal_if_needed (removed_count : nat) : Op bool :=
  t ← obj_get (fun t => t);
  if Nat.eqb removed_count 0 || Nat.eqb (tombstones_ t) 0 then mret false
  else if Nat.eqb (size_ t) 0 then obj_mod clear;; mret true
  else
    let shrunk_capacity := capacity_for_size (Z.of_nat (size_ t)) in
    if (kGroupWidth <? capacity_ t)%nat && (size_ t <? capacity_ t / 4)%nat && (shrunk_capacity <? Z.of_nat (capacity_ t)) then rehash shrunk_capacity;; mret true
    else if (kMinTombstonesForSameCapacityCleanup <=? tombstones_ t)%nat && (size_ t <=? tombstones_ t)%nat then rehash (Z.of_nat (capacity_ t));; mret true
    else mret false.

Definition rehash_same_capacity : Op bool :=
  t ← obj_get (fun t => t);
  if Nat.eqb (capacity_ t) 0 || Nat.eqb (tombstones_ t) 0 then mret false
  else rehash (Z.of_nat (capacity_ t));; mret true.

Definition reserve (expected_size : nat) : Op unit :=
  t ← obj_get (fun t => t);
  if Nat.eqb expected_size 0 || (expected_size <=? max_usable (capacity_ t))%nat then mret tt
  else rehash (capacity_for_size (Z.of_nat expected_size)).

(** The loop that enlarges the target; every round adds a group. *)
Fixpoint grow_until (fuel : nat) (expected_size : nat) (target : Z) : option Z :=
  if Z.of_nat (max_usable (Z.to_nat target)) <? Z.of_nat expected_size then
    match fuel with
    | O => None
    | S fuel => target ← grow_capacity target; grow_until fuel expected_size target
    end
  else Some target.

Definition reserve_additional (additional : nat) : Op unit :=
  t ← obj_get (fun t => t);
  if Nat.eqb additional 0 then mret tt
  else if 2 ^ 64 - 1 - Z.of_nat (size_ t) <? Z.of_nat additional then throw LengthError
  else
    let expected_size := (size_ t + additional)%nat in
    let usable := max_usable (capacity_ t) in
    let occupied := (size_ t + tombstones_ t)%nat in
    let occupied_batch_fits := (occupied <=? usable)%nat && (additional <=? usable - occupied)%nat in
    if (expected_size <=? usable)%nat && occupied_batch_fits then mret tt
    else
      target_capacity ← need (grow_until expected_size expected_size (if Nat.eqb (capacity_ t) 0 then 16 else Z.of_nat (capacity_ t)));
      rehash target_capacity.

(** [density] lies in (0, 1], or [31 / 32] is taken for it. *)
Definition unit_density (density : double) : double :=
  if (mant density <=? 0) || (if 0 <=? expo density then 1 <? mant density * 2 ^ expo density else 2 ^ (- expo density) <? mant density)
  then Dbl 8725724278030336 (-53) else density.

Definition reserve_for_density (expected_size : nat) (density : double) : Op unit :=
  if Nat.eqb expected_size 0 then mret tt
  else
    needed ← need (to_size (div (of_int (Z.of_nat expected_size)) (unit_density density)));
    rehash (round_up_to_group (Z.max needed (Z.of_nat expected_size))).

(** What [for_each] hands out. *)
Definition for_each (t : MemberIndex) : option (list (bytes * nat)) := mapM (fun id => m ← view id; Some (m, id)) (entries t).
End code.

(** [find_or_emplace] in an object that keeps the index and its storage: [on_existing] is given the id,
    [make_meta] returns the id of the new member. *)
Definition find_or_emplace {O} (hasher_ : bytes -> Z) (sizeof_slot : Z) (growth_ : double) (view : O -> nat -> option bytes)
    (get : O -> MemberIndex) (set : MemberIndex -> O -> O)
    (member : bytes) (on_existing : nat -> M (world O) unit) (make_meta : M (world O) nat) : M (world O) bool :=
  o ← obj_get (fun o => o);
  probe ← zoom get set (probe_for_emplace hasher_ sizeof_slot growth_ (view o) member);
  match probe with
  | inl index =>
      o ← obj_get (fun o => o);
      id ← need (slots_ (get o) !! index);
      on_existing id;;
      mret false
  | inr index =>
      id ← make_meta;
      zoom get set (emplace_at hasher_ member index id);;
      mret true
  end.

(** A new index. *)
Definition empty_index : MemberIndex := mkIndex [] [] 0 0 0 0.

(** [clone_rebound]: the vectors are copied, which allocates their sizes. *)
Definition clone_rebound (sizeof_slot : Z) (t : MemberIndex) : MemberIndex :=
  mkIndex (control_ t) (slots_ t) (Z.of_nat (length (control_ t)) + Z.of_nat (length (slots_ t)) * sizeof_slot) (size_ t) (tombstones_ t) (capacity_ t).

(** ** The dictionary an index represents *)

Section spec.
Variable hasher_ : bytes -> Z.
Variable sizeof_slot : Z.
Hypothesis Hslot : 0 <= sizeof_slot < 2 ^ 16.
Variable growth_ : double.
Implicit Types (view : nat -> option bytes) (t : MemberIndex) (d : gmap bytes nat) (i id : nat) (m : bytes).

Abbreviation hash := (hash_member hasher_).

(** The control bytes of the slots, without the mirrored first group. *)
Definition ctl t : list Z := take (capacity_ t) (control_ t).

(** Slot [i] holds [id]. *)
Definition full_at t i id : Prop := exists c, ctl t !! i = Some c /\ is_full_control c = true /\ slots_ t !! i = Some id.

Record dict view t d : Prop := mkDict {
  di_cap : (capacity_ t mod kGroupWidth = 0)%nat;
  di_limit : Z.of_nat (capacity_ t) < 2 ^ 32;
  di_vec : capacity_ t <> 0%nat -> table_bytes sizeof_slot (Z.of_nat (capacity_ t)) <= vec_bytes_ t;
  di_control : control_ t = mirrored kGroupWidth (ctl t) /\ length (ctl t) = capacity_ t;
  di_slots : length (slots_ t) = capacity_ t;
  di_bytes : Forall (fun c => 0 <= c < 128 \/ c = kEmpty \/ c = kDeleted) (ctl t);
  di_full : forall i id, full_at t i id ->
    exists m, d !! m = Some id /\ ctl t !! i = Some (fingerprint (hash m)) /\ reach kGroupWidth (capacity_ t) (ctl t) (bucket (hash m) (capacity_ t)) i;
  di_has : forall m id, d !! m = Some id -> view id = Some m /\ exists i, full_at t i id;
  di_unique : forall i j id, full_at t i id -> full_at t j id -> i = j;
  di_size : size_ t = count is_full_control (ctl t);
  di_card : size_ t = size d;
  di_tombstones : tombstones_ t = count (Z.eqb kDeleted) (ctl t);
}.

Lemma hash_range m : 0 <= hash m < 2 ^ 32.
Proof. apply (wrap_range 32). lia. Qed.

Lemma bucket_lt m cap : cap <> 0%nat -> (bucket (hash m) cap < cap)%nat.
Proof.
  intros Hc. pose proof (hash_range m) as Hh. unfold bucket. rewrite Z.shiftr_div_pow2 by lia.
  assert (hash m * Z.of_nat cap / 2 ^ 32 < Z.of_nat cap) by (apply Z.div_lt_upper_bound; nia).
  assert (0 <= hash m * Z.of_nat cap / 2 ^ 32) by (apply Z.div_pos; nia). lia.
Qed.

Lemma fingerprint_full h : 0 <= fingerprint h < 128 /\ is_full_control (fingerprint h) = true.
Proof.
  assert (H : 0 <= fingerprint h < 128). { unfold fingerprint. change 0x7F with (Z.ones 7). rewrite Z.land_ones by lia. apply Z.mod_pos_bound. lia. }
  split; [done|]. unfold is_full_control, kEmpty. lia.
Qed.

(** Only the members that are there matter. *)
Lemma dict_view view view' t d : (forall m id, d !! m = Some id -> view' id = Some m) -> dict view t d -> dict view' t d.
Proof.
  intros Hv [H0 H1 H1' H2 H3 H4 H5 H6 H7 H8 H9 H10]. split; try done.
  intros m id Hm. split; [by apply Hv|]. apply (H6 _ _ Hm).
Qed.

Lemma dict_empty view vb : dict view (mkIndex [] [] vb 0 0 0) ∅.
Proof.
  split; try done; [by intros i id (c & Hc & _)|by intros i j id (c & Hc & _)].
Qed.

Lemma full_slot_exists t i : length (slots_ t) = capacity_ t -> length (ctl t) = capacity_ t -> forall c, ctl t !! i = Some c -> is_full_control c = true -> exists id, full_at t i id.
Proof.
  intros Hs Hl c Hc Hf. destruct (lookup_lt_is_Some_2 (slots_ t) i) as [id Hid]; [apply lookup_lt_Some in Hc; lia|]. by exists id, c.
Qed.

(** *** Lookup *)

Lemma slot_equals_full view t d m i id : dict view t d -> full_at t i id -> slot_equals view m t i = Some (bool_decide (d !! m = Some id)).
Proof.
  intros Hd Hf. destruct (di_full _ _ _ Hd _ _ Hf) as (m' & Hm' & _). destruct (di_has _ _ _ Hd _ _ Hm') as [Hv _]. destruct Hf as (c & _ & _ & Hs).
  unfold slot_equals. rewrite Hs. cbn [mbind option_bind]. rewrite Hv. cbn [mbind option_bind]. f_equal. apply bool_decide_ext. split; [by intros <-|].
  intros Hm. destruct (di_has _ _ _ Hd _ _ Hm) as [Hv' _]. congruence.
Qed.

Lemma find_with_hash_spec view t d m :
  dict view t d -> capacity_ t <> 0%nat ->
  exists r, find_index_with_hash view m (hash m) t = Some r /\
    match r with Some i => exists id, full_at t i id /\ d !! m = Some id | None => d !! m = None end.
Proof.
  intros Hd Hc. pose proof (di_cap _ _ _ Hd) as Hmod. destruct (di_control _ _ _ Hd) as [Hcon Hlen]. destruct (fingerprint_full (hash m)) as [_ Hfp].
  unfold find_index_with_hash. rewrite Hcon.
  destruct (find_loop_spec kGroupWidth (capacity_ t) ltac:(unfold kGroupWidth; lia) Hmod Hc (ctl t) Hlen (slot_equals view m t) (fingerprint (hash m)) (bucket (hash m) (capacity_ t)))
    as (r & Hr & Hspec).
  - by apply bucket_lt.
  - intros i Hi. destruct (full_slot_exists t i (di_slots _ _ _ Hd) Hlen _ Hi Hfp) as [id Hid]. eexists. by eapply slot_equals_full.
  - exists r. split; [done|]. destruct r as [i|].
    + destruct Hspec as [Hi He]. destruct (full_slot_exists t i (di_slots _ _ _ Hd) Hlen _ Hi Hfp) as [id Hid]. exists id. split; [done|].
      rewrite (slot_equals_full _ _ _ _ _ _ Hd Hid) in He. injection He as He. by apply bool_decide_eq_true in He.
    + destruct (d !! m) as [id|] eqn:Hm; [|done]. exfalso. destruct (di_has _ _ _ Hd _ _ Hm) as [Hv [i Hi]]. destruct (di_full _ _ _ Hd _ _ Hi) as (m' & Hm' & Hb & Hre).
      destruct (di_has _ _ _ Hd _ _ Hm') as [Hv' _]. assert (m' = m) as -> by congruence. specialize (Hspec i Hre Hb).
      rewrite (slot_equals_full _ _ _ m _ _ Hd Hi), bool_decide_eq_true_2 in Hspec by done. done.
Qed.

Lemma member_found view t d m :
  dict view t d ->
  exists r, find_index hasher_ view m t = Some r /\ match r with Some i => exists id, full_at t i id /\ d !! m = Some id | None => d !! m = None end.
Proof.
  intros Hd. unfold find_index. destruct (Nat.eqb_spec (capacity_ t) 0) as [Hc|Hc]; [|by apply find_with_hash_spec].
  exists None. split; [done|]. destruct (d !! m) as [id|] eqn:Hm; [|done]. destruct (di_has _ _ _ Hd _ _ Hm) as [_ [i (c & Hi & _)]].
  destruct (di_control _ _ _ Hd) as [_ Hlen]. apply lookup_lt_Some in Hi. lia.
Qed.

(** The lookup is the lookup of the dictionary. *)
Lemma member_find_spec view t d m : dict view t d -> find hasher_ view m t = Some (d !! m).
Proof.
  intros Hd. unfold find. destruct (member_found view t d m Hd) as (r & -> & Hr). cbn [mbind option_bind]. destruct r as [i|]; [|by rewrite Hr].
  destruct Hr as (id & (c & _ & _ & Hs) & Hm). by rewrite Hs, Hm.
Qed.

(** *** Changes *)

Lemma ctl_control t : control_ t = mirrored kGroupWidth (ctl t) -> length (ctl t) = capacity_ t -> forall i c, ctl t !! i = Some c -> control_ t !! i = Some c.
Proof. intros Hc Hl i c Hi. rewrite Hc. unfold mirrored. by apply lookup_app_l_Some. Qed.

Lemma capacity_nonzero t d view i c : dict view t d -> ctl t !! i = Some c -> capacity_ t <> 0%nat /\ (i < capacity_ t)%nat.
Proof. intros Hd Hi. destruct (di_control _ _ _ Hd) as [_ Hl]. apply lookup_lt_Some in Hi. lia. Qed.

(** The table with the byte of slot [i] changed. *)
Lemma ctl_set view t d i c vb sz tb sl :
  dict view t d -> (i < capacity_ t)%nat ->
  let t' := mkIndex (with_control i c t) sl vb sz tb (capacity_ t) in
  ctl t' = <[i := c]> (ctl t) /\ control_ t' = mirrored kGroupWidth (ctl t') /\ length (ctl t') = capacity_ t'.
Proof.
  intros Hd Hi t'. destruct (di_control _ _ _ Hd) as [Hcon Hlen]. assert (Hc0 : capacity_ t <> 0%nat) by lia.
  assert (Hset : with_control i c t = mirrored kGroupWidth (<[i := c]> (ctl t))).
  { unfold with_control. rewrite Hcon. apply set_control_mirrored; try done; [unfold kGroupWidth; lia|apply (di_cap _ _ _ Hd)]. }
  assert (Hctl : ctl t' = <[i := c]> (ctl t)).
  { unfold t', ctl at 1. cbn [capacity_ control_]. rewrite Hset. unfold mirrored. apply take_app_length'. by rewrite length_insert. }
  split; [done|]. split; [by rewrite Hctl|]. by rewrite Hctl, length_insert.
Qed.

Lemma reach_changed t i c s j : length (ctl t) = capacity_ t -> capacity_ t <> 0%nat -> c <> kEmpty ->
  reach kGroupWidth (capacity_ t) (ctl t) s j -> reach kGroupWidth (capacity_ t) (<[i := c]> (ctl t)) s j.
Proof. intros Hl Hc Hne. by apply reach_insert. Qed.

Lemma free_slot_vacant t s i : free_at kGroupWidth (capacity_ t) (ctl t) s i -> forall id, ~ full_at t i id.
Proof. intros [Hf _] id (c & Hc & Hfull & _). destruct Hf as [Hf|Hf]; rewrite Hf in Hc; injection Hc as <-; done. Qed.

(** A member enters a free slot. *)
Lemma occupy_spec view t d m id i adjust :
  dict view t d -> d !! m = None -> view id = Some m -> free_at kGroupWidth (capacity_ t) (ctl t) (bucket (hash m) (capacity_ t)) i ->
  adjust = true \/ tombstones_ t = 0%nat ->
  exists t', occupy adjust i (hash m) id t = Some t' /\ dict view t' (<[m := id]> d) /\ capacity_ t' = capacity_ t /\ size_ t' = S (size_ t) /\ full_at t' i id /\
    (tombstones_ t' <= tombstones_ t)%nat /\ vec_bytes_ t' = vec_bytes_ t.
Proof.
  intros Hd Hm Hv Hfree Hadj. pose proof Hfree as [Hbyte Hre]. destruct (di_control _ _ _ Hd) as [Hcon Hlen].
  assert (Hold : exists c0, ctl t !! i = Some c0 /\ (c0 = kEmpty \/ c0 = kDeleted)) by (destruct Hbyte; eauto). destruct Hold as (c0 & Hc0 & Hk0).
  destruct (capacity_nonzero _ _ _ _ _ Hd Hc0) as [Hcap Hi]. destruct (fingerprint_full (hash m)) as [Hfr Hff].
  unfold occupy. rewrite (ctl_control t Hcon Hlen _ _ Hc0). cbn [mbind option_bind]. rewrite (proj2 (Nat.ltb_lt _ _) Hi).
  set (tb := if adjust && _ then _ else _). eexists. split; [done|].
  destruct (ctl_set view t d i (fingerprint (hash m)) (vec_bytes_ t) (S (size_ t)) tb (<[i := id]> (slots_ t)) Hd Hi) as (Hctl & Hcon' & Hlen'). set (t' := mkIndex _ _ _ _ _ _) in *.
  assert (Hne : fingerprint (hash m) <> kEmpty) by (unfold kEmpty; lia).
  assert (Hat : full_at t' i id).
  { exists (fingerprint (hash m)). rewrite Hctl. split_and!; [rewrite list_lookup_insert_eq by lia; done|done|]. cbn. apply list_lookup_insert_eq. rewrite (di_slots _ _ _ Hd). lia. }
  assert (Hother : forall j id', j <> i -> full_at t' j id' <-> full_at t j id').
  { intros j id' Hj. unfold full_at. rewrite Hctl, list_lookup_insert_ne by done. cbn [slots_ t']. by rewrite list_lookup_insert_ne. }
  assert (Htb : tb = count (Z.eqb kDeleted) (ctl t') /\ (tb <= tombstones_ t)%nat).
  { rewrite Hctl. pose proof (count_insert (Z.eqb kDeleted) (ctl t) i c0 (fingerprint (hash m)) Hc0) as Hcnt. pose proof (di_tombstones _ _ _ Hd) as Ht.
    replace (kDeleted =? fingerprint (hash m)) with false in Hcnt by (unfold kDeleted; lia). cbn [Nat.b2n] in Hcnt. unfold tb. destruct Hk0 as [-> | ->].
    - change (kEmpty =? kDeleted) with false. rewrite andb_false_r. change (kDeleted =? kEmpty) with false in Hcnt. cbn [Nat.b2n] in Hcnt. lia.
    - change (kDeleted =? kDeleted) with true in *. cbn [Nat.b2n] in Hcnt. destruct Hadj as [-> |Hz]; [cbn [andb]; lia|]. rewrite Hz in *. lia. }
  assert (Hsz : S (size_ t) = count is_full_control (ctl t')).
  { rewrite Hctl. pose proof (count_insert is_full_control (ctl t) i c0 (fingerprint (hash m)) Hc0) as Hcnt. rewrite Hff in Hcnt.
    replace (is_full_control c0) with false in Hcnt by (by destruct Hk0; subst). cbn [Nat.b2n] in Hcnt. rewrite (di_size _ _ _ Hd). lia. }
  split_and!; try done; [|apply Htb]. split; try done.
  - apply (di_cap _ _ _ Hd).
  - apply (di_limit _ _ _ Hd).
  - apply (di_vec _ _ _ Hd).
  - cbn. rewrite length_insert. apply (di_slots _ _ _ Hd).
  - rewrite Hctl. apply Forall_insert; [apply (di_bytes _ _ _ Hd)|by left].
  - intros j id' Hj. change (capacity_ t') with (capacity_ t). rewrite Hctl. destruct (decide (j = i)) as [->|Hji].
    + exists m. assert (id' = id) as -> by (destruct Hj as (? & _ & _ & Hj), Hat as (? & _ & _ & Ha); congruence).
      split_and!; [by rewrite lookup_insert_eq|by rewrite list_lookup_insert_eq by lia|by apply reach_changed].
    + apply Hother in Hj; [|done]. destruct (di_full _ _ _ Hd _ _ Hj) as (m' & Hm' & Hb & Hr). exists m'.
      assert (m' <> m) by congruence. split_and!; [by rewrite lookup_insert_ne|by rewrite list_lookup_insert_ne|by apply reach_changed].
  - intros m' id' Hm'. destruct (decide (m' = m)) as [->|Hmm].
    + rewrite lookup_insert_eq in Hm'. injection Hm' as <-. split; [done|by exists i].
    + rewrite lookup_insert_ne in Hm' by done. destruct (di_has _ _ _ Hd _ _ Hm') as [Hv' [j Hj]]. split; [done|]. exists j. apply Hother; [|done].
      intros ->. by apply (free_slot_vacant _ _ _ Hfree id').
  - assert (Hnew : forall j, full_at t' j id -> j = i).
    { intros j Hj. destruct (decide (j = i)) as [|Hji]; [done|]. apply Hother in Hj; [|done]. destruct (di_full _ _ _ Hd _ _ Hj) as (m' & Hm' & _).
      destruct (di_has _ _ _ Hd _ _ Hm') as [Hv' _]. congruence. }
    intros j k id' Hj Hk. destruct (decide (j = i)) as [->|Hji]; [|destruct (decide (k = i)) as [->|Hki]].
    + assert (id' = id) as -> by (destruct Hj as (? & _ & _ & Hj), Hat as (? & _ & _ & Ha); congruence). symmetry. by apply Hnew.
    + assert (id' = id) as -> by (destruct Hk as (? & _ & _ & Hk), Hat as (? & _ & _ & Ha); congruence). by apply Hnew.
    + apply Hother in Hj, Hk; [|done..]. by eapply (di_unique _ _ _ Hd).
  - cbn. rewrite map_size_insert_None by done. by rewrite (di_card _ _ _ Hd).
  - apply Htb.
Qed.

Lemma find_insert_spec view t d m :
  dict view t d -> (size_ t < capacity_ t)%nat ->
  exists i, find_insert_index (hash m) t = Some i /\ free_at kGroupWidth (capacity_ t) (ctl t) (bucket (hash m) (capacity_ t)) i.
Proof.
  intros Hd Hs. assert (Hc : capacity_ t <> 0%nat) by lia. destruct (di_control _ _ _ Hd) as [Hcon Hlen]. unfold find_insert_index. rewrite Hcon.
  pose proof (insert_loop_spec kGroupWidth (capacity_ t) ltac:(unfold kGroupWidth; lia) (di_cap _ _ _ Hd) Hc (ctl t) Hlen true (bucket (hash m) (capacity_ t)) (bucket_lt m _ Hc)) as Hspec.
  destruct (insert_loop _ _ _ _ _ _ _) as [i|]; [exists i; by split; [|apply Hspec]|]. exfalso. pose proof (count_kinds _ (di_bytes _ _ _ Hd)) as Hk. rewrite <- (di_size _ _ _ Hd), Hlen in Hk.
  assert (Hfree : (0 < count (Z.eqb kDeleted) (ctl t) \/ 0 < count (Z.eqb kEmpty) (ctl t))%nat) by lia.
  destruct Hfree as [Hx|Hx]; apply count_pos in Hx as (i & c & Hi & <-%Z.eqb_eq); destruct (capacity_nonzero _ _ _ _ _ Hd Hi) as [_ Hlt]; destruct (Hspec i Hlt) as [Hs1 Hs2]; [by apply Hs2|by apply Hs1].
Qed.

(** A member leaves its slot. *)
Lemma vacate_spec view t d m id i :
  dict view t d -> full_at t i id -> d !! m = Some id ->
  let t' := mkIndex (with_control i kDeleted t) (slots_ t) (vec_bytes_ t) (size_ t - 1) (S (tombstones_ t)) (capacity_ t) in
  dict view t' (delete m d).
Proof.
  intros Hd Hf Hm t'. pose proof Hf as (c & Hc & Hcf & Hs). destruct (capacity_nonzero _ _ _ _ _ Hd Hc) as [Hcap Hi]. destruct (di_control _ _ _ Hd) as [Hcon Hlen].
  destruct (ctl_set view t d i kDeleted (vec_bytes_ t) (size_ t - 1) (S (tombstones_ t)) (slots_ t) Hd Hi) as (Hctl & Hcon' & Hlen'). fold t' in Hctl, Hcon', Hlen'.
  assert (Hother : forall j id', full_at t' j id' <-> j <> i /\ full_at t j id').
  { intros j id'. unfold full_at. rewrite Hctl. cbn [slots_ t']. destruct (decide (j = i)) as [->|Hj]; [|rewrite list_lookup_insert_ne by done; tauto].
    rewrite list_lookup_insert_eq by lia. split; [|tauto]. by intros (c' & [= <-] & Hx & _). }
  pose proof (count_insert is_full_control (ctl t) i c kDeleted Hc) as Hcnt. rewrite Hcf in Hcnt. change (is_full_control kDeleted) with false in Hcnt. cbn [Nat.b2n] in Hcnt.
  pose proof (count_insert (Z.eqb kDeleted) (ctl t) i c kDeleted Hc) as Hcnt'. rewrite Z.eqb_refl in Hcnt'.
  replace (kDeleted =? c) with false in Hcnt' by (unfold is_full_control, kEmpty, kDeleted in *; lia). cbn [Nat.b2n] in Hcnt'.
  split; try done.
  - apply (di_cap _ _ _ Hd).
  - apply (di_limit _ _ _ Hd).
  - apply (di_vec _ _ _ Hd).
  - apply (di_slots _ _ _ Hd).
  - rewrite Hctl. apply Forall_insert; [apply (di_bytes _ _ _ Hd)|by right; right].
  - intros j id' [Hj Hfj]%Hother. destruct (di_full _ _ _ Hd _ _ Hfj) as (m' & Hm' & Hb & Hr). exists m'. change (capacity_ t') with (capacity_ t). rewrite Hctl.
    assert (m' <> m). { intros ->. apply Hj. rewrite Hm in Hm'. injection Hm' as <-. by eapply (di_unique _ _ _ Hd). }
    split_and!; [by rewrite lookup_delete_ne|by rewrite list_lookup_insert_ne|by apply reach_changed].
  - intros m' id' Hm'. apply lookup_delete_Some in Hm' as [Hne Hm']. destruct (di_has _ _ _ Hd _ _ Hm') as [Hv' [j Hj]]. split; [done|]. exists j. apply Hother. split; [|done].
    intros ->. destruct Hj as (_ & _ & _ & Hj). rewrite Hs in Hj. injection Hj as <-. destruct (di_has _ _ _ Hd _ _ Hm) as [Hv _]. congruence.
  - intros j k id' [_ Hj]%Hother [_ Hk]%Hother. by eapply (di_unique _ _ _ Hd).
  - rewrite Hctl. cbn [size_ t']. rewrite (di_size _ _ _ Hd). lia.
  - cbn. rewrite map_size_delete, Hm. rewrite (di_card _ _ _ Hd). cbn. lia.
  - rewrite Hctl. cbn [tombstones_ t']. rewrite (di_tombstones _ _ _ Hd). lia.
Qed.

(** A member takes another id. *)
Lemma renumber_spec view t d m id i id' :
  dict view t d -> full_at t i id -> d !! m = Some id -> view id' = Some m ->
  dict view (mkIndex (control_ t) (<[i := id']> (slots_ t)) (vec_bytes_ t) (size_ t) (tombstones_ t) (capacity_ t)) (<[m := id']> d).
Proof.
  intros Hd Hf Hm Hv. pose proof Hf as (c & Hc & Hcf & Hs). set (t' := mkIndex _ _ _ _ _ _).
  assert (Hat : full_at t' i id') by (exists c; split_and!; [done..|]; cbn; apply list_lookup_insert_eq; by apply lookup_lt_Some in Hs).
  assert (Hother : forall j x, j <> i -> full_at t' j x <-> full_at t j x) by (intros j x Hj; unfold full_at; cbn; by rewrite list_lookup_insert_ne).
  assert (Hid : forall j, full_at t' j id' -> j = i).
  { intros j Hj. destruct (decide (j = i)) as [|Hji]; [done|]. apply Hother in Hj; [|done]. destruct (di_full _ _ _ Hd _ _ Hj) as (m' & Hm' & _).
    destruct (di_has _ _ _ Hd _ _ Hm') as [Hv' _]. assert (m' = m) as -> by congruence. rewrite Hm in Hm'. injection Hm' as ->. by eapply (di_unique _ _ _ Hd). }
  split; try (by apply Hd); try done.
  - cbn. rewrite length_insert. apply (di_slots _ _ _ Hd).
  - intros j x Hj. destruct (decide (j = i)) as [->|Hji].
    + assert (x = id') as -> by (destruct Hj as (? & _ & _ & Hj), Hat as (? & _ & _ & Ha); congruence). destruct (di_full _ _ _ Hd _ _ Hf) as (m' & Hm' & Hb & Hr).
      destruct (di_has _ _ _ Hd _ _ Hm') as [Hv' _], (di_has _ _ _ Hd _ _ Hm) as [Hv'' _]. assert (m' = m) as -> by congruence. exists m. by rewrite lookup_insert_eq.
    + apply Hother in Hj; [|done]. destruct (di_full _ _ _ Hd _ _ Hj) as (m' & Hm' & Hb & Hr). exists m'. rewrite lookup_insert_ne; [done|].
      intros ->. rewrite Hm in Hm'. injection Hm' as <-. by apply Hji, (di_unique _ _ _ Hd _ _ id).
  - intros m' x Hx. destruct (decide (m' = m)) as [->|Hmm]; [rewrite lookup_insert_eq in Hx; injection Hx as <-; split; [done|by exists i]|].
    rewrite lookup_insert_ne in Hx by done. destruct (di_has _ _ _ Hd _ _ Hx) as [Hv' [j Hj]]. split; [done|]. exists j. apply Hother; [|done].
    intros ->. destruct Hj as (_ & _ & _ & Hj). rewrite Hs in Hj. injection Hj as <-. destruct (di_has _ _ _ Hd _ _ Hm) as [Hv'' _]. congruence.
  - intros j k x Hj Hk. destruct (decide (j = i)) as [->|Hji]; [|destruct (decide (k = i)) as [->|Hki]].
    + assert (x = id') as -> by (destruct Hj as (? & _ & _ & Hj), Hat as (? & _ & _ & Ha); congruence). symmetry. by apply Hid.
    + assert (x = id') as -> by (destruct Hk as (? & _ & _ & Hk), Hat as (? & _ & _ & Ha); congruence). by apply Hid.
    + apply Hother in Hj, Hk; [|done..]. by eapply (di_unique _ _ _ Hd).
  - cbn. rewrite map_size_insert_Some by (by eexists). by rewrite (di_card _ _ _ Hd).
Qed.

(** *** Rebuilding *)

Lemma dict_allocate view cap : (cap mod kGroupWidth = 0)%nat -> (kGroupWidth <= cap)%nat -> Z.of_nat cap < 2 ^ 32 -> dict view (allocate sizeof_slot cap) ∅.
Proof.
  intros Hm Hc Hlim. assert (Hctl : ctl (allocate sizeof_slot cap) = replicate cap kEmpty).
  { unfold ctl, allocate. cbn [capacity_ control_]. rewrite replicate_add. apply take_app_length'. by rewrite length_replicate. }
  assert (Hno : forall i id, ~ full_at (allocate sizeof_slot cap) i id).
  { intros i id (c & Hi & Hf & _). rewrite Hctl in Hi. apply lookup_replicate in Hi as [-> _]. done. }
  split; rewrite ?Hctl; try done.
  - intros _. cbn. unfold table_bytes. rewrite wrap_small by nia. lia.
  - cbn. rewrite length_replicate. split; [|done]. rewrite replicate_add. unfold mirrored. f_equal. rewrite take_replicate. f_equal. lia.
  - cbn. by rewrite length_replicate.
  - apply Forall_replicate. by right; left.
  - intros i id Hf. by destruct (Hno i id).
  - intros i j id Hf. by destruct (Hno i id).
  - rewrite count_replicate. done.
  - rewrite count_replicate. done.
Qed.

Lemma members_elem view t d id : dict view t d -> id ∈ entries t <-> exists i, full_at t i id.
Proof.
  intros Hd. destruct (di_control _ _ _ Hd) as [Hcon Hlen]. unfold entries. rewrite list_elem_of_omap. split.
  - intros (x & Hx & ->). apply list_elem_of_lookup in Hx as (i & Hi). apply lookup_zip_with_Some in Hi as (c & id' & Hx & Hc & Hs). unfold full_slot in Hx.
    destruct (is_full_control c) eqn:Hf; [|done]. injection Hx as ->. exists i, c. split_and!; [|done|done]. apply lookup_lt_Some in Hs as Hlt. rewrite (di_slots _ _ _ Hd) in Hlt.
    unfold ctl. by rewrite lookup_take_lt.
  - intros (i & c & Hc & Hf & Hs). exists (Some id). split; [|done]. apply list_elem_of_lookup. exists i. apply lookup_zip_with_Some. exists c, id.
    unfold full_slot. rewrite Hf. split_and!; [done|by apply (ctl_control t Hcon Hlen)|done].
Qed.

Lemma omap_nodup (l : list (option nat)) : (forall i j x, l !! i = Some (Some x) -> l !! j = Some (Some x) -> i = j) -> NoDup (omap (fun x => x) l).
Proof.
  induction l as [|[x|] l IH]; intros Hu; cbn; [constructor| |].
  - apply NoDup_cons. split; [|by apply IH; intros i j y Hi Hj; assert (S i = S j) by (by eapply Hu); lia].
    rewrite list_elem_of_omap. intros (y & Hy & ->). apply list_elem_of_lookup in Hy as (j & Hj). by specialize (Hu 0%nat (S j) x eq_refl Hj).
  - apply IH. intros i j y Hi Hj. assert (S i = S j) by (by eapply Hu). lia.
Qed.

Lemma entries_nodup view t d : dict view t d -> NoDup (entries t).
Proof.
  intros Hd. destruct (di_control _ _ _ Hd) as [Hcon Hlen]. apply omap_nodup.
  assert (Hfull : forall i x, zip_with full_slot (control_ t) (slots_ t) !! i = Some (Some x) -> full_at t i x).
  { intros i x Hi. apply lookup_zip_with_Some in Hi as (c & id & Hx & Hc & Hs). unfold full_slot in Hx. destruct (is_full_control c) eqn:Hf; [|done]. injection Hx as ->.
    exists c. split_and!; [|done|done]. apply lookup_lt_Some in Hs as Hlt. rewrite (di_slots _ _ _ Hd) in Hlt. unfold ctl. by rewrite lookup_take_lt. }
  intros i j x Hi%Hfull Hj%Hfull. by eapply (di_unique _ _ _ Hd).
Qed.

Lemma length_full_slots (c : list Z) (sl : list nat) :
  (length sl <= length c)%nat -> length (omap (fun x => x) (zip_with full_slot c sl)) = count is_full_control (take (length sl) c).
Proof.
  revert c. induction sl as [|id sl IH]; intros [|x c] Hl; cbn in *; try (done || lia). specialize (IH c ltac:(lia)). unfold count in *. cbn [List.filter]. unfold full_slot at 1.
  destruct (is_full_control x); cbn; by rewrite IH.
Qed.

Lemma members_length view t d : dict view t d -> length (entries t) = size_ t.
Proof.
  intros Hd. destruct (di_control _ _ _ Hd) as [Hcon Hlen]. unfold entries. rewrite length_full_slots, (di_slots _ _ _ Hd); [by rewrite (di_size _ _ _ Hd)|].
  rewrite (di_slots _ _ _ Hd), Hcon. unfold mirrored. rewrite length_app. lia.
Qed.

Lemma reinsert_spec view d ids t0 d0 :
  dict view t0 d0 -> tombstones_ t0 = 0%nat -> NoDup ids ->
  (forall m id, d !! m = Some id -> view id = Some m) -> (forall id, id ∈ ids -> exists m, d !! m = Some id /\ d0 !! m = None) -> (size_ t0 + length ids <= capacity_ t0)%nat ->
  exists t' d', insert_all hasher_ view ids t0 = Some t' /\ dict view t' d' /\ tombstones_ t' = 0%nat /\ capacity_ t' = capacity_ t0 /\ vec_bytes_ t' = vec_bytes_ t0 /\
    (forall m id, d' !! m = Some id <-> d0 !! m = Some id \/ d !! m = Some id /\ id ∈ ids).
Proof.
  intros Hd Ht Hn Hdv. revert t0 d0 Hd Ht Hn. induction ids as [|id ids IH]; intros t0 d0 Hd Ht Hn Hin Hroom.
  { exists t0, d0. split_and!; try done. intros m id. rewrite elem_of_nil. tauto. }
  apply NoDup_cons in Hn as [Hnin Hn]. destruct (Hin id) as (m & Hm & H0); [by left|]. pose proof (Hdv _ _ Hm) as Hv. cbn [length] in Hroom. cbn [insert_all]. unfold insert_existing. rewrite Hv. cbn [mbind option_bind].
  destruct (find_insert_spec view t0 d0 m Hd ltac:(lia)) as (i & Hi & Hfree). rewrite Hi. cbn [mbind option_bind].
  destruct (occupy_spec view t0 d0 m id i false Hd H0 Hv Hfree (or_intror Ht)) as (t1 & -> & Hd1 & Hc1 & Hs1 & _ & Ht1 & Hvb1). cbn [mbind option_bind].
  destruct (IH t1 (<[m := id]> d0)) as (t' & d' & E & Hd' & Ht' & Hc' & Hvb' & Hspec); [done|lia|done| |lia|].
  - intros id' Hid'. destruct (Hin id') as (m' & Hm' & H0'); [by right|]. exists m'. split; [done|]. rewrite lookup_insert_ne; [done|].
    intros ->. assert (id' = id) as -> by congruence. done.
  - exists t', d'. split_and!; [done..|by rewrite Hc'|by rewrite Hvb'|]. intros m' id'. rewrite Hspec, elem_of_cons. destruct (decide (m' = m)) as [->|Hne].
    + rewrite lookup_insert_eq, H0. split; [intros [[= <-]|[H1 H2]]; tauto|]. intros [H1|[H1 _]]; [done|]. left. congruence.
    + rewrite lookup_insert_ne by done. split; [tauto|]. intros [H1|[H1 [->|H2]]]; [tauto| |tauto]. apply Hdv in H1. congruence.
Qed.

Lemma rebuild_spec view t d cap :
  dict view t d -> (cap mod kGroupWidth = 0)%nat -> (kGroupWidth <= cap)%nat -> Z.of_nat cap < 2 ^ 32 -> (size d <= cap)%nat ->
  exists t', insert_all hasher_ view (entries t) (allocate sizeof_slot cap) = Some t' /\ dict view t' d /\ tombstones_ t' = 0%nat /\ capacity_ t' = cap.
Proof.
  intros Hd Hm Hc Hlim Hs. pose proof (dict_allocate view cap Hm Hc Hlim) as Ha. destruct (reinsert_spec view d (entries t) _ ∅ Ha eq_refl (entries_nodup _ _ _ Hd)) as (t' & d' & E & Hd' & Ht' & Hc' & _ & Hspec).
  - intros m id Hmid. apply (di_has _ _ _ Hd _ _ Hmid).
  - intros id Hid. apply (members_elem _ _ _ _ Hd) in Hid as [i Hi]. destruct (di_full _ _ _ Hd _ _ Hi) as (m & Hmid & _). exists m. split; [done|]. apply lookup_empty.
  - rewrite (members_length _ _ _ Hd), (di_card _ _ _ Hd). cbn. lia.
  - exists t'. split_and!; [done| |done|done]. replace d with d'; [done|]. apply map_eq_iff. intros m. apply option_eq. intros id. rewrite Hspec. split.
    + intros [H1|[H1 _]]; [by rewrite lookup_empty in H1|done].
    + intros H1. right. split; [done|]. apply (members_elem _ _ _ _ Hd). apply (di_has _ _ _ Hd _ _ H1).
Qed.

Lemma round_up_spec v : 0 <= v < 2 ^ 63 -> v <= round_up_to_group v < Z.max 17 (v + 16) /\ 16 <= round_up_to_group v /\ round_up_to_group v mod 16 = 0.
Proof.
  intros Hv. unfold round_up_to_group. destruct (Z.ltb_spec v 16); [split; [lia|done]|]. rewrite wrap_small by lia.
  pose proof (Z.div_mod (v + 16 - 1) 16 ltac:(lia)). pose proof (Z.mod_pos_bound (v + 16 - 1) 16 ltac:(lia)). split; [lia|]. split; [lia|]. apply Z.mod_mul. lia.
Qed.

Lemma round_up_multiple v : 16 <= v < 2 ^ 63 -> v mod 16 = 0 -> round_up_to_group v = v.
Proof.
  intros Hv Hm. destruct (round_up_spec v ltac:(lia)) as (H1 & H2 & H3). pose proof (Z.div_mod v 16 ltac:(lia)). pose proof (Z.div_mod (round_up_to_group v) 16 ltac:(lia)). lia.
Qed.

(** A rebuilt table holds the same members; a refused one leaves the index as it was. *)
Definition refused (w : world MemberIndex) (E : exn -> world MemberIndex -> Prop) : Prop :=
  (~ unlimited (mem w) -> forall mm, E MaxMemoryExceeded (World mm (obj w))) /\ forall mm, E LengthError (World mm (obj w)).

Lemma wp_rebuild view d requested (Q : unit -> world MemberIndex -> Prop) E w :
  dict view (obj w) d -> 0 <= requested < 2 ^ 62 -> Z.of_nat (size d) <= requested \/ (size d <= capacity_ (obj w))%nat /\ requested = Z.of_nat (capacity_ (obj w)) ->
  (forall mm t', (unlimited (mem w) -> mm = mem w) -> dict view t' d -> capacity_ t' = Z.to_nat (round_up_to_group requested) -> tombstones_ t' = 0%nat -> Q tt (World mm t')) ->
  refused w E -> wp (rehash hasher_ sizeof_slot view requested) Q E w.
Proof.
  intros Hd Hr Hs HQ [HE1 HE2]. destruct (round_up_spec requested ltac:(lia)) as (Hr1 & Hr2 & Hr3). unfold rehash. apply wp_bind, wp_obj_get.
  set (n := round_up_to_group requested) in *. assert (Hafter : forall mm, (unlimited (mem w) -> mm = mem w) ->
    wp (if 2 ^ 32 - 1 <? n then throw LengthError else replacement ← need (insert_all hasher_ view (entries (obj w)) (allocate sizeof_slot (Z.to_nat n))); obj_mod (fun _ => replacement)) Q E (World mm (obj w))).
  { intros mm Hmm. destruct (Z.ltb_spec (2 ^ 32 - 1) n); [apply wp_throw, HE2|].
    destruct (rebuild_spec view (obj w) d (Z.to_nat n) Hd) as (t' & Ht' & Hd' & Htb & Hc'); [|unfold kGroupWidth; lia|lia|lia|].
    - apply Nat2Z.inj. rewrite Nat2Z.inj_mod, Z2Nat.id by lia. apply Hr3.
    - apply wp_bind, (wp_need _ t'); [done|]. apply wp_obj_mod. cbn. by apply HQ. }
  apply wp_bind, wp_when; intros _.
  - apply wp_ensure_memory_growth; [by intros mm Hmm; apply Hafter|]. intros Hu mm. by apply HE1.
  - destruct w as [mm t]. by apply Hafter.
Qed.

(** *** Making room *)

Hypothesis growth_ok : forall c, 0 < c < 2 ^ 32 -> 0 <= trunc (mul (of_int c) growth_) < 2 ^ 60.

Lemma size_le_capacity view t d : dict view t d -> (size_ t <= capacity_ t)%nat.
Proof.
  intros Hd. pose proof (count_kinds _ (di_bytes _ _ _ Hd)) as Hk. destruct (di_control _ _ _ Hd) as [_ Hl]. rewrite <- (di_size _ _ _ Hd), Hl in Hk. lia.
Qed.

Lemma max_usable_le cap : (max_usable cap <= cap)%nat.
Proof. unfold max_usable. lia. Qed.

Lemma grow_capacity_spec cap : 0 < cap < 2 ^ 32 -> cap mod 16 = 0 -> exists g, grow_capacity growth_ cap = Some g /\ cap + 16 <= g < 2 ^ 61 /\ g mod 16 = 0.
Proof.
  intros Hc Hm. pose proof (growth_ok cap Hc) as Hg. unfold grow_capacity, to_size. replace (_ <? _) with true by lia. cbn [mbind option_bind].
  eexists. split; [done|]. destruct (round_up_spec (trunc (mul (of_int cap) growth_)) ltac:(lia)) as (H1 & H2 & H3). set (r := round_up_to_group _) in *.
  pose proof (Z.div_mod cap 16 ltac:(lia)). pose proof (Z.div_mod r 16 ltac:(lia)). destruct (Z.ltb_spec cap r); [split; [lia|done]|]. split; [lia|].
  rewrite <- (Z.mul_1_l 16) at 1. by rewrite Z.mod_add by lia.
Qed.

Lemma capacity_shape view t d : dict view t d -> capacity_ t <> 0%nat -> 16 <= Z.of_nat (capacity_ t) < 2 ^ 32 /\ Z.of_nat (capacity_ t) mod 16 = 0 /\ round_up_to_group (Z.of_nat (capacity_ t)) = Z.of_nat (capacity_ t).
Proof.
  intros Hd Hc. destruct (cap_groups kGroupWidth (capacity_ t) ltac:(unfold kGroupWidth; lia) (di_cap _ _ _ Hd) Hc) as [Hge _]. unfold kGroupWidth in Hge. pose proof (di_limit _ _ _ Hd).
  assert (Hm : Z.of_nat (capacity_ t) mod 16 = 0) by (pose proof (di_cap _ _ _ Hd) as Hx; unfold kGroupWidth in Hx; change 16 with (Z.of_nat 16); by rewrite <- Nat2Z.inj_mod, Hx).
  split; [lia|]. split; [done|]. apply round_up_multiple; [lia|done].
Qed.

Lemma wp_make_room view d (Q : bool -> world MemberIndex -> Prop) E w :
  dict view (obj w) d ->
  (forall mm t' rebuilt, (unlimited (mem w) -> mm = mem w) -> dict view t' d -> (size_ t' < capacity_ t')%nat -> (rebuilt = false -> t' = obj w /\ mm = mem w) -> Q rebuilt (World mm t')) ->
  refused w E -> wp (ensure_capacity_for_insert hasher_ sizeof_slot growth_ view) Q E w.
Proof.
  intros Hd HQ HE. pose proof (size_le_capacity _ _ _ Hd) as Hsz. pose proof (di_card _ _ _ Hd) as Hcard. unfold ensure_capacity_for_insert. apply wp_bind, wp_obj_get.
  assert (Hre : forall r, 0 <= r < 2 ^ 62 -> Z.of_nat (size d) < r -> wp (rehash hasher_ sizeof_slot view r) (fun _ => wp (mret true) Q E) E w).
  { intros r Hr Hs. apply (wp_rebuild view d); [done|done|lia| |done]. intros mm t' Hmm Hd' Hc' Ht'. apply wp_ret, HQ; [done..| |done].
    rewrite (di_card _ _ _ Hd'), Hc'. destruct (round_up_spec r ltac:(lia)). lia. }
  destruct (Nat.eqb_spec (capacity_ (obj w)) 0) as [H0|H0]; [apply wp_bind, Hre; lia|].
  destruct (capacity_shape _ _ _ Hd H0) as (Hc1 & Hc0 & Hc2). pose proof (max_usable_le (capacity_ (obj w))).
  destruct (Nat.ltb_spec (max_usable (capacity_ (obj w))) (size_ (obj w) + tombstones_ (obj w) + 1)).
  - apply wp_bind. destruct (Nat.leb_spec (size_ (obj w) + 1) (max_usable (capacity_ (obj w)))); [apply Hre; lia|].
    destruct (grow_capacity_spec (Z.of_nat (capacity_ (obj w))) ltac:(lia) Hc0) as (g & Hg & Hgb & _). apply wp_bind, (wp_need _ g); [done|]. apply Hre; lia.
  - apply wp_ret. destruct w as [mm t]. apply HQ; [done|done|cbn in *; lia|done].
Qed.

(** *** Operations *)

(** [insert]: a new member gets the id, one that is there keeps its own. *)
Lemma wp_insert_member view d m id (Q : nat * bool -> world MemberIndex -> Prop) E w :
  dict view (obj w) d -> view id = Some m ->
  (forall mm t' i, (unlimited (mem w) -> mm = mem w) ->
     match d !! m with
     | Some id' => dict view t' d -> full_at t' i id' -> Q (i, false) (World mm t')
     | None => dict view t' (<[m := id]> d) -> full_at t' i id -> Q (i, true) (World mm t')
     end) ->
  refused w E -> wp (insert hasher_ sizeof_slot growth_ view m id) Q E w.
Proof.
  intros Hd Hv HQ HE. apply wp_bind, (wp_make_room view d); [done| |done]. intros mm t _ Hmm Hdt Hroom _. apply wp_bind, wp_obj_get. cbn [obj].
  destruct (find_with_hash_spec view t d m Hdt ltac:(lia)) as (r & Hr & Hs). apply wp_bind, (wp_need _ r); [done|]. destruct r as [i|].
  - destruct Hs as (id' & Hf & Hm). apply wp_ret. specialize (HQ mm t i Hmm). rewrite Hm in HQ. by apply HQ.
  - destruct (find_insert_spec view t d m Hdt Hroom) as (i & Hi & Hfree). apply wp_bind, (wp_need _ i); [done|].
    destruct (occupy_spec view t d m id i true Hdt Hs Hv Hfree (or_introl eq_refl)) as (t' & Ht' & Hd' & _ & _ & Hf' & _). apply wp_bind, (wp_need _ t'); [done|].
    apply wp_bind, wp_obj_mod, wp_ret. specialize (HQ mm t' i Hmm). rewrite Hs in HQ. by apply HQ.
Qed.

Lemma wp_insert_absent view d m id (Q : unit -> world MemberIndex -> Prop) E w :
  dict view (obj w) d -> view id = Some m -> d !! m = None ->
  (forall mm t', (unlimited (mem w) -> mm = mem w) -> dict view t' (<[m := id]> d) -> Q tt (World mm t')) ->
  refused w E -> wp (insert_absent hasher_ sizeof_slot growth_ view m id) Q E w.
Proof.
  intros Hd Hv Hm HQ HE. apply wp_bind, (wp_make_room view d); [done| |done]. intros mm t _ Hmm Hdt Hroom _. apply wp_bind, wp_obj_get. cbn [obj].
  destruct (find_insert_spec view t d m Hdt Hroom) as (i & Hi & Hfree). apply wp_bind, (wp_need _ i); [done|].
  destruct (occupy_spec view t d m id i true Hdt Hm Hv Hfree (or_introl eq_refl)) as (t' & Ht' & Hd' & _). apply wp_bind, (wp_need _ t'); [done|].
  apply wp_obj_mod. by apply HQ.
Qed.

Lemma wp_insert_packed view d m id (Q : unit -> world MemberIndex -> Prop) E w :
  dict view (obj w) d -> view id = Some m -> d !! m = None -> tombstones_ (obj w) = 0%nat -> (size_ (obj w) < capacity_ (obj w))%nat ->
  (forall t', dict view t' (<[m := id]> d) -> tombstones_ t' = 0%nat -> capacity_ t' = capacity_ (obj w) -> size_ t' = S (size_ (obj w)) -> Q tt (World (mem w) t')) ->
  wp (insert_packed hasher_ m id) Q E w.
Proof.
  intros Hd Hv Hm Htb Hroom HQ. apply wp_bind, wp_obj_get.
  destruct (find_insert_spec view _ d m Hd Hroom) as (i & Hi & Hfree). apply wp_bind, (wp_need _ i); [done|].
  destruct (occupy_spec view _ d m id i false Hd Hm Hv Hfree (or_intror Htb)) as (t' & Ht' & Hd' & Hc' & Hs' & _ & Htb' & _). apply wp_bind, (wp_need _ t'); [done|].
  apply wp_obj_mod. apply HQ; [done|lia|done|done].
Qed.

Lemma find_or_insert_spec view t d m :
  dict view t d -> (size_ t < capacity_ t)%nat ->
  exists i, find_or_insert_index_with_hash view m (hash m) t = Some (Some i, bool_decide (is_Some (d !! m))) /\
    match d !! m with Some id => full_at t i id | None => free_at kGroupWidth (capacity_ t) (ctl t) (bucket (hash m) (capacity_ t)) i end.
Proof.
  intros Hd Hroom. unfold find_or_insert_index_with_hash. rewrite find_or_insert_two_walks. fold (find_index_with_hash view m (hash m) t).
  destruct (find_with_hash_spec view t d m Hd ltac:(lia)) as (r & -> & Hr). cbn [mbind option_bind]. destruct r as [i|].
  - destruct Hr as (id & Hf & ->). by exists i.
  - rewrite Hr. destruct (find_insert_spec view t d m Hd Hroom) as (i & Hi & Hfree). exists i. unfold find_insert_index in Hi. by rewrite Hi.
Qed.

(** One walk over a table that may be full. *)
Lemma find_or_insert_full view t d m :
  dict view t d -> capacity_ t <> 0%nat ->
  exists r, find_or_insert_index_with_hash view m (hash m) t = Some (r, bool_decide (is_Some (d !! m))) /\
    match d !! m with Some id => exists i, r = Some i /\ full_at t i id | None => True end.
Proof.
  intros Hd Hc. unfold find_or_insert_index_with_hash. rewrite find_or_insert_two_walks. fold (find_index_with_hash view m (hash m) t).
  destruct (find_with_hash_spec view t d m Hd Hc) as (r & -> & Hr). cbn [mbind option_bind]. destruct r as [i|].
  - destruct Hr as (id & Hf & ->). exists (Some i). split; [done|]. by exists i.
  - rewrite Hr. by eexists.
Qed.

Lemma wp_probe_for_emplace view d m (Q : nat + nat -> world MemberIndex -> Prop) E w :
  dict view (obj w) d ->
  match d !! m with
  | Some id => forall i, full_at (obj w) i id -> Q (inl i) w
  | None => forall mm t i, (unlimited (mem w) -> mm = mem w) -> dict view t d -> free_at kGroupWidth (capacity_ t) (ctl t) (bucket (hash m) (capacity_ t)) i -> Q (inr i) (World mm t)
  end ->
  refused w E -> wp (probe_for_emplace hasher_ sizeof_slot growth_ view m) Q E w.
Proof.
  intros Hd HQ HE. unfold probe_for_emplace. apply wp_bind, wp_obj_get, wp_bind.
  assert (Hmiss : forall r, d !! m = None -> ((size_ (obj w) < capacity_ (obj w))%nat -> find_or_insert_index_with_hash view m (hash m) (obj w) = Some (r, false)) ->
    wp (rebuilt ← ensure_capacity_for_insert hasher_ sizeof_slot growth_ view;
        probe ← (if rebuilt : bool then t ← obj_get (fun t => t); need (find_or_insert_index_with_hash view m (hash m) t) else mret (r, false));
        match probe.1 with None => throw LogicError | Some index => mret (inr index) end) Q E w).
  { intros r Hm Hprobe. rewrite Hm in HQ. apply wp_bind, (wp_make_room view d); [done| |done]. intros mm t rebuilt Hmm Hdt Hroom Hsame.
    destruct (find_or_insert_spec view t d m Hdt Hroom) as (i & Hi & Hfree). rewrite Hm in Hi, Hfree. change (bool_decide (is_Some None)) with false in Hi. apply wp_bind. destruct rebuilt.
    - apply wp_bind, wp_obj_get, (wp_need _ (Some i, false)); [done|]. apply wp_ret. by apply HQ.
    - destruct (Hsame eq_refl) as [-> ->]. rewrite (Hprobe Hroom) in Hi. injection Hi as ->. apply wp_ret. apply wp_ret. by apply HQ. }
  destruct (Nat.eqb_spec (capacity_ (obj w)) 0) as [H0|H0].
  - apply wp_ret. cbn [snd]. apply Hmiss; [|lia]. destruct (member_found view _ d m Hd) as (r & Hr & Hs). unfold find_index in Hr. rewrite H0 in Hr. by injection Hr as <-.
  - destruct (find_or_insert_full view _ d m Hd H0) as (r & Hr & Hs). apply (wp_need _ _ _ _ _ Hr). cbn [fst snd]. destruct (d !! m) as [id|] eqn:Hm.
    + destruct Hs as (i & -> & Hf). rewrite bool_decide_eq_true_2 by done. apply wp_bind, (wp_need _ i); [done|]. apply wp_ret. by apply HQ.
    + apply Hmiss; [done|]. intros _. exact Hr.
Qed.

Lemma wp_emplace_at view d m i id (Q : unit -> world MemberIndex -> Prop) E w :
  dict view (obj w) d -> d !! m = None -> view id = Some m -> free_at kGroupWidth (capacity_ (obj w)) (ctl (obj w)) (bucket (hash m) (capacity_ (obj w))) i ->
  (forall t', dict view t' (<[m := id]> d) -> Q tt (World (mem w) t')) -> wp (emplace_at hasher_ m i id) Q E w.
Proof.
  intros Hd Hm Hv Hfree HQ. apply wp_bind, wp_obj_get.
  destruct (occupy_spec view _ d m id i true Hd Hm Hv Hfree (or_introl eq_refl)) as (t' & Ht' & Hd' & _). apply wp_bind, (wp_need _ t'); [done|]. apply wp_obj_mod. by apply HQ.
Qed.

Lemma full_is_full view t d i id : dict view t d -> full_at t i id -> is_full t i = true /\ (i < capacity_ t)%nat.
Proof.
  intros Hd (c & Hc & Hf & _). destruct (di_control _ _ _ Hd) as [Hcon Hlen]. destruct (capacity_nonzero _ _ _ _ _ Hd Hc) as [_ Hi]. unfold is_full. by rewrite (ctl_control t Hcon Hlen _ _ Hc).
Qed.

Lemma wp_erase_at_index view d m i id (Q : bool -> world MemberIndex -> Prop) E w :
  dict view (obj w) d -> full_at (obj w) i id -> d !! m = Some id ->
  (forall t', dict view t' (delete m d) -> Q true (World (mem w) t')) -> wp (erase_at_index i) Q E w.
Proof.
  intros Hd Hf Hm HQ. apply wp_bind, wp_obj_get. destruct (full_is_full _ _ _ _ _ Hd Hf) as [-> Hi]. rewrite (proj2 (Nat.leb_gt _ _) Hi). cbn [orb negb].
  apply wp_bind, wp_obj_mod, wp_ret. apply HQ. by apply (vacate_spec view _ d m id).
Qed.

Lemma wp_erase_member view d m (Q : bool -> world MemberIndex -> Prop) E w :
  dict view (obj w) d ->
  (forall t', dict view t' (delete m d) -> Q (bool_decide (is_Some (d !! m))) (World (mem w) t')) -> wp (erase hasher_ view m) Q E w.
Proof.
  intros Hd HQ. apply wp_bind, wp_obj_get. destruct (member_found view _ d m Hd) as (r & Hr & Hs). apply wp_bind, (wp_need _ r); [done|]. destruct r as [i|].
  - destruct Hs as (id & Hf & Hm). apply wp_bind, wp_obj_mod, wp_ret. rewrite Hm in HQ. apply HQ. by apply (vacate_spec view _ d m id).
  - apply wp_ret. rewrite Hs in HQ. destruct w as [mm t]. apply HQ. by rewrite delete_id.
Qed.

Lemma wp_move_member_id view d m old new (Q : bool -> world MemberIndex -> Prop) E w :
  dict view (obj w) d -> d !! m = Some old -> view new = Some m ->
  (forall t', dict view t' (<[m := new]> d) -> Q true (World (mem w) t')) -> wp (move_member_id hasher_ view old new) Q E w.
Proof.
  intros Hd Hm Hv HQ. apply wp_bind, wp_obj_get. destruct (di_has _ _ _ Hd _ _ Hm) as [Hold _]. apply wp_bind, (wp_need _ m); [done|].
  destruct (member_found view _ d m Hd) as (r & Hr & Hs). apply wp_bind, (wp_need _ r); [done|]. destruct r as [i|]; [|congruence]. destruct Hs as (id & Hf & Hm').
  rewrite Hm in Hm'. injection Hm' as <-. apply wp_bind, wp_obj_get. destruct (full_is_full _ _ _ _ _ Hd Hf) as [-> Hi]. rewrite (proj2 (Nat.leb_gt _ _) Hi). cbn [orb negb].
  apply wp_bind, (wp_need _ old); [by destruct Hf as (_ & _ & _ & ?)|]. rewrite Nat.eqb_refl. cbn [negb]. apply wp_bind, wp_obj_mod, wp_ret. apply HQ. by apply (renumber_spec view _ d m old).
Qed.

(** *** Rebuilding within the memory the table has *)

Lemma table_bytes_mono a b : 0 <= a <= b -> b < 2 ^ 32 -> table_bytes sizeof_slot a <= table_bytes sizeof_slot b.
Proof. intros Ha Hb. unfold table_bytes. rewrite !wrap_small by nia. nia. Qed.

(** A table that gets no larger needs no memory, so nothing can refuse it. *)
Lemma wp_shrink view d requested (Q : unit -> world MemberIndex -> Prop) E w :
  dict view (obj w) d -> capacity_ (obj w) <> 0%nat -> Z.of_nat (size d) <= requested -> round_up_to_group requested <= Z.of_nat (capacity_ (obj w)) -> requested < 2 ^ 62 ->
  (forall t', dict view t' d -> capacity_ t' = Z.to_nat (round_up_to_group requested) -> tombstones_ t' = 0%nat -> Q tt (World (mem w) t')) ->
  wp (rehash hasher_ sizeof_slot view requested) Q E w.
Proof.
  intros Hd Hc Hs Hr Hb HQ. destruct (round_up_spec requested ltac:(lia)) as (Hr1 & Hr2 & Hr3). pose proof (di_limit _ _ _ Hd) as Hlim. unfold rehash. apply wp_bind, wp_obj_get.
  pose proof (di_vec _ _ _ Hd Hc) as Hv. pose proof (table_bytes_mono (round_up_to_group requested) (Z.of_nat (capacity_ (obj w))) ltac:(lia) Hlim) as Hm.
  apply wp_bind, wp_when; [intros Ht; lia|]. intros _. replace (2 ^ 32 - 1 <? _) with false by lia.
  destruct (rebuild_spec view (obj w) d (Z.to_nat (round_up_to_group requested)) Hd) as (t' & Ht' & Hd' & Htb & Hc'); [|unfold kGroupWidth; lia|lia|lia|].
  - apply Nat2Z.inj. rewrite Nat2Z.inj_mod, Z2Nat.id by lia. apply Hr3.
  - apply wp_bind, (wp_need _ t'); [done|]. apply wp_obj_mod. by apply HQ.
Qed.

Lemma capacity_for_size_spec n : 0 < n < 2 ^ 50 -> n <= capacity_for_size n < 2 ^ 52 /\ 16 <= capacity_for_size n /\ capacity_for_size n mod 16 = 0.
Proof.
  intros Hn. unfold capacity_for_size. replace (n =? 0) with false by lia. rewrite (wrap_small 64 (n * 32)) by lia. rewrite wrap_small by lia.
  assert (H1 : n <= (n * 32 + 30) / 31 <= 2 * n) by (split; [apply Z.div_le_lower_bound; lia|apply Z.div_le_upper_bound; lia]).
  destruct (round_up_spec ((n * 32 + 30) / 31) ltac:(lia)) as (H2 & H3 & H4). split; [lia|]. by split.
Qed.

(** Tombstones are swept without a change to the members and without an exception. *)
Lemma wp_cleanup view d removed (Q : bool -> world MemberIndex -> Prop) E w :
  dict view (obj w) d -> (forall b t', dict view t' d -> Q b (World (mem w) t')) ->
  wp (cleanup_after_removal_if_needed hasher_ sizeof_slot view removed) Q E w.
Proof.
  intros Hd HQ. assert (Hsame : forall b, Q b w) by (intros b; destruct w as [mm t]; by apply HQ). unfold cleanup_after_removal_if_needed. apply wp_bind, wp_obj_get.
  destruct (_ || _); [apply wp_ret, Hsame|]. pose proof (di_card _ _ _ Hd) as Hcard. destruct (Nat.eqb_spec (size_ (obj w)) 0) as [H0|H0].
  { apply wp_bind, wp_obj_mod, wp_ret. apply HQ. rewrite H0 in Hcard. symmetry in Hcard. apply map_size_empty_inv in Hcard as ->. apply dict_empty. }
  pose proof (size_le_capacity _ _ _ Hd) as Hsz. destruct (capacity_shape _ _ _ Hd ltac:(lia)) as (Hc1 & Hc2 & Hc3).
  destruct (capacity_for_size_spec (Z.of_nat (size_ (obj w))) ltac:(lia)) as (Hf1 & Hf3 & Hf2).
  assert (Hre : forall r, Z.of_nat (size d) <= r -> round_up_to_group r <= Z.of_nat (capacity_ (obj w)) -> r < 2 ^ 62 -> wp (rehash hasher_ sizeof_slot view r;; mret true) Q E w).
  { intros r Hr1 Hr2 Hr3. apply wp_bind, (wp_shrink view d); [done|lia|done|done|done|]. intros t' Hd' _ _. apply wp_ret. by apply HQ. }
  destruct (_ && _ && _) eqn:Hshrink.
  - apply andb_true_iff in Hshrink as [_ Hlt%Z.ltb_lt]. apply Hre; [lia| |lia].
    rewrite round_up_multiple by (lia || done). lia.
  - clear Hshrink. destruct (_ && _); [|apply wp_ret, Hsame]. apply Hre; lia.
Qed.

Lemma wp_rehash_same view d (Q : bool -> world MemberIndex -> Prop) E w :
  dict view (obj w) d -> (forall b t', dict view t' d -> Q b (World (mem w) t')) -> wp (rehash_same_capacity hasher_ sizeof_slot view) Q E w.
Proof.
  intros Hd HQ. apply wp_bind, wp_obj_get. destruct (Nat.eqb_spec (capacity_ (obj w)) 0) as [H0|H0]; cbn [orb]; [apply wp_ret; destruct w as [mm t]; by apply HQ|].
  destruct (Nat.eqb _ 0); [apply wp_ret; destruct w as [mm t]; by apply HQ|]. pose proof (size_le_capacity _ _ _ Hd) as Hsz. pose proof (di_card _ _ _ Hd).
  destruct (capacity_shape _ _ _ Hd H0) as (Hc1 & Hc2 & Hc3). apply wp_bind, (wp_shrink view d); [done|done|lia|lia|lia|]. intros t' Hd' _ _. apply wp_ret. by apply HQ.
Qed.

(** *** Reservations *)

Lemma wp_reserve_members view d n (Q : unit -> world MemberIndex -> Prop) E w :
  dict view (obj w) d -> Z.of_nat n < 2 ^ 50 ->
  (forall mm t', (unlimited (mem w) -> mm = mem w) -> dict view t' d -> Q tt (World mm t')) -> refused w E ->
  wp (reserve hasher_ sizeof_slot view n) Q E w.
Proof.
  intros Hd Hn HQ HE. apply wp_bind, wp_obj_get. destruct (Nat.eqb_spec n 0); cbn [orb]; [apply wp_ret; destruct w; by apply HQ|].
  destruct (Nat.leb_spec n (max_usable (capacity_ (obj w)))) as [|Hlt]; [apply wp_ret; destruct w; by apply HQ|].
  destruct (capacity_for_size_spec (Z.of_nat n) ltac:(lia)) as (Hf1 & Hf3 & Hf2). pose proof (di_card _ _ _ Hd) as Hcard. pose proof (size_le_capacity _ _ _ Hd) as Hsz.
  assert (Hge : Z.of_nat (capacity_ (obj w)) <= capacity_for_size (Z.of_nat n)).
  { unfold capacity_for_size. replace (_ =? 0) with false by lia. rewrite (wrap_small 64 (Z.of_nat n * 32)) by lia. rewrite wrap_small by lia.
    assert (H31 : Z.of_nat (capacity_ (obj w)) <= (Z.of_nat n * 32 + 30) / 31).
    { apply Z.div_le_lower_bound; [lia|]. unfold max_usable in Hlt. pose proof (Nat.div_mod_eq (capacity_ (obj w)) 32). lia. }
    destruct (round_up_spec ((Z.of_nat n * 32 + 30) / 31)) as (H1 & _); [split; [lia|apply Z.div_lt_upper_bound; lia]|]. lia. }
  apply (wp_rebuild view d); [done|lia|lia| |done]. intros mm t' Hmm Hd' _ _. by apply HQ.
Qed.

Lemma grow_until_spec n fuel target :
  16 <= target < 2 ^ 61 -> target mod 16 = 0 -> Z.of_nat n < 2 ^ 31 -> 2 * Z.of_nat n <= 16 * Z.of_nat fuel + target ->
  exists g, grow_until growth_ fuel n target = Some g /\ target <= g < 2 ^ 61 /\ (n <= max_usable (Z.to_nat g))%nat.
Proof.
  revert target. induction fuel as [|fuel IH]; intros target Ht Hm Hn Hf; cbn [grow_until]; destruct (Z.ltb_spec (Z.of_nat (max_usable (Z.to_nat target))) (Z.of_nat n)) as [Hlt|Hge];
    try (exists target; split_and!; [done|lia|lia|lia]).
  - exfalso. unfold max_usable in Hlt. pose proof (Nat.div_mod_eq (Z.to_nat target) 32). lia.
  - assert (Hlim : target < 2 ^ 32) by (unfold max_usable in Hlt; pose proof (Nat.div_mod_eq (Z.to_nat target) 32); lia).
    destruct (grow_capacity_spec target ltac:(lia) Hm) as (g & -> & Hg & Hgm). cbn [mbind option_bind]. destruct (IH g ltac:(lia) Hgm Hn ltac:(lia)) as (g' & E & Hg' & Hu). exists g'. split; [done|]. split; [lia|done].
Qed.

Lemma wp_reserve_additional_members view d n (Q : unit -> world MemberIndex -> Prop) E w :
  dict view (obj w) d -> Z.of_nat (size d) + Z.of_nat n < 2 ^ 31 ->
  (forall mm t', (unlimited (mem w) -> mm = mem w) -> dict view t' d -> Q tt (World mm t')) -> refused w E ->
  wp (reserve_additional hasher_ sizeof_slot growth_ view n) Q E w.
Proof.
  intros Hd Hn HQ HE. pose proof (di_card _ _ _ Hd) as Hcard. apply wp_bind, wp_obj_get. destruct (Nat.eqb_spec n 0); [apply wp_ret; destruct w; by apply HQ|].
  replace (_ <? _) with false by lia. cbv zeta. destruct (_ && _); [apply wp_ret; destruct w; by apply HQ|]. set (start := if Nat.eqb (capacity_ (obj w)) 0 then 16 else _).
  assert (Hstart : 16 <= start < 2 ^ 32 /\ start mod 16 = 0).
  { unfold start. destruct (Nat.eqb_spec (capacity_ (obj w)) 0) as [H0|H0]; [done|]. by destruct (capacity_shape _ _ _ Hd H0) as (H1 & H2 & _). }
  destruct Hstart as [Hs1 Hs2]. destruct (grow_until_spec (size_ (obj w) + n) (size_ (obj w) + n) start ltac:(lia) Hs2 ltac:(lia) ltac:(lia)) as (g & Hg & Hgb & Hu).
  apply wp_bind, (wp_need _ g); [done|]. pose proof (max_usable_le (Z.to_nat g)). apply (wp_rebuild view d); [done|lia|lia| |done]. intros mm t' Hmm Hd' _ _. by apply HQ.
Qed.

(** After [reserve_for_density] the members fit without another rebuild. *)
Lemma wp_reserve_for_density view d n density needed (Q : unit -> world MemberIndex -> Prop) E w :
  dict view (obj w) d -> to_size (div (of_int (Z.of_nat n)) (unit_density density)) = Some needed -> needed < 2 ^ 60 -> (size d <= n)%nat -> Z.of_nat n < 2 ^ 60 ->
  (forall mm t', (unlimited (mem w) -> mm = mem w) -> dict view t' d -> (n <> 0%nat -> tombstones_ t' = 0%nat /\ (n <= capacity_ t')%nat) -> Q tt (World mm t')) -> refused w E ->
  wp (reserve_for_density hasher_ sizeof_slot view n density) Q E w.
Proof.
  intros Hd Hneed Hb Hs Hn HQ HE. unfold reserve_for_density. destruct (Nat.eqb_spec n 0) as [->|Hn0]; [apply wp_ret; destruct w; by apply HQ|].
  apply wp_bind, (wp_need _ needed); [done|]. destruct (round_up_spec (Z.max needed (Z.of_nat n)) ltac:(lia)) as (H1 & H2 & H3).
  apply (wp_rebuild view d); [done|lia|lia| |done]. intros mm t' Hmm Hd' Hc' Ht'. apply HQ; [done|done|]. intros _. split; [done|]. rewrite Hc'.
  destruct (round_up_spec (round_up_to_group (Z.max needed (Z.of_nat n))) ltac:(lia)) as (H4 & _). lia.
Qed.

Lemma member_index_for_each view t d : dict view t d -> exists l, for_each view t = Some l /\ NoDup l /\ forall m id, (m, id) ∈ l <-> d !! m = Some id.
Proof.
  intros Hd. unfold for_each.
  assert (Hall : forall ids, (forall id, id ∈ ids -> exists m, d !! m = Some id) -> exists l, mapM (fun id => m ← view id; Some (m, id)) ids = Some l /\ l.*2 = ids /\ forall m id, (m, id) ∈ l -> view id = Some m).
  { induction ids as [|id ids IH]; intros Hin; [exists []; split_and!; [done|done|]; intros m id Hx; by apply not_elem_of_nil in Hx|].
    destruct (Hin id) as [m Hm]; [by left|]. destruct (di_has _ _ _ Hd _ _ Hm) as [Hv _]. destruct IH as (l & E & Hl & Hlv); [intros id' Hid'; apply Hin; by right|].
    exists ((m, id) :: l). cbn [mapM]. rewrite Hv. cbn [mbind option_bind]. rewrite E. split_and!; [done|by cbn; rewrite Hl|]. intros m' id' [[= -> ->]|Hx]%elem_of_cons; [done|by apply Hlv]. }
  destruct (Hall (entries t)) as (l & E & Hl & Hlv).
  { intros id Hid. apply (members_elem _ _ _ _ Hd) in Hid as [i Hi]. destruct (di_full _ _ _ Hd _ _ Hi) as (m & Hm & _). by exists m. }
  exists l. split; [done|]. split; [apply (NoDup_fmap_1 snd); rewrite Hl; by apply (entries_nodup _ _ _ Hd)|]. intros m id. split.
  - intros Hx. assert (Hid : id ∈ entries t) by (rewrite <- Hl; apply list_elem_of_fmap; by exists (m, id)). apply (members_elem _ _ _ _ Hd) in Hid as [i Hi].
    destruct (di_full _ _ _ Hd _ _ Hi) as (m' & Hm' & _). destruct (di_has _ _ _ Hd _ _ Hm') as [Hv' _]. apply Hlv in Hx. congruence.
  - intros Hm. assert (Hid : id ∈ entries t) by (apply (members_elem _ _ _ _ Hd); apply (di_has _ _ _ Hd _ _ Hm)). rewrite <- Hl in Hid. apply list_elem_of_fmap in Hid as ([m' id'] & -> & Hx).
    destruct (di_has _ _ _ Hd _ _ Hm) as [Hv _]. apply Hlv in Hx as Hv'. cbn in *. congruence.
Qed.

(** *** Upsert in an object with its storage *)

Section emplace.
Context {O : Type} (oview : O -> nat -> option bytes) (get : O -> MemberIndex) (set : MemberIndex -> O -> O).
Hypotheses (get_set : forall t o, get (set t o) = t) (set_set : forall t t' o, set t (set t' o) = set t o) (set_get : forall o, set (get o) o = o)
           (view_set : forall t o, oview (set t o) = oview o).

Lemma wp_find_or_emplace d m (on_existing : nat -> M (world O) unit) (make_meta : M (world O) nat) (Q : bool -> world O -> Prop) E w :
  dict (oview (obj w)) (get (obj w)) d ->
  match d !! m with
  | Some id => wp (on_existing id) (fun _ => Q false) E w
  | None => forall mm t, (unlimited (mem w) -> mm = mem w) -> dict (oview (obj w)) t d ->
      wp make_meta (fun id w' => get (obj w') = t /\ (forall m' id', d !! m' = Some id' -> oview (obj w') id' = Some m') /\ oview (obj w') id = Some m /\
        forall t', dict (oview (obj w')) t' (<[m := id]> d) -> Q true (World (mem w') (set t' (obj w')))) E (World mm (set t (obj w)))
  end ->
  (~ unlimited (mem w) -> forall mm, E MaxMemoryExceeded (World mm (obj w))) -> (forall mm, E LengthError (World mm (obj w))) ->
  wp (find_or_emplace hasher_ sizeof_slot growth_ oview get set m on_existing make_meta) Q E w.
Proof.
  intros Hd HQ HE1 HE2. unfold find_or_emplace. apply wp_bind, wp_obj_get, wp_bind, wp_zoom. destruct w as [mm0 o]. cbn [obj mem] in *.
  apply (wp_probe_for_emplace (oview o) d m); [done| |split; intros; cbn [obj]; rewrite set_get; auto]. cbn [obj mem]. destruct (d !! m) as [id|] eqn:Hm.
  - intros i Hf. cbn [obj mem]. rewrite set_get. apply wp_bind, wp_obj_get, wp_bind, (wp_need _ id); [by destruct Hf as (? & ? & ? & ?)|]. apply wp_bind.
    eapply wp_mono; [exact HQ|intros u s Hs; by apply wp_ret|done].
  - intros mm t i Hmm Hdt Hfree. cbn [obj mem]. apply wp_bind. eapply wp_mono; [by apply (HQ mm t)| |done]. intros id w' (Hg & Hv & Hid & HQ'). apply wp_bind, wp_zoom.
    apply (wp_emplace_at (oview (obj w')) d m i id); cbn [obj mem]; [rewrite Hg; by apply (dict_view (oview o))|done|done|by rewrite Hg|]. intros t' Ht'. apply wp_ret. by apply HQ'.
Qed.
End emplace.

(** C29: the index is a dictionary from members to ids.  Whatever the hash function and the growth factor,
    with unaligned probing across the end, tombstones and tables that may be full: a lookup gives the
    id of the member; inserting adds the member with its id or finds the one it has; an erasure removes
    the member; renumbering changes its id; sweeping tombstones changes nothing.  An insertion fails only
    when the memory limit or the limit of slots refuses the larger table, and then the index is as it was;
    erasing, renumbering and sweeping never fail. *)
Theorem member_index_refines view (d : gmap bytes nat) (m : bytes) (id : nat) (w : world MemberIndex) :
  dict view (obj w) d ->
  find hasher_ view m (obj w) = Some (d !! m) /\
  (view id = Some m ->
     wp (insert hasher_ sizeof_slot growth_ view m id)
       (fun r w' => r.2 = bool_decide (d !! m = None) /\ slots_ (obj w') !! r.1 = Some (default id (d !! m)) /\
          dict view (obj w') (if decide (d !! m = None) then <[m := id]> d else d))
       (fun e w' => obj w' = obj w /\ (e = LengthError \/ e = MaxMemoryExceeded /\ ~ unlimited (mem w))) w) /\
  wp (erase hasher_ view m) (fun b w' => b = bool_decide (is_Some (d !! m)) /\ dict view (obj w') (delete m d)) (fun _ _ => False) w /\
  (forall old, d !! m = Some old -> view id = Some m ->
     wp (move_member_id hasher_ view old id) (fun b w' => b = true /\ dict view (obj w') (<[m := id]> d)) (fun _ _ => False) w) /\
  (forall n, wp (cleanup_after_removal_if_needed hasher_ sizeof_slot view n) (fun _ w' => dict view (obj w') d) (fun _ _ => False) w).
Proof.
  intros Hd. split; [by apply member_find_spec|]. split; [|split; [|split]].
  - intros Hv. apply (wp_insert_member view d); [done|done| |split; auto]. intros mm t i _. destruct (d !! m) as [id'|] eqn:Hm; intros Hd' (c & Hc & Hf & Hs); cbn; auto.
  - apply (wp_erase_member view d); [done|]. auto.
  - intros old Hm Hv. apply (wp_move_member_id view d m); auto.
  - intros n. apply (wp_cleanup view d); auto.
Qed.
End spec.

(** ** A concrete run *)

Section examples.
(** A hash under which every member collides. *)
Definition colliding (m : bytes) : Z := 7.
Definition example_view (id : nat) : option bytes := [str "a"; str "b"; str "c"] !! id.

Lemma default_growth_ok c : 0 < c < 2 ^ 32 -> 0 <= trunc (mul (of_int c) kDefaultGrowth) < 2 ^ 60.
Proof.
  intros Hc. destruct (trunc_mul c 5355712719992597 52 ltac:(lia) ltac:(lia) ltac:(lia)) as [H1 H2]. unfold kDefaultGrowth. change (-52) with (- (52)). set (t := trunc _) in *. clearbody t. nia.
Qed.

Definition example_world : world MemberIndex :=
  match (insert colliding 4 kDefaultGrowth example_view (str "a") 0;; insert colliding 4 kDefaultGrowth example_view (str "b") 1) (World None empty_index) with
  | Ok _ w => w
  | _ => World None empty_index
  end.

Lemma example_dict : dict colliding 4 example_view (obj example_world) (<[str "b" := 1%nat]> {[str "a" := 0%nat]}).
Proof.
  assert (H : wp (insert colliding 4 kDefaultGrowth example_view (str "a") 0;; insert colliding 4 kDefaultGrowth example_view (str "b") 1)
    (fun _ w => dict colliding 4 example_view (obj w) (<[str "b" := 1%nat]> {[str "a" := 0%nat]})) (fun e _ => e <> LogicError) (World None empty_index)).
  { apply wp_bind, (wp_insert_member colliding 4 ltac:(lia) kDefaultGrowth default_growth_ok example_view ∅); [apply dict_empty|done| |by split].
    intros mm t i Hm. rewrite lookup_empty. intros Hd _. apply (wp_insert_member colliding 4 ltac:(lia) kDefaultGrowth default_growth_ok example_view {[str "a" := 0%nat]}); [done|done| |by split].
    intros mm' t' i' _. rewrite lookup_singleton_ne by done. by intros Hd' _. }
  assert (exists r w, (insert colliding 4 kDefaultGrowth example_view (str "a") 0;; insert colliding 4 kDefaultGrowth example_view (str "b") 1) (World None empty_index) = Ok r w) as (r & w & E).
  { eexists _, _. vm_compute. reflexivity. }
  pose proof (wp_Ok _ _ _ _ _ _ H E) as Hd. unfold example_world. rewrite E. exact Hd.
Qed.

Lemma member_index_refines_witness :
  find colliding example_view (str "b") (obj example_world) = Some (Some 1%nat) /\
  wp (insert colliding 4 kDefaultGrowth example_view (str "c") 2)
    (fun r w' => r.2 = true /\ slots_ (obj w') !! r.1 = Some 2%nat /\ dict colliding 4 example_view (obj w') (<[str "c" := 2%nat]> (<[str "b" := 1%nat]> {[str "a" := 0%nat]})))
    (fun e w' => obj w' = obj example_world /\ (e = LengthError \/ e = MaxMemoryExceeded /\ ~ unlimited (mem example_world))) example_world.
Proof.
  split.
  - exact (proj1 (member_index_refines colliding 4 ltac:(lia) kDefaultGrowth default_growth_ok example_view _ (str "b") 1 example_world example_dict)).
  - exact (proj1 (proj2 (member_index_refines colliding 4 ltac:(lia) kDefaultGrowth default_growth_ok example_view _ (str "c") 2 example_world example_dict)) eq_refl).
Defined.
End examples.
