(* ===== verification/SetValue.v ===== *)
(** * Sets

    Models [include/goblin/core/set.hpp]: a Redis set that is one blob ([SetListpack]) while it
    is small and otherwise an index ([MemberIndex]) over stored members ([SetStorage]), with the
    changes between the two forms, removal by moving the last member, compaction of the storage
    and the walk by cursor.  The blob pool, the operating system and [std::hash] are parameters.
    The theorems say that whatever the form, the object behaves as a set of texts. *)

From stdpp Require Import gmap.
From S2P Require Import Prelude StringEncoding StoredText Binary64 MemoryLimit Directory SetListpack PageArena SetStorage MemberIndex.
From Stdlib Require Import ZArith Lia ZifyBool.

Import Double.

Local Open Scope Z_scope.

(** [FullState], and the variant [rep_]. *)
Record FullState := mkFull { storage : SetStorage; members : MemberIndex }.
Inductive Rep := Small (listpack : Blob) | Full (f : FullState).

(** [kDefaultMemberIndexDensity], 0.97. *)
Definition kDefaultMemberIndexDensity : double := Dbl 8736983277098762 (-53).
Definition kAutoCompactDeadFloor : Z := 2 ^ 20.

(** Runs a computation on a local object and returns its result and the object; an exception discards it. *)
Definition run_local {O P A} (init : P) (m : M (world P) A) : M (world O) (A * P) := fun w =>
  match m (World (mem w) init) with
  | Ok a v => Ok (a, obj v) (World (mem v) (obj w))
  | Exn e v => Exn e (World (mem v) (obj w))
  | Ub => Ub
  end.

(** Walks a list, from left to right. *)
Fixpoint for_all {O A} (f : A -> M (world O) unit) (l : list A) : M (world O) unit :=
  match l with
  | [] => mret tt
  | x :: l => f x;; for_all f l
  end.

Section code.
Context {L : LZ4}.
(** The options. *)
Variable encoding : Z.
Variable listpack_max_entries : Z.
Variable member_index_growth : double.
Variable chunk_shift : Z.
(** The platform: hashing for the blob and for the index, the vector width and uninitialised memory of the
    blob, the page size, huge pages, the growth of [std::vector], whether compaction is allowed, what the
    blob pool asks of the system for a blob, and the size of [FullState] and [SetStorage]. *)
Variable blob_hash : bytes -> Z.
Variable hasher_ : bytes -> Z.
Variable width : nat.
Variable junk : byte.
Variable page : Z.
Variable huge_page : Z -> bool.
Variable vector_growth : Z -> Z.
Variable compaction_allowed : bool.
Variable pool_request : Z -> Z.
Variable sizeof_full : Z.

Abbreviation sizeof_slot := 4.
Abbreviation Op A := (M (world Rep) A).
Abbreviation FullOp A := (M (world FullState) A).

Definition member_at (f : FullState) (id : nat) : option bytes := storage_view chunk_shift (storage f) id.

Definition on_storage {A} : M (world SetStorage) A -> FullOp A := zoom storage (fun st f => mkFull st (members f)).
Definition on_members {A} : M (world MemberIndex) A -> FullOp A := zoom members (fun t f => mkFull (storage f) t).

(** [full()]; on the compact form it throws [std::bad_variant_access], which no call here can reach. *)
Definition on_full {A} (m : FullOp A) : Op A := fun w =>
  match obj w with
  | Small _ => Ub
  | Full f =>
      match m (World (mem w) f) with
      | Ok a v => Ok a (World (mem v) (Full (obj v)))
      | Exn e v => Exn e (World (mem v) (Full (obj v)))
      | Ub => Ub
      end
  end.

(** An operation on the blob.  One that builds a new blob takes it from the pool first. *)
Definition on_blob {A} (allocates : A -> bool) (op : Blob -> result (A * Blob)) : M (world Blob) A :=
  p ← obj_get (fun p => p);
  '(a, next) ← lift (op p);
  match next with
  | Some m => when (allocates a) (ensure_memory_growth (pool_request (Z.of_nat (length m))))
  | None => mret tt
  end;;
  obj_mod (fun _ => next);;
  mret a.

Definition on_small {A} (p : Blob) (m : M (world Blob) A) : Op A := fun w =>
  match m (World (mem w) p) with
  | Ok a v => Ok a (World (mem v) (Small (obj v)))
  | Exn e v => Exn e (World (mem v) (Small (obj v)))
  | Ub => Ub
  end.

Definition lp_add (member : bytes) : M (world Blob) AddResult :=
  on_blob added (SetListpack.add blob_hash width junk encoding member listpack_max_entries).
Definition lp_add_many (ms : list bytes) : M (world Blob) AddManyResult :=
  on_blob (fun r => negb (many_needs_full r)) (SetListpack.add_many blob_hash junk encoding ms listpack_max_entries).
Definition lp_erase (member : bytes) : M (world Blob) bool := on_blob (fun b => b) (SetListpack.erase blob_hash width junk encoding member).
Definition lp_erase_at_index (index : nat) : M (world Blob) bool := on_blob (fun b => b) (SetListpack.erase_at_index junk index).

(** [init_empty], also [clear]. *)
Definition init_empty : Op unit :=
  if listpack_max_entries =? 0 then
    ensure_memory_growth sizeof_full;;
    obj_mod (fun _ => Full (mkFull empty_storage empty_index))
  else obj_mod (fun _ => Small None).

Definition set_size (s : Rep) : result nat :=
  match s with
  | Small p => n ← SetListpack.set_size p; Ret (Z.to_nat n)
  | Full f => Ret (SetStorage.size (storage f))
  end.

Definition validate_member (member : bytes) : Op unit :=
  when (negb (string_value_fits member encoding AllowLz4)) (throw LengthError).

(** [EncodedMemberProbe]: the encoded member and the bytes it probes with. *)
Definition probe_of {O} (member : bytes) : M (world O) EncodedString := lift (encode member encoding AllowLz4).

Definition push_back_encoded : EncodedString -> M (world SetStorage) nat :=
  SetStorage.push_back_encoded page chunk_shift kDefaultArenaGrowth huge_page vector_growth.

Definition add_full (member : bytes) : FullOp Z :=
  probe ← probe_of member;
  inserted ← find_or_emplace hasher_ sizeof_slot member_index_growth member_at members (fun t f => mkFull (storage f) t)
               (write_to probe) (fun _ => mret tt) (on_storage (push_back_encoded probe));
  mret (if inserted : bool then 1 else 0).

(** One member of the walk in [ensure_full]. *)
Definition promote_member (v : EncodedStringView) : FullOp unit :=
  logical ← lift (to_string v);
  probe ← probe_of logical;
  id ← on_storage (push_back_encoded probe);
  f ← obj_get (fun f => f);
  member ← need (member_at f id);
  on_members (insert_packed hasher_ member id).

Definition ensure_full : Op unit :=
  s ← obj_get (fun s => s);
  match s with
  | Full _ => mret tt
  | Small p =>
      ensure_memory_growth sizeof_full;;
      f ← local (mkFull empty_storage empty_index)
            (n ← lift (SetListpack.set_size p);
             on_storage (SetStorage.reserve n);;
             f ← obj_get (fun f => f);
             on_members (reserve_for_density hasher_ sizeof_slot (member_at f) (Z.to_nat n) kDefaultMemberIndexDensity);;
             views ← lift (for_each_member encoding p);
             for_all promote_member views);
      obj_mod (fun _ => Full f)
  end.

Definition reserve_additional (additional : nat) : Op unit :=
  s ← obj_get (fun s => s);
  match s with
  | Small _ => mret tt
  | Full _ =>
      if Nat.eqb additional 0 then mret tt
      else
        on_full
          (on_storage (SetStorage.reserve_additional kDefaultArenaGrowth (Z.of_nat additional));;
           f ← obj_get (fun f => f);
           on_members (MemberIndex.reserve_additional hasher_ sizeof_slot member_index_growth (member_at f) additional))
  end.

Definition add (member : bytes) : Op Z :=
  validate_member member;;
  s ← obj_get (fun s => s);
  match s with
  | Small p =>
      result ← on_small p (lp_add member);
      if negb (needs_full result) then mret (if added result then 1 else 0)
      else ensure_full;; on_full (add_full member)
  | Full _ => on_full (add_full member)
  end.

(** The members of a batch, one by one: how many were new. *)
Fixpoint add_each (ms : list bytes) (n : Z) : Op Z :=
  match ms with
  | [] => mret n
  | m :: ms => k ← on_full (add_full m); add_each ms (n + k)
  end.

Definition add_many (ms : list bytes) : Op Z :=
  match ms with
  | [] => mret 0
  | _ =>
      for_all validate_member ms;;
      s ← obj_get (fun s => s);
      match s with
      | Small p =>
          result ← on_small p (lp_add_many ms);
          if negb (many_needs_full result) then mret (added_many result)
          else ensure_full;; reserve_additional (length ms);; add_each ms 0
      | Full _ => reserve_additional (length ms);; add_each ms 0
      end
  end.

Definition contains (member : bytes) (s : Rep) : result bool :=
  if negb (string_value_fits member encoding AllowLz4) then Ret false
  else
    match s with
    | Small p => SetListpack.contains blob_hash width encoding member p
    | Full f =>
        probe ← encode member encoding AllowLz4;
        found ← of_option (MemberIndex.find hasher_ (member_at f) (write_to probe) (members f));
        Ret (bool_decide (is_Some found))
    end.

Definition maybe_compact_arena : FullOp unit :=
  f ← obj_get (fun f => f);
  if (kAutoCompactDeadFloor <=? dead_bytes_ (storage f)) && (live_bytes (storage f) <=? dead_bytes_ (storage f)) && compaction_allowed then
    try_catch
      (on_storage (SetStorage.compact page chunk_shift kDefaultArenaGrowth huge_page compaction_allowed);;
       on_storage (shrink_to_fit page chunk_shift))
      (fun e => match e with MaxMemoryExceeded => mret tt | _ => throw e end)
  else mret tt.

(** From a slot of the index on: the tail of [erase_full] and of [erase_at_id]. *)
Definition remove_slot (slot member_id : nat) : FullOp unit :=
  f ← obj_get (fun f => f);
  let last_id := (SetStorage.size (storage f) - 1)%nat in
  on_storage (orphan member_id);;
  on_members (erase_at_index slot);;
  when (negb (Nat.eqb member_id last_id))
    (on_storage (copy_ref member_id last_id);;
     f ← obj_get (fun f => f);
     on_members (move_member_id hasher_ (member_at f) last_id member_id);;
     mret tt);;
  on_storage (obj_mod pop_back);;
  f ← obj_get (fun f => f);
  on_members (cleanup_after_removal_if_needed hasher_ sizeof_slot (member_at f) 1);;
  maybe_compact_arena.

Definition erase_full (member : bytes) : FullOp bool :=
  probe ← probe_of member;
  f ← obj_get (fun f => f);
  slot ← need (find_slot hasher_ (member_at f) (write_to probe) (members f));
  match slot with
  | None => mret false
  | Some slot =>
      member_id ← need (member_id_at slot (members f));
      remove_slot slot member_id;;
      mret true
  end.

(** The members as texts, by id. *)
Fixpoint texts (f : FullState) (ids : list nat) : result (list bytes) :=
  match ids with
  | [] => Ret []
  | id :: ids =>
      stored ← of_option (member_at f id);
      text ← to_string (stored_view encoding stored);
      rest ← texts f ids;
      Ret (text :: rest)
  end.

Definition maybe_demote_to_small : Op unit :=
  s ← obj_get (fun s => s);
  match s with
  | Small _ => mret tt
  | Full f =>
      if listpack_max_entries =? 0 then mret tt
      else
        let n := SetStorage.size (storage f) in
        if listpack_max_entries <? Z.of_nat n then mret tt
        else if negb (set_can_encode (Z.of_nat n) (live_bytes (storage f))) then mret tt
        else
          try_catch
            (views ← lift (texts f (seq 0 n));
             outcome ← run_local None (lp_add_many views);
             if many_needs_full outcome.1 then mret tt else obj_mod (fun _ => Small outcome.2))
            (fun e => match e with MaxMemoryExceeded => mret tt | _ => throw e end)
  end.

Definition erase (member : bytes) : Op bool :=
  if negb (string_value_fits member encoding AllowLz4) then mret false
  else
    s ← obj_get (fun s => s);
    match s with
    | Small p => on_small p (lp_erase member)
    | Full _ =>
        erased ← on_full (erase_full member);
        if negb erased then mret false else maybe_demote_to_small;; mret true
    end.

Fixpoint lp_erase_each (ms : list bytes) (n : nat) : M (world Blob) nat :=
  match ms with
  | [] => mret n
  | m :: ms => b ← lp_erase m; lp_erase_each ms (n + if b : bool then 1 else 0)%nat
  end.

Fixpoint erase_each (ms : list bytes) (n : nat) : FullOp nat :=
  match ms with
  | [] => mret n
  | m :: ms => b ← erase_full m; erase_each ms (n + if b : bool then 1 else 0)%nat
  end.

Definition erase_many (ms : list bytes) : Op nat :=
  s ← obj_get (fun s => s);
  match s with
  | Small p => on_small p (lp_erase_each ms 0)
  | Full _ =>
      removed ← on_full (erase_each ms 0);
      when (negb (Nat.eqb removed 0)) maybe_demote_to_small;;
      mret removed
  end.

Definition erase_at_id (member_id : nat) : Op bool :=
  s ← obj_get (fun s => s);
  match s with
  | Small p => on_small p (lp_erase_at_index member_id)
  | Full f =>
      if (SetStorage.size (storage f) <=? member_id)%nat then mret false
      else
        member ← need (member_at f member_id);
        slot ← need (find_slot hasher_ (member_at f) member (members f));
        match slot with
        | None => mret false
        | Some slot => on_full (remove_slot slot member_id);; maybe_demote_to_small;; mret true
        end
  end.

(** The member of an id, as a view and as a text. *)
Definition at_id (member_id : nat) (s : Rep) : result EncodedStringView :=
  match s with
  | Small p => at_index encoding member_id p
  | Full f => stored ← of_option (member_at f member_id); Ret (stored_view encoding stored)
  end.
Definition text_at (member_id : nat) (s : Rep) : result bytes := v ← at_id member_id s; to_string v.

(** The views [for_each] hands out. *)
Definition for_each (s : Rep) : result (list EncodedStringView) :=
  match s with
  | Small p => for_each_member encoding p
  | Full f => mapM (fun id => at_id id s) (seq 0 (SetStorage.size (storage f)))
  end.

(** [scan]: the members emitted from [id] on, with the id to go on from. *)
Fixpoint scan_loop (fuel : nat) (s : Rep) (match_ : bytes -> bool) (n id walked emitted walk_limit budget : Z) : result (list bytes * Z) :=
  if (id <? n) && (walked <? walk_limit) && (emitted <? budget) then
    match fuel with
    | O => Undef
    | S fuel =>
        logical ← text_at (Z.to_nat id) s;
        '(rest, next) ← scan_loop fuel s match_ n (id + 1) (walked + 1) (if match_ logical then emitted + 1 else emitted) walk_limit budget;
        Ret (if match_ logical then logical :: rest else rest, next)
    end
  else Ret ([], id).

Definition scan (cursor count : Z) (match_ : bytes -> bool) (s : Rep) : result (list bytes * Z) :=
  n ← set_size s;
  if (Nat.eqb n 0) || (Z.of_nat n <=? cursor) then Ret ([], 0)
  else
    let budget := if count =? 0 then 10 else count in
    let walk_limit := Z.max (wrap 64 (budget * 10)) budget in
    '(emitted, id) ← scan_loop n s match_ (Z.of_nat n) cursor 0 0 walk_limit budget;
    Ret (emitted, if Z.of_nat n <=? id then 0 else id).

(** Members go into a rebuilt index under their ids. *)
Definition index_member (f : FullState) (id : nat) : M (world MemberIndex) unit :=
  member ← need (member_at f id);
  insert_packed hasher_ member id.

Definition rebuild_member_index (density : double) : FullOp unit :=
  f ← obj_get (fun f => f);
  let n := SetStorage.size (storage f) in
  rebuilt ← local empty_index
    (reserve_for_density hasher_ sizeof_slot (member_at f) n density;;
     for_all (index_member f) (seq 0 n));
  obj_mod (fun f => mkFull (storage f) rebuilt).

Definition compact (density : double) : Op unit :=
  s ← obj_get (fun s => s);
  match s with
  | Small _ => mret tt
  | Full _ =>
      if negb compaction_allowed then mret tt
      else
        on_full (on_storage (SetStorage.compact page chunk_shift kDefaultArenaGrowth huge_page compaction_allowed);;
                 on_storage (shrink_to_fit page chunk_shift);;
                 rebuild_member_index density);;
        maybe_demote_to_small
  end.
(** *** Random members *)

(** [random_u64] on the state of the generator: the number and the next state. *)
Definition random_u64 (s : Z) : Z * Z :=
  let s := Z.lxor s (Z.shiftr s 12) in
  let s := wrap 64 (Z.lxor s (Z.shiftl s 25)) in
  let s := Z.lxor s (Z.shiftr s 27) in
  (wrap 64 (s * 0x2545F4914F6CDD1D), s).

(** [random_bounded]: numbers are drawn until one lies below the largest multiple of the bound; [None] when
    none of the first [fuel] does. *)
Fixpoint random_below (fuel : nat) (threshold bound s : Z) : option (Z * Z) :=
  match fuel with
  | O => None
  | S fuel => let '(x, s) := random_u64 s in if x <? threshold then Some (x mod bound, s) else random_below fuel threshold bound s
  end.
Definition random_bounded (fuel : nat) (bound s : Z) : option (Z * Z) :=
  if bound =? 1 then Some (0, s) else random_below fuel (u64_max / bound * bound) bound s.

(** [random_id], [random_member] and [pop]; the generator is a part of the result. *)
Definition random_member (fuel : nat) (rng : Z) (s : Rep) : result (option bytes * Z) :=
  n ← set_size s;
  if Nat.eqb n 0 then Ret (None, rng)
  else
    '(id, rng) ← of_option (random_bounded fuel (Z.of_nat n) rng);
    text ← text_at (Z.to_nat id) s;
    Ret (Some text, rng).

Definition pop (fuel : nat) (rng : Z) : Op (option bytes * Z) :=
  s ← obj_get (fun s => s);
  n ← lift (set_size s);
  if Nat.eqb n 0 then mret (None, rng)
  else
    '(id, rng) ← need (random_bounded fuel (Z.of_nat n) rng);
    member ← lift (text_at (Z.to_nat id) s);
    erase_at_id (Z.to_nat id);;
    mret (Some member, rng).

Fixpoint pop_each (fuel : nat) (count : nat) (rng : Z) : Op (list bytes * Z) :=
  match count with
  | O => mret ([], rng)
  | S count =>
      '(member, rng) ← pop fuel rng;
      member ← need member;
      '(rest, rng) ← pop_each fuel count rng;
      mret (member :: rest, rng)
  end.

Definition pop_many (fuel : nat) (count : nat) (rng : Z) : Op (list bytes * Z) :=
  s ← obj_get (fun s => s);
  n ← lift (set_size s);
  if Nat.eqb count 0 || Nat.eqb n 0 then mret ([], rng) else pop_each fuel (Nat.min count n) rng.
(** A client that calls [scan] until the cursor is 0 again. *)
Fixpoint scan_rounds (rounds : nat) (count : Z) (match_ : bytes -> bool) (s : Rep) (cursor : Z) : result (list bytes) :=
  match rounds with
  | O => Undef
  | S rounds =>
      '(emitted, next) ← scan cursor count match_ s;
      if next =? 0 then Ret emitted
      else rest ← scan_rounds rounds count match_ s next; Ret (emitted ++ rest)
  end.
End code.

(** ** The set an object holds *)

Section spec.
Context {L : LZ4} {LC : LZ4Correct L}.
Variable encoding : Z.
Variable listpack_max_entries : Z.
Variable member_index_growth : double.
Variable chunk_shift : Z.
Variable blob_hash : bytes -> Z.
Variable hasher_ : bytes -> Z.
Variable width : nat.
Variable junk : byte.
Variable page : Z.
Variable huge_page : Z -> bool.
Variable vector_growth : Z -> Z.
Variable compaction_allowed : bool.
Variable pool_request : Z -> Z.
Variable sizeof_full : Z.
Hypothesis Hwidth : (0 < width)%nat.
Hypothesis Hpage : exists k, 0 <= k /\ page = 2 ^ k.
Hypothesis Hshift : 16 <= chunk_shift <= 31.
Hypothesis Hgrowth : forall c, 0 < c < 2 ^ 32 -> 0 <= trunc (mul (of_int c) member_index_growth) < 2 ^ 60.
Implicit Types (ms : list bytes) (m : bytes) (f : FullState) (s : Rep) (d : gmap bytes nat).

Abbreviation member_at := (member_at chunk_shift).
Abbreviation storable := (faithful encoding AllowLz4).
Abbreviation next_of f := (next_offset (run_ (storage f))).

(** The bytes a member is stored as in the full form. *)
Definition full_enc m : bytes := stored_form encoding AllowLz4 m.

(** The index gives every stored member its id. *)
Definition indexes d (xs : list bytes) : Prop := forall x i, d !! x = Some i <-> xs !! i = Some x.

Record full_repr f ms : Prop := mkFullRepr {
  fr_storage : stores page chunk_shift 0 (storage f) (map full_enc ms);
  fr_index : exists d, dict hasher_ 4 (member_at f) (members f) d /\ indexes d (map full_enc ms);
  fr_distinct : NoDup ms;
  fr_members : Forall storable ms;
}.

Definition set_holds s ms : Prop := match s with Small p => set_repr blob_hash encoding p ms | Full f => full_repr f ms end.

Lemma encode_full m : storable m -> exists e, encode m encoding AllowLz4 = Ret e /\ write_to e = full_enc m /\ encoded_size_ e = Z.of_nat (length (write_to e)) /\ Z.of_nat (length (write_to e)) <= kMaxEncodedBytes.
Proof.
  intros [[e He] _]. destruct (encode_stored _ _ _ _ He) as (H1 & _). destruct (encoded_spec _ _ _ _ He) as (H2 & H3 & _). exists e. split_and!; [done|by unfold full_enc|done|]. by rewrite <- H2.
Qed.

Lemma full_enc_inj m m' : storable m -> storable m' -> full_enc m = full_enc m' -> m = m'.
Proof. apply stored_inj. Qed.

Lemma full_enc_elem m ms : storable m -> Forall storable ms -> full_enc m ∈ map full_enc ms <-> m ∈ ms.
Proof.
  intros Hm Hms. rewrite Forall_forall in Hms. split; [|apply list_elem_of_fmap_2]. intros (m' & E & Hm')%list_elem_of_fmap. by rewrite (full_enc_inj m m' Hm (Hms _ Hm') E).
Qed.

Lemma nodup_enc ms : NoDup ms -> Forall storable ms -> NoDup (map full_enc ms).
Proof.
  induction 1 as [|m ms Hm _ IH]; intros Hf; cbn [map]; [constructor|]. apply Forall_cons in Hf as [H1 H2]. constructor; [by rewrite full_enc_elem|by apply IH].
Qed.

Lemma indexes_lookup d ms m : indexes d (map full_enc ms) -> storable m -> Forall storable ms -> d !! full_enc m = None <-> m ∉ ms.
Proof.
  intros Hd Hm Hms. rewrite <- (full_enc_elem m ms Hm Hms), eq_None_not_Some. split.
  - intros Hn (i & Hi)%list_elem_of_lookup. apply Hn. exists i. by apply Hd.
  - intros Hn [i Hi]. apply Hn. apply Hd in Hi. by eapply list_elem_of_lookup_2.
Qed.

Lemma indexes_empty : indexes ∅ [].
Proof. intros x i. by rewrite lookup_empty, lookup_nil. Qed.

Lemma indexes_snoc d xs x : indexes d xs -> d !! x = None -> indexes (<[x := length xs]> d) (xs ++ [x]).
Proof.
  intros Hd Hx y i. destruct (decide (y = x)) as [->|Hne].
  - rewrite lookup_insert_eq. split; [intros [= <-]; apply list_lookup_middle; lia|]. intros Hi. destruct (decide (i < length xs)%nat) as [Hlt|Hge].
    + rewrite lookup_app_l in Hi by done. apply Hd in Hi. congruence.
    + apply lookup_lt_Some in Hi. rewrite length_app in Hi. cbn in Hi. f_equal. lia.
  - rewrite lookup_insert_ne by done. rewrite (Hd y i). split; [intros Hi; by apply lookup_app_l_Some|]. intros [Hi|[_ Hi]]%lookup_app_Some; [done|].
    apply list_lookup_singleton_Some in Hi as [_ ?]. congruence.
Qed.

(** Taking out the last member, or another one whose place the last one takes. *)
Lemma indexes_pop d xs x : NoDup (xs ++ [x]) -> indexes d (xs ++ [x]) -> indexes (delete x d) xs.
Proof.
  intros Hn Hd y i. apply NoDup_app in Hn as (_ & Hdis & _). destruct (decide (y = x)) as [->|Hne].
  - rewrite lookup_delete_eq. split; [done|]. intros Hi%list_elem_of_lookup_2. exfalso. apply (Hdis x Hi). by left.
  - rewrite lookup_delete_ne by done. rewrite (Hd y i). split; [|intros Hi; by apply lookup_app_l_Some]. intros [Hi|[_ Hi]]%lookup_app_Some; [done|].
    apply list_lookup_singleton_Some in Hi as [_ ?]. congruence.
Qed.

Lemma indexes_swap d xs x y i : NoDup (xs ++ [y]) -> xs !! i = Some x -> indexes d (xs ++ [y]) -> indexes (<[y := i]> (delete x d)) (<[i := y]> xs).
Proof.
  intros Hn Hx Hd z k. pose proof (lookup_lt_Some _ _ _ Hx) as Hlt. apply NoDup_app in Hn as (Hn1 & Hdis & _).
  assert (Hy : y ∉ xs) by (intros Hy; apply (Hdis y Hy); by left). assert (Hxy : x <> y) by (intros ->; apply Hy; by eapply list_elem_of_lookup_2).
  destruct (decide (z = y)) as [->|Hzy].
  - rewrite lookup_insert_eq. split; [intros [= <-]; by apply list_lookup_insert_eq|]. intros Hk. destruct (decide (k = i)) as [->|Hki]; [done|].
    rewrite list_lookup_insert_ne in Hk by done. exfalso. apply Hy. by eapply list_elem_of_lookup_2.
  - rewrite lookup_insert_ne by done. destruct (decide (z = x)) as [->|Hzx].
    + rewrite lookup_delete_eq. split; [done|]. intros Hk. destruct (decide (k = i)) as [->|Hki].
      * rewrite list_lookup_insert_eq in Hk by done. congruence.
      * rewrite list_lookup_insert_ne in Hk by done. exfalso. apply Hki. by eapply (NoDup_lookup xs).
    + rewrite lookup_delete_ne by done. rewrite (Hd z k). destruct (decide (k = i)) as [->|Hki].
      * rewrite list_lookup_insert_eq by done. rewrite (lookup_app_l_Some _ _ _ _ Hx). split; intros [= ?]; congruence.
      * rewrite list_lookup_insert_ne by done. split; [|intros Hk; by apply lookup_app_l_Some]. intros [Hi|[_ Hi]]%lookup_app_Some; [done|].
        apply list_lookup_singleton_Some in Hi as [_ ?]. congruence.
Qed.

Lemma member_at_spec extra f xs i : stores page chunk_shift extra (storage f) xs -> member_at f i = xs !! i.
Proof. apply view_spec. Qed.

(** *** Adding in the full form *)

(** The exceptions of an operation that may need memory. *)
Definition refusal {O} (w : world O) (e : exn) : Prop := e = LengthError \/ e = MaxMemoryExceeded /\ ~ unlimited (mem w).

Lemma wp_add_full m ms (Q : Z -> world FullState -> Prop) E w :
  let n := Z.of_nat (length (full_enc m)) in
  full_repr (obj w) ms -> storable m -> next_of (obj w) + 2 * n <= 2 ^ 32 ->
  (forall mm f', (unlimited (mem w) -> mm = mem w) -> full_repr f' (if decide (m ∈ ms) then ms else ms ++ [m]) -> next_of f' <= next_of (obj w) + 2 * n ->
     Q (if decide (m ∈ ms) then 0 else 1) (World mm f')) ->
  (forall e mm f', refusal w e -> full_repr f' ms -> next_of f' <= next_of (obj w) + 2 * n -> E e (World mm f')) ->
  wp (add_full encoding member_index_growth chunk_shift hasher_ page huge_page vector_growth m) Q E w.
Proof.
  destruct w as [mm f]. cbn [mem obj]. cbv zeta. intros Hf Hm Hroom HQ HE. pose proof Hf as [Hst [d [Hd Hix]] Hnd Hall].
  destruct (encode_full m Hm) as (e & He & Hw & Hsz & Hle). unfold add_full. apply wp_bind, (wp_lift _ e); [done|]. rewrite Hw. apply wp_bind.
  eapply (wp_find_or_emplace hasher_ 4 ltac:(lia) member_index_growth Hgrowth member_at members (fun t f => mkFull (storage f) t)); [by intros []|exact Hd| | |].
  - destruct (d !! full_enc m) as [id|] eqn:Hlook; cbn [mem obj].
    + assert (Hin : m ∈ ms). { destruct (decide (m ∈ ms)) as [|Hni]; [done|]. apply (indexes_lookup d ms m Hix Hm Hall) in Hni. congruence. }
      apply wp_ret, wp_ret. rewrite decide_True in HQ by done. specialize (HQ mm f ltac:(done)). rewrite decide_True in HQ by done. apply HQ; [done|lia].
    + assert (Hni : m ∉ ms) by (by apply (indexes_lookup d ms m Hix Hm Hall)). intros mm' t Hmm Hdt. unfold on_storage. apply wp_zoom. cbn [storage members].
      eapply (wp_push_back_encoded page chunk_shift kDefaultArenaGrowth huge_page vector_growth Hpage Hshift default_growth_ok e); cbn [mem obj]; [exact Hst|done|done|by rewrite Hw| | |].
      * intros m2 st' Hm2 Hst' Hnx Hids. rewrite length_map, Hw in *. cbn [mem obj storage members]. split_and!; [done| | |].
        -- intros x i Hxi. rewrite (member_at_spec 0 (mkFull st' t) _ i Hst'). apply lookup_app_l_Some. by apply Hix.
        -- rewrite (member_at_spec 0 (mkFull st' t) _ _ Hst'). apply list_lookup_middle. by rewrite length_map.
        -- intros t' Ht'. apply wp_ret. rewrite decide_False in HQ by done.
           specialize (HQ m2 (mkFull st' t')). rewrite decide_False in HQ by done. apply HQ; [intros Hu; rewrite <- (Hmm Hu); apply Hm2; by rewrite (Hmm Hu)| |done].
           split; cbn [storage members].
           ++ by rewrite map_app.
           ++ exists (<[full_enc m := length ms]> d). split; [done|]. rewrite map_app. rewrite <- (length_map full_enc ms). by apply indexes_snoc.
           ++ apply NoDup_app. split_and!; [done|intros x Hx ->%list_elem_of_singleton; done|apply NoDup_singleton].
           ++ apply Forall_app. split; [done|by constructor].
      * intros Hu m2 st' Hst' Hnx. rewrite Hw in Hnx. cbn [storage] in Hnx. apply HE; [right; split; [done|intros Hu'; apply Hu; by rewrite (Hmm Hu')]| |cbn [storage members mem obj]; lia]. split; cbn [storage members]; [done| |done|done].
        exists d. split; [|done]. eapply dict_view; [|exact Hdt]. intros x i Hxi. rewrite (member_at_spec 0 (mkFull st' t) _ i Hst'). by apply Hix.
      * intros Hids. apply HE; [by left| |cbn [storage members mem obj]; lia]. split; cbn [storage members]; [done| |done|done]. by exists d.
  - intros Hu mm'. apply HE; [by right|done|cbn; lia].
  - intros mm'. apply HE; [by left|done|cbn; lia].
Qed.

(** *** From the compact to the full form *)

(** A density whose quotients fit an integer. *)
Definition usable_density (density : double) : Prop :=
  forall n, Z.of_nat n < 2 ^ 32 -> exists needed, to_size (div (of_int (Z.of_nat n)) (unit_density density)) = Some needed /\ needed < 2 ^ 60.

Lemma default_density_usable : usable_density kDefaultMemberIndexDensity.
Proof.
  intros n Hn. change (unit_density kDefaultMemberIndexDensity) with kDefaultMemberIndexDensity. unfold kDefaultMemberIndexDensity. destruct n as [|n].
  - exists 0. split; [by vm_compute|lia].
  - pose proof (trunc_quot (Z.of_nat (S n)) 8736983277098762 53 ltac:(lia) ltac:(lia) ltac:(lia)) as H. cbv zeta in H. change (- (53)) with (-53) in H. unfold to_size.
    set (t := trunc _) in *. clearbody t. assert (t < 2 ^ 60) by nia. exists t. by rewrite (proj2 (Z.ltb_lt _ _)) by lia.
Qed.

Lemma small_storable m : storable_member encoding m -> storable m.
Proof. intros (H1 & _ & H3). split; [by apply encode_short|done]. Qed.

Lemma small_count p ms : set_repr blob_hash encoding p ms -> Z.of_nat (length ms) <= 65535.
Proof. intros [[[Hd _] _] _ _]. unfold blob_size, kDirMaxBlobBytes in Hd. rewrite length_map in Hd. lia. Qed.

Definition total_enc ms : Z := total (map full_enc ms).

Lemma total_enc_app ms ms' : total_enc (ms ++ ms') = total_enc ms + total_enc ms'.
Proof. unfold total_enc. by rewrite map_app, total_app. Qed.

Lemma total_enc_cons m ms : total_enc (m :: ms) = Z.of_nat (length (full_enc m)) + total_enc ms.
Proof. done. Qed.

Lemma total_enc_nonneg ms : 0 <= total_enc ms.
Proof. apply total_nonneg. Qed.

(** Copying the members over, one by one. *)
Lemma wp_promote_all views ms done_ (Q : unit -> world FullState -> Prop) (E : exn -> world FullState -> Prop) w :
  Forall2 reads_as views ms -> full_repr (obj w) done_ -> NoDup (done_ ++ ms) -> Forall storable (done_ ++ ms) ->
  tombstones_ (members (obj w)) = 0%nat -> size_ (members (obj w)) = length done_ -> (length (done_ ++ ms) <= capacity_ (members (obj w)))%nat ->
  next_of (obj w) + 2 * total_enc ms <= 2 ^ 32 ->
  (forall mm f', (unlimited (mem w) -> mm = mem w) -> full_repr f' (done_ ++ ms) -> next_of f' <= next_of (obj w) + 2 * total_enc ms -> Q tt (World mm f')) ->
  (forall e mm f', refusal w e -> E e (World mm f')) ->
  wp (for_all (promote_member encoding chunk_shift hasher_ page huge_page vector_growth) views) Q E w.
Proof.
  intros Hv. revert done_ w. induction Hv as [|v m views ms Hv _ IH]; intros done_ [mm f]; cbn [mem obj for_all]; intros Hf Hn Hall Ht Hsz Hcap Hroom HQ HE.
  { apply wp_ret. apply HQ; [done|by rewrite app_nil_r|cbn; lia]. }
  pose proof Hf as [Hst [d [Hd Hix]] Hnd Hds]. assert (Hm : storable m) by (apply Forall_app in Hall as [_ [? _]%Forall_cons]; done). rewrite total_enc_cons in *. pose proof (total_enc_nonneg ms).
  assert (Hni : m ∉ done_). { apply NoDup_app in Hn as (_ & Hdis & _). intros Hi. apply (Hdis m Hi). by left. }
  destruct (encode_full m Hm) as (e & He & Hw & Hes & Hle). apply wp_bind. unfold promote_member. apply wp_bind, (wp_lift _ m); [apply Hv|]. apply wp_bind, (wp_lift _ e); [done|]. apply wp_bind, wp_zoom. cbn [mem obj].
  eapply (wp_push_back_encoded page chunk_shift kDefaultArenaGrowth huge_page vector_growth Hpage Hshift default_growth_ok e); cbn [mem obj]; [exact Hst|done|done|rewrite Hw; lia| | |].
  - intros m2 st' Hm2 Hst' Hnx Hids. rewrite length_map, Hw in *. cbn [mem obj storage members]. apply wp_bind, wp_obj_get, wp_bind. cbn [obj].
    assert (Hat : member_at (mkFull st' (members f)) (length done_) = Some (full_enc m)). { rewrite (member_at_spec 0 (mkFull st' (members f)) _ _ Hst'). apply list_lookup_middle. by rewrite length_map. }
    apply (wp_need _ (full_enc m)); [done|]. apply wp_zoom. cbn [mem obj members].
    assert (Hlk : d !! full_enc m = None) by (by apply (indexes_lookup d done_ m Hix Hm Hds)).
    eapply (wp_insert_packed hasher_ 4 (member_at (mkFull st' (members f))) d); cbn [mem obj]; [|done|done|done| |].
    + eapply dict_view; [|exact Hd]. intros x i Hxi. rewrite (member_at_spec 0 (mkFull st' (members f)) _ i Hst'). apply lookup_app_l_Some. by apply Hix.
    + rewrite length_app in Hcap. cbn [length] in Hcap. lia.
    + intros t' Ht' Hz Hc' Hs'. cbn [mem obj storage members]. apply (IH (done_ ++ [m])); cbn [mem obj storage members].
      * split; cbn [storage members].
        -- by rewrite map_app.
        -- exists (<[full_enc m := length done_]> d). split; [by eapply dict_view; [|exact Ht']; intros x i Hxi; apply (di_has _ _ _ _ _ Ht')|]. rewrite map_app, <- (length_map full_enc done_). by apply indexes_snoc.
        -- apply NoDup_app in Hn as (? & ? & _). apply NoDup_app. split_and!; [done|intros x Hx ->%list_elem_of_singleton; done|apply NoDup_singleton].
        -- apply Forall_app. split; [done|by constructor].
      * by rewrite <- app_assoc.
      * by rewrite <- app_assoc.
      * done.
      * rewrite Hs', Hsz, length_app. cbn. lia.
      * rewrite Hc', <- app_assoc. done.
      * lia.
      * intros m3 f' Hm3 Hf' Hnx'. rewrite <- app_assoc in Hf'. apply HQ; [intros Hu; rewrite <- (Hm2 Hu); apply Hm3; by rewrite (Hm2 Hu)|done|lia].
      * intros e' m3 f' [->|[-> Hu]]; apply HE; [by left|]. right. split; [done|]. intros Hu'. apply Hu. cbn. by rewrite (Hm2 Hu').
  - intros Hu m2 st' _ _. apply HE. by right.
  - intros _. apply HE. by left.
Qed.

Abbreviation ensure_full := (ensure_full encoding chunk_shift hasher_ page huge_page vector_growth sizeof_full).

Lemma full_repr_empty : full_repr (mkFull empty_storage empty_index) [].
Proof. split; cbn; [by apply stores_empty| |constructor|constructor]. exists ∅. split; [apply dict_empty|apply indexes_empty]. Qed.

(** The full form holds the same members in the same order; a failure leaves the blob. *)
Lemma wp_ensure_full p ms (Q : unit -> world Rep -> Prop) E w :
  obj w = Small p -> set_repr blob_hash encoding p ms -> 2 * total_enc ms <= 2 ^ 32 ->
  (forall mm f, (unlimited (mem w) -> mm = mem w) -> full_repr f ms -> next_of f <= 2 * total_enc ms -> Q tt (World mm (Full f))) ->
  (forall e mm, refusal w e -> E e (World mm (obj w))) ->
  wp ensure_full Q E w.
Proof.
  destruct w as [mm s]. cbn [mem obj]. intros -> Hr Hroom HQ HE. pose proof (small_count _ _ Hr) as Hcount.
  unfold SetValue.ensure_full. apply wp_bind, wp_obj_get. cbn [obj]. apply wp_bind, wp_ensure_memory_growth; cbn [mem obj]; [|intros Hu m2; apply HE; by right].
  intros m1 Hm1. apply wp_bind, wp_local. cbn [mem].
  assert (Hsize : SetListpack.set_size p = Ret (Z.of_nat (length ms))) by (unfold SetListpack.set_size; rewrite (set_hdr _ _ _ _ Hr); cbn; by rewrite length_map).
  destruct (members_walk_spec blob_hash encoding p ms Hr) as (views & Hviews & Hreads).
  assert (Hback : forall (m2 : option ActiveMemoryBudget) e, (unlimited m1 -> m2 = m1) -> refusal (World m2 (mkFull empty_storage empty_index)) e -> refusal (World mm (Small p)) e).
  { intros m2 e Hm2 [->|[-> Hu]]; [by left|]. right. split; [done|]. intros Hu'. apply Hu. cbn in *. specialize (Hm1 Hu'). subst m1. by rewrite Hm2. }
  apply wp_bind, (wp_lift _ (Z.of_nat (length ms))); [done|]. apply wp_bind, wp_zoom. cbn [mem obj storage].
  eapply (wp_reserve_ids page chunk_shift); [apply stores_empty; [exact Hpage|exact Hshift]|lia| |].
  2: { intros Hu m2 st'. apply HE. eapply (Hback m1); [done|]. by right. }
  intros m2 st' Hm2 Hst' Hrun. cbn [mem obj storage members] in *. apply wp_bind, wp_obj_get, wp_bind, wp_zoom. cbn [mem obj members]. rewrite Nat2Z.id.
  destruct (default_density_usable (length ms) ltac:(lia)) as (needed & Hneed & Hneed').
  eapply (wp_reserve_for_density hasher_ 4 ltac:(lia) (member_at (mkFull st' empty_index)) ∅); cbn [mem obj]; [apply dict_empty|exact Hneed|done|rewrite map_size_empty; lia|lia| |].
  2: { split; intros; cbn [mem obj]; apply HE; apply (Hback m2); auto; [by right|by left]. }
  intros m3 t Hm3 Hd Ht. cbn [mem obj storage members] in *. apply wp_bind, (wp_lift _ views); [done|].
  assert (Hrep : full_repr (mkFull st' t) []).
  { split; cbn; [done| |constructor|constructor]. exists ∅. split; [|apply indexes_empty]. eapply dict_view; [|exact Hd]. done. }
  assert (Hm3' : unlimited m1 -> m3 = m1). { intros Hu. rewrite <- (Hm2 Hu). apply Hm3. by rewrite (Hm2 Hu). }
  destruct (decide (ms = [])) as [->|Hne].
  { inversion Hreads; subst. cbn [for_all]. apply wp_ret, wp_obj_mod. cbn [mem obj]. apply HQ; [intros Hu; rewrite <- (Hm1 Hu); apply Hm3'; by rewrite (Hm1 Hu)|done|cbn; rewrite Hrun; cbn; lia]. }
  destruct (Ht ltac:(by destruct ms)) as [Htomb Hcap].
  apply (wp_promote_all views ms []); cbn [mem obj storage members app length].
  - done.
  - done.
  - apply (SetListpack.sr_distinct _ _ _ _ Hr).
  - eapply Forall_impl; [exact (sr_members _ _ _ _ Hr)|]. apply small_storable.
  - done.
  - rewrite (di_card _ _ _ _ _ Hd). apply map_size_empty.
  - done.
  - rewrite Hrun. cbn. lia.
  - intros m4 f' Hm4 Hf' Hnx. cbn [mem obj]. apply wp_obj_mod. cbn [mem obj]. rewrite Hrun in Hnx. cbn in Hnx. apply HQ; [|done|lia].
    intros Hu. rewrite <- (Hm1 Hu). rewrite <- Hm3' by (by rewrite (Hm1 Hu)). apply Hm4. rewrite Hm3'; rewrite (Hm1 Hu); done.
  - intros e m4 f' Hrf. apply HE. by apply (Hback m3).
Qed.

(** *** Adding *)

Lemma wp_on_full {A} f (m : M (world FullState) A) (Q : A -> world Rep -> Prop) E w :
  obj w = Full f -> wp m (fun a v => Q a (World (mem v) (Full (obj v)))) (fun e v => E e (World (mem v) (Full (obj v)))) (World (mem w) f) -> wp (on_full m) Q E w.
Proof. unfold wp, on_full. intros ->. by destruct (m _). Qed.

Lemma wp_on_small {A} p (m : M (world Blob) A) (Q : A -> world Rep -> Prop) E w :
  wp m (fun a v => Q a (World (mem v) (Small (obj v)))) (fun e v => E e (World (mem v) (Small (obj v)))) (World (mem w) p) -> wp (on_small p m) Q E w.
Proof. unfold wp, on_small. by destruct (m _). Qed.

Lemma wp_on_blob {A} (allocates : A -> bool) op a next (Q : A -> world Blob -> Prop) E w :
  op (obj w) = Ret (a, next) -> (forall mm, (unlimited (mem w) -> mm = mem w) -> Q a (World mm next)) ->
  (~ unlimited (mem w) -> forall mm, E MaxMemoryExceeded (World mm (obj w))) -> wp (on_blob pool_request allocates op) Q E w.
Proof.
  intros Hop HQ HE. unfold on_blob. apply wp_bind, wp_obj_get, wp_bind, (wp_lift _ (a, next)); [done|]. apply wp_bind.
  assert (Hgo : forall mm, (unlimited (mem w) -> mm = mem w) -> wp (obj_mod (fun _ => next);; mret a) Q E (World mm (obj w))) by (intros mm Hm; apply wp_bind, wp_obj_mod, wp_ret; by apply HQ).
  destruct next as [b|]; [apply wp_when|]; destruct w as [mm p].
  - intros _. apply wp_ensure_memory_growth; [|done]. intros mm' Hm. by apply Hgo.
  - intros _. by apply Hgo.
  - apply wp_ret. by apply Hgo.
Qed.

(** The end of the arena: for the compact form a bound for when it becomes full. *)
Definition arena_end s ms : Z := match s with Small _ => 2 * total_enc ms | Full f => next_of f end.

Definition with_member m ms : list bytes := if decide (m ∈ ms) then ms else ms ++ [m].

Lemma total_with_member m ms : total_enc ms <= total_enc (with_member m ms) <= total_enc ms + Z.of_nat (length (full_enc m)).
Proof. unfold with_member. destruct (decide _); [lia|]. rewrite total_enc_app. cbn. lia. Qed.

(** The compact form takes the member, or asks for the full form. *)
Lemma lp_add_cases p ms m :
  set_repr blob_hash encoding p ms -> storable m ->
  (exists p', SetListpack.add blob_hash width junk encoding m listpack_max_entries p = Ret (mkAdd (bool_decide (m ∉ ms)) false, p') /\ set_repr blob_hash encoding p' (with_member m ms)) \/
  SetListpack.add blob_hash width junk encoding m listpack_max_entries p = Ret (mkAdd false true, p).
Proof.
  intros Hr [He Hw]. assert (Hcase : storable_member encoding m \/ Options.max_value_bytes encoding < Z.of_nat (length m) \/ kDirMaxStringBytes < Z.of_nat (length (enc encoding m))).
  { unfold storable_member. destruct (Z.le_gt_cases (Z.of_nat (length m)) (Options.max_value_bytes encoding)); [|lia]. destruct (Z.le_gt_cases (Z.of_nat (length (enc encoding m))) kDirMaxStringBytes); [|lia]. by left. }
  destruct Hcase as [Hs|Hbig]; [|right; by eapply oversized].
  pose proof (add_spec blob_hash junk encoding width Hwidth p ms m listpack_max_entries Hr Hs) as Ha. unfold with_member. destruct (decide (m ∈ ms)) as [Hin|Hin].
  - left. exists p. rewrite bool_decide_eq_false_2 by auto. done.
  - destruct (room _ _ _ _) eqn:Hroom; [|by right]. left. rewrite bool_decide_eq_true_2 by done. done.
Qed.

Abbreviation add := (add encoding listpack_max_entries member_index_growth chunk_shift blob_hash hasher_ width junk page huge_page vector_growth pool_request sizeof_full).

Lemma wp_validate m (Q : unit -> world Rep -> Prop) E w : storable m -> Q tt w -> wp (validate_member encoding m) Q E w.
Proof. intros [He _] HQ. apply wp_when; [|done]. intros Hf. apply string_value_fits_correct in He. by rewrite He in Hf. Qed.

Lemma wp_add m ms (Q : Z -> world Rep -> Prop) E w :
  let n := Z.of_nat (length (full_enc m)) in
  set_holds (obj w) ms -> storable m -> arena_end (obj w) ms + 2 * n <= 2 ^ 32 ->
  (forall mm s', (unlimited (mem w) -> mm = mem w) -> set_holds s' (with_member m ms) -> arena_end s' (with_member m ms) <= arena_end (obj w) ms + 2 * n ->
     Q (if decide (m ∈ ms) then 0 else 1) (World mm s')) ->
  (forall e mm s', refusal w e -> set_holds s' ms -> arena_end s' ms <= arena_end (obj w) ms + 2 * n -> E e (World mm s')) ->
  wp (add m) Q E w.
Proof.
  destruct w as [mm s]. cbn [mem obj]. cbv zeta. intros Hs Hm Hroom HQ HE. unfold SetValue.add. apply wp_bind, wp_validate; [done|]. apply wp_bind, wp_obj_get. cbn [obj].
  assert (Hfull : forall mm' f, (unlimited mm -> mm' = mm) -> full_repr f ms -> next_of f <= arena_end s ms ->
    wp (on_full (add_full encoding member_index_growth chunk_shift hasher_ page huge_page vector_growth m)) Q E (World mm' (Full f))).
  { intros mm' f Hmm Hf Hnx. apply (wp_on_full f); [done|]. cbn [mem]. apply (wp_add_full m ms); cbn [mem obj]; [done|done|lia| |].
    - intros m2 f' Hm2 Hf' Hnx'. apply HQ; [intros Hu; rewrite <- (Hmm Hu); apply Hm2; by rewrite (Hmm Hu)|done|cbn; lia].
    - intros e m2 f' [->|[-> Hu]] Hf' Hnx'; apply HE; [by left|done|cbn; lia| |done|cbn; lia]. right. split; [done|]. intros Hu'. apply Hu. cbn. by rewrite (Hmm Hu'). }
  destruct s as [p|f]; [|by apply Hfull]. apply wp_bind, wp_on_small. cbn [mem]. cbn [set_holds] in Hs. pose proof (total_with_member m ms).
  destruct (lp_add_cases p ms m Hs Hm) as [(p' & Ea & Hp')|Ea].
  - eapply wp_on_blob; [exact Ea| |].
    + intros m2 Hm2. cbn [mem obj]. apply wp_ret. cbn [negb needs_full added].
      replace (if bool_decide (m ∉ ms) then 1 else 0) with (if decide (m ∈ ms) then 0 else 1) by (destruct (decide (m ∈ ms)); [rewrite bool_decide_eq_false_2|rewrite bool_decide_eq_true_2]; auto).
      apply HQ; [done|done|cbn; lia].
    + intros Hu m2. apply HE; [by right|done|cbn; lia].
  - eapply wp_on_blob; [exact Ea| |].
    + intros m2 Hm2. cbn [mem obj needs_full negb] in *. apply wp_bind. apply (wp_ensure_full p ms); cbn [mem obj]; [done|done|cbn in Hroom; lia| |].
      * intros m3 f Hm3 Hf Hnx. apply Hfull; [|done|done]. intros Hu. rewrite <- (Hm2 Hu). apply Hm3. by rewrite (Hm2 Hu).
      * intros e m3 [->|[-> Hu]]; apply HE; [by left|done|cbn; lia| |done|cbn; lia]. right. split; [done|]. intros Hu'. apply Hu. cbn. by rewrite (Hm2 Hu').
    + intros Hu m2. apply HE; [by right|done|cbn; lia].
Qed.

(** *** Adding several members *)

Lemma indexes_size d xs : NoDup xs -> indexes d xs -> base.size d = length xs.
Proof.
  intros Hn Hd. assert (Hp : map_to_list d ≡ₚ zip xs (seq 0 (length xs))).
  { apply NoDup_Permutation; [apply NoDup_map_to_list|by apply NoDup_zip_l|]. intros [x i]. rewrite elem_of_map_to_list, (Hd x i), list_elem_of_lookup. split.
    - intros Hi. exists i. apply lookup_zip_Some. split; [done|]. apply lookup_seq. split; [done|by eapply lookup_lt_Some].
    - intros (k & [Hk Hk2]%lookup_zip_Some). apply lookup_seq in Hk2 as [-> _]. done. }
  rewrite <- length_map_to_list, Hp, length_zip_with, length_seq. lia.
Qed.

Lemma adds_cons ms m members : adds ms (m :: members) = adds (with_member m ms) members.
Proof. done. Qed.

Lemma adds_grows ms members : (length ms <= length (adds ms members))%nat.
Proof. revert ms. induction members as [|m members IH]; intros ms; [done|]. rewrite adds_cons. etrans; [|apply IH]. unfold with_member. destruct (decide _); [done|rewrite length_app; lia]. Qed.

Lemma adds_total ms members : total_enc (adds ms members) <= total_enc ms + total_enc members.
Proof.
  revert ms. induction members as [|m members IH]; intros ms; [change (total_enc (adds ms [])) with (total_enc ms); change (total_enc []) with 0; lia|]. rewrite adds_cons, total_enc_cons. etrans; [apply IH|]. pose proof (total_with_member m ms). lia.
Qed.

Lemma with_member_length m ms : Z.of_nat (length (with_member m ms)) = Z.of_nat (length ms) + if decide (m ∈ ms) then 0 else 1.
Proof. unfold with_member. destruct (decide _); [lia|]. rewrite length_app. cbn. lia. Qed.

Abbreviation add_each := (add_each encoding member_index_growth chunk_shift hasher_ page huge_page vector_growth).

(** One by one: a failure leaves the members before it. *)
Lemma wp_add_each members n ms f (Q : Z -> world Rep -> Prop) E w :
  obj w = Full f -> full_repr f ms -> Forall storable members -> next_of f + 2 * total_enc members <= 2 ^ 32 ->
  (forall mm f', (unlimited (mem w) -> mm = mem w) -> full_repr f' (adds ms members) -> next_of f' <= next_of f + 2 * total_enc members ->
     Q (n + Z.of_nat (length (adds ms members)) - Z.of_nat (length ms)) (World mm (Full f'))) ->
  (forall e mm f' before after, refusal w e -> members = before ++ after -> full_repr f' (adds ms before) -> next_of f' <= next_of f + 2 * total_enc members -> E e (World mm (Full f'))) ->
  wp (add_each members n) Q E w.
Proof.
  intros Hw Hf Hall. revert n ms f w Hw Hf. induction Hall as [|m members Hm _ IH]; intros n ms f [mm s] Hw Hf Hroom HQ HE; cbn [mem obj] in *; subst s; cbn [SetValue.add_each].
  { apply wp_ret. replace n with (n + Z.of_nat (length (adds ms [])) - Z.of_nat (length ms)) by (cbn; lia). apply HQ; [done|done|cbn; lia]. }
  rewrite total_enc_cons in *. pose proof (total_enc_nonneg members). apply wp_bind, (wp_on_full f); [done|]. cbn [mem]. apply (wp_add_full m ms); cbn [mem obj]; [done|done|lia| |].
  - intros m2 f' Hm2 Hf' Hnx. change (if decide (m ∈ ms) then ms else ms ++ [m]) with (with_member m ms) in Hf'. pose proof (with_member_length m ms) as Hlen.
    apply (IH _ (with_member m ms) f'); cbn [mem obj]; [done|done|lia| |].
    + intros m3 f2 Hm3 Hf2 Hnx2. rewrite adds_cons in HQ. replace (_ + _ - _) with (n + Z.of_nat (length (adds (with_member m ms) members)) - Z.of_nat (length ms)) by lia.
      apply HQ; [intros Hu; rewrite <- (Hm2 Hu); apply Hm3; by rewrite (Hm2 Hu)|done|lia].
    + intros e m3 f2 before after Hrf -> Hf2 Hnx2. apply (HE e m3 f2 (m :: before) after); [|done|done|lia].
      destruct Hrf as [->|[-> Hu]]; [by left|]. right. split; [done|]. intros Hu'. apply Hu. cbn. by rewrite (Hm2 Hu').
  - intros e m2 f' Hrf Hf' Hnx. apply (HE e m2 f' [] (m :: members)); [done|done|done|lia].
Qed.

Abbreviation reserve_additional := (SetValue.reserve_additional member_index_growth chunk_shift hasher_).

Lemma wp_reserve_more n ms f (Q : unit -> world Rep -> Prop) E w :
  obj w = Full f -> full_repr f ms -> Z.of_nat (length ms) + Z.of_nat n < 2 ^ 31 ->
  (forall mm f', (unlimited (mem w) -> mm = mem w) -> full_repr f' ms -> next_of f' = next_of f -> Q tt (World mm (Full f'))) ->
  (forall e mm f', refusal w e -> full_repr f' ms -> next_of f' = next_of f -> E e (World mm (Full f'))) ->
  wp (reserve_additional n) Q E w.
Proof.
  intros Hw Hf Hn HQ HE. destruct w as [mm s]. cbn [mem obj] in *. subst s. unfold SetValue.reserve_additional. apply wp_bind, wp_obj_get. cbn [obj]. destruct (Nat.eqb n 0); [apply wp_ret; by apply HQ|].
  apply (wp_on_full f); [done|]. cbn [mem]. destruct Hf as [Hst [d [Hd Hix]] Hnd Hds]. apply wp_bind, wp_zoom. cbn [mem obj].
  assert (Hdict : forall st', stores page chunk_shift 0 st' (map full_enc ms) -> dict hasher_ 4 (member_at (mkFull st' (members f))) (members f) d).
  { intros st' Hst'. eapply dict_view; [|exact Hd]. intros x i Hxi. rewrite (member_at_spec 0 (mkFull st' (members f)) _ i Hst'). by apply Hix. }
  eapply (wp_reserve_additional_ids page chunk_shift kDefaultArenaGrowth default_growth_ok); cbn [mem obj]; [exact Hst|lia|rewrite length_map; lia| |].
  - intros m2 st' Hm2 Hst' Hrun _. cbn [mem obj]. apply wp_bind, wp_obj_get, wp_zoom. cbn [mem obj members].
    eapply (wp_reserve_additional_members hasher_ 4 ltac:(lia) member_index_growth Hgrowth (member_at (mkFull st' (members f))) d); cbn [mem obj].
    + by apply Hdict.
    + rewrite (indexes_size d _ (nodup_enc ms Hnd Hds) Hix), length_map. lia.
    + intros m3 t' Hm3 Ht'. cbn [mem obj]. apply HQ; [intros Hu; rewrite <- (Hm2 Hu); apply Hm3; by rewrite (Hm2 Hu)| |cbn; by rewrite Hrun]. split; cbn; [done|by exists d|done|done].
    + split.
      * intros Hu m3. cbn [mem obj] in *. apply HE; [right; split; [done|]; intros Hu'; apply Hu; by rewrite (Hm2 Hu')| |cbn; by rewrite Hrun]. split; cbn; [done| |done|done]. exists d. split; [by apply (Hdict st')|done].
      * intros m3. cbn [mem obj] in *. apply HE; [by left| |cbn; by rewrite Hrun]. split; cbn; [done| |done|done]. exists d. split; [by apply (Hdict st')|done].
  - intros Hu m2 st' Hst' Hrun. cbn [mem obj]. apply HE; [by right| |cbn; by rewrite Hrun]. split; cbn; [done| |done|done]. exists d. split; [by apply (Hdict st')|done].
Qed.

Abbreviation add_many := (add_many encoding listpack_max_entries member_index_growth chunk_shift blob_hash hasher_ junk page huge_page vector_growth pool_request sizeof_full).

Lemma wp_validate_all ms (Q : unit -> world Rep -> Prop) E w : Forall storable ms -> Q tt w -> wp (for_all (validate_member encoding) ms) Q E w.
Proof. intros Hall HQ. induction Hall as [|m ms Hm _ IH]; cbn [for_all]; [by apply wp_ret|]. by apply wp_bind, wp_validate. Qed.

Lemma lp_add_many_cases p ms members :
  set_repr blob_hash encoding p ms -> Forall storable members -> members <> [] ->
  (exists p', SetListpack.add_many blob_hash junk encoding members listpack_max_entries p = Ret (mkAddMany (Z.of_nat (length (adds ms members)) - Z.of_nat (length ms)) false, p') /\
     set_repr blob_hash encoding p' (adds ms members)) \/
  SetListpack.add_many blob_hash junk encoding members listpack_max_entries p = Ret (mkAddMany 0 true, p).
Proof.
  intros Hr Hall Hne. destruct (decide (Forall (storable_member encoding) members)) as [Hs|Hs].
  - pose proof (add_many_spec blob_hash junk encoding width Hwidth p ms members listpack_max_entries Hr Hs Hne) as Ha. destruct (room _ _ _ _); [by left|by right].
  - right. eapply add_many_refused; [done| |done]. eapply Forall_impl; [exact Hall|]. by intros m [_ ?].
Qed.

Lemma wp_add_many members ms (Q : Z -> world Rep -> Prop) E w :
  set_holds (obj w) ms -> Forall storable members -> arena_end (obj w) ms + 2 * total_enc members <= 2 ^ 32 -> Z.of_nat (length ms) + Z.of_nat (length members) < 2 ^ 31 ->
  (forall mm s', (unlimited (mem w) -> mm = mem w) -> set_holds s' (adds ms members) -> arena_end s' (adds ms members) <= arena_end (obj w) ms + 2 * total_enc members ->
     Q (Z.of_nat (length (adds ms members)) - Z.of_nat (length ms)) (World mm s')) ->
  (forall e mm s' before after, refusal w e -> members = before ++ after -> set_holds s' (adds ms before) -> E e (World mm s')) ->
  wp (add_many members) Q E w.
Proof.
  destruct w as [mm s]. cbn [mem obj]. intros Hs Hall Hroom Hcount HQ HE. destruct (decide (members = [])) as [->|Hne].
  { cbn [SetValue.add_many]. apply wp_ret. replace 0 with (Z.of_nat (length (adds ms [])) - Z.of_nat (length ms)) by (cbn; lia). apply HQ; [done|done|cbn; lia]. }
  unfold SetValue.add_many. destruct members as [|x l] eqn:Emem; [done|]. rewrite <- Emem in *. clear Hne. apply wp_bind, wp_validate_all; [done|]. apply wp_bind, wp_obj_get. cbn [obj].
  assert (Hfull : forall mm' f, (unlimited mm -> mm' = mm) -> full_repr f ms -> next_of f <= arena_end s ms -> wp (reserve_additional (length members);; add_each members 0) Q E (World mm' (Full f))).
  { intros mm' f Hmm Hf Hnx.
    assert (Hrf : forall (m2 : option ActiveMemoryBudget) e, (unlimited mm' -> m2 = mm') -> refusal (World m2 (Full f)) e -> refusal (World mm s) e).
    { intros m2 e Hm2 [->|[-> Hu]]; [by left|]. right. split; [done|]. intros Hu'. apply Hu. cbn in *. specialize (Hmm Hu'). subst mm'. by rewrite Hm2. }
    apply wp_bind, (wp_reserve_more _ ms f); cbn [mem obj]; [done|done|done| |].
    - intros m2 f' Hm2 Hf' Hnx'. apply (wp_add_each members 0 ms f'); cbn [mem obj]; [done|done|done|lia| |].
      + intros m3 f2 Hm3 Hf2 Hnx2. rewrite Z.add_0_l. apply HQ; [|done|cbn; lia]. intros Hu. rewrite <- (Hmm Hu). rewrite <- (Hm2 ltac:(by rewrite (Hmm Hu))). apply Hm3. rewrite Hm2; by rewrite (Hmm Hu).
      + intros e m3 f2 before after Hr2 -> Hf2 _. eapply HE; [by apply (Hrf m2)|done|exact Hf2].
    - intros e m2 f' Hr2 Hf' _. eapply (HE e m2 _ [] members); [by apply (Hrf mm')|done|done]. }
  destruct s as [p|f]; [|by apply Hfull]. cbn [set_holds] in Hs. apply wp_bind, wp_on_small. cbn [mem]. pose proof (adds_total ms members). pose proof (total_enc_nonneg members).
  destruct (lp_add_many_cases p ms members Hs Hall ltac:(by rewrite Emem)) as [(p' & Ea & Hp')|Ea].
  - eapply wp_on_blob; [exact Ea| |].
    + intros m2 Hm2. cbn [mem obj many_needs_full negb added_many] in *. apply wp_ret. apply HQ; [done|done|cbn; lia].
    + intros Hu m2. eapply (HE _ m2 _ [] members); [by right|done|done].
  - eapply wp_on_blob; [exact Ea| |].
    + intros m2 Hm2. cbn [mem obj many_needs_full negb] in *. apply wp_bind. apply (wp_ensure_full p ms); cbn [mem obj]; [done|done|cbn in Hroom; lia| |].
      * intros m3 f Hm3 Hf Hnx. apply Hfull; [|done|done]. intros Hu. rewrite <- (Hm2 Hu). apply Hm3. by rewrite (Hm2 Hu).
      * intros e m3 Hr2. eapply (HE _ m3 _ [] members); [|done|done]. destruct Hr2 as [->|[-> Hu]]; [by left|]. right. split; [done|]. intros Hu'. apply Hu. cbn. by rewrite (Hm2 Hu').
    + intros Hu m2. eapply (HE _ m2 _ [] members); [by right|done|done].
Qed.

(** *** Removing *)

Lemma full_repr_dict st t ms d :
  stores page chunk_shift 0 st (map full_enc ms) -> indexes d (map full_enc ms) -> (exists view, dict hasher_ 4 view t d) -> NoDup ms -> Forall storable ms -> full_repr (mkFull st t) ms.
Proof.
  intros Hst Hix [view Hd] Hnd Hall. split; cbn [storage members]; [done| |done|done]. exists d. split; [|done]. eapply dict_view; [|exact Hd].
  intros x i Hxi. rewrite (member_at_spec 0 (mkFull st t) _ i Hst). by apply Hix.
Qed.

Lemma full_repr_storage f st' ms : full_repr f ms -> stores page chunk_shift 0 st' (map full_enc ms) -> full_repr (mkFull st' (members f)) ms.
Proof. intros [Hst [d [Hd Hix]] Hnd Hall] Hst'. eapply full_repr_dict; [done|exact Hix|by eexists|done|done]. Qed.

Abbreviation maybe_compact_arena := (maybe_compact_arena chunk_shift page huge_page compaction_allowed).

(** Reclaiming keeps the members and never fails. *)
Lemma wp_maybe_compact ms (Q : unit -> world FullState -> Prop) E w :
  full_repr (obj w) ms -> (forall mm f', (unlimited (mem w) -> mm = mem w) -> full_repr f' ms -> Q tt (World mm f')) -> wp maybe_compact_arena Q E w.
Proof.
  destruct w as [mm f]. cbn [mem obj]. intros Hf HQ. unfold SetValue.maybe_compact_arena. apply wp_bind, wp_obj_get. cbn [obj]. destruct (_ && _) eqn:Hgo; [|apply wp_ret; by apply HQ].
  pose proof (fr_storage _ _ Hf) as Hst. pose proof (sr_live _ _ _ _ _ Hst) as Hlive. pose proof (sr_used _ _ _ _ _ Hst) as Hused. pose proof (sr_next _ _ _ _ _ Hst) as Hnext.
  assert (Htot : total (map full_enc ms) <= 2 ^ 31) by (unfold live_bytes in *; lia).
  apply wp_catch, wp_bind, wp_zoom. cbn [mem obj]. eapply (wp_compact page chunk_shift kDefaultArenaGrowth huge_page Hpage Hshift default_growth_ok); cbn [mem obj]; [exact Hst|done| |].
  - intros mm' st' Hm Hst'. cbn [mem obj]. apply wp_zoom. cbn [mem obj storage members]. eapply (wp_shrink_to_fit page chunk_shift Hpage Hshift); cbn [mem obj]; [exact Hst'|].
    intros st2 Hst2. cbn [mem obj members]. apply HQ; [done|]. by apply (full_repr_storage f).
  - intros Hu mm'. cbn [mem obj]. apply wp_ret. apply HQ; [done|]. by destruct f.
Qed.

Abbreviation remove_slot := (remove_slot chunk_shift hasher_ page huge_page compaction_allowed).

Lemma swap_perm (xs : list bytes) i x y : xs !! i = Some x -> xs ++ [y] ≡ₚ x :: <[i := y]> xs.
Proof.
  intros Hx. rewrite (insert_take_drop xs i y) by (by eapply lookup_lt_Some). rewrite <- (take_drop_middle xs i x Hx) at 1. rewrite <- app_assoc. cbn [app].
  rewrite <- Permutation_middle. constructor. apply Permutation_app_head. by rewrite Permutation_app_comm.
Qed.

(** The member at a slot goes, and the last member takes its id. *)
Lemma wp_remove_slot slot i m ms (Q : unit -> world FullState -> Prop) E w :
  full_repr (obj w) ms -> ms !! i = Some m -> full_at (members (obj w)) slot i ->
  (forall mm f' ms', (unlimited (mem w) -> mm = mem w) -> full_repr f' ms' -> ms ≡ₚ m :: ms' -> Q tt (World mm f')) ->
  wp (remove_slot slot i) Q E w.
Proof.
  destruct w as [mm f]. cbn [mem obj]. intros Hf Hi Hslot HQ. pose proof Hf as [Hst [d [Hd Hix]] Hnd Hall]. set (xs := map full_enc ms) in *.
  assert (Hxi : xs !! i = Some (full_enc m)) by (unfold xs; by rewrite list_lookup_fmap, Hi). assert (Hnx : NoDup xs) by (by apply nodup_enc).
  unfold SetValue.remove_slot. apply wp_bind, wp_obj_get. cbn [obj]. apply wp_bind, wp_zoom. cbn [mem obj]. eapply (wp_orphan page chunk_shift xs i (full_enc m)); cbn [mem obj]; [exact Hst|done|].
  intros st1 Hst1 Hrun1. cbn [mem obj storage members]. apply wp_bind, wp_zoom. cbn [mem obj members].
  eapply (wp_erase_at_index hasher_ 4 ltac:(lia) (member_at f) d (full_enc m) slot i); cbn [mem obj]; [exact Hd|done|by apply Hix|]. intros t1 Ht1. cbn [mem obj storage members].
  assert (Hsize : SetStorage.size (storage f) = length ms) by (unfold SetStorage.size, vsize; rewrite (sr_offsets _ _ _ _ _ Hst); apply length_map).
  destruct (exists_last (l := ms)) as (as_ & y & Ems); [by intros ->|].
  (* From a storage without the member on. *)
  assert (Hrest : forall st2 t2 d2 ms', stores page chunk_shift 0 st2 (map full_enc ms') -> indexes d2 (map full_enc ms') -> (exists view, dict hasher_ 4 view t2 d2) -> ms ≡ₚ m :: ms' ->
    wp (f ← obj_get (fun f => f); on_members (cleanup_after_removal_if_needed hasher_ 4 (member_at f) 1);; maybe_compact_arena) Q E (World mm (mkFull st2 t2))).
  { intros st2 t2 d2 ms' Hst2 Hix2 Hd2 Hp. assert (Hnd' : NoDup ms'). { rewrite Hp in Hnd. by apply NoDup_cons in Hnd as [_ ?]. }
    assert (Hall' : Forall storable ms'). { rewrite Hp in Hall. by apply Forall_cons in Hall as [_ ?]. }
    pose proof (full_repr_dict st2 t2 ms' d2 Hst2 Hix2 Hd2 Hnd' Hall') as Hf2. destruct (fr_index _ _ Hf2) as (d3 & Hd3 & Hix3).
    apply wp_bind, wp_obj_get, wp_bind, wp_zoom. cbn [mem obj members]. eapply (wp_cleanup hasher_ 4 ltac:(lia) (member_at (mkFull st2 t2)) d3); cbn [mem obj]; [exact Hd3|]. intros b t3 Ht3. cbn [mem obj storage].
    apply (wp_maybe_compact ms'); cbn [mem obj]; [eapply full_repr_dict; [done|exact Hix3|by eexists|done|done]|]. intros mm' f' Hm Hf'. by apply (HQ mm' f' ms'). }
  subst ms. rewrite length_app in Hsize. cbn [length] in Hsize. replace (SetStorage.size (storage f) - 1)%nat with (length as_) by lia. unfold xs in *. rewrite map_app in *. cbn [map] in *.
  destruct (Nat.eqb_spec i (length as_)) as [->|Hne]; cbn [negb when].
  - assert (m = y) as ->. { rewrite list_lookup_middle in Hi by done. by injection Hi. }
    apply wp_bind, wp_ret, wp_bind, wp_zoom, wp_obj_mod. cbn [mem obj storage members]. eapply (Hrest _ _ (delete (full_enc y) d) as_).
    + by apply stores_pop_back with (m := full_enc y).
    + by apply indexes_pop.
    + by eexists.
    + by rewrite Permutation_app_comm.
  - assert (Hlt : (i < length as_)%nat). { apply lookup_lt_Some in Hi. rewrite length_app in Hi. cbn in Hi. lia. }
    rewrite lookup_app_l in Hi by done. rewrite lookup_app_l in Hxi by (by rewrite length_map).
    assert (Hlast : (map full_enc as_ ++ [full_enc y]) !! length as_ = Some (full_enc y)) by (apply list_lookup_middle; by rewrite length_map).
    apply wp_bind, wp_bind, wp_zoom. cbn [mem obj storage].
    eapply (wp_copy_ref page chunk_shift (map full_enc as_ ++ [full_enc y]) i (length as_) (full_enc m) (full_enc y)); cbn [mem obj]; [exact Hst1|by apply lookup_app_l_Some|done|].
    intros st2 Hst2 Hrun2. cbn [mem obj storage members]. apply wp_bind, wp_obj_get, wp_bind, wp_zoom. cbn [mem obj members]. rewrite insert_app_l in Hst2 by (by rewrite length_map).
    assert (Hmy : full_enc m <> full_enc y). { intros Exy. rewrite <- Exy in Hnx. apply NoDup_app in Hnx as (_ & Hdis & _). apply (Hdis (full_enc m)); [by eapply list_elem_of_lookup_2|by left]. }
    eapply (wp_move_member_id hasher_ 4 (member_at (mkFull st2 t1)) (delete (full_enc m) d) (full_enc y) (length as_) i); cbn [mem obj].
    + eapply dict_view; [|exact Ht1]. intros x k Hk. rewrite (member_at_spec _ (mkFull st2 t1) _ k Hst2). apply lookup_delete_Some in Hk as [Hx Hk]. apply Hix in Hk.
      destruct (decide (k = i)) as [->|Hki]; [rewrite lookup_app_l in Hk by (by rewrite length_map); congruence|]. rewrite <- insert_app_l by (by rewrite length_map). by rewrite list_lookup_insert_ne.
    + rewrite lookup_delete_ne by done. by apply Hix.
    + rewrite (member_at_spec _ (mkFull st2 t1) _ i Hst2). apply lookup_app_l_Some, list_lookup_insert_eq. by rewrite length_map.
    + intros t2 Ht2. cbn [mem obj storage]. apply wp_ret, wp_bind, wp_zoom, wp_obj_mod. cbn [mem obj storage members].
      eapply (Hrest _ _ (<[full_enc y := i]> (delete (full_enc m) d)) (<[i := y]> as_)).
      * rewrite list_fmap_insert. by apply stores_pop_back with (m := full_enc y).
      * rewrite list_fmap_insert. by apply indexes_swap.
      * by eexists.
      * by apply swap_perm.
Qed.

Abbreviation erase_full := (erase_full encoding chunk_shift hasher_ page huge_page compaction_allowed).

(** What is left of [ms] without [m]. *)
Definition without m ms ms' : Prop := if decide (m ∈ ms) then ms ≡ₚ m :: ms' else ms' = ms.

Lemma wp_erase_full m ms (Q : bool -> world FullState -> Prop) E w :
  full_repr (obj w) ms -> storable m ->
  (forall mm f' ms', (unlimited (mem w) -> mm = mem w) -> full_repr f' ms' -> without m ms ms' -> Q (bool_decide (m ∈ ms)) (World mm f')) ->
  wp (erase_full m) Q E w.
Proof.
  destruct w as [mm f]. cbn [mem obj]. intros Hf Hm HQ. pose proof Hf as [Hst [d [Hd Hix]] Hnd Hall]. destruct (encode_full m Hm) as (e & He & Hw & _ & _).
  unfold SetValue.erase_full. apply wp_bind, (wp_lift _ e); [done|]. apply wp_bind, wp_obj_get. cbn [obj]. rewrite Hw. destruct (member_found hasher_ 4 (member_at f) (members f) d (full_enc m) Hd) as (r & Hr & Hcase).
  apply wp_bind, (wp_need _ r); [done|]. unfold without in HQ. destruct r as [slot|].
  - destruct Hcase as (id & Hat & Hid). pose proof (proj1 (Hix _ _) Hid) as Hx. assert (Hin : m ∈ ms) by (apply (full_enc_elem m ms Hm Hall); by eapply list_elem_of_lookup_2).
    rewrite list_lookup_fmap in Hx. destruct (ms !! id) as [m'|] eqn:Hm'; [|done]. cbn in Hx. injection Hx as Hx. assert (m' = m) as ->.
    { apply full_enc_inj; [|done|done]. rewrite Forall_forall in Hall. apply Hall. by eapply list_elem_of_lookup_2. }
    apply wp_bind, (wp_need _ id); [by destruct Hat as (? & _ & _ & ?)|]. apply wp_bind. apply (wp_remove_slot slot id m ms); cbn [mem obj]; [done|done|done|].
    intros mm' f' ms' Hmm Hf' Hp. apply wp_ret. rewrite <- (bool_decide_eq_true_2 (m ∈ ms) Hin). apply (HQ mm' f' ms'); [done|done|]. by rewrite decide_True.
  - assert (Hni : m ∉ ms) by (by apply (indexes_lookup d ms m Hix Hm Hall)). apply wp_ret. rewrite <- (bool_decide_eq_false_2 (m ∈ ms) Hni). apply (HQ mm f ms); [done|done|]. by rewrite decide_False.
Qed.

(** *** Back to the compact form *)

Lemma wp_run_local {O P A} (init : P) (m : M (world P) A) (Q : A * P -> world O -> Prop) E w :
  wp m (fun a v => Q (a, obj v) (World (mem v) (obj w))) (fun e v => E e (World (mem v) (obj w))) (World (mem w) init) -> wp (run_local init m) Q E w.
Proof. unfold wp, run_local. by destruct (m _). Qed.

Lemma stored_texts f ms ids sub :
  full_repr f ms -> length sub = length ids -> (forall k i m, ids !! k = Some i -> sub !! k = Some m -> ms !! i = Some m) -> texts encoding chunk_shift f ids = Ret sub.
Proof.
  intros Hf. revert sub. induction ids as [|i ids IH]; intros [|m sub] Hlen Hsub; [done|done|done|]. cbn [texts].
  pose proof (Hsub 0%nat i m eq_refl eq_refl) as Hm. assert (Hmi : storable m). { pose proof (fr_members _ _ Hf) as Hall. rewrite Forall_forall in Hall. apply Hall. by eapply list_elem_of_lookup_2. }
  rewrite (member_at_spec 0 f _ i (fr_storage _ _ Hf)), list_lookup_fmap, Hm. cbn [fmap option_fmap option_map of_option mbind result_bind].
  destruct (stored_reads encoding AllowLz4 m Hmi) as (_ & _ & Ht). unfold full_enc. rewrite Ht. cbn [mbind result_bind]. rewrite (IH sub); [done|by injection Hlen|]. intros k i' m' Hk Hk'. by apply (Hsub (S k)).
Qed.

Lemma all_texts f ms : full_repr f ms -> texts encoding chunk_shift f (seq 0 (length ms)) = Ret ms.
Proof. intros Hf. apply (stored_texts f ms); [done|by rewrite length_seq|]. intros k i m Hk Hm. apply lookup_seq in Hk as [-> _]. done. Qed.

Lemma adds_fresh acc ms : NoDup (acc ++ ms) -> adds acc ms = acc ++ ms.
Proof.
  revert acc. induction ms as [|m ms IH]; intros acc Hn; [by rewrite app_nil_r|]. rewrite adds_cons. unfold with_member. rewrite decide_False.
  - rewrite IH; rewrite <- app_assoc; done.
  - intros Hi. apply NoDup_app in Hn as (_ & Hdis & _). apply (Hdis m Hi). by left.
Qed.

Lemma full_size f ms : full_repr f ms -> SetStorage.size (storage f) = length ms.
Proof. intros Hf. unfold SetStorage.size, vsize. rewrite (sr_offsets _ _ _ _ _ (fr_storage _ _ Hf)). apply length_map. Qed.

Abbreviation maybe_demote_to_small := (maybe_demote_to_small encoding listpack_max_entries chunk_shift blob_hash junk pool_request).

(** Demotion keeps the members and never fails. *)
Lemma wp_maybe_demote s ms (Q : unit -> world Rep -> Prop) E w :
  obj w = s -> set_holds s ms -> (forall mm s', (unlimited (mem w) -> mm = mem w) -> set_holds s' ms -> Q tt (World mm s')) -> wp maybe_demote_to_small Q E w.
Proof.
  destruct w as [mm s0]. cbn [mem obj]. intros -> Hs HQ. unfold SetValue.maybe_demote_to_small. apply wp_bind, wp_obj_get. cbn [obj]. destruct s as [p|f]; [apply wp_ret; by apply HQ|]. cbn [set_holds] in Hs.
  destruct (_ =? 0); [apply wp_ret; by apply HQ|]. destruct (_ <? _); [apply wp_ret; by apply HQ|]. destruct (negb _); [apply wp_ret; by apply HQ|]. rewrite (full_size f ms Hs).
  apply wp_catch, wp_bind, (wp_lift _ ms); [by apply all_texts|]. apply wp_bind, wp_run_local. cbn [mem].
  assert (Hnil : set_repr blob_hash encoding None []) by apply set_repr_empty.
  assert (Hcase : (exists r p', SetListpack.add_many blob_hash junk encoding ms listpack_max_entries None = Ret (mkAddMany r false, p') /\ set_repr blob_hash encoding p' ms) \/
    SetListpack.add_many blob_hash junk encoding ms listpack_max_entries None = Ret (mkAddMany 0 true, None)).
  { destruct (decide (ms = [])) as [->|Hne]; [left; by exists 0, None|]. destruct (lp_add_many_cases None [] ms Hnil (fr_members _ _ Hs) Hne) as [(p' & Ea & Hp')|Ea]; [|by right].
    left. eexists _, p'. split; [exact Ea|]. rewrite adds_fresh in Hp' by (exact (fr_distinct _ _ Hs)). done. }
  destruct Hcase as [(r & p' & Ea & Hp')|Ea]; (eapply wp_on_blob; [exact Ea| |]).
  - intros m2 Hm2. cbn [mem obj fst snd many_needs_full] in *. apply wp_obj_mod. cbn [mem]. by apply HQ.
  - intros Hu m2. cbn [mem obj]. apply wp_ret. by apply HQ.
  - intros m2 Hm2. cbn [mem obj fst snd many_needs_full] in *. apply wp_ret. by apply HQ.
  - intros Hu m2. cbn [mem obj]. apply wp_ret. by apply HQ.
Qed.

(** *** The operations of the object *)

Lemma without_elem m ms ms' x : NoDup ms -> without m ms ms' -> x ∈ ms' <-> x ∈ ms /\ x <> m.
Proof.
  intros Hn. unfold without. destruct (decide (m ∈ ms)) as [Hin|Hin]; [|intros ->; split; [intros Hx; split; [done|by intros ->]|by intros [? _]]].
  intros Hp. assert (Hx0 : x ∈ ms <-> x ∈ m :: ms') by (split; intros H; by rewrite Hp || by rewrite <- Hp). rewrite Hp in Hn. apply NoDup_cons in Hn as [Hni _]. rewrite Hx0, elem_of_cons. split; [intros Hx; split; [by right|by intros ->]|by intros [[->|?] ?]].
Qed.

Lemma without_length m ms ms' : without m ms ms' -> length ms = (length ms' + if bool_decide (m ∈ ms) then 1 else 0)%nat.
Proof. unfold without. destruct (decide (m ∈ ms)) as [Hin|Hin]; [intros Hp; rewrite bool_decide_eq_true_2 by done; apply Permutation_length in Hp; cbn in Hp; lia|intros ->; rewrite bool_decide_eq_false_2 by done; lia]. Qed.

Lemma lp_erase_cases p ms m :
  set_repr blob_hash encoding p ms -> storable m ->
  exists p' ms', SetListpack.erase blob_hash width junk encoding m p = Ret (bool_decide (m ∈ ms), p') /\ set_repr blob_hash encoding p' ms' /\ without m ms ms'.
Proof.
  intros Hr [He Hw]. assert (Hcase : storable_member encoding m \/ Options.max_value_bytes encoding < Z.of_nat (length m) \/ kDirMaxStringBytes < Z.of_nat (length (enc encoding m))).
  { unfold storable_member. destruct (Z.le_gt_cases (Z.of_nat (length m)) (Options.max_value_bytes encoding)); [|lia]. destruct (Z.le_gt_cases (Z.of_nat (length (enc encoding m))) kDirMaxStringBytes); [|lia]. by left. }
  unfold without. destruct Hcase as [Hs|Hbig].
  - destruct (erase_spec blob_hash junk encoding width Hwidth p ms m Hr Hs) as [Hno Hyes]. destruct (decide (m ∈ ms)) as [Hin|Hin].
    + apply list_elem_of_split in Hin as (a & b & ->). destruct (Hyes a b eq_refl) as (p' & E & R). exists p', (a ++ b). rewrite bool_decide_eq_true_2 by set_solver. split_and!; [done|done|]. by rewrite Permutation_middle.
    + exists p, ms. rewrite bool_decide_eq_false_2 by done. by rewrite (Hno Hin).
  - exists p, ms. assert (Hni : m ∉ ms). { intros Hin. pose proof (sr_members _ _ _ _ Hr) as Hall. rewrite Forall_forall in Hall. destruct (Hall m Hin) as (? & ? & _). lia. }
    rewrite bool_decide_eq_false_2, decide_False by done. split_and!; [|done|done]. by eapply oversized.
Qed.

Abbreviation erase := (erase encoding listpack_max_entries chunk_shift blob_hash hasher_ width junk page huge_page compaction_allowed pool_request).

Lemma wp_set_erase m ms (Q : bool -> world Rep -> Prop) E w :
  set_holds (obj w) ms -> storable m ->
  (forall mm s' ms', (unlimited (mem w) -> mm = mem w) -> set_holds s' ms' -> without m ms ms' -> Q (bool_decide (m ∈ ms)) (World mm s')) ->
  (~ unlimited (mem w) -> forall mm, E MaxMemoryExceeded (World mm (obj w))) ->
  wp (erase m) Q E w.
Proof.
  destruct w as [mm s]. cbn [mem obj]. intros Hs Hm HQ HE. unfold SetValue.erase. pose proof (proj2 (string_value_fits_correct m encoding AllowLz4) (proj1 Hm)) as Hfit. rewrite Hfit. cbn [negb]. apply wp_bind, wp_obj_get. cbn [obj].
  destruct s as [p|f]; cbn [set_holds] in Hs.
  - apply wp_on_small. cbn [mem]. destruct (lp_erase_cases p ms m Hs Hm) as (p' & ms' & Ee & Hr & Hwo). eapply wp_on_blob; [exact Ee| |].
    + intros m2 Hm2. cbn [mem obj] in *. by apply (HQ m2 _ ms').
    + intros Hu m2. by apply HE.
  - apply wp_bind, (wp_on_full f); [done|]. cbn [mem]. apply (wp_erase_full m ms); cbn [mem obj]; [done|done|]. intros m2 f' ms' Hm2 Hf' Hwo.
    destruct (bool_decide (m ∈ ms)) eqn:Hb; cbn [negb].
    + apply wp_bind. apply (wp_maybe_demote (Full f') ms'); cbn [mem obj]; [done|done|]. intros m3 s' Hm3 Hs'. apply wp_ret. rewrite ?Hb in HQ. apply (HQ m3 s' ms'); [intros Hu; rewrite <- (Hm2 Hu); apply Hm3; by rewrite (Hm2 Hu)|done|done].
    + apply wp_ret. rewrite ?Hb in HQ. by apply (HQ m2 _ ms').
Qed.

(** Several members: what is left, and what may be left when memory runs out. *)
Definition without_all (members ms ms' : list bytes) : Prop := NoDup ms' /\ forall x, x ∈ ms' <-> x ∈ ms /\ x ∉ members.
Definition without_some (members ms ms' : list bytes) : Prop := forall x, (x ∈ ms' -> x ∈ ms) /\ (x ∈ ms -> x ∉ members -> x ∈ ms').

Lemma holds_distinct s ms : set_holds s ms -> NoDup ms.
Proof. destruct s; intros Hs; [apply (SetListpack.sr_distinct _ _ _ _ Hs)|apply (fr_distinct _ _ Hs)]. Qed.

Lemma wp_erase_each members n ms (Q : nat -> world FullState -> Prop) E w :
  full_repr (obj w) ms -> Forall storable members ->
  (forall mm f' ms', (unlimited (mem w) -> mm = mem w) -> full_repr f' ms' -> without_all members ms ms' -> (length ms' <= length ms)%nat -> Q (n + (length ms - length ms'))%nat (World mm f')) ->
  wp (erase_each encoding chunk_shift hasher_ page huge_page compaction_allowed members n) Q E w.
Proof.
  intros Hf Hall. revert n ms w Hf. induction Hall as [|m members Hm _ IH]; intros n ms [mm f] Hf HQ; cbn [mem obj] in *; cbn [erase_each].
  { apply wp_ret. rewrite <- (Nat.add_0_r n), <- (Nat.sub_diag (length ms)). apply HQ; [done|done| |done]. split; [apply (fr_distinct _ _ Hf)|]. intros x. split; [intros Hx; split; [done|by intros ?%not_elem_of_nil]|by intros [? _]]. }
  apply wp_bind, (wp_erase_full m ms); cbn [mem obj]; [done|done|]. intros m2 f' ms' Hm2 Hf' Hwo. pose proof (without_length _ _ _ Hwo) as Hlen. apply (IH _ ms'); [done|]. cbn [mem obj].
  intros m3 f2 ms2 Hm3 Hf2 [Hn2 Hel] Hle. replace (_ + _ + _)%nat with (n + (length ms - length ms2))%nat by (destruct (bool_decide _); lia).
  apply HQ; [intros Hu; rewrite <- (Hm2 Hu); apply Hm3; by rewrite (Hm2 Hu)|done| |destruct (bool_decide _); lia]. split; [done|]. intros x. rewrite Hel, (without_elem m ms ms' x (fr_distinct _ _ Hf) Hwo), not_elem_of_cons. tauto.
Qed.

Lemma wp_lp_erase_each members n ms (Q : nat -> world Blob -> Prop) (E : exn -> world Blob -> Prop) w :
  set_repr blob_hash encoding (obj w) ms -> Forall storable members ->
  (forall mm p' ms', (unlimited (mem w) -> mm = mem w) -> set_repr blob_hash encoding p' ms' -> without_all members ms ms' -> (length ms' <= length ms)%nat -> Q (n + (length ms - length ms'))%nat (World mm p')) ->
  (~ unlimited (mem w) -> forall mm p' ms', set_repr blob_hash encoding p' ms' -> without_some members ms ms' -> E MaxMemoryExceeded (World mm p')) ->
  wp (lp_erase_each encoding blob_hash width junk pool_request members n) Q E w.
Proof.
  intros Hf Hall. revert n ms w Hf. induction Hall as [|m members Hm _ IH]; intros n ms [mm p] Hf HQ HE; cbn [mem obj] in *; cbn [lp_erase_each].
  { apply wp_ret. rewrite <- (Nat.add_0_r n), <- (Nat.sub_diag (length ms)). apply HQ; [done|done| |done]. split; [apply (SetListpack.sr_distinct _ _ _ _ Hf)|]. intros x. split; [intros Hx; split; [done|by intros ?%not_elem_of_nil]|by intros [? _]]. }
  destruct (lp_erase_cases p ms m Hf Hm) as (p' & ms' & Ee & Hr & Hwo). pose proof (without_length _ _ _ Hwo) as Hlen. pose proof (fun x => without_elem m ms ms' x (SetListpack.sr_distinct _ _ _ _ Hf) Hwo) as Helem.
  apply wp_bind. eapply wp_on_blob; [exact Ee| |].
  - intros m2 Hm2. cbn [mem obj] in *. apply (IH _ ms'); cbn [mem obj]; [done| |].
    + intros m3 f2 ms2 Hm3 Hf2 [Hn2 Hel] Hle. replace (_ + _ + _)%nat with (n + (length ms - length ms2))%nat by (destruct (bool_decide _); lia).
      apply HQ; [intros Hu; rewrite <- (Hm2 Hu); apply Hm3; by rewrite (Hm2 Hu)|done| |destruct (bool_decide _); lia]. split; [done|]. intros x. rewrite Hel, Helem, not_elem_of_cons. tauto.
    + intros Hu m3 p2 ms2 Hp2 Hsome. apply (HE ltac:(intros Hu'; apply Hu; by rewrite (Hm2 Hu')) m3 p2 ms2 Hp2). intros x. destruct (Hsome x) as [G1 G2]. rewrite Helem in G1, G2. rewrite not_elem_of_cons. split; [tauto|]. intros Hx [Hxm Hxs]. by apply G2.
  - intros Hu m2. apply (HE Hu m2 p ms Hf). intros x. tauto.
Qed.

Abbreviation erase_many := (erase_many encoding listpack_max_entries chunk_shift blob_hash hasher_ width junk page huge_page compaction_allowed pool_request).

Lemma wp_erase_many members ms (Q : nat -> world Rep -> Prop) E w :
  set_holds (obj w) ms -> Forall storable members ->
  (forall mm s' ms', (unlimited (mem w) -> mm = mem w) -> set_holds s' ms' -> without_all members ms ms' -> (length ms' <= length ms)%nat -> Q (length ms - length ms')%nat (World mm s')) ->
  (~ unlimited (mem w) -> forall mm s' ms', set_holds s' ms' -> without_some members ms ms' -> E MaxMemoryExceeded (World mm s')) ->
  wp (erase_many members) Q E w.
Proof.
  destruct w as [mm s]. cbn [mem obj]. intros Hs Hall HQ HE. unfold SetValue.erase_many. apply wp_bind, wp_obj_get. cbn [obj]. destruct s as [p|f]; cbn [set_holds] in Hs.
  - apply wp_on_small. cbn [mem]. apply (wp_lp_erase_each members 0 ms); cbn [mem obj]; [done|done| |].
    + intros m2 p' ms' Hm2 Hp' Hwo Hle. rewrite Nat.add_0_l. by apply (HQ m2 _ ms').
    + intros Hu m2 p' ms' Hp' Hwo. by apply (HE Hu m2 _ ms').
  - apply wp_bind, (wp_on_full f); [done|]. cbn [mem]. apply (wp_erase_each members 0 ms); cbn [mem obj]; [done|done|]. intros m2 f' ms' Hm2 Hf' Hwo Hle. rewrite Nat.add_0_l. apply wp_bind, wp_when.
    + intros _. apply (wp_maybe_demote (Full f') ms'); cbn [mem obj]; [done|done|]. intros m3 s' Hm3 Hs'. apply wp_ret. apply (HQ m3 s' ms'); [intros Hu; rewrite <- (Hm2 Hu); apply Hm3; by rewrite (Hm2 Hu)|done|done|done].
    + intros _. apply wp_ret. by apply (HQ m2 _ ms').
Qed.

(** *** By position *)

Lemma holds_size s ms : set_holds s ms -> set_size s = Ret (length ms).
Proof.
  destruct s as [p|f]; cbn [set_holds set_size]; intros Hs; [|by rewrite (full_size f ms Hs)].
  unfold SetListpack.set_size. rewrite (set_hdr _ _ _ _ Hs). cbn. by rewrite length_map, Nat2Z.id.
Qed.

Lemma at_id_reads s ms i m : set_holds s ms -> ms !! i = Some m -> exists v, at_id encoding chunk_shift i s = Ret v /\ reads_as v m.
Proof.
  destruct s as [p|f]; cbn [set_holds at_id]; intros Hs Hi.
  - destruct (index_spec blob_hash junk encoding width Hwidth p ms Hs) as [_ Hx]. rewrite <- (take_drop_middle ms i m Hi) in Hx. destruct (Hx (take i ms) m (drop (S i) ms) eq_refl) as [_ (v & Hv & Hr)].
    rewrite length_take_le in Hv by (apply lookup_lt_Some in Hi; lia). by exists v.
  - rewrite (member_at_spec 0 f _ i (fr_storage _ _ Hs)), list_lookup_fmap, Hi. cbn [fmap option_fmap option_map of_option mbind result_bind]. eexists. split; [done|]. apply stored_reads.
    pose proof (fr_members _ _ Hs) as Hall. rewrite Forall_forall in Hall. apply Hall. by eapply list_elem_of_lookup_2.
Qed.

Lemma text_at_spec s ms i m : set_holds s ms -> ms !! i = Some m -> text_at encoding chunk_shift i s = Ret m.
Proof. intros Hs Hi. unfold text_at. destruct (at_id_reads s ms i m Hs Hi) as (v & -> & _ & _ & Ht). done. Qed.

Lemma mapM_ret {A B} (g : A -> result B) (l : list A) (P : A -> B -> Prop) : (forall x, x ∈ l -> exists y, g x = Ret y /\ P x y) -> exists ys, mapM g l = Ret ys /\ Forall2 P l ys.
Proof.
  induction l as [|x l IH]; intros H; [exists []; split; [done|constructor]|]. destruct (H x ltac:(by left)) as (y & Hy & HP). destruct IH as (ys & Hys & HF); [intros z Hz; apply H; by right|].
  exists (y :: ys). cbn. rewrite Hy. cbn. rewrite Hys. cbn. split; [done|by constructor].
Qed.

Lemma for_each_reads s ms : set_holds s ms -> exists views, for_each encoding chunk_shift s = Ret views /\ Forall2 reads_as views ms.
Proof.
  destruct s as [p|f]; cbn [set_holds for_each]; intros Hs; [by eapply members_walk_spec|]. rewrite (full_size f ms Hs).
  destruct (mapM_ret (fun id => at_id encoding chunk_shift id (Full f)) (seq 0 (length ms)) (fun i v => exists m, ms !! i = Some m /\ reads_as v m)) as (vs & Hvs & HF).
  { intros i [_ Hi]%elem_of_seq. destruct (lookup_lt_is_Some_2 ms i ltac:(lia)) as [m Hm]. destruct (at_id_reads (Full f) ms i m Hs Hm) as (v & Hv & Hr). exists v. split; [done|]. by exists m. }
  exists vs. split; [done|]. apply Forall2_same_length_lookup. pose proof (Forall2_length _ _ _ HF) as Hl. rewrite length_seq in Hl. split; [done|]. intros i v m Hv Hm.
  destruct (Forall2_lookup_r _ _ _ _ _ HF Hv) as (k & Hk & m' & Hm' & Hr). apply lookup_seq in Hk as [-> _]. cbn in Hm'. congruence.
Qed.

Lemma set_contains_spec s ms m : set_holds s ms -> storable m -> contains encoding chunk_shift blob_hash hasher_ width m s = Ret (bool_decide (m ∈ ms)).
Proof.
  intros Hs Hm. unfold contains. rewrite (proj2 (string_value_fits_correct m encoding AllowLz4) (proj1 Hm)). cbn [negb]. destruct s as [p|f]; cbn [set_holds] in Hs.
  - destruct Hm as [He Hw]. assert (Hcase : storable_member encoding m \/ Options.max_value_bytes encoding < Z.of_nat (length m) \/ kDirMaxStringBytes < Z.of_nat (length (enc encoding m))).
    { unfold storable_member. destruct (Z.le_gt_cases (Z.of_nat (length m)) (Options.max_value_bytes encoding)); [|lia]. destruct (Z.le_gt_cases (Z.of_nat (length (enc encoding m))) kDirMaxStringBytes); [|lia]. by left. }
    destruct Hcase as [Hsm|Hbig]; [by apply member_contains_spec|].
    rewrite bool_decide_eq_false_2; [by eapply (oversized blob_hash junk encoding width Hwidth p m listpack_max_entries)|]. intros Hin. pose proof (sr_members _ _ _ _ Hs) as Hall. rewrite Forall_forall in Hall. destruct (Hall m Hin) as (? & ? & _). lia.
  - destruct (encode_full m Hm) as (e & He & Hw & _). rewrite He. cbn [mbind result_bind]. rewrite Hw. destruct Hs as [Hst [d [Hd Hix]] Hnd Hall]. rewrite (member_find_spec hasher_ 4 (member_at f) (members f) d (full_enc m) Hd).
    cbn [of_option mbind result_bind]. f_equal. apply bool_decide_ext. rewrite <- not_eq_None_Some, (indexes_lookup d ms m Hix Hm Hall). split; [|auto]. intros Hn. by destruct (decide (m ∈ ms)).
Qed.

Abbreviation erase_at_id := (erase_at_id encoding listpack_max_entries chunk_shift blob_hash hasher_ junk page huge_page compaction_allowed pool_request).

Lemma wp_erase_at_id i m ms (Q : bool -> world Rep -> Prop) E w :
  set_holds (obj w) ms -> ms !! i = Some m ->
  (forall mm s' ms', (unlimited (mem w) -> mm = mem w) -> set_holds s' ms' -> ms ≡ₚ m :: ms' -> Q true (World mm s')) ->
  (~ unlimited (mem w) -> forall mm, E MaxMemoryExceeded (World mm (obj w))) ->
  wp (erase_at_id i) Q E w.
Proof.
  destruct w as [mm s]. cbn [mem obj]. intros Hs Hi HQ HE. unfold SetValue.erase_at_id. apply wp_bind, wp_obj_get. cbn [obj]. pose proof (lookup_lt_Some _ _ _ Hi) as Hlt. destruct s as [p|f]; cbn [set_holds] in Hs.
  - apply wp_on_small. cbn [mem]. destruct (index_spec blob_hash junk encoding width Hwidth p ms Hs) as [_ Hx]. pose proof (take_drop_middle ms i m Hi) as Esplit.
    destruct (Hx (take i ms) m (drop (S i) ms) ltac:(by rewrite Esplit)) as [(p' & Ee & Hr) _]. rewrite length_take_le in Ee by lia. eapply wp_on_blob; [exact Ee| |].
    + intros m2 Hm2. cbn [mem obj] in *. apply (HQ m2 _ (take i ms ++ drop (S i) ms)); [done|done|]. rewrite <- Esplit at 1. by rewrite Permutation_middle.
    + intros Hu m2. by apply HE.
  - rewrite (full_size f ms Hs), (proj2 (Nat.leb_gt _ _)) by done. pose proof Hs as [Hst [d [Hd Hix]] Hnd Hall].
    assert (Hat : member_at f i = Some (full_enc m)) by (rewrite (member_at_spec 0 f _ i Hst), list_lookup_fmap, Hi; done).
    apply wp_bind, (wp_need _ (full_enc m)); [done|]. destruct (member_found hasher_ 4 (member_at f) (members f) d (full_enc m) Hd) as (r & Hr & Hcase). apply wp_bind, (wp_need _ r); [done|].
    assert (Hdi : d !! full_enc m = Some i) by (apply Hix; by rewrite list_lookup_fmap, Hi). destruct r as [slot|]; [|congruence]. destruct Hcase as (id & Hfa & Hid). assert (id = i) as -> by congruence.
    apply wp_bind, (wp_on_full f); [done|]. cbn [mem]. apply (wp_remove_slot slot i m ms); cbn [mem obj]; [done|done|done|]. intros m2 f' ms' Hm2 Hf' Hp.
    apply wp_bind, (wp_maybe_demote (Full f') ms'); cbn [mem obj]; [done|done|]. intros m3 s' Hm3 Hs'. apply wp_ret. apply (HQ m3 s' ms'); [intros Hu; rewrite <- (Hm2 Hu); apply Hm3; by rewrite (Hm2 Hu)|done|done].
Qed.

(** *** Compaction *)

Lemma wp_index_all f ms todo done_ (Q : unit -> world MemberIndex -> Prop) E w d :
  full_repr f ms -> ms = done_ ++ todo -> dict hasher_ 4 (member_at f) (obj w) d -> indexes d (map full_enc done_) ->
  (todo <> [] -> tombstones_ (obj w) = 0%nat) -> size_ (obj w) = length done_ -> (todo <> [] -> (length ms <= capacity_ (obj w))%nat) ->
  (forall t' d', dict hasher_ 4 (member_at f) t' d' -> indexes d' (map full_enc ms) -> Q tt (World (mem w) t')) ->
  wp (for_all (index_member chunk_shift hasher_ f) (seq (length done_) (length todo))) Q E w.
Proof.
  intros Hf. revert done_ d w. induction todo as [|m todo IH]; intros done_ d [mm t] Ems Hd Hix Ht Hsz Hcap HQ; cbn [mem obj length seq for_all] in *.
  { apply wp_ret. rewrite app_nil_r in Ems. subst. by eapply HQ. }
  assert (Hm : ms !! length done_ = Some m) by (rewrite Ems; by apply list_lookup_middle). pose proof (fr_members _ _ Hf) as Hall. assert (Hds : Forall storable done_) by (rewrite Ems in Hall; by apply Forall_app in Hall as [? _]).
  assert (Hmi : storable m) by (rewrite Forall_forall in Hall; apply Hall; by eapply list_elem_of_lookup_2). assert (Hat : member_at f (length done_) = Some (full_enc m)) by (rewrite (member_at_spec 0 f _ _ (fr_storage _ _ Hf)), list_lookup_fmap, Hm; done).
  assert (Hni : m ∉ done_). { pose proof (fr_distinct _ _ Hf) as Hn. rewrite Ems in Hn. apply NoDup_app in Hn as (_ & Hdis & _). intros Hi. apply (Hdis m Hi). by left. }
  apply wp_bind. unfold index_member. apply wp_bind, (wp_need _ (full_enc m)); [done|].
  eapply (wp_insert_packed hasher_ 4 (member_at f) d); cbn [mem obj]; [done|done|by apply (indexes_lookup d done_ m Hix Hmi Hds)|by apply Ht| |].
  { specialize (Hcap ltac:(done)). rewrite Ems, length_app in Hcap. cbn [length] in Hcap. lia. }
  intros t' Ht' Hz Hc' Hs'. replace (S (length done_)) with (length (done_ ++ [m])) by (rewrite length_app; cbn; lia). eapply (IH (done_ ++ [m])); cbn [mem obj].
  - by rewrite <- app_assoc.
  - exact Ht'.
  - rewrite map_app, <- (length_map full_enc done_). apply indexes_snoc; [done|]. by apply (indexes_lookup d done_ m Hix Hmi Hds).
  - done.
  - rewrite length_app. cbn. lia.
  - intros _. rewrite Hc'. by apply Hcap.
  - done.
Qed.

Abbreviation compact := (compact encoding listpack_max_entries chunk_shift blob_hash hasher_ junk page huge_page compaction_allowed pool_request).

Lemma wp_set_compact density ms (Q : unit -> world Rep -> Prop) E w :
  set_holds (obj w) ms -> usable_density density -> total_enc ms <= 2 ^ 31 ->
  (forall mm s', (unlimited (mem w) -> mm = mem w) -> set_holds s' ms -> Q tt (World mm s')) ->
  (forall e mm s', refusal w e -> set_holds s' ms -> E e (World mm s')) ->
  wp (compact density) Q E w.
Proof.
  destruct w as [mm s]. cbn [mem obj]. intros Hs Hden Htot HQ HE. unfold SetValue.compact. apply wp_bind, wp_obj_get. cbn [obj]. destruct s as [p|f]; [apply wp_ret; by apply HQ|]. cbn [set_holds] in Hs.
  destruct (negb _); [apply wp_ret; by apply HQ|]. apply wp_bind, (wp_on_full f); [done|]. cbn [mem]. apply wp_bind, wp_zoom. cbn [mem obj].
  eapply (wp_compact page chunk_shift kDefaultArenaGrowth huge_page Hpage Hshift default_growth_ok); cbn [mem obj]; [exact (fr_storage _ _ Hs)|done| |].
  2: { intros Hu m2. cbn [mem obj]. apply HE; [by right|]. by destruct f. }
  intros m2 st1 Hm2 Hst1. cbn [mem obj]. apply wp_bind, wp_zoom. cbn [mem obj storage members]. eapply (wp_shrink_to_fit page chunk_shift Hpage Hshift); cbn [mem obj]; [exact Hst1|]. intros st2 Hst2. cbn [mem obj members storage].
  pose proof (full_repr_storage f st2 ms Hs Hst2) as Hf2. unfold rebuild_member_index. apply wp_bind, wp_obj_get. cbn [obj]. rewrite (full_size _ _ Hf2). apply wp_bind, wp_local. cbn [mem].
  pose proof (sr_ids _ _ _ _ _ Hst2) as Hids. rewrite length_map in Hids. destruct (Hden (length ms) Hids) as (needed & Hneed & Hneed').
  apply wp_bind. eapply (wp_reserve_for_density hasher_ 4 ltac:(lia) (member_at (mkFull st2 (members f))) ∅); cbn [mem obj]; [apply dict_empty|exact Hneed|done|rewrite map_size_empty; lia|lia| |].
  - intros m3 t Hm3 Hd Hroom. eapply (wp_index_all (mkFull st2 (members f)) ms ms []); cbn [mem obj length]; [done|done|exact Hd|apply indexes_empty| | | |].
    + intros Hne. apply Hroom. by destruct ms.
    + rewrite (di_card _ _ _ _ _ Hd). apply map_size_empty.
    + intros Hne. apply Hroom. by destruct ms.
    + intros t' d' Hd' Hix'. cbn [mem obj]. apply wp_obj_mod. cbn [mem obj storage]. apply (wp_maybe_demote (Full (mkFull st2 t')) ms); cbn [mem obj]; [done| |].
      * cbn [set_holds]. eapply full_repr_dict; [done|exact Hix'|by eexists|apply (fr_distinct _ _ Hs)|apply (fr_members _ _ Hs)].
      * intros m4 s' Hm4 Hs'. apply HQ; [|done]. intros Hu. rewrite <- (Hm2 Hu). rewrite <- (Hm3 ltac:(by rewrite (Hm2 Hu))). apply Hm4. rewrite Hm3; by rewrite (Hm2 Hu).
  - split; intros; cbn [mem obj]; (apply HE; [|done]).
    + right. split; [done|]. intros Hu'. match goal with H : ~ unlimited _ |- _ => apply H end. cbn. by rewrite (Hm2 Hu').
    + by left.
Qed.

(** *** Walking by cursor *)

Lemma set_scan_loop s ms match_ walk_limit budget fuel id walked emitted :
  set_holds s ms -> (id <= length ms)%nat -> (length ms - id <= fuel)%nat ->
  exists next, scan_loop encoding chunk_shift fuel s match_ (Z.of_nat (length ms)) (Z.of_nat id) walked emitted walk_limit budget = Ret (List.filter match_ (take (next - id) (drop id ms)), Z.of_nat next) /\
    (id <= next <= length ms)%nat /\ ((id < length ms)%nat -> walked < walk_limit -> emitted < budget -> (id < next)%nat).
Proof.
  intros Hs. revert id walked emitted. induction fuel as [|fuel IH]; intros id walked emitted Hid Hf; cbn [scan_loop].
  { exists id. replace (_ && _) with false by lia. rewrite Nat.sub_diag. split_and!; [done|lia|lia|lia]. }
  destruct (_ && _) eqn:Hgo.
  - destruct (lookup_lt_is_Some_2 ms id ltac:(lia)) as [m Hm]. rewrite Nat2Z.id, (text_at_spec s ms id m Hs Hm). cbn [mbind result_bind].
    destruct (IH (S id) (walked + 1) (if match_ m then emitted + 1 else emitted) ltac:(lia) ltac:(lia)) as (next & E & Hn & _). replace (Z.of_nat id + 1) with (Z.of_nat (S id)) by lia. rewrite E. cbn [mbind result_bind].
    exists next. split_and!; [|lia|lia|lia]. f_equal. f_equal. rewrite (drop_S ms m id Hm). replace (next - id)%nat with (S (next - S id)) by lia. cbn [take List.filter]. by destruct (match_ m).
  - exists id. rewrite Nat.sub_diag. split_and!; [done|lia|lia|]. lia.
Qed.

(** The rounds emit exactly what matches, from the cursor on. *)
Lemma scan_rounds_spec s ms count match_ rounds cursor :
  set_holds s ms -> 0 <= count -> ((cursor < length ms)%nat \/ cursor = 0%nat) -> (length ms - cursor < rounds)%nat ->
  scan_rounds encoding chunk_shift rounds count match_ s (Z.of_nat cursor) = Ret (List.filter match_ (drop cursor ms)).
Proof.
  intros Hs Hcount. revert cursor. induction rounds as [|rounds IH]; intros cursor Hc Hr; [lia|]. cbn [scan_rounds]. unfold scan. rewrite (holds_size s ms Hs). cbn [mbind result_bind].
  destruct (decide (cursor < length ms)%nat) as [Hlt|Hge].
  2: { replace (_ || _) with true by lia. cbn [mbind result_bind]. destruct Hc as [Hlt| ->]; [done|]. destruct ms; [done|cbn in Hge; lia]. }
  replace (_ || _) with false by lia. set (budget := if count =? 0 then 10 else count). assert (Hb : 0 < budget) by (unfold budget; case_match; lia). set (limit := Z.max _ budget).
  destruct (set_scan_loop s ms match_ limit budget (length ms) cursor 0 0 Hs ltac:(lia) ltac:(lia)) as (next & E & Hn & Hadv). rewrite E. cbn [mbind result_bind]. specialize (Hadv Hlt ltac:(unfold limit; lia) ltac:(lia)).
  destruct (decide (next = length ms)) as [->|Hne].
  - rewrite (proj2 (Z.leb_le _ _)) by lia. cbn. by rewrite take_ge by (rewrite length_drop; lia).
  - rewrite (proj2 (Z.leb_gt _ _)) by lia. rewrite (proj2 (Z.eqb_neq _ _)) by lia. rewrite IH by lia. cbn [mbind result_bind]. f_equal. rewrite <- List.filter_app. f_equal.
    rewrite <- (take_drop (next - cursor) (drop cursor ms)) at 2. f_equal. rewrite drop_drop. f_equal. lia.
Qed.

(** *** Emptying, and taking a random member *)

Lemma wp_init_empty (Q : unit -> world Rep -> Prop) E w :
  (forall mm s', (unlimited (mem w) -> mm = mem w) -> set_holds s' [] -> Q tt (World mm s')) ->
  (~ unlimited (mem w) -> forall mm, E MaxMemoryExceeded (World mm (obj w))) ->
  wp (init_empty listpack_max_entries sizeof_full) Q E w.
Proof.
  intros HQ HE. unfold init_empty. destruct (_ =? 0).
  - apply wp_bind, wp_ensure_memory_growth; [|done]. intros mm Hm. apply wp_obj_mod. cbn [mem]. apply HQ; [done|]. apply full_repr_empty.
  - apply wp_obj_mod. apply HQ; [done|]. apply set_repr_empty.
Qed.

Lemma random_bounded_range fuel bound rng x rng' : 0 < bound -> random_bounded fuel bound rng = Some (x, rng') -> 0 <= x < bound.
Proof.
  intros Hb. unfold random_bounded. destruct (Z.eqb_spec bound 1) as [->|_]; [intros H; injection H as <- <-; lia|]. generalize (u64_max / bound * bound). intros threshold. revert rng. induction fuel as [|fuel IH]; intros rng; [done|].
  cbn [random_below]. destruct (random_u64 rng) as [y rng1]. destruct (y <? threshold); [|apply IH]. intros H. injection H as <- <-. by apply Z.mod_pos_bound.
Qed.

Abbreviation pop := (pop encoding listpack_max_entries chunk_shift blob_hash hasher_ junk page huge_page compaction_allowed pool_request).

(** Whatever the generator draws, [pop] removes one member and returns it. *)
Lemma wp_pop fuel rng ms (Q : option bytes * Z -> world Rep -> Prop) E w :
  set_holds (obj w) ms -> (ms <> [] -> exists x rng', random_bounded fuel (Z.of_nat (length ms)) rng = Some (x, rng')) ->
  (ms = [] -> Q (None, rng) w) ->
  (forall mm s' m ms' rng', (unlimited (mem w) -> mm = mem w) -> set_holds s' ms' -> ms ≡ₚ m :: ms' -> Q (Some m, rng') (World mm s')) ->
  (~ unlimited (mem w) -> forall mm, E MaxMemoryExceeded (World mm (obj w))) ->
  wp (pop fuel rng) Q E w.
Proof.
  intros Hs Hdraw HQ1 HQ2 HE. unfold SetValue.pop. apply wp_bind, wp_obj_get, wp_bind, (wp_lift _ (length ms)); [by apply holds_size|].
  destruct (Nat.eqb_spec (length ms) 0) as [Hz|Hz]; [apply wp_ret, HQ1; by destruct ms|]. destruct (Hdraw ltac:(by destruct ms)) as (x & rng' & Ex). pose proof (random_bounded_range _ (Z.of_nat (length ms)) _ _ _ ltac:(lia) Ex) as Hx.
  apply wp_bind, (wp_need _ (x, rng')); [done|]. destruct (lookup_lt_is_Some_2 ms (Z.to_nat x) ltac:(lia)) as [m Hm]. apply wp_bind, (wp_lift _ m); [by apply (text_at_spec _ ms)|].
  apply wp_bind. apply (wp_erase_at_id (Z.to_nat x) m ms); [done|done| |done]. intros mm s' ms' Hmm Hs' Hp. apply wp_ret. by apply (HQ2 mm s' m ms').
Qed.

(** C16: a set is a set, whatever its form.  For an object that holds the distinct members [ms], compact or
    full, with any hash functions, page size, huge pages and memory limit: its size, membership, the walk
    and access by id are those of [ms]; a batch adds exactly its new members and counts them, or fails
    for memory or index space after a part of it; removing takes out exactly the named members and
    counts them (the full form never fails, the compact form only for memory, and then nothing but named
    members is gone); the member of an id is removed as a whole; compaction changes nothing.  The storage
    of a full set must stay below 4 GiB, which its 32-bit offsets require. *)
Theorem set_object_refines (w : world Rep) (ms : list bytes) :
  set_holds (obj w) ms ->
  set_size (obj w) = Ret (length ms) /\
  (forall m, storable m -> contains encoding chunk_shift blob_hash hasher_ width m (obj w) = Ret (bool_decide (m ∈ ms))) /\
  (exists views, for_each encoding chunk_shift (obj w) = Ret views /\ Forall2 reads_as views ms) /\
  (forall members, Forall storable members -> arena_end (obj w) ms + 2 * total_enc members <= 2 ^ 32 -> Z.of_nat (length ms) + Z.of_nat (length members) < 2 ^ 31 ->
     wp (add_many members) (fun n w' => n = Z.of_nat (length (adds ms members)) - Z.of_nat (length ms) /\ set_holds (obj w') (adds ms members))
       (fun e w' => refusal w e /\ exists before after, members = before ++ after /\ set_holds (obj w') (adds ms before)) w) /\
  (forall members, Forall storable members ->
     wp (erase_many members) (fun n w' => exists ms', set_holds (obj w') ms' /\ without_all members ms ms' /\ (length ms = n + length ms')%nat)
       (fun e w' => e = MaxMemoryExceeded /\ ~ unlimited (mem w) /\ exists ms', set_holds (obj w') ms' /\ without_some members ms ms') w) /\
  (forall i m, ms !! i = Some m -> text_at encoding chunk_shift i (obj w) = Ret m /\
     wp (erase_at_id i) (fun b w' => b = true /\ exists ms', set_holds (obj w') ms' /\ ms ≡ₚ m :: ms') (fun e w' => e = MaxMemoryExceeded /\ ~ unlimited (mem w) /\ obj w' = obj w) w) /\
  (total_enc ms <= 2 ^ 31 -> wp (compact kDefaultMemberIndexDensity) (fun _ w' => set_holds (obj w') ms) (fun e w' => refusal w e /\ set_holds (obj w') ms) w).
Proof.
  intros Hs. split; [by apply holds_size|]. split; [intros m Hm; by apply set_contains_spec|]. split; [by apply for_each_reads|]. split; [|split; [|split]].
  - intros members Hall Hroom Hcount. apply (wp_add_many members ms); [done..| |]; [by intros mm s' _ Hs' _|]. intros e mm s' before after Hr Em Hs'. split; [done|]. by exists before, after.
  - intros members Hall. apply (wp_erase_many members ms); [done..| |]; [|intros Hu mm s' ms' Hs' Hwo; split_and!; [done..|]; by exists ms'].
    intros mm s' ms' _ Hs' Hwo Hle. exists ms'. split_and!; [done|done|lia].
  - intros i m Hi. split; [by apply (text_at_spec _ ms)|]. apply (wp_erase_at_id i m ms); [done|done| |done]. intros mm s' ms' _ Hs' Hp. split; [done|]. by exists ms'.
  - intros Htot. apply (wp_set_compact _ ms); [done|apply default_density_usable|done|done|done].
Qed.

(** A complete SSCAN of an unchanged set, whatever its form and the COUNT, ends within one call more
    than it has members and hands out every member that matches exactly once. *)
Theorem set_scan_complete (s : Rep) (ms : list bytes) (count : Z) (match_ : bytes -> bool) :
  set_holds s ms -> 0 <= count -> NoDup ms /\ scan_rounds encoding chunk_shift (S (length ms)) count match_ s 0 = Ret (List.filter match_ ms).
Proof. intros Hs Hc. split; [by eapply holds_distinct|]. apply (scan_rounds_spec s ms count match_ (S (length ms)) 0 Hs Hc); [by right|lia]. Qed.

(** Removing a member that no set can hold, because it is too long to be stored, throws out of
    [erase_many] when the set is in its full form; [erase], and [erase_many] on the compact form, answer that
    it is not a member. *)
Theorem oversized_erase_throws (w : world Rep) (f : FullState) (m : bytes) :
  string_value_fits m encoding AllowLz4 = false -> obj w = Full f ->
  erase_many [m] w = Exn LengthError w /\ erase m w = Ok false w /\
  (forall mm p, erase_many [m] (World mm (Small p)) = Ok 0%nat (World mm (Small p))).
Proof.
  intros Hfit Hw. destruct w as [mm s]. cbn [obj] in *. subst s. assert (He : exists msg, encode m encoding AllowLz4 = Throw msg).
  { assert (Hno : forall e, encode m encoding AllowLz4 <> Ret e). { intros e He. rewrite (proj2 (string_value_fits_correct m encoding AllowLz4)) in Hfit; [done|by exists e]. }
    revert Hno. unfold encode. repeat case_match; intros Hno; try (by exfalso; eapply Hno); by eexists. }
  destruct He as [msg He]. split_and!.
  - unfold SetValue.erase_many, mbind, M_bind, obj_get, gets. cbn [obj]. unfold on_full. cbn [obj mem erase_each]. unfold SetValue.erase_full, probe_of, mbind, M_bind. by rewrite He.
  - unfold SetValue.erase. rewrite Hfit. done.
  - intros mm' p. unfold SetValue.erase_many, mbind, M_bind, obj_get, gets. cbn [obj]. unfold on_small. cbn [obj mem lp_erase_each]. unfold lp_erase, on_blob, mbind, M_bind, obj_get, gets, SetListpack.erase. cbn [obj].
    assert (Hlong : Options.max_value_bytes encoding < Z.of_nat (length m)). { unfold string_value_fits in Hfit. case_match; [done|lia]. }
    rewrite (proj2 (Z.ltb_lt _ _) Hlong). cbn. by destruct p.
Qed.
End spec.

(** ** A concrete run *)

Section examples.
#[local] Existing Instance copy_lz4.
#[local] Existing Instance copy_lz4_correct.

(** At most two members in the compact form, blocks of 64 KiB, and hashes under which members collide. *)
Abbreviation example_add_many := (add_many 0 2 kDefaultGrowth 16 example_hash colliding x00 4096 (fun _ => false) (fun n => 2 * n) (fun n => n) 256).
Abbreviation example_erase_many := (erase_many 0 2 16 example_hash colliding 2 x00 4096 (fun _ => false) true (fun n => n)).

Definition example_members : list bytes := [str "a"; str "12"; str "b"; str "a"].

Lemma members_storable : Forall (faithful 0 AllowLz4) example_members.
Proof. repeat constructor; first [by eexists|by vm_compute]. Qed.

Lemma page_4096 : exists k, 0 <= k /\ 4096 = 2 ^ k.
Proof. by exists 12. Qed.

Definition example_state : world Rep := match example_add_many example_members (World None (Small None)) with Ok _ w => w | _ => World None (Small None) end.

(** The batch does not fit the compact form, so the set is full now. *)
Lemma example_full : exists f, obj example_state = Full f.
Proof. eexists. vm_compute. reflexivity. Qed.

Lemma example_holds : set_holds 0 16 example_hash colliding 4096 (obj example_state) [str "a"; str "12"; str "b"].
Proof.
  assert (H : wp (example_add_many example_members) (fun _ w => set_holds 0 16 example_hash colliding 4096 (obj w) [str "a"; str "12"; str "b"]) (fun _ _ => True) (World None (Small None))).
  { apply (wp_add_many 0 2 kDefaultGrowth 16 example_hash colliding 2 x00 4096 (fun _ => false) (fun n => 2 * n) (fun n => n) 256 ltac:(lia) page_4096 ltac:(lia) default_growth_ok example_members []).
    - apply set_repr_empty.
    - exact members_storable.
    - vm_compute. discriminate.
    - vm_compute. reflexivity.
    - intros mm s' _ Hs' _. exact Hs'.
    - done. }
  assert (exists n w, example_add_many example_members (World None (Small None)) = Ok n w) as (n & w & E) by (eexists _, _; vm_compute; reflexivity).
  pose proof (wp_Ok _ _ _ _ _ _ H E) as Hw. unfold example_state. rewrite E. exact Hw.
Qed.

Lemma set_object_refines_witness :
  contains 0 16 example_hash colliding 2 (str "12") (obj example_state) = Ret true /\
  wp (example_erase_many [str "a"; str "zz"])
    (fun n w' => exists ms', set_holds 0 16 example_hash colliding 4096 (obj w') ms' /\ without_all [str "a"; str "zz"] [str "a"; str "12"; str "b"] ms' /\ (3 = n + length ms')%nat)
    (fun e w' => e = MaxMemoryExceeded /\ ~ unlimited (mem example_state) /\
       exists ms', set_holds 0 16 example_hash colliding 4096 (obj w') ms' /\ without_some [str "a"; str "zz"] [str "a"; str "12"; str "b"] ms') example_state.
Proof.
  pose proof (set_object_refines 0 2 kDefaultGrowth 16 example_hash colliding 2 x00 4096 (fun _ => false) (fun n => 2 * n) true (fun n => n) 256 ltac:(lia) page_4096 ltac:(lia) default_growth_ok
    example_state [str "a"; str "12"; str "b"] example_holds) as (_ & H1 & _ & _ & H2 & _).
  split; [rewrite H1 by (split; [by eexists|by vm_compute]); by vm_compute|]. apply H2. repeat constructor; first [by eexists|by vm_compute].
Defined.

Lemma set_scan_complete_witness :
  NoDup [str "a"; str "12"; str "b"] /\ scan_rounds 0 16 4 1 (fun m => Nat.eqb (length m) 1) (obj example_state) 0 = Ret [str "a"; str "b"].
Proof. apply (set_scan_complete 0 16 example_hash colliding 2 x00 4096 ltac:(lia) _ _ 1 (fun m => Nat.eqb (length m) 1) example_holds). lia. Defined.

(** 70,000 bytes, more than a stored text can have. *)
Definition oversized_member : bytes := replicate (Z.to_nat 70000) x61.

Lemma oversized_erase_throws_witness : example_erase_many [oversized_member] example_state = Exn LengthError example_state.
Proof.
  destruct example_full as [f Hf].
  refine (proj1 (oversized_erase_throws 0 2 16 example_hash colliding 2 x00 4096 (fun _ => false) true (fun n => n) ltac:(lia) example_state f oversized_member _ Hf)).
  vm_compute. reflexivity.
Defined.
End examples.
