(* ===== verification/ScoreWidth.v ===== *)
(** * Scores of sorted sets

    Models [include/goblin/core/score_width.hpp] and the integer test of
    [include/goblin/core/score_format.hpp]: a score is a [double] outside, and is stored at
    the narrowest signed width that holds it exactly.  A [double] is its 64 bits, so that
    copying one to memory and back is the identity and comparing two is IEEE 754's, with the
    two zeros equal and the NaNs unordered. *)

From S2P Require Import Prelude Binary64 MemoryLimit.
From Stdlib Require Import ZArith Lia ZifyBool.

Local Open Scope Z_scope.

(** ** Doubles as bits *)

Module Float64.

Definition double_wf (x : Z) : Prop := 0 <= x < 2 ^ 64.
Definition signbit (x : Z) : bool := 2 ^ 63 <=? x.
Definition magnitude (x : Z) : Z := x mod 2 ^ 63.
Definition infinity : Z := 2047 * 2 ^ 52.
Definition isnan (x : Z) : bool := infinity <? magnitude x.

(** Numbers are ordered as their bits without the sign, negated under the sign. *)
Definition ord (x : Z) : Z := if signbit x then - magnitude x else magnitude x.
Definition eqb (x y : Z) : bool := negb (isnan x) && negb (isnan y) && (ord x =? ord y).
Definition ltb (x y : Z) : bool := negb (isnan x) && negb (isnan y) && (ord x <? ord y).

(** The value of a finite number as a multiple of [2 ^ -1074]. *)
Definition units (x : Z) : Z :=
  let e := magnitude x / 2 ^ 52 in
  let f := magnitude x mod 2 ^ 52 in
  let n := if e =? 0 then f else (2 ^ 52 + f) * 2 ^ (e - 1) in
  if signbit x then - n else n.

(** The number nearest to [n] units, ties to even: below [2 ^ 53] the bits are [n] itself, and
    a carry out of the fraction goes to the exponent. *)
Definition of_magnitude (n : Z) : Z :=
  if n <? 2 ^ 53 then n
  else let e := Z.log2 n - 52 in Z.min infinity (Double.round_even n (2 ^ e) + e * 2 ^ 52).

(** [static_cast<double>] of an integer. *)
Definition of_int (z : Z) : Z :=
  if z <? 0 then 2 ^ 63 + of_magnitude (- z * 2 ^ 1074) else of_magnitude (z * 2 ^ 1074).

(** [static_cast] to a signed integer of [width] bits: the fraction is cut off; undefined when
    the result is out of range. *)
Definition to_int (width : Z) (x : Z) : option Z :=
  if infinity <=? magnitude x then None
  else
    let z := Z.quot (units x) (2 ^ 1074) in
    if (- 2 ^ (width - 1) <=? z) && (z <? 2 ^ (width - 1)) then Some z else None.

Lemma magnitude_range x : 0 <= magnitude x < 2 ^ 63.
Proof. apply Z.mod_pos_bound. lia. Qed.

Lemma double_split x : double_wf x -> x = (if signbit x then 2 ^ 63 else 0) + magnitude x.
Proof.
  intros Hx. unfold signbit, magnitude. destruct (Z.leb_spec (2 ^ 63) x) as [H|H].
  - rewrite (Z.mod_eq x (2 ^ 63)) by lia. assert (x / 2 ^ 63 = 1) as ->; [|lia].
    unfold double_wf in Hx. symmetry. apply (Z.div_unique x (2 ^ 63) 1 (x - 2 ^ 63)); lia.
  - unfold double_wf in Hx. rewrite Z.mod_small; lia.
Qed.

(** Numbers that compare equal have the same bits, but for the zeros. *)
Lemma ord_inj x y : double_wf x -> double_wf y -> ord x = ord y -> x = y \/ (ord x = 0 /\ signbit x <> signbit y).
Proof.
  intros Hx Hy E. pose proof (double_split x Hx) as Ex. pose proof (double_split y Hy) as Ey. pose proof (magnitude_range x). pose proof (magnitude_range y).
  unfold ord in *. destruct (signbit x), (signbit y); [left; lia| | |left; lia]; right; (split; [lia|done]).
Qed.

Lemma of_magnitude_range n : 0 <= n -> 0 <= of_magnitude n <= infinity /\ (of_magnitude n = 0 -> n = 0).
Proof.
  intros Hn. unfold of_magnitude. destruct (Z.ltb_spec n (2 ^ 53)) as [H|H]; [unfold infinity; lia|].
  assert (He : 1 <= Z.log2 n - 52). { pose proof (Z.log2_le_mono (2 ^ 53) n H) as Hl. rewrite Z.log2_pow2 in Hl by lia. lia. }
  set (e := Z.log2 n - 52) in *. clearbody e. assert (Hp : 0 < 2 ^ e) by (apply Z.pow_pos_nonneg; lia).
  pose proof (Double.round_even_bound n (2 ^ e) Hp) as Hr. assert (0 <= Double.round_even n (2 ^ e)) by nia.
  unfold infinity. lia.
Qed.

Lemma of_int_wf z : double_wf (of_int z) /\ isnan (of_int z) = false /\ (ord (of_int z) = 0 -> signbit (of_int z) = false).
Proof.
  unfold of_int. set (n := if z <? 0 then - z * 2 ^ 1074 else z * 2 ^ 1074).
  assert (Hp : 0 < 2 ^ 1074) by (apply Z.pow_pos_nonneg; lia). assert (Hn : 0 <= n) by (unfold n; destruct (Z.ltb_spec z 0); nia).
  destruct (of_magnitude_range n Hn) as [Hr Hz]. unfold n in Hr, Hz. unfold infinity in Hr. destruct (Z.ltb_spec z 0) as [H|H].
  - set (k := of_magnitude _) in *. assert (Hm : magnitude (2 ^ 63 + k) = k). { unfold magnitude. rewrite Z.add_mod, Z.mod_same, Z.add_0_l, Z.mod_mod by lia. apply Z.mod_small. lia. }
    unfold double_wf, isnan, ord, infinity. rewrite Hm. assert (Hs : signbit (2 ^ 63 + k) = true) by (unfold signbit; lia). rewrite Hs. split_and!; [lia|lia|lia|]. intros E. exfalso. specialize (Hz ltac:(lia)). nia.
  - set (k := of_magnitude _) in *. assert (Hm : magnitude k = k) by (unfold magnitude; apply Z.mod_small; lia).
    unfold double_wf, isnan, ord, infinity. rewrite Hm. assert (Hs : signbit k = false) by (unfold signbit; lia). rewrite Hs. split_and!; [lia|lia|lia|done].
Qed.

(** Comparing equal to an integer is being it, but for the negative zero. *)
Lemma eqb_of_int z x : double_wf x -> eqb (of_int z) x = true -> (ord x = 0 -> signbit x = false) -> of_int z = x.
Proof.
  intros Hx E Hs. destruct (of_int_wf z) as (Hw & Hn & Hz). unfold eqb in E. apply andb_true_iff in E as [_ E%Z.eqb_eq].
  destruct (ord_inj _ _ Hw Hx E) as [|[H0 Hd]]; [done|]. rewrite (Hz H0), Hs in Hd by lia. done.
Qed.

(** The largest integer up to which every integer is a number: [2 ^ 53]. *)
Lemma units_bound x : magnitude x <= 1076 * 2 ^ 52 -> Z.abs (units x) <= 2 ^ 53 * 2 ^ 1074.
Proof.
  intros H. pose proof (magnitude_range x) as Hm. unfold units. set (g := magnitude x) in *. clearbody g.
  pose proof (Z.div_mod g (2 ^ 52) ltac:(lia)) as Hd. pose proof (Z.mod_pos_bound g (2 ^ 52) ltac:(lia)) as Hf.
  set (e := g / 2 ^ 52) in *. set (f := g mod 2 ^ 52) in *. clearbody e f.
  enough (0 <= (if e =? 0 then f else (2 ^ 52 + f) * 2 ^ (e - 1)) <= 2 ^ 53 * 2 ^ 1074) as HH by (destruct (signbit x); lia).
  destruct (Z.eqb_spec e 0) as [->|He].
  { assert (1 <= 2 ^ 1074) by (apply Z.lt_pred_le, Z.pow_pos_nonneg; lia). nia. }
  assert (0 < e) by lia. destruct (Z.lt_ge_cases e 1076) as [Hlt|Hge].
  - assert (Hp : 2 ^ (e - 1) <= 2 ^ 1074) by (apply Z.pow_le_mono_r; lia). assert (0 < 2 ^ (e - 1)) by (apply Z.pow_pos_nonneg; lia). nia.
  - assert (e = 1076) as -> by lia. assert (f = 0) as -> by lia. rewrite Z.add_0_r. change (1076 - 1) with (1 + 1074). rewrite (Z.pow_add_r 2 1 1074) by lia. nia.
Qed.

End Float64.

Import Float64.

(** ** Widths *)

Inductive ScoreWidth := I16 | I32 | F64.
#[global] Instance ScoreWidth_eq_dec : EqDecision ScoreWidth.
Proof. solve_decision. Defined.

(** [9'007'199'254'740'992.0] and its negation. *)
Definition kMaxExactInteger : Z := 0x4340000000000000.
Definition kMinExactInteger : Z := 0xC340000000000000.

(** [true] with the integer, or [false]. *)
Definition exact_integer_score (value : Z) : result (option Z) :=
  if ltb value kMinExactInteger || ltb kMaxExactInteger value then Ret None
  else if eqb value 0 && signbit value then Ret None
  else
    integer_value ← of_option (to_int 64 value);
    if negb (eqb (of_int integer_value) value) then Ret None else Ret (Some integer_value).

Definition score_fits (value : Z) (width : ScoreWidth) : result bool :=
  if bool_decide (width = F64) then Ret true
  else
    integer ← exact_integer_score value;
    match integer with
    | None => Ret false
    | Some integer =>
        if bool_decide (width = I16) then Ret ((-32768 <=? integer) && (integer <=? 32767))
        else Ret ((-2147483648 <=? integer) && (integer <=? 2147483647))
    end.

(** The next enumerator; there are two steps from the first to the last. *)
Definition next_width (width : ScoreWidth) : ScoreWidth := match width with I16 => I32 | I32 | F64 => F64 end.
Fixpoint widen_loop (fuel : nat) (value : Z) (width : ScoreWidth) : result ScoreWidth :=
  if bool_decide (width = F64) then Ret width
  else
    fits ← score_fits value width;
    if (fits : bool) then Ret width
    else match fuel with O => Undef | S fuel => widen_loop fuel value (next_width width) end.
Definition score_width_for (value : Z) (floor : ScoreWidth) : result ScoreWidth := widen_loop 2 value floor.

Definition score_width_name (width : ScoreWidth) : bytes := match width with I16 => str "i16" | I32 => str "i32" | F64 => str "f64" end.
Definition score_width_bytes (width : ScoreWidth) : nat := match width with I16 => 2 | I32 => 4 | F64 => 8 end.

(** A number stored at a width, as the unsigned integer its bytes spell, and read back. *)
Definition narrow (width : ScoreWidth) (score : Z) : option Z :=
  match width with
  | I16 => v ← to_int 16 score; Some (wrap 16 v)
  | I32 => v ← to_int 32 score; Some (wrap 32 v)
  | F64 => Some score
  end.
Definition as_signed (bits v : Z) : Z := if v <? 2 ^ (bits - 1) then v else v - 2 ^ bits.
Definition widen (width : ScoreWidth) (v : Z) : Z :=
  match width with I16 => of_int (as_signed 16 v) | I32 => of_int (as_signed 32 v) | F64 => v end.

(** ** What a width holds *)

(** A score of a sorted set: a number, never a NaN. *)
Definition number (x : Z) : Prop := double_wf x /\ isnan x = false.

Definition in_width (w : ScoreWidth) (z : Z) : bool :=
  match w with
  | I16 => (-32768 <=? z) && (z <=? 32767)
  | I32 => (-2147483648 <=? z) && (z <=? 2147483647)
  | F64 => true
  end.
Definition holds_at (w : ScoreWidth) (x : Z) : bool :=
  match w with
  | F64 => true
  | _ => match exact_integer_score x with Ret (Some z) => in_width w z | _ => false end
  end.
Definition width_index (w : ScoreWidth) : nat := match w with I16 => 0 | I32 => 1 | F64 => 2 end.
Definition width_from (floor : ScoreWidth) (x : Z) : ScoreWidth :=
  if holds_at floor x then floor else if holds_at (next_width floor) x then next_width floor else F64.

Lemma number_of_int z : number (of_int z).
Proof. destruct (of_int_wf z) as (H1 & H2 & _). by split. Qed.

Lemma exact_kinds : isnan kMinExactInteger = false /\ isnan kMaxExactInteger = false /\ ord kMinExactInteger = - (1076 * 2 ^ 52) /\ ord kMaxExactInteger = 1076 * 2 ^ 52.
Proof. by vm_compute. Qed.

(** The test is defined on every number, and what it accepts is that integer. *)
Lemma exact_defined x : number x -> exists o, exact_integer_score x = Ret o.
Proof.
  intros [Hw Hn]. unfold exact_integer_score. destruct exact_kinds as (Hn1 & Hn2 & Ho1 & Ho2). unfold ltb. rewrite Hn, Hn1, Hn2, Ho1, Ho2. cbn [negb andb].
  destruct (_ || _) eqn:E; [by eauto|]. destruct (eqb x 0 && signbit x); [by eauto|].
  assert (Hm : magnitude x <= 1076 * 2 ^ 52). { unfold ord in E. pose proof (magnitude_range x). destruct (signbit x); lia. }
  assert (Hq : exists z, to_int 64 x = Some z).
  { unfold to_int. replace (infinity <=? magnitude x) with false by (unfold infinity; lia). cbv zeta.
    pose proof (units_bound x Hm) as Hu. assert (Hp : 0 < 2 ^ 1074) by (apply Z.pow_pos_nonneg; lia).
    assert (Hz : Z.abs (Z.quot (units x) (2 ^ 1074)) <= 2 ^ 53).
    { rewrite <- Z.quot_abs, (Z.abs_eq (2 ^ 1074)) by lia. rewrite Z.quot_div_nonneg by lia. apply Z.div_le_upper_bound; lia. }
    eexists. by rewrite (proj2 (andb_true_iff _ _)) by lia. }
  destruct Hq as [z ->]. cbn. destruct (negb _); by eauto.
Qed.

Lemma exact_accepts x z : number x -> exact_integer_score x = Ret (Some z) -> of_int z = x /\ to_int 64 x = Some z.
Proof.
  intros [Hw Hn]. unfold exact_integer_score. destruct (_ || _); [done|]. destruct (eqb x 0 && signbit x) eqn:E0; [done|].
  destruct (to_int 64 x) as [y|]; cbn; [|done]. destruct (eqb (of_int y) x) eqn:E; cbn; [|done]. intros [= ->]. split; [|done].
  apply eqb_of_int; [done..|]. intros Ho. unfold eqb in E0. rewrite Hn, Ho in E0. cbn in E0. done.
Qed.

Lemma fits_spec x w : number x -> score_fits x w = Ret (holds_at w x).
Proof.
  intros Hx. unfold score_fits, holds_at. destruct (exact_defined x Hx) as [o ->]. destruct w; cbn; [| |done]; destruct o; done.
Qed.

Lemma width_for_spec x floor : number x -> score_width_for x floor = Ret (width_from floor x).
Proof.
  intros Hx. unfold score_width_for, width_from. destruct floor; cbn -[holds_at score_fits bool_decide]; rewrite ?fits_spec by done; cbn -[holds_at]; by repeat case_match.
Qed.

Lemma in_width_mono w w' z : (width_index w <= width_index w')%nat -> in_width w z = true -> in_width w' z = true.
Proof. destruct w, w'; cbn; lia. Qed.

Lemma holds_mono w w' x : (width_index w <= width_index w')%nat -> holds_at w x = true -> holds_at w' x = true.
Proof.
  intros Hw H. unfold holds_at in *. destruct w', w; try done; try (cbn in Hw; lia);
    (destruct (exact_integer_score x) as [[z|]| |]; [|done..]); by apply (in_width_mono _ _ _ Hw).
Qed.

Lemma width_from_holds floor x : holds_at (width_from floor x) x = true.
Proof. unfold width_from. destruct (holds_at floor x) eqn:E; [done|]. by destruct (holds_at (next_width floor) x) eqn:E'. Qed.

Lemma width_from_ge floor x : (width_index floor <= width_index (width_from floor x))%nat.
Proof. unfold width_from. destruct (holds_at floor x); [done|]. destruct (holds_at (next_width floor) x); destruct floor; cbn; lia. Qed.

(** Widening goes only as far as it must. *)
Lemma width_from_least floor w x : (width_index floor <= width_index w)%nat -> holds_at w x = true -> (width_index (width_from floor x) <= width_index w)%nat.
Proof.
  intros Hf Hw. unfold width_from. destruct (holds_at floor x) eqn:E; [done|]. destruct (holds_at (next_width floor) x) eqn:E'.
  - destruct (decide (floor = w)) as [->|]; [congruence|]. destruct floor, w; cbn in *; lia || done.
  - destruct floor, w; cbn in *; try lia; congruence.
Qed.

(** A number that fits a width is read back as it was. *)
Lemma as_signed_wrap bits z : 0 < bits -> - 2 ^ (bits - 1) <= z < 2 ^ (bits - 1) -> as_signed bits (wrap bits z) = z.
Proof.
  intros Hb Hz. unfold as_signed, wrap. assert (Hp : 2 ^ bits = 2 * 2 ^ (bits - 1)) by (rewrite <- Z.pow_succ_r by lia; f_equal; lia).
  destruct (Z.lt_ge_cases z 0) as [Hn|Hn].
  - rewrite <- (Z.mod_unique z (2 ^ bits) (-1) (z + 2 ^ bits)) by lia. replace (_ <? _) with false by lia. lia.
  - rewrite Z.mod_small by lia. replace (_ <? _) with true by lia. done.
Qed.

Lemma to_int_narrow bits bits' x z : to_int bits x = Some z -> - 2 ^ (bits' - 1) <= z < 2 ^ (bits' - 1) -> to_int bits' x = Some z.
Proof.
  unfold to_int. destruct (infinity <=? magnitude x); [done|]. cbv zeta. set (q := Z.quot _ _). clearbody q. destruct (_ && _); [|done].
  intros [= ->] Hz. by rewrite (proj2 (andb_true_iff _ _)) by lia.
Qed.

Lemma narrow_widen x w : number x -> holds_at w x = true -> exists v, narrow w x = Some v /\ 0 <= v < 2 ^ (8 * Z.of_nat (score_width_bytes w)) /\ widen w v = x.
Proof.
  intros Hx H. unfold holds_at in H. destruct w; [| |by exists x; split_and!; [done|apply Hx|apply Hx|]].
  all: destruct (exact_integer_score x) as [[z|]| |] eqn:E; [|done..]; destruct (exact_accepts x z Hx E) as [Hi Ht]; cbn [in_width] in H.
  - exists (wrap 16 z). cbn [narrow]. rewrite (to_int_narrow 64 16 x z Ht) by (cbn; lia). split_and!; [done|apply wrap_range; lia..|]. cbn [widen]. by rewrite as_signed_wrap by (cbn; lia).
  - exists (wrap 32 z). cbn [narrow]. rewrite (to_int_narrow 64 32 x z Ht) by (cbn; lia). split_and!; [done|apply wrap_range; lia..|]. cbn [widen]. by rewrite as_signed_wrap by (cbn; lia).
Qed.

(** ** Arrays of scores

    The variant of vectors: its index is the width, an element the bits of an [int16_t], an
    [int32_t] or a [double]. *)

Record ScoreArray := mkScores { width_ : ScoreWidth; data_ : vec Z }.
Definition empty_scores : ScoreArray := mkScores I16 empty_vec.

Section ScoreArray.
(** The capacity a full [std::vector] of [n] elements grows to when one is pushed. *)
Variable vector_growth : Z -> Z.

Abbreviation Op A := (M (world ScoreArray) A).

Definition scores_size (a : ScoreArray) : nat := vsize (data_ a).
Definition scores_allocated (a : ScoreArray) : Z := capacity (data_ a) * Z.of_nat (score_width_bytes (width_ a)).
Definition score_at (a : ScoreArray) (index : nat) : option Z := widen (width_ a) <$> elems (data_ a) !! index.

Definition on_data {A} : M (world (vec Z)) A -> Op A := zoom data_ (fun v a => mkScores (width_ a) v).

Definition scores_reserve (count : Z) : Op unit :=
  a ← obj_get id;
  on_data (reserve_memory_vector (Z.of_nat (score_width_bytes (width_ a))) count).

Definition scores_pop_back : Op unit :=
  a ← obj_get id;
  require (0 <? scores_size a)%nat;;
  obj_mod (fun a => mkScores (width_ a) (with_elems (removelast (elems (data_ a))) (data_ a))).

Definition copy_within (dst src : nat) : Op unit :=
  a ← obj_get id;
  v ← need (elems (data_ a) !! src);
  require (dst <? scores_size a)%nat;;
  obj_mod (fun a => mkScores (width_ a) (with_elems (<[dst := v]> (elems (data_ a))) (data_ a))).

Definition to_vector (target : ScoreWidth) : Op (vec Z) :=
  a ← obj_get id;
  let count := Z.of_nat (scores_size a) in
  let next_bytes := count * Z.of_nat (score_width_bytes target) in
  let old_bytes := scores_allocated a in
  when (old_bytes <? next_bytes) (ensure_memory_growth (next_bytes - old_bytes));;
  out ← need (mapM (fun v => narrow target (widen (width_ a) v)) (elems (data_ a)));
  mret (Vec out count).

Definition rebuild_to (target : ScoreWidth) : Op unit :=
  a ← obj_get id;
  if bool_decide (target = width_ a) then mret tt
  else out ← to_vector target; obj_mod (fun _ => mkScores target out).

Definition widen_for (value : Z) : Op unit :=
  a ← obj_get id;
  fits ← lift (score_fits value (width_ a));
  if (fits : bool) then mret tt
  else target ← lift (score_width_for value (width_ a)); rebuild_to target.

Definition reserve_push (value : Z) : Op unit :=
  widen_for value;;
  a ← obj_get id;
  on_data (reserve_memory_vector_for_push (Z.of_nat (score_width_bytes (width_ a))) 8).

Definition scores_push_back (value : Z) : Op unit :=
  reserve_push value;;
  a ← obj_get id;
  v ← need (narrow (width_ a) value);
  let n := Z.of_nat (scores_size a) in
  obj_mod (fun a => mkScores (width_ a)
    (Vec (elems (data_ a) ++ [v]) (if n <? capacity (data_ a) then capacity (data_ a) else vector_growth n))).

Definition scores_set (index : nat) (value : Z) : Op unit :=
  widen_for value;;
  a ← obj_get id;
  v ← need (narrow (width_ a) value);
  require (index <? scores_size a)%nat;;
  obj_mod (fun a => mkScores (width_ a) (with_elems (<[index := v]> (elems (data_ a))) (data_ a))).

(** *** The array holds the scores it was given *)

(** An element is a number stored at the width. *)
Definition stored_at (w : ScoreWidth) (v x : Z) : Prop := number x /\ holds_at w x = true /\ narrow w x = Some v.

Record scores_repr (a : ScoreArray) (xs : list Z) : Prop := mkScoresRepr {
  sc_elems : Forall2 (stored_at (width_ a)) (elems (data_ a)) xs;
  sc_cap : Z.of_nat (length xs) <= capacity (data_ a) <= 2 ^ 34;
}.

Lemma stored_widen w v x : stored_at w v x -> widen w v = x.
Proof. intros (Hx & Hh & Hn). destruct (narrow_widen x w Hx Hh) as (v' & Hv & _ & Hw). congruence. Qed.

Lemma scores_at_spec a xs i : scores_repr a xs -> score_at a i = xs !! i.
Proof.
  intros [He _]. unfold score_at. destruct (xs !! i) as [x|] eqn:E.
  - destruct (Forall2_lookup_r _ _ _ _ _ He E) as (v & -> & Hv). cbn. by rewrite (stored_widen _ _ _ Hv).
  - apply lookup_ge_None in E. rewrite (proj2 (lookup_ge_None _ _)); [done|]. by rewrite (Forall2_length _ _ _ He).
Qed.

Lemma scores_size_spec a xs : scores_repr a xs -> scores_size a = length xs.
Proof. intros [He _]. unfold scores_size, vsize. by apply Forall2_length in He. Qed.

(** The scores that fit a width can be stored at it. *)
Lemma restore_elems w target vs xs :
  Forall2 (stored_at w) vs xs -> Forall (fun x => holds_at target x = true) xs ->
  exists vs', mapM (fun v => narrow target (widen w v)) vs = Some vs' /\ Forall2 (stored_at target) vs' xs.
Proof.
  intros Hf. induction Hf as [|v x vs xs Hv _ IH]; intros Hh; [by exists []|]. apply Forall_cons in Hh as [Hx Hh]. destruct (IH Hh) as (vs' & E & Hf').
  cbn [mapM]. rewrite (stored_widen _ _ _ Hv). destruct (narrow_widen x target (proj1 Hv) Hx) as (v' & Hn & _). exists (v' :: vs').
  rewrite Hn, E. cbn. split; [done|]. constructor; [|done]. split_and!; [apply Hv|done|done].
Qed.

Lemma wp_rebuild_to target xs (Q : unit -> world ScoreArray -> Prop) E w :
  scores_repr (obj w) xs -> Forall (fun x => holds_at target x = true) xs ->
  (forall b a, (unlimited (mem w) -> b = mem w) -> scores_repr a xs -> width_ a = target -> Q tt (World b a)) ->
  (~ unlimited (mem w) -> forall b, E MaxMemoryExceeded (World b (obj w))) ->
  wp (rebuild_to target) Q E w.
Proof.
  intros Hr Hh HQ HE. unfold rebuild_to. apply wp_bind, wp_obj_get. unfold id. case_bool_decide as Ht.
  { apply wp_ret. destruct w as [b a]. by apply HQ. }
  destruct (restore_elems _ _ _ _ (sc_elems _ _ Hr) Hh) as (vs' & Em & Hf). pose proof (Forall2_length _ _ _ Hf) as Hl.
  apply wp_bind. unfold to_vector. apply wp_bind, wp_obj_get. unfold id. apply wp_bind.
  assert (Hgo : forall b, (unlimited (mem w) -> b = mem w) ->
    wp (out ← need (mapM (fun v => narrow target (widen (width_ (obj w)) v)) (elems (data_ (obj w)))); mret (Vec out (Z.of_nat (scores_size (obj w)))))
       (fun out w => wp (obj_mod (fun _ => mkScores target out)) Q E w) E (World b (obj w))).
  { intros b Hb. eapply wp_bind, wp_need; [exact Em|]. apply wp_ret, wp_obj_mod. cbn. apply HQ; [done| |done].
    rewrite (scores_size_spec _ _ Hr). split; [done|]. cbn. pose proof (sc_cap _ _ Hr). lia. }
  apply wp_when.
  - intros _. by apply wp_ensure_memory_growth.
  - intros _. destruct w as [b a]. by apply (Hgo b).
Qed.

Lemma holds_all w target vs xs : (width_index w <= width_index target)%nat -> Forall2 (stored_at w) vs xs -> Forall (fun x => holds_at target x = true) xs.
Proof. intros Hw Hf. induction Hf as [|v x vs xs (_ & Hx & _) _ IH]; constructor; [by apply (holds_mono w)|done]. Qed.

(** What an operation that only widens or reserves leaves: the same scores, on success and
    under an exception, which is the memory limit's. *)
Lemma wp_widen_for value xs (Q : unit -> world ScoreArray -> Prop) E w :
  scores_repr (obj w) xs -> number value ->
  (forall b a, (unlimited (mem w) -> b = mem w) -> scores_repr a xs -> width_ a = width_from (width_ (obj w)) value -> Q tt (World b a)) ->
  (~ unlimited (mem w) -> forall b, E MaxMemoryExceeded (World b (obj w))) ->
  wp (widen_for value) Q E w.
Proof.
  intros Hr Hv HQ HE. unfold widen_for. apply wp_bind, wp_obj_get. unfold id. eapply wp_bind, wp_lift; [by apply fits_spec|].
  pose proof (width_from_ge (width_ (obj w)) value) as Hge. destruct (holds_at (width_ (obj w)) value) eqn:Eh.
  - apply wp_ret. destruct w as [b a]. apply HQ; [done|done|]. unfold width_from. cbn in Eh |- *. by rewrite Eh.
  - eapply wp_bind, wp_lift; [by apply width_for_spec|]. apply (wp_rebuild_to _ xs); [done| |done|done]. apply (holds_all (width_ (obj w)) _ (elems (data_ (obj w)))); [done|apply Hr].
Qed.

Lemma width_bytes_range w : 0 < Z.of_nat (score_width_bytes w) <= 8.
Proof. destruct w; cbn; lia. Qed.

Lemma wp_reserve_push value xs (Q : unit -> world ScoreArray -> Prop) E w :
  scores_repr (obj w) xs -> number value -> Z.of_nat (length xs) < 2 ^ 32 ->
  (forall b a, (unlimited (mem w) -> b = mem w) -> scores_repr a xs -> width_ a = width_from (width_ (obj w)) value -> Z.of_nat (length xs) < capacity (data_ a) -> Q tt (World b a)) ->
  (~ unlimited (mem w) -> forall b a, scores_repr a xs -> E MaxMemoryExceeded (World b a)) ->
  wp (reserve_push value) Q E w.
Proof.
  intros Hr Hv Hl HQ HE. unfold reserve_push. apply wp_bind. apply (wp_widen_for value xs); [done|done| |by intros Hu b; apply HE].
  intros b a Hb Ha Hw. apply wp_bind, wp_obj_get. unfold id. cbn [obj]. pose proof (width_bytes_range (width_ a)) as Hs. pose proof (scores_size_spec _ _ Ha) as Hsz. destruct Ha as [He Hc].
  pose proof (push_target_small (Z.of_nat (score_width_bytes (width_ a))) 8 (capacity (data_ a))) as Hp. pose proof (push_target_grows 8 (capacity (data_ a))) as Hg.
  unfold scores_size in Hsz. unfold on_data. apply wp_zoom. cbn [obj mem]. apply wp_reserve_push_small; cbn [obj mem]; rewrite ?Hsz; [lia|lia| |].
  - intros b' c Hb' Hc1 Hc2. assert (Hc' : Z.of_nat (length xs) < c <= 2 ^ 34).
    { unfold push_target in *. revert Hc1 Hc2 Hg. repeat case_bool; lia. }
    apply HQ; [intros Hu; rewrite Hb'; [by apply Hb|by rewrite Hb]|split; cbn; [done|lia]|done|cbn; lia].
  - intros Hu b'. apply HE; [intros Hm; apply Hu; by rewrite Hb|by split].
Qed.

Lemma wp_scores_push_back value xs (Q : unit -> world ScoreArray -> Prop) E w :
  scores_repr (obj w) xs -> number value -> Z.of_nat (length xs) < 2 ^ 32 ->
  (forall b a, (unlimited (mem w) -> b = mem w) -> scores_repr a (xs ++ [value]) -> Q tt (World b a)) ->
  (~ unlimited (mem w) -> forall b a, scores_repr a xs -> E MaxMemoryExceeded (World b a)) ->
  wp (scores_push_back value) Q E w.
Proof.
  intros Hr Hv Hl HQ HE. unfold scores_push_back. apply wp_bind. apply (wp_reserve_push value xs); [done|done|done| |done].
  intros b a Hb Ha Hw Hcap. apply wp_bind, wp_obj_get. unfold id. cbn [obj]. assert (Hh : holds_at (width_ a) value = true) by (rewrite Hw; apply width_from_holds).
  destruct (narrow_widen value (width_ a) Hv Hh) as (v & Hn & _). eapply wp_bind, wp_need; [exact Hn|]. apply wp_obj_mod. cbn [obj mem].
  apply HQ; [done|]. rewrite (scores_size_spec _ _ Ha). replace (_ <? _) with true by lia. destruct Ha as [He Hc]. split; cbn.
  - apply Forall2_app; [done|]. by repeat constructor; try apply Hv.
  - rewrite length_app. cbn. lia.
Qed.

Lemma wp_scores_set index value xs (Q : unit -> world ScoreArray -> Prop) E w :
  scores_repr (obj w) xs -> number value -> (index < length xs)%nat ->
  (forall b a, (unlimited (mem w) -> b = mem w) -> scores_repr a (<[index := value]> xs) -> Q tt (World b a)) ->
  (~ unlimited (mem w) -> forall b, E MaxMemoryExceeded (World b (obj w))) ->
  wp (scores_set index value) Q E w.
Proof.
  intros Hr Hv Hi HQ HE. unfold scores_set. apply wp_bind. apply (wp_widen_for value xs); [done|done| |done].
  intros b a Hb Ha Hw. apply wp_bind, wp_obj_get. unfold id. cbn [obj]. assert (Hh : holds_at (width_ a) value = true) by (rewrite Hw; apply width_from_holds).
  destruct (narrow_widen value (width_ a) Hv Hh) as (v & Hn & _). eapply wp_bind, wp_need; [exact Hn|]. rewrite (scores_size_spec _ _ Ha).
  apply wp_bind, wp_require; [lia|]. apply wp_obj_mod. cbn [obj mem]. apply HQ; [done|]. destruct Ha as [He Hc]. split; cbn.
  - apply Forall2_insert; [done|]. by repeat constructor; try apply Hv.
  - by rewrite length_insert.
Qed.

Lemma wp_scores_pop_back x xs (Q : unit -> world ScoreArray -> Prop) E w :
  scores_repr (obj w) (xs ++ [x]) -> (forall a, scores_repr a xs -> Q tt (World (mem w) a)) -> wp scores_pop_back Q E w.
Proof.
  intros Hr HQ. unfold scores_pop_back. apply wp_bind, wp_obj_get. unfold id. rewrite (scores_size_spec _ _ Hr), length_app. apply wp_bind, wp_require; [apply Nat.ltb_lt; cbn; lia|].
  apply wp_obj_mod, HQ. destruct Hr as [He Hc]. rewrite length_app in Hc. apply Forall2_app_inv_r in He as (l1 & l2 & H1 & H2 & E'). apply Forall2_cons_inv_r in H2 as (v & l3 & _ & H3 & ->).
  apply Forall2_nil_inv_r in H3 as ->. split; cbn; [|cbn in Hc; lia]. by rewrite E', removelast_last.
Qed.

Lemma wp_copy_within dst src x xs (Q : unit -> world ScoreArray -> Prop) E w :
  scores_repr (obj w) xs -> xs !! src = Some x -> (dst < length xs)%nat ->
  (forall a, scores_repr a (<[dst := x]> xs) -> Q tt (World (mem w) a)) -> wp (copy_within dst src) Q E w.
Proof.
  intros Hr Hx Hd HQ. unfold copy_within. apply wp_bind, wp_obj_get. unfold id. rewrite (scores_size_spec _ _ Hr). destruct Hr as [He Hc].
  destruct (Forall2_lookup_r _ _ _ _ _ He Hx) as (v & Ev & Hv). eapply wp_bind, wp_need; [exact Ev|]. apply wp_bind, wp_require; [lia|].
  apply wp_obj_mod, HQ. split; cbn; [by apply Forall2_insert|by rewrite length_insert].
Qed.
End ScoreArray.
