(* ===== verification/ZsetListpack.v ===== *)
(** * Compact sorted sets

    Models [include/goblin/core/compact_listpack.hpp]: a sorted set in one blob, a header with
    the length of the entries, their number and the width of their scores, then the entries,
    each the length of its member, the score, the member and the length again, readable from
    behind.  The entries are kept in the order of score and member.  As in [ListListpack],
    every access is a [load] or a [store] of the bytes and [junk] is the content of fresh
    memory.  A width byte that is none of the enumerators is undefined. *)

From stdpp Require Import sorting.
From S2P Require Import Prelude ScoreWidth.
From Stdlib Require Import ZArith Lia ZifyBool.

Import Float64.

Local Open Scope Z_scope.

(** ** The order of entries *)

(** [operator<] of [std::string_view]: the bytes as unsigned characters, then the lengths. *)
Fixpoint bytes_ltb (a b : bytes) : bool :=
  match a, b with
  | _, [] => false
  | [], _ :: _ => true
  | x :: a, y :: b => if u8 x <? u8 y then true else if u8 y <? u8 x then false else bytes_ltb a b
  end.

Definition less_than (score_a : Z) (member_a : bytes) (score_b : Z) (member_b : bytes) : bool :=
  ltb score_a score_b || (eqb score_a score_b && bytes_ltb member_a member_b).

(** ** The blob *)

Definition kCompactHeaderBytes : nat := 8.
Definition kCompactMaxMemberLen : Z := 128 + 0x7FFF.
Definition kCompactMaxBlobBytes : Z := 0xFFFF.
Definition kCompactWireHeaderBytes : Z := 4.

(** The pointer [p_]. *)
Definition CompactListpack : Type := option bytes.
Definition cmem (p : CompactListpack) : bytes := default [] p.

Record CompactHeader := mkCompactHeader { clen : Z; ccount : Z; cwidth : ScoreWidth }.
Record ZAddResult := mkZAdd { changed : bool; znew_full : bool; existed : bool }.

(** [has_prev] with [prev_score] and [prev_member], and the same for the next entry, are
    optional entries; [off] is meaningful when [found]. *)
Record LocateResult := mkLocate {
  found : bool;
  off_ : nat;
  insert_off : nat;
  old_score : Z;
  prev_ : option (Z * bytes);
  next_ : option (Z * bytes);
}.

Definition width_of_byte (b : Z) : option ScoreWidth :=
  if b =? 0 then Some I16 else if b =? 1 then Some I32 else if b =? 2 then Some F64 else None.

Definition unpack_compact (p : CompactListpack) : result CompactHeader :=
  match p with
  | None => Ret (mkCompactHeader 0 0 I16)
  | Some m =>
      len ← load_le 4 0 m;
      count ← load_le 2 4 m;
      byte ← load_u8 6 m;
      w ← of_option (width_of_byte byte);
      Ret (mkCompactHeader len count w)
  end.

Definition write_compact_header (len_bytes n : Z) (w : ScoreWidth) (m : bytes) : result bytes :=
  m ← store 0 (le_bytes 4 len_bytes) m;
  m ← store 4 (le_bytes 2 n) m;
  m ← store 6 [b8 (Z.of_nat (width_index w))] m;
  store 7 [b8 0] m.

Definition len_size (member_len : nat) : nat := if (member_len <=? 128)%nat then 1 else 2.
Definition element_size (member_len : nat) (w : ScoreWidth) : nat := 2 * len_size member_len + score_width_bytes w + member_len.

(** The bytes [encode_len] and [encode_backlen] write. *)
Definition encode_len (member_len : nat) : bytes :=
  if (member_len <=? 128)%nat then [b8 (Z.of_nat member_len - 1)]
  else
    let number := Z.of_nat member_len - 128 in
    [b8 (Z.lor 0x80 (Z.shiftr number 8)); b8 (Z.land number 0xFF)].
Definition encode_backlen (member_len : nat) : bytes := rev (encode_len member_len).

(** The bytes of the length and the length. *)
Definition decode_len (p : nat) (m : bytes) : result (nat * nat) :=
  u0 ← load_u8 p m;
  if Z.land u0 0x80 =? 0 then Ret (1%nat, (Z.to_nat u0 + 1)%nat)
  else
    u1 ← load_u8 (p + 1) m;
    Ret (2%nat, (Z.to_nat (Z.lor (Z.shiftl (Z.land u0 0x7F) 8) u1) + 128)%nat).

Definition read_score_at (p : nat) (w : ScoreWidth) (m : bytes) : result Z :=
  v ← load_le (score_width_bytes w) p m; Ret (widen w v).
Definition write_score (p : nat) (w : ScoreWidth) (score : Z) (m : bytes) : result bytes :=
  v ← of_option (narrow w score);
  store p (le_bytes (score_width_bytes w) v) m.

(** The lines the loops share: the member at an offset and the offset behind its entry; the
    score as well. *)
Definition member_at (w : ScoreWidth) (off : nat) (m : bytes) : result (bytes * nat) :=
  '(len_bytes, member_len) ← decode_len (kCompactHeaderBytes + off) m;
  let member_off := (off + len_bytes + score_width_bytes w)%nat in
  member ← load (kCompactHeaderBytes + member_off) member_len m;
  Ret (member, (member_off + member_len + len_bytes)%nat).

Definition score_at_element (w : ScoreWidth) (off : nat) (m : bytes) : result Z :=
  '(len_bytes, _) ← decode_len (kCompactHeaderBytes + off) m;
  read_score_at (kCompactHeaderBytes + off + len_bytes) w m.

Definition element_at (w : ScoreWidth) (off : nat) (m : bytes) : result (Z * bytes * nat) :=
  s ← score_at_element w off m;
  '(member, next) ← member_at w off m;
  Ret (s, member, next).

(** ** Reading *)

Fixpoint find_loop (n : nat) (w : ScoreWidth) (member : bytes) (off : nat) (m : bytes) : result (option nat) :=
  match n with
  | O => Ret None
  | S n =>
      '(cur, next) ← member_at w off m;
      if bool_decide (cur = member) then Ret (Some off) else find_loop n w member next m
  end.
Definition find_member (member : bytes) (hdr : CompactHeader) (m : bytes) : result (option nat) :=
  find_loop (Z.to_nat (ccount hdr)) (cwidth hdr) member 0 m.

Fixpoint rank_loop (n i : nat) (w : ScoreWidth) (member : bytes) (off : nat) (m : bytes) : result (option nat) :=
  match n with
  | O => Ret None
  | S n =>
      '(cur, next) ← member_at w off m;
      if bool_decide (cur = member) then Ret (Some i) else rank_loop n (S i) w member next m
  end.

(** What the callback of [for_each] and [for_range] receives. *)
Fixpoint elements_from (n : nat) (w : ScoreWidth) (off : nat) (m : bytes) : result (list (Z * bytes)) :=
  match n with
  | O => Ret []
  | S n =>
      '(s, member, next) ← element_at w off m;
      rest ← elements_from n w next m;
      Ret ((s, member) :: rest)
  end.

Fixpoint position_loop (pos : nat) (w : ScoreWidth) (off : nat) (m : bytes) : result nat :=
  match pos with
  | O => Ret off
  | S pos =>
      '(len_bytes, member_len) ← decode_len (kCompactHeaderBytes + off) m;
      position_loop pos w (off + (2 * len_bytes + score_width_bytes w + member_len)) m
  end.
Definition offset_of_position (pos : nat) (hdr : CompactHeader) (m : bytes) : result nat := position_loop pos (cwidth hdr) 0 m.

(** Subtraction of sizes; below zero it would leave the blob. *)
Definition back_by (end_ n : nat) : result nat := if (n <=? end_)%nat then Ret (end_ - n)%nat else Undef.

Definition prev_element_start (end_ : nat) (hdr : CompactHeader) (m : bytes) : result nat :=
  last ← load_u8 (kCompactHeaderBytes + end_ - 1) m;
  if Z.land last 0x80 =? 0 then back_by end_ (2 * 1 + score_width_bytes (cwidth hdr) + (Z.to_nat last + 1))
  else
    before ← load_u8 (kCompactHeaderBytes + end_ - 2) m;
    let number := Z.lor (Z.shiftl (Z.land last 0x7F) 8) before in
    back_by end_ (2 * 2 + score_width_bytes (cwidth hdr) + (Z.to_nat number + 128)).

(** The two loops of the reverse range. *)
Fixpoint skip_back (first end_ : nat) (hdr : CompactHeader) (m : bytes) : result nat :=
  match first with
  | O => Ret end_
  | S first => if (end_ =? 0)%nat then Ret end_ else end_ ← prev_element_start end_ hdr m; skip_back first end_ hdr m
  end.
Fixpoint elements_back (n end_ : nat) (hdr : CompactHeader) (m : bytes) : result (list (Z * bytes)) :=
  match n with
  | O => Ret []
  | S n =>
      if (end_ =? 0)%nat then Ret []
      else
        start ← prev_element_start end_ hdr m;
        '(s, member, _) ← element_at (cwidth hdr) start m;
        rest ← elements_back n start hdr m;
        Ret ((s, member) :: rest)
  end.

Definition zsize (p : CompactListpack) : result Z := hdr ← unpack_compact p; Ret (ccount hdr).
Definition blob_bytes (p : CompactListpack) : result Z := hdr ← unpack_compact p; Ret (kCompactWireHeaderBytes + clen hdr).
Definition zallocated_bytes (p : CompactListpack) : result Z :=
  match p with None => Ret 0 | Some _ => hdr ← unpack_compact p; Ret (Z.of_nat kCompactHeaderBytes + clen hdr) end.

Definition score (member : bytes) (p : CompactListpack) : result (option Z) :=
  hdr ← unpack_compact p;
  off ← find_member member hdr (cmem p);
  match off with
  | None => Ret None
  | Some off => s ← score_at_element (cwidth hdr) off (cmem p); Ret (Some s)
  end.

Definition rank (member : bytes) (p : CompactListpack) : result (option nat) :=
  hdr ← unpack_compact p;
  rank_loop (Z.to_nat (ccount hdr)) 0 (cwidth hdr) member 0 (cmem p).

Definition for_each (p : CompactListpack) : result (list (Z * bytes)) :=
  hdr ← unpack_compact p;
  elements_from (Z.to_nat (ccount hdr)) (cwidth hdr) 0 (cmem p).

Definition for_range (first count_n : nat) (reverse : bool) (p : CompactListpack) : result (list (Z * bytes)) :=
  if (count_n =? 0)%nat then Ret []
  else
    hdr ← unpack_compact p;
    if negb reverse then
      off ← offset_of_position first hdr (cmem p);
      elements_from count_n (cwidth hdr) off (cmem p)
    else
      end_ ← skip_back first (Z.to_nat (clen hdr)) hdr (cmem p);
      elements_back count_n end_ hdr (cmem p).

(** ** Writing *)

Definition sort_order_unchanged (new_score : Z) (member : bytes) (loc : LocateResult) : bool :=
  match prev_ loc with
  | Some (prev_score, prev_member) =>
      negb (ltb new_score prev_score) && negb (eqb prev_score new_score && negb (bytes_ltb prev_member member))
  | None => true
  end &&
  match next_ loc with
  | Some (next_score, next_member) =>
      negb (ltb next_score new_score) && negb (eqb new_score next_score && negb (bytes_ltb member next_member))
  | None => true
  end.

(** [placed] is [insert_placed] with [insert_off]. *)
Fixpoint locate_loop (n : nat) (member : bytes) (score : Z) (w : ScoreWidth) (off : nat) (prev : option (Z * bytes)) (placed : option nat) (m : bytes) : result LocateResult :=
  match n with
  | O => Ret (mkLocate false 0 (default off placed) 0 None None)
  | S n =>
      '(s, cur, next) ← element_at w off m;
      let placed := match placed with Some _ => placed | None => if less_than score member s cur then Some off else None end in
      if bool_decide (cur = member) then
        following ← (if (n =? 0)%nat then Ret None else '(ns, nm, _) ← element_at w next m; Ret (Some (ns, nm)));
        Ret (mkLocate true off (default 0%nat placed) s prev following)
      else locate_loop n member score w next (Some (s, cur)) placed m
  end.
Definition locate (member : bytes) (score : Z) (hdr : CompactHeader) (m : bytes) : result LocateResult :=
  locate_loop (Z.to_nat (ccount hdr)) member score (cwidth hdr) 0 None None m.

Fixpoint insert_loop (n : nat) (w : ScoreWidth) (score : Z) (member : bytes) (off : nat) (m : bytes) : result nat :=
  match n with
  | O => Ret off
  | S n =>
      '(s, cur, next) ← element_at w off m;
      if less_than score member s cur then Ret off else insert_loop n w score member next m
  end.
Definition insert_offset (score : Z) (member : bytes) (p : CompactListpack) : result nat :=
  hdr ← unpack_compact p;
  insert_loop (Z.to_nat (ccount hdr)) (cwidth hdr) score member 0 (cmem p).

Section code.
Variable junk : byte.

Definition alloc_compact (entries_len : Z) : bytes := fresh_bytes junk (kCompactHeaderBytes + Z.to_nat entries_len).

Definition erase_at (off : nat) (p : CompactListpack) : result CompactListpack :=
  hdr ← unpack_compact p;
  '(len_bytes, member_len) ← decode_len (kCompactHeaderBytes + off) (cmem p);
  let elem := (2 * len_bytes + score_width_bytes (cwidth hdr) + member_len)%nat in
  let new_len := wrap 32 (clen hdr - wrap 32 (Z.of_nat elem)) in
  np ← write_compact_header new_len (wrap 16 (ccount hdr - 1)) (cwidth hdr) (alloc_compact new_len);
  np ← memcpy kCompactHeaderBytes (cmem p) kCompactHeaderBytes off np;
  np ← memcpy (kCompactHeaderBytes + off) (cmem p) (kCompactHeaderBytes + off + elem) (Z.to_nat (clen hdr) - off - elem) np;
  Ret (Some np).

Definition insert_sorted_at (off : nat) (score : Z) (member : bytes) (p : CompactListpack) : result CompactListpack :=
  hdr ← unpack_compact p;
  let sb := score_width_bytes (cwidth hdr) in
  let member_len := length member in
  let elem := element_size member_len (cwidth hdr) in
  let new_len := wrap 32 (clen hdr + wrap 32 (Z.of_nat elem)) in
  np ← write_compact_header new_len (wrap 16 (ccount hdr + 1)) (cwidth hdr) (alloc_compact new_len);
  let dst := kCompactHeaderBytes in
  np ← (if (off =? 0)%nat then Ret np else memcpy dst (cmem p) kCompactHeaderBytes off np);
  let el := (dst + off)%nat in
  np ← store el (encode_len member_len) np;
  let k := length (encode_len member_len) in
  np ← write_score (el + k) (cwidth hdr) score np;
  let k := (k + sb)%nat in
  np ← store (el + k) member np;
  let k := (k + member_len)%nat in
  np ← store (el + k) (encode_backlen member_len) np;
  np ← (if (Z.of_nat off <? clen hdr) then memcpy (dst + off + elem) (cmem p) (kCompactHeaderBytes + off) (Z.to_nat (clen hdr) - off) np else Ret np);
  Ret (Some np).

(** The loop of [rewiden] over the entries: from [so] in the old blob to [doff] in the new one. *)
Fixpoint rewiden_loop (n : nat) (w target : ScoreWidth) (so doff : nat) (src np : bytes) : result bytes :=
  match n with
  | O => Ret np
  | S n =>
      '(len_bytes, member_len) ← decode_len (kCompactHeaderBytes + so) src;
      s ← read_score_at (kCompactHeaderBytes + so + len_bytes) w src;
      let member_off := (so + len_bytes + score_width_bytes w)%nat in
      np ← memcpy (kCompactHeaderBytes + doff) src (kCompactHeaderBytes + so) len_bytes np;
      let doff := (doff + len_bytes)%nat in
      np ← write_score (kCompactHeaderBytes + doff) target s np;
      let doff := (doff + score_width_bytes target)%nat in
      np ← memcpy (kCompactHeaderBytes + doff) src (kCompactHeaderBytes + member_off) (member_len + len_bytes) np;
      let doff := (doff + (member_len + len_bytes))%nat in
      rewiden_loop n w target (member_off + member_len + len_bytes) doff src np
  end.
Definition rewiden (target : ScoreWidth) (p : CompactListpack) : result CompactListpack :=
  hdr ← unpack_compact p;
  let old_sb := Z.of_nat (score_width_bytes (cwidth hdr)) in
  let new_sb := Z.of_nat (score_width_bytes target) in
  let new_len := wrap 32 (clen hdr + wrap 32 (ccount hdr * new_sb) - wrap 32 (ccount hdr * old_sb)) in
  np ← write_compact_header new_len (ccount hdr) target (alloc_compact new_len);
  np ← rewiden_loop (Z.to_nat (ccount hdr)) (cwidth hdr) target 0 0 (cmem p) np;
  Ret (Some np).

(** Overwriting the score of the entry at an offset. *)
Definition rescore_at (off : nat) (w : ScoreWidth) (score : Z) (p : CompactListpack) : result CompactListpack :=
  '(len_bytes, _) ← decode_len (kCompactHeaderBytes + off) (cmem p);
  m ← write_score (kCompactHeaderBytes + off + len_bytes) w score (cmem p);
  Ret (Some m).

Definition zadd (score : Z) (member : bytes) (max_entries : Z) (p : CompactListpack) : result (ZAddResult * CompactListpack) :=
  if (length member =? 0)%nat || (kCompactMaxMemberLen <? Z.of_nat (length member)) then Ret (mkZAdd false true false, p)
  else
    hdr ← unpack_compact p;
    target ← score_width_for score (cwidth hdr);
    loc ← locate member score hdr (cmem p);
    if found loc && eqb (old_score loc) score then Ret (mkZAdd false false true, p)
    else
      let exists_ := found loc in
      let width_delta := Z.of_nat (score_width_bytes target) - Z.of_nat (score_width_bytes (cwidth hdr)) in
      let projected := clen hdr + ccount hdr * width_delta in
      let projected := if exists_ then projected else projected + Z.of_nat (element_size (length member) target) in
      if (kCompactMaxBlobBytes <? kCompactWireHeaderBytes + projected) || (negb exists_ && (max_entries <? ccount hdr + 1))
      then Ret (mkZAdd false true exists_, p)
      else if exists_ && bool_decide (target = cwidth hdr) && sort_order_unchanged score member loc then
        p ← rescore_at (off_ loc) target score p;
        Ret (mkZAdd true false true, p)
      else
        p ← (if bool_decide (target = cwidth hdr) then Ret p else rewiden target p);
        hdr ← unpack_compact p;
        loc ← (if exists_ then locate member score hdr (cmem p) else Ret loc);
        if exists_ then
          off ← find_member member hdr (cmem p);
          off ← of_option off;
          if bool_decide (target = cwidth hdr) && sort_order_unchanged score member loc then
            p ← rescore_at off target score p;
            Ret (mkZAdd true false true, p)
          else
            p ← erase_at off p;
            at_ ← insert_offset score member p;
            p ← insert_sorted_at at_ score member p;
            Ret (mkZAdd true false exists_, p)
        else
          at_ ← insert_offset score member p;
          p ← insert_sorted_at at_ score member p;
          Ret (mkZAdd true false exists_, p).

Definition zremove (member : bytes) (p : CompactListpack) : result (bool * CompactListpack) :=
  hdr ← unpack_compact p;
  off ← find_member member hdr (cmem p);
  match off with
  | None => Ret (false, p)
  | Some off => p ← erase_at off p; Ret (true, p)
  end.

Fixpoint narrowest_of (es : list (Z * bytes)) (w : ScoreWidth) : result ScoreWidth :=
  match es with
  | [] => Ret w
  | (s, _) :: es => w ← score_width_for s w; narrowest_of es w
  end.
Definition optimize (p : CompactListpack) : result CompactListpack :=
  hdr ← unpack_compact p;
  if ccount hdr =? 0 then Ret p
  else
    es ← for_each p;
    narrowest ← narrowest_of es I16;
    if bool_decide (narrowest = cwidth hdr) then Ret p else rewiden narrowest p.
End code.

(** ** The order is a strict total order on numbers *)

Lemma bytes_ltb_irrefl a : bytes_ltb a a = false.
Proof. induction a as [|x a IH]; cbn; [done|]. by rewrite Z.ltb_irrefl. Qed.

Lemma bytes_ltb_trans a b c : bytes_ltb a b = true -> bytes_ltb b c = true -> bytes_ltb a c = true.
Proof.
  revert b c. induction a as [|x a IH]; intros [|y b] [|z c]; cbn; try done.
  repeat case_bool; try done; try lia. apply IH.
Qed.

Lemma bytes_ltb_total a b : bytes_ltb a b = false -> bytes_ltb b a = false -> a = b.
Proof.
  revert b. induction a as [|x a IH]; intros [|y b]; cbn; try done. repeat case_bool; try done.
  intros H1 H2. f_equal; [apply u8_inj; lia|by apply IH].
Qed.

Definition zlt (x y : Z * bytes) : Prop := ord x.1 < ord y.1 \/ (ord x.1 = ord y.1 /\ bytes_ltb x.2 y.2 = true).

#[global] Instance zlt_trans : Transitive zlt.
Proof. intros x y z [H1|[H1 H1']] [H2|[H2 H2']]; [left; lia..|right]. split; [lia|by eapply bytes_ltb_trans]. Qed.

Lemma zlt_irrefl x : ~ zlt x x.
Proof. intros [H|[_ H]]; [lia|]. by rewrite bytes_ltb_irrefl in H. Qed.

Lemma zlt_total x y : x.2 <> y.2 -> ~ zlt x y -> zlt y x.
Proof.
  intros Hne Hn. unfold zlt in *. destruct (Z.lt_trichotomy (ord x.1) (ord y.1)) as [H|[H|H]]; [tauto| |by left]. right. split; [done|].
  destruct (bytes_ltb y.2 x.2) eqn:E; [done|]. destruct (bytes_ltb x.2 y.2) eqn:E'; [tauto|]. destruct Hne. by apply bytes_ltb_total.
Qed.

Lemma less_than_spec x y : isnan x.1 = false -> isnan y.1 = false -> less_than x.1 x.2 y.1 y.2 = true <-> zlt x y.
Proof. intros Hx Hy. unfold less_than, ltb, eqb, zlt. rewrite Hx, Hy. cbn [negb andb]. destruct (bytes_ltb x.2 y.2); lia. Qed.

(** ** Sorted sets as sorted lists *)

Abbreviation less x y := (less_than x.1 x.2 y.1 y.2).

Fixpoint zinsert (x : Z * bytes) (l : list (Z * bytes)) : list (Z * bytes) :=
  match l with
  | [] => [x]
  | y :: l => if less x y then x :: y :: l else y :: zinsert x l
  end.
Definition zdelete (member : bytes) (l : list (Z * bytes)) : list (Z * bytes) := filter (fun e => e.2 <> member) l.
Fixpoint zscore (member : bytes) (l : list (Z * bytes)) : option Z :=
  match l with
  | [] => None
  | (s, m) :: l => if decide (m = member) then Some s else zscore member l
  end.
Fixpoint zrank (member : bytes) (l : list (Z * bytes)) : option nat :=
  match l with
  | [] => None
  | (_, m) :: l => if decide (m = member) then Some 0%nat else S <$> zrank member l
  end.

(** The entries of a sorted set: numbers with distinct members, in order. *)
Record zset_ok (l : list (Z * bytes)) : Prop := mkZsetOk {
  zs_sorted : StronglySorted zlt l;
  zs_numbers : Forall (fun e => number e.1) l;
  zs_distinct : NoDup l.*2;
}.

Lemma zscore_None member l : zscore member l = None <-> member ∉ l.*2.
Proof.
  induction l as [|[s m] l IH]; cbn; [split; [by intros _ ?%elem_of_nil|done]|]. rewrite not_elem_of_cons. case_decide as H; [subst; split; [done|intros [? _]; done]|].
  rewrite IH. split; [by split|by intros [_ ?]].
Qed.

Lemma zscore_Some member l s : zscore member l = Some s -> exists a b, l = a ++ (s, member) :: b /\ member ∉ a.*2.
Proof.
  induction l as [|[s' m] l IH]; cbn; [done|]. case_decide as H.
  - intros [= ->]. subst. exists [], l. split; [done|]. apply not_elem_of_nil.
  - intros (a & b & -> & Ha)%IH. exists ((s', m) :: a), b. split; [done|]. cbn. apply not_elem_of_cons. by split.
Qed.

Lemma zscore_split a s member b : member ∉ a.*2 -> zscore member (a ++ (s, member) :: b) = Some s.
Proof.
  induction a as [|[s' m] a IH]; cbn; [by rewrite decide_True|]. intros [Hm Ha]%not_elem_of_cons. rewrite decide_False by congruence. by apply IH.
Qed.

Lemma zrank_split a s member b : member ∉ a.*2 -> zrank member (a ++ (s, member) :: b) = Some (length a).
Proof.
  induction a as [|[s' m] a IH]; cbn; [by rewrite decide_True|]. intros [Hm Ha]%not_elem_of_cons. rewrite decide_False by congruence. by rewrite IH.
Qed.

Lemma zrank_None member l : member ∉ l.*2 -> zrank member l = None.
Proof.
  induction l as [|[s' m] l IH]; cbn; [done|]. intros [Hm Ha]%not_elem_of_cons. rewrite decide_False by congruence. by rewrite IH.
Qed.

Lemma zdelete_absent member l : member ∉ l.*2 -> zdelete member l = l.
Proof.
  induction l as [|[s m] l IH]; [done|]. cbn. intros [Hm Hl]%not_elem_of_cons. rewrite decide_True by (cbn; congruence). f_equal. by apply IH.
Qed.

Lemma zdelete_split a s member b : NoDup (a ++ (s, member) :: b).*2 -> zdelete member (a ++ (s, member) :: b) = a ++ b.
Proof.
  rewrite fmap_app, NoDup_app. cbn. intros (_ & Hd & [Hb _]%NoDup_cons). unfold zdelete. rewrite filter_app, filter_cons, decide_False by (cbn; tauto).
  f_equal; [|by apply zdelete_absent]. apply zdelete_absent. intros Ha. apply (Hd member Ha). by left.
Qed.

(** Dropping an entry and the entries around a place. *)
Lemma zset_ok_delete a x b : zset_ok (a ++ x :: b) -> zset_ok (a ++ b) /\ number x.1 /\ x.2 ∉ (a ++ b).*2.
Proof.
  intros [Hs Hn Hd]. rewrite fmap_app in Hd. cbn in Hd. rewrite <- Permutation_middle in Hd. apply NoDup_cons in Hd as [Hx Hd]. rewrite <- fmap_app in Hx, Hd.
  apply Forall_app in Hn as [Hn1 [Hn2 Hn3]%Forall_cons]. split_and!; [|done|done]. split; [|by apply Forall_app|done].
  apply StronglySorted_app in Hs as (H1 & H2 & H3). apply StronglySorted_cons in H3 as [_ H3]. apply StronglySorted_app. split_and!; [|done|done].
  intros y z Hy Hz. apply H1; [done|]. by right.
Qed.

Lemma less_false x l : number x.1 -> Forall (fun e => number e.1) l -> x.2 ∉ l.*2 -> Forall (fun y => less x y = false) l -> Forall (fun y => zlt y x) l.
Proof.
  intros Hx Hn Hm Hf. rewrite Forall_forall in *. intros y Hy. apply zlt_total; [intros E; apply Hm; rewrite E; by apply list_elem_of_fmap_2|].
  intros Hlt%less_than_spec; [by rewrite (Hf y Hy) in Hlt|apply Hx|by apply Hn].
Qed.

(** Where an entry goes. *)
Lemma zinsert_split x l : exists a b, l = a ++ b /\ zinsert x l = a ++ x :: b /\ Forall (fun y => less x y = false) a /\ from_option (fun y => less x y = true) True (head b).
Proof.
  induction l as [|y l (a & b & -> & E & Ha & Hb)]; cbn; [by exists [], []|]. destruct (less x y) eqn:Hl.
  - exists [], (y :: a ++ b). cbn. by rewrite Hl.
  - exists (y :: a), b. rewrite E. split_and!; [done|done|by constructor|done].
Qed.

Lemma zinsert_ok x l : zset_ok l -> number x.1 -> x.2 ∉ l.*2 -> zset_ok (zinsert x l).
Proof.
  intros [Hs Hn Hd] Hx Hm. destruct (zinsert_split x l) as (a & b & -> & -> & Ha & Hb). apply StronglySorted_app in Hs as (Hab & Hsa & Hsb). apply Forall_app in Hn as [Hna Hnb].
  assert (Hlt : Forall (fun y => zlt y x) a). { apply less_false; [done|done| |done]. intros H. apply Hm. rewrite fmap_app. apply elem_of_app. by left. }
  assert (Hgt : forall y, y ∈ b -> zlt x y).
  { destruct b as [|z b]; [by intros y ?%elem_of_nil|]. cbn in Hb. apply Forall_cons in Hnb as [Hz _]. apply less_than_spec in Hb; [|apply Hx|apply Hz].
    apply StronglySorted_cons in Hsb as [Hz' _]. rewrite Forall_forall in Hz'. intros y [->|Hy]%elem_of_cons; [done|]. etransitivity; [exact Hb|by apply Hz']. }
  split.
  - apply StronglySorted_app. split_and!; [|done|].
    + intros y z Hy [->|Hz]%elem_of_cons; [rewrite Forall_forall in Hlt; by apply Hlt|by apply Hab].
    + apply StronglySorted_cons. split; [by apply Forall_forall|done].
  - apply Forall_app. split; [done|by constructor].
  - rewrite fmap_app. cbn. rewrite <- Permutation_middle, <- fmap_app. by apply NoDup_cons.
Qed.

(** An entry is where it belongs when its neighbours say so. *)
Lemma zinsert_here a x b :
  zset_ok (a ++ b) -> number x.1 -> x.2 ∉ (a ++ b).*2 ->
  from_option (fun y => zlt y x) True (last a) -> from_option (fun y => zlt x y) True (head b) -> zinsert x (a ++ b) = a ++ x :: b.
Proof.
  intros [Hs Hn Hd] Hx Hm Ha Hb. apply StronglySorted_app in Hs as (Hab & Hsa & Hsb). apply Forall_app in Hn as [Hna Hnb].
  assert (Hbelow : Forall (fun y => less x y = false) a).
  { apply Forall_forall. intros y Hy. destruct (less x y) eqn:E; [|done]. exfalso. rewrite Forall_forall in Hna. apply less_than_spec in E; [|apply Hx|by apply Hna].
    destruct (last a) as [z|] eqn:Hl; [|apply last_None in Hl; subst; by apply elem_of_nil in Hy]. cbn in Ha. apply last_Some in Hl as [a' ->].
    apply elem_of_app in Hy as [Hy|Hy%list_elem_of_singleton]; [|subst; apply (zlt_irrefl x); by etransitivity].
    apply StronglySorted_app in Hsa as (Hlt & _ & _). apply (zlt_irrefl x). etransitivity; [exact E|]. etransitivity; [apply (Hlt y z); [done|by left]|done]. }
  clear -Hbelow Hb Hx Hnb. induction Hbelow as [|y a Hy _ IH]; cbn.
  - destruct b as [|z b]; [done|]. cbn in *. apply Forall_cons in Hnb as [Hz _]. by rewrite (proj2 (less_than_spec x z (proj2 Hx) (proj2 Hz))).
  - by rewrite Hy, IH.
Qed.

(** ** The bytes of an entry *)

Definition score_code (w : ScoreWidth) (s : Z) : bytes := le_bytes (score_width_bytes w) (default 0 (narrow w s)).
Definition elem (w : ScoreWidth) (e : Z * bytes) : bytes :=
  encode_len (length e.2) ++ score_code w e.1 ++ e.2 ++ encode_backlen (length e.2).
Definition enc (w : ScoreWidth) (l : list (Z * bytes)) : bytes := concat (elem w <$> l).

(** An entry that can be stored at a width. *)
Record elem_ok (w : ScoreWidth) (e : Z * bytes) : Prop := mkElemOk {
  eo_number : number e.1;
  eo_fits : holds_at w e.1 = true;
  eo_length : 0 < Z.of_nat (length e.2) <= kCompactMaxMemberLen;
}.

Lemma length_encode_len n : length (encode_len n) = len_size n.
Proof. unfold encode_len, len_size. by destruct (n <=? 128)%nat. Qed.

Lemma length_score_code w s : length (score_code w s) = score_width_bytes w.
Proof. apply length_le_bytes. Qed.

Lemma length_elem w e : length (elem w e) = element_size (length e.2) w.
Proof. unfold elem, encode_backlen, element_size. rewrite !length_app, length_rev, length_encode_len, length_score_code. lia. Qed.

Lemma zenc_app w a b : enc w (a ++ b) = enc w a ++ enc w b.
Proof. unfold enc. by rewrite fmap_app, concat_app. Qed.

Lemma zenc_cons w x l : enc w (x :: l) = elem w x ++ enc w l.
Proof. done. Qed.

Lemma zenc_snoc w a x : length (enc w (a ++ [x])) = (length (enc w a) + element_size (length x.2) w)%nat.
Proof. rewrite zenc_app, zenc_cons, !length_app, length_elem. cbn. lia. Qed.

(** A narrower or wider blob of the same entries. *)
Lemma length_enc_width w w' l : (length (enc w l) + length l * score_width_bytes w' = length (enc w' l) + length l * score_width_bytes w)%nat.
Proof. induction l as [|x l IH]; [done|]. rewrite !zenc_cons, !length_app, !length_elem. unfold element_size. cbn [length]. lia. Qed.

Lemma enc_members w l l' : length <$> l.*2 = length <$> l'.*2 -> length (enc w l) = length (enc w l').
Proof.
  revert l'. induction l as [|x l IH]; intros [|y l'] E; try done. cbn in E. injection E as E1 E2. rewrite !zenc_cons, !length_app, !length_elem, E1. by rewrite (IH l').
Qed.

Lemma two_byte_number k :
  0 <= k <= 0x7FFF ->
  let first := u8 (b8 (Z.lor 0x80 (Z.shiftr k 8))) in let second := u8 (b8 (Z.land k 0xFF)) in
  (Z.land first 0x80 =? 0) = false /\ Z.lor (Z.shiftl (Z.land first 0x7F) 8) second = k.
Proof.
  intros Hk. pose proof (two_byte_code k Hk) as H. cbv zeta in H |- *. replace (Z.land (Z.shiftr k 8) 0x7F) with (Z.shiftr k 8) in H; [done|].
  change 0x7F with (Z.ones 7). rewrite Z.land_ones, Z.shiftr_div_pow2 by lia. symmetry. apply Z.mod_small. split; [apply Z.div_pos; lia|apply Z.div_lt_upper_bound; lia].
Qed.

Lemma decode_encode n pre post :
  0 < Z.of_nat n <= kCompactMaxMemberLen -> decode_len (length pre) (pre ++ encode_len n ++ post) = Ret (len_size n, n).
Proof.
  unfold kCompactMaxMemberLen. intros Hn. unfold decode_len, encode_len, len_size, load_u8. destruct (Nat.leb_spec n 128) as [H|H]; cbn [app].
  - rewrite byte_at_app_hd. cbn [of_option mbind result_bind]. rewrite u8_b8_small, one_byte_code by lia. do 2 f_equal. lia.
  - rewrite byte_at_app_hd. cbn [of_option mbind result_bind]. destruct (two_byte_number (Z.of_nat n - 128) ltac:(lia)) as [H1 H2].
    rewrite H1, byte_at_app_next. cbn [of_option mbind result_bind]. rewrite H2. do 2 f_equal. lia.
Qed.

(** ** Reading the entries of a blob *)

Section reading.
Variables (w : ScoreWidth) (m : bytes).

(** The entries [l] lie behind the header. *)
Definition walks (l : list (Z * bytes)) : Prop := (l <> [] -> exists hd, length hd = 8%nat /\ m = hd ++ enc w l) /\ Forall (elem_ok w) l.

Lemma walks_at a x b : walks (a ++ x :: b) -> elem_ok w x /\ exists pre post, length pre = (8 + length (enc w a))%nat /\ m = pre ++ elem w x ++ post.
Proof.
  intros [Hm Hf]. apply Forall_app in Hf as [_ [Hx _]%Forall_cons]. split; [done|]. destruct Hm as (hd & Hl & ->); [by destruct a|].
  exists (hd ++ enc w a), (enc w b). rewrite zenc_app, zenc_cons, length_app, <- app_assoc. split; [lia|done].
Qed.

Lemma decode_walk a x b : walks (a ++ x :: b) -> decode_len (8 + length (enc w a)) m = Ret (len_size (length x.2), length x.2).
Proof. intros (Hx & pre & post & Hp & ->)%walks_at. rewrite <- Hp. unfold elem. rewrite <- !app_assoc. apply decode_encode, Hx. Qed.

Lemma read_code pre s post off : number s -> holds_at w s = true -> off = length pre -> read_score_at off w (pre ++ score_code w s ++ post) = Ret s.
Proof.
  intros Hn Hh ->. unfold read_score_at, load_le, score_code. destruct (narrow_widen s w Hn Hh) as (v & Ev & Hv & Hw). rewrite Ev. cbn [default from_option id].
  rewrite read_le_app by done. cbn. by rewrite Hw.
Qed.

Lemma score_walk a x b : walks (a ++ x :: b) -> score_at_element w (length (enc w a)) m = Ret x.1.
Proof.
  intros Hw. unfold score_at_element, kCompactHeaderBytes. rewrite (decode_walk _ _ _ Hw). cbn [mbind result_bind]. destruct (walks_at _ _ _ Hw) as ([Hn Hf _] & pre & post & Hp & ->).
  unfold elem. rewrite <- !app_assoc, app_assoc. apply read_code; [done|done|]. rewrite length_app, length_encode_len. lia.
Qed.

Lemma member_walk a x b : walks (a ++ x :: b) -> member_at w (length (enc w a)) m = Ret (x.2, length (enc w (a ++ [x]))).
Proof.
  intros Hw. unfold member_at, kCompactHeaderBytes. rewrite (decode_walk _ _ _ Hw). cbn [mbind result_bind]. destruct (walks_at _ _ _ Hw) as (_ & pre & post & Hp & ->).
  pose proof (load_app (pre ++ encode_len (length x.2) ++ score_code w x.1) x.2 (encode_backlen (length x.2) ++ post)) as Hl. unfold elem. rewrite <- !app_assoc in Hl. rewrite <- !app_assoc.
  rewrite Hl; [|rewrite !length_app, length_encode_len, length_score_code; lia|done]. cbn [mbind result_bind]. rewrite zenc_snoc. unfold element_size. do 2 f_equal. lia.
Qed.

Lemma element_walk a x b : walks (a ++ x :: b) -> element_at w (length (enc w a)) m = Ret (x.1, x.2, length (enc w (a ++ [x]))).
Proof. intros Hw. unfold element_at. rewrite (score_walk _ _ _ Hw). cbn [mbind result_bind]. by rewrite (member_walk _ _ _ Hw). Qed.

Lemma walks_snoc a x b : walks (a ++ x :: b) -> walks ((a ++ [x]) ++ b).
Proof. by rewrite <- app_assoc. Qed.

(** The walk goes on behind an entry. *)
Ltac walk_on IH Hw := apply walks_snoc in Hw; rewrite (IH _ Hw).

Lemma zfind_walk member a b :
  walks (a ++ b) -> member ∉ b.*2 -> find_loop (length b) w member (length (enc w a)) m = Ret None.
Proof.
  revert a. induction b as [|x b IH]; intros a Hw Hm; [done|]. cbn in Hm. apply not_elem_of_cons in Hm as [Hx Hm]. cbn [length find_loop].
  rewrite (member_walk _ _ _ Hw). cbn [mbind result_bind]. rewrite bool_decide_eq_false_2 by congruence. apply walks_snoc in Hw. by apply IH.
Qed.

Lemma find_walk_hit member s a c b :
  walks (a ++ c ++ (s, member) :: b) -> member ∉ c.*2 ->
  find_loop (length (c ++ (s, member) :: b)) w member (length (enc w a)) m = Ret (Some (length (enc w (a ++ c)))).
Proof.
  revert a. induction c as [|x c IH]; intros a Hw Hm; cbn [app length find_loop].
  - rewrite (member_walk _ _ _ Hw). cbn [mbind result_bind snd]. by rewrite bool_decide_eq_true_2, app_nil_r by done.
  - cbn in Hm. apply not_elem_of_cons in Hm as [Hx Hm]. cbn [app] in Hw. rewrite (member_walk _ _ _ Hw). cbn [mbind result_bind]. rewrite bool_decide_eq_false_2 by congruence.
    apply walks_snoc in Hw. rewrite (IH _ Hw Hm). by rewrite <- app_assoc.
Qed.

Lemma rank_walk member a b i : walks (a ++ b) -> rank_loop (length b) i w member (length (enc w a)) m = Ret (Nat.add i <$> zrank member b).
Proof.
  revert a i. induction b as [|[s x] b IH]; intros a i Hw; [done|]. cbn [length rank_loop zrank]. rewrite (member_walk _ _ _ Hw). cbn [mbind result_bind snd].
  case_bool_decide as E; [rewrite decide_True by done; cbn; do 2 f_equal; lia|]. rewrite decide_False by done. apply walks_snoc in Hw. rewrite (IH _ _ Hw). f_equal.
  destruct (zrank member b); cbn; [f_equal; lia|done].
Qed.

Lemma elements_walk a b c : walks (a ++ b ++ c) -> elements_from (length b) w (length (enc w a)) m = Ret b.
Proof.
  revert a. induction b as [|[s x] b IH]; intros a Hw; [done|]. cbn [length elements_from]. cbn [app] in Hw. rewrite (element_walk _ _ _ Hw). cbn [mbind result_bind].
  apply walks_snoc in Hw. by rewrite (IH _ Hw).
Qed.

Lemma position_walk a b c : walks (a ++ b ++ c) -> position_loop (length b) w (length (enc w a)) m = Ret (length (enc w (a ++ b))).
Proof.
  revert a. induction b as [|x b IH]; intros a Hw; cbn [length position_loop]; [by rewrite app_nil_r|]. cbn [app] in Hw. unfold kCompactHeaderBytes. rewrite (decode_walk _ _ _ Hw). cbn [mbind result_bind].
  apply walks_snoc in Hw. specialize (IH _ Hw). rewrite zenc_snoc in IH. unfold element_size in IH. rewrite IH. by rewrite <- app_assoc.
Qed.

Lemma zinsert_walk x a b :
  walks (a ++ b) -> number x.1 -> exists c d, b = c ++ d /\ zinsert x b = c ++ x :: d /\ insert_loop (length b) w x.1 x.2 (length (enc w a)) m = Ret (length (enc w (a ++ c))).
Proof.
  revert a. induction b as [|y b IH]; intros a Hw Hx; cbn [length insert_loop zinsert]; [by exists [], []; rewrite (app_nil_r a)|]. rewrite (element_walk _ _ _ Hw). cbn [mbind result_bind].
  destruct (less x y) eqn:E; [by exists [], (y :: b); rewrite (app_nil_r a)|]. apply walks_snoc in Hw. destruct (IH _ Hw Hx) as (c & d & -> & Ei & El).
  exists (y :: c), d. rewrite Ei, El. by rewrite <- app_assoc.
Qed.

(** [locate]: the entry of a member with its neighbours. *)
Lemma locate_miss member sc a b prev placed :
  walks (a ++ b) -> member ∉ b.*2 -> exists i, locate_loop (length b) member sc w (length (enc w a)) prev placed m = Ret (mkLocate false 0 i 0 None None).
Proof.
  revert a prev placed. induction b as [|x b IH]; intros a prev placed Hw Hm; [by eexists|]. cbn in Hm. apply not_elem_of_cons in Hm as [Hx Hm]. cbn [length locate_loop].
  rewrite (element_walk _ _ _ Hw). cbn [mbind result_bind]. rewrite bool_decide_eq_false_2 by congruence. apply walks_snoc in Hw. by apply IH.
Qed.

Lemma locate_hit member sc s a c b prev placed :
  walks (a ++ c ++ (s, member) :: b) -> member ∉ c.*2 ->
  exists i, locate_loop (length (c ++ (s, member) :: b)) member sc w (length (enc w a)) prev placed m =
    Ret (mkLocate true (length (enc w (a ++ c))) i s (match last c with Some y => Some y | None => prev end) (head b)).
Proof.
  revert a prev placed. induction c as [|x c IH]; intros a prev placed Hw Hm; cbn [app length locate_loop].
  - rewrite (element_walk _ _ _ Hw). cbn [mbind result_bind fst snd]. rewrite bool_decide_eq_true_2 by done. apply walks_snoc in Hw. destruct b as [|[ns nm] b]; cbn [length Nat.eqb head mbind result_bind].
    + rewrite app_nil_r. by eexists.
    + rewrite (element_walk _ _ _ Hw). cbn [mbind result_bind fst snd]. rewrite app_nil_r. by eexists.
  - cbn in Hm. apply not_elem_of_cons in Hm as [Hx Hm]. cbn [app] in Hw. rewrite (element_walk _ _ _ Hw). cbn [mbind result_bind]. rewrite bool_decide_eq_false_2 by congruence.
    apply walks_snoc in Hw. match goal with |- context [locate_loop _ _ _ _ _ _ ?placed' _] => destruct (IH _ (Some (x.1, x.2)) placed' Hw Hm) as [i Hi] end.
    exists i. rewrite Hi, <- app_assoc, last_cons. destruct x, (last c); done.
Qed.
End reading.

(** Reading backwards. *)
Section backwards.
Variables (w : ScoreWidth) (m : bytes) (hdr : CompactHeader).
Hypothesis Hhdr : cwidth hdr = w.

Lemma prev_walk a x b : walks w m (a ++ x :: b) -> prev_element_start (length (enc w (a ++ [x]))) hdr m = Ret (length (enc w a)).
Proof.
  intros (Hx & pre & post & Hp & ->)%walks_at. destruct Hx as [_ _ Hl]. unfold kCompactMaxMemberLen in Hl. rewrite zenc_snoc. set (n := length x.2) in *.
  set (X := encode_len n ++ score_code w x.1 ++ x.2). assert (HX : length X = (len_size n + score_width_bytes w + n)%nat) by (unfold X; rewrite !length_app, length_encode_len, length_score_code; unfold n; lia).
  replace (pre ++ elem w x ++ post) with ((pre ++ X) ++ encode_backlen n ++ post) by (unfold elem, X; fold n; by rewrite <- !app_assoc).
  unfold prev_element_start, encode_backlen, load_u8, kCompactHeaderBytes, back_by. rewrite Hhdr. unfold element_size, encode_len, len_size in *. destruct (Nat.leb_spec n 128) as [H|H]; cbn [rev app].
  - replace (8 + (length (enc w a) + (2 * 1 + score_width_bytes w + n)) - 1)%nat with (length (pre ++ X)) by (rewrite length_app, HX; lia).
    rewrite byte_at_app_hd. cbn [of_option mbind result_bind]. rewrite u8_b8_small, one_byte_code by lia. rewrite (proj2 (Nat.leb_le _ _)) by lia. f_equal. lia.
  - replace (8 + (length (enc w a) + (2 * 2 + score_width_bytes w + n)) - 1)%nat with (length (pre ++ X) + 1)%nat by (rewrite length_app, HX; lia).
    replace (8 + (length (enc w a) + (2 * 2 + score_width_bytes w + n)) - 2)%nat with (length (pre ++ X)) by (rewrite length_app, HX; lia).
    rewrite byte_at_app_next, byte_at_app_hd. cbn [of_option mbind result_bind]. destruct (two_byte_number (Z.of_nat n - 128) ltac:(lia)) as [H1 H2].
    rewrite H1. cbn [of_option mbind result_bind]. rewrite H2. rewrite (proj2 (Nat.leb_le _ _)) by lia. f_equal. lia.
Qed.

Lemma enc_zero l : length (enc w l) = 0%nat <-> l = [].
Proof.
  split; [|by intros ->]. destruct l as [|x l]; [done|]. rewrite zenc_cons, length_app, length_elem. unfold element_size, len_size. destruct (_ <=? _)%nat; lia.
Qed.

Lemma skip_walk first l b :
  walks w m (l ++ b) -> exists a c, l = a ++ c /\ rev a = drop first (rev l) /\ skip_back first (length (enc w l)) hdr m = Ret (length (enc w a)).
Proof.
  revert l b. induction first as [|first IH]; intros l b Hw; cbn [skip_back drop]; [by exists l, []; rewrite app_nil_r|].
  destruct (Nat.eqb_spec (length (enc w l)) 0) as [E|E].
  { apply enc_zero in E as ->. by exists [], []. }
  destruct l as [|x l _] using rev_ind; [done|]. rewrite <- app_assoc in Hw. rewrite (prev_walk _ _ _ Hw). cbn [mbind result_bind].
  destruct (IH _ _ Hw) as (a & c & -> & Ea & Es). exists a, (c ++ [x]). rewrite rev_app_distr. cbn [rev app drop]. by rewrite app_assoc.
Qed.

Lemma back_walk n l b : walks w m (l ++ b) -> elements_back n (length (enc w l)) hdr m = Ret (take n (rev l)).
Proof.
  revert l b. induction n as [|n IH]; intros l b Hw; cbn [elements_back take]; [done|]. destruct (Nat.eqb_spec (length (enc w l)) 0) as [E|E].
  { by apply enc_zero in E as ->. }
  destruct l as [|x l _] using rev_ind; [done|]. rewrite <- app_assoc in Hw. rewrite (prev_walk _ _ _ Hw). cbn [mbind result_bind].
  rewrite Hhdr, (element_walk _ _ _ _ _ Hw). cbn [mbind result_bind]. rewrite (IH _ _ Hw). cbn [mbind result_bind]. rewrite rev_app_distr. cbn. by destruct x.
Qed.
End backwards.

(** ** The sorted set a blob holds *)

Definition blob_header (w : ScoreWidth) (l : list (Z * bytes)) : bytes :=
  le_bytes 4 (Z.of_nat (length (enc w l))) ++ le_bytes 2 (Z.of_nat (length l)) ++ [b8 (Z.of_nat (width_index w)); b8 0].
Definition zhdr (w : ScoreWidth) (l : list (Z * bytes)) : CompactHeader := mkCompactHeader (Z.of_nat (length (enc w l))) (Z.of_nat (length l)) w.

(** Blob of the entries [l] at the width [w]. *)
Record blob_repr (w : ScoreWidth) (p : CompactListpack) (l : list (Z * bytes)) : Prop := mkBlobRepr {
  br_elems : Forall (elem_ok w) l;
  br_size : kCompactWireHeaderBytes + Z.of_nat (length (enc w l)) <= kCompactMaxBlobBytes;
  br_blob : match p with None => l = [] /\ w = I16 | Some m => m = blob_header w l ++ enc w l end;
}.

Record zset_repr (w : ScoreWidth) (p : CompactListpack) (l : list (Z * bytes)) : Prop := mkZsetRepr {
  zr_ok : zset_ok l;
  zr_blob : blob_repr w p l;
}.

Lemma length_zheader w l : length (blob_header w l) = 8%nat.
Proof. unfold blob_header. by rewrite !length_app, !length_le_bytes. Qed.

Lemma enc_count w l : (length l <= length (enc w l))%nat.
Proof. induction l as [|x l IH]; [done|]. rewrite zenc_cons, length_app, length_elem. unfold element_size, len_size. cbn [length]. destruct (_ <=? _)%nat; lia. Qed.

Lemma width_of_index w : width_of_byte (u8 (b8 (Z.of_nat (width_index w)))) = Some w.
Proof. by destruct w. Qed.

Lemma unpack_blob_repr w p l : blob_repr w p l -> unpack_compact p = Ret (zhdr w l).
Proof.
  intros [_ Hs Hb]. unfold kCompactWireHeaderBytes, kCompactMaxBlobBytes in Hs. destruct p as [m|]; cbv beta iota in Hb; [|by destruct Hb as [-> ->]]. subst m. unfold unpack_compact, load_le, load_u8, blob_header. pose proof (enc_count w l) as Hc.
  rewrite <- !app_assoc. pose proof (read_le_app 4 0 [] (le_bytes 2 (Z.of_nat (length l)) ++ [b8 (Z.of_nat (width_index w)); b8 0] ++ enc w l) (Z.of_nat (length (enc w l))) eq_refl ltac:(cbn; lia)) as E. cbn [app] in E |- *. rewrite E. clear E. cbn [of_option mbind result_bind].
  rewrite (read_le_app 2 4 (le_bytes 4 _)) by (rewrite ?length_le_bytes; cbn; lia). cbn [of_option mbind result_bind].
  pose proof (byte_at_app_hd (le_bytes 4 (Z.of_nat (length (enc w l))) ++ le_bytes 2 (Z.of_nat (length l))) (b8 0 :: enc w l) (b8 (Z.of_nat (width_index w)))) as E.
  rewrite length_app, !length_le_bytes, <- app_assoc in E. cbn [Nat.add] in E. rewrite E. cbn [of_option mbind result_bind]. by rewrite width_of_index.
Qed.

Lemma walks_repr w p l : blob_repr w p l -> walks w (cmem p) l.
Proof.
  intros [Hf _ Hb]. split; [|done]. intros Hne. destruct p as [m|]; cbv beta iota in Hb; [|by destruct Hb]. exists (blob_header w l). split; [apply length_zheader|done].
Qed.

Section writing.
Variable junk : byte.

Lemma write_compact_next len_bytes n w k :
  write_compact_header len_bytes n w (fresh_bytes junk (8 + k)) =
  Ret ((le_bytes 4 len_bytes ++ le_bytes 2 n ++ [b8 (Z.of_nat (width_index w)); b8 0]) ++ fresh_bytes junk k).
Proof.
  unfold write_compact_header. rewrite <- (app_nil_l (fresh_bytes junk (8 + k))).
  rewrite (store_next (4 + k)) by (rewrite ?length_le_bytes; simpl; lia). cbn [mbind result_bind].
  rewrite (store_next (2 + k)) by len_lia. cbn [mbind result_bind].
  rewrite (store_next (1 + k)) by len_lia. cbn [mbind result_bind].
  rewrite (store_next k) by len_lia. by rewrite <- !app_assoc.
Qed.

(** A fresh blob with its header written. *)
Lemma new_blob w l n c :
  Z.of_nat (length (enc w l)) < 2 ^ 32 -> Z.of_nat (length l) < 2 ^ 16 -> n mod 2 ^ 32 = Z.of_nat (length (enc w l)) -> c mod 2 ^ 16 = Z.of_nat (length l) ->
  write_compact_header (wrap 32 n) (wrap 16 c) w (alloc_compact junk (wrap 32 n)) = Ret (blob_header w l ++ fresh_bytes junk (length (enc w l))).
Proof.
  intros H1 H2 Hn Hc. unfold wrap, alloc_compact, kCompactHeaderBytes. rewrite Hn, Hc, Nat2Z.id. apply write_compact_next.
Qed.

Lemma write_score_next rest w s W off k :
  number s -> holds_at w s = true -> off = length W -> k = (score_width_bytes w + rest)%nat ->
  write_score off w s (W ++ fresh_bytes junk k) = Ret ((W ++ score_code w s) ++ fresh_bytes junk rest).
Proof.
  intros Hn Hh -> ->. unfold write_score, score_code. destruct (narrow_widen s w Hn Hh) as (v & -> & _). cbn [of_option mbind result_bind default from_option id].
  apply store_next; [done|]. by rewrite length_le_bytes.
Qed.

Lemma load_entries w p a b : blob_repr w p (a ++ b) -> p <> None -> load 8 (length (enc w a)) (cmem p) = Ret (enc w a) /\ load (8 + length (enc w a)) (length (enc w b)) (cmem p) = Ret (enc w b).
Proof.
  intros [_ _ Hb] Hp. destruct p as [m|]; [|done]. cbv beta iota in Hb. subst m. cbn [cmem default from_option id]. rewrite zenc_app. split.
  - apply load_app; [by rewrite length_zheader|done].
  - pose proof (load_app (blob_header w (a ++ b) ++ enc w a) (enc w b) []) as H. rewrite app_nil_r, <- app_assoc in H. apply H; [|done]. by rewrite length_app, length_zheader.
Qed.

Lemma erase_at_repr w p a x b : blob_repr w p (a ++ x :: b) -> exists p', erase_at junk (length (enc w a)) p = Ret p' /\ blob_repr w p' (a ++ b).
Proof.
  intros Hr. pose proof (walks_repr _ _ _ Hr) as Hw. assert (Hp : p <> None). { destruct Hr as [_ _ Hb]. intros ->. destruct Hb as [Hb _]. by destruct a. }
  pose proof (br_size _ _ _ Hr) as Hs. unfold kCompactWireHeaderBytes, kCompactMaxBlobBytes in Hs.
  unfold erase_at. rewrite (unpack_blob_repr _ _ _ Hr). cbn [mbind result_bind zhdr cwidth ccount clen]. unfold kCompactHeaderBytes. rewrite (decode_walk _ _ _ _ _ Hw). cbn [mbind result_bind].
  fold (element_size (length x.2) w). set (n := element_size (length x.2) w).
  assert (He : length (enc w (a ++ x :: b)) = (length (enc w a) + n + length (enc w b))%nat) by (rewrite zenc_app, zenc_cons, !length_app, length_elem; unfold n; lia).
  assert (He' : length (enc w (a ++ b)) = (length (enc w a) + length (enc w b))%nat) by (by rewrite zenc_app, length_app).
  pose proof (enc_count w (a ++ b)) as Hc.
  rewrite (new_blob w (a ++ b)).
  2-5: rewrite ?He, ?He'; rewrite ?(wrap_small 32) by lia; rewrite ?Z.mod_small; rewrite ?length_app in *; cbn [length]; lia.
  cbn [mbind result_bind]. rewrite He', He. destruct (load_entries w p a (x :: b) Hr Hp) as [Hl1 _].
  rewrite (memcpy_next (length (enc w b)) junk _ _ (enc w a)); [|done|by rewrite length_zheader|done]. cbn [mbind result_bind].
  replace (a ++ x :: b) with ((a ++ [x]) ++ b) in Hr by (by rewrite <- app_assoc). destruct (load_entries w p (a ++ [x]) b Hr Hp) as [_ Hl2]. rewrite zenc_snoc in Hl2.
  rewrite (memcpy_next 0 junk _ _ (enc w b)); [| |by rewrite length_app, length_zheader|].
  2: { rewrite <- Hl2. f_equal; unfold n; lia. } 2: lia.
  cbn [mbind result_bind]. eexists. split; [done|]. destruct Hr as [Hf _ _]. apply Forall_app in Hf as [[Hfa _]%Forall_app Hfb]. split.
  - by apply Forall_app.
  - unfold kCompactWireHeaderBytes, kCompactMaxBlobBytes. lia.
  - cbv beta iota. rewrite zenc_app. unfold fresh_bytes. cbn [replicate]. by rewrite app_nil_r, <- app_assoc.
Qed.

(** The guarded copies of [insert_sorted_at] behind what is already written. *)
Lemma zcopy_front rest w p a b W k :
  blob_repr w p (a ++ b) -> length W = 8%nat -> k = (length (enc w a) + rest)%nat ->
  (if (length (enc w a) =? 0)%nat then Ret (W ++ fresh_bytes junk k) else memcpy 8 (cmem p) 8 (length (enc w a)) (W ++ fresh_bytes junk k)) =
  Ret ((W ++ enc w a) ++ fresh_bytes junk rest).
Proof.
  intros Hr HW ->. destruct (Nat.eqb_spec (length (enc w a)) 0) as [E|E].
  - rewrite E. apply enc_zero in E as ->. cbn [enc fmap list_fmap concat]. by rewrite app_nil_r.
  - assert (Hp : p <> None) by (intros ->; destruct Hr as [_ _ [Hb _]]; apply app_nil in Hb as [-> _]; done).
    apply memcpy_next; [by apply (load_entries w p a b)|done|done].
Qed.

Lemma zcopy_back w p a b W dst :
  blob_repr w p (a ++ b) -> dst = length W ->
  (if Z.of_nat (length (enc w a)) <? Z.of_nat (length (enc w (a ++ b)))
   then memcpy dst (cmem p) (8 + length (enc w a)) (Z.to_nat (Z.of_nat (length (enc w (a ++ b)))) - length (enc w a)) (W ++ fresh_bytes junk (length (enc w b)))
   else Ret (W ++ fresh_bytes junk (length (enc w b)))) = Ret (W ++ enc w b).
Proof.
  intros Hr ->. assert (He : length (enc w (a ++ b)) = (length (enc w a) + length (enc w b))%nat) by (by rewrite zenc_app, length_app).
  destruct (Z.ltb_spec (Z.of_nat (length (enc w a))) (Z.of_nat (length (enc w (a ++ b))))) as [H|H].
  - assert (Hp : p <> None) by (intros ->; destruct Hr as [_ _ [Hb _]]; apply app_nil in Hb as [-> ->]; cbn in H; lia).
    rewrite (memcpy_next 0 junk _ _ (enc w b)); [by rewrite app_nil_r| |done|lia].
    replace (Z.to_nat _ - _)%nat with (length (enc w b)) by lia. by apply (load_entries w p a b).
  - assert (E : length (enc w b) = 0%nat) by lia. rewrite E. apply enc_zero in E as ->. done.
Qed.

(** The four writes of an entry. *)
Lemma write_elem_next rest w x W el k :
  elem_ok w x -> el = length W -> k = (element_size (length x.2) w + rest)%nat ->
  (np ← store el (encode_len (length x.2)) (W ++ fresh_bytes junk k);
   np ← write_score (el + length (encode_len (length x.2))) w x.1 np;
   np ← store (el + (length (encode_len (length x.2)) + score_width_bytes w)) x.2 np;
   store (el + (length (encode_len (length x.2)) + score_width_bytes w + length x.2)) (encode_backlen (length x.2)) np) =
  Ret ((W ++ elem w x) ++ fresh_bytes junk rest).
Proof.
  intros [Hn Hh _] -> ->. unfold elem. set (n := length x.2). pose proof (length_encode_len n) as Hk. pose proof (length_score_code w x.1) as Hs. unfold element_size. rewrite Hk.
  rewrite (store_next (score_width_bytes w + (n + (len_size n + rest)))) by lia. cbn [mbind result_bind].
  rewrite (write_score_next (n + (len_size n + rest))); [|done|done|rewrite length_app; lia|done]. cbn [mbind result_bind].
  rewrite (store_next (len_size n + rest)) by (rewrite ?length_app; unfold n in *; lia). cbn [mbind result_bind].
  rewrite (store_next rest) by (unfold encode_backlen; rewrite ?length_app, ?length_rev; unfold n in *; lia). by rewrite <- !app_assoc.
Qed.

Lemma insert_at_repr w p a x b :
  blob_repr w p (a ++ b) -> elem_ok w x -> kCompactWireHeaderBytes + Z.of_nat (length (enc w (a ++ x :: b))) <= kCompactMaxBlobBytes ->
  exists p', insert_sorted_at junk (length (enc w a)) x.1 x.2 p = Ret p' /\ blob_repr w p' (a ++ x :: b).
Proof.
  intros Hr Hx Hfit. unfold insert_sorted_at. rewrite (unpack_blob_repr _ _ _ Hr). cbn [mbind result_bind zhdr cwidth ccount clen]. unfold kCompactHeaderBytes.
  assert (He : length (enc w (a ++ x :: b)) = (length (enc w a) + element_size (length x.2) w + length (enc w b))%nat) by (rewrite zenc_app, zenc_cons, !length_app, length_elem; lia).
  assert (He' : length (enc w (a ++ b)) = (length (enc w a) + length (enc w b))%nat) by (by rewrite zenc_app, length_app).
  pose proof (enc_count w (a ++ x :: b)) as Hc. pose proof Hfit as Hfit'. unfold kCompactWireHeaderBytes, kCompactMaxBlobBytes in Hfit'.
  rewrite (new_blob w (a ++ x :: b)).
  2-5: rewrite ?He, ?He'; rewrite ?(wrap_small 32) by lia; rewrite ?Z.mod_small; rewrite ?length_app in *; cbn [length] in *; lia.
  cbn [mbind result_bind]. rewrite (zcopy_front (element_size (length x.2) w + length (enc w b)) w p a b) by (apply Hr || apply length_zheader || lia). cbn [mbind result_bind].
  set (W := blob_header w (a ++ x :: b) ++ enc w a). assert (HW : length W = (8 + length (enc w a))%nat) by (unfold W; by rewrite length_app, length_zheader).
  pose proof (write_elem_next (length (enc w b)) w x W (8 + length (enc w a)) _ Hx (eq_sym HW) eq_refl) as Hstores.
  destruct (store _ _ (W ++ _)) as [np1| |]; cbn [mbind result_bind] in Hstores |- *; [|done..]. destruct (write_score _ _ _ np1) as [np2| |]; cbn [mbind result_bind] in Hstores |- *; [|done..].
  destruct (store _ x.2 np2) as [np3| |]; cbn [mbind result_bind] in Hstores |- *; [|done..]. rewrite Hstores. cbn [mbind result_bind].
  rewrite (zcopy_back w p a b); [|done|rewrite length_app, HW, length_elem; lia]. cbn [mbind result_bind]. eexists. split; [done|].
  destruct Hr as [Hf _ _]. apply Forall_app in Hf as [Hfa Hfb]. split; [apply Forall_app; split; [done|by constructor]|done|].
  cbv beta iota. unfold W. by rewrite zenc_app, zenc_cons, <- !app_assoc.
Qed.

(** Changing the width. *)
Lemma rewiden_elem rest w target src pre x post W k so doff :
  elem_ok w x -> holds_at target x.1 = true -> src = pre ++ elem w x ++ post -> (8 + so)%nat = length pre -> (8 + doff)%nat = length W -> k = (element_size (length x.2) target + rest)%nat ->
  (np ← memcpy (8 + doff) src (8 + so) (len_size (length x.2)) (W ++ fresh_bytes junk k);
   np ← write_score (8 + (doff + len_size (length x.2))) target x.1 np;
   memcpy (8 + (doff + len_size (length x.2) + score_width_bytes target)) src (8 + (so + len_size (length x.2) + score_width_bytes w)) (length x.2 + len_size (length x.2)) np) =
  Ret ((W ++ elem target x) ++ fresh_bytes junk rest).
Proof.
  intros [Hn Hh _] Ht -> Hso Hdo ->. rewrite Hso, Hdo. unfold elem. set (n := length x.2). pose proof (length_encode_len n) as Hk. pose proof (length_score_code w x.1) as Hs.
  pose proof (length_score_code target x.1) as Hs'. unfold element_size. set (ls := len_size n) in *.
  rewrite (memcpy_next (score_width_bytes target + (n + (ls + rest))) junk W _ (encode_len n)); [|rewrite <- !app_assoc; apply load_app; [done|lia]|done|lia]. cbn [mbind result_bind].
  rewrite (write_score_next (n + (ls + rest))); [|done|done|rewrite length_app; lia|lia]. cbn [mbind result_bind].
  rewrite (memcpy_next rest junk _ _ (x.2 ++ encode_backlen n)); [by rewrite <- !app_assoc| |rewrite !length_app; lia|lia].
  pose proof (load_app (pre ++ encode_len n ++ score_code w x.1) (x.2 ++ encode_backlen n) post) as H. rewrite <- !app_assoc in H. rewrite <- !app_assoc.
  apply H; rewrite ?length_app; unfold encode_backlen, n in *; rewrite ?length_rev; lia.
Qed.

Lemma rewiden_walk w target src a b H :
  walks w src (a ++ b) -> Forall (fun x => holds_at target x.1 = true) b -> length H = 8%nat ->
  rewiden_loop (length b) w target (length (enc w a)) (length (enc target a)) src ((H ++ enc target a) ++ fresh_bytes junk (length (enc target b))) = Ret (H ++ enc target (a ++ b)).
Proof.
  revert a. induction b as [|x b IH]; intros a Hw Ht HH; cbn [length rewiden_loop].
  { unfold fresh_bytes. cbn. by rewrite !app_nil_r. }
  apply Forall_cons in Ht as [Hx Ht]. unfold kCompactHeaderBytes. rewrite (decode_walk _ _ _ _ _ Hw). cbn [mbind result_bind]. pose proof (score_walk _ _ _ _ _ Hw) as Hs. unfold score_at_element, kCompactHeaderBytes in Hs.
  rewrite (decode_walk _ _ _ _ _ Hw) in Hs. cbn [mbind result_bind] in Hs. rewrite Hs. cbn [mbind result_bind].
  destruct (walks_at _ _ _ _ _ Hw) as (Hok & pre & post & Hp & Esrc).
  pose proof (rewiden_elem (length (enc target b)) w target src pre x post (H ++ enc target a) _ (length (enc w a)) (length (enc target a)) Hok Hx Esrc (eq_sym Hp)
    ltac:(by rewrite length_app, HH) eq_refl) as Hc.
  rewrite (zenc_cons target x b), (length_app (elem target x)), length_elem.
  destruct (memcpy _ _ _ _ ((H ++ _) ++ _)) as [np1| |]; cbn [mbind result_bind] in Hc |- *; [|done..]. destruct (write_score _ _ _ np1) as [np2| |]; cbn [mbind result_bind] in Hc |- *; [|done..].
  rewrite Hc. cbn [mbind result_bind]. apply walks_snoc in Hw. specialize (IH _ Hw Ht HH). rewrite !zenc_snoc in IH. unfold element_size in IH.
  replace (length (enc w a) + len_size (length x.2) + score_width_bytes w + length x.2 + len_size (length x.2))%nat with (length (enc w a) + (2 * len_size (length x.2) + score_width_bytes w + length x.2))%nat by lia.
  replace (length (enc target a) + len_size (length x.2) + score_width_bytes target + (length x.2 + len_size (length x.2)))%nat with (length (enc target a) + (2 * len_size (length x.2) + score_width_bytes target + length x.2))%nat by lia.
  rewrite zenc_app, (app_assoc H) in IH. cbn [enc fmap list_fmap concat] in IH. rewrite app_nil_r in IH. rewrite IH. by rewrite <- app_assoc.
Qed.

Lemma rewiden_repr w target p l :
  blob_repr w p l -> Forall (fun x => holds_at target x.1 = true) l -> kCompactWireHeaderBytes + Z.of_nat (length (enc target l)) <= kCompactMaxBlobBytes ->
  exists p', rewiden junk target p = Ret p' /\ blob_repr target p' l.
Proof.
  intros Hr Ht Hfit. unfold rewiden. rewrite (unpack_blob_repr _ _ _ Hr). cbn [mbind result_bind zhdr cwidth ccount clen]. pose proof (enc_count target l) as Hc. pose proof (length_enc_width w target l) as Hl.
  pose proof (br_size _ _ _ Hr) as Hs. pose proof Hfit as Hfit'. unfold kCompactWireHeaderBytes, kCompactMaxBlobBytes in Hs, Hfit'.
  assert (Hb : Z.of_nat (score_width_bytes w) <= 8 /\ Z.of_nat (score_width_bytes target) <= 8) by (destruct w, target; cbn; lia).
  rewrite (wrap_small 32 (_ * Z.of_nat (score_width_bytes target))), (wrap_small 32 (_ * Z.of_nat (score_width_bytes w))) by nia.
  replace (Z.of_nat (length (enc w l)) + _ - _) with (Z.of_nat (length (enc target l))) by lia.
  pose proof (new_blob target l (Z.of_nat (length (enc target l))) (Z.of_nat (length l))) as Hn. rewrite (wrap_small 16) in Hn by lia. rewrite Hn by (rewrite ?Z.mod_small; lia). cbn [mbind result_bind].
  pose proof (rewiden_walk w target (cmem p) [] l (blob_header target l) (walks_repr _ _ _ Hr) Ht (length_zheader _ _)) as Hw. cbn [enc fmap list_fmap concat app length] in Hw. rewrite app_nil_r in Hw.
  rewrite Nat2Z.id, Hw. cbn [mbind result_bind]. eexists. split; [done|]. split; [|done|done]. destruct Hr as [Hf _ _].
  apply Forall_forall. intros x Hx. rewrite Forall_forall in Hf, Ht. destruct (Hf x Hx). split; [done|by apply Ht|done].
Qed.

(** Overwriting a score. *)
Lemma rescore_repr w p a s s' member b :
  blob_repr w p (a ++ (s, member) :: b) -> number s' -> holds_at w s' = true ->
  exists p', rescore_at (length (enc w a)) w s' p = Ret p' /\ blob_repr w p' (a ++ (s', member) :: b).
Proof.
  intros Hr Hn Hh. pose proof (walks_repr _ _ _ Hr) as Hw. unfold rescore_at, kCompactHeaderBytes. rewrite (decode_walk _ _ _ _ _ Hw). cbn [mbind result_bind snd].
  destruct (narrow_widen s' w Hn Hh) as (v & Ev & _). unfold write_score. rewrite Ev. cbn [of_option mbind result_bind].
  assert (He : length (enc w (a ++ (s', member) :: b)) = length (enc w (a ++ (s, member) :: b))) by (apply enc_members; by rewrite !fmap_app).
  assert (Hhd : blob_header w (a ++ (s', member) :: b) = blob_header w (a ++ (s, member) :: b)) by (unfold blob_header; rewrite He, !length_app; done).
  destruct p as [m|]; [|by destruct Hr as [_ _ [Hb _]]; destruct a]. destruct Hr as [Hf Hs Hb]. cbv beta iota in Hb. subst m. cbn [cmem default from_option id].
  set (pre := blob_header w (a ++ (s, member) :: b) ++ enc w a ++ encode_len (length member)).
  set (post := member ++ encode_backlen (length member) ++ enc w b).
  assert (Em : blob_header w (a ++ (s, member) :: b) ++ enc w (a ++ (s, member) :: b) = pre ++ score_code w s ++ post) by (unfold pre, post; rewrite zenc_app, zenc_cons; unfold elem; cbn [fst snd]; by rewrite <- !app_assoc).
  rewrite Em. unfold store. rewrite poke_app; [|unfold pre; rewrite !length_app, length_zheader, length_encode_len; lia|by rewrite length_le_bytes, length_score_code].
  cbn [of_option mbind result_bind]. eexists. split; [done|]. apply Forall_app in Hf as [Hfa [Hx Hfb]%Forall_cons]. split.
  - apply Forall_app. split; [done|]. constructor; [|done]. destruct Hx. by split.
  - by rewrite He.
  - cbv beta iota. rewrite Hhd. unfold pre, post. rewrite zenc_app, zenc_cons. unfold elem. cbn [fst snd]. unfold score_code at 1. rewrite Ev. cbn [default from_option id]. by rewrite <- !app_assoc.
Qed.
End writing.

(** ** The operations on the sorted set *)

Definition zupdate (x : Z * bytes) (l : list (Z * bytes)) : list (Z * bytes) := zinsert x (zdelete x.2 l).

(** The compact form has no room for the entries. *)
Definition zfull (w : ScoreWidth) (l : list (Z * bytes)) (existed : bool) (max_entries : Z) : bool :=
  (kCompactMaxBlobBytes <? kCompactWireHeaderBytes + Z.of_nat (length (enc w l))) || (negb existed && (max_entries <? Z.of_nat (length l))).

(** Members the compact form refuses. *)
Definition bad_member (member : bytes) : bool := (length member =? 0)%nat || (kCompactMaxMemberLen <? Z.of_nat (length member)).

Lemma zinsert_perm x l : zinsert x l ≡ₚ x :: l.
Proof. induction l as [|y l IH]; cbn; [done|]. destruct (less x y); [done|]. rewrite IH. apply Permutation_swap. Qed.

Lemma enc_perm w l l' : l ≡ₚ l' -> length (enc w l) = length (enc w l').
Proof. induction 1 as [|x l l' _ IH|x y l|l l' l'' _ IH1 _ IH2]; rewrite ?zenc_cons, ?length_app; lia. Qed.

Lemma order_kept new_score member a b loc :
  zset_ok (a ++ b) -> number new_score -> prev_ loc = last a -> next_ loc = head b -> sort_order_unchanged new_score member loc = true ->
  from_option (fun y => zlt y (new_score, member)) True (last a) /\ from_option (fun y => zlt (new_score, member) y) True (head b).
Proof.
  intros [_ Hn _] Hx Hp Hq H. unfold sort_order_unchanged in H. rewrite Hp, Hq in H. apply andb_true_iff in H as [H1 H2]. apply Forall_app in Hn as [Hna Hnb]. destruct Hx as [_ Hx]. split.
  - destruct (last a) as [[ps pm]|] eqn:E; [|done]. cbn. apply last_Some in E as [a' ->]. apply Forall_app in Hna as [_ [[_ Hy] _]%Forall_cons]. cbn in Hy.
    unfold ltb, eqb in H1. rewrite Hx, Hy in H1. cbn [negb andb] in H1. unfold zlt. cbn [fst snd]. destruct (bytes_ltb pm member); lia.
  - destruct b as [|[ns nm] b]; [done|]. cbn in H2 |- *. apply Forall_cons in Hnb as [[_ Hy] _]. cbn in Hy.
    unfold ltb, eqb in H2. rewrite Hx, Hy in H2. cbn [negb andb] in H2. unfold zlt. cbn [fst snd]. destruct (bytes_ltb member nm); lia.
Qed.

Section spec.
Variable junk : byte.

(** Taking an entry out, putting one in at its place, and overwriting one that stays. *)
Lemma insert_sorted_repr w p l x :
  zset_repr w p l -> elem_ok w x -> x.2 ∉ l.*2 -> kCompactWireHeaderBytes + Z.of_nat (length (enc w (zinsert x l))) <= kCompactMaxBlobBytes ->
  exists p', (at_ ← insert_offset x.1 x.2 p; insert_sorted_at junk at_ x.1 x.2 p) = Ret p' /\ zset_repr w p' (zinsert x l).
Proof.
  intros [Hok Hr] Hx Hm Hfit. unfold insert_offset. rewrite (unpack_blob_repr _ _ _ Hr). cbn [mbind result_bind zhdr ccount cwidth]. rewrite Nat2Z.id.
  destruct (zinsert_walk w (cmem p) x [] l (walks_repr _ _ _ Hr) (eo_number _ _ Hx)) as (c & d & -> & Ei & El). cbn [app] in El. change (length (enc w [])) with 0%nat in El. rewrite El. cbn [mbind result_bind].
  pose proof (zinsert_ok x (c ++ d) Hok (eo_number _ _ Hx) Hm) as Hok'. rewrite Ei in Hfit, Hok' |- *. destruct (insert_at_repr junk w p c x d Hr Hx Hfit) as (p' & E & R). exists p'. by split.
Qed.

Lemma erase_sorted_repr w p a x b : zset_repr w p (a ++ x :: b) -> exists p', erase_at junk (length (enc w a)) p = Ret p' /\ zset_repr w p' (a ++ b).
Proof. intros [Hok Hr]. destruct (erase_at_repr junk w p a x b Hr) as (p' & E & R). exists p'. split; [done|]. split; [by apply (zset_ok_delete a x b)|done]. Qed.

Lemma rewiden_sorted_repr w target p l :
  zset_repr w p l -> (width_index w <= width_index target)%nat -> kCompactWireHeaderBytes + Z.of_nat (length (enc target l)) <= kCompactMaxBlobBytes ->
  exists p', (if bool_decide (target = w) then Ret p else rewiden junk target p) = Ret p' /\ zset_repr target p' l.
Proof.
  intros [Hok Hr] Hw Hfit. case_bool_decide as E; [subst; by exists p|]. destruct (rewiden_repr junk w target p l Hr) as (p' & Er & R); [|done|by exists p'].
  destruct Hr as [Hf _ _]. eapply Forall_impl; [exact Hf|]. intros x [_ Hx _]. by apply (holds_mono w).
Qed.

Lemma rescore_sorted_repr w p a s s' member b loc :
  zset_repr w p (a ++ (s, member) :: b) -> number s' -> holds_at w s' = true -> prev_ loc = last a -> next_ loc = head b -> sort_order_unchanged s' member loc = true ->
  exists p', rescore_at (length (enc w a)) w s' p = Ret p' /\ zset_repr w p' (zinsert (s', member) (a ++ b)).
Proof.
  intros [Hok Hr] Hn Hh Hp Hq Ho. destruct (rescore_repr w p a s s' member b Hr Hn Hh) as (p' & E & R). exists p'. split; [done|].
  destruct (zset_ok_delete _ _ _ Hok) as (Hok' & _ & Hm). destruct (order_kept s' member a b loc Hok' Hn Hp Hq Ho) as [H1 H2].
  pose proof (zinsert_ok (s', member) (a ++ b) Hok' Hn Hm) as Hins. rewrite (zinsert_here a (s', member) b Hok' Hn Hm H1 H2) in Hins |- *. by split.
Qed.

Lemma repr_find w p l member :
  zset_repr w p l ->
  (member ∉ l.*2 -> find_member member (zhdr w l) (cmem p) = Ret None) /\
  (forall a s b, l = a ++ (s, member) :: b -> find_member member (zhdr w l) (cmem p) = Ret (Some (length (enc w a)))).
Proof.
  intros [Hok Hr]. pose proof (walks_repr _ _ _ Hr) as Hw. unfold find_member. cbn [zhdr ccount cwidth]. rewrite Nat2Z.id. split.
  - intros Hm. by apply (zfind_walk w (cmem p) member []).
  - intros a s b ->. apply (find_walk_hit w (cmem p) member s []); [done|]. destruct Hok as [_ _ Hd]. rewrite fmap_app, NoDup_app in Hd. destruct Hd as (_ & Hd & _). intros Ha. apply (Hd _ Ha). by left.
Qed.

Lemma repr_locate w p l member sc :
  zset_repr w p l ->
  (member ∉ l.*2 -> exists i, locate member sc (zhdr w l) (cmem p) = Ret (mkLocate false 0 i 0 None None)) /\
  (forall a s b, l = a ++ (s, member) :: b -> exists i, locate member sc (zhdr w l) (cmem p) = Ret (mkLocate true (length (enc w a)) i s (last a) (head b))).
Proof.
  intros [Hok Hr]. pose proof (walks_repr _ _ _ Hr) as Hw. unfold locate. cbn [zhdr ccount cwidth]. rewrite Nat2Z.id. split.
  - intros Hm. by apply (locate_miss w (cmem p) member sc []).
  - intros a s b ->. destruct (locate_hit w (cmem p) member sc s [] a b None None) as [i Hi]; [done| |exists i; change (length (enc w [])) with 0%nat in Hi; rewrite Hi; by destruct (last a)].
    destruct Hok as [_ _ Hd]. rewrite fmap_app, NoDup_app in Hd. destruct Hd as (_ & Hd & _). intros Ha. apply (Hd _ Ha). by left.
Qed.

(** What [add] projects is the size of the result. *)
Lemma projected_size w target l :
  Z.of_nat (length (enc w l)) + Z.of_nat (length l) * (Z.of_nat (score_width_bytes target) - Z.of_nat (score_width_bytes w)) = Z.of_nat (length (enc target l)).
Proof. pose proof (length_enc_width w target l). lia. Qed.

Lemma zinsert_size w x l : length (enc w (zinsert x l)) = (length (enc w l) + element_size (length x.2) w)%nat /\ length (zinsert x l) = S (length l).
Proof. split; [rewrite (enc_perm w _ _ (zinsert_perm x l)), zenc_cons, length_app, length_elem; lia|by rewrite (zinsert_perm x l)]. Qed.

Lemma update_size w a s s' member b : length (enc w (zinsert (s', member) (a ++ b))) = length (enc w (a ++ (s, member) :: b)) /\ length (zinsert (s', member) (a ++ b)) = length (a ++ (s, member) :: b).
Proof.
  destruct (zinsert_size w (s', member) (a ++ b)) as [-> ->]. rewrite !zenc_app, zenc_cons, !length_app, length_elem. cbn [length snd]. lia.
Qed.

(** The steps common to both cases: the checks of [add] up to the point where it starts to write. *)
Lemma zadd_new w p l s member max_entries :
  zset_repr w p l -> number s -> bad_member member = false -> member ∉ l.*2 ->
  let w' := width_from w s in let l' := zinsert (s, member) l in
  if zfull w' l' false max_entries then zadd junk s member max_entries p = Ret (mkZAdd false true false, p)
  else exists p', zadd junk s member max_entries p = Ret (mkZAdd true false false, p') /\ zset_repr w' p' l'.
Proof.
  intros Hz Hs Hb Hm w' l'. unfold zadd. unfold bad_member in Hb. rewrite Hb. rewrite (unpack_blob_repr _ _ _ (zr_blob _ _ _ Hz)). cbn [mbind result_bind zhdr cwidth ccount clen].
  rewrite (width_for_spec s w Hs). fold w'. cbn [mbind result_bind]. destruct (repr_locate w p l member s Hz) as [Hmiss _]. destruct (Hmiss Hm) as [i Ei].
  rewrite Ei. cbn [mbind result_bind found andb negb]. destruct (zinsert_size w' (s, member) l) as [Hsz Hct]. fold l' in Hsz, Hct. cbn [snd] in Hsz.
  rewrite projected_size, <- Nat2Z.inj_add, <- Hsz. replace (Z.of_nat (length l) + 1) with (Z.of_nat (length l')) by (rewrite Hct; lia).
  unfold zfull. cbn [negb andb]. destruct ((_ <? _) || (max_entries <? _)) eqn:Hf; [done|]. apply orb_false_iff in Hf as [Hf _].
  assert (Hfit : kCompactWireHeaderBytes + Z.of_nat (length (enc w' l')) <= kCompactMaxBlobBytes) by lia.
  destruct (rewiden_sorted_repr w w' p l Hz (width_from_ge w s)) as (p1 & E1 & R1); [rewrite Hsz in Hfit; lia|]. rewrite E1. cbn [mbind result_bind].
  rewrite (unpack_blob_repr _ _ _ (zr_blob _ _ _ R1)). cbn [mbind result_bind].
  assert (Hx : elem_ok w' (s, member)). { split; [done|apply width_from_holds|]. cbn [snd]. apply orb_false_iff in Hb as [H1%Nat.eqb_neq H2]. lia. }
  destruct (insert_sorted_repr w' p1 l (s, member) R1 Hx Hm Hfit) as (p2 & E2 & R2). exists p2. split; [|done].
  cbn [fst snd] in E2. destruct (insert_offset s member p1) as [o| |]; cbn [mbind result_bind] in E2 |- *; [|done..]. by rewrite E2.
Qed.

(** The last steps of the update: the entry stays where it is, or it is taken out and put back. *)
Lemma zadd_move w p a old s member b i :
  zset_repr w p (a ++ (old, member) :: b) -> number s -> holds_at w s = true ->
  kCompactWireHeaderBytes + Z.of_nat (length (enc w (zinsert (s, member) (a ++ b)))) <= kCompactMaxBlobBytes ->
  exists p', (if sort_order_unchanged s member (mkLocate true (length (enc w a)) i old (last a) (head b))
              then p ← rescore_at (length (enc w a)) w s p; Ret (mkZAdd true false true, p)
              else p ← erase_at junk (length (enc w a)) p; at_ ← insert_offset s member p; p ← insert_sorted_at junk at_ s member p; Ret (mkZAdd true false true, p))
             = Ret (mkZAdd true false true, p') /\ zset_repr w p' (zinsert (s, member) (a ++ b)).
Proof.
  intros Hz Hs Hh Hfit. destruct (sort_order_unchanged _ _ _) eqn:Ho.
  - destruct (rescore_sorted_repr w p a old s member b (mkLocate true (length (enc w a)) i old (last a) (head b)) Hz Hs Hh eq_refl eq_refl Ho) as (p' & E & R). exists p'. by rewrite E.
  - destruct (erase_sorted_repr w p a (old, member) b Hz) as (p1 & E1 & R1). rewrite E1. cbn [mbind result_bind].
    destruct (zset_ok_delete _ _ _ (zr_ok _ _ _ Hz)) as (_ & _ & Hm). pose proof (br_elems _ _ _ (zr_blob _ _ _ Hz)) as Hf. apply Forall_app in Hf as [_ [Hx _]%Forall_cons].
    assert (Hx' : elem_ok w (s, member)) by (destruct Hx; by split).
    destruct (insert_sorted_repr w p1 (a ++ b) (s, member) R1 Hx' Hm Hfit) as (p2 & E2 & R2). exists p2. split; [|done].
    cbn [fst snd] in E2. destruct (insert_offset s member p1) as [o| |]; cbn [mbind result_bind] in E2 |- *; [|done..]. by rewrite E2.
Qed.

Lemma zadd_existing w p a old s member b max_entries :
  zset_repr w p (a ++ (old, member) :: b) -> number s -> bad_member member = false ->
  let w' := width_from w s in let l' := zinsert (s, member) (a ++ b) in
  if eqb old s then zadd junk s member max_entries p = Ret (mkZAdd false false true, p)
  else if zfull w' l' true max_entries then zadd junk s member max_entries p = Ret (mkZAdd false true true, p)
  else exists p', zadd junk s member max_entries p = Ret (mkZAdd true false true, p') /\ zset_repr w' p' l'.
Proof.
  intros Hz Hs Hb w' l'. unfold zadd. unfold bad_member in Hb. rewrite Hb. rewrite (unpack_blob_repr _ _ _ (zr_blob _ _ _ Hz)). cbn [mbind result_bind zhdr cwidth ccount clen].
  rewrite (width_for_spec s w Hs). fold w'. cbn [mbind result_bind]. destruct (repr_locate w p _ member s Hz) as [_ Hhit]. destruct (Hhit _ _ _ eq_refl) as [i Ei].
  rewrite Ei. cbn [mbind result_bind found old_score off_ andb negb]. destruct (eqb old s); [done|].
  destruct (update_size w' a old s member b) as [Hsz _]. fold l' in Hsz. rewrite projected_size, <- Hsz. unfold zfull. cbn [negb andb]. rewrite !orb_false_r.
  destruct (kCompactMaxBlobBytes <? _) eqn:Hf; [done|]. assert (Hfit : kCompactWireHeaderBytes + Z.of_nat (length (enc w' l')) <= kCompactMaxBlobBytes) by lia. clear Hf.
  pose proof (width_from_holds w s : holds_at w' s = true) as Hh. destruct (bool_decide (w' = w)) eqn:Ew.
  - apply bool_decide_eq_true in Ew. rewrite Ew in Hh, Hfit |- *. cbn [andb].
    destruct (zadd_move w p a old s member b i Hz Hs Hh Hfit) as (p' & E & R). exists p'. split; [|done].
    destruct (sort_order_unchanged _ _ _) eqn:Ho; [done|]. cbn [mbind result_bind]. rewrite (unpack_blob_repr _ _ _ (zr_blob _ _ _ Hz)). cbn [mbind result_bind].
    destruct (repr_find w p _ member Hz) as [_ Hfd]. rewrite Ei, (Hfd _ _ _ eq_refl). cbn [mbind result_bind of_option cwidth zhdr]. rewrite bool_decide_eq_true_2 by done. cbn [andb]. by rewrite Ho.
  - cbn [andb]. destruct (rewiden_sorted_repr w w' p _ Hz (width_from_ge w s)) as (p1 & E1 & R1); [by rewrite <- Hsz|]. rewrite Ew in E1. rewrite E1. cbn [mbind result_bind].
    rewrite (unpack_blob_repr _ _ _ (zr_blob _ _ _ R1)). cbn [mbind result_bind]. destruct (repr_locate w' p1 _ member s R1) as [_ Hhit1]. destruct (Hhit1 _ _ _ eq_refl) as [j Ej]. rewrite Ej. cbn [mbind result_bind].
    destruct (repr_find w' p1 _ member R1) as [_ Hfd]. rewrite (Hfd _ _ _ eq_refl). cbn [mbind result_bind of_option cwidth zhdr]. rewrite bool_decide_eq_true_2 by done. cbn [andb].
    by apply zadd_move.
Qed.

Lemma zadd_spec w p l s member max_entries :
  zset_repr w p l -> number s ->
  let w' := width_from w s in let l' := zupdate (s, member) l in let ex := bool_decide (is_Some (zscore member l)) in
  if bad_member member then zadd junk s member max_entries p = Ret (mkZAdd false true false, p)
  else if from_option (fun old => eqb old s) false (zscore member l) then zadd junk s member max_entries p = Ret (mkZAdd false false true, p)
  else if zfull w' l' ex max_entries then zadd junk s member max_entries p = Ret (mkZAdd false true ex, p)
  else exists p', zadd junk s member max_entries p = Ret (mkZAdd true false ex, p') /\ zset_repr w' p' l'.
Proof.
  intros Hz Hs w' l' ex. destruct (bad_member member) eqn:Hb; [unfold zadd; unfold bad_member in Hb; by rewrite Hb|]. unfold l', ex, zupdate. cbn [snd]. destruct (zscore member l) as [old|] eqn:E.
  - apply zscore_Some in E as (a & b & -> & Ha). rewrite (zdelete_split a old member b) by apply (zr_ok _ _ _ Hz). rewrite bool_decide_eq_true_2 by (by eexists). by apply (zadd_existing w p a old s member b).
  - apply zscore_None in E. rewrite (zdelete_absent member l E). cbn [from_option]. rewrite bool_decide_eq_false_2 by (intros [? ?]; done). by apply zadd_new.
Qed.

(** The narrowest width that holds every score. *)
Definition narrowest (l : list (Z * bytes)) (w : ScoreWidth) : ScoreWidth := foldl (fun w e => width_from w e.1) w l.

Lemma narrowest_run l w : Forall (fun e => number e.1) l -> narrowest_of l w = Ret (narrowest l w).
Proof.
  intros Hn. revert w. induction Hn as [|[s m] l Hs _ IH]; intros w; [done|]. cbn [narrowest_of]. rewrite (width_for_spec s w Hs). cbn [mbind result_bind]. by rewrite IH.
Qed.

Lemma narrowest_holds l w :
  (width_index w <= width_index (narrowest l w))%nat /\ Forall (fun e => holds_at (narrowest l w) e.1 = true) l /\
  (forall u, (width_index w <= width_index u)%nat -> Forall (fun e => holds_at u e.1 = true) l -> (width_index (narrowest l w) <= width_index u)%nat).
Proof.
  revert w. induction l as [|[s m] l IH]; intros w; cbn [narrowest foldl]; [by split_and!; [|constructor|]|]. destruct (IH (width_from w s)) as (H1 & H2 & H3).
  pose proof (width_from_ge w s). split_and!; [unfold narrowest in *; cbn [fst]; lia| |].
  - constructor; [|done]. cbn [fst]. apply (holds_mono (width_from w s)); [done|apply width_from_holds].
  - intros u Hu [Hs Hl]%Forall_cons. cbn [fst] in *. apply H3; [|done]. by apply width_from_least.
Qed.

Lemma optimize_spec w p l :
  zset_repr w p l -> exists p', optimize junk p = Ret p' /\ zset_repr (if decide (l = []) then w else narrowest l I16) p' l.
Proof.
  intros Hz. pose proof (zr_blob _ _ _ Hz) as Hr. unfold optimize, for_each. rewrite (unpack_blob_repr _ _ _ Hr). cbn [mbind result_bind zhdr ccount cwidth]. destruct (decide (l = [])) as [->|Hne]; [by exists p|].
  replace (Z.of_nat (length l) =? 0) with false by (destruct l; [done|cbn; lia]). rewrite Nat2Z.id. pose proof (walks_repr _ _ _ Hr) as Hw.
  pose proof (elements_walk w (cmem p) [] l []) as He. rewrite app_nil_r in He. specialize (He Hw). change (length (enc w [])) with 0%nat in He. rewrite He. cbn [mbind result_bind].
  rewrite (narrowest_run l I16) by apply (zr_ok _ _ _ Hz). cbn [mbind result_bind]. destruct (narrowest_holds l I16) as (_ & Hh & Hleast).
  case_bool_decide as E; [exists p; by rewrite E|]. destruct (rewiden_repr junk w (narrowest l I16) p l Hr Hh) as (p' & Er & R); [|exists p'; split; [done|by split; [apply Hz|]]].
  assert (Hle : (width_index (narrowest l I16) <= width_index w)%nat). { apply Hleast; [cbn; lia|]. eapply Forall_impl; [apply Hr|]. by intros x [_ Hx _]. }
  pose proof (length_enc_width w (narrowest l I16) l) as Hl. pose proof (br_size _ _ _ Hr). assert (score_width_bytes (narrowest l I16) <= score_width_bytes w)%nat by (destruct (narrowest l I16), w; cbn in *; lia). nia.
Qed.

Lemma zscore_spec w p l member : zset_repr w p l -> score member p = Ret (zscore member l).
Proof.
  intros Hz. unfold score. rewrite (unpack_blob_repr _ _ _ (zr_blob _ _ _ Hz)). cbn [mbind result_bind]. destruct (repr_find w p l member Hz) as [Hmiss Hhit]. destruct (zscore member l) as [s|] eqn:E.
  - apply zscore_Some in E as (a & b & -> & _). rewrite (Hhit a s b eq_refl). cbn [mbind result_bind zhdr cwidth]. by rewrite (score_walk _ _ a (s, member) b (walks_repr _ _ _ (zr_blob _ _ _ Hz))).
  - apply zscore_None in E. by rewrite (Hmiss E).
Qed.

Lemma zremove_spec w p l member :
  zset_repr w p l ->
  if bool_decide (member ∈ l.*2) then exists p', zremove junk member p = Ret (true, p') /\ zset_repr w p' (zdelete member l)
  else zremove junk member p = Ret (false, p).
Proof.
  intros Hz. unfold zremove. rewrite (unpack_blob_repr _ _ _ (zr_blob _ _ _ Hz)). cbn [mbind result_bind]. destruct (repr_find w p l member Hz) as [Hmiss Hhit]. case_bool_decide as Hin.
  - destruct (zscore member l) as [s|] eqn:E; [|by apply zscore_None in E]. apply zscore_Some in E as (a & b & -> & _). rewrite (Hhit a s b eq_refl). cbn [mbind result_bind].
    destruct (erase_sorted_repr w p a (s, member) b Hz) as (p' & E & R). rewrite E. exists p'. rewrite (zdelete_split a s member b) by apply (zr_ok _ _ _ Hz). by split.
  - by rewrite (Hmiss Hin).
Qed.

Lemma zrank_spec w p l member : zset_repr w p l -> rank member p = Ret (zrank member l).
Proof.
  intros Hz. unfold rank. rewrite (unpack_blob_repr _ _ _ (zr_blob _ _ _ Hz)). cbn [mbind result_bind zhdr ccount cwidth]. rewrite Nat2Z.id.
  pose proof (rank_walk w (cmem p) member [] l 0 (walks_repr _ _ _ (zr_blob _ _ _ Hz))) as H. change (length (enc w [])) with 0%nat in H. rewrite H. by destruct (zrank member l).
Qed.

Lemma zrange_spec w p l :
  zset_repr w p l -> for_each p = Ret l /\
  (forall first n, (first + n <= length l)%nat -> for_range first n false p = Ret (take n (drop first l))) /\
  (forall first n, for_range first n true p = Ret (take n (drop first (rev l)))).
Proof.
  intros Hz. pose proof (walks_repr _ _ _ (zr_blob _ _ _ Hz)) as Hw. unfold for_each, for_range. rewrite (unpack_blob_repr _ _ _ (zr_blob _ _ _ Hz)). cbn [mbind result_bind zhdr ccount cwidth clen]. rewrite !Nat2Z.id.
  assert (Hfrom : forall a b c, l = a ++ b ++ c -> elements_from (length b) w (length (enc w a)) (cmem p) = Ret b) by (intros a b c ->; by apply (elements_walk w (cmem p) a b c)).
  split_and!.
  - apply (Hfrom [] l []). by rewrite app_nil_r.
  - intros first n Hn. destruct (Nat.eqb_spec n 0) as [->|_]; [by rewrite take_0|]. cbn [negb].
    assert (El : l = take first l ++ take n (drop first l) ++ drop n (drop first l)) by (by rewrite !take_drop).
    assert (H1 : length (take first l) = first) by (rewrite length_take; lia). assert (H2 : length (take n (drop first l)) = n) by (rewrite length_take, length_drop; lia).
    unfold offset_of_position. cbn [cwidth zhdr]. pose proof (position_walk w (cmem p) [] (take first l) (drop first l)) as Hpos. cbn [app] in Hpos. rewrite take_drop, H1 in Hpos. change (length (enc w [])) with 0%nat in Hpos.
    rewrite (Hpos Hw). cbn [mbind result_bind]. rewrite <- H2 at 1. exact (Hfrom _ _ _ El).
  - intros first n. destruct (Nat.eqb_spec n 0) as [->|_]; [by rewrite take_0|]. cbn [negb].
    destruct (skip_walk w (cmem p) (zhdr w l) eq_refl first l []) as (a & c & -> & Ea & Es); [by rewrite app_nil_r|]. cbn [zhdr clen] in Es |- *. rewrite ?Nat2Z.id. rewrite Es. cbn [mbind result_bind].
    rewrite (back_walk w (cmem p) (zhdr w (a ++ c)) eq_refl n a c Hw). by rewrite Ea.
Qed.

Lemma zset_repr_empty : zset_repr I16 None [].
Proof. split; [split; constructor|split; [constructor|vm_compute; discriminate|done]]. Qed.

Lemma zscore_delete m m' l : zscore m' (zdelete m l) = if decide (m' = m) then None else zscore m' l.
Proof.
  unfold zdelete. induction l as [|[s x] l IH]; [by destruct (decide (m' = m))|]. rewrite filter_cons. cbn [snd]. destruct (decide (x <> m)) as [Hx|Hx]; cbn [zscore]; rewrite IH.
  - destruct (decide (x = m')) as [->|]; [by rewrite decide_False by done|done].
  - assert (x = m) as -> by (by apply dec_stable). destruct (decide (m' = m)) as [->|]; [done|by rewrite decide_False by congruence].
Qed.

Lemma zscore_insert x m l : x.2 ∉ l.*2 -> zscore m (zinsert x l) = if decide (m = x.2) then Some x.1 else zscore m l.
Proof.
  destruct x as [s x]. cbn [fst snd]. induction l as [|[s' y] l IH]; cbn [zinsert zscore fst snd].
  - intros _. destruct (decide (x = m)) as [->|]; [by rewrite decide_True|by rewrite decide_False by congruence].
  - intros [Hy Hl]%not_elem_of_cons. cbn in Hy. destruct (less_than _ _ _ _); cbn [zscore].
    + destruct (decide (x = m)) as [->|]; [by rewrite decide_True|by rewrite (decide_False (P := m = x)) by congruence].
    + rewrite (IH Hl). destruct (decide (y = m)) as [->|]; [by rewrite decide_False by congruence|done].
Qed.

(** C28: the compact sorted set is a sorted set.  For a blob that holds the entries [l] with their scores
    at the width [w]: the size, the score and the rank of a member, the walk and the ranges in both
    directions read [l], which is in the order of score and member; adding a score (a number, which NaN is
    not) answers that nothing changed if the member has it, asks for the full form and changes nothing if the
    member or the result is too large for the compact one, and otherwise leaves the entries with that
    member's score replaced or added in its place, at the narrowest width that holds them and is not
    narrower than before; no other member's score changes; removing takes out exactly the member;
    [optimize] keeps the entries and narrows them as far as they allow.  Every access stays inside
    the blob. *)
Theorem zset_listpack_refines (w : ScoreWidth) (p : CompactListpack) (l : list (Z * bytes)) (s : Z) (member : bytes) :
  zset_repr w p l -> number s ->
  StronglySorted zlt l /\ zsize p = Ret (Z.of_nat (length l)) /\
  score member p = Ret (zscore member l) /\ rank member p = Ret (zrank member l) /\
  for_each p = Ret l /\
  (forall first n, (first + n <= length l)%nat -> for_range first n false p = Ret (take n (drop first l))) /\
  (forall first n, for_range first n true p = Ret (take n (drop first (rev l)))) /\
  (forall max_entries, let ex := bool_decide (is_Some (zscore member l)) in
     if bad_member member then zadd junk s member max_entries p = Ret (mkZAdd false true false, p)
     else if from_option (fun old => eqb old s) false (zscore member l) then zadd junk s member max_entries p = Ret (mkZAdd false false true, p)
     else if zfull (width_from w s) (zupdate (s, member) l) ex max_entries then zadd junk s member max_entries p = Ret (mkZAdd false true ex, p)
     else exists p', zadd junk s member max_entries p = Ret (mkZAdd true false ex, p') /\ zset_repr (width_from w s) p' (zupdate (s, member) l)) /\
  (forall m, zscore m (zupdate (s, member) l) = if decide (m = member) then Some s else zscore m l) /\
  (if bool_decide (member ∈ l.*2) then exists p', zremove junk member p = Ret (true, p') /\ zset_repr w p' (zdelete member l)
   else zremove junk member p = Ret (false, p)) /\
  (exists p', optimize junk p = Ret p' /\ zset_repr (if decide (l = []) then w else narrowest l I16) p' l).
Proof.
  intros Hz Hs. destruct (zrange_spec w p l Hz) as (H1 & H2 & H3). split_and!; [apply Hz| |by eapply zscore_spec|by eapply zrank_spec|done|done|done|..].
  - unfold zsize. by rewrite (unpack_blob_repr _ _ _ (zr_blob _ _ _ Hz)).
  - intros max_entries. exact (zadd_spec w p l s member max_entries Hz Hs).
  - intros m. unfold zupdate. cbn [snd]. rewrite zscore_insert; [cbn [fst snd]; rewrite zscore_delete; by destruct (decide (m = member))|].
    cbn [snd]. apply zscore_None. rewrite zscore_delete. by rewrite decide_True.
  - by apply zremove_spec.
  - by apply optimize_spec.
Qed.
End spec.

(** ** A concrete run *)

(** The scores 1, -2 and 1.5. *)
Definition one : Z := 0x3FF0000000000000.
Definition minus_two : Z := 0xC000000000000000.
Definition one_and_half : Z := 0x3FF8000000000000.

Lemma example_numbers : number one /\ number minus_two /\ number one_and_half.
Proof. repeat split; done. Qed.

Definition example_zset : CompactListpack :=
  match zadd x00 one (str "b") 8 None with Ret (_, p) => match zadd x00 one (str "a") 8 p with Ret (_, p) => p | _ => None end | _ => None end.

Lemma example_zset_repr : zset_repr I16 example_zset [(one, str "a"); (one, str "b")].
Proof.
  destruct example_numbers as (H1 & _ & _). pose proof (zadd_spec x00 I16 None [] one (str "b") 8 zset_repr_empty H1) as Ha. cbv zeta in Ha.
  replace (bad_member _) with false in Ha by done. replace (zfull _ _ _ _) with false in Ha by (vm_compute; reflexivity). destruct Ha as (p1 & E1 & R1).
  replace (width_from I16 one) with I16 in R1 by (vm_compute; reflexivity). replace (zupdate _ _) with [(one, str "b")] in R1 by (vm_compute; reflexivity).
  pose proof (zadd_spec x00 I16 p1 _ one (str "a") 8 R1 H1) as Hb. cbv zeta in Hb. replace (bad_member _) with false in Hb by done. replace (from_option _ _ _) with false in Hb by (vm_compute; reflexivity).
  replace (zfull _ _ _ _) with false in Hb by (vm_compute; reflexivity). destruct Hb as (p2 & E2 & R2).
  replace (width_from I16 one) with I16 in R2 by (vm_compute; reflexivity). replace (zupdate _ _) with [(one, str "a"); (one, str "b")] in R2 by (vm_compute; reflexivity).
  unfold example_zset. rewrite E1, E2. done.
Qed.

(** Moving a member to a fractional score widens the blob and reorders it. *)
Lemma zset_listpack_refines_witness :
  score (str "b") example_zset = Ret (Some one) /\ rank (str "b") example_zset = Ret (Some 1%nat) /\
  exists p', zadd x00 one_and_half (str "a") 8 example_zset = Ret (mkZAdd true false true, p') /\ zset_repr F64 p' [(one, str "b"); (one_and_half, str "a")].
Proof.
  destruct example_numbers as (_ & _ & H). pose proof (zset_listpack_refines x00 I16 example_zset _ one_and_half (str "b") example_zset_repr H) as (_ & _ & Hs & Hr & _).
  split; [exact Hs|]. split; [exact Hr|].
  pose proof (zset_listpack_refines x00 I16 example_zset _ one_and_half (str "a") example_zset_repr H) as (_ & _ & _ & _ & _ & _ & _ & Ha & _). specialize (Ha 8). cbv zeta in Ha.
  replace (bad_member _) with false in Ha by done. replace (from_option _ _ _) with false in Ha by (vm_compute; reflexivity). replace (zfull _ _ _ _) with false in Ha by (vm_compute; reflexivity).
  replace (bool_decide _) with true in Ha by (vm_compute; reflexivity). replace (width_from I16 one_and_half) with F64 in Ha by (vm_compute; reflexivity).
  replace (zupdate _ _) with [(one, str "b"); (one_and_half, str "a")] in Ha by (vm_compute; reflexivity). exact Ha.
Defined.
