(* ===== verification/Fenwick.v ===== *)
(** * Fenwick trees of counts

    The index of [include/goblin/core/segmented_list.hpp] over the sizes of the leaves: node
    [i] of the tree, from 1, holds the sum of the [lowbit i] counts that end at the [i]-th.
    Adding to a count, summing a prefix and finding the leaf of a rank are the loops of
    [add_count], [prefix_count] and [locate]; this file shows what they compute.  The counts
    are 32-bit and wrap. *)

From S2P Require Import Prelude.
From Stdlib Require Import ZArith Lia ZifyBool.

Local Open Scope Z_scope.

(** [node & (~node + 1)], the complement being the negation, and [node & (node - 1)]. *)
Definition lowbit (node : Z) : Z := Z.land node (- node).
Definition clear_lowbit (node : Z) : Z := Z.land node (node - 1).

(** [add_count]; the delta is added modulo [2 ^ 32], also when it is negative. *)
Fixpoint add_loop (fuel : nat) (node delta : Z) (tree : list Z) : option (list Z) :=
  if node <? Z.of_nat (length tree) then
    match fuel with
    | O => None
    | S fuel =>
        v ← tree !! Z.to_nat node;
        add_loop fuel (node + lowbit node) delta (<[Z.to_nat node := wrap 32 (v + delta)]> tree)
    end
  else Some tree.
Definition add_count (leaf delta : Z) (tree : list Z) : option (list Z) := add_loop (length tree) (leaf + 1) delta tree.

(** [rebuild_index] after the vector was assigned zeros. *)
Fixpoint add_counts (leaf : Z) (counts : list Z) (tree : list Z) : option (list Z) :=
  match counts with
  | [] => Some tree
  | count :: counts => tree ← add_count leaf (wrap 32 count) tree; add_counts (leaf + 1) counts tree
  end.
Definition build (counts : list Z) : option (list Z) := add_counts 0 counts (replicate (S (length counts)) 0).

Fixpoint prefix_loop (fuel : nat) (node sum : Z) (tree : list Z) : option Z :=
  if node =? 0 then Some sum
  else
    match fuel with
    | O => None
    | S fuel => v ← tree !! Z.to_nat node; prefix_loop fuel (clear_lowbit node) (wrap 32 (sum + v)) tree
    end.
Definition prefix_count (leaves : Z) (tree : list Z) : option Z := prefix_loop (Z.to_nat leaves) leaves 0 tree.

(** The descent of [locate]: the leaf and the rank in it. *)
Fixpoint search_loop (fuel : nat) (step prefix_leaves remaining : Z) (tree : list Z) : option (Z * Z) :=
  if step =? 0 then Some (prefix_leaves, remaining - 1)
  else
    match fuel with
    | O => None
    | S fuel =>
        let next := prefix_leaves + step in
        if next <? Z.of_nat (length tree) then
          v ← tree !! Z.to_nat next;
          if v <? remaining then search_loop fuel (Z.shiftr step 1) next (wrap 32 (remaining - v)) tree
          else search_loop fuel (Z.shiftr step 1) prefix_leaves remaining tree
        else search_loop fuel (Z.shiftr step 1) prefix_leaves remaining tree
    end.
Definition bit_floor (n : Z) : Z := if n =? 0 then 0 else 2 ^ Z.log2 n.
Definition locate (rank : Z) (tree : list Z) : option (Z * Z) :=
  let leaves := Z.of_nat (length tree) - 1 in
  search_loop (Z.to_nat leaves + 1) (bit_floor leaves) 0 (wrap 32 (rank + 1)) tree.

(** ** The lowest bit *)

Lemma land_double a b : Z.land (2 * a) (2 * b) = 2 * Z.land a b.
Proof. rewrite <- !(Z.mul_comm _ 2), <- !(Z.shiftl_mul_pow2 _ 1) by lia. symmetry. apply Z.shiftl_land. Qed.

Lemma land_odd_double a b : Z.land (2 * a + 1) (2 * b) = 2 * Z.land a b.
Proof.
  apply Z.bits_inj'. intros n Hn. rewrite Z.land_spec. destruct (Z.eq_dec n 0) as [->|Hn0].
  - by rewrite Z.testbit_odd_0, !Z.testbit_even_0.
  - replace n with (Z.succ (Z.pred n)) by lia. rewrite Z.testbit_odd_succ, !Z.testbit_even_succ by lia. by rewrite Z.land_spec.
Qed.

Lemma land_odd_odd a b : Z.land (2 * a + 1) (2 * b + 1) = 2 * Z.land a b + 1.
Proof.
  apply Z.bits_inj'. intros n Hn. rewrite Z.land_spec. destruct (Z.eq_dec n 0) as [->|Hn0].
  - by rewrite !Z.testbit_odd_0.
  - replace n with (Z.succ (Z.pred n)) by lia. rewrite !Z.testbit_odd_succ by lia. by rewrite Z.land_spec.
Qed.

(** A positive number is an odd multiple of its lowest bit. *)
Lemma lowbit_form i : 0 < i -> exists k q, 0 <= k /\ 0 <= q /\ i = (2 * q + 1) * 2 ^ k /\ lowbit i = 2 ^ k /\ clear_lowbit i = i - 2 ^ k.
Proof.
  destruct i as [|p|p]; [lia| |lia]. intros _. unfold lowbit, clear_lowbit. induction p as [p _|p IH|].
  - exists 0, (Z.pos p). rewrite Pos2Z.inj_xI. change (2 ^ 0) with 1. split_and!; [lia|lia|lia| |].
    + replace (- (2 * Z.pos p + 1)) with (2 * (- Z.pos p - 1) + 1) by lia. rewrite land_odd_odd. replace (- Z.pos p - 1) with (Z.lnot (Z.pos p)) by (unfold Z.lnot; lia). by rewrite Z.land_lnot_diag.
    + replace (2 * Z.pos p + 1 - 1) with (2 * Z.pos p) by lia. rewrite land_odd_double, Z.land_diag. lia.
  - destruct IH as (k & q & Hk & Hq & E1 & E2 & E3). exists (k + 1), q. rewrite Pos2Z.inj_xO, Z.pow_add_r by lia. change (2 ^ 1) with 2. split_and!; [lia|lia|lia| |].
    + replace (- (2 * Z.pos p)) with (2 * (- Z.pos p)) by lia. rewrite land_double. lia.
    + replace (2 * Z.pos p - 1) with (2 * (Z.pos p - 1) + 1) by lia. rewrite Z.land_comm, land_odd_double, Z.land_comm. lia.
  - exists 0, 0. done.
Qed.

Lemma lowbit_range i : 0 < i -> 0 < lowbit i <= i /\ clear_lowbit i = i - lowbit i.
Proof. intros Hi. destruct (lowbit_form i Hi) as (k & q & Hk & Hq & E & -> & ->). assert (0 < 2 ^ k) by (apply Z.pow_pos_nonneg; lia). split; [nia|done]. Qed.

(** Below a multiple of a power, the lowest bit is that of the remainder. *)
Lemma lowbit_add a r k : 0 <= k -> 0 < r < 2 ^ k -> 0 <= a -> lowbit (a * 2 ^ k + r) = lowbit r.
Proof.
  intros Hk Hr Ha. destruct (lowbit_form r ltac:(lia)) as (k1 & q1 & Hk1 & Hq1 & E1 & L1 & _). rewrite L1.
  assert (Hlt : k1 < k). { apply (Z.pow_lt_mono_r_iff 2); [lia..|]. assert (0 < 2 ^ k1) by (apply Z.pow_pos_nonneg; lia). nia. }
  assert (Hi : 0 < a * 2 ^ k + r) by nia. destruct (lowbit_form (a * 2 ^ k + r) Hi) as (k2 & q2 & Hk2 & Hq2 & E2 & -> & _).
  assert (Es : a * 2 ^ k + r = (2 * (a * 2 ^ (k - k1 - 1) + q1) + 1) * 2 ^ k1).
  { rewrite E1. replace (2 ^ k) with (2 * 2 ^ (k - k1 - 1) * 2 ^ k1) by (rewrite <- Z.pow_succ_r, <- Z.pow_add_r by lia; f_equal; lia). lia. }
  rewrite Es in E2. f_equal. assert (Hodd : forall u v m n, 0 <= m < n -> (2 * u + 1) * 2 ^ m = (2 * v + 1) * 2 ^ n -> False).
  { intros u v m n Hmn E. replace n with (m + 1 + (n - m - 1)) in E by lia. rewrite !Z.pow_add_r in E by lia. change (2 ^ 1) with 2 in E. assert (0 < 2 ^ m) by (apply Z.pow_pos_nonneg; lia).
    assert (2 * u + 1 = 2 * ((2 * v + 1) * 2 ^ (n - m - 1))) by nia. lia. }
  destruct (Z.lt_trichotomy k1 k2) as [H|[H|H]]; [exfalso; by apply (Hodd _ _ k1 k2 ltac:(lia) E2)|done|exfalso; by apply (Hodd _ _ k2 k1 ltac:(lia) (eq_sym E2))].
Qed.

Lemma lowbit_pow a k : 0 <= k -> 0 <= a -> lowbit ((2 * a + 1) * 2 ^ k) = 2 ^ k.
Proof.
  intros Hk Ha. assert (Hp : 0 < 2 ^ k) by (apply Z.pow_pos_nonneg; lia). replace ((2 * a + 1) * 2 ^ k) with (a * 2 ^ (k + 1) + 2 ^ k) by (rewrite Z.pow_add_r by lia; lia).
  rewrite lowbit_add; [|lia|rewrite Z.pow_add_r by lia; lia|done].
  destruct (lowbit_form (2 ^ k) Hp) as (k2 & q2 & Hk2 & Hq2 & E2 & -> & _). destruct (Z.eq_dec q2 0) as [->|]; [lia|]. exfalso.
  assert (Hlt : k2 < k) by (apply (Z.pow_lt_mono_r_iff 2); [lia..|]; assert (0 < 2 ^ k2) by (apply Z.pow_pos_nonneg; lia); nia).
  replace k with (k2 + 1 + (k - k2 - 1)) in E2 by lia. rewrite !Z.pow_add_r in E2 by lia. change (2 ^ 1) with 2 in E2. assert (0 < 2 ^ k2) by (apply Z.pow_pos_nonneg; lia).
  assert (2 * 2 ^ (k - k2 - 1) = 2 * q2 + 1) by nia. lia.
Qed.

(** Two ranges that share a place are nested: the next node up from the smaller is within the larger. *)
Definition covers (i j : Z) : Prop := i - lowbit i < j <= i.

Lemma covers_next i j : 0 < i -> covers i j -> covers (i + lowbit i) j.
Proof.
  intros Hi [H1 H2]. destruct (lowbit_form i Hi) as (k & q & Hk & Hq & E & L & _). assert (Hp : 0 < 2 ^ k) by (apply Z.pow_pos_nonneg; lia). unfold covers.
  assert (Hs : i + lowbit i = (q + 1) * 2 ^ (k + 1)) by (rewrite L, E, Z.pow_add_r by lia; lia). assert (Hpos : 0 < i + lowbit i) by lia.
  destruct (lowbit_form _ Hpos) as (k2 & q2 & Hk2 & Hq2 & E2 & L2 & _). assert (Hge : 2 ^ (k + 1) <= lowbit (i + lowbit i)).
  { rewrite L2. apply Z.pow_le_mono_r; [lia|]. destruct (Z.le_gt_cases (k + 1) k2) as [|Hlt]; [done|exfalso]. rewrite Hs in E2.
    replace (k + 1) with (k2 + 1 + (k - k2)) in E2 by lia. rewrite !Z.pow_add_r in E2 by lia. change (2 ^ 1) with 2 in E2. assert (0 < 2 ^ k2) by (apply Z.pow_pos_nonneg; lia).
    assert (2 * ((q + 1) * 2 ^ (k - k2)) = 2 * q2 + 1) by nia. lia. }
  rewrite Z.pow_add_r in Hge by lia. change (2 ^ 1) with 2 in Hge. split; lia.
Qed.

Lemma covers_above i i' j : 0 < i -> covers i j -> covers i' j -> i < i' -> i + lowbit i <= i'.
Proof.
  intros Hi Hc [H1 H2] Hlt. destruct (lowbit_form i' ltac:(lia)) as (k & q & Hk & Hq & E & L & _). rewrite L in H1. destruct Hc as [_ Hj].
  assert (Hb : i' - 2 ^ k = q * 2 ^ (k + 1)) by (rewrite E, Z.pow_add_r by lia; lia). set (r := i - (i' - 2 ^ k)). assert (Hr : 0 < r < 2 ^ k) by (unfold r; lia).
  assert (Hl : lowbit i = lowbit r). { replace i with (2 * q * 2 ^ k + r) by (unfold r; rewrite Hb, Z.pow_add_r by lia; lia). apply lowbit_add; lia. }
  rewrite Hl. destruct (lowbit_form r ltac:(lia)) as (k2 & q2 & Hk2 & Hq2 & E2 & L2 & _). assert (0 < 2 ^ k2) by (apply Z.pow_pos_nonneg; lia).
  assert (Hlt2 : k2 < k) by (apply (Z.pow_lt_mono_r_iff 2); [lia..|]; nia).
  assert (r + lowbit r <= 2 ^ k); [|unfold r in *; lia]. rewrite L2. replace k with (k2 + 1 + (k - k2 - 1)) in Hr |- * by lia. rewrite !Z.pow_add_r in Hr |- * by lia. change (2 ^ 1) with 2 in *.
  rewrite E2 in Hr |- *. assert (2 * q2 + 1 < 2 * 2 ^ (k - k2 - 1)) by nia. nia.
Qed.

Lemma covers_self j : 0 < j -> covers j j.
Proof. intros Hj. destruct (lowbit_range j Hj). unfold covers. lia. Qed.

(** ** The tree of a list of counts *)

Definition zsum (l : list Z) : Z := foldr Z.add 0 l.
Definition psum (counts : list Z) (i : Z) : Z := zsum (take (Z.to_nat i) counts).

Record tree_ok (tree counts : list Z) : Prop := mkTreeOk {
  tk_length : length tree = S (length counts);
  tk_nodes : forall i, 0 < i <= Z.of_nat (length counts) -> tree !! Z.to_nat i = Some (wrap 32 (psum counts i - psum counts (i - lowbit i)));
}.

Lemma zsum_app a b : zsum (a ++ b) = zsum a + zsum b.
Proof. induction a as [|x a IH]; cbn; [done|]. unfold zsum in *. cbn. lia. Qed.

Lemma psum_all counts i : Z.of_nat (length counts) <= i -> psum counts i = zsum counts.
Proof. intros Hi. unfold psum. rewrite take_ge; [done|lia]. Qed.

Lemma psum_add counts leaf c delta i :
  counts !! leaf = Some c -> 0 <= i -> psum (<[leaf := c + delta]> counts) i = psum counts i + (if Z.of_nat leaf + 1 <=? i then delta else 0).
Proof.
  intros Hc Hi. unfold psum. destruct (Z.leb_spec (Z.of_nat leaf + 1) i) as [H|H].
  - destruct (list_elem_of_split_length counts leaf c Hc) as (a & b & -> & ->). rewrite insert_app_r_alt, Nat.sub_diag by done. cbn [list_insert].
    rewrite !take_app_ge by lia. replace (Z.to_nat i - length a)%nat with (S (Z.to_nat i - length a - 1)) by lia. cbn [take insert list_insert]. rewrite !zsum_app. unfold zsum at 2 4. cbn. fold (zsum (take (Z.to_nat i - length a - 1) b)). lia.
  - rewrite take_insert_ge by lia. lia.
Qed.

Lemma wrap_add w a b : wrap w (wrap w a + b) = wrap w (a + b).
Proof. unfold wrap. apply Zplus_mod_idemp_l. Qed.

Definition coversb (i j : Z) : bool := (i - lowbit i <? j) && (j <=? i).

Lemma coversb_spec i j : coversb i j = true <-> covers i j.
Proof. unfold coversb, covers. lia. Qed.

(** The loop reaches exactly the nodes whose range has the leaf. *)
Lemma add_loop_spec counts j delta fuel node tree :
  0 < j <= node -> (Z.of_nat (length counts) < node \/ covers node j) -> Z.of_nat (length counts) + 1 <= node + Z.of_nat fuel -> length tree = S (length counts) ->
  (forall i, 0 < i <= Z.of_nat (length counts) -> tree !! Z.to_nat i = Some (wrap 32 (psum counts i - psum counts (i - lowbit i) + (if coversb i j && (i <? node) then delta else 0)))) ->
  exists tree', add_loop fuel node delta tree = Some tree' /\ length tree' = S (length counts) /\
    forall i, 0 < i <= Z.of_nat (length counts) -> tree' !! Z.to_nat i = Some (wrap 32 (psum counts i - psum counts (i - lowbit i) + (if coversb i j then delta else 0))).
Proof.
  revert node tree. induction fuel as [|fuel IH]; intros node tree Hj Hn Hf Hl Ht; cbn [add_loop]; rewrite Hl.
  - replace (_ <? _) with false by lia. exists tree. split_and!; [done|done|]. intros i Hi. rewrite (Ht i Hi). replace (i <? node) with true by lia. by rewrite andb_true_r.
  - destruct (Z.ltb_spec node (Z.of_nat (S (length counts)))) as [Hlt|Hge].
    + destruct Hn as [Hn|Hc]; [lia|]. rewrite (Ht node) by lia. rewrite Z.ltb_irrefl, andb_false_r. cbn [mbind option_bind]. destruct (lowbit_range node ltac:(lia)) as [Hlow _].
      apply IH; [lia|right; by apply covers_next; lia || done|lia|by rewrite length_insert|].
      intros i Hi. destruct (Z.eq_dec i node) as [->|Hne].
      * rewrite list_lookup_insert_eq by lia. rewrite (proj2 (coversb_spec node j) Hc). replace (node <? node + lowbit node) with true by lia. cbn [andb]. rewrite wrap_add. do 2 f_equal. lia.
      * rewrite list_lookup_insert_ne by lia. rewrite (Ht i Hi). do 3 f_equal. destruct (coversb i j) eqn:Hci; cbn [andb]; [|done]. apply coversb_spec in Hci.
        destruct (Z.ltb_spec i node) as [H|H]; [by replace (i <? node + lowbit node) with true by lia|].
        pose proof (covers_above node i j ltac:(lia) Hc Hci ltac:(lia)). by replace (i <? node + lowbit node) with false by lia.
    + exists tree. split_and!; [done|done|]. intros i Hi. rewrite (Ht i Hi). replace (i <? node) with true by lia. by rewrite andb_true_r.
Qed.

Lemma add_count_ok tree counts leaf c delta :
  tree_ok tree counts -> counts !! leaf = Some c -> exists tree', add_count (Z.of_nat leaf) delta tree = Some tree' /\ tree_ok tree' (<[leaf := c + delta]> counts).
Proof.
  intros [Hl Ht] Hc. pose proof (lookup_lt_Some _ _ _ Hc) as Hlt. unfold add_count. set (j := Z.of_nat leaf + 1).
  destruct (add_loop_spec counts j delta (length tree) j tree) as (tree' & E & Hl' & Ht'); [lia|right; apply covers_self; lia|rewrite Hl; lia|done| |].
  - intros i Hi. rewrite (Ht i Hi). destruct (coversb i j && (i <? j)) eqn:Ec; [|do 2 f_equal; lia]. unfold coversb in Ec. lia.
  - exists tree'. split; [done|]. split; [by rewrite length_insert|]. rewrite length_insert. intros i Hi. rewrite (Ht' i Hi). destruct (lowbit_range i ltac:(lia)) as [Hlow _].
    rewrite !(psum_add counts leaf c delta) by (done || lia). fold j. do 2 f_equal. unfold coversb. destruct (Z.ltb_spec (i - lowbit i) j), (Z.leb_spec j i), (Z.leb_spec j (i - lowbit i)); cbn [andb]; lia.
Qed.

(** A count added modulo [2 ^ 32] is the count added. *)
Lemma tree_ok_wrap tree counts counts' : tree_ok tree counts -> length counts = length counts' -> (forall i, wrap 32 (psum counts i) = wrap 32 (psum counts' i)) -> tree_ok tree counts'.
Proof.
  intros [Hl Ht] He Hw. split; [by rewrite <- He|]. intros i Hi. rewrite Ht by lia. f_equal. unfold wrap in *. rewrite Zminus_mod, !Hw, <- Zminus_mod. done.
Qed.

Lemma add_counts_ok tree done_ counts :
  tree_ok tree (done_ ++ replicate (length counts) 0) -> exists tree', add_counts (Z.of_nat (length done_)) counts tree = Some tree' /\ tree_ok tree' (done_ ++ counts).
Proof.
  revert tree done_. induction counts as [|c counts IH]; intros tree done_ Hk; cbn [add_counts length replicate]; [by exists tree|].
  destruct (add_count_ok tree _ (length done_) 0 (wrap 32 c) Hk) as (t1 & E1 & K1); [by apply list_lookup_middle|]. rewrite E1. cbn [mbind option_bind].
  rewrite insert_app_r_alt, Nat.sub_diag in K1 by done. change (<[0%nat:=0 + wrap 32 c]> (replicate (length (c :: counts)) 0)) with ((0 + wrap 32 c) :: replicate (length counts) 0) in K1.
  assert (K2 : tree_ok t1 ((done_ ++ [c]) ++ replicate (length counts) 0)).
  { apply (tree_ok_wrap _ _ _ K1); [rewrite !length_app; cbn; lia|]. intros i. unfold psum. rewrite <- app_assoc. cbn [app]. rewrite !take_app, !zsum_app. destruct (Z.to_nat i - length done_)%nat as [|n]; [done|]. cbn [take].
    unfold zsum at 2 4. cbn [foldr]. fold (zsum (take n (replicate (length counts) 0))). set (x := zsum (take _ done_)). set (y := zsum _). replace (x + (0 + wrap 32 c + y)) with (wrap 32 c + (x + y)) by lia. replace (x + (c + y)) with (c + (x + y)) by lia. apply wrap_add. }
  destruct (IH t1 (done_ ++ [c]) K2) as (t2 & E2 & K3). exists t2. rewrite length_app in E2. cbn [length] in E2. rewrite Nat2Z.inj_add in E2. split; [exact E2|]. by rewrite <- app_assoc in K3.
Qed.

Lemma psum_zeros n i : psum (replicate n 0) i = 0.
Proof. unfold psum. rewrite take_replicate. set (k := (_ `min` _)%nat). induction k as [|k IH]; [done|]. unfold zsum in *. cbn. lia. Qed.

Lemma build_ok counts : exists tree, build counts = Some tree /\ tree_ok tree counts.
Proof.
  unfold build. apply (add_counts_ok _ [] counts). split; [cbn; by rewrite !length_replicate|]. cbn [app]. rewrite length_replicate. intros i Hi.
  rewrite !psum_zeros. by rewrite lookup_replicate_2 by lia.
Qed.

(** Sums of non-negative counts grow with the prefix. *)
Lemma psum_mono counts i j : Forall (Z.le 0) counts -> 0 <= i <= j -> 0 <= psum counts i <= psum counts j.
Proof.
  intros Hc Hij. assert (Hpos : forall l, Forall (Z.le 0) l -> 0 <= zsum l) by (induction 1; unfold zsum in *; cbn; lia). unfold psum. split; [by apply Hpos, Forall_take|].
  replace (Z.to_nat j) with (Z.to_nat i + (Z.to_nat j - Z.to_nat i))%nat by lia. rewrite <- (take_take_drop counts), zsum_app. pose proof (Hpos (take (Z.to_nat j - Z.to_nat i) (drop (Z.to_nat i) counts)) (Forall_take _ _ _ (Forall_drop _ _ _ Hc))). lia.
Qed.

Lemma psum_next counts leaf c : counts !! leaf = Some c -> psum counts (Z.of_nat leaf + 1) = psum counts (Z.of_nat leaf) + c.
Proof.
  intros Hc. unfold psum. replace (Z.to_nat (Z.of_nat leaf + 1)) with (S leaf) by lia. rewrite (take_S_r _ _ _ Hc), zsum_app, Nat2Z.id. unfold zsum at 2. cbn. lia.
Qed.

Lemma psum_0 counts : psum counts 0 = 0.
Proof. done. Qed.

Lemma prefix_loop_ok tree counts fuel node total :
  tree_ok tree counts -> 0 <= node <= Z.of_nat (length counts) -> node <= Z.of_nat fuel -> prefix_loop fuel node (wrap 32 (total - psum counts node)) tree = Some (wrap 32 total).
Proof.
  intros Hk. revert node. induction fuel as [|fuel IH]; intros node Hn Hf; cbn [prefix_loop]; destruct (Z.eqb_spec node 0) as [->|Hne]; try lia; try (by rewrite psum_0, Z.sub_0_r).
  destruct (lowbit_range node ltac:(lia)) as [Hlow Hcl]. rewrite (tk_nodes _ _ Hk) by lia. cbn [mbind option_bind]. rewrite Hcl, wrap_add, Z.add_comm, wrap_add.
  replace (psum counts node - _ + _) with (total - psum counts (node - lowbit node)) by lia. apply IH; lia.
Qed.

Lemma prefix_count_ok tree counts i : tree_ok tree counts -> 0 <= i <= Z.of_nat (length counts) -> prefix_count i tree = Some (wrap 32 (psum counts i)).
Proof.
  intros Hk Hi. unfold prefix_count. pose proof (prefix_loop_ok tree counts (Z.to_nat i) i (psum counts i) Hk Hi ltac:(lia)) as H. by rewrite Z.sub_diag in H.
Qed.

(** The descent is over: the leaf has the rank. *)
Lemma search_done tree counts rank fuel a :
  0 <= rank < zsum counts -> 0 <= a <= Z.of_nat (length counts) -> psum counts a <= rank -> (Z.of_nat (length counts) < a + 1 \/ rank < psum counts (a + 1)) ->
  exists leaf, search_loop fuel 0 a (rank + 1 - psum counts a) tree = Some (Z.of_nat leaf, rank - psum counts (Z.of_nat leaf)) /\
    psum counts (Z.of_nat leaf) <= rank < psum counts (Z.of_nat leaf + 1) /\ (leaf < length counts)%nat.
Proof.
  intros Hr Ha Hlow Hhigh. assert (Hlt : a < Z.of_nat (length counts)).
  { destruct (Z.lt_ge_cases a (Z.of_nat (length counts))); [done|]. rewrite (psum_all counts a) in Hlow by lia. lia. }
  exists (Z.to_nat a). rewrite Z2Nat.id by lia. destruct fuel; cbn [search_loop Z.eqb]; split_and!; try lia; do 2 f_equal; lia.
Qed.

(** The leaf of a rank: the counts before it are at most the rank, with its own they are more. *)
Lemma search_ok tree counts rank k fuel a :
  tree_ok tree counts -> Forall (Z.le 0) counts -> zsum counts < 2 ^ 32 -> 0 <= rank < zsum counts -> 0 <= k -> k <= Z.of_nat fuel -> 0 <= a ->
  a * 2 ^ k <= Z.of_nat (length counts) -> psum counts (a * 2 ^ k) <= rank -> (Z.of_nat (length counts) < a * 2 ^ k + 2 ^ k \/ rank < psum counts (a * 2 ^ k + 2 ^ k)) ->
  exists leaf, search_loop fuel (2 ^ k / 2) (a * 2 ^ k) (rank + 1 - psum counts (a * 2 ^ k)) tree = Some (Z.of_nat leaf, rank - psum counts (Z.of_nat leaf)) /\
    psum counts (Z.of_nat leaf) <= rank < psum counts (Z.of_nat leaf + 1) /\ (leaf < length counts)%nat.
Proof.
  intros Hk Hc Hs Hr. revert a k. induction fuel as [|fuel IH]; intros a k Hk0 Hf Ha Hp Hlow Hhigh.
  - assert (k = 0) as -> by lia. change (2 ^ 0 / 2) with 0. change (2 ^ 0) with 1 in *. rewrite Z.mul_1_r in *. by apply search_done.
  - destruct (Z.eq_dec k 0) as [->|Hkn].
    + change (2 ^ 0 / 2) with 0. change (2 ^ 0) with 1 in *. rewrite Z.mul_1_r in *. by apply search_done.
    + assert (Hpow : 2 ^ k = 2 * 2 ^ (k - 1)) by (rewrite <- Z.pow_succ_r by lia; f_equal; lia). assert (Hpos : 0 < 2 ^ (k - 1)) by (apply Z.pow_pos_nonneg; lia).
      assert (Hhalf : 2 ^ k / 2 = 2 ^ (k - 1)) by (rewrite Hpow, Z.mul_comm, Z.div_mul by lia; done). rewrite Hhalf. cbn [search_loop]. replace (2 ^ (k - 1) =? 0) with false by lia.
      rewrite (tk_length _ _ Hk), Z.shiftr_div_pow2 by lia. change (2 ^ 1) with 2.
      assert (Ep : a * 2 ^ k = 2 * a * 2 ^ (k - 1)) by lia. assert (En : a * 2 ^ k + 2 ^ (k - 1) = (2 * a + 1) * 2 ^ (k - 1)) by lia.
      destruct (Z.ltb_spec (a * 2 ^ k + 2 ^ (k - 1)) (Z.of_nat (S (length counts)))) as [Hin|Hout].
      * rewrite (tk_nodes _ _ Hk) by lia. cbn [mbind option_bind]. rewrite En, lowbit_pow by lia. replace ((2 * a + 1) * 2 ^ (k - 1) - 2 ^ (k - 1)) with (a * 2 ^ k) by lia.
        pose proof (psum_mono counts (a * 2 ^ k) ((2 * a + 1) * 2 ^ (k - 1)) Hc ltac:(lia)) as Hm. pose proof (psum_mono counts ((2 * a + 1) * 2 ^ (k - 1)) (Z.of_nat (length counts)) Hc ltac:(lia)) as Hm2. rewrite (psum_all counts (Z.of_nat (length counts))) in Hm2 by lia.
        rewrite wrap_small by lia. destruct (Z.ltb_spec (psum counts ((2 * a + 1) * 2 ^ (k - 1)) - psum counts (a * 2 ^ k)) (rank + 1 - psum counts (a * 2 ^ k))) as [Hlt|Hge].
        -- rewrite wrap_small by lia. replace (rank + 1 - psum counts (a * 2 ^ k) - _) with (rank + 1 - psum counts ((2 * a + 1) * 2 ^ (k - 1))) by lia.
           apply (IH (2 * a + 1) (k - 1)); [lia|lia|lia|lia|lia|]. destruct Hhigh as [Hh|Hh]; [left; lia|right]. by replace ((2 * a + 1) * 2 ^ (k - 1) + 2 ^ (k - 1)) with (a * 2 ^ k + 2 ^ k) by lia.
        -- rewrite Ep. apply (IH (2 * a) (k - 1)); [lia|lia|lia|lia|rewrite <- Ep; lia|]. right. replace (2 * a * 2 ^ (k - 1) + 2 ^ (k - 1)) with ((2 * a + 1) * 2 ^ (k - 1)) by lia. lia.
      * rewrite Ep. apply (IH (2 * a) (k - 1)); [lia|lia|lia|lia|rewrite <- Ep; lia|]. left. lia.
Qed.

Lemma locate_ok tree counts rank :
  tree_ok tree counts -> Forall (Z.le 0) counts -> zsum counts < 2 ^ 32 -> 0 <= rank < zsum counts ->
  exists leaf, locate rank tree = Some (Z.of_nat leaf, rank - psum counts (Z.of_nat leaf)) /\
    psum counts (Z.of_nat leaf) <= rank < psum counts (Z.of_nat leaf + 1) /\ (leaf < length counts)%nat.
Proof.
  intros Hk Hc Hs Hr. unfold locate. rewrite (tk_length _ _ Hk). replace (Z.of_nat (S (length counts)) - 1) with (Z.of_nat (length counts)) by lia. rewrite wrap_small by lia.
  assert (Hn : 0 < Z.of_nat (length counts)) by (destruct counts; cbn in *; lia). unfold bit_floor. replace (_ =? 0) with false by lia. set (n := Z.of_nat (length counts)) in *.
  pose proof (Z.log2_spec n Hn) as Hl. pose proof (Z.log2_nonneg n). pose proof (Z.log2_lt_lin n Hn).
  destruct (search_ok tree counts rank (Z.log2 n + 1) (Z.to_nat n + 1) 0) as (leaf & E & Hleaf); [done..|lia|lia|lia|rewrite Z.mul_0_l; lia|rewrite Z.mul_0_l, psum_0; lia| |].
  - left. fold n. rewrite Z.add_1_r. lia.
  - exists leaf. split; [|done]. rewrite Z.add_1_r, Z.pow_succ_r, Z.mul_comm, Z.div_mul in E by lia. rewrite Z.mul_0_l, psum_0, Z.sub_0_r in E. exact E.
Qed.
