(* ===== verification/SegmentedList.v ===== *)
(** * Segmented lists

    Models [include/goblin/core/segmented_list.hpp]: the full form of a Redis list, a vector
    of compact leaves ([ListListpack]) of bounded size with a Fenwick tree over their sizes
    ([Fenwick]).  The operations run in the monad of [MemoryLimit]; a leaf is allocated from
    the blob pool, which may have to ask the system for memory and be refused. *)

From S2P Require Import Prelude StringEncoding ListListpack MemoryLimit Fenwick.
From Stdlib Require Import ZArith Lia ZifyBool.

Local Open Scope Z_scope.

Record SegmentedList := mkSeg { leaves_ : vec ListListpack; fenwick_ : vec Z; size_ : Z }.
Definition empty_segmented : SegmentedList := mkSeg empty_vec empty_vec 0.

Inductive LeafBias := Balanced | Front | Back.
#[global] Instance LeafBias_eq_dec : EqDecision LeafBias.
Proof. solve_decision. Defined.

Definition kDefaultLeafEntries : Z := 128.
(** [sizeof(ListListpack)] and [sizeof(std::uint32_t)]. *)
Definition sizeof_leaf : Z := 8.
Definition sizeof_node : Z := 4.

Section code.
Context {L : LZ4}.
Variable encoding : Z.
Variable compression : StringCompressionMode.
(** [leaf_entries_], at least two. *)
Variable leaf_entries : nat.
(** Uninitialised memory, what the blob pool asks of the system for a blob of a size, and the capacity a
    vector of a reserved capacity has once a number of elements were pushed. *)
Variable junk : byte.
Variable pool_request : Z -> Z.
Variable pushed_capacity : Z -> Z -> Z.

Abbreviation Op A := (M (world SegmentedList) A).
Abbreviation max_entries := (Z.of_nat leaf_entries).
Abbreviation max_blob := kListListpackMaxBlobBytes.

Section leaves.
Context {U : Type}.

(** The allocation of a blob. *)
Definition pool_alloc (p : ListListpack) : M (world U) unit :=
  match p with Some m => ensure_memory_growth (pool_request (Z.of_nat (length m))) | None => mret tt end.

(** An operation on a local leaf that succeeds by allocating its blob. *)
Definition fresh_leaf (op : ListListpack -> result (bool * ListListpack)) : M (world U) (bool * ListListpack) :=
  '(ok, p) ← lift (op None);
  when ok (pool_alloc p);;
  mret (ok, p).

Definition assign_leaf (values : list bytes) : M (world U) (bool * ListListpack) :=
  fresh_leaf (assign junk values max_entries encoding compression max_blob).
Definition assign_raw_leaf (values : list bytes) : M (world U) (bool * ListListpack) :=
  fresh_leaf (assign_raw junk values max_entries max_blob).

(** The values a leaf holds. *)
Definition decode_leaf (p : ListListpack) : M (world U) (list bytes) :=
  views ← lift (for_each encoding p);
  lift (mapM to_string views).

(** [None] is the return of [false]. *)
Fixpoint balanced_loop (count leaf base extra : nat) (values : list bytes) : M (world U) (option (list ListListpack)) :=
  match count with
  | O => mret (Some [])
  | S count =>
      let n := (base + if (leaf <? extra)%nat then 1 else 0)%nat in
      '(ok, packed) ← assign_leaf (take n values);
      if (ok : bool) then
        rest ← balanced_loop count (S leaf) base extra (drop n values);
        mret (cons packed <$> rest)
      else mret None
  end.
Definition build_balanced_leaves (values : list bytes) : M (world U) (option (list ListListpack)) :=
  let count := ((length values + leaf_entries - 1) / leaf_entries)%nat in
  balanced_loop count 0 (length values / count) (length values mod count) values.

(** The binary search for the most values a leaf takes: their number and the leaf. *)
Fixpoint search_fit (fuel : nat) (candidate : nat -> M (world U) (bool * ListListpack)) (low high best : nat) (best_leaf : ListListpack) : M (world U) (nat * ListListpack) :=
  if (low <=? high)%nat then
    match fuel with
    | O => need None
    | S fuel =>
        let n := (low + (high - low) / 2)%nat in
        '(ok, leaf) ← candidate n;
        if (ok : bool) then search_fit fuel candidate (n + 1) high n leaf
        else search_fit fuel candidate low (n - 1) best best_leaf
    end
  else mret (best, best_leaf).

(** What is left to pack shrinks from the front, or from the back under [Front]; the leaves are returned in
    the order they were built. *)
Definition some_values (bias : LeafBias) (n : nat) (rest : list bytes) : list bytes :=
  if bool_decide (bias = Front) then drop (length rest - n) rest else take n rest.
Definition other_values (bias : LeafBias) (n : nat) (rest : list bytes) : list bytes :=
  if bool_decide (bias = Front) then take (length rest - n) rest else drop n rest.
Fixpoint greedy_loop (fuel : nat) (bias : LeafBias) (rest : list bytes) (replacements : list ListListpack) : M (world U) (list ListListpack) :=
  if (length rest =? 0)%nat then mret replacements
  else
    match fuel with
    | O => need None
    | S fuel =>
        let high := Nat.min leaf_entries (length rest) in
        '(best, best_leaf) ← search_fit high (fun n => assign_leaf (some_values bias n rest)) 1 high 0 None;
        if (best =? 0)%nat then throw LengthError
        else greedy_loop fuel bias (other_values bias best rest) (replacements ++ [best_leaf])
    end.
Definition build_greedy_leaves (values : list bytes) (bias : LeafBias) : M (world U) (list ListListpack) :=
  replacements ← greedy_loop (length values) bias values [];
  mret (if bool_decide (bias = Front) then rev replacements else replacements).

Definition build_leaves (values : list bytes) (bias : LeafBias) : M (world U) (list ListListpack) :=
  if (length values =? 0)%nat then mret []
  else
    balanced ← (if bool_decide (bias = Balanced) then build_balanced_leaves values else mret None);
    match balanced with
    | Some replacements => mret replacements
    | None => build_greedy_leaves values bias
    end.

(** [build_view_leaves] and [build_raw_leaves], which differ in how a leaf is assigned. *)
Fixpoint pack_loop (fuel : nat) (assign_op : list bytes -> M (world U) (bool * ListListpack)) (rest : list bytes) (replacements : list ListListpack) : M (world U) (list ListListpack) :=
  if (length rest =? 0)%nat then mret replacements
  else
    match fuel with
    | O => need None
    | S fuel =>
        let maximum := Nat.min leaf_entries (length rest) in
        '(ok, whole) ← assign_op (take maximum rest);
        '(best, best_leaf) ← (if (ok : bool) then mret (maximum, whole)
                              else search_fit (maximum - 1) (fun n => assign_op (take n rest)) 1 (maximum - 1) 0 None);
        if (best =? 0)%nat then throw LengthError
        else pack_loop fuel assign_op (drop best rest) (replacements ++ [best_leaf])
    end.
Definition build_view_leaves (values : list bytes) : M (world U) (list ListListpack) := pack_loop (length values) assign_leaf values [].
Definition build_raw_leaves (values : list bytes) : M (world U) (list ListListpack) := pack_loop (length values) assign_raw_leaf values [].
End leaves.

(** ** The index *)

Definition on_leaves {A} : M (world (vec ListListpack)) A -> Op A := zoom leaves_ (fun v s => mkSeg v (fenwick_ s) (size_ s)).
Definition on_fenwick {A} : M (world (vec Z)) A -> Op A := zoom fenwick_ (fun v s => mkSeg (leaves_ s) v (size_ s)).
Definition set_leaves (l : list ListListpack) : Op unit := obj_mod (fun s => mkSeg (with_elems l (leaves_ s)) (fenwick_ s) (size_ s)).
Definition set_size (n : Z) : Op unit := obj_mod (fun s => mkSeg (leaves_ s) (fenwick_ s) n).

Definition leaf_count (s : SegmentedList) : nat := vsize (leaves_ s).
Definition leaf_sizes (s : SegmentedList) : result (list Z) := mapM ListListpack.size (elems (leaves_ s)).

Definition leaf_at (leaf : nat) : Op ListListpack := s ← obj_get id; need (elems (leaves_ s) !! leaf).
Definition leaf_size (leaf : nat) : Op Z := p ← leaf_at leaf; lift (ListListpack.size p).
Definition put_leaf (leaf : nat) (p : ListListpack) : Op unit :=
  s ← obj_get id;
  require (leaf <? leaf_count s)%nat;;
  set_leaves (<[leaf := p]> (elems (leaves_ s))).

Definition rebuild_index : Op unit :=
  s ← obj_get id;
  on_fenwick (reserve_memory_vector sizeof_node (Z.of_nat (leaf_count s) + 1));;
  counts ← lift (leaf_sizes s);
  tree ← need (Fenwick.build counts);
  obj_mod (fun s => mkSeg (leaves_ s) (with_elems tree (fenwick_ s)) (size_ s)).

Definition add_count (leaf : nat) (delta : Z) : Op unit :=
  s ← obj_get id;
  tree ← need (Fenwick.add_count (Z.of_nat leaf) delta (elems (fenwick_ s)));
  obj_mod (fun s => mkSeg (leaves_ s) (with_elems tree (fenwick_ s)) (size_ s)).

Definition prefix_count (leaves : nat) (s : SegmentedList) : option Z := Fenwick.prefix_count (Z.of_nat leaves) (elems (fenwick_ s)).

(** The leaf of a rank and the rank in it. *)
Definition locate (rank : Z) (s : SegmentedList) : option (nat * nat) :=
  if rank <? size_ s then '(leaf, offset) ← Fenwick.locate rank (elems (fenwick_ s)); Some (Z.to_nat leaf, Z.to_nat offset) else None.

Definition reserve_leaf_count (required : Z) : Op unit :=
  s ← obj_get id;
  if (required <=? capacity (leaves_ s)) && (required + 1 <=? capacity (fenwick_ s)) then mret tt
  else
    let grown := if capacity (leaves_ s) =? 0 then 1 else capacity (leaves_ s) * 2 in
    let target := Z.max required grown in
    on_leaves (reserve_memory_vector sizeof_leaf target);;
    on_fenwick (reserve_memory_vector sizeof_node (target + 1)).

(** ** Replacing leaves *)

Definition leaf_values (leaf : nat) : Op (list bytes) := p ← leaf_at leaf; decode_leaf p.

(** [leaves_.insert] into the reserved room, after [reserve_leaf_count]. *)
Definition splice (leaf remove_count : nat) (replacements : list ListListpack) : Op unit :=
  s ← obj_get id;
  require (leaf + remove_count <=? leaf_count s)%nat;;
  set_leaves (take leaf (elems (leaves_ s)) ++ replacements ++ drop (leaf + remove_count) (elems (leaves_ s))).

Definition replace_leaf_range (leaf remove_count : nat) (values : list bytes) (bias : LeafBias) : Op unit :=
  replacements ← build_leaves values bias;
  s ← obj_get id;
  reserve_leaf_count (Z.of_nat (leaf_count s) - Z.of_nat remove_count + Z.of_nat (length replacements));;
  splice leaf remove_count replacements;;
  rebuild_index.
Definition replace_leaf (leaf : nat) (values : list bytes) (bias : LeafBias) : Op unit := replace_leaf_range leaf 1 values bias.

(** New leaves at a place, and [size_] with them. *)
Definition add_leaves (leaf : nat) (additions : list ListListpack) (added : Z) : Op unit :=
  s ← obj_get id;
  reserve_leaf_count (Z.of_nat (leaf_count s) + Z.of_nat (length additions));;
  splice leaf 0 additions;;
  set_size (size_ s + added);;
  rebuild_index.

(** ** Operations on a leaf *)

Definition leaf_insert (leaf offset : nat) (value : bytes) : Op bool :=
  p ← leaf_at leaf;
  '(ok, p) ← lift (ListListpack.insert junk offset value max_entries encoding compression max_blob p);
  when ok (pool_alloc p);;
  put_leaf leaf p;;
  mret ok.

(** A value of the same stored size and form is written over the old one, without an allocation. *)
Definition set_in_place (offset : nat) (value : bytes) (p : ListListpack) : result bool :=
  encoded ← encode value encoding compression;
  at_ ← offset_of offset (ListListpack.mem p);
  old ← read_entry (kListListpackHeaderBytes + at_) (ListListpack.mem p);
  Ret ((length_ old =? stored_size encoded) && Bool.eqb (raw old) (is_raw encoded) && (header_bytes old =? entry_header_bytes (stored_size encoded))%nat).
Definition leaf_set (leaf offset : nat) (value : bytes) : Op bool :=
  p ← leaf_at leaf;
  in_place ← lift (set_in_place offset value p);
  '(ok, p) ← lift (ListListpack.set junk offset value encoding compression max_blob p);
  when (ok && negb in_place) (pool_alloc p);;
  put_leaf leaf p;;
  mret ok.

Definition leaf_erase (leaf offset : nat) : Op bytes :=
  p ← leaf_at leaf;
  '(removed, p) ← lift (ListListpack.erase junk offset encoding p);
  pool_alloc p;;
  put_leaf leaf p;;
  mret removed.

Definition leaf_erase_range (leaf first count : nat) : Op unit :=
  p ← leaf_at leaf;
  n ← lift (ListListpack.size p);
  p ← lift (ListListpack.erase_range junk first count p);
  when (negb ((n <=? Z.of_nat first) || (count =? 0)%nat)) (pool_alloc p);;
  put_leaf leaf p.

(** ** The operations *)

Definition seg_assign (values : list bytes) (build : Op (list ListListpack)) : Op unit :=
  if 2 ^ 32 - 1 <? Z.of_nat (length values) then throw LengthError
  else
    replacements ← build;
    s ← obj_get id;
    let cap := pushed_capacity (Z.of_nat ((length values + leaf_entries - 1) / leaf_entries)) (Z.of_nat (length replacements)) in
    when (capacity (leaves_ s) <? cap) (ensure_memory_growth ((cap - capacity (leaves_ s)) * sizeof_leaf));;
    on_fenwick (reserve_memory_vector sizeof_node (Z.of_nat (length replacements) + 1));;
    obj_mod (fun s => mkSeg (Vec replacements cap) (fenwick_ s) (Z.of_nat (length values)));;
    rebuild_index.
Definition assign_values (values : list bytes) : Op unit := seg_assign values (build_view_leaves values).
Definition assign_raw_values (values : list bytes) : Op unit := seg_assign values (build_raw_leaves values).

(** A leaf of one value. *)
Definition single_leaf (value : bytes) : Op ListListpack :=
  '(ok, leaf) ← fresh_leaf (ListListpack.insert junk 0 value max_entries encoding compression max_blob);
  if (ok : bool) then mret leaf else throw LengthError.

Definition tail_location : Op (nat * nat) :=
  s ← obj_get id;
  require (0 <? leaf_count s)%nat;;
  n ← leaf_size (leaf_count s - 1);
  mret ((leaf_count s - 1)%nat, Z.to_nat n).

Definition location_of (index : Z) : Op (nat * nat) :=
  s ← obj_get id;
  if index =? size_ s then tail_location else need (locate index s).

Definition bias_of (index : Z) (s : SegmentedList) : LeafBias :=
  if index =? size_ s then Back else if index =? 0 then Front else Balanced.

Definition insert_middle (index : Z) (value : bytes) : Op unit :=
  s ← obj_get id;
  '(leaf, offset) ← location_of index;
  inserted ← leaf_insert leaf offset value;
  if (inserted : bool) then
    set_size (size_ s + 1);;
    add_count leaf 1
  else
    values ← leaf_values leaf;
    replace_leaf leaf (take offset values ++ value :: drop offset values) (bias_of index s);;
    set_size (size_ s + 1).

Definition seg_insert (index : Z) (value : bytes) : Op unit :=
  s ← obj_get id;
  require (index <=? size_ s);;
  if (leaf_count s =? 0)%nat then
    leaf ← single_leaf value;
    reserve_leaf_count 1;;
    splice 0 0 [leaf];;
    set_size 1;;
    rebuild_index
  else
    front ← leaf_size 0;
    if (index =? 0) && (front =? max_entries) then
      leaf ← single_leaf value;
      add_leaves 0 [leaf] 1
    else
      back ← leaf_size (leaf_count s - 1);
      if (index =? size_ s) && (back =? max_entries) then
        leaf ← single_leaf value;
        add_leaves (leaf_count s) [leaf] 1
      else insert_middle index value.

(** Filling the room an endpoint leaf has: how many values went in. *)
Fixpoint fill_loop (leaf : nat) (at_back : bool) (values : list bytes) : Op nat :=
  match values with
  | [] => mret 0%nat
  | value :: values =>
      n ← leaf_size leaf;
      if n <? max_entries then
        inserted ← leaf_insert leaf (if at_back then Z.to_nat n else 0%nat) value;
        if (inserted : bool) then filled ← fill_loop leaf at_back values; mret (S filled) else mret 0%nat
      else mret 0%nat
  end.

(** All values into the leaf of the place: every replacement is built before the list is touched. *)
Definition insert_combined (index : Z) (values : list bytes) : Op unit :=
  s ← obj_get id;
  '(leaf, offset) ← location_of index;
  old ← leaf_values leaf;
  replace_leaf leaf (take offset old ++ values ++ drop offset old) (bias_of index s);;
  set_size (size_ s + Z.of_nat (length values)).

Definition insert_many_back (values : list bytes) : Op unit :=
  s ← obj_get id;
  let tail := (leaf_count s - 1)%nat in
  cursor ← fill_loop tail true values;
  when (negb (cursor =? 0)%nat) (add_count tail (Z.of_nat cursor);; set_size (size_ s + Z.of_nat cursor));;
  if (cursor =? length values)%nat then mret tt
  else
    additions ← build_view_leaves (drop cursor values);
    add_leaves (leaf_count s) additions (Z.of_nat (length values) - Z.of_nat cursor).

Definition insert_many_front (values : list bytes) : Op unit :=
  s ← obj_get id;
  filled ← fill_loop 0 false (rev values);
  let cursor := (length values - filled)%nat in
  when (negb (filled =? 0)%nat) (add_count 0 (Z.of_nat filled);; set_size (size_ s + Z.of_nat filled));;
  if (cursor =? 0)%nat then mret tt
  else
    additions ← build_view_leaves (take cursor values);
    add_leaves 0 additions (Z.of_nat cursor).

Definition insert_many (index : Z) (values : list bytes) : Op unit :=
  s ← obj_get id;
  require (index <=? size_ s);;
  if (length values =? 0)%nat then mret tt
  else if (leaf_count s =? 0)%nat then assign_values values
  else
    active ← gets memory_ceiling_active;
    if (active : bool) then insert_combined index values
    else
      back ← leaf_size (leaf_count s - 1);
      if (index =? size_ s) && (back =? max_entries) then
        additions ← build_view_leaves values;
        add_leaves (leaf_count s) additions (Z.of_nat (length values))
      else
        front ← leaf_size 0;
        if (index =? 0) && (front =? max_entries) then
          additions ← build_view_leaves values;
          add_leaves 0 additions (Z.of_nat (length values))
        else if index =? size_ s then insert_many_back values
        else if index =? 0 then insert_many_front values
        else insert_combined index values.

(** [leaf] is taken over, or decoded when it has more entries than a leaf may. *)
Definition adopt_listpack (leaf : ListListpack) : Op unit :=
  count ← lift (ListListpack.size leaf);
  if count =? 0 then obj_mod (fun s => mkSeg (with_elems [] (leaves_ s)) (with_elems [] (fenwick_ s)) 0)
  else if count <=? max_entries then
    reserve_leaf_count 1;;
    set_leaves [leaf];;
    set_size count;;
    rebuild_index
  else
    logical ← decode_leaf leaf;
    assign_values logical.

Definition seg_at (index : Z) (s : SegmentedList) : result EncodedStringView :=
  '(leaf, offset) ← of_option (locate index s);
  p ← of_option (elems (leaves_ s) !! leaf);
  at_ offset encoding p.

Definition seg_set (index : Z) (value : bytes) : Op unit :=
  s ← obj_get id;
  '(leaf, offset) ← need (locate index s);
  done ← leaf_set leaf offset value;
  if (done : bool) then mret tt
  else
    values ← leaf_values leaf;
    require (offset <? length values)%nat;;
    replace_leaf leaf (<[offset := value]> values) Balanced.

(** Joining a leaf with its left neighbour, or the first with the second. *)
Definition merged_leaf (a b : ListListpack) : Op (option ListListpack) :=
  '(ok, merged) ← lift (concat junk a max_entries max_blob None);
  when ok (pool_alloc merged);;
  if negb ok then mret None
  else
    '(ok, merged) ← lift (concat junk b max_entries max_blob merged);
    when ok (pool_alloc merged);;
    mret (if (ok : bool) then Some merged else None).
Definition maybe_merge (leaf : nat) : Op unit :=
  s ← obj_get id;
  if (leaf_count s <? 2)%nat then mret tt
  else
    let left := if (leaf =? 0)%nat then leaf else (leaf - 1)%nat in
    let right := (left + 1)%nat in
    if (leaf_count s <=? right)%nat then mret tt
    else
      n1 ← leaf_size left;
      n2 ← leaf_size right;
      if max_entries <? n1 + n2 then mret tt
      else
        a ← leaf_at left;
        b ← leaf_at right;
        merged ← merged_leaf a b;
        match merged with
        | Some merged =>
            splice left 2 [merged];;
            rebuild_index
        | None =>
            values ← leaf_values left;
            tail ← leaf_values right;
            replace_leaf_range left 2 (values ++ tail) Balanced
        end.

Definition seg_erase (index : Z) : Op bytes :=
  s ← obj_get id;
  '(leaf, offset) ← need (locate index s);
  removed ← leaf_erase leaf offset;
  set_size (size_ s - 1);;
  n ← leaf_size leaf;
  (if n =? 0 then splice leaf 1 [];; rebuild_index
   else add_count leaf (-1);; maybe_merge leaf);;
  mret removed.

(** How many whole leaves the count covers, and what is left of it. *)
Fixpoint whole_leaves (sizes : list Z) (remaining : Z) : nat * Z :=
  match sizes with
  | n :: sizes => if n <=? remaining then let '(k, r) := whole_leaves sizes (remaining - n) in (S k, r) else (0%nat, remaining)
  | [] => (0%nat, remaining)
  end.

Definition erase_front (count : Z) : Op (bool * nat) :=
  s ← obj_get id;
  sizes ← lift (leaf_sizes s);
  let '(whole, remaining) := whole_leaves sizes count in
  when (negb (remaining =? 0)) (leaf_erase_range whole 0 (Z.to_nat remaining));;
  when (negb (whole =? 0)%nat) (splice 0 whole []);;
  mret (negb (whole =? 0)%nat, 0%nat).

Definition erase_back (count : Z) : Op (bool * nat) :=
  s ← obj_get id;
  sizes ← lift (leaf_sizes s);
  let '(whole, remaining) := whole_leaves (rev sizes) count in
  let suffix_begin := (leaf_count s - whole)%nat in
  let partial_leaf := (suffix_begin - 1)%nat in
  when (negb (remaining =? 0))
    (n ← leaf_size partial_leaf;
     leaf_erase_range partial_leaf (Z.to_nat n - Z.to_nat remaining) (Z.to_nat remaining));;
  when (negb (whole =? 0)%nat) (splice suffix_begin whole []);;
  mret (negb (whole =? 0)%nat, if remaining =? 0 then 0%nat else partial_leaf).

Definition erase_endpoint (first count : Z) : Op unit :=
  s ← obj_get id;
  if (size_ s <=? first) || (count =? 0) then mret tt
  else
    let count := Z.min count (size_ s - first) in
    require ((first =? 0) || (first + count =? size_ s));;
    '(removed_whole_leaf, partial_leaf) ← (if first =? 0 then erase_front count else erase_back count);
    set_size (size_ s - count);;
    (if (removed_whole_leaf : bool) then rebuild_index else add_count partial_leaf (- count));;
    s ← obj_get id;
    when (negb (leaf_count s =? 0)%nat) (maybe_merge (if first =? 0 then 0%nat else (leaf_count s - 1)%nat)).

(** The views [for_each] and [for_range] hand out. *)
Definition seg_for_each (s : SegmentedList) : result (list EncodedStringView) :=
  views ← mapM (for_each encoding) (elems (leaves_ s));
  Ret (List.concat views).

Fixpoint range_loop (leaves : list ListListpack) (offset : nat) (remaining : Z) : result (list EncodedStringView) :=
  match leaves with
  | [] => Ret []
  | leaf :: leaves =>
      if remaining =? 0 then Ret []
      else
        n ← ListListpack.size leaf;
        let available := n - Z.of_nat offset in
        let n := Z.min available remaining in
        views ← for_range offset (Z.to_nat n) encoding leaf;
        rest ← range_loop leaves 0 (remaining - n);
        Ret (views ++ rest)
  end.
Definition seg_for_range (first count : Z) (s : SegmentedList) : result (list EncodedStringView) :=
  if (size_ s <=? first) || (count =? 0) then Ret []
  else
    '(leaf, offset) ← of_option (locate first s);
    range_loop (drop leaf (elems (leaves_ s))) offset (Z.min count (size_ s - first)).

Fixpoint find_first_loop (leaves : list ListListpack) (value : bytes) (begin : nat) (rank : Z) : result (option Z) :=
  match leaves with
  | [] => Ret None
  | leaf :: leaves =>
      found ← find_first value begin encoding leaf;
      match found with
      | Some i => Ret (Some (rank + Z.of_nat i - Z.of_nat begin))
      | None => n ← ListListpack.size leaf; find_first_loop leaves value 0 (rank + n - Z.of_nat begin)
      end
  end.
Definition seg_find_first (value : bytes) (first : Z) (s : SegmentedList) : result (option Z) :=
  if size_ s <=? first then Ret None
  else
    '(leaf, offset) ← of_option (locate first s);
    find_first_loop (drop leaf (elems (leaves_ s))) value offset first.

(** The leaves before the place, the last first. *)
Fixpoint find_last_loop (s : SegmentedList) (cursor : nat) (value : bytes) (local_end : option nat) : result (option Z) :=
  match cursor with
  | O => Ret None
  | S leaf =>
      p ← of_option (elems (leaves_ s) !! leaf);
      n ← ListListpack.size p;
      found ← find_last value (default (Z.to_nat n) local_end) encoding p;
      match found with
      | Some i => before ← of_option (prefix_count leaf s); Ret (Some (before + Z.of_nat i))
      | None => find_last_loop s leaf value None
      end
  end.
Definition seg_find_last (value : bytes) (end_ : Z) (s : SegmentedList) : result (option Z) :=
  let end_ := Z.min end_ (size_ s) in
  if end_ =? 0 then Ret None
  else
    '(leaf, offset) ← of_option (locate (end_ - 1) s);
    find_last_loop s (leaf + 1) value (Some (offset + 1)%nat).

(** The loop of [compact]; [false] is running out of fuel. *)
Fixpoint compact_loop (fuel leaf : nat) : Op bool :=
  s ← obj_get id;
  if (leaf + 1 <? leaf_count s)%nat then
    match fuel with
    | O => mret false
    | S fuel =>
        n1 ← leaf_size leaf;
        n2 ← leaf_size (leaf + 1);
        if n1 + n2 <=? max_entries then
          values ← leaf_values leaf;
          next ← leaf_values (leaf + 1);
          replace_leaf_range leaf 2 (values ++ next) Balanced;;
          compact_loop fuel leaf
        else compact_loop fuel (leaf + 1)
    end
  else mret true.

Definition shrink_leaves : Op unit := obj_mod (fun s => mkSeg (Vec (elems (leaves_ s)) (Z.of_nat (leaf_count s))) (fenwick_ s) (size_ s)).
Definition shrink_fenwick : Op unit := obj_mod (fun s => mkSeg (leaves_ s) (Vec (elems (fenwick_ s)) (Z.of_nat (vsize (fenwick_ s)))) (size_ s)).
Definition seg_compact (fuel : nat) : Op bool :=
  finished ← compact_loop fuel 0;
  if (finished : bool) then
    shrink_leaves;;
    rebuild_index;;
    shrink_fenwick;;
    mret true
  else mret false.

Definition check_invariants (s : SegmentedList) : option bool :=
  match leaf_sizes s with
  | Ret sizes =>
      before ← prefix_count (leaf_count s) s;
      Some (forallb (fun n => negb (n =? 0) && (n <=? max_entries)) sizes && (foldr Z.add 0 sizes =? size_ s)
            && (vsize (fenwick_ s) =? leaf_count s + 1)%nat && (before =? size_ s))
  | _ => None
  end.
End code.
