(* ===== verification/SegmentedSpec.v ===== *)
(** * Segmented lists: the list they hold

    The leaves of a [SegmentedList] hold, one after the other, the values of one list, and its Fenwick tree
    the numbers of values in the leaves.  The operations of [SegmentedList] are shown to act on that list as
    the Redis list operations do, to ask for every byte before they change anything, and to end. *)

From S2P Require Import Prelude StringEncoding ListListpack MemoryLimit Fenwick SegmentedList.
From Stdlib Require Import ZArith Lia ZifyBool.

Local Open Scope Z_scope.

(** ** Lists *)

Lemma list_split_at {A} (x : A) off l : l !! off = Some x -> l = take off l ++ x :: drop (S off) l.
Proof. intros H. by rewrite take_drop_middle. Qed.

(** A place in a concatenation. *)
Lemma take_in_concat {A} (a z l : list A) off : (off <= length l)%nat -> take (length a + off) (a ++ l ++ z) = a ++ take off l.
Proof. intros. rewrite take_app_add, take_app_le by done. done. Qed.
Lemma drop_in_concat {A} (a z l : list A) off : (off <= length l)%nat -> drop (length a + off) (a ++ l ++ z) = drop off l ++ z.
Proof. intros. rewrite drop_app_add, drop_app_le by done. done. Qed.

Lemma concat_length_zsum {A} (ls : list (list A)) : Z.of_nat (length (mjoin ls)) = zsum ((fun l => Z.of_nat (length l)) <$> ls).
Proof. induction ls as [|l ls IH]; [done|]. change (mjoin (l :: ls)) with (l ++ mjoin ls). rewrite length_app, fmap_cons. unfold zsum in *. cbn [foldr]. lia. Qed.

Lemma psum_concat {A} (a z : list (list A)) l :
  let counts := (fun l => Z.of_nat (length l)) <$> a ++ l :: z in
  psum counts (Z.of_nat (length a)) = Z.of_nat (length (mjoin a)) /\ psum counts (Z.of_nat (length a) + 1) = Z.of_nat (length (mjoin a)) + Z.of_nat (length l).
Proof.
  intros counts. assert (E : psum counts (Z.of_nat (length a)) = Z.of_nat (length (mjoin a))).
  { unfold psum, counts. rewrite Nat2Z.id, fmap_app, take_app_length' by (by rewrite length_fmap). symmetry. apply concat_length_zsum. }
  split; [done|]. rewrite <- E. apply psum_next. unfold counts. rewrite fmap_app, fmap_cons. apply list_lookup_middle. by rewrite length_fmap.
Qed.

Lemma join_mid {A} (a z : list (list A)) l : mjoin (a ++ l :: z) = mjoin a ++ l ++ mjoin z.
Proof. by rewrite join_app. Qed.

(** A list with a value at a place. *)
Definition insert_at_place (index : nat) (values vs : list bytes) : list bytes := take index vs ++ values ++ drop index vs.

Lemma insert_in_part (a z : list (list bytes)) l off values :
  (off <= length l)%nat -> insert_at_place (length (mjoin a) + off) values (mjoin (a ++ l :: z)) = mjoin a ++ (take off l ++ values ++ drop off l) ++ mjoin z.
Proof. intros Ho. unfold insert_at_place. rewrite join_mid, take_in_concat, drop_in_concat by done. by rewrite <- !app_assoc. Qed.

Lemma length_insert_at_place index values vs : length (insert_at_place index values vs) = (length values + length vs)%nat.
Proof. unfold insert_at_place. rewrite !length_app, length_take, length_drop. lia. Qed.

Lemma insert_empty index values : insert_at_place index values [] = values.
Proof. unfold insert_at_place. by rewrite take_nil, drop_nil, app_nil_r. Qed.

Lemma insert_in_join (a z : list (list bytes)) l off value :
  (off < length l)%nat -> <[(length (mjoin a) + off)%nat := value]> (mjoin (a ++ l :: z)) = mjoin a ++ <[off := value]> l ++ mjoin z.
Proof. intros Ho. rewrite join_mid, insert_app_r, insert_app_l by done. done. Qed.

Lemma length_delete_lt {A} (l : list A) i : (i < length l)%nat -> length (delete i l) = (length l - 1)%nat.
Proof. intros H. rewrite delete_take_drop, length_app, length_take, length_drop. lia. Qed.

Lemma delete_in_join (a z : list (list bytes)) l off : (off < length l)%nat -> delete (length (mjoin a) + off)%nat (mjoin (a ++ l :: z)) = mjoin a ++ delete off l ++ mjoin z.
Proof. intros Ho. rewrite join_mid, !delete_take_drop, take_in_concat, <- Nat.add_succ_r, drop_in_concat by lia. by rewrite <- !app_assoc. Qed.

(** What is left without the values of the range. *)
Definition erased (first n : Z) (vs : list bytes) : list bytes := take (Z.to_nat first) vs ++ drop (Z.to_nat first + Z.to_nat n) vs.

Lemma two_parts (ls : list (list bytes)) i : (S i < length ls)%nat -> exists a l l' z, ls = a ++ l :: l' :: z /\ length a = i.
Proof.
  intros Hi. destruct (lookup_lt_is_Some_2 ls i ltac:(lia)) as [l Hl]. destruct (list_elem_of_split_length ls i l Hl) as (a & r & -> & ->). rewrite length_app in Hi. destruct r as [|l' z]; [cbn in Hi; lia|]. by exists a, l, l', z.
Qed.

(** The last occurrence in a list of two parts. *)
Lemma is_last_app value x y answer :
  is_last value y (length y) answer ->
  (answer = None -> forall before, is_last value x (length x) before -> is_last value (x ++ y) (length (x ++ y)) before) /\
  (forall i, answer = Some i -> is_last value (x ++ y) (length (x ++ y)) (Some (length x + i)%nat)).
Proof.
  intros H. split.
  - intros -> before Hb. assert (Hy : forall j, (length x <= j < length (x ++ y))%nat -> (x ++ y) !! j <> Some value).
    { intros j Hj. rewrite length_app in Hj. rewrite lookup_app_r by lia. apply H. lia. }
    destruct before as [i|]; cbn in *.
    + destruct Hb as (H1 & H2 & H3). split_and!; [by rewrite lookup_app_l|rewrite length_app; lia|]. intros j Hj. destruct (decide (j < length x)%nat); [|apply Hy; lia]. rewrite lookup_app_l by done. apply H3. lia.
    + intros j Hj. destruct (decide (j < length x)%nat); [|apply Hy; lia]. rewrite lookup_app_l by done. by apply Hb.
  - intros i ->. destruct H as (H1 & H2 & H3). cbn. split_and!; [|rewrite length_app; lia|].
    + rewrite lookup_app_r by lia. by replace (length x + i - length x)%nat with i by lia.
    + intros j Hj. rewrite length_app in Hj. rewrite lookup_app_r by lia. apply H3. lia.
Qed.

Definition counts (ls : list (list bytes)) : list Z := (fun l => Z.of_nat (length l)) <$> ls.

Lemma zsum_counts ls : zsum (counts ls) = Z.of_nat (length (mjoin ls)).
Proof. symmetry. apply concat_length_zsum. Qed.

Lemma counts_pos ls : Forall (Z.le 0) (counts ls).
Proof. unfold counts. apply Forall_fmap, Forall_true. intros l. cbn. lia. Qed.

Lemma entry_fits e : Z.of_nat (length e.2) <= 65535 -> Z.of_nat (length (entry_enc e)) <= 65538.
Proof. destruct e as [r pl]. cbn [snd]. intros H. rewrite length_entry_enc. unfold entry_size, entry_header_bytes. case_bool; lia. Qed.

Lemma spec_assign_one e : Z.of_nat (length e.2) <= 65535 -> within kListListpackMaxBlobBytes 0 [e] = true.
Proof. intros H. apply within_spec. split; [by apply Forall_singleton|right]. change (enc [e]) with (entry_enc e ++ []). rewrite app_nil_r. pose proof (entry_fits e H). unfold kListListpackMaxBlobBytes. lia. Qed.

Lemma repr_unique p q es : repr p es -> repr q es -> p = q.
Proof. by intros [_ ->] [_ ->]. Qed.

Lemma raw_entry_reads {L : LZ4} encoding value : Z.of_nat (length value) <= 65534 -> reads_as (view_of encoding (true, value)) value.
Proof.
  intros H. unfold view_of. cbn [fst snd andb]. destruct (Options.encoding_enabled encoding); [by apply raw_reads|]. apply verbatim_reads; [done| |lia]. unfold view_bytes. cbn. by rewrite app_nil_r.
Qed.

(** ** Values and blobs *)

Section values.
Context {L : LZ4} {LC : LZ4Correct L}.
Variable encoding : Z.
Variable compression : StringCompressionMode.
Variable junk : byte.

(** A value a list can take: it can be encoded, and is no number the encoding reads wrongly. *)
Definition encodable (value : bytes) : Prop := (exists e, encode value encoding compression = Ret e) /\ wraps (unsigned_part value) = false.

Lemma holds_none : holds encoding None [].
Proof. exists []. split; [|constructor]. split; [|done]. split_and!; [cbn; lia|cbn; lia|constructor]. Qed.

Lemma mapM_strings (views : list EncodedStringView) l : Forall2 reads_as views l -> mapM to_string views = Ret l.
Proof. intros H. induction H as [|v x vs l (_ & _ & Hv) _ IH]; [done|]. change (mapM to_string (v :: vs)) with (x ← to_string v; xs ← mapM to_string vs; Ret (x :: xs)). rewrite Hv, IH. done. Qed.

(** Inserting into a blob of at most a number of entries: [false] leaves it as it is, and an empty one takes any value. *)
Lemma blob_insert_ok most p l off value :
  holds encoding p l -> (off <= length l)%nat -> encodable value ->
  exists ok p', ListListpack.insert junk off value (Z.of_nat most) encoding compression kListListpackMaxBlobBytes p = Ret (ok, p') /\
    (if ok : bool then holds encoding p' (take off l ++ value :: drop off l) /\ (length (take off l ++ value :: drop off l) <= most)%nat else p' = p) /\ (l = [] -> (0 < most)%nat -> ok = true).
Proof.
  intros (es & Hr & Hlen & HF)%holds_repr Hi [[e He] Hw]. pose proof (stored_entry_reads _ _ _ _ He Hw) as Hre.
  pose proof (insert_refines junk off value (Z.of_nat most) encoding compression kListListpackMaxBlobBytes p es Hr ltac:(unfold kListListpackMaxBlobBytes; lia)) as H.
  rewrite He in H. cbn [mbind result_bind] in H. unfold spec_insert in H. rewrite (proj2 (Z.leb_le _ _)) in H by lia. cbn [assert_ mbind result_bind] in H.
  destruct (write_stored_spec _ _ _ _ He) as (_ & _ & Hpl). revert H. destruct (_ || _) eqn:Ec; intros (p' & -> & Hr'); eexists _, p'; (split; [done|]); split; try done.
  - by eapply repr_unique.
  - intros -> Hm. exfalso. destruct es; [|done]. unfold insert_at in Ec. rewrite length_blob in Ec. destruct off; cbn [take drop app] in Ec; (change (enc [stored_entry e]) with (entry_enc (stored_entry e) ++ []) in Ec; rewrite app_nil_r in Ec; pose proof (entry_fits (stored_entry e) Hpl); cbn [length snd stored_entry] in Ec; unfold kListListpackMaxBlobBytes in Ec; lia).
  - split.
    + eexists. split; [done|]. unfold insert_at. apply Forall2_app; [by apply Forall2_take|]. constructor; [done|by apply Forall2_drop].
    + rewrite length_app, length_take. cbn [length]. rewrite length_drop. lia.
Qed.

Lemma blob_set_ok p l off value :
  holds encoding p l -> (off < length l)%nat -> encodable value ->
  exists ok p', ListListpack.set junk off value encoding compression kListListpackMaxBlobBytes p = Ret (ok, p') /\ (if ok : bool then holds encoding p' (<[off := value]> l) else p' = p).
Proof.
  intros Hh Hi [[e He] Hw]. apply holds_repr in Hh as (es & Hr & Hlen & HF). pose proof (stored_entry_reads _ _ _ _ He Hw) as Hre.
  pose proof (set_refines junk off value encoding compression kListListpackMaxBlobBytes p es Hr ltac:(unfold kListListpackMaxBlobBytes; lia)) as H.
  rewrite He in H. cbn [mbind result_bind] in H. unfold spec_set in H. rewrite (proj2 (Z.ltb_lt (Z.of_nat off) _)) in H by lia. cbn [assert_ mbind result_bind] in H.
  revert H. destruct (_ || _) eqn:Ec; intros (p' & -> & Hr'); eexists _, p'; (split; [done|]); [by eapply repr_unique|]. eexists. split; [done|]. by apply Forall2_insert.
Qed.

Lemma set_in_place_returns p l off value : holds encoding p l -> (off < length l)%nat -> encodable value -> exists in_place, set_in_place encoding compression off value p = Ret in_place.
Proof.
  intros (es & Hr & Hlen & _)%holds_repr Ho [[e He] _]. unfold set_in_place. rewrite He. cbn [mbind result_bind]. destruct (lookup_lt_is_Some_2 es off ltac:(lia)) as [x Hx].
  destruct (list_elem_of_split_length es off x Hx) as (a & z & -> & ->). rewrite (offset_of_repr _ _ _ Hr). cbn [mbind result_bind]. destruct (entry_at_repr _ _ _ _ Hr) as [Hre _]. unfold kListListpackHeaderBytes. rewrite Hre. by eexists.
Qed.

(** A stored value copied as it is stored reads the same. *)
Lemma copied_entry_reads e value : reads_as (view_of encoding e) value -> reads_as (view_of encoding (encoded_entry (view_of encoding e))) value.
Proof.
  destruct e as [r pl]. unfold encoded_entry, view_is_raw. destruct (Options.encoding_enabled encoding) eqn:Ee.
  2: { assert (Hv : forall r' pl', view_of encoding (r', pl') = {| head_ := pl'; tail_ := []; encoding_enabled_ := false |}) by (intros r' pl'; unfold view_of; cbn [fst snd]; by rewrite Ee, andb_false_r).
       rewrite !Hv. cbn [encoding_enabled_ negb orb andb]. unfold view_bytes. cbn [head_ tail_]. by rewrite app_nil_r. }
  assert (Ht : forall pl', view_of encoding (true, pl') = {| head_ := [b8 kStringRaw]; tail_ := pl'; encoding_enabled_ := true |}) by (intros pl'; unfold view_of; cbn [fst snd]; by rewrite Ee).
  assert (Hf : forall pl', view_of encoding (false, pl') = {| head_ := pl'; tail_ := []; encoding_enabled_ := true |}) by (intros pl'; unfold view_of; cbn [fst snd]; by rewrite Ee).
  destruct r; [rewrite Ht|rewrite Hf]; cbn [encoding_enabled_ negb orb].
  - set (v := {| head_ := [b8 kStringRaw]; tail_ := pl; encoding_enabled_ := true |}). assert (Ep : view_prefix v = kStringRaw) by (by apply (prefix_byte v (b8 kStringRaw) pl)). rewrite Ep, Z.eqb_refl. cbn [andb]. by rewrite Ht.
  - set (v := {| head_ := pl; tail_ := []; encoding_enabled_ := true |}). assert (Hb : view_bytes v = pl) by apply app_nil_r. rewrite Hb. destruct (Z.eqb_spec (view_prefix v) kStringRaw) as [Ep|Ep]; cbn [andb]; [|by rewrite Hf].
    intros (Hv & _ & Hs). unfold to_string in Hs. rewrite Hv, Ep, Z.eqb_refl, encoded_size_bytes, Hb in Hs. unfold valid in Hv. rewrite encoded_size_bytes, Hb in Hv. cbn [encoding_enabled_ v negb] in Hv, Hs.
    destruct ((Z.of_nat (length pl) =? 0) || (kStringMaxEncodedBytes <? Z.of_nat (length pl))) eqn:Ec; [done|]. unfold kStringMaxEncodedBytes in Ec.
    rewrite copy_range_slice in Hs by (rewrite encoded_size_bytes, Hb; lia). rewrite Hb in Hs. unfold slice in Hs. rewrite decide_True in Hs by lia. cbn [of_option] in Hs. injection Hs as <-.
    rewrite take_ge by (rewrite length_drop; lia). apply raw_entry_reads. rewrite length_drop. lia.
Qed.
End values.

(** ** Computations that leave the object alone *)

Lemma wp_seq {S A B C} (m : M S A) (n : M S B) (k : M S C) Q E s : wp ((m;; n);; k) Q E s -> wp (m;; n;; k) Q E s.
Proof. unfold wp, mbind, M_bind. by destruct (m s). Qed.

Section spec.
Context {L : LZ4} {LC : LZ4Correct L}.
Variable encoding : Z.
Variable compression : StringCompressionMode.
Variable leaf_entries : nat.
Variable junk : byte.
Variable pool_request : Z -> Z.
Variable pushed_capacity : Z -> Z -> Z.
Hypothesis leaf_entries_two : (2 <= leaf_entries)%nat.
Hypothesis pushed_capacity_range : forall reserved pushed, 0 <= reserved <= 2 ^ 32 -> 0 <= pushed <= 2 ^ 32 -> pushed <= pushed_capacity reserved pushed <= 2 ^ 33.
(** Whether a memory limit is active. *)
Variable lim : Prop.
Abbreviation storable := (encodable encoding compression).

(** The budget in force is limited exactly when a limit is active. *)
Definition calm (b : option ActiveMemoryBudget) : Prop := (lim /\ ~ unlimited b) \/ (~ lim /\ unlimited b).

Definition quiet {U A} (m : M (world U) A) (R : A -> Prop) : Prop :=
  forall b o, calm b -> wp m (fun a w => exists b', w = World b' o /\ calm b' /\ R a) (fun e w => lim /\ e = MaxMemoryExceeded /\ exists b', w = World b' o /\ calm b') (World b o).

Lemma wp_quiet {U A} (m : M (world U) A) R (Q : A -> world U -> Prop) E b o :
  quiet m R -> calm b -> (forall a b', calm b' -> R a -> Q a (World b' o)) -> (lim -> forall e b', is_bad_alloc e = true -> E e (World b' o)) -> wp m Q E (World b o).
Proof.
  intros Hm Hb HQ HE. eapply wp_mono; [exact (Hm b o Hb)| |].
  - intros a w (b' & -> & Hb' & Ha). by apply HQ.
  - intros e w (Hl & -> & b' & -> & _). by apply HE.
Qed.

Lemma quiet_ret {U A} (a : A) (R : A -> Prop) : R a -> quiet (U := U) (mret a) R.
Proof. intros Ha b o Hb. apply wp_ret. eauto. Qed.

Lemma quiet_bind {U A B} (m : M (world U) A) (f : A -> M (world U) B) R R' : quiet m R -> (forall a, R a -> quiet (f a) R') -> quiet (m ≫= f) R'.
Proof. intros Hm Hf b o Hb. apply wp_bind. eapply wp_mono; [exact (Hm b o Hb)| |done]. intros a w (b' & -> & Hb' & Ha). by apply Hf. Qed.

Lemma quiet_mono {U A} (m : M (world U) A) (R R' : A -> Prop) : quiet m R -> (forall a, R a -> R' a) -> quiet m R'.
Proof. intros Hm HR b o Hb. eapply wp_mono; [exact (Hm b o Hb)| |done]. intros a w (b' & -> & Hb' & Ha). eauto. Qed.

Lemma quiet_lift {U A} (x : result A) a (R : A -> Prop) : x = Ret a -> R a -> quiet (U := U) (lift x) R.
Proof. intros -> Ha. by apply quiet_ret. Qed.

Lemma calm_enforced b b' : enforced b' = enforced b -> calm (Some b) -> calm (Some b').
Proof. unfold calm, unlimited. cbn. by intros ->. Qed.

Lemma quiet_ensure {U} n : quiet (U := U) (ensure_memory_growth n) (fun _ => True).
Proof.
  intros [b|] o Hb; unfold wp, ensure_memory_growth; cbn [mem obj]; [|by exists None]. destruct (ensure n b) as [ok b'] eqn:He.
  assert (Hb' : calm (Some b')).
  { eapply calm_enforced; [|done]. apply enforced_ceiling. unfold ensure in He. destruct (enforced b); [|by injection He as <- <-]. destruct (n =? 0); [by injection He as <- <-|].
    assert (Hl : ceiling (load_usage b) = ceiling b) by (unfold load_usage; by destruct (used_loaded b)). destruct (_ || _ || _); injection He as <- <-; done. }
  destruct ok; [by exists (Some b')|]. destruct Hb as [[Hl _]|[_ Hu]]; [split_and!; [done|done|by exists (Some b')]|]. by rewrite (unlimited_ensure n b Hu) in He.
Qed.

Lemma quiet_pool {U} p : quiet (U := U) (pool_alloc pool_request p) (fun _ => True).
Proof. destruct p; [apply quiet_ensure|by apply quiet_ret]. Qed.

Lemma quiet_when {U} c (m : M (world U) unit) R : quiet m R -> R tt -> quiet (when c m) R.
Proof. intros. destruct c; [done|by apply quiet_ret]. Qed.

(** ** Leaves *)

Record leaf_ok (p : ListListpack) (l : list bytes) : Prop := mkLeafOk {
  lo_holds : holds encoding p l;
  lo_some : l <> [];
  lo_most : (length l <= leaf_entries)%nat;
}.

(** Leaves that hold, one after the other, a list. *)
Definition leaves_of (ps : list ListListpack) (vs : list bytes) : Prop := exists ls, Forall2 leaf_ok ps ls /\ vs = mjoin ls.

Lemma leaves_of_nil : leaves_of [] [].
Proof. by exists []. Qed.
Lemma leaves_of_app ps qs vs us : leaves_of ps vs -> leaves_of qs us -> leaves_of (ps ++ qs) (vs ++ us).
Proof. intros (l1 & H1 & ->) (l2 & H2 & ->). exists (l1 ++ l2). split; [by apply Forall2_app|]. by rewrite join_app. Qed.
Lemma leaves_of_one p l : leaf_ok p l -> leaves_of [p] l.
Proof. intros H. exists [l]. split; [constructor; [done|constructor]|]. cbn. by rewrite app_nil_r. Qed.

Lemma storable_entries values : Forall storable values -> exists encs, Forall2 (fun v e => encode v encoding compression = Ret e) values encs.
Proof. intros H. induction H as [|v values [[e He] _] _ (encs & IH)]; [by exists []|]. exists (e :: encs). by constructor. Qed.

Lemma stored_entries_read values encs :
  Forall storable values -> Forall2 (fun v e => encode v encoding compression = Ret e) values encs -> Forall2 (fun e s => reads_as (view_of encoding e) s) (stored_entry <$> encs) values.
Proof.
  intros Hs HF. induction HF as [|v e values encs He HF IH]; [constructor|]. apply Forall_cons in Hs as [[_ Hw] Hs]. cbn. constructor; [|by apply IH]. by eapply stored_entry_reads.
Qed.

(** What packing a number of values into a fresh leaf answers. *)
Definition packs (values : list bytes) (r : bool * ListListpack) : Prop := (r.1 = true -> leaf_ok r.2 values) /\ (length values = 1%nat -> r.1 = true).

Lemma quiet_fresh {U} op ok p (R : bool * ListListpack -> Prop) : op None = Ret (ok, p) -> R (ok, p) -> quiet (U := U) (fresh_leaf pool_request op) R.
Proof.
  intros E HR. unfold fresh_leaf. rewrite E. eapply quiet_bind; [apply (quiet_lift _ (ok, p) (eq (ok, p))); done|]. intros r <-.
  eapply quiet_bind; [by apply quiet_when; [apply quiet_pool|]|]. intros _ _. by apply quiet_ret.
Qed.

Lemma assign_packs {U} (x : result (bool * ListListpack)) (es : list entry) values :
  refines x (spec_assign es (Z.of_nat leaf_entries) kListListpackMaxBlobBytes []) -> Forall2 (fun e s => reads_as (view_of encoding e) s) es values ->
  Forall (fun e => Z.of_nat (length e.2) <= 65535) es -> values <> [] -> (length values <= leaf_entries)%nat ->
  quiet (U := U) (fresh_leaf pool_request (fun _ => x)) (packs values).
Proof.
  intros Hx HF Hs Hne Hl. pose proof (Forall2_length _ _ _ HF) as Hlen. unfold spec_assign in *.
  destruct ((_ <? _) || _ || _) eqn:Ec; destruct Hx as (p & Hx & Hr); (eapply quiet_fresh; [exact Hx|]); split; cbn [fst snd]; try done.
  - intros H1. exfalso. destruct es as [|e [|e' es]]; cbn in Hlen; try lia. apply Forall_cons in Hs as [He _]. rewrite (spec_assign_one e He) in Ec. cbn in Ec. lia.
  - intros _. split; [|done|done]. by exists es.
Qed.

Lemma quiet_assign_leaf {U} values :
  Forall storable values -> values <> [] -> (length values <= leaf_entries)%nat -> quiet (U := U) (assign_leaf encoding compression leaf_entries junk pool_request values) (packs values).
Proof.
  intros Hs Hne Hl. destruct (storable_entries values Hs) as (encs & HF). unfold assign_leaf.
  apply (assign_packs (assign junk values (Z.of_nat leaf_entries) encoding compression kListListpackMaxBlobBytes None) (stored_entry <$> encs)); [|by apply stored_entries_read| |done|done].
  - apply assign_refines; [done|by split; [split_and!|]|unfold kListListpackMaxBlobBytes; lia].
  - apply Forall_fmap, Forall_forall. intros e [i Hi]%list_elem_of_lookup. destruct (Forall2_lookup_r _ _ _ _ _ HF Hi) as (v & _ & He). cbn. by eapply write_stored_spec.
Qed.

Lemma quiet_assign_raw_leaf {U} values :
  Forall (fun v => Z.of_nat (length v) <= 65534) values -> values <> [] -> (length values <= leaf_entries)%nat -> quiet (U := U) (assign_raw_leaf leaf_entries junk pool_request values) (packs values).
Proof.
  intros Hs Hne Hl. unfold assign_raw_leaf. apply (assign_packs (assign_raw junk values (Z.of_nat leaf_entries) kListListpackMaxBlobBytes None) (pair true <$> values)); [| | |done|done].
  - apply assign_raw_refines; [by split; [split_and!|]|unfold kListListpackMaxBlobBytes; lia].
  - apply Forall2_fmap_l, Forall_Forall2_diag. eapply Forall_impl; [exact Hs|]. intros v Hv. by apply raw_entry_reads.
  - apply Forall_fmap. eapply Forall_impl; [exact Hs|]. cbn. lia.
Qed.

(** ** Packing leaves *)

Lemma quiet_balanced_loop {U} count leaf base extra values :
  Forall storable values -> (1 <= base <= leaf_entries)%nat -> ((leaf < extra)%nat -> (base < leaf_entries)%nat) -> length values = (count * base + Nat.min count (extra - leaf))%nat ->
  quiet (U := U) (balanced_loop encoding compression leaf_entries junk pool_request count leaf base extra values) (fun r => from_option (fun ps => leaves_of ps values) True r).
Proof.
  revert leaf values. induction count as [|count IH]; intros leaf values Hs Hb He Hl; cbn [balanced_loop].
  { apply quiet_ret. destruct values; [|done]. apply leaves_of_nil. }
  set (n := (base + _)%nat). assert (Hn : (1 <= n <= leaf_entries)%nat /\ (n <= length values)%nat /\ (length values - n = count * base + Nat.min count (extra - S leaf))%nat) by (unfold n; destruct (Nat.ltb_spec leaf extra); lia).
  destruct Hn as (Hn1 & Hn2 & Hn3). assert (Ht : length (take n values) = n) by (rewrite length_take; lia).
  eapply quiet_bind; [apply quiet_assign_leaf; [by apply Forall_take| |lia]; intros E; rewrite E in Ht; cbn in Ht; lia|].
  intros [ok packed] [Hp _]. cbn [fst snd] in Hp. destruct ok; [|by apply quiet_ret]. specialize (Hp eq_refl).
  eapply quiet_bind; [apply IH; [by apply Forall_drop|done|lia|rewrite length_drop; lia]|].
  intros rest Hr. apply quiet_ret. destruct rest as [rest|]; [|done]. cbn in Hr |- *. rewrite <- (take_drop n values). by apply (leaves_of_app [packed]); [apply leaves_of_one|].
Qed.

Lemma quiet_balanced {U} values :
  Forall storable values -> values <> [] -> quiet (U := U) (build_balanced_leaves encoding compression leaf_entries junk pool_request values) (fun r => from_option (fun ps => leaves_of ps values) True r).
Proof.
  intros Hs Hne. unfold build_balanced_leaves. set (n := length values). set (count := ((n + leaf_entries - 1) / leaf_entries)%nat).
  assert (Hn : (0 < n)%nat) by (destruct values; [done|cbn in *; lia]).
  pose proof (Nat.div_mod (n + leaf_entries - 1) leaf_entries ltac:(lia)) as Hd. fold count in Hd. pose proof (Nat.mod_upper_bound (n + leaf_entries - 1) leaf_entries ltac:(lia)).
  assert (Hc : (1 <= count)%nat) by nia. pose proof (Nat.div_mod n count ltac:(lia)) as Hq. pose proof (Nat.mod_upper_bound n count ltac:(lia)).
  apply quiet_balanced_loop; [done|nia|intros; nia|fold n; lia].
Qed.

Lemma quiet_search {U} (candidate : nat -> M (world U) (bool * ListListpack)) (P : nat -> ListListpack -> Prop) most fuel low high best best_leaf :
  (forall n, (1 <= n <= most)%nat -> quiet (candidate n) (fun r => (r.1 = true -> P n r.2) /\ (n = 1%nat -> r.1 = true))) ->
  (1 <= low)%nat -> (high <= most)%nat -> (high + 1 - low <= fuel)%nat -> (best = 0%nat -> low = 1%nat /\ (1 <= high)%nat) -> (best <> 0%nat -> (best <= most)%nat /\ P best best_leaf) ->
  quiet (search_fit fuel candidate low high best best_leaf) (fun r => (1 <= r.1 <= most)%nat /\ P r.1 r.2).
Proof.
  intros Hc. revert low high best best_leaf. induction fuel as [|fuel IH]; intros low high best best_leaf Hlo Hhi Hf H0 H1; cbn [search_fit]; destruct (Nat.leb_spec low high) as [Hlh|Hlh]; try lia.
  2: { set (n := (low + (high - low) / 2)%nat). assert (Hn : (low <= n <= high)%nat) by (unfold n; pose proof (Nat.Div0.div_le_upper_bound (high - low) 2 (high - low)); lia).
    eapply quiet_bind; [apply Hc; lia|]. intros [ok leaf] [Hp Hp1]. cbn [fst snd] in *. destruct ok.
    - apply IH; [lia|lia|lia|lia|]. intros _. split; [lia|by apply Hp].
    - apply IH; [lia|lia|lia| |done]. intros E. destruct (H0 E). split; [done|]. destruct (decide (n = 1%nat)) as [Ee|]; [by specialize (Hp1 Ee)|lia]. }
  all: apply quiet_ret; cbn [fst snd]; assert (best <> 0%nat) by lia; destruct (H1 ltac:(done)); split; [lia|done].
Qed.

(** Both greedy packers: the largest number of values the search found goes into the next leaf. *)
Lemma quiet_greedy_loop {U} bias fuel rest reps :
  Forall storable rest -> (length rest <= fuel)%nat ->
  quiet (U := U) (greedy_loop encoding compression leaf_entries junk pool_request fuel bias rest reps) (fun r => exists ps, r = reps ++ ps /\ leaves_of (if bool_decide (bias = Front) then rev ps else ps) rest).
Proof.
  revert rest reps. induction fuel as [|fuel IH]; intros rest reps Hs Hf; cbn [greedy_loop]; destruct (Nat.eqb_spec (length rest) 0) as [E|E]; try lia.
  1,2: apply quiet_ret; destruct rest; [|done]; exists []; rewrite app_nil_r; (split; [done|]); by case_bool_decide; apply leaves_of_nil.
  set (high := Nat.min leaf_entries (length rest)).
  assert (Hlen : forall n, (n <= high)%nat -> length (some_values bias n rest) = n) by (intros n Hn; unfold some_values; case_bool_decide; rewrite ?length_drop, ?length_take; lia).
  eapply quiet_bind.
  { apply (quiet_search _ (fun n p => leaf_ok p (some_values bias n rest)) high); [|lia..]. intros n Hn. eapply quiet_mono.
    - apply quiet_assign_leaf; [unfold some_values; case_bool_decide; [by apply Forall_drop|by apply Forall_take]| |rewrite Hlen; lia]. intros E'. specialize (Hlen n ltac:(lia)). rewrite E' in Hlen. cbn in Hlen. lia.
    - intros [ok p] [H1 H2]. split; [done|]. intros ->. apply H2. apply Hlen. lia. }
  intros [best leaf] [Hb Hp]. cbn [fst snd] in *. destruct (Nat.eqb_spec best 0) as [|_]; [lia|].
  eapply quiet_mono; [apply IH; unfold other_values; case_bool_decide; rewrite ?length_take, ?length_drop; first [by apply Forall_take|by apply Forall_drop|lia]|].
  intros r (ps & -> & Hl). exists (leaf :: ps). rewrite <- app_assoc. split; [done|]. apply leaves_of_one in Hp. unfold some_values, other_values in *. case_bool_decide.
  - cbn [rev]. rewrite <- (take_drop (length rest - best) rest). by apply leaves_of_app.
  - rewrite <- (take_drop best rest). by apply (leaves_of_app [leaf]).
Qed.

Lemma quiet_build_leaves {U} values bias :
  Forall storable values -> quiet (U := U) (build_leaves encoding compression leaf_entries junk pool_request values bias) (fun ps => leaves_of ps values).
Proof.
  intros Hs. unfold build_leaves. destruct (Nat.eqb_spec (length values) 0) as [E|E]; [apply quiet_ret; destruct values; [apply leaves_of_nil|done]|].
  assert (Hg : quiet (U := U) (build_greedy_leaves encoding compression leaf_entries junk pool_request values bias) (fun ps => leaves_of ps values)).
  { unfold build_greedy_leaves. eapply quiet_bind; [by apply quiet_greedy_loop|]. intros r (ps & -> & Hl). apply quiet_ret. done. }
  apply (quiet_bind _ _ (fun r => from_option (fun ps => leaves_of ps values) True r)).
  - case_bool_decide; [apply quiet_balanced; [done|by destruct values]|by apply quiet_ret].
  - intros [ps|] Hr; [by apply quiet_ret|done].
Qed.

Lemma quiet_pack_loop {U} (assign_op : list bytes -> M (world U) (bool * ListListpack)) (P : bytes -> Prop) fuel rest reps :
  (forall values, Forall P values -> values <> [] -> (length values <= leaf_entries)%nat -> quiet (assign_op values) (packs values)) ->
  Forall P rest -> (length rest <= fuel)%nat -> quiet (pack_loop leaf_entries fuel assign_op rest reps) (fun r => exists ps, r = reps ++ ps /\ leaves_of ps rest).
Proof.
  intros Hop. revert rest reps. induction fuel as [|fuel IH]; intros rest reps Hs Hf; cbn [pack_loop]; destruct (Nat.eqb_spec (length rest) 0) as [E|E]; try lia.
  1,2: apply quiet_ret; destruct rest; [|done]; exists []; rewrite app_nil_r; (split; [done|]); apply leaves_of_nil.
  set (most := Nat.min leaf_entries (length rest)).
  assert (Hc : forall n, (1 <= n <= most)%nat -> quiet (assign_op (take n rest)) (fun r => (r.1 = true -> leaf_ok r.2 (take n rest)) /\ (n = 1%nat -> r.1 = true))).
  { intros n Hn. assert (Hl : length (take n rest) = n) by (rewrite length_take; lia). eapply quiet_mono.
    - apply Hop; [by apply Forall_take| |lia]. intros E'. rewrite E' in Hl. cbn in Hl. lia.
    - intros [ok p] [H1 H2]. split; [done|]. intros ->. by apply H2. }
  eapply quiet_bind; [apply (Hc most); lia|]. intros [ok whole] [Hw H1]. cbn [fst snd] in Hw, H1.
  apply (quiet_bind _ _ (fun r => (1 <= r.1 <= most)%nat /\ leaf_ok r.2 (take r.1 rest))).
  - destruct ok; [apply quiet_ret; split; [cbn; lia|by apply Hw]|]. assert (most <> 1%nat) by (intros H; by specialize (H1 H)).
    eapply quiet_mono; [apply (quiet_search _ (fun n p => leaf_ok p (take n rest)) (most - 1)); [|lia..]|].
    + intros n Hn. apply Hc. lia.
    + intros r [? ?]. split; [lia|done].
  - intros [best leaf] [Hb Hp]. cbn [fst snd] in *. destruct (Nat.eqb_spec best 0) as [|_]; [lia|].
    eapply quiet_mono; [apply IH; [by apply Forall_drop|rewrite length_drop; lia]|]. intros r (ps & -> & Hl). exists (leaf :: ps). rewrite <- app_assoc. split; [done|].
    rewrite <- (take_drop best rest). apply (leaves_of_app [leaf]); [by apply leaves_of_one|done].
Qed.

Lemma quiet_view_leaves {U} values : Forall storable values -> quiet (U := U) (build_view_leaves encoding compression leaf_entries junk pool_request values) (fun ps => leaves_of ps values).
Proof. intros Hs. eapply quiet_mono; [apply (quiet_pack_loop _ storable); [intros; by apply quiet_assign_leaf|done|done]|]. by intros r (ps & -> & ?). Qed.
Lemma quiet_raw_leaves {U} values : Forall (fun v => Z.of_nat (length v) <= 65534) values -> quiet (U := U) (build_raw_leaves leaf_entries junk pool_request values) (fun ps => leaves_of ps values).
Proof. intros Hs. eapply quiet_mono; [apply (quiet_pack_loop _ (fun v => Z.of_nat (length v) <= 65534)); [intros; by apply quiet_assign_raw_leaf|done|done]|]. by intros r (ps & -> & ?). Qed.

(** ** The state *)

Record caps_ok (s : SegmentedList) : Prop := mkCapsOk {
  co_leaves : Z.of_nat (vsize (leaves_ s)) <= capacity (leaves_ s);
  co_fenwick : Z.of_nat (vsize (fenwick_ s)) <= capacity (fenwick_ s);
  co_most : lim \/ capacity (leaves_ s) <= 2 ^ 33 \/ (capacity (leaves_ s) <= 2 ^ 34 /\ capacity (leaves_ s) < capacity (fenwick_ s));
}.

(** The leaves hold the parts [ls] of a list; [shape_ok] says so of the leaves alone. *)
Record shape_ok (s : SegmentedList) (ls : list (list bytes)) : Prop := mkShapeOk {
  sh_leaves : Forall2 leaf_ok (elems (leaves_ s)) ls;
  sh_values : Forall storable (mjoin ls);
  sh_small : Z.of_nat (length (mjoin ls)) < 2 ^ 32;
  sh_caps : caps_ok s;
}.
Record body_ok (s : SegmentedList) (ls : list (list bytes)) : Prop := mkBodyOk {
  bo_shape : shape_ok s ls;
  bo_tree : ls = [] \/ tree_ok (elems (fenwick_ s)) (counts ls);
}.

(** The list is [vs]. *)
Definition seg_repr (s : SegmentedList) (vs : list bytes) : Prop := exists ls, body_ok s ls /\ mjoin ls = vs /\ size_ s = Z.of_nat (length vs).

Lemma shape_count s ls : shape_ok s ls -> leaf_count s = length ls.
Proof. intros H. apply (Forall2_length _ _ _ (sh_leaves _ _ H)). Qed.

Lemma parts_count (ps : list ListListpack) ls : Forall2 leaf_ok ps ls -> (length ls <= length (mjoin ls))%nat.
Proof.
  intros H. induction H as [|p l ps ls [_ Hl _] _ IH]; [done|]. change (mjoin (l :: ls)) with (l ++ mjoin ls). rewrite length_app. destruct l; [done|]. cbn [length]. lia.
Qed.

Lemma shape_small s ls : shape_ok s ls -> Z.of_nat (length ls) < 2 ^ 32.
Proof. intros H. pose proof (parts_count _ _ (sh_leaves _ _ H)). pose proof (sh_small _ _ H). lia. Qed.

Lemma body_room s ls : body_ok s ls -> ls <> [] -> Z.of_nat (length ls) + 1 <= capacity (fenwick_ s).
Proof. intros [Hs [|Ht]] Hne; [done|]. pose proof (co_fenwick _ (sh_caps _ _ Hs)) as H. unfold vsize in H. rewrite (tk_length _ _ Ht) in H. unfold counts in H. rewrite length_fmap in H. lia. Qed.

Lemma leaf_ok_size p l : leaf_ok p l -> ListListpack.size p = Ret (Z.of_nat (length l)).
Proof. intros [H _ _]. by apply listpack_reads_correct in H as (-> & _). Qed.

Lemma leaf_sizes_ok s ls : Forall2 leaf_ok (elems (leaves_ s)) ls -> leaf_sizes s = Ret (counts ls).
Proof.
  intros H. unfold leaf_sizes, counts. induction H as [|p l ps ls Hp _ IH]; [done|]. change (mapM ListListpack.size (p :: ps)) with (n ← ListListpack.size p; ns ← mapM ListListpack.size ps; Ret (n :: ns)).
  rewrite (leaf_ok_size _ _ Hp), IH. done.
Qed.

(** The place of a rank. *)
Lemma locate_place s ls index :
  body_ok s ls -> size_ s = Z.of_nat (length (mjoin ls)) -> 0 <= index < size_ s ->
  exists a l z off, ls = a ++ l :: z /\ locate index s = Some (length a, off) /\ (off < length l)%nat /\ index = Z.of_nat (length (mjoin a) + off).
Proof.
  intros [Hs [->|Ht]] Hsz Hi; [cbn in *; lia|]. unfold locate. replace (index <? size_ s) with true by lia.
  destruct (locate_ok _ _ index Ht (counts_pos _)) as (leaf & E & Hp & Hl); [rewrite zsum_counts; by apply sh_small in Hs|rewrite zsum_counts; lia|].
  unfold counts in Hl. rewrite length_fmap in Hl. destruct (lookup_lt_is_Some_2 ls leaf Hl) as [l Hll]. destruct (list_elem_of_split_length ls leaf l Hll) as (a & z & -> & ->).
  destruct (psum_concat a z l) as [P1 P2]. unfold counts in Hp, E. rewrite P1, P2 in Hp. rewrite P1 in E.
  exists a, l, z, (Z.to_nat (index - Z.of_nat (length (mjoin a)))). rewrite E. cbn [mbind option_bind]. rewrite Nat2Z.id. split_and!; [done|done|lia|lia].
Qed.

(** ** The index and the leaves *)

Lemma wp_rebuild_index s ls b Q E :
  shape_ok s ls -> Z.of_nat (length ls) + 1 <= capacity (fenwick_ s) ->
  (forall s', body_ok s' ls -> size_ s' = size_ s -> capacity (leaves_ s') = capacity (leaves_ s) -> Q tt (World b s')) -> wp rebuild_index Q E (World b s).
Proof.
  intros Hs Hc HQ. unfold rebuild_index. apply wp_bind, wp_obj_get. cbn [obj id]. rewrite (shape_count _ _ Hs). apply wp_bind. unfold on_fenwick. apply wp_zoom. cbn [obj mem].
  unfold reserve_memory_vector. apply wp_bind, wp_obj_get. cbn [obj]. replace (_ <=? _) with true by lia. apply wp_ret. cbn [obj mem].
  apply wp_bind. eapply wp_lift; [apply leaf_sizes_ok, Hs|]. apply wp_bind. destruct (build_ok (counts ls)) as (tree & Et & Ht). eapply wp_need; [done|]. apply wp_obj_mod. cbn [obj mem leaves_ fenwick_ size_].
  apply HQ; [|done|done]. destruct Hs as [H1 H2 H3 [C1 C2 C3]]. split; [|right; exact Ht]. split; [done|done|done|]. split; [done| |done]. unfold vsize. cbn [fenwick_ capacity with_elems elems].
  rewrite (tk_length _ _ Ht). unfold counts. rewrite length_fmap. lia.
Qed.

(** The same list, with at least the capacity. *)
Record reserved (s s' : SegmentedList) : Prop := mkReserved {
  re_leaves : elems (leaves_ s') = elems (leaves_ s);
  re_fenwick : elems (fenwick_ s') = elems (fenwick_ s);
  re_size : size_ s' = size_ s;
  re_caps : caps_ok s';
}.

Lemma reserved_shape s s' ls : reserved s s' -> shape_ok s ls -> shape_ok s' ls.
Proof. intros [E1 E2 E3 Hc] [H1 H2 H3 H4]. split; [by rewrite E1|done|done|done]. Qed.
Lemma reserved_body s s' ls : reserved s s' -> body_ok s ls -> body_ok s' ls.
Proof. intros Hr [Hs Ht]. split; [by eapply reserved_shape|]. by rewrite (re_fenwick _ _ Hr). Qed.

Lemma wp_reserve_calm {T} sizeof n (v : vec T) b (Q : unit -> world (vec T) -> Prop) E :
  0 < sizeof <= 8 -> lim \/ n <= 2 ^ 40 -> calm b -> (forall b', calm b' -> Q tt (World b' (Vec (elems v) (Z.max n (capacity v))))) ->
  (lim -> forall e b', is_bad_alloc e = true -> E e (World b' v)) -> wp (reserve_memory_vector sizeof n) Q E (World b v).
Proof.
  intros Hs Hn Hb HQ HE. assert (u64_max / 8 <= u64_max / sizeof) by (apply Z.div_le_compat_l; unfold u64_max; lia).
  assert (u64_max / 8 = 2 ^ 61 - 1) by (vm_compute; reflexivity). unfold reserve_memory_vector. apply wp_bind, wp_obj_get. cbn [obj].
  destruct (Z.leb_spec n (capacity v)) as [Hle|Hle]; [apply wp_ret; specialize (HQ b Hb); rewrite Z.max_r in HQ by lia; by destruct v|].
  destruct (n >? u64_max / sizeof) eqn:Eg; [apply wp_throw, HE; [destruct Hn; [done|lia]|done]|]. apply wp_bind. eapply wp_quiet; [apply quiet_ensure|done| |by eauto].
  intros _ b' Hb' _. apply wp_obj_mod. cbn [obj mem]. rewrite <- (Z.max_l n (capacity v)) by lia. by apply HQ.
Qed.

Lemma wp_reserve_leaves s n b Q E :
  caps_ok s -> n <= 2 ^ 32 -> calm b ->
  (forall b' s', calm b' -> reserved s s' -> n <= capacity (leaves_ s') -> n + 1 <= capacity (fenwick_ s') -> Q tt (World b' s')) ->
  (lim -> forall e b' s', is_bad_alloc e = true -> reserved s s' -> E e (World b' s')) -> wp (reserve_leaf_count n) Q E (World b s).
Proof.
  intros Hc Hn Hb HQ HE. unfold reserve_leaf_count. apply wp_bind, wp_obj_get. cbn [obj id]. destruct ((_ <=? _) && (_ <=? _)) eqn:Ec; [apply wp_ret; apply HQ; [done|by split|lia|lia]|].
  destruct s as [[lv cl] [fv cf] sz]. destruct Hc as [C1 C2 C3]. unfold vsize in *. cbn [leaves_ fenwick_ size_ capacity elems] in *. set (grown := if cl =? 0 then 1 else cl * 2). set (target := Z.max n grown).
  assert (Ht : (lim \/ target <= 2 ^ 34) /\ n <= target /\ cl <= target) by (unfold target, grown; split; [destruct C3 as [|[|]]; [by left|right..]|]; destruct (Z.eqb_spec cl 0); lia).
  destruct Ht as (Ht & Hn' & Hcl).
  apply wp_bind. unfold on_leaves. apply wp_zoom. cbn [obj mem leaves_ fenwick_ size_]. apply wp_reserve_calm; [unfold sizeof_leaf; lia|destruct Ht; [by left|right; lia]|done| |].
  - intros b' Hb'. cbn [obj mem elems capacity]. unfold on_fenwick. apply wp_zoom. cbn [obj mem leaves_ fenwick_ size_]. apply wp_reserve_calm; [unfold sizeof_node; lia|destruct Ht; [by left|right; lia]|done| |].
    + intros b'' Hb''. cbn [obj mem elems capacity]. apply HQ; [done| |cbn; lia|cbn; lia]. split; [done|done|done|]. split; unfold vsize; cbn [leaves_ fenwick_ capacity elems]; [lia|lia|].
      destruct Ht as [|Ht]; [by left|right; right]. lia.
    + intros Hl e b'' He. apply HE; [done|done|]. split; [done|done|done|]. split; unfold vsize; cbn [obj mem leaves_ fenwick_ capacity elems]; [lia|lia|by left].
  - intros Hl e b' He. apply HE; [done|done|]. cbn. by split.
Qed.

(** What the leaves hold after some of them were replaced. *)
Lemma shape_splice s a mid z ps mid' f n :
  shape_ok s (a ++ mid ++ z) -> Forall2 leaf_ok ps mid' -> Forall storable (mjoin mid') -> Z.of_nat (length (mjoin (a ++ mid' ++ z))) < 2 ^ 32 ->
  Z.of_nat (length (a ++ mid' ++ z)) <= capacity (leaves_ s) -> caps_ok (mkSeg (with_elems [] (leaves_ s)) f n) ->
  shape_ok (mkSeg (with_elems (take (length a) (elems (leaves_ s)) ++ ps ++ drop (length a + length mid) (elems (leaves_ s))) (leaves_ s)) f n) (a ++ mid' ++ z).
Proof.
  intros [H1 H2 H3 [C1 C2 C3]] Hp Hv Hl Hr [D1 D2 D3]. rewrite !join_app, !Forall_app in H2.
  assert (HF : Forall2 leaf_ok (take (length a) (elems (leaves_ s)) ++ ps ++ drop (length a + length mid) (elems (leaves_ s))) (a ++ mid' ++ z)).
  { apply Forall2_app; [|apply Forall2_app; [done|]].
    - apply (Forall2_take _ _ _ (length a)) in H1. by rewrite take_app_length in H1.
    - apply (Forall2_drop _ _ _ (length a + length mid)) in H1. rewrite app_assoc, drop_app_length' in H1 by (by rewrite length_app). done. }
  split; [done| |done|].
  - rewrite !join_app, !Forall_app. tauto.
  - split; unfold vsize; cbn [leaves_ fenwick_ capacity elems with_elems] in *; [|done|done]. by rewrite (Forall2_length _ _ _ HF).
Qed.

Lemma wp_splice s a mid z ps mid' b Q E :
  shape_ok s (a ++ mid ++ z) -> Forall2 leaf_ok ps mid' -> Forall storable (mjoin mid') -> Z.of_nat (length (mjoin (a ++ mid' ++ z))) < 2 ^ 32 ->
  Z.of_nat (length (a ++ mid' ++ z)) <= capacity (leaves_ s) ->
  (forall s', shape_ok s' (a ++ mid' ++ z) -> fenwick_ s' = fenwick_ s -> size_ s' = size_ s -> Q tt (World b s')) -> wp (splice (length a) (length mid) ps) Q E (World b s).
Proof.
  intros Hs Hp Hv Hl Hr HQ. unfold splice. apply wp_bind, wp_obj_get. cbn [obj id]. apply wp_bind, wp_require; [rewrite (shape_count _ _ Hs), !length_app; lia|].
  apply wp_obj_mod. cbn [obj mem leaves_ fenwick_ size_]. apply HQ; [|done|done]. apply shape_splice; try done. destruct (sh_caps _ _ Hs) as [C1 C2 C3]. split; [|done|done]. unfold vsize in *. cbn in *. lia.
Qed.

Lemma shape_size s ls f n : shape_ok s ls -> f = fenwick_ s -> shape_ok (mkSeg (leaves_ s) f n) ls.
Proof. intros [H1 H2 H3 [C1 C2 C3]] ->. split; [done|done|done|]. by split. Qed.
Lemma body_size s ls n : body_ok s ls -> body_ok (mkSeg (leaves_ s) (fenwick_ s) n) ls.
Proof. intros [H1 H2]. split; [by apply shape_size|done]. Qed.

(** The list, and the size the object says. *)
Definition seg_has (s : SegmentedList) (vs : list bytes) (n : Z) : Prop := exists ls, body_ok s ls /\ mjoin ls = vs /\ size_ s = n.

(** New leaves for some old ones: the room is asked for first. *)
Lemma wp_resplice s a mid z ps mid' b n Q E :
  body_ok s (a ++ mid ++ z) -> Forall2 leaf_ok ps mid' -> Forall storable (mjoin mid') -> Z.of_nat (length (mjoin (a ++ mid' ++ z))) < 2 ^ 32 -> calm b ->
  n = Z.of_nat (length (a ++ mid' ++ z)) ->
  (forall b' s', calm b' -> shape_ok s' (a ++ mid' ++ z) -> Z.of_nat (length (a ++ mid' ++ z)) + 1 <= capacity (fenwick_ s') -> size_ s' = size_ s -> Q tt (World b' s')) ->
  (lim -> forall e b' s', is_bad_alloc e = true -> body_ok s' (a ++ mid ++ z) -> size_ s' = size_ s -> E e (World b' s')) ->
  wp (reserve_leaf_count n ;; splice (length a) (length mid) ps) Q E (World b s).
Proof.
  intros Hs Hp Hv Hl Hb -> HQ HE. destruct Hs as [Hsh Ht].
  assert (Hc : (length (a ++ mid' ++ z) <= length (mjoin (a ++ mid' ++ z)))%nat).
  { pose proof (sh_leaves _ _ Hsh) as HF. apply Forall2_app_inv_r in HF as (pa & pr & Ha & HF & _). apply Forall2_app_inv_r in HF as (pm & pz & _ & Hz & _).
    apply (parts_count (pa ++ ps ++ pz)). by repeat apply Forall2_app. }
  apply wp_bind, wp_reserve_leaves; [by apply Hsh|lia|done| |].
  - intros b' s' Hb' Hr H1 H2. eapply wp_splice; [by eapply reserved_shape|done..|]. intros s'' Hs'' Ef Es. apply HQ; [done|done|by rewrite Ef|]. by rewrite Es, (re_size _ _ Hr).
  - intros Hlim e b' s' He Hr. apply HE; [done|done| |by apply Hr]. eapply reserved_body; [done|]. by split.
Qed.

Lemma body_parts s ls : body_ok s ls -> (forall l, l ∈ ls -> l <> [] /\ (length l <= leaf_entries)%nat).
Proof. intros [[H _ _ _] _] l [i Hi]%list_elem_of_lookup. destruct (Forall2_lookup_r _ _ _ _ _ H Hi) as (p & _ & [_ ? ?]). done. Qed.

Lemma wp_replace_with s a mid z values bias P b Q E :
  quiet (U := SegmentedList) (build_leaves encoding compression leaf_entries junk pool_request values bias) (fun ps => exists mid', Forall2 leaf_ok ps mid' /\ values = mjoin mid' /\ P mid') ->
  body_ok s (a ++ mid ++ z) -> Forall storable values -> Z.of_nat (length (mjoin a ++ values ++ mjoin z)) < 2 ^ 32 -> calm b ->
  (forall b' s' mid', calm b' -> body_ok s' (a ++ mid' ++ z) -> values = mjoin mid' -> P mid' -> size_ s' = size_ s -> Q tt (World b' s')) ->
  (lim -> forall e b' s', is_bad_alloc e = true -> body_ok s' (a ++ mid ++ z) -> size_ s' = size_ s -> E e (World b' s')) ->
  wp (replace_leaf_range encoding compression leaf_entries junk pool_request (length a) (length mid) values bias) Q E (World b s).
Proof.
  intros Hq Hs Hv Hl Hb HQ HE. unfold replace_leaf_range. apply wp_bind. eapply wp_quiet; [exact Hq|done| |].
  2: { intros Hlim e b' He. by apply HE. }
  intros ps b1 Hb1 (mid' & Hp & -> & HP). apply wp_bind, wp_obj_get. cbn [obj id]. assert (Hj : mjoin (a ++ mid' ++ z) = mjoin a ++ mjoin mid' ++ mjoin z) by (by rewrite !join_app).
  apply wp_seq, wp_bind. eapply wp_resplice; [done|done|done|by rewrite Hj|done| | |done].
  - rewrite (shape_count s _ (bo_shape _ _ Hs)), (Forall2_length _ _ _ Hp), !length_app. lia.
  - intros b2 s2 Hb2 Hs2 Hr2 Hz2. eapply wp_rebuild_index; [done|done|]. intros s3 Hs3 Hz3 _. eapply HQ; [done|done|done|done|]. by rewrite Hz3.
Qed.

Lemma wp_replace_range s a mid z values bias b Q E :
  body_ok s (a ++ mid ++ z) -> Forall storable values -> Z.of_nat (length (mjoin a ++ values ++ mjoin z)) < 2 ^ 32 -> calm b ->
  (forall b' s', calm b' -> seg_has s' (mjoin a ++ values ++ mjoin z) (size_ s) -> Q tt (World b' s')) ->
  (lim -> forall e b' s', is_bad_alloc e = true -> body_ok s' (a ++ mid ++ z) -> size_ s' = size_ s -> E e (World b' s')) ->
  wp (replace_leaf_range encoding compression leaf_entries junk pool_request (length a) (length mid) values bias) Q E (World b s).
Proof.
  intros Hs Hv Hl Hb HQ HE. eapply (wp_replace_with _ _ _ _ _ _ (fun _ => True)); [|done|done|done|done| |done].
  - eapply quiet_mono; [by apply quiet_build_leaves|]. intros ps (mid' & Hp & E'). by exists mid'.
  - intros b' s' mid' Hb' Hs' -> _ Hz'. apply HQ; [done|]. exists (a ++ mid' ++ z). split_and!; [done|by rewrite !join_app|done].
Qed.

(** ** One leaf *)

Lemma leaf_insert_ok p l off value :
  holds encoding p l -> (off <= length l)%nat -> storable value ->
  exists ok p', ListListpack.insert junk off value (Z.of_nat leaf_entries) encoding compression kListListpackMaxBlobBytes p = Ret (ok, p') /\
    (if ok : bool then leaf_ok p' (take off l ++ value :: drop off l) else p' = p) /\ (l = [] -> ok = true).
Proof.
  intros Hh Ho Hv. destruct (blob_insert_ok encoding compression junk leaf_entries p l off value Hh Ho Hv) as (ok & p' & E & Hok & Hemp). exists ok, p'. split; [done|]. split.
  - destruct ok; [|done]. destruct Hok. split; [done|by destruct (take off l)|done].
  - intros El. apply Hemp; [done|lia].
Qed.

Lemma leaf_set_ok p l off value :
  leaf_ok p l -> (off < length l)%nat -> storable value ->
  exists ok p', ListListpack.set junk off value encoding compression kListListpackMaxBlobBytes p = Ret (ok, p') /\ (if ok : bool then leaf_ok p' (<[off := value]> l) else p' = p).
Proof.
  intros [Hh Hne Hm] Ho Hv. destruct (blob_set_ok encoding compression junk p l off value Hh Ho Hv) as (ok & p' & E & Hok). exists ok, p'. split; [done|]. destruct ok; [|done].
  split; [done|intros E'; apply (f_equal length) in E'; rewrite length_insert in E'; by destruct l|by rewrite length_insert].
Qed.

Lemma wp_decode {U} p l (Q : list bytes -> world U -> Prop) E w : holds encoding p l -> Q l w -> wp (decode_leaf encoding p) Q E w.
Proof.
  intros H HQ. apply listpack_reads_correct in H as (_ & _ & (vs & Hf & HF) & _). unfold decode_leaf. apply wp_bind. eapply wp_lift; [exact Hf|]. eapply wp_lift; [by apply mapM_strings|done].
Qed.

(** A leaf of the list, and the list with another leaf in its place. *)
Lemma shape_leaf s a l z :
  shape_ok s (a ++ l :: z) -> exists pa p pz, elems (leaves_ s) = pa ++ p :: pz /\ length pa = length a /\ leaf_ok p l /\
    forall p' l' n, leaf_ok p' l' -> Forall storable l' -> Z.of_nat (length (mjoin a ++ l' ++ mjoin z)) < 2 ^ 32 ->
      shape_ok (mkSeg (with_elems (pa ++ p' :: pz) (leaves_ s)) (fenwick_ s) n) (a ++ l' :: z).
Proof.
  intros [H1 H2 H3 [C1 C2 C3]]. apply Forall2_app_inv_r in H1 as (pa & pr & Ha & Hr & Ee). apply Forall2_cons_inv_r in Hr as (p & pz & Hp & Hz & ->).
  exists pa, p, pz. split_and!; [done|by eapply Forall2_length|done|]. intros p' l' n Hp' Hs' Hl. unfold vsize in *. rewrite join_app in H2. change (mjoin (l :: z)) with (l ++ mjoin z) in H2. rewrite !Forall_app in H2.
  split; cbn [leaves_ fenwick_ with_elems elems].
  - apply Forall2_app; [done|]. by constructor.
  - rewrite join_app. change (mjoin (l' :: z)) with (l' ++ mjoin z). rewrite !Forall_app. tauto.
  - rewrite join_app. exact Hl.
  - split; unfold vsize; cbn [leaves_ fenwick_ elems capacity with_elems]; [|done|done]. rewrite Ee, length_app in C1. rewrite length_app. exact C1.
Qed.

Lemma wp_leaf_at s pa p pz i b (Q : ListListpack -> world SegmentedList -> Prop) E :
  elems (leaves_ s) = pa ++ p :: pz -> length pa = i -> Q p (World b s) -> wp (leaf_at i) Q E (World b s).
Proof. intros Ee <- HQ. unfold leaf_at. apply wp_bind, wp_obj_get. cbn [obj id]. eapply wp_need; [|done]. rewrite Ee. by apply list_lookup_middle. Qed.

Lemma wp_leaf_size s a l z i b (Q : Z -> world SegmentedList -> Prop) E : shape_ok s (a ++ l :: z) -> length a = i -> Q (Z.of_nat (length l)) (World b s) -> wp (leaf_size i) Q E (World b s).
Proof.
  intros Hs <- HQ. destruct (shape_leaf _ _ _ _ Hs) as (pa & p & pz & Ee & Hl & Hp & _). unfold leaf_size. apply wp_bind. eapply wp_leaf_at; [done|done|]. eapply wp_lift; [by apply leaf_ok_size|done].
Qed.

Lemma wp_leaf_values s a l z i b (Q : list bytes -> world SegmentedList -> Prop) E : shape_ok s (a ++ l :: z) -> length a = i -> Q l (World b s) -> wp (leaf_values encoding i) Q E (World b s).
Proof.
  intros Hs <- HQ. destruct (shape_leaf _ _ _ _ Hs) as (pa & p & pz & Ee & Hl & Hp & _). unfold leaf_values. apply wp_bind. eapply wp_leaf_at; [done|done|]. eapply wp_decode; [by apply Hp|done].
Qed.

Lemma wp_put_leaf s pa p pz i p' b (Q : unit -> world SegmentedList -> Prop) E :
  elems (leaves_ s) = pa ++ p :: pz -> length pa = i -> Q tt (World b (mkSeg (with_elems (pa ++ p' :: pz) (leaves_ s)) (fenwick_ s) (size_ s))) -> wp (put_leaf i p') Q E (World b s).
Proof.
  intros Ee <- HQ. unfold put_leaf. apply wp_bind, wp_obj_get. cbn [obj id]. apply wp_bind, wp_require; [unfold leaf_count, vsize; rewrite Ee, length_app; cbn [length]; lia|].
  apply wp_obj_mod. cbn [obj mem leaves_ fenwick_ size_]. rewrite Ee, insert_app_r_alt, Nat.sub_diag by done. exact HQ.
Qed.

Lemma wp_add_count s a l l' z i delta b (Q : unit -> world SegmentedList -> Prop) E :
  shape_ok s (a ++ l' :: z) -> tree_ok (elems (fenwick_ s)) (counts (a ++ l :: z)) -> length a = i -> Z.of_nat (length l') = Z.of_nat (length l) + delta ->
  (forall s', body_ok s' (a ++ l' :: z) -> size_ s' = size_ s -> Q tt (World b s')) -> wp (add_count i delta) Q E (World b s).
Proof.
  intros Hs Ht <- Hl HQ. unfold add_count. apply wp_bind, wp_obj_get. cbn [obj id]. apply wp_bind.
  destruct (add_count_ok _ _ (length a) (Z.of_nat (length l)) delta Ht) as (tree & Et & Ht').
  { unfold counts. rewrite fmap_app, fmap_cons. apply list_lookup_middle. by rewrite length_fmap. }
  eapply wp_need; [done|]. apply wp_obj_mod. cbn [obj mem leaves_ fenwick_ size_]. apply HQ; [|done]. rewrite <- Hl in Ht'. unfold counts in Ht'. rewrite fmap_app, fmap_cons, insert_app_r_alt in Ht' by (by rewrite length_fmap).
  rewrite length_fmap, Nat.sub_diag in Ht'. split; [|right; unfold counts; rewrite fmap_app, fmap_cons; exact Ht'].
  destruct Hs as [H1 H2 H3 [C1 C2 C3]]. split; [done|done|done|]. split; [done| |done]. unfold vsize. cbn [fenwick_ with_elems elems capacity]. apply tk_length in Ht', Ht. unfold vsize in C2. rewrite Ht in C2. rewrite Ht'.
  unfold counts in C2. rewrite length_fmap, length_app in C2. rewrite length_app, length_insert. cbn [length] in *. rewrite !length_fmap. exact C2.
Qed.

Lemma shape_storable s a l z : shape_ok s (a ++ l :: z) -> Forall storable (mjoin a) /\ Forall storable l /\ Forall storable (mjoin z).
Proof. intros [_ H _ _]. rewrite join_app in H. change (mjoin (l :: z)) with (l ++ mjoin z) in H. by rewrite !Forall_app in H. Qed.

Lemma seg_eta s : mkSeg (with_elems (elems (leaves_ s)) (leaves_ s)) (fenwick_ s) (size_ s) = s.
Proof. by destruct s as [[] [] ?]. Qed.

Lemma wp_leaf_insert s a l z i off value b (Q : bool -> world SegmentedList -> Prop) E :
  shape_ok s (a ++ l :: z) -> length a = i -> (off <= length l)%nat -> storable value -> Z.of_nat (length (mjoin (a ++ l :: z))) + 1 < 2 ^ 32 -> calm b ->
  (forall b' s', calm b' -> shape_ok s' (a ++ (take off l ++ value :: drop off l) :: z) -> fenwick_ s' = fenwick_ s -> size_ s' = size_ s -> Q true (World b' s')) ->
  (forall b', calm b' -> Q false (World b' s)) -> (lim -> forall e b', is_bad_alloc e = true -> E e (World b' s)) ->
  wp (leaf_insert encoding compression leaf_entries junk pool_request i off value) Q E (World b s).
Proof.
  intros Hs <- Ho Hv Hl Hb HT HF HE. destruct (shape_leaf _ _ _ _ Hs) as (pa & p & pz & Ee & Hpa & Hp & Hput). unfold leaf_insert. apply wp_bind. eapply wp_leaf_at; [done|done|].
  destruct (leaf_insert_ok p l off value (lo_holds _ _ Hp) Ho Hv) as (ok & p' & Ei & Hok & _). apply wp_bind. eapply wp_lift; [exact Ei|]. cbn beta iota. apply wp_bind.
  eapply wp_quiet; [apply (quiet_when _ _ (fun _ => True)); [apply quiet_pool|done]|done| |done]. intros _ b' Hb' _. apply wp_bind. eapply wp_put_leaf; [done|done|]. apply wp_ret. destruct ok.
  - apply HT; [done| |done|done]. destruct (shape_storable _ _ _ _ Hs) as (_ & Hsl & _). apply Hput; [done| |].
    + apply Forall_app. split; [by apply Forall_take|]. apply Forall_cons. split; [done|by apply Forall_drop].
    + rewrite join_mid in Hl. rewrite !length_app, length_take in *. cbn [length]. rewrite length_drop. lia.
  - subst p'. rewrite <- Ee, seg_eta. by apply HF.
Qed.

Lemma quiet_single_leaf value : storable value -> quiet (single_leaf encoding compression leaf_entries junk pool_request value) (fun p => leaf_ok p [value]).
Proof.
  intros Hv. unfold single_leaf. destruct (leaf_insert_ok None [] 0 value (holds_none _) ltac:(cbn; lia) Hv) as (ok & p & Ei & Hok & H1). rewrite (H1 eq_refl) in *.
  eapply quiet_bind; [eapply (quiet_fresh _ true p (eq (true, p))); done|]. intros r <-. by apply quiet_ret.
Qed.

(** The place of an insertion: a leaf and a place in it. *)
Lemma wp_location s ls index b (Q : nat * nat -> world SegmentedList -> Prop) E :
  body_ok s ls -> ls <> [] -> size_ s = Z.of_nat (length (mjoin ls)) -> 0 <= index <= size_ s ->
  (forall a l z off, ls = a ++ l :: z -> (off <= length l)%nat -> index = Z.of_nat (length (mjoin a) + off) -> Q (length a, off) (World b s)) ->
  wp (location_of index) Q E (World b s).
Proof.
  intros Hs Hne Hz Hi HQ. unfold location_of. apply wp_bind, wp_obj_get. cbn [obj id]. case_bool.
  - destruct (exists_last Hne) as (a & l & ->). unfold tail_location. apply wp_bind, wp_obj_get. cbn [obj id]. rewrite (shape_count _ _ (bo_shape _ _ Hs)), length_app. cbn [length].
    apply wp_bind, wp_require; [lia|]. apply wp_bind. eapply wp_leaf_size; [by apply Hs|lia|]. apply wp_ret. replace (length a + 1 - 1)%nat with (length a) by lia. rewrite Nat2Z.id. apply (HQ a l []); [done|done|].
    rewrite join_mid, !length_app in Hz. cbn [length mjoin list_join] in Hz. lia.
  - destruct (locate_place s ls index Hs Hz ltac:(lia)) as (a & l & z & off & -> & El & Ho & Ei). eapply wp_need; [done|]. apply (HQ a l z off); [done|lia|done].
Qed.

(** Leaves added at a place. *)
Lemma wp_add_leaves s a z ps vs' added b (Q : unit -> world SegmentedList -> Prop) E :
  body_ok s (a ++ z) -> leaves_of ps vs' -> Forall storable vs' -> size_ s = Z.of_nat (length (mjoin (a ++ z))) -> added = Z.of_nat (length vs') -> size_ s + added < 2 ^ 32 -> calm b ->
  (forall b' s', calm b' -> seg_repr s' (mjoin a ++ vs' ++ mjoin z) -> Q tt (World b' s')) ->
  (lim -> forall e b' s', is_bad_alloc e = true -> seg_repr s' (mjoin (a ++ z)) -> E e (World b' s')) ->
  wp (add_leaves (length a) ps added) Q E (World b s).
Proof.
  intros Hs (mid & Hp & ->) Hv Hz -> Hl Hb HQ HE. unfold add_leaves. apply wp_bind, wp_obj_get. cbn [obj id]. assert (Hj : mjoin (a ++ mid ++ z) = mjoin a ++ mjoin mid ++ mjoin z) by (by rewrite !join_app).
  apply wp_seq, wp_bind. eapply (wp_resplice s a [] z ps mid); [done|done|done| |done| | |].
  - rewrite join_app, length_app in Hz. rewrite Hj, !length_app. lia.
  - rewrite (shape_count s _ (bo_shape _ _ Hs)), (Forall2_length _ _ _ Hp), !length_app. lia.
  - intros b2 s2 Hb2 Hs2 Hr2 Hz2. apply wp_bind, wp_obj_mod. cbn [obj mem]. eapply wp_rebuild_index; [by apply shape_size|done|]. intros s3 Hs3 Hz3 _. apply HQ; [done|].
    eexists. split_and!; [done|done|]. rewrite Hz3. cbn [size_]. rewrite Hz, join_app, !length_app. lia.
  - intros Hlim e b' s' He Hs' Hz'. apply HE; [done|done|]. eexists. split_and!; [done|done|]. by rewrite Hz'.
Qed.

(** ** Insertion *)

Lemma body_tree s a l z : body_ok s (a ++ l :: z) -> tree_ok (elems (fenwick_ s)) (counts (a ++ l :: z)).
Proof. intros [_ [E|]]; [by destruct a|done]. Qed.

Lemma parts_repr s ls n : body_ok s ls -> size_ s = n -> n = Z.of_nat (length (mjoin ls)) -> seg_repr s (mjoin ls).
Proof. intros ? <- ?. by exists ls. Qed.

Section inserting.
Variables (s : SegmentedList) (ls : list (list bytes)) (index : Z) (b : option ActiveMemoryBudget).
Hypothesis (Hs : body_ok s ls) (Hz : size_ s = Z.of_nat (length (mjoin ls))) (Hi : 0 <= index <= size_ s) (Hb : calm b).
Abbreviation result_of values := (insert_at_place (Z.to_nat index) values (mjoin ls)).

(** All values into one leaf, and as many leaves as they take. *)
Lemma wp_replace_at a l z off values bias b' (Q : unit -> world SegmentedList -> Prop) E :
  ls = a ++ l :: z -> (off <= length l)%nat -> index = Z.of_nat (length (mjoin a) + off) -> Forall storable values -> size_ s + Z.of_nat (length values) < 2 ^ 32 -> calm b' ->
  (forall b' s', calm b' -> seg_has s' (result_of values) (size_ s) -> Q tt (World b' s')) ->
  (lim -> forall e b' s', is_bad_alloc e = true -> seg_repr s' (mjoin ls) -> E e (World b' s')) ->
  wp (replace_leaf encoding compression leaf_entries junk pool_request (length a) (take off l ++ values ++ drop off l) bias) Q E (World b' s).
Proof.
  intros E1 Ho E2 Hv Hl Hb' HQ HE. rewrite E1 in *. rewrite E2, Nat2Z.id, insert_in_part in HQ by done. destruct (shape_storable _ _ _ _ (bo_shape _ _ Hs)) as (Ha & Hsl & Hsz).
  unfold replace_leaf. apply (wp_replace_range s a [l] z); [done| | |done|done|].
  - rewrite !Forall_app. split_and!; [by apply Forall_take|done|by apply Forall_drop].
  - rewrite join_mid, !length_app in Hz. rewrite !length_app, length_take, length_drop. lia.
  - intros Hlim e b2 s2 He Hs2 Hz2. apply HE; [done|done|]. eapply parts_repr; [done|done|lia].
Qed.

Lemma wp_insert_middle value (Q : unit -> world SegmentedList -> Prop) E :
  ls <> [] -> storable value -> size_ s + 1 < 2 ^ 32 ->
  (forall b' s', calm b' -> seg_repr s' (result_of [value]) -> Q tt (World b' s')) ->
  (lim -> forall e b' s', is_bad_alloc e = true -> seg_repr s' (mjoin ls) -> E e (World b' s')) ->
  wp (insert_middle encoding compression leaf_entries junk pool_request index value) Q E (World b s).
Proof.
  intros Hne Hv Hl HQ HE. unfold insert_middle. apply wp_bind, wp_obj_get. cbn [obj id]. apply wp_bind. eapply wp_location; [done|done|done|done|]. intros a l z off E1 Ho E2. cbn beta iota.
  pose proof Hs as Hs'. rewrite E1 in Hs'. apply wp_bind. eapply wp_leaf_insert; [by apply Hs'|done|done|done|rewrite <- E1; lia|done| | |].
  - intros b1 s1 Hb1 Hs1 Ef Ez. apply wp_bind, wp_obj_mod. cbn [obj mem]. eapply (wp_add_count _ a l); [by apply shape_size|cbn [fenwick_]; rewrite Ef; by apply body_tree|done|rewrite !length_app, length_take; cbn [length]; rewrite length_drop; lia|].
    intros s2 Hs2 Ez2. apply HQ; [done|]. rewrite E1, E2, Nat2Z.id, insert_in_part, <- join_mid by done. eapply parts_repr; [done|exact Ez2|]. cbn [size_].
    rewrite Hz, E1, !join_mid, !length_app, length_take. cbn [length]. rewrite length_drop. lia.
  - intros b1 Hb1. apply wp_bind. eapply wp_leaf_values; [by apply Hs'|done|]. apply wp_bind. apply (wp_replace_at a l z off [value]); [done|done|done|by apply Forall_singleton|cbn [length]; lia|done| |done].
    intros b2 s2 Hb2 (ls2 & Hs2 & Ej & Hz2). apply wp_obj_mod. cbn [obj mem]. apply HQ; [done|]. rewrite <- Ej. eapply (parts_repr _ _ (size_ s + 1)); [by apply body_size|done|]. rewrite Ej, length_insert_at_place. cbn [length]. lia.
  - intros Hlim e b1 He. apply HE; [done|done|]. by eapply parts_repr.
Qed.

Lemma wp_insert_combined values (Q : unit -> world SegmentedList -> Prop) E :
  ls <> [] -> Forall storable values -> size_ s + Z.of_nat (length values) < 2 ^ 32 ->
  (forall b' s', calm b' -> seg_repr s' (result_of values) -> Q tt (World b' s')) ->
  (lim -> forall e b' s', is_bad_alloc e = true -> seg_repr s' (mjoin ls) -> E e (World b' s')) ->
  wp (insert_combined encoding compression leaf_entries junk pool_request index values) Q E (World b s).
Proof.
  intros Hne Hv Hl HQ HE. unfold insert_combined. apply wp_bind, wp_obj_get. cbn [obj id]. apply wp_bind. eapply wp_location; [done|done|done|done|]. intros a l z off E1 Ho E2. cbn beta iota.
  pose proof Hs as Hs'. rewrite E1 in Hs'. apply wp_bind. eapply wp_leaf_values; [by apply Hs'|done|]. apply wp_bind. apply (wp_replace_at a l z off); [done|done|done|done|done|done| |done].
  intros b2 s2 Hb2 (ls2 & Hs2 & Ej & Hz2). apply wp_obj_mod. cbn [obj mem]. apply HQ; [done|]. rewrite <- Ej. eapply (parts_repr _ _ (size_ s + Z.of_nat (length values))); [by apply body_size|done|]. rewrite Ej, length_insert_at_place. lia.
Qed.

(** Leaves added before the first or after the last. *)
Lemma wp_add_front ps values added b' (Q : unit -> world SegmentedList -> Prop) E :
  index = 0 -> leaves_of ps values -> Forall storable values -> added = Z.of_nat (length values) -> size_ s + added < 2 ^ 32 -> calm b' ->
  (forall b' s', calm b' -> seg_repr s' (result_of values) -> Q tt (World b' s')) ->
  (lim -> forall e b' s', is_bad_alloc e = true -> seg_repr s' (mjoin ls) -> E e (World b' s')) -> wp (add_leaves 0 ps added) Q E (World b' s).
Proof.
  intros E0 Hp Hv Ha Hl Hb' HQ HE. apply (wp_add_leaves s [] ls ps values); [done|done|done|done|done|done|done| |done]. intros b1 s1 Hb1 Hr. apply HQ; [done|]. rewrite E0. unfold insert_at_place. cbn. by rewrite drop_0.
Qed.

Lemma wp_add_back ps values added b' (Q : unit -> world SegmentedList -> Prop) E :
  index = size_ s -> leaves_of ps values -> Forall storable values -> added = Z.of_nat (length values) -> size_ s + added < 2 ^ 32 -> calm b' ->
  (forall b' s', calm b' -> seg_repr s' (result_of values) -> Q tt (World b' s')) ->
  (lim -> forall e b' s', is_bad_alloc e = true -> seg_repr s' (mjoin ls) -> E e (World b' s')) -> wp (add_leaves (leaf_count s) ps added) Q E (World b' s).
Proof.
  intros E0 Hp Hv Ha Hl Hb' HQ HE. rewrite (shape_count _ _ (bo_shape _ _ Hs)). pose proof (app_nil_r ls) as En.
  apply (wp_add_leaves s ls [] ps values); rewrite ?En; [done|done|done|done|done|done|done| |done]. intros b1 s1 Hb1 Hr. apply HQ; [done|].
  rewrite E0, Hz, Nat2Z.id. unfold insert_at_place. rewrite take_ge, drop_ge by done. exact Hr.
Qed.
End inserting.

Lemma wp_seg_insert s vs index value b (Q : unit -> world SegmentedList -> Prop) E :
  seg_repr s vs -> 0 <= index <= Z.of_nat (length vs) -> storable value -> Z.of_nat (length vs) + 1 < 2 ^ 32 -> calm b ->
  (forall b' s', calm b' -> seg_repr s' (insert_at_place (Z.to_nat index) [value] vs) -> Q tt (World b' s')) ->
  (lim -> forall e b' s', is_bad_alloc e = true -> seg_repr s' vs -> E e (World b' s')) ->
  wp (seg_insert encoding compression leaf_entries junk pool_request index value) Q E (World b s).
Proof.
  intros (ls & Hs & <- & Hz) Hi Hv Hl Hb HQ HE. rewrite <- Hz in Hi, Hl. assert (Hsame : forall e b', lim -> is_bad_alloc e = true -> E e (World b' s)) by (intros e b' Hlim He; apply HE; [done|done|by exists ls]).
  assert (Hone : Forall storable [value]) by (by apply Forall_singleton).
  unfold seg_insert. apply wp_bind, wp_obj_get. cbn [obj id]. apply wp_bind, wp_require; [lia|]. rewrite (shape_count _ _ (bo_shape _ _ Hs)).
  destruct (Nat.eqb_spec (length ls) 0) as [E0|E0].
  { destruct ls; [|done]. apply wp_bind. eapply wp_quiet; [by apply quiet_single_leaf|done| |by eauto]. intros p b1 Hb1 Hp. apply wp_seq, wp_bind.
    apply (wp_resplice s [] [] [] [p] [[value]]); [done|by constructor|done|cbn; lia|done|done| |].
    - intros b2 s2 Hb2 Hs2 Hr2 Hz2. apply wp_bind, wp_obj_mod. cbn [obj mem]. eapply wp_rebuild_index; [by apply shape_size|done|]. intros s3 Hs3 Hz3 _. apply HQ; [done|]. rewrite insert_empty.
      eapply (parts_repr _ [[value]]); [done|done|done].
    - intros Hlim e b' s' He Hs' Hz'. apply HE; [done|done|]. eapply (parts_repr _ []); [done|done|by rewrite Hz]. }
  assert (Hne : ls <> []) by (by destruct ls). apply wp_bind. destruct ls as [|l0 ls]; [done|]. eapply (wp_leaf_size s [] l0 ls); [by apply Hs|done|].
  destruct ((index =? 0) && _) eqn:E1.
  { apply wp_bind. eapply wp_quiet; [by apply quiet_single_leaf|done| |by eauto]. intros p b1 Hb1 Hp. apply (wp_add_front s (l0 :: ls) index Hs Hz [p] [value]); [lia|by apply leaves_of_one|done|done|cbn; lia|done|done|done]. }
  destruct (exists_last Hne) as (a & l & Ea). apply wp_bind. rewrite Ea in Hs. eapply (wp_leaf_size s a l []); [by apply Hs|rewrite Ea, length_app; cbn; lia|]. rewrite <- Ea in Hs.
  destruct ((index =? size_ s) && _) eqn:E2; [|by apply (wp_insert_middle s (l0 :: ls) index b)].
  apply wp_bind. eapply wp_quiet; [by apply quiet_single_leaf|done| |by eauto]. intros p b1 Hb1 Hp. rewrite <- (shape_count _ _ (bo_shape _ _ Hs)).
  apply (wp_add_back s (l0 :: ls) index Hs Hz [p] [value]); [lia|by apply leaves_of_one|done|done|cbn; lia|done|done|done].
Qed.

(** ** Several values at once *)

Lemma wp_fill a z i at_back values s l b (Q : nat -> world SegmentedList -> Prop) E :
  ~ lim -> shape_ok s (a ++ l :: z) -> length a = i -> Forall storable values -> Z.of_nat (length (mjoin (a ++ l :: z))) + Z.of_nat (length values) < 2 ^ 32 -> calm b ->
  (forall n b' s', (n <= length values)%nat -> calm b' -> shape_ok s' (a ++ (if at_back : bool then l ++ take n values else rev (take n values) ++ l) :: z) ->
     fenwick_ s' = fenwick_ s -> size_ s' = size_ s -> Q n (World b' s')) ->
  wp (fill_loop encoding compression leaf_entries junk pool_request i at_back values) Q E (World b s).
Proof.
  intros Hnl Hs <- Hv. revert s l b Q E Hs. induction Hv as [|value values Hval Hv IH]; intros s l b Q E Hs Hl Hb HQ; cbn [fill_loop].
  { apply wp_ret. apply HQ; [cbn; lia|done| |done|done]. destruct at_back; [by rewrite app_nil_r|done]. }
  assert (H0 : forall b', calm b' -> Q 0%nat (World b' s)) by (intros b' Hb'; apply HQ; [cbn; lia|done| |done|done]; destruct at_back; [by rewrite app_nil_r|done]).
  apply wp_bind. eapply wp_leaf_size; [done|done|]. destruct (_ <? Z.of_nat leaf_entries); [|by apply wp_ret, H0].
  cbn [length] in Hl. apply wp_bind. eapply wp_leaf_insert; [done|done| |done|lia|done| | |done]; [destruct at_back; lia| |].
  - intros b1 s1 Hb1 Hs1 Ef Ez. apply wp_bind. eapply IH; [done| |done|].
    + rewrite join_mid, !length_app in *. rewrite length_take. cbn [length]. rewrite length_drop. lia.
    + intros n b2 s2 Hn Hb2 Hs2 Ef2 Ez2. apply wp_ret. apply HQ; [cbn; lia|done| |congruence|congruence]. cbn [take]. destruct at_back.
      * rewrite Nat2Z.id, take_ge, drop_ge in Hs2 by done. by rewrite <- app_assoc in Hs2.
      * cbn [rev]. rewrite <- app_assoc. cbn [take drop app] in Hs2. by rewrite drop_0 in Hs2.
  - intros b1 Hb1. by apply wp_ret, H0.
Qed.

Lemma wp_settle s s1 a l l' z i n b (Q : unit -> world SegmentedList -> Prop) E :
  body_ok s (a ++ l :: z) -> shape_ok s1 (a ++ l' :: z) -> fenwick_ s1 = fenwick_ s -> size_ s1 = size_ s -> length a = i -> length l' = (length l + n)%nat ->
  (forall s2, body_ok s2 (a ++ l' :: z) -> size_ s2 = size_ s + Z.of_nat n -> Q tt (World b s2)) ->
  wp (when (negb (n =? 0)%nat) (add_count i (Z.of_nat n);; set_size (size_ s + Z.of_nat n))) Q E (World b s1).
Proof.
  intros Hs Hs1 Ef Ez Hi Hl HQ. pose proof (body_tree _ _ _ _ Hs) as Ht. rewrite <- Ef in Ht. apply wp_when; intros E0.
  - apply wp_bind. eapply wp_add_count; [done|exact Ht|done|lia|]. intros s2 Hs2 Ez2. apply wp_obj_mod. cbn [obj mem]. apply HQ; [by apply body_size|done].
  - assert (n = 0%nat) by (apply negb_false_iff, Nat.eqb_eq in E0; done). subst n. apply HQ; [|lia]. split; [done|right]. unfold counts in *. rewrite fmap_app, fmap_cons in *. by replace (length l') with (length l) by lia.
Qed.

Section many.
Variables (s : SegmentedList) (ls : list (list bytes)) (values : list bytes) (b : option ActiveMemoryBudget).
Hypothesis (Hs : body_ok s ls) (Hz : size_ s = Z.of_nat (length (mjoin ls))) (Hb : calm b) (Hv : Forall storable values) (Hl : size_ s + Z.of_nat (length values) < 2 ^ 32).

Lemma wp_insert_back (Q : unit -> world SegmentedList -> Prop) E :
  ~ lim -> ls <> [] -> (forall b' s', calm b' -> seg_repr s' (mjoin ls ++ values) -> Q tt (World b' s')) ->
  wp (insert_many_back encoding compression leaf_entries junk pool_request values) Q E (World b s).
Proof.
  intros Hnl Hne HQ. destruct (exists_last Hne) as (a & l & E1). rewrite E1 in *. unfold insert_many_back. apply wp_bind, wp_obj_get. cbn [obj id]. apply wp_bind. pose proof (shape_count _ _ (bo_shape _ _ Hs)) as Hc. rewrite length_app in Hc. cbn [length] in Hc.
  eapply (wp_fill a []); [done|by apply Hs|lia|done|lia|done|]. intros n b1 s1 Hn Hb1 Hs1 Ef Ez. apply wp_bind. eapply wp_settle; [exact Hs|exact Hs1|done|done|lia|rewrite length_app, length_take; lia|].
  intros s2 Hs2 Hz2. assert (Hj : mjoin (a ++ [l ++ take n values]) = mjoin (a ++ [l]) ++ take n values) by (rewrite !join_mid; cbn; by rewrite !app_nil_r, app_assoc).
  assert (Hz2' : size_ s2 = Z.of_nat (length (mjoin (a ++ [l ++ take n values])))) by (rewrite Hj, length_app, length_take; lia).
  destruct (Nat.eqb_spec n (length values)) as [->|Hlt].
  - apply wp_ret. apply HQ; [done|]. rewrite take_ge in Hj by done. rewrite <- Hj. rewrite take_ge in Hs2, Hz2' by done. eapply parts_repr; [done|exact Hz2'|done].
  - apply wp_bind. eapply wp_quiet; [by apply quiet_view_leaves, Forall_drop|done| |done]. intros ps b3 Hb3 Hp.
    replace (leaf_count s) with (leaf_count s2) by (rewrite (shape_count _ _ (bo_shape _ _ Hs2)), length_app; cbn; lia).
    eapply (wp_add_back s2 _ (size_ s2) Hs2 Hz2' ps); [done|exact Hp|by apply Forall_drop|rewrite length_drop; lia|lia|done| |done].
    intros b4 s4 Hb4 Hr. apply HQ; [done|]. rewrite Hz2', Nat2Z.id in Hr. unfold insert_at_place in Hr. rewrite (take_ge (mjoin _)), (drop_ge (mjoin _)), app_nil_r, Hj, <- app_assoc, take_drop in Hr by done. exact Hr.
Qed.

Lemma wp_insert_front (Q : unit -> world SegmentedList -> Prop) E :
  ~ lim -> ls <> [] -> (forall b' s', calm b' -> seg_repr s' (values ++ mjoin ls) -> Q tt (World b' s')) ->
  wp (insert_many_front encoding compression leaf_entries junk pool_request values) Q E (World b s).
Proof.
  intros Hnl Hne HQ. destruct ls as [|l z]; [done|]. unfold insert_many_front. apply wp_bind, wp_obj_get. cbn [obj id]. apply wp_bind.
  eapply (wp_fill [] z); [done|by apply Hs|done|by apply Forall_rev|rewrite length_rev; cbn [app]; lia|done|]. intros n b1 s1 Hn Hb1 Hs1 Ef Ez. rewrite length_rev in Hn. cbn [app] in Hs1.
  assert (Hr : rev (take n (rev values)) = drop (length values - n) values) by (by rewrite List.firstn_rev, rev_involutive).
  rewrite Hr in Hs1. set (c := (length values - n)%nat) in *. apply wp_bind. eapply (wp_settle s s1 [] l); [exact Hs|exact Hs1|done|done|done|rewrite length_app, length_drop; lia|].
  intros s2 Hs2 Hz2. cbn [app] in Hs2. assert (Hj : mjoin ((drop c values ++ l) :: z) = drop c values ++ mjoin (l :: z)) by (cbn; by rewrite <- app_assoc).
  assert (Hz2' : size_ s2 = Z.of_nat (length (mjoin ((drop c values ++ l) :: z)))) by (rewrite Hj, length_app, length_drop; lia).
  destruct (Nat.eqb_spec c 0) as [E0|Hlt].
  - apply wp_ret. apply HQ; [done|]. rewrite E0, drop_0 in *. rewrite <- Hj. eapply parts_repr; [done|exact Hz2'|done].
  - apply wp_bind. eapply wp_quiet; [by apply quiet_view_leaves, Forall_take|done| |done]. intros ps b3 Hb3 Hp.
    eapply (wp_add_front s2 _ 0 Hs2 Hz2' ps); [done|exact Hp|by apply Forall_take|rewrite length_take; lia|lia|done| |done].
    intros b4 s4 Hb4 Hr4. apply HQ; [done|]. unfold insert_at_place in Hr4. change (Z.to_nat 0) with 0%nat in Hr4. rewrite take_0, drop_0, Hj, app_nil_l, app_assoc, take_drop in Hr4. exact Hr4.
Qed.
End many.

Lemma wp_assign_with s (values : list bytes) (build : M (world SegmentedList) (list ListListpack)) b (Q : unit -> world SegmentedList -> Prop) (E : exn -> world SegmentedList -> Prop) :
  caps_ok s -> Forall storable values -> Z.of_nat (length values) < 2 ^ 32 -> calm b -> quiet build (fun ps => leaves_of ps values) ->
  (forall b' s', calm b' -> seg_repr s' values -> Q tt (World b' s')) ->
  (lim -> forall e b' s', is_bad_alloc e = true -> reserved s s' -> E e (World b' s')) ->
  wp (seg_assign leaf_entries pushed_capacity values build) Q E (World b s).
Proof.
  intros Hc Hv Hl Hb Hbuild HQ HE. unfold seg_assign. replace (_ <? _) with false by lia. apply wp_bind. eapply wp_quiet; [done|done| |].
  2: { intros Hlim e b' He. apply HE; [done|done|by split]. }
  intros ps b1 Hb1 (ls & Hp & Ej). apply wp_bind, wp_obj_get. cbn [obj id]. set (cap := pushed_capacity _ _).
  pose proof (parts_count _ _ Hp) as Hn. rewrite <- Ej in Hn. pose proof (Forall2_length _ _ _ Hp) as Hlen.
  assert (Hd : ((length values + leaf_entries - 1) / leaf_entries <= length values)%nat) by (destruct (decide (length values = 0%nat)) as [->|]; [rewrite Nat.div_small; lia|apply Nat.Div0.div_le_upper_bound; nia]).
  assert (Hcap : Z.of_nat (length ps) <= cap <= 2 ^ 33) by (apply pushed_capacity_range; lia).
  apply wp_bind. eapply (wp_quiet _ (fun _ => True)); [apply quiet_when; [apply quiet_ensure|done]|done| |].
  2: { intros Hlim e b' He. apply HE; [done|done|by split]. }
  intros _ b2 Hb2 _. apply wp_bind. unfold on_fenwick. apply wp_zoom. cbn [obj mem]. apply wp_reserve_calm; [unfold sizeof_node; lia|right; lia|done| |].
  - intros b3 Hb3. cbn [obj mem]. apply wp_bind, wp_obj_mod. cbn [obj mem leaves_ fenwick_ size_ elems capacity]. eapply (wp_rebuild_index _ ls); [|cbn; lia|].
    + destruct Hc as [C1 C2 C3]. split; [done|by rewrite <- Ej|by rewrite <- Ej|]. unfold vsize in *. split; unfold vsize; cbn [leaves_ fenwick_ elems capacity]; [lia|lia|right; left; lia].
    + intros s' Hs' Hz' _. apply HQ; [done|]. rewrite Ej. eapply parts_repr; [done|exact Hz'|]. cbn [size_]. by rewrite Ej.
  - intros Hlim e b3 He. apply HE; [done|done|]. cbn [obj mem]. destruct s as [? [] ?]. by split.
Qed.

Lemma wp_assign_values s values b (Q : unit -> world SegmentedList -> Prop) (E : exn -> world SegmentedList -> Prop) :
  caps_ok s -> Forall storable values -> Z.of_nat (length values) < 2 ^ 32 -> calm b ->
  (forall b' s', calm b' -> seg_repr s' values -> Q tt (World b' s')) ->
  (lim -> forall e b' s', is_bad_alloc e = true -> reserved s s' -> E e (World b' s')) ->
  wp (assign_values encoding compression leaf_entries junk pool_request pushed_capacity values) Q E (World b s).
Proof. intros. unfold assign_values. apply wp_assign_with; try done. by apply quiet_view_leaves. Qed.

Lemma reserved_repr s s' vs : reserved s s' -> seg_repr s vs -> seg_repr s' vs.
Proof. intros Hr (ls & Hs & Hj & Hz). exists ls. split_and!; [by eapply reserved_body|done|]. by rewrite (re_size _ _ Hr). Qed.

Lemma repr_caps s vs : seg_repr s vs -> caps_ok s.
Proof. intros (ls & [Hs _] & _). apply Hs. Qed.

Lemma ceiling_active {U} (w : world U) : memory_ceiling_active w = true <-> ~ unlimited (mem w).
Proof.
  unfold memory_ceiling_active, unlimited. destruct (mem w) as [c|]; cbn [mbind option_bind]; [|naive_solver]. rewrite bool_decide_eq_true. destruct (enforced c); [|by split; [intros []|]]. by split; [|eauto].
Qed.

Lemma wp_insert_many s vs index values b (Q : unit -> world SegmentedList -> Prop) E :
  seg_repr s vs -> 0 <= index <= Z.of_nat (length vs) -> Forall storable values -> Z.of_nat (length vs) + Z.of_nat (length values) < 2 ^ 32 -> calm b ->
  (forall b' s', calm b' -> seg_repr s' (insert_at_place (Z.to_nat index) values vs) -> Q tt (World b' s')) ->
  (lim -> forall e b' s', is_bad_alloc e = true -> seg_repr s' vs -> E e (World b' s')) ->
  wp (insert_many encoding compression leaf_entries junk pool_request pushed_capacity index values) Q E (World b s).
Proof.
  intros Hr Hi Hv Hl Hb HQ HE. pose proof Hr as (ls & Hs & <- & Hz). rewrite <- Hz in Hi, Hl. unfold insert_many. apply wp_bind, wp_obj_get. cbn [obj id]. apply wp_bind, wp_require; [lia|].
  destruct (Nat.eqb_spec (length values) 0) as [E0|E0].
  { apply wp_ret. apply HQ; [done|]. destruct values; [|done]. unfold insert_at_place. by rewrite app_nil_l, take_drop. }
  rewrite (shape_count _ _ (bo_shape _ _ Hs)). destruct (Nat.eqb_spec (length ls) 0) as [E1|E1].
  { destruct ls; [|done]. apply wp_assign_values; [by eapply repr_caps|done|cbn in *; lia|done| |].
    - intros b' s' Hb' Hs'. apply HQ; [done|]. by rewrite insert_empty.
    - intros Hlim e b' s' He Hr'. apply HE; [done|done|by eapply reserved_repr]. }
  assert (Hne : ls <> []) by (by destruct ls). apply wp_bind, wp_gets. destruct (memory_ceiling_active _) eqn:Ea; [by eapply wp_insert_combined|].
  assert (Hnl : ~ lim). { intros H. assert (Hu : ~ unlimited b) by (by destruct Hb as [[_ Hu]|[Hu _]]). apply (ceiling_active (World b s)) in Hu. by rewrite Hu in Ea. }
  destruct (exists_last Hne) as (a & l & El). apply wp_bind. rewrite El in Hs. eapply (wp_leaf_size s a l []); [by apply Hs|rewrite El, length_app; cbn; lia|]. rewrite <- El in Hs.
  destruct ((index =? size_ s) && _) eqn:E2.
  { apply wp_bind. eapply wp_quiet; [by apply quiet_view_leaves|done| |done]. intros ps b1 Hb1 Hp. rewrite <- (shape_count _ _ (bo_shape _ _ Hs)). eapply (wp_add_back s ls index Hs Hz ps values); [lia|done|done|done|lia|done|done|done]. }
  destruct ls as [|l0 ls]; [done|]. apply wp_bind. eapply (wp_leaf_size s [] l0 ls); [by apply Hs|done|]. destruct ((index =? 0) && _) eqn:E3.
  { apply wp_bind. eapply wp_quiet; [by apply quiet_view_leaves|done| |done]. intros ps b1 Hb1 Hp. eapply (wp_add_front s (l0 :: ls) index Hs Hz ps values); [lia|done|done|done|lia|done|done|done]. }
  destruct (Z.eqb_spec index (size_ s)) as [E4|E4].
  { eapply wp_insert_back; [done|done|done|done|done|done|done|]. intros b' s' Hb' Hs'. apply HQ; [done|]. unfold insert_at_place. rewrite E4, Hz, Nat2Z.id, take_ge, drop_ge, app_nil_r by done. done. }
  destruct (Z.eqb_spec index 0) as [E5|E5]; [|by eapply wp_insert_combined].
  eapply wp_insert_front; [done|done|done|done|done|done|done|]. intros b' s' Hb' Hs'. apply HQ; [done|]. unfold insert_at_place. by rewrite E5.
Qed.

(** ** Replacement *)

Lemma wp_seg_set s vs index value b (Q : unit -> world SegmentedList -> Prop) E :
  seg_repr s vs -> 0 <= index < Z.of_nat (length vs) -> storable value -> calm b ->
  (forall b' s', calm b' -> seg_repr s' (<[Z.to_nat index := value]> vs) -> Q tt (World b' s')) ->
  (lim -> forall e b' s', is_bad_alloc e = true -> seg_repr s' vs -> E e (World b' s')) ->
  wp (seg_set encoding compression leaf_entries junk pool_request index value) Q E (World b s).
Proof.
  intros (ls & Hs & <- & Hz) Hi Hv Hb HQ HE. assert (Hsame : forall e b', lim -> is_bad_alloc e = true -> E e (World b' s)) by (intros e b' Hlim He; apply HE; [done|done|by exists ls]).
  unfold seg_set. apply wp_bind, wp_obj_get. cbn [obj id]. destruct (locate_place s ls index Hs Hz ltac:(lia)) as (a & l & z & off & -> & El & Ho & Ei). apply wp_bind. eapply wp_need; [done|]. cbn beta iota.
  rewrite Ei, Nat2Z.id, insert_in_join in HQ by done. destruct (shape_leaf _ _ _ _ (bo_shape _ _ Hs)) as (pa & p & pz & Ee & Hpa & Hp & Hput). destruct (shape_storable _ _ _ _ (bo_shape _ _ Hs)) as (_ & Hsl & _).
  pose proof (sh_small _ _ (bo_shape _ _ Hs)) as Hsm. rewrite join_mid in Hsm, Hz. assert (Hst : Forall storable (<[off := value]> l)) by (by apply Forall_insert).
  unfold leaf_set. apply wp_bind, wp_bind. eapply wp_leaf_at; [done|done|]. destruct (set_in_place_returns encoding compression p l off value (lo_holds _ _ Hp) Ho Hv) as [ip Hip]. apply wp_bind. eapply wp_lift; [done|].
  destruct (leaf_set_ok p l off value Hp Ho Hv) as (ok & p' & Es & Hok). apply wp_bind. eapply wp_lift; [exact Es|]. cbn beta iota. apply wp_bind.
  eapply (wp_quiet _ (fun _ => True)); [apply quiet_when; [apply quiet_pool|done]|done| |by eauto]. intros _ b1 Hb1 _. apply wp_bind. eapply wp_put_leaf; [done|done|]. apply wp_ret. destruct ok.
  - apply wp_ret. apply HQ; [done|]. rewrite <- join_mid. eapply parts_repr; [split; [apply Hput; [done|done|by rewrite !length_app, length_insert in *]|]|exact Hz|].
    + right. cbn [fenwick_]. pose proof (body_tree _ _ _ _ Hs) as Ht. unfold counts in *. rewrite fmap_app, fmap_cons in *. by rewrite length_insert.
    + by rewrite join_mid, !length_app, length_insert.
  - subst p'. rewrite <- Ee, seg_eta. apply wp_bind. eapply wp_leaf_values; [by apply Hs|done|]. apply wp_bind, wp_require; [by apply Nat.ltb_lt|].
    unfold replace_leaf. apply (wp_replace_range s a [l] z); [done|done|by rewrite !length_app, length_insert in *|done| |].
    + intros b2 s2 Hb2 (ls2 & Hs2 & Ej & Hz2). apply HQ; [done|]. rewrite <- Ej. eapply parts_repr; [done|done|]. by rewrite Hz, Ej, !length_app, length_insert.
    + intros Hlim e b2 s2 He Hs2 Hz2. apply HE; [done|done|]. eapply parts_repr; [done|done|]. by rewrite Hz, join_mid.
Qed.

(** ** Joining leaves *)

Lemma quiet_merged_leaf p q l l' : leaf_ok p l -> leaf_ok q l' -> (length l + length l' <= leaf_entries)%nat -> quiet (merged_leaf leaf_entries junk pool_request p q) (fun r => from_option (fun m => leaf_ok m (l ++ l')) True r).
Proof.
  intros [(es & Hr & Hlen & HF)%holds_repr Hne Hm] [(fs & Hr' & Hlen' & HF')%holds_repr Hne' Hm'] Hl. unfold merged_leaf.
  assert (Hmb : kListListpackMaxBlobBytes <= 2 ^ 32) by (unfold kListListpackMaxBlobBytes; lia). assert (H0 : repr None []) by (by split; [split_and!|]).
  pose proof (concat_refines junk p (Z.of_nat leaf_entries) kListListpackMaxBlobBytes None [] es H0 Hr Hmb) as H1. unfold spec_concat in H1. cbn [app] in H1.
  destruct (_ || _) in H1; destruct H1 as (m & E1 & Hm1); (eapply quiet_bind; [by eapply (quiet_lift _ _ (eq _))|]); intros r <-; cbn beta iota; (eapply quiet_bind; [apply (quiet_when _ _ (fun _ => True)); [apply quiet_pool|done]|intros _ _]); cbn [negb]; [by apply quiet_ret|].
  pose proof (concat_refines junk q (Z.of_nat leaf_entries) kListListpackMaxBlobBytes m es fs Hm1 Hr' Hmb) as H2. unfold spec_concat in H2.
  destruct (_ || _) in H2; destruct H2 as (m2 & E2 & Hm2); (eapply quiet_bind; [by eapply (quiet_lift _ _ (eq _))|]); intros r <-; cbn beta iota; (eapply quiet_bind; [apply (quiet_when _ _ (fun _ => True)); [apply quiet_pool|done]|intros _ _]); apply quiet_ret; [done|].
  cbn. split; [|by destruct l|by rewrite length_app]. exists (es ++ fs). split; [done|by apply Forall2_app].
Qed.

(** Two neighbours become leaves of what both hold. *)
Lemma wp_replace_pair s a l l' z vs bias b (Q : unit -> world SegmentedList -> Prop) E :
  body_ok s (a ++ l :: l' :: z) -> vs = mjoin (a ++ l :: l' :: z) -> size_ s = Z.of_nat (length vs) -> calm b ->
  (forall b' s', calm b' -> seg_repr s' vs -> Q tt (World b' s')) -> (lim -> forall e b' s', is_bad_alloc e = true -> seg_repr s' vs -> E e (World b' s')) ->
  wp (replace_leaf_range encoding compression leaf_entries junk pool_request (length a) 2 (l ++ l') bias) Q E (World b s).
Proof.
  intros Hs -> Hz Hb HQ HE. pose proof (sh_small _ _ (bo_shape _ _ Hs)) as Hsm. pose proof (sh_values _ _ (bo_shape _ _ Hs)) as Hv.
  assert (Hj : mjoin (a ++ l :: l' :: z) = mjoin a ++ (l ++ l') ++ mjoin z) by (rewrite join_mid, <- (app_assoc l l'); done).
  rewrite Hj in *. rewrite !Forall_app in Hv. apply (wp_replace_range s a [l; l'] z); [done|rewrite Forall_app; tauto|done|done| |].
  - intros b2 s2 Hb2 (ls2 & Hs2 & Ej & Hz2). apply HQ; [done|]. rewrite <- Ej. eapply parts_repr; [done|done|]. by rewrite Hz, Ej.
  - intros Hlim e b2 s2 He Hs2 Hz2. apply HE; [done|done|]. rewrite <- Hj. eapply parts_repr; [done|done|]. by rewrite Hj.
Qed.

Lemma wp_maybe_merge s vs i b (Q : unit -> world SegmentedList -> Prop) E :
  seg_repr s vs -> calm b -> (forall b' s', calm b' -> seg_repr s' vs -> Q tt (World b' s')) -> (lim -> forall e b' s', is_bad_alloc e = true -> seg_repr s' vs -> E e (World b' s')) ->
  wp (maybe_merge encoding compression leaf_entries junk pool_request i) Q E (World b s).
Proof.
  intros Hr Hb HQ HE. pose proof Hr as (ls & Hs & Ej & Hz). unfold maybe_merge. apply wp_bind, wp_obj_get. cbn [obj id]. pose proof (shape_count _ _ (bo_shape _ _ Hs)) as Hc. rewrite Hc.
  destruct (Nat.ltb_spec (length ls) 2) as [H2|H2]; [apply wp_ret; by apply HQ|]. set (left := if (i =? 0)%nat then i else (i - 1)%nat). destruct (Nat.leb_spec (length ls) (left + 1)) as [H3|H3]; [apply wp_ret; by apply HQ|].
  destruct (two_parts ls left ltac:(lia)) as (a & l & l' & z & -> & Ha). clearbody left. assert (Hs2 : body_ok s ((a ++ [l]) ++ l' :: z)) by (by rewrite <- app_assoc).
  apply wp_bind. eapply wp_leaf_size; [by apply Hs|done|]. apply wp_bind. eapply wp_leaf_size; [by apply Hs2|rewrite length_app; cbn; lia|].
  destruct (Z.ltb_spec (Z.of_nat leaf_entries) (Z.of_nat (length l) + Z.of_nat (length l'))) as [H4|H4]; [apply wp_ret; by apply HQ|].
  destruct (shape_leaf _ _ _ _ (bo_shape _ _ Hs)) as (pa & p & pz & Ee & Hpa & Hp & _). destruct (shape_leaf _ _ _ _ (bo_shape _ _ Hs2)) as (pa2 & p2 & pz2 & Ee2 & Hpa2 & Hp2 & _).
  apply wp_bind. eapply wp_leaf_at; [exact Ee|lia|]. apply wp_bind. eapply wp_leaf_at; [exact Ee2|rewrite Hpa2, length_app; cbn; lia|]. apply wp_bind. eapply wp_quiet; [apply (quiet_merged_leaf p p2 l l'); [done|done|lia]|done| |by eauto].
  intros r b1 Hb1 Hmr. rewrite <- Ha. destruct r as [m|].
  - assert (Hj : mjoin (a ++ [l ++ l'] ++ z) = mjoin (a ++ l :: l' :: z)) by (cbn [app]; rewrite !join_mid, <- app_assoc; done). pose proof (sh_values _ _ (bo_shape _ _ Hs)) as Hv. rewrite <- Hj, !join_app, !Forall_app in Hv.
    apply wp_bind. eapply (wp_splice s a [l; l'] z [m] [l ++ l']); [by apply Hs|by constructor|tauto|rewrite Hj; by apply Hs| |].
    + pose proof (co_leaves _ (sh_caps _ _ (bo_shape _ _ Hs))) as C1. unfold leaf_count in Hc. rewrite Hc in C1. rewrite !length_app in *. cbn [length] in *. lia.
    + intros s' Hs' Ef Ez. eapply wp_rebuild_index; [done| |].
      * rewrite Ef. pose proof (body_room s _ Hs ltac:(by destruct a)) as Hrm. rewrite !length_app in *. cbn [length] in *. lia.
      * intros s3 Hs3 Hz3 _. apply HQ; [done|]. rewrite <- Ej, <- Hj. eapply parts_repr; [done|done|]. rewrite Hj, Ej. lia.
  - apply wp_bind. eapply wp_leaf_values; [by apply Hs|done|]. apply wp_bind. eapply wp_leaf_values; [by apply Hs2|rewrite length_app; cbn; lia|]. by eapply wp_replace_pair.
Qed.

(** ** Removal *)

(** A leaf that ran empty is dropped. *)
Lemma wp_drop_leaf s a l z pa p pz p' n b (Q : unit -> world SegmentedList -> Prop) E :
  body_ok s (a ++ l :: z) -> elems (leaves_ s) = pa ++ p :: pz -> length pa = length a -> (forall s', body_ok s' (a ++ z) -> size_ s' = n -> Q tt (World b s')) ->
  wp (splice (length a) 1 [];; rebuild_index) Q E (World b (mkSeg (with_elems (pa ++ p' :: pz) (leaves_ s)) (fenwick_ s) n)).
Proof.
  intros Hs Ee Hpa HQ. pose proof (shape_count _ _ (bo_shape _ _ Hs)) as Hc. pose proof (body_room s _ Hs ltac:(by destruct a)) as Hrm. pose proof (sh_small _ _ (bo_shape _ _ Hs)) as Hsm.
  destruct (sh_caps _ _ (bo_shape _ _ Hs)) as [C1 C2 C3]. unfold leaf_count, vsize in *. rewrite Ee in Hc, C1. rewrite join_mid in Hsm. rewrite !length_app in *. cbn [length] in *.
  assert (Hcut : forall q : ListListpack, take (length a) (pa ++ q :: pz) ++ [] ++ drop (length a + 1) (pa ++ q :: pz) = pa ++ pz) by (intros q; rewrite <- Hpa, take_app_length, drop_app_add; done).
  assert (Hsh : shape_ok (mkSeg (with_elems (pa ++ pz) (leaves_ s)) (fenwick_ s) n) (a ++ z)).
  { rewrite <- (Hcut p), <- Ee. apply (shape_splice s a [l] z [] []); [by apply Hs|done|done| | |].
    - cbn [app]. rewrite join_app, length_app. lia.
    - cbn [app]. rewrite length_app. lia.
    - split; [|done|done]. unfold vsize. cbn. lia. }
  apply wp_bind. unfold splice. apply wp_bind, wp_obj_get. cbn [obj id]. apply wp_bind, wp_require; [unfold leaf_count, vsize; cbn [leaves_ with_elems elems]; rewrite length_app; cbn [length]; apply Nat.leb_le; lia|].
  apply wp_obj_mod. cbn [obj mem leaves_ fenwick_ size_ with_elems elems capacity]. rewrite Hcut. eapply wp_rebuild_index; [exact Hsh|cbn [fenwick_]; rewrite length_app; lia|]. intros s' Hs' Hz' _. by apply HQ.
Qed.

Lemma wp_seg_erase s vs index value b (Q : bytes -> world SegmentedList -> Prop) E :
  seg_repr s vs -> 0 <= index -> vs !! Z.to_nat index = Some value -> calm b ->
  (forall b' s', calm b' -> seg_repr s' (delete (Z.to_nat index) vs) -> Q value (World b' s')) ->
  (lim -> forall e b' s', is_bad_alloc e = true -> seg_repr s' vs \/ seg_repr s' (delete (Z.to_nat index) vs) -> E e (World b' s')) ->
  wp (seg_erase encoding compression leaf_entries junk pool_request index) Q E (World b s).
Proof.
  intros Hr Hi Hv Hb HQ HE. pose proof Hr as (ls & Hs & <- & Hz). pose proof (lookup_lt_Some _ _ _ Hv) as Hlt.
  unfold seg_erase. apply wp_bind, wp_obj_get. cbn [obj id]. destruct (locate_place s ls index Hs Hz ltac:(lia)) as (a & l & z & off & -> & El & Ho & Ei). apply wp_bind. eapply wp_need; [done|]. cbn beta iota.
  rewrite Ei, Nat2Z.id in *. rewrite delete_in_join in HQ, HE by done. rewrite join_mid, lookup_app_r, Nat.add_comm, Nat.add_sub, lookup_app_l in Hv by lia.
  destruct (shape_leaf _ _ _ _ (bo_shape _ _ Hs)) as (pa & p & pz & Ee & Hpa & Hp & Hput). destruct (shape_storable _ _ _ _ (bo_shape _ _ Hs)) as (_ & Hsl & _). pose proof (sh_small _ _ (bo_shape _ _ Hs)) as Hsm.
  pose proof (length_delete_lt l off Ho) as Hdl. rewrite join_mid in Hz, Hsm. destruct (listpack_erase_correct junk encoding p l (lo_holds _ _ Hp)) as [Her _]. destruct (Her off value Hv) as (p' & Ep & Hp').
  unfold leaf_erase. apply wp_bind, wp_bind. eapply wp_leaf_at; [done|done|]. apply wp_bind. eapply wp_lift; [exact Ep|]. cbn beta iota. apply wp_bind. eapply wp_quiet; [apply quiet_pool|done| |by eauto].
  intros _ b1 Hb1 _. apply wp_bind. eapply wp_put_leaf; [done|done|]. apply wp_ret. apply wp_bind, wp_obj_mod. cbn [obj mem leaves_ fenwick_ size_]. set (s1 := mkSeg _ _ (size_ s - 1)).
  assert (Hsz : ListListpack.size p' = Ret (Z.of_nat (length (delete off l)))) by (by apply listpack_reads_correct in Hp' as (-> & _)).
  apply wp_bind. unfold leaf_size. apply wp_bind. eapply (wp_leaf_at s1 pa p' pz); [done|done|]. eapply wp_lift; [exact Hsz|].
  destruct (Z.eqb_spec (Z.of_nat (length (delete off l))) 0) as [E0|E0].
  - apply wp_bind. eapply (wp_drop_leaf s a l z pa p pz p'); [done|done|done|]. intros s3 Hs3 Hz3. apply wp_ret. apply HQ; [done|]. destruct (delete off l); [|done].
    rewrite app_nil_l, <- join_app. eapply parts_repr; [done|exact Hz3|]. rewrite Hz, join_app, !length_app. cbn in Hdl. lia.
  - apply wp_bind, wp_bind. eapply (wp_add_count s1 a l (delete off l) z).
    + apply Hput; [split; [done|intros E1; by rewrite E1 in E0|destruct Hp; lia]|by apply Forall_delete|rewrite !length_app in *; lia].
    + exact (body_tree _ _ _ _ Hs).
    + done.
    + lia.
    + intros s2 Hs2 Hz2. assert (Hr2 : seg_repr s2 (mjoin a ++ delete off l ++ mjoin z)). { rewrite <- join_mid. eapply parts_repr; [done|exact Hz2|]. cbn [size_ s1]. rewrite Hz, join_mid, !length_app. lia. }
      eapply wp_maybe_merge; [exact Hr2|done| |].
      * intros b3 s3 Hb3 Hs3. apply wp_ret. by apply HQ.
      * intros Hlim e b3 s3 He Hs3. apply HE; [done|done|by right].
Qed.

(** ** Removal at an end *)

Lemma whole_leaves_spec ls n :
  0 <= n <= Z.of_nat (length (mjoin ls)) ->
  exists a z r, ls = a ++ z /\ whole_leaves (counts ls) n = (length a, r) /\ n = Z.of_nat (length (mjoin a)) + r /\ 0 <= r /\ match z with [] => r = 0 | l :: _ => r < Z.of_nat (length l) end.
Proof.
  revert n. induction ls as [|l ls IH]; intros n Hn; [exists [], [], n; cbn in *; split_and!; (done || lia)|].
  change (mjoin (l :: ls)) with (l ++ mjoin ls) in Hn. rewrite length_app in Hn. change (counts (l :: ls)) with (Z.of_nat (length l) :: counts ls). cbn [whole_leaves].
  destruct (Z.leb_spec (Z.of_nat (length l)) n) as [H|H].
  - destruct (IH (n - Z.of_nat (length l)) ltac:(lia)) as (a & z & r & -> & E & Hr & H0 & Hz). rewrite E. exists (l :: a), z, r. change (mjoin (l :: a)) with (l ++ mjoin a). rewrite length_app. split_and!; (done || lia).
  - exists [], (l :: ls), n. cbn. split_and!; (done || lia).
Qed.

Lemma wp_leaf_erase_range s a l z i first n b (Q : unit -> world SegmentedList -> Prop) E :
  shape_ok s (a ++ l :: z) -> length a = i -> take first l ++ drop (first + n) l <> [] -> calm b ->
  (forall b' s', calm b' -> shape_ok s' (a ++ (take first l ++ drop (first + n) l) :: z) -> fenwick_ s' = fenwick_ s -> size_ s' = size_ s -> capacity (leaves_ s') = capacity (leaves_ s) -> Q tt (World b' s')) ->
  (lim -> forall e b', is_bad_alloc e = true -> E e (World b' s)) ->
  wp (leaf_erase_range junk pool_request i first n) Q E (World b s).
Proof.
  intros Hs <- Hne Hb HQ HE. destruct (shape_leaf _ _ _ _ Hs) as (pa & p & pz & Ee & Hpa & Hp & Hput). destruct (shape_storable _ _ _ _ Hs) as (_ & Hsl & _). pose proof (sh_small _ _ Hs) as Hsm. rewrite join_mid in Hsm.
  destruct (listpack_erase_correct junk encoding p l (lo_holds _ _ Hp)) as [_ Her]. destruct (Her first n) as (p' & Ep & Hp'). assert (Hlen : (length (take first l ++ drop (first + n) l) <= length l)%nat) by (rewrite length_app, length_take, length_drop; lia).
  unfold leaf_erase_range. apply wp_bind. eapply wp_leaf_at; [done|done|]. apply wp_bind. eapply wp_lift; [by apply leaf_ok_size|]. apply wp_bind. eapply wp_lift; [exact Ep|]. apply wp_bind.
  eapply (wp_quiet _ (fun _ => True)); [apply quiet_when; [apply quiet_pool|done]|done| |by eauto]. intros _ b1 Hb1 _. eapply wp_put_leaf; [done|done|]. apply HQ; [done| |done|done|done].
  apply Hput; [|by apply Forall_app; split; [apply Forall_take|apply Forall_drop]|rewrite !length_app in *; lia]. split; [done|done|]. pose proof (lo_most _ _ Hp). lia.
Qed.

(** The leaves after the removal, before the size and the tree follow. *)
Definition cut (s s' : SegmentedList) (removed_whole_leaf : bool) (partial_leaf : nat) (n : Z) (vs' : list bytes) : Prop :=
  exists ls', shape_ok s' ls' /\ mjoin ls' = vs' /\ size_ s' = size_ s /\ Z.of_nat (length ls') + 1 <= capacity (fenwick_ s') /\
    (removed_whole_leaf = false -> exists a l l' z, ls' = a ++ l' :: z /\ partial_leaf = length a /\ tree_ok (elems (fenwick_ s')) (counts (a ++ l :: z)) /\ Z.of_nat (length l') = Z.of_nat (length l) - n).

Lemma wp_after_cut s s' flag partial n vs' b (Q : unit -> world SegmentedList -> Prop) E :
  cut s s' flag partial n vs' -> size_ s - n = Z.of_nat (length vs') -> (forall s'', seg_repr s'' vs' -> Q tt (World b s'')) ->
  wp (set_size (size_ s - n);; (if flag then rebuild_index else add_count partial (- n))) Q E (World b s').
Proof.
  intros (ls' & Hs' & <- & Hz & Hr & Hp) Hn HQ. apply wp_bind, wp_obj_mod. cbn [obj mem]. destruct flag.
  - eapply wp_rebuild_index; [by apply shape_size|done|]. intros s2 Hs2 Hz2 _. apply HQ. by eapply parts_repr.
  - destruct (Hp eq_refl) as (a & l & l' & z & -> & -> & Ht & Hl). eapply (wp_add_count _ a l l' z); [by apply shape_size|done|done|lia|]. intros s2 Hs2 Hz2. apply HQ. by eapply parts_repr.
Qed.

Lemma shape_tail_splice s a z b (Q : unit -> world SegmentedList -> Prop) E :
  shape_ok s (a ++ z) -> (forall s', shape_ok s' z -> fenwick_ s' = fenwick_ s -> size_ s' = size_ s -> Q tt (World b s')) -> wp (splice 0 (length a) []) Q E (World b s).
Proof.
  intros Hs HQ. pose proof (sh_small _ _ Hs) as Hsm. pose proof (shape_count _ _ Hs) as Hc. pose proof (co_leaves _ (sh_caps _ _ Hs)) as C1. unfold leaf_count in Hc. rewrite Hc, length_app in C1. rewrite join_app, length_app in Hsm.
  apply (wp_splice s [] a z [] []); [done|done|done|cbn; lia|cbn; lia|done].
Qed.

Lemma shape_head_splice s a z i b (Q : unit -> world SegmentedList -> Prop) E :
  shape_ok s (a ++ z) -> i = length a -> (forall s', shape_ok s' a -> fenwick_ s' = fenwick_ s -> size_ s' = size_ s -> Q tt (World b s')) -> wp (splice i (length z) []) Q E (World b s).
Proof.
  intros Hs -> HQ. pose proof (sh_small _ _ Hs) as Hsm. pose proof (shape_count _ _ Hs) as Hc. pose proof (co_leaves _ (sh_caps _ _ Hs)) as C1. unfold leaf_count in Hc. rewrite Hc, length_app in C1. rewrite join_app, length_app in Hsm.
  apply (wp_splice s a z [] [] []); rewrite ?app_nil_l, ?app_nil_r; [done|done|done|lia|lia|done].
Qed.

Lemma wp_erase_front s ls n b (Q : bool * nat -> world SegmentedList -> Prop) E :
  body_ok s ls -> ls <> [] -> 0 < n <= Z.of_nat (length (mjoin ls)) -> calm b ->
  (forall flag partial b' s', calm b' -> cut s s' flag partial n (drop (Z.to_nat n) (mjoin ls)) -> Q (flag, partial) (World b' s')) ->
  (lim -> forall e b', is_bad_alloc e = true -> E e (World b' s)) -> wp (erase_front junk pool_request n) Q E (World b s).
Proof.
  intros Hs Hne Hn Hb HQ HE. unfold erase_front. apply wp_bind, wp_obj_get. cbn [obj id]. apply wp_bind. eapply wp_lift; [apply leaf_sizes_ok, Hs|].
  pose proof (body_room s _ Hs Hne) as Hrm. destruct (whole_leaves_spec ls n ltac:(lia)) as (a & z & r & -> & -> & En & Hr0 & Hrz). rewrite length_app in Hrm.
  assert (Hdrop : drop (Z.to_nat n) (mjoin (a ++ z)) = drop (Z.to_nat r) (mjoin z)) by (rewrite join_app, drop_app_ge by lia; f_equal; lia). rewrite Hdrop in HQ.
  apply wp_bind. apply wp_when; intros Er.
  - destruct z as [|l z]; [lia|]. change (mjoin (l :: z)) with (l ++ mjoin z) in HQ. rewrite drop_app_le in HQ by lia. assert (Hdl : length (drop (Z.to_nat r) l) = (length l - Z.to_nat r)%nat) by (by rewrite length_drop).
    eapply (wp_leaf_erase_range s a l z); [by apply Hs|done| |done| |done]; cbn [take app Nat.add]; [intros E1; rewrite take_0, app_nil_l, E1 in *; cbn in Hdl; lia|].
    intros b1 s1 Hb1 Hs1 Ef Ez Ec. rewrite take_0, app_nil_l in Hs1. apply wp_bind. apply wp_when; intros Ea.
    + eapply shape_tail_splice; [exact Hs1|]. intros s2 Hs2 Ef2 Ez2. apply wp_ret. rewrite Ea. apply HQ; [done|]. exists (drop (Z.to_nat r) l :: z). split_and!; [done|done|congruence|rewrite Ef2, Ef; cbn [length] in *; lia|done].
    + apply wp_ret. destruct a as [|? ?]; [|done]. apply HQ; [done|]. exists (drop (Z.to_nat r) l :: z). split_and!; [done|done|congruence|rewrite Ef; cbn [length] in *; lia|].
      intros _. exists [], l, (drop (Z.to_nat r) l), z. split_and!; [done|done|rewrite Ef; apply (body_tree s [] l z Hs)|cbn in En; lia].
  - assert (r = 0) by lia. subst r. rewrite drop_0 in HQ. apply wp_bind. apply wp_when; intros Ea.
    + eapply shape_tail_splice; [by apply Hs|]. intros s2 Hs2 Ef2 Ez2. apply wp_ret. rewrite Ea. apply HQ; [done|]. exists z. split_and!; [done|done|done|rewrite Ef2; lia|done].
    + destruct a; [cbn in En; lia|done].
Qed.

Lemma whole_leaves_back ls n :
  0 <= n <= Z.of_nat (length (mjoin ls)) ->
  exists z a r, ls = z ++ a /\ whole_leaves (rev (counts ls)) n = (length a, r) /\ n = Z.of_nat (length (mjoin a)) + r /\ 0 <= r /\ (r = 0 \/ exists z' l, z = z' ++ [l] /\ r < Z.of_nat (length l)).
Proof.
  intros Hn. assert (Hrev : forall l : list (list bytes), Z.of_nat (length (mjoin (rev l))) = Z.of_nat (length (mjoin l))).
  { intros l. induction l as [|x l IH]; [done|]. cbn [rev]. rewrite join_app, length_app. change (mjoin (x :: l)) with (x ++ mjoin l). rewrite length_app. cbn [mjoin list_join]. rewrite app_nil_r. lia. }
  destruct (whole_leaves_spec (rev ls) n ltac:(by rewrite Hrev)) as (a & z & r & E & Ew & En & Hr & Hz). exists (rev z), (rev a), r. split_and!.
  - by rewrite <- (rev_involutive ls), E, rev_app_distr.
  - rewrite length_rev, <- Ew. unfold counts. by rewrite <- !List.map_rev.
  - by rewrite Hrev.
  - done.
  - destruct z as [|l z]; [by left|right]. by exists (rev z), l.
Qed.

Lemma wp_erase_back s ls n b (Q : bool * nat -> world SegmentedList -> Prop) E :
  body_ok s ls -> ls <> [] -> 0 < n <= Z.of_nat (length (mjoin ls)) -> calm b ->
  (forall flag partial b' s', calm b' -> cut s s' flag partial n (take (length (mjoin ls) - Z.to_nat n) (mjoin ls)) -> Q (flag, partial) (World b' s')) ->
  (lim -> forall e b', is_bad_alloc e = true -> E e (World b' s)) -> wp (erase_back junk pool_request n) Q E (World b s).
Proof.
  intros Hs Hne Hn Hb HQ HE. unfold erase_back. apply wp_bind, wp_obj_get. cbn [obj id]. apply wp_bind. eapply wp_lift; [apply leaf_sizes_ok, Hs|].
  pose proof (body_room s _ Hs Hne) as Hrm. pose proof (shape_count _ _ (bo_shape _ _ Hs)) as Hc. destruct (whole_leaves_back ls n ltac:(lia)) as (z & a & r & -> & -> & En & Hr0 & Hrz). rewrite Hc. rewrite length_app in Hrm, Hc |- *.
  replace (length z + length a - length a)%nat with (length z) by lia.
  assert (Htake : take (length (mjoin (z ++ a)) - Z.to_nat n) (mjoin (z ++ a)) = take (length (mjoin z) - Z.to_nat r) (mjoin z)) by (rewrite join_app, length_app, take_app_le by lia; f_equal; lia). rewrite Htake in HQ.
  apply wp_bind. apply wp_when; intros Er.
  - destruct Hrz as [|(z' & l & -> & Hrl)]; [lia|]. rewrite length_app. cbn [length]. replace (length z' + 1 - 1)%nat with (length z') by lia. replace (r =? 0) with false by lia. rewrite <- app_assoc in Hs. cbn [app] in Hs.
    set (k := (length l - Z.to_nat r)%nat). assert (Hj : take (length (mjoin (z' ++ [l])) - Z.to_nat r) (mjoin (z' ++ [l])) = mjoin z' ++ take k l).
    { rewrite join_app. cbn [mjoin list_join]. rewrite app_nil_r, length_app, take_app_ge by lia. do 2 f_equal. lia. }
    rewrite Hj in HQ. assert (Hcut : take k l ++ drop (k + Z.to_nat r) l = take k l) by (rewrite drop_ge by lia; apply app_nil_r). assert (Hlen : length (take k l) = k) by (rewrite length_take; lia).
    apply wp_bind. eapply wp_leaf_size; [by apply Hs|done|]. rewrite Nat2Z.id. fold k. eapply (wp_leaf_erase_range s z' l a); [by apply Hs|done| |done| |done]; rewrite Hcut; [intros E1; rewrite E1 in Hlen; cbn in Hlen; lia|].
    intros b1 s1 Hb1 Hs1 Ef Ez Ec. apply wp_bind. apply wp_when; intros Ea.
    + eapply (shape_head_splice s1 (z' ++ [take k l]) a); [by rewrite <- app_assoc|by rewrite length_app|]. intros s2 Hs2 Ef2 Ez2. apply wp_ret. rewrite Ea. apply HQ; [done|]. exists (z' ++ [take k l]). rewrite length_app in *. cbn [length] in *.
      split_and!; [done|by rewrite join_app; cbn; rewrite app_nil_r|congruence|rewrite Ef2, Ef; lia|done].
    + apply wp_ret. destruct a as [|? ?]; [|done]. apply HQ; [done|]. exists (z' ++ [take k l]). rewrite length_app in *. cbn [length] in *. split_and!; [done|by rewrite join_app; cbn; rewrite app_nil_r|congruence|rewrite Ef; lia|].
      intros _. exists z', l, (take k l), []. split_and!; [done|done|rewrite Ef; by apply body_tree|cbn in En; lia].
  - assert (r = 0) by lia. subst r. rewrite Nat.sub_0_r, take_ge in HQ by done. apply wp_bind. apply wp_when; intros Ea.
    + eapply shape_head_splice; [by apply Hs|done|]. intros s2 Hs2 Ef2 Ez2. apply wp_ret. rewrite Ea. apply HQ; [done|]. exists z. split_and!; [done|done|done|rewrite Ef2; lia|done].
    + destruct a; [cbn in En; lia|done].
Qed.

Lemma wp_erase_endpoint s vs first n b (Q : unit -> world SegmentedList -> Prop) E :
  seg_repr s vs -> 0 <= first -> 0 <= n -> first = 0 \/ Z.of_nat (length vs) <= first + n -> calm b ->
  (forall b' s', calm b' -> seg_repr s' (erased first n vs) -> Q tt (World b' s')) ->
  (lim -> forall e b' s', is_bad_alloc e = true -> seg_repr s' vs \/ seg_repr s' (erased first n vs) -> E e (World b' s')) ->
  wp (erase_endpoint encoding compression leaf_entries junk pool_request first n) Q E (World b s).
Proof.
  intros Hr Hf Hn0 Hend Hb HQ HE. pose proof Hr as (ls & Hs & <- & Hz). unfold erase_endpoint. apply wp_bind, wp_obj_get. cbn [obj id].
  destruct (orb _ _) eqn:E0.
  { apply wp_ret. apply HQ; [done|]. unfold erased. destruct (Z.eqb_spec n 0) as [->|]; [by rewrite Nat.add_0_r, take_drop|]. rewrite take_ge, drop_ge, app_nil_r by lia. done. }
  set (m := Z.min n (size_ s - first)). assert (Hm : 0 < m <= Z.of_nat (length (mjoin ls))) by lia. assert (Hne : ls <> []) by (intros ->; cbn in Hm; lia).
  apply wp_bind, wp_require; [lia|].
  assert (Hafter : forall flag partial b' s' vs', calm b' -> cut s s' flag partial m vs' -> vs' = erased first n (mjoin ls) ->
    wp (set_size (size_ s - m);; (if flag : bool then rebuild_index else add_count partial (- m));; s ← obj_get id; when (negb (leaf_count s =? 0)%nat) (maybe_merge encoding compression leaf_entries junk pool_request (if first =? 0 then 0%nat else (leaf_count s - 1)%nat))) Q E (World b' s')).
  { intros flag partial b' s' vs' Hb' Hcut ->. apply wp_seq, wp_bind. eapply wp_after_cut; [done| |].
    - unfold erased. rewrite length_app, length_take, length_drop. lia.
    - intros s2 Hs2. apply wp_bind, wp_obj_get. cbn [obj id]. apply wp_when; intros _; [|by apply HQ]. eapply wp_maybe_merge; [done|done|done|]. intros Hlim e b3 s3 He Hs3. apply HE; [done|done|by right]. }
  assert (Hsame : lim -> forall e b', is_bad_alloc e = true -> E e (World b' s)) by (intros Hlim e b' He; apply HE; [done|done|by left]).
  apply wp_bind. destruct (Z.eqb_spec first 0) as [->|Hf0].
  - eapply wp_erase_front; [done|done|done|done| |done]. intros flag partial b' s' Hb' Hcut. cbn beta iota. eapply Hafter; [done|done|]. unfold erased. cbn [Z.to_nat Nat.add]. rewrite take_0, app_nil_l. unfold m in *.
    destruct (Z.min_spec n (size_ s - 0)) as [[? ->]|[? ->]]; [done|]. by rewrite !drop_ge by lia.
  - eapply wp_erase_back; [done|done|done|done| |done]. intros flag partial b' s' Hb' Hcut. cbn beta iota. eapply Hafter; [done|done|]. unfold erased. rewrite (drop_ge (mjoin ls)), app_nil_r by lia. f_equal. lia.
Qed.

(** ** Taking over a compact list, and packing the leaves tighter *)

Lemma wp_adopt s p values b (Q : unit -> world SegmentedList -> Prop) E :
  caps_ok s -> holds encoding p values -> Forall storable values -> Z.of_nat (length values) < 2 ^ 32 -> calm b ->
  (forall b' s', calm b' -> seg_repr s' values -> Q tt (World b' s')) -> (lim -> forall e b' s', is_bad_alloc e = true -> reserved s s' -> E e (World b' s')) ->
  wp (adopt_listpack encoding compression leaf_entries junk pool_request pushed_capacity p) Q E (World b s).
Proof.
  intros Hc Hh Hv Hl Hb HQ HE. unfold adopt_listpack. apply wp_bind. eapply wp_lift; [by apply listpack_reads_correct in Hh as (-> & _)|]. destruct (Z.eqb_spec (Z.of_nat (length values)) 0) as [E0|E0].
  { destruct values; [|done]. apply wp_obj_mod. cbn [obj mem]. apply HQ; [done|]. destruct Hc as [C1 C2 C3]. eapply (parts_repr _ []); [split; [|by left]|done|done]. split; [constructor|done|done|]. unfold vsize in *. split; unfold vsize; cbn; (lia || done). }
  destruct (Z.leb_spec (Z.of_nat (length values)) (Z.of_nat leaf_entries)) as [H1|H1].
  - apply wp_bind. eapply wp_reserve_leaves; [done|lia|done| |done]. intros b1 s1 Hb1 [R1 R2 R3 [C1 C2 C3]] H2 H3. apply wp_bind, wp_obj_mod. cbn [obj mem]. apply wp_bind, wp_obj_mod. cbn [obj mem leaves_ fenwick_ size_].
    eapply (wp_rebuild_index _ [values]); [|cbn; lia|].
    + split; cbn [mjoin list_join]; rewrite ?app_nil_r; [|done|done|].
      * constructor; [|constructor]. split; [done|by destruct values|lia].
      * unfold vsize in *. split; unfold vsize; cbn [leaves_ fenwick_ with_elems elems capacity length]; (lia || done).
    + intros s2 Hs2 Hz2 _. apply HQ; [done|]. rewrite <- (app_nil_r values). eapply (parts_repr _ [values]); [done|exact Hz2|]. cbn [size_ mjoin list_join]. by rewrite app_nil_r.
  - apply wp_bind. eapply wp_decode; [done|]. by apply wp_assign_values.
Qed.

(** The loop of [compact] keeps the list however long it runs. *)
Lemma wp_compact_loop fuel s vs i b (Q : bool -> world SegmentedList -> Prop) E :
  seg_repr s vs -> calm b -> (forall finished b' s', calm b' -> seg_repr s' vs -> Q finished (World b' s')) ->
  (lim -> forall e b' s', is_bad_alloc e = true -> seg_repr s' vs -> E e (World b' s')) ->
  wp (compact_loop encoding compression leaf_entries junk pool_request fuel i) Q E (World b s).
Proof.
  revert s i b. induction fuel as [|fuel IH]; intros s i b Hr Hb HQ HE; cbn [compact_loop]; apply wp_bind, wp_obj_get; cbn [obj id]; pose proof Hr as (ls & Hs & Ej & Hz); rewrite (shape_count _ _ (bo_shape _ _ Hs));
    destruct (Nat.ltb_spec (i + 1) (length ls)) as [Hi|Hi]; try (apply wp_ret; by apply HQ).
  destruct (two_parts ls i ltac:(lia)) as (a & l & l' & z & -> & Ha). assert (Hs2 : body_ok s ((a ++ [l]) ++ l' :: z)) by (by rewrite <- app_assoc).
  apply wp_bind. eapply wp_leaf_size; [by apply Hs|done|]. apply wp_bind. eapply wp_leaf_size; [by apply Hs2|rewrite length_app; cbn; lia|].
  destruct (_ <=? _); [|by apply IH]. apply wp_bind. eapply wp_leaf_values; [by apply Hs|done|]. apply wp_bind. eapply wp_leaf_values; [by apply Hs2|rewrite length_app; cbn; lia|].
  apply wp_bind. rewrite <- Ha. eapply wp_replace_pair; [exact Hs|done|done|done| |done]. intros b' s' Hb' Hs'. by apply IH.
Qed.

Lemma wp_seg_compact fuel s vs b (Q : bool -> world SegmentedList -> Prop) E :
  seg_repr s vs -> calm b -> (forall finished b' s', calm b' -> seg_repr s' vs -> Q finished (World b' s')) ->
  (lim -> forall e b' s', is_bad_alloc e = true -> seg_repr s' vs -> E e (World b' s')) ->
  wp (seg_compact encoding compression leaf_entries junk pool_request fuel) Q E (World b s).
Proof.
  intros Hr Hb HQ HE. unfold seg_compact. apply wp_bind. eapply wp_compact_loop; [done|done| |done]. intros [|] b1 s1 Hb1 Hr1; [|apply wp_ret; by apply HQ].
  destruct Hr1 as (ls & Hs & <- & Hz). apply wp_bind, wp_obj_mod. cbn [obj mem]. rewrite (shape_count _ _ (bo_shape _ _ Hs)). set (s2 := mkSeg _ _ _).
  assert (Hs2 : body_ok s2 ls). { destruct Hs as [[H1 H2 H3 [C1 C2 C3]] Ht]. split; [|done]. split; [done|done|done|]. pose proof (shape_small _ _ (mkShapeOk _ _ H1 H2 H3 (mkCapsOk _ C1 C2 C3))). unfold vsize in *. pose proof (Forall2_length _ _ _ H1). split; unfold vsize; cbn [s2 leaves_ fenwick_ elems capacity]; [lia|done|right; left; lia]. }
  assert (Hend : forall b' s3, calm b' -> body_ok s3 ls -> size_ s3 = size_ s1 -> capacity (leaves_ s3) <= 2 ^ 33 -> wp (shrink_fenwick;; mret true) Q E (World b' s3)).
  { intros b' s3 Hb' Hs3 Hz3 Hc3. apply wp_bind, wp_obj_mod. cbn [obj mem]. apply wp_ret. apply HQ; [done|]. eapply (parts_repr _ ls); [|exact Hz3|done]. destruct Hs3 as [[H1 H2 H3 [C1 C2 C3]] Ht]. split; [|done]. split; [done|done|done|].
    split; unfold vsize in *; cbn [leaves_ fenwick_ elems capacity]; [done|lia|right; left; lia]. }
  pose proof (shape_small _ _ (bo_shape _ _ Hs2)) as Hsm. apply wp_bind. destruct (decide (Z.of_nat (length ls) + 1 <= capacity (fenwick_ s2))) as [Hc|Hc].
  - eapply wp_rebuild_index; [by apply Hs2|done|]. intros s3 Hs3 Hz3 Hc3. apply Hend; [done|done|done|]. rewrite Hc3. cbn [s2 leaves_ capacity]. lia.
  - assert (ls = []). { destruct ls; [done|]. by pose proof (body_room _ _ Hs2 ltac:(done)). } subst ls.
    unfold rebuild_index. apply wp_bind, wp_obj_get. cbn [obj id]. rewrite (shape_count _ _ (bo_shape _ _ Hs2)). apply wp_bind. unfold on_fenwick. apply wp_zoom. cbn [obj mem]. apply wp_reserve_calm; [unfold sizeof_node; lia|right; cbn; lia|done| |].
    + intros b2 Hb2. cbn [obj mem]. apply wp_bind. eapply wp_lift; [apply leaf_sizes_ok, Hs2|]. apply wp_bind. eapply wp_need; [done|]. apply wp_obj_mod. cbn [obj mem]. apply Hend; [done| |done|cbn; lia].
      destruct Hs2 as [[H1 H2 H3 [C1 C2 C3]] Ht]. split; [|by left]. split; [done|done|done|]. split; [exact C1|unfold vsize; cbn; lia|right; left; cbn; lia].
    + intros Hlim e b2 He. apply HE; [done|done|]. cbn [obj mem]. eapply (parts_repr _ []); [|exact Hz|done]. destruct Hs2 as [[H1 H2 H3 [C1 C2 C3]] Ht]. split; [|by left]. split; [done|done|done|]. split; [exact C1|exact C2|by left].
Qed.

(** ** Reading *)

Lemma seg_at_ok s vs index value : seg_repr s vs -> 0 <= index -> vs !! Z.to_nat index = Some value -> exists v, seg_at encoding index s = Ret v /\ reads_as v value.
Proof.
  intros (ls & Hs & <- & Hz) Hi Hv. pose proof (lookup_lt_Some _ _ _ Hv) as Hlt. destruct (locate_place s ls index Hs Hz ltac:(lia)) as (a & l & z & off & -> & El & Ho & Ei).
  rewrite Ei, Nat2Z.id, join_mid, lookup_app_r, Nat.add_comm, Nat.add_sub, lookup_app_l in Hv by lia. destruct (shape_leaf _ _ _ _ (bo_shape _ _ Hs)) as (pa & p & pz & Ee & Hpa & Hp & _).
  unfold seg_at. rewrite El. cbn [of_option mbind result_bind]. rewrite Ee, list_lookup_middle by done. cbn [of_option mbind result_bind]. destruct (listpack_reads_correct encoding p l (lo_holds _ _ Hp)) as (_ & Hat & _). by apply Hat.
Qed.

Lemma seg_for_each_ok s vs : seg_repr s vs -> exists views, seg_for_each encoding s = Ret views /\ Forall2 reads_as views vs.
Proof.
  intros (ls & [[HF _ _ _] _] & <- & _). unfold seg_for_each. enough (H : exists views, mapM (for_each encoding) (elems (leaves_ s)) = Ret views /\ Forall2 reads_as (List.concat views) (mjoin ls)).
  { destruct H as (views & -> & H). by exists (List.concat views). }
  induction HF as [|p l ps ls Hp _ (views & IH & HI)]; [by exists []|]. change (mapM (for_each encoding) (p :: ps)) with (x ← for_each encoding p; xs ← mapM (for_each encoding) ps; Ret (x :: xs)).
  destruct (listpack_reads_correct encoding p l (lo_holds _ _ Hp)) as (_ & _ & (vs & -> & Hvs) & _). rewrite IH. exists (vs :: views). split; [done|]. by apply Forall2_app.
Qed.

Lemma range_loop_ok ps ls offset remaining :
  Forall2 leaf_ok ps ls -> 0 <= remaining -> (forall l, head ls = Some l -> (offset <= length l)%nat) ->
  exists views, range_loop encoding ps offset remaining = Ret views /\ Forall2 reads_as views (take (Z.to_nat remaining) (drop offset (mjoin ls))).
Proof.
  intros HF. revert offset remaining. induction HF as [|p l ps ls Hp _ IH]; intros offset remaining Hr Ho; cbn [range_loop]; [exists []; cbn [mjoin list_join]; by rewrite drop_nil, take_nil|].
  destruct (Z.eqb_spec remaining 0) as [->|Hne]; [by exists []|]. rewrite (leaf_ok_size _ _ Hp). cbn [mbind result_bind]. specialize (Ho l eq_refl). set (m := Z.min _ remaining).
  destruct (listpack_reads_correct encoding p l (lo_holds _ _ Hp)) as (_ & _ & _ & Hrange & _). pose proof (holds_small _ _ _ (lo_holds _ _ Hp)) as Hsmall. destruct (Hrange offset (Z.to_nat m) ltac:(lia)) as (v1 & -> & H1). cbn [mbind result_bind].
  destruct (IH 0%nat (remaining - m) ltac:(lia) ltac:(intros; lia)) as (v2 & -> & H2). cbn [mbind result_bind]. exists (v1 ++ v2). split; [done|]. change (mjoin (l :: ls)) with (l ++ mjoin ls). rewrite drop_app_le, take_app by done. rewrite drop_0 in H2. rewrite length_drop.
  apply Forall2_app; [|by replace (Z.to_nat remaining - (length l - offset))%nat with (Z.to_nat (remaining - m)) by lia].
  destruct (Z.min_spec (Z.of_nat (length l) - Z.of_nat offset) remaining) as [[? Em]|[? Em]]; fold m in Em; rewrite Em in H1; [|done]. rewrite !take_ge in * by (rewrite length_drop; lia). done.
Qed.

Lemma seg_for_range_ok s vs first n : seg_repr s vs -> 0 <= first -> 0 <= n -> exists views, seg_for_range encoding first n s = Ret views /\ Forall2 reads_as views (take (Z.to_nat n) (drop (Z.to_nat first) vs)).
Proof.
  intros (ls & Hs & <- & Hz) Hf Hn. unfold seg_for_range. destruct (orb _ _) eqn:E0.
  { exists []. split; [done|]. destruct (Z.eqb_spec n 0) as [->|]; [done|]. rewrite drop_ge by lia. by rewrite take_nil. }
  destruct (locate_place s ls first Hs Hz ltac:(lia)) as (a & l & z & off & -> & El & Ho & Ei). rewrite El. cbn [of_option mbind result_bind].
  pose proof (sh_leaves _ _ (bo_shape _ _ Hs)) as HF. apply (Forall2_drop _ _ _ (length a)) in HF. rewrite drop_app_length in HF.
  destruct (range_loop_ok _ _ off (Z.min n (size_ s - first)) HF ltac:(lia)) as (views & Ev & Hv); [intros l' [= <-]; lia|]. exists views. split; [done|]. rewrite Ei, Nat2Z.id, join_app, drop_app_add.
  destruct (Z.min_spec n (size_ s - first)) as [[? Em]|[? Em]]; rewrite Em in Hv; [done|]. rewrite join_app, length_app in Hz. rewrite take_ge in * by (rewrite length_drop; lia). done.
Qed.

Lemma find_first_loop_ok ps ls value begin rank :
  Forall2 leaf_ok ps ls -> (forall l, head ls = Some l -> (begin <= length l)%nat) ->
  find_first_loop encoding ps value begin rank = Ret ((fun x => rank + Z.of_nat x.1) <$> list_find (fun s => s = value) (drop begin (mjoin ls))).
Proof.
  intros HF. revert begin rank. induction HF as [|p l ps ls Hp _ IH]; intros begin rank Ho; cbn [find_first_loop]; [cbn [mjoin list_join]; by rewrite drop_nil|]. specialize (Ho l eq_refl).
  destruct (listpack_reads_correct encoding p l (lo_holds _ _ Hp)) as (_ & _ & _ & _ & Hfind & _). rewrite Hfind. cbn [mbind result_bind]. change (mjoin (l :: ls)) with (l ++ mjoin ls). rewrite drop_app_le by done.
  destruct (list_find (fun s => s = value) (drop begin l)) as [[i x]|] eqn:El; cbn [fmap option_fmap option_map fst].
  - rewrite (list_find_app_l _ _ _ _ _ El). cbn. do 2 f_equal. lia.
  - rewrite (leaf_ok_size _ _ Hp). cbn [mbind result_bind]. rewrite IH by (intros; lia). rewrite (list_find_app_r _ _ _ El), drop_0, length_drop. destruct (list_find _ (mjoin ls)) as [[i x]|]; cbn; [|done]. do 2 f_equal. lia.
Qed.

Lemma seg_find_first_ok s vs value first :
  seg_repr s vs -> 0 <= first -> seg_find_first encoding value first s = Ret ((fun x => first + Z.of_nat x.1) <$> list_find (fun s => s = value) (drop (Z.to_nat first) vs)).
Proof.
  intros (ls & Hs & <- & Hz) Hf. unfold seg_find_first. destruct (Z.leb_spec (size_ s) first) as [H|H]; [by rewrite drop_ge by lia|].
  destruct (locate_place s ls first Hs Hz ltac:(lia)) as (a & l & z & off & -> & El & Ho & Ei). rewrite El. cbn [of_option mbind result_bind].
  pose proof (sh_leaves _ _ (bo_shape _ _ Hs)) as HF. apply (Forall2_drop _ _ _ (length a)) in HF. rewrite drop_app_length in HF. rewrite (find_first_loop_ok _ _ value off first HF) by (intros l' [= <-]; lia).
  by rewrite Ei, Nat2Z.id, join_app, drop_app_add.
Qed.

Lemma find_last_loop_ok s a l z value stop :
  body_ok s (a ++ l :: z) ->
  exists answer, find_last_loop encoding s (S (length a)) value stop = Ret (Z.of_nat <$> answer) /\
    is_last value (mjoin a ++ take (default (length l) stop) l) (length (mjoin a ++ take (default (length l) stop) l)) answer.
Proof.
  revert l z stop. induction a as [|l1 a IH] using rev_ind; intros l z stop Hs; cbn [find_last_loop];
    destruct (shape_leaf _ _ _ _ (bo_shape _ _ Hs)) as (pa & p & pz & Ee & Hpa & Hp & _); rewrite Ee, list_lookup_middle by done; cbn [of_option mbind result_bind];
    rewrite (leaf_ok_size _ _ Hp); cbn [mbind result_bind]; rewrite Nat2Z.id; destruct (listpack_reads_correct encoding p l (lo_holds _ _ Hp)) as (_ & _ & _ & _ & _ & Hfind);
    destruct (Hfind value (default (length l) stop)) as (answer & -> & Hlast); cbn [mbind result_bind].
  - destruct answer as [i|]; [|by exists None]. pose proof (prefix_count_ok _ _ 0 (body_tree _ _ _ _ Hs) ltac:(lia)) as Hpc. rewrite psum_0 in Hpc. unfold prefix_count. change (Z.of_nat (length (@nil (list bytes)))) with 0. rewrite Hpc. cbn [of_option mbind result_bind]. by exists (Some i).
  - destruct (is_last_app value (mjoin (a ++ [l1])) _ _ Hlast) as [HN HS]. destruct answer as [i|].
    + pose proof (prefix_count_ok _ _ (Z.of_nat (length (a ++ [l1]))) (body_tree _ _ _ _ Hs)) as Hpc. unfold counts in Hpc. rewrite length_fmap, (length_app _ (l :: z)) in Hpc. destruct (psum_concat (a ++ [l1]) z l) as [P1 _]. rewrite P1 in Hpc.
      pose proof (sh_small _ _ (bo_shape _ _ Hs)) as Hsm. rewrite join_mid, length_app in Hsm. unfold prefix_count. rewrite Hpc by lia. cbn [of_option mbind result_bind]. rewrite wrap_small by lia.
      exists (Some (length (mjoin (a ++ [l1])) + i)%nat). split; [cbn; by rewrite Nat2Z.inj_add|by apply HS].
    + rewrite length_app, Nat.add_1_r. rewrite <- app_assoc in Hs. destruct (IH l1 (l :: z) None Hs) as (answer & E & H). exists answer. split; [exact E|]. apply HN; [done|]. cbn [default] in H. rewrite join_app. cbn [mjoin list_join]. rewrite app_nil_r. by rewrite take_ge in H.
Qed.

Lemma seg_find_last_ok s vs value stop :
  seg_repr s vs -> 0 <= stop -> exists answer, seg_find_last encoding value stop s = Ret (Z.of_nat <$> answer) /\ is_last value (take (Z.to_nat stop) vs) (length (take (Z.to_nat stop) vs)) answer.
Proof.
  intros (ls & Hs & <- & Hz) Hst. unfold seg_find_last. set (e := Z.min stop (size_ s)). assert (He : take (Z.to_nat stop) (mjoin ls) = take (Z.to_nat e) (mjoin ls)) by (destruct (Z.min_spec stop (size_ s)) as [[? Em]|[? Em]]; fold e in Em; rewrite Em; [done|]; rewrite !take_ge by lia; done). rewrite He.
  destruct (Z.eqb_spec e 0) as [->|E0]; [exists None; split; [done|]; rewrite take_0; intros j Hj; cbn in Hj; lia|]. destruct (locate_place s ls (e - 1) Hs Hz ltac:(lia)) as (a & l & z & off & -> & El & Ho & Ei). rewrite El. cbn [of_option mbind result_bind]. rewrite Nat.add_1_r.
  destruct (find_last_loop_ok s a l z value (Some (off + 1)%nat) Hs) as (answer & E & H). exists answer. split; [exact E|]. cbn [default] in H. replace (Z.to_nat e) with (length (mjoin a) + (off + 1))%nat by lia. by rewrite join_mid, take_in_concat by lia.
Qed.

Lemma check_invariants_ok s vs : seg_repr s vs -> vs <> [] -> check_invariants leaf_entries s = Some true.
Proof.
  intros (ls & Hs & <- & Hz) Hne. destruct ls as [|l z]; [done|]. pose proof (body_tree s [] l z Hs) as Ht. cbn [app] in Ht. pose proof (sh_small _ _ (bo_shape _ _ Hs)) as Hsm. unfold check_invariants. rewrite (leaf_sizes_ok _ _ (sh_leaves _ _ (bo_shape _ _ Hs))).
  pose proof (shape_count _ _ (bo_shape _ _ Hs)) as Hc. assert (Hlen : length (counts (l :: z)) = length (l :: z)) by (unfold counts; by rewrite length_fmap).
  unfold prefix_count. rewrite Hc, (prefix_count_ok _ _ (Z.of_nat (length (l :: z))) Ht) by (rewrite Hlen; lia). cbn [mbind option_bind]. rewrite psum_all by (rewrite Hlen; lia). rewrite (wrap_small 32) by (rewrite zsum_counts; lia). f_equal.
  rewrite !andb_true_iff. split_and!.
  - apply forallb_forall. intros n Hn%list_elem_of_In. unfold counts in Hn. apply list_elem_of_fmap in Hn as (l1 & -> & H1). destruct (body_parts _ _ Hs l1 H1) as [H2 H3]. destruct l1; [done|]. cbn [length] in *. lia.
  - change (foldr Z.add 0 (counts (l :: z))) with (zsum (counts (l :: z))). rewrite zsum_counts. lia.
  - apply Nat.eqb_eq. unfold vsize. rewrite (tk_length _ _ Ht), Hlen. lia.
  - rewrite zsum_counts. lia.
Qed.

(** ** When packing ends *)

(** A value of which a leaf takes as many as it may have entries. *)
Definition small_value (value : bytes) : Prop := forall e, encode value encoding compression = Ret e -> (Z.of_nat (length (payload_of e)) + 3) * Z.of_nat leaf_entries <= kListListpackMaxBlobBytes - 8.

Lemma small_entries (es : list entry) k : (length es <= k)%nat -> Forall (fun e => (Z.of_nat (length e.2) + 3) * Z.of_nat k <= kListListpackMaxBlobBytes - 8) es -> (Z.of_nat (length (enc es))) * Z.of_nat k <= Z.of_nat (length es) * (kListListpackMaxBlobBytes - 8).
Proof.
  intros _ H. induction H as [|e es He _ IH]; [done|]. rewrite enc_cons, length_app. assert (Z.of_nat (length (entry_enc e)) <= Z.of_nat (length e.2) + 3).
  { destruct e as [r pl]. rewrite length_entry_enc. unfold entry_size, entry_header_bytes. cbn [snd]. case_bool; lia. }
  cbn [length]. nia.
Qed.

Lemma quiet_one_leaf {U} values :
  Z.of_nat leaf_entries <= 65535 -> Forall storable values -> Forall small_value values -> values <> [] -> (length values <= leaf_entries)%nat ->
  quiet (U := U) (build_leaves encoding compression leaf_entries junk pool_request values Balanced) (fun ps => exists p, ps = [p] /\ leaf_ok p values).
Proof.
  intros Hle Hs Hsm Hne Hl. assert (Hn : (0 < length values)%nat) by (destruct values; [done|cbn; lia]). unfold build_leaves. destruct (Nat.eqb_spec (length values) 0) as [|_]; [lia|]. rewrite bool_decide_eq_true_2 by done.
  unfold build_balanced_leaves. replace ((length values + leaf_entries - 1) / leaf_entries)%nat with 1%nat by (apply (Nat.div_unique _ _ _ (length values - 1)); lia). rewrite Nat.div_1_r, Nat.mod_1_r. cbn [balanced_loop Nat.ltb Nat.leb]. rewrite Nat.add_0_r, take_ge by done.
  destruct (storable_entries values Hs) as (encs & HF). pose proof (Forall2_length _ _ _ HF) as Hlen.
  assert (HFs : Forall (fun e => (Z.of_nat (length (payload_of e)) + 3) * Z.of_nat leaf_entries <= kListListpackMaxBlobBytes - 8) encs).
  { apply Forall_forall. intros e [i Hi]%list_elem_of_lookup. destruct (Forall2_lookup_r _ _ _ _ _ HF Hi) as (v & Hv & He). apply (Forall_lookup_1 _ _ _ _ Hsm Hv e He). }
  assert (Hpay : Forall (fun e => Z.of_nat (length e.2) <= 65535) (stored_entry <$> encs)).
  { apply Forall_fmap, Forall_forall. intros e [i Hi]%list_elem_of_lookup. destruct (Forall2_lookup_r _ _ _ _ _ HF Hi) as (v & _ & He). cbn. by eapply write_stored_spec. }
  pose proof (assign_refines junk values encs (Z.of_nat leaf_entries) encoding compression kListListpackMaxBlobBytes None [] HF ltac:(by split; [split_and!|]) ltac:(unfold kListListpackMaxBlobBytes; lia)) as Hx.
  assert (Hw : within kListListpackMaxBlobBytes 0 (stored_entry <$> encs) = true).
  { apply within_spec. split; [done|right]. pose proof (small_entries (stored_entry <$> encs) leaf_entries) as H. rewrite length_fmap in H. specialize (H ltac:(lia) ltac:(by apply Forall_fmap)). unfold kListListpackMaxBlobBytes in *. nia. }
  unfold spec_assign in Hx. rewrite length_fmap, <- Hlen, Hw in Hx. replace (_ || _ || _) with false in Hx by lia. destruct Hx as (p & Ep & Hr).
  apply (quiet_bind _ _ (fun r => r = Some [p])).
  - eapply quiet_bind; [unfold assign_leaf; eapply (quiet_fresh _ true p (eq (true, p))); done|]. intros r <-. eapply quiet_bind; [by apply (quiet_ret _ (fun r => r = Some []))|]. intros r ->. by apply quiet_ret.
  - intros r ->. apply quiet_ret. exists p. split; [done|]. split; [|done|done]. eexists. split; [done|by apply stored_entries_read].
Qed.

Lemma wp_compact_finishes fuel s ls i b :
  Z.of_nat leaf_entries <= 65535 -> Forall small_value (mjoin ls) -> body_ok s ls -> size_ s = Z.of_nat (length (mjoin ls)) -> (length ls <= fuel + i)%nat -> calm b -> ~ lim ->
  wp (compact_loop encoding compression leaf_entries junk pool_request fuel i) (fun finished _ => finished = true) (fun _ _ => False) (World b s).
Proof.
  intros Hle. revert s ls i b. induction fuel as [|fuel IH]; intros s ls i b Hsm Hs Hz Hf Hb Hnl; cbn [compact_loop]; apply wp_bind, wp_obj_get; cbn [obj id]; rewrite (shape_count _ _ (bo_shape _ _ Hs));
    destruct (Nat.ltb_spec (i + 1) (length ls)) as [Hi|Hi]; try (by apply wp_ret); [lia|].
  destruct (two_parts ls i ltac:(lia)) as (a & l & l' & z & -> & Ha). assert (Hs2 : body_ok s ((a ++ [l]) ++ l' :: z)) by (by rewrite <- app_assoc).
  apply wp_bind. eapply wp_leaf_size; [by apply Hs|done|]. apply wp_bind. eapply wp_leaf_size; [by apply Hs2|rewrite length_app; cbn; lia|].
  destruct (Z.leb_spec (Z.of_nat (length l) + Z.of_nat (length l')) (Z.of_nat leaf_entries)) as [Hfit|Hfit]; [|eapply (IH _ _ _ _ Hsm); [done|done|lia|done|done]].
  apply wp_bind. eapply wp_leaf_values; [by apply Hs|done|]. apply wp_bind. eapply wp_leaf_values; [by apply Hs2|rewrite length_app; cbn; lia|]. apply wp_bind. rewrite <- Ha.
  pose proof (sh_small _ _ (bo_shape _ _ Hs)) as Hlen. pose proof (sh_values _ _ (bo_shape _ _ Hs)) as Hv. destruct (body_parts _ _ Hs l) as [Hl _]; [apply list_elem_of_lookup; exists (length a); by apply list_lookup_middle|].
  assert (Hj : mjoin (a ++ l :: l' :: z) = mjoin a ++ (l ++ l') ++ mjoin z) by (rewrite join_mid, <- (app_assoc l l'); done). rewrite Hj in *. rewrite !Forall_app in Hv, Hsm.
  eapply (wp_replace_with s a [l; l'] z (l ++ l') Balanced (fun mid' => mid' = [l ++ l'])); [|done|rewrite Forall_app; tauto|done|done| |done].
  - eapply quiet_mono; [apply quiet_one_leaf; [done|rewrite Forall_app; tauto|rewrite Forall_app; tauto|by destruct l|rewrite length_app; lia]|]. intros ps (p & -> & Hp). exists [l ++ l']. split_and!; [by constructor|cbn; by rewrite app_nil_r|done].
  - intros b' s' mid' Hb' Hs' _ -> Hz'. eapply (IH s' (a ++ [l ++ l'] ++ z)); [|done| | |done|done].
    + rewrite !join_app. cbn [mjoin list_join]. rewrite app_nil_r, !Forall_app. tauto.
    + rewrite Hz', Hz, !join_app. cbn [mjoin list_join]. by rewrite app_nil_r.
    + rewrite !length_app in *. cbn [length] in *. lia.
Qed.

(** Two values that do not fit one leaf together. *)
Definition too_large (v1 v2 : bytes) : Prop :=
  forall e1 e2, encode v1 encoding compression = Ret e1 -> encode v2 encoding compression = Ret e2 ->
    kListListpackMaxBlobBytes - 8 < Z.of_nat (length (entry_enc (stored_entry e1))) + Z.of_nat (length (entry_enc (stored_entry e2))).

Lemma quiet_assign_pair {U} v1 v2 :
  storable v1 -> storable v2 -> too_large v1 v2 -> quiet (U := U) (assign_leaf encoding compression leaf_entries junk pool_request [v1; v2]) (fun r => r.1 = false).
Proof.
  intros [[e1 H1] _] [[e2 H2] _] Hlarge. specialize (Hlarge e1 e2 H1 H2).
  pose proof (assign_refines junk [v1; v2] [e1; e2] (Z.of_nat leaf_entries) encoding compression kListListpackMaxBlobBytes None [] ltac:(by repeat constructor) ltac:(by split; [split_and!|]) ltac:(unfold kListListpackMaxBlobBytes; lia)) as Hx.
  destruct (within kListListpackMaxBlobBytes 0 (stored_entry <$> [e1; e2])) eqn:Hw.
  { apply within_spec in Hw as [_ [Hw|Hw]]; [done|]. cbn [fmap list_fmap] in Hw. rewrite !enc_cons, !length_app in Hw. lia. }
  unfold spec_assign in Hx. rewrite Hw, orb_true_r in Hx. destruct Hx as (p & Ep & _). unfold assign_leaf. by eapply quiet_fresh.
Qed.

Lemma quiet_two_leaves {U} v1 v2 :
  storable v1 -> storable v2 -> too_large v1 v2 ->
  quiet (U := U) (build_leaves encoding compression leaf_entries junk pool_request [v1; v2] Balanced) (fun ps => exists mid, Forall2 leaf_ok ps mid /\ [v1; v2] = mjoin mid /\ mid = [[v1]; [v2]]).
Proof.
  intros H1 H2 Hl. assert (Hone : forall v, storable v -> quiet (U := U) (assign_leaf encoding compression leaf_entries junk pool_request [v]) (fun r => exists p, r = (true, p) /\ leaf_ok p [v])).
  { intros v Hv. eapply quiet_mono; [apply quiet_assign_leaf; [by apply Forall_singleton|done|cbn; lia]|]. intros [ok p] [Ha Hb]. specialize (Hb eq_refl). cbn in Ha, Hb. subst ok. exists p. split; [done|by apply Ha]. }
  unfold build_leaves. cbn [length Nat.eqb]. rewrite bool_decide_eq_true_2 by done. apply (quiet_bind _ _ (fun r => r = None)).
  - unfold build_balanced_leaves. cbn [length]. replace ((2 + leaf_entries - 1) / leaf_entries)%nat with 1%nat by (apply (Nat.div_unique _ _ _ 1); lia). cbn. eapply quiet_bind; [by apply quiet_assign_pair|]. intros [ok p] E. cbn in E. subst ok. by apply quiet_ret.
  - intros r ->. unfold build_greedy_leaves. eapply quiet_bind; [|intros r Hr; apply quiet_ret; exact Hr]. cbn [length greedy_loop Nat.eqb]. rewrite Nat.min_r by lia. unfold some_values, other_values. rewrite !bool_decide_eq_false_2 by done. cbn [search_fit Nat.leb Nat.sub Nat.divmod Nat.div fst Nat.add take].
    apply (quiet_bind _ _ (fun r => exists p, r = (1%nat, p) /\ leaf_ok p [v1])).
    + eapply quiet_bind; [by apply Hone|]. intros r (p & -> & Hp). cbn [search_fit Nat.leb Nat.sub Nat.divmod Nat.div fst Nat.add take]. eapply quiet_bind; [by apply quiet_assign_pair|]. intros [ok q] E. cbn in E. subst ok. cbn. apply quiet_ret. by exists p.
    + intros r (p & -> & Hp). cbn [Nat.eqb drop greedy_loop length]. rewrite Nat.min_r by lia. unfold some_values, other_values. cbn [search_fit Nat.leb Nat.sub Nat.divmod Nat.div fst Nat.add take].
      apply (quiet_bind _ _ (fun r => exists q, r = (1%nat, q) /\ leaf_ok q [v2])).
      * eapply quiet_bind; [by apply Hone|]. intros r (q & -> & Hq). cbn. apply quiet_ret. by exists q.
      * intros r (q & -> & Hq). cbn. apply quiet_ret. exists [[v1]; [v2]]. split_and!; [by repeat (constructor; [done|])|done|done].
Qed.

Lemma wp_compact_spins fuel s v1 v2 b :
  body_ok s [[v1]; [v2]] -> too_large v1 v2 -> calm b -> ~ lim -> wp (compact_loop encoding compression leaf_entries junk pool_request fuel 0) (fun finished _ => finished = false) (fun _ _ => False) (World b s).
Proof.
  intros Hs Hl. revert s b Hs. induction fuel as [|fuel IH]; intros s b Hs Hb Hnl; cbn [compact_loop]; apply wp_bind, wp_obj_get; cbn [obj id]; rewrite (shape_count _ _ (bo_shape _ _ Hs)); cbn [length Nat.add Nat.ltb Nat.leb]; [by apply wp_ret|].
  assert (Hs2 : shape_ok s ([[v1]] ++ [v2] :: [])) by (by apply Hs). pose proof (sh_values _ _ (bo_shape _ _ Hs)) as Hv. change (mjoin [[v1]; [v2]]) with [v1; v2] in Hv. pose proof Hv as Hv'. apply Forall_cons in Hv' as [H1 Hv']. rewrite Forall_singleton in Hv'.
  apply wp_bind. eapply (wp_leaf_size s [] [v1] [[v2]]); [by apply Hs|done|]. apply wp_bind. eapply wp_leaf_size; [exact Hs2|done|]. cbn [length]. replace (_ <=? _) with true by lia.
  apply wp_bind. eapply (wp_leaf_values s [] [v1] [[v2]]); [by apply Hs|done|]. apply wp_bind. eapply wp_leaf_values; [exact Hs2|done|]. apply wp_bind.
  eapply (wp_replace_with s [] [[v1]; [v2]] [] [v1; v2] Balanced (fun mid => mid = [[v1]; [v2]])); [by apply quiet_two_leaves|done|done|cbn; lia|done| |done].
  intros b' s' mid Hb' Hs' _ -> _. by apply IH.
Qed.

(** ** The list the operations implement *)

Lemma unlimited_calm b : (lim <-> ~ unlimited b) -> calm b /\ (lim -> ~ unlimited b).
Proof.
  intros H. split; [|apply H]. unfold calm, unlimited in *. destruct (b ≫= enforced); [left; split; [by apply H|done]|right; split; [|done]]. intros Hl. by apply H in Hl.
Qed.

(** [m] ends with a list and an answer [after] allows, or, only under a memory limit, with an allocation that
    was refused and a list [kept] allows. *)
Definition follows {A} (m : M (world SegmentedList) A) (w : world SegmentedList) (after : A -> list bytes -> Prop) (kept : list bytes -> Prop) : Prop :=
  wp m (fun a w' => calm (mem w') /\ exists vs, seg_repr (obj w') vs /\ after a vs) (fun e w' => lim /\ is_bad_alloc e = true /\ exists vs, seg_repr (obj w') vs /\ kept vs) w.

Ltac ends :=
  first
    [ done
    | intros; split; [done|]; eexists; split; [eassumption|]; (reflexivity || (split; reflexivity))
    | intros; split_and!; [done|done|]; repeat match goal with H : _ \/ _ |- _ => destruct H end; eexists; (split; [eassumption || (eapply reserved_repr; eassumption)|]); tauto ].

(** C17: the segmented list implements a list.  Building it, inserting one or several values anywhere, replacing a
    value, removing one or a range at an end, taking over a compact list and packing it tighter end in a list
    that is the old one with that change; they stay within memory, and they fail only when a memory limit refuses
    an allocation.  Then the list is as before, but for a removal, which may have happened already. *)
Theorem segmented_list_refines w vs :
  (lim <-> ~ unlimited (mem w)) -> seg_repr (obj w) vs ->
  (forall values, Forall storable values -> Z.of_nat (length values) < 2 ^ 32 ->
     follows (assign_values encoding compression leaf_entries junk pool_request pushed_capacity values) w (fun _ l => l = values) (fun l => l = vs)) /\
  (forall values, Forall storable values -> Forall (fun v => Z.of_nat (length v) <= 65534) values -> Z.of_nat (length values) < 2 ^ 32 ->
     follows (assign_raw_values leaf_entries junk pool_request pushed_capacity values) w (fun _ l => l = values) (fun l => l = vs)) /\
  (forall index value, 0 <= index <= Z.of_nat (length vs) -> storable value -> Z.of_nat (length vs) + 1 < 2 ^ 32 ->
     follows (seg_insert encoding compression leaf_entries junk pool_request index value) w (fun _ l => l = insert_at_place (Z.to_nat index) [value] vs) (fun l => l = vs)) /\
  (forall index values, 0 <= index <= Z.of_nat (length vs) -> Forall storable values -> Z.of_nat (length vs) + Z.of_nat (length values) < 2 ^ 32 ->
     follows (insert_many encoding compression leaf_entries junk pool_request pushed_capacity index values) w (fun _ l => l = insert_at_place (Z.to_nat index) values vs) (fun l => l = vs)) /\
  (forall index value, 0 <= index < Z.of_nat (length vs) -> storable value ->
     follows (seg_set encoding compression leaf_entries junk pool_request index value) w (fun _ l => l = <[Z.to_nat index := value]> vs) (fun l => l = vs)) /\
  (forall index value, 0 <= index -> vs !! Z.to_nat index = Some value ->
     follows (seg_erase encoding compression leaf_entries junk pool_request index) w (fun a l => a = value /\ l = delete (Z.to_nat index) vs) (fun l => l = vs \/ l = delete (Z.to_nat index) vs)) /\
  (forall first n, 0 <= first -> 0 <= n -> first = 0 \/ Z.of_nat (length vs) <= first + n ->
     follows (erase_endpoint encoding compression leaf_entries junk pool_request first n) w (fun _ l => l = erased first n vs) (fun l => l = vs \/ l = erased first n vs)) /\
  (forall p values, holds encoding p values -> Forall storable values -> Z.of_nat (length values) < 2 ^ 32 ->
     follows (adopt_listpack encoding compression leaf_entries junk pool_request pushed_capacity p) w (fun _ l => l = values) (fun l => l = vs)) /\
  (forall fuel, follows (seg_compact encoding compression leaf_entries junk pool_request fuel) w (fun _ l => l = vs) (fun l => l = vs)).
Proof.
  intros Hlim Hr. destruct (unlimited_calm _ Hlim) as [Hb _]. destruct w as [b s]. cbn [mem obj] in *. pose proof (repr_caps _ _ Hr) as Hc. unfold follows. split_and!.
  - intros values Hv Hl. apply wp_assign_values; ends.
  - intros values Hv Hv' Hl. apply wp_assign_with; try (by apply quiet_raw_leaves); ends.
  - intros index value Hi Hv Hl. eapply wp_seg_insert; ends.
  - intros index values Hi Hv Hl. eapply wp_insert_many; ends.
  - intros index value Hi Hv. eapply wp_seg_set; ends.
  - intros index value Hi Hv. eapply wp_seg_erase; ends.
  - intros first n Hf Hn He. eapply wp_erase_endpoint; ends.
  - intros p values Hh Hv Hl. eapply wp_adopt; ends.
  - intros fuel. eapply wp_seg_compact; ends.
Qed.

(** Reading a segmented list.  The value at an index, all values, the values of a range (clipped to the list), the
    first occurrence of a value from a place on and the last before a place are those of the list it implements,
    and the code's own check of its invariants succeeds. *)
Theorem segmented_list_reads s vs :
  seg_repr s vs ->
  (forall index value, 0 <= index -> vs !! Z.to_nat index = Some value -> exists v, seg_at encoding index s = Ret v /\ reads_as v value) /\
  (exists views, seg_for_each encoding s = Ret views /\ Forall2 reads_as views vs) /\
  (forall first n, 0 <= first -> 0 <= n -> exists views, seg_for_range encoding first n s = Ret views /\ Forall2 reads_as views (take (Z.to_nat n) (drop (Z.to_nat first) vs))) /\
  (forall value first, 0 <= first -> seg_find_first encoding value first s = Ret ((fun x => first + Z.of_nat x.1) <$> list_find (fun s => s = value) (drop (Z.to_nat first) vs))) /\
  (forall value stop, 0 <= stop -> exists answer, seg_find_last encoding value stop s = Ret (Z.of_nat <$> answer) /\ is_last value (take (Z.to_nat stop) vs) (length (take (Z.to_nat stop) vs)) answer) /\
  (vs <> [] -> check_invariants leaf_entries s = Some true).
Proof.
  intros Hr. split_and!; intros.
  - by eapply seg_at_ok.
  - by apply seg_for_each_ok.
  - by apply seg_for_range_ok.
  - by apply seg_find_first_ok.
  - by apply seg_find_last_ok.
  - by eapply check_invariants_ok.
Qed.

Lemma wp_seg_compact_finished fuel w (Q : bool -> world SegmentedList -> Prop) E E' :
  wp (compact_loop encoding compression leaf_entries junk pool_request fuel 0) (fun finished _ => finished = true) E' w ->
  wp (seg_compact encoding compression leaf_entries junk pool_request fuel) Q E w -> wp (seg_compact encoding compression leaf_entries junk pool_request fuel) (fun finished w' => finished = true /\ Q finished w') E w.
Proof.
  unfold wp, seg_compact, mbind, M_bind. destruct (compact_loop _ _ _ _ _ _ _ w) as [finished w'|e w'|]; [intros ->|done|done]. destruct (shrink_leaves w') as [? w1|e w1|]; [|done|done].
  destruct (rebuild_index w1) as [? w2|e w2|]; [|done|done]. destruct (shrink_fenwick w2) as [? w3|e w3|]; [|done|done]. cbn. done.
Qed.

(** C20: whether packing a list tighter ends.  It does, after at most as many rounds as the list has leaves and with the list
    unchanged, when the values are small enough for a leaf to take as many of them as it may have entries.  It never
    ends on a list of two leaves with one value each, the two together too large for a leaf: the leaves are few enough to
    be joined, the join yields the same two leaves, and the loop of [compact] tries again. *)
Theorem segmented_compact_ends w :
  ~ lim -> unlimited (mem w) ->
  (forall vs, Z.of_nat leaf_entries <= 65535 -> seg_repr (obj w) vs -> Forall small_value vs ->
     wp (seg_compact encoding compression leaf_entries junk pool_request (leaf_count (obj w))) (fun finished w' => finished = true /\ seg_repr (obj w') vs) (fun _ _ => False) w) /\
  (forall v1 v2, body_ok (obj w) [[v1]; [v2]] -> too_large v1 v2 ->
     forall fuel, exists w', seg_compact encoding compression leaf_entries junk pool_request fuel w = Ok false w').
Proof.
  intros Hnl Hu. destruct w as [b s]. cbn [mem obj] in *. assert (Hb : calm b) by (by right). split.
  - intros vs Hle Hr Hsm. pose proof Hr as (ls & Hs & <- & Hz). eapply (wp_seg_compact_finished _ _ (fun _ w' => seg_repr (obj w') (mjoin ls))).
    + eapply wp_compact_finishes; [done|done|done|done|rewrite (shape_count _ _ (bo_shape _ _ Hs)); lia|done|done].
    + eapply wp_seg_compact; [done|done|by cbn|done].
  - intros v1 v2 Hs Hl fuel. pose proof (wp_compact_spins fuel s v1 v2 b Hs Hl Hb Hnl) as H. unfold wp in H. unfold seg_compact, mbind, M_bind.
    destruct (compact_loop _ _ _ _ _ _ _ _) as [finished w'|e w'|]; [|done|done]. subst finished. by eexists.
Qed.
End spec.

(** ** A list *)

Definition doubled (reserved pushed : Z) : Z := Z.max reserved (2 * pushed).
Lemma doubled_range reserved pushed : 0 <= reserved <= 2 ^ 32 -> 0 <= pushed <= 2 ^ 32 -> pushed <= doubled reserved pushed <= 2 ^ 33.
Proof. unfold doubled. lia. Qed.

Definition sample_values : list bytes := [str "a"; str "42"; str "b"; str "42"; str "c"].
Abbreviation sample_repr := (@seg_repr copy_lz4 Options.default NeverLz4 2 False).

Lemma sample_storable v : v ∈ sample_values -> @encodable copy_lz4 Options.default NeverLz4 v.
Proof. intros H. repeat (apply elem_of_cons in H as [->|H]; [split; [eexists|]; vm_compute; reflexivity|]). by apply not_elem_of_nil in H. Qed.

Lemma empty_repr : sample_repr empty_segmented [].
Proof. exists []. split_and!; [|done|done]. split; [|by left]. split; [constructor|constructor|done|]. split; [done|done|right; left; cbn; lia]. Qed.

Lemma sample_all : Forall (@encodable copy_lz4 Options.default NeverLz4) sample_values.
Proof. apply Forall_forall, sample_storable. Qed.

Lemma no_limit : False <-> ~ unlimited (mem (World None empty_segmented)).
Proof. split; [done|]. intros H. by apply H. Qed.

(** The list as the code builds it. *)
Definition sample_list : SegmentedList :=
  match @insert_many copy_lz4 Options.default NeverLz4 2 x00 id doubled 0 sample_values (World None empty_segmented) with Ok _ w => obj w | _ => empty_segmented end.

Lemma sample_list_repr : sample_repr sample_list sample_values.
Proof.
  assert (H : wp (@insert_many copy_lz4 Options.default NeverLz4 2 x00 id doubled 0 sample_values) (fun _ w => sample_repr (obj w) sample_values) (fun _ _ => False) (World None empty_segmented)).
  { eapply (@wp_insert_many copy_lz4 copy_lz4_correct Options.default NeverLz4 2 x00 id doubled ltac:(lia) doubled_range False empty_segmented []); [apply empty_repr|cbn; lia|apply sample_all|cbn; lia|by right; split; [intros []|]|done|done]. }
  unfold sample_list. unfold wp in H. by destruct (insert_many _ _ _ _ _ _ _ _ _).
Qed.

Lemma segmented_list_refines_witness :
  @follows copy_lz4 Options.default NeverLz4 2 False _ (@seg_erase copy_lz4 Options.default NeverLz4 2 x00 id 2) (World None sample_list)
    (fun a l => a = str "b" /\ l = [str "a"; str "42"; str "42"; str "c"]) (fun l => l = sample_values \/ l = [str "a"; str "42"; str "42"; str "c"]).
Proof.
  destruct (@segmented_list_refines copy_lz4 copy_lz4_correct Options.default NeverLz4 2 x00 id doubled ltac:(lia) doubled_range False (World None sample_list) sample_values no_limit sample_list_repr) as (_ & _ & _ & _ & _ & H & _).
  apply (H 2 (str "b")); [lia|reflexivity].
Defined.

(** Two values of forty thousand bytes, stored as they are, in a leaf each. *)
Definition large_value : bytes := "x"%byte :: replicate (Z.to_nat 39999) "x"%byte.
Definition large_entry : entry := (true, large_value).
Definition large_leaf : ListListpack := Some (blob [large_entry]).
Definition large_list : SegmentedList := mkSeg (Vec [large_leaf; large_leaf] 2) (Vec [0; 1; 2] 3) 2.
Abbreviation verbatim := Options.kDisabledMask.

Lemma large_length : Z.of_nat (length large_value) = 40000.
Proof. unfold large_value. cbn [length]. rewrite length_replicate. lia. Qed.

Lemma large_encodes : @encode copy_lz4 large_value verbatim NeverLz4 = Ret {| source_ := large_value; storage_ := Verbatim; encoded_size_ := 40000 |}.
Proof. unfold encode. rewrite large_length. reflexivity. Qed.

Lemma large_storable : @encodable copy_lz4 verbatim NeverLz4 large_value.
Proof. split; [by eexists; apply large_encodes|]. reflexivity. Qed.

Lemma large_leaf_ok : @leaf_ok copy_lz4 verbatim 128 large_leaf [large_value].
Proof.
  assert (Hl : Z.of_nat (length (entry_enc large_entry)) <= 65538) by (apply entry_fits; cbn [snd large_entry]; rewrite large_length; lia). assert (He : enc [large_entry] = entry_enc large_entry) by apply app_nil_r.
  split; [|done|cbn; lia]. exists [large_entry]. split.
  - apply repr_blob; [|done]. split_and!; [cbn; lia|rewrite He; lia|]. apply Forall_singleton. cbn [snd large_entry]. rewrite large_length. lia.
  - constructor; [|constructor]. apply raw_entry_reads. rewrite large_length. lia.
Qed.

Lemma segmented_compact_ends_witness :
  wp (@seg_compact copy_lz4 Options.default NeverLz4 2 x00 id (leaf_count sample_list)) (fun finished w => finished = true /\ sample_repr (obj w) sample_values) (fun _ _ => False) (World None sample_list) /\
  forall fuel, exists w, @seg_compact copy_lz4 verbatim NeverLz4 128 x00 id fuel (World None large_list) = Ok false w.
Proof.
  split.
  { apply (@segmented_compact_ends copy_lz4 copy_lz4_correct Options.default NeverLz4 2 x00 id ltac:(lia) False (World None sample_list)); [tauto|reflexivity|lia|apply sample_list_repr|].
    repeat (constructor; [intros e He; vm_compute in He; injection He as <-; vm_compute; discriminate|]). constructor. }
  eapply (@segmented_compact_ends copy_lz4 copy_lz4_correct verbatim NeverLz4 128 x00 id ltac:(lia) False (World None large_list)) with (v1 := large_value) (v2 := large_value); [tauto|reflexivity| |].
  - split; [split|right; split].
    + repeat (constructor; [apply large_leaf_ok|]). constructor.
    + repeat (constructor; [apply large_storable|]). constructor.
    + cbn [mjoin list_join app length]. lia.
    + split; [cbn; lia|cbn; lia|right; left; cbn; lia].
    + reflexivity.
    + intros i Hi. cbn in Hi. assert (i = 1 \/ i = 2) as [->| ->] by lia; reflexivity.
  - intros e1 e2 H1 H2. rewrite large_encodes in H1, H2. injection H1 as <-. injection H2 as <-. unfold stored_entry, payload_of. cbn [is_raw skip_prefix es_encoding_enabled storage_ andb write_to source_].
    rewrite !length_entry_enc, large_length. unfold entry_size, entry_header_bytes, kListListpackMaxBlobBytes. cbn. lia.
Defined.
