(* ===== verification/ListValue.v ===== *)
(** * Lists

    Models [include/goblin/core/list.hpp] with the segmented implementation, the default: a list is a compact
    blob ([ListListpack]) while it is small and a [SegmentedList] afterwards, and becomes small again when
    values are removed. *)

From S2P Require Import Prelude StringEncoding ListListpack MemoryLimit Fenwick SegmentedList SegmentedSpec.
From Stdlib Require Import ZArith Lia ZifyBool.

Local Open Scope Z_scope.

(** [rep_]. *)
Inductive ListRep := Small (p : ListListpack) | Full (s : SegmentedList).

Section code.
Context {L : LZ4}.
(** [string_encoding], [string_compression] and [listpack_max_entries] of the options. *)
Variable encoding : Z.
Variable compression : StringCompressionMode.
Variable listpack_max_entries : nat.
Variable junk : byte.
Variable pool_request : Z -> Z.
Variable pushed_capacity : Z -> Z -> Z.
Variable sizeof_segmented : Z.

Abbreviation Op A := (M (world ListRep) A).
Abbreviation max_entries := (Z.of_nat listpack_max_entries).
Abbreviation max_blob := kListListpackMaxBlobBytes.
Abbreviation leaf_entries := (Z.to_nat kDefaultLeafEntries).

Definition set_rep (r : ListRep) : Op unit := obj_mod (fun _ => r).

(** A call on the segmented list. *)
Definition on_segmented {A} (m : M (world SegmentedList) A) : Op A :=
  r ← obj_get id;
  match r with
  | Full s => zoom (fun _ => s) (fun s _ => Full s) m
  | Small _ => need None
  end.

Definition init_empty : Op unit :=
  if (listpack_max_entries =? 0)%nat then
    ensure_memory_growth sizeof_segmented;;
    set_rep (Full empty_segmented)
  else set_rep (Small None).
Definition clear : Op unit := init_empty.

Definition list_size : Op Z :=
  r ← obj_get id;
  match r with Small p => lift (ListListpack.size p) | Full s => mret (size_ s) end.

(** [adopt_listpack] takes the blob by value: the small form is empty before the call can fail. *)
Definition ensure_full : Op unit :=
  r ← obj_get id;
  match r with
  | Full _ => mret tt
  | Small p =>
      ensure_memory_growth sizeof_segmented;;
      set_rep (Small None);;
      state ← local empty_segmented (adopt_listpack encoding compression leaf_entries junk pool_request pushed_capacity p);
      set_rep (Full state)
  end.

Definition insert_full_batch (values : list bytes) (front : bool) : Op unit :=
  on_segmented
    (if front then insert_many encoding compression leaf_entries junk pool_request pushed_capacity 0 (rev values)
     else s ← obj_get id; insert_many encoding compression leaf_entries junk pool_request pushed_capacity (size_ s) values).

(** An insertion into the small form. *)
Definition small_insert (index : nat) (value : bytes) : Op bool :=
  r ← obj_get id;
  match r with
  | Small p =>
      '(ok, p) ← lift (ListListpack.insert junk index value max_entries encoding compression max_blob p);
      when ok (pool_alloc pool_request p);;
      set_rep (Small p);;
      mret ok
  | Full _ => need None
  end.

Definition list_insert (index : Z) (value : bytes) : Op unit :=
  n ← list_size;
  require (index <=? n);;
  r ← obj_get id;
  match r with
  | Small _ =>
      inserted ← small_insert (Z.to_nat index) value;
      if (inserted : bool) then mret tt
      else
        ensure_full;;
        on_segmented (seg_insert encoding compression leaf_entries junk pool_request index value)
  | Full _ => on_segmented (seg_insert encoding compression leaf_entries junk pool_request index value)
  end.
Definition push_front_one (value : bytes) : Op Z := list_insert 0 value;; list_size.
Definition push_back_one (value : bytes) : Op Z := n ← list_size; list_insert n value;; list_size.

(** [push_front] and [push_back] of several values: one at a time while the list stays small. *)
Fixpoint push_small (front : bool) (values : list bytes) : Op unit :=
  match values with
  | [] => mret tt
  | value :: rest =>
      n ← list_size;
      inserted ← small_insert (if front then 0%nat else Z.to_nat n) value;
      if (inserted : bool) then push_small front rest
      else
        ensure_full;;
        insert_full_batch values front
  end.
Definition push_many (front : bool) (values : list bytes) : Op Z :=
  if (length values =? 0)%nat then list_size
  else
    n ← list_size;
    r ← obj_get id;
    let room := max_entries - Z.min n max_entries in
    match r with
    | Small _ =>
        (if Z.of_nat (length values) <=? room then push_small front values
         else ensure_full;; insert_full_batch values front);;
        list_size
    | Full _ =>
        ensure_full;;
        insert_full_batch values front;;
        list_size
    end.

(** A fresh list with the values, which then takes the place of the old one. *)
Definition fresh_list (m : Op unit) : Op unit :=
  r ← local (Small None) (init_empty;; m);
  set_rep r.
Definition list_assign (values : list bytes) : Op unit := fresh_list (push_many false values;; mret tt).
Definition list_assign_raw (values : list bytes) : Op unit :=
  fresh_list
    (if (length values =? 0)%nat then mret tt
     else
       r ← obj_get id;
       packed ← match r with
                | Small p =>
                    if (length values <=? listpack_max_entries)%nat then
                      '(ok, p) ← lift (assign_raw junk values max_entries max_blob p);
                      when ok (pool_alloc pool_request p);;
                      set_rep (Small p);;
                      mret ok
                    else mret false
                | Full _ => mret false
                end;
       if (packed : bool) then mret tt
       else
         ensure_full;;
         on_segmented (assign_raw_values leaf_entries junk pool_request pushed_capacity values)).

(** Copying the encoded values into one blob; [None] once one did not fit. *)
Fixpoint demote_loop (views : list EncodedStringView) (packed : ListListpack) : Op (option ListListpack) :=
  match views with
  | [] => mret (Some packed)
  | value :: views =>
      n ← lift (ListListpack.size packed);
      '(ok, packed) ← lift (insert_encoded junk (Z.to_nat n) value max_entries max_blob packed);
      if (ok : bool) then
        pool_alloc pool_request packed;;
        demote_loop views packed
      else mret None
  end.
Definition maybe_demote : Op unit :=
  r ← obj_get id;
  match r with
  | Small _ => mret tt
  | Full s =>
      if (listpack_max_entries =? 0)%nat || (max_entries <? size_ s) then mret tt
      else
        try_catch
          (views ← lift (seg_for_each encoding s);
           packed ← demote_loop views None;
           match packed with Some packed => set_rep (Small packed) | None => mret tt end)
          (fun e => if bool_decide (e = MaxMemoryExceeded) then mret tt else throw e)
  end.

Definition list_set (index : Z) (value : bytes) : Op unit :=
  n ← list_size;
  require (index <? n);;
  r ← obj_get id;
  match r with
  | Small p =>
      in_place ← lift (set_in_place encoding compression (Z.to_nat index) value p);
      '(ok, p) ← lift (ListListpack.set junk (Z.to_nat index) value encoding compression max_blob p);
      when (ok && negb in_place) (pool_alloc pool_request p);;
      set_rep (Small p);;
      if (ok : bool) then mret tt
      else
        ensure_full;;
        on_segmented (seg_set encoding compression leaf_entries junk pool_request index value)
  | Full _ => on_segmented (seg_set encoding compression leaf_entries junk pool_request index value)
  end.

Definition list_erase (index : Z) : Op bytes :=
  n ← list_size;
  require (index <? n);;
  r ← obj_get id;
  match r with
  | Small p =>
      '(removed, p) ← lift (ListListpack.erase junk (Z.to_nat index) encoding p);
      pool_alloc pool_request p;;
      set_rep (Small p);;
      mret removed
  | Full _ =>
      removed ← on_segmented (seg_erase encoding compression leaf_entries junk pool_request index);
      maybe_demote;;
      mret removed
  end.

Definition pop_one (front : bool) : Op (option bytes) :=
  n ← list_size;
  if n =? 0 then mret None
  else removed ← list_erase (if front then 0 else n - 1); mret (Some removed).

Definition pop_endpoint (count : Z) (front : bool) : Op (list bytes) :=
  n ← list_size;
  let take := Z.min count n in
  if take =? 0 then mret []
  else
    let first := if front then 0 else n - take in
    r ← obj_get id;
    removed ← match r with
              | Small p =>
                  views ← lift (for_range (Z.to_nat first) (Z.to_nat take) encoding p);
                  removed ← lift (mapM to_string views);
                  p ← lift (ListListpack.erase_range junk (Z.to_nat first) (Z.to_nat take) p);
                  pool_alloc pool_request p;;
                  set_rep (Small p);;
                  mret removed
              | Full s =>
                  views ← lift (seg_for_range encoding first take s);
                  removed ← lift (mapM to_string views);
                  on_segmented (erase_endpoint encoding compression leaf_entries junk pool_request first take);;
                  maybe_demote;;
                  mret removed
              end;
    mret (if front then removed else rev removed).

(** ** Reading *)

Definition list_at (index : Z) (r : ListRep) : result EncodedStringView :=
  match r with Small p => at_ (Z.to_nat index) encoding p | Full s => seg_at encoding index s end.
Definition list_for_each (r : ListRep) : result (list EncodedStringView) :=
  match r with Small p => for_each encoding p | Full s => seg_for_each encoding s end.
Definition list_for_range (first count : Z) (r : ListRep) : result (list EncodedStringView) :=
  match r with
  | Small p =>
      n ← ListListpack.size p;
      if n <=? first then Ret [] else for_range (Z.to_nat first) (Z.to_nat count) encoding p
  | Full s => if size_ s <=? first then Ret [] else seg_for_range encoding first count s
  end.
Definition list_find_first (value : bytes) (first : Z) (r : ListRep) : result (option Z) :=
  match r with
  | Small p => i ← find_first value (Z.to_nat first) encoding p; Ret (Z.of_nat <$> (i : option nat))
  | Full s => seg_find_first encoding value first s
  end.
Definition list_find_last (value : bytes) (stop : Z) (r : ListRep) : result (option Z) :=
  match r with
  | Small p =>
      n ← ListListpack.size p;
      i ← find_last value (Z.to_nat (Z.min stop n)) encoding p;
      Ret (Z.of_nat <$> (i : option nat))
  | Full s => seg_find_last encoding value (Z.min stop (size_ s)) s
  end.

(** ** Removing by value, and trimming *)

(** The loops of [remove]; a round that finds nothing ends them, so the length of the list bounds them. *)
Fixpoint remove_forward (fuel : nat) (value : bytes) (limit removed first : Z) : Op Z :=
  if removed <? limit then
    match fuel with
    | O => need None
    | S fuel =>
        r ← obj_get id;
        found ← lift (list_find_first value first r);
        match found with
        | None => mret removed
        | Some i =>
            list_erase i;;
            remove_forward fuel value limit (removed + 1) i
        end
    end
  else mret removed.
Fixpoint remove_backward (fuel : nat) (value : bytes) (limit removed stop : Z) : Op Z :=
  if removed <? limit then
    match fuel with
    | O => need None
    | S fuel =>
        r ← obj_get id;
        found ← lift (list_find_last value stop r);
        match found with
        | None => mret removed
        | Some i =>
            list_erase i;;
            remove_backward fuel value limit (removed + 1) i
        end
    end
  else mret removed.
Definition list_remove (value : bytes) (count : Z) : Op Z :=
  n ← list_size;
  if 0 <=? count then remove_forward (S (Z.to_nat n)) value (if count =? 0 then u64_max else count) 0 0
  else remove_backward (S (Z.to_nat n)) value (if count =? - 2 ^ 63 then u64_max else - count) 0 n.

Fixpoint trim_back (fuel : nat) (keep_end : Z) : Op unit :=
  n ← list_size;
  if keep_end <? n then
    match fuel with
    | O => need None
    | S fuel => list_erase (n - 1);; trim_back fuel keep_end
    end
  else mret tt.
Fixpoint trim_front (fuel : nat) (first : Z) : Op unit :=
  n ← list_size;
  if negb (first =? 0) && negb (n =? 0) then
    match fuel with
    | O => need None
    | S fuel => list_erase 0;; trim_front fuel (first - 1)
    end
  else mret tt.
Definition list_trim (first count : Z) : Op unit :=
  n ← list_size;
  let keep_end := if n - Z.min first n <? count then n else first + count in
  trim_back (Z.to_nat n) keep_end;;
  n ← list_size;
  trim_front (Z.to_nat n) first.

(** [compact], once arena compaction is allowed; [false] is running out of fuel. *)
Definition list_compact (compaction_allowed : bool) (fuel : nat) : Op bool :=
  r ← obj_get id;
  match r with
  | Small _ => mret true
  | Full _ =>
      if negb compaction_allowed then mret true
      else
        finished ← on_segmented (seg_compact encoding compression leaf_entries junk pool_request fuel);
        if (finished : bool) then maybe_demote;; mret true else mret false
  end.

Definition list_check_invariants (r : ListRep) : option bool :=
  match r with
  | Small p => match ListListpack.size p with Ret n => Some (n <=? max_entries) | _ => None end
  | Full s => check_invariants leaf_entries s
  end.
End code.

(** ** Removal by value, on lists *)

(** Without the first occurrences of a value, at most a number of them, and without the last ones. *)
Fixpoint lrem_head (n : nat) (value : bytes) (l : list bytes) : list bytes :=
  match l with
  | [] => []
  | x :: l =>
      if bool_decide (x = value) then match n with O => x :: l | S n => lrem_head n value l end
      else x :: lrem_head n value l
  end.
Definition lrem_tail (n : nat) (value : bytes) (l : list bytes) : list bytes := rev (lrem_head n value (rev l)).

Lemma lrem_head_none n value l : value ∉ l -> lrem_head n value l = l.
Proof.
  induction l as [|x l IH]; intros H; [done|]. cbn [lrem_head]. apply not_elem_of_cons in H as [Hx Hl]. rewrite bool_decide_eq_false_2 by done. by rewrite IH.
Qed.
Lemma lrem_head_0 value l : lrem_head 0 value l = l.
Proof. induction l as [|x l IH]; [done|]. cbn [lrem_head]. case_bool_decide; [done|by rewrite IH]. Qed.
Lemma lrem_head_found n value a c : value ∉ a -> lrem_head (S n) value (a ++ value :: c) = a ++ lrem_head n value c.
Proof.
  induction a as [|x a IH]; intros H; cbn [app lrem_head]; [by rewrite bool_decide_eq_true_2|]. apply not_elem_of_cons in H as [Hx Ha]. rewrite bool_decide_eq_false_2 by done. by rewrite IH.
Qed.
Lemma lrem_head_length n value l : (length (lrem_head n value l) <= length l)%nat.
Proof. revert n. induction l as [|x l IH]; intros n; cbn [lrem_head length]; [lia|]. case_bool_decide; [destruct n as [|n]; cbn [length]; [lia|]; specialize (IH n); lia|cbn [length]; specialize (IH n); lia]. Qed.
Lemma lrem_tail_length n value l : (length (lrem_tail n value l) <= length l)%nat.
Proof. unfold lrem_tail. rewrite length_rev. etrans; [apply lrem_head_length|]. by rewrite length_rev. Qed.
Lemma lrem_tail_none n value l : value ∉ l -> lrem_tail n value l = l.
Proof. intros H. unfold lrem_tail. rewrite lrem_head_none; [apply rev_involutive|]. by rewrite list_elem_of_In, <- in_rev, <- list_elem_of_In. Qed.
Lemma lrem_tail_0 value l : lrem_tail 0 value l = l.
Proof. unfold lrem_tail. by rewrite lrem_head_0, rev_involutive. Qed.
Lemma lrem_tail_found n value a c : value ∉ c -> lrem_tail (S n) value (a ++ value :: c) = lrem_tail n value a ++ c.
Proof.
  intros H. unfold lrem_tail. rewrite rev_app_distr. cbn [rev]. rewrite <- app_assoc. cbn [app]. rewrite lrem_head_found by (by rewrite list_elem_of_In, <- in_rev, <- list_elem_of_In). by rewrite rev_app_distr, rev_involutive.
Qed.

Lemma find_split (l : list bytes) i x value : list_find (fun s => s = value) l = Some (i, x) -> exists a c, l = a ++ value :: c /\ length a = i /\ value ∉ a.
Proof.
  intros (H1 & H2 & H3)%list_find_Some. subst x. destruct (list_elem_of_split_length l i value H1) as (a & c & -> & ->). exists a, c. split_and!; [done|done|]. intros [j Hj]%list_elem_of_lookup. pose proof (lookup_lt_Some _ _ _ Hj).
  eapply (H3 j value); [by rewrite lookup_app_l|done|done].
Qed.
Lemma last_split (l : list bytes) i value : is_last value l (length l) (Some i) -> exists a c, l = a ++ value :: c /\ length a = i /\ value ∉ c.
Proof.
  intros (H1 & H2 & H3). destruct (list_elem_of_split_length l i value H1) as (a & c & -> & ->). exists a, c. split_and!; [done|done|]. intros [j Hj]%list_elem_of_lookup. pose proof (lookup_lt_Some _ _ _ Hj).
  apply (H3 (length a + S j)%nat); [rewrite length_app; cbn [length]; lia|]. rewrite lookup_app_r by lia. replace (length a + S j - length a)%nat with (S j) by lia. exact Hj.
Qed.

(** ** The list the value implements *)

Section spec.
Context {L : LZ4} {LC : LZ4Correct L}.
Variable encoding : Z.
Variable compression : StringCompressionMode.
Variable listpack_max_entries : nat.
Variable junk : byte.
Variable pool_request : Z -> Z.
Variable pushed_capacity : Z -> Z -> Z.
Variable sizeof_segmented : Z.
Hypothesis pushed_capacity_range : forall reserved pushed, 0 <= reserved <= 2 ^ 32 -> 0 <= pushed <= 2 ^ 32 -> pushed <= pushed_capacity reserved pushed <= 2 ^ 33.
(** Whether a memory limit is active. *)
Variable lim : Prop.
Abbreviation storable := (encodable encoding compression).
Abbreviation leaf_entries := (Z.to_nat kDefaultLeafEntries).
Abbreviation calm := (SegmentedSpec.calm lim).
Abbreviation seg_repr := (SegmentedSpec.seg_repr encoding compression leaf_entries lim).

Lemma default_leaf_entries : (2 <= leaf_entries)%nat.
Proof. unfold kDefaultLeafEntries. lia. Qed.

Definition list_repr (r : ListRep) (vs : list bytes) : Prop :=
  match r with
  | Small p => holds encoding p vs /\ Forall storable vs /\ (length vs <= listpack_max_entries)%nat
  | Full s => seg_repr s vs
  end.

Lemma holds_length p vs : holds encoding p vs -> Z.of_nat (length vs) <= 65535.
Proof. intros (es & [(H & _) _] & HF). by rewrite <- (Forall2_length _ _ _ HF). Qed.

Lemma empty_small : list_repr (Small None) [].
Proof. split_and!; [apply holds_none|constructor|cbn; lia]. Qed.

Lemma seg_repr_size s vs : seg_repr s vs -> size_ s = Z.of_nat (length vs).
Proof. by intros (ls & _ & _ & ?). Qed.

Lemma seg_repr_storable s vs : seg_repr s vs -> Forall storable vs.
Proof. intros (ls & [Hs _] & <- & _). apply Hs. Qed.

Lemma list_repr_storable r vs : list_repr r vs -> Forall storable vs.
Proof. destruct r; [by intros (_ & ? & _)|apply seg_repr_storable]. Qed.

Lemma list_repr_small r vs : list_repr r vs -> Z.of_nat (length vs) < 2 ^ 32.
Proof. destruct r; [intros (H%holds_length & _ & _); lia|]. intros (ls & [Hs _] & <- & _). apply Hs. Qed.

Lemma wp_on_segmented {A} (m : M (world SegmentedList) A) s b (Q : A -> world ListRep -> Prop) (E : exn -> world ListRep -> Prop) :
  wp m (fun a v => Q a (World (mem v) (Full (obj v)))) (fun e v => E e (World (mem v) (Full (obj v)))) (World b s) -> wp (on_segmented m) Q E (World b (Full s)).
Proof. intros H. unfold on_segmented. apply wp_bind, wp_obj_get. cbn [obj id]. by apply wp_zoom. Qed.

Lemma wp_list_size r vs b (Q : Z -> world ListRep -> Prop) E : list_repr r vs -> Q (Z.of_nat (length vs)) (World b r) -> wp list_size Q E (World b r).
Proof.
  intros Hr HQ. unfold list_size. apply wp_bind, wp_obj_get. cbn [obj id]. destruct r as [p|s].
  - destruct Hr as (Hh & _ & _). eapply wp_lift; [by apply listpack_reads_correct in Hh as (-> & _)|done].
  - apply wp_ret. by rewrite (seg_repr_size _ _ Hr).
Qed.

(** The representation becomes the segmented one; an allocation refused meanwhile may leave the list empty. *)
Lemma wp_list_ensure_full r vs b (Q : unit -> world ListRep -> Prop) E :
  list_repr r vs -> calm b -> (forall b' s', calm b' -> seg_repr s' vs -> Q tt (World b' (Full s'))) ->
  (lim -> forall e b' r', is_bad_alloc e = true -> list_repr r' vs \/ list_repr r' [] -> E e (World b' r')) ->
  wp (ensure_full encoding compression junk pool_request pushed_capacity sizeof_segmented) Q E (World b r).
Proof.
  intros Hr Hb HQ HE. unfold ensure_full. apply wp_bind, wp_obj_get. cbn [obj id]. destruct r as [p|s]; [|apply wp_ret; by apply HQ].
  apply wp_bind. eapply (wp_quiet lim _ (fun _ => True)); [apply quiet_ensure|done| |].
  2: { intros Hlim e b' He. apply HE; [done|done|by left]. }
  intros _ b1 Hb1 _. apply wp_bind, wp_obj_mod. cbn [obj mem]. apply wp_bind. apply wp_local. cbn [mem obj]. pose proof (list_repr_small _ _ Hr) as Hsm. destruct Hr as (Hh & Hs & Hl).
  eapply (wp_adopt encoding compression leaf_entries junk pool_request pushed_capacity default_leaf_entries pushed_capacity_range lim); [|done|done|done|done| |].
  - split; [done|done|right; left; cbn; lia].
  - intros b' s' Hb' Hs'. cbn [mem obj]. apply wp_obj_mod. by apply HQ.
  - intros Hlim e b' s' He _. cbn [mem obj]. apply HE; [done|done|right; apply empty_small].
Qed.

Lemma wp_small_insert p vs index value b (Q : bool -> world ListRep -> Prop) E :
  list_repr (Small p) vs -> (index <= length vs)%nat -> storable value -> calm b ->
  (forall b' r', calm b' -> list_repr r' (insert_at_place index [value] vs) -> (exists p', r' = Small p') -> Q true (World b' r')) -> (forall b', calm b' -> Q false (World b' (Small p))) ->
  (lim -> forall e b', is_bad_alloc e = true -> E e (World b' (Small p))) ->
  wp (small_insert encoding compression listpack_max_entries junk pool_request index value) Q E (World b (Small p)).
Proof.
  intros (Hh & Hs & Hl) Hi Hv Hb HT HF HE. unfold small_insert. apply wp_bind, wp_obj_get. cbn [obj id].
  destruct (blob_insert_ok encoding compression junk listpack_max_entries p vs index value Hh Hi Hv) as (ok & p' & Ei & Hok & _). apply wp_bind. eapply wp_lift; [exact Ei|]. cbn beta iota. apply wp_bind.
  eapply (wp_quiet lim _ (fun _ => True)); [apply quiet_when; [apply quiet_pool|done]|done| |done]. intros _ b1 Hb1 _. apply wp_bind, wp_obj_mod. cbn [obj mem]. apply wp_ret. destruct ok; [|by subst p'; apply HF].
  apply HT; [done| |by eexists]. destruct Hok. split_and!; [done| |done]. apply Forall_app. split; [by apply Forall_take|]. apply Forall_cons. split; [done|by apply Forall_drop].
Qed.

Lemma wp_list_insert r vs index value b (Q : unit -> world ListRep -> Prop) E :
  list_repr r vs -> 0 <= index <= Z.of_nat (length vs) -> storable value -> Z.of_nat (length vs) + 1 < 2 ^ 32 -> calm b ->
  (forall b' r', calm b' -> list_repr r' (insert_at_place (Z.to_nat index) [value] vs) -> Q tt (World b' r')) ->
  (lim -> forall e b' r', is_bad_alloc e = true -> list_repr r' vs \/ list_repr r' [] -> E e (World b' r')) ->
  wp (list_insert encoding compression listpack_max_entries junk pool_request pushed_capacity sizeof_segmented index value) Q E (World b r).
Proof.
  intros Hr Hi Hv Hl Hb HQ HE. unfold list_insert. apply wp_bind. eapply wp_list_size; [done|]. apply wp_bind, wp_require; [lia|]. apply wp_bind, wp_obj_get. cbn [obj id].
  assert (Hseg : forall b' s, calm b' -> seg_repr s vs -> wp (on_segmented (seg_insert encoding compression leaf_entries junk pool_request index value)) Q E (World b' (Full s))).
  { intros b' s Hb' Hs. apply wp_on_segmented. eapply (wp_seg_insert encoding compression leaf_entries junk pool_request default_leaf_entries lim); [done|done|done|done|done| |]; cbn [mem obj].
    - intros. by apply HQ.
    - intros. apply HE; [done|done|by left]. }
  destruct r as [p|s]; [|by apply Hseg]. apply wp_bind. eapply wp_small_insert; [done|lia|done|done| | |].
  - intros b' r' Hb' Hr' _. apply wp_ret. by apply HQ.
  - intros b' Hb'. apply wp_bind. eapply wp_list_ensure_full; [done|done|done|done].
  - intros Hlim e b' He. apply HE; [done|done|by left].
Qed.

(** ** Pushing *)

(** The list after values were pushed one after the other. *)
Definition pushed (front : bool) (values vs : list bytes) : list bytes := if front then rev values ++ vs else vs ++ values.

(** What an interrupted push may leave: the list with some of the values, or nothing at all. *)
Definition push_kept (front : bool) (values vs l : list bytes) : Prop := (exists k, l = pushed front (take k values) vs) \/ l = [].

Lemma wp_full_batch s vs values front b (Q : unit -> world ListRep -> Prop) E :
  seg_repr s vs -> Forall storable values -> Z.of_nat (length vs) + Z.of_nat (length values) < 2 ^ 32 -> calm b ->
  (forall b' r', calm b' -> list_repr r' (pushed front values vs) -> Q tt (World b' r')) ->
  (lim -> forall e b' r', is_bad_alloc e = true -> list_repr r' vs -> E e (World b' r')) ->
  wp (insert_full_batch encoding compression junk pool_request pushed_capacity values front) Q E (World b (Full s)).
Proof.
  intros Hs Hv Hl Hb HQ HE. unfold insert_full_batch. apply wp_on_segmented. destruct front.
  - eapply (wp_insert_many encoding compression leaf_entries junk pool_request pushed_capacity default_leaf_entries pushed_capacity_range lim); [exact Hs|lia|by apply Forall_rev|rewrite length_rev; lia|done| |]; cbn [mem obj].
    + intros b' s' Hb' Hs'. by apply HQ.
    + intros. by apply HE.
  - apply wp_bind, wp_obj_get. cbn [obj id]. pose proof (seg_repr_size _ _ Hs) as Hz.
    eapply (wp_insert_many encoding compression leaf_entries junk pool_request pushed_capacity default_leaf_entries pushed_capacity_range lim); [exact Hs|lia|done|lia|done| |]; cbn [mem obj].
    + intros b' s' Hb' Hs'. apply HQ; [done|]. cbn. unfold insert_at_place in Hs'. by rewrite Hz, Nat2Z.id, take_ge, drop_ge, app_nil_r in Hs' by done.
    + intros. by apply HE.
Qed.

Lemma push_cons front value values vs : pushed front values (insert_at_place (if front : bool then 0%nat else length vs) [value] vs) = pushed front (value :: values) vs.
Proof.
  unfold pushed, insert_at_place. destruct front; cbn [rev].
  - rewrite take_0, drop_0, <- app_assoc. done.
  - rewrite take_ge, drop_ge, app_nil_r, <- app_assoc by done. done.
Qed.

Lemma wp_push_small front values : forall r vs b (Q : unit -> world ListRep -> Prop) E,
  list_repr r vs -> (exists p, r = Small p) -> Forall storable values -> Z.of_nat (length vs) + Z.of_nat (length values) < 2 ^ 32 -> calm b ->
  (forall b' r', calm b' -> list_repr r' (pushed front values vs) -> Q tt (World b' r')) ->
  (lim -> forall e b' r' l, is_bad_alloc e = true -> list_repr r' l -> push_kept front values vs l -> E e (World b' r')) ->
  wp (push_small encoding compression listpack_max_entries junk pool_request pushed_capacity sizeof_segmented front values) Q E (World b r).
Proof.
  induction values as [|value values IH]; intros r vs b Q E Hr [p ->] Hv Hl Hb HQ HE; cbn [push_small].
  { apply wp_ret. apply HQ; [done|]. unfold pushed. destruct front; [done|by rewrite app_nil_r]. }
  assert (Hsame : push_kept front (value :: values) vs vs) by (left; exists 0%nat; unfold pushed; destruct front; [done|by rewrite app_nil_r]).
  assert (Hnone : push_kept front (value :: values) vs []) by (by right). pose proof Hv as Hv'. apply Forall_cons in Hv' as [Hval Hvs]. cbn [length] in Hl.
  apply wp_bind. eapply wp_list_size; [done|]. rewrite Nat2Z.id. apply wp_bind. eapply wp_small_insert; [done|destruct front; lia|done|done| | |by eauto].
  - intros b' r' Hb' Hr' Hsm. eapply IH; [done|done|done|rewrite length_insert_at_place; cbn [length]; lia|done| |].
    + intros b2 r2 Hb2 Hr2. apply HQ; [done|]. by rewrite push_cons in Hr2.
    + intros Hlim e b2 r2 l He Hr2 Hk. eapply HE; [done|done|done|]. destruct Hk as [[k ->]| ->]; [left; exists (S k); apply push_cons|by right].
  - intros b' Hb'. apply wp_bind. eapply wp_list_ensure_full; [done|done| |].
    + intros b2 s2 Hb2 Hs2. eapply wp_full_batch; [done|done|cbn [length]; lia|done|done|]. intros. by eapply HE.
    + intros Hlim e b2 r2 He [Hr2|Hr2]; by eapply HE.
Qed.

Lemma wp_push_many front values r vs b (Q : Z -> world ListRep -> Prop) E :
  list_repr r vs -> Forall storable values -> Z.of_nat (length vs) + Z.of_nat (length values) < 2 ^ 32 -> calm b ->
  (forall b' r', calm b' -> list_repr r' (pushed front values vs) -> Q (Z.of_nat (length (pushed front values vs))) (World b' r')) ->
  (lim -> forall e b' r' l, is_bad_alloc e = true -> list_repr r' l -> push_kept front values vs l -> E e (World b' r')) ->
  wp (push_many encoding compression listpack_max_entries junk pool_request pushed_capacity sizeof_segmented front values) Q E (World b r).
Proof.
  intros Hr Hv Hl Hb HQ HE. assert (Hsame : push_kept front values vs vs) by (left; exists 0%nat; unfold pushed; destruct front; [done|by rewrite app_nil_r]). assert (Hnone : push_kept front values vs []) by (by right).
  unfold push_many. destruct (Nat.eqb_spec (length values) 0) as [E0|E0].
  { destruct values; [|done]. eapply wp_list_size; [done|]. assert (Ep : pushed front [] vs = vs) by (unfold pushed; destruct front; [done|by rewrite app_nil_r]). rewrite Ep in HQ. by apply HQ. }
  apply wp_bind. eapply wp_list_size; [done|]. apply wp_bind, wp_obj_get. cbn [obj id].
  assert (Hfull : forall b' (Q' : unit -> world ListRep -> Prop), calm b' -> (forall b' r', calm b' -> list_repr r' (pushed front values vs) -> Q' tt (World b' r')) ->
    wp (ensure_full encoding compression junk pool_request pushed_capacity sizeof_segmented;; insert_full_batch encoding compression junk pool_request pushed_capacity values front) Q' E (World b' r)).
  { intros b' Q' Hb' HQ'. apply wp_bind. eapply wp_list_ensure_full; [done|done| |].
    - intros b2 s2 Hb2 Hs2. eapply wp_full_batch; [done|done|done|done|done|]. intros. by eapply HE.
    - intros Hlim e b2 r2 He [Hr2|Hr2]; by eapply HE. }
  assert (Hend : forall b' r', calm b' -> list_repr r' (pushed front values vs) -> wp list_size Q E (World b' r')) by (intros b' r' Hb' Hr'; eapply wp_list_size; [done|by apply HQ]).
  destruct r as [p|s].
  - apply wp_bind. destruct (_ <=? _); [|by apply Hfull]. eapply wp_push_small; [done|by eexists|done|done|done|done|done].
  - apply wp_seq, wp_bind. by apply Hfull.
Qed.

(** ** Becoming small again *)

Lemma wp_demote_loop s views l done_ packed b (Q : option ListListpack -> world ListRep -> Prop) E :
  Forall2 (fun v x => exists e, v = view_of encoding e /\ reads_as v x) views l -> holds encoding packed done_ -> (length done_ <= listpack_max_entries)%nat -> calm b ->
  (forall b' p', calm b' -> holds encoding p' (done_ ++ l) -> (length (done_ ++ l) <= listpack_max_entries)%nat -> Q (Some p') (World b' s)) -> (forall b', calm b' -> Q None (World b' s)) ->
  (forall b', calm b' -> E MaxMemoryExceeded (World b' s)) ->
  wp (demote_loop listpack_max_entries junk pool_request views packed) Q E (World b s).
Proof.
  intros HF. revert done_ packed b. induction HF as [|v x views l (e & -> & Hx) HF IH]; intros done_ packed b Hh Hn Hb HS HN HE; cbn [demote_loop].
  { apply wp_ret. rewrite app_nil_r in HS. by apply HS. }
  apply wp_bind. eapply wp_lift; [by apply listpack_reads_correct in Hh as (-> & _)|]. rewrite Nat2Z.id. pose proof Hh as (es & Hr & Hlen & HFe)%holds_repr.
  pose proof (insert_encoded_refines junk (length done_) (view_of encoding e) (Z.of_nat listpack_max_entries) kListListpackMaxBlobBytes packed es Hr ltac:(unfold kListListpackMaxBlobBytes; lia)) as H. rewrite (proj1 Hx) in H.
  unfold spec_insert in H. rewrite (proj2 (Z.leb_le _ _)) in H by lia. cbn [assert_ mbind result_bind] in H. apply wp_bind. revert H. destruct (_ || _) eqn:Ec; intros (p' & Hp & Hr'); (eapply wp_lift; [exact Hp|]); cbn beta iota; [apply wp_ret; by apply HN|].
  assert (Hh' : holds encoding p' (done_ ++ [x])).
  { eexists. split; [done|]. unfold insert_at. rewrite take_ge, drop_ge by lia. apply Forall2_app; [done|]. constructor; [by apply copied_entry_reads|constructor]. }
  apply wp_bind. eapply wp_mono; [apply (quiet_pool pool_request lim p' b s Hb)| |].
  - intros [] w (b' & -> & Hb' & _). eapply (IH (done_ ++ [x])); [done|rewrite length_app; cbn [length]; lia|done| |done|done]. rewrite <- app_assoc. done.
  - intros ex w (Hl & -> & b' & -> & Hb'). by apply HE.
Qed.

(** The views of a list are views of stored entries. *)
Lemma leaf_views p l : holds encoding p l -> exists views, for_each encoding p = Ret views /\ Forall2 (fun v x => exists e, v = view_of encoding e /\ reads_as v x) views l.
Proof.
  intros (es & Hr & Hlen & HF)%holds_repr. exists (view_of encoding <$> es). split.
  - unfold for_each. rewrite (unpack_repr _ _ Hr). cbn [mbind result_bind count]. rewrite Nat2Z.id. apply (views_all _ _ _ Hr [] es []). by rewrite app_nil_r.
  - apply Forall2_fmap_l. eapply Forall2_impl; [exact HF|]. intros e x He. by exists e.
Qed.

Lemma seg_views s vs : seg_repr s vs -> exists views, seg_for_each encoding s = Ret views /\ Forall2 (fun v x => exists e, v = view_of encoding e /\ reads_as v x) views vs.
Proof.
  intros (ls & [[HF _ _ _] _] & <- & _). unfold seg_for_each.
  enough (H : exists views, mapM (for_each encoding) (elems (leaves_ s)) = Ret views /\ Forall2 (fun v x => exists e, v = view_of encoding e /\ reads_as v x) (List.concat views) (mjoin ls)).
  { destruct H as (views & -> & H). by exists (List.concat views). }
  induction HF as [|p l ps ls Hp _ (views & IH & HI)]; [by exists []|]. change (mapM (for_each encoding) (p :: ps)) with (x ← for_each encoding p; xs ← mapM (for_each encoding) ps; Ret (x :: xs)).
  destruct (leaf_views p l (lo_holds _ _ _ _ Hp)) as (vs & -> & Hvs). rewrite IH. exists (vs :: views). split; [done|]. by apply Forall2_app.
Qed.

Lemma wp_list_demote s vs b (Q : unit -> world ListRep -> Prop) E :
  seg_repr s vs -> calm b -> (forall b' r', calm b' -> list_repr r' vs -> Q tt (World b' r')) ->
  wp (maybe_demote encoding listpack_max_entries junk pool_request) Q E (World b (Full s)).
Proof.
  intros Hs Hb HQ. unfold maybe_demote. apply wp_bind, wp_obj_get. cbn [obj id]. destruct (orb _ _) eqn:E0; [apply wp_ret; by apply HQ|]. apply wp_catch. destruct (seg_views s vs Hs) as (views & Ev & HF).
  apply wp_bind. eapply wp_lift; [exact Ev|]. apply wp_bind. eapply (wp_demote_loop (Full s) views vs [] None); [done|apply holds_none|cbn; lia|done| | |].
  - intros b' p' Hb' Hh Hn. apply wp_obj_mod. apply HQ; [done|]. split_and!; [done|by eapply seg_repr_storable|done].
  - intros b' Hb'. apply wp_ret. by apply HQ.
  - intros b' Hb'. cbn beta. rewrite bool_decide_eq_true_2 by done. apply wp_ret. by apply HQ.
Qed.

(** ** Replacing and removing *)

Lemma wp_list_set r vs index value b (Q : unit -> world ListRep -> Prop) E :
  list_repr r vs -> 0 <= index < Z.of_nat (length vs) -> storable value -> calm b ->
  (forall b' r', calm b' -> list_repr r' (<[Z.to_nat index := value]> vs) -> Q tt (World b' r')) ->
  (lim -> forall e b' r', is_bad_alloc e = true -> list_repr r' vs \/ list_repr r' [] -> E e (World b' r')) ->
  wp (list_set encoding compression junk pool_request pushed_capacity sizeof_segmented index value) Q E (World b r).
Proof.
  intros Hr Hi Hv Hb HQ HE. unfold list_set. apply wp_bind. eapply wp_list_size; [done|]. apply wp_bind, wp_require; [lia|]. apply wp_bind, wp_obj_get. cbn [obj id].
  assert (Hseg : forall b' s, calm b' -> seg_repr s vs -> wp (on_segmented (seg_set encoding compression leaf_entries junk pool_request index value)) Q E (World b' (Full s))).
  { intros b' s Hb' Hs. apply wp_on_segmented. eapply (wp_seg_set encoding compression leaf_entries junk pool_request default_leaf_entries lim); [done|done|done|done| |]; cbn [mem obj].
    - intros. by apply HQ.
    - intros. apply HE; [done|done|by left]. }
  destruct r as [p|s]; [|by apply Hseg]. pose proof Hr as (Hh & Hs & Hl). destruct (set_in_place_returns encoding compression p vs (Z.to_nat index) value Hh ltac:(lia) Hv) as [ip Hip]. apply wp_bind. eapply wp_lift; [done|].
  destruct (blob_set_ok encoding compression junk p vs (Z.to_nat index) value Hh ltac:(lia) Hv) as (ok & p' & Es & Hok). apply wp_bind. eapply wp_lift; [exact Es|]. cbn beta iota. apply wp_bind.
  eapply (wp_quiet lim _ (fun _ => True)); [apply quiet_when; [apply quiet_pool|done]|done| |by eauto]. intros _ b1 Hb1 _. apply wp_bind, wp_obj_mod. cbn [obj mem]. destruct ok.
  - apply wp_ret. apply HQ; [done|]. split_and!; [done|by apply Forall_insert|by rewrite length_insert].
  - subst p'. apply wp_bind. by eapply wp_list_ensure_full.
Qed.

Lemma wp_list_erase r vs index value b (Q : bytes -> world ListRep -> Prop) E :
  list_repr r vs -> 0 <= index -> vs !! Z.to_nat index = Some value -> calm b ->
  (forall b' r', calm b' -> list_repr r' (delete (Z.to_nat index) vs) -> Q value (World b' r')) ->
  (lim -> forall e b' r', is_bad_alloc e = true -> list_repr r' vs \/ list_repr r' (delete (Z.to_nat index) vs) -> E e (World b' r')) ->
  wp (list_erase encoding compression listpack_max_entries junk pool_request index) Q E (World b r).
Proof.
  intros Hr Hi Hv Hb HQ HE. pose proof (lookup_lt_Some _ _ _ Hv) as Hlt. unfold list_erase. apply wp_bind. eapply wp_list_size; [done|]. apply wp_bind, wp_require; [lia|]. apply wp_bind, wp_obj_get. cbn [obj id]. destruct r as [p|s].
  - pose proof Hr as (Hh & Hs & Hl). destruct (listpack_erase_correct junk encoding p vs Hh) as [Her _]. destruct (Her _ _ Hv) as (p' & Ep & Hp'). apply wp_bind. eapply wp_lift; [exact Ep|]. cbn beta iota. apply wp_bind.
    eapply (wp_quiet lim _ (fun _ => True)); [apply quiet_pool|done| |by eauto]. intros _ b1 Hb1 _. apply wp_bind, wp_obj_mod. apply wp_ret. apply HQ; [done|]. split_and!; [done|by apply Forall_delete|rewrite length_delete_lt by done; lia].
  - apply wp_bind. apply wp_on_segmented. eapply (wp_seg_erase encoding compression leaf_entries junk pool_request default_leaf_entries lim); [exact Hr|done|done|done| |]; cbn [mem obj].
    + intros b' s' Hb' Hs'. apply wp_bind. eapply wp_list_demote; [done|done|]. intros b2 r2 Hb2 Hr2. apply wp_ret. by apply HQ.
    + intros. by apply HE.
Qed.

Lemma wp_pop_endpoint r vs count front b (Q : list bytes -> world ListRep -> Prop) E :
  list_repr r vs -> 0 <= count -> calm b ->
  let k := Nat.min (Z.to_nat count) (length vs) in
  let popped := if front : bool then take k vs else rev (drop (length vs - k) vs) in
  let rest := if front then drop k vs else take (length vs - k) vs in
  (forall b' r', calm b' -> list_repr r' rest -> Q popped (World b' r')) ->
  (lim -> forall e b' r', is_bad_alloc e = true -> list_repr r' vs \/ list_repr r' rest -> E e (World b' r')) ->
  wp (pop_endpoint encoding compression listpack_max_entries junk pool_request count front) Q E (World b r).
Proof.
  intros Hr Hc Hb k popped rest HQ HE. unfold pop_endpoint. apply wp_bind. eapply wp_list_size; [done|]. replace (Z.min count (Z.of_nat (length vs))) with (Z.of_nat k) by lia.
  destruct (Z.eqb_spec (Z.of_nat k) 0) as [E0|E0].
  { apply wp_ret. assert (Hk : k = 0%nat) by lia. assert (Hsame : popped = [] /\ rest = vs) by (unfold popped, rest; rewrite Hk, Nat.sub_0_r; destruct front; [done|]; by rewrite drop_ge, take_ge).
    destruct Hsame as [Ep Er]. rewrite Ep, Er in HQ. by apply HQ. }
  set (first := if front then 0 else Z.of_nat (length vs) - Z.of_nat k). set (f := Z.to_nat first). assert (Hf : 0 <= first /\ (f + k <= length vs)%nat /\ (first = 0 \/ Z.of_nat (length vs) <= first + Z.of_nat k)) by (unfold f, first; destruct front; lia).
  destruct Hf as (Hf0 & Hfk & Hend). assert (Hrest : take f vs ++ drop (f + k) vs = rest).
  { unfold f, first, rest. destruct front; [done|]. replace (Z.to_nat (Z.of_nat (length vs) - Z.of_nat k)) with (length vs - k)%nat by lia. by rewrite drop_ge, app_nil_r by lia. }
  assert (Hpop : (if front then take k (drop f vs) else rev (take k (drop f vs))) = popped).
  { unfold f, first, popped. destruct front; [done|]. replace (Z.to_nat (Z.of_nat (length vs) - Z.of_nat k)) with (length vs - k)%nat by lia. by rewrite take_ge by (rewrite length_drop; lia). }
  apply wp_bind, wp_obj_get. cbn [obj id]. rewrite Nat2Z.id. destruct r as [p|s].
  - pose proof Hr as (Hh & Hs & Hl). destruct (listpack_reads_correct encoding p vs Hh) as (_ & _ & _ & Hrange & _). pose proof (holds_small _ _ _ Hh) as Hsmall. destruct (Hrange f k ltac:(lia)) as (views & Ev & HF). apply wp_bind, wp_bind. eapply wp_lift; [exact Ev|]. apply wp_bind. eapply wp_lift; [by apply mapM_strings|].
    destruct (listpack_erase_correct junk encoding p vs Hh) as [_ Her]. destruct (Her f k) as (p' & Ep & Hp'). rewrite Hrest in Hp'. apply wp_bind. eapply wp_lift; [exact Ep|]. apply wp_bind. eapply (wp_quiet lim _ (fun _ => True)); [apply quiet_pool|done| |by eauto].
    intros _ b1 Hb1 _. apply wp_bind, wp_obj_mod. apply wp_ret, wp_ret. rewrite Hpop. apply HQ; [done|]. rewrite <- Hrest in *. split_and!; [done|by apply Forall_app; split; [apply Forall_take|apply Forall_drop]|rewrite length_app, length_take, length_drop; lia].
  - destruct (seg_for_range_ok encoding compression leaf_entries default_leaf_entries lim s vs first (Z.of_nat k) Hr Hf0 ltac:(lia)) as (views & Ev & HF). rewrite Nat2Z.id in HF. apply wp_bind, wp_bind. eapply wp_lift; [exact Ev|]. apply wp_bind. eapply wp_lift; [by apply mapM_strings|].
    apply wp_bind, wp_on_segmented. eapply (wp_erase_endpoint encoding compression leaf_entries junk pool_request default_leaf_entries lim); [exact Hr|done|lia|done|done| |]; cbn [mem obj]; unfold erased; rewrite Nat2Z.id; fold f; rewrite Hrest.
    + intros b' s' Hb' Hs'. apply wp_bind. eapply wp_list_demote; [done|done|]. intros b2 r2 Hb2 Hr2. apply wp_ret, wp_ret. rewrite Hpop. by apply HQ.
    + intros. by apply HE.
Qed.

(** ** Reading *)

Lemma list_find_first_ok r vs value first :
  list_repr r vs -> 0 <= first -> list_find_first encoding value first r = Ret ((fun x => first + Z.of_nat x.1) <$> list_find (fun s => s = value) (drop (Z.to_nat first) vs)).
Proof.
  intros Hr Hf. destruct r as [p|s]; cbn [list_find_first]; [|by eapply (seg_find_first_ok encoding compression leaf_entries default_leaf_entries lim)].
  destruct Hr as (Hh & _ & _). destruct (listpack_reads_correct encoding p vs Hh) as (_ & _ & _ & _ & Hfind & _). rewrite Hfind. cbn [mbind result_bind]. f_equal. destruct (list_find _ _) as [[i x]|]; [|done]. cbn. f_equal. lia.
Qed.

Lemma list_find_last_ok r vs value stop :
  list_repr r vs -> 0 <= stop -> exists answer, list_find_last encoding value stop r = Ret (Z.of_nat <$> answer) /\ is_last value (take (Z.to_nat stop) vs) (length (take (Z.to_nat stop) vs)) answer.
Proof.
  intros Hr Hst. assert (Ht : take (Z.to_nat (Z.min stop (Z.of_nat (length vs)))) vs = take (Z.to_nat stop) vs) by (destruct (Z.min_spec stop (Z.of_nat (length vs))) as [[? ->]|[? ->]]; [done|]; rewrite !take_ge by lia; done).
  destruct r as [p|s]; cbn [list_find_last].
  - destruct Hr as (Hh & _ & _). destruct (listpack_reads_correct encoding p vs Hh) as (-> & _ & _ & _ & _ & Hfind). cbn [mbind result_bind]. destruct (Hfind value (Z.to_nat (Z.min stop (Z.of_nat (length vs))))) as (answer & -> & Hl). cbn [mbind result_bind]. rewrite Ht in Hl. by exists answer.
  - rewrite (seg_repr_size _ _ Hr), <- Ht. by eapply (seg_find_last_ok encoding compression leaf_entries pool_request default_leaf_entries lim); [|lia].
Qed.

(** ** Removing by value *)

Lemma delete_middle_at {A} (a c : list A) x i : i = length a -> delete i (a ++ x :: c) = a ++ c.
Proof. intros ->. apply delete_middle. Qed.

Lemma wp_remove_forward value limit fuel : forall r pre suf removed b (Q : Z -> world ListRep -> Prop) E,
  list_repr r (pre ++ suf) -> 0 <= removed <= limit -> (length suf < fuel)%nat -> calm b ->
  (forall b' r', calm b' -> list_repr r' (pre ++ lrem_head (Z.to_nat (limit - removed)) value suf) -> Q (removed + Z.of_nat (length suf - length (lrem_head (Z.to_nat (limit - removed)) value suf))) (World b' r')) ->
  (lim -> forall e b' r' k, is_bad_alloc e = true -> list_repr r' (pre ++ lrem_head k value suf) -> E e (World b' r')) ->
  wp (remove_forward encoding compression listpack_max_entries junk pool_request fuel value limit removed (Z.of_nat (length pre))) Q E (World b r).
Proof.
  induction fuel as [|fuel IH]; intros r pre suf removed b Q E Hr Hrm Hf Hb HQ HE; [lia|]. cbn [remove_forward]. destruct (Z.ltb_spec removed limit) as [Hlt|Hge].
  2: { apply wp_ret. replace (limit - removed) with 0 in HQ by lia. rewrite lrem_head_0, Nat.sub_diag, Z.add_0_r in HQ. by apply HQ. }
  apply wp_bind, wp_obj_get. cbn [obj id]. apply wp_bind. eapply wp_lift; [apply list_find_first_ok; [exact Hr|lia]|]. rewrite Nat2Z.id, drop_app_length.
  destruct (list_find (fun s => s = value) suf) as [[j x]|] eqn:Ef; cbn [fmap option_fmap option_map fst].
  - destruct (find_split _ _ _ _ Ef) as (a & c & -> & Hj & Ha). set (n := Z.to_nat (limit - removed - 1)). replace (Z.to_nat (limit - removed)) with (S n) in HQ by lia. rewrite lrem_head_found in HQ by done.
    assert (Hi : Z.to_nat (Z.of_nat (length pre) + Z.of_nat j) = length (pre ++ a)) by (rewrite length_app; lia). rewrite app_assoc in Hr. rewrite length_app in Hf. cbn [length] in Hf.
    apply wp_bind. eapply wp_list_erase; [exact Hr|lia|rewrite Hi; by apply list_lookup_middle|done| |]; rewrite (delete_middle_at _ _ _ _ Hi).
    + intros b' r' Hb' Hr'. replace (Z.of_nat (length pre) + Z.of_nat j) with (Z.of_nat (length (pre ++ a))) by lia. eapply (IH r' (pre ++ a) c); [done|lia|lia|done| |].
      * intros b2 r2 Hb2 Hr2. replace (limit - (removed + 1)) with (limit - removed - 1) in * by lia. fold n in Hr2 |- *. rewrite <- app_assoc in Hr2. specialize (HQ b2 r2 Hb2 Hr2). rewrite !length_app in HQ. cbn [length] in HQ.
        replace (removed + 1 + Z.of_nat (length c - length (lrem_head n value c))) with (removed + Z.of_nat (length a + S (length c) - (length a + length (lrem_head n value c)))); [done|].
        pose proof (lrem_head_length n value c). lia.
      * intros Hlim e b2 r2 k He Hr2. apply (HE Hlim e b2 r2 (S k) He). rewrite lrem_head_found by done. by rewrite app_assoc.
    + intros Hlim e b' r' He [Hr'|Hr']; [apply (HE Hlim e b' r' 0%nat He)|apply (HE Hlim e b' r' 1%nat He)]; [by rewrite lrem_head_0, app_assoc|]. rewrite lrem_head_found, lrem_head_0 by done. by rewrite app_assoc.
  - assert (Hn : value ∉ suf). { intros [i Hi]%list_elem_of_lookup. apply list_find_None in Ef. by apply (Forall_lookup_1 _ _ _ _ Ef Hi). }
    apply wp_ret. rewrite lrem_head_none, Nat.sub_diag, Z.add_0_r in HQ by done. by apply HQ.
Qed.

Lemma wp_remove_backward value limit fuel : forall r pre suf removed b (Q : Z -> world ListRep -> Prop) E,
  list_repr r (pre ++ suf) -> 0 <= removed <= limit -> (length pre < fuel)%nat -> calm b ->
  (forall b' r', calm b' -> list_repr r' (lrem_tail (Z.to_nat (limit - removed)) value pre ++ suf) -> Q (removed + Z.of_nat (length pre - length (lrem_tail (Z.to_nat (limit - removed)) value pre))) (World b' r')) ->
  (lim -> forall e b' r' k, is_bad_alloc e = true -> list_repr r' (lrem_tail k value pre ++ suf) -> E e (World b' r')) ->
  wp (remove_backward encoding compression listpack_max_entries junk pool_request fuel value limit removed (Z.of_nat (length pre))) Q E (World b r).
Proof.
  induction fuel as [|fuel IH]; intros r pre suf removed b Q E Hr Hrm Hf Hb HQ HE; [lia|]. cbn [remove_backward]. destruct (Z.ltb_spec removed limit) as [Hlt|Hge].
  2: { apply wp_ret. replace (limit - removed) with 0 in HQ by lia. rewrite lrem_tail_0, Nat.sub_diag, Z.add_0_r in HQ. by apply HQ. }
  apply wp_bind, wp_obj_get. cbn [obj id]. apply wp_bind. destruct (list_find_last_ok r _ value (Z.of_nat (length pre)) Hr ltac:(lia)) as (answer & El & Hlast). eapply wp_lift; [exact El|]. rewrite Nat2Z.id, take_app_length in Hlast.
  destruct answer as [j|]; cbn [fmap option_fmap option_map].
  - destruct (last_split _ _ _ Hlast) as (a & c & -> & Hj & Hc). set (n := Z.to_nat (limit - removed - 1)). replace (Z.to_nat (limit - removed)) with (S n) in HQ by lia. rewrite lrem_tail_found in HQ by done.
    assert (Hi : Z.to_nat (Z.of_nat j) = length a) by lia. rewrite <- app_assoc in Hr. cbn [app] in Hr. rewrite length_app in Hf. cbn [length] in Hf.
    apply wp_bind. eapply wp_list_erase; [exact Hr|lia|rewrite Hi; by apply list_lookup_middle|done| |]; rewrite (delete_middle_at _ _ _ _ Hi).
    + intros b' r' Hb' Hr'. rewrite <- Hj. eapply (IH r' a (c ++ suf)); [done|lia|lia|done| |].
      * intros b2 r2 Hb2 Hr2. replace (limit - (removed + 1)) with (limit - removed - 1) in * by lia. fold n in Hr2 |- *. rewrite app_assoc in Hr2. specialize (HQ b2 r2 Hb2 Hr2). rewrite !length_app in HQ. cbn [length] in HQ. pose proof (lrem_tail_length n value a).
        replace (removed + 1 + Z.of_nat (length a - length (lrem_tail n value a))) with (removed + Z.of_nat (length a + S (length c) - (length (lrem_tail n value a) + length c))) by lia. done.
      * intros Hlim e b2 r2 k He Hr2. apply (HE Hlim e b2 r2 (S k) He). rewrite lrem_tail_found by done. by rewrite <- app_assoc.
    + intros Hlim e b' r' He [Hr'|Hr']; [apply (HE Hlim e b' r' 0%nat He)|apply (HE Hlim e b' r' 1%nat He)]; [by rewrite lrem_tail_0, <- app_assoc|]. rewrite lrem_tail_found, lrem_tail_0 by done. by rewrite <- app_assoc.
  - assert (Hn : value ∉ pre). { intros [i Hi]%list_elem_of_lookup. apply (Hlast i); [by apply lookup_lt_Some in Hi|done]. }
    apply wp_ret. rewrite lrem_tail_none, Nat.sub_diag, Z.add_0_r in HQ by done. by apply HQ.
Qed.

(** [LREM]: from the head, from the tail, or everywhere. *)
Definition lrem (count : Z) (value : bytes) (l : list bytes) : list bytes :=
  if count =? 0 then lrem_head (length l) value l else if 0 <? count then lrem_head (Z.to_nat count) value l else lrem_tail (Z.to_nat (- count)) value l.

Lemma lrem_head_all n m value l : (length l <= n)%nat -> (length l <= m)%nat -> lrem_head n value l = lrem_head m value l.
Proof.
  revert n m. induction l as [|x l IH]; intros n m Hn Hm; [done|]. cbn [lrem_head length] in *. case_bool_decide; [destruct n, m; try lia; apply IH; lia|]. f_equal. apply IH; lia.
Qed.
Lemma lrem_tail_all n m value l : (length l <= n)%nat -> (length l <= m)%nat -> lrem_tail n value l = lrem_tail m value l.
Proof. intros Hn Hm. unfold lrem_tail. f_equal. apply lrem_head_all; by rewrite length_rev. Qed.

Lemma wp_list_remove value count r vs b (Q : Z -> world ListRep -> Prop) E :
  list_repr r vs -> - 2 ^ 63 <= count < 2 ^ 63 -> calm b ->
  (forall b' r', calm b' -> list_repr r' (lrem count value vs) -> Q (Z.of_nat (length vs) - Z.of_nat (length (lrem count value vs))) (World b' r')) ->
  (lim -> forall e b' r' l, is_bad_alloc e = true -> list_repr r' l -> (exists k, l = lrem_head k value vs \/ l = lrem_tail k value vs) -> E e (World b' r')) ->
  wp (list_remove encoding compression listpack_max_entries junk pool_request value count) Q E (World b r).
Proof.
  intros Hr Hc Hb HQ HE. pose proof (list_repr_small _ _ Hr) as Hsm. unfold list_remove. apply wp_bind. eapply wp_list_size; [done|]. rewrite Nat2Z.id. unfold lrem in HQ. destruct (Z.leb_spec 0 count) as [H0|H0].
  - set (limit := if count =? 0 then u64_max else count). assert (Hl : lrem_head (Z.to_nat (limit - 0)) value vs = (if count =? 0 then lrem_head (length vs) value vs else if 0 <? count then lrem_head (Z.to_nat count) value vs else lrem_tail (Z.to_nat (- count)) value vs)).
    { unfold limit, u64_max. destruct (Z.eqb_spec count 0) as [->|]; [apply lrem_head_all; lia|]. replace (0 <? count) with true by lia. by rewrite Z.sub_0_r. }
    rewrite <- Hl in HQ. pose proof (lrem_head_length (Z.to_nat (limit - 0)) value vs). eapply (wp_remove_forward value limit _ r [] vs 0); [done|unfold limit, u64_max; destruct (count =? 0); lia|lia|done| |].
    + intros b' r' Hb' Hr'. replace (0 + Z.of_nat _) with (Z.of_nat (length vs) - Z.of_nat (length (lrem_head (Z.to_nat (limit - 0)) value vs))) by lia. by apply HQ.
    + intros Hlim e b' r' k He Hr'. eapply (HE Hlim e); [done|done|]. by exists k; left.
  - set (limit := if count =? - 2 ^ 63 then u64_max else - count). assert (Hl : lrem_tail (Z.to_nat (limit - 0)) value vs = (if count =? 0 then lrem_head (length vs) value vs else if 0 <? count then lrem_head (Z.to_nat count) value vs else lrem_tail (Z.to_nat (- count)) value vs)).
    { replace (count =? 0) with false by lia. replace (0 <? count) with false by lia. unfold limit, u64_max. destruct (Z.eqb_spec count (- 2 ^ 63)) as [->|]; [apply lrem_tail_all; lia|]. by rewrite Z.sub_0_r. }
    rewrite <- Hl in HQ. pose proof (lrem_tail_length (Z.to_nat (limit - 0)) value vs). eapply (wp_remove_backward value limit _ r vs [] 0); [by rewrite app_nil_r|unfold limit, u64_max; destruct (count =? - 2 ^ 63); lia|lia|done| |]; setoid_rewrite app_nil_r.
    + intros b' r' Hb' Hr'. replace (0 + Z.of_nat _) with (Z.of_nat (length vs) - Z.of_nat (length (lrem_tail (Z.to_nat (limit - 0)) value vs))) by lia. by apply HQ.
    + intros Hlim e b' r' k He Hr'. eapply (HE Hlim e); [done|done|]. by exists k; right.
Qed.

(** ** Trimming *)

(** A part of the list without gaps. *)
Definition part_of (l vs : list bytes) : Prop := exists i j, l = take j (drop i vs).

Lemma part_of_refl vs : part_of vs vs.
Proof. exists 0%nat, (length vs). by rewrite drop_0, take_ge. Qed.
Lemma part_of_take n l vs : part_of l vs -> part_of (take n l) vs.
Proof. intros (i & j & ->). exists i, (Nat.min n j). by rewrite take_take. Qed.
Lemma part_of_drop n l vs : part_of l vs -> part_of (drop n l) vs.
Proof. intros (i & j & ->). exists (i + n)%nat, (j - n)%nat. by rewrite skipn_firstn_comm, drop_drop. Qed.

Lemma delete_last {A} (l : list A) i : S i = length l -> delete i l = take i l.
Proof. intros H. rewrite delete_take_drop, (drop_ge l) by lia. apply app_nil_r. Qed.

Section trimming.
Variables (vs : list bytes) (E : exn -> world ListRep -> Prop).
Hypothesis HE : lim -> forall e b' r' l, is_bad_alloc e = true -> list_repr r' l -> part_of l vs -> E e (World b' r').

Lemma wp_trim_back keep_end fuel : forall r l b (Q : unit -> world ListRep -> Prop),
  list_repr r l -> part_of l vs -> 0 <= keep_end -> (length l <= fuel)%nat -> calm b -> (forall b' r', calm b' -> list_repr r' (take (Z.to_nat keep_end) l) -> Q tt (World b' r')) ->
  wp (trim_back encoding compression listpack_max_entries junk pool_request fuel keep_end) Q E (World b r).
Proof.
  induction fuel as [|fuel IH]; intros r l b Q Hr Hp Hk Hf Hb HQ; cbn [trim_back]; apply wp_bind; (eapply wp_list_size; [done|]); destruct (Z.ltb_spec keep_end (Z.of_nat (length l))) as [Hlt|Hge]; try lia;
    try (apply wp_ret; apply HQ; [done|]; by rewrite take_ge by lia).
  destruct (lookup_lt_is_Some_2 l (Z.to_nat (Z.of_nat (length l) - 1)) ltac:(lia)) as [x Hx]. apply wp_bind. eapply wp_list_erase; [done|lia|exact Hx|done| |]; rewrite delete_last by lia.
  - intros b' r' Hb' Hr'. eapply IH; [done|by apply part_of_take|done|rewrite length_take; lia|done|]. intros b2 r2 Hb2 Hr2. apply HQ; [done|]. rewrite take_take in Hr2. by rewrite Nat.min_l in Hr2 by lia.
  - intros Hlim e b' r' He [Hr'|Hr']; (eapply HE; [done|done|done|]); [done|by apply part_of_take].
Qed.

Lemma wp_trim_front fuel : forall first r l b (Q : unit -> world ListRep -> Prop),
  list_repr r l -> part_of l vs -> 0 <= first -> (length l <= fuel)%nat -> calm b -> (forall b' r', calm b' -> list_repr r' (drop (Z.to_nat first) l) -> Q tt (World b' r')) ->
  wp (trim_front encoding compression listpack_max_entries junk pool_request fuel first) Q E (World b r).
Proof.
  induction fuel as [|fuel IH]; intros first r l b Q Hr Hp Hk Hf Hb HQ; cbn [trim_front]; apply wp_bind; (eapply wp_list_size; [done|]); destruct (negb (first =? 0) && negb (Z.of_nat (length l) =? 0)) eqn:Ec; try lia;
    try (apply wp_ret; apply HQ; [done|]; destruct (decide (first = 0)) as [->|]; [by rewrite drop_0|]; destruct l; [by rewrite drop_nil|cbn [length] in Ec; lia]).
  destruct l as [|x l]; [cbn in Ec; lia|]. apply wp_bind. eapply wp_list_erase; [done|lia|done|done| |]; change (delete (Z.to_nat 0) (x :: l)) with l.
  - intros b' r' Hb' Hr'. eapply IH; [done|by apply (part_of_drop 1 (x :: l))|lia|cbn in Hf; lia|done|]. intros b2 r2 Hb2 Hr2. apply HQ; [done|]. replace (Z.to_nat first) with (S (Z.to_nat (first - 1))) by lia. exact Hr2.
  - intros Hlim e b' r' He [Hr'|Hr']; (eapply HE; [done|done|done|]); [done|by apply (part_of_drop 1 (x :: l))].
Qed.

Lemma wp_list_trim r first count b (Q : unit -> world ListRep -> Prop) :
  list_repr r vs -> 0 <= first -> 0 <= count -> calm b -> (forall b' r', calm b' -> list_repr r' (take (Z.to_nat count) (drop (Z.to_nat first) vs)) -> Q tt (World b' r')) ->
  wp (list_trim encoding compression listpack_max_entries junk pool_request first count) Q E (World b r).
Proof.
  intros Hr Hf Hc Hb HQ. unfold list_trim. apply wp_bind. eapply wp_list_size; [done|]. rewrite Nat2Z.id. set (keep_end := if _ <? count then _ else _). assert (Hk : 0 <= keep_end) by (unfold keep_end; destruct (_ <? count); lia).
  apply wp_bind. eapply wp_trim_back; [done|apply part_of_refl|done|done|done|]. intros b1 r1 Hb1 Hr1. apply wp_bind. eapply wp_list_size; [done|]. rewrite Nat2Z.id. eapply wp_trim_front; [done|apply part_of_take, part_of_refl|done|done|done|].
  intros b2 r2 Hb2 Hr2. apply HQ; [done|]. rewrite skipn_firstn_comm in Hr2. unfold keep_end in Hr2. destruct (Z.ltb_spec (Z.of_nat (length vs) - Z.min first (Z.of_nat (length vs))) count) as [H|H].
  - rewrite take_ge in * by (rewrite length_drop; lia). done.
  - by replace (Z.to_nat (first + count) - Z.to_nat first)%nat with (Z.to_nat count) in Hr2 by lia.
Qed.
End trimming.

(** ** Building a list anew *)

Lemma empty_full : list_repr (Full empty_segmented) [].
Proof. exists []. split_and!; [|done|done]. split; [|by left]. split; [constructor|constructor|done|]. split; [done|done|right; left; cbn; lia]. Qed.

Lemma wp_list_init_empty b r (Q : unit -> world ListRep -> Prop) E :
  calm b -> (forall b' r', calm b' -> list_repr r' [] -> Q tt (World b' r')) -> (lim -> forall e b', is_bad_alloc e = true -> E e (World b' r)) ->
  wp (init_empty listpack_max_entries sizeof_segmented) Q E (World b r).
Proof.
  intros Hb HQ HE. unfold init_empty. destruct (_ =? 0)%nat; [|apply wp_obj_mod; apply HQ; [done|apply empty_small]].
  apply wp_bind. eapply (wp_quiet lim _ (fun _ => True)); [apply quiet_ensure|done| |done]. intros _ b' Hb' _. apply wp_obj_mod. apply HQ; [done|apply empty_full].
Qed.

Lemma wp_fresh_list (m : M (world ListRep) unit) r values b (Q : unit -> world ListRep -> Prop) E :
  calm b ->
  (forall b' r', calm b' -> list_repr r' [] -> wp m (fun _ w => calm (mem w) /\ list_repr (obj w) values) (fun e _ => lim /\ is_bad_alloc e = true) (World b' r')) ->
  (forall b' r', calm b' -> list_repr r' values -> Q tt (World b' r')) -> (lim -> forall e b', is_bad_alloc e = true -> E e (World b' r)) ->
  wp (fresh_list listpack_max_entries sizeof_segmented m) Q E (World b r).
Proof.
  intros Hb Hm HQ HE. unfold fresh_list. apply wp_bind, wp_local. cbn [mem obj]. apply wp_bind. eapply wp_list_init_empty; [done| |by eauto]. intros b1 r1 Hb1 Hr1. eapply wp_mono; [by apply Hm| |].
  - intros [] [b2 r2] [Hb2 Hr2]. cbn [mem obj] in *. apply wp_obj_mod. by apply HQ.
  - intros e [b2 r2] [Hl He]. cbn [mem obj]. by apply HE.
Qed.

Lemma wp_list_assign r values b (Q : unit -> world ListRep -> Prop) E :
  Forall storable values -> Z.of_nat (length values) < 2 ^ 32 -> calm b -> (forall b' r', calm b' -> list_repr r' values -> Q tt (World b' r')) -> (lim -> forall e b', is_bad_alloc e = true -> E e (World b' r)) ->
  wp (list_assign encoding compression listpack_max_entries junk pool_request pushed_capacity sizeof_segmented values) Q E (World b r).
Proof.
  intros Hv Hl Hb HQ HE. unfold list_assign. eapply wp_fresh_list; [done| |done|done]. intros b' r' Hb' Hr'. apply wp_bind. eapply wp_push_many; [done|done|cbn; lia|done| |].
  - intros b2 r2 Hb2 Hr2. apply wp_ret. done.
  - intros. done.
Qed.

Lemma wp_list_assign_raw r values b (Q : unit -> world ListRep -> Prop) E :
  Forall storable values -> Forall (fun v => Z.of_nat (length v) <= 65534) values -> Z.of_nat (length values) < 2 ^ 32 -> calm b ->
  (forall b' r', calm b' -> list_repr r' values -> Q tt (World b' r')) -> (lim -> forall e b', is_bad_alloc e = true -> E e (World b' r)) ->
  wp (list_assign_raw encoding compression listpack_max_entries junk pool_request pushed_capacity sizeof_segmented values) Q E (World b r).
Proof.
  intros Hv Hs Hl Hb HQ HE. unfold list_assign_raw. eapply wp_fresh_list; [done| |done|done]. intros b1 r1 Hb1 Hr1. destruct (Nat.eqb_spec (length values) 0) as [E0|E0]; [apply wp_ret; by destruct values|].
  apply wp_bind, wp_obj_get. cbn [obj id]. apply wp_bind.
  assert (Hfull : forall b2, calm b2 -> wp (ensure_full encoding compression junk pool_request pushed_capacity sizeof_segmented;; on_segmented (assign_raw_values leaf_entries junk pool_request pushed_capacity values))
    (fun _ w => calm (mem w) /\ list_repr (obj w) values) (fun e _ => lim /\ is_bad_alloc e = true) (World b2 r1)).
  { intros b2 Hb2. apply wp_bind. eapply wp_list_ensure_full; [done|done| |done]. intros b3 s3 Hb3 Hs3. apply wp_on_segmented.
    eapply (wp_assign_with encoding compression leaf_entries pushed_capacity default_leaf_entries pushed_capacity_range lim); [by eapply repr_caps|done|done|done|by apply (quiet_raw_leaves _ _ _ _ default_leaf_entries)|done|done]. }
  destruct r1 as [p|s1]; [|apply wp_ret; by apply Hfull]. destruct (Nat.leb_spec (length values) listpack_max_entries) as [Hn|Hn]; [|apply wp_ret; by apply Hfull].
  destruct Hr1 as (Hh & _ & _). pose proof Hh as (es & Hr & Hlen & _)%holds_repr. destruct es; [|done].
  pose proof (assign_raw_refines junk values (Z.of_nat listpack_max_entries) kListListpackMaxBlobBytes p [] Hr ltac:(unfold kListListpackMaxBlobBytes; lia)) as Hx. unfold spec_assign in Hx. destruct (_ || _ || _) in Hx; destruct Hx as (p' & Ep & Hr').
  - apply wp_bind. eapply wp_lift; [exact Ep|]. cbn beta iota. apply wp_bind, wp_ret. apply wp_bind, wp_obj_mod. apply wp_ret. cbn [mem obj]. assert (p' = p) as -> by (by eapply repr_unique). by apply Hfull.
  - apply wp_bind. eapply wp_lift; [exact Ep|]. cbn beta iota. apply wp_bind. eapply (wp_quiet lim _ (fun _ => True)); [apply quiet_pool|done| |done]. intros _ b2 Hb2 _. apply wp_bind, wp_obj_mod. apply wp_ret, wp_ret. cbn [mem obj]. split; [done|]. split_and!; [|done|done].
    eexists. split; [done|]. apply Forall2_fmap_l, Forall_Forall2_diag. eapply Forall_impl; [exact Hs|]. intros v Hv'. by apply raw_entry_reads.
Qed.

Lemma wp_list_compact r vs allowed fuel b (Q : bool -> world ListRep -> Prop) E :
  list_repr r vs -> calm b -> (forall finished b' r', calm b' -> list_repr r' vs -> Q finished (World b' r')) -> (lim -> forall e b' r', is_bad_alloc e = true -> list_repr r' vs -> E e (World b' r')) ->
  wp (list_compact encoding compression listpack_max_entries junk pool_request allowed fuel) Q E (World b r).
Proof.
  intros Hr Hb HQ HE. unfold list_compact. apply wp_bind, wp_obj_get. cbn [obj id]. destruct r as [p|s]; [apply wp_ret; by apply HQ|]. destruct allowed; cbn [negb]; [|apply wp_ret; by apply HQ].
  apply wp_bind, wp_on_segmented. eapply (wp_seg_compact encoding compression leaf_entries junk pool_request default_leaf_entries lim); [exact Hr|done| |]; cbn [mem obj].
  - intros [|] b' s' Hb' Hs'; [|apply wp_ret; by apply HQ]. apply wp_bind. eapply wp_list_demote; [done|done|]. intros b2 r2 Hb2 Hr2. apply wp_ret. by apply HQ.
  - intros. by apply HE.
Qed.

(** ** The properties *)

(** [m] ends with a list and an answer [after] allows, or, only under a memory limit, with an allocation that
    was refused and a list [kept] allows. *)
Definition list_follows {A} (m : M (world ListRep) A) (w : world ListRep) (after : A -> list bytes -> Prop) (kept : list bytes -> Prop) : Prop :=
  wp m (fun a w' => calm (mem w') /\ exists vs, list_repr (obj w') vs /\ after a vs) (fun e w' => lim /\ is_bad_alloc e = true /\ exists vs, list_repr (obj w') vs /\ kept vs) w.

Ltac list_ends :=
  first
    [ done
    | intros; split; [done|]; eexists; split; [eassumption|]; (reflexivity || (split; reflexivity))
    | intros; split_and!; [done|done|]; repeat match goal with H : _ \/ _ |- _ => destruct H end; eexists; (split; [eassumption|]); tauto ].

(** C15: a Redis list keeps its values across its two representations.  Inserting, pushing several values at an end, replacing,
    removing one, popping several at an end, [LREM], [LTRIM], building the list anew and packing it end in the list that
    the command means, with the answer it means, whether the list grows out of the compact form or shrinks back into
    it.  They fail only when a memory limit refuses an allocation; then a push may have pushed some of the values, a
    removal may have happened, and an insertion, a push or a replacement that had to leave the compact form may have
    emptied the list. *)
Theorem list_value_refines w vs :
  (lim <-> ~ unlimited (mem w)) -> list_repr (obj w) vs ->
  (forall index value, 0 <= index <= Z.of_nat (length vs) -> storable value -> Z.of_nat (length vs) + 1 < 2 ^ 32 ->
     list_follows (list_insert encoding compression listpack_max_entries junk pool_request pushed_capacity sizeof_segmented index value) w
       (fun _ l => l = insert_at_place (Z.to_nat index) [value] vs) (fun l => l = vs \/ l = [])) /\
  (forall front values, Forall storable values -> Z.of_nat (length vs) + Z.of_nat (length values) < 2 ^ 32 ->
     list_follows (push_many encoding compression listpack_max_entries junk pool_request pushed_capacity sizeof_segmented front values) w
       (fun n l => n = Z.of_nat (length (pushed front values vs)) /\ l = pushed front values vs) (push_kept front values vs)) /\
  (forall index value, 0 <= index < Z.of_nat (length vs) -> storable value ->
     list_follows (list_set encoding compression junk pool_request pushed_capacity sizeof_segmented index value) w (fun _ l => l = <[Z.to_nat index := value]> vs) (fun l => l = vs \/ l = [])) /\
  (forall index value, 0 <= index -> vs !! Z.to_nat index = Some value ->
     list_follows (list_erase encoding compression listpack_max_entries junk pool_request index) w (fun a l => a = value /\ l = delete (Z.to_nat index) vs) (fun l => l = vs \/ l = delete (Z.to_nat index) vs)) /\
  (forall count (front : bool), 0 <= count -> let k := Nat.min (Z.to_nat count) (length vs) in
     let rest := if front then drop k vs else take (length vs - k) vs in
     list_follows (pop_endpoint encoding compression listpack_max_entries junk pool_request count front) w
       (fun a l => a = (if front then take k vs else rev (drop (length vs - k) vs)) /\ l = rest) (fun l => l = vs \/ l = rest)) /\
  (forall value count, - 2 ^ 63 <= count < 2 ^ 63 ->
     list_follows (list_remove encoding compression listpack_max_entries junk pool_request value count) w
       (fun n l => n = Z.of_nat (length vs) - Z.of_nat (length (lrem count value vs)) /\ l = lrem count value vs) (fun l => exists k, l = lrem_head k value vs \/ l = lrem_tail k value vs)) /\
  (forall first count, 0 <= first -> 0 <= count ->
     list_follows (list_trim encoding compression listpack_max_entries junk pool_request first count) w (fun _ l => l = take (Z.to_nat count) (drop (Z.to_nat first) vs)) (fun l => part_of l vs)) /\
  (forall values, Forall storable values -> Z.of_nat (length values) < 2 ^ 32 ->
     list_follows (list_assign encoding compression listpack_max_entries junk pool_request pushed_capacity sizeof_segmented values) w (fun _ l => l = values) (fun l => l = vs)) /\
  (forall values, Forall storable values -> Forall (fun v => Z.of_nat (length v) <= 65534) values -> Z.of_nat (length values) < 2 ^ 32 ->
     list_follows (list_assign_raw encoding compression listpack_max_entries junk pool_request pushed_capacity sizeof_segmented values) w (fun _ l => l = values) (fun l => l = vs)) /\
  (forall allowed fuel, list_follows (list_compact encoding compression listpack_max_entries junk pool_request allowed fuel) w (fun _ l => l = vs) (fun l => l = vs)).
Proof.
  intros Hlim Hr. destruct (unlimited_calm _ _ Hlim) as [Hb _]. destruct w as [b r]. cbn [mem obj] in *. unfold list_follows. split_and!.
  - intros index value Hi Hv Hl. eapply wp_list_insert; list_ends.
  - intros front values Hv Hl. eapply wp_push_many; list_ends.
  - intros index value Hi Hv. eapply wp_list_set; list_ends.
  - intros index value Hi Hv. eapply wp_list_erase; list_ends.
  - intros count front Hc. eapply wp_pop_endpoint; list_ends.
  - intros value count Hc. eapply wp_list_remove; list_ends.
  - intros first count Hf Hc. eapply (wp_list_trim vs); list_ends.
  - intros values Hv Hl. eapply wp_list_assign; list_ends.
  - intros values Hv Hv' Hl. eapply wp_list_assign_raw; list_ends.
  - intros allowed fuel. eapply wp_list_compact; list_ends.
Qed.

(** The value at an index, and the values of a range. *)
Lemma list_at_ok r vs index value : list_repr r vs -> 0 <= index -> vs !! Z.to_nat index = Some value -> exists v, list_at encoding index r = Ret v /\ reads_as v value.
Proof.
  intros Hr Hi Hv. destruct r as [p|s].
  - destruct Hr as (Hh & _ & _). destruct (listpack_reads_correct encoding p vs Hh) as (_ & Hat & _). by apply Hat.
  - by eapply (seg_at_ok encoding compression leaf_entries pool_request default_leaf_entries lim).
Qed.

Lemma list_for_range_ok r vs first n : list_repr r vs -> 0 <= first -> 0 <= n -> first + n < 2 ^ 64 ->
  exists views, list_for_range encoding first n r = Ret views /\ Forall2 reads_as views (take (Z.to_nat n) (drop (Z.to_nat first) vs)).
Proof.
  intros Hr Hf H0 Hsum. destruct r as [p|s]; cbn [list_for_range].
  - destruct Hr as (Hh & _ & _). destruct (listpack_reads_correct encoding p vs Hh) as (Hn & _ & _ & Hrange & _). rewrite Hn. cbn [mbind result_bind]. destruct (Z.leb_spec (Z.of_nat (length vs)) first) as [H|H]; [|apply Hrange; lia].
    exists []. rewrite drop_ge by lia. by rewrite take_nil.
  - rewrite (seg_repr_size _ _ Hr). destruct (Z.leb_spec (Z.of_nat (length vs)) first) as [H|H]; [exists []; rewrite drop_ge by lia; by rewrite take_nil|]. by eapply (seg_for_range_ok encoding compression leaf_entries default_leaf_entries lim).
Qed.

(** Reading a list.  In both representations the value at an index, all values, the values of a range, the first occurrence
    of a value from a place on and the last before a place are those of the list, and the code's check of its own
    invariants succeeds. *)
Theorem list_value_reads r vs :
  list_repr r vs ->
  (forall index value, 0 <= index -> vs !! Z.to_nat index = Some value -> exists v, list_at encoding index r = Ret v /\ reads_as v value) /\
  (exists views, list_for_each encoding r = Ret views /\ Forall2 reads_as views vs) /\
  (forall first n, 0 <= first -> 0 <= n -> first + n < 2 ^ 64 -> exists views, list_for_range encoding first n r = Ret views /\ Forall2 reads_as views (take (Z.to_nat n) (drop (Z.to_nat first) vs))) /\
  (forall value first, 0 <= first -> list_find_first encoding value first r = Ret ((fun x => first + Z.of_nat x.1) <$> list_find (fun s => s = value) (drop (Z.to_nat first) vs))) /\
  (forall value stop, 0 <= stop -> exists answer, list_find_last encoding value stop r = Ret (Z.of_nat <$> answer) /\ is_last value (take (Z.to_nat stop) vs) (length (take (Z.to_nat stop) vs)) answer) /\
  (vs <> [] -> list_check_invariants listpack_max_entries r = Some true).
Proof.
  intros Hr. split_and!; [by intros; eapply list_at_ok| |by intros; apply list_for_range_ok|by intros; apply list_find_first_ok|by intros; apply list_find_last_ok|]; destruct r as [p|s].
  - destruct Hr as (Hh & _ & _). by apply listpack_reads_correct in Hh as (_ & _ & ? & _).
  - by eapply (seg_for_each_ok encoding compression leaf_entries lim).
  - intros _. destruct Hr as (Hh & _ & Hl). cbn [list_check_invariants]. apply listpack_reads_correct in Hh as (-> & _). f_equal. lia.
  - intros Hne. by eapply (check_invariants_ok encoding compression leaf_entries default_leaf_entries lim).
Qed.

(** C21: leaving the compact form under a memory limit can lose the list.  The blob is moved into the parameter of
    [adopt_listpack] before the vectors of the new form are reserved: when the limit still grants the object but not the
    vector, the insertion fails for lack of memory and every value the list had is gone. *)
Theorem list_promotion_loses_values p vs index value b b1 b2 :
  list_repr (Small p) vs -> length vs = listpack_max_entries -> (0 < listpack_max_entries <= 128)%nat -> 0 <= index <= Z.of_nat (length vs) -> storable value ->
  ensure sizeof_segmented b = (true, b1) -> ensure sizeof_leaf b1 = (false, b2) ->
  list_insert encoding compression listpack_max_entries junk pool_request pushed_capacity sizeof_segmented index value (World (Some b) (Small p)) = Exn MaxMemoryExceeded (World (Some b2) (Small None)).
Proof.
  intros (Hh & Hs & _) Hlen Hmost Hi [[e He] _] Hg Hr. pose proof (proj1 (listpack_reads_correct encoding p vs Hh)) as Hn. pose proof Hh as (es & Hre & Hle & _)%holds_repr.
  assert (Hins : ListListpack.insert junk (Z.to_nat index) value (Z.of_nat listpack_max_entries) encoding compression kListListpackMaxBlobBytes p = Ret (false, p)).
  { pose proof (insert_refines junk (Z.to_nat index) value (Z.of_nat listpack_max_entries) encoding compression kListListpackMaxBlobBytes p es Hre ltac:(unfold kListListpackMaxBlobBytes; lia)) as H.
    rewrite He in H. cbn [mbind result_bind] in H. unfold spec_insert in H. rewrite (proj2 (Z.leb_le _ _)) in H by lia. cbn [assert_ mbind result_bind] in H. destruct (_ || _) eqn:Ec in H; [|lia].
    destruct H as (p' & E & Hr'). rewrite E. do 2 f_equal. by eapply repr_unique. }
  unfold list_insert, list_size, small_insert, ensure_full. unfold mbind, M_bind, obj_get, gets, require, set_rep, obj_mod, modify, local, ensure_memory_growth, lift. cbn [obj mem id]. rewrite Hn. cbn [mret M_ret]. replace (index <=? _) with true by lia. cbn [obj mem]. rewrite Hins. cbn [when mret M_ret obj mem id].
  rewrite Hg. cbn [obj mem]. unfold adopt_listpack, mbind, M_bind, lift. rewrite Hn. cbn [mret M_ret]. replace (_ =? 0) with false by lia. replace (_ <=? Z.of_nat leaf_entries) with true by (unfold kDefaultLeafEntries; lia).
  assert (Hres : wp (reserve_leaf_count 1) (fun _ _ => False) (fun e w => e = MaxMemoryExceeded /\ w = World (Some b2) empty_segmented) (World (Some b1) empty_segmented)).
  { unfold reserve_leaf_count. apply wp_bind, wp_obj_get. change (_ && _) with false. cbv beta iota zeta. apply wp_bind, wp_zoom. unfold reserve_memory_vector. apply wp_bind, wp_obj_get. cbn [obj mem leaves_ empty_segmented empty_vec capacity].
    change (Z.max _ _) with 1. change (1 <=? 0) with false. change (1 >? _) with false. cbv iota. apply wp_bind. unfold wp, ensure_memory_growth. cbn [mem obj]. change ((1 - 0) * sizeof_leaf) with sizeof_leaf. by rewrite Hr. }
  unfold wp in Hres. destruct (reserve_leaf_count 1 _) as [|ex w|]; [done| |done]. by destruct Hres as [-> ->].
Qed.
End spec.

(** ** A list of two values *)

Abbreviation pair_repr := (@list_repr copy_lz4 Options.default AllowLz4 2 False).
Definition pair_values : list bytes := [str "hello"; str "42"].

Lemma pair_small (lim : Prop) : @list_repr copy_lz4 Options.default AllowLz4 2 lim (Small lp_ex) pair_values.
Proof. split_and!; [apply lp_ex_holds| |done]. repeat (constructor; [split; [eexists|]; vm_compute; reflexivity|]). constructor. Qed.

Lemma pair_no_limit : False <-> ~ unlimited (mem (World None (Small lp_ex))).
Proof. split; [done|]. intros H. by apply H. Qed.

Lemma list_value_refines_witness :
  @list_follows copy_lz4 Options.default AllowLz4 2 False _ (@push_many copy_lz4 Options.default AllowLz4 2 x00 id doubled 72 true [str "x"; str "y"]) (World None (Small lp_ex))
    (fun n l => n = 4 /\ l = [str "y"; str "x"; str "hello"; str "42"]) (@push_kept true [str "x"; str "y"] pair_values).
Proof.
  destruct (@list_value_refines copy_lz4 copy_lz4_correct Options.default AllowLz4 2 x00 id doubled 72 doubled_range False (World None (Small lp_ex)) pair_values pair_no_limit (pair_small False)) as (_ & H & _).
  apply (H true [str "x"; str "y"]); [|cbn; lia]. repeat (constructor; [split; [eexists|]; vm_compute; reflexivity|]). constructor.
Defined.

Lemma list_value_reads_witness : @list_find_first copy_lz4 Options.default (str "42") 0 (Small lp_ex) = Ret (Some 1).
Proof. apply (@list_value_reads copy_lz4 Options.default AllowLz4 2 id False (Small lp_ex) pair_values (pair_small False)). lia. Defined.

(** A limit that grants the object of the segmented form and four bytes more. *)
Definition tight_budget : ActiveMemoryBudget := new_budget (Some {| address := 1; limit_ := 1000; usage_ := Some 924 |}).

Lemma list_promotion_loses_values_witness :
  exists b, @list_insert copy_lz4 Options.default AllowLz4 2 x00 id doubled 72 2 (str "x") (World (Some tight_budget) (Small lp_ex)) = Exn MaxMemoryExceeded (World (Some b) (Small None)).
Proof.
  eexists. eapply (@list_promotion_loses_values copy_lz4 copy_lz4_correct Options.default AllowLz4 2 x00 id doubled 72 True lp_ex pair_values 2 (str "x")); [apply pair_small|reflexivity|lia|cbn; lia| |reflexivity|reflexivity].
  split; [eexists|]; vm_compute; reflexivity.
Defined.
