(* ===== verification/ListObject.v ===== *)
(** * What a list promises to the store

    The store keeps lists behind pointers and calls the public operations of [List].  [ListObject] names those
    operations, [ListLaws] what they promise; the store's theorems are proved against the two.  The list of
    [ListValue], the segmented implementation behind a compact form, satisfies the laws: the representation follows
    from [ListValue], and a computation never switches a memory limit on or off ([steady]). *)

From S2P Require Import Prelude StringEncoding ListListpack MemoryLimit Fenwick SegmentedList SegmentedSpec ListValue.
From Stdlib Require Import ZArith Lia ZifyBool.

Local Open Scope Z_scope.

(** ** Computations that leave the limit as it is *)

Definition steady {O A} (m : M (world O) A) : Prop :=
  forall w, match m w with Ok _ w' | Exn _ w' => unlimited (mem w') <-> unlimited (mem w) | Ub => True end.

Create HintDb steady discriminated.

Section steady.
Context {O : Type}.

Lemma steady_bind {A B} (m : M (world O) A) (f : A -> M (world O) B) : steady m -> (forall a, steady (f a)) -> steady (m ≫= f).
Proof.
  intros Hm Hf w. specialize (Hm w). unfold mbind, M_bind. destruct (m w) as [a w'| |]; [|done..].
  specialize (Hf a w'). destruct (f a w'); [by rewrite Hf..|done].
Qed.
Lemma steady_ret {A} (a : A) : steady (O := O) (mret a).
Proof. by intros w. Qed.
Lemma steady_gets {A} (f : world O -> A) : steady (gets f).
Proof. by intros w. Qed.
Lemma steady_get {A} (f : O -> A) : steady (obj_get f).
Proof. by intros w. Qed.
Lemma steady_mod (f : O -> O) : steady (obj_mod f).
Proof. by intros w. Qed.
Lemma steady_need {A} (x : option A) : steady (O := O) (need x).
Proof. by destruct x; intros w. Qed.
Lemma steady_require b : steady (O := O) (require b).
Proof. by destruct b; intros w. Qed.
Lemma steady_throw {A} e : steady (O := O) (throw (A := A) e).
Proof. by intros w. Qed.
Lemma steady_lift {A} (x : result A) : steady (O := O) (lift x).
Proof. by destruct x; intros w. Qed.
Lemma steady_when b (m : M (world O) unit) : steady m -> steady (when b m).
Proof. by destruct b. Qed.
Lemma steady_catch {A} (m : M (world O) A) h : steady m -> (forall e, steady (h e)) -> steady (try_catch m h).
Proof.
  intros Hm Hh w. specialize (Hm w). unfold try_catch. destruct (m w) as [|e w'|]; [done| |done].
  specialize (Hh e w'). destruct (h e w'); [by rewrite Hh..|done].
Qed.
Lemma steady_ensure n : steady (O := O) (ensure_memory_growth n).
Proof.
  intros [[b|] o]; unfold ensure_memory_growth; cbn [mem]; [|done].
  assert (He : enforced (ensure n b).2 = enforced b).
  { unfold ensure. destruct (enforced b) as [c|] eqn:Hc; [|done]. destruct (_ =? 0); [done|]. destruct (_ || _); cbn [snd]; rewrite <- Hc; unfold enforced, load_usage; cbn [ceiling]; by destruct (used_loaded b), (ceiling b). }
  destruct (ensure n b) as [ok b']. cbn [snd] in He. destruct ok; cbn [mem]; unfold unlimited; cbn; by rewrite He.
Qed.
End steady.

Lemma steady_zoom {O P A} get set (m : M (world P) A) : steady m -> steady (zoom (O := O) get set m).
Proof. intros Hm w. unfold zoom. specialize (Hm (World (mem w) (get (obj w)))). by destruct (m _). Qed.
Lemma steady_local {O P} (init : P) (m : M (world P) unit) : steady m -> steady (local (O := O) init m).
Proof. intros Hm w. unfold local. specialize (Hm (World (mem w) init)). by destruct (m _). Qed.

#[export] Hint Resolve steady_ret steady_gets steady_get steady_mod steady_need steady_require steady_throw steady_lift steady_ensure : steady.

Ltac head_of t := lazymatch t with ?f _ => head_of f | _ => t end.

(** A computation without recursion is followed to its primitives; loops come as hints. *)
Ltac steady :=
  repeat (intros;
    match goal with
    | |- steady _ => solve [auto with steady]
    | |- steady (_ ≫= _) => apply steady_bind
    | |- steady (when _ _) => apply steady_when
    | |- steady (try_catch _ _) => apply steady_catch
    | |- steady (zoom _ _ _) => apply steady_zoom
    | |- steady (local _ _) => apply steady_local
    | |- steady (match ?x with _ => _ end) => destruct x
    | |- steady (let _ := _ in _) => cbv zeta
    | |- steady ?m => let h := head_of m in progress unfold h
    end).

Section loops.
Context {L : LZ4}.
Variable encoding : Z.
Variable compression : StringCompressionMode.
Variable leaf_entries : nat.
Variable junk : byte.
Variable pool_request : Z -> Z.

Lemma steady_balanced_loop {U} count : forall leaf base extra values, steady (balanced_loop (U := U) encoding compression leaf_entries junk pool_request count leaf base extra values).
Proof. induction count as [|count IH]; intros; cbn [balanced_loop]; steady. Qed.
Hint Resolve steady_balanced_loop : steady.

Lemma steady_search_fit {U} fuel : forall candidate low high best leaf, (forall n, steady (candidate n)) -> steady (search_fit (U := U) fuel candidate low high best leaf).
Proof. induction fuel as [|fuel IH]; intros; cbn [search_fit]; steady. Qed.
Hint Resolve steady_search_fit : steady.

Lemma steady_greedy_loop {U} fuel : forall bias rest done_, steady (greedy_loop (U := U) encoding compression leaf_entries junk pool_request fuel bias rest done_).
Proof. induction fuel as [|fuel IH]; intros; cbn [greedy_loop]; steady. apply steady_search_fit. steady. Qed.
Hint Resolve steady_greedy_loop : steady.

Lemma steady_pack_loop {U} fuel : forall assign_op rest done_, (forall l, steady (assign_op l)) -> steady (pack_loop (U := U) leaf_entries fuel assign_op rest done_).
Proof. induction fuel as [|fuel IH]; intros; cbn [pack_loop]; steady. Qed.
Hint Resolve steady_pack_loop : steady.

Lemma steady_assign_leaf {U} values : steady (assign_leaf (U := U) encoding compression leaf_entries junk pool_request values).
Proof. steady. Qed.
Hint Resolve steady_assign_leaf : steady.

Lemma steady_fill_loop values : forall leaf at_back, steady (fill_loop encoding compression leaf_entries junk pool_request leaf at_back values).
Proof. induction values as [|value values IH]; intros; cbn [fill_loop]; steady. Qed.

Lemma steady_compact_loop fuel : forall leaf, steady (compact_loop encoding compression leaf_entries junk pool_request fuel leaf).
Proof. induction fuel as [|fuel IH]; intros; cbn [compact_loop]; steady. Qed.
End loops.

#[export] Hint Resolve steady_balanced_loop steady_search_fit steady_greedy_loop steady_pack_loop steady_assign_leaf steady_fill_loop steady_compact_loop : steady.

Section operations.
Context {L : LZ4}.
Variable encoding : Z.
Variable compression : StringCompressionMode.
Variable listpack_max_entries : nat.
Variable junk : byte.
Variable pool_request : Z -> Z.
Variable pushed_capacity : Z -> Z -> Z.
Variable sizeof_segmented : Z.

Lemma steady_on_segmented {A} (m : M (world SegmentedList) A) : steady m -> steady (on_segmented m).
Proof. steady. Qed.

Lemma steady_ensure_full : steady (ensure_full encoding compression junk pool_request pushed_capacity sizeof_segmented).
Proof. steady. Qed.

Lemma steady_insert_full_batch values front : steady (insert_full_batch encoding compression junk pool_request pushed_capacity values front).
Proof. steady. Qed.
Hint Resolve steady_ensure_full steady_insert_full_batch : steady.

Lemma steady_push_small values : forall front, steady (push_small encoding compression listpack_max_entries junk pool_request pushed_capacity sizeof_segmented front values).
Proof. induction values as [|value values IH]; intros; cbn [push_small]; steady. Qed.
Hint Resolve steady_push_small : steady.

Lemma steady_demote_loop views : forall packed, steady (demote_loop listpack_max_entries junk pool_request views packed).
Proof. induction views as [|view views IH]; intros; cbn [demote_loop]; steady. Qed.
Hint Resolve steady_demote_loop : steady.

Lemma steady_list_erase index : steady (list_erase encoding compression listpack_max_entries junk pool_request index).
Proof. steady. Qed.
Hint Resolve steady_list_erase : steady.

Lemma steady_remove_forward fuel : forall value limit removed first, steady (remove_forward encoding compression listpack_max_entries junk pool_request fuel value limit removed first).
Proof. induction fuel as [|fuel IH]; intros; cbn [remove_forward]; steady. Qed.
Lemma steady_remove_backward fuel : forall value limit removed stop, steady (remove_backward encoding compression listpack_max_entries junk pool_request fuel value limit removed stop).
Proof. induction fuel as [|fuel IH]; intros; cbn [remove_backward]; steady. Qed.
Lemma steady_trim_back fuel : forall keep_end, steady (trim_back encoding compression listpack_max_entries junk pool_request fuel keep_end).
Proof. induction fuel as [|fuel IH]; intros; cbn [trim_back]; steady. Qed.
Lemma steady_trim_front fuel : forall first, steady (trim_front encoding compression listpack_max_entries junk pool_request fuel first).
Proof. induction fuel as [|fuel IH]; intros; cbn [trim_front]; steady. Qed.
End operations.

#[export] Hint Resolve steady_ensure_full steady_insert_full_batch steady_push_small steady_demote_loop steady_list_erase steady_remove_forward steady_remove_backward
  steady_trim_back steady_trim_front : steady.

(** ** The interface *)

(** The operations of [List] the store calls; [lo_construct] is the constructor, run on the memory of a new object. *)
Class ListObject (R : Type) := {
  lo_blank : R;
  lo_construct : M (world R) unit;
  lo_size : M (world R) Z;
  lo_push_one : bool -> bytes -> M (world R) Z;
  lo_push : bool -> list bytes -> M (world R) Z;
  lo_pop_one : bool -> M (world R) (option bytes);
  lo_pop : Z -> bool -> M (world R) (list bytes);
  lo_at : Z -> R -> result EncodedStringView;
  lo_for_range : Z -> Z -> R -> result (list EncodedStringView);
  lo_set : Z -> bytes -> M (world R) unit;
  lo_trim : Z -> Z -> M (world R) unit;
  lo_remove : bytes -> Z -> M (world R) Z;
  lo_find_first : bytes -> Z -> R -> result (option Z);
  lo_insert : Z -> bytes -> M (world R) unit;
}.

(** [m] ends with an answer and a list [after] allows, or, only under a memory limit, it throws for lack of memory and
    leaves a list [kept] allows; a limit stays active. *)
Definition follows {R A} (lim : Prop) (repr : R -> list bytes -> Prop) (m : M (world R) A) (w : world R) (after : A -> list bytes -> Prop) (kept : list bytes -> Prop) : Prop :=
  wp m (fun a w' => calm lim (mem w') /\ exists vs, repr (obj w') vs /\ after a vs)
       (fun e w' => lim /\ is_bad_alloc e = true /\ calm lim (mem w') /\ exists vs, repr (obj w') vs /\ kept vs) w.

(** What is left of [vs] without [k] values at an end, and those values in the order they are removed. *)
Definition rest_of (front : bool) (k : nat) (vs : list bytes) : list bytes := if front then drop k vs else take (length vs - k) vs.
Definition popped (front : bool) (k : nat) (vs : list bytes) : list bytes := if front then take k vs else rev (drop (length vs - k) vs).

(** The first piece of a view is empty only when the view is. *)
Definition headed_view (v : EncodedStringView) : Prop := head_ v = [] -> tail_ v = [].

(** [ok] are the values a list can hold, [repr] relates an object to its values; [lim] says whether a memory limit is active. *)
Class ListLaws {L : LZ4} (R : Type) `{ListObject R} (ok : bytes -> Prop) (lim : Prop) (repr : R -> list bytes -> Prop) := {
  law_small : forall r vs, repr r vs -> Z.of_nat (length vs) < 2 ^ 32;
  law_ok : forall r vs, repr r vs -> Forall ok vs;
  law_construct : forall b, calm lim b -> follows lim repr lo_construct (World b lo_blank) (fun _ l => l = []) (fun _ => True);
  law_size : forall b r vs, repr r vs -> lo_size (World b r) = Ok (Z.of_nat (length vs)) (World b r);
  law_push_one : forall b r vs front value, calm lim b -> repr r vs -> ok value -> Z.of_nat (length vs) + 1 < 2 ^ 32 ->
    follows lim repr (lo_push_one front value) (World b r) (fun _ l => l = pushed front [value] vs) (fun l => l = vs \/ l = []);
  law_push : forall b r vs front values, calm lim b -> repr r vs -> Forall ok values -> Z.of_nat (length vs) + Z.of_nat (length values) < 2 ^ 32 ->
    follows lim repr (lo_push front values) (World b r) (fun n l => n = Z.of_nat (length (pushed front values vs)) /\ l = pushed front values vs) (push_kept front values vs);
  law_pop_one : forall b r vs front, calm lim b -> repr r vs ->
    follows lim repr (lo_pop_one front) (World b r) (fun a l => a = popped front 1 vs !! 0%nat /\ l = rest_of front 1 vs) (fun l => l = vs \/ l = rest_of front 1 vs);
  law_pop : forall b r vs count front, calm lim b -> repr r vs -> 0 <= count ->
    let k := Nat.min (Z.to_nat count) (length vs) in
    follows lim repr (lo_pop count front) (World b r) (fun a l => a = popped front k vs /\ l = rest_of front k vs) (fun l => l = vs \/ l = rest_of front k vs);
  law_at : forall r vs index value, repr r vs -> 0 <= index -> vs !! Z.to_nat index = Some value -> exists v, lo_at index r = Ret v /\ reads_as v value;
  law_for_range : forall r vs first n, repr r vs -> 0 <= first -> 0 <= n -> first + n < 2 ^ 64 ->
    exists views, lo_for_range first n r = Ret views /\ Forall2 reads_as views (take (Z.to_nat n) (drop (Z.to_nat first) vs));
  law_headed : (forall index r v, lo_at index r = Ret v -> headed_view v) /\ (forall first n r views, lo_for_range first n r = Ret views -> Forall headed_view views);
  law_set : forall b r vs index value, calm lim b -> repr r vs -> 0 <= index < Z.of_nat (length vs) -> ok value ->
    follows lim repr (lo_set index value) (World b r) (fun _ l => l = <[Z.to_nat index := value]> vs) (fun l => l = vs \/ l = []);
  law_trim : forall b r vs first count, calm lim b -> repr r vs -> 0 <= first -> 0 <= count ->
    follows lim repr (lo_trim first count) (World b r) (fun _ l => l = take (Z.to_nat count) (drop (Z.to_nat first) vs)) (fun l => part_of l vs);
  law_remove : forall b r vs value count, calm lim b -> repr r vs -> - 2 ^ 63 <= count < 2 ^ 63 ->
    follows lim repr (lo_remove value count) (World b r)
      (fun n l => n = Z.of_nat (length vs) - Z.of_nat (length (lrem count value vs)) /\ l = lrem count value vs) (fun l => exists k, l = lrem_head k value vs \/ l = lrem_tail k value vs);
  law_find_first : forall r vs value, repr r vs -> lo_find_first value 0 r = Ret ((fun x => Z.of_nat x.1) <$> list_find (fun s => s = value) vs);
  law_insert : forall b r vs index value, calm lim b -> repr r vs -> 0 <= index <= Z.of_nat (length vs) -> ok value -> Z.of_nat (length vs) + 1 < 2 ^ 32 ->
    follows lim repr (lo_insert index value) (World b r) (fun _ l => l = insert_at_place (Z.to_nat index) [value] vs) (fun l => l = vs \/ l = []);
}.

(** ** The segmented list behind a compact form *)

Section list_value.
Context {L : LZ4} {LC : LZ4Correct L}.
Variable encoding : Z.
Variable compression : StringCompressionMode.
Variable listpack_max_entries : nat.
Variable junk : byte.
Variable pool_request : Z -> Z.
Variable pushed_capacity : Z -> Z -> Z.
Variable sizeof_segmented : Z.

Definition list_value_object : ListObject ListRep := {|
  lo_blank := Small None;
  lo_construct := init_empty listpack_max_entries sizeof_segmented;
  lo_size := list_size;
  lo_push_one := fun front => if front then push_front_one encoding compression listpack_max_entries junk pool_request pushed_capacity sizeof_segmented
                              else push_back_one encoding compression listpack_max_entries junk pool_request pushed_capacity sizeof_segmented;
  lo_push := push_many encoding compression listpack_max_entries junk pool_request pushed_capacity sizeof_segmented;
  lo_pop_one := pop_one encoding compression listpack_max_entries junk pool_request;
  lo_pop := pop_endpoint encoding compression listpack_max_entries junk pool_request;
  lo_at := list_at encoding;
  lo_for_range := list_for_range encoding;
  lo_set := list_set encoding compression junk pool_request pushed_capacity sizeof_segmented;
  lo_trim := list_trim encoding compression listpack_max_entries junk pool_request;
  lo_remove := list_remove encoding compression listpack_max_entries junk pool_request;
  lo_find_first := list_find_first encoding;
  lo_insert := list_insert encoding compression listpack_max_entries junk pool_request pushed_capacity sizeof_segmented;
|}.

Hypothesis pushed_capacity_range : forall reserved pushed, 0 <= reserved <= 2 ^ 32 -> 0 <= pushed <= 2 ^ 32 -> pushed <= pushed_capacity reserved pushed <= 2 ^ 33.
Variable lim : Prop.
Abbreviation repr := (list_repr encoding compression listpack_max_entries lim).

Lemma view_entry_headed p m v : view_entry p m encoding = Ret v -> headed_view v.
Proof.
  unfold view_entry, headed_view. destruct (read_entry p m) as [e| |]; [|done..]. cbn [mbind result_bind]. destruct (load _ _ m) as [payload| |]; [|done..]. cbn [mbind result_bind]. destruct (_ && _); by intros [= <-].
Qed.

Lemma views_from_headed n : forall offset m views, views_from n offset m encoding = Ret views -> Forall headed_view views.
Proof.
  induction n as [|n IH]; intros offset m views; cbn [views_from]; [intros [= <-]; constructor|]. destruct (read_entry _ m) as [e| |]; [|done..]. cbn [mbind result_bind]. destruct (view_entry _ m encoding) as [v| |] eqn:Ev; [|done..]. cbn [mbind result_bind].
  destruct (views_from n _ m encoding) as [rest| |] eqn:Er; [|done..]. cbn [mbind result_bind]. intros [= <-]. constructor; [by eapply view_entry_headed|by eapply IH].
Qed.

Lemma for_range_headed first n p views : for_range first n encoding p = Ret views -> Forall headed_view views.
Proof.
  unfold for_range. destruct (unpack p) as [hdr| |]; [|done..]. cbn [mbind result_bind]. destruct (_ || _); [intros [= <-]; constructor|]. destruct (offset_of first _) as [o| |]; [|done..]. apply views_from_headed.
Qed.

Lemma at_headed index p v : at_ index encoding p = Ret v -> headed_view v.
Proof.
  unfold at_. destruct (unpack p) as [hdr| |]; [|done..]. cbn [mbind result_bind]. destruct (assert_ _) as [?| |]; [|done..]. cbn [mbind result_bind]. destruct (offset_of index _) as [o| |]; [|done..]. apply view_entry_headed.
Qed.

Lemma range_loop_headed leaves : forall offset remaining views, range_loop encoding leaves offset remaining = Ret views -> Forall headed_view views.
Proof.
  induction leaves as [|leaf leaves IH]; intros offset remaining views; cbn [range_loop]; [intros [= <-]; constructor|]. destruct (remaining =? 0); [intros [= <-]; constructor|]. destruct (ListListpack.size leaf) as [n| |]; [|done..]. cbn [mbind result_bind].
  destruct (for_range offset _ encoding leaf) as [l| |] eqn:El; [|done..]. cbn [mbind result_bind]. destruct (range_loop encoding leaves 0 _) as [rest| |] eqn:Er; [|done..]. cbn [mbind result_bind]. intros [= <-]. apply Forall_app. split; [by eapply for_range_headed|by eapply IH].
Qed.

Lemma list_views_headed : (forall index r v, list_at encoding index r = Ret v -> headed_view v) /\ (forall first n r views, list_for_range encoding first n r = Ret views -> Forall headed_view views).
Proof.
  split.
  - intros index [p|s] v; cbn [list_at]; [apply at_headed|]. unfold seg_at. destruct (locate index s) as [[leaf offset]|]; [|done]. cbn. destruct (elems (leaves_ s) !! leaf) as [p|]; [|done]. cbn. apply at_headed.
  - intros first n [p|s] views; cbn [list_for_range].
    + destruct (ListListpack.size p) as [k| |]; [|done..]. cbn [mbind result_bind]. destruct (k <=? first); [intros [= <-]; constructor|apply for_range_headed].
    + destruct (_ <=? first); [intros [= <-]; constructor|]. unfold seg_for_range. destruct (_ || _); [intros [= <-]; constructor|]. destruct (locate first s) as [[leaf offset]|]; [|done]. cbn [of_option mbind result_bind]. apply range_loop_headed.
Qed.

(** A specification of a computation that is steady keeps the limit also where it throws. *)
Lemma follows_steady {A} (m : M (world ListRep) A) b r after kept :
  steady m -> calm lim b ->
  wp m (fun a w' => calm lim (mem w') /\ exists vs, repr (obj w') vs /\ after a vs)
       (fun e w' => lim /\ is_bad_alloc e = true /\ exists vs, repr (obj w') vs /\ kept vs) (World b r) ->
  follows lim repr m (World b r) after kept.
Proof.
  intros Hm Hb. specialize (Hm (World b r)). unfold follows, wp. destruct (m (World b r)) as [|e w'|]; [done| |done].
  intros (Hl & He & Hv). split_and!; [done|done| |done]. unfold calm in *. cbn [mem] in Hm. by rewrite Hm.
Qed.

Ltac ends :=
  first
    [ done
    | intros; split; [done|]; eexists; split; [eassumption|]; (reflexivity || (split; reflexivity))
    | intros; split_and!; [done|done|]; repeat match goal with H : _ \/ _ |- _ => destruct H end; eexists; (split; [eassumption|]); tauto ].

Lemma list_pop_one_follows b r vs front : calm lim b -> repr r vs ->
  follows lim repr (pop_one encoding compression listpack_max_entries junk pool_request front) (World b r)
    (fun a l => a = popped front 1 vs !! 0%nat /\ l = rest_of front 1 vs) (fun l => l = vs \/ l = rest_of front 1 vs).
Proof.
  intros Hb Hr. apply follows_steady; [steady|done|]. unfold pop_one. apply wp_bind. eapply wp_list_size; [done|]. destruct (Z.eqb_spec (Z.of_nat (length vs)) 0) as [E|E].
  - destruct vs; [|done]. apply wp_ret. split; [done|]. exists []. by destruct front.
  - destruct (decide (front = true)) as [->|Hf].
    + destruct vs as [|x vs]; [done|]. apply wp_bind. eapply (wp_list_erase _ _ _ _ _ _ _ (x :: vs)); ends.
    + destruct front; [done|]. destruct (exists_last (l := vs)) as (l & x & ->); [by intros ->|].
      assert (Hn : Z.to_nat (Z.of_nat (length (l ++ [x])) - 1) = length l) by (rewrite length_app; cbn; lia).
      assert (Hl : (length (l ++ [x]) - 1)%nat = length l) by (rewrite length_app; cbn; lia).
      assert (Hd : delete (length l) (l ++ [x]) = l) by (rewrite delete_take_drop, take_app_length, drop_ge, app_nil_r; [done|rewrite length_app; cbn; lia]).
      unfold popped, rest_of. rewrite Hl, take_app_length, drop_app_length. cbn [rev app lookup list_lookup].
      apply wp_bind. eapply (wp_list_erase _ _ _ _ _ _ _ (l ++ [x])); [done|rewrite length_app; cbn; lia|rewrite Hn; by apply list_lookup_middle|done| |]; rewrite Hn, Hd; ends.
Qed.

#[export] Instance list_value_laws : @ListLaws L ListRep list_value_object (encodable encoding compression) lim repr.
Proof.
  split; cbn [list_value_object lo_blank lo_construct lo_size lo_push_one lo_push lo_pop_one lo_pop lo_at lo_for_range lo_set lo_trim lo_remove lo_find_first lo_insert].
  - intros r vs. apply list_repr_small.
  - intros [p|s] vs Hr; [by destruct Hr as (_ & ? & _)|by eapply seg_repr_storable].
  - intros b Hb. apply follows_steady; [steady|done|]. eapply wp_list_init_empty; [done| |].
    + intros b' r' Hb' Hr'. split; [done|]. by exists [].
    + intros Hl e b' He. split_and!; [done|done|]. exists []. split; [apply empty_small|done].
  - intros b r vs Hr. pose proof (wp_list_size encoding compression listpack_max_entries lim r vs b (fun n w => n = Z.of_nat (length vs) /\ w = World b r) (fun _ _ => False) Hr (conj eq_refl eq_refl)) as H.
    unfold wp in H. destruct (list_size (World b r)) as [n w| |]; [|done..]. by destruct H as [-> ->].
  - intros b r vs front value Hb Hr Hv Hl. destruct front; (apply follows_steady; [steady|done|]).
    + unfold push_front_one. apply wp_bind. eapply wp_list_insert; [done|done|lia|done|done|done| |].
      * intros b' r' Hb' Hr'. eapply wp_list_size; [done|]. split; [done|]. by eexists.
      * intros Hlim e b' r' He Hr'. split_and!; [done|done|]. destruct Hr'; eexists; (split; [eassumption|]); tauto.
    + unfold push_back_one. apply wp_bind. eapply wp_list_size; [done|]. apply wp_bind. eapply wp_list_insert; [done|done|lia|done|done|done| |].
      * intros b' r' Hb' Hr'. eapply wp_list_size; [done|]. split; [done|]. eexists. split; [done|]. unfold insert_at_place. rewrite Nat2Z.id, take_ge, drop_ge by lia. by rewrite app_nil_r.
      * intros Hlim e b' r' He Hr'. split_and!; [done|done|]. destruct Hr'; eexists; (split; [eassumption|]); tauto.
  - intros b r vs front values Hb Hr Hv Hl. apply follows_steady; [steady|done|]. eapply wp_push_many; ends.
  - intros. by apply list_pop_one_follows.
  - intros b r vs count front Hb Hr Hc. apply follows_steady; [steady|done|]. unfold popped, rest_of. eapply wp_pop_endpoint; ends.
  - intros r vs index value. by eapply list_at_ok.
  - intros r vs first n. by eapply list_for_range_ok.
  - apply list_views_headed.
  - intros b r vs index value Hb Hr Hi Hv. apply follows_steady; [steady|done|]. eapply wp_list_set; ends.
  - intros b r vs first count Hb Hr Hf Hc. apply follows_steady; [steady|done|]. eapply (wp_list_trim _ _ _ _ _ _ vs); ends.
  - intros b r vs value count Hb Hr Hc. apply follows_steady; [steady|done|]. eapply wp_list_remove; ends.
  - intros r vs value Hr. by eapply (list_find_first_ok _ _ _ _ _ _ _ 0).
  - intros b r vs index value Hb Hr Hi Hv Hl. apply follows_steady; [steady|done|]. eapply wp_list_insert; ends.
Qed.
End list_value.
