(* ===== verification/SwissTable.v ===== *)
(** * Open-addressing table with control bytes

    Models [include/goblin/core/swiss_table.hpp]: slots probed in groups of
    [GroupWidth] control bytes, tombstones, growth in whole pages and the
    insertion tokens.  The hash and the equality of the keys are arguments; the
    sizing formulas use the binary64 products and quotients of the source. *)

From S2P Require Import Prelude Binary64 BitMask MemoryLimit Probe.
From stdpp Require Import gmap.
From Stdlib Require Import ZArith Lia.

Local Open Scope Z_scope.

Import Double.

(** ** Sizes *)

Section sizes.
(** [sizeof (value_type)], [page_bytes ()] and the template argument [GroupWidth]. *)
Variables sizeof_slot page GroupWidth : Z.

(** The doubles [0.92] and [1.2574334296829355]. *)
Definition kMaxDensity : double := Dbl 8286623314361713 (-53).
Definition kGrowthFactor : double := Dbl 5662976725363273 (-52).

Definition max_usable (capacity : Z) : Z := trunc (mul (of_int capacity) kMaxDensity).

Definition page_aligned_capacity (target_slots min_pages : Z) : Z :=
  let pages := (target_slots * sizeof_slot + page - 1) / page in
  let pages := if pages <? min_pages then min_pages else pages in
  let cap := pages * page / sizeof_slot in
  let cap := cap - cap mod GroupWidth in
  if cap <? GroupWidth then GroupWidth else cap.

Definition current_pages (capacity : Z) : Z := (capacity * sizeof_slot + page - 1) / page.

Definition capacity_for_size (expected_size : Z) : Z :=
  if expected_size =? 0 then 0
  else page_aligned_capacity (trunc (div (of_int expected_size) kMaxDensity) + 1) 1.

Definition grown_target (capacity : Z) : Z := trunc (mul (of_int capacity) kGrowthFactor).

(** *** Bounds *)

(** A table filled to [max_usable] has a free slot. *)
Lemma max_usable_lt n : 0 < n < 2 ^ 50 -> max_usable n < n.
Proof.
  intros Hn. destruct (trunc_mul n 8286623314361713 53 Hn ltac:(lia) ltac:(lia)) as [H _].
  unfold max_usable, kMaxDensity. change (-53) with (- (53)). set (t := trunc _) in *. clearbody t. nia.
Qed.

Lemma max_usable_nonneg n : 0 <= n < 2 ^ 50 -> 0 <= max_usable n.
Proof.
  intros Hn. destruct (decide (n = 0)) as [->|]; [done|].
  destruct (trunc_mul n 8286623314361713 53 ltac:(lia) ltac:(lia) ltac:(lia)) as [_ H].
  unfold max_usable, kMaxDensity. change (-53) with (- (53)). set (t := trunc _) in *. clearbody t. nia.
Qed.

Lemma max_usable_0 : max_usable 0 = 0.
Proof. reflexivity. Qed.

Lemma trunc_div_both n :
  0 < n < 2 ^ 50 ->
  let t := trunc (div (of_int n) kMaxDensity) in
  t * 8286623314361713 <= n * (2 ^ 53 + 1) /\ n * (2 ^ 53 - 1) < (t + 1) * 8286623314361713.
Proof.
  intros Hn. destruct (of_int_exact n ltac:(lia)) as (He & Hm & Hlow). unfold div, kMaxDensity. simpl expo. simpl mant.
  set (e := expo (of_int n)) in *. rewrite Hm. rewrite (proj2 (Z.leb_le _ _)) by lia.
  replace (n * 2 ^ (- e) * 2 ^ (e - -53)) with (n * 2 ^ 53).
  2: { rewrite <- Z.mul_assoc, <- Z.pow_add_r by lia. do 2 f_equal. lia. }
  pose proof (trunc_round (n * 2 ^ 53) 8286623314361713 ltac:(lia) ltac:(lia) ltac:(lia)) as H. cbv zeta in H |- *.
  destruct H as [H1 H2]. set (t := trunc _) in *. clearbody t. lia.
Qed.

Lemma trunc_div n :
  0 < n < 2 ^ 50 -> n * (2 ^ 53 - 1) < (trunc (div (of_int n) kMaxDensity) + 1) * 8286623314361713.
Proof. intros Hn. apply (trunc_div_both n Hn). Qed.

Lemma trunc_div_upper n : 0 < n < 2 ^ 50 -> trunc (div (of_int n) kMaxDensity) <= 2 * n.
Proof. intros Hn. destruct (trunc_div_both n Hn) as [H _]. cbv zeta in H. set (t := trunc _) in *. clearbody t. nia. Qed.

Context (Hpage : 0 < page) (Hslot : 0 < sizeof_slot) (Hgroup : 0 < GroupWidth).

Lemma page_aligned_spec target min_pages :
  let cap := page_aligned_capacity target min_pages in
  GroupWidth <= cap /\ cap mod GroupWidth = 0
  /\ forall old, old mod GroupWidth = 0 -> 0 <= old ->
       old <= target \/ old * sizeof_slot <= min_pages * page -> old <= cap.
Proof.
  unfold page_aligned_capacity. cbv zeta. set (p0 := (target * sizeof_slot + page - 1) / page).
  set (pages := if p0 <? min_pages then min_pages else p0).
  set (c := pages * page / sizeof_slot). pose proof (Z.mod_pos_bound c GroupWidth Hgroup) as Hm.
  pose proof (Z.div_mod c GroupWidth ltac:(lia)) as Hdm.
  assert (Hdown : (c - c mod GroupWidth) mod GroupWidth = 0).
  { replace (c - c mod GroupWidth) with (c / GroupWidth * GroupWidth) by lia. apply Z.mod_mul. lia. }
  split_and!.
  - case_bool; lia.
  - case_bool; [apply Z.mod_same; lia|done].
  - intros old Hold Hpos Hor. assert (Hoc : old <= c).
    { unfold c. apply Z.div_le_lower_bound; [done|].
      assert (Hp : min_pages <= pages /\ p0 <= pages) by (unfold pages; case_bool; lia).
      assert (H0 : target * sizeof_slot <= p0 * page).
      { unfold p0. pose proof (Z.div_mod (target * sizeof_slot + page - 1) page ltac:(lia)).
        pose proof (Z.mod_pos_bound (target * sizeof_slot + page - 1) page Hpage). lia. }
      destruct Hor; nia. }
    assert (old <= c - c mod GroupWidth).
    { pose proof (Z.div_mod old GroupWidth ltac:(lia)). pose proof (Z.div_le_mono old c GroupWidth Hgroup Hoc). nia. }
    case_bool; lia.
Qed.

Lemma page_aligned_upper target min_pages :
  0 <= target -> 0 <= min_pages -> min_pages * page <= target * sizeof_slot + 2 * page ->
  page_aligned_capacity target min_pages <= Z.max GroupWidth (target + 2 * page).
Proof.
  intros Ht Hmp Hm. unfold page_aligned_capacity. cbv zeta. set (p0 := (target * sizeof_slot + page - 1) / page).
  set (pages := if p0 <? min_pages then min_pages else p0). set (c := pages * page / sizeof_slot).
  pose proof (Z.mod_pos_bound c GroupWidth Hgroup) as Hmod.
  assert (Hp : pages * page <= target * sizeof_slot + 2 * page).
  { assert (p0 * page <= target * sizeof_slot + page - 1) by (unfold p0; rewrite Z.mul_comm; apply Z.mul_div_le; lia).
    unfold pages. case_bool; lia. }
  assert (Hc : c <= target + 2 * page).
  { unfold c. etrans; [apply Z.div_le_mono; [done|exact Hp]|]. rewrite Z.div_add_l by lia.
    assert (2 * page / sizeof_slot <= 2 * page) by (apply Z.div_le_upper_bound; nia). lia. }
  case_bool; lia.
Qed.

Lemma grown_target_bounds n : 0 < n < 2 ^ 50 -> 0 <= grown_target n <= 2 * n + 1.
Proof.
  intros Hn. destruct (trunc_mul n 5662976725363273 52 Hn ltac:(lia) ltac:(lia)) as [H1 H2].
  unfold grown_target, kGrowthFactor. change (-52) with (- (52)). set (t := trunc _) in *. clearbody t. nia.
Qed.

(** Growing past the current pages gives at least one more group. *)
Lemma growth_gives_group target old :
  GroupWidth * sizeof_slot <= page -> old mod GroupWidth = 0 -> 0 <= old ->
  old + GroupWidth <= page_aligned_capacity target (current_pages old + 1).
Proof.
  intros Hp Hold Hpos. destruct (page_aligned_spec target (current_pages old + 1)) as (_ & _ & H). apply H.
  - rewrite Z.add_mod, Hold, Z.mod_same by lia. done.
  - lia.
  - right. unfold current_pages. pose proof (Z.div_mod (old * sizeof_slot + page - 1) page ltac:(lia)).
    pose proof (Z.mod_pos_bound (old * sizeof_slot + page - 1) page Hpage). nia.
Qed.

Lemma capacity_for_size_upper expected :
  0 < expected < 2 ^ 41 -> page <= 2 ^ 30 -> GroupWidth <= page -> capacity_for_size expected < 2 ^ 50.
Proof.
  intros He Hp Hg. unfold capacity_for_size. rewrite (proj2 (Z.eqb_neq _ _)) by lia.
  pose proof (trunc_div_upper expected ltac:(lia)) as Hu. pose proof (trunc_div expected ltac:(lia)) as Hl.
  set (t := trunc _) in *. clearbody t. assert (0 <= t) by nia.
  pose proof (page_aligned_upper (t + 1) 1 ltac:(lia) ltac:(lia) ltac:(nia)). lia.
Qed.

Lemma capacity_for_size_shape expected :
  expected <> 0 -> GroupWidth <= capacity_for_size expected /\ capacity_for_size expected mod GroupWidth = 0.
Proof.
  intros He. unfold capacity_for_size. rewrite (proj2 (Z.eqb_neq _ _)) by done.
  destruct (page_aligned_spec (trunc (div (of_int expected) kMaxDensity) + 1) 1) as (H1 & H2 & _). done.
Qed.

(** A capacity for more than [max_usable old] is no smaller than [old]. *)
Lemma capacity_for_size_grows expected old :
  0 <= old < 2 ^ 50 -> 0 < expected < 2 ^ 50 -> old mod GroupWidth = 0 -> max_usable old < expected ->
  old <= capacity_for_size expected.
Proof.
  intros Hold He Hg Hu. unfold capacity_for_size. rewrite (proj2 (Z.eqb_neq _ _)) by lia.
  set (target := trunc (div (of_int expected) kMaxDensity) + 1).
  destruct (page_aligned_spec target 1) as (_ & _ & H). apply H; [done|lia|left].
  pose proof (trunc_div expected He) as Ht. fold target in Ht.
  destruct (decide (old = 0)) as [->|Hne]; [nia|].
  destruct (trunc_mul old 8286623314361713 53 ltac:(lia) ltac:(lia) ltac:(lia)) as [_ Hm].
  unfold max_usable, kMaxDensity in Hu. change (-53) with (- (53)) in Hu. set (u := trunc _) in *. clearbody u target. nia.
Qed.
End sizes.

(** ** The table *)

Section table.
Context {K V : Type}.
Variable hasher_ : K -> Z.
Variable equal_ : K -> K -> bool.
Variables sizeof_slot page : Z.
Variable GroupWidth : nat.

(** A slot is raw memory until an entry is constructed in it.  [slots_] is
    null exactly when the capacity is zero; [storage_] identifies the allocation,
    so that a token can be checked against it. *)
Record SwissTable := {
  control_ : list Z;
  slots_ : list (option (K * V));
  storage_ : nat;
  size_ : nat;
  tombstones_ : nat;
  capacity_ : nat;
}.

Abbreviation Tb := SwissTable.
Abbreviation Op A := (M (world SwissTable) A).

Definition empty_table : Tb :=
  {| control_ := []; slots_ := []; storage_ := 0; size_ := 0; tombstones_ := 0; capacity_ := 0 |}.

Definition is_full (t : Tb) (index : nat) : bool :=
  from_option is_full_control false (control_ t !! index).

Definition fingerprint (hash : Z) : Z := Z.land hash 0x7F.
Definition group_start_for (hash : Z) (t : Tb) : nat :=
  Z.to_nat (Z.shiftr (hash * Z.of_nat (capacity_ t)) 64).

(** *** Lookup *)

(** The comparison with the key in a slot; [None] is a read of a slot without an entry. *)
Definition slot_equals (key : K) (t : Tb) (index : nat) : option bool :=
  slot ← slots_ t !! index;
  entry ← slot;
  Some (equal_ entry.1 key).

Definition find_index_with_hash (key : K) (hash : Z) (t : Tb) : option (option nat) :=
  if Nat.eqb (capacity_ t) 0 then Some None
  else find_loop GroupWidth (capacity_ t) (control_ t) (group_count GroupWidth (capacity_ t)) (slot_equals key t)
         (fingerprint hash) (group_start_for hash t).

Definition find_index (key : K) (t : Tb) : option (option nat) := find_index_with_hash key (hasher_ key) t.

(** [find], [contains]: the value of a key. *)
Definition find (key : K) (t : Tb) : option (option V) :=
  index ← find_index key t;
  match index with
  | None => Some None
  | Some index => slot ← slots_ t !! index; entry ← slot; Some (Some entry.2)
  end.
(** [*find(key) = value], for a key that is there. *)
Definition assign_found (key : K) (value : V) (t : Tb) : option Tb :=
  index ← find_index key t;
  index ← index;
  slot ← slots_ t !! index;
  entry ← slot;
  Some {| control_ := control_ t; slots_ := <[index := Some (entry.1, value)]> (slots_ t); storage_ := storage_ t;
          size_ := size_ t; tombstones_ := tombstones_ t; capacity_ := capacity_ t |}.
Definition contains (key : K) (t : Tb) : option bool :=
  v ← find key t; Some (bool_decide (is_Some v)).

(** *** Insertion *)

(** [None] is [npos]. *)
Definition find_insert_index (may_have_deleted : bool) (hash : Z) (t : Tb) : option nat :=
  insert_loop GroupWidth (capacity_ t) (control_ t) may_have_deleted (group_count GroupWidth (capacity_ t)) (group_start_for hash t) None.

Definition set_control (index : nat) (value : Z) (t : Tb) : list Z := Probe.set_control GroupWidth (capacity_ t) (control_ t) index value.

(** Constructs an entry at a free index; [None] past the slots. *)
Definition construct (index : nat) (hash : Z) (key : K) (value : V) (t : Tb) : option Tb :=
  if (index <? capacity_ t)%nat then
    Some {| control_ := set_control index (fingerprint hash) t;
            slots_ := <[index := Some (key, value)]> (slots_ t); storage_ := storage_ t;
            size_ := S (size_ t);
            tombstones_ := if from_option (Z.eqb kDeleted) false (control_ t !! index)
                           then (tombstones_ t - 1)%nat else tombstones_ t;
            capacity_ := capacity_ t |}
  else None.

Definition insert_existing (entry : K * V) (t : Tb) : option Tb :=
  let hash := hasher_ entry.1 in
  if negb (Nat.eqb (tombstones_ t) 0) then None
  else
    index ← find_insert_index false hash t;
    if (index <? capacity_ t)%nat then
      Some {| control_ := set_control index (fingerprint hash) t;
              slots_ := <[index := Some entry]> (slots_ t); storage_ := storage_ t;
              size_ := S (size_ t); tombstones_ := tombstones_ t; capacity_ := capacity_ t |}
    else None.

(** The entries, in the order of the slots. *)
Definition entries (t : Tb) : list (K * V) := omap id (slots_ t).

Fixpoint insert_all (l : list (K * V)) (t : Tb) : option Tb :=
  match l with
  | [] => Some t
  | entry :: l => t ← insert_existing entry t; insert_all l t
  end.

Definition normalized (requested : Z) : nat :=
  let n := if requested <? Z.of_nat GroupWidth then Z.of_nat GroupWidth else requested in
  Z.to_nat (n - n mod Z.of_nat GroupWidth).

(** [allocate_capacity] of a multiple of the group width; the storage is new. *)
Definition allocate (storage capacity : nat) : Tb :=
  {| control_ := replicate (capacity + GroupWidth) kEmpty; slots_ := replicate capacity None;
     storage_ := storage; size_ := 0; tombstones_ := 0; capacity_ := capacity |}.

Definition allocated_bytes (t : Tb) : Z :=
  Z.of_nat (length (control_ t)) + Z.of_nat (capacity_ t) * sizeof_slot.

Definition rehash (requested_capacity : Z) : Op unit :=
  let capacity := normalized requested_capacity in
  let requested_bytes := Z.of_nat (capacity + GroupWidth) + Z.of_nat capacity * sizeof_slot in
  t ← obj_get id;
  when (requested_bytes >? allocated_bytes t) (ensure_memory_growth (requested_bytes - allocated_bytes t));;
  replacement ← need (insert_all (entries t) (allocate (S (storage_ t)) capacity));
  obj_mod (fun _ => replacement).

Abbreviation page_aligned := (page_aligned_capacity sizeof_slot page (Z.of_nat GroupWidth)).

Definition ensure_capacity_for_insert : Op unit :=
  t ← obj_get id;
  if Nat.eqb (capacity_ t) 0 then rehash (page_aligned (Z.of_nat GroupWidth) 1)
  else
    when (Z.of_nat (size_ t + tombstones_ t + 1) >? max_usable (Z.of_nat (capacity_ t)))
      (rehash (page_aligned (grown_target (Z.of_nat (capacity_ t)))
                 (current_pages sizeof_slot page (Z.of_nat (capacity_ t)) + 1))).

Definition set_slot (index : nat) (entry : K * V) (t : Tb) : Tb :=
  {| control_ := control_ t; slots_ := <[index := Some entry]> (slots_ t); storage_ := storage_ t;
     size_ := size_ t; tombstones_ := tombstones_ t; capacity_ := capacity_ t |}.

(** [try_emplace]: the index of the entry and whether it is new. *)
Definition try_emplace (key : K) (value : V) : Op (nat * bool) :=
  ensure_capacity_for_insert;;
  let hash := hasher_ key in
  t ← obj_get id;
  existing ← need (find_index_with_hash key hash t);
  match existing with
  | Some index => mret (index, false)
  | None =>
      index ← need (find_insert_index true hash t);
      t ← need (construct index hash key value t);
      obj_mod (fun _ => t);;
      mret (index, true)
  end.

Definition insert_or_assign (key : K) (value : V) : Op (nat * bool) :=
  ensure_capacity_for_insert;;
  let hash := hasher_ key in
  t ← obj_get id;
  existing ← need (find_index_with_hash key hash t);
  match existing with
  | Some index =>
      slot ← need (slots_ t !! index);
      entry ← need slot;
      obj_mod (set_slot index (entry.1, value));;
      mret (index, false)
  | None =>
      index ← need (find_insert_index true hash t);
      t ← need (construct index hash key value t);
      obj_mod (fun _ => t);;
      mret (index, true)
  end.

(** *** Removal *)

Definition erase_index (index : nat) (t : Tb) : Tb :=
  {| control_ := set_control index kDeleted t; slots_ := <[index := None]> (slots_ t); storage_ := storage_ t;
     size_ := (size_ t - 1)%nat; tombstones_ := S (tombstones_ t); capacity_ := capacity_ t |}.

Definition erase (key : K) : Op bool :=
  t ← obj_get id;
  index ← need (find_index key t);
  match index with
  | None => mret false
  | Some index => obj_mod (erase_index index);; mret true
  end.

(** [erase_if]: the indexes from [index] on; the count of the removed. *)
Fixpoint erase_if_loop (n index : nat) (predicate : K * V -> bool) (t : Tb) (erased : nat) : option (nat * Tb) :=
  match n with
  | O => Some (erased, t)
  | S n =>
      if negb (is_full t index) then erase_if_loop n (S index) predicate t erased
      else
        slot ← slots_ t !! index;
        entry ← slot;
        if predicate entry then erase_if_loop n (S index) predicate (erase_index index t) (S erased)
        else erase_if_loop n (S index) predicate t erased
  end.
Definition erase_if (predicate : K * V -> bool) : Op nat :=
  t ← obj_get id;
  r ← need (erase_if_loop (capacity_ t) 0 predicate t 0);
  obj_mod (fun _ => r.2);;
  mret r.1.

Definition clear (t : Tb) : Tb :=
  {| control_ := replicate (length (control_ t)) kEmpty; slots_ := replicate (capacity_ t) None; storage_ := storage_ t;
     size_ := 0; tombstones_ := 0; capacity_ := capacity_ t |}.

(** *** Reservations *)

Definition reserve (expected_size : Z) : Op unit :=
  t ← obj_get id;
  if expected_size <=? max_usable (Z.of_nat (capacity_ t)) then mret tt
  else rehash (capacity_for_size sizeof_slot page (Z.of_nat GroupWidth) expected_size).

Definition reserve_additional (additional : Z) : Op unit :=
  if additional =? 0 then mret tt
  else
    t ← obj_get id;
    if additional >? u64_max - Z.of_nat (size_ t) then throw LengthError
    else
      let capacity := Z.of_nat (capacity_ t) in
      let expected_size := Z.of_nat (size_ t) + additional in
      let usable := max_usable capacity in
      let occupied := Z.of_nat (size_ t + tombstones_ t) in
      if (expected_size <=? usable) && (occupied <=? usable) && (additional <=? usable - occupied) then mret tt
      else
        let target :=
          if expected_size >? usable then
            let target :=
              if capacity =? 0 then page_aligned (Z.of_nat GroupWidth) 1
              else
                let grown := grown_target capacity in
                page_aligned (if grown >? capacity then grown else capacity + Z.of_nat GroupWidth)
                  (current_pages sizeof_slot page capacity + 1) in
            if expected_size >? max_usable target
            then capacity_for_size sizeof_slot page (Z.of_nat GroupWidth) expected_size else target
          else capacity in
        rehash target.

(** The copy constructor. *)
Definition copy_of (other : Tb) : Op unit :=
  reserve (Z.of_nat (size_ other));;
  t ← obj_get id;
  t ← need (insert_all (entries other) t);
  obj_mod (fun _ => t).

(** *** Insertion tokens *)

(** [value] tells a hit; [index] is [None] for [npos]. *)
Record InsertSlot := { value : bool; index : option nat; hash : Z; storage : nat }.

Definition find_insert_slot (key : K) (t : Tb) : option InsertSlot :=
  let hash := hasher_ key in
  if Nat.eqb (capacity_ t) 0 then Some {| value := false; index := None; hash := hash; storage := storage_ t |}
  else
    r ← find_or_insert_loop GroupWidth (capacity_ t) (control_ t) (negb (Nat.eqb (tombstones_ t) 0)) (group_count GroupWidth (capacity_ t))
          (slot_equals key t) (fingerprint hash) (group_start_for hash t) None;
    Some {| value := r.2; index := r.1; hash := hash; storage := storage_ t |}.

Definition reserve_insert_slot (slot : InsertSlot) : Op InsertSlot :=
  t ← obj_get id;
  require (negb (value slot) && Nat.eqb (storage slot) (storage_ t));;
  reserve_additional 1;;
  t ← obj_get id;
  let slot :=
    if Nat.eqb (storage slot) (storage_ t) then slot
    else {| value := value slot; index := find_insert_index true (hash slot) t; hash := hash slot;
            storage := storage_ t |} in
  i ← need (index slot);
  require (negb (is_full t i));;
  mret slot.

Definition commit_insert_slot (slot : InsertSlot) (key : K) (v : V) : Op nat :=
  t ← obj_get id;
  require (negb (value slot) && Nat.eqb (storage slot) (storage_ t));;
  i ← need (index slot);
  require (negb (is_full t i));;
  t ← need (construct i (hash slot) key v t);
  obj_mod (fun _ => t);;
  mret i.

Definition erase_slot (slot : InsertSlot) : Op bool :=
  t ← obj_get id;
  require (Nat.eqb (storage slot) (storage_ t));;
  if negb (value slot) then mret false
  else
    i ← need (index slot);
    require (is_full t i);;
    obj_mod (erase_index i);;
    mret true.

(** ** Invariant *)

Context `{Countable K}.
Context (equal_spec : forall a b, equal_ a b = true <-> a = b).
Context (hash_range : forall k, 0 <= hasher_ k < 2 ^ 64).
Context (Hgroup : (1 < GroupWidth)%nat) (Hslot : 0 < sizeof_slot) (Hpage : Z.of_nat GroupWidth * sizeof_slot <= page)
        (Hpage_small : page <= 2 ^ 30).

(** The control bytes of the slots, without the mirrored first group. *)
Definition ctl (t : Tb) : list Z := take (capacity_ t) (control_ t).

Definition slot_ok (c : Z) (s : option (K * V)) : Prop :=
  match s with
  | Some e => c = fingerprint (hasher_ e.1)
  | None => c = kEmpty \/ c = kDeleted
  end.

(** A probe for [hash] gets to slot [i]. *)
Definition reachable (t : Tb) (hash : Z) (i : nat) : Prop := reach GroupWidth (capacity_ t) (ctl t) (group_start_for hash t) i.

Record tinv (t : Tb) : Prop := {
  inv_cap : (capacity_ t mod GroupWidth = 0)%nat;
  inv_control : control_ t = mirrored GroupWidth (ctl t) /\ length (ctl t) = capacity_ t;
  inv_slots : Forall2 slot_ok (ctl t) (slots_ t);
  inv_unique : forall i j k v v', slots_ t !! i = Some (Some (k, v)) -> slots_ t !! j = Some (Some (k, v')) -> i = j;
  inv_reach : forall i k v, slots_ t !! i = Some (Some (k, v)) -> reachable t (hasher_ k) i;
  inv_size : size_ t = length (entries t);
  inv_tombstones : tombstones_ t = count (Z.eqb kDeleted) (ctl t);
  inv_free : (capacity_ t = 0 \/ size_ t + tombstones_ t < capacity_ t)%nat;
}.

(** *** Groups *)

Lemma width_pos : (0 < GroupWidth)%nat.
Proof. lia. Qed.

Lemma capacity_groups t : tinv t -> capacity_ t <> 0%nat -> (GroupWidth <= capacity_ t)%nat.
Proof. intros Hi Hc. apply (cap_groups GroupWidth (capacity_ t) width_pos (inv_cap _ Hi) Hc). Qed.

Lemma start_bound t hash : 0 <= hash < 2 ^ 64 -> capacity_ t <> 0%nat -> (group_start_for hash t < capacity_ t)%nat.
Proof.
  intros Hh Hc. unfold group_start_for. rewrite Z.shiftr_div_pow2 by lia.
  assert (hash * Z.of_nat (capacity_ t) / 2 ^ 64 < Z.of_nat (capacity_ t)) by (apply Z.div_lt_upper_bound; nia).
  assert (0 <= hash * Z.of_nat (capacity_ t) / 2 ^ 64) by (apply Z.div_pos; nia). lia.
Qed.

Lemma fingerprint_range h : 0 <= fingerprint h < 128.
Proof. unfold fingerprint. change 0x7F with (Z.ones 7). rewrite Z.land_ones by lia. apply Z.mod_pos_bound. lia. Qed.

(** The slot of a byte that is a fingerprint, and of one that is not. *)
Lemma full_slot t i c : tinv t -> ctl t !! i = Some c -> c < 128 ->
  exists k v, slots_ t !! i = Some (Some (k, v)) /\ c = fingerprint (hasher_ k).
Proof.
  intros Hi Hc Hr. destruct (Forall2_lookup_l _ _ _ _ _ (inv_slots _ Hi) Hc) as ([[k v]|] & Hs & Hok); simpl in Hok; [by eauto|].
  unfold kEmpty, kDeleted in Hok. lia.
Qed.

Lemma slot_byte t i k v : tinv t -> slots_ t !! i = Some (Some (k, v)) -> ctl t !! i = Some (fingerprint (hasher_ k)).
Proof.
  intros Hi Hs. destruct (Forall2_lookup_r _ _ _ _ _ (inv_slots _ Hi) Hs) as (c & Hc & Hok). simpl in Hok. by subst.
Qed.

(** *** Finding an entry *)

Lemma slot_equals_at key t i k v : slots_ t !! i = Some (Some (k, v)) -> slot_equals key t i = Some (bool_decide (k = key)).
Proof.
  intros Hs. unfold slot_equals. rewrite Hs. cbn. f_equal. destruct (bool_decide_reflect (k = key)) as [->|Hne]; [by apply equal_spec|].
  apply not_true_iff_false. by rewrite equal_spec.
Qed.

(** [find_index]: the slot of the key, if it has one. *)
Lemma find_index_spec key t :
  tinv t ->
  exists r, find_index key t = Some r
    /\ match r with
       | Some i => exists v, slots_ t !! i = Some (Some (key, v))
       | None => forall i v, slots_ t !! i <> Some (Some (key, v))
       end.
Proof.
  intros Hi. unfold find_index, find_index_with_hash. destruct (Nat.eqb_spec (capacity_ t) 0) as [Hc|Hc].
  { exists None. split; [done|]. intros i v Hs. apply lookup_lt_Some in Hs. rewrite <- (Forall2_length _ _ _ (inv_slots _ Hi)) in Hs.
    destruct (inv_control _ Hi) as [_ Hl]. lia. }
  pose proof (start_bound t (hasher_ key) (hash_range key) Hc) as Hs.
  destruct (inv_control _ Hi) as [Hcon Hl]. rewrite Hcon.
  destruct (find_loop_spec GroupWidth (capacity_ t) width_pos (inv_cap _ Hi) Hc (ctl t) Hl (slot_equals key t) (fingerprint (hasher_ key)) _ Hs) as (r & Hr & Hspec).
  - intros i Hb. destruct (full_slot t i _ Hi Hb (proj2 (fingerprint_range _))) as (k & v & Hsl & _). eexists. by eapply slot_equals_at.
  - exists r. split; [done|]. destruct r as [i|].
    + destruct Hspec as [Hb He]. destruct (full_slot t i _ Hi Hb (proj2 (fingerprint_range _))) as (k & v & Hsl & _).
      rewrite (slot_equals_at key t i k v Hsl) in He. injection He as He. apply bool_decide_eq_true in He as ->. by exists v.
    + intros i v Hsl. specialize (Hspec i (inv_reach _ Hi _ _ _ Hsl) (slot_byte t i key v Hi Hsl)).
      rewrite (slot_equals_at key t i key v Hsl), bool_decide_eq_true_2 in Hspec by done. done.
Qed.

(** *** Finding a free slot *)

(** A free slot on the probe sequence from [s]. *)
Definition free_at (t : Tb) (s r : nat) : Prop := Probe.free_at GroupWidth (capacity_ t) (ctl t) s r.

Lemma slot_counts (c : list Z) (sl : list (option (K * V))) :
  Forall2 slot_ok c sl -> (length (omap id sl) + count (Z.eqb kDeleted) c + count (Z.eqb kEmpty) c = length c)%nat.
Proof.
  induction 1 as [|x y c sl Hxy HF IH]; [done|]. unfold count in *. cbn [List.filter length].
  destruct y as [[k v]|]; cbn [slot_ok fst] in Hxy.
  - pose proof (fingerprint_range (hasher_ k)).
    assert ((kDeleted =? x) = false /\ (kEmpty =? x) = false) as [-> ->] by (unfold kEmpty, kDeleted; split; apply Z.eqb_neq; lia).
    cbn [omap list_omap id length]. lia.
  - destruct Hxy as [-> | ->]; cbn; lia.
Qed.

Lemma exists_empty t : tinv t -> capacity_ t <> 0%nat -> exists i, (i < capacity_ t)%nat /\ ctl t !! i = Some kEmpty.
Proof.
  intros Hi Hc. pose proof (slot_counts _ _ (inv_slots _ Hi)) as Hn. destruct (inv_control _ Hi) as [_ Hl].
  destruct (inv_free _ Hi) as [|Hf]; [done|]. rewrite (inv_size _ Hi), (inv_tombstones _ Hi) in Hf. unfold entries in Hf.
  unfold count in Hn at 2. destruct (List.filter (Z.eqb kEmpty) (ctl t)) as [|x l] eqn:E; [simpl in Hn; lia|].
  assert (Hin : In x (List.filter (Z.eqb kEmpty) (ctl t))) by (rewrite E; by left).
  apply List.filter_In in Hin as [Hin He]. apply Z.eqb_eq in He. subst x.
  apply list_elem_of_In, list_elem_of_lookup in Hin as (i & Hlk). exists i. split; [|done]. apply lookup_lt_Some in Hlk. lia.
Qed.

Lemma find_insert_index_spec md hash t :
  tinv t -> capacity_ t <> 0%nat -> 0 <= hash < 2 ^ 64 ->
  exists r, find_insert_index md hash t = Some r /\ free_at t (group_start_for hash t) r
    /\ (md = false -> ctl t !! r = Some kEmpty).
Proof.
  intros Hi Hc Hh. destruct (inv_control _ Hi) as [Hcon Hl]. unfold find_insert_index. rewrite Hcon.
  pose proof (insert_loop_spec GroupWidth (capacity_ t) width_pos (inv_cap _ Hi) Hc (ctl t) Hl md _ (start_bound t hash Hh Hc)) as Hspec.
  destruct (insert_loop _ _ _ _ _ _ _) as [r|]; [exists r; by destruct Hspec|]. destruct (exists_empty t Hi Hc) as (i & Hib & He). by destruct (Hspec i Hib) as [? _].
Qed.

(** ** The map a table represents *)

Definition to_map (t : Tb) : gmap K V := list_to_map (entries t).

Lemma entries_elem t k v : (k, v) ∈ entries t <-> exists i, slots_ t !! i = Some (Some (k, v)).
Proof.
  unfold entries. rewrite list_elem_of_omap. split.
  - intros (s & Hs & Hid). unfold id in Hid. subst. apply list_elem_of_lookup in Hs as (i & Hs). by exists i.
  - intros (i & Hs). exists (Some (k, v)). split; [by eapply list_elem_of_lookup_2|done].
Qed.

Lemma nodup_slots (sl : list (option (K * V))) :
  (forall i j k v v', sl !! i = Some (Some (k, v)) -> sl !! j = Some (Some (k, v')) -> i = j) -> NoDup (omap id sl).*1.
Proof.
  induction sl as [|s sl IH]; intros Hu; [constructor|].
  assert (Hu' : forall i j k v v', sl !! i = Some (Some (k, v)) -> sl !! j = Some (Some (k, v')) -> i = j).
  { intros i j k v v' H1 H2. pose proof (Hu (S i) (S j) k v v' H1 H2). lia. }
  destruct s as [[k v]|]; simpl; [|by apply IH]. constructor; [|by apply IH].
  intros Hin. apply list_elem_of_fmap in Hin as ([k' v'] & Hk & Hin). simpl in Hk. subst k'.
  apply list_elem_of_omap in Hin as (s & Hs & Hid). unfold id in Hid. subst.
  apply list_elem_of_lookup in Hs as (i & Hs). by specialize (Hu 0%nat (S i) k v v' eq_refl Hs).
Qed.

Lemma to_map_lookup t k v : tinv t -> to_map t !! k = Some v <-> exists i, slots_ t !! i = Some (Some (k, v)).
Proof.
  intros Hi. unfold to_map. rewrite <- entries_elem. symmetry. apply elem_of_list_to_map. apply nodup_slots, (inv_unique _ Hi).
Qed.

Lemma to_map_size t : tinv t -> size (to_map t) = size_ t.
Proof.
  intros Hi. rewrite (inv_size _ Hi), <- length_map_to_list. apply Permutation_length, map_to_list_to_map.
  apply nodup_slots, (inv_unique _ Hi).
Qed.

Lemma find_index_None key t : tinv t -> find_index key t = Some None -> to_map t !! key = None.
Proof.
  intros Hi Hf. destruct (find_index_spec key t Hi) as (r & Hr & Hs). rewrite Hr in Hf. injection Hf as ->.
  destruct (to_map t !! key) as [v|] eqn:E; [|done]. apply to_map_lookup in E as (i & E); [|done]. by specialize (Hs i v).
Qed.

(** *** Changing one slot *)

Definition some {A} (x : option A) : nat := match x with Some _ => 1%nat | None => 0%nat end.

Lemma omap_cons (x : option (K * V)) l :
  length (omap id (x :: l)) = (some x + length (omap id l))%nat.
Proof. by destruct x. Qed.

Lemma omap_insert (l : list (option (K * V))) i x y :
  l !! i = Some y -> (length (omap id (<[i := x]> l)) + some y = length (omap id l) + some x)%nat.
Proof.
  revert i. induction l as [|z l IH]; intros i Hi; [done|]. destruct i as [|i]; cbn [lookup list_lookup] in Hi.
  - injection Hi as ->. change (<[0%nat := x]> (y :: l)) with (x :: l). rewrite !omap_cons. lia.
  - change (<[S i := x]> (z :: l)) with (z :: <[i := x]> l). rewrite !omap_cons. specialize (IH i Hi). lia.
Qed.

Section change.
Variables (t t' : Tb) (i : nat) (c' : Z) (s' : option (K * V)).
Hypotheses (Hi : tinv t) (Hlt : (i < capacity_ t)%nat).
Hypotheses (Hcontrol : control_ t' = set_control i c' t) (Hslots : slots_ t' = <[i := s']> (slots_ t))
           (Hcap : capacity_ t' = capacity_ t).
Hypotheses (Hok : slot_ok c' s') (Hne : c' <> kEmpty).

Lemma change_control : control_ t' = mirrored GroupWidth (<[i := c']> (ctl t)).
Proof.
  destruct (inv_control _ Hi) as [Hc Hl]. rewrite Hcontrol. unfold set_control. rewrite Hc. apply set_control_mirrored; try done; [apply width_pos|apply (inv_cap _ Hi)|lia].
Qed.

Lemma change_ctl : ctl t' = <[i := c']> (ctl t).
Proof.
  unfold ctl at 1. rewrite change_control, Hcap. unfold mirrored. apply take_app_length'. rewrite length_insert. symmetry. apply (inv_control _ Hi).
Qed.

Lemma change_start h : group_start_for h t' = group_start_for h t.
Proof. unfold group_start_for. by rewrite Hcap. Qed.

Lemma change_reachable h j : reachable t h j -> reachable t' h j.
Proof.
  unfold reachable. rewrite Hcap, change_start, change_ctl. destruct (inv_control _ Hi) as [_ Hl]. apply reach_insert; (done || lia).
Qed.

Lemma change_lookup j e :
  slots_ t' !! j = Some (Some e) <-> (j = i /\ s' = Some e) \/ (j <> i /\ slots_ t !! j = Some (Some e)).
Proof.
  rewrite Hslots. assert (Hls : length (slots_ t) = capacity_ t).
  { rewrite <- (Forall2_length _ _ _ (inv_slots _ Hi)). apply (inv_control _ Hi). }
  destruct (decide (j = i)) as [->|Hj].
  - rewrite list_lookup_insert_eq by lia. split; [intros [= ->]; by left|]. by intros [[_ ->]|[? _]].
  - rewrite list_lookup_insert_ne by done. split; [by right|]. by intros [[? _]|[_ ?]].
Qed.

(** The rest of the invariant, from what the change says of keys and counts. *)
Lemma change_inv :
  (forall e, s' = Some e -> reachable t (hasher_ e.1) i
     /\ forall j v, j <> i -> slots_ t !! j <> Some (Some (e.1, v))) ->
  (forall s, slots_ t !! i = Some s -> size_ t' + some s = size_ t + some s')%nat ->
  (forall c, ctl t !! i = Some c ->
     tombstones_ t' + Nat.b2n (Z.eqb kDeleted c) = tombstones_ t + Nat.b2n (Z.eqb kDeleted c'))%nat ->
  (size_ t' + tombstones_ t' < capacity_ t)%nat ->
  tinv t'.
Proof.
  intros Hkey Hsz Htomb Hfree. destruct (inv_control _ Hi) as [_ Hl]. pose proof (inv_slots _ Hi) as Hsl.
  destruct (lookup_lt_is_Some_2 (ctl t) i) as [c Hc]; [lia|].
  destruct (Forall2_lookup_l _ _ _ _ _ Hsl Hc) as (s & Hs & _).
  split.
  - rewrite Hcap. apply (inv_cap _ Hi).
  - rewrite change_ctl, change_control, Hcap, length_insert. done.
  - rewrite change_ctl, Hslots. by apply Forall2_insert.
  - intros j j' k v v' H1 H2. apply change_lookup in H1, H2.
    destruct H1 as [[-> E1]|[N1 E1]], H2 as [[-> E2]|[N2 E2]]; auto.
    + destruct (Hkey _ E1) as [_ Hk]. by specialize (Hk j' v' N2).
    + destruct (Hkey _ E2) as [_ Hk]. by specialize (Hk j v N1).
    + by apply (inv_unique _ Hi _ _ k v v').
  - intros j k v Hj. apply change_reachable. apply change_lookup in Hj as [[-> E]|[_ E]].
    + by destruct (Hkey _ E).
    + by apply (inv_reach _ Hi _ _ v).
  - unfold entries. rewrite Hslots. pose proof (omap_insert (slots_ t) i s' s Hs). specialize (Hsz s Hs).
    pose proof (inv_size _ Hi) as Hsize. unfold entries in Hsize. lia.
  - rewrite change_ctl. pose proof (count_insert (Z.eqb kDeleted) (ctl t) i c c' Hc). specialize (Htomb c Hc).
    pose proof (inv_tombstones _ Hi). lia.
  - right. by rewrite Hcap.
Qed.
End change.

Lemma to_map_eq t (m : gmap K V) :
  tinv t -> (forall k v, (exists i, slots_ t !! i = Some (Some (k, v))) <-> m !! k = Some v) -> to_map t = m.
Proof. intros Hi Hm. apply map_eq. intros k. apply option_eq. intros v. rewrite to_map_lookup by done. apply Hm. Qed.

Lemma slots_length t : tinv t -> length (slots_ t) = capacity_ t.
Proof. intros Hi. rewrite <- (Forall2_length _ _ _ (inv_slots _ Hi)). apply (inv_control _ Hi). Qed.

(** A slot with a given content: the map changes at its key. *)
Lemma map_put t t' i k v :
  tinv t -> tinv t' -> (forall j v', j <> i -> slots_ t !! j <> Some (Some (k, v'))) ->
  (forall e, slots_ t !! i = Some (Some e) -> e.1 = k) ->
  (i < capacity_ t)%nat -> slots_ t' = <[i := Some (k, v)]> (slots_ t) -> to_map t' = <[k := v]> (to_map t).
Proof.
  intros Hi Hi' Hu Hold Hlt Hs. pose proof (slots_length t Hi) as Hlen. apply to_map_eq; [done|]. intros k' v'.
  destruct (decide (k' = k)) as [->|Hne].
  - rewrite lookup_insert_eq. split.
    + intros (j & Hj). rewrite Hs in Hj. destruct (decide (j = i)) as [->|Hji].
      * rewrite list_lookup_insert_eq in Hj by lia. by injection Hj as ->.
      * rewrite list_lookup_insert_ne in Hj by done. by apply Hu in Hj.
    + intros [= ->]. exists i. rewrite Hs. by rewrite list_lookup_insert_eq by lia.
  - rewrite lookup_insert_ne by done. rewrite to_map_lookup by done. rewrite Hs. split; intros (j & Hj).
    + destruct (decide (j = i)) as [->|Hji].
      * rewrite list_lookup_insert_eq in Hj by lia. injection Hj as -> ->. done.
      * rewrite list_lookup_insert_ne in Hj by done. by exists j.
    + exists j. rewrite list_lookup_insert_ne; [done|]. intros ->. by apply Hold in Hj.
Qed.

Lemma construct_spec t r k v :
  tinv t -> free_at t (group_start_for (hasher_ k) t) r ->
  (forall i v, slots_ t !! i <> Some (Some (k, v))) -> (size_ t + tombstones_ t + 1 < capacity_ t)%nat ->
  exists t', construct r (hasher_ k) k v t = Some t' /\ tinv t' /\ to_map t' = <[k := v]> (to_map t)
    /\ capacity_ t' = capacity_ t /\ storage_ t' = storage_ t /\ size_ t' = S (size_ t)
    /\ slots_ t' !! r = Some (Some (k, v)).
Proof.
  intros Hi [Hfree Hreach] Habs Hroom. destruct (inv_control _ Hi) as [Hcon Hl].
  assert (Hr : (r < capacity_ t)%nat) by (destruct Hfree as [Hf|Hf]; apply lookup_lt_Some in Hf; lia).
  assert (Hnone : slots_ t !! r = Some None).
  { assert (exists c, ctl t !! r = Some c /\ 128 <= c) as (c & Hc & Hge) by (unfold kEmpty, kDeleted in Hfree; destruct Hfree; eexists; split; eauto; lia).
    destruct (Forall2_lookup_l _ _ _ _ _ (inv_slots _ Hi) Hc) as ([e|] & Hs & Hok); [|done]. simpl in Hok.
    pose proof (fingerprint_range (hasher_ e.1)). lia. }
  assert (Hct : control_ t !! r = ctl t !! r) by (rewrite Hcon at 1; by rewrite mirrored_lookup by lia).
  unfold construct. rewrite (proj2 (Nat.ltb_lt _ _)) by done. eexists. split; [done|].
  match goal with |- tinv ?x /\ _ => set (t' := x) end.
  pose proof (fingerprint_range (hasher_ k)) as Hfp.
  assert (Htomb : forall c, ctl t !! r = Some c -> (tombstones_ t' + Nat.b2n (Z.eqb kDeleted c) = tombstones_ t)%nat).
  { intros c Hc. unfold t'. cbn [tombstones_]. rewrite Hct, Hc. cbn [from_option]. destruct (Z.eqb_spec kDeleted c) as [<-|]; [|simpl; lia].
    assert (1 <= tombstones_ t)%nat; [|simpl; lia]. rewrite (inv_tombstones _ Hi). unfold count.
    assert (Hin : In kDeleted (List.filter (Z.eqb kDeleted) (ctl t))).
    { apply List.filter_In. split; [apply list_elem_of_In; by eapply list_elem_of_lookup_2|apply Z.eqb_refl]. }
    destruct (List.filter _ _); [done|simpl; lia]. }
  assert (Hi' : tinv t').
  { apply (change_inv t t' r (fingerprint (hasher_ k)) (Some (k, v))); auto; [done|..].
    - unfold kEmpty. lia.
    - intros e [= <-]. simpl. split; [by destruct Hreach as (g & o & ? & ? & ? & ?); exists g, o|]. intros j v' _. apply Habs.
    - intros s Hs. rewrite Hnone in Hs. injection Hs as <-. simpl. lia.
    - intros c Hc. rewrite (Htomb c Hc). rewrite (proj2 (Z.eqb_neq kDeleted _)); [simpl; lia|]. unfold kDeleted. lia.
    - destruct (lookup_lt_is_Some_2 (ctl t) r) as [c Hc]; [lia|]. specialize (Htomb c Hc). change (size_ t') with (S (size_ t)). lia. }
  split_and!; auto.
  - apply (map_put t t' r); auto. intros e He. congruence.
  - simpl. apply list_lookup_insert_eq. by rewrite slots_length.
Qed.

Lemma erase_index_spec t i k v :
  tinv t -> slots_ t !! i = Some (Some (k, v)) ->
  tinv (erase_index i t) /\ to_map (erase_index i t) = delete k (to_map t).
Proof.
  intros Hi Hs. pose proof (slots_length t Hi) as Hlen. pose proof (lookup_lt_Some _ _ _ Hs) as Hlt.
  pose proof (slot_byte t i k v Hi Hs) as Hb. pose proof (fingerprint_range (hasher_ k)) as Hfp.
  assert (Hpos : (1 <= size_ t)%nat).
  { rewrite (inv_size _ Hi). assert (Hin : (k, v) ∈ entries t) by (apply entries_elem; by exists i).
    destruct (entries t); [by apply not_elem_of_nil in Hin|simpl; lia]. }
  assert (Hi' : tinv (erase_index i t)).
  { apply (change_inv t (erase_index i t) i kDeleted None); cbn [size_ tombstones_ slots_ erase_index]; auto; try done; try lia.
    - by right.
    - intros s Hs'. rewrite Hs in Hs'. injection Hs' as <-. simpl. lia.
    - intros c Hc. rewrite Hb in Hc. injection Hc as <-. rewrite (proj2 (Z.eqb_neq kDeleted _)); [simpl; lia|]. unfold kDeleted. lia.
    - destruct (inv_free _ Hi); lia. }
  split; [done|]. apply to_map_eq; [done|]. intros k' v'. destruct (decide (k' = k)) as [->|Hne].
  - rewrite lookup_delete_eq. split; [|done]. intros (j & Hj). simpl in Hj. destruct (decide (j = i)) as [->|Hji].
    + by rewrite list_lookup_insert_eq in Hj by lia.
    + rewrite list_lookup_insert_ne in Hj by done. by pose proof (inv_unique _ Hi _ _ _ _ _ Hj Hs).
  - rewrite lookup_delete_ne by done. rewrite to_map_lookup by done. simpl. split; intros (j & Hj).
    + destruct (decide (j = i)) as [->|Hji]; [by rewrite list_lookup_insert_eq in Hj by lia|].
      rewrite list_lookup_insert_ne in Hj by done. by exists j.
    + exists j. rewrite list_lookup_insert_ne; [done|]. intros ->. congruence.
Qed.

Lemma set_slot_spec t i k v v' :
  tinv t -> slots_ t !! i = Some (Some (k, v)) ->
  tinv (set_slot i (k, v') t) /\ to_map (set_slot i (k, v') t) = <[k := v']> (to_map t).
Proof.
  intros Hi Hs. pose proof (slots_length t Hi) as Hlen. pose proof (lookup_lt_Some _ _ _ Hs) as Hlt.
  pose proof (slot_byte t i k v Hi Hs) as Hb. destruct (inv_control _ Hi) as [Hcon Hl].
  assert (Hsame : set_control i (fingerprint (hasher_ k)) t = control_ t).
  { unfold set_control. rewrite Hcon. rewrite set_control_mirrored by (done || apply width_pos || apply (inv_cap _ Hi) || lia). by rewrite list_insert_id. }
  assert (Hi' : tinv (set_slot i (k, v') t)).
  { apply (change_inv t (set_slot i (k, v') t) i (fingerprint (hasher_ k)) (Some (k, v'))); simpl; auto.
    - lia.
    - pose proof (fingerprint_range (hasher_ k)). unfold kEmpty. lia.
    - intros e [= <-]. simpl. split; [by apply (inv_reach _ Hi _ _ v)|]. intros j v2 Hj Hs2.
      by apply Hj, (inv_unique _ Hi _ _ _ _ _ Hs2 Hs).
    - intros s Hs'. rewrite Hs in Hs'. injection Hs' as <-. done.
    - intros c Hc. rewrite Hb in Hc. by injection Hc as <-.
    - destruct (inv_free _ Hi); lia. }
  split; [done|]. apply (map_put t _ i); auto; [|intros e He; by replace e with (k, v) by congruence|lia].
  intros j v2 Hj Hs2. by apply Hj, (inv_unique _ Hi _ _ _ _ _ Hs2 Hs).
Qed.

(** *** Rebuilding *)

Lemma allocate_ctl st cap : (GroupWidth <= cap)%nat -> ctl (allocate st cap) = replicate cap kEmpty.
Proof. intros. unfold ctl. simpl. by rewrite take_replicate, Nat.min_l by lia. Qed.

Lemma allocate_inv st cap :
  (cap mod GroupWidth = 0)%nat -> (GroupWidth <= cap)%nat -> tinv (allocate st cap) /\ to_map (allocate st cap) = ∅.
Proof.
  intros Hm Hg. pose proof (allocate_ctl st cap Hg) as Hc.
  assert (Hnone : forall i e, slots_ (allocate st cap) !! i <> Some (Some e)).
  { intros i e Hs. simpl in Hs. by apply lookup_replicate in Hs as [Hs _]. }
  assert (Hen : entries (allocate st cap) = []).
  { destruct (entries (allocate st cap)) as [|[k v] l] eqn:E; [done|]. exfalso.
    assert (Hin : (k, v) ∈ entries (allocate st cap)) by (rewrite E; by left). apply entries_elem in Hin as (i & Hin). by apply Hnone in Hin. }
  split; [|unfold to_map; by rewrite Hen]. split.
  - done.
  - rewrite Hc, length_replicate. split; [|done]. simpl. unfold mirrored. by rewrite replicate_add, take_replicate, Nat.min_l by lia.
  - rewrite Hc. simpl. clear. induction cap; constructor; simpl; auto.
  - intros i j k v v' Hs. by apply Hnone in Hs.
  - intros i k v Hs. by apply Hnone in Hs.
  - by rewrite Hen.
  - rewrite Hc. simpl. by rewrite count_replicate.
  - right. simpl. lia.
Qed.

Lemma insert_existing_spec k v t :
  tinv t -> tombstones_ t = 0%nat -> to_map t !! k = None -> (size_ t + 1 < capacity_ t)%nat ->
  exists t', insert_existing (k, v) t = Some t' /\ tinv t' /\ tombstones_ t' = 0%nat
    /\ to_map t' = <[k := v]> (to_map t) /\ capacity_ t' = capacity_ t /\ storage_ t' = storage_ t /\ size_ t' = S (size_ t).
Proof.
  intros Hi Ht Hk Hroom. assert (Hc : capacity_ t <> 0%nat) by lia.
  destruct (find_insert_index_spec false (hasher_ k) t Hi Hc (hash_range k)) as (r & Hr & Hf & He). specialize (He eq_refl).
  destruct (construct_spec t r k v Hi Hf) as (t' & Hcon & Hi' & Hm & Hcap & Hst & Hsz & _).
  { intros i v' Hs. assert (to_map t !! k = Some v') by (apply to_map_lookup; [done|by exists i]). congruence. }
  { lia. }
  unfold insert_existing. cbn [fst]. rewrite Ht, Hr. cbn [negb Nat.eqb mbind option_bind].
  unfold construct in Hcon. destruct (Nat.ltb_spec r (capacity_ t)) as [Hlt|]; [|done]. injection Hcon as Hcon.
  destruct (inv_control _ Hi) as [Hctl Hl].
  assert (Hct : control_ t !! r = Some kEmpty) by (rewrite Hctl at 1; by rewrite mirrored_lookup by lia).
  rewrite Hct in Hcon. cbn [from_option] in Hcon. change (Z.eqb kDeleted kEmpty) with false in Hcon. cbn iota in Hcon.
  exists t'. rewrite <- Ht, Hcon. split_and!; auto. by rewrite <- Hcon.
Qed.

Lemma insert_all_spec l t :
  tinv t -> tombstones_ t = 0%nat -> NoDup l.*1 -> (forall k v, (k, v) ∈ l -> to_map t !! k = None) ->
  (size_ t + length l < capacity_ t)%nat ->
  exists t', insert_all l t = Some t' /\ tinv t' /\ tombstones_ t' = 0%nat
    /\ to_map t' = list_to_map l ∪ to_map t /\ capacity_ t' = capacity_ t /\ storage_ t' = storage_ t
    /\ size_ t' = (size_ t + length l)%nat.
Proof.
  revert t. induction l as [|[k v] l IH]; intros t Hi Ht Hnd Hfresh Hroom; cbn [insert_all].
  { exists t. simpl. split_and!; auto. by rewrite map_empty_union. }
  apply NoDup_cons in Hnd as [Hk Hnd]. simpl in Hroom.
  destruct (insert_existing_spec k v t Hi Ht) as (t1 & H1 & Hi1 & Ht1 & Hm1 & Hc1 & Hst1 & Hs1); [apply (Hfresh k v); by left|lia|].
  rewrite H1. cbn [mbind option_bind]. destruct (IH t1) as (t2 & H2 & Hi2 & Ht2 & Hm2 & Hc2 & Hst2 & Hs2); auto.
  - intros k' v' Hin. rewrite Hm1, lookup_insert_ne; [apply (Hfresh k' v'); by right|]. intros ->. apply Hk.
    apply list_elem_of_fmap. by exists (k', v').
  - lia.
  - exists t2. split_and!; auto; try congruence; [|simpl; lia]. rewrite Hm2, Hm1. simpl. rewrite <- insert_union_l.
    symmetry. apply insert_union_r. by apply not_elem_of_list_to_map_1.
Qed.

Lemma normalized_multiple c :
  Z.of_nat GroupWidth <= c -> c mod Z.of_nat GroupWidth = 0 -> normalized c = Z.to_nat c.
Proof. intros H1 H2. unfold normalized. rewrite (proj2 (Z.ltb_ge _ _)) by lia. rewrite H2. f_equal. lia. Qed.

(** A rebuild keeps the map, drops the tombstones and moves to new storage. *)
Lemma wp_rehash requested (Q : unit -> world Tb -> Prop) E w :
  tinv (obj w) -> Z.of_nat GroupWidth <= requested -> requested mod Z.of_nat GroupWidth = 0 ->
  Z.of_nat (size_ (obj w)) < requested ->
  (forall m t', (unlimited (mem w) -> m = mem w) -> tinv t' -> to_map t' = to_map (obj w) ->
     capacity_ t' = Z.to_nat requested -> tombstones_ t' = 0%nat -> size_ t' = size_ (obj w) ->
     storage_ t' = S (storage_ (obj w)) -> Q tt (World m t')) ->
  (~ unlimited (mem w) -> forall m, E MaxMemoryExceeded (World m (obj w))) ->
  wp (rehash requested) Q E w.
Proof.
  intros Hi Hge Hmod Hsz HQ HE. unfold rehash. rewrite (normalized_multiple requested Hge Hmod).
  set (cap := Z.to_nat requested). apply wp_bind, wp_obj_get. unfold id.
  assert (Hcm : (cap mod GroupWidth = 0)%nat) by (apply Nat2Z.inj; rewrite Nat2Z.inj_mod; unfold cap; rewrite Z2Nat.id by lia; done).
  destruct (allocate_inv (S (storage_ (obj w))) cap Hcm ltac:(lia)) as [Hia Hma].
  destruct (insert_all_spec (entries (obj w)) (allocate (S (storage_ (obj w))) cap)) as (t' & Hr & Hi' & Ht' & Hm' & Hc' & Hst' & Hs'); auto.
  { apply nodup_slots, (inv_unique _ Hi). }
  { intros k v _. by rewrite Hma. }
  { simpl. rewrite <- (inv_size _ Hi). lia. }
  assert (Hafter : forall m, (unlimited (mem w) -> m = mem w) ->
    wp (replacement ← need (insert_all (entries (obj w)) (allocate (S (storage_ (obj w))) cap)); obj_mod (fun _ => replacement))
      Q E (World m (obj w))).
  { intros m Hm. apply wp_bind, (wp_need _ t'); [done|]. apply wp_obj_mod. simpl. apply HQ; auto.
    - rewrite Hm', Hma, map_union_empty. done.
    - rewrite Hs'. simpl. by rewrite <- (inv_size _ Hi). }
  apply wp_bind, wp_when; intros _.
  - apply wp_ensure_memory_growth; [done|]. intros Hu m. by apply HE.
  - destruct w as [m t]. by apply Hafter.
Qed.

(** *** Making room *)

Lemma capacity_multiple t : tinv t -> Z.of_nat (capacity_ t) mod Z.of_nat GroupWidth = 0.
Proof. intros Hi. rewrite <- Nat2Z.inj_mod, (inv_cap _ Hi). done. Qed.

Lemma size_lt_capacity t : tinv t -> (capacity_ t = 0 /\ size_ t = 0 \/ size_ t < capacity_ t)%nat.
Proof.
  intros Hi. destruct (inv_free _ Hi) as [H0|Hf]; [|right; lia]. left. split; [done|]. rewrite (inv_size _ Hi).
  pose proof (slots_length t Hi) as Hl. rewrite H0 in Hl. unfold entries. by destruct (slots_ t).
Qed.

Lemma page_pos : 0 < page.
Proof. nia. Qed.

Lemma wp_ensure_capacity (Q : unit -> world Tb -> Prop) E w :
  tinv (obj w) -> Z.of_nat (capacity_ (obj w)) < 2 ^ 50 ->
  (forall m t', (unlimited (mem w) -> m = mem w) -> tinv t' -> to_map t' = to_map (obj w) ->
     (size_ t' + tombstones_ t' + 1 < capacity_ t')%nat -> Q tt (World m t')) ->
  (~ unlimited (mem w) -> forall m, E MaxMemoryExceeded (World m (obj w))) ->
  wp ensure_capacity_for_insert Q E w.
Proof.
  intros Hi Hb HQ HE. pose proof page_pos as Hpp. pose proof (capacity_multiple _ Hi) as Hmul.
  apply wp_bind, wp_obj_get. unfold id. destruct (Nat.eqb_spec (capacity_ (obj w)) 0) as [H0|H0].
  - destruct (page_aligned_spec sizeof_slot page (Z.of_nat GroupWidth) Hpp Hslot ltac:(lia) (Z.of_nat GroupWidth) 1) as (G1 & G2 & _).
    destruct (size_lt_capacity _ Hi) as [[_ Hs]|]; [|lia].
    apply wp_rehash; auto; [lia|]. intros m t' Hm Hi' Hmap Hcap Ht Hsz _. apply HQ; auto. lia.
  - destruct (size_lt_capacity _ Hi) as [[? _]|Hs]; [done|]. apply wp_when; intros Hfull.
    + pose proof (growth_gives_group sizeof_slot page (Z.of_nat GroupWidth) Hpp Hslot ltac:(lia)
        (grown_target (Z.of_nat (capacity_ (obj w)))) (Z.of_nat (capacity_ (obj w))) Hpage Hmul ltac:(lia)) as Hg.
      destruct (page_aligned_spec sizeof_slot page (Z.of_nat GroupWidth) Hpp Hslot ltac:(lia)
        (grown_target (Z.of_nat (capacity_ (obj w)))) (current_pages sizeof_slot page (Z.of_nat (capacity_ (obj w))) + 1)) as (G1 & G2 & _).
      apply wp_rehash; auto; [lia|]. intros m t' Hm Hi' Hmap Hcap Ht Hsz _. apply HQ; auto. lia.
    + rewrite Z.gtb_ltb, Z.ltb_ge in Hfull. pose proof (max_usable_lt (Z.of_nat (capacity_ (obj w))) ltac:(lia)).
      destruct w as [m t]. apply HQ; auto. simpl in *. lia.
Qed.

Lemma wp_reserve n (Q : unit -> world Tb -> Prop) E w :
  tinv (obj w) -> Z.of_nat (capacity_ (obj w)) < 2 ^ 50 -> n < 2 ^ 50 ->
  (forall m t', tinv t' -> to_map t' = to_map (obj w) -> Q tt (World m t')) ->
  (~ unlimited (mem w) -> forall m, E MaxMemoryExceeded (World m (obj w))) ->
  wp (reserve n) Q E w.
Proof.
  intros Hi Hb Hn HQ HE. pose proof page_pos as Hpp. pose proof (capacity_multiple _ Hi) as Hmul.
  apply wp_bind, wp_obj_get. unfold id. case_bool; [destruct w; by apply wp_ret, HQ|].
  pose proof (max_usable_nonneg (Z.of_nat (capacity_ (obj w))) ltac:(lia)).
  pose proof (capacity_for_size_grows sizeof_slot page (Z.of_nat GroupWidth) Hpp Hslot ltac:(lia) n
    (Z.of_nat (capacity_ (obj w))) ltac:(lia) ltac:(lia) Hmul ltac:(lia)) as Hgrow.
  destruct (capacity_for_size_shape sizeof_slot page (Z.of_nat GroupWidth) Hpp Hslot ltac:(lia) n ltac:(lia)) as [G1 G2].
  destruct (size_lt_capacity _ Hi); apply wp_rehash; auto; lia.
Qed.

(** The capacity [reserve_additional] tries first when the table is too full. *)
Lemma first_target t :
  tinv t -> Z.of_nat (capacity_ t) < 2 ^ 40 ->
  let capacity := Z.of_nat (capacity_ t) in
  let grown := grown_target capacity in
  let target := if capacity =? 0 then page_aligned (Z.of_nat GroupWidth) 1
                else page_aligned (if grown >? capacity then grown else capacity + Z.of_nat GroupWidth)
                       (current_pages sizeof_slot page capacity + 1) in
  Z.of_nat GroupWidth <= target < 2 ^ 50 /\ target mod Z.of_nat GroupWidth = 0
  /\ (capacity <> 0 -> capacity + Z.of_nat GroupWidth <= target).
Proof.
  intros Hi Hb capacity grown target. pose proof page_pos as Hpp. pose proof (capacity_multiple _ Hi) as Hmul. fold capacity in Hmul, Hb.
  assert (HG : Z.of_nat GroupWidth <= page) by nia. unfold target. destruct (Z.eqb_spec capacity 0) as [Hz|Hz].
  - destruct (page_aligned_spec sizeof_slot page (Z.of_nat GroupWidth) Hpp Hslot ltac:(lia) (Z.of_nat GroupWidth) 1) as (G1 & G2 & _).
    pose proof (page_aligned_upper sizeof_slot page (Z.of_nat GroupWidth) Hpp Hslot ltac:(lia) (Z.of_nat GroupWidth) 1 ltac:(lia) ltac:(lia) ltac:(nia)).
    split_and!; auto; lia.
  - pose proof (grown_target_bounds capacity ltac:(lia)) as Hgr. fold grown in Hgr.
    set (want := if grown >? capacity then grown else capacity + Z.of_nat GroupWidth).
    assert (Hwant : capacity <= want <= 2 * capacity + 1 + page) by (unfold want; destruct (Z.gtb_spec grown capacity); lia).
    destruct (page_aligned_spec sizeof_slot page (Z.of_nat GroupWidth) Hpp Hslot ltac:(lia) want (current_pages sizeof_slot page capacity + 1)) as (G1 & G2 & _).
    pose proof (growth_gives_group sizeof_slot page (Z.of_nat GroupWidth) Hpp Hslot ltac:(lia) want capacity Hpage Hmul ltac:(lia)) as Hg.
    assert (Hcp : 0 <= current_pages sizeof_slot page capacity) by (apply Z.div_pos; nia).
    assert (Hcp2 : current_pages sizeof_slot page capacity * page <= capacity * sizeof_slot + page - 1).
    { unfold current_pages. rewrite Z.mul_comm. apply Z.mul_div_le. lia. }
    pose proof (page_aligned_upper sizeof_slot page (Z.of_nat GroupWidth) Hpp Hslot ltac:(lia) want (current_pages sizeof_slot page capacity + 1)
      ltac:(lia) ltac:(lia) ltac:(nia)). split_and!; auto; lia.
Qed.

Lemma wp_reserve_additional n (Q : unit -> world Tb -> Prop) E w :
  tinv (obj w) -> Z.of_nat (capacity_ (obj w)) < 2 ^ 40 -> 0 <= n < 2 ^ 40 ->
  (forall m t', (unlimited (mem w) -> m = mem w) -> tinv t' -> to_map t' = to_map (obj w) ->
     (storage_ t' = storage_ (obj w) -> t' = obj w) -> Z.of_nat (capacity_ t') < 2 ^ 50 ->
     (n <> 0 -> (size_ t' + tombstones_ t' + 1 < capacity_ t')%nat) -> Q tt (World m t')) ->
  (~ unlimited (mem w) -> forall m, E MaxMemoryExceeded (World m (obj w))) ->
  wp (reserve_additional n) Q E w.
Proof.
  intros Hi Hb Hn HQ HE. pose proof page_pos as Hpp. unfold reserve_additional.
  destruct (Z.eqb_spec n 0) as [->|Hne]; [destruct w; apply wp_ret, HQ; auto; simpl in *; lia|].
  pose proof (size_lt_capacity _ Hi) as Hsc. apply wp_bind, wp_obj_get. unfold id, u64_max.
  destruct (Z.gtb_spec n (2 ^ 64 - 1 - Z.of_nat (size_ (obj w)))); [lia|]. cbv zeta.
  set (usable := max_usable (Z.of_nat (capacity_ (obj w)))).
  assert (Hus : (capacity_ (obj w) = 0%nat /\ usable = 0) \/ usable < Z.of_nat (capacity_ (obj w))).
  { destruct (decide (capacity_ (obj w) = 0%nat)) as [Hz|]; [left; unfold usable; by rewrite Hz|right; apply max_usable_lt; lia]. }
  destruct ((_ <=? usable) && _ && _) eqn:Hfit.
  { apply wp_ret. destruct w as [m t]. apply HQ; auto; [simpl in *; lia|]. intros _. apply andb_true_iff in Hfit as [Hfit F3].
    apply andb_true_iff in Hfit as [_ F2]. apply Z.leb_le in F2, F3. simpl in *. lia. }
  assert (Hnew : forall c, Z.of_nat GroupWidth <= c -> c mod Z.of_nat GroupWidth = 0 -> Z.of_nat (size_ (obj w)) + 1 < c < 2 ^ 50 -> wp (rehash c) Q E w).
  { intros c C1 C2 C3. apply wp_rehash; auto; [lia|]. intros m t' Hm Hi' Hmap Hcap Ht Hsz Hst. apply HQ; auto; [lia|lia|]. intros _. lia. }
  destruct (first_target (obj w) Hi Hb) as ([T1 T2] & T3 & T4).
  destruct (Z.gtb_spec (Z.of_nat (size_ (obj w)) + n) usable) as [Hgt|Hle].
  - match goal with |- context [Z.gtb ?a (max_usable ?b)] => set (target := b) in *; destruct (Z.gtb_spec a (max_usable target)) end.
    + pose proof (capacity_for_size_grows sizeof_slot page (Z.of_nat GroupWidth) Hpp Hslot ltac:(lia) (Z.of_nat (size_ (obj w)) + n)
        target ltac:(lia) ltac:(lia) T3 ltac:(lia)) as Hgrow.
      destruct (capacity_for_size_shape sizeof_slot page (Z.of_nat GroupWidth) Hpp Hslot ltac:(lia) (Z.of_nat (size_ (obj w)) + n) ltac:(lia)) as [G1 G2].
      pose proof (capacity_for_size_upper sizeof_slot page (Z.of_nat GroupWidth) Hpp Hslot ltac:(lia)
        (Z.of_nat (size_ (obj w)) + n) ltac:(lia) Hpage_small ltac:(nia)).
      apply Hnew; auto. lia.
    + apply Hnew; auto. lia.
  - assert (Hz : capacity_ (obj w) <> 0%nat) by lia. pose proof (capacity_groups _ Hi Hz) as Hg.
    apply Hnew; [lia|by apply capacity_multiple|lia].
Qed.

(** *** Map operations *)

Lemma find_spec key t : tinv t -> find key t = Some (to_map t !! key).
Proof.
  intros Hi. unfold find. destruct (find_index_spec key t Hi) as (r & Hr & Hs). rewrite Hr. cbn [mbind option_bind].
  destruct r as [i|].
  - destruct Hs as [v Hs]. rewrite Hs. cbn [mbind option_bind snd]. do 2 f_equal. symmetry. apply to_map_lookup; [done|by exists i].
  - f_equal. symmetry. by apply find_index_None.
Qed.

Lemma assign_found_spec key v t :
  tinv t -> is_Some (to_map t !! key) ->
  exists t', assign_found key v t = Some t' /\ tinv t' /\ to_map t' = <[key := v]> (to_map t) /\ capacity_ t' = capacity_ t.
Proof.
  intros Hi [v0 Hk]. unfold assign_found. destruct (find_index_spec key t Hi) as (r & Hr & Hs). rewrite Hr. cbn [mbind option_bind].
  destruct r as [i|]; [|by rewrite (find_index_None key t Hi Hr) in Hk]. destruct Hs as [v1 Hs]. cbn [mbind option_bind].
  rewrite Hs. cbn [mbind option_bind fst]. destruct (set_slot_spec t i key v1 v Hi Hs) as [Hi' Hm']. by exists (set_slot i (key, v) t).
Qed.

(** What an insertion of a new key gives, in any world. *)
Lemma new_entry key v t :
  tinv t -> (forall i v, slots_ t !! i <> Some (Some (key, v))) -> (size_ t + tombstones_ t + 1 < capacity_ t)%nat ->
  exists r t', find_insert_index true (hasher_ key) t = Some r /\ construct r (hasher_ key) key v t = Some t'
    /\ tinv t' /\ to_map t' = <[key := v]> (to_map t) /\ slots_ t' !! r = Some (Some (key, v)).
Proof.
  intros Hi Habs Hroom. destruct (find_insert_index_spec true (hasher_ key) t Hi ltac:(lia) (hash_range key)) as (r & Hr & Hf & _).
  destruct (construct_spec t r key v Hi Hf Habs Hroom) as (t' & Hc & Hi' & Hm & _ & _ & _ & Hs). exists r, t'. done.
Qed.

Lemma wp_insert_or_assign key v (Q : nat * bool -> world Tb -> Prop) E w :
  tinv (obj w) -> Z.of_nat (capacity_ (obj w)) < 2 ^ 50 ->
  (forall m t' i, (unlimited (mem w) -> m = mem w) -> tinv t' -> to_map t' = <[key := v]> (to_map (obj w)) ->
     slots_ t' !! i = Some (Some (key, v)) ->
     Q (i, bool_decide (to_map (obj w) !! key = None)) (World m t')) ->
  (~ unlimited (mem w) -> forall m, E MaxMemoryExceeded (World m (obj w))) ->
  wp (insert_or_assign key v) Q E w.
Proof.
  intros Hi Hb HQ HE. apply wp_bind, wp_ensure_capacity; auto. intros m t Hm Hit Hmap Hroom.
  apply wp_bind, wp_obj_get. unfold id. simpl. rewrite <- Hmap in HQ.
  destruct (find_index_spec key t Hit) as (r & Hr & Hs). unfold find_index in Hr. apply wp_bind, (wp_need _ r); [done|].
  destruct r as [i|].
  - destruct Hs as [v0 Hs]. apply wp_bind, (wp_need _ (Some (key, v0))); [done|]. apply wp_bind, (wp_need _ (key, v0)); [done|].
    apply wp_bind, wp_obj_mod, wp_ret. simpl. destruct (set_slot_spec t i key v0 v Hit Hs) as [Hi' Hm'].
    assert (Hk : to_map t !! key = Some v0) by (apply to_map_lookup; [done|by exists i]).
    specialize (HQ m (set_slot i (key, v) t) i Hm Hi' Hm'). rewrite Hk in HQ. rewrite bool_decide_eq_false_2 in HQ by done. apply HQ.
    simpl. apply list_lookup_insert_eq. by apply lookup_lt_Some in Hs.
  - destruct (new_entry key v t Hit Hs Hroom) as (r & t' & Hr' & Hc & Hi' & Hm' & Hs'). apply wp_bind, (wp_need _ r); [done|].
    apply wp_bind, (wp_need _ t'); [done|]. apply wp_bind, wp_obj_mod, wp_ret. simpl.
    assert (Hk : to_map t !! key = None) by (by apply find_index_None; [|unfold find_index]).
    specialize (HQ m t' r Hm Hi' Hm' Hs'). by rewrite Hk, bool_decide_eq_true_2 in HQ by done.
Qed.

Lemma wp_try_emplace key v (Q : nat * bool -> world Tb -> Prop) E w :
  tinv (obj w) -> Z.of_nat (capacity_ (obj w)) < 2 ^ 50 ->
  (forall m t' i, (unlimited (mem w) -> m = mem w) -> tinv t' ->
     to_map t' = <[key := default v (to_map (obj w) !! key)]> (to_map (obj w)) ->
     slots_ t' !! i = Some (Some (key, default v (to_map (obj w) !! key))) ->
     Q (i, bool_decide (to_map (obj w) !! key = None)) (World m t')) ->
  (~ unlimited (mem w) -> forall m, E MaxMemoryExceeded (World m (obj w))) ->
  wp (try_emplace key v) Q E w.
Proof.
  intros Hi Hb HQ HE. apply wp_bind, wp_ensure_capacity; auto. intros m t Hm Hit Hmap Hroom.
  apply wp_bind, wp_obj_get. unfold id. simpl. rewrite <- Hmap in HQ.
  destruct (find_index_spec key t Hit) as (r & Hr & Hs). unfold find_index in Hr. apply wp_bind, (wp_need _ r); [done|].
  destruct r as [i|].
  - destruct Hs as [v0 Hs]. assert (Hk : to_map t !! key = Some v0) by (apply to_map_lookup; [done|by exists i]).
    rewrite Hk in HQ. rewrite bool_decide_eq_false_2 in HQ by done. apply wp_ret. apply HQ; auto. simpl.
    symmetry. by apply insert_id.
  - destruct (new_entry key v t Hit Hs Hroom) as (r & t' & Hr' & Hc & Hi' & Hm' & Hs'). apply wp_bind, (wp_need _ r); [done|].
    apply wp_bind, (wp_need _ t'); [done|]. apply wp_bind, wp_obj_mod, wp_ret. simpl.
    assert (Hk : to_map t !! key = None) by (by apply find_index_None; [|unfold find_index]).
    rewrite Hk in HQ. rewrite bool_decide_eq_true_2 in HQ by done. by apply HQ.
Qed.

Lemma wp_erase key (Q : bool -> world Tb -> Prop) E w :
  tinv (obj w) ->
  (forall t', tinv t' -> to_map t' = delete key (to_map (obj w)) -> capacity_ t' = capacity_ (obj w) ->
     Q (bool_decide (is_Some (to_map (obj w) !! key))) (World (mem w) t')) ->
  wp (erase key) Q E w.
Proof.
  intros Hi HQ. apply wp_bind, wp_obj_get. unfold id. destruct (find_index_spec key (obj w) Hi) as (r & Hr & Hs).
  apply wp_bind, (wp_need _ r); [done|]. destruct r as [i|].
  - destruct Hs as [v Hs]. apply wp_bind, wp_obj_mod, wp_ret. destruct (erase_index_spec _ i key v Hi Hs) as [Hi' Hm'].
    assert (Hk : to_map (obj w) !! key = Some v) by (apply to_map_lookup; [done|by exists i]).
    rewrite Hk in HQ. rewrite bool_decide_eq_true_2 in HQ by done. by apply HQ.
  - assert (Hk : to_map (obj w) !! key = None) by (by apply find_index_None).
    rewrite Hk in HQ. rewrite bool_decide_eq_false_2 in HQ by (by intros [? ?]). apply wp_ret. destruct w as [m t]. apply HQ; [done| |done].
    symmetry. by apply delete_id.
Qed.

(** *** Removal by predicate *)

Lemma is_full_slot t i :
  tinv t -> (i < capacity_ t)%nat -> is_full t i = true <-> exists e, slots_ t !! i = Some (Some e).
Proof.
  intros Hi Hlt. destruct (inv_control _ Hi) as [Hcon Hl]. destruct (lookup_lt_is_Some_2 (ctl t) i) as [c Hc]; [lia|].
  assert (Hct : control_ t !! i = Some c) by (rewrite Hcon; by rewrite mirrored_lookup by lia).
  unfold is_full. rewrite Hct. cbn [from_option]. unfold is_full_control. rewrite Z.ltb_lt.
  destruct (Forall2_lookup_l _ _ _ _ _ (inv_slots _ Hi) Hc) as ([e|] & Hs & Hok); rewrite Hs; simpl in Hok.
  - pose proof (fingerprint_range (hasher_ e.1)). split; [intros _; by exists e|]. intros _. unfold kEmpty. lia.
  - split; [unfold kEmpty, kDeleted in *; lia|by intros [e [=]]].
Qed.

(** The entries at or after slot [i] that satisfy the predicate are removed. *)
Lemma erase_if_loop_spec p n i t erased :
  tinv t -> (i + n = capacity_ t)%nat ->
  exists erased' t', erase_if_loop n i p t erased = Some (erased', t') /\ tinv t'
    /\ (forall k v, to_map t' !! k = Some v <->
          exists j, slots_ t !! j = Some (Some (k, v)) /\ ((j < i)%nat \/ p (k, v) = false))
    /\ (erased' + size_ t' = erased + size_ t)%nat.
Proof.
  revert i t erased. induction n as [|n IH]; intros i t erased Hi Hin; cbn [erase_if_loop].
  { exists erased, t. split_and!; auto. intros k v. rewrite to_map_lookup by done. split.
    - intros (j & Hj). exists j. split; [done|]. left. apply lookup_lt_Some in Hj. rewrite slots_length in Hj by done. lia.
    - intros (j & Hj & _). by exists j. }
  assert (Hstep : forall erased' t', tinv t' ->
    (forall k v, to_map t' !! k = Some v <-> exists j, slots_ t !! j = Some (Some (k, v)) /\ ((j < S i)%nat \/ p (k, v) = false)) ->
    (forall e, slots_ t !! i = Some (Some e) -> p e = false) -> (erased' + size_ t' = erased + size_ t)%nat ->
    tinv t' /\ (forall k v, to_map t' !! k = Some v <->
          exists j, slots_ t !! j = Some (Some (k, v)) /\ ((j < i)%nat \/ p (k, v) = false))
    /\ (erased' + size_ t' = erased + size_ t)%nat).
  { intros erased' t' Hi' Hmap Hne Hsz. split_and!; auto. intros k v. rewrite Hmap. split; intros (j & Hj & Hor); exists j; (split; [done|]).
    - destruct Hor as [Hlt|]; [|by right]. destruct (decide (j = i)) as [->|]; [right; by apply Hne|left; lia].
    - destruct Hor; [left; lia|by right]. }
  destruct (is_full t i) eqn:Hfull; simpl.
  - apply is_full_slot in Hfull as [e He]; [|done|lia]. rewrite He. cbn [mbind option_bind]. destruct (p e) eqn:Hp.
    + destruct e as [k0 v0]. destruct (erase_index_spec t i k0 v0 Hi He) as [Hi1 _].
      destruct (IH (S i) (erase_index i t) (S erased) Hi1 ltac:(simpl; lia)) as (er & t' & Hr & Hi' & Hmap & Hsz).
      exists er, t'. split_and!; auto.
      * intros k v. rewrite Hmap. simpl. pose proof (slots_length t Hi) as Hlen. split; intros (j & Hj & Hor); exists j.
        -- destruct (decide (j = i)) as [->|]; [by rewrite list_lookup_insert_eq in Hj by lia|].
           rewrite list_lookup_insert_ne in Hj by done. split; [done|]. destruct Hor; [left; lia|by right].
        -- assert (j <> i) by (intros ->; destruct Hor; [lia|congruence]). rewrite list_lookup_insert_ne by done.
           split; [done|]. destruct Hor; [left; lia|by right].
      * simpl in Hsz. rewrite (inv_size _ Hi) in *. assert (Hin' : (k0, v0) ∈ entries t) by (apply entries_elem; by exists i).
        destruct (entries t); [by apply not_elem_of_nil in Hin'|]. simpl in *. lia.
    + destruct (IH (S i) t erased Hi ltac:(lia)) as (er & t' & Hr & Hi' & Hmap & Hsz). exists er, t'. split; [done|].
      apply Hstep; auto. intros e' He'. by replace e' with e by congruence.
  - destruct (IH (S i) t erased Hi ltac:(lia)) as (er & t' & Hr & Hi' & Hmap & Hsz). exists er, t'. split; [done|].
    apply Hstep; auto. intros e' He'. assert (is_full t i = true) by (apply is_full_slot; [done|lia|by exists e']). congruence.
Qed.

Lemma wp_erase_if p (Q : nat -> world Tb -> Prop) E w :
  tinv (obj w) ->
  (forall t', tinv t' -> to_map t' = filter (fun kv => p kv = false) (to_map (obj w)) ->
     Q (size_ (obj w) - size_ t')%nat (World (mem w) t')) ->
  wp (erase_if p) Q E w.
Proof.
  intros Hi HQ. apply wp_bind, wp_obj_get. unfold id.
  destruct (erase_if_loop_spec p (capacity_ (obj w)) 0 (obj w) 0 Hi ltac:(lia)) as (er & t' & Hr & Hi' & Hmap & Hsz).
  apply wp_bind, (wp_need _ (er, t')); [done|]. apply wp_bind, wp_obj_mod, wp_ret. simpl.
  replace er with (size_ (obj w) - size_ t')%nat by lia. apply HQ; [done|].
  apply map_eq. intros k. apply option_eq. intros v. rewrite Hmap, map_lookup_filter_Some, to_map_lookup by done. split.
  - intros (j & Hj & [?|Hp]); [lia|]. split; [by exists j|done].
  - intros [(j & Hj) Hp]. exists j. auto.
Qed.

Lemma clear_spec t : tinv t -> tinv (clear t) /\ to_map (clear t) = ∅.
Proof.
  intros Hi. destruct (inv_control _ Hi) as [Hcon Hl]. destruct (decide (capacity_ t = 0%nat)) as [H0|H0].
  - assert (Hc : control_ t = []) by (rewrite Hcon; destruct (ctl t); [unfold mirrored; by rewrite take_nil|simpl in Hl; lia]).
    unfold clear. rewrite Hc, H0. split; [|done]. split; simpl.
    + apply Nat.Div0.mod_0_l.
    + unfold ctl, mirrored. simpl. by rewrite take_nil.
    + constructor.
    + by intros.
    + by intros.
    + done.
    + done.
    + by left.
  - pose proof (capacity_groups t Hi H0) as Hg. pose proof (allocate_inv (storage_ t) (capacity_ t) (inv_cap _ Hi) Hg) as Ha.
    assert (Hlen : length (control_ t) = (capacity_ t + GroupWidth)%nat) by (rewrite Hcon; unfold mirrored; rewrite length_app, length_take; lia).
    unfold clear. rewrite Hlen. exact Ha.
Qed.

(** *** Tokens *)

(** What a token of [find_insert_slot] says about the table it was taken from. *)
Definition token_ok (key : K) (slot : InsertSlot) (t : Tb) : Prop :=
  hash slot = hasher_ key /\ storage slot = storage_ t
  /\ if value slot then exists i v, index slot = Some i /\ slots_ t !! i = Some (Some (key, v))
     else to_map t !! key = None
       /\ (capacity_ t <> 0%nat -> exists i, index slot = Some i /\ free_at t (group_start_for (hasher_ key) t) i).

Lemma absent_slots key t : tinv t -> to_map t !! key = None -> forall i v, slots_ t !! i <> Some (Some (key, v)).
Proof. intros Hi Hk i v Hs. assert (to_map t !! key = Some v) by (apply to_map_lookup; [done|by exists i]). congruence. Qed.

Lemma find_insert_slot_spec key t : tinv t -> exists slot, find_insert_slot key t = Some slot /\ token_ok key slot t.
Proof.
  intros Hi. unfold find_insert_slot. destruct (Nat.eqb_spec (capacity_ t) 0) as [Hc|Hc].
  { eexists. split; [done|]. split_and!; [done|done|]. simpl. split; [|done].
    destruct (to_map t !! key) as [v|] eqn:E; [|done]. apply to_map_lookup in E as (i & E); [|done].
    apply lookup_lt_Some in E. rewrite slots_length in E by done. lia. }
  destruct (find_index_spec key t Hi) as (r & Hr & Hs). unfold find_index, find_index_with_hash in Hr. rewrite (proj2 (Nat.eqb_neq _ _) Hc) in Hr.
  rewrite find_or_insert_two_walks, Hr. cbn [mbind option_bind]. eexists. split; [done|]. split_and!; [by destruct r..|]. destruct r as [i|]; cbn [value index fst snd].
  - destruct Hs as [v Hv]. by exists i, v.
  - split; [by destruct (to_map t !! key) as [v|] eqn:E; [apply to_map_lookup in E as (i & E); [by apply Hs in E|done]|]|]. intros _.
    destruct (find_insert_index_spec (negb (Nat.eqb (tombstones_ t) 0)) (hasher_ key) t Hi Hc (hash_range key)) as (i & Hi' & Hf & _). by exists i.
Qed.

Lemma free_not_full t s r : tinv t -> free_at t s r -> (r < capacity_ t)%nat /\ is_full t r = false.
Proof.
  intros Hi [Hf _]. destruct (inv_control _ Hi) as [Hcon Hl].
  assert (Hr : (r < capacity_ t)%nat) by (destruct Hf as [Hf|Hf]; apply lookup_lt_Some in Hf; lia). split; [done|].
  assert (Hct : control_ t !! r = ctl t !! r) by (rewrite Hcon at 1; by rewrite mirrored_lookup by lia).
  unfold is_full. rewrite Hct. by destruct Hf as [-> | ->].
Qed.

(** Reserving for a miss gives a token for a table with room. *)
Lemma wp_reserve_insert_slot key slot (Q : InsertSlot -> world Tb -> Prop) E w :
  tinv (obj w) -> Z.of_nat (capacity_ (obj w)) < 2 ^ 40 -> token_ok key slot (obj w) -> value slot = false ->
  (forall m t' slot', (unlimited (mem w) -> m = mem w) -> tinv t' -> to_map t' = to_map (obj w) ->
     token_ok key slot' t' -> value slot' = false -> (size_ t' + tombstones_ t' + 1 < capacity_ t')%nat -> Q slot' (World m t')) ->
  (~ unlimited (mem w) -> forall m, E MaxMemoryExceeded (World m (obj w))) ->
  wp (reserve_insert_slot slot) Q E w.
Proof.
  intros Hi Hb Htok Hv HQ HE. pose proof Htok as (Hh & Hst & Hval). rewrite Hv in Hval. destruct Hval as [Hk Hidx].
  apply wp_bind, wp_obj_get, wp_bind, wp_require; [by rewrite Hv, Hst, Nat.eqb_refl|].
  apply wp_bind, wp_reserve_additional; auto; [lia|]. intros m t' Hm Hi' Hmap Hsame _ Hroom. specialize (Hroom ltac:(lia)).
  apply wp_bind, wp_obj_get. unfold id. simpl. rewrite Hst. destruct (Nat.eqb_spec (storage_ (obj w)) (storage_ t')) as [Heq|Hne].
  - specialize (Hsame (eq_sym Heq)). subst t'. destruct (Hidx ltac:(lia)) as (i & Hi0 & Hf).
    apply wp_bind, (wp_need _ i); [done|]. destruct (free_not_full _ _ _ Hi Hf) as [_ Hnf].
    apply wp_bind, wp_require; [by rewrite Hnf|]. apply wp_ret, HQ; auto.
  - destruct (find_insert_index_spec true (hash slot) t' Hi' ltac:(lia) ltac:(rewrite Hh; apply hash_range)) as (r & Hr & Hf & _).
    apply wp_bind, (wp_need _ r); [done|]. destruct (free_not_full _ _ _ Hi' Hf) as [_ Hnf].
    apply wp_bind, wp_require; [by rewrite Hnf|]. apply wp_ret, HQ; auto. split_and!; simpl; auto. rewrite Hv.
    split; [by rewrite Hmap|]. intros _. exists r. by rewrite <- Hh.
Qed.

Lemma wp_commit_insert_slot key v slot (Q : nat -> world Tb -> Prop) E w :
  tinv (obj w) -> token_ok key slot (obj w) -> value slot = false ->
  (size_ (obj w) + tombstones_ (obj w) + 1 < capacity_ (obj w))%nat ->
  (forall i t', tinv t' -> to_map t' = <[key := v]> (to_map (obj w)) -> slots_ t' !! i = Some (Some (key, v)) ->
     Q i (World (mem w) t')) ->
  wp (commit_insert_slot slot key v) Q E w.
Proof.
  intros Hi (Hh & Hst & Hval) Hv Hroom HQ. rewrite Hv in Hval. destruct Hval as [Hk Hidx].
  destruct (Hidx ltac:(lia)) as (i & Hi0 & Hf). destruct (free_not_full _ _ _ Hi Hf) as [_ Hnf].
  destruct (construct_spec (obj w) i key v Hi Hf (absent_slots key _ Hi Hk) Hroom) as (t' & Hc & Hi' & Hm & _ & _ & _ & Hs).
  apply wp_bind, wp_obj_get, wp_bind, wp_require; [by rewrite Hv, Hst, Nat.eqb_refl|].
  apply wp_bind, (wp_need _ i); [done|]. apply wp_bind, wp_require; [unfold id; by rewrite Hnf|].
  apply wp_bind, (wp_need _ t'); [unfold id; by rewrite Hh|]. apply wp_bind, wp_obj_mod, wp_ret. by apply HQ.
Qed.

Lemma wp_erase_slot key slot (Q : bool -> world Tb -> Prop) E w :
  tinv (obj w) -> token_ok key slot (obj w) ->
  (forall t', tinv t' -> to_map t' = delete key (to_map (obj w)) -> Q (value slot) (World (mem w) t')) ->
  wp (erase_slot slot) Q E w.
Proof.
  intros Hi (Hh & Hst & Hval) HQ. apply wp_bind, wp_obj_get, wp_bind, wp_require; [by rewrite Hst, Nat.eqb_refl|].
  destruct (value slot) eqn:Hv; simpl.
  - destruct Hval as (i & v & Hix & Hs). apply wp_bind, (wp_need _ i); [done|].
    assert (Hlt : (i < capacity_ (obj w))%nat) by (rewrite <- slots_length by done; by apply lookup_lt_Some in Hs).
    apply wp_bind, wp_require; [apply is_full_slot; [done|done|by exists (key, v)]|]. apply wp_bind, wp_obj_mod, wp_ret.
    destruct (erase_index_spec _ i key v Hi Hs). by apply HQ.
  - destruct Hval as [Hk _]. apply wp_ret. destruct w as [m t]. apply HQ; [done|]. symmetry. by apply delete_id.
Qed.

Lemma empty_table_inv : tinv empty_table.
Proof.
  split; simpl.
  - apply Nat.Div0.mod_0_l.
  - unfold ctl, mirrored. simpl. by rewrite take_nil.
  - constructor.
  - by intros.
  - by intros.
  - done.
  - done.
  - by left.
Qed.

(** ** The contract of the table *)

(** C11: whatever the hash function, the table behaves as a finite map: lookups
    give the value of the key, an insertion or assignment updates the map and tells
    whether the key is new, an emplacement keeps an existing value, an erasure
    deletes the key and tells whether it was there; rebuilds, tombstones and probing
    across the end of the slots do not show.  Only a memory limit makes an
    insertion throw, and then the table is as it was. *)
Theorem swiss_table_refines_map (key : K) (v : V) (w : world Tb) :
  tinv (obj w) -> Z.of_nat (capacity_ (obj w)) < 2 ^ 50 ->
  find key (obj w) = Some (to_map (obj w) !! key)
  /\ size_ (obj w) = size (to_map (obj w))
  /\ wp (insert_or_assign key v)
       (fun r w' => tinv (obj w') /\ to_map (obj w') = <[key := v]> (to_map (obj w))
          /\ slots_ (obj w') !! r.1 = Some (Some (key, v)) /\ r.2 = bool_decide (to_map (obj w) !! key = None))
       (fun e w' => e = MaxMemoryExceeded /\ ~ unlimited (mem w) /\ obj w' = obj w) w
  /\ wp (try_emplace key v)
       (fun r w' => tinv (obj w') /\ to_map (obj w') = <[key := default v (to_map (obj w) !! key)]> (to_map (obj w))
          /\ r.2 = bool_decide (to_map (obj w) !! key = None))
       (fun e w' => e = MaxMemoryExceeded /\ ~ unlimited (mem w) /\ obj w' = obj w) w
  /\ wp (erase key)
       (fun r w' => tinv (obj w') /\ to_map (obj w') = delete key (to_map (obj w))
          /\ r = bool_decide (is_Some (to_map (obj w) !! key)))
       (fun _ _ => False) w.
Proof.
  intros Hi Hb. split_and!.
  - by apply find_spec.
  - symmetry. by apply to_map_size.
  - apply wp_insert_or_assign; auto.
  - apply wp_try_emplace; auto.
  - apply wp_erase; auto.
Qed.

(** Iteration visits each entry of the map once, removal by predicate keeps
    exactly the other entries and returns how many it removed, [clear] leaves the
    empty map, and the two reservations change nothing of the map even when they
    rebuild the table. *)
Theorem swiss_table_bulk (p : K * V -> bool) (n : Z) (w : world Tb) :
  tinv (obj w) -> Z.of_nat (capacity_ (obj w)) < 2 ^ 40 -> 0 <= n < 2 ^ 40 ->
  entries (obj w) ≡ₚ map_to_list (to_map (obj w))
  /\ wp (erase_if p)
       (fun r w' => tinv (obj w') /\ to_map (obj w') = filter (fun kv => p kv = false) (to_map (obj w))
          /\ r = (size (to_map (obj w)) - size (to_map (obj w')))%nat)
       (fun _ _ => False) w
  /\ (tinv (clear (obj w)) /\ to_map (clear (obj w)) = ∅)
  /\ wp (reserve n) (fun _ w' => tinv (obj w') /\ to_map (obj w') = to_map (obj w))
       (fun e w' => e = MaxMemoryExceeded /\ ~ unlimited (mem w) /\ obj w' = obj w) w
  /\ wp (reserve_additional n) (fun _ w' => tinv (obj w') /\ to_map (obj w') = to_map (obj w))
       (fun e w' => e = MaxMemoryExceeded /\ ~ unlimited (mem w) /\ obj w' = obj w) w.
Proof.
  intros Hi Hb Hn. split_and!.
  - symmetry. apply map_to_list_to_map, nodup_slots, (inv_unique _ Hi).
  - apply wp_erase_if; auto. intros t' Hi' Hm. rewrite !to_map_size by done. done.
  - by apply clear_spec.
  - by apply clear_spec.
  - apply wp_reserve; auto; lia.
  - apply wp_reserve_additional; auto.
Qed.

(** The token protocol does what the single operations do.  A lookup token is a
    hit exactly for a key of the map; erasing through it deletes the key without
    probing again; after a miss, reserving and committing insert the key, no second
    lookup needed, although the reservation may have moved the table. *)
Theorem swiss_table_tokens (key : K) (v : V) (w : world Tb) :
  tinv (obj w) -> Z.of_nat (capacity_ (obj w)) < 2 ^ 40 ->
  exists slot, find_insert_slot key (obj w) = Some slot
    /\ value slot = bool_decide (is_Some (to_map (obj w) !! key))
    /\ wp (erase_slot slot)
         (fun r w' => r = value slot /\ tinv (obj w') /\ to_map (obj w') = delete key (to_map (obj w))) (fun _ _ => False) w
    /\ (value slot = false ->
        wp (slot ← reserve_insert_slot slot; commit_insert_slot slot key v)
          (fun i w' => tinv (obj w') /\ to_map (obj w') = <[key := v]> (to_map (obj w))
             /\ slots_ (obj w') !! i = Some (Some (key, v)))
          (fun e w' => e = MaxMemoryExceeded /\ ~ unlimited (mem w) /\ obj w' = obj w) w).
Proof.
  intros Hi Hb. destruct (find_insert_slot_spec key (obj w) Hi) as (slot & Hf & Htok). exists slot. split_and!; auto.
  - pose proof Htok as (_ & _ & Hval). destruct (value slot).
    + destruct Hval as (i & v0 & _ & Hs). symmetry. apply bool_decide_eq_true_2. exists v0. apply to_map_lookup; [done|by exists i].
    + destruct Hval as [-> _]. symmetry. apply bool_decide_eq_false_2. by intros [? ?].
  - apply (wp_erase_slot key); auto.
  - intros Hv. apply wp_bind, (wp_reserve_insert_slot key); auto. intros m t' slot' Hm Hi' Hmap Htok' Hv' Hroom.
    apply wp_commit_insert_slot; auto. intros i t2 Hi2 Hm2 Hs2. simpl in *. by rewrite Hm2, Hmap.
Qed.
End table.

#[global] Arguments SwissTable : clear implicits.

(** ** Concrete tables *)

Section samples.
(** Integer keys with a multiplicative hash. *)
Definition sample_hash (k : Z) : Z := (k * 11400714819323198485) mod 2 ^ 64.

Lemma sample_hash_range k : 0 <= sample_hash k < 2 ^ 64.
Proof. apply Z.mod_pos_bound. lia. Qed.

Fixpoint insert_keys (sizeof_slot : Z) (keys : list Z) : M (world (SwissTable Z Z)) unit :=
  match keys with
  | [] => mret tt
  | k :: keys => insert_or_assign sample_hash Z.eqb sizeof_slot 4096 16 k (k * k);; insert_keys sizeof_slot keys
  end.
Definition table_of (sizeof_slot : Z) (keys : list Z) : SwissTable Z Z :=
  match insert_keys sizeof_slot keys (World None empty_table) with
  | Ok _ w => obj w
  | _ => empty_table
  end.

Definition sample_insert : Z -> Z -> M (world (SwissTable Z Z)) (nat * bool) :=
  insert_or_assign sample_hash Z.eqb 12 4096 16.
Definition sample_table : SwissTable Z Z := table_of 12 [5; 7].

Lemma table_step_inv t k v :
  tinv sample_hash 16 t -> Z.of_nat (capacity_ t) < 2 ^ 50 ->
  match sample_insert k v (World None t) with Ok _ w => tinv sample_hash 16 (obj w) | _ => True end.
Proof.
  intros Hi Hb. assert (H : wp (sample_insert k v) (fun _ w => tinv sample_hash 16 (obj w)) (fun _ _ => True) (World None t)).
  { apply (wp_insert_or_assign sample_hash Z.eqb 12 4096 16 Z.eqb_eq sample_hash_range); auto; lia. }
  unfold wp in H. by destruct (sample_insert k v (World None t)).
Qed.

Lemma sample_table_inv : tinv sample_hash 16 sample_table.
Proof.
  pose proof (table_step_inv empty_table 5 25 (empty_table_inv sample_hash 16) ltac:(simpl; lia)) as H1.
  destruct (sample_insert 5 25 (World None empty_table)) as [r1 [m1 t1]| |] eqn:E1; [|vm_compute in E1; discriminate..].
  assert (Hm1 : m1 = None) by (vm_compute in E1; congruence). subst m1.
  assert (Hc1 : Z.of_nat (capacity_ t1) < 2 ^ 50) by (vm_compute in E1; injection E1 as _ <-; reflexivity).
  pose proof (table_step_inv t1 7 49 H1 Hc1) as H2.
  assert (Ht : sample_table = match sample_insert 7 49 (World None t1) with Ok _ w => obj w | _ => empty_table end).
  { unfold sample_table, table_of. cbn [insert_keys]. change (5 * 5) with 25. change (7 * 7) with 49. fold sample_insert.
    unfold mbind, M_bind. rewrite E1. by destruct (sample_insert 7 49 (World None t1)). }
  rewrite Ht. destruct (sample_insert 7 49 (World None t1)); [done|apply empty_table_inv..].
Qed.

Lemma swiss_table_refines_map_witness :
  find sample_hash Z.eqb 16 7 sample_table = Some (to_map sample_table !! 7) /\ to_map sample_table !! 7 = Some 49.
Proof.
  split; [|vm_compute; reflexivity].
  destruct (swiss_table_refines_map sample_hash Z.eqb 12 4096 16 Z.eqb_eq sample_hash_range
              ltac:(lia) ltac:(lia) ltac:(lia) ltac:(lia) 7 0 (World None sample_table)) as (H & _).
  - exact sample_table_inv.
  - vm_compute. reflexivity.
  - exact H.
Defined.

Lemma swiss_table_bulk_witness :
  entries sample_table ≡ₚ map_to_list (to_map sample_table) /\ length (entries sample_table) = 2%nat.
Proof.
  split; [|vm_compute; reflexivity].
  destruct (swiss_table_bulk sample_hash 12 4096 16 sample_hash_range
              ltac:(lia) ltac:(lia) ltac:(lia) ltac:(lia) (fun e => e.1 =? 5) 3 (World None sample_table)) as (H & _).
  - exact sample_table_inv.
  - vm_compute. reflexivity.
  - lia.
  - exact H.
Defined.

Lemma swiss_table_tokens_witness :
  exists slot, find_insert_slot sample_hash Z.eqb 16 7 sample_table = Some slot /\ value slot = true.
Proof.
  destruct (swiss_table_tokens sample_hash Z.eqb 12 4096 16 Z.eqb_eq sample_hash_range
              ltac:(lia) ltac:(lia) ltac:(lia) ltac:(lia) 7 0 (World None sample_table)) as (slot & H1 & H2 & _).
  - exact sample_table_inv.
  - vm_compute. reflexivity.
  - exists slot. split; [exact H1|]. rewrite H2. vm_compute. reflexivity.
Defined.

(** The capacity that [capacity_for_size] gives can be too small, because it is
    rounded down to whole groups after it was rounded up to whole pages.  With slots
    of 12 bytes and pages of 4096, reserving for 313 entries gives 336 slots, of
    which 309 may be used; and with slots of 88 bytes the copy of a table of 41
    entries gets 32 slots and writes past them. *)
Theorem swiss_reserve_short :
  capacity_for_size 12 4096 16 313 = 336 /\ max_usable 336 = 309
  /\ size_ (table_of 88 (map Z.of_nat (seq 0 41))) = 41%nat
  /\ capacity_for_size 88 4096 16 41 = 32
  /\ copy_of sample_hash 88 4096 16 (table_of 88 (map Z.of_nat (seq 0 41))) (World None empty_table) = Ub.
Proof. split_and!; vm_compute; reflexivity. Qed.
End samples.
