(* ===== verification/Containers.v ===== *)
(** * Interfaces of the ordered list and of the table

    What [ChunkedSortedList] and [SwissTable] promise to their clients, as type
    classes: the operations, a well-formedness predicate, the abstract value (a
    sorted sequence, a finite map) and the laws.  The clients are proved against
    these classes; the instances at the end discharge them. *)

From S2P Require Import Prelude MemoryLimit ChunkedSortedList SwissTable.
From stdpp Require Import gmap.
From Stdlib Require Import ZArith Lia Sorting.Sorted.

Local Open Scope Z_scope.

(** ** A sorted sequence *)

(** [seq_less] is the order of the elements; [seq_ready] says that an insertion
    can rely on the memory it may need. *)
Class SortedSeq (O T : Type) := {
  seq_new : O;
  seq_empty : O -> bool;
  seq_insert : T -> M (world O) unit;
  seq_erase_one : T -> M (world O) bool;
  seq_at : nat -> M (world O) T;
  seq_less : T -> T -> bool;
  seq_ok : O -> Prop;
  seq_list : O -> list T;
  seq_ready : world O -> Prop;
}.

(** Few enough elements for every size computation. *)
Definition short {T} (l : list T) : Prop := Z.of_nat (length l) <= 2 ^ 48.

Class SortedSeqLaws (O T : Type) `{SortedSeq O T} := {
  seq_new_ok : seq_ok seq_new /\ seq_list seq_new = [];
  seq_empty_spec o : seq_ok o -> seq_empty o = true <-> seq_list o = [];
  seq_sorted o : seq_ok o -> StronglySorted (fun a b => seq_less b a = false) (seq_list o);
  seq_ready_mem m m' o : (unlimited m -> m' = m) -> seq_ready (World m o) -> seq_ready (World m' o);
  seq_insert_spec v (w : world O) :
    seq_ok (obj w) -> seq_ready w ->
    wp (seq_insert v)
      (fun _ w' => seq_ok (obj w') /\ seq_list (obj w') ≡ₚ v :: seq_list (obj w)
         /\ (unlimited (mem w) -> mem w' = mem w))
      (fun _ w' => seq_ok (obj w') /\ seq_list (obj w') = seq_list (obj w)) w;
  seq_erase_one_spec v (w : world O) :
    seq_ok (obj w) -> short (seq_list (obj w)) ->
    (forall x, x ∈ seq_list (obj w) -> seq_less x v = false -> seq_less v x = false -> x = v) ->
    wp (seq_erase_one v)
      (fun found w' => seq_ok (obj w') /\ (unlimited (mem w) -> mem w' = mem w)
         /\ if found then v ∈ seq_list (obj w) /\ seq_list (obj w) ≡ₚ v :: seq_list (obj w')
            else ~ v ∈ seq_list (obj w) /\ seq_list (obj w') = seq_list (obj w))
      (fun _ _ => False) w;
  seq_at_spec n x (w : world O) :
    seq_ok (obj w) -> short (seq_list (obj w)) -> seq_list (obj w) !! n = Some x ->
    wp (seq_at n)
      (fun y w' => y = x /\ seq_ok (obj w') /\ seq_list (obj w') = seq_list (obj w))
      (fun _ _ => False) w;
}.

(** ** A table of keys *)

(** [tab_fit] says that the table is small enough to reserve in, [tab_ready] to
    insert in. *)
Class KeyTable (I K V : Type) `{Countable K} := {
  tab_new : I;
  tab_size : I -> nat;
  tab_find : K -> I -> option (option V);
  tab_assign_found : K -> V -> I -> option I;
  tab_insert_or_assign : K -> V -> M (world I) (nat * bool);
  tab_erase : K -> M (world I) bool;
  tab_reserve_additional : Z -> M (world I) unit;
  tab_entries : I -> list (K * V);
  tab_ok : I -> Prop;
  tab_map : I -> gmap K V;
  tab_fit : I -> Prop;
  tab_ready : I -> Prop;
}.

Class KeyTableLaws (I K V : Type) `{KeyTable I K V} := {
  tab_new_ok : tab_ok tab_new /\ tab_map tab_new = ∅ /\ tab_fit tab_new;
  tab_fit_ready t : tab_fit t -> tab_ready t;
  tab_size_spec t : tab_ok t -> tab_size t = size (tab_map t);
  tab_entries_spec t : tab_ok t -> tab_entries t ≡ₚ map_to_list (tab_map t);
  tab_find_spec k t : tab_ok t -> tab_find k t = Some (tab_map t !! k);
  tab_assign_found_spec k v t :
    tab_ok t -> is_Some (tab_map t !! k) ->
    exists t', tab_assign_found k v t = Some t' /\ tab_ok t' /\ tab_map t' = <[k := v]> (tab_map t);
  tab_insert_or_assign_spec k v (w : world I) :
    tab_ok (obj w) -> tab_ready (obj w) ->
    wp (tab_insert_or_assign k v)
      (fun _ w' => tab_ok (obj w') /\ tab_map (obj w') = <[k := v]> (tab_map (obj w))
         /\ (unlimited (mem w) -> mem w' = mem w))
      (fun _ w' => ~ unlimited (mem w) /\ obj w' = obj w) w;
  tab_erase_spec k (w : world I) :
    tab_ok (obj w) ->
    wp (tab_erase k)
      (fun _ w' => tab_ok (obj w') /\ tab_map (obj w') = delete k (tab_map (obj w)) /\ mem w' = mem w
         /\ (tab_ready (obj w) -> tab_ready (obj w')))
      (fun _ _ => False) w;
  tab_reserve_additional_spec n (w : world I) :
    tab_ok (obj w) -> tab_fit (obj w) -> 0 <= n < 2 ^ 40 ->
    wp (tab_reserve_additional n)
      (fun _ w' => tab_ok (obj w') /\ tab_map (obj w') = tab_map (obj w) /\ tab_ready (obj w')
         /\ (unlimited (mem w) -> mem w' = mem w))
      (fun _ w' => obj w' = obj w) w;
}.

(** ** The instances *)

Section sorted.
Context {T : Type} (compare_ : T -> T -> bool) (sizeof_T : Z) (Load : nat).

#[global] Instance chunked_sorted_seq : SortedSeq (ChunkedSortedList T) T := {
  seq_new := empty_list;
  seq_empty := is_empty;
  seq_insert := ChunkedSortedList.insert compare_ sizeof_T Load;
  seq_erase_one := erase_one compare_ sizeof_T Load;
  seq_at := at_;
  seq_less := compare_;
  seq_ok := ChunkedSortedList.inv compare_;
  seq_list := contents;
  seq_ready := insertable Load;
}.

Context (compare_asym : forall a b, compare_ a b = true -> compare_ b a = false).
Context (compare_cotrans : forall a b c, compare_ a c = true -> compare_ a b = true \/ compare_ b c = true).
Context (Load_big : (1 < Load)%nat) (Load_small : Z.of_nat Load <= 2 ^ 40) (sizeof_T_pos : 0 < sizeof_T <= 1024).

Lemma sorted_insert_perm v l : sorted_insert compare_ v l ≡ₚ v :: l.
Proof.
  unfold sorted_insert, insert_at. set (n := prefix_count _ l). clearbody n.
  rewrite <- Permutation_middle. by rewrite take_drop.
Qed.

Lemma erase_at_perm n (x : T) l : l !! n = Some x -> l ≡ₚ x :: erase_at n l.
Proof. intros Hx. unfold erase_at. rewrite <- (take_drop_middle l n x Hx) at 1. symmetry. apply Permutation_middle. Qed.

(** In a sorted sequence the rank finds an element that is there. *)
Lemma sorted_rank_spec v l :
  StronglySorted (ChunkedSortedList.le compare_) l -> (forall x, x ∈ l -> compare_ x v = false -> compare_ v x = false -> x = v) ->
  match sorted_rank compare_ v l with
  | Some n => l !! n = Some v
  | None => ~ v ∈ l
  end.
Proof.
  intros Hs Hu. unfold sorted_rank. set (n := prefix_count (fun x => compare_ x v) l).
  destruct (l !! n) as [x|] eqn:Hx; cbn [mbind option_bind].
  - unfold equivalent. destruct (compare_ x v) eqn:E1, (compare_ v x) eqn:E2; simpl.
    + by rewrite (compare_asym _ _ E1) in E2.
    + exfalso. assert (Hp : partitioned (fun x => compare_ x v) l) by (eapply sorted_partitioned; eauto; by apply closed_lower).
      pose proof (prefix_count_false _ l n x Hp Hx ltac:(done)) as Hf. simpl in Hf. congruence.
    + intros Hv. apply list_elem_of_lookup in Hv as (i & Hi).
      assert (Hni : (n <= i)%nat).
      { destruct (decide (n <= i)%nat); [done|]. pose proof (prefix_count_true (fun x => compare_ x v) l i v Hi ltac:(unfold n in *; lia)) as Hf.
        simpl in Hf. by rewrite (compare_asym _ _ Hf) in Hf. }
      assert (Hl : ChunkedSortedList.le compare_ x v) by (eapply sorted_lookup; eauto).
      unfold ChunkedSortedList.le in Hl. congruence.
    + rewrite Hx. f_equal. apply Hu; auto. by eapply list_elem_of_lookup_2.
  - intros Hv. apply list_elem_of_lookup in Hv as (i & Hi). apply lookup_ge_None in Hx. pose proof (lookup_lt_Some _ _ _ Hi).
    pose proof (prefix_count_true (fun x => compare_ x v) l i v Hi ltac:(unfold n in *; lia)) as Hf.
    simpl in Hf. by rewrite (compare_asym _ _ Hf) in Hf.
Qed.

Lemma chunked_sorted_laws : SortedSeqLaws (ChunkedSortedList T) T.
Proof.
  split; simpl.
  - split; [by eapply inv_empty|done].
  - intros o Hi. unfold is_empty. rewrite (ChunkedSortedList.inv_size _ _ Hi), Nat.eqb_eq. apply length_zero_iff_nil.
  - intros o Hi. apply (inv_sorted _ _ Hi).
  - intros m m' o Hm [(HU & Hr & Hb)|Hc]; [|by right]. left. simpl in *. by rewrite (Hm HU).
  - intros v w Hi Hr. apply wp_insert; auto.
    intros m l' Hm Hi' Hc _. split_and!; [done| |done]. simpl. rewrite Hc. apply sorted_insert_perm.
  - intros v w Hi Hs Hu. apply wp_erase_one; auto; [by rewrite (ChunkedSortedList.inv_size _ _ Hi)|].
    intros m l' Hm Hi' Hc. split_and!; [done..|]. simpl. pose proof (sorted_rank_spec v _ (inv_sorted _ _ Hi) Hu) as Hr.
    unfold sorted_erase in Hc. destruct (sorted_rank compare_ v (contents (obj w))) as [n|].
    + rewrite bool_decide_eq_true_2 by done. rewrite Hc. split; [by eapply list_elem_of_lookup_2|by apply erase_at_perm].
    + rewrite bool_decide_eq_false_2 by (by intros [? ?]). done.
  - intros n x w Hi Hs Hx. assert (Hfit : Z.of_nat (ChunkedSortedList.size_ (obj w)) <= 2 ^ 48) by (by rewrite (ChunkedSortedList.inv_size _ _ Hi)).
    eapply (wp_mono _ (reads compare_ w x) _ (fun _ _ => False)); [by eapply wp_at| |done].
    intros y w' (-> & H1 & H2 & _). done.
Qed.
End sorted.

Section swiss.
Context {K V : Type} `{Countable K}.
Context (hasher_ : K -> Z) (equal_ : K -> K -> bool) (sizeof_slot page : Z) (GroupWidth : nat).

#[global] Instance swiss_key_table : KeyTable (SwissTable K V) K V := {
  tab_new := empty_table;
  tab_size := SwissTable.size_;
  tab_find := SwissTable.find hasher_ equal_ GroupWidth;
  tab_assign_found := assign_found hasher_ equal_ GroupWidth;
  tab_insert_or_assign := SwissTable.insert_or_assign hasher_ equal_ sizeof_slot page GroupWidth;
  tab_erase := SwissTable.erase hasher_ equal_ GroupWidth;
  tab_reserve_additional := SwissTable.reserve_additional hasher_ sizeof_slot page GroupWidth;
  tab_entries := entries;
  tab_ok := tinv hasher_ GroupWidth;
  tab_map := to_map;
  tab_fit t := Z.of_nat (capacity_ t) < 2 ^ 40;
  tab_ready t := Z.of_nat (capacity_ t) < 2 ^ 50;
}.

Context (equal_spec : forall a b, equal_ a b = true <-> a = b).
Context (hash_range : forall k, 0 <= hasher_ k < 2 ^ 64).
Context (Hgroup : (1 < GroupWidth)%nat) (Hslot : 0 < sizeof_slot) (Hpage : Z.of_nat GroupWidth * sizeof_slot <= page)
        (Hpage_small : page <= 2 ^ 30).

Lemma swiss_table_laws : KeyTableLaws (SwissTable K V) K V.
Proof.
  split; simpl.
  - split_and!; [by eapply empty_table_inv|done|done].
  - lia.
  - intros t Hi. symmetry. by eapply to_map_size.
  - intros t Hi. symmetry. apply map_to_list_to_map. by eapply nodup_slots, (inv_unique _ _ _ Hi).
  - intros k t Hi. by eapply find_spec.
  - intros k v t Hi Hk. destruct (assign_found_spec hasher_ equal_ GroupWidth equal_spec hash_range Hgroup k v t Hi Hk)
      as (t' & H1 & H2 & H3 & _). by exists t'.
  - intros k v w Hi Hr. eapply wp_insert_or_assign; eauto.
  - intros k w Hi. eapply wp_erase; eauto. intros t' Hi' Hm Hc. split_and!; auto. simpl. by rewrite Hc.
  - intros n w Hi Hf Hn. eapply wp_reserve_additional; eauto.
Qed.
End swiss.
