(* ===== verification/TtlSet.v ===== *)
(** * The expiry set

    Models [include/goblin/core/ttl_set.hpp]: the keys with a time to live, as an
    ordered list of (expiry, key) entries and a table from key to expiry, every
    number packed in six bytes.  The two containers are used through the interfaces
    of [Containers]; the last section instantiates them. *)

From S2P Require Import Prelude MemoryLimit ChunkedSortedList SwissTable Containers.
From stdpp Require Import gmap.
From Stdlib Require Import ZArith Lia Sorting.Sorted.

Local Open Scope Z_scope.

(** ** Packed numbers *)

Definition load_u48 (p : bytes) : Z :=
  Z.lor (le_val (take 4 p)) (Z.shiftl (le_val (take 2 (drop 4 p))) 32).
Definition store_u48 (value : Z) : bytes :=
  le_bytes 4 (wrap 32 value) ++ le_bytes 2 (wrap 16 (Z.shiftr value 32)).

(** [PackedU48]: six bytes, compared as bytes. *)
Abbreviation PackedU48 := bytes.
Definition get (packed : PackedU48) : Z := load_u48 packed.
Definition pack (value : Z) : PackedU48 := store_u48 value.
Definition packed_equal (a b : PackedU48) : bool := bool_decide (a = b).

Record TtlEntry := { expiry_bytes : bytes; key_bytes : bytes }.
Definition expiry_ms (e : TtlEntry) : Z := load_u48 (expiry_bytes e).
Definition key (e : TtlEntry) : Z := load_u48 (key_bytes e).
Definition make (expiry_ms key : Z) : TtlEntry := {| expiry_bytes := store_u48 expiry_ms; key_bytes := store_u48 key |}.

(** [TtlEntryLess]. *)
Definition ttl_less (a b : TtlEntry) : bool :=
  if negb (expiry_ms a =? expiry_ms b) then expiry_ms a <? expiry_ms b else key a <? key b.

#[global] Instance TtlEntry_eq_dec : EqDecision TtlEntry.
Proof. solve_decision. Defined.

Definition u48 (z : Z) : Prop := 0 <= z < 2 ^ 48.

Lemma load_store_u48 v : u48 v -> load_u48 (store_u48 v) = v.
Proof.
  intros Hv. unfold u48 in Hv. unfold load_u48, store_u48.
  rewrite take_app_le, take_ge by (rewrite length_le_bytes; lia).
  rewrite drop_app_length', take_ge by (rewrite ?length_le_bytes; lia).
  pose proof (wrap_range 32 v ltac:(lia)). pose proof (wrap_range 16 (Z.shiftr v 32) ltac:(lia)).
  rewrite !le_val_bytes_small by lia. rewrite Z.lor_comm, lor_shift_add by lia.
  unfold wrap. rewrite Z.shiftr_div_pow2 by lia. rewrite (Z.mod_small (v / 2 ^ 32)).
  - pose proof (Z.div_mod v (2 ^ 32) ltac:(lia)). lia.
  - split; [apply Z.div_pos; lia|apply Z.div_lt_upper_bound; lia].
Qed.

Lemma pack_inj a b : u48 a -> u48 b -> pack a = pack b -> a = b.
Proof. intros Ha Hb He. unfold pack in He. by rewrite <- (load_store_u48 a), He, load_store_u48. Qed.

Lemma expiry_make e k : u48 e -> expiry_ms (make e k) = e.
Proof. apply load_store_u48. Qed.
Lemma key_make e k : u48 k -> key (make e k) = k.
Proof. apply load_store_u48. Qed.

Lemma make_inj e k e' k' : u48 e -> u48 k -> u48 e' -> u48 k' -> make e k = make e' k' -> e = e' /\ k = k'.
Proof.
  intros He Hk He' Hk' Hm. split.
  - by rewrite <- (expiry_make e k), Hm, expiry_make.
  - by rewrite <- (key_make e k), Hm, key_make.
Qed.

(** Entries are ordered by expiry, then by key: a strict weak order in which only
    equal numbers are equivalent. *)
Lemma ttl_less_spec a b :
  ttl_less a b = true <-> expiry_ms a < expiry_ms b \/ expiry_ms a = expiry_ms b /\ key a < key b.
Proof.
  unfold ttl_less. destruct (Z.eqb_spec (expiry_ms a) (expiry_ms b)); simpl; rewrite Z.ltb_lt; lia.
Qed.

Lemma ttl_less_asym a b : ttl_less a b = true -> ttl_less b a = false.
Proof. intros H. apply not_true_iff_false. rewrite ttl_less_spec in *. lia. Qed.

Lemma ttl_less_cotrans a b c : ttl_less a c = true -> ttl_less a b = true \/ ttl_less b c = true.
Proof. rewrite !ttl_less_spec. lia. Qed.

(** ** The set *)

Section ttl.
Context {Order Index : Type} {SO : SortedSeq Order TtlEntry} {TI : KeyTable Index PackedU48 PackedU48}.

Record TtlSet := { order_ : Order; index_ : Index }.
Abbreviation Op A := (M (world TtlSet) A).

Definition set_order (o : Order) (s : TtlSet) : TtlSet := {| order_ := o; index_ := index_ s |}.
Definition set_index (i : Index) (s : TtlSet) : TtlSet := {| order_ := order_ s; index_ := i |}.
Definition on_order {A} : M (world Order) A -> Op A := zoom order_ set_order.
Definition on_index {A} : M (world Index) A -> Op A := zoom index_ set_index.

Definition empty_set : TtlSet := {| order_ := seq_new; index_ := tab_new |}.
Definition size (s : TtlSet) : nat := tab_size (index_ s).
Definition empty (s : TtlSet) : bool := Nat.eqb (size s) 0.

Definition lookup_key (key_id : Z) : Op (option PackedU48) :=
  found ← obj_get (fun s => tab_find (pack key_id) (index_ s));
  need found.

Definition set (key_id expiry_ms : Z) : Op unit :=
  existing ← lookup_key key_id;
  match existing with
  | Some existing =>
      let old_entry := make (get existing) key_id in
      let new_entry := make expiry_ms key_id in
      on_order (seq_insert new_entry);;
      index ← obj_get (fun s => tab_assign_found (pack key_id) (pack expiry_ms) (index_ s));
      index ← need index;
      obj_mod (set_index index);;
      on_order (seq_erase_one old_entry);;
      mret tt
  | None =>
      on_index (tab_reserve_additional 1);;
      let entry := make expiry_ms key_id in
      on_order (seq_insert entry);;
      try_catch (on_index (tab_insert_or_assign (pack key_id) (pack expiry_ms));; mret tt)
        (fun e => on_order (seq_erase_one entry);; throw e)
  end.

Definition clear (key_id : Z) : Op bool :=
  existing ← lookup_key key_id;
  match existing with
  | None => mret false
  | Some existing =>
      on_order (seq_erase_one (make (get existing) key_id));;
      on_index (tab_erase (pack key_id));;
      mret true
  end.

Definition expiry (key_id : Z) (s : TtlSet) : option (option Z) :=
  match tab_find (pack key_id) (index_ s) with
  | Some existing => Some (option_map get existing)
  | None => None
  end.
Definition contains (key_id : Z) (s : TtlSet) : option bool :=
  match tab_find (V := PackedU48) (pack key_id) (index_ s) with
  | Some existing => Some (bool_decide (is_Some existing))
  | None => None
  end.

Definition rekey (from to : Z) : Op unit :=
  existing ← lookup_key from;
  match existing with
  | None => mret tt
  | Some existing =>
      let expiry_ms := get existing in
      on_order (seq_insert (make expiry_ms to));;
      on_order (seq_erase_one (make expiry_ms from));;
      on_index (tab_erase (pack from));;
      on_index (tab_insert_or_assign (pack to) (pack expiry_ms));;
      mret tt
  end.

(** [expire_due]: the callback is a computation on the same set; the loop runs at
    most [budget] times. *)
Fixpoint expire_due (budget : nat) (now_ms : Z) (fn : Z -> Op unit) (expired : nat) : Op nat :=
  match budget with
  | 0%nat => mret expired
  | S budget =>
      no_more ← obj_get (fun s => seq_empty (order_ s));
      if (no_more : bool) then mret expired
      else
        front ← on_order (seq_at 0);
        if expiry_ms front >? now_ms then mret expired
        else
          let key_id := key front in
          on_order (seq_erase_one front);;
          on_index (tab_erase (pack key_id));;
          fn key_id;;
          expire_due budget now_ms fn (S expired)
  end.

(** [for_each]: the pairs the visitor gets. *)
Definition for_each (s : TtlSet) : list (Z * Z) :=
  map (fun e => (get e.1, get e.2)) (tab_entries (index_ s)).

Definition clear_all (s : TtlSet) : TtlSet := empty_set.

(** ** What a set represents *)

Context {LO : SortedSeqLaws Order TtlEntry} {LI : KeyTableLaws Index PackedU48 PackedU48}.
Context (order_less : seq_less = ttl_less).

Definition entry_of (ke : Z * Z) : TtlEntry := make ke.2 ke.1.
Definition entries_of (m : gmap Z Z) : list TtlEntry := map entry_of (map_to_list m).
Definition packed_pair (ke : Z * Z) : PackedU48 * PackedU48 := (pack ke.1, pack ke.2).

(** Keys and expiries fit in 48 bits. *)
Definition u48_map (m : gmap Z Z) : Prop := forall k e, m !! k = Some e -> u48 k /\ u48 e.

(** An entry whose numbers survive packing. *)
Definition packed (x : TtlEntry) : Prop := exists e k, u48 e /\ u48 k /\ x = make e k.

Definition order_of (o : Order) (l : list TtlEntry) : Prop := seq_ok o /\ seq_list o ≡ₚ l.
Definition index_of (i : Index) (m : gmap Z Z) : Prop :=
  tab_ok i /\ forall kb eb, tab_map i !! kb = Some eb <-> exists k e, m !! k = Some e /\ kb = pack k /\ eb = pack e.

(** The set holds the map [m] from keys to expiries: the list is an arrangement of
    its entries and the table is the packed map. *)
Record holds (s : TtlSet) (m : gmap Z Z) : Prop := {
  h_u48 : u48_map m;
  h_order : order_of (order_ s) (entries_of m);
  h_index : index_of (index_ s) m;
}.

(** *** Maps of 48-bit numbers *)

Lemma u48_map_insert m k e : u48_map m -> u48 k -> u48 e -> u48_map (<[k := e]> m).
Proof.
  intros Hm Hk He k' e' H. destruct (decide (k' = k)) as [->|Hne].
  - rewrite lookup_insert_eq in H. by simplify_eq.
  - rewrite lookup_insert_ne in H by done. by apply Hm.
Qed.

Lemma u48_map_delete m k : u48_map m -> u48_map (delete k m).
Proof. intros Hm k' e' H. apply lookup_delete_Some in H as [_ H]. by apply Hm. Qed.

Lemma entries_insert m k e : m !! k = None -> entries_of (<[k := e]> m) ≡ₚ make e k :: entries_of m.
Proof. intros Hk. unfold entries_of. rewrite map_to_list_insert by done. done. Qed.

Lemma entries_delete m k e : m !! k = Some e -> entries_of m ≡ₚ make e k :: entries_of (delete k m).
Proof. intros Hk. unfold entries_of. rewrite <- (map_to_list_delete m k e) by done. done. Qed.

Lemma entries_update m k e e' :
  m !! k = Some e -> make e k :: entries_of (<[k := e']> m) ≡ₚ make e' k :: entries_of m.
Proof.
  intros Hk. rewrite <- insert_delete_eq, entries_insert by apply lookup_delete_eq.
  rewrite (entries_delete m k e) by done. apply Permutation_swap.
Qed.

Lemma entries_packed m : u48_map m -> Forall packed (entries_of m).
Proof.
  intros Hm. apply Forall_map, Forall_forall. intros [k e] Hin. apply elem_of_map_to_list, Hm in Hin as [? ?].
  by exists e, k.
Qed.

Lemma entries_make m e k : u48_map m -> u48 e -> u48 k -> make e k ∈ entries_of m -> m !! k = Some e.
Proof.
  intros Hm He Hk Hin. apply list_elem_of_fmap in Hin as ([k' e'] & Heq & Hin). apply elem_of_map_to_list in Hin.
  destruct (Hm _ _ Hin) as [? ?]. unfold entry_of in Heq. simpl in Heq. apply make_inj in Heq as [-> ->]; auto.
Qed.

(** Two packed entries that the order does not separate are the same. *)
Lemma packed_unique x y : packed x -> packed y -> ttl_less x y = false -> ttl_less y x = false -> x = y.
Proof.
  intros (e & k & He & Hk & ->) (e' & k' & He' & Hk' & ->) H1 H2.
  apply not_true_iff_false in H1, H2. rewrite ttl_less_spec, !expiry_make, !key_make in H1, H2 by done.
  assert (e = e') as -> by lia. assert (k = k') as -> by lia. done.
Qed.

(** *** The two containers *)

Lemma index_lookup i m k : u48_map m -> u48 k -> index_of i m -> tab_map i !! pack k = pack <$> m !! k.
Proof.
  intros Hm Hk [_ Hi]. apply option_eq. intros eb. rewrite Hi. split.
  - intros (k' & e & Hl & Hp & ->). apply pack_inj in Hp; [|done|by apply (Hm _ _ Hl)]. subst. by rewrite Hl.
  - intros He. apply fmap_Some in He as (e & Hl & ->). by exists k, e.
Qed.

Lemma index_find i m k : u48_map m -> u48 k -> index_of i m -> tab_find (pack k) i = Some (pack <$> m !! k).
Proof. intros Hm Hk Hi. rewrite tab_find_spec by apply Hi. f_equal. by apply index_lookup. Qed.

Lemma index_of_insert i i' m k e :
  u48_map m -> u48 k -> index_of i m -> tab_ok i' -> tab_map i' = <[pack k := pack e]> (tab_map i) ->
  index_of i' (<[k := e]> m).
Proof.
  intros Hm Hk [_ Hi] Ho Heq. split; [done|]. intros kb eb. rewrite Heq, lookup_insert_Some, Hi. split.
  - intros [[<- <-]|[Hne (k' & e' & Hl & -> & ->)]].
    + exists k, e. by rewrite lookup_insert_eq.
    + exists k', e'. rewrite lookup_insert_ne; [done|]. congruence.
  - intros (k' & e' & Hl & -> & ->). apply lookup_insert_Some in Hl as [[<- <-]|[Hne Hl]]; [by left|].
    right. split; [|by exists k', e']. intros Hp. apply pack_inj in Hp; [done|done|by apply (Hm _ _ Hl)].
Qed.

Lemma index_of_delete i i' m k :
  u48_map m -> u48 k -> index_of i m -> tab_ok i' -> tab_map i' = delete (pack k) (tab_map i) ->
  index_of i' (delete k m).
Proof.
  intros Hm Hk [_ Hi] Ho Heq. split; [done|]. intros kb eb. rewrite Heq, lookup_delete_Some, Hi. split.
  - intros [Hne (k' & e' & Hl & -> & ->)]. exists k', e'. rewrite lookup_delete_ne; [done|]. congruence.
  - intros (k' & e' & Hl & -> & ->). apply lookup_delete_Some in Hl as [Hne Hl].
    split; [|by exists k', e']. intros Hp. apply pack_inj in Hp; [done|done|by apply (Hm _ _ Hl)].
Qed.

Lemma index_entries i m : u48_map m -> index_of i m -> tab_entries i ≡ₚ map packed_pair (map_to_list m).
Proof.
  intros Hm [Ho Hi]. rewrite tab_entries_spec by done. apply NoDup_Permutation.
  - apply NoDup_map_to_list.
  - assert (Hnd := NoDup_map_to_list m). apply NoDup_fmap_2_strong; [|done].
    intros [k e] [k' e'] H1%elem_of_map_to_list H2%elem_of_map_to_list Heq. apply Hm in H1, H2.
    apply pair_equal_spec in Heq as [Ha Hb].
    f_equal; (apply pack_inj; [apply H1|apply H2|done]).
  - intros [kb eb]. rewrite elem_of_map_to_list, Hi. rewrite list_elem_of_fmap. split.
    + intros (k & e & Hl & -> & ->). exists (k, e). by rewrite elem_of_map_to_list.
    + intros ([k e] & Heq & Hin). apply elem_of_map_to_list in Hin. unfold packed_pair in Heq. simplify_eq/=. by exists k, e.
Qed.

Lemma index_size i m : u48_map m -> index_of i m -> tab_size i = base.size m.
Proof.
  intros Hm Hi. rewrite tab_size_spec by apply Hi. rewrite <- !length_map_to_list.
  rewrite <- tab_entries_spec by apply Hi. rewrite (index_entries i m) by done. apply length_map.
Qed.

Lemma wp_order_insert v l (w : world Order) (Q : unit -> world Order -> Prop) E :
  order_of (obj w) l -> seq_ready w ->
  (forall m o, (unlimited (mem w) -> m = mem w) -> order_of o (v :: l) -> Q tt (World m o)) ->
  (forall e m o, order_of o l -> E e (World m o)) ->
  wp (seq_insert v) Q E w.
Proof.
  intros [Ho Hl] Hr HQ HE. eapply wp_mono; [by apply seq_insert_spec| |].
  - intros [] [m o] (H1 & H2 & H3). apply HQ; [done|]. split; [done|]. simpl in *. by rewrite H2, Hl.
  - intros e [m o] [H1 H2]. apply HE. split; [done|]. simpl in *. by rewrite H2.
Qed.

Lemma wp_order_erase v l (w : world Order) (Q : bool -> world Order -> Prop) E :
  order_of (obj w) (v :: l) -> Forall packed (v :: l) -> Z.of_nat (length l) < 2 ^ 48 ->
  (forall b m o, (unlimited (mem w) -> m = mem w) -> order_of o l -> Q b (World m o)) ->
  wp (seq_erase_one v) Q E w.
Proof.
  intros [Ho Hl] Hp Hs HQ. eapply wp_mono.
  - apply seq_erase_one_spec; [done|unfold short; rewrite Hl; simpl; lia|].
    intros x Hx. rewrite order_less. apply packed_unique.
    + rewrite Hl in Hx. by eapply Forall_forall in Hp.
    + by inversion Hp.
  - intros [] [m o] (H1 & H3 & H2).
    + apply HQ; [done|]. split; [done|]. simpl in *. destruct H2 as [_ H2]. apply (Permutation_cons_inv (a := v)). by rewrite <- H2, <- Hl.
    + destruct H2 as [[] _]. rewrite Hl. constructor.
  - by intros.
Qed.
Lemma wp_on_order {A} (f : M (world Order) A) (Q : A -> world TtlSet -> Prop) E w :
  wp f (fun a v => Q a (World (mem v) (set_order (obj v) (obj w))))
       (fun e v => E e (World (mem v) (set_order (obj v) (obj w)))) (World (mem w) (order_ (obj w))) ->
  wp (on_order f) Q E w.
Proof. apply wp_zoom. Qed.

Lemma wp_on_index {A} (f : M (world Index) A) (Q : A -> world TtlSet -> Prop) E w :
  wp f (fun a v => Q a (World (mem v) (set_index (obj v) (obj w))))
       (fun e v => E e (World (mem v) (set_index (obj v) (obj w)))) (World (mem w) (index_ (obj w))) ->
  wp (on_index f) Q E w.
Proof. apply wp_zoom. Qed.

Lemma wp_lookup_key k m (Q : option PackedU48 -> world TtlSet -> Prop) E w :
  holds (obj w) m -> u48 k -> Q (pack <$> m !! k) w -> wp (lookup_key k) Q E w.
Proof.
  intros [Hm _ Hi] Hk HQ. apply wp_bind, wp_obj_get, (wp_need _ (pack <$> m !! k)); [|done]. by apply index_find.
Qed.

(** The list can take one more entry, the table one more key. *)
Definition ready (w : world TtlSet) : Prop :=
  seq_ready (World (mem w) (order_ (obj w))) /\ tab_fit (index_ (obj w)).

Lemma wp_set k e m (w : world TtlSet) :
  holds (obj w) m -> ready w -> u48 k -> u48 e -> Z.of_nat (base.size m) < 2 ^ 48 ->
  wp (set k e) (fun _ w' => holds (obj w') (<[k := e]> m)) (fun _ w' => holds (obj w') m) w.
Proof.
  intros Hh [Hr Hf] Hk He Hs. destruct Hh as [Hm Ho Hi] eqn:Hh0. clear Hh0.
  apply wp_bind, (wp_lookup_key _ m); [done|done|]. destruct (m !! k) as [old|] eqn:Hold; simpl.
  - destruct (Hm _ _ Hold) as [_ Hu]. unfold get. rewrite load_store_u48 by done.
    apply wp_bind, wp_on_order, (wp_order_insert _ (entries_of m)); [done|done| |by intros; split].
    intros mem1 o1 _ Ho1. simpl. apply wp_bind, wp_obj_get. simpl.
    destruct (tab_assign_found_spec (pack k) (pack e) (index_ (obj w))) as (i' & Ha & Hok & Hmap); [apply Hi| |].
    { rewrite (index_lookup _ m) by done. by rewrite Hold. }
    apply wp_bind, (wp_need _ i'); [done|]. apply wp_bind, wp_obj_mod. simpl.
    apply wp_bind, wp_on_order, (wp_order_erase _ (entries_of (<[k := e]> m))); simpl.
    + destruct Ho1 as [H1 H2]. split; [done|]. by rewrite H2, entries_update.
    + constructor; [by exists old, k|]. by apply entries_packed, u48_map_insert.
    + unfold entries_of. rewrite length_map, length_map_to_list, map_size_insert_Some by done. lia.
    + intros b mem2 o2 _ Ho2. apply wp_ret. split; simpl; [by apply u48_map_insert|done|by eapply index_of_insert].
  - apply wp_bind, wp_on_index. eapply wp_mono; [apply tab_reserve_additional_spec; [apply Hi|done|lia]| |].
    2: { intros ex [mem1 i1] Heq. simpl in *. subst i1. by destruct (obj w). }
    intros [] [mem1 i1] (Hok1 & Hmap1 & Hrd1 & Hmem1). simpl in *.
    assert (Hi1 : index_of i1 m) by (split; [done|]; rewrite Hmap1; apply Hi).
    apply wp_bind, wp_on_order, (wp_order_insert _ (entries_of m)); [done|by eapply seq_ready_mem| |].
    2: { intros. by split. }
    intros mem2 o2 _ Ho2. simpl. apply wp_catch, wp_bind, wp_on_index. simpl.
    eapply wp_mono; [by apply tab_insert_or_assign_spec| |].
    + intros p [mem3 i3] (Hok3 & Hmap3 & _). simpl in *. apply wp_ret. split; simpl; [by apply u48_map_insert| |].
      * destruct Ho2 as [H1 H2]. split; [done|]. by rewrite H2, entries_insert.
      * by eapply index_of_insert.
    + intros ex [mem3 i3] [_ Heq]. simpl in *. subst i3.
      apply wp_bind, wp_on_order, (wp_order_erase _ (entries_of m)); simpl; [done| | |].
      * constructor; [by exists e, k|]. by apply entries_packed.
      * unfold entries_of. by rewrite length_map, length_map_to_list.
      * intros b mem4 o4 _ Ho4. by apply wp_throw.
Qed.

(** Distinct 48-bit keys are at most 2^48. *)
Lemma u48_map_size m : u48_map m -> Z.of_nat (base.size m) <= 2 ^ 48.
Proof.
  intros Hm. assert (Hsub : (map_to_list m).*1 ⊆+ seqZ 0 (2 ^ 48)).
  { apply NoDup_submseteq; [apply NoDup_fst_map_to_list|]. intros k Hk.
    apply list_elem_of_fmap in Hk as ([k' e] & -> & Hin). apply elem_of_map_to_list, Hm in Hin as [[H1 H2] _].
    apply elem_of_seqZ. simpl. lia. }
  apply submseteq_length in Hsub. rewrite length_fmap, length_map_to_list, length_seqZ in Hsub. lia.
Qed.

Lemma entries_length m : length (entries_of m) = base.size m.
Proof. unfold entries_of. by rewrite length_map, length_map_to_list. Qed.

(** Removing the entry of a key from the list. *)
Lemma wp_order_remove k e m (w : world Order) (Q : bool -> world Order -> Prop) E :
  u48_map m -> m !! k = Some e -> order_of (obj w) (entries_of m) ->
  (forall b mem' o, (unlimited (mem w) -> mem' = mem w) -> order_of o (entries_of (delete k m)) -> Q b (World mem' o)) ->
  wp (seq_erase_one (make e k)) Q E w.
Proof.
  intros Hm Hk [Ho Hl] HQ. destruct (Hm _ _ Hk) as [Hu He]. apply (wp_order_erase _ (entries_of (delete k m))); [|..|done].
  - split; [done|]. by rewrite Hl, <- entries_delete.
  - constructor; [by exists e, k|]. by apply entries_packed, u48_map_delete.
  - rewrite entries_length, map_size_delete, Hk. pose proof (u48_map_size m Hm). simpl.
    assert (base.size m <> 0%nat) by (intros Hz; apply map_size_empty_inv in Hz; subst; by rewrite lookup_empty in Hk). lia.
Qed.

(** Removing a key from the table. *)
Lemma wp_index_remove k m (w : world Index) (Q : bool -> world Index -> Prop) E :
  u48_map m -> u48 k -> index_of (obj w) m ->
  (forall b i, index_of i (delete k m) -> (tab_ready (obj w) -> tab_ready i) -> Q b (World (mem w) i)) ->
  wp (tab_erase (pack k)) Q E w.
Proof.
  intros Hm Hk Hi HQ. eapply wp_mono; [apply tab_erase_spec, Hi| |by intros].
  intros b [mem' i] (H1 & H2 & H3 & H4). simpl in *. subst mem'. apply HQ; [by eapply index_of_delete|done].
Qed.

Lemma wp_clear k m (w : world TtlSet) :
  holds (obj w) m -> u48 k ->
  wp (clear k) (fun b w' => b = bool_decide (is_Some (m !! k)) /\ holds (obj w') (delete k m)) (fun _ _ => False) w.
Proof.
  intros Hh Hk. apply wp_bind, (wp_lookup_key _ m); [done|done|]. destruct (m !! k) as [e|] eqn:He; simpl.
  - destruct Hh as [Hm Ho Hi]. unfold get. rewrite load_store_u48 by apply (Hm _ _ He).
    apply wp_bind, wp_on_order, (wp_order_remove _ _ m); [done..|]. intros b mem1 o1 _ Ho1. simpl.
    apply wp_bind, wp_on_index, (wp_index_remove _ m); [done..|]. intros b' i1 Hi1 _. apply wp_ret.
    split; [done|]. split; [by apply u48_map_delete|done|done].
  - apply wp_ret. split; [done|]. by rewrite delete_id.
Qed.

Definition rekeyed (from to : Z) (m : gmap Z Z) : gmap Z Z :=
  match m !! from with
  | Some e => <[to := e]> (delete from m)
  | None => m
  end.

Lemma wp_rekey from to m (w : world TtlSet) :
  holds (obj w) m -> ready w -> u48 from -> u48 to -> m !! to = None \/ to = from -> Z.of_nat (base.size m) < 2 ^ 48 ->
  wp (rekey from to)
    (fun _ w' => holds (obj w') (rekeyed from to m))
    (fun _ w' => holds (obj w') m
       \/ ~ unlimited (mem w) /\ index_of (index_ (obj w')) (delete from m)
          /\ order_of (order_ (obj w')) (entries_of (rekeyed from to m))) w.
Proof.
  intros Hh [Hr Hf] Hfrom Hto Hfree Hs. apply wp_bind, (wp_lookup_key _ m); [done|done|]. unfold rekeyed.
  destruct (m !! from) as [e|] eqn:He; [|by apply wp_ret]. destruct Hh as [Hm Ho Hi]. destruct (Hm _ _ He) as [_ Hu].
  simpl. unfold get. rewrite load_store_u48 by done.
  assert (Hnew : delete from m !! to = None).
  { destruct Hfree as [Hn| ->]; [|apply lookup_delete_eq]. by apply lookup_delete_None; right. }
  apply wp_bind, wp_on_order, (wp_order_insert _ (entries_of m)); [done|done| |by intros; left].
  intros mem1 o1 Hmem1 [Ho1 Hl1]. simpl. apply wp_bind, wp_on_order, (wp_order_erase _ (entries_of (<[to := e]> (delete from m)))); simpl.
  - split; [done|]. rewrite Hl1, (entries_delete m from e), (entries_insert _ to e) by done. apply Permutation_swap.
  - constructor; [by exists e, from|]. by apply entries_packed, u48_map_insert, Hu; [apply u48_map_delete|].
  - rewrite entries_length, map_size_insert_None by done. rewrite map_size_delete, He. simpl.
    assert (base.size m <> 0%nat) by (intros Hz; apply map_size_empty_inv in Hz; subst; by rewrite lookup_empty in He). lia.
  - intros b mem2 o2 Hmem2 Ho2. apply wp_bind, wp_on_index, (wp_index_remove _ m); simpl; [done..|].
    intros b' i1 Hi1 Hrd. apply wp_bind, wp_on_index. simpl. eapply wp_mono.
    + apply tab_insert_or_assign_spec; [apply Hi1|]. apply Hrd. by apply tab_fit_ready.
    + intros p [mem3 i2] (Hok & Hmap & _). simpl in *. apply wp_ret. split; simpl; [|done|].
      * by apply u48_map_insert; [apply u48_map_delete| |].
      * by eapply index_of_insert; [by apply u48_map_delete|..].
    + intros ex [mem3 i2] [Hlim Heq]. simpl in *. subst i2. right. split; [|done]. intros HU. apply Hlim.
      rewrite Hmem2; rewrite (Hmem1 HU); done.
Qed.

(** *** Expiring *)

(** The front of the list is the entry of a key that expires first. *)
Lemma order_front o x m :
  u48_map m -> order_of o (entries_of m) -> seq_list o !! 0%nat = Some x ->
  exists k e, m !! k = Some e /\ x = make e k /\ forall k' e', m !! k' = Some e' -> e <= e'.
Proof.
  intros Hm [Ho Hl] Hx. assert (Hin : x ∈ entries_of m) by (rewrite <- Hl; by eapply list_elem_of_lookup_2).
  apply list_elem_of_fmap in Hin as ([k e] & -> & Hin). apply elem_of_map_to_list in Hin. exists k, e. split_and!; [done..|].
  intros k' e' Hk'. destruct (Hm _ _ Hin) as [Hu He], (Hm _ _ Hk') as [Hu' He'].
  assert (Hin' : make e' k' ∈ seq_list o).
  { rewrite Hl. apply list_elem_of_fmap. exists (k', e'). by rewrite elem_of_map_to_list. }
  pose proof (seq_sorted o Ho) as Hs. rewrite order_less in Hs. destruct (seq_list o) as [|y l]; [done|].
  simpl in Hx. simplify_eq. unfold entry_of in *. simpl in *. apply elem_of_cons in Hin' as [Heq|Hin'].
  - apply make_inj in Heq as [-> _]; auto. lia.
  - inversion Hs as [|? ? _ Hall]; subst. eapply Forall_forall in Hall; [|done]. simpl in Hall.
    apply not_true_iff_false in Hall. rewrite ttl_less_spec, !expiry_make in Hall by done. lia.
Qed.

(** [effect n m m']: a run that expires [n] keys may take the map [m] to [m'].
    Expiring one due key is such a run; the callback may do what [effect 0] allows. *)
Section expiring.
Context (now_ms : Z) (fn : Z -> Op unit) (may_throw : Prop) (effect : nat -> gmap Z Z -> gmap Z Z -> Prop).
Context (effect_refl : forall m, effect 0 m m).
Context (effect_trans : forall a b m1 m2 m3, effect a m1 m2 -> effect b m2 m3 -> effect (a + b) m1 m3).
Context (effect_expire : forall m k e, m !! k = Some e -> e <= now_ms -> effect 1 m (delete k m)).
Context (fn_spec : forall k (w : world TtlSet) m, holds (obj w) m ->
  wp (fn k) (fun _ w' => exists m', holds (obj w') m' /\ effect 0 m m')
            (fun _ w' => may_throw /\ exists m', holds (obj w') m' /\ effect 0 m m') w).

Lemma wp_expire_due budget expired m (w : world TtlSet) :
  holds (obj w) m ->
  wp (expire_due budget now_ms fn expired)
    (fun n w' => exists c m', n = (expired + c)%nat /\ (c <= budget)%nat /\ holds (obj w') m' /\ effect c m m'
       /\ ((c < budget)%nat -> forall k e, m' !! k = Some e -> now_ms < e))
    (fun _ w' => may_throw /\ exists c m', (c <= budget)%nat /\ holds (obj w') m' /\ effect c m m') w.
Proof.
  revert expired m w. induction budget as [|budget IH]; intros expired m w Hh; cbn [expire_due].
  { apply wp_ret. exists 0%nat, m. split_and!; auto; lia. }
  destruct Hh as [Hm Ho Hi]. apply wp_bind, wp_obj_get. destruct (seq_empty (order_ (obj w))) eqn:Hemp.
  - apply wp_ret. exists 0%nat, m. split_and!; [lia|lia|done|done|]. intros _ k e Hk. exfalso.
    apply seq_empty_spec in Hemp; [|apply Ho]. destruct Ho as [_ Hl]. rewrite Hemp in Hl. apply Permutation_nil_l in Hl.
    pose proof (entries_length m) as Hlen. rewrite <- Hl in Hlen. simpl in Hlen. symmetry in Hlen.
    apply map_size_empty_inv in Hlen. subst m. by rewrite lookup_empty in Hk.
  - assert (exists x, seq_list (order_ (obj w)) !! 0%nat = Some x) as [x Hx].
    { destruct (seq_list (order_ (obj w))) as [|x l] eqn:Hsl; [|by exists x].
      apply seq_empty_spec in Hsl; [congruence|apply Ho]. }
    apply wp_bind, wp_on_order. eapply wp_mono; [apply (seq_at_spec 0 x); [apply Ho| |done]| |by intros].
    { unfold short. simpl. destruct Ho as [_ ->]. rewrite entries_length. by apply u48_map_size. }
    intros y [mem1 o1] (-> & Hok1 & Hl1). simpl in *.
    assert (Ho1 : order_of o1 (entries_of m)) by (split; [done|]; rewrite Hl1; apply Ho).
    destruct (order_front _ _ _ Hm Ho Hx) as (k & e & Hk & -> & Hmin). destruct (Hm _ _ Hk) as [Hu He].
    rewrite expiry_make, key_make by done. destruct (Z.gtb_spec e now_ms) as [Hlate|Hdue].
    + apply wp_ret. exists 0%nat, m. split_and!; [lia|lia|by split|done|]. intros _ k' e' Hk'. specialize (Hmin _ _ Hk'). lia.
    + apply wp_bind, wp_on_order, (wp_order_remove _ _ m); [done..|]. intros b mem2 o2 _ Ho2. simpl.
      apply wp_bind, wp_on_index, (wp_index_remove _ m); simpl; [done..|]. intros b' i2 Hi2 _.
      apply wp_bind. eapply wp_mono; [apply (fn_spec _ _ (delete k m))| |].
      * split; [by apply u48_map_delete|done|done].
      * intros [] w3 (m3 & Hh3 & He3). eapply wp_mono; [apply (IH _ m3), Hh3| |].
        -- intros n w' (c & m' & -> & Hc & Hh' & He' & Hl'). exists (S c), m'. split_and!; [lia|lia|done| |].
           ++ apply (effect_trans 1 c _ (delete k m)); [by eapply effect_expire|]. by eapply (effect_trans 0).
           ++ intros Hlt. apply Hl'. lia.
        -- intros ex w' (Ht & c & m' & Hc & Hh' & He'). split; [done|]. exists (S c), m'. split_and!; [lia|done|].
           apply (effect_trans 1 c _ (delete k m)); [by eapply effect_expire|]. by eapply (effect_trans 0).
      * intros ex w3 (Ht & m3 & Hh3 & He3). split; [done|]. exists 1%nat, m3. split_and!; [lia|done|].
        apply (effect_trans 1 0 _ (delete k m)); [by eapply effect_expire|done].
Qed.
End expiring.

(** *** Reading *)

Lemma expiry_spec k m s : holds s m -> u48 k -> expiry k s = Some (m !! k).
Proof.
  intros [Hm _ Hi] Hk. unfold expiry. rewrite (index_find _ m) by done. f_equal.
  destruct (m !! k) as [e|] eqn:He; [|done]. simpl. f_equal. by apply load_store_u48, (Hm _ _ He).
Qed.

Lemma contains_spec k m s : holds s m -> u48 k -> contains k s = Some (bool_decide (is_Some (m !! k))).
Proof.
  intros [Hm _ Hi] Hk. unfold contains. rewrite (index_find _ m) by done. f_equal. by destruct (m !! k).
Qed.

Lemma for_each_spec m s : holds s m -> for_each s ≡ₚ map_to_list m.
Proof.
  intros [Hm _ Hi]. unfold for_each. rewrite (index_entries _ m) by done. rewrite map_map.
  rewrite <- (map_id (map_to_list m)) at 2. apply Permutation_refl', map_ext_in. intros [k e] Hin%list_elem_of_In.
  apply elem_of_map_to_list, Hm in Hin as [? ?]. unfold packed_pair, get, pack. simpl. by rewrite !load_store_u48.
Qed.

Lemma holds_empty : holds empty_set ∅.
Proof.
  destruct (@seq_new_ok _ _ _ LO) as [H1 H2]. destruct tab_new_ok as (H3 & H4 & _). split.
  - intros k e. by rewrite lookup_empty.
  - split; [done|]. simpl. rewrite H2. unfold entries_of. by rewrite map_to_list_empty.
  - split; [done|]. intros kb eb. simpl. rewrite H4, lookup_empty. split; [done|]. intros (k & e & Hl & _). by rewrite lookup_empty in Hl.
Qed.

(** What expiring does when the callback leaves the set alone: exactly due keys go. *)
Definition expires (now_ms : Z) (n : nat) (m m' : gmap Z Z) : Prop :=
  m' ⊆ m /\ (forall k e, m !! k = Some e -> now_ms < e -> m' !! k = Some e) /\ base.size m = (n + base.size m')%nat.

Lemma expires_refl now_ms m : expires now_ms 0 m m.
Proof. by split_and!. Qed.

Lemma expires_trans now_ms a b m1 m2 m3 :
  expires now_ms a m1 m2 -> expires now_ms b m2 m3 -> expires now_ms (a + b) m1 m3.
Proof.
  intros (H1 & H2 & H3) (H4 & H5 & H6). split_and!; [by etrans| |lia].
  intros k e Hk He. apply H5; [|done]. by apply H2.
Qed.

Lemma expires_expire now_ms m k e : m !! k = Some e -> e <= now_ms -> expires now_ms 1 m (delete k m).
Proof.
  intros Hk He. split_and!; [apply delete_subseteq| |].
  - intros k' e' Hk' Hlt. rewrite lookup_delete_ne; [done|]. intros ->. simplify_eq. lia.
  - rewrite <- (insert_delete_id m k e) at 1 by done. by rewrite map_size_insert_None by apply lookup_delete_eq.
Qed.

(** When nothing due is left, what is left is what was not due. *)
Lemma expires_all now_ms n m m' :
  expires now_ms n m m' -> (forall k e, m' !! k = Some e -> now_ms < e) -> m' = filter (fun ke => now_ms < ke.2) m.
Proof.
  intros (H1 & H2 & _) H3. apply map_eq. intros k. apply option_eq. intros e. rewrite map_lookup_filter_Some. simpl. split.
  - intros Hk. split; [by eapply lookup_weaken|by eapply H3].
  - intros [Hk He]. by apply H2.
Qed.

(** ** Claims *)

(** C26: the expiry set implements a map from 48-bit keys to 48-bit expiries: set
    inserts or replaces when its list is ready for an insertion (no memory limit, or a list that is not empty
    and has room for two more blocks) and the table has less than 2^40 slots, and an exception then leaves the map as it was; clear removes and
    says whether the key was there, the lookups, the size and the visit read the
    map, and clear_all empties it. *)
Theorem ttl_set_refines (m : gmap Z Z) (w : world TtlSet) :
  holds (obj w) m ->
  (forall k e, u48 k -> u48 e -> ready w -> Z.of_nat (base.size m) < 2 ^ 48 ->
     wp (set k e) (fun _ w' => holds (obj w') (<[k := e]> m)) (fun _ w' => holds (obj w') m) w)
  /\ (forall k, u48 k ->
        wp (clear k) (fun b w' => b = bool_decide (is_Some (m !! k)) /\ holds (obj w') (delete k m)) (fun _ _ => False) w
        /\ expiry k (obj w) = Some (m !! k)
        /\ contains k (obj w) = Some (bool_decide (is_Some (m !! k))))
  /\ size (obj w) = base.size m
  /\ for_each (obj w) ≡ₚ map_to_list m
  /\ holds (clear_all (obj w)) ∅.
Proof.
  intros Hh. split_and!.
  - intros k e Hk He Hr Hs. by apply wp_set.
  - intros k Hk. split_and!; [by apply wp_clear|by apply expiry_spec|by apply contains_spec].
  - by eapply index_size; apply Hh.
  - by apply for_each_spec.
  - apply holds_empty.
Qed.

(** Rekey moves the expiry of a key to a key that has none.  An exception
    leaves the map as it was, unless a memory limit refuses the table the new
    key: then the list has the entry of the new key and the table neither key. *)
Theorem ttl_rekey (from to : Z) (m : gmap Z Z) (w : world TtlSet) :
  holds (obj w) m -> ready w -> u48 from -> u48 to -> m !! to = None \/ to = from -> Z.of_nat (base.size m) < 2 ^ 48 ->
  wp (rekey from to)
    (fun _ w' => holds (obj w') (rekeyed from to m))
    (fun _ w' => holds (obj w') m
       \/ ~ unlimited (mem w) /\ index_of (index_ (obj w')) (delete from m)
          /\ order_of (order_ (obj w')) (entries_of (rekeyed from to m))) w.
Proof. apply wp_rekey. Qed.

(** An expiry run with a callback that keeps the set consistent expires at
    most [budget] keys and, when it stops short of the budget, leaves no key that
    is due; the set stays consistent even if the callback throws.  With a callback
    that leaves the set alone, the result counts the removed keys, only due keys
    are removed, and a run that stops short of the budget removes all of them. *)
Theorem ttl_expire_due (now_ms : Z) (budget : nat) (m : gmap Z Z) (w : world TtlSet) :
  holds (obj w) m ->
  (forall fn : Z -> Op unit,
     (forall k (v : world TtlSet) mv, holds (obj v) mv ->
        wp (fn k) (fun _ v' => exists m', holds (obj v') m') (fun _ v' => exists m', holds (obj v') m') v) ->
     wp (expire_due budget now_ms fn 0)
       (fun n w' => (n <= budget)%nat /\ exists m', holds (obj w') m'
          /\ ((n < budget)%nat -> forall k e, m' !! k = Some e -> now_ms < e))
       (fun _ w' => exists m', holds (obj w') m') w)
  /\ wp (expire_due budget now_ms (fun _ => mret tt) 0)
       (fun n w' => (n <= budget)%nat /\ exists m', holds (obj w') m' /\ expires now_ms n m m'
          /\ ((n < budget)%nat -> m' = filter (fun ke => now_ms < ke.2) m))
       (fun _ _ => False) w.
Proof.
  intros Hh. split.
  - intros fn Hfn. eapply wp_mono; [refine (wp_expire_due now_ms fn True (fun _ _ _ => True) ltac:(done) ltac:(done) ltac:(done) _ budget 0 m w Hh)| |].
    + intros k v mv Hv. eapply wp_mono; [by eapply Hfn| |]; intros ? ? (m' & ?); split_and?; by eauto.
    + intros n w' (c & m' & -> & Hc & Hh' & _ & Hl). split; [done|]. by exists m'.
    + intros ex w' (_ & c & m' & _ & Hh' & _). by exists m'.
  - eapply wp_mono; [refine (wp_expire_due now_ms _ False _ (expires_refl now_ms) (expires_trans now_ms) (expires_expire now_ms) _ budget 0 m w Hh)| |].
    + intros k v mv Hv. apply wp_ret. eauto using expires_refl.
    + intros n w' (c & m' & -> & Hc & Hh' & He & Hl). split; [done|]. exists m'. split_and!; [done..|].
      intros Hlt. eapply expires_all; [done|]. by apply Hl.
    + by intros ex w' [[] _].
Qed.
End ttl.

(** ** The containers of the server *)

(** The server's containers: entries of 12 bytes in blocks of load 256, slots of 12
    bytes in pages of 4096 and groups of 16.  [hash] is the standard library's hash
    of a number. *)
Section server.
Context (hash : Z -> Z) (hash_range : forall k, 0 <= hash k < 2 ^ 64).

Definition packed_hash (k : PackedU48) : Z := hash (get k).

Definition order_list : SortedSeq (ChunkedSortedList TtlEntry) TtlEntry := chunked_sorted_seq ttl_less 12 256.
Definition index_table : KeyTable (SwissTable PackedU48 PackedU48) PackedU48 PackedU48 :=
  swiss_key_table packed_hash packed_equal 12 4096 16.

Lemma order_list_laws : @SortedSeqLaws _ _ order_list.
Proof. apply chunked_sorted_laws; [apply ttl_less_asym|apply ttl_less_cotrans|lia|lia|lia]. Qed.

Lemma index_table_laws : @KeyTableLaws _ _ _ _ _ index_table.
Proof.
  apply swiss_table_laws; [|by intros; apply hash_range|lia|lia|lia|lia]. intros a b. apply bool_decide_eq_true.
Qed.
End server.

(** ** Witnesses *)

Section samples.
#[local] Instance sample_seq : SortedSeq (ChunkedSortedList TtlEntry) TtlEntry := order_list.
#[local] Instance sample_tab : KeyTable (SwissTable PackedU48 PackedU48) PackedU48 PackedU48 := index_table sample_hash.
#[local] Instance sample_seq_laws : SortedSeqLaws (ChunkedSortedList TtlEntry) TtlEntry := order_list_laws.
#[local] Instance sample_tab_laws : KeyTableLaws (SwissTable PackedU48 PackedU48) PackedU48 PackedU48 :=
  index_table_laws sample_hash sample_hash_range.

Abbreviation Set_ := (TtlSet (Order := ChunkedSortedList TtlEntry) (Index := SwissTable PackedU48 PackedU48)).

Definition after {A} (r : outcome (world Set_) A) : Set_ :=
  match r with Ok _ w => obj w | _ => empty_set end.

Definition sample_one : Set_ := Eval vm_compute in after (set 5 1000 (World None empty_set)).
Definition sample_two : Set_ := Eval vm_compute in after (set 3 200 (World None sample_one)).

Lemma sample_ready s : s = empty_set \/ s = sample_one \/ s = sample_two -> ready (World None s).
Proof.
  intros Hs. split.
  - left. unfold calm, unlimited. split_and!; [done|..]; unfold roomy, roomy_blocks, bounded;
      destruct Hs as [->|[->| ->]]; simpl; try split; repeat (apply Forall_cons; split); try apply Forall_nil;
      try done; simpl; try lia; apply Nat.leb_le; reflexivity.
  - destruct Hs as [->|[->| ->]]; vm_compute; done.
Qed.

Lemma sample_step s s' m k e :
  holds s m -> ready (World None s) -> u48 k -> u48 e -> Z.of_nat (base.size m) < 2 ^ 48 ->
  set k e (World None s) = Ok tt (World None s') -> holds s' (<[k := e]> m).
Proof.
  intros Hh Hr Hk He Hs Hrun. pose proof (wp_set eq_refl k e m (World None s) Hh Hr Hk He Hs) as Hwp.
  exact (wp_Ok _ _ _ _ _ _ Hwp Hrun).
Qed.

Lemma sample_two_holds : holds sample_two (<[3 := 200]> (<[5 := 1000]> ∅)).
Proof.
  apply (sample_step sample_one); [|apply sample_ready; auto|done|done|vm_compute; done|vm_compute; reflexivity].
  apply (sample_step empty_set); [apply holds_empty|apply sample_ready; auto|done|done|vm_compute; done|vm_compute; reflexivity].
Qed.


Lemma ttl_set_refines_witness :
  wp (set 5 700) (fun _ w' => holds (obj w') (<[5 := 700]> (<[3 := 200]> (<[5 := 1000]> ∅))))
    (fun _ w' => holds (obj w') (<[3 := 200]> (<[5 := 1000]> ∅))) (World None sample_two).
Proof.
  destruct (ttl_set_refines (SO := sample_seq) (TI := sample_tab) eq_refl _ (World None sample_two) sample_two_holds) as (Hset & _).
  apply (Hset 5 700); clear Hset.
  - unfold u48. lia.
  - unfold u48. lia.
  - apply sample_ready; auto.
  - rewrite map_size_insert_None, map_size_insert_None, map_size_empty by done. lia.
Defined.

Lemma ttl_rekey_witness :
  wp (rekey 5 4) (fun _ w' => holds (obj w') (rekeyed 5 4 (<[3 := 200]> (<[5 := 1000]> ∅))))
    (fun _ w' => holds (obj w') (<[3 := 200]> (<[5 := 1000]> ∅))
       \/ ~ unlimited None /\ index_of (index_ (obj w')) (delete 5 (<[3 := 200]> (<[5 := 1000]> ∅)))
          /\ order_of (order_ (obj w')) (entries_of (rekeyed 5 4 (<[3 := 200]> (<[5 := 1000]> ∅)))))
    (World None sample_two).
Proof.
  apply (ttl_rekey (SO := sample_seq) (TI := sample_tab) eq_refl 5 4 _ (World None sample_two));
    [apply sample_two_holds|apply sample_ready; auto|unfold u48; lia|unfold u48; lia|left; reflexivity|]. rewrite map_size_insert_None, map_size_insert_None, map_size_empty by done. lia.
Defined.

Lemma ttl_expire_due_witness :
  wp (expire_due 7 500 (fun _ => mret tt) 0)
    (fun n w' => (n <= 7)%nat /\ exists m', holds (obj w') m'
       /\ expires 500 n (<[3 := 200]> (<[5 := 1000]> ∅)) m'
       /\ ((n < 7)%nat -> m' = filter (fun ke => 500 < ke.2) (<[3 := 200]> (<[5 := 1000]> ∅))))
    (fun _ _ => False) (World None sample_two).
Proof.
  destruct (ttl_expire_due (SO := sample_seq) (TI := sample_tab) eq_refl 500 7 _ (World None sample_two) sample_two_holds) as (_ & Hquiet). exact Hquiet.
Defined.

Example sample_expired :
  match expire_due 7 500 (fun _ => mret tt) 0 (World None sample_two) with
  | Ok n w => n = 1%nat /\ for_each (obj w) = [(5, 1000)]
  | _ => False
  end.
Proof. vm_compute. split; reflexivity. Qed.
End samples.
