(* ===== verification/Glob.v ===== *)
(** * Glob patterns

    Models the two matchers of the server: [glob_match] of [src/pubsub.cpp] (with
    its classification of patterns into fast paths) and [scan_glob_match] of
    [src/command.cpp] (the MATCH option of the scan commands).

    A position of a pattern or of a value is the rest of it from that position.
    Both matchers keep one backtracking point, the last star; they are compared
    with a declarative reading of patterns. *)

From S2P Require Import Prelude.
From Stdlib Require Import ZArith Lia.

Local Open Scope Z_scope.

(** ** Declarative reading *)

(** [one p c] is the rest of the pattern [p] after its first token, when that
    token matches the character [c]. *)
Section matching.
Context (one : bytes -> byte -> option bytes).

Inductive matches : bytes -> bytes -> Prop :=
| matches_nil : matches [] []
| matches_star p u v : matches p v -> matches ("*"%byte :: p) (u ++ v)
| matches_one p c q v : one p c = Some q -> matches q v -> matches p (c :: v).

(** Tokens that consume the characters [u] between two positions of a pattern. *)
Inductive path : bytes -> bytes -> bytes -> Prop :=
| path_nil p : path p p []
| path_one p c q r u : one p c = Some q -> path q r u -> path p r (c :: u).

Lemma path_snoc p q r u c : path p q u -> one q c = Some r -> path p r (u ++ [c]).
Proof. intros Hp Hc. induction Hp as [q|p c' q r' u' Ho _ IH]; simpl; econstructor; eauto. constructor. Qed.

(** The rest after a token does not depend on the character, stars are not tokens. *)
Context (one_next : forall p c d q q', one p c = Some q -> one p d = Some q' -> q = q').
Context (one_star : forall p c, one ("*"%byte :: p) c = None).
Context (one_nil : forall c, one [] c = None).

Lemma matches_path p r u w :
  path p r u -> matches p w -> exists u' w', w = u' ++ w' /\ length u' = length u /\ matches r w'.
Proof.
  intros Hp. revert w. induction Hp as [p|p c q r u Ho _ IH]; intros w Hm; [by exists [], w|].
  inversion Hm as [|p' u' v Hm'|p' d q' v Ho' Hm']; subst.
  - by rewrite one_nil in Ho.
  - by rewrite one_star in Ho.
  - rewrite <- (one_next _ _ _ _ _ Ho Ho') in Hm'. destruct (IH v Hm') as (u' & w' & -> & Hl & Hr).
    exists (d :: u'), w'. simpl. by rewrite Hl.
Qed.

Lemma matches_more p u w : matches ("*"%byte :: p) w -> matches ("*"%byte :: p) (u ++ w).
Proof.
  intros Hm. inversion Hm as [|p' u' v Hm'|p' d q' v Ho' Hm']; subst.
  - rewrite app_assoc. by constructor.
  - by rewrite one_star in Ho'.
Qed.

Lemma matches_stars n p w : matches (replicate n "*"%byte ++ p) w -> exists u v, w = u ++ v /\ matches p v.
Proof.
  revert w. induction n as [|n IH]; intros w Hm; [by exists [], w|]. simpl in Hm.
  inversion Hm as [|p' u' v Hm'|p' d q' v Ho' Hm']; subst; [|by rewrite one_star in Ho'].
  destruct (IH v Hm') as (u & v' & -> & ?). exists (u' ++ u), v'. by rewrite app_assoc.
Qed.

Lemma matches_stars_intro n p u v : (n <> 0)%nat \/ u = [] -> matches p v -> matches (replicate n "*"%byte ++ p) (u ++ v).
Proof.
  intros Hn Hm. destruct n as [|n]; [destruct Hn as [Hn| ->]; [lia|done]|]. clear Hn. revert u.
  induction n as [|n IH]; intros u; [by constructor|].
  apply (matches_star _ u). apply (IH []).
Qed.

(** At the end of the value only stars may be left. *)
Definition only_stars (p : bytes) : bool := forallb (fun c => bool_decide (c = "*"%byte)) p.

Lemma matches_end p : matches p [] <-> only_stars p = true.
Proof.
  split.
  - remember [] as v eqn:Hv. induction 1 as [|p u v _ IH|p c q v Ho _ _]; [done| |done].
    simpl. apply app_eq_nil in Hv as [-> ->]. by apply IH.
  - induction p as [|c p IH]; simpl; [constructor|]. intros [Hc%bool_decide_eq_true Hp]%andb_true_iff. subst c.
    apply (matches_star _ []). by apply IH.
Qed.

(** *** One backtracking point *)

(** The loop is at [p] and [v]; after a star it can start again at [sp], with any
    proper rest of [sv].  Starting again from an earlier star is never needed. *)
Definition alternatives (p v : bytes) (star : option (bytes * bytes)) : Prop :=
  matches p v \/ exists sp sv u w, star = Some (sp, sv) /\ sv = u ++ w /\ u <> [] /\ matches sp w.

(** From the star, tokens led here. *)
Definition follows (p v : bytes) (star : option (bytes * bytes)) : Prop :=
  forall sp sv, star = Some (sp, sv) -> exists u, sv = u ++ v /\ path sp p u.

Lemma alternatives_reach p v star w sp sv u :
  follows p v star -> star = Some (sp, sv) -> sv = u ++ w -> u <> [] -> matches sp w ->
  exists x y, v = x ++ y /\ matches p y.
Proof.
  intros Hf Hs Hsv Hu Hm. destruct (Hf _ _ Hs) as (u0 & Hu0 & Hp).
  destruct (matches_path _ _ _ _ Hp Hm) as (u' & y & -> & Hl & Hm').
  exists (take (length (u ++ u') - length u0) v), y. split; [|done].
  assert (Heq : u0 ++ v = (u ++ u') ++ y) by (rewrite <- app_assoc; congruence).
  assert (Hd : drop (length u0) (u0 ++ v) = drop (length u0) ((u ++ u') ++ y)) by (by rewrite Heq).
  rewrite drop_app_length, drop_app_le in Hd by (rewrite length_app; lia). rewrite Hd at 2.
  rewrite Hd. rewrite take_app_le by (rewrite length_drop; lia). rewrite take_ge by (rewrite length_drop; lia). done.
Qed.

(** A star forgets the earlier one. *)
Lemma alternatives_star n p v star :
  n <> 0%nat -> follows (replicate n "*"%byte ++ p) v star ->
  alternatives (replicate n "*"%byte ++ p) v star <-> alternatives p v (Some (p, v)).
Proof.
  intros Hn Hf. split.
  - intros [Hm|(sp & sv & u & w & Hs & Hsv & Hu & Hm)].
    + destruct (matches_stars _ _ _ Hm) as (u & w & -> & Hw). destruct u as [|c u]; [by left|].
      right. by exists p, ((c :: u) ++ w), (c :: u), w.
    + destruct (alternatives_reach _ _ _ _ _ _ _ Hf Hs Hsv Hu Hm) as (x & y & -> & Hy).
      destruct (matches_stars _ _ _ Hy) as (u' & w' & -> & Hw'). rewrite app_assoc.
      destruct (x ++ u') as [|c t] eqn:Hx; [by left|]. right. by exists p, ((c :: t) ++ w'), (c :: t), w'.
  - intros [Hm|(sp & sv & u & w & Hs & Hsv & Hu & Hm)]; simplify_eq; left.
    + apply (matches_stars_intro n p [] v); auto.
    + apply matches_stars_intro; auto.
Qed.

(** A token that matches. *)
Lemma alternatives_one p c v q star :
  follows p (c :: v) star -> one p c = Some q -> alternatives p (c :: v) star <-> alternatives q v star.
Proof.
  intros Hf Ho. unfold alternatives. split; (intros [Hm|Ha]; [left|by right]); [|by econstructor].
  inversion Hm as [|p' u' v' Hm'|p' d q' v' Ho' Hm']; subst; [by rewrite one_star in Ho|]. congruence.
Qed.

Lemma follows_one p c v q star : follows p (c :: v) star -> one p c = Some q -> follows q v star.
Proof.
  intros Hf Ho sp sv Hs. destruct (Hf _ _ Hs) as (u & -> & Hp). exists (u ++ [c]).
  rewrite <- app_assoc. split; [done|]. by eapply path_snoc.
Qed.

(** A token that does not match: the next rest after the star. *)
Lemma alternatives_back p c v star :
  one p c = None -> (forall p', p <> "*"%byte :: p') ->
  alternatives p (c :: v) star <->
  match star with Some (sp, _ :: sv) => alternatives sp sv (Some (sp, sv)) | _ => False end.
Proof.
  intros Ho Hns. assert (Hno : ~ matches p (c :: v)).
  { intros Hm. inversion Hm as [|p' u' v' Hm'|p' d q' v' Ho' Hm']; subst; [by eapply Hns|congruence]. }
  split.
  - intros [Hm|(sp & sv & u & w & -> & -> & Hu & Hm)]; [done|]. destruct u as [|d u]; [done|]. simpl.
    destruct u as [|e u]; [by left|]. right. by exists sp, ((e :: u) ++ w), (e :: u), w.
  - destruct star as [[sp [|d sv]]|]; [done| |done]. intros [Hm|(sp' & sv' & u & w & Hs & -> & Hu & Hm)]; right.
    + by exists sp, (d :: sv), [d], sv.
    + simplify_eq. by exists sp', (d :: u ++ w), (d :: u), w.
Qed.

Lemma follows_new p v : follows p v (Some (p, v)).
Proof. intros sp sv Hs. simplify_eq. exists []. split; [done|constructor]. Qed.

(** A value that is used up: earlier rests are longer, so a match there would be one here. *)
Lemma alternatives_end p star : follows p [] star -> alternatives p [] star <-> only_stars p = true.
Proof.
  intros Hf. rewrite <- matches_end. split; [|by left]. intros [Hm|(sp & sv & u & w & Hs & Hsv & Hu & Hm)]; [done|].
  destruct (alternatives_reach _ _ _ _ _ _ _ Hf Hs Hsv Hu Hm) as (x & y & Hxy & Hy).
  symmetry in Hxy. by apply app_eq_nil in Hxy as [_ ->].
Qed.

(** A position that no character passes. *)
Lemma alternatives_stuck p v star :
  follows p v star -> p <> [] -> (forall p', p <> "*"%byte :: p') -> (forall c, one p c = None) -> ~ alternatives p v star.
Proof.
  intros Hf Hne Hns Hstuck. assert (Hno : forall w, ~ matches p w).
  { intros w Hm. inversion Hm as [|p' u' v' Hm'|p' d q' v' Ho' Hm']; subst; [done|by eapply Hns|by rewrite Hstuck in Ho']. }
  intros [Hm|(sp & sv & u & w & Hs & Hsv & Hu & Hm)]; [by eapply Hno|].
  destruct (alternatives_reach _ _ _ _ _ _ _ Hf Hs Hsv Hu Hm) as (x & y & _ & Hy). by eapply Hno.
Qed.
End matching.

(** ** The matcher of the publish/subscribe registry *)

Module PubSub.

Definition is_char (c d : byte) : bool := bool_decide (c = d).

(** An escaped character, when something follows the backslash. *)
Definition unescape (c : byte) (i : bytes) : byte * bytes :=
  match i with
  | e :: i' => if is_char c "\" then (e, i') else (c, i)
  | [] => (c, i)
  end.

(** The loop of [match_class] over the items of a class, from the position [i] to
    after the closing bracket; every round uses up a character, so the length of
    the rest bounds the rounds. *)
Fixpoint class_loop (fuel : nat) (i : bytes) (value : byte) (matched any : bool) : option (bool * bytes) :=
  match fuel, i with
  | S fuel, c :: i =>
      if is_char c "]" then (if any then Some (matched, i) else None)
      else
        let '(first, i) := unescape c i in
        match i with
        | dash :: c :: j =>
            if is_char dash "-" && negb (is_char c "]") then
              let '(last, j) := unescape c j in
              class_loop fuel j value (matched || (u8 first <=? u8 value) && (u8 value <=? u8 last)) true
            else class_loop fuel i value (matched || is_char first value) true
        | _ => class_loop fuel i value (matched || is_char first value) true
        end
  | _, _ => None
  end.

(** [match_class], from the position after the bracket; [None] for an invalid class. *)
Definition match_class (i : bytes) (value : byte) : option (bool * bytes) :=
  let '(negate, i) :=
    match i with
    | c :: i' => if is_char c "^" then (true, i') else (false, i)
    | [] => (false, i)
    end in
  match class_loop (length i) i value false false with
  | Some (matched, next) => Some (if negate then negb matched else matched, next)
  | None => None
  end.

(** [match_one]: the next position when the token matches. *)
Definition match_one (p : bytes) (value : byte) : option bytes :=
  match p with
  | [] => None
  | token :: rest =>
      let literal :=
        let '(c, next) := if is_char token "\" then unescape token rest else (token, rest) in
        if is_char c value then Some next else None in
      if is_char token "?" then Some rest
      else if is_char token "[" then
        match match_class rest value with
        | Some (matches, next) => if matches then Some next else None
        | None => literal
        end
      else literal
  end.

Fixpoint skip_stars (p : bytes) : bytes :=
  match p with
  | c :: p' => if is_char c "*" then skip_stars p' else p
  | [] => []
  end.

(** The loop of [glob_match_general]; [None] when the fuel runs out. *)
Fixpoint glob_loop (fuel : nat) (p v : bytes) (star : option (bytes * bytes)) : option bool :=
  match fuel with
  | O => None
  | S fuel =>
      match v with
      | [] => Some (bool_decide (skip_stars p = []))
      | c :: v' =>
          if match p with d :: _ => is_char d "*" | [] => false end then
            let p := skip_stars p in
            glob_loop fuel p v (Some (p, v))
          else
            match match_one p c with
            | Some next => glob_loop fuel next v' star
            | None =>
                match star with
                | None => Some false
                | Some (sp, sv) =>
                    match sv with
                    | _ :: sv => glob_loop fuel sp sv (Some (sp, sv))
                    | [] => None
                    end
                end
            end
      end
  end.

Definition glob_fuel (p v : bytes) : nat :=
  let n := (length p + length v + 2)%nat in (n * n)%nat.

Definition glob_match_general (p v : bytes) : option bool := glob_loop (glob_fuel p v) p v None.

Inductive PatternKind := always | literal | prefix | suffix | prefix_suffix | general.

(** [classify_pattern]: the scan of a pattern that is not a single star, with the
    number of stars so far and the position of the last. *)
Fixpoint classify_loop (pattern : bytes) (i star_count star_pos : nat) : option (nat * nat) :=
  match pattern with
  | [] => Some (star_count, star_pos)
  | c :: rest =>
      if is_char c "\" || is_char c "?" || is_char c "[" then None
      else if is_char c "*" then
        if (1 <? S star_count)%nat then None else classify_loop rest (S i) (S star_count) i
      else classify_loop rest (S i) star_count star_pos
  end.

Definition classify_pattern (pattern : bytes) : PatternKind :=
  if bool_decide (pattern = ["*"%byte]) then always
  else
    match classify_loop pattern 0 0 0 with
    | None => general
    | Some (star_count, star_pos) =>
        if Nat.eqb star_count 0 then literal
        else if Nat.eqb star_pos (length pattern - 1) then prefix
        else if Nat.eqb star_pos 0 then suffix
        else prefix_suffix
    end.

(** [value.compare(pos, text.size(), text) == 0] when the sizes allow it. *)
Definition occurs_at (pos : nat) (text value : bytes) : bool :=
  bool_decide (take (length text) (drop pos value) = text).

Fixpoint find_star (p : bytes) : nat :=
  match p with
  | c :: p => if is_char c "*" then O else S (find_star p)
  | [] => O
  end.

Definition match_classified (kind : PatternKind) (pattern value : bytes) : option bool :=
  match kind with
  | always => Some true
  | literal => Some (bool_decide (pattern = value))
  | prefix =>
      let text := take (length pattern - 1) pattern in
      Some ((length text <=? length value)%nat && occurs_at 0 text value)
  | suffix =>
      let text := drop 1 pattern in
      Some ((length text <=? length value)%nat && occurs_at (length value - length text) text value)
  | prefix_suffix =>
      let star := find_star pattern in
      let before := take star pattern in
      let after := drop (star + 1) pattern in
      if (length value <? length before + length after)%nat then Some false
      else Some (occurs_at 0 before value && occurs_at (length value - length after) after value)
  | general => glob_match_general pattern value
  end.

Definition glob_match (pattern value : bytes) : option bool :=
  match_classified (classify_pattern pattern) pattern value.

Example glob_ex1 : glob_match (str "news.*") (str "news.tech") = Some true.
Proof. vm_compute. reflexivity. Qed.
Example glob_ex2 : glob_match (str "h[^e-g]*o?") (str "hallox") = Some true.
Proof. vm_compute. reflexivity. Qed.
Example glob_ex3 : glob_match (str "a*b*c") (str "axbxcxbx") = Some false.
Proof. vm_compute. reflexivity. Qed.

(** *** Tokens *)

(** Whether a class is valid and where it ends do not depend on the character. *)
Lemma class_loop_next fuel i value value' matched matched' any :
  snd <$> class_loop fuel i value matched any = snd <$> class_loop fuel i value' matched' any.
Proof.
  revert i matched matched' any. induction fuel as [|fuel IH]; intros i matched matched' any; [done|].
  destruct i as [|c i]; [done|]. cbn [class_loop]. destruct (is_char c "]"); [by destruct any|].
  destruct (unescape c i) as [first j]. destruct j as [|dash [|c' j]]; try apply IH.
  destruct (is_char dash "-" && negb (is_char c' "]")); [|apply IH]. destruct (unescape c' j). apply IH.
Qed.

Lemma match_class_next i c d :
  snd <$> match_class i c = snd <$> match_class i d.
Proof.
  unfold match_class. destruct (match i with [] => _ | _ => _ end) as [negate j].
  pose proof (class_loop_next (length j) j c d false false false) as H.
  destruct (class_loop _ j c _ _) as [[m n]|], (class_loop _ j d _ _) as [[m' n']|]; simpl in *; congruence.
Qed.

Lemma match_one_next p c d q q' : match_one p c = Some q -> match_one p d = Some q' -> q = q'.
Proof.
  destruct p as [|token rest]; [done|]. cbn [match_one]. destruct (is_char token "?"); [congruence|].
  set (lit := if is_char token "\" then unescape token rest else (token, rest)). destruct lit as [x next].
  pose proof (match_class_next rest c d) as Hn.
  destruct (is_char token "["); repeat case_match; simpl in *; congruence.
Qed.

(** A token of the declarative reading: stars are not tokens. *)
Definition starts_star (p : bytes) : bool := match p with d :: _ => is_char d "*" | [] => false end.
Definition token (p : bytes) (c : byte) : option bytes := if starts_star p then None else match_one p c.

Lemma token_next p c d q q' : token p c = Some q -> token p d = Some q' -> q = q'.
Proof. unfold token. destruct (starts_star p); [done|]. apply match_one_next. Qed.
Lemma token_star p c : token ("*"%byte :: p) c = None.
Proof. done. Qed.
Lemma token_nil c : token [] c = None.
Proof. done. Qed.

Lemma starts_star_true p : starts_star p = true -> exists p', p = "*"%byte :: p'.
Proof. destruct p as [|c p]; [done|]. intros Hc%bool_decide_eq_true. subst. by exists p. Qed.

Lemma skip_stars_split p : exists n, p = replicate n "*"%byte ++ skip_stars p /\ (starts_star p = true -> n <> 0%nat).
Proof.
  induction p as [|c p (n & Hp & _)]; [by exists 0%nat|]. simpl. unfold is_char. case_bool_decide as Hc.
  - subst c. exists (S n). simpl. by rewrite <- Hp.
  - by exists 0%nat.
Qed.

Lemma skip_stars_only p : bool_decide (skip_stars p = []) = only_stars p.
Proof.
  induction p as [|c p IH]; [done|]. simpl. unfold is_char. destruct (bool_decide (c = "*"%byte)); [exact IH|done].
Qed.

Lemma match_class_shrinks i c r : match_class i c = Some r -> (length r.2 < length i)%nat.
Proof.
  assert (Hloop : forall fuel i matched any r, class_loop fuel i c matched any = Some r -> (length r.2 < length i)%nat).
  { induction fuel as [|fuel IH]; intros i0 matched any r0; [done|]. destruct i0 as [|d i0]; [done|]. cbn [class_loop].
    destruct (is_char d "]"); [destruct any; [|done]; intros; simplify_eq; simpl; lia|].
    assert (Hu : (length (unescape d i0).2 <= length i0)%nat).
    { unfold unescape. destruct i0; [done|]. destruct (is_char d _); simpl; lia. }
    destruct (unescape d i0) as [first j]. simpl in Hu. intros Hr.
    destruct j as [|dash [|d' j]]; [apply IH in Hr; simpl in *; lia..|].
    destruct (is_char dash "-" && negb (is_char d' "]")); [|apply IH in Hr; simpl in *; lia].
    assert (Hu' : (length (unescape d' j).2 <= length j)%nat).
    { unfold unescape. destruct j; [done|]. destruct (is_char d' _); simpl; lia. }
    destruct (unescape d' j) as [last k]. apply IH in Hr. simpl in *. lia. }
  unfold match_class. destruct i as [|d i]; [done|]. destruct (is_char d "^");
    (destruct (class_loop _ _ _ _ _) as [[m n]|] eqn:Hl; [|done]); intros; simplify_eq; apply Hloop in Hl; simpl in *; lia.
Qed.

Lemma match_one_shrinks p c q : match_one p c = Some q -> (length q < length p)%nat.
Proof.
  destruct p as [|t rest]; [done|]. cbn [match_one]. destruct (is_char t "?"); [intros; simplify_eq; simpl; lia|].
  assert (Hlit : forall q, (let '(x, next) := if is_char t "\" then unescape t rest else (t, rest) in
      if is_char x c then Some next else None) = Some q -> (length q <= length rest)%nat).
  { intros q0. unfold unescape. repeat case_match; intros; simplify_eq; simpl; lia. }
  destruct (is_char t "["); [|intros Hq%Hlit; simpl; lia].
  destruct (match_class rest c) as [[m n]|] eqn:Hm; [|intros Hq%Hlit; simpl; lia].
  apply match_class_shrinks in Hm. simpl in Hm. destruct m; intros; simplify_eq. simpl. lia.
Qed.

(** *** The general matcher *)

(** The loop finds a match exactly when there is one, and its fuel never runs out:
    every round shortens what is left since the star, or moves the star. *)
Lemma glob_loop_spec N fuel p v star :
  follows token p v star ->
  (length p + length v <= N)%nat ->
  (forall sp sv, star = Some (sp, sv) -> (length sp + length sv <= N)%nat) ->
  (match star with Some (_, sv) => length sv | None => S (length v) end * S N + length p + length v < fuel)%nat ->
  exists b, glob_loop fuel p v star = Some b /\ (b = true <-> alternatives token p v star).
Proof.
  revert p v star. induction fuel as [|fuel IH]; intros p v star Hf HN Hs Hfuel; [lia|]. cbn [glob_loop].
  destruct v as [|c v].
  - eexists. split; [done|]. rewrite skip_stars_only. symmetry.
    eapply alternatives_end; eauto using token_next, token_star, token_nil.
  - fold (starts_star p). destruct (starts_star p) eqn:Hstar.
    + destruct (skip_stars_split p) as (n & Hp & Hn). specialize (Hn Hstar).
      assert (Hl : (length p = n + length (skip_stars p))%nat) by (rewrite Hp at 1; by rewrite length_app, length_replicate).
      assert (Hsv : (match star with Some (_, sv) => length sv | None => S (length (c :: v)) end >= length (c :: v))%nat).
      { destruct star as [[sp sv]|]; [|lia]. destruct (Hf _ _ eq_refl) as (u & -> & _). rewrite length_app. lia. }
      destruct (IH (skip_stars p) (c :: v) (Some (skip_stars p, c :: v))) as (b & Hb & Hbm).
      * apply follows_new.
      * lia.
      * intros sp sv Heq. simplify_eq. lia.
      * simpl length in *. nia.
      * exists b. split; [done|]. rewrite Hbm. symmetry. rewrite Hp at 1.
        apply alternatives_star; eauto using token_next, token_star, token_nil. by rewrite <- Hp.
    + assert (Htok : token p c = match_one p c) by (unfold token; by rewrite Hstar).
      destruct (match_one p c) as [q|] eqn:Hq.
      * pose proof (match_one_shrinks _ _ _ Hq).
        destruct (IH q v star) as (b & Hb & Hbm).
        -- eapply follows_one; eauto.
        -- simpl in HN. lia.
        -- done.
        -- destruct star as [[sp sv]|]; simpl in *; nia.
        -- exists b. split; [done|]. rewrite Hbm. symmetry. eapply alternatives_one; eauto using token_star.
      * assert (Hns : forall p', p <> "*"%byte :: p') by (intros p' ->; done).
        pose proof (alternatives_back token p c v star Htok Hns) as Hback.
        destruct star as [[sp sv]|].
        -- destruct (Hf _ _ eq_refl) as (u & Hu & _). destruct sv as [|d sv]; [by destruct u|].
           specialize (Hs _ _ eq_refl). destruct (IH sp sv (Some (sp, sv))) as (b & Hb & Hbm).
           ++ apply follows_new.
           ++ simpl in Hs. lia.
           ++ intros ? ? Heq. simplify_eq. simpl in Hs. lia.
           ++ simpl in *. nia.
           ++ exists b. split; [done|]. by rewrite Hbm, Hback.
        -- exists false. split; [done|]. rewrite Hback. by split.
Qed.

Lemma glob_match_general_spec p v : exists b, glob_match_general p v = Some b /\ (b = true <-> matches token p v).
Proof.
  destruct (glob_loop_spec (length p + length v) (glob_fuel p v) p v None) as (b & Hb & Hm).
  - by intros ? ?.
  - lia.
  - done.
  - unfold glob_fuel. nia.
  - exists b. split; [done|]. rewrite Hm. unfold alternatives. split; [|by left]. intros [?|(? & ? & ? & ? & ? & _)]; done.
Qed.
(** *** The fast paths *)

Definition plain (c : byte) : Prop := c <> "\"%byte /\ c <> "?"%byte /\ c <> "["%byte /\ c <> "*"%byte.

Lemma token_plain x p c : plain x -> token (x :: p) c = if is_char x c then Some p else None.
Proof.
  intros (H1 & H2 & H3 & H4). unfold token, starts_star, match_one. unfold is_char.
  by rewrite !(bool_decide_eq_false_2 (x = _)) by done.
Qed.

Lemma matches_plain a q v : Forall plain a -> matches token (a ++ q) v <-> exists w, v = a ++ w /\ matches token q w.
Proof.
  intros Ha. revert v. induction Ha as [|x a Hx _ IH]; intros v; simpl.
  { split; [by exists v|by intros (w & -> & ?)]. }
  split.
  - intros Hm. inversion Hm as [|p' u' v' Hm'|p' d q' v' Ho' Hm']; subst; [by destruct Hx as (_ & _ & _ & ?)|].
    rewrite token_plain in Ho' by done. unfold is_char in Ho'. case_bool_decide; [|done]. simplify_eq.
    apply IH in Hm' as (w & -> & ?). by exists w.
  - intros (w & -> & Hm). econstructor; [|apply IH; by exists w]. rewrite token_plain by done. unfold is_char.
    by rewrite bool_decide_eq_true_2.
Qed.

Lemma matches_empty v : matches token [] v <-> v = [].
Proof. split; [|intros ->; constructor]. inversion 1; [done|]. by rewrite token_nil in *. Qed.

Lemma matches_literal p v : Forall plain p -> matches token p v <-> p = v.
Proof.
  intros Hp. rewrite <- (app_nil_r p) at 1. rewrite matches_plain by done. split.
  - intros (w & -> & ->%matches_empty). by rewrite app_nil_r.
  - intros <-. exists []. by rewrite app_nil_r, matches_empty.
Qed.

Lemma matches_one_star a b v :
  Forall plain a -> Forall plain b -> matches token (a ++ "*"%byte :: b) v <-> exists m, v = a ++ m ++ b.
Proof.
  intros Ha Hb. rewrite matches_plain by done. split.
  - intros (w & -> & Hm). inversion Hm as [|p' u' v' Hm'|p' d q' v' Ho' Hm']; subst; [|by rewrite token_star in Ho'].
    apply matches_literal in Hm' as <-; [|done]. by exists u'.
  - intros (m & ->). exists (m ++ b). split; [done|]. constructor. by apply matches_literal.
Qed.

Lemma plain_intro c : is_char c "\" || is_char c "?" || is_char c "[" = false -> is_char c "*" = false -> plain c.
Proof. unfold is_char, plain. rewrite !orb_false_iff, !bool_decide_eq_false. tauto. Qed.

(** What the scan of a pattern finds. *)
Lemma classify_loop_spec p i pos n r :
  classify_loop p i n pos = Some r ->
  (r = (n, pos) /\ Forall plain p)
  \/ exists a b, n = 0%nat /\ p = a ++ "*"%byte :: b /\ Forall plain a /\ Forall plain b /\ r = (1, i + length a)%nat.
Proof.
  revert i pos n. induction p as [|c p IH]; intros i pos n; simpl; [intros; simplify_eq; by left|].
  destruct (is_char c "\" || is_char c "?" || is_char c "[") eqn:Hm; [done|].
  destruct (is_char c "*") eqn:Hc.
  - apply bool_decide_eq_true in Hc. subst c. destruct n as [|n]; [|done]. simpl. intros [[-> Hp]|(a & b & ? & _)]%IH; [|done].
    right. exists [], p. split_and!; [done|done|constructor|done|]. simpl. f_equal. lia.
  - pose proof (plain_intro _ Hm Hc) as Hpl. intros [[-> Hp]|(a & b & -> & -> & Ha & Hb & ->)]%IH.
    + left. split; [done|by constructor].
    + right. exists (c :: a), b. split_and!; [done|done|by constructor|done|]. simpl. f_equal. lia.
Qed.

Lemma occurs_prefix text v : (length text <= length v)%nat -> occurs_at 0 text v = true <-> exists w, v = text ++ w.
Proof.
  intros Hl. unfold occurs_at. rewrite bool_decide_eq_true, drop_0. split.
  - intros Ht. exists (drop (length text) v). rewrite <- Ht at 1. by rewrite take_drop.
  - intros (w & ->). by rewrite take_app_length.
Qed.

Lemma occurs_suffix text v :
  (length text <= length v)%nat -> occurs_at (length v - length text) text v = true <-> exists w, v = w ++ text.
Proof.
  intros Hl. unfold occurs_at. rewrite bool_decide_eq_true, take_ge by (rewrite length_drop; lia). split.
  - intros Ht. exists (take (length v - length text) v). rewrite <- (take_drop (length v - length text) v) at 1. by rewrite Ht.
  - intros (w & ->). rewrite length_app, Nat.add_sub. by rewrite drop_app_length.
Qed.

Lemma find_star_spec a b : Forall plain a -> find_star (a ++ "*"%byte :: b) = length a.
Proof.
  induction 1 as [|x a (_ & _ & _ & Hx) _ IH]; [done|]. simpl. unfold is_char. by rewrite bool_decide_eq_false_2, IH.
Qed.

Lemma both_ends (a b v : bytes) :
  (exists m, v = a ++ m ++ b) <->
  (length a + length b <= length v)%nat /\ (exists w, v = a ++ w) /\ exists w, v = w ++ b.
Proof.
  split.
  - intros (m & ->). rewrite !length_app. split_and!; [lia|by exists (m ++ b)|exists (a ++ m); by rewrite app_assoc].
  - intros (Hl & (w & ->) & (w' & Hw)). rewrite length_app in Hl.
    assert (Hlen : (length w' = length a + (length w - length b))%nat).
    { apply (f_equal length) in Hw. rewrite !length_app in Hw. lia. }
    exists (take (length w - length b) w). f_equal. apply (f_equal (drop (length w'))) in Hw.
    rewrite drop_app_length, Hlen, <- drop_drop, drop_app_length in Hw.
    rewrite <- (take_drop (length w - length b) w) at 1. by rewrite Hw.
Qed.

Lemma glob_match_spec (pattern value : bytes) :
  exists b, glob_match pattern value = Some b /\ glob_match_general pattern value = Some b
            /\ (b = true <-> matches token pattern value).
Proof.
  destruct (glob_match_general_spec pattern value) as (b & Hb & Hm). exists b. split_and!; [|done|done].
  unfold glob_match, classify_pattern. case_bool_decide as Hall.
  { subst. simpl. f_equal. symmetry. apply Hm. rewrite <- (app_nil_r value). constructor. constructor. }
  destruct (classify_loop pattern 0 0 0) as [r|] eqn:Hc; [|exact Hb].
  apply classify_loop_spec in Hc as [[-> Hp]|(a & v & _ & -> & Ha & Hv & ->)]; simpl.
  - f_equal. apply eq_true_iff_eq. by rewrite Hm, bool_decide_eq_true, matches_literal.
  - rewrite matches_one_star in Hm by done. rewrite length_app. simpl.
    destruct (Nat.eqb_spec (length a) (length a + S (length v) - 1)) as [He|Hne].
    { destruct v; [|simpl in He; lia]. simpl. rewrite length_app. simpl. f_equal. apply eq_true_iff_eq. rewrite Hm.
      replace (length a + 1 - 1)%nat with (length a) by lia. rewrite take_app_length, andb_true_iff, Nat.leb_le. split.
      - intros (Hl & (w & ->)%occurs_prefix); [|done]. exists w. by rewrite app_nil_r.
      - intros (w & ->). rewrite app_nil_r, length_app. split; [lia|]. apply occurs_prefix; [rewrite length_app; lia|by exists w]. }
    destruct (Nat.eqb_spec (length a) 0) as [He|Hne'].
    { destruct a; [|done]. simpl. rewrite ?drop_0. f_equal. apply eq_true_iff_eq. rewrite Hm, andb_true_iff, Nat.leb_le. simpl. split.
      - intros (Hl & Ho%occurs_suffix); done.
      - intros (w & ->). rewrite length_app. split; [lia|]. rewrite <- length_app. apply occurs_suffix; [rewrite length_app; lia|by exists w]. }
    cbn [match_classified]. rewrite find_star_spec by done. rewrite take_app_length.
    replace (drop (length a + 1) (a ++ "*"%byte :: v)) with v by (by rewrite <- drop_drop, drop_app_length).
    destruct (Nat.ltb_spec (length value) (length a + length v)) as [Hl|Hl].
    + f_equal. symmetry. apply not_true_iff_false. rewrite Hm, both_ends. intros (Hl' & _). lia.
    + f_equal. apply eq_true_iff_eq. rewrite Hm, both_ends, andb_true_iff, occurs_prefix, occurs_suffix by lia. tauto.
Qed.

(** The classified matcher of channel patterns returns, for every pattern and
    channel, exactly what the declarative reading of the pattern says: the fast
    paths (literal, prefix, suffix, prefix and suffix) agree with the general
    matcher, and the general matcher, which remembers only its last star, misses
    no match and always terminates. *)
Theorem glob_match_correct (pattern value : bytes) :
  exists b, glob_match pattern value = Some b /\ glob_match_general pattern value = Some b
            /\ (b = true <-> matches token pattern value).
Proof. apply glob_match_spec. Qed.
End PubSub.

(** ** The matcher of the scan commands *)

Module Scan.
Import PubSub(is_char).

(** Whether [char] is signed is left to the implementation: [char_value] is the
    number that range comparisons see. *)
Section scan.
Context (char_value : byte -> Z).

(** The loop over the body of a class. *)
Fixpoint class_items (body : bytes) (c : byte) : bool :=
  match body with
  | [] => false
  | lo :: rest =>
      match rest with
      | dash :: hi :: rest' =>
          if is_char dash "-"
          then (char_value lo <=? char_value c) && (char_value c <=? char_value hi) || class_items rest' c
          else is_char lo c || class_items rest c
      | _ => is_char lo c || class_items rest c
      end
  end.

Definition class_matches (body : bytes) (c : byte) : bool :=
  match body with
  | x :: rest => if is_char x "^" || is_char x "!" then negb (class_items rest c) else class_items body c
  | [] => false
  end.

(** [pattern.find(']', pi + 1)]: the body of the class and what follows it. *)
Fixpoint find_close (p : bytes) : option (bytes * bytes) :=
  match p with
  | [] => None
  | c :: p =>
      if is_char c "]" then Some ([], p)
      else match find_close p with Some (body, rest) => Some (c :: body, rest) | None => None end
  end.

Fixpoint scan_loop (fuel : nat) (p v : bytes) (star : option (bytes * bytes)) : option bool :=
  match fuel with
  | O => None
  | S fuel =>
      match v with
      | [] => Some (bool_decide (PubSub.skip_stars p = []))
      | c :: v' =>
          let back :=
            match star with
            | Some (sp, _ :: sv) => scan_loop fuel sp sv (Some (sp, sv))
            | Some (sp, []) => None
            | None => Some false
            end in
          match p with
          | x :: q =>
              if is_char x "?" || is_char x c then scan_loop fuel q v' star
              else if is_char x "*" then scan_loop fuel q v (Some (q, v))
              else if is_char x "[" then
                match find_close q with
                | None => Some false
                | Some (body, rest) => if class_matches body c then scan_loop fuel rest v' star else back
                end
              else back
          | [] => back
          end
      end
  end.

Definition scan_glob_match (pattern value : bytes) : option bool :=
  scan_loop (PubSub.glob_fuel pattern value) pattern value None.

(** The declarative reading: a class is read as one, stars are stars. *)
Definition scan_token (p : bytes) (c : byte) : option bytes :=
  match p with
  | [] => None
  | x :: q =>
      if is_char x "*" then None
      else if is_char x "[" then
        match find_close q with
        | Some (body, rest) => if class_matches body c then Some rest else None
        | None => None
        end
      else if is_char x "?" || is_char x c then Some q else None
  end.

Lemma scan_token_next p c d q q' : scan_token p c = Some q -> scan_token p d = Some q' -> q = q'.
Proof. unfold scan_token. repeat case_match; congruence. Qed.
Lemma scan_token_star p c : scan_token ("*"%byte :: p) c = None.
Proof. done. Qed.
Lemma scan_token_nil c : scan_token [] c = None.
Proof. done. Qed.

Lemma find_close_shrinks p r : find_close p = Some r -> (length r.2 < length p)%nat.
Proof.
  revert r. induction p as [|c p IH]; intros r; simpl; [done|]. destruct (is_char c "]"); [intros; simplify_eq; simpl; lia|].
  destruct (find_close p) as [[body rest]|]; [|done]. intros. simplify_eq. specialize (IH _ eq_refl). simpl in *. lia.
Qed.

Lemma scan_token_shrinks p c q : scan_token p c = Some q -> (length q < length p)%nat.
Proof.
  destruct p as [|x p]; [done|]. simpl. destruct (is_char x "*"); [done|]. destruct (is_char x "[").
  - destruct (find_close p) as [[body rest]|] eqn:Hf; [|done]. destruct (class_matches body c); [|done].
    intros. simplify_eq. apply find_close_shrinks in Hf. simpl in *. lia.
  - destruct (_ || _); intros; simplify_eq; simpl; lia.
Qed.

(** The fuel is enough for every value. *)
Lemma scan_loop_total N fuel p v star :
  (length p + length v <= N)%nat ->
  (forall sp sv, star = Some (sp, sv) -> (length v <= length sv)%nat /\ (length sp + length sv <= N)%nat) ->
  (match star with Some (_, sv) => length sv | None => S (length v) end * S N + length p + length v < fuel)%nat ->
  exists b, scan_loop fuel p v star = Some b.
Proof.
  revert p v star. induction fuel as [|fuel IH]; intros p v star HN Hs Hfuel; [lia|]. cbn [scan_loop].
  destruct v as [|c v]; [by eexists|].
  assert (Hback : exists b, match star with
              | Some (sp, _ :: sv) => scan_loop fuel sp sv (Some (sp, sv))
              | Some (sp, []) => None
              | None => Some false
              end = Some b).
  { destruct star as [[sp sv]|]; [|by eexists]. destruct (Hs _ _ eq_refl) as [H1 H2]. destruct sv as [|d sv]; [simpl in H1; lia|].
    apply IH; [simpl in H2; lia| |simpl in *; nia]. intros ? ? Heq. simplify_eq. simpl in H2. lia. }
  assert (Hgo : forall q, (length q <= length p)%nat -> exists b, scan_loop fuel q v star = Some b).
  { intros q Hq. apply IH; [simpl in HN; lia| |destruct star as [[sp sv]|]; simpl in *; nia].
    intros sp sv Heq. destruct (Hs _ _ Heq) as [H1 H2]. simpl in H1. lia. }
  destruct p as [|x q]; [done|]. destruct (is_char x "?" || is_char x c); [apply Hgo; simpl; lia|].
  destruct (is_char x "*").
  { apply IH; [simpl in *; lia| |].
    - intros ? ? Heq. simplify_eq. simpl in *. lia.
    - destruct star as [[sp sv]|]; [destruct (Hs _ _ eq_refl) as [H1 H2]|]; simpl in *; nia. }
  destruct (is_char x "["); [|done]. destruct (find_close q) as [[body rest]|] eqn:Hf; [|by eexists].
  destruct (class_matches body c); [|done]. apply find_close_shrinks in Hf. apply Hgo. simpl in *. lia.
Qed.

Definition no_meta (v : bytes) : Prop := Forall (fun c => c <> "*"%byte /\ c <> "["%byte) v.

Lemma scan_loop_spec N fuel p v star :
  no_meta v -> (forall sp sv, star = Some (sp, sv) -> no_meta sv) ->
  follows scan_token p v star ->
  (length p + length v <= N)%nat ->
  (forall sp sv, star = Some (sp, sv) -> (length sp + length sv <= N)%nat) ->
  (match star with Some (_, sv) => length sv | None => S (length v) end * S N + length p + length v < fuel)%nat ->
  exists b, scan_loop fuel p v star = Some b /\ (b = true <-> alternatives scan_token p v star).
Proof.
  revert p v star. induction fuel as [|fuel IH]; intros p v star Hv Hsv Hf HN Hs Hfuel; [lia|]. cbn [scan_loop].
  destruct v as [|c v].
  { eexists. split; [done|]. rewrite PubSub.skip_stars_only. symmetry.
    eapply alternatives_end; eauto using scan_token_next, scan_token_star, scan_token_nil. }
  inversion Hv as [|? ? [Hc1 Hc2] Hv']; subst.
  assert (Hback : (forall p', p <> "*"%byte :: p') -> scan_token p c = None ->
    exists b, match star with
              | Some (sp, _ :: sv) => scan_loop fuel sp sv (Some (sp, sv))
              | Some (sp, []) => None
              | None => Some false
              end = Some b /\ (b = true <-> alternatives scan_token p (c :: v) star)).
  { intros Hns Hno. pose proof (alternatives_back scan_token p c v star Hno Hns) as Hb.
    destruct star as [[sp sv]|]; [|exists false; split; [done|]; rewrite Hb; by split].
    destruct (Hf _ _ eq_refl) as (u & Hu & _). destruct sv as [|d sv]; [by destruct u|].
    specialize (Hs _ _ eq_refl). specialize (Hsv _ _ eq_refl). inversion Hsv; subst.
    destruct (IH sp sv (Some (sp, sv))) as (b & Hb' & Hbm).
    - done.
    - intros ? ? Heq. by simplify_eq.
    - apply follows_new.
    - simpl in Hs. lia.
    - intros ? ? Heq. simplify_eq. simpl in Hs. lia.
    - simpl in *. nia.
    - exists b. split; [done|]. by rewrite Hbm, Hb. }
  assert (Hstep : forall q, scan_token p c = Some q ->
    exists b, scan_loop fuel q v star = Some b /\ (b = true <-> alternatives scan_token p (c :: v) star)).
  { intros q Hq. pose proof (scan_token_shrinks _ _ _ Hq). destruct (IH q v star) as (b & Hb & Hbm).
    - done.
    - done.
    - eapply follows_one; eauto.
    - simpl in HN. lia.
    - done.
    - destruct star as [[sp sv]|]; simpl in *; nia.
    - exists b. split; [done|]. rewrite Hbm. symmetry. eapply alternatives_one; eauto using scan_token_star. }
  destruct p as [|x q]; [by apply Hback|].
  destruct (is_char x "?" || is_char x c) eqn:Hx1.
  { apply Hstep. simpl. unfold is_char in *. rewrite Hx1, !bool_decide_eq_false_2; [done|..];
      intros ->; rewrite !bool_decide_eq_false_2 in Hx1 by congruence; done. }
  destruct (is_char x "*") eqn:Hx2.
  { apply bool_decide_eq_true in Hx2. subst x.
    assert (Hge : (match star with Some (_, sv) => length sv | None => S (length (c :: v)) end >= length (c :: v))%nat).
    { destruct star as [[sp sv]|]; [|lia]. destruct (Hf _ _ eq_refl) as (u & -> & _). rewrite length_app. lia. }
    destruct (IH q (c :: v) (Some (q, c :: v))) as (b & Hb & Hbm).
    - done.
    - intros ? ? Heq. by simplify_eq.
    - apply follows_new.
    - simpl in *. lia.
    - intros ? ? Heq. simplify_eq. simpl in *. lia.
    - simpl length in *. nia.
    - exists b. split; [done|]. rewrite Hbm. symmetry.
      apply (alternatives_star _ scan_token_next scan_token_star scan_token_nil 1); [lia|done]. }
  assert (Hns : forall p', x :: q <> "*"%byte :: p') by (intros p' Heq; simplify_eq; done).
  destruct (is_char x "[") eqn:Hx3; [|apply Hback; [done|]; cbn [scan_token]; by rewrite Hx1, Hx2, Hx3].
  destruct (find_close q) as [[body rest]|] eqn:Hcl.
  - destruct (class_matches body c) eqn:Hcm.
    + apply Hstep. cbn [scan_token]. by rewrite Hx2, Hx3, Hcl, Hcm.
    + apply Hback; [done|]. cbn [scan_token]. by rewrite Hx2, Hx3, Hcl, Hcm.
  - exists false. split; [done|]. split; [done|]. intros Ha. exfalso. revert Ha.
    apply alternatives_stuck; eauto using scan_token_next, scan_token_star, scan_token_nil.
    intros d. cbn [scan_token]. by rewrite Hx2, Hx3, Hcl.
Qed.

(** C32: the matcher of the scan commands always terminates, and for a value
    without stars and brackets it returns what the declarative reading of the
    pattern says, classes, ranges and negations included. *)
Theorem scan_glob_correct (pattern value : bytes) :
  exists b, scan_glob_match pattern value = Some b
            /\ (no_meta value -> b = true <-> matches scan_token pattern value).
Proof.
  assert (Hfuel : ((S (length value)) * S (length pattern + length value) + length pattern + length value
                   < PubSub.glob_fuel pattern value)%nat) by (unfold PubSub.glob_fuel; nia).
  destruct (scan_loop_total (length pattern + length value) (PubSub.glob_fuel pattern value) pattern value None) as (b & Hb); [lia|done|done|].
  exists b. split; [done|]. intros Hv.
  destruct (scan_loop_spec (length pattern + length value) (PubSub.glob_fuel pattern value) pattern value None) as (b' & Hb' & Hm);
    [done|done|by intros ? ?|lia|done|done|].
  rewrite Hb in Hb'. simplify_eq. rewrite Hm. unfold alternatives. split; [|by left]. intros [?|(? & ? & ? & ? & ? & _)]; done.
Qed.
End scan.

Lemma scan_glob_correct_witness :
  exists b, scan_glob_match u8 (str "u[a-c]*r:?") (str "ubser:1") = Some b
            /\ (b = true <-> matches (scan_token u8) (str "u[a-c]*r:?") (str "ubser:1")).
Proof.
  destruct (scan_glob_correct u8 (str "u[a-c]*r:?") (str "ubser:1")) as (b & Hb & Hm). exists b. split; [exact Hb|].
  apply Hm. unfold no_meta. repeat (apply Forall_cons; split; [split; discriminate|]). apply Forall_nil. exact I.
Defined.

(** The matcher of the scan commands tests for an equal character before it
    tests for a star.  A star of the pattern that meets a star of the value is
    used up as a literal and cannot extend: the pattern [*a] does not match the
    value [*ba], although it matches [xba] and its reading covers both. *)
Theorem scan_glob_star :
  scan_glob_match u8 (str "*a") (str "xba") = Some true
  /\ scan_glob_match u8 (str "*a") (str "*ba") = Some false
  /\ matches (scan_token u8) (str "*a") (str "*ba").
Proof.
  split_and!; [vm_compute; reflexivity|vm_compute; reflexivity|].
  apply (matches_star _ (str "a") (str "*b") (str "a")). by econstructor; [|constructor].
Qed.

(** The same test comes before the one for a class: a bracket of the pattern that meets a bracket of the value is used up as
    a literal.  The class [[[]] does not match the value [[], which its reading covers, and the unclosed class that is
    left over matches nothing. *)
Theorem scan_glob_bracket :
  scan_glob_match u8 (str "[[]") (str "[") = Some false /\ scan_glob_match u8 (str "[[a]") (str "a") = Some true
  /\ matches (scan_token u8) (str "[[]") (str "[").
Proof. split_and!; [vm_compute; reflexivity|vm_compute; reflexivity|]. by econstructor; [|constructor]. Qed.
End Scan.
