(* ===== verification/OutputQueue.v ===== *)
(** * The queue of unsolicited output

    Models [UnsolicitedOutputQueue] of [src/pubsub.hpp] and [src/pubsub.cpp]: the
    pushes a session has not sent yet, as records in a circular buffer.  A record
    is a length, a sequence number and the payload, and never wraps: what is left
    at the end of the buffer is skipped, after a marker when it has room for one.
    The constructor maps memory and the destructor returns it; both are calls of
    the operating system. *)

From S2P Require Import Prelude.
From Stdlib Require Import ZArith Lia.

Local Open Scope Z_scope.

(** Sizes and offsets are below the mapped size and kept as naturals; [None] is a
    read or write out of the mapping. *)
Record UnsolicitedOutputQueue := {
  data_ : bytes;
  capacity_ : nat;
  read_offset_ : nat;
  write_offset_ : nat;
  used_bytes_ : nat;
  payload_bytes_ : nat;
}.

Definition kWrapRecord : Z := 4294967295.
Definition kRecordHeaderBytes : nat := 12.

Definition new_queue (mapping : bytes) : UnsolicitedOutputQueue :=
  {| data_ := mapping; capacity_ := length mapping; read_offset_ := 0; write_offset_ := 0;
     used_bytes_ := 0; payload_bytes_ := 0 |}.

Definition is_empty (q : UnsolicitedOutputQueue) : bool := Nat.eqb (used_bytes_ q) 0.

(** [push] once there is a place: the three copies and the new offsets. *)
Definition write_record (sequence : Z) (bytes : bytes) (q : UnsolicitedOutputQueue) : option UnsolicitedOutputQueue :=
  let record_bytes := (kRecordHeaderBytes + length bytes)%nat in
  data ← poke (write_offset_ q) (le_bytes 4 (Z.of_nat (length bytes))) (data_ q);
  data ← poke (write_offset_ q + 4) (le_bytes 8 sequence) data;
  data ← poke (write_offset_ q + kRecordHeaderBytes) bytes data;
  let write_offset := (write_offset_ q + record_bytes)%nat in
  Some {| data_ := data; capacity_ := capacity_ q; read_offset_ := read_offset_ q;
          write_offset_ := if Nat.eqb write_offset (capacity_ q) then 0 else write_offset;
          used_bytes_ := used_bytes_ q + record_bytes; payload_bytes_ := payload_bytes_ q + length bytes |}.

Definition push (sequence : Z) (bytes : bytes) (q : UnsolicitedOutputQueue) : option (bool * UnsolicitedOutputQueue) :=
  if Z.of_nat (length bytes) >? 4294967295 then Some (false, q)
  else
    let record_bytes := (kRecordHeaderBytes + length bytes)%nat in
    if (capacity_ q <? record_bytes)%nat || (capacity_ q - used_bytes_ q <? record_bytes)%nat then Some (false, q)
    else
      let q := if Nat.eqb (used_bytes_ q) 0
               then {| data_ := data_ q; capacity_ := capacity_ q; read_offset_ := 0; write_offset_ := 0;
                       used_bytes_ := used_bytes_ q; payload_bytes_ := payload_bytes_ q |}
               else q in
      if (read_offset_ q <=? write_offset_ q)%nat then
        let tail_bytes := (capacity_ q - write_offset_ q)%nat in
        if (tail_bytes <? record_bytes)%nat then
          if (capacity_ q - used_bytes_ q <? tail_bytes + record_bytes)%nat || (read_offset_ q <? record_bytes)%nat
          then Some (false, q)
          else
            data ← (if (4 <=? tail_bytes)%nat then poke (write_offset_ q) (le_bytes 4 kWrapRecord) (data_ q)
                    else Some (data_ q));
            q ← write_record sequence bytes
                  {| data_ := data; capacity_ := capacity_ q; read_offset_ := read_offset_ q; write_offset_ := 0;
                     used_bytes_ := used_bytes_ q + tail_bytes; payload_bytes_ := payload_bytes_ q |};
            Some (true, q)
        else q ← write_record sequence bytes q; Some (true, q)
      else if (read_offset_ q - write_offset_ q <? record_bytes)%nat then Some (false, q)
      else q ← write_record sequence bytes q; Some (true, q).

(** [normalize_head] skips what is left at the end of the buffer.  It goes round at
    most twice: the second time it looks at the start of the buffer. *)
Fixpoint normalize_loop (fuel : nat) (q : UnsolicitedOutputQueue) : option UnsolicitedOutputQueue :=
  match fuel with
  | O => None
  | S fuel =>
      if Nat.eqb (used_bytes_ q) 0 then Some q
      else
        let tail_bytes := (capacity_ q - read_offset_ q)%nat in
        let skipped := {| data_ := data_ q; capacity_ := capacity_ q; read_offset_ := 0; write_offset_ := write_offset_ q;
                          used_bytes_ := used_bytes_ q - tail_bytes; payload_bytes_ := payload_bytes_ q |} in
        if (tail_bytes <? 4)%nat then normalize_loop fuel skipped
        else
          length ← read_le 4 (read_offset_ q) (data_ q);
          if negb (length =? kWrapRecord) then Some q else normalize_loop fuel skipped
  end.
Definition normalize_head : UnsolicitedOutputQueue -> option UnsolicitedOutputQueue := normalize_loop 2.

(** [front]: the sequence number and the payload of the head, and the queue with
    its head normalised. *)
Definition front (q : UnsolicitedOutputQueue) : option (option (Z * bytes) * UnsolicitedOutputQueue) :=
  q ← normalize_head q;
  if Nat.eqb (used_bytes_ q) 0 then Some (None, q)
  else
    length ← read_le 4 (read_offset_ q) (data_ q);
    sequence ← read_le 8 (read_offset_ q + 4) (data_ q);
    bytes ← slice (read_offset_ q + kRecordHeaderBytes) (Z.to_nat length) (data_ q);
    Some (Some (sequence, bytes), q).

Definition pop_front (payload_len : nat) (q : UnsolicitedOutputQueue) : UnsolicitedOutputQueue :=
  let record_bytes := (kRecordHeaderBytes + payload_len)%nat in
  let read_offset := (read_offset_ q + record_bytes)%nat in
  let read_offset := if Nat.eqb read_offset (capacity_ q) then 0%nat else read_offset in
  let used_bytes := (used_bytes_ q - record_bytes)%nat in
  {| data_ := data_ q; capacity_ := capacity_ q;
     read_offset_ := if Nat.eqb used_bytes 0 then 0 else read_offset;
     write_offset_ := if Nat.eqb used_bytes 0 then 0 else write_offset_ q;
     used_bytes_ := used_bytes; payload_bytes_ := payload_bytes_ q - payload_len |}.

Definition pop (q : UnsolicitedOutputQueue) : option UnsolicitedOutputQueue :=
  q ← normalize_head q;
  if Nat.eqb (used_bytes_ q) 0 then Some q
  else
    length ← read_le 4 (read_offset_ q) (data_ q);
    Some (pop_front (Z.to_nat length) q).

Definition clear (q : UnsolicitedOutputQueue) : UnsolicitedOutputQueue :=
  {| data_ := data_ q; capacity_ := capacity_ q; read_offset_ := 0; write_offset_ := 0;
     used_bytes_ := 0; payload_bytes_ := 0 |}.

(** ** What a queue holds *)

Definition record_enc (r : Z * bytes) : bytes :=
  le_bytes 4 (Z.of_nat (length r.2)) ++ le_bytes 8 r.1 ++ r.2.
Definition enc (l : list (Z * bytes)) : bytes := concat (map record_enc l).

Definition record_ok (r : Z * bytes) : Prop := 0 <= r.1 < 2 ^ 64.

(** One run of records, or a run at the end, skipped bytes and a run at the start. *)
Inductive layout (q : UnsolicitedOutputQueue) (l : list (Z * bytes)) : Prop :=
| linear pre post :
    data_ q = pre ++ enc l ++ post -> read_offset_ q = length pre ->
    write_offset_ q = (length pre + length (enc l))%nat -> used_bytes_ q = length (enc l) ->
    (0 < length post)%nat -> layout q l
| wrapped l1 l2 gap tail :
    l = l1 ++ l2 -> data_ q = enc l2 ++ gap ++ enc l1 ++ tail ->
    read_offset_ q = (length (enc l2) + length gap)%nat -> write_offset_ q = length (enc l2) ->
    used_bytes_ q = (length (enc l1) + length tail + length (enc l2))%nat ->
    (0 < length (enc l1) + length tail)%nat -> (l2 = [] -> tail = []) ->
    ((4 <= length tail)%nat -> exists rest, tail = le_bytes 4 kWrapRecord ++ rest) -> layout q l.

Record holds (q : UnsolicitedOutputQueue) (l : list (Z * bytes)) : Prop := {
  h_capacity : capacity_ q = length (data_ q);
  h_size : 0 < Z.of_nat (capacity_ q) <= 2 ^ 32;
  h_records : Forall record_ok l;
  h_payload : payload_bytes_ q = sum_list (map (fun r => length r.2) l);
  h_layout : layout q l;
}.

Lemma queued_record_length r : length (record_enc r) = (12 + length r.2)%nat.
Proof. unfold record_enc. len_lia. Qed.

Lemma records_app a b : enc (a ++ b) = enc a ++ enc b.
Proof. unfold enc. by rewrite map_app, concat_app. Qed.

Lemma records_cons r l : enc (r :: l) = record_enc r ++ enc l.
Proof. done. Qed.

Lemma enc_one r : enc [r] = record_enc r.
Proof. unfold enc. simpl. by rewrite app_nil_r. Qed.

Lemma enc_nil l : length (enc l) = 0%nat <-> l = [].
Proof. destruct l as [|r l]; [done|]. rewrite records_cons, length_app, queued_record_length. split; [lia|done]. Qed.

Lemma holds_new mapping : 0 < Z.of_nat (length mapping) <= 2 ^ 32 -> holds (new_queue mapping) [].
Proof. intros Hm. split; simpl; auto. by apply (linear _ _ [] mapping); simpl; try done; lia. Qed.

(** Writing a record over the bytes after [pre]. *)
Lemma write_record_spec s b q pre old post :
  data_ q = pre ++ old ++ post -> write_offset_ q = length pre -> length old = (12 + length b)%nat ->
  write_record s b q =
  Some {| data_ := pre ++ record_enc (s, b) ++ post; capacity_ := capacity_ q; read_offset_ := read_offset_ q;
          write_offset_ := if Nat.eqb (length pre + (12 + length b)) (capacity_ q) then 0
                           else (length pre + (12 + length b))%nat;
          used_bytes_ := used_bytes_ q + (12 + length b); payload_bytes_ := payload_bytes_ q + length b |}.
Proof.
  intros Hd Hw Ho. unfold write_record. rewrite Hd, Hw. unfold kRecordHeaderBytes.
  rewrite <- (take_drop 4 old). set (o1 := take 4 old). set (rest := drop 4 old).
  rewrite <- (take_drop 8 rest). set (o2 := take 8 rest). set (o3 := drop 8 rest).
  assert (length o1 = 4%nat) by (unfold o1; rewrite length_take; lia).
  assert (length o2 = 8%nat) by (unfold o2, rest; rewrite length_take, length_drop; lia).
  assert (length o3 = length b) by (unfold o3, rest; rewrite !length_drop; lia).
  rewrite <- !app_assoc, (poke_app pre o1) by (rewrite ?length_le_bytes; done). cbn [mbind option_bind].
  rewrite (app_assoc pre), (poke_app _ o2) by (rewrite ?length_app, ?length_le_bytes; done). cbn [mbind option_bind].
  rewrite (app_assoc _ (le_bytes 8 s)), (poke_app _ o3) by (rewrite ?length_app, ?length_le_bytes; lia || done).
  cbn [mbind option_bind]. unfold record_enc. by rewrite <- !app_assoc.
Qed.

Lemma enc_empty : enc [] = [].
Proof. done. Qed.

#[local] Opaque record_enc enc.

Lemma layout_used q l : layout q l -> used_bytes_ q = 0%nat -> l = [].
Proof.
  intros [pre post Hd Hr Hw Hu Hp|l1 l2 gap tail -> Hd Hr Hw Hu Hp Hn Ht] Hz; [apply enc_nil; lia|].
  assert (length (enc l1) = 0 /\ length (enc l2) = 0)%nat as [->%enc_nil ->%enc_nil] by lia. done.
Qed.

Lemma split_at n (m : bytes) : (n <= length m)%nat -> exists a b, m = a ++ b /\ length a = n.
Proof. intros Hn. exists (take n m), (drop n m). rewrite take_drop, length_take. split; [done|lia]. Qed.

Lemma payload_snoc l s b :
  sum_list (map (fun r : Z * bytes => length r.2) (l ++ [(s, b)])) = (sum_list (map (fun r => length r.2) l) + length b)%nat.
Proof. induction l as [|r l IH]; simpl in *; lia. Qed.

Ltac fields := cbn [data_ capacity_ read_offset_ write_offset_ used_bytes_ payload_bytes_ fst snd].

(** A record after the run of a linear queue. *)
Lemma push_linear s b q l pre post :
  capacity_ q = length (data_ q) ->
  data_ q = pre ++ enc l ++ post -> read_offset_ q = length pre ->
  write_offset_ q = (length pre + length (enc l))%nat -> used_bytes_ q = length (enc l) ->
  (12 + length b <= length post)%nat ->
  exists q', write_record s b q = Some q' /\ capacity_ q' = capacity_ q /\ length (data_ q') = length (data_ q)
    /\ payload_bytes_ q' = (payload_bytes_ q + length b)%nat /\ layout q' (l ++ [(s, b)]).
Proof.
  intros Hc Hd Hr Hw Hu Hp. destruct (split_at (12 + length b) post Hp) as (old & post2 & -> & Hold).
  rewrite app_assoc in Hd. rewrite (write_record_spec s b q (pre ++ enc l) old post2) by (rewrite ?length_app; done).
  eexists. split; [done|]. fields. split_and!; [done| |done|].
  - rewrite Hd. rewrite !length_app, queued_record_length, Hold. simpl. lia.
  - destruct (Nat.eqb_spec (length (pre ++ enc l) + (12 + length b)) (capacity_ q)) as [He|He].
    + apply (wrapped _ _ (l ++ [(s, b)]) [] pre []); fields; rewrite ?enc_empty.
      * by rewrite app_nil_r.
      * rewrite records_app, enc_one. assert (post2 = []) as ->; [|by rewrite !app_assoc].
        apply nil_length_inv. rewrite Hc, Hd, !length_app in He. lia.
      * done.
      * done.
      * rewrite records_app, enc_one, length_app, queued_record_length, Hu. simpl. lia.
      * rewrite records_app, enc_one, length_app, queued_record_length. lia.
      * done.
      * intros Ht. simpl in Ht. lia.
    + apply (linear _ _ pre post2); fields.
      * by rewrite records_app, enc_one, <- !app_assoc.
      * done.
      * rewrite records_app, enc_one, !length_app, queued_record_length. simpl. lia.
      * rewrite records_app, enc_one, length_app, queued_record_length, Hu. simpl. lia.
      * rewrite Hc, Hd, !length_app in He. lia.
Qed.

(** A record over the start of the gap of a wrapped queue, or after it was wrapped. *)
Lemma push_wrapped s b q l1 l2 gap tail :
  capacity_ q = length (data_ q) ->
  data_ q = enc l2 ++ gap ++ enc l1 ++ tail ->
  read_offset_ q = (length (enc l2) + length gap)%nat -> write_offset_ q = length (enc l2) ->
  used_bytes_ q = (length (enc l1) + length tail + length (enc l2))%nat ->
  (0 < length (enc l1) + length tail)%nat ->
  ((4 <= length tail)%nat -> exists rest, tail = le_bytes 4 kWrapRecord ++ rest) ->
  (12 + length b <= length gap)%nat ->
  exists q', write_record s b q = Some q' /\ capacity_ q' = capacity_ q /\ length (data_ q') = length (data_ q)
    /\ payload_bytes_ q' = (payload_bytes_ q + length b)%nat /\ layout q' ((l1 ++ l2) ++ [(s, b)]).
Proof.
  intros Hc Hd Hr Hw Hu Hne Ht Hg. destruct (split_at (12 + length b) gap Hg) as (old & gap2 & -> & Hold).
  rewrite <- app_assoc in Hd. rewrite (write_record_spec s b q (enc l2) old (gap2 ++ enc l1 ++ tail)) by done.
  eexists. split; [done|]. fields. rewrite Hd, !length_app in Hc. rewrite !length_app in Hr.
  split_and!; [done| |done|].
  - rewrite Hd. rewrite !length_app, queued_record_length, Hold. simpl. lia.
  - apply (wrapped _ _ l1 (l2 ++ [(s, b)]) gap2 tail); fields.
    + by rewrite app_assoc.
    + by rewrite records_app, enc_one, <- !app_assoc.
    + rewrite records_app, enc_one, length_app, queued_record_length, Hr, Hold. simpl. lia.
    + rewrite (proj2 (Nat.eqb_neq _ _)) by lia. rewrite records_app, enc_one, length_app, queued_record_length. done.
    + rewrite records_app, enc_one, length_app, queued_record_length, Hu. simpl. lia.
    + done.
    + by destruct l2.
    + done.
Qed.

Lemma holds_pushed s b q l q' :
  holds q l -> 0 <= s < 2 ^ 64 -> capacity_ q' = capacity_ q -> length (data_ q') = length (data_ q) ->
  payload_bytes_ q' = (payload_bytes_ q + length b)%nat -> layout q' (l ++ [(s, b)]) -> holds q' (l ++ [(s, b)]).
Proof.
  intros [Hc Hs Hr Hp _] Hseq Hc' Hl Hp' Hlay. split; [congruence|by rewrite Hc'| | |done].
  - apply Forall_app. split; [done|]. by repeat constructor; apply Hseq.
  - by rewrite Hp', Hp, payload_snoc.
Qed.

Lemma layout_empty q : layout q [] -> used_bytes_ q = 0%nat.
Proof.
  intros [pre post Hd Hr Hw Hu Hp|l1 l2 gap tail Hl Hd Hr Hw Hu Hp Hn Ht]; [by rewrite Hu, enc_empty|].
  symmetry in Hl. apply app_eq_nil in Hl as [-> ->]. rewrite Hn, enc_empty in Hp by done. simpl in Hp. lia.
Qed.

(** What a successful push shows. *)
Definition pushed (s : Z) (b : bytes) (q : UnsolicitedOutputQueue) (l : list (Z * bytes)) (r : option UnsolicitedOutputQueue) : Prop :=
  exists q', r = Some q' /\ capacity_ q' = capacity_ q /\ length (data_ q') = length (data_ q)
    /\ payload_bytes_ q' = (payload_bytes_ q + length b)%nat /\ layout q' (l ++ [(s, b)]).

Lemma push_spec s b q l :
  holds q l -> 0 <= s < 2 ^ 64 ->
  exists (ok : bool) q', push s b q = Some (ok, q') /\ holds q' (if ok then l ++ [(s, b)] else l)
    /\ capacity_ q' = capacity_ q /\ (l = [] -> (12 + length b <= capacity_ q)%nat -> ok = true).
Proof.
  intros Hh Hs. pose proof (h_capacity _ _ Hh) as Hc. pose proof (h_size _ _ Hh) as Hsz. unfold push, kRecordHeaderBytes.
  assert (Hok : forall q0, pushed s b q l (write_record s b q0) ->
    exists (ok : bool) q', (q1 ← write_record s b q0; Some (true, q1)) = Some (ok, q') /\ holds q' (if ok then l ++ [(s, b)] else l)
      /\ capacity_ q' = capacity_ q /\ (l = [] -> (12 + length b <= capacity_ q)%nat -> ok = true)).
  { intros q0 (q' & -> & H1 & H2 & H3 & H4). exists true, q'. split_and!; [done|by eapply holds_pushed|congruence|done]. }
  assert (Hno : (l = [] -> ~ (12 + length b <= capacity_ q)%nat) ->
    exists (ok : bool) q', Some (false, q) = Some (ok, q') /\ holds q' (if ok then l ++ [(s, b)] else l)
      /\ capacity_ q' = capacity_ q /\ (l = [] -> (12 + length b <= capacity_ q)%nat -> ok = true)).
  { intros Hn. exists false, q. split_and!; [done|done|done|]. intros H1 H2. by destruct (Hn H1). }
  destruct (Z.gtb_spec (Z.of_nat (length b)) 4294967295) as [Hbig|Hbig]; [apply Hno; intros; lia|].
  destruct (Nat.ltb_spec (capacity_ q) (12 + length b)) as [Hl|Hl]; [apply Hno; intros; lia|].
  destruct (Nat.ltb_spec (capacity_ q - used_bytes_ q) (12 + length b)) as [Hf|Hf]; cbn [orb].
  { apply Hno. intros ->. rewrite (layout_empty _ (h_layout _ _ Hh)) in Hf. lia. }
  destruct (Nat.eqb_spec (used_bytes_ q) 0) as [Hz|Hz].
  { rewrite (layout_used _ _ (h_layout _ _ Hh) Hz) in *. fields. rewrite Nat.sub_0_r. cbn [Nat.leb].
    destruct (Nat.ltb_spec (capacity_ q) (12 + length b)); [lia|]. apply Hok.
    apply (push_linear s b {| data_ := data_ q; capacity_ := capacity_ q; read_offset_ := 0; write_offset_ := 0;
      used_bytes_ := used_bytes_ q; payload_bytes_ := payload_bytes_ q |} [] [] (data_ q)); fields; rewrite ?enc_empty; auto; lia. }
  assert (Hne : l <> []) by (intros ->; by rewrite (layout_empty _ (h_layout _ _ Hh)) in Hz).
  destruct (h_layout _ _ Hh) as [pre post Hd Hr Hw Hu Hp|l1 l2 gap tail Hll Hd Hr Hw Hu Hp Hn Ht].
  - destruct (Nat.leb_spec (read_offset_ q) (write_offset_ q)); [|lia].
    assert (Hcap : capacity_ q = (length pre + length (enc l) + length post)%nat) by (rewrite Hc, Hd, !length_app; lia).
    replace (capacity_ q - write_offset_ q)%nat with (length post) by lia.
    destruct (Nat.ltb_spec (length post) (12 + length b)) as [Hshort|Hlong].
    + destruct (Nat.ltb_spec (capacity_ q - used_bytes_ q) (length post + (12 + length b))); [by apply Hno|].
      destruct (Nat.ltb_spec (read_offset_ q) (12 + length b)); [by apply Hno|]. cbn [orb].
      assert (exists post', (if (4 <=? length post)%nat then poke (write_offset_ q) (le_bytes 4 kWrapRecord) (data_ q) else Some (data_ q))
        = Some (pre ++ enc l ++ post') /\ length post' = length post
        /\ ((4 <= length post')%nat -> exists rest, post' = le_bytes 4 kWrapRecord ++ rest)) as (post' & -> & Hpl & Hmark).
      { destruct (Nat.leb_spec 4 (length post)) as [H4|H4]; [|exists post; rewrite Hd; split_and!; [done|done|lia]].
        destruct (split_at 4 post H4) as (o & rest & -> & Ho). rewrite Hd, app_assoc, Hw, (poke_app _ o) by (rewrite ?length_app, ?length_le_bytes; lia).
        exists (le_bytes 4 kWrapRecord ++ rest). split_and!; [by rewrite <- !app_assoc|rewrite !length_app, length_le_bytes; lia|by exists rest]. }
      cbn [mbind option_bind]. apply Hok.
      destruct (push_wrapped s b {| data_ := pre ++ enc l ++ post'; capacity_ := capacity_ q; read_offset_ := read_offset_ q;
        write_offset_ := 0; used_bytes_ := used_bytes_ q + length post; payload_bytes_ := payload_bytes_ q |} l [] pre post')
        as (q' & Hq' & P1 & P2 & P3 & P4); fields; rewrite ?enc_empty; auto; try (simpl; lia).
      { rewrite !length_app. lia. }
      exists q'. rewrite app_nil_r in P4. split_and!; auto. rewrite P2. fields. rewrite Hd, !length_app. lia.
    + apply Hok. by eapply push_linear.
  - subst l. assert (Hcap : capacity_ q = (length (enc l2) + length gap + length (enc l1) + length tail)%nat) by (rewrite Hc, Hd, !length_app; lia).
    destruct (Nat.leb_spec (read_offset_ q) (write_offset_ q)); [lia|].
    destruct (Nat.ltb_spec (read_offset_ q - write_offset_ q) (12 + length b)) as [Hshort|Hlong]; [by apply Hno|].
    apply Hok. eapply (push_wrapped s b q l1 l2 gap tail); eauto. lia.
Qed.

(** *** The head *)

Definition head_at (q : UnsolicitedOutputQueue) (r : Z * bytes) : Prop :=
  exists a c, data_ q = a ++ record_enc r ++ c /\ read_offset_ q = length a.

Lemma record_enc_eq r : record_enc r = le_bytes 4 (Z.of_nat (length r.2)) ++ le_bytes 8 r.1 ++ r.2.
Proof. done. Qed.

Lemma head_reads q r :
  head_at q r -> record_ok r -> Z.of_nat (length (data_ q)) <= 2 ^ 32 ->
  read_le 4 (read_offset_ q) (data_ q) = Some (Z.of_nat (length r.2))
  /\ read_le 8 (read_offset_ q + 4) (data_ q) = Some r.1
  /\ slice (read_offset_ q + kRecordHeaderBytes) (length r.2) (data_ q) = Some r.2
  /\ Z.of_nat (length r.2) < kWrapRecord /\ (12 + length r.2 <= length (data_ q) - read_offset_ q)%nat.
Proof.
  intros (a & c & Hd & Hr) Hok Hs. rewrite Hr, Hd in *. rewrite !length_app, queued_record_length in Hs.
  unfold kWrapRecord, kRecordHeaderBytes. rewrite record_enc_eq. rewrite <- !app_assoc.
  split_and!.
  - apply read_le_app; [done|]. change (2 ^ (8 * Z.of_nat 4)) with (2 ^ 32). lia.
  - rewrite (app_assoc a). apply read_le_app; [by rewrite length_app, length_le_bytes|apply Hok].
  - rewrite (app_assoc a), (app_assoc _ (le_bytes 8 _)). apply slice_app; [|done]. rewrite !length_app, !length_le_bytes. lia.
  - lia.
  - rewrite !length_app, !length_le_bytes. lia.
Qed.

Lemma normalize_at fuel q r :
  head_at q r -> record_ok r -> capacity_ q = length (data_ q) -> Z.of_nat (length (data_ q)) <= 2 ^ 32 ->
  used_bytes_ q <> 0%nat -> normalize_loop (S fuel) q = Some q.
Proof.
  intros Hh Hr Hc Hs Hu. destruct (head_reads _ _ Hh Hr Hs) as (H1 & _ & _ & H4 & H5). cbn [normalize_loop].
  rewrite (proj2 (Nat.eqb_neq _ _) Hu). destruct (Nat.ltb_spec (capacity_ q - read_offset_ q) 4); [lia|].
  rewrite H1. cbn [mbind option_bind]. by rewrite (proj2 (Z.eqb_neq _ _)) by lia.
Qed.

Lemma used_cons q r l : layout q (r :: l) -> used_bytes_ q <> 0%nat.
Proof. intros Hl Hz. by apply layout_used in Hl. Qed.

(** The marker before the skipped bytes of a buffer with nothing else at its end. *)
Lemma wrap_marker q l2 gap tail :
  data_ q = enc l2 ++ gap ++ tail -> read_offset_ q = (length (enc l2) + length gap)%nat -> (4 <= length tail)%nat ->
  ((4 <= length tail)%nat -> exists rest, tail = le_bytes 4 kWrapRecord ++ rest) ->
  read_le 4 (read_offset_ q) (data_ q) = Some kWrapRecord.
Proof.
  intros Hd Hr Hb Ht. destruct (Ht Hb) as (rest & ->).
  rewrite Hd, Hr, app_assoc. apply read_le_app; [by rewrite length_app|done].
Qed.

Lemma normalize_spec q l :
  holds q l ->
  exists q', normalize_head q = Some q' /\ holds q' l /\ capacity_ q' = capacity_ q
    /\ match l with [] => used_bytes_ q' = 0%nat | r :: _ => used_bytes_ q' <> 0%nat /\ head_at q' r end.
Proof.
  intros Hh. pose proof (h_capacity _ _ Hh) as Hc. pose proof (h_size _ _ Hh) as Hs. pose proof (h_records _ _ Hh) as Hok.
  destruct l as [|r l].
  { pose proof (layout_empty _ (h_layout _ _ Hh)) as Hz. exists q. split_and!; [|done|done|done].
    unfold normalize_head. cbn [normalize_loop]. by rewrite Hz. }
  pose proof (used_cons _ _ _ (h_layout _ _ Hh)) as Hu0.
  assert (Hrok : record_ok r) by (by inversion Hok).
  assert (Hstay : head_at q r -> exists q', normalize_head q = Some q' /\ holds q' (r :: l) /\ capacity_ q' = capacity_ q
    /\ used_bytes_ q' <> 0%nat /\ head_at q' r).
  { intros Hat. exists q. split_and!; [|done..]. eapply normalize_at; eauto; lia. }
  destruct (h_layout _ _ Hh) as [pre post Hd Hr Hw Hu Hp|l1 l2 gap tail Hll Hd Hr Hw Hu Hp Hn Ht].
  { apply Hstay. exists pre, (enc l ++ post). rewrite Hd, records_cons, <- !app_assoc. done. }
  destruct l1 as [|r1 l1].
  - simpl in Hll. subst l2. rewrite enc_empty in *. cbn [app length Nat.add] in *.
    set (skipped := {| data_ := data_ q; capacity_ := capacity_ q; read_offset_ := 0; write_offset_ := write_offset_ q;
                       used_bytes_ := used_bytes_ q - length tail; payload_bytes_ := payload_bytes_ q |}).
    assert (Hlay : layout skipped (r :: l)).
    { apply (linear _ _ [] (gap ++ tail)); unfold skipped; fields; [done|done|done|lia|rewrite length_app; lia]. }
    assert (Hat : head_at skipped r) by (exists [], (enc l ++ gap ++ tail); unfold skipped; fields; by rewrite Hd, records_cons, <- !app_assoc).
    pose proof (used_cons _ _ _ Hlay) as Hus.
    assert (Hnorm : normalize_loop 1 skipped = Some skipped) by (apply (normalize_at _ _ r); auto; unfold skipped; fields; lia).
    exists skipped. split_and!; [|split; auto; apply Hh|done|done|done].
    unfold normalize_head. cbn [normalize_loop] in Hnorm |- *. rewrite (proj2 (Nat.eqb_neq _ _) Hu0).
    assert (Hcap : (capacity_ q - read_offset_ q = length tail)%nat) by (rewrite Hc, Hd, !length_app; lia). rewrite Hcap.
    destruct (Nat.ltb_spec (length tail) 4) as [Hsm|Hbg]; [exact Hnorm|].
    rewrite (wrap_marker _ _ _ _ Hd Hr Hbg Ht). cbn [mbind option_bind]. rewrite Z.eqb_refl. exact Hnorm.
  - simpl in Hll. simplify_eq. apply Hstay. exists (enc l2 ++ gap), (enc l1 ++ tail).
    rewrite Hd, records_cons, length_app, <- !app_assoc. done.
Qed.

Lemma pop_front_spec q r l :
  holds q (r :: l) -> head_at q r -> holds (pop_front (length r.2) q) l /\ capacity_ (pop_front (length r.2) q) = capacity_ q.
Proof.
  intros Hh Hat. pose proof (h_capacity _ _ Hh) as Hc. pose proof (h_size _ _ Hh) as Hs.
  pose proof (h_records _ _ Hh) as Hok. pose proof (h_payload _ _ Hh) as Hp. split; [|done].
  split; [done|done|by inversion Hok| |].
  { unfold pop_front. fields. rewrite Hp. simpl. lia. }
  unfold pop_front, kRecordHeaderBytes.
  assert (Hzero : forall q' : UnsolicitedOutputQueue, length (data_ q') <> 0%nat -> read_offset_ q' = 0%nat -> write_offset_ q' = 0%nat ->
    used_bytes_ q' = 0%nat -> l = [] -> layout q' l).
  { intros q' H1 H2 H3 H4 ->. apply (linear _ _ [] (data_ q')); rewrite ?enc_empty; simpl; auto; lia. }
  destruct (h_layout _ _ Hh) as [pre post Hd Hr Hw Hu Hpo|l1 l2 gap tail Hll Hd Hr Hw Hu Hpo Hn Ht].
  - rewrite records_cons in *. rewrite length_app, queued_record_length in *.
    assert (Hcap : capacity_ q = (length pre + (12 + length r.2 + length (enc l)) + length post)%nat) by (rewrite Hc, Hd, !length_app, queued_record_length; lia).
    destruct (Nat.eqb_spec (used_bytes_ q - (12 + length r.2)) 0) as [Hz|Hz].
    + apply Hzero; fields; auto; try lia. apply enc_nil. lia.
    + destruct (Nat.eqb_spec (read_offset_ q + (12 + length r.2)) (capacity_ q)); [lia|].
      apply (linear _ _ (pre ++ record_enc r) post); fields; rewrite ?length_app, ?queued_record_length; try lia.
      by rewrite Hd, <- !app_assoc.
  - destruct l1 as [|r1 l1].
    + exfalso. rewrite enc_empty in *. cbn [app length Nat.add] in *.
      destruct (head_reads _ _ Hat) as (H1 & _ & _ & H4 & H5); [by inversion Hok|lia|].
      rewrite (wrap_marker _ _ _ _ Hd Hr) in H1; [injection H1 as H1; lia| |done].
      rewrite Hd, !length_app in H5. lia.
    + simpl in Hll. injection Hll as <- ->. rewrite records_cons in *. rewrite length_app, queued_record_length in *.
      assert (Hcap : capacity_ q = (length (enc l2) + length gap + (12 + length r.2 + length (enc l1)) + length tail)%nat)
        by (rewrite Hc, Hd, !length_app, queued_record_length; lia).
      destruct (Nat.eqb_spec (used_bytes_ q - (12 + length r.2)) 0) as [Hz|Hz].
      * apply Hzero; fields; auto; try lia.
        assert (length (enc l1) = 0 /\ length (enc l2) = 0)%nat as [->%enc_nil ->%enc_nil] by lia. done.
      * destruct (Nat.eqb_spec (read_offset_ q + (12 + length r.2)) (capacity_ q)) as [He|He].
        -- assert (l1 = [] /\ length tail = 0%nat) as [-> Htl]; [split; [apply enc_nil|]; lia|].
           apply (linear _ _ [] (gap ++ record_enc r ++ enc [] ++ tail)); fields; rewrite ?enc_empty, ?length_app, ?queued_record_length; simpl; try lia.
           by rewrite Hd, enc_empty, app_nil_r.
        -- apply (wrapped _ _ l1 l2 (gap ++ record_enc r) tail); fields; rewrite ?length_app, ?queued_record_length; auto; try lia.
           by rewrite Hd, <- !app_assoc.
Qed.

Lemma front_spec q l :
  holds q l -> exists q', front q = Some (head l, q') /\ holds q' l /\ capacity_ q' = capacity_ q.
Proof.
  intros Hh. destruct (normalize_spec _ _ Hh) as (q' & Hn & Hh' & Hc & Hd). exists q'. split; [|done].
  unfold front. rewrite Hn. cbn [mbind option_bind]. pose proof (h_size _ _ Hh') as Hs. pose proof (h_capacity _ _ Hh') as Hcap.
  destruct l as [|r l]; [by rewrite Hd|]. destruct Hd as [Hu Hat]. rewrite (proj2 (Nat.eqb_neq _ _) Hu).
  destruct (head_reads _ _ Hat) as (H1 & H2 & H3 & _); [by pose proof (h_records _ _ Hh') as Hr; inversion Hr|lia|].
  rewrite H1, H2. cbn [mbind option_bind]. rewrite Nat2Z.id, H3. by destruct r.
Qed.

Lemma queue_pop_spec q l :
  holds q l -> exists q', pop q = Some q' /\ holds q' (tail l) /\ capacity_ q' = capacity_ q.
Proof.
  intros Hh. destruct (normalize_spec _ _ Hh) as (q' & Hn & Hh' & Hc & Hd).
  unfold pop. rewrite Hn. cbn [mbind option_bind]. pose proof (h_size _ _ Hh') as Hs. pose proof (h_capacity _ _ Hh') as Hcap.
  destruct l as [|r l]; [rewrite Hd; by exists q'|]. destruct Hd as [Hu Hat]. rewrite (proj2 (Nat.eqb_neq _ _) Hu).
  destruct (head_reads _ _ Hat) as (H1 & _); [by pose proof (h_records _ _ Hh') as Hr; inversion Hr|lia|].
  rewrite H1. cbn [mbind option_bind]. rewrite Nat2Z.id. destruct (pop_front_spec _ _ _ Hh' Hat) as [H H'].
  eexists. split_and!; [done|done|congruence].
Qed.

Lemma queue_clear_spec q l : holds q l -> holds (clear q) [] /\ capacity_ (clear q) = capacity_ q.
Proof.
  intros [Hc Hs _ _ _]. split; [|done]. split; [done|done|constructor|done|].
  apply (linear _ _ [] (data_ q)); rewrite ?enc_empty; try done. lia.
Qed.

Lemma used_bound q l : holds q l -> (used_bytes_ q <= capacity_ q)%nat.
Proof.
  intros Hh. rewrite (h_capacity _ _ Hh). destruct (h_layout _ _ Hh) as [pre post Hd _ _ Hu _|l1 l2 gap tail _ Hd _ _ Hu _ _ _];
    rewrite Hd, !length_app; lia.
Qed.

Lemma is_empty_spec q l : holds q l -> is_empty q = true <-> l = [].
Proof.
  intros Hh. unfold is_empty. rewrite Nat.eqb_eq. split; [apply layout_used, Hh|intros ->; apply layout_empty, Hh].
Qed.

(** *** Sequences of operations against a list *)

Inductive op := op_push (sequence : Z) (payload : bytes) | op_front | op_pop | op_clear.

Definition op_ok (o : op) : Prop := match o with op_push s _ => 0 <= s < 2 ^ 64 | _ => True end.

(** What an operation answers: whether it was accepted, and the record it looked at. *)
Definition step (o : op) (q : UnsolicitedOutputQueue) : option (bool * option (Z * bytes) * UnsolicitedOutputQueue) :=
  match o with
  | op_push s b => '(ok, q) ← push s b q; Some (ok, None, q)
  | op_front => '(r, q) ← front q; Some (true, r, q)
  | op_pop => q ← pop q; Some (true, None, q)
  | op_clear => Some (true, None, clear q)
  end.

(** The abstract queue: a push is appended when it is accepted. *)
Definition abstract_step (o : op) (accepted : bool) (l : list (Z * bytes)) : option (Z * bytes) * list (Z * bytes) :=
  match o with
  | op_push s b => (None, if accepted then l ++ [(s, b)] else l)
  | op_front => (head l, l)
  | op_pop => (None, tail l)
  | op_clear => (None, [])
  end.

Fixpoint run (ops : list op) (q : UnsolicitedOutputQueue) : option (list (bool * option (Z * bytes)) * UnsolicitedOutputQueue) :=
  match ops with
  | [] => Some ([], q)
  | o :: ops =>
      '(a, r, q) ← step o q;
      '(rest, q) ← run ops q;
      Some ((a, r) :: rest, q)
  end.

Fixpoint abstract_run (ops : list op) (accepted : list bool) (l : list (Z * bytes)) : list (option (Z * bytes)) * list (Z * bytes) :=
  match ops, accepted with
  | o :: ops, a :: accepted =>
      let (r, l) := abstract_step o a l in
      let (rest, l) := abstract_run ops accepted l in (r :: rest, l)
  | _, _ => ([], l)
  end.

Lemma step_spec o q l :
  holds q l -> op_ok o ->
  exists (a : bool) q', step o q = Some (a, (abstract_step o a l).1, q') /\ holds q' (abstract_step o a l).2 /\ capacity_ q' = capacity_ q.
Proof.
  intros Hh Ho. destruct o as [s b| | |]; simpl.
  - destruct (push_spec s b q l Hh Ho) as (ok & q' & -> & H1 & H2 & _). exists ok, q'. done.
  - destruct (front_spec q l Hh) as (q' & -> & H1 & H2). exists true, q'. done.
  - destruct (queue_pop_spec q l Hh) as (q' & -> & H1 & H2). exists true, q'. done.
  - exists true, (clear q). split; [done|]. by eapply queue_clear_spec.
Qed.

Lemma queue_run_spec ops q l :
  holds q l -> Forall op_ok ops ->
  exists answers q', run ops q = Some (answers, q') /\ length answers = length ops
    /\ map snd answers = (abstract_run ops (map fst answers) l).1
    /\ holds q' (abstract_run ops (map fst answers) l).2 /\ capacity_ q' = capacity_ q.
Proof.
  revert q l. induction ops as [|o ops IH]; intros q l Hh Ho; [by exists [], q|].
  inversion_clear Ho as [|? ? H1 H2]. destruct (step_spec o q l Hh H1) as (a & q1 & Hs & Hh1 & Hc1).
  destruct (IH q1 _ Hh1 H2) as (rest & q2 & Hr & Hlen & Ha & Hh2 & Hc2).
  exists ((a, (abstract_step o a l).1) :: rest), q2. cbn [run]. rewrite Hs. cbn [mbind option_bind]. rewrite Hr. simpl.
  destruct (abstract_step o a l) as [r l1]; simpl in *. destruct (abstract_run ops (map fst rest) l1) as [rs l2]; simpl in *.
  split_and!; [done|lia|congruence|done|congruence].
Qed.

(** Every sequence of pushes, looks at the head, pops and clears on a queue over
    a mapping of at most 2^32 bytes runs to its end inside the mapping and behaves as
    a first-in first-out list of the records whose push was accepted: [front] answers
    the oldest one whole, with its sequence number.  The count of payload bytes is
    exact, the space in use never exceeds the capacity, the queue is empty when the
    list is, and an empty queue accepts every record that fits the mapping. *)
Theorem output_queue_fifo mapping ops :
  0 < Z.of_nat (length mapping) <= 2 ^ 32 -> Forall op_ok ops ->
  exists answers q, run ops (new_queue mapping) = Some (answers, q) /\ length answers = length ops /\
    let (looks, l) := abstract_run ops (map fst answers) [] in
    map snd answers = looks
    /\ payload_bytes_ q = sum_list (map (fun r => length r.2) l)
    /\ (used_bytes_ q <= capacity_ q)%nat /\ capacity_ q = length mapping
    /\ (is_empty q = true <-> l = [])
    /\ forall s b, 0 <= s < 2 ^ 64 -> l = [] -> (kRecordHeaderBytes + length b <= capacity_ q)%nat ->
       exists q', push s b q = Some (true, q').
Proof.
  intros Hm Ho. destruct (queue_run_spec ops _ [] (holds_new _ Hm) Ho) as (answers & q & Hr & Hl & Ha & Hh & Hc).
  exists answers, q. split; [done|]. split; [done|]. destruct (abstract_run _ _ _) as [looks l]. simpl in *.
  split_and!; [done|apply Hh|by eapply used_bound|done|by apply is_empty_spec|].
  intros s b Hs -> Hfit. destruct (push_spec s b q [] Hh Hs) as (ok & q' & Hp & _ & _ & Hok).
  rewrite (Hok eq_refl Hfit) in Hp. by exists q'.
Qed.

(** Twenty-nine bytes: two records, a wrap over five bytes with a marker, and the order kept. *)
Definition witness_ops : list op :=
  [op_push 1 (str "a"); op_push 2 (str "b"); op_pop; op_front; op_push 3 []; op_pop; op_front; op_push 4 [] ].

Lemma output_queue_fifo_witness :
  exists answers q, run witness_ops (new_queue (repeat Byte.x00 29)) = Some (answers, q) /\
    map snd answers = [None; None; None; Some (2, str "b"); None; None; Some (3, []); None] /\ payload_bytes_ q = 0%nat.
Proof.
  destruct (output_queue_fifo (repeat Byte.x00 29) witness_ops) as (answers & q & Hr & _ & H).
  - rewrite repeat_length. lia.
  - repeat constructor; simpl; lia.
  - exists answers, q. split; [done|]. clear H. vm_compute in Hr. by injection Hr as <- <-.
Defined.
