(* ===== verification/CommandType.v ===== *)
(** * Commands

    The enumeration [CommandType] and the parsed [Command] of
    [include/goblin/core/command.hpp].  The constructors carry the prefix [CT_];
    equality is decided through the position of a value in the enumeration. *)

From S2P Require Import Prelude.
From Stdlib Require Import ZArith SpecFloat.

Local Open Scope Z_scope.

Inductive CommandType :=
| CT_ping
| CT_hello
| CT_auth
| CT_command
| CT_config
| CT_client
| CT_select
| CT_quit
| CT_multi
| CT_exec
| CT_discard
| CT_watch
| CT_unwatch
| CT_time
| CT_role
| CT_goblin_firehose
| CT_goblin_dumpworld
| CT_subscribe
| CT_unsubscribe
| CT_psubscribe
| CT_punsubscribe
| CT_publish
| CT_pubsub
| CT_eval
| CT_evalsha
| CT_script
| CT_luau_eval
| CT_luau_evalsha
| CT_luau_script
| CT_wren_eval
| CT_wren_evalsha
| CT_wren_script
| CT_tcl_eval
| CT_tcl_evalsha
| CT_tcl_script
| CT_upython_eval
| CT_upython_evalsha
| CT_upython_script
| CT_quickjs_eval
| CT_quickjs_evalsha
| CT_quickjs_script
| CT_zadd
| CT_zincrby
| CT_zcard
| CT_zcount
| CT_zrange
| CT_zrangebyscore
| CT_zrevrangebyscore
| CT_zrank
| CT_zrevrange
| CT_zrevrank
| CT_zrem
| CT_zremrangebyscore
| CT_zremrangebyrank
| CT_zinterstore
| CT_zunionstore
| CT_zmscore
| CT_zpopmin
| CT_zpopmax
| CT_zscan
| CT_zscore
| CT_hset
| CT_hmset
| CT_hsetnx
| CT_hget
| CT_hmget
| CT_hdel
| CT_hgetall
| CT_hkeys
| CT_hvals
| CT_hlen
| CT_hexists
| CT_hstrlen
| CT_hincrby
| CT_hincrbyfloat
| CT_hrandfield
| CT_hscan
| CT_sadd
| CT_srem
| CT_scard
| CT_sismember
| CT_smismember
| CT_smembers
| CT_spop
| CT_srandmember
| CT_smove
| CT_sinter
| CT_sinterstore
| CT_sintercard
| CT_sunion
| CT_sunionstore
| CT_sdiff
| CT_sdiffstore
| CT_sscan
| CT_arreserve
| CT_arset
| CT_arget
| CT_armset
| CT_armget
| CT_arlen
| CT_arcount
| CT_ardel
| CT_arinsert
| CT_arnext
| CT_arseek
| CT_lpush
| CT_rpush
| CT_lpushx
| CT_rpushx
| CT_lpop
| CT_rpop
| CT_lmove
| CT_rpoplpush
| CT_blpop
| CT_brpop
| CT_blmove
| CT_lmpop
| CT_blmpop
| CT_llen
| CT_lindex
| CT_lrange
| CT_lset
| CT_ltrim
| CT_lrem
| CT_linsert
| CT_pma_lpush
| CT_pma_rpush
| CT_pma_lpushx
| CT_pma_rpushx
| CT_pma_lpop
| CT_pma_rpop
| CT_pma_lmove
| CT_pma_rpoplpush
| CT_pma_blpop
| CT_pma_brpop
| CT_pma_blmove
| CT_pma_lmpop
| CT_pma_blmpop
| CT_pma_llen
| CT_pma_lindex
| CT_pma_lrange
| CT_pma_lset
| CT_pma_ltrim
| CT_pma_lrem
| CT_pma_linsert
| CT_segmented_lpush
| CT_segmented_rpush
| CT_segmented_lpushx
| CT_segmented_rpushx
| CT_segmented_lpop
| CT_segmented_rpop
| CT_segmented_lmove
| CT_segmented_rpoplpush
| CT_segmented_blpop
| CT_segmented_brpop
| CT_segmented_blmove
| CT_segmented_lmpop
| CT_segmented_blmpop
| CT_segmented_llen
| CT_segmented_lindex
| CT_segmented_lrange
| CT_segmented_lset
| CT_segmented_ltrim
| CT_segmented_lrem
| CT_segmented_linsert
| CT_set
| CT_get
| CT_getex
| CT_getset
| CT_setnx
| CT_getdel
| CT_strlen
| CT_append
| CT_incr
| CT_decr
| CT_incrby
| CT_decrby
| CT_incrbyfloat
| CT_getrange
| CT_setrange
| CT_mset
| CT_msetnx
| CT_mget
| CT_del
| CT_exists
| CT_dbsize
| CT_rename
| CT_renamenx
| CT_copy
| CT_randomkey
| CT_touch
| CT_scan
| CT_key_type
| CT_expire
| CT_pexpire
| CT_expireat
| CT_pexpireat
| CT_ttl
| CT_pttl
| CT_persist
| CT_expiretime
| CT_pexpiretime
| CT_goblin_memory
| CT_goblin_optimize
| CT_goblin_save
| CT_goblin_load
| CT_goblin_cad
| CT_goblin_caexpire
| CT_goblin_cas
| CT_goblin_td_leaderboard_rescore
| CT_goblin_increx
| CT_goblin_zwindow
| CT_goblin_incrbound
| CT_goblin_decrpos
| CT_goblin_hcad
| CT_goblin_hsetgt
| CT_goblin_claim
| CT_echo
| CT_info
| CT_unknown.

Definition all_command_types : list CommandType :=
  [CT_ping; CT_hello; CT_auth; CT_command; CT_config; CT_client; CT_select; CT_quit; CT_multi; CT_exec;
   CT_discard; CT_watch; CT_unwatch; CT_time; CT_role; CT_goblin_firehose; CT_goblin_dumpworld; CT_subscribe;
   CT_unsubscribe; CT_psubscribe; CT_punsubscribe; CT_publish; CT_pubsub; CT_eval; CT_evalsha; CT_script;
   CT_luau_eval; CT_luau_evalsha; CT_luau_script; CT_wren_eval; CT_wren_evalsha; CT_wren_script; CT_tcl_eval;
   CT_tcl_evalsha; CT_tcl_script; CT_upython_eval; CT_upython_evalsha; CT_upython_script; CT_quickjs_eval;
   CT_quickjs_evalsha; CT_quickjs_script; CT_zadd; CT_zincrby; CT_zcard; CT_zcount; CT_zrange;
   CT_zrangebyscore; CT_zrevrangebyscore; CT_zrank; CT_zrevrange; CT_zrevrank; CT_zrem; CT_zremrangebyscore;
   CT_zremrangebyrank; CT_zinterstore; CT_zunionstore; CT_zmscore; CT_zpopmin; CT_zpopmax; CT_zscan;
   CT_zscore; CT_hset; CT_hmset; CT_hsetnx; CT_hget; CT_hmget; CT_hdel; CT_hgetall; CT_hkeys; CT_hvals;
   CT_hlen; CT_hexists; CT_hstrlen; CT_hincrby; CT_hincrbyfloat; CT_hrandfield; CT_hscan; CT_sadd; CT_srem;
   CT_scard; CT_sismember; CT_smismember; CT_smembers; CT_spop; CT_srandmember; CT_smove; CT_sinter;
   CT_sinterstore; CT_sintercard; CT_sunion; CT_sunionstore; CT_sdiff; CT_sdiffstore; CT_sscan; CT_arreserve;
   CT_arset; CT_arget; CT_armset; CT_armget; CT_arlen; CT_arcount; CT_ardel; CT_arinsert; CT_arnext;
   CT_arseek; CT_lpush; CT_rpush; CT_lpushx; CT_rpushx; CT_lpop; CT_rpop; CT_lmove; CT_rpoplpush; CT_blpop;
   CT_brpop; CT_blmove; CT_lmpop; CT_blmpop; CT_llen; CT_lindex; CT_lrange; CT_lset; CT_ltrim; CT_lrem;
   CT_linsert; CT_pma_lpush; CT_pma_rpush; CT_pma_lpushx; CT_pma_rpushx; CT_pma_lpop; CT_pma_rpop;
   CT_pma_lmove; CT_pma_rpoplpush; CT_pma_blpop; CT_pma_brpop; CT_pma_blmove; CT_pma_lmpop; CT_pma_blmpop;
   CT_pma_llen; CT_pma_lindex; CT_pma_lrange; CT_pma_lset; CT_pma_ltrim; CT_pma_lrem; CT_pma_linsert;
   CT_segmented_lpush; CT_segmented_rpush; CT_segmented_lpushx; CT_segmented_rpushx; CT_segmented_lpop;
   CT_segmented_rpop; CT_segmented_lmove; CT_segmented_rpoplpush; CT_segmented_blpop; CT_segmented_brpop;
   CT_segmented_blmove; CT_segmented_lmpop; CT_segmented_blmpop; CT_segmented_llen; CT_segmented_lindex;
   CT_segmented_lrange; CT_segmented_lset; CT_segmented_ltrim; CT_segmented_lrem; CT_segmented_linsert;
   CT_set; CT_get; CT_getex; CT_getset; CT_setnx; CT_getdel; CT_strlen; CT_append; CT_incr; CT_decr;
   CT_incrby; CT_decrby; CT_incrbyfloat; CT_getrange; CT_setrange; CT_mset; CT_msetnx; CT_mget; CT_del;
   CT_exists; CT_dbsize; CT_rename; CT_renamenx; CT_copy; CT_randomkey; CT_touch; CT_scan; CT_key_type;
   CT_expire; CT_pexpire; CT_expireat; CT_pexpireat; CT_ttl; CT_pttl; CT_persist; CT_expiretime;
   CT_pexpiretime; CT_goblin_memory; CT_goblin_optimize; CT_goblin_save; CT_goblin_load; CT_goblin_cad;
   CT_goblin_caexpire; CT_goblin_cas; CT_goblin_td_leaderboard_rescore; CT_goblin_increx; CT_goblin_zwindow;
   CT_goblin_incrbound; CT_goblin_decrpos; CT_goblin_hcad; CT_goblin_hsetgt; CT_goblin_claim; CT_echo;
   CT_info; CT_unknown].

(** The value of an enumerator. *)
Definition command_type_value (t : CommandType) : nat :=
  match t with
  | CT_ping => 0
  | CT_hello => 1
  | CT_auth => 2
  | CT_command => 3
  | CT_config => 4
  | CT_client => 5
  | CT_select => 6
  | CT_quit => 7
  | CT_multi => 8
  | CT_exec => 9
  | CT_discard => 10
  | CT_watch => 11
  | CT_unwatch => 12
  | CT_time => 13
  | CT_role => 14
  | CT_goblin_firehose => 15
  | CT_goblin_dumpworld => 16
  | CT_subscribe => 17
  | CT_unsubscribe => 18
  | CT_psubscribe => 19
  | CT_punsubscribe => 20
  | CT_publish => 21
  | CT_pubsub => 22
  | CT_eval => 23
  | CT_evalsha => 24
  | CT_script => 25
  | CT_luau_eval => 26
  | CT_luau_evalsha => 27
  | CT_luau_script => 28
  | CT_wren_eval => 29
  | CT_wren_evalsha => 30
  | CT_wren_script => 31
  | CT_tcl_eval => 32
  | CT_tcl_evalsha => 33
  | CT_tcl_script => 34
  | CT_upython_eval => 35
  | CT_upython_evalsha => 36
  | CT_upython_script => 37
  | CT_quickjs_eval => 38
  | CT_quickjs_evalsha => 39
  | CT_quickjs_script => 40
  | CT_zadd => 41
  | CT_zincrby => 42
  | CT_zcard => 43
  | CT_zcount => 44
  | CT_zrange => 45
  | CT_zrangebyscore => 46
  | CT_zrevrangebyscore => 47
  | CT_zrank => 48
  | CT_zrevrange => 49
  | CT_zrevrank => 50
  | CT_zrem => 51
  | CT_zremrangebyscore => 52
  | CT_zremrangebyrank => 53
  | CT_zinterstore => 54
  | CT_zunionstore => 55
  | CT_zmscore => 56
  | CT_zpopmin => 57
  | CT_zpopmax => 58
  | CT_zscan => 59
  | CT_zscore => 60
  | CT_hset => 61
  | CT_hmset => 62
  | CT_hsetnx => 63
  | CT_hget => 64
  | CT_hmget => 65
  | CT_hdel => 66
  | CT_hgetall => 67
  | CT_hkeys => 68
  | CT_hvals => 69
  | CT_hlen => 70
  | CT_hexists => 71
  | CT_hstrlen => 72
  | CT_hincrby => 73
  | CT_hincrbyfloat => 74
  | CT_hrandfield => 75
  | CT_hscan => 76
  | CT_sadd => 77
  | CT_srem => 78
  | CT_scard => 79
  | CT_sismember => 80
  | CT_smismember => 81
  | CT_smembers => 82
  | CT_spop => 83
  | CT_srandmember => 84
  | CT_smove => 85
  | CT_sinter => 86
  | CT_sinterstore => 87
  | CT_sintercard => 88
  | CT_sunion => 89
  | CT_sunionstore => 90
  | CT_sdiff => 91
  | CT_sdiffstore => 92
  | CT_sscan => 93
  | CT_arreserve => 94
  | CT_arset => 95
  | CT_arget => 96
  | CT_armset => 97
  | CT_armget => 98
  | CT_arlen => 99
  | CT_arcount => 100
  | CT_ardel => 101
  | CT_arinsert => 102
  | CT_arnext => 103
  | CT_arseek => 104
  | CT_lpush => 105
  | CT_rpush => 106
  | CT_lpushx => 107
  | CT_rpushx => 108
  | CT_lpop => 109
  | CT_rpop => 110
  | CT_lmove => 111
  | CT_rpoplpush => 112
  | CT_blpop => 113
  | CT_brpop => 114
  | CT_blmove => 115
  | CT_lmpop => 116
  | CT_blmpop => 117
  | CT_llen => 118
  | CT_lindex => 119
  | CT_lrange => 120
  | CT_lset => 121
  | CT_ltrim => 122
  | CT_lrem => 123
  | CT_linsert => 124
  | CT_pma_lpush => 125
  | CT_pma_rpush => 126
  | CT_pma_lpushx => 127
  | CT_pma_rpushx => 128
  | CT_pma_lpop => 129
  | CT_pma_rpop => 130
  | CT_pma_lmove => 131
  | CT_pma_rpoplpush => 132
  | CT_pma_blpop => 133
  | CT_pma_brpop => 134
  | CT_pma_blmove => 135
  | CT_pma_lmpop => 136
  | CT_pma_blmpop => 137
  | CT_pma_llen => 138
  | CT_pma_lindex => 139
  | CT_pma_lrange => 140
  | CT_pma_lset => 141
  | CT_pma_ltrim => 142
  | CT_pma_lrem => 143
  | CT_pma_linsert => 144
  | CT_segmented_lpush => 145
  | CT_segmented_rpush => 146
  | CT_segmented_lpushx => 147
  | CT_segmented_rpushx => 148
  | CT_segmented_lpop => 149
  | CT_segmented_rpop => 150
  | CT_segmented_lmove => 151
  | CT_segmented_rpoplpush => 152
  | CT_segmented_blpop => 153
  | CT_segmented_brpop => 154
  | CT_segmented_blmove => 155
  | CT_segmented_lmpop => 156
  | CT_segmented_blmpop => 157
  | CT_segmented_llen => 158
  | CT_segmented_lindex => 159
  | CT_segmented_lrange => 160
  | CT_segmented_lset => 161
  | CT_segmented_ltrim => 162
  | CT_segmented_lrem => 163
  | CT_segmented_linsert => 164
  | CT_set => 165
  | CT_get => 166
  | CT_getex => 167
  | CT_getset => 168
  | CT_setnx => 169
  | CT_getdel => 170
  | CT_strlen => 171
  | CT_append => 172
  | CT_incr => 173
  | CT_decr => 174
  | CT_incrby => 175
  | CT_decrby => 176
  | CT_incrbyfloat => 177
  | CT_getrange => 178
  | CT_setrange => 179
  | CT_mset => 180
  | CT_msetnx => 181
  | CT_mget => 182
  | CT_del => 183
  | CT_exists => 184
  | CT_dbsize => 185
  | CT_rename => 186
  | CT_renamenx => 187
  | CT_copy => 188
  | CT_randomkey => 189
  | CT_touch => 190
  | CT_scan => 191
  | CT_key_type => 192
  | CT_expire => 193
  | CT_pexpire => 194
  | CT_expireat => 195
  | CT_pexpireat => 196
  | CT_ttl => 197
  | CT_pttl => 198
  | CT_persist => 199
  | CT_expiretime => 200
  | CT_pexpiretime => 201
  | CT_goblin_memory => 202
  | CT_goblin_optimize => 203
  | CT_goblin_save => 204
  | CT_goblin_load => 205
  | CT_goblin_cad => 206
  | CT_goblin_caexpire => 207
  | CT_goblin_cas => 208
  | CT_goblin_td_leaderboard_rescore => 209
  | CT_goblin_increx => 210
  | CT_goblin_zwindow => 211
  | CT_goblin_incrbound => 212
  | CT_goblin_decrpos => 213
  | CT_goblin_hcad => 214
  | CT_goblin_hsetgt => 215
  | CT_goblin_claim => 216
  | CT_echo => 217
  | CT_info => 218
  | CT_unknown => 219
  end.

Lemma command_type_value_lookup t : all_command_types !! command_type_value t = Some t.
Proof. by destruct t. Qed.

#[global] Instance command_type_value_inj : Inj (=) (=) command_type_value.
Proof.
  intros a b H. pose proof (command_type_value_lookup a) as Ha. rewrite H, command_type_value_lookup in Ha. congruence.
Qed.

#[global] Instance command_type_eq_dec : EqDecision CommandType.
Proof. refine (fun a b => cast_if (decide (command_type_value a = command_type_value b))); [by apply (inj _)|congruence]. Defined.

Lemma command_type_in t : t ∈ all_command_types.
Proof. eapply list_elem_of_lookup_2, command_type_value_lookup. Qed.

(** [type ==] as the code writes it. *)
Definition ct_eqb (a b : CommandType) : bool := Nat.eqb (command_type_value a) (command_type_value b).

Lemma ct_eqb_spec a b : reflect (a = b) (ct_eqb a b).
Proof.
  unfold ct_eqb. destruct (Nat.eqb_spec (command_type_value a) (command_type_value b)) as [H|H]; constructor; [by apply (inj _)|congruence].
Qed.

(** A property of every command, checked by evaluation. *)
Lemma command_type_forall (p : CommandType -> bool) : forallb p all_command_types = true -> forall t, p t = true.
Proof.
  intros H t. rewrite forallb_forall in H. apply H, list_elem_of_In, command_type_in.
Qed.

(** [struct Command].  [name] and [args] are views of the fields of the request. *)
Record Command := mkCommand {
  c_type : CommandType;
  c_name : bytes;
  c_args : list bytes;
  c_with_scores : bool;
  c_range_indexes_parsed : bool;
  c_range_start : Z;
  c_range_stop : Z;
  c_range_by_score : bool;
  c_range_reverse : bool;
  c_range_has_limit : bool;
  c_range_limit_offset : Z;
  c_range_limit_count : Z;
  c_background_save : bool;
  c_list_key_offset : nat;
  c_list_key_count : nat;
  c_list_count : Z;
  c_list_timeout_seconds : spec_float;
  c_list_pop_front : bool;
  c_list_push_front : bool;
  c_hash_implementation_tag : Z;
  c_packed_zset_kind : Z;
}.

(** The members' default initialisers. *)
Definition default_Command (type : CommandType) (name : bytes) (args : list bytes) : Command :=
  {| c_type := type; c_name := name; c_args := args; c_with_scores := false; c_range_indexes_parsed := false;
     c_range_start := 0; c_range_stop := 0; c_range_by_score := false; c_range_reverse := false;
     c_range_has_limit := false; c_range_limit_offset := 0; c_range_limit_count := -1; c_background_save := false;
     c_list_key_offset := 0; c_list_key_count := 0; c_list_count := 1; c_list_timeout_seconds := S754_zero false;
     c_list_pop_front := true; c_list_push_front := true; c_hash_implementation_tag := 0; c_packed_zset_kind := 0 |}.
