(* ===== verification/CommandTable.v ===== *)
(** * The command dispatch table

    The perfect hash of [src/command_hash.hpp]: the tables it holds and
    [CommandDispatch::lookup], against the keyword list of
    [src/command_hash.gperf] it was generated from. *)

From S2P Require Import Prelude CommandType.
From Stdlib Require Import ZArith Lia.

Local Open Scope Z_scope.

Module Dispatch.

(** [struct CommandEntry]. *)
Record CommandEntry := mkEntry { e_name : bytes; e_type : CommandType }.

(** The keyword section of [command_hash.gperf], in file order. *)
Definition keywords : list (bytes * CommandType) :=
  [(str "PING", CT_ping); (str "HELLO", CT_hello); (str "AUTH", CT_auth); (str "COMMAND", CT_command);
    (str "CONFIG", CT_config); (str "CLIENT", CT_client); (str "SELECT", CT_select);
    (str "QUIT", CT_quit); (str "MULTI", CT_multi); (str "EXEC", CT_exec); (str "DISCARD", CT_discard);
    (str "WATCH", CT_watch); (str "UNWATCH", CT_unwatch); (str "TIME", CT_time); (str "ROLE", CT_role);
    (str "GOBLIN.FIREHOSE", CT_goblin_firehose); (str "GOBLIN.DUMPWORLD", CT_goblin_dumpworld);
    (str "SUBSCRIBE", CT_subscribe); (str "UNSUBSCRIBE", CT_unsubscribe);
    (str "PSUBSCRIBE", CT_psubscribe); (str "PUNSUBSCRIBE", CT_punsubscribe);
    (str "PUBLISH", CT_publish); (str "PUBSUB", CT_pubsub); (str "ECHO", CT_echo); (str "INFO", CT_info);
    (str "EVAL", CT_eval); (str "EVALSHA", CT_evalsha); (str "SCRIPT", CT_script);
    (str "LUAU.EVAL", CT_luau_eval); (str "LUAU.EVALSHA", CT_luau_evalsha);
    (str "LUAU.SCRIPT", CT_luau_script); (str "WREN.EVAL", CT_wren_eval);
    (str "WREN.EVALSHA", CT_wren_evalsha); (str "WREN.SCRIPT", CT_wren_script);
    (str "TCL.EVAL", CT_tcl_eval); (str "TCL.EVALSHA", CT_tcl_evalsha);
    (str "TCL.SCRIPT", CT_tcl_script); (str "UPYTHON.EVAL", CT_upython_eval);
    (str "UPYTHON.EVALSHA", CT_upython_evalsha); (str "UPYTHON.SCRIPT", CT_upython_script);
    (str "QUICKJS.EVAL", CT_quickjs_eval); (str "QUICKJS.EVALSHA", CT_quickjs_evalsha);
    (str "QUICKJS.SCRIPT", CT_quickjs_script); (str "ZADD", CT_zadd); (str "ZINCRBY", CT_zincrby);
    (str "ZCARD", CT_zcard); (str "ZCOUNT", CT_zcount); (str "ZRANGE", CT_zrange);
    (str "ZRANGEBYSCORE", CT_zrangebyscore); (str "ZREVRANGEBYSCORE", CT_zrevrangebyscore);
    (str "ZRANK", CT_zrank); (str "ZREVRANGE", CT_zrevrange); (str "ZREVRANK", CT_zrevrank);
    (str "ZREM", CT_zrem); (str "ZREMRANGEBYSCORE", CT_zremrangebyscore);
    (str "ZREMRANGEBYRANK", CT_zremrangebyrank); (str "ZINTERSTORE", CT_zinterstore);
    (str "ZUNIONSTORE", CT_zunionstore); (str "ZMSCORE", CT_zmscore); (str "ZPOPMIN", CT_zpopmin);
    (str "ZPOPMAX", CT_zpopmax); (str "ZSCAN", CT_zscan); (str "ZSCORE", CT_zscore);
    (str "HSET", CT_hset); (str "HMSET", CT_hmset); (str "HSETNX", CT_hsetnx); (str "HGET", CT_hget);
    (str "HMGET", CT_hmget); (str "HDEL", CT_hdel); (str "HGETALL", CT_hgetall); (str "HKEYS", CT_hkeys);
    (str "HVALS", CT_hvals); (str "HLEN", CT_hlen); (str "HEXISTS", CT_hexists);
    (str "HSTRLEN", CT_hstrlen); (str "HINCRBY", CT_hincrby); (str "HINCRBYFLOAT", CT_hincrbyfloat);
    (str "HRANDFIELD", CT_hrandfield); (str "HSCAN", CT_hscan); (str "GOBLIN.RT.HSET", CT_hset);
    (str "GOBLIN.RT.HMSET", CT_hmset); (str "GOBLIN.RT.HSETNX", CT_hsetnx);
    (str "GOBLIN.RT.HGET", CT_hget); (str "GOBLIN.RT.HMGET", CT_hmget); (str "GOBLIN.RT.HDEL", CT_hdel);
    (str "GOBLIN.RT.HGETALL", CT_hgetall); (str "GOBLIN.RT.HKEYS", CT_hkeys);
    (str "GOBLIN.RT.HVALS", CT_hvals); (str "GOBLIN.RT.HLEN", CT_hlen);
    (str "GOBLIN.RT.HEXISTS", CT_hexists); (str "GOBLIN.RT.HSTRLEN", CT_hstrlen);
    (str "GOBLIN.RT.HINCRBY", CT_hincrby); (str "GOBLIN.RT.HINCRBYFLOAT", CT_hincrbyfloat);
    (str "GOBLIN.RT.HRANDFIELD", CT_hrandfield); (str "GOBLIN.RT.HSCAN", CT_hscan);
    (str "GOBLIN.EFFICENT.HSET", CT_hset); (str "GOBLIN.EFFICENT.HMSET", CT_hmset);
    (str "GOBLIN.EFFICENT.HSETNX", CT_hsetnx); (str "GOBLIN.EFFICENT.HGET", CT_hget);
    (str "GOBLIN.EFFICENT.HMGET", CT_hmget); (str "GOBLIN.EFFICENT.HDEL", CT_hdel);
    (str "GOBLIN.EFFICENT.HGETALL", CT_hgetall); (str "GOBLIN.EFFICENT.HKEYS", CT_hkeys);
    (str "GOBLIN.EFFICENT.HVALS", CT_hvals); (str "GOBLIN.EFFICENT.HLEN", CT_hlen);
    (str "GOBLIN.EFFICENT.HEXISTS", CT_hexists); (str "GOBLIN.EFFICENT.HSTRLEN", CT_hstrlen);
    (str "GOBLIN.EFFICENT.HINCRBY", CT_hincrby); (str "GOBLIN.EFFICENT.HINCRBYFLOAT", CT_hincrbyfloat);
    (str "GOBLIN.EFFICENT.HRANDFIELD", CT_hrandfield); (str "GOBLIN.EFFICENT.HSCAN", CT_hscan);
    (str "SADD", CT_sadd); (str "SREM", CT_srem); (str "SCARD", CT_scard);
    (str "SISMEMBER", CT_sismember); (str "SMISMEMBER", CT_smismember); (str "SMEMBERS", CT_smembers);
    (str "SPOP", CT_spop); (str "SRANDMEMBER", CT_srandmember); (str "SMOVE", CT_smove);
    (str "SINTER", CT_sinter); (str "SINTERSTORE", CT_sinterstore); (str "SINTERCARD", CT_sintercard);
    (str "SUNION", CT_sunion); (str "SUNIONSTORE", CT_sunionstore); (str "SDIFF", CT_sdiff);
    (str "SDIFFSTORE", CT_sdiffstore); (str "SSCAN", CT_sscan);
    (str "GOBLIN.RT.ARRESERVE", CT_arreserve); (str "ARSET", CT_arset); (str "ARGET", CT_arget);
    (str "ARMSET", CT_armset); (str "ARMGET", CT_armget); (str "ARLEN", CT_arlen);
    (str "ARCOUNT", CT_arcount); (str "ARDEL", CT_ardel); (str "ARINSERT", CT_arinsert);
    (str "ARNEXT", CT_arnext); (str "ARSEEK", CT_arseek); (str "GOBLIN.RT.ARSET", CT_arset);
    (str "GOBLIN.RT.ARGET", CT_arget); (str "GOBLIN.RT.ARMSET", CT_armset);
    (str "GOBLIN.RT.ARMGET", CT_armget); (str "GOBLIN.RT.ARLEN", CT_arlen);
    (str "GOBLIN.RT.ARCOUNT", CT_arcount); (str "GOBLIN.RT.ARDEL", CT_ardel);
    (str "GOBLIN.RT.ARINSERT", CT_arinsert); (str "GOBLIN.RT.ARNEXT", CT_arnext);
    (str "GOBLIN.RT.ARSEEK", CT_arseek); (str "GOBLIN.CLASSIC.ARSET", CT_arset);
    (str "GOBLIN.CLASSIC.ARGET", CT_arget); (str "GOBLIN.CLASSIC.ARMSET", CT_armset);
    (str "GOBLIN.CLASSIC.ARMGET", CT_armget); (str "GOBLIN.CLASSIC.ARLEN", CT_arlen);
    (str "GOBLIN.CLASSIC.ARCOUNT", CT_arcount); (str "GOBLIN.CLASSIC.ARDEL", CT_ardel);
    (str "GOBLIN.CLASSIC.ARINSERT", CT_arinsert); (str "GOBLIN.CLASSIC.ARNEXT", CT_arnext);
    (str "GOBLIN.CLASSIC.ARSEEK", CT_arseek); (str "LPUSH", CT_lpush); (str "RPUSH", CT_rpush);
    (str "LPUSHX", CT_lpushx); (str "RPUSHX", CT_rpushx); (str "LPOP", CT_lpop); (str "RPOP", CT_rpop);
    (str "LMOVE", CT_lmove); (str "RPOPLPUSH", CT_rpoplpush); (str "BLPOP", CT_blpop);
    (str "BRPOP", CT_brpop); (str "BLMOVE", CT_blmove); (str "LMPOP", CT_lmpop);
    (str "BLMPOP", CT_blmpop); (str "LLEN", CT_llen); (str "LINDEX", CT_lindex);
    (str "LRANGE", CT_lrange); (str "LSET", CT_lset); (str "LTRIM", CT_ltrim); (str "LREM", CT_lrem);
    (str "LINSERT", CT_linsert); (str "GOBLIN.PMA.LPUSH", CT_pma_lpush);
    (str "GOBLIN.PMA.RPUSH", CT_pma_rpush); (str "GOBLIN.PMA.LPUSHX", CT_pma_lpushx);
    (str "GOBLIN.PMA.RPUSHX", CT_pma_rpushx); (str "GOBLIN.PMA.LPOP", CT_pma_lpop);
    (str "GOBLIN.PMA.RPOP", CT_pma_rpop); (str "GOBLIN.PMA.LMOVE", CT_pma_lmove);
    (str "GOBLIN.PMA.RPOPLPUSH", CT_pma_rpoplpush); (str "GOBLIN.PMA.BLPOP", CT_pma_blpop);
    (str "GOBLIN.PMA.BRPOP", CT_pma_brpop); (str "GOBLIN.PMA.BLMOVE", CT_pma_blmove);
    (str "GOBLIN.PMA.LMPOP", CT_pma_lmpop); (str "GOBLIN.PMA.BLMPOP", CT_pma_blmpop);
    (str "GOBLIN.PMA.LLEN", CT_pma_llen); (str "GOBLIN.PMA.LINDEX", CT_pma_lindex);
    (str "GOBLIN.PMA.LRANGE", CT_pma_lrange); (str "GOBLIN.PMA.LSET", CT_pma_lset);
    (str "GOBLIN.PMA.LTRIM", CT_pma_ltrim); (str "GOBLIN.PMA.LREM", CT_pma_lrem);
    (str "GOBLIN.PMA.LINSERT", CT_pma_linsert); (str "GOBLIN.SEGMENTED.LPUSH", CT_segmented_lpush);
    (str "GOBLIN.SEGMENTED.RPUSH", CT_segmented_rpush);
    (str "GOBLIN.SEGMENTED.LPUSHX", CT_segmented_lpushx);
    (str "GOBLIN.SEGMENTED.RPUSHX", CT_segmented_rpushx);
    (str "GOBLIN.SEGMENTED.LPOP", CT_segmented_lpop); (str "GOBLIN.SEGMENTED.RPOP", CT_segmented_rpop);
    (str "GOBLIN.SEGMENTED.LMOVE", CT_segmented_lmove);
    (str "GOBLIN.SEGMENTED.RPOPLPUSH", CT_segmented_rpoplpush);
    (str "GOBLIN.SEGMENTED.BLPOP", CT_segmented_blpop);
    (str "GOBLIN.SEGMENTED.BRPOP", CT_segmented_brpop);
    (str "GOBLIN.SEGMENTED.BLMOVE", CT_segmented_blmove);
    (str "GOBLIN.SEGMENTED.LMPOP", CT_segmented_lmpop);
    (str "GOBLIN.SEGMENTED.BLMPOP", CT_segmented_blmpop);
    (str "GOBLIN.SEGMENTED.LLEN", CT_segmented_llen);
    (str "GOBLIN.SEGMENTED.LINDEX", CT_segmented_lindex);
    (str "GOBLIN.SEGMENTED.LRANGE", CT_segmented_lrange);
    (str "GOBLIN.SEGMENTED.LSET", CT_segmented_lset); (str "GOBLIN.SEGMENTED.LTRIM", CT_segmented_ltrim);
    (str "GOBLIN.SEGMENTED.LREM", CT_segmented_lrem);
    (str "GOBLIN.SEGMENTED.LINSERT", CT_segmented_linsert); (str "SET", CT_set); (str "GET", CT_get);
    (str "GETEX", CT_getex); (str "GETSET", CT_getset); (str "SETNX", CT_setnx);
    (str "GETDEL", CT_getdel); (str "STRLEN", CT_strlen); (str "APPEND", CT_append);
    (str "INCR", CT_incr); (str "DECR", CT_decr); (str "INCRBY", CT_incrby); (str "DECRBY", CT_decrby);
    (str "INCRBYFLOAT", CT_incrbyfloat); (str "GETRANGE", CT_getrange); (str "SETRANGE", CT_setrange);
    (str "MSET", CT_mset); (str "MSETNX", CT_msetnx); (str "MGET", CT_mget); (str "DEL", CT_del);
    (str "EXISTS", CT_exists); (str "DBSIZE", CT_dbsize); (str "RENAME", CT_rename);
    (str "RENAMENX", CT_renamenx); (str "COPY", CT_copy); (str "RANDOMKEY", CT_randomkey);
    (str "TOUCH", CT_touch); (str "SCAN", CT_scan); (str "TYPE", CT_key_type); (str "EXPIRE", CT_expire);
    (str "PEXPIRE", CT_pexpire); (str "EXPIREAT", CT_expireat); (str "PEXPIREAT", CT_pexpireat);
    (str "TTL", CT_ttl); (str "PTTL", CT_pttl); (str "PERSIST", CT_persist);
    (str "EXPIRETIME", CT_expiretime); (str "PEXPIRETIME", CT_pexpiretime);
    (str "GOBLIN.MEMORY", CT_goblin_memory); (str "GOBLIN.OPTIMIZE", CT_goblin_optimize);
    (str "SAVE", CT_goblin_save); (str "BGSAVE", CT_goblin_save); (str "GOBLIN.SAVE", CT_goblin_save);
    (str "GOBLIN.BGSAVE", CT_goblin_save); (str "GOBLIN.LOAD", CT_goblin_load);
    (str "GOBLIN.CAD", CT_goblin_cad); (str "GOBLIN.CAEXPIRE", CT_goblin_caexpire);
    (str "GOBLIN.CAS", CT_goblin_cas);
    (str "GOBLIN.TD_LEADERBOARD_RESCORE", CT_goblin_td_leaderboard_rescore);
    (str "GOBLIN.INCREX", CT_goblin_increx); (str "GOBLIN.ZWINDOW", CT_goblin_zwindow);
    (str "GOBLIN.INCRBOUND", CT_goblin_incrbound); (str "GOBLIN.DECRPOS", CT_goblin_decrpos);
    (str "GOBLIN.HCAD", CT_goblin_hcad); (str "GOBLIN.HSETGT", CT_goblin_hsetgt);
    (str "GOBLIN.CLAIM", CT_goblin_claim)].

Definition MIN_WORD_LENGTH : nat := 3.
Definition MAX_WORD_LENGTH : nat := 29.
Definition MAX_HASH_VALUE : Z := 1772.

(** [asso_values], indexed by an unsigned character. *)
Definition asso_values : list Z :=
  [1773; 1773; 1773; 1773; 1773; 1773; 1773; 1773; 1773; 1773; 1773; 1773; 1773; 1773; 1773; 1773; 1773;
    1773; 1773; 1773; 1773; 1773; 1773; 1773; 1773; 1773; 1773; 1773; 1773; 1773; 1773; 1773; 1773; 1773;
    1773; 1773; 1773; 1773; 1773; 1773; 1773; 1773; 1773; 1773; 1773; 1773; 35; 1773; 1773; 1773; 1773;
    1773; 1773; 1773; 1773; 1773; 1773; 1773; 1773; 1773; 1773; 1773; 1773; 1773; 1773; 305; 20; 80; 285;
    10; 125; 45; 355; 190; 1773; 340; 0; 110; 5; 25; 30; 5; 5; 15; 5; 270; 170; 30; 225; 215; 385; 1773;
    1773; 1773; 1773; 1773; 1773; 1773; 1773; 1773; 1773; 1773; 1773; 1773; 1773; 1773; 1773; 1773; 1773;
    1773; 1773; 1773; 1773; 1773; 1773; 1773; 1773; 1773; 1773; 1773; 1773; 1773; 1773; 1773; 1773; 1773;
    1773; 1773; 1773; 1773; 1773; 1773; 1773; 1773; 1773; 1773; 1773; 1773; 1773; 1773; 1773; 1773; 1773;
    1773; 1773; 1773; 1773; 1773; 1773; 1773; 1773; 1773; 1773; 1773; 1773; 1773; 1773; 1773; 1773; 1773;
    1773; 1773; 1773; 1773; 1773; 1773; 1773; 1773; 1773; 1773; 1773; 1773; 1773; 1773; 1773; 1773; 1773;
    1773; 1773; 1773; 1773; 1773; 1773; 1773; 1773; 1773; 1773; 1773; 1773; 1773; 1773; 1773; 1773; 1773;
    1773; 1773; 1773; 1773; 1773; 1773; 1773; 1773; 1773; 1773; 1773; 1773; 1773; 1773; 1773; 1773; 1773;
    1773; 1773; 1773; 1773; 1773; 1773; 1773; 1773; 1773; 1773; 1773; 1773; 1773; 1773; 1773; 1773; 1773;
    1773; 1773; 1773; 1773; 1773; 1773; 1773; 1773; 1773; 1773; 1773; 1773; 1773; 1773; 1773; 1773; 1773;
    1773; 1773; 1773; 1773; 1773; 1773; 1773; 1773; 1773; 1773; 1773].

(** [lengthtable]. *)
Definition lengthtable : list nat :=
  [0; 0; 0; 0; 0; 0; 0; 0; 0; 0; 0; 0; 0; 3; 0; 0; 0; 0; 0; 0; 0; 0; 0; 0; 4; 0; 0; 0; 0; 0; 0; 0; 0; 0;
    0; 0; 6; 0; 3; 4; 0; 0; 0; 0; 4; 0; 6; 0; 0; 0; 0; 0; 0; 0; 4; 0; 0; 0; 0; 0; 0; 0; 0; 8; 0; 0; 0; 0;
    3; 0; 0; 11; 7; 0; 0; 0; 0; 0; 0; 0; 0; 0; 0; 0; 0; 0; 6; 0; 0; 0; 0; 0; 0; 8; 0; 0; 0; 0; 0; 0; 0;
    0; 0; 0; 0; 0; 0; 0; 0; 0; 5; 0; 0; 0; 0; 5; 0; 0; 0; 4; 0; 0; 0; 0; 4; 0; 11; 0; 8; 14; 15; 0; 0; 0;
    4; 0; 16; 0; 0; 0; 0; 0; 17; 0; 14; 15; 0; 0; 0; 4; 15; 21; 0; 0; 0; 0; 0; 0; 0; 0; 0; 0; 0; 23; 0;
    15; 21; 0; 0; 0; 0; 6; 17; 0; 14; 15; 0; 0; 23; 4; 0; 0; 0; 0; 0; 0; 0; 0; 0; 0; 0; 0; 0; 0; 0; 10;
    6; 22; 23; 0; 5; 0; 22; 0; 0; 0; 21; 0; 0; 0; 0; 21; 0; 0; 0; 0; 16; 0; 0; 0; 15; 16; 7; 0; 0; 15; 6;
    17; 0; 0; 20; 0; 0; 0; 0; 0; 0; 0; 0; 4; 0; 11; 0; 23; 0; 20; 16; 0; 0; 0; 15; 0; 0; 0; 4; 0; 16; 0;
    0; 0; 15; 21; 22; 0; 0; 5; 0; 22; 0; 0; 0; 0; 0; 23; 4; 20; 16; 17; 0; 0; 15; 16; 0; 8; 0; 0; 6; 22;
    0; 4; 0; 6; 0; 0; 0; 0; 11; 17; 3; 0; 5; 6; 0; 0; 0; 0; 16; 0; 0; 0; 0; 0; 7; 13; 0; 5; 21; 0; 0; 4;
    5; 11; 0; 18; 19; 10; 0; 0; 0; 4; 5; 6; 0; 0; 0; 5; 6; 0; 0; 0; 0; 6; 0; 18; 24; 5; 21; 0; 0; 0; 0;
    6; 0; 0; 9; 0; 0; 0; 0; 9; 0; 6; 0; 0; 9; 10; 16; 0; 0; 0; 0; 6; 0; 0; 4; 5; 21; 0; 0; 4; 0; 0; 0; 0;
    0; 0; 11; 0; 0; 4; 0; 0; 7; 0; 4; 5; 0; 0; 0; 0; 0; 6; 12; 23; 14; 0; 0; 0; 23; 4; 15; 0; 0; 0; 4; 0;
    0; 0; 0; 0; 15; 0; 7; 28; 4; 5; 0; 7; 0; 0; 0; 0; 12; 0; 0; 0; 11; 0; 0; 0; 0; 0; 0; 0; 0; 0; 6; 0;
    0; 0; 0; 0; 0; 0; 0; 0; 11; 17; 0; 0; 0; 6; 0; 0; 0; 10; 0; 22; 23; 9; 0; 6; 0; 8; 14; 0; 6; 0; 0; 4;
    0; 16; 7; 0; 0; 0; 0; 0; 0; 4; 20; 6; 0; 0; 0; 0; 21; 0; 0; 4; 5; 6; 0; 0; 0; 20; 11; 0; 0; 0; 20; 0;
    0; 13; 4; 15; 0; 0; 0; 0; 0; 6; 22; 8; 0; 0; 6; 0; 0; 0; 5; 0; 22; 0; 0; 20; 0; 22; 0; 0; 0; 26; 0;
    0; 0; 10; 6; 0; 0; 0; 0; 6; 17; 0; 0; 0; 0; 17; 0; 0; 0; 0; 0; 23; 0; 0; 0; 12; 0; 4; 0; 0; 0; 0; 0;
    0; 0; 0; 0; 0; 5; 21; 0; 0; 0; 0; 11; 22; 0; 0; 0; 0; 12; 0; 0; 0; 0; 0; 0; 0; 15; 6; 17; 0; 0; 0;
    21; 7; 0; 0; 5; 11; 0; 0; 9; 0; 6; 7; 0; 0; 0; 0; 0; 0; 4; 0; 0; 0; 23; 0; 0; 0; 0; 0; 9; 15; 21; 0;
    0; 0; 0; 0; 0; 0; 0; 0; 0; 0; 13; 0; 0; 0; 0; 0; 4; 0; 0; 0; 0; 0; 10; 0; 17; 0; 0; 10; 6; 17; 0; 0;
    0; 0; 0; 0; 0; 5; 0; 0; 23; 0; 5; 6; 7; 0; 0; 0; 0; 0; 0; 0; 15; 0; 0; 0; 0; 5; 0; 0; 0; 0; 0; 16; 7;
    0; 0; 0; 21; 0; 0; 0; 0; 6; 0; 0; 0; 0; 6; 0; 0; 0; 0; 0; 0; 0; 0; 20; 0; 0; 0; 0; 0; 0; 0; 0; 0; 0;
    16; 0; 0; 0; 5; 11; 0; 0; 0; 5; 0; 0; 0; 0; 0; 0; 0; 13; 0; 0; 0; 0; 0; 0; 0; 16; 0; 0; 0; 5; 0; 0;
    0; 0; 20; 6; 0; 0; 0; 0; 0; 12; 0; 0; 5; 0; 0; 8; 0; 0; 0; 0; 0; 0; 0; 16; 0; 0; 0; 5; 16; 7; 0; 14;
    0; 0; 7; 0; 0; 0; 0; 0; 0; 0; 0; 0; 0; 0; 0; 10; 26; 0; 0; 0; 0; 0; 0; 0; 14; 15; 0; 0; 0; 0; 0; 0;
    0; 0; 9; 0; 0; 0; 0; 0; 20; 21; 0; 0; 0; 0; 0; 0; 0; 0; 5; 0; 7; 0; 0; 0; 0; 0; 0; 14; 0; 0; 7; 0; 0;
    0; 11; 0; 0; 0; 0; 0; 0; 0; 0; 0; 11; 0; 0; 0; 0; 0; 7; 0; 0; 0; 0; 0; 0; 0; 0; 0; 0; 0; 0; 0; 16; 0;
    0; 0; 0; 0; 0; 0; 0; 0; 0; 0; 0; 0; 0; 0; 0; 0; 0; 0; 0; 0; 0; 0; 0; 0; 0; 0; 0; 0; 0; 0; 0; 0; 0; 0;
    0; 0; 0; 0; 0; 0; 0; 0; 5; 0; 0; 0; 0; 0; 0; 0; 0; 0; 0; 0; 0; 13; 0; 0; 0; 0; 0; 0; 0; 0; 0; 0; 0;
    0; 0; 0; 0; 0; 0; 0; 7; 0; 0; 10; 0; 12; 0; 0; 0; 0; 0; 0; 0; 0; 0; 0; 0; 0; 0; 0; 0; 0; 0; 0; 0; 0;
    0; 0; 0; 0; 0; 0; 0; 0; 0; 0; 0; 0; 0; 0; 0; 0; 0; 0; 0; 0; 0; 0; 0; 0; 0; 0; 0; 0; 0; 0; 0; 0; 0; 0;
    0; 0; 0; 0; 0; 0; 0; 0; 0; 0; 0; 0; 0; 5; 0; 0; 0; 0; 0; 0; 0; 0; 0; 0; 0; 0; 0; 0; 0; 0; 0; 0; 29;
    5; 0; 0; 0; 0; 0; 0; 0; 0; 0; 0; 0; 0; 0; 0; 0; 0; 0; 0; 0; 0; 0; 0; 0; 0; 0; 0; 0; 0; 0; 0; 0; 0; 0;
    0; 0; 0; 0; 0; 0; 0; 0; 0; 0; 0; 0; 0; 0; 0; 0; 0; 0; 0; 0; 0; 0; 0; 0; 0; 0; 0; 0; 0; 0; 0; 0; 0; 0;
    0; 0; 0; 0; 0; 0; 0; 0; 0; 0; 0; 0; 0; 0; 0; 0; 0; 0; 0; 0; 0; 0; 0; 0; 0; 0; 9; 0; 0; 0; 0; 0; 0; 0;
    0; 0; 0; 0; 0; 0; 0; 0; 0; 0; 0; 0; 4; 0; 0; 0; 0; 0; 0; 0; 0; 0; 0; 0; 0; 0; 0; 0; 0; 0; 0; 0; 0; 0;
    0; 0; 0; 0; 0; 0; 0; 0; 0; 0; 0; 0; 0; 0; 0; 0; 0; 0; 0; 0; 0; 0; 0; 0; 15; 0; 0; 0; 0; 0; 0; 0; 0;
    0; 0; 0; 0; 0; 0; 0; 0; 0; 0; 0; 15; 0; 0; 0; 0; 0; 0; 0; 0; 0; 0; 0; 0; 8; 0; 0; 0; 0; 0; 0; 0; 0;
    0; 0; 0; 15; 0; 0; 0; 0; 0; 0; 0; 0; 0; 0; 0; 0; 0; 0; 0; 0; 0; 0; 0; 0; 0; 0; 0; 4; 0; 0; 0; 0; 0;
    0; 0; 0; 0; 0; 0; 0; 0; 0; 0; 0; 0; 0; 0; 0; 0; 0; 0; 0; 0; 0; 0; 0; 0; 0; 0; 0; 0; 0; 0; 0; 0; 0; 0;
    0; 0; 0; 0; 0; 0; 0; 0; 0; 0; 0; 0; 0; 0; 0; 0; 0; 0; 0; 0; 0; 0; 0; 0; 0; 0; 0; 0; 0; 0; 0; 0; 0; 0;
    0; 0; 0; 0; 0; 0; 0; 0; 0; 0; 0; 0; 0; 0; 0; 0; 0; 0; 0; 0; 0; 0; 0; 0; 0; 0; 0; 0; 0; 0; 0; 0; 0; 0;
    0; 0; 0; 0; 0; 0; 0; 0; 0; 0; 0; 0; 0; 0; 0; 0; 0; 0; 0; 0; 0; 0; 0; 0; 0; 0; 0; 0; 0; 0; 0; 0; 0; 0;
    0; 0; 0; 0; 0; 0; 0; 0; 0; 0; 0; 0; 0; 0; 0; 0; 0; 0; 0; 0; 0; 0; 0; 0; 0; 0; 0; 0; 0; 0; 0; 0; 0; 0;
    0; 0; 0; 0; 0; 0; 0; 0; 0; 0; 0; 0; 0; 0; 0; 0; 0; 0; 0; 0; 0; 0; 0; 0; 0; 0; 0; 0; 0; 0; 0; 0; 0; 0;
    0; 0; 0; 0; 0; 0; 0; 0; 0; 0; 0; 0; 0; 0; 0; 0; 0; 0; 0; 0; 0; 0; 0; 0; 0; 0; 0; 0; 0; 0; 0; 0; 0; 0;
    0; 0; 0; 0; 0; 0; 0; 0; 0; 0; 0; 4; 0; 0; 0; 0; 0; 0; 0; 0; 0; 0; 0; 0; 0; 0; 0; 0; 0; 0; 0; 0; 0; 0;
    0; 0; 0; 0; 0; 0; 0; 0; 0; 0; 0; 0; 0; 0; 0; 0; 0; 0; 0; 0; 0; 0; 0; 0; 0; 0; 0; 0; 0; 0; 0; 0; 0; 0;
    0; 0; 0; 0; 0; 0; 0; 0; 0; 0; 0; 0; 0; 0; 0; 0; 0; 0; 0; 0; 0; 0; 0; 0; 0; 0; 0; 0; 0; 0; 0; 0; 0; 0;
    0; 0; 0; 0; 0; 0; 0; 0; 0; 0; 0; 0; 0; 0; 0; 0; 0; 0; 0; 0; 0; 0; 0; 0; 0; 0; 0; 0; 0; 0; 0; 0; 0; 0;
    0; 0; 0; 0; 0; 0; 0; 0; 0; 0; 0; 0; 0; 0; 0; 0; 0; 0; 0; 0; 0; 0; 0; 0; 0; 0; 0; 0; 0; 0; 0; 0; 0; 0;
    0; 0; 0; 0; 0; 0; 0; 0; 0; 0; 0; 0; 0; 0; 0; 0; 0; 0; 0; 0; 0; 0; 0; 0; 0; 0; 0; 0; 0; 0; 0; 0; 0; 0;
    0; 0; 0; 0; 0; 0; 0; 0; 0; 0; 0; 0; 0; 0; 0; 0; 0; 0; 0; 0; 0; 0; 0; 0; 0; 0; 0; 0; 0; 0; 12]%nat.

(** The filler entries of the table. *)
Abbreviation blank := (mkEntry [] CT_unknown).

(** [wordlist]. *)
Definition wordlist : list CommandEntry :=
  [blank; blank; blank; blank; blank; blank; blank; blank; blank; blank; blank; blank; blank;
    mkEntry (str "TTL") CT_ttl; blank; blank; blank; blank; blank; blank; blank; blank; blank; blank;
    mkEntry (str "LLEN") CT_llen; blank; blank; blank; blank; blank; blank; blank; blank; blank; blank;
    blank; mkEntry (str "STRLEN") CT_strlen; blank; mkEntry (str "SET") CT_set;
    mkEntry (str "LSET") CT_lset; blank; blank; blank; blank; mkEntry (str "PTTL") CT_pttl; blank;
    mkEntry (str "SELECT") CT_select; blank; blank; blank; blank; blank; blank; blank;
    mkEntry (str "ROLE") CT_role; blank; blank; blank; blank; blank; blank; blank; blank;
    mkEntry (str "SETRANGE") CT_setrange; blank; blank; blank; blank; mkEntry (str "GET") CT_get; blank;
    blank; mkEntry (str "WREN.SCRIPT") CT_wren_script; mkEntry (str "PERSIST") CT_persist; blank; blank;
    blank; blank; blank; blank; blank; blank; blank; blank; blank; blank; blank;
    mkEntry (str "GETSET") CT_getset; blank; blank; blank; blank; blank; blank;
    mkEntry (str "GETRANGE") CT_getrange; blank; blank; blank; blank; blank; blank; blank; blank; blank;
    blank; blank; blank; blank; blank; blank; blank; mkEntry (str "BLPOP") CT_blpop; blank; blank; blank;
    blank; mkEntry (str "BRPOP") CT_brpop; blank; blank; blank; mkEntry (str "LPOP") CT_lpop; blank;
    blank; blank; blank; mkEntry (str "RPOP") CT_rpop; blank; mkEntry (str "GOBLIN.SAVE") CT_goblin_save;
    blank; mkEntry (str "TCL.EVAL") CT_tcl_eval; mkEntry (str "GOBLIN.RT.HLEN") CT_hlen;
    mkEntry (str "GOBLIN.RT.ARLEN") CT_arlen; blank; blank; blank; mkEntry (str "SPOP") CT_spop; blank;
    mkEntry (str "GOBLIN.RT.ARNEXT") CT_arnext; blank; blank; blank; blank; blank;
    mkEntry (str "GOBLIN.RT.HSTRLEN") CT_hstrlen; blank; mkEntry (str "GOBLIN.RT.HSET") CT_hset;
    mkEntry (str "GOBLIN.RT.ARSET") CT_arset; blank; blank; blank; mkEntry (str "MSET") CT_mset;
    mkEntry (str "GOBLIN.PMA.LLEN") CT_pma_llen; mkEntry (str "GOBLIN.SEGMENTED.LLEN") CT_segmented_llen;
    blank; blank; blank; blank; blank; blank; blank; blank; blank; blank; blank;
    mkEntry (str "GOBLIN.SEGMENTED.LRANGE") CT_segmented_lrange; blank;
    mkEntry (str "GOBLIN.PMA.LSET") CT_pma_lset; mkEntry (str "GOBLIN.SEGMENTED.LSET") CT_segmented_lset;
    blank; blank; blank; blank; mkEntry (str "BLMOVE") CT_blmove;
    mkEntry (str "GOBLIN.RT.HGETALL") CT_hgetall; blank; mkEntry (str "GOBLIN.RT.HGET") CT_hget;
    mkEntry (str "GOBLIN.RT.ARGET") CT_arget; blank; blank;
    mkEntry (str "GOBLIN.SEGMENTED.BLMOVE") CT_segmented_blmove; mkEntry (str "MGET") CT_mget; blank;
    blank; blank; blank; blank; blank; blank; blank; blank; blank; blank; blank; blank; blank; blank;
    mkEntry (str "GOBLIN.CAS") CT_goblin_cas; mkEntry (str "BLMPOP") CT_blmpop;
    mkEntry (str "GOBLIN.SEGMENTED.BLPOP") CT_segmented_blpop;
    mkEntry (str "GOBLIN.SEGMENTED.BLMPOP") CT_segmented_blmpop; blank; mkEntry (str "LMPOP") CT_lmpop;
    blank; mkEntry (str "GOBLIN.SEGMENTED.BRPOP") CT_segmented_brpop; blank; blank; blank;
    mkEntry (str "GOBLIN.SEGMENTED.LPOP") CT_segmented_lpop; blank; blank; blank; blank;
    mkEntry (str "GOBLIN.SEGMENTED.RPOP") CT_segmented_rpop; blank; blank; blank; blank;
    mkEntry (str "GOBLIN.PMA.BLPOP") CT_pma_blpop; blank; blank; blank;
    mkEntry (str "GOBLIN.PMA.LPOP") CT_pma_lpop; mkEntry (str "GOBLIN.PMA.BRPOP") CT_pma_brpop;
    mkEntry (str "LINSERT") CT_linsert; blank; blank; mkEntry (str "GOBLIN.PMA.RPOP") CT_pma_rpop;
    mkEntry (str "SINTER") CT_sinter; mkEntry (str "GOBLIN.RT.ARCOUNT") CT_arcount; blank; blank;
    mkEntry (str "GOBLIN.EFFICENT.HLEN") CT_hlen; blank; blank; blank; blank; blank; blank; blank; blank;
    mkEntry (str "LREM") CT_lrem; blank; mkEntry (str "SINTERSTORE") CT_sinterstore; blank;
    mkEntry (str "GOBLIN.EFFICENT.HSTRLEN") CT_hstrlen; blank;
    mkEntry (str "GOBLIN.EFFICENT.HSET") CT_hset; mkEntry (str "GOBLIN.RT.ARMSET") CT_armset; blank;
    blank; blank; mkEntry (str "GOBLIN.RT.HMSET") CT_hmset; blank; blank; blank;
    mkEntry (str "SREM") CT_srem; blank; mkEntry (str "GOBLIN.PMA.LTRIM") CT_pma_ltrim; blank; blank;
    blank; mkEntry (str "GOBLIN.PMA.LREM") CT_pma_lrem;
    mkEntry (str "GOBLIN.SEGMENTED.LREM") CT_segmented_lrem;
    mkEntry (str "GOBLIN.SEGMENTED.LTRIM") CT_segmented_ltrim; blank; blank;
    mkEntry (str "SETNX") CT_setnx; blank; mkEntry (str "GOBLIN.SEGMENTED.LMOVE") CT_segmented_lmove;
    blank; blank; blank; blank; blank; mkEntry (str "GOBLIN.EFFICENT.HGETALL") CT_hgetall;
    mkEntry (str "TYPE") CT_key_type; mkEntry (str "GOBLIN.EFFICENT.HGET") CT_hget;
    mkEntry (str "GOBLIN.RT.ARMGET") CT_armget; mkEntry (str "GOBLIN.PMA.BLMOVE") CT_pma_blmove; blank;
    blank; mkEntry (str "GOBLIN.RT.HMGET") CT_hmget; mkEntry (str "GOBLIN.PMA.LMOVE") CT_pma_lmove;
    blank; mkEntry (str "SMEMBERS") CT_smembers; blank; blank; mkEntry (str "CONFIG") CT_config;
    mkEntry (str "GOBLIN.SEGMENTED.LMPOP") CT_segmented_lmpop; blank; mkEntry (str "INCR") CT_incr;
    blank; mkEntry (str "CLIENT") CT_client; blank; blank; blank; blank;
    mkEntry (str "INCRBYFLOAT") CT_incrbyfloat; mkEntry (str "GOBLIN.PMA.BLMPOP") CT_pma_blmpop;
    mkEntry (str "DEL") CT_del; blank; mkEntry (str "GETEX") CT_getex; mkEntry (str "SCRIPT") CT_script;
    blank; blank; blank; blank; mkEntry (str "GOBLIN.PMA.LMPOP") CT_pma_lmpop; blank; blank; blank;
    blank; blank; mkEntry (str "PEXPIRE") CT_pexpire; mkEntry (str "GOBLIN.BGSAVE") CT_goblin_save;
    blank; mkEntry (str "LTRIM") CT_ltrim; mkEntry (str "GOBLIN.EFFICENT.HSCAN") CT_hscan; blank; blank;
    mkEntry (str "PING") CT_ping; mkEntry (str "LMOVE") CT_lmove;
    mkEntry (str "PEXPIRETIME") CT_pexpiretime; blank; mkEntry (str "GOBLIN.RT.ARINSERT") CT_arinsert;
    mkEntry (str "GOBLIN.RT.ARRESERVE") CT_arreserve; mkEntry (str "TCL.SCRIPT") CT_tcl_script; blank;
    blank; blank; mkEntry (str "TIME") CT_time; mkEntry (str "ARLEN") CT_arlen;
    mkEntry (str "LRANGE") CT_lrange; blank; blank; blank; mkEntry (str "SMOVE") CT_smove;
    mkEntry (str "ARNEXT") CT_arnext; blank; blank; blank; blank; mkEntry (str "RENAME") CT_rename;
    blank; mkEntry (str "GOBLIN.PMA.LINSERT") CT_pma_linsert;
    mkEntry (str "GOBLIN.SEGMENTED.LINSERT") CT_segmented_linsert; mkEntry (str "ARSET") CT_arset;
    mkEntry (str "GOBLIN.EFFICENT.HMSET") CT_hmset; blank; blank; blank; blank;
    mkEntry (str "GETDEL") CT_getdel; blank; blank; mkEntry (str "SISMEMBER") CT_sismember; blank; blank;
    blank; blank; mkEntry (str "SUBSCRIBE") CT_subscribe; blank; mkEntry (str "PUBSUB") CT_pubsub; blank;
    blank; mkEntry (str "WREN.EVAL") CT_wren_eval; mkEntry (str "SMISMEMBER") CT_smismember;
    mkEntry (str "GOBLIN.RT.HSETNX") CT_hsetnx; blank; blank; blank; blank;
    mkEntry (str "MSETNX") CT_msetnx; blank; blank; mkEntry (str "INFO") CT_info;
    mkEntry (str "ARGET") CT_arget; mkEntry (str "GOBLIN.EFFICENT.HMGET") CT_hmget; blank; blank;
    mkEntry (str "HLEN") CT_hlen; blank; blank; blank; blank; blank; blank;
    mkEntry (str "GOBLIN.LOAD") CT_goblin_load; blank; blank; mkEntry (str "DECR") CT_decr; blank; blank;
    mkEntry (str "HSTRLEN") CT_hstrlen; blank; mkEntry (str "HSET") CT_hset;
    mkEntry (str "HELLO") CT_hello; blank; blank; blank; blank; blank;
    mkEntry (str "BGSAVE") CT_goblin_save; mkEntry (str "GOBLIN.CLAIM") CT_goblin_claim;
    mkEntry (str "GOBLIN.SEGMENTED.LPUSHX") CT_segmented_lpushx; mkEntry (str "GOBLIN.RT.HDEL") CT_hdel;
    blank; blank; blank; mkEntry (str "GOBLIN.SEGMENTED.RPUSHX") CT_segmented_rpushx;
    mkEntry (str "EXEC") CT_exec; mkEntry (str "GOBLIN.RT.ARDEL") CT_ardel; blank; blank; blank;
    mkEntry (str "SCAN") CT_scan; blank; blank; blank; blank; blank;
    mkEntry (str "GOBLIN.CAEXPIRE") CT_goblin_caexpire; blank; mkEntry (str "HGETALL") CT_hgetall;
    mkEntry (str "GOBLIN.EFFICENT.HINCRBYFLOAT") CT_hincrbyfloat; mkEntry (str "HGET") CT_hget;
    mkEntry (str "SSCAN") CT_sscan; blank; mkEntry (str "ARCOUNT") CT_arcount; blank; blank; blank;
    blank; mkEntry (str "PUNSUBSCRIBE") CT_punsubscribe; blank; blank; blank;
    mkEntry (str "TCL.EVALSHA") CT_tcl_evalsha; blank; blank; blank; blank; blank; blank; blank; blank;
    blank; mkEntry (str "ARMSET") CT_armset; blank; blank; blank; blank; blank; blank; blank; blank;
    blank; mkEntry (str "SRANDMEMBER") CT_srandmember; mkEntry (str "GOBLIN.PMA.LRANGE") CT_pma_lrange;
    blank; blank; blank; mkEntry (str "EXISTS") CT_exists; blank; blank; blank;
    mkEntry (str "GOBLIN.CAD") CT_goblin_cad; blank; mkEntry (str "GOBLIN.EFFICENT.HSETNX") CT_hsetnx;
    mkEntry (str "GOBLIN.EFFICENT.HEXISTS") CT_hexists; mkEntry (str "RPOPLPUSH") CT_rpoplpush; blank;
    mkEntry (str "EXPIRE") CT_expire; blank; mkEntry (str "EXPIREAT") CT_expireat;
    mkEntry (str "GOBLIN.DECRPOS") CT_goblin_decrpos; blank; mkEntry (str "ARMGET") CT_armget; blank;
    blank; mkEntry (str "QUIT") CT_quit; blank; mkEntry (str "GOBLIN.RT.ARSEEK") CT_arseek;
    mkEntry (str "ZPOPMIN") CT_zpopmin; blank; blank; blank; blank; blank; blank;
    mkEntry (str "EVAL") CT_eval; mkEntry (str "GOBLIN.CLASSIC.ARLEN") CT_arlen;
    mkEntry (str "SUNION") CT_sunion; blank; blank; blank; blank;
    mkEntry (str "GOBLIN.CLASSIC.ARNEXT") CT_arnext; blank; blank; mkEntry (str "ECHO") CT_echo;
    mkEntry (str "HMSET") CT_hmset; mkEntry (str "INCRBY") CT_incrby; blank; blank; blank;
    mkEntry (str "GOBLIN.CLASSIC.ARSET") CT_arset; mkEntry (str "SUNIONSTORE") CT_sunionstore; blank;
    blank; blank; mkEntry (str "GOBLIN.EFFICENT.HDEL") CT_hdel; blank; blank;
    mkEntry (str "GOBLIN.HSETGT") CT_goblin_hsetgt; mkEntry (str "SAVE") CT_goblin_save;
    mkEntry (str "GOBLIN.RT.HSCAN") CT_hscan; blank; blank; blank; blank; blank;
    mkEntry (str "ZSCORE") CT_zscore; mkEntry (str "GOBLIN.RT.HINCRBYFLOAT") CT_hincrbyfloat;
    mkEntry (str "ARINSERT") CT_arinsert; blank; blank; mkEntry (str "DBSIZE") CT_dbsize; blank; blank;
    blank; mkEntry (str "HMGET") CT_hmget; blank;
    mkEntry (str "GOBLIN.SEGMENTED.LPUSH") CT_segmented_lpush; blank; blank;
    mkEntry (str "GOBLIN.CLASSIC.ARGET") CT_arget; blank;
    mkEntry (str "GOBLIN.SEGMENTED.RPUSH") CT_segmented_rpush; blank; blank; blank;
    mkEntry (str "GOBLIN.SEGMENTED.RPOPLPUSH") CT_segmented_rpoplpush; blank; blank; blank;
    mkEntry (str "PSUBSCRIBE") CT_psubscribe; mkEntry (str "LPUSHX") CT_lpushx; blank; blank; blank;
    blank; mkEntry (str "RPUSHX") CT_rpushx; mkEntry (str "GOBLIN.RT.HEXISTS") CT_hexists; blank; blank;
    blank; blank; mkEntry (str "GOBLIN.PMA.LINDEX") CT_pma_lindex; blank; blank; blank; blank; blank;
    mkEntry (str "GOBLIN.SEGMENTED.LINDEX") CT_segmented_lindex; blank; blank; blank;
    mkEntry (str "UPYTHON.EVAL") CT_upython_eval; blank; mkEntry (str "COPY") CT_copy; blank; blank;
    blank; blank; blank; blank; blank; blank; blank; blank; mkEntry (str "MULTI") CT_multi;
    mkEntry (str "GOBLIN.EFFICENT.HKEYS") CT_hkeys; blank; blank; blank; blank;
    mkEntry (str "UNSUBSCRIBE") CT_unsubscribe; mkEntry (str "GOBLIN.CLASSIC.ARCOUNT") CT_arcount; blank;
    blank; blank; blank; mkEntry (str "QUICKJS.EVAL") CT_quickjs_eval; blank; blank; blank; blank; blank;
    blank; blank; mkEntry (str "GOBLIN.RT.HVALS") CT_hvals; mkEntry (str "DECRBY") CT_decrby;
    mkEntry (str "GOBLIN.RT.HINCRBY") CT_hincrby; blank; blank; blank;
    mkEntry (str "GOBLIN.CLASSIC.ARMSET") CT_armset; mkEntry (str "ZMSCORE") CT_zmscore; blank; blank;
    mkEntry (str "ARDEL") CT_ardel; mkEntry (str "ZINTERSTORE") CT_zinterstore; blank; blank;
    mkEntry (str "PEXPIREAT") CT_pexpireat; blank; mkEntry (str "HSETNX") CT_hsetnx;
    mkEntry (str "COMMAND") CT_command; blank; blank; blank; blank; blank; blank;
    mkEntry (str "ZREM") CT_zrem; blank; blank; blank;
    mkEntry (str "GOBLIN.EFFICENT.HINCRBY") CT_hincrby; blank; blank; blank; blank; blank;
    mkEntry (str "ZREVRANGE") CT_zrevrange; mkEntry (str "GOBLIN.FIREHOSE") CT_goblin_firehose;
    mkEntry (str "GOBLIN.CLASSIC.ARMGET") CT_armget; blank; blank; blank; blank; blank; blank; blank;
    blank; blank; blank; blank; mkEntry (str "GOBLIN.MEMORY") CT_goblin_memory; blank; blank; blank;
    blank; blank; mkEntry (str "HDEL") CT_hdel; blank; blank; blank; blank; blank;
    mkEntry (str "SDIFFSTORE") CT_sdiffstore; blank; mkEntry (str "GOBLIN.PMA.LPUSHX") CT_pma_lpushx;
    blank; blank; mkEntry (str "EXPIRETIME") CT_expiretime; mkEntry (str "APPEND") CT_append;
    mkEntry (str "GOBLIN.PMA.RPUSHX") CT_pma_rpushx; blank; blank; blank; blank; blank; blank; blank;
    mkEntry (str "LPUSH") CT_lpush; blank; blank; mkEntry (str "GOBLIN.CLASSIC.ARINSERT") CT_arinsert;
    blank; mkEntry (str "RPUSH") CT_rpush; mkEntry (str "ARSEEK") CT_arseek;
    mkEntry (str "PUBLISH") CT_publish; blank; blank; blank; blank; blank; blank; blank;
    mkEntry (str "GOBLIN.RT.HKEYS") CT_hkeys; blank; blank; blank; blank; mkEntry (str "SCARD") CT_scard;
    blank; blank; blank; blank; blank; mkEntry (str "ZREMRANGEBYSCORE") CT_zremrangebyscore;
    mkEntry (str "ZPOPMAX") CT_zpopmax; blank; blank; blank;
    mkEntry (str "GOBLIN.EFFICENT.HVALS") CT_hvals; blank; blank; blank; blank;
    mkEntry (str "LINDEX") CT_lindex; blank; blank; blank; blank; mkEntry (str "ZRANGE") CT_zrange;
    blank; blank; blank; blank; blank; blank; blank; blank;
    mkEntry (str "GOBLIN.RT.HRANDFIELD") CT_hrandfield; blank; blank; blank; blank; blank; blank; blank;
    blank; blank; blank; mkEntry (str "GOBLIN.DUMPWORLD") CT_goblin_dumpworld; blank; blank; blank;
    mkEntry (str "TOUCH") CT_touch; mkEntry (str "GOBLIN.HCAD") CT_goblin_hcad; blank; blank; blank;
    mkEntry (str "SDIFF") CT_sdiff; blank; blank; blank; blank; blank; blank; blank;
    mkEntry (str "GOBLIN.INCREX") CT_goblin_increx; blank; blank; blank; blank; blank; blank; blank;
    mkEntry (str "ZREVRANGEBYSCORE") CT_zrevrangebyscore; blank; blank; blank;
    mkEntry (str "HSCAN") CT_hscan; blank; blank; blank; blank;
    mkEntry (str "GOBLIN.CLASSIC.ARDEL") CT_ardel; mkEntry (str "ZCOUNT") CT_zcount; blank; blank; blank;
    blank; blank; mkEntry (str "HINCRBYFLOAT") CT_hincrbyfloat; blank; blank;
    mkEntry (str "WATCH") CT_watch; blank; blank; mkEntry (str "RENAMENX") CT_renamenx; blank; blank;
    blank; blank; blank; blank; blank; mkEntry (str "GOBLIN.PMA.LPUSH") CT_pma_lpush; blank; blank;
    blank; mkEntry (str "ZSCAN") CT_zscan; mkEntry (str "GOBLIN.PMA.RPUSH") CT_pma_rpush;
    mkEntry (str "EVALSHA") CT_evalsha; blank; mkEntry (str "UPYTHON.SCRIPT") CT_upython_script; blank;
    blank; mkEntry (str "HEXISTS") CT_hexists; blank; blank; blank; blank; blank; blank; blank; blank;
    blank; blank; blank; blank; mkEntry (str "SINTERCARD") CT_sintercard;
    mkEntry (str "GOBLIN.EFFICENT.HRANDFIELD") CT_hrandfield; blank; blank; blank; blank; blank; blank;
    blank; mkEntry (str "QUICKJS.SCRIPT") CT_quickjs_script;
    mkEntry (str "GOBLIN.OPTIMIZE") CT_goblin_optimize; blank; blank; blank; blank; blank; blank; blank;
    blank; mkEntry (str "RANDOMKEY") CT_randomkey; blank; blank; blank; blank; blank;
    mkEntry (str "GOBLIN.PMA.RPOPLPUSH") CT_pma_rpoplpush;
    mkEntry (str "GOBLIN.CLASSIC.ARSEEK") CT_arseek; blank; blank; blank; blank; blank; blank; blank;
    blank; mkEntry (str "HVALS") CT_hvals; blank; mkEntry (str "HINCRBY") CT_hincrby; blank; blank;
    blank; blank; blank; blank; mkEntry (str "GOBLIN.ZWINDOW") CT_goblin_zwindow; blank; blank;
    mkEntry (str "DISCARD") CT_discard; blank; blank; blank; mkEntry (str "LUAU.SCRIPT") CT_luau_script;
    blank; blank; blank; blank; blank; blank; blank; blank; blank;
    mkEntry (str "ZUNIONSTORE") CT_zunionstore; blank; blank; blank; blank; blank;
    mkEntry (str "ZINCRBY") CT_zincrby; blank; blank; blank; blank; blank; blank; blank; blank; blank;
    blank; blank; blank; blank; mkEntry (str "GOBLIN.INCRBOUND") CT_goblin_incrbound; blank; blank;
    blank; blank; blank; blank; blank; blank; blank; blank; blank; blank; blank; blank; blank; blank;
    blank; blank; blank; blank; blank; blank; blank; blank; blank; blank; blank; blank; blank; blank;
    blank; blank; blank; blank; blank; blank; blank; blank; blank; blank; blank; blank; blank;
    mkEntry (str "HKEYS") CT_hkeys; blank; blank; blank; blank; blank; blank; blank; blank; blank; blank;
    blank; blank; mkEntry (str "ZRANGEBYSCORE") CT_zrangebyscore; blank; blank; blank; blank; blank;
    blank; blank; blank; blank; blank; blank; blank; blank; blank; blank; blank; blank; blank;
    mkEntry (str "UNWATCH") CT_unwatch; blank; blank; mkEntry (str "HRANDFIELD") CT_hrandfield; blank;
    mkEntry (str "WREN.EVALSHA") CT_wren_evalsha; blank; blank; blank; blank; blank; blank; blank; blank;
    blank; blank; blank; blank; blank; blank; blank; blank; blank; blank; blank; blank; blank; blank;
    blank; blank; blank; blank; blank; blank; blank; blank; blank; blank; blank; blank; blank; blank;
    blank; blank; blank; blank; blank; blank; blank; blank; blank; blank; blank; blank; blank; blank;
    blank; blank; blank; blank; blank; blank; blank; blank; blank; blank; blank; blank; blank; blank;
    blank; blank; blank; mkEntry (str "ZRANK") CT_zrank; blank; blank; blank; blank; blank; blank; blank;
    blank; blank; blank; blank; blank; blank; blank; blank; blank; blank; blank;
    mkEntry (str "GOBLIN.TD_LEADERBOARD_RESCORE") CT_goblin_td_leaderboard_rescore;
    mkEntry (str "ZCARD") CT_zcard; blank; blank; blank; blank; blank; blank; blank; blank; blank; blank;
    blank; blank; blank; blank; blank; blank; blank; blank; blank; blank; blank; blank; blank; blank;
    blank; blank; blank; blank; blank; blank; blank; blank; blank; blank; blank; blank; blank; blank;
    blank; blank; blank; blank; blank; blank; blank; blank; blank; blank; blank; blank; blank; blank;
    blank; blank; blank; blank; blank; blank; blank; blank; blank; blank; blank; blank; blank; blank;
    blank; blank; blank; blank; blank; blank; blank; blank; blank; blank; blank; blank; blank; blank;
    blank; blank; blank; blank; blank; blank; blank; blank; blank; blank; blank; blank; blank;
    mkEntry (str "LUAU.EVAL") CT_luau_eval; blank; blank; blank; blank; blank; blank; blank; blank;
    blank; blank; blank; blank; blank; blank; blank; blank; blank; blank; blank;
    mkEntry (str "SADD") CT_sadd; blank; blank; blank; blank; blank; blank; blank; blank; blank; blank;
    blank; blank; blank; blank; blank; blank; blank; blank; blank; blank; blank; blank; blank; blank;
    blank; blank; blank; blank; blank; blank; blank; blank; blank; blank; blank; blank; blank; blank;
    blank; blank; blank; blank; blank; blank; blank; mkEntry (str "ZREMRANGEBYRANK") CT_zremrangebyrank;
    blank; blank; blank; blank; blank; blank; blank; blank; blank; blank; blank; blank; blank; blank;
    blank; blank; blank; blank; blank; mkEntry (str "UPYTHON.EVALSHA") CT_upython_evalsha; blank; blank;
    blank; blank; blank; blank; blank; blank; blank; blank; blank; blank;
    mkEntry (str "ZREVRANK") CT_zrevrank; blank; blank; blank; blank; blank; blank; blank; blank; blank;
    blank; blank; mkEntry (str "QUICKJS.EVALSHA") CT_quickjs_evalsha; blank; blank; blank; blank; blank;
    blank; blank; blank; blank; blank; blank; blank; blank; blank; blank; blank; blank; blank; blank;
    blank; blank; blank; blank; mkEntry (str "AUTH") CT_auth; blank; blank; blank; blank; blank; blank;
    blank; blank; blank; blank; blank; blank; blank; blank; blank; blank; blank; blank; blank; blank;
    blank; blank; blank; blank; blank; blank; blank; blank; blank; blank; blank; blank; blank; blank;
    blank; blank; blank; blank; blank; blank; blank; blank; blank; blank; blank; blank; blank; blank;
    blank; blank; blank; blank; blank; blank; blank; blank; blank; blank; blank; blank; blank; blank;
    blank; blank; blank; blank; blank; blank; blank; blank; blank; blank; blank; blank; blank; blank;
    blank; blank; blank; blank; blank; blank; blank; blank; blank; blank; blank; blank; blank; blank;
    blank; blank; blank; blank; blank; blank; blank; blank; blank; blank; blank; blank; blank; blank;
    blank; blank; blank; blank; blank; blank; blank; blank; blank; blank; blank; blank; blank; blank;
    blank; blank; blank; blank; blank; blank; blank; blank; blank; blank; blank; blank; blank; blank;
    blank; blank; blank; blank; blank; blank; blank; blank; blank; blank; blank; blank; blank; blank;
    blank; blank; blank; blank; blank; blank; blank; blank; blank; blank; blank; blank; blank; blank;
    blank; blank; blank; blank; blank; blank; blank; blank; blank; blank; blank; blank; blank; blank;
    blank; blank; blank; blank; blank; blank; blank; blank; blank; blank; blank; blank; blank; blank;
    blank; blank; blank; blank; blank; blank; blank; blank; blank; blank; blank; blank; blank; blank;
    blank; blank; blank; blank; blank; blank; blank; blank; blank; blank; blank; blank; blank; blank;
    blank; blank; blank; blank; blank; blank; blank; blank; blank; blank; blank; blank; blank; blank;
    blank; blank; blank; blank; blank; blank; blank; blank; blank; blank; blank; blank; blank; blank;
    blank; blank; blank; blank; blank; blank; blank; blank; blank; blank; mkEntry (str "ZADD") CT_zadd;
    blank; blank; blank; blank; blank; blank; blank; blank; blank; blank; blank; blank; blank; blank;
    blank; blank; blank; blank; blank; blank; blank; blank; blank; blank; blank; blank; blank; blank;
    blank; blank; blank; blank; blank; blank; blank; blank; blank; blank; blank; blank; blank; blank;
    blank; blank; blank; blank; blank; blank; blank; blank; blank; blank; blank; blank; blank; blank;
    blank; blank; blank; blank; blank; blank; blank; blank; blank; blank; blank; blank; blank; blank;
    blank; blank; blank; blank; blank; blank; blank; blank; blank; blank; blank; blank; blank; blank;
    blank; blank; blank; blank; blank; blank; blank; blank; blank; blank; blank; blank; blank; blank;
    blank; blank; blank; blank; blank; blank; blank; blank; blank; blank; blank; blank; blank; blank;
    blank; blank; blank; blank; blank; blank; blank; blank; blank; blank; blank; blank; blank; blank;
    blank; blank; blank; blank; blank; blank; blank; blank; blank; blank; blank; blank; blank; blank;
    blank; blank; blank; blank; blank; blank; blank; blank; blank; blank; blank; blank; blank; blank;
    blank; blank; blank; blank; blank; blank; blank; blank; blank; blank; blank; blank; blank; blank;
    blank; blank; blank; blank; blank; blank; blank; blank; blank; blank; blank; blank; blank; blank;
    blank; blank; blank; blank; blank; blank; blank; blank; blank; blank; blank; blank; blank; blank;
    blank; blank; blank; blank; blank; blank; blank; blank; blank; blank; blank; blank; blank; blank;
    blank; blank; blank; blank; blank; blank; blank; blank; blank; blank; blank; blank;
    mkEntry (str "LUAU.EVALSHA") CT_luau_evalsha].

(** ** The hash function and the lookup *)

(** The position of each character a [case] of the switch reads, and the least length that reaches it
    through the fall-through chain; an empty name enters at [default]. *)
Definition hash_positions : list (nat * nat) :=
  [(18, 19); (17, 18); (13, 14); (12, 13); (11, 12); (7, 8); (3, 4); (2, 3); (1, 2); (0, 1)]%nat.

Definition asso (str : bytes) (i : nat) : Z :=
  nth (Z.to_nat (u8 (nth i str x00))) asso_values 0.

(** [CommandDispatch::hash]; at most [29 + 11 * 1773], so the [unsigned int] does not wrap. *)
Definition hash (str : bytes) : Z :=
  let len := length str in
  let hval :=
    foldl (fun hval '(i, least) => if (Nat.eqb len 0) || (Nat.leb least len) then hval + asso str i else hval)
          (Z.of_nat len) hash_positions in
  hval + asso str (len - 1).

(** [CommandDispatch::lookup]: the outer option is [None] when a table would be read out of bounds. *)
Definition lookup (str : bytes) : option (option CommandEntry) :=
  let len := length str in
  if (Nat.leb len MAX_WORD_LENGTH) && (Nat.leb MIN_WORD_LENGTH len) then
    let key := hash str in
    if key <=? MAX_HASH_VALUE then
      n ← lengthtable !! Z.to_nat key;
      if Nat.eqb len n then
        entry ← wordlist !! Z.to_nat key;
        let s := e_name entry in
        if bool_decide (take 1 str = take 1 s) && bool_decide (take (len - 1) (drop 1 str) = take (len - 1) (drop 1 s))
        then Some (Some entry) else Some None
      else Some None
    else Some None
  else Some None.

(** ** Correctness of the table *)

Definition entry_ok (e : CommandEntry) : bool :=
  match e_name e with
  | [] => true
  | n => existsb (fun k => bool_decide (k = (n, e_type e))) keywords
  end.

Lemma wordlist_keywords : forallb entry_ok wordlist = true.
Proof. by vm_compute. Qed.

(** The length table holds the lengths of the words, so [memcmp] stays inside the stored word. *)
Lemma lengthtable_exact : lengthtable = map (fun e => length (e_name e)) wordlist.
Proof. by vm_compute. Qed.

Lemma length_wordlist : Z.of_nat (length wordlist) = MAX_HASH_VALUE + 1.
Proof. by vm_compute. Qed.

Definition entry_of (k : bytes * CommandType) : CommandEntry := mkEntry k.1 k.2.

Lemma keywords_found : forallb (fun k => match lookup k.1 with Some (Some e) => bool_decide (e_name e = k.1 /\ e_type e = k.2) | _ => false end) keywords = true.
Proof. by vm_compute. Qed.

Lemma keyword_lookup k : k ∈ keywords -> lookup k.1 = Some (Some (entry_of k)).
Proof.
  intros Hk%list_elem_of_In. pose proof (proj1 (forallb_forall _ _) keywords_found k Hk) as H. cbv beta in H.
  destruct (lookup k.1) as [[[n t]|]|]; [|done..]. apply bool_decide_eq_true in H as [Hn Ht]. cbn in *. by subst.
Qed.

Lemma asso_values_nonneg : forallb (fun a => 0 <=? a) asso_values = true.
Proof. by vm_compute. Qed.

Lemma asso_nonneg str i : 0 <= asso str i.
Proof.
  unfold asso. destruct (nth_in_or_default (Z.to_nat (u8 (nth i str x00))) asso_values 0) as [H| ->]; [|lia].
  apply Z.leb_le. exact (proj1 (forallb_forall _ _) asso_values_nonneg _ H).
Qed.

Lemma hash_nonneg str : 0 <= hash str.
Proof.
  unfold hash. pose proof (asso_nonneg str (length str - 1)). cut (forall l h, 0 <= h ->
    0 <= foldl (fun hval '(i, least) => if (Nat.eqb (length str) 0) || (Nat.leb least (length str)) then hval + asso str i else hval) h l).
  { intros Hf. specialize (Hf hash_positions (Z.of_nat (length str)) ltac:(lia)). lia. }
  intros l. induction l as [|[i least] l IH]; intros h Hh; cbn [foldl]; [done|]. apply IH.
  pose proof (asso_nonneg str i). destruct (_ || _); lia.
Qed.

Lemma first_and_rest (a b : bytes) :
  take 1 a = take 1 b -> length a = length b -> take (length a - 1) (drop 1 a) = take (length a - 1) (drop 1 b) -> a = b.
Proof.
  destruct a as [|x a], b as [|y b]; intros H1 Hl H2; try done. injection H1 as ->. injection Hl as Hl.
  rewrite !skipn_cons, !drop_0 in H2. replace (length (y :: a) - 1)%nat with (length a) in H2 by (cbn; lia).
  rewrite take_ge in H2 by done. rewrite take_ge in H2 by lia. by subst.
Qed.

(** The lookup never leaves its tables, and finds exactly the keywords. *)
Lemma lookup_spec s : exists r, lookup s = Some r /\ (forall e, r = Some e <-> e_name e = s /\ (s, e_type e) ∈ keywords).
Proof.
  assert (Hin : forall e, e_name e = s -> (s, e_type e) ∈ keywords -> lookup s = Some (Some e)).
  { intros [n t] Hn Hk. cbn in *. subst n. apply (keyword_lookup (s, t) Hk). }
  assert (Hr : exists r, lookup s = Some r /\ (forall e, r = Some e -> e_name e = s /\ (s, e_type e) ∈ keywords)).
  { unfold lookup. destruct (_ && _) eqn:Hlen; [|by eexists]. apply andb_true_iff in Hlen as [_ Hmin].
    destruct (hash s <=? MAX_HASH_VALUE) eqn:Hkey; [|by eexists]. pose proof (hash_nonneg s) as H0.
    assert (Hb : (Z.to_nat (hash s) < length wordlist)%nat) by (pose proof length_wordlist; unfold MAX_HASH_VALUE in *; lia).
    apply lookup_lt_is_Some in Hb as [e He]. rewrite lengthtable_exact, list_lookup_fmap, He. cbn [fmap option_fmap option_map mbind option_bind].
    destruct (Nat.eqb_spec (length s) (length (e_name e))) as [Hl|]; [|by eexists].
    destruct (bool_decide _ && _) eqn:Hc; [|by eexists]. apply andb_true_iff in Hc as [H1%bool_decide_eq_true H2%bool_decide_eq_true].
    exists (Some e). split; [done|]. intros e' [= <-]. assert (Hn : s = e_name e) by (by apply first_and_rest).
    split; [done|]. pose proof (proj1 (forallb_forall _ _) wordlist_keywords e (proj1 (list_elem_of_In _ _) (list_elem_of_lookup_2 _ _ _ He))) as Hok.
    unfold entry_ok in Hok. rewrite Hn. destruct (e_name e) as [|c n] eqn:En; [by rewrite Hl in Hmin|].
    apply existsb_exists in Hok as (k & Hk & ->%bool_decide_eq_true). by apply list_elem_of_In. }
  destruct Hr as (r & Hr & Hs). exists r. split; [done|]. intros e. split; [apply Hs|].
  intros [Hn Hk]. pose proof (Hin e Hn Hk). congruence.
Qed.

(** [lookup] without the bounds bookkeeping. *)
Definition find_entry (s : bytes) : option CommandEntry := default None (lookup s).

Lemma find_entry_spec s e : find_entry s = Some e <-> e_name e = s /\ (s, e_type e) ∈ keywords.
Proof. unfold find_entry. destruct (lookup_spec s) as (r & -> & Hr). apply Hr. Qed.

(** [CommandDispatch::lookup] is a perfect hash of the keyword file: on every name it stays inside
    its tables, it returns an entry for a keyword of [command_hash.gperf] and for nothing else, and the
    entry carries that keyword's command type. *)
Theorem perfect_hash_correct (s : bytes) :
  exists r, lookup s = Some r /\ (forall e, r = Some e <-> e_name e = s /\ (s, e_type e) ∈ keywords).
Proof. apply lookup_spec. Qed.

End Dispatch.
