(* ===== verification/CommandClass.v ===== *)
(** * Command classes

    The tables of [src/command.cpp] that classify a command type: which keyspace
    type it needs, whether it writes, its advertised arity and key positions, and
    the list family a plain list command resolves to. *)

From S2P Require Import Prelude CommandType.
From Stdlib Require Import ZArith Lia.

Local Open Scope Z_scope.

Module Classes.

Definition is_zset_command (type : CommandType) : bool :=
  match type with
  | CT_zadd | CT_zincrby | CT_zcard | CT_zcount | CT_zrange | CT_zrangebyscore | CT_zrevrangebyscore | CT_zrank
  | CT_zrevrange | CT_zrevrank | CT_zrem | CT_zremrangebyscore | CT_zremrangebyrank | CT_zinterstore
  | CT_zunionstore | CT_zmscore | CT_zpopmin | CT_zpopmax | CT_zscan | CT_zscore
  | CT_goblin_td_leaderboard_rescore | CT_goblin_zwindow => true
  | _ => false
  end.

Definition is_packed_zset_command (type : CommandType) : bool :=
  match type with
  | CT_zadd | CT_zincrby | CT_zcard | CT_zcount | CT_zrange | CT_zrangebyscore | CT_zrevrangebyscore | CT_zrank
  | CT_zrevrange | CT_zrevrank | CT_zrem | CT_zremrangebyscore | CT_zremrangebyrank | CT_zinterstore
  | CT_zunionstore | CT_zmscore | CT_zpopmin | CT_zpopmax | CT_zscan | CT_zscore => true
  | _ => false
  end.

Definition is_hash_command (type : CommandType) : bool :=
  match type with
  | CT_hset | CT_hmset | CT_hsetnx | CT_hget | CT_hmget | CT_hdel | CT_hgetall | CT_hkeys | CT_hvals | CT_hlen
  | CT_hexists | CT_hstrlen | CT_hincrby | CT_hincrbyfloat | CT_hrandfield | CT_hscan | CT_goblin_hcad
  | CT_goblin_hsetgt => true
  | _ => false
  end.

Definition is_set_command (type : CommandType) : bool :=
  match type with
  | CT_sadd | CT_srem | CT_scard | CT_sismember | CT_smismember | CT_smembers | CT_spop | CT_srandmember
  | CT_smove | CT_sinter | CT_sunion | CT_sdiff | CT_sscan => true
  | _ => false
  end.

Definition is_array_command (type : CommandType) : bool :=
  match type with
  | CT_arreserve | CT_arset | CT_arget | CT_armset | CT_armget | CT_arlen | CT_arcount | CT_ardel | CT_arinsert
  | CT_arnext | CT_arseek => true
  | _ => false
  end.

Definition is_list_command (type : CommandType) : bool :=
  match type with
  | CT_lpush | CT_rpush | CT_lpushx | CT_rpushx | CT_lpop | CT_rpop | CT_lmove | CT_rpoplpush | CT_blpop
  | CT_brpop | CT_blmove | CT_lmpop | CT_blmpop | CT_llen | CT_lindex | CT_lrange | CT_lset | CT_ltrim
  | CT_lrem | CT_linsert | CT_pma_lpush | CT_pma_rpush | CT_pma_lpushx | CT_pma_rpushx | CT_pma_lpop
  | CT_pma_rpop | CT_pma_lmove | CT_pma_rpoplpush | CT_pma_blpop | CT_pma_brpop | CT_pma_blmove | CT_pma_lmpop
  | CT_pma_blmpop | CT_pma_llen | CT_pma_lindex | CT_pma_lrange | CT_pma_lset | CT_pma_ltrim | CT_pma_lrem
  | CT_pma_linsert | CT_segmented_lpush | CT_segmented_rpush | CT_segmented_lpushx | CT_segmented_rpushx
  | CT_segmented_lpop | CT_segmented_rpop | CT_segmented_lmove | CT_segmented_rpoplpush | CT_segmented_blpop
  | CT_segmented_brpop | CT_segmented_blmove | CT_segmented_lmpop | CT_segmented_blmpop | CT_segmented_llen
  | CT_segmented_lindex | CT_segmented_lrange | CT_segmented_lset | CT_segmented_ltrim | CT_segmented_lrem
  | CT_segmented_linsert => true
  | _ => false
  end.

(** [enum class ListImplementation] and the family a plain list command runs as. *)
Inductive ListImplementation := Pma | Segmented.

Definition resolve_segmented (type : CommandType) : CommandType :=
  match type with
  | CT_lpush => CT_segmented_lpush
  | CT_rpush => CT_segmented_rpush
  | CT_lpushx => CT_segmented_lpushx
  | CT_rpushx => CT_segmented_rpushx
  | CT_lpop => CT_segmented_lpop
  | CT_rpop => CT_segmented_rpop
  | CT_lmove => CT_segmented_lmove
  | CT_rpoplpush => CT_segmented_rpoplpush
  | CT_blpop => CT_segmented_blpop
  | CT_brpop => CT_segmented_brpop
  | CT_blmove => CT_segmented_blmove
  | CT_lmpop => CT_segmented_lmpop
  | CT_blmpop => CT_segmented_blmpop
  | CT_llen => CT_segmented_llen
  | CT_lindex => CT_segmented_lindex
  | CT_lrange => CT_segmented_lrange
  | CT_lset => CT_segmented_lset
  | CT_ltrim => CT_segmented_ltrim
  | CT_lrem => CT_segmented_lrem
  | CT_linsert => CT_segmented_linsert
  | _ => type
  end.

Definition resolve_pma (type : CommandType) : CommandType :=
  match type with
  | CT_lpush => CT_pma_lpush
  | CT_rpush => CT_pma_rpush
  | CT_lpushx => CT_pma_lpushx
  | CT_rpushx => CT_pma_rpushx
  | CT_lpop => CT_pma_lpop
  | CT_rpop => CT_pma_rpop
  | CT_lmove => CT_pma_lmove
  | CT_rpoplpush => CT_pma_rpoplpush
  | CT_blpop => CT_pma_blpop
  | CT_brpop => CT_pma_brpop
  | CT_blmove => CT_pma_blmove
  | CT_lmpop => CT_pma_lmpop
  | CT_blmpop => CT_pma_blmpop
  | CT_llen => CT_pma_llen
  | CT_lindex => CT_pma_lindex
  | CT_lrange => CT_pma_lrange
  | CT_lset => CT_pma_lset
  | CT_ltrim => CT_pma_ltrim
  | CT_lrem => CT_pma_lrem
  | CT_linsert => CT_pma_linsert
  | _ => type
  end.

Definition resolve_list_command (type : CommandType) (implementation : ListImplementation) : CommandType :=
  match implementation with Segmented => resolve_segmented type | Pma => resolve_pma type end.

Definition is_typed_string_command (type : CommandType) : bool :=
  match type with
  | CT_getset | CT_getex | CT_getdel | CT_strlen | CT_append | CT_incr | CT_decr | CT_incrby | CT_decrby
  | CT_incrbyfloat | CT_getrange | CT_setrange | CT_goblin_cad | CT_goblin_caexpire | CT_goblin_cas
  | CT_goblin_increx | CT_goblin_incrbound | CT_goblin_decrpos => true
  | _ => false
  end.

Definition command_mutates_store (type : CommandType) : bool :=
  match type with
  | CT_zadd | CT_zincrby | CT_zpopmin | CT_zpopmax | CT_zrem | CT_zremrangebyscore | CT_zremrangebyrank
  | CT_zinterstore | CT_zunionstore | CT_hset | CT_hmset | CT_hsetnx | CT_hdel | CT_hincrby | CT_hincrbyfloat
  | CT_sadd | CT_srem | CT_spop | CT_smove | CT_sinterstore | CT_sunionstore | CT_sdiffstore | CT_arreserve
  | CT_arset | CT_armset | CT_ardel | CT_arinsert | CT_arseek | CT_lpush | CT_rpush | CT_lpushx | CT_rpushx
  | CT_lpop | CT_rpop | CT_lmove | CT_rpoplpush | CT_blpop | CT_brpop | CT_blmove | CT_lmpop | CT_blmpop
  | CT_lset | CT_ltrim | CT_lrem | CT_linsert | CT_pma_lpush | CT_pma_rpush | CT_pma_lpushx | CT_pma_rpushx
  | CT_pma_lpop | CT_pma_rpop | CT_pma_lmove | CT_pma_rpoplpush | CT_pma_blpop | CT_pma_brpop | CT_pma_blmove
  | CT_pma_lmpop | CT_pma_blmpop | CT_pma_lset | CT_pma_ltrim | CT_pma_lrem | CT_pma_linsert
  | CT_segmented_lpush | CT_segmented_rpush | CT_segmented_lpushx | CT_segmented_rpushx | CT_segmented_lpop
  | CT_segmented_rpop | CT_segmented_lmove | CT_segmented_rpoplpush | CT_segmented_blpop | CT_segmented_brpop
  | CT_segmented_blmove | CT_segmented_lmpop | CT_segmented_blmpop | CT_segmented_lset | CT_segmented_ltrim
  | CT_segmented_lrem | CT_segmented_linsert | CT_set | CT_getset | CT_setnx | CT_getex | CT_getdel | CT_append
  | CT_incr | CT_decr | CT_incrby | CT_decrby | CT_incrbyfloat | CT_setrange | CT_mset | CT_msetnx | CT_del
  | CT_rename | CT_renamenx | CT_copy | CT_expire | CT_pexpire | CT_expireat | CT_pexpireat | CT_persist
  | CT_goblin_cad | CT_goblin_caexpire | CT_goblin_cas | CT_goblin_increx | CT_goblin_zwindow
  | CT_goblin_incrbound | CT_goblin_decrpos | CT_goblin_hcad | CT_goblin_hsetgt | CT_goblin_claim => true
  | _ => false
  end.

Definition command_arity (type : CommandType) : Z :=
  match type with
  | CT_quit | CT_multi | CT_exec | CT_discard | CT_unwatch | CT_time | CT_role | CT_goblin_firehose | CT_dbsize
  | CT_randomkey => 1
  | CT_goblin_dumpworld => (-1)
  | CT_select | CT_echo | CT_get | CT_getdel | CT_strlen | CT_incr | CT_decr | CT_key_type | CT_ttl | CT_pttl
  | CT_persist | CT_expiretime | CT_pexpiretime | CT_zcard | CT_hlen | CT_hgetall | CT_hkeys | CT_hvals
  | CT_scard | CT_smembers | CT_llen | CT_pma_llen | CT_segmented_llen | CT_arlen | CT_arcount | CT_arnext
  | CT_goblin_memory | CT_goblin_load | CT_goblin_decrpos => 2
  | CT_setnx | CT_getset | CT_append | CT_incrby | CT_decrby | CT_incrbyfloat | CT_hget | CT_hexists
  | CT_hstrlen | CT_sismember | CT_lindex | CT_pma_lindex | CT_segmented_lindex | CT_zscore | CT_zrank
  | CT_zrevrank | CT_publish | CT_arget | CT_arseek | CT_goblin_cad | CT_goblin_increx | CT_rpoplpush
  | CT_pma_rpoplpush | CT_segmented_rpoplpush | CT_rename | CT_renamenx => 3
  | CT_getrange | CT_setrange | CT_hincrby | CT_hincrbyfloat | CT_hsetnx | CT_lset | CT_lrem | CT_pma_lset
  | CT_pma_lrem | CT_segmented_lset | CT_segmented_lrem | CT_lrange | CT_pma_lrange | CT_segmented_lrange
  | CT_ltrim | CT_pma_ltrim | CT_segmented_ltrim | CT_smove | CT_zincrby | CT_zcount | CT_zremrangebyscore
  | CT_zremrangebyrank | CT_expire | CT_pexpire | CT_expireat | CT_pexpireat | CT_goblin_caexpire
  | CT_goblin_cas | CT_goblin_incrbound | CT_goblin_hcad | CT_goblin_hsetgt => 4
  | CT_arreserve | CT_linsert | CT_pma_linsert | CT_segmented_linsert | CT_goblin_claim | CT_lmove
  | CT_pma_lmove | CT_segmented_lmove => 5
  | CT_goblin_td_leaderboard_rescore | CT_goblin_zwindow | CT_blmove | CT_pma_blmove | CT_segmented_blmove => 6
  | CT_ping | CT_info | CT_command | CT_hello | CT_unsubscribe | CT_punsubscribe | CT_goblin_save => (-1)
  | CT_auth | CT_config | CT_client | CT_watch | CT_subscribe | CT_psubscribe | CT_pubsub | CT_spop
  | CT_srandmember | CT_hrandfield | CT_getex | CT_touch | CT_sinter | CT_sunion | CT_sdiff | CT_mget | CT_del
  | CT_exists | CT_scan | CT_goblin_optimize => (-2)
  | CT_eval | CT_evalsha | CT_luau_eval | CT_luau_evalsha | CT_wren_eval | CT_wren_evalsha | CT_tcl_eval
  | CT_tcl_evalsha | CT_upython_eval | CT_upython_evalsha | CT_quickjs_eval | CT_quickjs_evalsha | CT_zrem
  | CT_zmscore | CT_zscan | CT_hscan | CT_hmget | CT_hdel | CT_sadd | CT_srem | CT_smismember | CT_sinterstore
  | CT_sintercard | CT_sunionstore | CT_sdiffstore | CT_sscan | CT_armget | CT_ardel | CT_arinsert | CT_lpush
  | CT_rpush | CT_lpushx | CT_rpushx | CT_pma_lpush | CT_pma_rpush | CT_pma_lpushx | CT_pma_rpushx
  | CT_segmented_lpush | CT_segmented_rpush | CT_segmented_lpushx | CT_segmented_rpushx | CT_set | CT_mset
  | CT_msetnx | CT_copy | CT_blpop | CT_brpop | CT_pma_blpop | CT_pma_brpop | CT_segmented_blpop
  | CT_segmented_brpop => (-3)
  | CT_lmpop | CT_pma_lmpop | CT_segmented_lmpop => (-4)
  | CT_blmpop | CT_pma_blmpop | CT_segmented_blmpop => (-5)
  | CT_script | CT_luau_script | CT_wren_script | CT_tcl_script | CT_upython_script | CT_quickjs_script => (-2)
  | CT_zadd | CT_hset | CT_hmset | CT_zinterstore | CT_zunionstore | CT_arset | CT_armset => (-4)
  | CT_zrange | CT_zrangebyscore | CT_zrevrangebyscore | CT_zrevrange => (-4)
  | CT_zpopmin | CT_zpopmax | CT_lpop | CT_rpop | CT_pma_lpop | CT_pma_rpop | CT_segmented_lpop
  | CT_segmented_rpop => (-2)
  | CT_unknown => 0
  end.

Definition connection_command (type : CommandType) : bool :=
  match type with
  | CT_auth | CT_hello | CT_command | CT_client | CT_select | CT_quit | CT_ping | CT_echo => true
  | _ => false
  end.

Definition scripting_command (type : CommandType) : bool :=
  match type with
  | CT_eval | CT_evalsha | CT_script | CT_luau_eval | CT_luau_evalsha | CT_luau_script | CT_wren_eval
  | CT_wren_evalsha | CT_wren_script | CT_tcl_eval | CT_tcl_evalsha | CT_tcl_script | CT_upython_eval
  | CT_upython_evalsha | CT_upython_script | CT_quickjs_eval | CT_quickjs_evalsha | CT_quickjs_script => true
  | _ => false
  end.

Definition transaction_command (type : CommandType) : bool :=
  ct_eqb type CT_multi || ct_eqb type CT_exec || ct_eqb type CT_discard || ct_eqb type CT_watch || ct_eqb type CT_unwatch.

Definition command_may_write (type : CommandType) : bool :=
  if command_mutates_store type || ct_eqb type CT_goblin_load then true
  else
    match type with
    | CT_eval | CT_evalsha | CT_luau_eval | CT_luau_evalsha | CT_wren_eval | CT_wren_evalsha | CT_tcl_eval
    | CT_tcl_evalsha | CT_upython_eval | CT_upython_evalsha | CT_quickjs_eval | CT_quickjs_evalsha => true
    | _ => false
    end.

(** [enum class KeyType]. *)
Inductive KeyType := KT_String | KT_Zset | KT_Hash | KT_List | KT_Set | KT_Array | KT_PackedZset.

Definition command_requires_type (type : CommandType) : option KeyType :=
  if is_zset_command type then
    if ct_eqb type CT_zinterstore || ct_eqb type CT_zunionstore then None else Some KT_Zset
  else if is_hash_command type then Some KT_Hash
  else if is_set_command type then Some KT_Set
  else if is_array_command type then Some KT_Array
  else if is_list_command type then
    match type with
    | CT_lmpop | CT_blmpop | CT_pma_lmpop | CT_pma_blmpop | CT_segmented_lmpop | CT_segmented_blmpop => None
    | _ => Some KT_List
    end
  else if is_typed_string_command type then Some KT_String
  else None.

Definition command_has_key_arg (type : CommandType) : bool :=
  if bool_decide (is_Some (command_requires_type type)) then true
  else
    match type with
    | CT_get | CT_set | CT_setnx | CT_mset | CT_msetnx | CT_mget | CT_del | CT_exists | CT_rename | CT_renamenx
    | CT_copy | CT_touch | CT_key_type | CT_expire | CT_pexpire | CT_expireat | CT_pexpireat | CT_ttl | CT_pttl
    | CT_persist | CT_expiretime | CT_pexpiretime | CT_goblin_memory | CT_goblin_optimize
    | CT_sinterstore | CT_sunionstore | CT_sdiffstore | CT_zinterstore | CT_zunionstore => true
    | _ => false
    end.

(** [struct CommandKeyRange]. *)
Record CommandKeyRange := mkRange { kr_first : Z; kr_last : Z; kr_step : Z }.

Definition command_key_range (type : CommandType) : CommandKeyRange :=
  match type with
  | CT_eval | CT_evalsha | CT_luau_eval | CT_luau_evalsha | CT_wren_eval | CT_wren_evalsha | CT_tcl_eval
  | CT_tcl_evalsha | CT_upython_eval | CT_upython_evalsha | CT_quickjs_eval | CT_quickjs_evalsha => mkRange 3 (-1) 1
  | CT_sintercard => mkRange 2 (-1) 1
  | CT_mset | CT_msetnx => mkRange 1 (-1) 2
  | CT_mget | CT_del | CT_exists | CT_touch | CT_sinter | CT_sunion | CT_sdiff | CT_sinterstore | CT_sunionstore
  | CT_sdiffstore => mkRange 1 (-1) 1
  | CT_rename | CT_renamenx | CT_copy => mkRange 1 2 1
  | CT_zinterstore | CT_zunionstore => mkRange 1 1 1
  | CT_smove => mkRange 1 2 1
  | CT_lmove | CT_rpoplpush | CT_blmove | CT_pma_lmove | CT_pma_rpoplpush | CT_pma_blmove | CT_segmented_lmove
  | CT_segmented_rpoplpush | CT_segmented_blmove => mkRange 1 2 1
  | CT_blpop | CT_brpop | CT_pma_blpop | CT_pma_brpop | CT_segmented_blpop | CT_segmented_brpop => mkRange 1 (-2) 1
  | CT_lmpop | CT_blmpop | CT_pma_lmpop | CT_pma_blmpop | CT_segmented_lmpop | CT_segmented_blmpop => mkRange 0 0 0
  | CT_watch => mkRange 1 (-1) 1
  | _ => if command_has_key_arg type then mkRange 1 1 1 else mkRange 0 0 0
  end.

(** The absolute expiry of the EXPIRE family: the intermediate is 128 bits wide. *)
Definition compute_when_ms (base_ms amount unit_ms : Z) : option Z :=
  let when := base_ms + amount * unit_ms in
  if when <? 0 then Some 0 else if 2 ^ 48 <=? when then None else Some (u64 when).

(** ** Facts about the classes *)

(** The 128-bit intermediate holds every sum of the operands' ranges, so the model's unbounded sum is it. *)
Lemma when_fits base amount unit_ms :
  0 <= base < 2 ^ 64 -> i64_min <= amount <= i64_max -> i64_min <= unit_ms <= i64_max -> - 2 ^ 127 <= base + amount * unit_ms < 2 ^ 127.
Proof. unfold i64_min, i64_max. intros. nia. Qed.

(** An expiry time is computed without overflow: a time before the epoch becomes 0, one past the
    48-bit range of the expiry set is refused, and any other is the exact sum. *)
Theorem compute_when_ms_exact (base_ms amount unit_ms : Z) :
  0 <= base_ms < 2 ^ 64 -> i64_min <= amount <= i64_max -> i64_min <= unit_ms <= i64_max ->
  - 2 ^ 127 <= base_ms + amount * unit_ms < 2 ^ 127 /\
  match compute_when_ms base_ms amount unit_ms with
  | Some w => 0 <= w < 2 ^ 48 /\ w = Z.max 0 (base_ms + amount * unit_ms)
  | None => 2 ^ 48 <= base_ms + amount * unit_ms
  end.
Proof.
  intros Hb Ha Hu. split; [by apply when_fits|]. unfold compute_when_ms.
  repeat case_bool; try lia. rewrite wrap_small by lia. lia.
Qed.

Lemma compute_when_ms_exact_witness :
  compute_when_ms 1700000000000 (-9223372036854775808) 1000 = Some 0 /\
  - 2 ^ 127 <= 1700000000000 + (-9223372036854775808) * 1000 < 2 ^ 127.
Proof.
  split; [reflexivity|]. apply (compute_when_ms_exact 1700000000000 (-9223372036854775808) 1000); unfold i64_min, i64_max; lia.
Defined.

(** A plain list command resolves to the family of the configured implementation, every other command to
    itself, and the class of the command is unchanged. *)
Lemma resolve_preserves (t : CommandType) (i : ListImplementation) :
  let t' := resolve_list_command t i in
  is_list_command t' = is_list_command t /\ command_mutates_store t' = command_mutates_store t /\
  command_requires_type t' = command_requires_type t /\ command_arity t' = command_arity t /\
  command_key_range t' = command_key_range t /\ resolve_list_command t' i = t'.
Proof. destruct t, i; vm_compute; repeat split; reflexivity. Qed.

(** Resolving a plain list command to the family of the configured list implementation is idempotent
    and changes neither whether the command writes, the keyspace type it needs, its arity, its key
    positions, nor whether it is a list command. *)
Theorem resolve_list_command_sound (t : CommandType) (i : ListImplementation) :
  let t' := resolve_list_command t i in
  is_list_command t' = is_list_command t /\ command_mutates_store t' = command_mutates_store t /\
  command_requires_type t' = command_requires_type t /\ command_arity t' = command_arity t /\
  command_key_range t' = command_key_range t /\ resolve_list_command t' i = t'.
Proof. apply resolve_preserves. Qed.

(** A command that requires a keyspace type takes its key first, whatever class it is in. *)
Lemma requires_type_has_key t k : command_requires_type t = Some k -> command_has_key_arg t = true.
Proof. intros H. unfold command_has_key_arg. rewrite H. by rewrite bool_decide_eq_true_2. Qed.

End Classes.
