(* ===== verification/CommandParse.v ===== *)
(** * Parsing commands

    [parse_command] and [lookup_command_type] of [src/command.cpp]: the resolution of
    a command name (ordinary names through the perfect hash, the packed sorted-set
    names through their prefix), the arity checks of every command, and the options
    that are parsed before a command runs (ranges, list sides, key counts,
    timeouts).  A parse is [None] when the code would read an argument that is not
    there; otherwise it is an error reply or a command. *)

From S2P Require Import Prelude ParseInt CommandType CommandTable CommandClass.
From Stdlib Require Import ZArith Lia ZifyBool SpecFloat.

Import Dispatch Classes.

Local Open Scope Z_scope.

(** ** Characters and names *)

Module Names.

Definition ascii_upper_char (value : byte) : byte :=
  if (97 <=? u8 value) && (u8 value <=? 122) then b8 (u8 value - 32) else value.

Fixpoint equals_ci (lhs rhs : bytes) : bool :=
  match lhs, rhs with
  | [], [] => true
  | a :: lhs, b :: rhs => bool_decide (ascii_upper_char a = ascii_upper_char b) && equals_ci lhs rhs
  | _, _ => false
  end.

Definition starts_with_ci (value prefix : bytes) : bool :=
  Nat.leb (length prefix) (length value) && equals_ci (take (length prefix) value) prefix.

(** [enum class PackedZSetKind] by its values 1 to 6. *)
Definition kPackedZSetPrefixes : list (bytes * Z) :=
  [(str "GOBLIN.PACKED_INT32_FLOAT32.", 1); (str "GOBLIN.PACKED_INT32_FLOAT64.", 2);
   (str "GOBLIN.PACKED_INT64_FLOAT32.", 3); (str "GOBLIN.PACKED_INT64_FLOAT64.", 4);
   (str "GOBLIN.PACKED_UUID_FLOAT32.", 5); (str "GOBLIN.PACKED_UUID_FLOAT64.", 6)].

Definition kPackedZSetCommandSuffixes : list bytes :=
  [str "ZADD"; str "ZINCRBY"; str "ZCARD"; str "ZCOUNT"; str "ZRANGE"; str "ZRANGEBYSCORE"; str "ZREVRANGEBYSCORE";
   str "ZRANK"; str "ZREVRANGE"; str "ZREVRANK"; str "ZREM"; str "ZREMRANGEBYSCORE"; str "ZREMRANGEBYRANK";
   str "ZINTERSTORE"; str "ZUNIONSTORE"; str "ZMSCORE"; str "ZPOPMIN"; str "ZPOPMAX"; str "ZSCAN"; str "ZSCORE"].

Fixpoint packed_name_in (prefixes : list (bytes * Z)) (name : bytes) : option (Z * bytes) :=
  match prefixes with
  | [] => None
  | (prefix, kind) :: prefixes =>
      if starts_with_ci name prefix && Nat.ltb (length prefix) (length name)
      then Some (kind, drop (length prefix) name)
      else packed_name_in prefixes name
  end.

Definition packed_zset_command_name (name : bytes) : option (Z * bytes) := packed_name_in kPackedZSetPrefixes name.

(** [enum class HashImplementation]. *)
Inductive HashImplementation := Efficient | Realtime.

Definition qualified_hash_implementation (command_name : bytes) : option HashImplementation :=
  if starts_with_ci command_name (str "GOBLIN.RT.") then Some Realtime
  else if starts_with_ci command_name (str "GOBLIN.EFFICENT.") then Some Efficient
  else None.

(** The upper-cased copy of a name; the rest of the 32-byte buffer is zero. *)
Definition upper (name : bytes) : bytes := map ascii_upper_char name.

(** The lookup both entry points make on a dispatch name: the entry, unless the name came with a packed
    prefix and the command has no packed form. *)
Definition dispatch_entry (packed : bool) (dispatch_name : bytes) : option CommandEntry :=
  match find_entry (upper dispatch_name) with
  | Some entry => if packed && negb (is_packed_zset_command (e_type entry)) then None else Some entry
  | None => None
  end.

Definition lookup_command_type (name : bytes) : CommandType :=
  let packed := packed_zset_command_name name in
  let dispatch_name := match packed with Some (_, suffix) => suffix | None => name end in
  if Nat.ltb 31 (length dispatch_name) then CT_unknown
  else
    match dispatch_entry (bool_decide (is_Some packed)) dispatch_name with
    | Some entry => e_type entry
    | None => CT_unknown
    end.

End Names.

Import Names.

(** ** Numbers *)

Module Score.

(** [double] is binary64. *)
Abbreviation prec := 53 (only parsing).
Abbreviation emax := 1024 (only parsing).

Fixpoint span_digits (l : bytes) : bytes * bytes :=
  match l with
  | c :: l' => if is_digit c then let '(d, r) := span_digits l' in (c :: d, r) else ([], l)
  | [] => ([], [])
  end.

(** The value [m * 10^e], correctly rounded to nearest, ties to even.  The first two cases are out of
    the range of a [double] whatever the digits are; they keep the power of ten small. *)
Definition round_decimal (neg : bool) (m : Z) (digit_count e : Z) : spec_float :=
  if m =? 0 then S754_zero neg
  else if 400 <? digit_count + e then S754_infinity neg
  else if digit_count + e <? -400 then S754_zero neg
  else if 0 <=? e then binary_normalize prec emax (if neg then - (m * 10 ^ e) else m * 10 ^ e) 0 neg
  else let '(q, e', loc) := SFdiv_core_binary prec emax m 0 (10 ^ (- e)) 0 in
       binary_round_aux prec emax neg q e' loc.

(** The decimal forms [std::from_chars] reads for a [double]: an optional minus sign, digits with an
    optional point, and an optional exponent.  [None] when the text is not one number. *)
Definition parse_decimal (text : bytes) : option (bool * bytes * bytes * Z) :=
  let neg := is_minus text in
  let '(ip, rest) := span_digits (if neg then tail text else text) in
  let '(fp, rest) := match rest with "."%byte :: r => span_digits r | _ => ([], rest) end in
  match ip ++ fp with
  | [] => None
  | _ =>
      match rest with
      | [] => Some (neg, ip, fp, 0)
      | c :: r =>
          if bool_decide (c = "e"%byte) || bool_decide (c = "E"%byte) then
            let eneg := is_minus r in
            let '(ed, rest) := span_digits (match r with "+"%byte :: r' | "-"%byte :: r' => r' | _ => r end) in
            match ed, rest with
            | _ :: _, [] => Some (neg, ip, fp, if eneg then - dec_val ed else dec_val ed)
            | _, _ => None
            end
          else None
      end
  end.

(** [std::from_chars] on a whole text: a value whose rounding overflows, or is zero although the number
    is not, is out of range; "inf" and "nan" are read but are not finite. *)
Definition parse_score (text : bytes) : option spec_float :=
  match parse_decimal text with
  | None => None
  | Some (neg, ip, fp, e) =>
      let ds := ip ++ fp in
      let m := dec_val ds in
      match round_decimal neg m (Z.of_nat (length (skip_zeros ds))) (e - Z.of_nat (length fp)) with
      | S754_zero s => if m =? 0 then Some (S754_zero s) else None
      | S754_finite s p ex => Some (S754_finite s p ex)
      | S754_infinity _ | S754_nan => None
      end
  end.

Definition parse_zset_score (text : bytes) : option spec_float :=
  if equals_ci text (str "-inf") then Some (S754_infinity true)
  else if equals_ci text (str "+inf") || equals_ci text (str "inf") then Some (S754_infinity false)
  else parse_score text.

(** [struct ScoreBound]. *)
Record ScoreBound := mkBound { b_value : spec_float; b_exclusive : bool }.

Definition parse_score_bound (text : bytes) : option ScoreBound :=
  let '(exclusive, text) := match text with "("%byte :: r => (true, r) | _ => (false, text) end in
  if equals_ci text (str "-inf") then Some (mkBound (S754_infinity true) exclusive)
  else if equals_ci text (str "+inf") || equals_ci text (str "inf") then Some (mkBound (S754_infinity false) exclusive)
  else value ← parse_score text; Some (mkBound value exclusive).

Example score_tenth : parse_score (str "0.1") = Some (S754_finite false 7205759403792794 (-56)).
Proof. reflexivity. Qed.
Example score_min : parse_score (str "-5e-324") = Some (S754_finite true 1 (-1074)).
Proof. reflexivity. Qed.
Example score_max : parse_score (str "1.7976931348623157e308") = Some (S754_finite false 9007199254740991 971).
Proof. reflexivity. Qed.
Example score_over : parse_score (str "1.8e308") = None /\ parse_score (str "1e99999999999") = None.
Proof. split; reflexivity. Qed.
Example score_under : parse_score (str "1e-400") = None /\ parse_score (str "0e-99999") = Some (S754_zero false).
Proof. split; reflexivity. Qed.
Example score_bad : map parse_score [str ""; str "."; str "1e"; str "1x"; str "+1"; str "inf"] = [None; None; None; None; None; None].
Proof. reflexivity. Qed.

End Score.

Import Score.

(** ** Commands *)

Module Parse.

(** Assignments to the fields of the command being built. *)
Definition with_type (type : CommandType) (c : Command) : Command :=
  {| c_type := type; c_name := c_name c; c_args := c_args c; c_with_scores := c_with_scores c;
     c_range_indexes_parsed := c_range_indexes_parsed c; c_range_start := c_range_start c; c_range_stop := c_range_stop c; c_range_by_score := c_range_by_score c;
     c_range_reverse := c_range_reverse c; c_range_has_limit := c_range_has_limit c; c_range_limit_offset := c_range_limit_offset c; c_range_limit_count := c_range_limit_count c;
     c_background_save := c_background_save c; c_list_key_offset := c_list_key_offset c; c_list_key_count := c_list_key_count c; c_list_count := c_list_count c;
     c_list_timeout_seconds := c_list_timeout_seconds c; c_list_pop_front := c_list_pop_front c; c_list_push_front := c_list_push_front c; c_hash_implementation_tag := c_hash_implementation_tag c;
     c_packed_zset_kind := c_packed_zset_kind c |}.

Definition with_with_scores (b : bool) (c : Command) : Command :=
  {| c_type := c_type c; c_name := c_name c; c_args := c_args c; c_with_scores := b;
     c_range_indexes_parsed := c_range_indexes_parsed c; c_range_start := c_range_start c; c_range_stop := c_range_stop c; c_range_by_score := c_range_by_score c;
     c_range_reverse := c_range_reverse c; c_range_has_limit := c_range_has_limit c; c_range_limit_offset := c_range_limit_offset c; c_range_limit_count := c_range_limit_count c;
     c_background_save := c_background_save c; c_list_key_offset := c_list_key_offset c; c_list_key_count := c_list_key_count c; c_list_count := c_list_count c;
     c_list_timeout_seconds := c_list_timeout_seconds c; c_list_pop_front := c_list_pop_front c; c_list_push_front := c_list_push_front c; c_hash_implementation_tag := c_hash_implementation_tag c;
     c_packed_zset_kind := c_packed_zset_kind c |}.

Definition with_range_indexes (parsed : bool) (start : Z) (stop : Z) (c : Command) : Command :=
  {| c_type := c_type c; c_name := c_name c; c_args := c_args c; c_with_scores := c_with_scores c;
     c_range_indexes_parsed := parsed; c_range_start := start; c_range_stop := stop; c_range_by_score := c_range_by_score c;
     c_range_reverse := c_range_reverse c; c_range_has_limit := c_range_has_limit c; c_range_limit_offset := c_range_limit_offset c; c_range_limit_count := c_range_limit_count c;
     c_background_save := c_background_save c; c_list_key_offset := c_list_key_offset c; c_list_key_count := c_list_key_count c; c_list_count := c_list_count c;
     c_list_timeout_seconds := c_list_timeout_seconds c; c_list_pop_front := c_list_pop_front c; c_list_push_front := c_list_push_front c; c_hash_implementation_tag := c_hash_implementation_tag c;
     c_packed_zset_kind := c_packed_zset_kind c |}.

Definition with_range_by_score (b : bool) (c : Command) : Command :=
  {| c_type := c_type c; c_name := c_name c; c_args := c_args c; c_with_scores := c_with_scores c;
     c_range_indexes_parsed := c_range_indexes_parsed c; c_range_start := c_range_start c; c_range_stop := c_range_stop c; c_range_by_score := b;
     c_range_reverse := c_range_reverse c; c_range_has_limit := c_range_has_limit c; c_range_limit_offset := c_range_limit_offset c; c_range_limit_count := c_range_limit_count c;
     c_background_save := c_background_save c; c_list_key_offset := c_list_key_offset c; c_list_key_count := c_list_key_count c; c_list_count := c_list_count c;
     c_list_timeout_seconds := c_list_timeout_seconds c; c_list_pop_front := c_list_pop_front c; c_list_push_front := c_list_push_front c; c_hash_implementation_tag := c_hash_implementation_tag c;
     c_packed_zset_kind := c_packed_zset_kind c |}.

Definition with_range_reverse (b : bool) (c : Command) : Command :=
  {| c_type := c_type c; c_name := c_name c; c_args := c_args c; c_with_scores := c_with_scores c;
     c_range_indexes_parsed := c_range_indexes_parsed c; c_range_start := c_range_start c; c_range_stop := c_range_stop c; c_range_by_score := c_range_by_score c;
     c_range_reverse := b; c_range_has_limit := c_range_has_limit c; c_range_limit_offset := c_range_limit_offset c; c_range_limit_count := c_range_limit_count c;
     c_background_save := c_background_save c; c_list_key_offset := c_list_key_offset c; c_list_key_count := c_list_key_count c; c_list_count := c_list_count c;
     c_list_timeout_seconds := c_list_timeout_seconds c; c_list_pop_front := c_list_pop_front c; c_list_push_front := c_list_push_front c; c_hash_implementation_tag := c_hash_implementation_tag c;
     c_packed_zset_kind := c_packed_zset_kind c |}.

Definition with_range_limit (has : bool) (offset : Z) (count : Z) (c : Command) : Command :=
  {| c_type := c_type c; c_name := c_name c; c_args := c_args c; c_with_scores := c_with_scores c;
     c_range_indexes_parsed := c_range_indexes_parsed c; c_range_start := c_range_start c; c_range_stop := c_range_stop c; c_range_by_score := c_range_by_score c;
     c_range_reverse := c_range_reverse c; c_range_has_limit := has; c_range_limit_offset := offset; c_range_limit_count := count;
     c_background_save := c_background_save c; c_list_key_offset := c_list_key_offset c; c_list_key_count := c_list_key_count c; c_list_count := c_list_count c;
     c_list_timeout_seconds := c_list_timeout_seconds c; c_list_pop_front := c_list_pop_front c; c_list_push_front := c_list_push_front c; c_hash_implementation_tag := c_hash_implementation_tag c;
     c_packed_zset_kind := c_packed_zset_kind c |}.

Definition with_background_save (b : bool) (c : Command) : Command :=
  {| c_type := c_type c; c_name := c_name c; c_args := c_args c; c_with_scores := c_with_scores c;
     c_range_indexes_parsed := c_range_indexes_parsed c; c_range_start := c_range_start c; c_range_stop := c_range_stop c; c_range_by_score := c_range_by_score c;
     c_range_reverse := c_range_reverse c; c_range_has_limit := c_range_has_limit c; c_range_limit_offset := c_range_limit_offset c; c_range_limit_count := c_range_limit_count c;
     c_background_save := b; c_list_key_offset := c_list_key_offset c; c_list_key_count := c_list_key_count c; c_list_count := c_list_count c;
     c_list_timeout_seconds := c_list_timeout_seconds c; c_list_pop_front := c_list_pop_front c; c_list_push_front := c_list_push_front c; c_hash_implementation_tag := c_hash_implementation_tag c;
     c_packed_zset_kind := c_packed_zset_kind c |}.

Definition with_list_keys (offset : nat) (count : nat) (c : Command) : Command :=
  {| c_type := c_type c; c_name := c_name c; c_args := c_args c; c_with_scores := c_with_scores c;
     c_range_indexes_parsed := c_range_indexes_parsed c; c_range_start := c_range_start c; c_range_stop := c_range_stop c; c_range_by_score := c_range_by_score c;
     c_range_reverse := c_range_reverse c; c_range_has_limit := c_range_has_limit c; c_range_limit_offset := c_range_limit_offset c; c_range_limit_count := c_range_limit_count c;
     c_background_save := c_background_save c; c_list_key_offset := offset; c_list_key_count := count; c_list_count := c_list_count c;
     c_list_timeout_seconds := c_list_timeout_seconds c; c_list_pop_front := c_list_pop_front c; c_list_push_front := c_list_push_front c; c_hash_implementation_tag := c_hash_implementation_tag c;
     c_packed_zset_kind := c_packed_zset_kind c |}.

Definition with_list_count (count : Z) (c : Command) : Command :=
  {| c_type := c_type c; c_name := c_name c; c_args := c_args c; c_with_scores := c_with_scores c;
     c_range_indexes_parsed := c_range_indexes_parsed c; c_range_start := c_range_start c; c_range_stop := c_range_stop c; c_range_by_score := c_range_by_score c;
     c_range_reverse := c_range_reverse c; c_range_has_limit := c_range_has_limit c; c_range_limit_offset := c_range_limit_offset c; c_range_limit_count := c_range_limit_count c;
     c_background_save := c_background_save c; c_list_key_offset := c_list_key_offset c; c_list_key_count := c_list_key_count c; c_list_count := count;
     c_list_timeout_seconds := c_list_timeout_seconds c; c_list_pop_front := c_list_pop_front c; c_list_push_front := c_list_push_front c; c_hash_implementation_tag := c_hash_implementation_tag c;
     c_packed_zset_kind := c_packed_zset_kind c |}.

Definition with_list_timeout (seconds : spec_float) (c : Command) : Command :=
  {| c_type := c_type c; c_name := c_name c; c_args := c_args c; c_with_scores := c_with_scores c;
     c_range_indexes_parsed := c_range_indexes_parsed c; c_range_start := c_range_start c; c_range_stop := c_range_stop c; c_range_by_score := c_range_by_score c;
     c_range_reverse := c_range_reverse c; c_range_has_limit := c_range_has_limit c; c_range_limit_offset := c_range_limit_offset c; c_range_limit_count := c_range_limit_count c;
     c_background_save := c_background_save c; c_list_key_offset := c_list_key_offset c; c_list_key_count := c_list_key_count c; c_list_count := c_list_count c;
     c_list_timeout_seconds := seconds; c_list_pop_front := c_list_pop_front c; c_list_push_front := c_list_push_front c; c_hash_implementation_tag := c_hash_implementation_tag c;
     c_packed_zset_kind := c_packed_zset_kind c |}.

Definition with_list_pop_front (b : bool) (c : Command) : Command :=
  {| c_type := c_type c; c_name := c_name c; c_args := c_args c; c_with_scores := c_with_scores c;
     c_range_indexes_parsed := c_range_indexes_parsed c; c_range_start := c_range_start c; c_range_stop := c_range_stop c; c_range_by_score := c_range_by_score c;
     c_range_reverse := c_range_reverse c; c_range_has_limit := c_range_has_limit c; c_range_limit_offset := c_range_limit_offset c; c_range_limit_count := c_range_limit_count c;
     c_background_save := c_background_save c; c_list_key_offset := c_list_key_offset c; c_list_key_count := c_list_key_count c; c_list_count := c_list_count c;
     c_list_timeout_seconds := c_list_timeout_seconds c; c_list_pop_front := b; c_list_push_front := c_list_push_front c; c_hash_implementation_tag := c_hash_implementation_tag c;
     c_packed_zset_kind := c_packed_zset_kind c |}.

Definition with_list_push_front (b : bool) (c : Command) : Command :=
  {| c_type := c_type c; c_name := c_name c; c_args := c_args c; c_with_scores := c_with_scores c;
     c_range_indexes_parsed := c_range_indexes_parsed c; c_range_start := c_range_start c; c_range_stop := c_range_stop c; c_range_by_score := c_range_by_score c;
     c_range_reverse := c_range_reverse c; c_range_has_limit := c_range_has_limit c; c_range_limit_offset := c_range_limit_offset c; c_range_limit_count := c_range_limit_count c;
     c_background_save := c_background_save c; c_list_key_offset := c_list_key_offset c; c_list_key_count := c_list_key_count c; c_list_count := c_list_count c;
     c_list_timeout_seconds := c_list_timeout_seconds c; c_list_pop_front := c_list_pop_front c; c_list_push_front := b; c_hash_implementation_tag := c_hash_implementation_tag c;
     c_packed_zset_kind := c_packed_zset_kind c |}.

Definition with_hash_tag (tag : Z) (c : Command) : Command :=
  {| c_type := c_type c; c_name := c_name c; c_args := c_args c; c_with_scores := c_with_scores c;
     c_range_indexes_parsed := c_range_indexes_parsed c; c_range_start := c_range_start c; c_range_stop := c_range_stop c; c_range_by_score := c_range_by_score c;
     c_range_reverse := c_range_reverse c; c_range_has_limit := c_range_has_limit c; c_range_limit_offset := c_range_limit_offset c; c_range_limit_count := c_range_limit_count c;
     c_background_save := c_background_save c; c_list_key_offset := c_list_key_offset c; c_list_key_count := c_list_key_count c; c_list_count := c_list_count c;
     c_list_timeout_seconds := c_list_timeout_seconds c; c_list_pop_front := c_list_pop_front c; c_list_push_front := c_list_push_front c; c_hash_implementation_tag := tag;
     c_packed_zset_kind := c_packed_zset_kind c |}.

Definition with_packed_kind (kind : Z) (c : Command) : Command :=
  {| c_type := c_type c; c_name := c_name c; c_args := c_args c; c_with_scores := c_with_scores c;
     c_range_indexes_parsed := c_range_indexes_parsed c; c_range_start := c_range_start c; c_range_stop := c_range_stop c; c_range_by_score := c_range_by_score c;
     c_range_reverse := c_range_reverse c; c_range_has_limit := c_range_has_limit c; c_range_limit_offset := c_range_limit_offset c; c_range_limit_count := c_range_limit_count c;
     c_background_save := c_background_save c; c_list_key_offset := c_list_key_offset c; c_list_key_count := c_list_key_count c; c_list_count := c_list_count c;
     c_list_timeout_seconds := c_list_timeout_seconds c; c_list_pop_front := c_list_pop_front c; c_list_push_front := c_list_push_front c; c_hash_implementation_tag := c_hash_implementation_tag c;
     c_packed_zset_kind := kind |}.

(** [CommandParseResult]: an error, or a command; [None] is a read outside [command.args]. *)
Abbreviation parse_result := (option (bytes + Command)).

Definition parse_error (message : bytes) : parse_result := Some (inl message).
Definition parsed (command : Command) : parse_result := Some (inr command).

Definition wrong_arity (command : bytes) : bytes :=
  str "ERR wrong number of arguments for '" ++ command ++ str "' command".
Definition syntax_error : bytes := str "ERR syntax error".
Definition integer_range_error : bytes := str "ERR value is not an integer or out of range".

(** The body most cases have: an arity test, then the type. *)
Definition checked (bad : bool) (error_name : bytes) (type : CommandType) (command : Command) : parse_result :=
  if bad then parse_error (wrong_arity error_name) else parsed (with_type type command).

Definition parse_range_indexes (command : Command) : option (option Command) :=
  a1 ← c_args command !! 1%nat;
  a2 ← c_args command !! 2%nat;
  Some (start ← parse_i64 a1;
        stop ← parse_i64 a2;
        Some (with_range_indexes true start stop command)).

(** The option loop of [parse_zrange_options] from argument 3 on. *)
Fixpoint zrange_loop (options : list bytes) (force_by_score force_reverse legacy_command : bool)
    (seen_by_score seen_reverse seen_with_scores : bool) (command : Command) : bytes + Command :=
  match options with
  | [] => inr command
  | option :: rest =>
      if equals_ci option (str "BYSCORE") then
        if legacy_command || seen_by_score || force_by_score then inl syntax_error
        else zrange_loop rest force_by_score force_reverse legacy_command true seen_reverse seen_with_scores
               (with_range_by_score true command)
      else if equals_ci option (str "REV") then
        if legacy_command || seen_reverse || force_reverse then inl syntax_error
        else zrange_loop rest force_by_score force_reverse legacy_command seen_by_score true seen_with_scores
               (with_range_reverse true command)
      else if equals_ci option (str "WITHSCORES") then
        if seen_with_scores then inl syntax_error
        else zrange_loop rest force_by_score force_reverse legacy_command seen_by_score seen_reverse true
               (with_with_scores true command)
      else if equals_ci option (str "LIMIT") then
        match rest with
        | o :: n :: rest' =>
            if c_range_has_limit command then inl syntax_error
            else
              match parse_i64 o, parse_i64 n with
              | Some offset, Some count =>
                  if offset <? 0 then inl integer_range_error
                  else zrange_loop rest' force_by_score force_reverse legacy_command seen_by_score seen_reverse
                         seen_with_scores (with_range_limit true offset count command)
              | _, _ => inl integer_range_error
              end
        | _ => inl syntax_error
        end
      else inl syntax_error
  end.

Definition parse_zrange_options (command : Command) (force_by_score force_reverse legacy_command : bool) : parse_result :=
  let command := with_range_reverse force_reverse (with_range_by_score force_by_score command) in
  match zrange_loop (drop 3 (c_args command)) force_by_score force_reverse legacy_command
          force_by_score force_reverse false command with
  | inl error => Some (inl error)
  | inr command =>
      if c_range_has_limit command && negb (c_range_by_score command) then Some (inl syntax_error)
      else if negb (c_range_by_score command) then
        r ← parse_range_indexes command;
        match r with
        | Some command => Some (inr command)
        | None => Some (inl integer_range_error)
        end
      else Some (inr command)
  end.

(** ZRANGE and its legacy forms. *)
Definition parse_zrange_case (force_by_score force_reverse legacy_command : bool) (looked_up_type : CommandType)
    (error_name : bytes) (command : Command) : parse_result :=
  if Nat.ltb (length (c_args command)) 3 then parse_error (wrong_arity error_name)
  else
    r ← parse_zrange_options command force_by_score force_reverse legacy_command;
    match r with
    | inl error => parse_error error
    | inr command => parsed (with_type looked_up_type command)
    end.

Definition is_left (text : bytes) : bool := equals_ci text (str "LEFT").
Definition is_right (text : bytes) : bool := equals_ci text (str "RIGHT").

Definition parse_lmove (looked_up_type : CommandType) (command : Command) : parse_result :=
  if negb (Nat.eqb (length (c_args command)) 4) then parse_error (wrong_arity (c_name command))
  else
    from ← c_args command !! 2%nat;
    if negb (is_left from) && negb (is_right from) then parse_error syntax_error
    else
      to ← c_args command !! 3%nat;
      if negb (is_left to) && negb (is_right to) then parse_error syntax_error
      else parsed (with_type looked_up_type (with_list_push_front (is_left to) (with_list_pop_front (is_left from) command))).

Definition parse_rpoplpush (looked_up_type : CommandType) (command : Command) : parse_result :=
  if negb (Nat.eqb (length (c_args command)) 2) then parse_error (wrong_arity (c_name command))
  else parsed (with_type looked_up_type (with_list_push_front true (with_list_pop_front false command))).

(** The timeout of a blocking command: a finite number that is not negative. *)
Definition parse_timeout (text : bytes) : bytes + spec_float :=
  match parse_score text with
  | None => inl (str "ERR timeout is not a float or out of range")
  | Some timeout =>
      if SFltb timeout (S754_zero false) then inl (str "ERR timeout is negative") else inr timeout
  end.

Definition parse_blmove (looked_up_type : CommandType) (command : Command) : parse_result :=
  if negb (Nat.eqb (length (c_args command)) 5) then parse_error (wrong_arity (c_name command))
  else
    from ← c_args command !! 2%nat;
    if negb (is_left from) && negb (is_right from) then parse_error syntax_error
    else
      to ← c_args command !! 3%nat;
      if negb (is_left to) && negb (is_right to) then parse_error syntax_error
      else
        text ← c_args command !! 4%nat;
        match parse_timeout text with
        | inl error => parse_error error
        | inr timeout =>
            parsed (with_type looked_up_type
              (with_list_timeout timeout (with_list_push_front (is_left to) (with_list_pop_front (is_left from) command))))
        end.

Definition parse_blpop (looked_up_type : CommandType) (command : Command) : parse_result :=
  let n := length (c_args command) in
  if Nat.ltb n 2 then parse_error (wrong_arity (c_name command))
  else
    text ← last (c_args command);
    match parse_timeout text with
    | inl error => parse_error error
    | inr timeout =>
        let front := ct_eqb looked_up_type CT_blpop || ct_eqb looked_up_type CT_pma_blpop ||
                     ct_eqb looked_up_type CT_segmented_blpop in
        parsed (with_type looked_up_type
          (with_list_pop_front front (with_list_timeout timeout (with_list_keys 0 (n - 1) command))))
    end.

(** LMPOP and BLMPOP after their timeout: the keys, the side and the optional COUNT. *)
Definition parse_lmpop_keys (looked_up_type : CommandType) (numkeys_offset : nat) (command : Command) : parse_result :=
  let n := length (c_args command) in
  numkeys_text ← c_args command !! numkeys_offset;
  match parse_i64 numkeys_text with
  | None => parse_error integer_range_error
  | Some numkeys =>
      if numkeys <=? 0 then parse_error (str "ERR numkeys should be greater than 0")
      else if Z.of_nat n <? numkeys then parse_error syntax_error
      else
        let key_count := Z.to_nat numkeys in
        let side_offset := (numkeys_offset + 1 + key_count)%nat in
        if Nat.leb n side_offset || (negb (Nat.eqb n (side_offset + 1)) && negb (Nat.eqb n (side_offset + 3)))
        then parse_error syntax_error
        else
          side ← c_args command !! side_offset;
          if negb (is_left side) && negb (is_right side) then parse_error syntax_error
          else
            let command := with_list_pop_front (is_left side) (with_list_keys (numkeys_offset + 1) key_count command) in
            if Nat.eqb n (side_offset + 3) then
              word ← c_args command !! (side_offset + 1)%nat;
              if negb (equals_ci word (str "COUNT")) then parse_error syntax_error
              else
                count_text ← c_args command !! (side_offset + 2)%nat;
                match parse_i64 count_text with
                | None => parse_error integer_range_error
                | Some count =>
                    if count <=? 0 then parse_error (str "ERR count should be greater than 0")
                    else parsed (with_type looked_up_type (with_list_count count command))
                end
            else parsed (with_type looked_up_type command)
  end.

Definition parse_lmpop (looked_up_type : CommandType) (command : Command) : parse_result :=
  let blocking := ct_eqb looked_up_type CT_blmpop || ct_eqb looked_up_type CT_pma_blmpop ||
                  ct_eqb looked_up_type CT_segmented_blmpop in
  let minimum := if blocking then 4%nat else 3%nat in
  if Nat.ltb (length (c_args command)) minimum then parse_error (wrong_arity (c_name command))
  else if blocking then
    text ← c_args command !! 0%nat;
    match parse_timeout text with
    | inl error => parse_error error
    | inr timeout => parse_lmpop_keys looked_up_type 1 (with_list_timeout timeout command)
    end
  else parse_lmpop_keys looked_up_type 0 command.

Definition parse_lrange (looked_up_type : CommandType) (command : Command) : parse_result :=
  if negb (Nat.eqb (length (c_args command)) 3) then parse_error (wrong_arity (c_name command))
  else
    r ← parse_range_indexes command;
    match r with
    | None => parse_error integer_range_error
    | Some command => parsed (with_type looked_up_type command)
    end.

Definition parse_save (command : Command) : parse_result :=
  if Nat.ltb 2 (length (c_args command)) then parse_error (wrong_arity (c_name command))
  else
    let command := with_type CT_goblin_save command in
    parsed (with_background_save
      (equals_ci (c_name command) (str "bgsave") || equals_ci (c_name command) (str "goblin.bgsave")) command).

Definition parse_session (otherwise : parse_result) (looked_up_type : CommandType) (command : Command) : parse_result :=
  let n := length (c_args command) in
  match looked_up_type with
  | CT_ping => checked (Nat.ltb 1 n) (str "ping") CT_ping command
  | CT_hello => Some (inr (with_type CT_hello command))
  | CT_auth => checked (Nat.ltb n 1 || Nat.ltb 2 n) (str "auth") CT_auth command
  | CT_command => Some (inr (with_type CT_command command))
  | CT_config => checked (Nat.eqb n 0) (str "config") CT_config command
  | CT_client => checked (Nat.eqb n 0) (str "client") CT_client command
  | CT_select => checked (negb (Nat.eqb n 1)) (str "select") CT_select command
  | CT_quit => checked (negb (Nat.eqb n 0)) (str "quit") CT_quit command
  | CT_multi => checked (negb (Nat.eqb n 0)) (str "multi") CT_multi command
  | CT_exec => checked (negb (Nat.eqb n 0)) (str "exec") CT_exec command
  | CT_discard => checked (negb (Nat.eqb n 0)) (str "discard") CT_discard command
  | CT_watch => checked (Nat.eqb n 0) (str "watch") CT_watch command
  | CT_unwatch => checked (negb (Nat.eqb n 0)) (str "unwatch") CT_unwatch command
  | CT_time | CT_role | CT_goblin_firehose => checked (negb (Nat.eqb n 0)) (c_name command) looked_up_type command
  | CT_goblin_dumpworld => checked (Nat.ltb 1 n) (str "goblin.dumpworld") looked_up_type command
  | CT_subscribe => checked (Nat.eqb n 0) (str "subscribe") CT_subscribe command
  | CT_unsubscribe => Some (inr (with_type CT_unsubscribe command))
  | CT_psubscribe => checked (Nat.eqb n 0) (str "psubscribe") CT_psubscribe command
  | CT_punsubscribe => Some (inr (with_type CT_punsubscribe command))
  | CT_publish => checked (negb (Nat.eqb n 2)) (str "publish") CT_publish command
  | CT_pubsub => checked (Nat.eqb n 0) (str "pubsub") CT_pubsub command
  | CT_echo => checked (negb (Nat.eqb n 1)) (str "echo") CT_echo command
  | CT_info => checked (Nat.ltb 1 n) (str "info") CT_info command
  | _ => otherwise
  end.

Definition parse_scripts (otherwise : parse_result) (looked_up_type : CommandType) (command : Command) : parse_result :=
  let n := length (c_args command) in
  match looked_up_type with
  | CT_eval => checked (Nat.ltb n 2) (str "eval") CT_eval command
  | CT_evalsha => checked (Nat.ltb n 2) (str "evalsha") CT_evalsha command
  | CT_script => checked (Nat.eqb n 0) (str "script") CT_script command
  | CT_luau_eval => checked (Nat.ltb n 2) (str "luau.eval") CT_luau_eval command
  | CT_luau_evalsha => checked (Nat.ltb n 2) (str "luau.evalsha") CT_luau_evalsha command
  | CT_luau_script => checked (Nat.eqb n 0) (str "luau.script") CT_luau_script command
  | CT_wren_eval => checked (Nat.ltb n 2) (str "wren.eval") CT_wren_eval command
  | CT_wren_evalsha => checked (Nat.ltb n 2) (str "wren.evalsha") CT_wren_evalsha command
  | CT_wren_script => checked (Nat.eqb n 0) (str "wren.script") CT_wren_script command
  | CT_tcl_eval => checked (Nat.ltb n 2) (str "tcl.eval") CT_tcl_eval command
  | CT_tcl_evalsha => checked (Nat.ltb n 2) (str "tcl.evalsha") CT_tcl_evalsha command
  | CT_tcl_script => checked (Nat.eqb n 0) (str "tcl.script") CT_tcl_script command
  | CT_upython_eval => checked (Nat.ltb n 2) (str "upython.eval") CT_upython_eval command
  | CT_upython_evalsha => checked (Nat.ltb n 2) (str "upython.evalsha") CT_upython_evalsha command
  | CT_upython_script => checked (Nat.eqb n 0) (str "upython.script") CT_upython_script command
  | CT_quickjs_eval => checked (Nat.ltb n 2) (str "quickjs.eval") CT_quickjs_eval command
  | CT_quickjs_evalsha => checked (Nat.ltb n 2) (str "quickjs.evalsha") CT_quickjs_evalsha command
  | CT_quickjs_script => checked (Nat.eqb n 0) (str "quickjs.script") CT_quickjs_script command
  | _ => otherwise
  end.

Definition parse_zset (otherwise : parse_result) (looked_up_type : CommandType) (command : Command) : parse_result :=
  let n := length (c_args command) in
  match looked_up_type with
  | CT_zadd => checked (Nat.ltb n 3) (str "zadd") CT_zadd command
  | CT_zincrby => checked (negb (Nat.eqb n 3)) (str "zincrby") CT_zincrby command
  | CT_zcard => checked (negb (Nat.eqb n 1)) (str "zcard") CT_zcard command
  | CT_zcount => checked (negb (Nat.eqb n 3)) (str "zcount") CT_zcount command
  | CT_zrange => parse_zrange_case false false false looked_up_type (str "zrange") command
  | CT_zrangebyscore | CT_zrevrangebyscore => 
      parse_zrange_case true (ct_eqb looked_up_type CT_zrevrangebyscore) true looked_up_type (c_name command) command
  | CT_zrank => checked (negb (Nat.eqb n 2)) (str "zrank") CT_zrank command
  | CT_zrevrange => parse_zrange_case false true true looked_up_type (str "zrevrange") command
  | CT_zrevrank => checked (negb (Nat.eqb n 2)) (str "zrevrank") CT_zrevrank command
  | CT_zrem => checked (Nat.ltb n 2) (str "zrem") CT_zrem command
  | CT_zremrangebyscore => checked (negb (Nat.eqb n 3)) (str "zremrangebyscore") CT_zremrangebyscore command
  | CT_zremrangebyrank => checked (negb (Nat.eqb n 3)) (str "zremrangebyrank") CT_zremrangebyrank command
  | CT_zinterstore | CT_zunionstore => checked (Nat.ltb n 3) (c_name command) looked_up_type command
  | CT_zmscore => checked (Nat.ltb n 2) (str "zmscore") CT_zmscore command
  | CT_zpopmin | CT_zpopmax => checked (negb (Nat.eqb n 1) && negb (Nat.eqb n 2)) (c_name command) looked_up_type command
  | CT_zscan => checked (Nat.ltb n 2) (str "zscan") CT_zscan command
  | CT_zscore => checked (negb (Nat.eqb n 2)) (str "zscore") CT_zscore command
  | _ => otherwise
  end.

Definition parse_hash (otherwise : parse_result) (looked_up_type : CommandType) (command : Command) : parse_result :=
  let n := length (c_args command) in
  match looked_up_type with
  | CT_hset | CT_hmset => checked (Nat.ltb n 3 || negb (Nat.eqb ((n - 1) mod 2) 0)) (c_name command) looked_up_type command
  | CT_hsetnx => checked (negb (Nat.eqb n 3)) (str "hsetnx") CT_hsetnx command
  | CT_hget => checked (negb (Nat.eqb n 2)) (str "hget") CT_hget command
  | CT_hmget => checked (Nat.ltb n 2) (str "hmget") CT_hmget command
  | CT_hdel => checked (Nat.ltb n 2) (str "hdel") CT_hdel command
  | CT_hgetall => checked (negb (Nat.eqb n 1)) (str "hgetall") CT_hgetall command
  | CT_hkeys => checked (negb (Nat.eqb n 1)) (str "hkeys") CT_hkeys command
  | CT_hvals => checked (negb (Nat.eqb n 1)) (str "hvals") CT_hvals command
  | CT_hlen => checked (negb (Nat.eqb n 1)) (str "hlen") CT_hlen command
  | CT_hexists => checked (negb (Nat.eqb n 2)) (str "hexists") CT_hexists command
  | CT_hstrlen => checked (negb (Nat.eqb n 2)) (str "hstrlen") CT_hstrlen command
  | CT_hincrby => checked (negb (Nat.eqb n 3)) (str "hincrby") CT_hincrby command
  | CT_hincrbyfloat => checked (negb (Nat.eqb n 3)) (str "hincrbyfloat") CT_hincrbyfloat command
  | CT_hrandfield => checked (Nat.eqb n 0 || Nat.ltb 3 n) (str "hrandfield") CT_hrandfield command
  | CT_hscan => checked (Nat.ltb n 2) (str "hscan") CT_hscan command
  | _ => otherwise
  end.

Definition parse_set (otherwise : parse_result) (looked_up_type : CommandType) (command : Command) : parse_result :=
  let n := length (c_args command) in
  match looked_up_type with
  | CT_sadd => checked (Nat.ltb n 2) (str "sadd") CT_sadd command
  | CT_srem => checked (Nat.ltb n 2) (str "srem") CT_srem command
  | CT_scard => checked (negb (Nat.eqb n 1)) (str "scard") CT_scard command
  | CT_sismember => checked (negb (Nat.eqb n 2)) (str "sismember") CT_sismember command
  | CT_smismember => checked (Nat.ltb n 2) (str "smismember") CT_smismember command
  | CT_smembers => checked (negb (Nat.eqb n 1)) (str "smembers") CT_smembers command
  | CT_spop => checked (negb (Nat.eqb n 1) && negb (Nat.eqb n 2)) (str "spop") CT_spop command
  | CT_srandmember => checked (negb (Nat.eqb n 1) && negb (Nat.eqb n 2)) (str "srandmember") CT_srandmember command
  | CT_smove => checked (negb (Nat.eqb n 3)) (str "smove") CT_smove command
  | CT_sinter => checked (Nat.ltb n 1) (str "sinter") CT_sinter command
  | CT_sunion => checked (Nat.ltb n 1) (str "sunion") CT_sunion command
  | CT_sdiff => checked (Nat.ltb n 1) (str "sdiff") CT_sdiff command
  | CT_sinterstore => checked (Nat.ltb n 2) (str "sinterstore") CT_sinterstore command
  | CT_sunionstore => checked (Nat.ltb n 2) (str "sunionstore") CT_sunionstore command
  | CT_sdiffstore => checked (Nat.ltb n 2) (str "sdiffstore") CT_sdiffstore command
  | CT_sintercard => checked (Nat.ltb n 2) (str "sintercard") CT_sintercard command
  | CT_sscan => checked (Nat.ltb n 2) (str "sscan") CT_sscan command
  | _ => otherwise
  end.

Definition parse_array (otherwise : parse_result) (looked_up_type : CommandType) (command : Command) : parse_result :=
  let n := length (c_args command) in
  match looked_up_type with
  | CT_arreserve => checked (negb (Nat.eqb n 4)) (str "goblin.rt.arreserve") CT_arreserve command
  | CT_arset => checked (Nat.ltb n 3) (str "arset") CT_arset command
  | CT_arget => checked (negb (Nat.eqb n 2)) (str "arget") CT_arget command
  | CT_armset => checked (Nat.ltb n 3 || Nat.eqb (n mod 2) 0) (str "armset") CT_armset command
  | CT_armget => checked (Nat.ltb n 2) (str "armget") CT_armget command
  | CT_arlen | CT_arcount | CT_arnext => checked (negb (Nat.eqb n 1)) (c_name command) looked_up_type command
  | CT_ardel => checked (Nat.ltb n 2) (str "ardel") CT_ardel command
  | CT_arinsert => checked (Nat.ltb n 2) (str "arinsert") CT_arinsert command
  | CT_arseek => checked (negb (Nat.eqb n 2)) (str "arseek") CT_arseek command
  | _ => otherwise
  end.

Definition parse_list (otherwise : parse_result) (looked_up_type : CommandType) (command : Command) : parse_result :=
  let n := length (c_args command) in
  match looked_up_type with
  | CT_lpush | CT_rpush | CT_lpushx | CT_rpushx | CT_pma_lpush | CT_pma_rpush | CT_pma_lpushx | CT_pma_rpushx
  | CT_segmented_lpush | CT_segmented_rpush | CT_segmented_lpushx | CT_segmented_rpushx => checked (Nat.ltb n 2) (c_name command) looked_up_type command
  | CT_lpop | CT_rpop | CT_pma_lpop | CT_pma_rpop | CT_segmented_lpop | CT_segmented_rpop => checked (negb (Nat.eqb n 1) && negb (Nat.eqb n 2)) (c_name command) looked_up_type command
  | CT_lmove | CT_pma_lmove | CT_segmented_lmove => parse_lmove looked_up_type command
  | CT_rpoplpush | CT_pma_rpoplpush | CT_segmented_rpoplpush => parse_rpoplpush looked_up_type command
  | CT_blmove | CT_pma_blmove | CT_segmented_blmove => parse_blmove looked_up_type command
  | CT_blpop | CT_brpop | CT_pma_blpop | CT_pma_brpop | CT_segmented_blpop | CT_segmented_brpop => parse_blpop looked_up_type command
  | CT_lmpop | CT_pma_lmpop | CT_segmented_lmpop | CT_blmpop | CT_pma_blmpop | CT_segmented_blmpop => 
      parse_lmpop looked_up_type command
  | CT_llen | CT_pma_llen | CT_segmented_llen => checked (negb (Nat.eqb n 1)) (c_name command) looked_up_type command
  | CT_lindex | CT_pma_lindex | CT_segmented_lindex => checked (negb (Nat.eqb n 2)) (c_name command) looked_up_type command
  | CT_lrange | CT_ltrim | CT_pma_lrange | CT_pma_ltrim | CT_segmented_lrange | CT_segmented_ltrim => parse_lrange looked_up_type command
  | CT_lset | CT_lrem | CT_pma_lset | CT_pma_lrem | CT_segmented_lset | CT_segmented_lrem => checked (negb (Nat.eqb n 3)) (c_name command) looked_up_type command
  | CT_linsert | CT_pma_linsert | CT_segmented_linsert => checked (negb (Nat.eqb n 4)) (c_name command) looked_up_type command
  | _ => otherwise
  end.

Definition parse_string (otherwise : parse_result) (looked_up_type : CommandType) (command : Command) : parse_result :=
  let n := length (c_args command) in
  match looked_up_type with
  | CT_set => checked (Nat.ltb n 2) (str "set") CT_set command
  | CT_get => checked (negb (Nat.eqb n 1)) (str "get") CT_get command
  | CT_getex => checked (Nat.eqb n 0) (str "getex") CT_getex command
  | CT_getset => checked (negb (Nat.eqb n 2)) (str "getset") CT_getset command
  | CT_setnx => checked (negb (Nat.eqb n 2)) (str "setnx") CT_setnx command
  | CT_getdel => checked (negb (Nat.eqb n 1)) (str "getdel") CT_getdel command
  | CT_strlen => checked (negb (Nat.eqb n 1)) (str "strlen") CT_strlen command
  | CT_append => checked (negb (Nat.eqb n 2)) (str "append") CT_append command
  | CT_incr => checked (negb (Nat.eqb n 1)) (str "incr") CT_incr command
  | CT_decr => checked (negb (Nat.eqb n 1)) (str "decr") CT_decr command
  | CT_incrby => checked (negb (Nat.eqb n 2)) (str "incrby") CT_incrby command
  | CT_decrby => checked (negb (Nat.eqb n 2)) (str "decrby") CT_decrby command
  | CT_incrbyfloat => checked (negb (Nat.eqb n 2)) (str "incrbyfloat") CT_incrbyfloat command
  | CT_getrange => checked (negb (Nat.eqb n 3)) (str "getrange") CT_getrange command
  | CT_setrange => checked (negb (Nat.eqb n 3)) (str "setrange") CT_setrange command
  | CT_mset => checked (Nat.ltb n 2 || negb (Nat.eqb (n mod 2) 0)) (str "mset") CT_mset command
  | CT_msetnx => checked (Nat.ltb n 2 || negb (Nat.eqb (n mod 2) 0)) (str "msetnx") CT_msetnx command
  | CT_mget => checked (Nat.eqb n 0) (str "mget") CT_mget command
  | _ => otherwise
  end.

Definition parse_keys (otherwise : parse_result) (looked_up_type : CommandType) (command : Command) : parse_result :=
  let n := length (c_args command) in
  match looked_up_type with
  | CT_del => checked (Nat.eqb n 0) (str "del") CT_del command
  | CT_exists => checked (Nat.eqb n 0) (str "exists") CT_exists command
  | CT_dbsize | CT_randomkey => checked (negb (Nat.eqb n 0)) (c_name command) looked_up_type command
  | CT_rename | CT_renamenx => checked (negb (Nat.eqb n 2)) (c_name command) looked_up_type command
  | CT_copy => checked (Nat.ltb n 2) (str "copy") CT_copy command
  | CT_touch => checked (Nat.eqb n 0) (str "touch") CT_touch command
  | CT_scan => checked (Nat.eqb n 0) (str "scan") CT_scan command
  | CT_key_type => checked (negb (Nat.eqb n 1)) (str "type") CT_key_type command
  | CT_expire | CT_pexpire | CT_expireat | CT_pexpireat => checked (Nat.ltb n 2) (str "expire") looked_up_type command
  | CT_ttl | CT_pttl | CT_persist | CT_expiretime | CT_pexpiretime => checked (negb (Nat.eqb n 1)) (str "ttl") looked_up_type command
  | CT_goblin_memory => checked (negb (Nat.eqb n 1)) (str "goblin.memory") CT_goblin_memory command
  | CT_goblin_optimize => checked (negb (Nat.eqb n 1) && negb (Nat.eqb n 2)) (str "goblin.optimize") CT_goblin_optimize command
  | CT_goblin_save => parse_save command
  | CT_goblin_load => checked (negb (Nat.eqb n 1)) (str "goblin.load") CT_goblin_load command
  | _ => otherwise
  end.

Definition parse_goblin (otherwise : parse_result) (looked_up_type : CommandType) (command : Command) : parse_result :=
  let n := length (c_args command) in
  match looked_up_type with
  | CT_goblin_cad => checked (negb (Nat.eqb n 2)) (str "goblin.cad") CT_goblin_cad command
  | CT_goblin_caexpire => checked (negb (Nat.eqb n 3)) (str "goblin.caexpire") CT_goblin_caexpire command
  | CT_goblin_cas => checked (negb (Nat.eqb n 3)) (str "goblin.cas") CT_goblin_cas command
  | CT_goblin_td_leaderboard_rescore => checked (negb (Nat.eqb n 5)) (str "goblin.td_leaderboard_rescore") CT_goblin_td_leaderboard_rescore command
  | CT_goblin_increx => checked (negb (Nat.eqb n 2)) (str "goblin.increx") CT_goblin_increx command
  | CT_goblin_zwindow => checked (negb (Nat.eqb n 5)) (str "goblin.zwindow") CT_goblin_zwindow command
  | CT_goblin_incrbound => checked (negb (Nat.eqb n 3)) (str "goblin.incrbound") CT_goblin_incrbound command
  | CT_goblin_decrpos => checked (negb (Nat.eqb n 1)) (str "goblin.decrpos") CT_goblin_decrpos command
  | CT_goblin_hcad => checked (negb (Nat.eqb n 3)) (str "goblin.hcad") CT_goblin_hcad command
  | CT_goblin_hsetgt => checked (negb (Nat.eqb n 3)) (str "goblin.hsetgt") CT_goblin_hsetgt command
  | CT_goblin_claim => checked (negb (Nat.eqb n 4)) (str "goblin.claim") CT_goblin_claim command
  | _ => otherwise
  end.

(** The switch of [parse_command]; a type without a case (only [unknown]) falls out of it. *)
Definition parse_switch (looked_up_type : CommandType) (command : Command) : parse_result :=
  let fall_out := Some (inr (with_type CT_unknown command)) in
  let r := parse_goblin fall_out looked_up_type command in
  let r := parse_keys r looked_up_type command in
  let r := parse_string r looked_up_type command in
  let r := parse_list r looked_up_type command in
  let r := parse_array r looked_up_type command in
  let r := parse_set r looked_up_type command in
  let r := parse_hash r looked_up_type command in
  let r := parse_zset r looked_up_type command in
  let r := parse_scripts r looked_up_type command in
  let r := parse_session r looked_up_type command in
  r.

(** The implementation tag a qualified name carries: 2 for GOBLIN.RT., 1 for the other qualified families. *)
Definition upper_is (buffer : bytes) (offset : nat) (text : bytes) : bool :=
  bool_decide (take (length text) (drop offset buffer) = text).

Definition hash_tag (size : nat) (buffer : bytes) : Z :=
  if Nat.leb 10 size && upper_is buffer 0 (str "GOBLIN.") then
    if Nat.leb 10 size && upper_is buffer 7 (str "RT.") then 2
    else if Nat.leb 16 size && upper_is buffer 7 (str "EFFICENT.") then 1
    else if Nat.leb 15 size && upper_is buffer 7 (str "CLASSIC.") then 1
    else 0
  else 0.

Definition parse_command (fields : list bytes) : parse_result :=
  match fields with
  | [] => parse_error (str "ERR empty command")
  | name :: args =>
      let command := default_Command CT_unknown name args in
      let packed_name := packed_zset_command_name name in
      let dispatch_name := match packed_name with Some (_, suffix) => suffix | None => name end in
      let command := match packed_name with Some (kind, _) => with_packed_kind kind command | None => command end in
      let '(entry, command) :=
        if Nat.leb (length dispatch_name) 31 then
          let buffer := upper dispatch_name ++ replicate (32 - length dispatch_name) x00 in
          let entry := dispatch_entry (bool_decide (is_Some packed_name)) dispatch_name in
          (entry, if bool_decide (packed_name = None) then with_hash_tag (hash_tag (length name) buffer) command else command)
        else (None, command) in
      match entry with
      | None => parsed (with_type CT_unknown command)
      | Some entry => parse_switch (e_type entry) command
      end
  end.

(** ** What a parse delivers *)

Definition in_i64 (z : Z) : Prop := i64_min <= z <= i64_max.

Lemma parse_i64_in text v : parse_i64 text = Some v -> in_i64 v.
Proof. intros (neg & ds & _ & _ & _ & _ & H)%parse_i64_iff. exact H. Qed.

(** A number that is finite and not negative. *)
Definition duration (t : spec_float) : Prop :=
  match t with S754_zero _ | S754_finite false _ _ => True | _ => False end.

Lemma parse_timeout_duration text t : parse_timeout text = inr t -> duration t.
Proof.
  unfold parse_timeout, parse_score. destruct (parse_decimal text) as [[[[neg ip] fp] e]|]; [|done].
  destruct (round_decimal _ _ _ _) as [s|s| |s p ex]; [destruct (_ =? 0)|..]; try done.
  - cbn. by intros [= <-].
  - destruct s; cbn; [done|by intros [= <-]].
Qed.

(** The fields a handler relies on without checking them again. *)
Record wf (c : Command) : Prop := mkWf {
  wf_span : (c_list_key_offset c + c_list_key_count c <= length (c_args c))%nat;
  wf_timeout : duration (c_list_timeout_seconds c);
  wf_count : 1 <= c_list_count c <= i64_max;
  wf_limit : c_range_has_limit c = true -> 0 <= c_range_limit_offset c <= i64_max;
  wf_limit_count : in_i64 (c_range_limit_count c);
  wf_range : in_i64 (c_range_start c) /\ in_i64 (c_range_stop c);
}.

(** What no case of the switch changes. *)
Definition same_request (c c' : Command) : Prop :=
  c_name c' = c_name c /\ c_args c' = c_args c /\ c_hash_implementation_tag c' = c_hash_implementation_tag c /\
  c_packed_zset_kind c' = c_packed_zset_kind c.

Definition good (t : CommandType) (c : Command) (r : parse_result) : Prop :=
  match r with
  | None => False
  | Some (inl _) => True
  | Some (inr c') =>
      c_type c' = t /\ same_request c c' /\ wf c' /\ (c_range_has_limit c' = true -> c_range_by_score c' = true)
  end.

(** A command as [parse_command] hands it to the switch. *)
Definition fresh (c : Command) : Prop := wf c /\ c_range_has_limit c = false.

Ltac setters H :=
  destruct H as [Hspan Htime Hcount Hlim Hlimc [Hstart Hstop]]; unfold in_i64 in *; repeat split; intros; cbn in *; auto; try lia; try congruence; try (by apply Hlim).

Lemma good_error t c e : good t c (parse_error e).
Proof. exact I. Qed.

Lemma good_checked t c b n : fresh c -> good t c (checked b n t c).
Proof. intros [H Hl]. unfold checked. destruct b; cbn; [done|]. setters H. Qed.

Lemma good_plain t c : fresh c -> good t c (parsed (with_type t c)).
Proof. intros [H Hl]. cbn. setters H. Qed.

Lemma good_lookup t c {A} (l : list A) i (f : A -> parse_result) :
  (i < length l)%nat -> (forall a, l !! i = Some a -> good t c (f a)) -> good t c (a ← l !! i; f a).
Proof. intros Hi H. destruct (l !! i) as [a|] eqn:E; [by apply H|]. apply lookup_ge_None in E. lia. Qed.

Lemma range_indexes_good c :
  wf c -> (3 <= length (c_args c))%nat ->
  exists r, parse_range_indexes c = Some r /\
    forall c', r = Some c' -> same_request c c' /\ wf c' /\ c_range_has_limit c' = c_range_has_limit c /\ c_range_by_score c' = c_range_by_score c.
Proof.
  intros H Hn. unfold parse_range_indexes. destruct (c_args c) as [|a0 [|a1 [|a2 l]]] eqn:E; cbn in Hn; try lia.
  eexists. split; [reflexivity|]. intros c'.
  destruct (parse_i64 a1) as [start|] eqn:E1; [|done]. destruct (parse_i64 a2) as [stop|] eqn:E2; [|done].
  apply parse_i64_in in E1, E2. intros [= <-]. setters H.
Qed.

Lemma zrange_loop_good opts fb fr lg sb sr sw c c' :
  wf c -> zrange_loop opts fb fr lg sb sr sw c = inr c' -> same_request c c' /\ wf c'.
Proof.
  revert sb sr sw c. induction opts as [opts IH] using (induction_ltof1 _ (@length bytes)); unfold ltof in IH.
  intros sb sr sw c Hwf.
  assert (Hrec : forall rest sb sr sw c1, (length rest < length opts)%nat -> same_request c c1 -> wf c1 ->
    zrange_loop rest fb fr lg sb sr sw c1 = inr c' -> same_request c c' /\ wf c').
  { intros rest sb1 sr1 sw1 c1 Hl [H1 H2] Hw H. destruct (IH _ Hl _ _ _ _ Hw H) as [[H3 H4] Hw'].
    split; [|done]. unfold same_request. intuition congruence. }
  clear IH. destruct opts as [|o rest]; cbn [zrange_loop]; [intros [= <-]; by split|].
  destruct (equals_ci o _); [destruct (_ || _); [done|]; apply Hrec; [cbn; lia|done|setters Hwf]|].
  destruct (equals_ci o _); [destruct (_ || _); [done|]; apply Hrec; [cbn; lia|done|setters Hwf]|].
  destruct (equals_ci o _); [destruct sw; [done|]; apply Hrec; [cbn; lia|done|setters Hwf]|].
  destruct (equals_ci o _); [|done]. destruct rest as [|a [|b rest]]; [done..|].
  destruct (c_range_has_limit c); [done|]. destruct (parse_i64 a) as [off|] eqn:Ea; [|done].
  destruct (parse_i64 b) as [cnt|] eqn:Eb; [|done]. apply parse_i64_in in Ea, Eb. unfold in_i64 in Ea.
  destruct (Z.ltb_spec off 0); [done|]. apply Hrec; [cbn; lia|done|setters Hwf].
Qed.

Lemma zrange_good fb fr lg t name c : fresh c -> good t c (parse_zrange_case fb fr lg t name c).
Proof.
  intros [H Hl]. unfold parse_zrange_case. destruct (Nat.ltb_spec (length (c_args c)) 3) as [|Hn]; [done|].
  unfold parse_zrange_options. set (c0 := with_range_reverse fr (with_range_by_score fb c)).
  assert (H0 : wf c0) by setters H.
  destruct (zrange_loop _ _ _ _ _ _ _ c0) as [e|c1] eqn:E; [done|]. apply zrange_loop_good in E as [Hs H1]; [|done].
  destruct (c_range_has_limit c1) eqn:El, (c_range_by_score c1) eqn:Eb; cbn; try done;
    [unfold good, same_request in *; setters H1; intuition..|].
  destruct (range_indexes_good c1) as (r & -> & Hr); [done|destruct Hs as (_ & -> & _); done|].
  destruct r as [c2|]; cbn; [|done]. destruct (Hr c2 eq_refl) as (Hs2 & H2 & El2 & Eb2).
  split; [done|]. split; [unfold same_request in *; cbn in *; intuition congruence|].
  split; [setters H2|]. cbn. congruence.
Qed.

Lemma lmove_good t c : fresh c -> good t c (parse_lmove t c).
Proof.
  intros [H Hl]. unfold parse_lmove. destruct (Nat.eqb_spec (length (c_args c)) 4) as [Hn|]; [|done]. cbn [negb].
  apply good_lookup; [lia|]. intros from _. destruct (_ && _); [done|].
  apply good_lookup; [lia|]. intros to _. destruct (_ && _); [done|]. cbn. setters H.
Qed.

Lemma rpoplpush_good t c : fresh c -> good t c (parse_rpoplpush t c).
Proof. intros [H Hl]. unfold parse_rpoplpush. destruct (negb _); [done|]. cbn. setters H. Qed.

Lemma blmove_good t c : fresh c -> good t c (parse_blmove t c).
Proof.
  intros [H Hl]. unfold parse_blmove. destruct (Nat.eqb_spec (length (c_args c)) 5) as [Hn|]; [|done]. cbn [negb].
  apply good_lookup; [lia|]. intros from _. destruct (_ && _); [done|].
  apply good_lookup; [lia|]. intros to _. destruct (_ && _); [done|].
  apply good_lookup; [lia|]. intros text _. destruct (parse_timeout text) as [|d] eqn:E; [done|].
  apply parse_timeout_duration in E. cbn. setters H.
Qed.

Lemma blpop_good t c : fresh c -> good t c (parse_blpop t c).
Proof.
  intros [H Hl]. unfold parse_blpop. destruct (Nat.ltb_spec (length (c_args c)) 2) as [|Hn]; [done|].
  rewrite last_lookup. apply good_lookup; [lia|]. intros text _. destruct (parse_timeout text) as [|d] eqn:E; [done|].
  apply parse_timeout_duration in E. cbn. setters H.
Qed.

Lemma lmpop_keys_good t k c : fresh c -> (k < length (c_args c))%nat -> good t c (parse_lmpop_keys t k c).
Proof.
  intros [H Hl] Hk. unfold parse_lmpop_keys. apply good_lookup; [done|]. intros text _.
  destruct (parse_i64 text) as [numkeys|]; [|done]. destruct (Z.leb_spec numkeys 0); [done|].
  destruct (Z.ltb_spec (Z.of_nat (length (c_args c))) numkeys); [done|].
  destruct (Nat.leb_spec (length (c_args c)) (k + 1 + Z.to_nat numkeys)); [done|]. cbn [orb].
  destruct (_ && _); [done|]. apply good_lookup; [lia|]. intros side _. destruct (_ && _); [done|].
  destruct (Nat.eqb_spec (length (c_args c)) (k + 1 + Z.to_nat numkeys + 3)); [|cbn; setters H].
  apply good_lookup; [cbn; lia|]. intros word _. destruct (negb _); [done|].
  apply good_lookup; [cbn; lia|]. intros ct _. destruct (parse_i64 ct) as [count|] eqn:E; [|done].
  apply parse_i64_in in E. destruct (Z.leb_spec count 0); [done|]. cbn. setters H.
Qed.

Lemma good_same t c c1 r : same_request c c1 -> good t c1 r -> good t c r.
Proof. unfold good, same_request. destruct r as [[]|]; intuition congruence. Qed.

Lemma lmpop_good t c : fresh c -> good t c (parse_lmpop t c).
Proof.
  intros Hf. unfold parse_lmpop. destruct (Nat.ltb_spec (length (c_args c)) (if ct_eqb t CT_blmpop || ct_eqb t CT_pma_blmpop || ct_eqb t CT_segmented_blmpop then 4 else 3)) as [|Hn]; [done|].
  destruct (_ || _); [|apply lmpop_keys_good; [done|lia]].
  apply good_lookup; [lia|]. intros text _. destruct (parse_timeout text) as [|d] eqn:E; [done|].
  apply parse_timeout_duration in E. destruct Hf as [H Hl].
  apply (good_same _ _ (with_list_timeout d c)); [done|]. apply lmpop_keys_good; [split; [setters H|done]|cbn; lia].
Qed.

Lemma lrange_good t c : fresh c -> good t c (parse_lrange t c).
Proof.
  intros [H Hl]. unfold parse_lrange. destruct (Nat.eqb_spec (length (c_args c)) 3) as [Hn|]; [|done]. cbn [negb].
  destruct (range_indexes_good c) as (r & -> & Hr); [done|lia|]. destruct r as [c2|]; cbn; [|done].
  destruct (Hr c2 eq_refl) as (Hs2 & H2 & El2 & Eb2). split; [done|]. split; [exact Hs2|]. split; [setters H2|congruence].
Qed.

Lemma save_good c : fresh c -> good CT_goblin_save c (parse_save c).
Proof. intros [H Hl]. unfold parse_save. destruct (Nat.ltb _ _); [done|]. cbn. setters H. Qed.

Ltac open_switch :=
  cbv beta iota zeta delta [parse_switch parse_session parse_scripts parse_zset parse_hash parse_set parse_array
    parse_list parse_string parse_keys parse_goblin].
Ltac by_command t := destruct t; open_switch.

#[local] Hint Resolve good_checked good_plain zrange_good lmove_good rpoplpush_good blmove_good blpop_good
  lmpop_good lrange_good save_good : parse.

Lemma switch_good t c : fresh c -> good t c (parse_switch t c).
Proof. intros H. by_command t; eauto with parse. Qed.

(** ** The names *)

Lemma keywords_short : forallb (fun k => Nat.leb (length k.1) 29 && negb (ct_eqb k.2 CT_unknown)) keywords = true.
Proof. by vm_compute. Qed.

Lemma keyword_short s t : (s, t) ∈ keywords -> (length s <= 29)%nat /\ t <> CT_unknown.
Proof.
  intros H%list_elem_of_In. pose proof (proj1 (forallb_forall _ _) keywords_short _ H) as [H1 H2]%andb_true_iff.
  cbn in *. split; [by apply Nat.leb_le|]. intros ->. done.
Qed.

Lemma find_entry_upper s e : find_entry (upper s) = Some e -> (length s <= 29)%nat /\ e_type e <> CT_unknown.
Proof. intros [_ H]%find_entry_spec. unfold upper in H. apply keyword_short in H. by rewrite length_map in H. Qed.

(** The name a request is dispatched on, and its packed kind. *)
Definition dispatch_name (name : bytes) : bytes :=
  match packed_zset_command_name name with Some (_, suffix) => suffix | None => name end.
Definition is_packed (name : bytes) : bool := bool_decide (is_Some (packed_zset_command_name name)).

Lemma dispatch_entry_short p s e : dispatch_entry p s = Some e -> (length s <= 29)%nat /\ e_type e <> CT_unknown.
Proof.
  unfold dispatch_entry. destruct (find_entry (upper s)) as [e'|] eqn:E; [|done]. destruct (_ && _); [done|].
  intros [= <-]. by apply find_entry_upper in E.
Qed.

Lemma lookup_command_type_entry name :
  lookup_command_type name =
  match dispatch_entry (is_packed name) (dispatch_name name) with Some e => e_type e | None => CT_unknown end.
Proof.
  unfold lookup_command_type. fold (dispatch_name name) (is_packed name).
  destruct (Nat.ltb_spec 31 (length (dispatch_name name))); [|done].
  destruct (dispatch_entry _ _) eqn:E; [|done]. apply dispatch_entry_short in E. lia.
Qed.

(** The command the switch receives. *)
Definition prepared (name : bytes) (args : list bytes) : Command :=
  let command := default_Command CT_unknown name args in
  match packed_zset_command_name name with
  | Some (kind, _) => with_packed_kind kind command
  | None => with_hash_tag (hash_tag (length name) (upper name ++ replicate (32 - length name) x00)) command
  end.

Ltac wf_initial := constructor; cbn; unfold in_i64, i64_min, i64_max; lia || done.

Lemma prepared_fresh name args : fresh (prepared name args).
Proof. unfold prepared. destruct (packed_zset_command_name name) as [[k s]|]; split; try done; wf_initial. Qed.

Lemma parse_command_known name args e :
  dispatch_entry (is_packed name) (dispatch_name name) = Some e ->
  parse_command (name :: args) = parse_switch (e_type e) (prepared name args).
Proof.
  intros He. unfold parse_command. fold (dispatch_name name) (is_packed name).
  pose proof (dispatch_entry_short _ _ _ He) as [Hs _]. replace (Nat.leb (length (dispatch_name name)) 31) with true by (symmetry; apply Nat.leb_le; lia).
  rewrite He. unfold prepared, dispatch_name in *. by destruct (packed_zset_command_name name) as [[k s]|].
Qed.

Lemma parse_command_unknown name args :
  lookup_command_type name = CT_unknown ->
  exists c, parse_command (name :: args) = Some (inr c) /\ c_type c = CT_unknown /\ c_name c = name /\ c_args c = args /\ fresh c.
Proof.
  intros Hu. assert (He : dispatch_entry (is_packed name) (dispatch_name name) = None).
  { rewrite lookup_command_type_entry in Hu. destruct (dispatch_entry _ _) as [e|] eqn:E; [|done].
    by apply dispatch_entry_short in E as [_ ?]. }
  unfold parse_command. fold (dispatch_name name) (is_packed name). rewrite He.
  destruct (Nat.leb _ _), (packed_zset_command_name name) as [[k s]|]; eexists; (split; [reflexivity|]);
    (split_and!; [done..|split; [wf_initial|done]]).
Qed.

Lemma parse_command_switch name args :
  lookup_command_type name <> CT_unknown ->
  parse_command (name :: args) = parse_switch (lookup_command_type name) (prepared name args).
Proof.
  rewrite lookup_command_type_entry. destruct (dispatch_entry _ _) as [e|] eqn:E; [|done]. intros _. by apply parse_command_known.
Qed.

(** C34: parsing a request never reads past its arguments, and a parsed command carries the request's name
    and arguments, the type [lookup_command_type] gives the name, and fields its handler can use unchecked:
    a key span inside the arguments, a finite non-negative timeout, a positive element count, range bounds
    that fit 64 bits, a non-negative LIMIT offset, and a LIMIT only on a range by score. *)
Theorem parse_command_delivers (fields : list bytes) :
  match parse_command fields with
  | None => False
  | Some (inl error) => True
  | Some (inr c) =>
      exists name args, fields = name :: args /\ c_name c = name /\ c_args c = args /\
        c_type c = lookup_command_type name /\ wf c /\ (c_range_has_limit c = true -> c_range_by_score c = true)
  end.
Proof.
  destruct fields as [|name args]; [done|]. destruct (decide (lookup_command_type name = CT_unknown)) as [Hu|Hk].
  - destruct (parse_command_unknown name args Hu) as (c & -> & Ht & Hn & Ha & Hw & Hl).
    exists name, args. rewrite Hu. split_and!; [done..|congruence].
  - rewrite parse_command_switch by done. pose proof (switch_good (lookup_command_type name) _ (prepared_fresh name args)) as Hg.
    unfold good in Hg. destruct (parse_switch _ _) as [[e|c]|]; [done| |done]. destruct Hg as (Ht & (Hn & Ha & _) & Hw & Hl).
    exists name, args. unfold prepared in Hn, Ha. destruct (packed_zset_command_name name) as [[k s]|]; cbn in *; by split_and!.
Qed.

(** ** Case-insensitive names *)

Lemma upper_app a b : upper (a ++ b) = upper a ++ upper b.
Proof. apply map_app. Qed.

Lemma length_upper a : length (upper a) = length a.
Proof. apply length_map. Qed.

Lemma upper_split name p s : upper name = p ++ s -> upper (take (length p) name) = p /\ upper (drop (length p) name) = s.
Proof.
  unfold upper. intros H. rewrite <- firstn_map, <- skipn_map, H, take_app_length, drop_app_length. done.
Qed.

Lemma equals_ci_upper a b : equals_ci a b = true <-> upper a = upper b.
Proof.
  revert b. induction a as [|x a IH]; intros [|y b]; cbn; try (split; done).
  rewrite andb_true_iff, bool_decide_eq_true, IH. split; [intros [-> H]; unfold upper in *; congruence|by intros [= ? ?]].
Qed.

Lemma starts_with_ci_upper v p : starts_with_ci v p = true <-> exists s, upper v = upper p ++ s.
Proof.
  unfold starts_with_ci. rewrite andb_true_iff, equals_ci_upper, Nat.leb_le. split.
  - intros [Hl H]. exists (upper (drop (length p) v)). rewrite <- H, <- upper_app. by rewrite take_drop.
  - intros [s H]. pose proof (f_equal length H) as Hl. rewrite length_app, !length_upper in Hl. split; [lia|].
    apply upper_split in H as [H _]. by rewrite length_upper in H.
Qed.

(** No packed prefix continues another one, and no keyword begins with one. *)
Definition is_prefix_of (p s : bytes) : bool := bool_decide (take (length p) s = p).

Lemma is_prefix_of_app p s : is_prefix_of p (p ++ s) = true.
Proof. apply bool_decide_eq_true. by rewrite take_app_length. Qed.

Lemma packed_prefixes_free :
  forallb (fun p => bool_decide (upper p.1 = p.1) && forallb (fun q => implb (is_prefix_of p.1 q.1) (bool_decide (p = q))) kPackedZSetPrefixes) kPackedZSetPrefixes = true.
Proof. by vm_compute. Qed.

Lemma packed_prefixes_no_keyword :
  forallb (fun p => forallb (fun k => negb (is_prefix_of p.1 k.1)) keywords) kPackedZSetPrefixes = true.
Proof. by vm_compute. Qed.

Lemma prefix_upper p k : (p, k) ∈ kPackedZSetPrefixes -> upper p = p.
Proof.
  intros H%list_elem_of_In. pose proof (proj1 (forallb_forall _ _) packed_prefixes_free _ H) as [Hu _]%andb_true_iff.
  by apply bool_decide_eq_true in Hu.
Qed.

Lemma prefix_unique p k q k' s s' :
  (p, k) ∈ kPackedZSetPrefixes -> (q, k') ∈ kPackedZSetPrefixes -> p ++ s = q ++ s' -> p = q /\ k = k' /\ s = s'.
Proof.
  intros Hp Hq Heq.
  assert (Hfree : forall a ka b kb, (a, ka) ∈ kPackedZSetPrefixes -> (b, kb) ∈ kPackedZSetPrefixes -> is_prefix_of a b = true -> (a, ka) = (b, kb)).
  { intros a ka b kb Ha%list_elem_of_In Hb%list_elem_of_In Hpre.
    pose proof (proj1 (forallb_forall _ _) packed_prefixes_free _ Ha) as [_ H]%andb_true_iff.
    pose proof (proj1 (forallb_forall _ _) H _ Hb) as Hi. cbn [fst] in Hi. rewrite Hpre in Hi. cbn in Hi.
    by apply bool_decide_eq_true in Hi. }
  assert (Hpq : (p, k) = (q, k')).
  { destruct (Nat.le_ge_cases (length p) (length q)).
    - apply Hfree; [done..|]. apply bool_decide_eq_true. rewrite <- (take_app_le q s') by done. rewrite <- Heq. apply take_app_length.
    - symmetry. apply Hfree; [done..|]. apply bool_decide_eq_true. rewrite <- (take_app_le p s) by done. rewrite Heq. apply take_app_length. }
  injection Hpq as -> ->. apply app_inv_head in Heq. by subst.
Qed.

Lemma keyword_no_prefix p k s t : (p, k) ∈ kPackedZSetPrefixes -> (p ++ s, t) ∈ keywords -> False.
Proof.
  intros Hp%list_elem_of_In Hk%list_elem_of_In. pose proof (proj1 (forallb_forall _ _) packed_prefixes_no_keyword _ Hp) as H.
  cbv beta in H. pose proof (proj1 (forallb_forall _ _) H _ Hk) as Hn. cbn [fst] in Hn. by rewrite is_prefix_of_app in Hn.
Qed.

Lemma packed_name_in_some ps name k s :
  packed_name_in ps name = Some (k, s) -> exists p, (p, k) ∈ ps /\ upper name = upper p ++ upper s /\ s <> [].
Proof.
  induction ps as [|[p k'] ps IH]; cbn [packed_name_in]; [done|].
  destruct (starts_with_ci name p) eqn:E, (Nat.ltb_spec (length p) (length name)) as [Hl|]; cbn [andb];
    try (intros Hrec; destruct (IH Hrec) as (q & Hq & ?); exists q; (split; [rewrite elem_of_cons; by right|done])).
  intros [= <- <-]. apply starts_with_ci_upper in E as [s E]. exists p. split; [by rewrite elem_of_cons; left|].
  pose proof (upper_split _ _ _ E) as [E1 E2]. rewrite length_upper in E2. split; [by rewrite E2|].
  intros Hd%(f_equal length). rewrite length_drop in Hd. cbn in Hd. lia.
Qed.

Lemma packed_name_in_none ps name p k s :
  packed_name_in ps name = None -> (p, k) ∈ ps -> upper name = upper p ++ s -> s = [].
Proof.
  induction ps as [|[p' k'] ps IH]; cbn [packed_name_in]; intros Hn Hin Hu; [by apply not_elem_of_nil in Hin|].
  destruct (starts_with_ci name p' && Nat.ltb (length p') (length name)) eqn:E; [done|].
  apply elem_of_cons in Hin as [[= -> ->]|Hin]; [|by apply IH].
  apply andb_false_iff in E as [E|E].
  - rewrite (proj2 (starts_with_ci_upper name p')) in E; [done|by eexists].
  - apply Nat.ltb_ge in E. apply (f_equal length) in Hu. rewrite length_app, !length_upper in Hu. apply nil_length_inv. lia.
Qed.

(** What [packed_zset_command_name] finds. *)
Lemma packed_name_spec name :
  match packed_zset_command_name name with
  | Some (k, s) => exists p, (p, k) ∈ kPackedZSetPrefixes /\ upper name = p ++ upper s /\ s <> []
  | None => forall p k s, (p, k) ∈ kPackedZSetPrefixes -> upper name = p ++ s -> s = []
  end.
Proof.
  unfold packed_zset_command_name. destruct (packed_name_in kPackedZSetPrefixes name) as [[k s]|] eqn:E.
  - apply packed_name_in_some in E as (p & Hp & Hu & Hs). exists p. by rewrite (prefix_upper p k Hp) in Hu.
  - intros p k s Hp Hu. eapply packed_name_in_none; [done|done|]. by rewrite (prefix_upper p k Hp).
Qed.

(** The type a name stands for, read off the keyword file and the packed prefixes. *)
Definition names (name : bytes) (t : CommandType) : Prop :=
  (upper name, t) ∈ keywords \/
  exists p k s, (p, k) ∈ kPackedZSetPrefixes /\ upper name = p ++ s /\ (s, t) ∈ keywords /\ is_packed_zset_command t = true.

Lemma keyword_nonempty t : ([], t) ∈ keywords -> False.
Proof.
  intros H. assert (Hn : forallb (fun k => negb (Nat.eqb (length k.1) 0)) keywords = true) by by vm_compute.
  by pose proof (proj1 (forallb_forall _ _) Hn _ (proj1 (list_elem_of_In _ _) H)).
Qed.

Lemma dispatch_entry_spec p s e :
  dispatch_entry p s = Some e <-> e_name e = upper s /\ (upper s, e_type e) ∈ keywords /\ (p = true -> is_packed_zset_command (e_type e) = true).
Proof.
  unfold dispatch_entry. split.
  - destruct (find_entry (upper s)) as [e'|] eqn:E; [|done]. apply find_entry_spec in E as [E1 E2].
    destruct p, (is_packed_zset_command (e_type e')) eqn:Ep; cbn; intros [= <-]; by split_and!.
  - intros (Hn & Hk & Hp). rewrite (proj2 (find_entry_spec (upper s) e)) by done.
    destruct p; [by rewrite Hp|done].
Qed.

Lemma lookup_names name t : t <> CT_unknown -> lookup_command_type name = t <-> names name t.
Proof.
  intros Ht. rewrite lookup_command_type_entry. unfold is_packed, dispatch_name.
  pose proof (packed_name_spec name) as Hsp. destruct (packed_zset_command_name name) as [[k s]|].
  - destruct Hsp as (p & Hp & Hu & Hs). rewrite bool_decide_eq_true_2 by (by eexists). split.
    + destruct (dispatch_entry true s) as [e|] eqn:E; [|by intros <-]. apply dispatch_entry_spec in E as (_ & Hk & Hpk).
      intros <-. right. exists p, k, (upper s). split_and!; auto.
    + intros [Hk|(q & k' & s' & Hq & Hu' & Hk & Hpk)].
      * rewrite Hu in Hk. by destruct (keyword_no_prefix _ _ _ _ Hp Hk).
      * destruct (prefix_unique p k q k' (upper s) s') as (-> & -> & <-); [done..|congruence|].
        rewrite (proj2 (dispatch_entry_spec true s (mkEntry (upper s) t))) by done. done.
  - rewrite bool_decide_eq_false_2 by (by intros [? ?]). split.
    + destruct (dispatch_entry false name) as [e|] eqn:E; [|by intros <-]. apply dispatch_entry_spec in E as (_ & Hk & _).
      intros <-. by left.
    + intros [Hk|(q & k' & s' & Hq & Hu' & Hk & Hpk)].
      * by rewrite (proj2 (dispatch_entry_spec false name (mkEntry (upper name) t))).
      * apply (Hsp _ k') in Hu'; [|done]. subst s'. by destruct (keyword_nonempty t).
Qed.

(** A command name means, in any letter case, the keyword it spells or a packed prefix followed by a
    keyword that has a packed form; any other name is unknown.  The six prefixes and the keywords never
    overlap, so the meaning is unique. *)
Theorem command_names_correct :
  (forall name t, t <> CT_unknown -> (lookup_command_type name = t) <-> names name t) /\
  (forall name name', upper name = upper name' -> lookup_command_type name = lookup_command_type name').
Proof.
  split; [apply lookup_names|]. intros a b H.
  assert (Hn : forall t, names a t <-> names b t) by (intros t; unfold names; by rewrite H).
  destruct (decide (lookup_command_type a = CT_unknown)) as [Ha|Ha]; destruct (decide (lookup_command_type b = CT_unknown)) as [Hb|Hb].
  - congruence.
  - exfalso. apply Hb. rewrite <- Ha. symmetry. apply lookup_names; [done|]. apply Hn. by apply lookup_names.
  - symmetry. apply lookup_names; [done|]. apply Hn. by apply lookup_names.
  - apply lookup_names; [done|]. apply Hn. by apply lookup_names.
Qed.

(** Every name COMMAND lists is known: the keywords, and each packed prefix with each listed suffix, which
    means what the suffix alone means. *)
Lemma catalog_known :
  Forall (fun k => lookup_command_type k.1 = k.2) keywords /\
  Forall (fun p => Forall (fun s : bytes => is_packed_zset_command (lookup_command_type (p.1 ++ s)) = true /\
    lookup_command_type (p.1 ++ s) = lookup_command_type s) kPackedZSetCommandSuffixes) kPackedZSetPrefixes.
Proof. split; apply (bool_decide_unpack _); by vm_compute. Qed.

(** ** The implementation tag *)

(** The implementation an executed command selects, from the tag or the name
    ([execute_command_into_impl]). *)
Definition hash_implementation (command : Command) : option HashImplementation :=
  if c_hash_implementation_tag command =? 2 then Some Realtime
  else if starts_with_ci (c_name command) (str "GOBLIN.EFFICENT.") then Some Efficient
  else qualified_hash_implementation (c_name command).

(** [enum class ArrayImplementation]. *)
Inductive ArrayImplementation := ClassicArray | RealtimeArray.

Definition array_implementation (configured : ArrayImplementation) (command : Command) : ArrayImplementation :=
  if c_hash_implementation_tag command =? 2 then RealtimeArray
  else if starts_with_ci (c_name command) (str "GOBLIN.CLASSIC.") then ClassicArray
  else configured.

Lemma upper_is_buffer name z off text :
  (off + length text <= length name)%nat -> upper_is (upper name ++ z) off text = bool_decide (take (length text) (drop off (upper name)) = text).
Proof.
  intros H. unfold upper_is. rewrite drop_app_le by (rewrite length_upper; lia).
  rewrite take_app_le by (rewrite length_drop, length_upper; lia). done.
Qed.

Lemma starts_with_split name a b :
  upper a = a -> upper b = b ->
  starts_with_ci name (a ++ b) = bool_decide (take (length a) (upper name) = a) && bool_decide (take (length b) (drop (length a) (upper name)) = b).
Proof.
  intros Ha Hb. apply eq_true_iff_eq. rewrite starts_with_ci_upper, andb_true_iff, !bool_decide_eq_true, upper_app, Ha, Hb. split.
  - intros [s ->]. rewrite <- app_assoc, take_app_length, drop_app_length, take_app_length. done.
  - intros [H1 H2]. exists (drop (length b) (drop (length a) (upper name))).
    rewrite <- app_assoc. rewrite <- H2 at 1. rewrite take_drop. rewrite <- H1 at 1. by rewrite take_drop.
Qed.

Lemma starts_with_length name p : starts_with_ci name p = true -> (length p <= length name)%nat.
Proof. unfold starts_with_ci. intros [H _]%andb_true_iff. by apply Nat.leb_le. Qed.

Lemma hash_tag_realtime name z :
  (hash_tag (length name) (upper name ++ z) =? 2) = starts_with_ci name (str "GOBLIN.RT.").
Proof.
  unfold hash_tag. pose proof (starts_with_split name (str "GOBLIN.") (str "RT.") eq_refl eq_refl) as Hs.
  change (str "GOBLIN." ++ str "RT.") with (str "GOBLIN.RT.") in Hs.
  destruct (Nat.leb_spec 10 (length name)) as [Hl|Hl].
  - rewrite !upper_is_buffer by (cbn; lia). rewrite Hs, drop_0.
    destruct (bool_decide (take (length (str "GOBLIN.")) (upper name) = _)); cbn [andb]; [|done].
    change (length (str "GOBLIN.")) with 7%nat. destruct (bool_decide (take (length (str "RT.")) _ = _)); [done|].
    by repeat destruct (_ && _).
  - cbn [andb]. destruct (starts_with_ci name (str "GOBLIN.RT.")) eqn:E; [|done]. apply starts_with_length in E. cbn in E. lia.
Qed.

Lemma packed_not_realtime :
  forallb (fun p => Nat.leb 10 (length p.1) && negb (bool_decide (take 10 p.1 = str "GOBLIN.RT."))) kPackedZSetPrefixes = true.
Proof. by vm_compute. Qed.

Lemma packed_name_not_realtime name k s : packed_zset_command_name name = Some (k, s) -> starts_with_ci name (str "GOBLIN.RT.") = false.
Proof.
  intros E. pose proof (packed_name_spec name) as Hsp. rewrite E in Hsp. destruct Hsp as (p & Hp & Hu & _).
  destruct (starts_with_ci name _) eqn:Es; [|done]. apply starts_with_ci_upper in Es as [s' Hs].
  apply list_elem_of_In in Hp. pose proof (proj1 (forallb_forall _ _) packed_not_realtime _ Hp) as [Hl Hn]%andb_true_iff.
  apply Nat.leb_le in Hl. apply negb_true_iff, bool_decide_eq_false in Hn. cbn [fst] in Hl, Hn. destruct Hn.
  rewrite <- (take_app_le p (upper s)) by done. by rewrite <- Hu, Hs.
Qed.

(** The implementation tag captured at parse time and the later scan of the command name never
    disagree: a parsed command selects the hash implementation its name is qualified with, and an array
    command runs real-time exactly under GOBLIN.RT., classic under GOBLIN.CLASSIC., and the configured way
    otherwise. *)
Theorem implementation_tag_equiv (name : bytes) (args : list bytes) (c : Command) (configured : ArrayImplementation) :
  parse_command (name :: args) = Some (inr c) -> c_type c <> CT_unknown ->
  hash_implementation c = qualified_hash_implementation name /\
  array_implementation configured c =
    (if starts_with_ci name (str "GOBLIN.RT.") then RealtimeArray
     else if starts_with_ci name (str "GOBLIN.CLASSIC.") then ClassicArray else configured).
Proof.
  intros Hp Ht. assert (Hk : lookup_command_type name <> CT_unknown).
  { intros Hu. destruct (parse_command_unknown name args Hu) as (c' & Hp' & Ht' & _). congruence. }
  rewrite parse_command_switch in Hp by done. pose proof (switch_good (lookup_command_type name) _ (prepared_fresh name args)) as Hg.
  rewrite Hp in Hg. destruct Hg as (_ & (Hn & _ & Htag & _) & _).
  assert ((c_hash_implementation_tag c =? 2) = starts_with_ci name (str "GOBLIN.RT.") /\ c_name c = name) as [H2 Hname].
  { rewrite Htag, Hn. unfold prepared. destruct (packed_zset_command_name name) as [[k s]|] eqn:E;
      cbn [c_hash_implementation_tag c_name with_packed_kind with_hash_tag default_Command];
      [by rewrite (packed_name_not_realtime _ _ _ E)|by rewrite hash_tag_realtime]. }
  unfold hash_implementation, array_implementation, qualified_hash_implementation. rewrite H2, Hname.
  destruct (starts_with_ci name (str "GOBLIN.RT.")); [done|]. split; [by destruct (starts_with_ci name _)|done].
Qed.

Lemma implementation_tag_equiv_witness :
  hash_implementation (with_hash_tag 2 (default_Command CT_hset (str "goblin.rt.hset") [str "k"; str "f"; str "v"])) = Some Realtime.
Proof.
  apply (implementation_tag_equiv (str "goblin.rt.hset") [str "k"; str "f"; str "v"] _ ClassicArray); [by vm_compute|done].
Defined.

(** ** Arity *)

(** The advertised arity counts the name; a negative one is a minimum. *)
Definition admits (arity : Z) (fields : nat) : bool :=
  if 0 <=? arity then Z.of_nat fields =? arity else - arity <=? Z.of_nat fields.

Definition expire_family (t : CommandType) : bool :=
  match t with CT_expire | CT_pexpire | CT_expireat | CT_pexpireat => true | _ => false end.

Definition is_arity_error (r : parse_result) : Prop := exists name, r = Some (inl (wrong_arity name)).

(** The parse of a command with [arity] on [n] arguments. *)
Definition arity_good (arity : Z) (n : nat) (r : parse_result) : Prop :=
  (admits arity (S n) = false -> is_arity_error r) /\ (0 < arity -> admits arity (S n) = true -> ~ is_arity_error r).

Lemma arity_exact arity (n : nat) r :
  0 < arity -> (Z.of_nat n <> arity - 1 -> is_arity_error r) -> (Z.of_nat n = arity - 1 -> ~ is_arity_error r) -> arity_good arity n r.
Proof.
  intros Ha H1 H2. unfold arity_good, admits. destruct (Z.leb_spec 0 arity); [|lia].
  split; [intros Hx; apply H1; lia|intros _ Hx; apply H2; lia].
Qed.

(** The commands of variable arity: only the minimum is advertised. *)
Lemma arity_minimum arity (n : nat) r :
  arity < 0 -> (Z.of_nat n < - arity - 1 -> is_arity_error r) -> arity_good arity n r.
Proof. intros Ha H. unfold arity_good, admits. destruct (Z.leb_spec 0 arity); [lia|]. split; intros; [apply H; lia|lia]. Qed.

Lemma arity_checked_exact arity b name t c :
  0 < arity -> (Z.of_nat (length (c_args c)) <> arity - 1 -> b = true) -> (Z.of_nat (length (c_args c)) = arity - 1 -> b = false) ->
  arity_good arity (length (c_args c)) (checked b name t c).
Proof.
  intros Ha H1 H2. apply arity_exact; [done|intros H; rewrite (H1 H); by eexists|]. intros H. rewrite (H2 H). by intros [m Hm].
Qed.

Lemma arity_checked_minimum arity b name t c :
  arity < 0 -> (Z.of_nat (length (c_args c)) < - arity - 1 -> b = true) ->
  arity_good arity (length (c_args c)) (checked b name t c).
Proof. intros Ha H1. apply arity_minimum; [done|]. intros H. rewrite (H1 H). by eexists. Qed.

(** Errors that are not about the number of arguments. *)
Lemma not_arity_error e : take 5 e <> str "ERR w" -> ~ is_arity_error (parse_error e).
Proof. intros H [m [= Hm]]. by subst e. Qed.

Lemma not_arity_parsed c : ~ is_arity_error (parsed c).
Proof. by intros [m Hm]. Qed.

Ltac not_arity := first [apply not_arity_parsed | by apply not_arity_error].

Lemma arity_lmove t c : arity_good 5 (length (c_args c)) (parse_lmove t c).
Proof.
  unfold parse_lmove. apply arity_exact; [lia|intros; destruct (Nat.eqb_spec (length (c_args c)) 4); [lia|by eexists]|].
  intros Hn. destruct (Nat.eqb_spec (length (c_args c)) 4) as [Hl|]; [|lia].
  cbn [negb]. destruct (c_args c) as [|a0 [|a1 [|a2 [|a3 l]]]]; try discriminate Hl. cbn.
  destruct (_ && _); [not_arity|]. destruct (_ && _); not_arity.
Qed.

Lemma timeout_not_arity text e : parse_timeout text = inl e -> ~ is_arity_error (parse_error e).
Proof.
  unfold parse_timeout. destruct (parse_score text) as [t|]; [destruct (SFltb _ _)|]; intros [= <-]; not_arity.
Qed.

Lemma arity_blmove t c : arity_good 6 (length (c_args c)) (parse_blmove t c).
Proof.
  unfold parse_blmove. apply arity_exact; [lia|intros; destruct (Nat.eqb_spec (length (c_args c)) 5); [lia|by eexists]|].
  intros Hn. destruct (Nat.eqb_spec (length (c_args c)) 5) as [Hl|]; [|lia].
  cbn [negb]. destruct (c_args c) as [|a0 [|a1 [|a2 [|a3 [|a4 l]]]]]; try discriminate Hl. cbn -[parse_timeout is_left is_right].
  destruct (_ && _); [not_arity|]. destruct (_ && _); [not_arity|].
  destruct (parse_timeout a4) as [e|d] eqn:E; [by eapply timeout_not_arity|not_arity].
Qed.

Lemma arity_rpoplpush t c : arity_good 3 (length (c_args c)) (parse_rpoplpush t c).
Proof.
  unfold parse_rpoplpush. apply arity_exact; [lia|intros; destruct (Nat.eqb_spec (length (c_args c)) 2); [lia|by eexists]|].
  intros Hn. destruct (Nat.eqb_spec (length (c_args c)) 2) as [Hl|]; [|lia]. not_arity.
Qed.

Lemma arity_lrange t c : arity_good 4 (length (c_args c)) (parse_lrange t c).
Proof.
  unfold parse_lrange. apply arity_exact; [lia|intros; destruct (Nat.eqb_spec (length (c_args c)) 3); [lia|by eexists]|].
  intros Hn. destruct (Nat.eqb_spec (length (c_args c)) 3) as [Hl|]; [|lia].
  cbn [negb]. unfold parse_range_indexes. destruct (c_args c) as [|a0 [|a1 [|a2 l]]]; try discriminate Hl. cbn.
  destruct (parse_i64 a1); [destruct (parse_i64 a2)|]; cbn; not_arity.
Qed.

Lemma arity_zrange fb fr lg t name c : arity_good (-4) (length (c_args c)) (parse_zrange_case fb fr lg t name c).
Proof.
  apply arity_minimum; [lia|]. intros H. unfold parse_zrange_case. destruct (Nat.ltb_spec (length (c_args c)) 3); [by eexists|lia].
Qed.

Lemma arity_blpop t c : arity_good (-3) (length (c_args c)) (parse_blpop t c).
Proof. apply arity_minimum; [lia|]. intros H. unfold parse_blpop. destruct (Nat.ltb_spec (length (c_args c)) 2); [by eexists|lia]. Qed.

Lemma arity_lmpop t c :
  arity_good (if ct_eqb t CT_blmpop || ct_eqb t CT_pma_blmpop || ct_eqb t CT_segmented_blmpop then -5 else -4) (length (c_args c)) (parse_lmpop t c).
Proof.
  unfold parse_lmpop. destruct (_ || _); (apply arity_minimum; [lia|]); intros H;
    [destruct (Nat.ltb_spec (length (c_args c)) 4)|destruct (Nat.ltb_spec (length (c_args c)) 3)]; try lia; by eexists.
Qed.

Lemma arity_save c : arity_good (-1) (length (c_args c)) (parse_save c).
Proof. apply arity_minimum; lia. Qed.

Lemma arity_always t c : arity_good (-1) (length (c_args c)) (parsed (with_type t c)).
Proof. apply arity_minimum; lia. Qed.

Ltac arity_case :=
  first
  [ apply arity_checked_exact; [lia|intros; lia|intros; lia]
  | apply arity_checked_minimum; [lia|intros; lia]
  | apply arity_lmove | apply arity_blmove | apply arity_rpoplpush | apply arity_lrange | apply arity_zrange
  | apply arity_blpop | apply arity_save | apply arity_always
  | match goal with |- arity_good _ _ (parse_lmpop ?t ?c) => exact (arity_lmpop t c) end ].

Lemma switch_arity t c :
  t <> CT_unknown -> expire_family t = false -> arity_good (command_arity t) (length (c_args c)) (parse_switch t c).
Proof.
  intros Hu He. by_command t; try discriminate He; try (by destruct Hu); cbv beta iota delta [command_arity]; arity_case.
Qed.

Lemma prepared_args name args : c_args (prepared name args) = args.
Proof. unfold prepared. by destruct (packed_zset_command_name name) as [[k s]|]. Qed.

(** The arity COMMAND advertises is the one the parser enforces: for every known command outside the
    EXPIRE family, a request with a number of fields the advertised arity excludes is refused with the
    wrong-number-of-arguments error, and when the arity is exact a request that has it is not. *)
Theorem advertised_arity_enforced (name : bytes) (args : list bytes) :
  let t := lookup_command_type name in
  t <> CT_unknown -> expire_family t = false ->
  (admits (command_arity t) (S (length args)) = false -> is_arity_error (parse_command (name :: args))) /\
  (0 < command_arity t -> admits (command_arity t) (S (length args)) = true -> ~ is_arity_error (parse_command (name :: args))).
Proof.
  intros t Ht He. unfold t in *. rewrite parse_command_switch by done.
  pose proof (switch_arity (lookup_command_type name) (prepared name args) Ht He) as H. by rewrite prepared_args in H.
Qed.

Lemma advertised_arity_enforced_witness :
  is_arity_error (parse_command [str "get"]) /\ ~ is_arity_error (parse_command [str "Get"; str "key"]).
Proof.
  split; [apply (advertised_arity_enforced (str "get") [])|apply (advertised_arity_enforced (str "Get") [str "key"])];
    by vm_compute.
Defined.

(** The EXPIRE family is the exception: COMMAND advertises exactly four fields, the parser takes three or more. *)
Theorem expire_arity_diverges (name : bytes) (args : list bytes) :
  expire_family (lookup_command_type name) = true ->
  command_arity (lookup_command_type name) = 4 /\ (is_arity_error (parse_command (name :: args)) <-> (length args < 2)%nat).
Proof.
  intros He. assert (Hk : lookup_command_type name <> CT_unknown) by (intros Hu; by rewrite Hu in He).
  rewrite parse_command_switch by done. destruct (lookup_command_type name); try discriminate He; (split; [done|]);
    open_switch; unfold checked; rewrite prepared_args; destruct (Nat.ltb_spec (length args) 2);
    (split; [|lia || (intros; by eexists)]); [lia|by intros [m Hm]..].
Qed.

(** A parse as its callers use it; the read outside the arguments does not happen. *)
Definition parse_fields (fields : list bytes) : bytes + Command := default (inl []) (parse_command fields).

Lemma parse_fields_eq fields : parse_command fields = Some (parse_fields fields).
Proof.
  unfold parse_fields. destruct fields as [|name args]; [done|]. destruct (decide (lookup_command_type name = CT_unknown)) as [Hu|Hk].
  - by destruct (parse_command_unknown name args Hu) as (c & -> & _).
  - rewrite parse_command_switch by done. pose proof (switch_good (lookup_command_type name) _ (prepared_fresh name args)) as Hg.
    by destruct (parse_switch _ _).
Qed.

End Parse.
