(* ===== verification/Keyspace.v ===== *)
(** * The keyspace

    Models [include/goblin/core/string_value.hpp] and the class [Keyspace] of
    [include/goblin/core/store.hpp]: one namespace from key names to objects, kept as
    a name index over dense ids, with parallel arrays of types and objects and
    removal by moving the last id into the hole.  The byte arena of
    [KeyspaceStorage] appears as the blob each id or value refers to; compaction
    moves blobs without changing them and does not appear.  A value of a type other
    than string is a parameter. *)

From S2P Require Import Prelude ParseInt StringEncoding MemoryLimit CommandClass.
From stdpp Require Import gmap.
From Stdlib Require Import ZArith Lia.

Import Classes.

Local Open Scope Z_scope.

#[global] Instance key_type_eq_dec : EqDecision KeyType.
Proof. solve_decision. Defined.

(** ** String values *)

(** [StringValue]: the stored length, the inline part, and the bytes of the arena
    tail its address refers to. *)
Record StringValue := mkSV { sv_length : Z; sv_head : bytes; sv_tail : bytes }.

Definition kInlineCap : Z := 14.
Definition kPrefixCap : nat := 6.

Definition is_inline (length_ : Z) : bool := length_ <=? kInlineCap.

(** The value a [StringValue{}] initialiser gives. *)
Definition empty_string_value : StringValue := mkSV 0 [] [].

Section strings.
Context {L : LZ4}.
Variable string_encoding_ : Z.

(** [write_raw_string_value]. *)
Definition write_raw_string_value (value : bytes) (verbatim : bool) : StringValue :=
  if verbatim then
    let length_ := u16 (Z.of_nat (length value)) in
    if is_inline length_ then mkSV length_ value []
    else mkSV length_ (take kPrefixCap value) (drop kPrefixCap value)
  else
    let length_ := u16 (Z.of_nat (length value) + 1) in
    if is_inline length_ then mkSV length_ (b8 kStringRaw :: value) []
    else mkSV length_ (b8 kStringRaw :: take (kPrefixCap - 1) value) (drop (kPrefixCap - 1) value).

(** The classified form. *)
Definition write_encoded_value (value : bytes) : result StringValue :=
  encoded ← StringEncoding.encode value string_encoding_ AllowLz4;
  let length_ := u16 (encoded_size_ encoded) in
  if is_inline length_ then Ret (mkSV length_ (write_to encoded) [])
  else
    head ← of_option (write_range_to encoded 0 kPrefixCap);
    tail ← of_option (write_range_to encoded kPrefixCap (Z.to_nat (encoded_size_ encoded) - kPrefixCap));
    Ret (mkSV length_ head tail).

Definition may_lz4 (value : bytes) : bool :=
  Options.lz4_enabled string_encoding_ &&
  ((Options.lz4_min_bytes string_encoding_ <=? Z.of_nat (length value)) || (kStringMaxBytes <? Z.of_nat (length value))).

Definition maybe_uuid (value : bytes) : bool := Nat.eqb (length value) 32 || Nat.eqb (length value) 36.

Definition write_string_value (value : bytes) : result StringValue :=
  if negb (Options.encoding_enabled string_encoding_) then
    if Z.of_nat (length value) <=? kStringMaxVerbatimBytes then Ret (write_raw_string_value value true)
    else write_encoded_value value
  else if negb (maybe_int value) && negb (maybe_uuid value) && negb (may_lz4 value) && (Z.of_nat (length value) <=? kStringMaxBytes)
  then Ret (write_raw_string_value value false)
  else write_encoded_value value.

(** [value_view]. *)
Definition value_view (slot : StringValue) : EncodedStringView :=
  if is_inline (sv_length slot)
  then {| head_ := sv_head slot; tail_ := []; encoding_enabled_ := Options.encoding_enabled string_encoding_ |}
  else {| head_ := sv_head slot; tail_ := sv_tail slot; encoding_enabled_ := Options.encoding_enabled string_encoding_ |}.

(** *** The shortcut writes what the classifier would *)

Context {LC : LZ4Correct L}.

Definition split_value (stored : bytes) : StringValue :=
  let n := Z.of_nat (length stored) in
  if is_inline n then mkSV n stored [] else mkSV n (take kPrefixCap stored) (drop kPrefixCap stored).

Lemma write_encoded_split value :
  write_encoded_value value = (e ← StringEncoding.encode value string_encoding_ AllowLz4; Ret (split_value (write_to e))).
Proof.
  unfold write_encoded_value, split_value. destruct (StringEncoding.encode value string_encoding_ AllowLz4) as [e| |] eqn:He; cbn [mbind result_bind]; [|done..].
  destruct (encoded_spec _ _ _ _ He) as (Hsz & Hle & Hr & _). unfold kStringMaxEncodedBytes in Hle.
  rewrite wrap_small by lia. rewrite Hsz. unfold is_inline, kInlineCap.
  destruct (Z.leb_spec (Z.of_nat (length (write_to e))) 14); [done|].
  rewrite !Hr by (unfold kPrefixCap; lia). rewrite Nat2Z.id. unfold slice, kPrefixCap.
  rewrite !decide_True by lia. cbn [of_option mbind result_bind]. rewrite drop_0. do 2 f_equal. apply take_ge. rewrite length_drop. lia.
Qed.

Lemma write_string_value_spec (value : bytes) :
  write_string_value value = (e ← StringEncoding.encode value string_encoding_ AllowLz4; Ret (split_value (write_to e))).
Proof.
  unfold write_string_value. destruct (Options.encoding_enabled string_encoding_) eqn:Hen; cbn [negb].
  - destruct (_ && _) eqn:Hc; [|apply write_encoded_split].
    apply andb_true_iff in Hc as [[[Hi%negb_true_iff Hu%negb_true_iff]%andb_true_iff Hl%negb_true_iff]%andb_true_iff Hs%Z.leb_le].
    unfold StringEncoding.encode. rewrite Hen. cbn [negb]. unfold encode_integer. rewrite Hi.
    unfold encode_uuid_any. unfold maybe_uuid in Hu. apply orb_false_iff in Hu as [H1%Nat.eqb_neq H2%Nat.eqb_neq].
    rewrite !bool_decide_eq_false_2 by done. cbn [orb]. unfold encode_lz4. unfold may_lz4 in Hl. cbn [andb]. rewrite Hl. cbn [andb].
    unfold kStringMaxBytes in *. bfalse (65534 <? Z.of_nat (length value)). cbn [mbind result_bind].
    unfold write_raw_string_value, split_value, write_to, source_. cbn [storage_ length]. rewrite !wrap_small by lia.
    unfold is_inline, kInlineCap. replace (Z.of_nat (S (length value))) with (Z.of_nat (length value) + 1) by lia. done.
  - unfold kStringMaxVerbatimBytes. destruct (Z.leb_spec (Z.of_nat (length value)) 65535) as [Hs|]; [|apply write_encoded_split].
    unfold StringEncoding.encode. rewrite Hen. cbn [negb]. unfold kStringMaxVerbatimBytes. bfalse (65535 <? Z.of_nat (length value)). cbn [mbind result_bind].
    unfold write_raw_string_value, split_value, write_to, source_. cbn [storage_]. by rewrite !wrap_small by lia.
Qed.

(** The shortcut of [write_string_value] for values that are neither integers, UUIDs nor candidates
    for compression stores exactly what the classifier stores: for every value and option word, the slot
    holds the classified bytes, split at the inline capacity, and the two fail together. *)
Theorem write_string_value_equiv (value : bytes) :
  write_string_value value = (e ← StringEncoding.encode value string_encoding_ AllowLz4; Ret (split_value (write_to e))).
Proof. apply write_string_value_spec. Qed.

(** A text the integer form does not wrap (see [StringEncoding.wraps]). *)
Definition plain (value : bytes) : Prop := wraps (unsigned_part value) = false.

Lemma split_value_view stored :
  view_bytes (value_view (split_value stored)) = stored /\
  encoding_enabled_ (value_view (split_value stored)) = Options.encoding_enabled string_encoding_.
Proof.
  unfold value_view, split_value, view_bytes. destruct (is_inline (Z.of_nat (length stored))) eqn:E; cbn [sv_length sv_head sv_tail]; rewrite E;
    cbn [head_ tail_ encoding_enabled_]; (split; [|done]); [apply app_nil_r|apply take_drop].
Qed.

(** A written value reads back. *)
Lemma written_view value slot :
  write_string_value value = Ret slot ->
  exists e, StringEncoding.encode value string_encoding_ AllowLz4 = Ret e /\
    encoding_enabled_ (value_view slot) = es_encoding_enabled e /\ view_bytes (value_view slot) = write_to e.
Proof.
  rewrite write_string_value_spec. intros Hw. apply result_bind_Ret in Hw as (e & He & [= <-]). exists e.
  destruct (split_value_view (write_to e)) as [Hv Hen]. split_and!; [done| |done]. rewrite Hen. unfold es_encoding_enabled.
  destruct (encode_cases _ _ _ _ He) as (_ & [(-> & -> & _)|(-> & [(? & -> & _)|[(? & -> & _)|[(? & -> & _)|(-> & _)]]])]); done.
Qed.

Lemma written_reads value slot :
  plain value -> write_string_value value = Ret slot -> reads_as (value_view slot) value.
Proof. intros Hp (e & He & Hen & Hv)%written_view. by eapply encode_reads. Qed.

Lemma written_reads_some value slot : write_string_value value = Ret slot -> exists text, reads_as (value_view slot) text.
Proof. intros (e & He & Hen & Hv)%written_view. by eapply encode_reads_some. Qed.

(** A tail only follows a head: the prefix of a spilled value is not empty. *)
Definition headed (v : EncodedStringView) : Prop := head_ v = [] -> tail_ v = [].

Lemma split_value_headed stored : headed (value_view (split_value stored)).
Proof.
  unfold headed, value_view, split_value. destruct (is_inline (Z.of_nat (length stored))) eqn:E; cbn [sv_length]; rewrite E; [done|].
  unfold is_inline, kInlineCap in E. destruct stored; [done|]. done.
Qed.

Lemma written_headed value slot : write_string_value value = Ret slot -> headed (value_view slot).
Proof. rewrite write_string_value_spec. intros Hw. apply result_bind_Ret in Hw as (e & _ & [= <-]). apply split_value_headed. Qed.

(** A value is written exactly when the constructor of its classified form does not throw. *)
Definition storable (value : bytes) : bool :=
  match StringEncoding.encode value string_encoding_ AllowLz4 with Ret _ => true | _ => false end.

Lemma encode_defined value mode :
  (exists e, StringEncoding.encode value string_encoding_ mode = Ret e) \/ (exists m, StringEncoding.encode value string_encoding_ mode = Throw m).
Proof.
  unfold StringEncoding.encode. destruct (negb _); [destruct (_ <? _); eauto|].
  destruct (encode_integer value); [eauto|]. destruct (encode_uuid_any value); [eauto|].
  destruct (encode_lz4 _ _ _); [eauto|]. destruct (_ <? _); eauto.
Qed.

Lemma write_storable value :
  if storable value then exists slot, write_string_value value = Ret slot
  else exists e, write_string_value value = Throw e.
Proof.
  rewrite write_string_value_spec. unfold storable. destruct (encode_defined value AllowLz4) as [[e ->]|[m ->]]; by eexists.
Qed.

End strings.

Lemma write_string_value_equiv_witness :
  @write_string_value copy_lz4 0 (str "seventeen letters") = Ret (split_value (b8 kStringRaw :: str "seventeen letters")) /\
  @write_string_value copy_lz4 0 (str "seventeen letters") =
    (e ← @StringEncoding.encode copy_lz4 (str "seventeen letters") 0 AllowLz4; Ret (split_value (write_to e))).
Proof. split; [vm_compute; reflexivity|]. apply (@write_string_value_equiv copy_lz4 0 copy_lz4_correct). Defined.

(** ** Keys, types and objects *)

Section keyspace.
Context {L : LZ4} {Payload : Type}.
Variable string_encoding_ : Z.

(** [KeyObjectSlot]: a union whose active member the type array names; [ObjRaw] is a slot not yet
    constructed. *)
Inductive KeyObject :=
| ObjRaw
| ObjStr (str : StringValue)
| ObjOther (object : Payload).

(** [keys_] is the key table of [storage_] with the bytes the locations refer to. *)
Record Keyspace := mkKeyspace {
  keys_ : list bytes;
  index_ : gmap bytes nat;
  objects_ : list KeyObject;
  types_ : list KeyType;
}.

Abbreviation K A := (M Keyspace A).

Definition kMaxBlobBytes : Z := 65535.
Definition kMaxKeyId : Z := 2 ^ 48 - 1.

(** [KeyMeta]: an id packed to 48 bits. *)
Definition key_meta (id : nat) : nat := Z.to_nat (wrap 48 (Z.of_nat id)).

Definition set_keys (l : list bytes) (ks : Keyspace) : Keyspace := mkKeyspace l (index_ ks) (objects_ ks) (types_ ks).
Definition set_index (i : gmap bytes nat) (ks : Keyspace) : Keyspace := mkKeyspace (keys_ ks) i (objects_ ks) (types_ ks).
Definition set_objects (l : list KeyObject) (ks : Keyspace) : Keyspace := mkKeyspace (keys_ ks) (index_ ks) l (types_ ks).
Definition set_types (l : list KeyType) (ks : Keyspace) : Keyspace := mkKeyspace (keys_ ks) (index_ ks) (objects_ ks) l.

Definition ks_empty : Keyspace := mkKeyspace [] ∅ [] [].
Definition ks_size (ks : Keyspace) : nat := length (types_ ks).
Definition find_id (key : bytes) (ks : Keyspace) : option nat := index_ ks !! key.
Definition contains (key : bytes) (ks : Keyspace) : bool := bool_decide (is_Some (find_id key ks)).

(** [type_of]. *)
Definition type_of (key : bytes) : K (option KeyType) :=
  id ← gets (find_id key);
  match id with
  | None => mret None
  | Some id => t ← gets (fun ks => types_ ks !! id); t ← need t; mret (Some t)
  end.

(** [storage_.view(id)]. *)
Definition key_for_id (id : nat) : K bytes := key ← gets (fun ks => keys_ ks !! id); need key.

Definition push_back_key (key : bytes) : K nat :=
  if kMaxBlobBytes <? Z.of_nat (length key) then throw LengthError
  else
    n ← gets (fun ks => length (keys_ ks));
    if kMaxKeyId <? Z.of_nat n then throw LengthError
    else modify (fun ks => set_keys (keys_ ks ++ [key]) ks);; mret n.

(** [pop_back] of a vector. *)
Definition pop_back {A} (l : list A) : list A := take (length l - 1) l.

Definition pop_back_key : K unit := modify (fun ks => set_keys (pop_back (keys_ ks)) ks).

(** Writing a slot of one of the arrays; outside of it is undefined. *)
Definition put_object (id : nat) (o : KeyObject) : K unit :=
  n ← gets (fun ks => length (objects_ ks));
  require (Nat.ltb id n);;
  modify (fun ks => set_objects (<[id := o]> (objects_ ks)) ks).
Definition put_type (id : nat) (t : KeyType) : K unit :=
  n ← gets (fun ks => length (types_ ks));
  require (Nat.ltb id n);;
  modify (fun ks => set_types (<[id := t]> (types_ ks)) ks).

Definition create_key (key : bytes) (type : KeyType) : K nat :=
  id ← gets ks_size;
  stored_id ← push_back_key key;
  require (Nat.eqb stored_id id);;
  modify (fun ks => set_objects (objects_ ks ++ [ObjRaw]) ks);;
  modify (fun ks => set_types (types_ ks ++ [type]) ks);;
  modify (fun ks => set_index (<[key := key_meta id]> (index_ ks)) ks);;
  mret id.

(** [rollback_created_key]. *)
Definition rollback_created_key (id : nat) : K unit :=
  n ← gets ks_size;
  require (Nat.eqb (id + 1) n);;
  key ← key_for_id id;
  modify (fun ks => set_index (delete key (index_ ks)) ks);;
  pop_back_key;;
  modify (fun ks => set_objects (pop_back (objects_ ks)) ks);;
  modify (fun ks => set_types (pop_back (types_ ks)) ks).

(** A string value written to a slot that is not yet visible; a value that is too large throws. *)
Definition write_value (value : bytes) : K StringValue := fun ks =>
  match write_string_value string_encoding_ value with
  | Ret slot => Ok slot ks
  | Throw _ => Exn LengthError ks
  | Undef => Ub
  end.

(** [store_string]; [destroy_object] frees what the slot owned. *)
Definition store_string (id : nat) (value : bytes) : K unit :=
  replacement ← write_value value;
  t ← gets (fun ks => types_ ks !! id);
  t ← need t;
  if bool_decide (t = KT_String) then put_object id (ObjStr replacement)
  else put_type id KT_String;; put_object id (ObjStr replacement).

Definition create_string (key value : bytes) : K nat :=
  id ← create_key key KT_String;
  put_object id (ObjStr empty_string_value);;
  try_catch (slot ← write_value value; put_object id (ObjStr slot))
    (fun e => rollback_created_key id;; throw e);;
  mret id.

Definition set_string (key value : bytes) : K nat :=
  found ← gets (find_id key);
  match found with
  | Some id => store_string id value;; mret id
  | None => create_string key value
  end.

Definition set_string_if_absent (key value : bytes) : K bool :=
  found ← gets (find_id key);
  match found with
  | Some _ => mret false
  | None => create_string key value;; mret true
  end.

(** [place_loaded_*]: a finished object under a new key. *)
Definition place_loaded (key : bytes) (type : KeyType) (object : Payload) : K nat :=
  id ← create_key key type;
  put_object id (ObjOther object);;
  mret id.

(** [enum class StringLookup]. *)
Inductive StringLookup := Missing | WrongType | OkString (value : EncodedStringView).

Definition get_string_result (key : bytes) : K StringLookup :=
  id ← gets (find_id key);
  match id with
  | None => mret Missing
  | Some id =>
      t ← gets (fun ks => types_ ks !! id);
      t ← need t;
      if bool_decide (t = KT_String) then
        o ← gets (fun ks => objects_ ks !! id);
        match o with
        | Some (ObjStr slot) => mret (OkString (value_view string_encoding_ slot))
        | _ => need None
        end
      else mret WrongType
  end.

Definition get_string (key : bytes) : K (option EncodedStringView) :=
  r ← get_string_result key;
  mret (match r with OkString v => Some v | _ => None end).

(** [erase_at]: the last id moves into the hole; the answer is that move. *)
Definition erase_at (id : nat) : K (option (nat * nat)) :=
  n ← gets ks_size;
  require (Nat.ltb id n);;
  let last := (n - 1)%nat in
  key ← key_for_id id;
  modify (fun ks => set_index (delete key (index_ ks)) ks);;
  moved ←
    (if negb (Nat.eqb id last) then
       last_key ← key_for_id last;
       modify (fun ks => set_index (<[last_key := key_meta id]> (index_ ks)) ks);;
       modify (fun ks => set_keys (<[id := last_key]> (keys_ ks)) ks);;
       t ← gets (fun ks => types_ ks !! last);
       t ← need t;
       put_type id t;;
       o ← gets (fun ks => objects_ ks !! last);
       o ← need o;
       put_object id o;;
       mret (Some (last, id))
     else mret None);
  pop_back_key;;
  modify (fun ks => set_objects (pop_back (objects_ ks)) ks);;
  modify (fun ks => set_types (pop_back (types_ ks)) ks);;
  mret moved.

(** [rename_key]: only the name and its index entry change. *)
Definition rename_key (source destination : bytes) : K bool :=
  found ← gets (find_id source);
  match found with
  | None => mret false
  | Some id =>
      modify (fun ks => set_index (delete source (index_ ks)) ks);;
      n ← gets (fun ks => length (keys_ ks));
      require (Nat.ltb id n);;
      if kMaxBlobBytes <? Z.of_nat (length destination) then
        modify (fun ks => set_index (<[source := key_meta id]> (index_ ks)) ks);;
        throw LengthError
      else
        modify (fun ks => set_keys (<[id := destination]> (keys_ ks)) ks);;
        modify (fun ks => set_index (<[destination := key_meta id]> (index_ ks)) ks);;
        mret true
  end.

(** [scan]: the keys visited and the next cursor. *)
Definition ks_scan (cursor count : Z) (ks : Keyspace) : list (bytes * KeyType) * Z :=
  let n := Z.of_nat (ks_size ks) in
  if (n =? 0) || (n <=? cursor) then ([], 0)
  else
    let budget := if count =? 0 then 10 else count in
    let first := cursor in
    let taken := Z.min budget (n - first) in
    let visited := take (Z.to_nat taken) (drop (Z.to_nat first) (zip (keys_ ks) (types_ ks))) in
    let next := first + taken in
    (visited, if next =? n then 0 else next).

(** ** What a keyspace represents *)

(** The object under a key: a string as its text, another value with its type. *)
Inductive AObj :=
| AStr (text : bytes)
| AOther (type : KeyType) (object : Payload).

Definition abs_object (t : KeyType) (o : KeyObject) : option AObj :=
  match o with
  | ObjStr slot =>
      match to_string (value_view string_encoding_ slot) with Ret text => Some (AStr text) | _ => None end
  | ObjOther p => Some (AOther t p)
  | ObjRaw => None
  end.

Definition obj_at (ks : Keyspace) (id : nat) : option AObj :=
  t ← types_ ks !! id; o ← objects_ ks !! id; abs_object t o.

(** The active member of a slot is the one its type names, and a string can be read. *)
Definition typed (t : KeyType) (o : KeyObject) : Prop :=
  match o with
  | ObjStr slot => t = KT_String /\ headed (value_view string_encoding_ slot) /\ exists text, reads_as (value_view string_encoding_ slot) text
  | ObjOther _ => t <> KT_String
  | ObjRaw => False
  end.

Record ks_inv (ks : Keyspace) : Prop := mkInv {
  k_keys : length (keys_ ks) = length (types_ ks);
  k_objects : length (objects_ ks) = length (types_ ks);
  k_index : forall k id, index_ ks !! k = Some id <-> keys_ ks !! id = Some k;
  k_typed : forall id t o, types_ ks !! id = Some t -> objects_ ks !! id = Some o -> typed t o;
  k_small : Z.of_nat (length (types_ ks)) <= 2 ^ 48;
}.

(** The map a keyspace holds, each object with an annotation of its id. *)
Definition amap {B} (ks : Keyspace) (f : nat -> B) : gmap bytes (AObj * B) :=
  omap (fun id => (fun o => (o, f id)) <$> obj_at ks id) (index_ ks).

Lemma lookup_amap {B} ks (f : nat -> B) k :
  amap ks f !! k = (id ← find_id k ks; o ← obj_at ks id; Some (o, f id)).
Proof. unfold amap, find_id. rewrite lookup_omap. destruct (index_ ks !! k) as [id|]; [|done]. cbn. by destruct (obj_at ks id). Qed.

Lemma ks_empty_inv : ks_inv ks_empty.
Proof. by split. Qed.

Section facts.
Context (ks : Keyspace) (H : ks_inv ks).

Lemma find_id_slot k id :
  find_id k ks = Some id ->
  (id < length (types_ ks))%nat /\ keys_ ks !! id = Some k /\ exists t o, types_ ks !! id = Some t /\ objects_ ks !! id = Some o /\ typed t o.
Proof.
  intros Hf. apply (k_index _ H) in Hf. pose proof (lookup_lt_Some _ _ _ Hf) as Hl. rewrite (k_keys _ H) in Hl.
  destruct (lookup_lt_is_Some_2 (types_ ks) id Hl) as [t Ht].
  destruct (lookup_lt_is_Some_2 (objects_ ks) id ltac:(by rewrite (k_objects _ H))) as [o Ho].
  split_and!; [done..|]. exists t, o. split_and!; [done..|]. by eapply k_typed.
Qed.

Lemma slot_key id : (id < length (types_ ks))%nat -> exists k, keys_ ks !! id = Some k /\ find_id k ks = Some id.
Proof.
  intros Hl. rewrite <- (k_keys _ H) in Hl. apply lookup_lt_is_Some_2 in Hl as [k Hk]. exists k. split; [done|]. by apply k_index.
Qed.

Lemma find_id_inj k k' id : find_id k ks = Some id -> find_id k' ks = Some id -> k = k'.
Proof. intros H1 H2. apply (k_index _ H) in H1, H2. congruence. Qed.

Lemma typed_abs t o : typed t o -> exists a, abs_object t o = Some a.
Proof.
  destruct o as [|slot|p]; cbn; [done| |by eexists]. intros (-> & _ & text & _ & _ & ->). by eexists.
Qed.

Lemma obj_at_found k id : find_id k ks = Some id -> exists a, obj_at ks id = Some a.
Proof.
  intros (_ & _ & t & o & Ht & Ho & Hty)%find_id_slot. unfold obj_at. rewrite Ht, Ho. cbn. by apply typed_abs.
Qed.

(** A key is in the map exactly when the index has it. *)
Lemma amap_is_Some {B} (f : nat -> B) k : is_Some (amap ks f !! k) <-> is_Some (find_id k ks).
Proof.
  rewrite lookup_amap. destruct (find_id k ks) as [id|] eqn:E; cbn; [|done]. destruct (obj_at_found k id E) as [a ->]. cbn.
  split; intros _; by eexists.
Qed.

Lemma amap_None {B} (f : nat -> B) k : amap ks f !! k = None <-> find_id k ks = None.
Proof.
  pose proof (amap_is_Some f k) as Hs. rewrite <- !not_eq_None_Some in Hs. destruct (amap ks f !! k), (find_id k ks); naive_solver.
Qed.

(** What a lookup in the map says about the slot. *)
Lemma amap_Some {B} (f : nat -> B) k a b :
  amap ks f !! k = Some (a, b) ->
  exists id t o, find_id k ks = Some id /\ types_ ks !! id = Some t /\ objects_ ks !! id = Some o /\ typed t o /\
    abs_object t o = Some a /\ b = f id /\ obj_at ks id = Some a.
Proof.
  rewrite lookup_amap. destruct (find_id k ks) as [id|] eqn:E; [|done]. cbn. destruct (obj_at ks id) as [a'|] eqn:Ea; [|done].
  cbn. intros [= <- <-]. destruct (find_id_slot k id E) as (_ & _ & t & o & Ht & Ho & Hty). exists id, t, o.
  split_and!; try done. unfold obj_at in Ea. by rewrite Ht, Ho in Ea.
Qed.

(** *** Readers *)

Lemma type_of_spec {B} (f : nat -> B) k :
  type_of k ks = Ok ((fun e => match e.1 with AStr _ => KT_String | AOther t _ => t end) <$> amap ks f !! k) ks.
Proof.
  unfold type_of, mbind, M_bind, gets. rewrite lookup_amap. destruct (find_id k ks) as [id|] eqn:E; [|done].
  destruct (find_id_slot k id E) as (_ & _ & t & o & Ht & Ho & Hty). rewrite Ht. cbn. unfold obj_at. rewrite Ht, Ho. cbn.
  destruct o as [|slot|p]; cbn in *; [done| |done]. destruct Hty as (-> & _ & text & _ & _ & ->). done.
Qed.

(** What a string reader sees. *)
Lemma get_string_result_spec {B} (f : nat -> B) k :
  match amap ks f !! k with
  | None => get_string_result k ks = Ok Missing ks
  | Some (AOther _ _, _) => get_string_result k ks = Ok WrongType ks
  | Some (AStr text, _) => exists v, get_string_result k ks = Ok (OkString v) ks /\ reads_as v text /\ headed v
  end.
Proof.
  destruct (amap ks f !! k) as [[a b]|] eqn:E.
  - destruct (amap_Some f k a b E) as (id & t & o & Hf & Ht & Ho & Hty & Ha & _ & _).
    unfold get_string_result, mbind, M_bind, gets. rewrite Hf, Ht. cbn.
    destruct o as [|slot|p]; cbn in Hty, Ha; [done| |].
    + destruct Hty as (-> & Hh & text & Hr). pose proof Hr as (_ & _ & Hts). rewrite Hts in Ha. injection Ha as <-.
      rewrite bool_decide_eq_true_2, Ho by done. by eexists.
    + injection Ha as <-. rewrite bool_decide_eq_false_2 by done. done.
  - apply amap_None in E. unfold get_string_result, mbind, M_bind, gets. by rewrite E.
Qed.

(** *** Updates *)

(** A slot with a new type and object. *)
Definition updated (id : nat) (t : KeyType) (o : KeyObject) : Keyspace :=
  mkKeyspace (keys_ ks) (index_ ks) (<[id := o]> (objects_ ks)) (<[id := t]> (types_ ks)).

Lemma updated_inv k id t o : find_id k ks = Some id -> typed t o -> ks_inv (updated id t o).
Proof.
  intros Hf Hty. destruct (find_id_slot k id Hf) as (Hl & _). split; cbn.
  - by rewrite length_insert, (k_keys _ H).
  - by rewrite !length_insert, (k_objects _ H).
  - apply (k_index _ H).
  - intros j t' o' Ht Ho. destruct (decide (j = id)) as [->|Hne].
    + rewrite list_lookup_insert_eq in Ht by lia. rewrite list_lookup_insert_eq in Ho by (rewrite (k_objects _ H); lia). by simplify_eq.
    + rewrite list_lookup_insert_ne in Ht by done. rewrite list_lookup_insert_ne in Ho by done. by eapply k_typed.
  - rewrite length_insert. apply (k_small _ H).
Qed.

Lemma amap_updated {B} (f f' : nat -> B) k id t o a :
  find_id k ks = Some id -> abs_object t o = Some a -> (forall j, j <> id -> f' j = f j) ->
  amap (updated id t o) f' = <[k := (a, f' id)]> (amap ks f).
Proof.
  intros Hf Ha Hne. destruct (find_id_slot k id Hf) as (Hl & _). apply map_eq. intros k'. rewrite lookup_amap.
  change (find_id k' (updated id t o)) with (find_id k' ks). destruct (decide (k' = k)) as [->|Hk].
  - rewrite lookup_insert_eq, Hf. cbn. unfold obj_at. cbn. rewrite !list_lookup_insert_eq by (rewrite ?(k_objects _ H); lia). cbn. by rewrite Ha.
  - rewrite lookup_insert_ne, lookup_amap by done. destruct (find_id k' ks) as [j|] eqn:E; [|done]. cbn.
    assert (j <> id) by (intros ->; apply Hk; by eapply find_id_inj).
    unfold obj_at. cbn. rewrite !list_lookup_insert_ne by done. by rewrite Hne.
Qed.

(** A new key at the end. *)
Definition appended (k : bytes) (t : KeyType) (o : KeyObject) : Keyspace :=
  mkKeyspace (keys_ ks ++ [k]) (<[k := length (types_ ks)]> (index_ ks)) (objects_ ks ++ [o]) (types_ ks ++ [t]).

Lemma appended_inv k t o :
  find_id k ks = None -> Z.of_nat (length (types_ ks)) <= kMaxKeyId -> typed t o -> ks_inv (appended k t o).
Proof.
  intros Hf Hs Hty. split; cbn.
  - rewrite !length_app, (k_keys _ H). done.
  - rewrite !length_app, (k_objects _ H). done.
  - intros k' id. rewrite lookup_insert_Some, list.lookup_snoc_Some, (k_index _ H), (k_keys _ H). split.
    + intros [[<- <-]|[Hne Hk]]; [right|left; split]; try done. eapply lookup_lt_Some in Hk. by rewrite (k_keys _ H) in Hk.
    + intros [[Hl Hk]|[-> <-]]; [right|left]; split; try done. intros ->. apply (k_index _ H) in Hk. unfold find_id in Hf. congruence.
  - intros j t' o' Ht Ho. apply list.lookup_snoc_Some in Ht, Ho. rewrite (k_objects _ H) in Ho.
    destruct Ht as [[? Ht]|[-> <-]], Ho as [[? Ho]|[? <-]]; try lia; [by eapply k_typed|done].
  - rewrite length_app. cbn. unfold kMaxKeyId in Hs. lia.
Qed.

Lemma amap_appended {B} (f f' : nat -> B) k t o a :
  find_id k ks = None -> abs_object t o = Some a -> (forall j, (j < length (types_ ks))%nat -> f' j = f j) ->
  amap (appended k t o) f' = <[k := (a, f' (length (types_ ks)))]> (amap ks f).
Proof.
  intros Hf Ha He. apply map_eq. intros k'. rewrite lookup_amap. unfold find_id at 1. cbn. destruct (decide (k' = k)) as [->|Hk].
  - rewrite !lookup_insert_eq. cbn. unfold obj_at. cbn. rewrite (list_lookup_middle (types_ ks)) by done. cbn.
    rewrite (list_lookup_middle (objects_ ks)) by (by rewrite (k_objects _ H)). cbn. by rewrite Ha.
  - rewrite !lookup_insert_ne by done. rewrite lookup_amap. change (index_ ks !! k') with (find_id k' ks).
    destruct (find_id k' ks) as [j|] eqn:E; [|done]. cbn. destruct (find_id_slot k' j E) as (Hl & _).
    unfold obj_at. cbn. rewrite !lookup_app_l by (rewrite ?(k_objects _ H); lia). by rewrite He.
Qed.

(** The slot [id] of key [k] given to the last key. *)
Definition removed (id : nat) (k lk : bytes) (lt : KeyType) (lo : KeyObject) : Keyspace :=
  mkKeyspace (pop_back (<[id := lk]> (keys_ ks)))
    (if Nat.eqb id (length (types_ ks) - 1) then delete k (index_ ks) else <[lk := id]> (delete k (index_ ks)))
    (pop_back (<[id := lo]> (objects_ ks))) (pop_back (<[id := lt]> (types_ ks))).

Lemma lookup_swap_remove {A} (l : list A) (id n : nat) x j :
  length l = S n -> (id <= n)%nat -> l !! n = Some x ->
  pop_back (<[id := x]> l) !! j = if Nat.ltb j n then if decide (j = id) then Some x else l !! j else None.
Proof.
  intros Hl Hid Hx. unfold pop_back. rewrite length_insert, Hl. replace (S n - 1)%nat with n by lia.
  destruct (Nat.ltb_spec j n).
  - rewrite lookup_take_lt by done. case_decide; [subst; apply list_lookup_insert_eq; lia|by rewrite list_lookup_insert_ne].
  - by rewrite lookup_take_ge.
Qed.

Section removal.
Context (id : nat) (k lk : bytes) (lt : KeyType) (lo : KeyObject).
Context (Hk : find_id k ks = Some id) (Hlk : keys_ ks !! (length (types_ ks) - 1)%nat = Some lk)
  (Hlt : types_ ks !! (length (types_ ks) - 1)%nat = Some lt) (Hlo : objects_ ks !! (length (types_ ks) - 1)%nat = Some lo).

Abbreviation last_id := (length (types_ ks) - 1)%nat.

Lemma removal_bounds : length (types_ ks) = S last_id /\ (id <= last_id)%nat /\ keys_ ks !! id = Some k.
Proof. destruct (find_id_slot k id Hk) as (Hl & Hkey & _). split_and!; [lia|lia|done]. Qed.

Lemma removed_keys j : keys_ (removed id k lk lt lo) !! j = if Nat.ltb j last_id then if decide (j = id) then Some lk else keys_ ks !! j else None.
Proof. destruct removal_bounds as (Hl & Hid & _). apply lookup_swap_remove; [rewrite (k_keys _ H); lia|done|done]. Qed.
Lemma removed_types j : types_ (removed id k lk lt lo) !! j = if Nat.ltb j last_id then if decide (j = id) then Some lt else types_ ks !! j else None.
Proof. destruct removal_bounds as (Hl & Hid & _). by apply lookup_swap_remove. Qed.
Lemma removed_objects j : objects_ (removed id k lk lt lo) !! j = if Nat.ltb j last_id then if decide (j = id) then Some lo else objects_ ks !! j else None.
Proof. destruct removal_bounds as (Hl & Hid & _). apply lookup_swap_remove; [rewrite (k_objects _ H); lia|done|done]. Qed.

(** The index of the result: the removed key is gone, the last key has the freed id. *)
Lemma removed_index k' j :
  index_ (removed id k lk lt lo) !! k' = Some j <->
  k' <> k /\ (if decide (k' = lk) then j = id else index_ ks !! k' = Some j).
Proof.
  destruct removal_bounds as (Hl & Hid & Hkey). cbn. destruct (Nat.eqb_spec id last_id) as [->|Hne].
  - assert (k = lk) as <- by congruence. rewrite lookup_delete_Some. case_decide; [subst; naive_solver|naive_solver].
  - assert (k <> lk). { intros ->. apply Hne. apply (k_index _ H) in Hlk. unfold find_id in Hk. congruence. }
    rewrite lookup_insert_Some, lookup_delete_Some. case_decide; naive_solver.
Qed.

Lemma removed_inv : ks_inv (removed id k lk lt lo).
Proof.
  destruct removal_bounds as (Hl & Hid & Hkey).
  assert (Hlen : forall {A} (l : list A) x, length l = S last_id -> length (pop_back (<[id := x]> l)) = last_id).
  { intros A l x Hx. unfold pop_back. rewrite length_take, length_insert. lia. }
  split.
  - cbn. rewrite !Hlen; [done|done|by rewrite (k_keys _ H)].
  - cbn. rewrite !Hlen; [done|done|by rewrite (k_objects _ H)].
  - intros k' j. rewrite removed_index, removed_keys. destruct (Nat.ltb_spec j last_id) as [Hj|Hj].
    + destruct (decide (j = id)) as [->|Hji].
      * split; [|intros [= <-]; split; [|by rewrite decide_True]].
        -- intros [Hk' Hd]. case_decide; [by subst|]. apply (k_index _ H) in Hd. congruence.
        -- intros ->. apply (k_index _ H) in Hlk. unfold find_id in Hk. assert (id = last_id) by congruence. lia.
      * rewrite <- (k_index _ H). case_decide as Hd; [subst k'|].
        -- split; [intros [_ ->]; done|]. intros Hi. apply (k_index _ H) in Hlk. assert (j = last_id) by congruence. lia.
        -- split; [by intros [_ ?]|]. intros Hi. split; [|done]. intros ->. unfold find_id in Hk. congruence.
    + split; [|done]. intros [Hk' Hd]. exfalso. case_decide as E; [subst|].
      * assert (id = last_id) as -> by lia. congruence.
      * apply (k_index _ H) in Hd. pose proof (lookup_lt_Some _ _ _ Hd) as Hlt'. rewrite (k_keys _ H) in Hlt'.
        assert (j = last_id) as -> by lia. congruence.
  - intros j t o Ht Ho. rewrite removed_types in Ht. rewrite removed_objects in Ho. destruct (Nat.ltb j last_id); [|done].
    case_decide; [simplify_eq|]; by eapply k_typed.
  - cbn. rewrite Hlen by done. pose proof (k_small _ H). lia.
Qed.

Lemma amap_removed {B} (f f' : nat -> B) :
  (id <> last_id -> f' id = f last_id) -> (forall j, (j < last_id)%nat -> j <> id -> f' j = f j) ->
  amap (removed id k lk lt lo) f' = delete k (amap ks f).
Proof.
  intros Hmv Hst. destruct removal_bounds as (Hl & Hid & Hkey).
  assert (Hobj : forall j, (j < last_id)%nat -> obj_at (removed id k lk lt lo) j = if decide (j = id) then obj_at ks last_id else obj_at ks j).
  { intros j Hj. unfold obj_at. rewrite removed_types, removed_objects. destruct (Nat.ltb_spec j last_id); [|lia].
    case_decide; [|done]. by rewrite Hlt, Hlo. }
  apply map_eq. intros k'. rewrite lookup_amap. unfold find_id at 1. destruct (decide (k' = k)) as [->|Hk'].
  - rewrite lookup_delete_eq. destruct (index_ (removed id k lk lt lo) !! k) as [j|] eqn:E; [|done]. apply removed_index in E as [[] _]. done.
  - rewrite lookup_delete_ne, lookup_amap by done. destruct (decide (k' = lk)) as [->|Hkl].
    + assert (E : index_ (removed id k lk lt lo) !! lk = Some id) by (apply removed_index; by rewrite decide_True).
      assert (E' : find_id lk ks = Some last_id) by (by apply (k_index _ H)). rewrite E, E'. cbn [mbind option_bind].
      assert (id <> last_id) by (intros ->; congruence). rewrite Hobj, decide_True by lia. by rewrite Hmv.
    + destruct (find_id k' ks) as [j|] eqn:E; cbn [mbind option_bind].
      * assert (Ej : index_ (removed id k lk lt lo) !! k' = Some j) by (apply removed_index; by rewrite decide_False).
        rewrite Ej. cbn [mbind option_bind]. destruct (find_id_slot k' j E) as (Hj & Hkj & _).
        assert (j <> id) by (intros ->; congruence). assert (j <> last_id) by (intros ->; congruence).
        rewrite Hobj, decide_False by lia. rewrite Hst; [done|lia|done].
      * destruct (index_ (removed id k lk lt lo) !! k') as [j|] eqn:Ej; [|done]. apply removed_index in Ej as [_ Ej].
        rewrite decide_False in Ej by done. unfold find_id in E. congruence.
Qed.
End removal.

(** The key of [id] replaced by a name not in use. *)
Definition renamed (id : nat) (src dst : bytes) : Keyspace :=
  mkKeyspace (<[id := dst]> (keys_ ks)) (<[dst := id]> (delete src (index_ ks))) (objects_ ks) (types_ ks).

Lemma renamed_index id src dst k j :
  find_id src ks = Some id -> find_id dst ks = None ->
  index_ (renamed id src dst) !! k = Some j <-> if decide (k = dst) then j = id else k <> src /\ index_ ks !! k = Some j.
Proof. intros Hs Hd. cbn. rewrite lookup_insert_Some, lookup_delete_Some. case_decide; naive_solver. Qed.

Lemma renamed_inv id src dst : find_id src ks = Some id -> find_id dst ks = None -> ks_inv (renamed id src dst).
Proof.
  intros Hs Hd. destruct (find_id_slot src id Hs) as (Hl & Hkey & _). split.
  - cbn. rewrite length_insert. apply (k_keys _ H).
  - apply (k_objects _ H).
  - intros k j. rewrite renamed_index by done. cbn. destruct (decide (j = id)) as [->|Hne].
    + rewrite list_lookup_insert_eq by (rewrite (k_keys _ H); lia). case_decide as E; [naive_solver|].
      split; [|naive_solver]. intros [Hk Hi]. apply (k_index _ H) in Hi. congruence.
    + rewrite list_lookup_insert_ne by done. rewrite <- (k_index _ H). case_decide as E; [subst k|].
      * split; [done|]. unfold find_id in Hd. congruence.
      * split; [by intros [_ ?]|]. intros Hi. split; [|done]. intros ->. unfold find_id in Hs. congruence.
  - apply (k_typed _ H).
  - apply (k_small _ H).
Qed.

Lemma amap_renamed {B} (f : nat -> B) id src dst e :
  find_id src ks = Some id -> find_id dst ks = None -> amap ks f !! src = Some e ->
  amap (renamed id src dst) f = <[dst := e]> (delete src (amap ks f)).
Proof.
  intros Hs Hd He. assert (Hne : src <> dst) by congruence. apply map_eq. intros k. rewrite lookup_amap.
  unfold find_id at 1. cbn. destruct (decide (k = dst)) as [->|Hk].
  - rewrite !lookup_insert_eq. cbn. rewrite lookup_amap, Hs in He. done.
  - rewrite !lookup_insert_ne by done. destruct (decide (k = src)) as [->|Hks]; [by rewrite !lookup_delete_eq|].
    rewrite !lookup_delete_ne, lookup_amap by done. done.
Qed.

(** *** Running the operations *)

Lemma key_meta_id (id : nat) : Z.of_nat id <= kMaxKeyId -> key_meta id = id.
Proof. intros Hid. unfold key_meta, kMaxKeyId in *. rewrite wrap_small by lia. lia. Qed.

Lemma found_small k id : find_id k ks = Some id -> Z.of_nat id <= kMaxKeyId.
Proof. intros (Hl & _)%find_id_slot. pose proof (k_small _ H). unfold kMaxKeyId. lia. Qed.

#[local] Arguments Nat.ltb : simpl never.
#[local] Arguments Nat.eqb : simpl never.
#[local] Arguments pop_back : simpl never.

Ltac run := unfold mbind, M_bind, gets, modify, require, throw, mret, M_ret, try_catch; cbv beta iota.

Lemma keyspace_eq (a b : Keyspace) :
  keys_ a = keys_ b -> index_ a = index_ b -> objects_ a = objects_ b -> types_ a = types_ b -> a = b.
Proof. destruct a, b. cbn. congruence. Qed.

Lemma store_string_run k id value slot :
  find_id k ks = Some id -> write_string_value string_encoding_ value = Ret slot ->
  store_string id value ks = Ok tt (updated id KT_String (ObjStr slot)).
Proof.
  intros Hf Hw. destruct (find_id_slot k id Hf) as (Hl & _ & t & o & Ht & Ho & _).
  unfold store_string, write_value. run. rewrite Hw, Ht. cbn [need]. destruct (bool_decide_reflect (t = KT_String)) as [->|Hne].
  - unfold put_object. run. rewrite (k_objects _ H). destruct (Nat.ltb_spec id (length (types_ ks))); [|lia].
    f_equal. apply keyspace_eq; cbn; try done. symmetry. by apply list_insert_id.
  - unfold put_type, put_object. run. destruct (Nat.ltb_spec id (length (types_ ks))); [|lia]. cbn.
    rewrite (k_objects _ H). destruct (Nat.ltb_spec id (length (types_ ks))); [done|lia].
Qed.

Lemma set_string_found k id value slot :
  find_id k ks = Some id -> write_string_value string_encoding_ value = Ret slot ->
  set_string k value ks = Ok id (updated id KT_String (ObjStr slot)).
Proof. intros Hf Hw. unfold set_string. run. rewrite Hf. by rewrite (store_string_run k id value slot). Qed.

(** The key just created, its object not yet constructed. *)
Lemma create_key_run k t :
  Z.of_nat (length k) <= kMaxBlobBytes -> Z.of_nat (length (types_ ks)) <= kMaxKeyId ->
  create_key k t ks = Ok (length (types_ ks)) (appended k t ObjRaw).
Proof.
  intros Hk Hs. unfold create_key, push_back_key, ks_size. run. bfalse (kMaxBlobBytes <? Z.of_nat (length k)). run.
  rewrite (k_keys _ H). bfalse (kMaxKeyId <? Z.of_nat (length (types_ ks))). run. rewrite Nat.eqb_refl.
  f_equal. apply keyspace_eq; cbn; try done. by rewrite key_meta_id.
Qed.

Lemma create_key_too_long k t : kMaxBlobBytes < Z.of_nat (length k) -> create_key k t ks = Exn LengthError ks.
Proof. intros Hk. unfold create_key, push_back_key. run. by btrue (kMaxBlobBytes <? Z.of_nat (length k)). Qed.

Lemma put_appended k t o o' :
  put_object (length (types_ ks)) o' (appended k t o) = Ok tt (appended k t o').
Proof.
  unfold put_object. run. cbn. rewrite length_app, (k_objects _ H). cbn. destruct (Nat.ltb_spec (length (types_ ks)) (length (types_ ks) + 1)); [|lia].
  f_equal. apply keyspace_eq; cbn; try done. rewrite <- (k_objects _ H). rewrite insert_app_r_alt, Nat.sub_diag by lia. done.
Qed.

Lemma create_string_run k value slot :
  Z.of_nat (length k) <= kMaxBlobBytes -> Z.of_nat (length (types_ ks)) <= kMaxKeyId ->
  write_string_value string_encoding_ value = Ret slot ->
  create_string k value ks = Ok (length (types_ ks)) (appended k KT_String (ObjStr slot)).
Proof.
  intros Hk Hs Hw. unfold create_string. run. rewrite create_key_run by done. rewrite put_appended. unfold write_value. rewrite Hw.
  by rewrite put_appended.
Qed.

Lemma pop_back_app {A} (l : list A) x : pop_back (l ++ [x]) = l.
Proof. unfold pop_back. rewrite length_app. cbn. rewrite Nat.add_sub. by rewrite take_app_length. Qed.

(** A value that cannot be stored leaves no trace of the key. *)
Lemma create_string_throw k value e :
  find_id k ks = None -> Z.of_nat (length k) <= kMaxBlobBytes -> Z.of_nat (length (types_ ks)) <= kMaxKeyId ->
  write_string_value string_encoding_ value = Throw e ->
  create_string k value ks = Exn LengthError ks.
Proof.
  intros Hf Hk Hs Hw. unfold create_string. run. rewrite create_key_run by done. rewrite put_appended. unfold write_value. rewrite Hw.
  unfold rollback_created_key, ks_size, key_for_id, pop_back_key. run. cbn. rewrite length_app. cbn. rewrite Nat.eqb_refl.
  change (keys_ (appended k KT_String (ObjStr empty_string_value))) with (keys_ ks ++ [k]).
  rewrite list_lookup_middle by (by rewrite (k_keys _ H)). cbn. f_equal. apply keyspace_eq; cbn; rewrite ?pop_back_app; try done.
  rewrite delete_insert_id; [done|exact Hf].
Qed.

Lemma set_string_new k value slot :
  find_id k ks = None -> Z.of_nat (length k) <= kMaxBlobBytes -> Z.of_nat (length (types_ ks)) <= kMaxKeyId ->
  write_string_value string_encoding_ value = Ret slot ->
  set_string k value ks = Ok (length (types_ ks)) (appended k KT_String (ObjStr slot)).
Proof. intros Hf Hk Hs Hw. unfold set_string. run. rewrite Hf. by apply create_string_run. Qed.

Lemma set_string_throw k value e :
  Z.of_nat (length k) <= kMaxBlobBytes -> Z.of_nat (length (types_ ks)) <= kMaxKeyId ->
  write_string_value string_encoding_ value = Throw e -> set_string k value ks = Exn LengthError ks.
Proof.
  intros Hk Hs Hw. unfold set_string. run. destruct (find_id k ks) as [id|] eqn:E; [|by eapply create_string_throw].
  unfold store_string, write_value. run. by rewrite Hw.
Qed.

Lemma place_loaded_run k t p :
  Z.of_nat (length k) <= kMaxBlobBytes -> Z.of_nat (length (types_ ks)) <= kMaxKeyId ->
  place_loaded k t p ks = Ok (length (types_ ks)) (appended k t (ObjOther p)).
Proof. intros Hk Hs. unfold place_loaded. run. rewrite create_key_run by done. by rewrite put_appended. Qed.

Lemma erase_at_run k id :
  find_id k ks = Some id ->
  let last := (length (types_ ks) - 1)%nat in
  exists lk lt lo, keys_ ks !! last = Some lk /\ types_ ks !! last = Some lt /\ objects_ ks !! last = Some lo /\
    erase_at id ks = Ok (if Nat.eqb id last then None else Some (last, id)) (removed id k lk lt lo).
Proof.
  intros Hf last. destruct (find_id_slot k id Hf) as (Hl & Hkey & _).
  destruct (slot_key last) as (lk & Hlk & Hfl); [unfold last; lia|]. destruct (find_id_slot lk last Hfl) as (_ & _ & lt & lo & Hlt & Hlo & _).
  exists lk, lt, lo. split_and!; [done..|]. unfold erase_at, ks_size, key_for_id, pop_back_key. run.
  destruct (Nat.ltb_spec id (length (types_ ks))); [|lia]. rewrite Hkey. cbn [need]. fold last.
  destruct (Nat.eqb_spec id last) as [E|E]; cbn [negb].
  - f_equal. apply keyspace_eq; cbn.
    + rewrite list_insert_id; congruence.
    + fold last. by rewrite (proj2 (Nat.eqb_eq id last) E).
    + rewrite list_insert_id; congruence.
    + rewrite list_insert_id; congruence.
  - unfold put_type, put_object. run. cbn. rewrite Hlk. cbn. rewrite Hlt. cbn. destruct (Nat.ltb_spec id (length (types_ ks))); [|lia]. cbn.
    rewrite Hlo. cbn. rewrite (k_objects _ H). destruct (Nat.ltb_spec id (length (types_ ks))); [|lia].
    f_equal. apply keyspace_eq; cbn; try done. fold last. destruct (Nat.eqb_spec id last); [done|]. f_equal. apply key_meta_id.
    by apply (found_small k).
Qed.

Lemma rename_key_run src dst id :
  find_id src ks = Some id -> find_id dst ks = None -> Z.of_nat (length dst) <= kMaxBlobBytes ->
  rename_key src dst ks = Ok true (renamed id src dst).
Proof.
  intros Hs Hd Hl. destruct (find_id_slot src id Hs) as (Hlt & _). unfold rename_key. run. rewrite Hs. cbn.
  rewrite (k_keys _ H). destruct (Nat.ltb_spec id (length (types_ ks))); [|lia].
  bfalse (kMaxBlobBytes <? Z.of_nat (length dst)). f_equal. apply keyspace_eq; cbn; try done. by rewrite key_meta_id by (by apply (found_small src)).
Qed.

Lemma rename_key_too_long src dst id :
  find_id src ks = Some id -> kMaxBlobBytes < Z.of_nat (length dst) -> rename_key src dst ks = Exn LengthError ks.
Proof.
  intros Hs Hl. destruct (find_id_slot src id Hs) as (Hlt & _). unfold rename_key. run. rewrite Hs. cbn.
  rewrite (k_keys _ H). destruct (Nat.ltb_spec id (length (types_ ks))); [|lia].
  btrue (kMaxBlobBytes <? Z.of_nat (length dst)). f_equal. apply keyspace_eq; cbn; try done.
  rewrite key_meta_id by (by apply (found_small src)). rewrite insert_delete_eq. by apply insert_id.
Qed.

End facts.

End keyspace.
