(* ===== verification/Store.v ===== *)
(** * The store

    Models, of [src/store.cpp] and the class [Store] of
    [include/goblin/core/store.hpp], the strings, the key commands and the
    expirations: the keyspace together with the expiry set, which names keys by
    their dense id, and the notification of modified keys.  The expiry set is used
    through the contract [TtlSet] proves: a map from ids to 48-bit times.  The
    store has no memory limit here: an update of the expiry set or a growth of the
    keyspace that the limit would refuse with [MaxMemoryExceeded] is not modelled
    (see [ChunkedSortedList] and [TtlSet] for what such a refusal does there).  Deep
    copies of the values of other types are a parameter. *)

From S2P Require Import Prelude ParseInt StringEncoding MemoryLimit CommandClass Keyspace.
From stdpp Require Import gmap.
From Stdlib Require Import ZArith Lia ZifyBool.

Import Classes.

Local Open Scope Z_scope.

(** [std::to_string] of a [long long]. *)
Definition to_string_i64 (v : Z) : bytes := if v <? 0 then "-"%byte :: to_chars_u64 (- v) else to_chars_u64 v.

Section store.
Context {L : LZ4} {Payload : Type}.
Variable string_encoding_ : Z.
(** The deep copy of a value that is not a string. *)
Variable clone : KeyType -> Payload -> Payload.

(** [told_] lists the keys the mutation observer was told of. *)
Record Store := mkStore { keyspace_ : @Keyspace Payload; ttl_ : gmap nat Z; told_ : list bytes }.

Abbreviation S_ A := (M Store A).

Definition set_ks (ks : Keyspace) (s : Store) : Store := mkStore ks (ttl_ s) (told_ s).
Definition set_ttl (t : gmap nat Z) (s : Store) : Store := mkStore (keyspace_ s) t (told_ s).

(** An operation of the keyspace. *)
Definition on_ks {A} (m : M Keyspace A) : S_ A := fun s =>
  match m (keyspace_ s) with
  | Ok a ks => Ok a (set_ks ks s)
  | Exn e ks => Exn e (set_ks ks s)
  | Ub => Ub
  end.

Definition signal_key_modified (key : bytes) : S_ unit :=
  modify (fun s => mkStore (keyspace_ s) (ttl_ s) (told_ s ++ [key])).

(** ** The expiry set, by its contract *)

Definition ttl_empty (s : Store) : bool := bool_decide (ttl_ s = ∅).
Definition ttl_expiry (id : nat) (s : Store) : option Z := ttl_ s !! id.
Definition ttl_set (id : nat) (when_ms : Z) : S_ unit := modify (fun s => set_ttl (<[id := wrap 48 when_ms]> (ttl_ s)) s).
Definition ttl_clear (id : nat) : S_ bool :=
  had ← gets (fun s => bool_decide (is_Some (ttl_ s !! id)));
  modify (fun s => set_ttl (delete id (ttl_ s)) s);;
  mret had.
Definition ttl_rekey (from to : nat) : S_ unit :=
  modify (fun s => match ttl_ s !! from with
                   | Some e => set_ttl (<[to := e]> (delete from (ttl_ s))) s
                   | None => s
                   end).

(** The entry with the least time, then the least id. *)
Definition ttl_before (a b : nat * Z) : bool := (a.2 <? b.2) || ((a.2 =? b.2) && Nat.leb a.1 b.1).
Fixpoint ttl_least (l : list (nat * Z)) : option (nat * Z) :=
  match l with
  | [] => None
  | e :: l => match ttl_least l with Some b => Some (if ttl_before e b then e else b) | None => Some e end
  end.
Definition ttl_front (s : Store) : option (nat * Z) := ttl_least (map_to_list (ttl_ s)).

(** ** Erasing *)

Definition erase_keyspace_at (id : nat) : S_ unit :=
  key ← on_ks (key_for_id id);
  signal_key_modified key;;
  moved ← on_ks (erase_at id);
  match moved with
  | Some (from, to) => ttl_rekey from to
  | None => mret tt
  end.

Definition id_of (key : bytes) : S_ (option nat) := gets (fun s => find_id key (keyspace_ s)).

Definition erase_key (key : bytes) : S_ bool :=
  id ← id_of key;
  match id with
  | None => mret false
  | Some id => ttl_clear id;; erase_keyspace_at id;; mret true
  end.

Definition exists_ (key : bytes) : S_ bool := gets (fun s => contains key (keyspace_ s)).

(** ** Strings *)

(** SET and its like clear the time to live by the id the keyspace returns. *)
Definition clear_ttl_of (id : nat) : S_ unit :=
  none ← gets ttl_empty;
  if none : bool then mret tt else ttl_clear id;; mret tt.

Definition set (key value : bytes) : S_ unit :=
  id ← on_ks (set_string string_encoding_ key value);
  clear_ttl_of id;;
  signal_key_modified key.

Definition set_keep_ttl (key value : bytes) : S_ unit :=
  on_ks (set_string string_encoding_ key value);;
  signal_key_modified key.

Definition set_nx (key value : bytes) : S_ bool :=
  stored ← on_ks (set_string_if_absent string_encoding_ key value);
  when stored (signal_key_modified key);;
  mret stored.

Fixpoint any_contained (pairs : list (bytes * bytes)) : S_ bool :=
  match pairs with
  | [] => mret false
  | (key, _) :: pairs =>
      found ← exists_ key;
      if found : bool then mret true else any_contained pairs
  end.

Fixpoint set_all (pairs : list (bytes * bytes)) : S_ unit :=
  match pairs with
  | [] => mret tt
  | (key, value) :: pairs => set key value;; set_all pairs
  end.

Definition mset_nx (pairs : list (bytes * bytes)) : S_ bool :=
  found ← any_contained pairs;
  if found : bool then mret false else set_all pairs;; mret true.

(** [get_result] and [get]. *)
Definition get_result (key : bytes) : S_ StringLookup := on_ks (get_string_result string_encoding_ key).
Definition get (key : bytes) : S_ (option EncodedStringView) := on_ks (get_string string_encoding_ key).

(** [join_value] and [view_equals]. *)
Definition of_result {A} (r : result A) : S_ A := fun s =>
  match r with Ret a => Ok a s | Throw _ => Exn LengthError s | Undef => Ub end.
Definition join_value (value : EncodedStringView) : S_ bytes := of_result (to_string value).
Definition view_equals (value : EncodedStringView) (text : bytes) : S_ bool := of_result (equals value text).

(** The text of a string key. *)
Definition get_text (key : bytes) : S_ (option bytes) :=
  current ← get key;
  match current with
  | Some v => text ← join_value v; mret (Some text)
  | None => mret None
  end.

Definition get_set (key value : bytes) : S_ (option bytes) :=
  previous ← get_text key;
  on_ks (set_string string_encoding_ key value);;
  signal_key_modified key;;
  mret previous.

Definition get_del (key : bytes) : S_ (option bytes) :=
  previous ← get_text key;
  erase_key key;;
  mret previous.

(** The guard of the compare-and-* family. *)
Definition holds_text (key expected : bytes) : S_ bool :=
  current ← get key;
  match current with
  | Some v => view_equals v expected
  | None => mret false
  end.

Definition compare_and_delete (key expected : bytes) : S_ bool :=
  same ← holds_text key expected;
  if same : bool then erase_key key else mret false.

Definition compare_and_set (key expected new_value : bytes) : S_ bool :=
  same ← holds_text key expected;
  if same : bool then set_keep_ttl key new_value;; mret true else mret false.

Definition strlen (key : bytes) : S_ (option Z) :=
  current ← get key;
  mret (view_size <$> current).

Definition value_fits (value : bytes) : bool := string_value_fits value string_encoding_ AllowLz4.

Definition append (key value : bytes) : S_ (option Z) :=
  current ← get_text key;
  match current with
  | None =>
      if negb (value_fits value) then mret None
      else
        on_ks (set_string string_encoding_ key value);;
        signal_key_modified key;;
        mret (Some (Z.of_nat (length value)))
  | Some combined =>
      if u64 (kStringMaxCompressedLogicalBytes - Z.of_nat (length combined)) <? Z.of_nat (length value) then mret None
      else
        let combined := combined ++ value in
        if negb (value_fits combined) then mret None
        else
          on_ks (set_string string_encoding_ key combined);;
          signal_key_modified key;;
          mret (Some (Z.of_nat (length combined)))
  end.

(** The integer a counter holds: 0 when the key is absent, [None] when it is not an integer. *)
Definition current_integer (key : bytes) : S_ (option Z) :=
  text ← get_text key;
  match text with
  | Some t => mret (parse_i64 t)
  | None => mret (Some 0)
  end.

Definition store_integer (key : bytes) (result : Z) : S_ unit :=
  on_ks (set_string string_encoding_ key (to_string_i64 result));;
  signal_key_modified key.

Definition incr_by (key : bytes) (delta : Z) : S_ (option Z) :=
  current ← current_integer key;
  match current with
  | None => mret None
  | Some current =>
      if ((0 <? delta) && (i64_max - delta <? current)) || ((delta <? 0) && (current <? i64_min - delta)) then mret None
      else
        let result := current + delta in
        store_integer key result;;
        mret (Some result)
  end.

Definition incr_bound (key : bytes) (delta max : Z) : S_ (option Z) :=
  current ← current_integer key;
  match current with
  | None => mret None
  | Some current =>
      let sum := current + delta in
      if max <? sum then mret (Some (-1))
      else if sum <? i64_min then mret None
      else
        store_integer key sum;;
        mret (Some sum)
  end.

Definition decr_positive (key : bytes) : S_ (option Z) :=
  current ← current_integer key;
  match current with
  | None => mret None
  | Some current =>
      if current <=? 0 then mret (Some (-1))
      else
        let result := current - 1 in
        store_integer key result;;
        mret (Some result)
  end.

Definition getrange (key : bytes) (start end_ : Z) : S_ bytes :=
  value ← get key;
  match value with
  | None => mret []
  | Some value =>
      if view_size value =? 0 then mret []
      else
        let len := view_size value in
        let start := if start <? 0 then start + len else start in
        let end_ := if end_ <? 0 then end_ + len else end_ in
        let start := if start <? 0 then 0 else start in
        let end_ := if end_ <? 0 then 0 else end_ in
        let end_ := if len <=? end_ then len - 1 else end_ in
        if end_ <? start then mret []
        else
          joined ← join_value value;
          mret (take (Z.to_nat (end_ - start + 1)) (drop (Z.to_nat start) joined))
  end.

Definition setrange (key : bytes) (offset : Z) (value : bytes) : S_ (option Z) :=
  current ← get key;
  let current_len := match current with Some v => view_size v | None => 0 end in
  match value with
  | [] => mret (Some current_len)
  | _ =>
      let size := Z.of_nat (length value) in
      if (kStringMaxCompressedLogicalBytes <? offset) || (kStringMaxCompressedLogicalBytes - offset <? size) then mret None
      else
        let result_len := Z.max current_len (offset + size) in
        text ← match current with Some v => join_value v | None => mret [] end;
        let buffer := take (Z.to_nat result_len) (text ++ replicate (Z.to_nat result_len - length text) x00) in
        let buffer := take (Z.to_nat offset) buffer ++ value ++ drop (Z.to_nat offset + length value) buffer in
        if negb (value_fits buffer) then mret None
        else
          on_ks (set_string string_encoding_ key buffer);;
          signal_key_modified key;;
          mret (Some result_len)
  end.

(** ** Expiry *)

(** [ExpireFlag]: the four conditions as separate bits. *)
Record ExpireFlags := mkFlags { kNx : bool; kXx : bool; kGt : bool; kLt : bool }.
Definition kNone : ExpireFlags := mkFlags false false false false.

Definition expire_at_ms (key : bytes) (when_ms now : Z) (flags : ExpireFlags) : S_ bool :=
  id ← id_of key;
  match id with
  | None => mret false
  | Some id =>
      current ← gets (ttl_expiry id);
      let has_current := bool_decide (is_Some current) in
      let current_ms := default 0 current in
      if kNx flags && has_current then mret false
      else if kXx flags && negb has_current then mret false
      else if kGt flags && (negb has_current || (when_ms <=? current_ms)) then mret false
      else if kLt flags && (has_current && (current_ms <=? when_ms)) then mret false
      else if when_ms <=? now then
        ttl_clear id;;
        erase_keyspace_at id;;
        mret true
      else
        ttl_set id when_ms;;
        signal_key_modified key;;
        mret true
  end.

Definition pttl_ms (key : bytes) (now : Z) : S_ Z :=
  id ← id_of key;
  match id with
  | None => mret (-2)
  | Some id =>
      expiry ← gets (ttl_expiry id);
      match expiry with
      | None => mret (-1)
      | Some e => mret (if e <=? now then -2 else e - now)
      end
  end.

Definition expiretime_ms (key : bytes) : S_ Z :=
  id ← id_of key;
  match id with
  | None => mret (-2)
  | Some id => expiry ← gets (ttl_expiry id); mret (default (-1) expiry)
  end.

Definition persist (key : bytes) : S_ bool :=
  id ← id_of key;
  match id with
  | None => mret false
  | Some id =>
      removed ← ttl_clear id;
      when removed (signal_key_modified key);;
      mret removed
  end.

Definition purge_if_expired (key : bytes) (now : Z) : S_ bool :=
  none ← gets ttl_empty;
  if none : bool then mret false
  else
    id ← id_of key;
    match id with
    | None => mret false
    | Some id =>
        expiry ← gets (ttl_expiry id);
        match expiry with
        | None => mret false
        | Some e =>
            if now <? e then mret false
            else ttl_clear id;; erase_keyspace_at id;; mret true
        end
    end.

Definition compare_and_expire (key expected : bytes) (when_ms now : Z) : S_ bool :=
  same ← holds_text key expected;
  if same : bool then expire_at_ms key when_ms now kNone else mret false.

Definition incr_expire (key : bytes) (when_ms now : Z) : S_ (option Z) :=
  value ← incr_by key 1;
  match value with
  | None => mret None
  | Some v =>
      (if v =? 1 then expire_at_ms key when_ms now kNone;; mret tt else mret tt);;
      mret (Some v)
  end.

(** [expire_due] with the callback of [active_expire]; [fuel] bounds the loop, see [active_expire_terminates]. *)
Fixpoint expire_loop (fuel : nat) (now budget expired : Z) : S_ Z :=
  match fuel with
  | O => need None
  | S fuel =>
      if budget <=? expired then mret expired
      else
        front ← gets ttl_front;
        match front with
        | None => mret expired
        | Some (id, e) =>
            if now <? e then mret expired
            else
              ttl_clear id;;
              erase_keyspace_at id;;
              expire_loop fuel now budget (expired + 1)
        end
  end.

Definition active_expire (now budget : Z) : S_ Z := fun s => expire_loop (S (size (ttl_ s))) now budget 0 s.

(** [GOBLIN.CLAIM]. *)
Record ClaimOutcome := mkClaim { claimed : bool; result_wrongtype : bool; claim_result : option bytes }.

Definition claim (claim_key result_key token : bytes) (when_ms now : Z) : S_ ClaimOutcome :=
  purge_if_expired claim_key now;;
  won ← set_nx claim_key token;
  if won : bool then
    expire_at_ms claim_key when_ms now kNone;;
    mret (mkClaim true false None)
  else
    purge_if_expired result_key now;;
    type ← on_ks (type_of result_key);
    if (match type with Some t => negb (bool_decide (t = KT_String)) | None => false end) then mret (mkClaim false true None)
    else
      text ← get_text result_key;
      mret (mkClaim false false text).

(** ** Keys of any type *)

Definition dbsize (now : Z) : S_ Z :=
  active_expire now u64_max;;
  gets (fun s => Z.of_nat (ks_size (keyspace_ s))).

Definition random_key (now random : Z) : S_ (option bytes) :=
  active_expire now u64_max;;
  n ← gets (fun s => ks_size (keyspace_ s));
  if Nat.eqb n 0 then mret None
  else key ← on_ks (key_for_id (Z.to_nat (random mod Z.of_nat n))); mret (Some key).

Fixpoint touch (keys : list bytes) (now count : Z) : S_ Z :=
  match keys with
  | [] => mret count
  | key :: keys =>
      purge_if_expired key now;;
      found ← exists_ key;
      touch keys now (if found : bool then count + 1 else count)
  end.

(** [scan]: a page of keys; one that has expired uses up its place but is not shown. *)
Definition scan (cursor count now : Z) (s : Store) : list (bytes * KeyType) * Z :=
  let has_ttl := negb (ttl_empty s) in
  let '(visited, next) := ks_scan cursor count (keyspace_ s) in
  let shown (i : nat) (kt : bytes * KeyType) :=
    if has_ttl then
      match ttl_expiry (Z.to_nat cursor + i) s with
      | Some expiry => if expiry <=? now then [] else [kt]
      | None => [kt]
      end
    else [kt] in
  (concat (imap shown visited), next).

Inductive RenameResult := Renamed | RenameSourceMissing | RenameDestinationExists.

Definition rename (source destination : bytes) (nx : bool) (now : Z) : S_ RenameResult :=
  purge_if_expired source now;;
  found ← exists_ source;
  if negb found then mret RenameSourceMissing
  else if bool_decide (source = destination) then mret (if nx then RenameDestinationExists else Renamed)
  else
    purge_if_expired destination now;;
    taken ← exists_ destination;
    if nx && taken then mret RenameDestinationExists
    else
      erase_key destination;;
      renamed ← on_ks (rename_key source destination);
      require renamed;;
      signal_key_modified source;;
      signal_key_modified destination;;
      mret Renamed.

Inductive CopyResult := Copied | CopySourceMissing | CopyDestinationExists | CopySameKey.

(** The object of a key that is not a string. *)
Definition object_of (key : bytes) : S_ Payload :=
  id ← id_of key;
  id ← need id;
  o ← gets (fun s => objects_ (keyspace_ s) !! id);
  match o with Some (ObjOther p) => mret p | _ => need None end.

Definition copy_ttl (id : nat) (expiry : option Z) : S_ unit :=
  match expiry with Some e => ttl_set id e | None => mret tt end.

(** The switch of [copy] over the type, once the source's expiry has been read. *)
Definition copy_value (source destination : bytes) (expiry : option Z) : S_ CopyResult :=
  type ← on_ks (type_of source);
  type ← need type;
  (if bool_decide (type = KT_String) then
     text ← get_text source;
     value ← need text;
     erase_key destination;;
     id ← on_ks (set_string string_encoding_ destination value);
     copy_ttl id expiry
   else
     original ← object_of source;
     erase_key destination;;
     on_ks (place_loaded destination type (clone type original));;
     id ← id_of destination;
     id ← need id;
     copy_ttl id expiry);;
  signal_key_modified destination;;
  mret Copied.

Definition copy (source destination : bytes) (replace : bool) (now : Z) : S_ CopyResult :=
  if bool_decide (source = destination) then mret CopySameKey
  else
    purge_if_expired source now;;
    source_id ← id_of source;
    match source_id with
    | None => mret CopySourceMissing
    | Some source_id =>
        purge_if_expired destination now;;
        taken ← exists_ destination;
        if negb replace && taken then mret CopyDestinationExists
        else
          expiry ← gets (ttl_expiry source_id);
          copy_value source destination expiry
    end.

(** ** What a store represents *)

Context {LC : LZ4Correct L}.

(** A key's object and its time to live. *)
Abbreviation AMap := (gmap bytes (@AObj Payload * option Z)).

Definition expiries (s : Store) (id : nat) : option Z := ttl_ s !! id.

Record rep (s : Store) (m : AMap) : Prop := mkRep {
  r_inv : ks_inv string_encoding_ (keyspace_ s);
  r_ttl : forall id e, ttl_ s !! id = Some e -> (id < ks_size (keyspace_ s))%nat /\ 0 <= e < 2 ^ 48;
  r_map : amap string_encoding_ (keyspace_ s) (expiries s) = m;
}.

Definition a_ttl (m : AMap) (k : bytes) : option Z := e ← m !! k; e.2.
Definition a_text (m : AMap) (k : bytes) : option bytes :=
  e ← m !! k; match e.1 with AStr t => Some t | AOther _ _ => None end.
Definition a_has (m : AMap) (k : bytes) : bool := bool_decide (is_Some (m !! k)).
Definition a_type (m : AMap) (k : bytes) : option KeyType :=
  (fun e => match e.1 with AStr _ => KT_String | AOther t _ => t end) <$> m !! k.

(** Every key that was not reported has the entry it had. *)
Definition noted (keys : list bytes) (m m' : AMap) : Prop := forall k, k ∉ keys -> m' !! k = m !! k.

Lemma noted_refl m : noted [] m m.
Proof. done. Qed.
Lemma noted_trans l1 l2 m1 m2 m3 : noted l1 m1 m2 -> noted l2 m2 m3 -> noted (l1 ++ l2) m1 m3.
Proof. intros H1 H2 k Hk. rewrite elem_of_app in Hk. rewrite H2, H1; tauto. Qed.
Lemma noted_insert k e m : noted [k] m (<[k := e]> m).
Proof. intros k' Hk. rewrite lookup_insert_ne; [done|]. intros ->. apply Hk. constructor. Qed.
Lemma noted_delete k m : noted [k] m (delete k m).
Proof. intros k' Hk. rewrite lookup_delete_ne; [done|]. intros ->. apply Hk. constructor. Qed.

(** [op] turns the map [m] into [m'], answers [a] and reports every key it changes. *)
Definition does {A} (op : S_ A) (m : AMap) (a : A) (m' : AMap) : Prop :=
  forall s, rep s m -> exists s' keys, op s = Ok a s' /\ rep s' m' /\ told_ s' = told_ s ++ keys /\ noted keys m m'.

(** [op] throws and leaves the map as it is. *)
Definition refuses {A} (op : S_ A) (m : AMap) : Prop :=
  forall s, rep s m -> exists e s', op s = Exn e s' /\ rep s' m /\ told_ s' = told_ s.

Lemma does_ret {A} (a : A) m : does (mret a) m a m.
Proof. intros s Hs. exists s, []. rewrite app_nil_r. split_and!; [done..|apply noted_refl]. Qed.

Lemma does_bind {A B} (op : S_ A) (f : A -> S_ B) m a m1 b m2 :
  does op m a m1 -> does (f a) m1 b m2 -> does (op ≫= f) m b m2.
Proof.
  intros H1 H2 s Hs. destruct (H1 s Hs) as (s1 & l1 & E1 & R1 & T1 & N1). destruct (H2 s1 R1) as (s2 & l2 & E2 & R2 & T2 & N2).
  exists s2, (l1 ++ l2). unfold mbind, M_bind. rewrite E1. split_and!; [done|done|by rewrite T2, T1, app_assoc|by eapply noted_trans].
Qed.

Lemma does_gets {A} (f : Store -> A) m a : (forall s, rep s m -> f s = a) -> does (gets f) m a m.
Proof. intros Hf s Hs. exists s, []. unfold gets. rewrite app_nil_r, (Hf s Hs). split_and!; [done..|apply noted_refl]. Qed.

Lemma does_ext {A} (op : S_ A) m a m' a' m'' : does op m a m' -> a = a' -> m' = m'' -> does op m a' m''.
Proof. by intros H -> ->. Qed.

(** A computation that reads the store before it goes on. *)
Lemma does_view {A B} (op : S_ A) (f : A -> S_ B) m b m' :
  (forall s, rep s m -> exists a, op s = Ok a s /\ does (f a) m b m') -> does (op ≫= f) m b m'.
Proof. intros H s Hs. destruct (H s Hs) as (a & E & Hd). destruct (Hd s Hs) as (s' & l & E' & R). exists s', l. unfold mbind, M_bind. by rewrite E. Qed.

(** Facts of the represented map may be used. *)
Lemma does_know {A} (op : S_ A) m a m' : (forall s, rep s m -> does op m a m') -> does op m a m'.
Proof. intros Hd s R. exact (Hd s R s R). Qed.

Section facts.
Context (s : Store) (m : AMap) (H : rep s m).

Lemma rep_lookup k : m !! k = (id ← find_id k (keyspace_ s); o ← obj_at string_encoding_ (keyspace_ s) id; Some (o, ttl_ s !! id)).
Proof. rewrite <- (r_map _ _ H). apply lookup_amap. Qed.

Lemma rep_has k : a_has m k = contains k (keyspace_ s).
Proof. unfold a_has, contains. rewrite <- (r_map _ _ H). apply bool_decide_ext. by apply amap_is_Some, H. Qed.

Lemma rep_none k : m !! k = None <-> find_id k (keyspace_ s) = None.
Proof. rewrite <- (r_map _ _ H). apply amap_None, H. Qed.

Lemma rep_found k id : find_id k (keyspace_ s) = Some id -> exists a, m !! k = Some (a, ttl_ s !! id).
Proof.
  intros Hf. destruct (obj_at_found _ _ (r_inv _ _ H) k id Hf) as [a Ha]. exists a. rewrite rep_lookup, Hf. cbn. by rewrite Ha.
Qed.

Lemma rep_ttl k id : find_id k (keyspace_ s) = Some id -> ttl_ s !! id = a_ttl m k.
Proof. intros Hf. unfold a_ttl. by destruct (rep_found k id Hf) as [a ->]. Qed.

Lemma rep_no_ttl : ttl_ s = ∅ -> forall k, a_ttl m k = None.
Proof.
  intros He k. unfold a_ttl. destruct (m !! k) as [[a b]|] eqn:E; [|done]. rewrite rep_lookup in E.
  destruct (find_id k (keyspace_ s)) as [id|]; [|done]. cbn in E. destruct (obj_at _ _ id); [|done]. cbn in E. rewrite He, lookup_empty in E. by injection E as <- <-.
Qed.

Lemma ttl_fresh id : (ks_size (keyspace_ s) <= id)%nat -> ttl_ s !! id = None.
Proof. intros Hl. destruct (ttl_ s !! id) as [e|] eqn:E; [|done]. apply (r_ttl _ _ H) in E. lia. Qed.

(** The keyspace has one id per key of the map. *)
Lemma rep_size : ks_size (keyspace_ s) = size m.
Proof.
  pose proof (r_inv _ _ H) as Hi. unfold ks_size. rewrite <- (k_keys _ _ Hi). rewrite <- (r_map _ _ H).
  assert (Hnd : NoDup (keys_ (keyspace_ s))).
  { apply NoDup_alt. intros i j k H1 H2. apply (k_index _ _ Hi) in H1, H2. congruence. }
  rewrite <- (size_list_to_set (C := gset bytes) _ Hnd). rewrite <- size_dom. f_equal. apply set_eq. intros k.
  rewrite elem_of_list_to_set, elem_of_dom, amap_is_Some by done. rewrite list_elem_of_lookup. split.
  - intros [id Hid]. exists id. by apply (k_index _ _ Hi).
  - intros [id Hid]. exists id. by apply (k_index _ _ Hi).
Qed.

(** *** Erasing a slot *)

Ltac run := unfold mbind, M_bind, gets, modify, mret, M_ret; cbv beta iota.

(** The expiry set after the key of [id] is gone and the last id took its place. *)
Definition moved_ttl (id last : nat) (ttl : gmap nat Z) : gmap nat Z :=
  let t := delete id ttl in
  if Nat.eqb id last then t else match t !! last with Some e => <[id := e]> (delete last t) | None => t end.

Lemma moved_ttl_lookup id last ttl :
  (id <= last)%nat ->
  moved_ttl id last ttl !! last = None /\ (id <> last -> moved_ttl id last ttl !! id = ttl !! last) /\
  (forall j, j <> id -> j <> last -> moved_ttl id last ttl !! j = ttl !! j).
Proof.
  intros Hl. unfold moved_ttl. destruct (Nat.eqb_spec id last) as [->|Hne].
  - split_and!; [apply lookup_delete_eq|done|]. intros j Hj _. by rewrite lookup_delete_ne.
  - rewrite lookup_delete_ne by done. destruct (ttl !! last) as [e|] eqn:E.
    + split_and!; [by rewrite lookup_insert_ne, lookup_delete_eq|intros _; by rewrite lookup_insert_eq|].
      intros j Hj Hjl. by rewrite lookup_insert_ne, !lookup_delete_ne.
    + split_and!; [by rewrite lookup_delete_ne|intros _; apply lookup_delete_eq|]. intros j Hj _. by rewrite lookup_delete_ne.
Qed.

Lemma size_delete (t : gmap nat Z) i e : t !! i = Some e -> size t = S (size (delete i t)).
Proof. intros Hi. rewrite <- (insert_delete_id t i e Hi) at 1. apply map_size_insert_None, lookup_delete_eq. Qed.

Lemma moved_ttl_size id last ttl e : ttl !! id = Some e -> size ttl = S (size (moved_ttl id last ttl)).
Proof.
  intros Hid. unfold moved_ttl. rewrite (size_delete _ _ _ Hid). f_equal. destruct (Nat.eqb id last); [done|].
  destruct (delete id ttl !! last) as [e'|] eqn:El; [|done].
  rewrite (size_delete _ _ _ El). symmetry. apply map_size_insert_None.
  destruct (decide (id = last)) as [->|]; [apply lookup_delete_eq|rewrite lookup_delete_ne by done; apply lookup_delete_eq].
Qed.

Lemma erase_slot k id :
  find_id k (keyspace_ s) = Some id ->
  exists s', (ttl_clear id;; erase_keyspace_at id) s = Ok tt s' /\ rep s' (delete k m) /\ told_ s' = told_ s ++ [k] /\
    ttl_ s' = moved_ttl id (length (types_ (keyspace_ s)) - 1) (ttl_ s).
Proof.
  intros Hf. pose proof (r_inv _ _ H) as Hi. destruct (find_id_slot _ _ Hi k id Hf) as (Hl & Hkey & _).
  destruct (erase_at_run _ _ Hi k id Hf) as (lk & lt & lo & Hlk & Hlt & Hlo & Hrun). set (last := (length (types_ (keyspace_ s)) - 1)%nat) in *.
  set (T := moved_ttl id last (ttl_ s)). exists (mkStore (removed (keyspace_ s) id k lk lt lo) T (told_ s ++ [k])).
  destruct (moved_ttl_lookup id last (ttl_ s)) as (Tl & Tid & Tj); [unfold last; lia|]. split; [|split; [|done]].
  - unfold ttl_clear, erase_keyspace_at, on_ks, key_for_id, signal_key_modified, ttl_rekey. run. cbn. rewrite Hkey. cbn. rewrite Hrun. cbn.
    unfold T, moved_ttl. destruct (Nat.eqb_spec id last); [done|]. cbn. by destruct (delete id (ttl_ s) !! last).
  - split; cbn.
    + by apply removed_inv.
    + intros j e Hj. unfold T in Hj. unfold ks_size. cbn. unfold pop_back. rewrite length_take, length_insert.
      destruct (decide (j = last)) as [->|Hjl]; [congruence|]. destruct (decide (j = id)) as [->|Hji].
      * rewrite Tid in Hj by congruence. apply (r_ttl _ _ H) in Hj as [_ He]. split; [unfold last in *; lia|done].
      * rewrite Tj in Hj by done. apply (r_ttl _ _ H) in Hj as [Hlt' He]. unfold ks_size, last in *. split; [lia|done].
    + rewrite <- (r_map _ _ H). apply amap_removed; try done.
      intros j Hj Hji. apply Tj; [done|]. fold last in Hj. lia.
Qed.

(** *** Writing a string *)

(** A key that is not there yet can be added. *)
Definition addable (k : bytes) : Prop := m !! k = None -> Z.of_nat (length k) <= kMaxBlobBytes /\ Z.of_nat (size m) <= kMaxKeyId.

Lemma write_string k v t slot :
  addable k -> write_string_value string_encoding_ v = Ret slot -> reads_as (value_view string_encoding_ slot) t ->
  exists id ks', set_string string_encoding_ k v (keyspace_ s) = Ok id ks' /\ ks_inv string_encoding_ ks' /\
    find_id k ks' = Some id /\ ttl_ s !! id = a_ttl m k /\ (ks_size (keyspace_ s) <= ks_size ks')%nat /\
    forall T : gmap nat Z, (forall j, j <> id -> T !! j = ttl_ s !! j) -> amap string_encoding_ ks' (fun j => T !! j) = <[k := (AStr t, T !! id)]> m.
Proof.
  intros Ha Hw Hr. pose proof (r_inv _ _ H) as Hi.
  assert (Hty : typed (Payload := Payload) string_encoding_ KT_String (ObjStr slot)) by (split_and!; [done|by eapply written_headed|by exists t]).
  assert (Hab : abs_object (Payload := Payload) string_encoding_ KT_String (ObjStr slot) = Some (AStr t)) by (destruct Hr as (_ & _ & Ht); cbn; by rewrite Ht).
  destruct (find_id k (keyspace_ s)) as [id|] eqn:Hf.
  - exists id, (updated (keyspace_ s) id KT_String (ObjStr slot)). split_and!.
    + by apply set_string_found.
    + by eapply updated_inv.
    + done.
    + by apply rep_ttl.
    + unfold ks_size. cbn. by rewrite length_insert.
    + intros T HT. rewrite <- (r_map _ _ H). by apply amap_updated.
  - assert (Hn : m !! k = None) by (by apply rep_none). destruct (Ha Hn) as [Hk Hs]. rewrite <- rep_size in Hs.
    exists (length (types_ (keyspace_ s))), (appended (keyspace_ s) k KT_String (ObjStr slot)). split_and!.
    + by apply set_string_new.
    + by apply appended_inv.
    + unfold find_id. cbn. apply lookup_insert_eq.
    + unfold a_ttl. rewrite Hn. by apply ttl_fresh.
    + unfold ks_size. cbn. rewrite length_app. cbn. lia.
    + intros T HT. rewrite <- (r_map _ _ H). eapply (amap_appended _ _ Hi (expiries s) (fun j => T !! j)); [done..|]. intros j Hj. apply HT. lia.
Qed.

End facts.

(** ** Each operation on the map *)

Lemma does_erase_slot {B} k id (f : S_ B) m b m' s :
  rep s m -> find_id k (keyspace_ s) = Some id -> does f (delete k m) b m' ->
  exists s' keys, (ttl_clear id;; erase_keyspace_at id;; f) s = Ok b s' /\ rep s' m' /\ told_ s' = told_ s ++ keys /\ noted keys m m'.
Proof.
  intros Hs Hf Hd. destruct (erase_slot s m Hs k id Hf) as (s1 & E & R & T & _). destruct (Hd s1 R) as (s2 & l & E2 & R2 & T2 & N2).
  exists s2, ([k] ++ l). split_and!; [|done|by rewrite T2, T, app_assoc|eapply noted_trans; [apply noted_delete|done]].
  unfold mbind, M_bind in *. destruct (ttl_clear id s) as [b1 s'| |]; [|done..]. destruct (erase_keyspace_at id s') as [[] s''| |]; [|done..].
  by injection E as ->.
Qed.

Lemma does_id_of {B} k (f : option nat -> S_ B) m b m' :
  (m !! k = None -> does (f None) m b m') ->
  (forall s id, rep s m -> find_id k (keyspace_ s) = Some id ->
     exists s' keys, f (Some id) s = Ok b s' /\ rep s' m' /\ told_ s' = told_ s ++ keys /\ noted keys m m') ->
  does (id_of k ≫= f) m b m'.
Proof.
  intros H1 H2 s Hs. change ((id_of k ≫= f) s) with (f (find_id k (keyspace_ s)) s). destruct (find_id k (keyspace_ s)) as [id|] eqn:E.
  - by apply H2.
  - apply H1; [|done]. by eapply rep_none.
Qed.

Lemma does_erase k m : does (erase_key k) m (a_has m k) (delete k m).
Proof.
  unfold erase_key. apply does_id_of.
  - intros Hn. unfold a_has. rewrite Hn, delete_id by done. apply does_ret.
  - intros s id Hs Hf. eapply does_erase_slot; [done..|]. destruct (rep_found s m Hs k id Hf) as [a Ha].
    unfold a_has. rewrite Ha. apply does_ret.
Qed.

Lemma does_exists k m : does (exists_ k) m (a_has m k) m.
Proof. apply does_gets. intros s Hs. symmetry. by apply rep_has. Qed.

Lemma get_view s m k :
  rep s m -> exists ov, get k s = Ok ov s /\
    match a_text m k with None => ov = None | Some t => exists v, ov = Some v /\ reads_as v t /\ headed v end.
Proof.
  intros Hs. pose proof (get_string_result_spec _ _ (r_inv _ _ Hs) (expiries s) k) as Hg. rewrite (r_map _ _ Hs) in Hg.
  unfold get, get_string, on_ks, a_text. unfold mbind at 1, M_bind at 1.
  assert (Hset : set_ks (keyspace_ s) s = s) by (by destruct s).
  destruct (m !! k) as [[[t|ty p] b]|]; cbn.
  - destruct Hg as (v & -> & Hr & Hh). cbn. rewrite Hset. eexists. split; [done|]. by exists v.
  - rewrite Hg. cbn. rewrite Hset. by eexists.
  - rewrite Hg. cbn. rewrite Hset. by eexists.
Qed.

Lemma does_get {B} k (f : option EncodedStringView -> S_ B) m b m' :
  (a_text m k = None -> does (f None) m b m') ->
  (forall t v, a_text m k = Some t -> reads_as v t -> headed v -> does (f (Some v)) m b m') ->
  does (get k ≫= f) m b m'.
Proof.
  intros H1 H2. apply does_view. intros s Hs. destruct (get_view s m k Hs) as (ov & E & Hov). exists ov. split; [done|].
  destruct (a_text m k) as [t|]; [destruct Hov as (v & -> & Hr & Hh); by eapply H2|subst; by apply H1].
Qed.

Lemma does_join v t m : reads_as v t -> does (join_value v) m t m.
Proof. intros (_ & _ & Ht) s Hs. exists s, []. unfold join_value, of_result. rewrite Ht, app_nil_r. by split_and!. Qed.

Lemma does_get_text k m : does (get_text k) m (a_text m k) m.
Proof.
  unfold get_text. apply does_get.
  - intros ->. apply does_ret.
  - intros t v -> Hr _. eapply does_bind; [by apply does_join|apply does_ret].
Qed.

Lemma does_holds k expected m : does (holds_text k expected) m (bool_decide (a_text m k = Some expected)) m.
Proof.
  unfold holds_text. apply does_get.
  - intros ->. rewrite bool_decide_eq_false_2 by done. apply does_ret.
  - intros t v -> Hr _ s Hs. exists s, []. unfold view_equals, of_result. rewrite (equals_reads v t expected Hr), app_nil_r. split_and!; try done.
    f_equal. apply bool_decide_ext. split; congruence.
Qed.

(** Writing [v] stores the text [t]. *)
Definition stores (v t : bytes) : Prop :=
  exists slot, write_string_value string_encoding_ v = Ret slot /\ reads_as (value_view string_encoding_ slot) t.

Lemma plain_stores v : plain v -> storable string_encoding_ v = true -> stores v v.
Proof.
  intros Hp Hst. pose proof (write_storable string_encoding_ v) as Hw. rewrite Hst in Hw. destruct Hw as [slot Hw].
  exists slot. split; [done|by apply written_reads].
Qed.

(** A write, an update of the expiry of the written id, and the report. *)
Lemma does_write {B} k v t (g : nat -> S_ unit) (G : nat -> gmap nat Z -> gmap nat Z) (h : option Z -> option Z) (f : S_ B) m b m' :
  addable m k -> stores v t ->
  (forall id s, g id s = Ok tt (set_ttl (G id (ttl_ s)) s)) ->
  (forall id T j, j <> id -> G id T !! j = T !! j) -> (forall id T, G id T !! id = h (T !! id)) ->
  (forall o e, h o = Some e -> o = Some e \/ 0 <= e < 2 ^ 48) ->
  does f (<[k := (AStr t, h (a_ttl m k))]> m) b m' ->
  does (id ← on_ks (set_string string_encoding_ k v); g id;; signal_key_modified k;; f) m b m'.
Proof.
  intros Ha (slot & Hw & Hrd) Hg HG1 HG2 Hh Hd s Hs.
  destruct (write_string s m Hs k v t slot Ha Hw Hrd) as (id & ks' & E & Hi & Hf & Ht & Hsz & Hm).
  set (s1 := mkStore ks' (G id (ttl_ s)) (told_ s ++ [k])).
  assert (Hr1 : rep s1 (<[k := (AStr t, h (a_ttl m k))]> m)).
  { split; cbn; [done| |].
    - intros j e Hj. destruct (decide (j = id)) as [->|Hne].
      + destruct (find_id_slot _ _ Hi k id Hf) as (Hl & _). split; [done|]. rewrite HG2 in Hj. apply Hh in Hj as [Hj|]; [|done]. by apply (r_ttl _ _ Hs) in Hj as [_ He].
      + rewrite HG1 in Hj by done. apply (r_ttl _ _ Hs) in Hj as [Hl He]. split; [lia|done].
    - unfold expiries. cbn. rewrite (Hm (G id (ttl_ s))) by (intros; by apply HG1). by rewrite HG2, Ht. }
  destruct (Hd s1 Hr1) as (s2 & l & E2 & R2 & T2 & N2). exists s2, ([k] ++ l).
  split_and!; [|done|by rewrite T2, app_assoc|eapply noted_trans; [apply noted_insert|done]].
  unfold mbind, M_bind, on_ks. rewrite E, Hg. done.
Qed.

(** What [f] does once the id of a present key is known. *)
Definition does_at {A} (op : nat -> S_ A) (k : bytes) (m : AMap) (a : A) (m' : AMap) : Prop :=
  forall s id, rep s m -> find_id k (keyspace_ s) = Some id ->
    exists s' keys, op id s = Ok a s' /\ rep s' m' /\ told_ s' = told_ s ++ keys /\ noted keys m m'.

Lemma does_at_const {A} (op : S_ A) k m a m' : does op m a m' -> does_at (fun _ => op) k m a m'.
Proof. intros Hd s id Hs _. by apply Hd. Qed.

Lemma does_at_bind {A B} (op : nat -> S_ A) (f : A -> S_ B) k m a m1 b m2 :
  does_at op k m a m1 -> does (f a) m1 b m2 -> does_at (fun id => op id ≫= f) k m b m2.
Proof.
  intros H1 H2 s id Hs Hf. destruct (H1 s id Hs Hf) as (s1 & l1 & E1 & R1 & T1 & N1). destruct (H2 s1 R1) as (s2 & l2 & E2 & R2 & T2 & N2).
  exists s2, (l1 ++ l2). unfold mbind, M_bind. rewrite E1. split_and!; [done|done|by rewrite T2, T1, app_assoc|by eapply noted_trans].
Qed.

(** Reading the expiry of a present key. *)
Lemma does_at_expiry {A} (f : option Z -> nat -> S_ A) k m a m' :
  does_at (f (a_ttl m k)) k m a m' -> does_at (fun id => gets (ttl_expiry id) ≫= fun e => f e id) k m a m'.
Proof.
  intros Hd s id Hs Hf. unfold mbind, M_bind, gets, ttl_expiry. rewrite (rep_ttl s m Hs k id Hf). by apply Hd.
Qed.

Lemma does_at_erase {A} (f : S_ A) k m a m' :
  does f (delete k m) a m' -> does_at (fun id => ttl_clear id;; erase_keyspace_at id;; f) k m a m'.
Proof. intros Hd s id Hs Hf. by eapply does_erase_slot. Qed.

(** The expiry of one id replaced. *)
Lemma rep_ttl_update s m k id a o (T : gmap nat Z) told :
  rep s m -> find_id k (keyspace_ s) = Some id -> m !! k = Some (a, ttl_ s !! id) ->
  (forall j, j <> id -> T !! j = ttl_ s !! j) -> T !! id = o -> (forall e, o = Some e -> 0 <= e < 2 ^ 48) ->
  rep (mkStore (keyspace_ s) T told) (<[k := (a, o)]> m).
Proof.
  intros Hs Hf Hm HT Hid Hb. pose proof (r_inv _ _ Hs) as Hi. destruct (find_id_slot _ _ Hi k id Hf) as (Hl & _). split; cbn; [done| |].
  - intros j e Hj. destruct (decide (j = id)) as [->|Hne]; [split; [done|apply Hb; congruence]|]. rewrite HT in Hj by done. by apply (r_ttl _ _ Hs) in Hj.
  - apply map_eq. intros k'. rewrite lookup_amap. destruct (decide (k' = k)) as [->|Hk].
    + rewrite lookup_insert_eq, Hf. cbn. rewrite (rep_lookup _ _ Hs), Hf in Hm. cbn in Hm. destruct (obj_at _ _ id); [|done]. cbn in *. unfold expiries. cbn. congruence.
    + rewrite lookup_insert_ne, (rep_lookup _ _ Hs) by done. destruct (find_id k' (keyspace_ s)) as [j|] eqn:E; [|done]. cbn.
      unfold expiries. cbn. rewrite HT; [done|]. intros ->. apply Hk. by eapply find_id_inj.
Qed.

(** The entry of [k] with another expiry. *)
Definition with_ttl (k : bytes) (o : option Z) (m : AMap) : AMap := alter (fun e => (e.1, o)) k m.

Lemma with_ttl_insert k o m a b : m !! k = Some (a, b) -> with_ttl k o m = <[k := (a, o)]> m.
Proof. intros Hm. apply map_eq. intros k'. unfold with_ttl. destruct (decide (k' = k)) as [->|Hk]; [by rewrite lookup_alter_eq, lookup_insert_eq, Hm|by rewrite lookup_alter_ne, lookup_insert_ne]. Qed.

Lemma noted_with_ttl k o m : noted [k] m (with_ttl k o m).
Proof. intros k' Hk. unfold with_ttl. rewrite lookup_alter_ne; [done|]. intros ->. apply Hk. constructor. Qed.

Lemma does_at_set_ttl {A} (f : S_ A) k when_ms m a m' :
  0 <= when_ms < 2 ^ 48 -> does f (with_ttl k (Some when_ms) m) a m' ->
  does_at (fun id => ttl_set id when_ms;; signal_key_modified k;; f) k m a m'.
Proof.
  intros Hw Hd s id Hs Hf. destruct (rep_found s m Hs k id Hf) as [x Hx].
  assert (R : rep (mkStore (keyspace_ s) (<[id := when_ms]> (ttl_ s)) (told_ s ++ [k])) (with_ttl k (Some when_ms) m)).
  { erewrite with_ttl_insert by done. eapply rep_ttl_update; try done.
    - intros j Hj. by apply lookup_insert_ne.
    - apply lookup_insert_eq.
    - intros e [= <-]. done. }
  destruct (Hd _ R) as (s' & l & E & R' & T & N). exists s', ([k] ++ l).
  split_and!; [|done|by rewrite T, app_assoc|eapply noted_trans; [apply noted_with_ttl|done]].
  unfold mbind, M_bind, ttl_set, signal_key_modified, modify. rewrite wrap_small by done. done.
Qed.

(** *** Strings *)

(** The text of [k] replaced, its expiry kept. *)
Definition put_text (k v : bytes) (m : AMap) : AMap := <[k := (AStr v, a_ttl m k)]> m.

(** [k] can take the text [v]. *)
Definition writable (m : AMap) (k v : bytes) : Prop := addable m k /\ plain v /\ storable string_encoding_ v = true.

Lemma clear_ttl_of_run id s : clear_ttl_of id s = Ok tt (set_ttl (delete id (ttl_ s)) s).
Proof.
  unfold clear_ttl_of, ttl_clear, mbind, M_bind, gets, modify, ttl_empty. case_bool_decide as He; [|done].
  rewrite He, delete_empty, <- He. by destruct s.
Qed.

Lemma does_set k v m : writable m k v -> does (set k v) m tt (<[k := (AStr v, None)]> m).
Proof.
  intros (Ha & Hp & Hst). apply (does_write k v v clear_ttl_of (fun id t => delete id t) (fun _ => None) (mret tt) m tt); try done.
  - by apply plain_stores.
  - intros id s. apply clear_ttl_of_run.
  - intros id t j Hj. by apply lookup_delete_ne.
  - intros id t. apply lookup_delete_eq.
  - apply does_ret.
Qed.

Lemma does_put {B} k v (f : S_ B) m b m' :
  writable m k v -> does f (put_text k v m) b m' ->
  does (on_ks (set_string string_encoding_ k v);; signal_key_modified k;; f) m b m'.
Proof.
  intros (Ha & Hp & Hst) Hd. change (does (id ← on_ks (set_string string_encoding_ k v); mret tt;; signal_key_modified k;; f) m b m').
  apply (does_write k v v (fun _ => mret tt) (fun _ t => t) (fun o => o)); try done.
  - by apply plain_stores.
  - intros id s. by destruct s.
  - intros o e ->. by left.
Qed.

Lemma does_set_keep_ttl k v m : writable m k v -> does (set_keep_ttl k v) m tt (put_text k v m).
Proof. intros Hw. apply (does_put k v (mret tt)); [done|apply does_ret]. Qed.

Lemma create_is_set k v s : find_id k (keyspace_ s) = None -> create_string string_encoding_ k v (keyspace_ s) = set_string string_encoding_ k v (keyspace_ s).
Proof. intros Hf. unfold set_string, mbind, M_bind, gets. by rewrite Hf. Qed.

Lemma does_set_nx k v m : (m !! k = None -> writable m k v) -> does (set_nx k v) m (negb (a_has m k)) (if a_has m k then m else <[k := (AStr v, None)]> m).
Proof.
  intros Hw s Hs. unfold set_nx, on_ks, set_string_if_absent. unfold mbind, M_bind, gets.
  destruct (find_id k (keyspace_ s)) as [id|] eqn:Hf.
  - assert (a_has m k = true) as ->. { rewrite (rep_has _ _ Hs). unfold contains. rewrite Hf. by apply bool_decide_eq_true_2. }
    exists s, []. rewrite app_nil_r. split_and!; [by destruct s|done..].
  - assert (Hn : m !! k = None) by (by eapply rep_none). assert (a_has m k = false) as ->. { unfold a_has. rewrite Hn. by apply bool_decide_eq_false_2, is_Some_None. }
    assert (a_ttl m k = None) as Ht by (unfold a_ttl; by rewrite Hn).
    destruct (does_set_keep_ttl k v m (Hw Hn) s Hs) as (s' & l & E & R & T & N). exists s', l. unfold put_text in R, N. rewrite Ht in R, N.
    split_and!; try done. revert E. unfold set_keep_ttl, on_ks, mbind, M_bind. rewrite <- create_is_set by done.
    destruct (create_string string_encoding_ k v (keyspace_ s)) as [id ks| |]; [|done..]. by intros [= <-].
Qed.

Lemma does_get_set k v m : writable m k v -> does (get_set k v) m (a_text m k) (put_text k v m).
Proof. intros Hw. unfold get_set. eapply does_bind; [apply does_get_text|]. apply does_put; [done|apply does_ret]. Qed.

Lemma does_get_del k m : does (get_del k) m (a_text m k) (delete k m).
Proof. unfold get_del. eapply does_bind; [apply does_get_text|]. eapply does_bind; [apply does_erase|apply does_ret]. Qed.

Lemma a_text_has k m t : a_text m k = Some t -> a_has m k = true.
Proof. unfold a_text, a_has. destruct (m !! k) as [e|]; [|done]. intros _. by apply bool_decide_eq_true_2. Qed.

Lemma does_compare_and_delete k expected m :
  does (compare_and_delete k expected) m (bool_decide (a_text m k = Some expected)) (if decide (a_text m k = Some expected) then delete k m else m).
Proof.
  unfold compare_and_delete. eapply does_bind; [apply does_holds|]. case_decide as E.
  - rewrite bool_decide_eq_true_2 by done. rewrite <- (a_text_has _ _ _ E). apply does_erase.
  - rewrite bool_decide_eq_false_2 by done. apply does_ret.
Qed.

Lemma does_compare_and_set k expected v m :
  (a_text m k = Some expected -> writable m k v) ->
  does (compare_and_set k expected v) m (bool_decide (a_text m k = Some expected)) (if decide (a_text m k = Some expected) then put_text k v m else m).
Proof.
  intros Hw. unfold compare_and_set. eapply does_bind; [apply does_holds|]. case_decide as E.
  - rewrite bool_decide_eq_true_2 by done. eapply does_bind; [by apply does_set_keep_ttl, Hw|apply does_ret].
  - rewrite bool_decide_eq_false_2 by done. apply does_ret.
Qed.

Lemma does_strlen k m : does (strlen k) m ((fun t : bytes => Z.of_nat (length t)) <$> a_text m k) m.
Proof.
  unfold strlen. apply does_get.
  - intros ->. apply does_ret.
  - intros t v -> (_ & Hsz & _) _. cbn. rewrite <- Hsz. apply does_ret.
Qed.

(** A value fits exactly when it can be stored. *)
Lemma value_fits_storable v : value_fits v = storable string_encoding_ v.
Proof.
  pose proof (string_value_fits_correct v string_encoding_ AllowLz4) as Hf. unfold value_fits, storable.
  destruct (StringEncoding.encode v string_encoding_ AllowLz4) as [e| |]; [apply Hf; by exists e|..];
    (apply not_true_is_false; intros [e He]%Hf; done).
Qed.

Lemma short_storable v : Z.of_nat (length v) <= kStringMaxBytes -> storable string_encoding_ v = true.
Proof.
  intros Hl. rewrite <- value_fits_storable. unfold value_fits, string_value_fits, Options.max_value_bytes, kStringMaxVerbatimBytes.
  unfold kStringMaxBytes in *. destruct (Options.encoding_enabled _); [by btrue (Z.of_nat (length v) <=? 65534)|by btrue (Z.of_nat (length v) <=? 65535)].
Qed.

Lemma length_to_chars v : (length (to_chars_u64 v) <= 20)%nat.
Proof.
  unfold to_chars_u64. generalize 20%nat as n. intros n. revert v. induction n as [|n IH]; intros v; cbn [to_dec]; [done|].
  destruct (v <? 10); [cbn; lia|]. rewrite length_app. specialize (IH (v / 10)). cbn. lia.
Qed.

(** No stored text is longer than the 24-bit logical length. *)
Lemma storable_length v : plain v -> storable string_encoding_ v = true -> Z.of_nat (length v) <= kStringMaxCompressedLogicalBytes.
Proof.
  unfold storable. destruct (StringEncoding.encode v string_encoding_ AllowLz4) as [e| |] eqn:He; [|done..]. intros Hp _.
  unfold kStringMaxCompressedLogicalBytes.
  destruct (encode_cases _ _ _ _ He) as (_ & [(_ & _ & Hl & _)|(_ & [(i & _ & Hi & _)|[(i & _ & Hu & _)|[(c & _ & Hc & _)|(_ & Hr & _)]]])]).
  - lia.
  - destruct (encode_integer_inv _ _ Hi Hp) as [(n & _ & _ & <-)|(neg & n & _ & _ & <-)].
    + pose proof (length_to_chars n). lia.
    + pose proof (length_to_chars n). unfold int_text. destruct neg; cbn [length]; lia.
  - unfold encode_uuid_any in Hu. destruct (_ || _) eqn:Hb; [|done]. apply orb_true_iff in Hb as [Hb%bool_decide_eq_true|Hb%bool_decide_eq_true]; lia.
  - by apply encode_lz4_inv in Hc as [Hl _].
  - lia.
Qed.

(** The longer text of APPEND, refused when it cannot be stored. *)
Definition a_append (k v : bytes) (m : AMap) : option Z * AMap :=
  let t := default [] (a_text m k) ++ v in
  if storable string_encoding_ t then (Some (Z.of_nat (length t)), put_text k t m) else (None, m).

Lemma does_append k v m :
  addable m k -> plain (default [] (a_text m k) ++ v) -> does (append k v) m (a_append k v m).1 (a_append k v m).2.
Proof.
  intros Ha Hp. unfold append, a_append. eapply does_bind; [apply does_get_text|]. destruct (a_text m k) as [t|]; cbn [default id] in *.
  - destruct (u64 (kStringMaxCompressedLogicalBytes - Z.of_nat (length t)) <? Z.of_nat (length v)) eqn:E.
    + destruct (storable string_encoding_ (t ++ v)) eqn:Hst; [|apply does_ret]. exfalso.
      apply storable_length in Hst; [|done]. rewrite length_app in Hst. unfold kStringMaxCompressedLogicalBytes, u64 in *. rewrite Z.mod_small in E; lia.
    + rewrite value_fits_storable. destruct (storable string_encoding_ (t ++ v)) eqn:Hst; cbn [negb]; [|apply does_ret].
      apply does_put; [done|apply does_ret].
  - rewrite value_fits_storable. destruct (storable string_encoding_ v) eqn:Hst; cbn [negb app] in *; rewrite ?Hst; [|apply does_ret].
    apply does_put; [done|apply does_ret].
Qed.

(** *** Counters *)

Definition in_i64 (v : Z) : Prop := i64_min <= v <= i64_max.

Lemma to_string_i64_text v : in_i64 v -> exists n, 0 <= n < 2 ^ 64 /\ to_string_i64 v = int_text (v <? 0) n /\ signed_val (v <? 0) (to_chars_u64 n) = v.
Proof.
  unfold in_i64, i64_min, i64_max. intros Hv. unfold to_string_i64, int_text, signed_val. destruct (Z.ltb_spec v 0).
  - exists (- v). split_and!; [lia..|done|]. destruct (to_chars_u64_canonical (- v)) as [_ ->]; lia.
  - exists v. split_and!; [lia..|done|]. destruct (to_chars_u64_canonical v) as [_ ->]; lia.
Qed.

(** A counter reads back the number it stored. *)
Lemma parse_to_string v : in_i64 v -> parse_i64 (to_string_i64 v) = Some v.
Proof.
  intros Hv. destruct (to_string_i64_text v Hv) as (n & Hn & -> & Hsv). destruct (to_chars_u64_canonical n Hn) as [(Hd & Hne & _) _].
  apply parse_i64_iff. exists (v <? 0), (to_chars_u64 n). split_and!; try done; [by destruct (v <? 0)|apply Hv..].
Qed.

Lemma to_string_plain v : in_i64 v -> plain (to_string_i64 v).
Proof.
  intros Hv. destruct (to_string_i64_text v Hv) as (n & Hn & -> & _). destruct (to_chars_u64_canonical n Hn) as [Hc Hd].
  assert (E : unsigned_part (int_text (v <? 0) n) = to_chars_u64 n).
  { unfold int_text. destruct (v <? 0); [done|]. destruct Hc as (Hdig & Hne & _). destruct (to_chars_u64 n) as [|b l]; [done|]. cbn.
    apply Forall_cons in Hdig as [Hb _]. case_decide; [by subst|done]. }
  unfold plain. rewrite E. unfold wraps. destruct (parse_canonical_u64 (to_chars_u64 n)) as [x|] eqn:Hx; [|done].
  apply parse_canonical_u64_iff in Hx as [_ Hx]. destruct Hc as (Hdig & Hne & _).
  rewrite parse_u64_exact in Hx by (done || lia). injection Hx as <-. by rewrite Z.eqb_refl.
Qed.

Lemma to_string_storable v : storable string_encoding_ (to_string_i64 v) = true.
Proof.
  apply short_storable. unfold to_string_i64, kStringMaxBytes. destruct (v <? 0); cbn [length]; [pose proof (length_to_chars (- v))|pose proof (length_to_chars v)]; lia.
Qed.

(** The number a key holds: 0 when there is no text. *)
Definition a_int (m : AMap) (k : bytes) : option Z := match a_text m k with Some t => parse_i64 t | None => Some 0 end.

Lemma a_int_range m k c : a_int m k = Some c -> in_i64 c.
Proof.
  unfold a_int, in_i64. destruct (a_text m k) as [t|]; [|intros [= <-]; unfold i64_min, i64_max; lia]. by intros (? & ? & ? & ? & ? & ? & ?)%parse_i64_iff.
Qed.

Lemma does_current_integer k m : does (current_integer k) m (a_int m k) m.
Proof.
  unfold current_integer, a_int. eapply does_bind; [apply does_get_text|]. destruct (a_text m k); apply does_ret.
Qed.

Definition put_int (k : bytes) (v : Z) (m : AMap) : AMap := put_text k (to_string_i64 v) m.

Lemma does_store_integer {B} k v (f : S_ B) m b m' :
  addable m k -> in_i64 v -> does f (put_int k v m) b m' -> does (store_integer k v;; f) m b m'.
Proof.
  intros Ha Hv Hd. unfold store_integer. eapply (does_bind _ (fun _ => f) m tt (put_int k v m)); [|done].
  apply (does_put k (to_string_i64 v) (mret tt) m tt); [|apply does_ret].
  split_and!; [done|by apply to_string_plain|apply to_string_storable].
Qed.

(** The sum when it fits in 64 bits. *)
Definition a_incr_by (k : bytes) (delta : Z) (m : AMap) : option Z * AMap :=
  match a_int m k with
  | Some c => if decide (in_i64 (c + delta)) then (Some (c + delta), put_int k (c + delta) m) else (None, m)
  | None => (None, m)
  end.

Definition a_incr_bound (k : bytes) (delta max : Z) (m : AMap) : option Z * AMap :=
  match a_int m k with
  | Some c =>
      if decide (max < c + delta) then (Some (-1), m)
      else if decide (in_i64 (c + delta)) then (Some (c + delta), put_int k (c + delta) m) else (None, m)
  | None => (None, m)
  end.

Definition a_decr_positive (k : bytes) (m : AMap) : option Z * AMap :=
  match a_int m k with
  | Some c => if decide (0 < c) then (Some (c - 1), put_int k (c - 1) m) else (Some (-1), m)
  | None => (None, m)
  end.

Ltac then_branch := match goal with |- does (if ?b then _ else _) _ _ _ => replace b with true by lia end.
Ltac else_branch := match goal with |- does (if ?b then _ else _) _ _ _ => replace b with false by lia end.
Ltac counter :=
  eapply does_bind; [apply does_current_integer|];
  match goal with |- context [a_int ?m ?k] => destruct (a_int m k) as [c|] eqn:Hc; [|apply does_ret]; apply a_int_range in Hc; unfold in_i64, i64_min, i64_max in * end.

Lemma does_incr_by k delta m : addable m k -> in_i64 delta -> does (incr_by k delta) m (a_incr_by k delta m).1 (a_incr_by k delta m).2.
Proof.
  intros Ha Hdl. unfold incr_by, a_incr_by. counter. case_decide as Hd.
  - else_branch.
    apply does_store_integer; [done|unfold in_i64, i64_min, i64_max; lia|apply does_ret].
  - then_branch. apply does_ret.
Qed.

Lemma does_incr_bound k delta max m :
  addable m k -> in_i64 delta -> in_i64 max -> does (incr_bound k delta max) m (a_incr_bound k delta max m).1 (a_incr_bound k delta max m).2.
Proof.
  intros Ha Hdl Hmx. unfold incr_bound, a_incr_bound. counter. case_decide as Hd.
  - then_branch. apply does_ret.
  - else_branch. case_decide as Hd2.
    + else_branch. apply does_store_integer; [done|unfold in_i64, i64_min, i64_max; lia|apply does_ret].
    + then_branch. apply does_ret.
Qed.

Lemma does_decr_positive k m : addable m k -> does (decr_positive k) m (a_decr_positive k m).1 (a_decr_positive k m).2.
Proof.
  intros Ha. unfold decr_positive, a_decr_positive. counter. case_decide as Hd.
  - else_branch. apply does_store_integer; [done|unfold in_i64, i64_min, i64_max; lia|apply does_ret].
  - then_branch. apply does_ret.
Qed.

(** *** Ranges of a text *)

(** An index, from the end when it is negative. *)
Definition at_index (t : bytes) (i : Z) : Z := if i <? 0 then Z.max 0 (Z.of_nat (length t) + i) else i.
(** The bytes from one position to another, both included. *)
Definition span (t : bytes) (i j : Z) : bytes := take (Z.to_nat (j - i + 1)) (drop (Z.to_nat i) t).
Definition a_getrange (k : bytes) (i j : Z) (m : AMap) : bytes :=
  let t := default [] (a_text m k) in span t (at_index t i) (at_index t j).

Lemma does_getrange k i j m : does (getrange k i j) m (a_getrange k i j m) m.
Proof.
  unfold getrange, a_getrange. apply does_get.
  - intros ->. cbn [default]. unfold span. rewrite drop_nil, take_nil. apply does_ret.
  - intros t v -> (Hva & Hsz & Ht) _. cbn [default id]. rewrite Hsz.
    destruct (Z.eqb_spec (Z.of_nat (length t)) 0) as [E|E].
    { destruct t; [|cbn in E; lia]. unfold span. rewrite drop_nil, take_nil. apply does_ret. }
    set (n := Z.of_nat (length t)) in *. unfold at_index. fold n.
    set (i1 := if i <? 0 then i + n else i). set (j1 := if j <? 0 then j + n else j).
    replace (if i <? 0 then Z.max 0 (n + i) else i) with (if i1 <? 0 then 0 else i1) by (unfold i1; repeat case_bool; lia).
    replace (if j <? 0 then Z.max 0 (n + j) else j) with (if j1 <? 0 then 0 else j1) by (unfold j1; repeat case_bool; lia).
    set (i2 := if i1 <? 0 then 0 else i1). set (j2 := if j1 <? 0 then 0 else j1).
    assert (0 <= i2 /\ 0 <= j2) as [Hi Hj] by (unfold i2, j2; repeat case_bool; lia).
    unfold span. destruct (n <=? j2) eqn:El.
    + destruct (n - 1 <? i2) eqn:Ei.
      * rewrite drop_ge, take_nil by lia. apply does_ret.
      * eapply does_bind; [apply does_join; by split_and!|]. rewrite !take_ge by (rewrite length_drop; lia). apply does_ret.
    + destruct (j2 <? i2) eqn:Ei.
      * replace (Z.to_nat (j2 - i2 + 1)) with 0%nat by lia. rewrite take_0. apply does_ret.
      * eapply does_bind; [apply does_join; by split_and!|]. apply does_ret.
Qed.

(** [t] with [v] written over it at [off], the gap filled with zeros. *)
Definition overlay (off : nat) (v t : bytes) : bytes :=
  take off (t ++ replicate (off - length t) x00) ++ v ++ drop (off + length v) t.

Definition a_setrange (k : bytes) (off : Z) (v : bytes) (m : AMap) : option Z * AMap :=
  let t := default [] (a_text m k) in
  if decide (v = []) then (Some (Z.of_nat (length t)), m)
  else
    let t' := overlay (Z.to_nat off) v t in
    if storable string_encoding_ t' then (Some (Z.of_nat (length t')), put_text k t' m) else (None, m).

Lemma length_overlay off v t : length (overlay off v t) = Nat.max (length t) (off + length v).
Proof. unfold overlay. rewrite !length_app, length_take, length_app, length_replicate, length_drop. lia. Qed.

(** The buffer of the code: resized to the final length, then overwritten. *)
Lemma buffer_overlay off n v t :
  n = Nat.max (length t) (off + length v) ->
  let b := take n (t ++ replicate (n - length t) x00) in take off b ++ v ++ drop (off + length v) b = overlay off v t.
Proof.
  intros -> b. unfold b. rewrite (take_ge (t ++ _)) by (rewrite length_app, length_replicate; lia). unfold overlay. f_equal; [|f_equal].
  - rewrite !take_app. f_equal. rewrite !take_replicate. f_equal. lia.
  - rewrite drop_app, drop_replicate. replace (_ - _ - _)%nat with 0%nat by lia. by rewrite app_nil_r.
Qed.

Lemma does_setrange k off v m :
  addable m k -> 0 <= off -> (v <> [] -> plain (overlay (Z.to_nat off) v (default [] (a_text m k)))) ->
  does (setrange k off v) m (a_setrange k off v m).1 (a_setrange k off v m).2.
Proof.
  intros Ha Ho Hp. unfold setrange, a_setrange.
  assert (Hcase : forall t (rd : S_ bytes), t = default [] (a_text m k) -> does rd m t m ->
    does (match v with
          | [] => mret (Some (Z.of_nat (length t)))
          | _ =>
            let size := Z.of_nat (length v) in
            if (kStringMaxCompressedLogicalBytes <? off) || (kStringMaxCompressedLogicalBytes - off <? size) then mret None
            else
              let result_len := Z.max (Z.of_nat (length t)) (off + size) in
              text ← rd;
              let buffer := take (Z.to_nat result_len) (text ++ replicate (Z.to_nat result_len - length text) x00) in
              let buffer := take (Z.to_nat off) buffer ++ v ++ drop (Z.to_nat off + length v) buffer in
              if negb (value_fits buffer) then mret None
              else
                on_ks (set_string string_encoding_ k buffer);;
                signal_key_modified k;;
                mret (Some result_len)
          end) m (a_setrange k off v m).1 (a_setrange k off v m).2).
  { intros t rd -> Hrd. unfold a_setrange. set (t := default [] (a_text m k)) in *. destruct v as [|b v']; [apply does_ret|].
    set (v := b :: v') in *. cbn zeta. rewrite decide_False by done. specialize (Hp ltac:(done)).
    set (t' := overlay (Z.to_nat off) v t) in *.
    assert (Hlen : Z.of_nat (length t') = Z.max (Z.of_nat (length t)) (off + Z.of_nat (length v))) by (unfold t'; rewrite length_overlay; lia).
    destruct (_ || _) eqn:E.
    - destruct (storable string_encoding_ t') eqn:Hst; [|apply does_ret]. exfalso. apply storable_length in Hst; [|done].
      unfold kStringMaxCompressedLogicalBytes in *. lia.
    - eapply does_bind; [done|]. cbn beta. rewrite (buffer_overlay (Z.to_nat off) _ v t) by lia. fold t'.
      rewrite value_fits_storable. destruct (storable string_encoding_ t') eqn:Hst; cbn [negb]; [|apply does_ret].
      rewrite <- Hlen. apply does_put; [done|apply does_ret]. }
  apply does_get.
  - intros Hn. rewrite Hn in Hcase. apply (Hcase [] (mret [])); [done|apply does_ret].
  - intros t w Ht Hr _. rewrite Ht in Hcase. pose proof Hr as (_ & Hsz & _). rewrite Hsz. apply (Hcase t (join_value w)); [done|by apply does_join].
Qed.

(** *** Expiry *)

(** The key is there and its time has come. *)
Definition a_due (now : Z) (k : bytes) (m : AMap) : bool := match a_ttl m k with Some e => e <=? now | None => false end.
Definition a_purge (now : Z) (k : bytes) (m : AMap) : AMap := if a_due now k m then delete k m else m.

Lemma purge_not_due s m k now : rep s m -> a_due now k m = false -> purge_if_expired k now s = Ok false s.
Proof.
  intros Hs Hd. unfold purge_if_expired, id_of, ttl_empty, ttl_expiry, mbind, M_bind, gets. case_bool_decide; [done|].
  destruct (find_id k (keyspace_ s)) as [id|] eqn:Hf; [|done]. rewrite (rep_ttl _ _ Hs k id Hf). unfold a_due in Hd.
  destruct (a_ttl m k) as [e|]; [|done]. replace (now <? e) with true by lia. done.
Qed.

Lemma does_purge k now m : does (purge_if_expired k now) m (a_due now k m) (a_purge now k m).
Proof.
  destruct (a_due now k m) eqn:Hd; unfold a_purge; rewrite Hd.
  - intros s Hs. unfold purge_if_expired, id_of, ttl_empty, ttl_expiry, mbind at 1 2, M_bind at 1 2, gets. rewrite bool_decide_eq_false_2.
    2: { intros He. unfold a_due in Hd. by rewrite (rep_no_ttl _ _ Hs He) in Hd. }
    unfold a_due in Hd. destruct (a_ttl m k) as [e|] eqn:Ht; [|done].
    destruct (find_id k (keyspace_ s)) as [id|] eqn:Hf.
    + unfold mbind at 1, M_bind at 1. rewrite (rep_ttl _ _ Hs k id Hf), Ht. replace (now <? e) with false by lia. eapply does_erase_slot; [done..|apply does_ret].
    + apply (rep_none _ _ Hs) in Hf. unfold a_ttl in Ht. by rewrite Hf in Ht.
  - intros s Hs. exists s, []. rewrite app_nil_r. split_and!; [by eapply purge_not_due|done..].
Qed.

(** What the flags ask of the present expiry; no expiry is later than any. *)
Definition allows (flags : ExpireFlags) (when_ms : Z) (current : option Z) : bool :=
  implb (kNx flags) (bool_decide (current = None)) && implb (kXx flags) (bool_decide (is_Some current)) &&
  implb (kGt flags) (match current with Some e => e <? when_ms | None => false end) &&
  implb (kLt flags) (match current with Some e => when_ms <? e | None => true end).

Definition a_expire (k : bytes) (when_ms now : Z) (flags : ExpireFlags) (m : AMap) : bool * AMap :=
  if a_has m k && allows flags when_ms (a_ttl m k) then (true, if when_ms <=? now then delete k m else with_ttl k (Some when_ms) m)
  else (false, m).

Lemma does_present {A} k (f : option nat -> S_ A) m a m' :
  (a_has m k = false -> does (f None) m a m') -> (a_has m k = true -> does_at (fun id => f (Some id)) k m a m') -> does (id_of k ≫= f) m a m'.
Proof.
  intros H1 H2. apply does_id_of.
  - intros Hn. apply H1. unfold a_has. rewrite Hn. by apply bool_decide_eq_false_2, is_Some_None.
  - intros s id Hs Hf. apply H2; [|done|done]. destruct (rep_found _ _ Hs k id Hf) as [x Hx]. unfold a_has. rewrite Hx. by apply bool_decide_eq_true_2.
Qed.

Lemma does_expire_at k when_ms now flags m :
  0 <= when_ms < 2 ^ 48 -> does (expire_at_ms k when_ms now flags) m (a_expire k when_ms now flags m).1 (a_expire k when_ms now flags m).2.
Proof.
  intros Hw. unfold expire_at_ms, a_expire. apply does_present; intros Hh; rewrite Hh; cbn [andb]; [apply does_ret|].
  apply does_at_expiry. set (cur := a_ttl m k).
  assert (Hgo : does_at (fun id => if when_ms <=? now then ttl_clear id;; erase_keyspace_at id;; mret true
                          else ttl_set id when_ms;; signal_key_modified k;; mret true) k m true
                  (if when_ms <=? now then delete k m else with_ttl k (Some when_ms) m)).
  { destruct (when_ms <=? now); [apply does_at_erase, does_ret|apply does_at_set_ttl; [done|apply does_ret]]. }
  assert (Hno : does_at (fun _ => mret false) k m false m) by apply does_at_const, does_ret.
  unfold allows. destruct flags as [nx xx gt lt]. destruct cur as [e|]; cbn [kNx kXx kGt kLt default id].
  - rewrite bool_decide_eq_true_2, bool_decide_eq_false_2 by done. cbn [negb orb]. rewrite !andb_true_r, andb_false_r.
    destruct nx, xx, gt, lt; cbn [andb implb]; rewrite ?andb_true_r; try done; repeat case_bool; cbn [andb fst snd]; try done; lia.
  - rewrite (bool_decide_eq_false_2 (is_Some None)) by (by intros []). rewrite bool_decide_eq_true_2 by done. cbn [negb orb andb].
    rewrite ?andb_true_r, ?andb_false_r. destruct nx, xx, gt, lt; cbn [andb implb orb negb fst snd]; done.
Qed.

Definition a_pttl (k : bytes) (now : Z) (m : AMap) : Z :=
  if a_has m k then match a_ttl m k with Some e => if e <=? now then -2 else e - now | None => -1 end else -2.
Definition a_expiretime (k : bytes) (m : AMap) : Z := if a_has m k then default (-1) (a_ttl m k) else -2.

Lemma does_pttl k now m : does (pttl_ms k now) m (a_pttl k now m) m.
Proof.
  unfold pttl_ms, a_pttl. apply does_present; intros ->; [apply does_ret|].
  apply (does_at_expiry (fun o _ => match o with None => mret (-1) | Some e => mret (if e <=? now then -2 else e - now) end)).
  apply does_at_const. destruct (a_ttl m k); apply does_ret.
Qed.

Lemma does_expiretime k m : does (expiretime_ms k) m (a_expiretime k m) m.
Proof.
  unfold expiretime_ms, a_expiretime. apply does_present; intros ->; [apply does_ret|].
  apply (does_at_expiry (fun o _ => mret (default (-1) o))). apply does_at_const, does_ret.
Qed.

Lemma a_ttl_has k m e : a_ttl m k = Some e -> a_has m k = true.
Proof. unfold a_ttl, a_has. destruct (m !! k); [|done]. intros _. by apply bool_decide_eq_true_2. Qed.

Lemma with_ttl_same k m : a_ttl m k = None -> with_ttl k None m = m.
Proof.
  intros Ht. unfold with_ttl. apply map_eq. intros k'. destruct (decide (k' = k)) as [->|Hk]; [|by rewrite lookup_alter_ne].
  rewrite lookup_alter_eq. unfold a_ttl in Ht. destruct (m !! k) as [[a o]|]; [|done]. cbn in *. by subst.
Qed.

Lemma does_persist k m : does (persist k) m (bool_decide (is_Some (a_ttl m k))) (with_ttl k None m).
Proof.
  unfold persist. apply does_present; intros Hh.
  - assert (a_ttl m k = None) as Ht by (destruct (a_ttl m k) eqn:E; [apply a_ttl_has in E; congruence|done]).
    rewrite with_ttl_same, Ht, bool_decide_eq_false_2 by (done || apply is_Some_None). apply does_ret.
  - intros s id Hs Hf. unfold ttl_clear, mbind, M_bind, gets, modify, when. rewrite (rep_ttl _ _ Hs k id Hf).
    destruct (rep_found _ _ Hs k id Hf) as [x Hx].
    assert (R : forall told, rep (mkStore (keyspace_ s) (delete id (ttl_ s)) told) (with_ttl k None m)).
    { intros told. erewrite with_ttl_insert by done. eapply rep_ttl_update; try done; [intros j Hj; by apply lookup_delete_ne|apply lookup_delete_eq]. }
    case_bool_decide as Ht.
    + exists (mkStore (keyspace_ s) (delete id (ttl_ s)) (told_ s ++ [k])), [k]. split_and!; [done|apply R|done|apply noted_with_ttl].
    + exists (mkStore (keyspace_ s) (delete id (ttl_ s)) (told_ s)), []. rewrite app_nil_r. split_and!; [done|apply R|done|].
      rewrite with_ttl_same; [apply noted_refl|by apply eq_None_not_Some].
Qed.

Lemma does_compare_and_expire k expected when_ms now m :
  0 <= when_ms < 2 ^ 48 ->
  does (compare_and_expire k expected when_ms now) m (bool_decide (a_text m k = Some expected))
    (if decide (a_text m k = Some expected) then (a_expire k when_ms now kNone m).2 else m).
Proof.
  intros Hw. unfold compare_and_expire. eapply does_bind; [apply does_holds|]. case_decide as E.
  - rewrite bool_decide_eq_true_2 by done. eapply does_ext; [by apply does_expire_at| |done]. unfold a_expire. by rewrite (a_text_has _ _ _ E).
  - rewrite bool_decide_eq_false_2 by done. apply does_ret.
Qed.

Definition a_incr_expire (k : bytes) (when_ms now : Z) (m : AMap) : option Z * AMap :=
  let r := a_incr_by k 1 m in
  (r.1, if decide (r.1 = Some 1) then (a_expire k when_ms now kNone r.2).2 else r.2).

Lemma does_incr_expire k when_ms now m :
  addable m k -> 0 <= when_ms < 2 ^ 48 -> does (incr_expire k when_ms now) m (a_incr_expire k when_ms now m).1 (a_incr_expire k when_ms now m).2.
Proof.
  intros Ha Hw. unfold incr_expire, a_incr_expire. cbn [fst snd]. eapply does_bind; [apply does_incr_by; [done|unfold in_i64, i64_min, i64_max; lia]|].
  set (r := a_incr_by k 1 m). destruct r.1 as [v|] eqn:Hr; [|rewrite decide_False by done; apply does_ret].
  destruct (Z.eqb_spec v 1) as [->|Hv].
  - rewrite decide_True by done. eapply does_bind; [|apply does_ret]. eapply does_bind; [by apply does_expire_at|apply does_ret].
  - rewrite decide_False by congruence. eapply does_bind; apply does_ret.
Qed.

(** Keys in turn, each first purged. *)
Fixpoint a_touch (keys : list bytes) (now : Z) (m : AMap) : Z * AMap :=
  match keys with
  | [] => (0, m)
  | k :: keys => let m1 := a_purge now k m in let r := a_touch keys now m1 in ((if a_has m1 k then 1 else 0) + r.1, r.2)
  end.

Lemma does_touch keys now n m : does (touch keys now n) m (n + (a_touch keys now m).1) (a_touch keys now m).2.
Proof.
  revert n m. induction keys as [|k keys IH]; intros n m; cbn [touch a_touch fst snd]; [rewrite Z.add_0_r; apply does_ret|].
  eapply does_bind; [apply does_purge|]. eapply does_bind; [apply does_exists|]. eapply does_ext; [apply IH| |done].
  destruct (a_has _ k); lia.
Qed.

(** *** Several keys *)

Fixpoint a_set_all (pairs : list (bytes * bytes)) (m : AMap) : AMap :=
  match pairs with [] => m | (k, v) :: pairs => a_set_all pairs (<[k := (AStr v, None)]> m) end.
Fixpoint all_writable (pairs : list (bytes * bytes)) (m : AMap) : Prop :=
  match pairs with [] => True | (k, v) :: pairs => writable m k v /\ all_writable pairs (<[k := (AStr v, None)]> m) end.
Definition a_any (pairs : list (bytes * bytes)) (m : AMap) : bool := existsb (fun p => a_has m p.1) pairs.

Lemma does_any pairs m : does (any_contained pairs) m (a_any pairs m) m.
Proof.
  induction pairs as [|[k v] pairs IH]; cbn [any_contained]; [apply does_ret|]. eapply does_bind; [apply does_exists|].
  unfold a_any. cbn [existsb fst]. destruct (a_has m k); [apply does_ret|apply IH].
Qed.

Lemma does_set_all pairs m : all_writable pairs m -> does (set_all pairs) m tt (a_set_all pairs m).
Proof.
  revert m. induction pairs as [|[k v] pairs IH]; intros m Hw; cbn [set_all a_set_all]; [apply does_ret|]. destruct Hw as [Hw Hr].
  eapply does_bind; [by apply does_set|by apply IH].
Qed.

Lemma does_mset_nx pairs m :
  (a_any pairs m = false -> all_writable pairs m) ->
  does (mset_nx pairs) m (negb (a_any pairs m)) (if a_any pairs m then m else a_set_all pairs m).
Proof.
  intros Hw. unfold mset_nx. eapply does_bind; [apply does_any|]. destruct (a_any pairs m); [apply does_ret|].
  eapply does_bind; [by apply does_set_all, Hw|apply does_ret].
Qed.

Lemma does_type_of k m : does (on_ks (type_of k)) m (a_type m k) m.
Proof.
  intros s Hs. exists s, []. unfold on_ks. rewrite (type_of_spec _ _ (r_inv _ _ Hs) (expiries s)), (r_map _ _ Hs), app_nil_r.
  split_and!; [by destruct s|done..].
Qed.

(** *** Renaming *)

Definition a_rename (src dst : bytes) (nx : bool) (now : Z) (m : AMap) : RenameResult * AMap :=
  let m1 := a_purge now src m in
  match m1 !! src with
  | None => (RenameSourceMissing, m1)
  | Some e =>
      if decide (src = dst) then (if nx then RenameDestinationExists else Renamed, m1)
      else
        let m2 := a_purge now dst m1 in
        if nx && a_has m2 dst then (RenameDestinationExists, m2)
        else (Renamed, <[dst := e]> (delete src (delete dst m2)))
  end.

Lemma does_rename_key {B} src dst (f : S_ B) e m b m' :
  m !! src = Some e -> m !! dst = None -> Z.of_nat (length dst) <= kMaxBlobBytes ->
  does f (<[dst := e]> (delete src m)) b m' ->
  does (renamed ← on_ks (rename_key src dst); require renamed;; signal_key_modified src;; signal_key_modified dst;; f) m b m'.
Proof.
  intros Hs Hd Hl Hf s R. pose proof (r_inv _ _ R) as Hi. apply (rep_none _ _ R) in Hd.
  destruct (find_id src (keyspace_ s)) as [id|] eqn:Hid; [|apply (rep_none _ _ R) in Hid; congruence].
  pose proof (rename_key_run _ _ Hi src dst id Hid Hd Hl) as Hrun.
  assert (R1 : rep (mkStore (renamed (keyspace_ s) id src dst) (ttl_ s) (told_ s ++ [src; dst])) (<[dst := e]> (delete src m))).
  { split; cbn; [by apply renamed_inv|apply (r_ttl _ _ R)|]. rewrite <- (r_map _ _ R). apply amap_renamed; try done. by rewrite (r_map _ _ R). }
  destruct (Hf _ R1) as (s' & l & E & R' & T & N). exists s', ([src; dst] ++ l). split_and!; [|done|by rewrite T, app_assoc|].
  - unfold mbind, M_bind, on_ks, require, signal_key_modified, modify, set_ks. rewrite Hrun. cbn. rewrite <- app_assoc. done.
  - eapply noted_trans; [|done]. apply (noted_trans [src] [dst]) with (delete src m); [apply noted_delete|apply noted_insert].
Qed.

Lemma a_has_lookup m k : a_has m k = match m !! k with Some _ => true | None => false end.
Proof. unfold a_has. destruct (m !! k); [by apply bool_decide_eq_true_2|by apply bool_decide_eq_false_2, is_Some_None]. Qed.

Lemma a_purge_ne now k k' m : k <> k' -> a_purge now k' m !! k = m !! k.
Proof. intros Hk. unfold a_purge. destruct (a_due now k' m); [by apply lookup_delete_ne|done]. Qed.

Lemma does_rename src dst nx now m :
  Z.of_nat (length dst) <= kMaxBlobBytes -> does (rename src dst nx now) m (a_rename src dst nx now m).1 (a_rename src dst nx now m).2.
Proof.
  intros Hl. unfold rename, a_rename. eapply does_bind; [apply does_purge|]. eapply does_bind; [apply does_exists|].
  rewrite a_has_lookup. set (m1 := a_purge now src m). destruct (m1 !! src) as [e|] eqn:He; cbn [negb]; [|apply does_ret].
  case_decide as Hne; [rewrite bool_decide_eq_true_2 by done; apply does_ret|]. rewrite bool_decide_eq_false_2 by done.
  eapply does_bind; [apply does_purge|]. eapply does_bind; [apply does_exists|].
  destruct (nx && _); [apply does_ret|]. eapply does_bind; [apply does_erase|]. eapply does_rename_key; [|apply lookup_delete_eq|done|apply does_ret].
  rewrite lookup_delete_ne, a_purge_ne by done. done.
Qed.

(** *** GOBLIN.CLAIM *)

Definition a_claim (ck rk token : bytes) (when_ms now : Z) (m : AMap) : ClaimOutcome * AMap :=
  let m1 := a_purge now ck m in
  if a_has m1 ck then
    let m2 := a_purge now rk m1 in
    (match m2 !! rk with
     | Some (AOther _ _, _) => mkClaim false true None
     | Some (AStr t, _) => mkClaim false false (Some t)
     | None => mkClaim false false None
     end, m2)
  else (mkClaim true false None, if when_ms <=? now then delete ck m1 else <[ck := (AStr token, Some when_ms)]> m1).

Lemma a_other_type s m k t p o : rep s m -> m !! k = Some (AOther t p, o) -> t <> KT_String.
Proof.
  intros R Hk. rewrite <- (r_map _ _ R) in Hk. destruct (amap_Some _ _ (r_inv _ _ R) _ _ _ _ Hk) as (id & ty & ob & _ & _ & _ & Hty & Hab & _).
  destruct ob as [|slot|p']; cbn in *; [done| |congruence]. destruct (to_string _); congruence.
Qed.

Lemma does_claim ck rk token when_ms now m :
  writable (a_purge now ck m) ck token -> 0 <= when_ms < 2 ^ 48 ->
  does (claim ck rk token when_ms now) m (a_claim ck rk token when_ms now m).1 (a_claim ck rk token when_ms now m).2.
Proof.
  intros Hw Hwh. unfold claim, a_claim. eapply does_bind; [apply does_purge|]. set (m1 := a_purge now ck m) in *.
  eapply does_bind; [by apply does_set_nx|]. destruct (a_has m1 ck) eqn:Hh; cbn [negb].
  - eapply does_bind; [apply does_purge|]. set (m2 := a_purge now rk m1). cbn [fst snd]. eapply does_bind; [apply does_type_of|].
    apply does_know. intros s R. unfold a_type. destruct (m2 !! rk) as [[[t|t p] o]|] eqn:Hrk; cbn.
    + rewrite bool_decide_eq_true_2 by done. eapply does_bind; [apply does_get_text|]. unfold a_text. rewrite Hrk. apply does_ret.
    + rewrite bool_decide_eq_false_2 by (by eapply a_other_type). apply does_ret.
    + eapply does_bind; [apply does_get_text|]. unfold a_text. rewrite Hrk. apply does_ret.
  - eapply does_bind; [by apply does_expire_at|]. eapply does_ext; [apply does_ret|done|]. unfold a_expire, a_has, a_ttl, allows. rewrite lookup_insert_eq. cbn.
    destruct (when_ms <=? now).
    + cbn. apply delete_insert_eq.
    + cbn. erewrite with_ttl_insert by apply lookup_insert_eq. apply insert_insert_eq.
Qed.

(** *** Active expiry *)

Lemma ttl_least_spec l :
  match ttl_least l with
  | None => l = []
  | Some x => x ∈ l /\ forall y, y ∈ l -> x.2 <= y.2
  end.
Proof.
  induction l as [|e l IH]; cbn [ttl_least]; [done|]. destruct (ttl_least l) as [b|].
  - destruct IH as [Hb Hmin]. unfold ttl_before. destruct (_ || _) eqn:E.
    + split; [by left|]. intros y [->|Hy]%elem_of_cons; [done|]. specialize (Hmin y Hy). lia.
    + split; [by right|]. intros y [->|Hy]%elem_of_cons; [lia|by apply Hmin].
  - subst l. split; [by left|]. by intros y [->|?%not_elem_of_nil]%elem_of_cons.
Qed.

(** The front of the expiry set is a key with the least time; without one no key expires. *)
Lemma ttl_front_spec s m :
  rep s m ->
  match ttl_front s with
  | None => forall k, a_ttl m k = None
  | Some (id, e) => (exists k, find_id k (keyspace_ s) = Some id /\ a_ttl m k = Some e) /\ ttl_ s !! id = Some e /\
      forall k e', a_ttl m k = Some e' -> e <= e'
  end.
Proof.
  intros R. pose proof (ttl_least_spec (map_to_list (ttl_ s))) as Hl. unfold ttl_front. destruct (ttl_least _) as [[id e]|].
  - destruct Hl as [Hin Hmin]. apply elem_of_map_to_list in Hin. destruct (r_ttl _ _ R _ _ Hin) as [Hid _].
    destruct (slot_key _ _ (r_inv _ _ R) id Hid) as (k & _ & Hk). split_and!; [exists k; split; [done|by rewrite <- (rep_ttl _ _ R k id Hk)]|done|].
    intros k' e' Ht. destruct (find_id k' (keyspace_ s)) as [id'|] eqn:Hf.
    + rewrite <- (rep_ttl _ _ R k' id' Hf) in Ht. apply (Hmin (id', e')). by apply elem_of_map_to_list.
    + apply (rep_none _ _ R) in Hf. unfold a_ttl in Ht. by rewrite Hf in Ht.
  - apply map_to_list_empty_iff in Hl. by apply (rep_no_ttl _ _ R).
Qed.

(** The keys of a list removed. *)
Definition drop_keys (keys : list bytes) (m : AMap) : AMap := foldl (fun m k => delete k m) m keys.

Lemma noted_drop keys m : noted keys m (drop_keys keys m).
Proof.
  revert m. induction keys as [|k keys IH]; intros m; [apply noted_refl|]. cbn. apply (noted_trans [k] keys _ (delete k m)); [apply noted_delete|apply IH].
Qed.

(** A run of the loop: it removes due keys, one report each, and stops only at the budget or when none is due. *)
Lemma expire_loop_run fuel now budget n s m :
  rep s m -> (size (ttl_ s) < fuel)%nat ->
  exists keys s', expire_loop fuel now budget n s = Ok (n + Z.of_nat (length keys)) s' /\ rep s' (drop_keys keys m) /\
    told_ s' = told_ s ++ keys /\ NoDup keys /\ Forall (fun k => a_due now k m = true) keys /\
    (n <= budget -> n + Z.of_nat (length keys) <= budget) /\
    (n + Z.of_nat (length keys) < budget -> forall k, a_due now k (drop_keys keys m) = false).
Proof.
  revert n s m. induction fuel as [|fuel IH]; intros n s m R Hf; [lia|]. cbn [expire_loop].
  destruct (Z.leb_spec budget n) as [Hb|Hb].
  { exists [], s. cbn. rewrite Z.add_0_r, app_nil_r. split_and!; try done; [constructor|lia]. }
  unfold gets at 1, mbind at 1, M_bind at 1. pose proof (ttl_front_spec s m R) as Hfr. destruct (ttl_front s) as [[id e]|].
  - destruct Hfr as ((k & Hk & Ht) & Hid & Hmin). destruct (Z.ltb_spec now e) as [Hn|Hn].
    + exists [], s. cbn. rewrite Z.add_0_r, app_nil_r. split_and!; try done; [constructor|]. intros _ k'. unfold a_due.
      destruct (a_ttl m k') as [e'|] eqn:E; [|done]. apply Hmin in E. lia.
    + destruct (erase_slot s m R k id Hk) as (s1 & E1 & R1 & T1 & Htt). apply (moved_ttl_size id (length (types_ (keyspace_ s)) - 1)) in Hid.
      rewrite <- Htt in Hid. destruct (IH (n + 1) s1 _ R1 ltac:(lia)) as (keys & s' & E & R' & T & Hnd & Hdue & Hbud & Hrest).
      assert (Hmiss : forall k', k' ∈ keys -> k' <> k /\ a_due now k' m = true).
      { intros k' Hin. eapply Forall_forall in Hdue; [|done]. unfold a_due, a_ttl in *. destruct (decide (k' = k)) as [->|Hne].
        - by rewrite lookup_delete_eq in Hdue.
        - by rewrite lookup_delete_ne in Hdue. }
      exists (k :: keys), s'. cbn [length]. replace (n + Z.of_nat (S (length keys))) with (n + 1 + Z.of_nat (length keys)) by lia. split_and!.
      * unfold mbind, M_bind in *. destruct (ttl_clear id s) as [b s2| |]; [|done..]. destruct (erase_keyspace_at id s2) as [[] s3| |]; [|done..]. by injection E1 as ->.
      * done.
      * by rewrite T, T1, <- app_assoc.
      * constructor; [|done]. intros Hin. by apply Hmiss in Hin as [].
      * constructor; [unfold a_due; rewrite Ht; lia|]. apply Forall_forall. intros k' Hin. by apply Hmiss.
      * lia.
      * done.
  - exists [], s. cbn. rewrite Z.add_0_r, app_nil_r. split_and!; try done; [constructor|]. intros _ k'. unfold a_due. by rewrite Hfr.
Qed.

(** Everything due removed. *)
Definition a_sweep (now : Z) (m : AMap) : AMap := filter (fun e => a_due now e.1 m = false) m.

Lemma lookup_sweep now m k : a_sweep now m !! k = if a_due now k m then None else m !! k.
Proof.
  unfold a_sweep. rewrite map_lookup_filter. destruct (m !! k) as [e|]; cbn; [|by destruct (a_due now k m)].
  case_guard as Hg; cbn in Hg; [by rewrite Hg|]. by destruct (a_due now k m).
Qed.

Lemma lookup_drop_keys keys m k : drop_keys keys m !! k = if decide (k ∈ keys) then None else m !! k.
Proof.
  revert m. induction keys as [|k' keys IH]; intros m; cbn; [done|]. fold (drop_keys keys (delete k' m)). rewrite IH.
  destruct (decide (k ∈ keys)) as [Hin|Hin]; [by rewrite decide_True by (by right)|]. destruct (decide (k = k')) as [->|Hne].
  - rewrite decide_True by left. apply lookup_delete_eq.
  - rewrite decide_False by (by intros [->|?]%elem_of_cons). by apply lookup_delete_ne.
Qed.

(** With a budget above the number of keys the sweep is complete. *)
Lemma drop_due keys now m :
  Forall (fun k => a_due now k m = true) keys -> (forall k, a_due now k (drop_keys keys m) = false) -> drop_keys keys m = a_sweep now m.
Proof.
  intros Hd Hn. apply map_eq. intros k. rewrite lookup_sweep. specialize (Hn k). unfold a_due, a_ttl in Hn. rewrite lookup_drop_keys in *.
  case_decide as Hin.
  - eapply Forall_forall in Hd; [|done]. by rewrite Hd.
  - unfold a_due, a_ttl. by rewrite Hn.
Qed.

Lemma due_keys_bound keys now m : NoDup keys -> Forall (fun k => a_due now k m = true) keys -> (length keys <= size m)%nat.
Proof.
  intros Hnd Hd. rewrite <- (size_list_to_set (C := gset bytes) _ Hnd), <- size_dom. apply subseteq_size. intros k Hk%elem_of_list_to_set.
  eapply Forall_forall in Hd; [|done]. unfold a_due, a_ttl in Hd. apply elem_of_dom. destruct (m !! k); [by eexists|done].
Qed.

Lemma sweep_run now s m :
  rep s m -> exists n s' keys, active_expire now u64_max s = Ok n s' /\ rep s' (a_sweep now m) /\ told_ s' = told_ s ++ keys /\ noted keys m (a_sweep now m).
Proof.
  intros R. destruct (expire_loop_run (S (size (ttl_ s))) now u64_max 0 s m R ltac:(lia)) as (keys & s' & E & R' & T & Hnd & Hd & _ & Hall).
  pose proof (due_keys_bound _ _ _ Hnd Hd) as Hk. rewrite <- (rep_size _ _ R) in Hk. pose proof (k_small _ _ (r_inv _ _ R)) as Hs. unfold ks_size in Hk.
  rewrite (drop_due _ _ _ Hd) in R' by (apply Hall; unfold u64_max; lia).
  exists (0 + Z.of_nat (length keys)), s', keys. split_and!; try done. rewrite <- (drop_due keys); [apply noted_drop|done|apply Hall; unfold u64_max; lia].
Qed.

Lemma does_dbsize now m : does (dbsize now) m (Z.of_nat (size (a_sweep now m))) (a_sweep now m).
Proof.
  intros s R. destruct (sweep_run now s m R) as (n & s' & keys & E & R' & T & N). exists s', keys. unfold dbsize, mbind, M_bind, gets. rewrite E.
  by rewrite (rep_size _ _ R').
Qed.

(** A random key is one that is left, and there is none only when nothing is left. *)
Lemma random_key_run now random s m :
  rep s m -> 0 <= random ->
  exists r s' keys, random_key now random s = Ok r s' /\ rep s' (a_sweep now m) /\ told_ s' = told_ s ++ keys /\ noted keys m (a_sweep now m) /\
    match r with Some k => is_Some (a_sweep now m !! k) | None => a_sweep now m = ∅ end.
Proof.
  intros R Hr. destruct (sweep_run now s m R) as (n & s' & keys & E & R' & T & N). pose proof (r_inv _ _ R') as Hi.
  unfold random_key, mbind, M_bind, gets. rewrite E. destruct (Nat.eqb_spec (ks_size (keyspace_ s')) 0) as [H0|H0].
  - exists None, s', keys. split_and!; try done. apply map_size_empty_inv. by rewrite <- (rep_size _ _ R').
  - set (id := Z.to_nat (random mod Z.of_nat (ks_size (keyspace_ s')))). destruct (slot_key _ _ Hi id) as (k & Hk & Hf).
    { pose proof (Z.mod_pos_bound random (Z.of_nat (ks_size (keyspace_ s')))). unfold ks_size in *. lia. }
    exists (Some k), s', keys. unfold on_ks, key_for_id, mbind, M_bind, gets. rewrite Hk. cbn. split_and!; try done; [by destruct s'|].
    destruct (rep_found _ _ R' k id Hf) as [a Ha]. by eexists.
Qed.

(** *** COPY *)

(** Placing a finished object under a new key. *)
Lemma does_place k t p m :
  m !! k = None -> addable m k -> t <> KT_String -> 
  forall s, rep s m -> exists s', on_ks (place_loaded k t p) s = Ok (ks_size (keyspace_ s)) s' /\ rep s' (<[k := (AOther t p, None)]> m) /\
    told_ s' = told_ s /\ find_id k (keyspace_ s') = Some (ks_size (keyspace_ s)).
Proof.
  intros Hn Ha Ht s R. pose proof (r_inv _ _ R) as Hi. destruct (Ha Hn) as [Hk Hs]. rewrite <- (rep_size _ _ R) in Hs. apply (rep_none _ _ R) in Hn.
  exists (mkStore (appended (keyspace_ s) k t (ObjOther p)) (ttl_ s) (told_ s)). unfold on_ks. rewrite (place_loaded_run _ _ Hi) by done.
  split_and!; [done| |done|unfold find_id; cbn; apply lookup_insert_eq]. split; cbn.
  - by apply appended_inv.
  - intros id e He. apply (r_ttl _ _ R) in He as [Hl He]. split; [|done]. unfold ks_size in *. cbn. rewrite length_app. cbn. lia.
  - rewrite <- (r_map _ _ R). etrans; [by apply (amap_appended _ _ Hi (expiries s) (fun j => ttl_ s !! j) k t (ObjOther p) (AOther t p))|].
    do 2 f_equal. by apply (ttl_fresh _ _ R).
Qed.

Definition a_object_copy (o : @AObj Payload) : AObj := match o with AStr t => AStr t | AOther t p => AOther t (clone t p) end.

Definition a_copy (src dst : bytes) (replace : bool) (now : Z) (m : AMap) : CopyResult * AMap :=
  if decide (src = dst) then (CopySameKey, m)
  else
    let m1 := a_purge now src m in
    match m1 !! src with
    | None => (CopySourceMissing, m1)
    | Some (o, ttl) =>
        let m2 := a_purge now dst m1 in
        if negb replace && a_has m2 dst then (CopyDestinationExists, m2)
        else (Copied, <[dst := (a_object_copy o, ttl)]> m2)
    end.

Lemma does_object_of k t p o m : m !! k = Some (AOther t p, o) -> does (object_of k) m p m.
Proof.
  intros Hk s R. exists s, []. rewrite app_nil_r. split_and!; [|done..].
  rewrite <- (r_map _ _ R) in Hk. destruct (amap_Some _ _ (r_inv _ _ R) _ _ _ _ Hk) as (id & ty & ob & Hf & _ & Ho & Hty & Hab & _).
  unfold object_of, id_of, mbind, M_bind, gets. rewrite Hf. cbn. rewrite Ho. destruct ob as [|slot|p']; cbn in *; [done| |by injection Hab as -> ->].
  destruct (to_string _); congruence.
Qed.

Lemma does_copy_ttl {B} k (f : S_ B) o e m0 m b m' :
  noted [k] m0 (<[k := (o, e)]> m) -> m !! k = Some (o, None) -> (forall x, e = Some x -> 0 <= x < 2 ^ 48) -> does f (<[k := (o, e)]> m) b m' ->
  forall s id, rep s m -> find_id k (keyspace_ s) = Some id ->
  exists s' keys, (copy_ttl id e;; signal_key_modified k;; f) s = Ok b s' /\ rep s' m' /\ told_ s' = told_ s ++ keys /\ noted keys m0 m'.
Proof.
  intros Hno Hk He Hd s id R Hf.
  assert (R1 : rep (mkStore (keyspace_ s) (match e with Some x => <[id := x]> (ttl_ s) | None => ttl_ s end) (told_ s ++ [k])) (<[k := (o, e)]> m)).
  { destruct (rep_found _ _ R k id Hf) as [a Ha]. assert (a = o /\ ttl_ s !! id = None) as [-> Hn] by (split; congruence).
    apply (rep_ttl_update s m k id o e _ _ R Hf Ha); [|destruct e; [apply lookup_insert_eq|done]|done].
    intros j Hj. destruct e; [by apply lookup_insert_ne|done]. }
  destruct (Hd _ R1) as (s' & l & E & R' & T & N). exists s', ([k] ++ l). split_and!; [|done|by rewrite T, app_assoc|by eapply noted_trans].
  unfold copy_ttl, mbind, M_bind, signal_key_modified, ttl_set, modify. destruct e as [x|]; [rewrite wrap_small by (by apply He)|]; done.
Qed.

Lemma does_assoc {A B C} (op : S_ A) (f : A -> S_ B) (g : B -> S_ C) m c m' :
  does (op ≫= fun a => f a ≫= g) m c m' -> does ((op ≫= f) ≫= g) m c m'.
Proof. intros Hd s R. destruct (Hd s R) as (s' & l & E & Rest). exists s', l. split; [|done]. revert E. unfold mbind, M_bind. by destruct (op s). Qed.

(** The copy of a text, and of any other value, to a name that is then free. *)
Lemma does_copy_text dst t (e : option Z) m :
  m !! dst = None -> writable m dst t -> (forall x, e = Some x -> 0 <= x < 2 ^ 48) ->
  does (id ← on_ks (set_string string_encoding_ dst t); copy_ttl id e;; signal_key_modified dst;; mret Copied) m Copied (<[dst := (AStr t, e)]> m).
Proof.
  intros Hn (Ha & Hp & Hst) He.
  apply (does_write dst t t (fun id => copy_ttl id e) (fun id T => match e with Some x => <[id := x]> T | None => T end)
           (fun o => match e with Some x => Some x | None => o end) (mret Copied) m Copied); try done.
  - by apply plain_stores.
  - intros id s. unfold copy_ttl, ttl_set, modify. destruct e as [x|]; [by rewrite wrap_small by (by apply He)|by destruct s].
  - intros id T j Hj. destruct e; [by apply lookup_insert_ne|done].
  - intros id T. destruct e; [apply lookup_insert_eq|done].
  - intros o x. destruct e as [y|]; [intros [= <-]; right; by apply He|by left].
  - unfold a_ttl. rewrite Hn. cbn. destruct e; apply does_ret.
Qed.

Lemma does_copy_other dst t p (e : option Z) m :
  m !! dst = None -> addable m dst -> t <> KT_String -> (forall x, e = Some x -> 0 <= x < 2 ^ 48) ->
  does (on_ks (place_loaded dst t p);; id ← id_of dst; id ← need id; copy_ttl id e;; signal_key_modified dst;; mret Copied) m Copied
    (<[dst := (AOther t p, e)]> m).
Proof.
  intros Hn Ha Ht He s R. destruct (does_place dst t p m Hn Ha Ht s R) as (s1 & E1 & R1 & T1 & Hf).
  destruct (does_copy_ttl dst (mret Copied) (AOther t p) e m (<[dst := (AOther t p, None)]> m) Copied (<[dst := (AOther t p, e)]> m))
    with (s := s1) (id := ks_size (keyspace_ s)) as (s' & l & E & R' & T & N); try done.
  { rewrite insert_insert_eq. apply noted_insert. }
  { apply lookup_insert_eq. }
  { rewrite insert_insert_eq. apply does_ret. }
  exists s', l. split_and!; [|done|by rewrite T, T1|done].
  unfold mbind at 1, M_bind at 1. rewrite E1. unfold id_of, mbind at 1, M_bind at 1, gets. rewrite Hf. exact E.
Qed.

(** The copy of [o] can be placed under [dst]. *)
Definition copyable (m : AMap) (dst : bytes) (o : @AObj Payload) : Prop :=
  addable (delete dst m) dst /\ match o with AStr t => plain t /\ storable string_encoding_ t = true | AOther _ _ => True end.

Lemma does_need {A} (a : A) m : does (need (Some a)) m a m.
Proof. apply (does_ret a). Qed.

Lemma does_copy_value src dst o e ttl m :
  m !! src = Some (o, e) -> copyable m dst o -> (forall x, ttl = Some x -> 0 <= x < 2 ^ 48) ->
  does (copy_value src dst ttl) m Copied (<[dst := (a_object_copy o, ttl)]> m).
Proof.
  intros Hm [Ha Ho] Ht. unfold copy_value. eapply does_bind; [apply does_type_of|]. unfold a_type. rewrite Hm. cbn [fmap option_fmap option_map fst].
  rewrite <- (insert_delete_eq m dst). assert (Hn : delete dst m !! dst = None) by apply lookup_delete_eq.
  eapply does_bind; [apply does_need|]. destruct o as [t|t p]; cbn [a_object_copy].
  - rewrite bool_decide_eq_true_2 by done. apply does_assoc. eapply does_bind; [apply does_get_text|]. unfold a_text. rewrite Hm. cbn [mbind option_bind fst].
    apply does_assoc. eapply does_bind; [apply does_need|]. apply does_assoc. eapply does_bind; [apply does_erase|]. apply does_assoc.
    apply does_copy_text; [done|by split|done].
  - apply does_know. intros s R. rewrite bool_decide_eq_false_2 by (by eapply a_other_type). apply does_assoc.
    eapply does_bind; [by eapply does_object_of|]. apply does_assoc. eapply does_bind; [apply does_erase|].
    apply does_assoc. eapply (does_ext _ _ Copied); [|done|done].
    pose proof (does_copy_other dst t (clone t p) ttl (delete dst m) Hn Ha (a_other_type _ _ _ _ _ _ R Hm) Ht) as Hd.
    intros s1 R1. destruct (Hd s1 R1) as (s' & l & E & Rest). exists s', l. split; [|done]. revert E. unfold mbind, M_bind.
    destruct (on_ks _ s1) as [x s2| |]; [|done..]. destruct (id_of dst s2) as [y s3| |]; [|done..]. by destruct (need y s3).
Qed.

Lemma rep_ttl_range s m k x : rep s m -> a_ttl m k = Some x -> 0 <= x < 2 ^ 48.
Proof.
  intros R Ht. destruct (find_id k (keyspace_ s)) as [id|] eqn:Hf.
  - rewrite <- (rep_ttl _ _ R k id Hf) in Ht. by apply (r_ttl _ _ R) in Ht as [_ Hx].
  - apply (rep_none _ _ R) in Hf. unfold a_ttl in Ht. by rewrite Hf in Ht.
Qed.

(** COPY to a destination that has not expired. *)
Lemma does_copy src dst replace now m :
  a_due now dst (a_purge now src m) = false ->
  (forall o e, a_purge now src m !! src = Some (o, e) -> copyable (a_purge now src m) dst o) ->
  does (copy src dst replace now) m (a_copy src dst replace now m).1 (a_copy src dst replace now m).2.
Proof.
  intros Hd Hc. unfold copy, a_copy. case_decide as Hne; [rewrite bool_decide_eq_true_2 by done; apply does_ret|]. rewrite bool_decide_eq_false_2 by done.
  eapply does_bind; [apply does_purge|]. set (m1 := a_purge now src m) in *. unfold a_purge at 1. rewrite Hd.
  apply does_present; rewrite a_has_lookup; destruct (m1 !! src) as [[o e]|] eqn:Hs; try done; intros _; [apply does_ret|].
  intros s id R Hf. unfold mbind at 1, M_bind at 1. rewrite (purge_not_due _ _ _ _ R Hd). unfold a_purge. rewrite Hd.
  unfold mbind at 1, M_bind at 1, exists_, gets at 1. rewrite <- (rep_has _ _ R dst).
  destruct (negb replace && a_has m1 dst); [by apply does_ret|].
  unfold mbind at 1, M_bind at 1, gets, ttl_expiry. rewrite (rep_ttl _ _ R src id Hf). unfold a_ttl. rewrite Hs. cbn [mbind option_bind snd].
  apply (does_copy_value src dst o e e m1); [done|by eapply Hc| |done].
  intros x ->. eapply rep_ttl_range; [done|]. unfold a_ttl. by rewrite Hs.
Qed.

End store.
