(* ===== verification/StoreSpec.v ===== *)
(** * The store against a map

    The operations of [Store] as requests, the map operations they stand for, and
    the theorems that relate the two: every run of requests answers and changes the
    store as the map says, reports every key it changes, and leaves the store
    untouched when a value cannot be stored. *)

From S2P Require Import Prelude ParseInt StringEncoding MemoryLimit CommandClass Keyspace Store.
From stdpp Require Import gmap.
From Stdlib Require Import ZArith Lia ZifyBool.

Import Classes.

Local Open Scope Z_scope.

Section spec.
Context {L : LZ4} {LC : LZ4Correct L} {Payload : Type}.
Variable string_encoding_ : Z.
Variable clone : KeyType -> Payload -> Payload.

Abbreviation St := (@Store Payload).
Abbreviation AMap := (gmap bytes (@AObj Payload * option Z)).

(** The calls a command handler makes. *)
Inductive Request :=
| QSet (k v : bytes) | QSetKeepTtl (k v : bytes) | QSetNx (k v : bytes) | QMsetNx (pairs : list (bytes * bytes))
| QGet (k : bytes) | QGetSet (k v : bytes) | QGetDel (k : bytes)
| QCompareAndDelete (k expected : bytes) | QCompareAndSet (k expected v : bytes)
| QCompareAndExpire (k expected : bytes) (when_ms now : Z)
| QClaim (claim_key result_key token : bytes) (when_ms now : Z)
| QStrlen (k : bytes) | QAppend (k v : bytes) | QGetRange (k : bytes) (i j : Z) | QSetRange (k : bytes) (offset : Z) (v : bytes)
| QIncrBy (k : bytes) (delta : Z) | QIncrBound (k : bytes) (delta max : Z) | QDecrPositive (k : bytes)
| QIncrExpire (k : bytes) (when_ms now : Z)
| QExpireAt (k : bytes) (when_ms now : Z) (flags : ExpireFlags) | QPttl (k : bytes) (now : Z) | QExpireTime (k : bytes)
| QPersist (k : bytes) | QPurge (k : bytes) (now : Z) | QTouch (keys : list bytes) (now : Z) | QDbsize (now : Z)
| QErase (k : bytes) | QExists (k : bytes) | QType (k : bytes)
| QRename (source destination : bytes) (nx : bool) (now : Z)
| QCopy (source destination : bytes) (replace : bool) (now : Z).

Inductive Answer :=
| RNone | RBool (b : bool) | RInt (n : Z) | RText (t : bytes) | ROptText (t : option bytes) | ROptInt (n : option Z)
| RType (t : option KeyType) | RClaim (c : ClaimOutcome) | RRename (r : RenameResult) | RCopy (r : CopyResult).

Definition answer {A} (wrap_ : A -> Answer) (op : M St A) : M St Answer := a ← op; mret (wrap_ a).

Definition request (q : Request) : M St Answer :=
  match q with
  | QSet k v => answer (fun _ => RNone) (set string_encoding_ k v)
  | QSetKeepTtl k v => answer (fun _ => RNone) (set_keep_ttl string_encoding_ k v)
  | QSetNx k v => answer RBool (set_nx string_encoding_ k v)
  | QMsetNx pairs => answer RBool (mset_nx string_encoding_ pairs)
  | QGet k => answer ROptText (get_text string_encoding_ k)
  | QGetSet k v => answer ROptText (get_set string_encoding_ k v)
  | QGetDel k => answer ROptText (get_del string_encoding_ k)
  | QCompareAndDelete k e => answer RBool (compare_and_delete string_encoding_ k e)
  | QCompareAndSet k e v => answer RBool (compare_and_set string_encoding_ k e v)
  | QCompareAndExpire k e w now => answer RBool (compare_and_expire string_encoding_ k e w now)
  | QClaim c r t w now => answer RClaim (claim string_encoding_ c r t w now)
  | QStrlen k => answer ROptInt (strlen string_encoding_ k)
  | QAppend k v => answer ROptInt (append string_encoding_ k v)
  | QGetRange k i j => answer RText (getrange string_encoding_ k i j)
  | QSetRange k o v => answer ROptInt (setrange string_encoding_ k o v)
  | QIncrBy k d => answer ROptInt (incr_by string_encoding_ k d)
  | QIncrBound k d x => answer ROptInt (incr_bound string_encoding_ k d x)
  | QDecrPositive k => answer ROptInt (decr_positive string_encoding_ k)
  | QIncrExpire k w now => answer ROptInt (incr_expire string_encoding_ k w now)
  | QExpireAt k w now f => answer RBool (expire_at_ms k w now f)
  | QPttl k now => answer RInt (pttl_ms k now)
  | QExpireTime k => answer RInt (expiretime_ms k)
  | QPersist k => answer RBool (persist k)
  | QPurge k now => answer RBool (purge_if_expired k now)
  | QTouch keys now => answer RInt (touch keys now 0)
  | QDbsize now => answer RInt (dbsize now)
  | QErase k => answer RBool (erase_key k)
  | QExists k => answer RBool (exists_ k)
  | QType k => answer RType (on_ks (type_of k))
  | QRename s d nx now => answer RRename (rename s d nx now)
  | QCopy s d r now => answer RCopy (copy string_encoding_ clone s d r now)
  end.

Definition both {A} (wrap_ : A -> Answer) (r : A * AMap) : Answer * AMap := (wrap_ r.1, r.2).

(** The same requests on a map from keys to objects with an optional expiry. *)
Definition a_request (q : Request) (m : AMap) : Answer * AMap :=
  match q with
  | QSet k v => (RNone, <[k := (AStr v, None)]> m)
  | QSetKeepTtl k v => (RNone, put_text k v m)
  | QSetNx k v => (RBool (negb (a_has m k)), if a_has m k then m else <[k := (AStr v, None)]> m)
  | QMsetNx pairs => (RBool (negb (a_any pairs m)), if a_any pairs m then m else a_set_all pairs m)
  | QGet k => (ROptText (a_text m k), m)
  | QGetSet k v => (ROptText (a_text m k), put_text k v m)
  | QGetDel k => (ROptText (a_text m k), delete k m)
  | QCompareAndDelete k e => (RBool (bool_decide (a_text m k = Some e)), if decide (a_text m k = Some e) then delete k m else m)
  | QCompareAndSet k e v => (RBool (bool_decide (a_text m k = Some e)), if decide (a_text m k = Some e) then put_text k v m else m)
  | QCompareAndExpire k e w now =>
      (RBool (bool_decide (a_text m k = Some e)), if decide (a_text m k = Some e) then (a_expire k w now kNone m).2 else m)
  | QClaim c r t w now => both RClaim (a_claim c r t w now m)
  | QStrlen k => (ROptInt ((fun t : bytes => Z.of_nat (length t)) <$> a_text m k), m)
  | QAppend k v => both ROptInt (a_append string_encoding_ k v m)
  | QGetRange k i j => (RText (a_getrange k i j m), m)
  | QSetRange k o v => both ROptInt (a_setrange string_encoding_ k o v m)
  | QIncrBy k d => both ROptInt (a_incr_by k d m)
  | QIncrBound k d x => both ROptInt (a_incr_bound k d x m)
  | QDecrPositive k => both ROptInt (a_decr_positive k m)
  | QIncrExpire k w now => both ROptInt (a_incr_expire k w now m)
  | QExpireAt k w now f => both RBool (a_expire k w now f m)
  | QPttl k now => (RInt (a_pttl k now m), m)
  | QExpireTime k => (RInt (a_expiretime k m), m)
  | QPersist k => (RBool (bool_decide (is_Some (a_ttl m k))), with_ttl k None m)
  | QPurge k now => (RBool (a_due now k m), a_purge now k m)
  | QTouch keys now => both RInt (a_touch keys now m)
  | QDbsize now => (RInt (Z.of_nat (size (a_sweep now m))), a_sweep now m)
  | QErase k => (RBool (a_has m k), delete k m)
  | QExists k => (RBool (a_has m k), m)
  | QType k => (RType (a_type m k), m)
  | QRename s d nx now => both RRename (a_rename s d nx now m)
  | QCopy s d r now => both RCopy (a_copy clone s d r now m)
  end.

(** The limits within which a request cannot fail: values that can be stored, keys that can be added,
    64-bit deltas and 48-bit times. *)
Definition within (q : Request) (m : AMap) : Prop :=
  match q with
  | QSet k v | QSetKeepTtl k v | QGetSet k v => writable string_encoding_ m k v
  | QSetNx k v => m !! k = None -> writable string_encoding_ m k v
  | QMsetNx pairs => a_any pairs m = false -> all_writable string_encoding_ pairs m
  | QCompareAndSet k e v => a_text m k = Some e -> writable string_encoding_ m k v
  | QCompareAndExpire _ _ w _ | QExpireAt _ w _ _ => 0 <= w < 2 ^ 48
  | QClaim c _ t w now => writable string_encoding_ (a_purge now c m) c t /\ 0 <= w < 2 ^ 48
  | QAppend k v => addable m k /\ plain (default [] (a_text m k) ++ v)
  | QSetRange k o v => addable m k /\ 0 <= o /\ (v <> [] -> plain (overlay (Z.to_nat o) v (default [] (a_text m k))))
  | QIncrBy k d => addable m k /\ in_i64 d
  | QIncrBound k d x => addable m k /\ in_i64 d /\ in_i64 x
  | QDecrPositive k => addable m k
  | QIncrExpire k w _ => addable m k /\ 0 <= w < 2 ^ 48
  | QRename _ d _ _ => Z.of_nat (length d) <= kMaxBlobBytes
  | QCopy s d _ now =>
      a_due now d (a_purge now s m) = false /\
      (forall o e, a_purge now s m !! s = Some (o, e) -> copyable string_encoding_ (a_purge now s m) d o)
  | _ => True
  end.

Lemma does_answer {A} (wrap_ : A -> Answer) (op : M St A) m a m' r :
  does string_encoding_ op m a m' -> r = (wrap_ a, m') -> does string_encoding_ (answer wrap_ op) m r.1 r.2.
Proof. intros Hd ->. unfold answer. eapply does_bind; [done|apply does_ret]. Qed.

#[local] Hint Resolve does_set does_set_keep_ttl does_set_nx does_mset_nx does_get_text does_get_set does_get_del does_compare_and_delete
  does_compare_and_set does_compare_and_expire does_claim does_strlen does_append does_getrange does_setrange does_incr_by does_incr_bound
  does_decr_positive does_incr_expire does_expire_at does_pttl does_expiretime does_persist does_purge does_dbsize does_erase does_exists
  does_type_of does_rename does_copy : does.

Ltac split_limits := repeat match goal with H : _ /\ _ |- _ => destruct H end.

Lemma does_touch_all (keys : list bytes) (now : Z) (m : AMap) : does string_encoding_ (touch keys now 0) m (a_touch keys now m).1 (a_touch keys now m).2.
Proof. eapply does_ext; [apply does_touch|lia|done]. Qed.
#[local] Hint Resolve does_touch_all : does.

(** One request does what the map does. *)
Lemma request_does q m : within q m -> does string_encoding_ (request q) m (a_request q m).1 (a_request q m).2.
Proof.
  destruct q; cbn [within request a_request]; intros Hw; split_limits; (eapply does_answer; [solve [eauto with does]|done]).
Qed.

(** A run of requests. *)
Fixpoint requests (qs : list Request) : M St (list Answer) :=
  match qs with
  | [] => mret []
  | q :: qs => a ← request q; l ← requests qs; mret (a :: l)
  end.

Fixpoint a_requests (qs : list Request) (m : AMap) : list Answer * AMap :=
  match qs with
  | [] => ([], m)
  | q :: qs => let r := a_request q m in let rest := a_requests qs r.2 in (r.1 :: rest.1, rest.2)
  end.

Fixpoint all_within (qs : list Request) (m : AMap) : Prop :=
  match qs with [] => True | q :: qs => within q m /\ all_within qs (a_request q m).2 end.

Lemma requests_do qs m : all_within qs m -> does string_encoding_ (requests qs) m (a_requests qs m).1 (a_requests qs m).2.
Proof.
  revert m. induction qs as [|q qs IH]; intros m Hw; cbn [requests a_requests fst snd]; [apply does_ret|]. destruct Hw as [Hq Hqs].
  eapply does_bind; [by apply request_does|]. eapply does_bind; [by apply IH|apply does_ret].
Qed.


(** C6: the mutation observer, on which WATCH relies, misses nothing: whatever a run of requests within
    the limits does, every key whose object or expiry differs afterwards was reported. *)
Theorem store_reports_changes (qs : list Request) (s : St) (m : AMap) :
  rep string_encoding_ s m -> all_within qs m ->
  exists a s' m' keys, requests qs s = Ok a s' /\ rep string_encoding_ s' m' /\ told_ s' = told_ s ++ keys /\
    forall k, m' !! k <> m !! k -> k ∈ keys.
Proof.
  intros R Hw. destruct (requests_do qs m Hw s R) as (s' & keys & E & R' & T & N). eexists _, s', _, keys. split_and!; try done.
  intros k Hk. destruct (decide (k ∈ keys)); [done|]. by destruct Hk; apply N.
Qed.

(** ** Writes that fail *)

(** The text cannot be stored, or the key is new and too long to be stored. *)
Definition unstorable (m : AMap) (k v : bytes) : Prop :=
  (m !! k = None -> Z.of_nat (size m) <= kMaxKeyId) /\
  (storable string_encoding_ v = false \/ m !! k = None /\ kMaxBlobBytes < Z.of_nat (length k)).

Lemma set_string_refused (s : St) (m : AMap) k v :
  rep string_encoding_ s m -> unstorable m k v -> on_ks (set_string string_encoding_ k v) s = Exn LengthError s.
Proof.
  intros R [Hsz Hu]. pose proof (r_inv _ _ _ R) as Hi. assert (Hset : set_ks (keyspace_ s) s = s) by (by destruct s).
  assert (E : set_string string_encoding_ k v (keyspace_ s) = Exn LengthError (keyspace_ s)); [|unfold on_ks; by rewrite E, Hset].
  unfold set_string, mbind, M_bind, gets. destruct (find_id k (keyspace_ s)) as [id|] eqn:Hf.
  - destruct Hu as [Hv|[Hn _]]; [|apply (rep_none _ _ _ R) in Hn; congruence].
    pose proof (write_storable string_encoding_ v) as Hw. rewrite Hv in Hw. destruct Hw as [e Hw].
    unfold store_string, write_value, mbind, M_bind. by rewrite Hw.
  - pose proof Hf as Hn. apply (rep_none _ _ _ R) in Hn. specialize (Hsz Hn). rewrite <- (rep_size _ _ _ R) in Hsz.
    destruct (Z.ltb_spec kMaxBlobBytes (Z.of_nat (length k))) as [Hl|Hl].
    + unfold create_string, mbind, M_bind. by rewrite create_key_too_long.
    + destruct Hu as [Hv|[_ ?]]; [|lia]. pose proof (write_storable string_encoding_ v) as Hw. rewrite Hv in Hw. destruct Hw as [e Hw].
      by eapply create_string_throw.
Qed.

(** Reading changes nothing. *)
Lemma get_text_run (s : St) (m : AMap) k : rep string_encoding_ s m -> get_text string_encoding_ k s = Ok (a_text m k) s.
Proof.
  intros R. destruct (get_view _ s m k R) as (ov & E & Hov). unfold get_text, mbind, M_bind. rewrite E. destruct (a_text m k) as [t|].
  - destruct Hov as (v & -> & (_ & _ & Ht) & _). unfold join_value, of_result. by rewrite Ht.
  - by subst.
Qed.

Lemma holds_text_run (s : St) (m : AMap) k e : rep string_encoding_ s m -> a_text m k = Some e -> holds_text string_encoding_ k e s = Ok true s.
Proof.
  intros R Ht. destruct (get_view _ s m k R) as (ov & E & Hov). unfold holds_text, mbind, M_bind. rewrite E. rewrite Ht in Hov.
  destruct Hov as (v & -> & Hr & _). unfold view_equals, of_result. rewrite (equals_reads v e e Hr), bool_decide_eq_true_2; done.
Qed.


(** ** Active expiry *)

(** C36: the active expiry always returns.  With any budget it removes distinct keys whose time has come,
    never more than the budget, reports each of them, keeps every other key with its object and its
    expiry, and when it stops below the budget no key that is due is left. *)
Theorem active_expire_sound (now budget : Z) (s : St) (m : AMap) :
  rep string_encoding_ s m -> 0 <= budget ->
  exists keys s', active_expire now budget s = Ok (Z.of_nat (length keys)) s' /\ rep string_encoding_ s' (drop_keys keys m) /\
    told_ s' = told_ s ++ keys /\ NoDup keys /\ Forall (fun k => a_due now k m = true) keys /\
    Z.of_nat (length keys) <= budget /\
    (Z.of_nat (length keys) < budget -> forall k, a_due now k (drop_keys keys m) = false).
Proof.
  intros R Hb. destruct (expire_loop_run string_encoding_ (S (size (ttl_ s))) now budget 0 s m R ltac:(lia)) as (keys & s' & E & R' & T & Hnd & Hd & Hle & Hall).
  exists keys, s'. split_and!; try done. by apply Hle.
Qed.

(** ** Iterating with SCAN *)

(** A client that scans from a cursor until the cursor returned is 0. *)
Fixpoint scan_from (fuel : nat) (cursor count now : Z) (s : St) : option (list (bytes * KeyType)) :=
  match fuel with
  | O => None
  | S fuel =>
      let '(page, next) := scan cursor count now s in
      if next =? 0 then Some page else rest ← scan_from fuel next count now s; Some (page ++ rest)
  end.

Definition shown_at (now : Z) (s : St) (id : nat) (kt : bytes * KeyType) : list (bytes * KeyType) :=
  match ttl_ s !! id with Some e => if e <=? now then [] else [kt] | None => [kt] end.

(** The entries from an id on, without the expired ones. *)
Definition shown_from (now : Z) (s : St) (c : nat) : list (bytes * KeyType) :=
  concat (imap (fun i => shown_at now s (c + i)) (drop c (zip (keys_ (keyspace_ s)) (types_ (keyspace_ s))))).

Lemma concat_imap_split {A B} (f : nat -> A -> list B) n l :
  concat (imap f l) = concat (imap f (take n l)) ++ concat (imap (fun i => f (n + i)%nat) (drop n l)).
Proof.
  revert f l. induction n as [|n IH]; intros f l; [by rewrite drop_0|]. destruct l as [|x l]; [done|].
  cbn [take drop imap concat]. rewrite <- app_assoc. f_equal. rewrite (IH (f ∘ S) l). done.
Qed.

Lemma scan_page (c : nat) count now (s : St) :
  length (keys_ (keyspace_ s)) = length (types_ (keyspace_ s)) -> 0 <= count -> (c < ks_size (keyspace_ s))%nat ->
  exists t, (0 < t <= ks_size (keyspace_ s) - c)%nat /\
    scan (Z.of_nat c) count now s =
      (concat (imap (fun i => shown_at now s (c + i)) (take t (drop c (zip (keys_ (keyspace_ s)) (types_ (keyspace_ s)))))),
       if Nat.eqb (c + t) (ks_size (keyspace_ s)) then 0 else Z.of_nat (c + t)).
Proof.
  intros Hk Hc Hl. set (n := ks_size (keyspace_ s)) in *. set (b := if count =? 0 then 10 else count).
  assert (Hb : 0 < b) by (unfold b; case_bool; lia). exists (Z.to_nat (Z.min b (Z.of_nat n - Z.of_nat c))). split; [lia|].
  unfold scan, ks_scan. fold n. replace ((Z.of_nat n =? 0) || (Z.of_nat n <=? Z.of_nat c)) with false by lia. fold b. rewrite Nat2Z.id. f_equal.
  - f_equal. apply imap_ext. intros i kt _. unfold shown_at, ttl_expiry, ttl_empty. case_bool_decide as He; cbn [negb]; [|done]. by rewrite He, lookup_empty.
  - destruct (Nat.eqb_spec (c + Z.to_nat (Z.min b (Z.of_nat n - Z.of_nat c))) n); repeat case_bool; lia.
Qed.

Lemma shown_from_split now (s : St) c t :
  shown_from now s c =
  concat (imap (fun i => shown_at now s (c + i)) (take t (drop c (zip (keys_ (keyspace_ s)) (types_ (keyspace_ s)))))) ++ shown_from now s (c + t).
Proof.
  unfold shown_from. rewrite (concat_imap_split (fun i => shown_at now s (c + i)) t). f_equal. rewrite drop_drop. f_equal. apply imap_ext.
  intros i x _. f_equal. lia.
Qed.

Lemma scan_from_shown fuel (c : nat) count now (s : St) :
  length (keys_ (keyspace_ s)) = length (types_ (keyspace_ s)) -> 0 <= count -> (c < ks_size (keyspace_ s))%nat -> (ks_size (keyspace_ s) - c <= fuel)%nat ->
  scan_from fuel (Z.of_nat c) count now s = Some (shown_from now s c).
Proof.
  intros Hk Hc. revert c. induction fuel as [|fuel IH]; intros c Hl Hf; [lia|]. cbn [scan_from].
  destruct (scan_page c count now s Hk Hc Hl) as (t & Ht & ->). rewrite (shown_from_split now s c t).
  destruct (Nat.eqb_spec (c + t) (ks_size (keyspace_ s))) as [E|E].
  - replace (shown_from now s (c + t)) with (@nil (bytes * KeyType)); [by rewrite app_nil_r|]. unfold shown_from. rewrite drop_ge; [done|].
    rewrite length_zip_with. unfold ks_size in *. lia.
  - bfalse (Z.of_nat (c + t) =? 0). by rewrite IH by lia.
Qed.

(** What is shown is what the map holds and has not expired, each key once. *)
Lemma elem_of_shown now (s : St) c k t :
  (k, t) ∈ shown_from now s c <->
  exists id, (c <= id)%nat /\ keys_ (keyspace_ s) !! id = Some k /\ types_ (keyspace_ s) !! id = Some t /\
    match ttl_ s !! id with Some e => now < e | None => True end.
Proof.
  unfold shown_from. rewrite list_elem_of_In, in_concat. setoid_rewrite <- list_elem_of_In. setoid_rewrite elem_of_lookup_imap. split.
  - intros (l & (i & [k' t'] & -> & Hi) & Hin). rewrite lookup_drop, lookup_zip_with_Some in Hi. destruct Hi as (? & ? & [= <- <-] & Hk & Ht).
    exists (c + i)%nat. unfold shown_at in Hin. destruct (ttl_ s !! (c + i)%nat) as [e|]; [destruct (Z.leb_spec e now)|];
      [by apply not_elem_of_nil in Hin|apply list_elem_of_singleton in Hin; simplify_eq; split_and!; try done; lia..].
  - intros (id & Hc & Hk & Ht & He). exists [(k, t)]. split; [|by left]. exists (id - c)%nat, (k, t). replace (c + (id - c))%nat with id by lia. split.
    + unfold shown_at. destruct (ttl_ s !! id); [|done]. by bfalse (z <=? now).
    + rewrite lookup_drop, lookup_zip_with_Some. exists k, t. replace (c + (id - c))%nat with id by lia. done.
Qed.

Lemma concat_imap_sublist (l : list (bytes * KeyType)) (g : nat -> bytes * KeyType -> list (bytes * KeyType)) :
  (forall i x, g i x = [] \/ g i x = [x]) -> (concat (imap g l)).*1 `sublist_of` l.*1.
Proof.
  revert g. induction l as [|x l IH]; intros g Hg; [done|]. cbn [imap concat fmap list_fmap]. rewrite fmap_app.
  destruct (Hg 0%nat x) as [-> | ->]; cbn; constructor; apply IH; intros; apply Hg.
Qed.

Lemma keys_NoDup (s : St) (m : AMap) : rep string_encoding_ s m -> NoDup (keys_ (keyspace_ s)).
Proof. intros R. apply NoDup_alt. intros i j k H1 H2. apply (k_index _ _ (r_inv _ _ _ R)) in H1, H2. congruence. Qed.

Lemma shown_keys_NoDup (now : Z) (s : St) (m : AMap) c : rep string_encoding_ s m -> NoDup ((shown_from now s c).*1).
Proof.
  intros R. eapply sublist_NoDup; [by eapply keys_NoDup|]. unfold shown_from. etrans.
  - apply concat_imap_sublist. intros i x. unfold shown_at. destruct (ttl_ s !! (c + i)%nat); [case_bool|]; auto.
  - rewrite fmap_drop, fst_zip by (by rewrite (k_keys _ _ (r_inv _ _ _ R))). apply sublist_drop.
Qed.

(** A complete SCAN is exact.  Following the cursors from 0 over a store that does not change ends
    after at most one call per key, whatever count is asked for, and the pages together hold every key
    that has not expired with its type, and each key only once. *)
Theorem scan_complete (count now : Z) (s : St) (m : AMap) :
  rep string_encoding_ s m -> 0 <= count ->
  exists l, scan_from (S (ks_size (keyspace_ s))) 0 count now s = Some l /\ NoDup l.*1 /\
    forall k t, (k, t) ∈ l <-> a_type (a_sweep now m) k = Some t.
Proof.
  intros R Hc. pose proof (r_inv _ _ _ R) as Hi. exists (shown_from now s 0). split_and!.
  - destruct (decide (ks_size (keyspace_ s) = 0%nat)) as [H0|H0]; [|apply (scan_from_shown _ 0); [apply (k_keys _ _ Hi)|done|lia..]].
    cbn [scan_from]. unfold scan, ks_scan. rewrite H0. cbn. unfold shown_from, ks_size in *.
    destruct (types_ (keyspace_ s)); [|done]. by rewrite zip_with_nil_r.
  - by eapply shown_keys_NoDup.
  - intros k t. rewrite elem_of_shown. unfold a_type. rewrite lookup_sweep. unfold a_due. split.
    + intros (id & _ & Hk & Ht & He). apply (k_index _ _ Hi) in Hk. pose proof (rep_ttl _ _ _ R k id Hk) as Htt. rewrite Htt in He.
      replace (match a_ttl m k with Some e => e <=? now | None => false end) with false by (destruct (a_ttl m k); lia).
      destruct (rep_found _ _ _ R k id Hk) as [a Ha]. pose proof (type_of_spec _ _ Hi (expiries s) k) as Hty. rewrite (r_map _ _ _ R) in Hty.
      unfold type_of, mbind, M_bind, gets in Hty. unfold find_id in *. rewrite Hk, Ht in Hty. cbn in Hty. by injection Hty as Hty.
    + intros Hd. destruct (match a_ttl m k with Some e => e <=? now | None => false end) eqn:Hdue; [done|].
      pose proof (type_of_spec _ _ Hi (expiries s) k) as Hty. rewrite (r_map _ _ _ R), Hd in Hty.
      destruct (find_id k (keyspace_ s)) as [id|] eqn:Hf; [|unfold type_of, mbind, M_bind, gets in Hty; by rewrite Hf in Hty].
      destruct (find_id_slot _ _ Hi k id Hf) as (_ & Hk & t' & _ & Ht' & _). exists id. split_and!; [lia|done| |].
      * unfold type_of, mbind, M_bind, gets in Hty. rewrite Hf, Ht' in Hty. cbn in Hty. by injection Hty as ->.
      * rewrite (rep_ttl _ _ _ R k id Hf). destruct (a_ttl m k); lia.
Qed.

(** A new store represents the empty map. *)
Definition new_store : St := mkStore ks_empty ∅ [].

Lemma rep_new : rep string_encoding_ new_store ∅.
Proof. split; [apply ks_empty_inv|done|exact (omap_empty _)]. Qed.

(** ** Copying onto a key that has expired *)

(** The removal of a key whose time has come; the last key takes its id. *)
Lemma purge_due (s : St) (m : AMap) (k : bytes) (now : Z) (id : nat) :
  rep string_encoding_ s m -> find_id k (keyspace_ s) = Some id -> a_due now k m = true ->
  exists s' : St, purge_if_expired k now s = Ok true s' /\ rep string_encoding_ s' (delete k m) /\ ttl_ s' = moved_ttl id (ks_size (keyspace_ s) - 1) (ttl_ s).
Proof.
  intros R Hf Hd. destruct (erase_slot _ _ _ R k id Hf) as (s' & E & R' & _ & Ht). exists s'. split; [|done].
  unfold a_due in Hd. destruct (a_ttl m k) as [e|] eqn:He; [|done]. unfold purge_if_expired, id_of, ttl_empty, ttl_expiry, mbind at 1 2 3, M_bind at 1 2 3, gets.
  rewrite bool_decide_eq_false_2 by (intros Hn; by rewrite (rep_no_ttl _ _ _ R Hn) in He). rewrite Hf, (rep_ttl _ _ _ R k id Hf), He. replace (now <? e) with false by lia.
  unfold mbind, M_bind in E |- *. destruct (ttl_clear id s) as [had s1| |]; [|done..]. by destruct (erase_keyspace_at id s1) as [[] s2| |]; [injection E as ->|..].
Qed.

(** C37: COPY onto a destination whose time has come.  The copy succeeds and replaces the destination, but [copy] has looked
    up the id of the source before it removed the destination, and that removal gives the id of the last key away: the
    copy has the expiry of the source, unless the source was the last key; then it has none, while the source still
    expires. *)
Theorem copy_expired_destination (src dst : bytes) (replace : bool) (now : Z) (s : St) (m : AMap) (o : @AObj Payload) (e : option Z) (id : nat) :
  rep string_encoding_ s m -> src <> dst -> find_id src (keyspace_ s) = Some id -> m !! src = Some (o, e) -> a_due now src m = false -> a_due now dst m = true ->
  copyable string_encoding_ (delete dst m) dst o ->
  exists s' : St, copy string_encoding_ clone src dst replace now s = Ok Copied s' /\
    rep string_encoding_ s' (<[dst := (a_object_copy clone o, if (S id =? ks_size (keyspace_ s))%nat then None else e)]> (delete dst m)).
Proof.
  intros R Hne Hf Hs Hd Hdd Hc. destruct (find_id dst (keyspace_ s)) as [idd|] eqn:Hfd.
  2: { apply (rep_none _ _ _ R) in Hfd. unfold a_due, a_ttl in Hdd. by rewrite Hfd in Hdd. }
  destruct (purge_due s m dst now idd R Hfd Hdd) as (s1 & E1 & R1 & T1). pose proof (r_inv _ _ _ R) as Hi.
  destruct (find_id_slot _ _ Hi src id Hf) as (Hl & Hk & _), (find_id_slot _ _ Hi dst idd Hfd) as (Hld & Hkd & _).
  assert (Hids : id <> idd) by (intros ->; congruence).
  assert (Hx : ttl_ s1 !! id = if (S id =? ks_size (keyspace_ s))%nat then None else e).
  { destruct (moved_ttl_lookup idd (ks_size (keyspace_ s) - 1) (ttl_ s)) as (Hlast & _ & Hother); [unfold ks_size; lia|]. rewrite T1. destruct (Nat.eqb_spec (S id) (ks_size (keyspace_ s))) as [Hn|Hn].
    - by replace id with (ks_size (keyspace_ s) - 1)%nat by lia.
    - rewrite Hother by (unfold ks_size in *; lia). rewrite (rep_ttl _ _ _ R src id Hf). unfold a_ttl. by rewrite Hs. }
  assert (Hs1 : delete dst m !! src = Some (o, e)) by (by rewrite lookup_delete_ne).
  destruct (does_copy_value string_encoding_ clone src dst o e (ttl_ s1 !! id) (delete dst m) Hs1 Hc ltac:(intros x Ex; by apply (r_ttl _ _ _ R1) in Ex as [_ ?]) s1 R1) as (s' & keys & E & R' & _).
  exists s'. rewrite Hx in R'. split; [|done]. unfold copy. rewrite bool_decide_eq_false_2 by done. unfold mbind at 1, M_bind at 1. rewrite (purge_not_due _ _ _ _ _ R Hd).
  unfold id_of, mbind at 1, M_bind at 1, gets at 1. rewrite Hf. unfold mbind at 1, M_bind at 1. rewrite E1. unfold mbind at 1, M_bind at 1, exists_, gets at 1.
  rewrite <- (rep_has _ _ _ R1 dst). unfold a_has. rewrite bool_decide_eq_false_2 by (rewrite lookup_delete_eq; by intros []). rewrite andb_false_r. exact E.
Qed.
End spec.

(** ** Concrete runs *)

Section examples.
#[local] Existing Instance copy_lz4.
#[local] Existing Instance copy_lz4_correct.

Definition run_new (qs : list Request) : outcome (@Store unit) (list Answer) := requests 0 (fun _ p => p) qs new_store.

Definition session : list Request :=
  [QSet (str "a") (str "10"); QIncrBy (str "a") (-3); QExpireAt (str "a") 50 1 kNone; QSet (str "b") (str "text");
   QAppend (str "b") (str "!"); QRename (str "a") (str "b") false 20; QExpireTime (str "b"); QErase (str "a"); QDbsize 60].

Ltac limits := vm_compute; repeat split; intros; discriminate || reflexivity.


Lemma store_reports_changes_witness :
  exists a s' m' keys, run_new session = Ok a s' /\ rep 0 s' m' /\ told_ s' = [] ++ keys /\ forall k, m' !! k <> (∅ : gmap bytes (AObj * option Z)) !! k -> k ∈ keys.
Proof. apply (store_reports_changes 0 (fun _ p => p) session new_store ∅); [apply rep_new|limits]. Defined.

(** A value of 70,000 bytes, without compression. *)
Definition large_value : bytes := replicate (Z.to_nat 70000) "x"%byte.

Lemma large_unstorable : unstorable 0 (∅ : gmap bytes (@AObj unit * option Z)) (str "k") large_value.
Proof. split; [vm_compute; discriminate|left; vm_compute; reflexivity]. Qed.


Lemma scan_complete_witness :
  exists l, scan_from 1 0 3 10 (@new_store unit) = Some l /\ NoDup l.*1 /\
    forall k t, (k, t) ∈ l <-> a_type (a_sweep 10 (∅ : gmap bytes (@AObj unit * option Z))) k = Some t.
Proof. apply (scan_complete 0 3 10 (@new_store unit) ∅); [apply rep_new|lia]. Defined.

(** Two pages over a store that was used. *)
Example scan_pages :
  match run_new [QSet (str "a") (str "1"); QSet (str "b") (str "2"); QExpireAt (str "a") 5 0 kNone; QSet (str "c") (str "3")] with
  | Ok _ s => scan_from 4 0 2 9 s
  | _ => None
  end = Some [(str "b", KT_String); (str "c", KT_String)].
Proof. vm_compute. reflexivity. Qed.

(** [dst] expires at 5 and [src], the last key, at 100. *)
Definition copy_session : list Request :=
  [QSet (str "dst") (str "old"); QExpireAt (str "dst") 5 0 kNone; QSet (str "src") (str "new"); QExpireAt (str "src") 100 0 kNone].
Definition copy_store : @Store unit := match run_new copy_session with Ok _ s => s | _ => new_store end.
Definition copy_map : gmap bytes (@AObj unit * option Z) := {[str "dst" := (AStr (str "old"), Some 5); str "src" := (AStr (str "new"), Some 100)]}.

Lemma rep_copy_store : rep 0 copy_store copy_map.
Proof.
  assert (Hw : all_within 0 (fun _ (p : unit) => p) copy_session ∅) by limits.
  assert (Hm : (a_requests 0 (fun _ (p : unit) => p) copy_session ∅).2 = copy_map) by (vm_compute; reflexivity).
  pose proof (requests_do 0 (fun _ (p : unit) => p) copy_session ∅ Hw new_store (rep_new 0)) as (s' & keys & E & R & _).
  rewrite Hm in R. unfold copy_store, run_new. rewrite E. exact R.
Qed.

Lemma copy_expired_destination_witness :
  exists s', copy 0 (fun _ p => p) (str "src") (str "dst") false 10 copy_store = Ok Copied s' /\
    rep 0 s' {[str "dst" := (AStr (str "new"), None); str "src" := (AStr (str "new"), Some 100)]}.
Proof.
  destruct (copy_expired_destination 0 (fun _ (p : unit) => p) (str "src") (str "dst") false 10 copy_store copy_map (AStr (str "new")) (Some 100) 1 rep_copy_store
    ltac:(discriminate) ltac:(vm_compute; reflexivity) ltac:(vm_compute; reflexivity) ltac:(vm_compute; reflexivity) ltac:(vm_compute; reflexivity) ltac:(limits)) as (s' & E & R).
  exists s'. split; [exact E|]. replace {[_ := _; _ := _]} with (<[str "dst" := (AStr (str "new"), None)]> (delete (str "dst") copy_map)) by (vm_compute; reflexivity). exact R.
Defined.

Lemma active_expire_sound_witness :
  exists keys s', active_expire 10 5 copy_store = Ok (Z.of_nat (length keys)) s' /\ rep 0 s' (drop_keys keys copy_map) /\ told_ s' = told_ copy_store ++ keys /\ NoDup keys /\
    Forall (fun k => a_due 10 k copy_map = true) keys /\ Z.of_nat (length keys) <= 5 /\ (Z.of_nat (length keys) < 5 -> forall k, a_due 10 k (drop_keys keys copy_map) = false).
Proof. apply (active_expire_sound 0 10 5 copy_store copy_map); [apply rep_copy_store|lia]. Defined.

End examples.
