(* ===== verification/StoreFrame.v ===== *)
(** * What any operation leaves alone

    The theorems of [StoreSpec] say what an operation does within the limits of keys
    and values.  Here no limit is assumed: whatever the arguments, an operation of the
    store either returns or throws [std::length_error], the store it leaves still
    represents a map, every change was reported, and only the keys it may write and
    keys that had expired differ. *)

From S2P Require Import Prelude ParseInt StringEncoding MemoryLimit CommandClass Keyspace Store StoreSpec.
From stdpp Require Import gmap.
From Stdlib Require Import ZArith Lia ZifyBool.

Import Classes.

Local Open Scope Z_scope.

Section frame.
Context {L : LZ4} {LC : LZ4Correct L} {Payload : Type}.
Variable string_encoding_ : Z.
Variable clone : KeyType -> Payload -> Payload.
(** The readings of the clock. *)
Variable clock : nat -> Z.
(** The keys that may be written. *)
Variable writes : list bytes.

Abbreviation St := (@Store Payload).
Abbreviation AMap := (gmap bytes (@AObj Payload * option Z)).
Implicit Types (m : AMap) (now : Z) (k : bytes).

(** Apart from [writes], only keys whose time had come are gone. *)
Definition only (m m' : AMap) : Prop :=
  forall k, k ∈ writes \/ m' !! k = m !! k \/ (m' !! k = None /\ exists e n, a_ttl m k = Some e /\ e <= clock n).

Lemma only_refl m : only m m.
Proof. intros k. auto. Qed.

Lemma only_trans m1 m2 m3 : only m1 m2 -> only m2 m3 -> only m1 m3.
Proof.
  intros H1 H2 k. destruct (H1 k) as [?|[E1|[N1 (e & n & He)]]]; [auto|..]; destruct (H2 k) as [?|[E2|[N2 (e' & n' & He')]]]; auto.
  - right. left. congruence.
  - right. right. split; [done|]. exists e', n'. unfold a_ttl in *. by rewrite E1 in He'.
  - right. right. split; [congruence|]. by exists e, n.
  - right. right. split; [done|]. by exists e, n.
Qed.

Lemma only_noted k m m' : k ∈ writes -> noted [k] m m' -> only m m'.
Proof.
  intros Hk Hn k'. destruct (decide (k' = k)) as [->|Hne]; [by left|]. right. left. apply Hn. by rewrite list_elem_of_singleton.
Qed.

Lemma only_insert k e m : k ∈ writes -> only m (<[k := e]> m).
Proof. intros Hk. eapply only_noted, noted_insert. done. Qed.

Lemma only_delete k m : k ∈ writes -> only m (delete k m).
Proof. intros Hk. eapply only_noted, noted_delete. done. Qed.

Lemma only_with_ttl k o m : k ∈ writes -> only m (with_ttl k o m).
Proof. intros Hk. eapply only_noted, noted_with_ttl. done. Qed.

Definition reading (now : Z) : Prop := exists n, now = clock n.

Lemma due_reading now k m : reading now -> a_due now k m = true -> exists e n, a_ttl m k = Some e /\ e <= clock n.
Proof. intros [n ->] Hd. unfold a_due in Hd. destruct (a_ttl m k) as [e|]; [|done]. exists e, n. split; [done|lia]. Qed.

Lemma only_purge now k m : reading now -> only m (a_purge now k m).
Proof.
  intros Hn. unfold a_purge. destruct (a_due now k m) eqn:Hd; [|apply only_refl]. intros k'. destruct (decide (k' = k)) as [->|Hne].
  - right. right. split; [apply lookup_delete_eq|by eapply due_reading].
  - right. left. by apply lookup_delete_ne.
Qed.

Lemma only_sweep now m : reading now -> only m (a_sweep now m).
Proof.
  intros Hn k. rewrite lookup_sweep. destruct (a_due now k m) eqn:Hd; [|auto]. right. right. split; [done|by eapply due_reading].
Qed.

(** ** Executions from a given store *)

(** The store [s0] an execution starts from, and the map it represents. *)
Variables (s0 : St) (m0 : AMap).

Definition at_map (m : AMap) (s : St) : Prop :=
  rep string_encoding_ s m /\ (exists keys, told_ s = told_ s0 ++ keys /\ noted keys m0 m) /\ only m0 m.

Section settles.
Context {S : Type} (view : S -> St).

Definition reached (s : S) : Prop := exists m, at_map m (view s).
Definition too_long (e : exn) (s : S) : Prop := e = LengthError /\ reached s.

(** [op] returns a value of [P] or throws [std::length_error]; either way the store is in order. *)
Definition settles {A} (op : M S A) (P : A -> Prop) : Prop :=
  forall s, reached s -> wp op (fun a s' => P a /\ reached s') too_long s.

Lemma settles_ret {A} (a : A) (P : A -> Prop) : P a -> settles (mret a) P.
Proof. intros Ha s Hs. by apply wp_ret. Qed.

Lemma settles_bind {A B} (op : M S A) (f : A -> M S B) (P : A -> Prop) (Q : B -> Prop) :
  settles op P -> (forall a, P a -> settles (f a) Q) -> settles (op ≫= f) Q.
Proof.
  intros H1 H2 s Hs. apply wp_bind. eapply wp_mono; [by apply H1| |done]. intros a s' [Ha Hs']. by apply H2.
Qed.

Lemma settles_mono {A} (op : M S A) (P Q : A -> Prop) : settles op P -> (forall a, P a -> Q a) -> settles op Q.
Proof. intros H HPQ s Hs. eapply wp_mono; [by apply H| |done]. cbn. naive_solver. Qed.

Lemma settles_any {A} (op : M S A) (P : A -> Prop) : settles op P -> settles op (fun _ => True).
Proof. intros H. by eapply settles_mono. Qed.

Lemma settles_gets {A} (f : S -> A) : settles (gets f) (fun _ => True).
Proof. intros s Hs. by apply wp_gets. Qed.

Lemma settles_need {A} (o : option A) (P : A -> Prop) a : o = Some a -> P a -> settles (need o) P.
Proof. intros -> Ha. by apply settles_ret. Qed.

Lemma settles_eq {A} (op op' : M S A) (P : A -> Prop) : (forall s, op s = op' s) -> settles op' P -> settles op P.
Proof. intros He H s Hs. unfold wp. rewrite He. by apply H. Qed.
End settles.

Abbreviation does_ op := (does string_encoding_ op).
Abbreviation ok := (settles (fun s : St => s)).

Lemma at_map_step m m' s s' keys :
  at_map m s -> rep string_encoding_ s' m' -> told_ s' = told_ s ++ keys -> noted keys m m' -> only m m' -> at_map m' s'.
Proof.
  intros (R & (l & T & N) & O) R' T' N' O'. split; [done|split; [|by eapply only_trans]].
  exists (l ++ keys). split; [by rewrite T', T, app_assoc|by eapply noted_trans].
Qed.

(** An operation whose effect is known. *)
Lemma settles_does {A} (op : M St A) (P : A -> Prop) :
  (forall s m, rep string_encoding_ s m -> exists a m', does_ op m a m' /\ only m m' /\ P a) -> ok op P.
Proof.
  intros H s [m Hm]. destruct (H s m (proj1 Hm)) as (a & m' & Hd & Ho & Ha). destruct (Hd s (proj1 Hm)) as (s' & keys & E & R & T & N).
  unfold wp. rewrite E. split; [done|]. exists m'. by eapply at_map_step.
Qed.

(** One step whose effect is known. *)
Lemma wp_does {A B} (op : M St A) (f : A -> M St B) m a m' s (Q : B -> St -> Prop) E :
  at_map m s -> does_ op m a m' -> only m m' -> (forall s', at_map m' s' -> wp (f a) Q E s') -> wp (op ≫= f) Q E s.
Proof.
  intros Hm Hd Ho Hf. destruct (Hd s (proj1 Hm)) as (s' & keys & E1 & R & T & N). apply wp_bind. unfold wp at 1. rewrite E1.
  apply Hf. by eapply at_map_step.
Qed.

Lemma wp_assoc {A B C} (op : M St A) (f : A -> M St B) (g : B -> M St C) s (Q : C -> St -> Prop) E :
  wp (op ≫= fun a => f a ≫= g) Q E s -> wp ((op ≫= f) ≫= g) Q E s.
Proof. unfold wp, mbind, M_bind. by destruct (op s). Qed.

Lemma wp_eq {A} (op op' : M St A) s (Q : A -> St -> Prop) E : op s = op' s -> wp op' Q E s -> wp op Q E s.
Proof. unfold wp. by intros ->. Qed.

Lemma settles_read {A} (op : M St A) (f : AMap -> A) : (forall m, does_ op m (f m) m) -> ok op (fun _ => True).
Proof. intros H. apply settles_does. intros s m _. exists (f m), m. split_and!; [apply H|apply only_refl|done]. Qed.

Lemma settles_write {A} (op : M St A) (k : bytes) (f : AMap -> A * AMap) :
  k ∈ writes -> (forall m, does_ op m (f m).1 (f m).2) -> (forall m, noted [k] m (f m).2) -> ok op (fun _ => True).
Proof. intros Hk H Hn. apply settles_does. intros s m _. exists (f m).1, (f m).2. split_and!; [apply H|by eapply only_noted|done]. Qed.

(** *** Reading *)

(** A view of a stored string. *)
Definition readable (v : EncodedStringView) : Prop := exists t, reads_as v t /\ headed v.

Lemma settles_get k : ok (get string_encoding_ k) (fun o => match o with Some v => readable v | None => True end).
Proof.
  intros s [m Hm]. destruct (get_view string_encoding_ s m k (proj1 Hm)) as (ov & E & Hov). unfold wp. rewrite E. split; [|by exists m].
  destruct (a_text m k) as [t|]; [destruct Hov as (v & -> & Hr & Hh); by exists t|by subst].
Qed.

Lemma settles_get_result k : ok (get_result string_encoding_ k) (fun r => match r with OkString v => readable v | _ => True end).
Proof.
  intros s [m Hm]. pose proof (proj1 Hm) as R. pose proof (get_string_result_spec _ _ (r_inv _ _ _ R) (expiries s) k) as Hg.
  rewrite (r_map _ _ _ R) in Hg. assert (Hset : set_ks (keyspace_ s) s = s) by (by destruct s).
  unfold wp, get_result, on_ks. destruct (m !! k) as [[[t|ty p] b]|].
  - destruct Hg as (v & -> & Hr & Hh). rewrite Hset. split; [by exists t|by exists m].
  - rewrite Hg, Hset. split; [done|by exists m].
  - rewrite Hg, Hset. split; [done|by exists m].
Qed.

Lemma settles_join v : readable v -> ok (join_value v) (fun _ => True).
Proof. intros (t & Hr & _). apply (settles_read _ (fun _ => t)). intros m. by apply does_join. Qed.

Lemma settles_get_text k : ok (get_text string_encoding_ k) (fun _ => True).
Proof. apply (settles_read _ (fun m => a_text m k)). intros m. apply does_get_text. Qed.
Lemma settles_holds k e : ok (holds_text string_encoding_ k e) (fun _ => True).
Proof. eapply (settles_read _ (fun m => bool_decide (a_text m k = Some e))). intros m. apply does_holds. Qed.
Lemma settles_exists k : ok (exists_ k) (fun _ => True).
Proof. apply (settles_read _ (fun m => a_has m k)). intros m. apply does_exists. Qed.
Lemma settles_type_of k : ok (on_ks (type_of k)) (fun _ => True).
Proof. apply (settles_read _ (fun m => a_type m k)). intros m. apply does_type_of. Qed.
Lemma settles_strlen k : ok (strlen string_encoding_ k) (fun _ => True).
Proof. eapply (settles_read _ (fun m => _)). intros m. apply does_strlen. Qed.
Lemma settles_getrange k i j : ok (getrange string_encoding_ k i j) (fun _ => True).
Proof. apply (settles_read _ (fun m => a_getrange k i j m)). intros m. apply does_getrange. Qed.
Lemma settles_pttl k now : ok (pttl_ms k now) (fun _ => True).
Proof. apply (settles_read _ (fun m => a_pttl k now m)). intros m. apply does_pttl. Qed.
Lemma settles_expiretime k : ok (expiretime_ms k) (fun _ => True).
Proof. apply (settles_read _ (fun m => a_expiretime k m)). intros m. apply does_expiretime. Qed.
Lemma settles_any_contained pairs : ok (any_contained pairs) (fun _ => True).
Proof. apply (settles_read _ (fun m => a_any pairs m)). intros m. apply does_any. Qed.

(** *** Removing and expiring *)

Lemma settles_erase k : k ∈ writes -> ok (erase_key k) (fun _ => True).
Proof. intros Hk. apply (settles_write _ k (fun m => (a_has m k, delete k m)) Hk); intros m; [apply does_erase|apply noted_delete]. Qed.

Lemma settles_persist k : k ∈ writes -> ok (persist k) (fun _ => True).
Proof. intros Hk. apply (settles_write _ k (fun m => (bool_decide (is_Some (a_ttl m k)), with_ttl k None m)) Hk); intros m; [apply does_persist|apply noted_with_ttl]. Qed.

Lemma noted_expire k (w now : Z) (f : ExpireFlags) (m : AMap) : noted [k] m (a_expire k w now f m).2.
Proof. unfold a_expire. destruct (_ && _); [|done]. cbn. destruct (_ <=? _); [apply noted_delete|apply noted_with_ttl]. Qed.

Lemma settles_expire_at k (w now : Z) (f : ExpireFlags) : k ∈ writes -> 0 <= w < 2 ^ 48 -> ok (expire_at_ms k w now f) (fun _ => True).
Proof. intros Hk Hw. apply (settles_write _ k (a_expire k w now f) Hk); intros m; [by apply does_expire_at|apply noted_expire]. Qed.

Lemma settles_purge k now : reading now -> ok (purge_if_expired k now) (fun _ => True).
Proof. intros Hn. apply settles_does. intros s m _. eexists _, _. split_and!; [apply does_purge|by apply only_purge|done]. Qed.

Lemma settles_dbsize now : reading now -> ok (dbsize now) (fun _ => True).
Proof. intros Hn. apply settles_does. intros s m _. eexists _, _. split_and!; [apply does_dbsize|by apply only_sweep|done]. Qed.

Lemma only_touch keys now m : reading now -> only m (a_touch keys now m).2.
Proof. intros Hn. revert m. induction keys as [|k keys IH]; intros m; [apply only_refl|]. eapply only_trans; [by apply only_purge|apply IH]. Qed.

Lemma settles_touch keys now n : reading now -> ok (touch keys now n) (fun _ => True).
Proof. intros Hn. apply settles_does. intros s m _. eexists _, _. split_and!; [apply does_touch|by apply only_touch|done]. Qed.

Lemma settles_random_key now random : reading now -> 0 <= random -> ok (random_key now random) (fun _ => True).
Proof.
  intros Hn Hr s [m Hm]. destruct (random_key_run string_encoding_ now random s m (proj1 Hm) Hr) as (r & s' & keys & E & R & T & N & _).
  unfold wp. rewrite E. split; [done|]. exists (a_sweep now m). eapply at_map_step; try done. by apply only_sweep.
Qed.

(** *** Writing *)

Lemma create_key_full (ks : @Keyspace Payload) k t : length (keys_ ks) = length (types_ ks) -> kMaxKeyId < Z.of_nat (length (types_ ks)) -> create_key k t ks = Exn LengthError ks.
Proof.
  intros Hl Hs. unfold create_key, push_back_key, mbind, M_bind, gets. destruct (_ <? _); [done|]. rewrite Hl.
  by replace (kMaxKeyId <? Z.of_nat (length (types_ ks))) with true by lia.
Qed.

(** A write succeeds and stores some text, or throws and changes nothing. *)
Lemma set_string_outcome (s : St) m k v :
  rep string_encoding_ s m ->
  (addable m k /\ exists t, stores string_encoding_ v t) \/ on_ks (set_string string_encoding_ k v) s = Exn LengthError s.
Proof.
  intros R. destruct (decide (m !! k = None)) as [Hn|Hn].
  - destruct (Z.ltb_spec kMaxKeyId (Z.of_nat (size m))) as [Hs|Hs].
    { right. assert (Hset : set_ks (keyspace_ s) s = s) by (by destruct s). pose proof Hn as Hf. apply (rep_none _ _ _ R) in Hf.
      unfold on_ks, set_string, create_string, mbind, M_bind, gets. rewrite Hf. pose proof (r_inv _ _ _ R) as Hi. rewrite <- (rep_size _ _ _ R) in Hs.
      rewrite create_key_full; [by rewrite Hset|by rewrite (k_keys _ _ Hi)|done]. }
    destruct (Z.ltb_spec kMaxBlobBytes (Z.of_nat (length k))) as [Hk|Hk]; [right; eapply set_string_refused; [done|]; split; [done|by right]|].
    pose proof (write_storable string_encoding_ v) as Hw. destruct (storable string_encoding_ v) eqn:Hst.
    + left. destruct Hw as [slot Hw]. destruct (written_reads_some _ _ _ Hw) as [t Ht]. split; [by intros _|]. by exists t, slot.
    + right. eapply set_string_refused; [done|]. split; [done|by left].
  - pose proof (write_storable string_encoding_ v) as Hw. destruct (storable string_encoding_ v) eqn:Hst.
    + left. destruct Hw as [slot Hw]. destruct (written_reads_some _ _ _ Hw) as [t Ht]. split; [by intros ?|]. by exists t, slot.
    + right. eapply set_string_refused; [done|]. split; [by intros ?|by left].
Qed.

(** A write, an update of the expiry of the written id, and the report. *)
Lemma settles_set_string {B} k v (g : nat -> M St unit) (G : nat -> gmap nat Z -> gmap nat Z) (h : option Z -> option Z) (f : M St B) (P : B -> Prop) :
  k ∈ writes -> (forall id s, g id s = Ok tt (set_ttl (G id (ttl_ s)) s)) ->
  (forall id T j, j <> id -> G id T !! j = T !! j) -> (forall id T, G id T !! id = h (T !! id)) ->
  (forall o e, h o = Some e -> o = Some e \/ 0 <= e < 2 ^ 48) -> ok f P ->
  ok (id ← on_ks (set_string string_encoding_ k v); g id;; signal_key_modified k;; f) P.
Proof.
  intros Hk Hg HG1 HG2 Hh Hf s [m Hm]. pose proof (proj1 Hm) as R. destruct (set_string_outcome s m k v R) as [[Ha [t Ht]]|E].
  - assert (Hd : does_ (id ← on_ks (set_string string_encoding_ k v); g id;; signal_key_modified k;; mret tt) m tt (<[k := (AStr t, h (a_ttl m k))]> m)).
    { by eapply does_write; try done; apply does_ret. }
    destruct (Hd s R) as (s1 & keys & E & R1 & T1 & N1).
    assert (Hs1 : reached (fun s => s) s1) by (eexists; eapply at_map_step; try done; by apply only_insert).
    specialize (Hf s1 Hs1). revert E Hf. unfold wp, mbind, M_bind, mret, M_ret.
    destruct (on_ks _ s) as [id s2| |]; [|done..]. rewrite Hg. unfold signal_key_modified, modify. intros [= <-]. done.
  - unfold wp, mbind, M_bind. rewrite E. split; [done|by exists m].
Qed.

Lemma settles_put {B} k v (f : M St B) (P : B -> Prop) :
  k ∈ writes -> ok f P -> ok (on_ks (set_string string_encoding_ k v);; signal_key_modified k;; f) P.
Proof.
  intros Hk Hf. change (ok (id ← on_ks (set_string string_encoding_ k v); mret tt;; signal_key_modified k;; f) P).
  apply (settles_set_string k v (fun _ => mret tt) (fun _ T => T) (fun o => o)); try done; [intros id s; by destruct s|]. intros o e ->. by left.
Qed.

Lemma signal_ret k (s : St) : (signal_key_modified k;; mret tt) s = signal_key_modified k s.
Proof. done. Qed.

Lemma settles_set k v : k ∈ writes -> ok (set string_encoding_ k v) (fun _ => True).
Proof.
  intros Hk. change (ok (id ← on_ks (set_string string_encoding_ k v); clear_ttl_of id;; signal_key_modified k;; mret tt) (fun _ => True)).
  apply (settles_set_string k v clear_ttl_of (fun id T => delete id T) (fun _ => None)); try done.
  - intros id s. apply clear_ttl_of_run.
  - intros id T j Hj. by apply lookup_delete_ne.
  - intros id T. apply lookup_delete_eq.
Qed.

Lemma settles_set_keep_ttl k v : k ∈ writes -> ok (set_keep_ttl string_encoding_ k v) (fun _ => True).
Proof. intros Hk. apply (settles_put k v (mret tt)); [done|by apply settles_ret]. Qed.

Lemma settles_store_integer k v : k ∈ writes -> ok (store_integer string_encoding_ k v) (fun _ => True).
Proof. intros Hk. apply (settles_put k _ (mret tt)); [done|by apply settles_ret]. Qed.

Lemma settles_set_nx k v : k ∈ writes -> ok (set_nx string_encoding_ k v) (fun _ => True).
Proof.
  intros Hk s Hs. unfold set_nx, set_string_if_absent. destruct (find_id k (keyspace_ s)) as [id|] eqn:Hf.
  - assert (E : on_ks (found ← gets (find_id k); match found with Some _ => mret false | None => create_string string_encoding_ k v;; mret true end) s = Ok false s).
    { unfold on_ks, mbind, M_bind, gets. rewrite Hf. by destruct s. }
    apply wp_bind. unfold wp at 1. rewrite E. by apply settles_ret.
  - pose proof (settles_put k v (mret true) (fun _ => True) Hk (settles_ret _ _ _ I) s Hs) as Hw. revert Hw.
    unfold wp, mbind, M_bind, on_ks, gets, when. rewrite Hf, <- create_is_set by done.
    by destruct (create_string string_encoding_ k v (keyspace_ s)).
Qed.

Ltac step := eapply settles_bind; [by eauto with settles|cbn beta].
Ltac done_ := by apply settles_ret.

#[local] Hint Resolve settles_get settles_get_result settles_join settles_get_text settles_holds settles_exists settles_type_of settles_strlen
  settles_getrange settles_pttl settles_expiretime settles_any_contained settles_erase settles_persist settles_expire_at settles_purge
  settles_dbsize settles_touch settles_random_key settles_set settles_set_keep_ttl settles_set_nx settles_store_integer : settles.

Lemma settles_set_all pairs : Forall (fun p => p.1 ∈ writes) pairs -> ok (set_all string_encoding_ pairs) (fun _ => True).
Proof.
  induction pairs as [|[k v] pairs IH]; intros Hp; cbn [set_all]; [done_|]. apply Forall_cons in Hp as [Hk Hp]. cbn in Hk.
  step. intros _ _. by apply IH.
Qed.

Lemma settles_mset_nx pairs : Forall (fun p => p.1 ∈ writes) pairs -> ok (mset_nx string_encoding_ pairs) (fun _ => True).
Proof.
  intros Hp. unfold mset_nx. step. intros [] _; [done_|]. eapply settles_bind; [by apply settles_set_all|]. intros; done_.
Qed.

Lemma settles_get_set k v : k ∈ writes -> ok (get_set string_encoding_ k v) (fun _ => True).
Proof. intros Hk. unfold get_set. step. intros o _. apply settles_put; [done|done_]. Qed.

Lemma settles_get_del k : k ∈ writes -> ok (get_del string_encoding_ k) (fun _ => True).
Proof. intros Hk. unfold get_del. step. intros o _. step. intros; done_. Qed.

Lemma settles_cad k e : k ∈ writes -> ok (compare_and_delete string_encoding_ k e) (fun _ => True).
Proof. intros Hk. unfold compare_and_delete. step. intros [] _; [eauto with settles|done_]. Qed.

Lemma settles_cas k e v : k ∈ writes -> ok (compare_and_set string_encoding_ k e v) (fun _ => True).
Proof. intros Hk. unfold compare_and_set. step. intros [] _; [step; intros; done_|done_]. Qed.

Lemma settles_caexpire k e w now : k ∈ writes -> 0 <= w < 2 ^ 48 -> ok (compare_and_expire string_encoding_ k e w now) (fun _ => True).
Proof. intros Hk Hw. unfold compare_and_expire. step. intros [] _; [eauto with settles|done_]. Qed.

Lemma settles_append k v : k ∈ writes -> ok (append string_encoding_ k v) (fun _ => True).
Proof.
  intros Hk. unfold append. step. intros [t|] _.
  - destruct (_ <? _); [done_|]. cbn zeta. destruct (negb _); [done_|]. apply settles_put; [done|done_].
  - destruct (negb _); [done_|]. apply settles_put; [done|done_].
Qed.

Lemma settles_current_integer k : ok (current_integer string_encoding_ k) (fun _ => True).
Proof. unfold current_integer. step. intros [t|] _; done_. Qed.
#[local] Hint Resolve settles_current_integer : settles.

Ltac counter := step; intros [c|] _; [cbn zeta|done_]; repeat case_match; try done_; step; intros; done_.

Lemma settles_incr_by k d : k ∈ writes -> ok (incr_by string_encoding_ k d) (fun _ => True).
Proof. intros Hk. unfold incr_by. counter. Qed.
Lemma settles_incr_bound k d x : k ∈ writes -> ok (incr_bound string_encoding_ k d x) (fun _ => True).
Proof. intros Hk. unfold incr_bound. counter. Qed.
Lemma settles_decr_positive k : k ∈ writes -> ok (decr_positive string_encoding_ k) (fun _ => True).
Proof. intros Hk. unfold decr_positive. counter. Qed.
#[local] Hint Resolve settles_incr_by : settles.

Lemma settles_incr_expire k w now : k ∈ writes -> 0 <= w < 2 ^ 48 -> ok (incr_expire string_encoding_ k w now) (fun _ => True).
Proof.
  intros Hk Hw. unfold incr_expire. step. intros [v|] _; [|done_]. apply (settles_bind _ _ _ (fun _ => True)); [|intros; done_].
  destruct (v =? 1); [step; intros; done_|done_].
Qed.

Lemma settles_setrange k o v : k ∈ writes -> ok (setrange string_encoding_ k o v) (fun _ => True).
Proof.
  intros Hk. unfold setrange. step. intros cur Hcur. cbn zeta. destruct v as [|b v]; [done_|]. destruct (_ || _); [done_|].
  apply (settles_bind _ _ _ (fun _ => True)); [destruct cur; [eauto with settles|done_]|]. intros t _. cbn beta.
  destruct (negb _); [done_|]. apply settles_put; [done|done_].
Qed.

Lemma settles_claim ck rk t w now :
  ck ∈ writes -> 0 <= w < 2 ^ 48 -> reading now -> ok (claim string_encoding_ ck rk t w now) (fun _ => True).
Proof.
  intros Hk Hw Hn. unfold claim. step. intros _ _. step. intros [] _; [step; intros; done_|]. step. intros _ _. step. intros ty _.
  destruct (match ty with Some _ => _ | None => _ end); [done_|]. step. intros; done_.
Qed.

(** *** Keys of any type *)

Lemma settles_rename src dst nx now : src ∈ writes -> dst ∈ writes -> reading now -> ok (rename src dst nx now) (fun _ => True).
Proof.
  intros Hs Hd Hn. destruct (Z.leb_spec (Z.of_nat (length dst)) kMaxBlobBytes) as [Hl|Hl].
  - apply settles_does. intros s m _. eexists _, _. split_and!; [by apply does_rename| |done]. unfold a_rename.
    destruct (a_purge now src m !! src) as [e|]; [|by apply only_purge]. case_decide; [by apply only_purge|].
    eapply only_trans; [by apply (only_purge now src)|]. destruct (_ && _); [by apply only_purge|]. eapply only_trans; [by apply (only_purge now dst)|].
    eapply only_trans; [by apply (only_delete dst)|]. eapply only_trans; [by apply (only_delete src)|]. by apply only_insert.
  - unfold rename. intros s [m Hm]. eapply wp_does; [done|apply does_purge|by apply only_purge|]. intros s1 Hs1.
    eapply wp_does; [done|apply does_exists|apply only_refl|]. intros s2 Hs2. rewrite a_has_lookup. set (m1 := a_purge now src m) in *.
    destruct (m1 !! src) as [e|] eqn:He; cbn [negb]; [|apply settles_ret; [done|by exists m1]].
    case_bool_decide as Hne; [apply settles_ret; [done|by exists m1]|].
    eapply wp_does; [done|apply does_purge|by apply only_purge|]. intros s3 Hs3. eapply wp_does; [done|apply does_exists|apply only_refl|]. intros s4 Hs4.
    destruct (_ && _); [apply settles_ret; [done|by eexists]|]. eapply wp_does; [done|apply does_erase|by apply only_delete|]. intros s5 Hs5.
    set (m2 := delete dst (a_purge now dst m1)) in *. pose proof (proj1 Hs5) as R. assert (Hset : set_ks (keyspace_ s5) s5 = s5) by (by destruct s5).
    apply wp_bind. unfold wp at 1, on_ks. destruct (find_id src (keyspace_ s5)) as [id|] eqn:Hf.
    + rewrite (rename_key_too_long _ _ (r_inv _ _ _ R) src dst id Hf Hl), Hset. split; [done|by exists m2].
    + apply (rep_none _ _ _ R) in Hf. unfold m2 in Hf. rewrite lookup_delete_ne, a_purge_ne in Hf by done. congruence.
Qed.

(** A finished object placed under a name that is free. *)
Lemma settles_place dst t p (ttl : option Z) m :
  dst ∈ writes -> t <> KT_String -> (forall x, ttl = Some x -> 0 <= x < 2 ^ 48) -> m !! dst = None ->
  forall s, at_map m s ->
  wp (on_ks (place_loaded dst t p);; id ← id_of dst; id ← need id; copy_ttl id ttl;; signal_key_modified dst;; mret Copied)
    (fun _ s' => True /\ reached (fun s => s) s') (too_long (fun s => s)) s.
Proof.
  intros Hd Ht Hx Hn s Hm. pose proof (proj1 Hm) as R. pose proof (r_inv _ _ _ R) as Hi. assert (Hset : set_ks (keyspace_ s) s = s) by (by destruct s).
  destruct (decide (Z.of_nat (length dst) <= kMaxBlobBytes /\ Z.of_nat (size m) <= kMaxKeyId)) as [Ha|Ha].
  - destruct (does_copy_other string_encoding_ dst t p ttl m Hn (fun _ => Ha) Ht Hx s R) as (s' & keys & E & R' & T & N).
    unfold wp. rewrite E. split; [done|]. eexists. eapply at_map_step; try done. by apply only_insert.
  - assert (E : on_ks (place_loaded dst t p) s = Exn LengthError s).
    { unfold on_ks, place_loaded, mbind, M_bind. rewrite <- (rep_size _ _ _ R) in Ha.
      destruct (Z.leb_spec (Z.of_nat (length dst)) kMaxBlobBytes); [rewrite create_key_full|rewrite create_key_too_long];
        [by rewrite Hset|by rewrite (k_keys _ _ Hi)|unfold ks_size in *; lia|by rewrite Hset|done]. }
    apply wp_bind. unfold wp at 1. rewrite E. split; [done|by exists m].
Qed.

Lemma settles_copy_value src dst ttl m :
  dst ∈ writes -> (forall x, ttl = Some x -> 0 <= x < 2 ^ 48) -> a_has m src = true ->
  forall s, at_map m s -> wp (copy_value string_encoding_ clone src dst ttl) (fun _ s' => True /\ reached (fun s => s) s') (too_long (fun s => s)) s.
Proof.
  intros Hd Hx Hh s Hm. pose proof (proj1 Hm) as R. unfold copy_value. rewrite a_has_lookup in Hh. destruct (m !! src) as [[o e]|] eqn:Hs; [|done].
  eapply wp_does; [done|apply does_type_of|apply only_refl|]. intros s1 Hs1. unfold a_type. rewrite Hs. cbn [fmap option_fmap option_map fst].
  eapply wp_does; [done|apply does_need|apply only_refl|]. intros s2 Hs2. destruct o as [t|t p].
  - rewrite bool_decide_eq_true_2 by done. apply wp_assoc. eapply wp_does; [done|apply does_get_text|apply only_refl|]. intros s3 Hs3.
    unfold a_text. rewrite Hs. cbn [mbind option_bind fst]. apply wp_assoc. eapply wp_does; [done|apply does_need|apply only_refl|]. intros s4 Hs4.
    apply wp_assoc. eapply wp_does; [done|apply does_erase|by apply only_delete|]. intros s5 Hs5. apply wp_assoc.
    apply (settles_set_string dst t (fun id => copy_ttl id ttl) (fun id T => match ttl with Some x => <[id := x]> T | None => T end)
             (fun o => match ttl with Some x => Some x | None => o end)); [done|..|done_|by eexists].
    + intros id s'. unfold copy_ttl, ttl_set, modify. destruct ttl as [x|]; [by rewrite wrap_small by (by apply Hx)|by destruct s'].
    + intros id T j Hj. destruct ttl; [by apply lookup_insert_ne|done].
    + intros id T. destruct ttl; [apply lookup_insert_eq|done].
    + intros o x. destruct ttl as [y|]; [intros [= <-]; right; by apply Hx|by left].
  - pose proof (a_other_type _ _ _ _ _ _ _ R Hs) as Ht. rewrite bool_decide_eq_false_2 by done.
    apply wp_assoc. eapply wp_does; [done|by eapply does_object_of|apply only_refl|]. intros s3 Hs3.
    apply wp_assoc. eapply wp_does; [done|apply does_erase|by apply only_delete|]. intros s4 Hs4. cbn beta. apply wp_assoc.
    eapply wp_eq; [|eapply (settles_place dst t (clone t p) ttl); try done; apply lookup_delete_eq].
    unfold mbind, M_bind. destruct (on_ks _ s4) as [x s5| |]; [|done..]. destruct (id_of dst s5) as [y s6| |]; [|done..]. by destruct (need y s6).
Qed.

Lemma settles_copy src dst replace now : src ∈ writes -> dst ∈ writes -> reading now -> ok (copy string_encoding_ clone src dst replace now) (fun _ => True).
Proof.
  intros Hs Hd Hn. unfold copy. case_bool_decide as Hne; [done_|]. intros s [m Hm].
  eapply wp_does; [done|apply does_purge|by apply only_purge|]. intros s1 Hs1. set (m1 := a_purge now src m) in *.
  apply wp_bind, wp_gets. destruct (find_id src (keyspace_ s1)) as [id|] eqn:Hf; [|apply settles_ret; [done|by exists m1]].
  eapply wp_does; [done|apply does_purge|by apply only_purge|]. intros s2 Hs2. eapply wp_does; [done|apply does_exists|apply only_refl|]. intros s3 Hs3.
  destruct (_ && _); [apply settles_ret; [done|by eexists]|]. apply wp_bind, wp_gets. eapply settles_copy_value; [done| | |done].
  2: { destruct (rep_found _ _ _ (proj1 Hs1) src id Hf) as [a Ha]. by rewrite a_has_lookup, a_purge_ne, Ha. }
  intros x Hx. by apply (r_ttl _ _ _ (proj1 Hs3)) in Hx as [_ Hx].
Qed.
End frame.
