(* ===== verification/StoreLists.v ===== *)
(** * The lists of the store

    Models the list operations of [src/store.cpp] and what they use of the keyspace in
    [include/goblin/core/store.hpp], over the interface of a list ([ListObject]).  The store runs in a world with the
    thread's memory budget: a list operation that is refused memory throws, and leaves the list where it stopped.
    A list is owned by a pointer in the slot of its key; the pointer is modelled by the id of the slot, which no
    operation here changes while it holds one.  The implementation a call asks for is the configured one. *)

From S2P Require Import Prelude StringEncoding MemoryLimit CommandClass Keyspace Store SegmentedSpec ListValue ListObject.
From stdpp Require Import gmap.
From Stdlib Require Import ZArith Lia ZifyBool.

Import Classes.

Local Open Scope Z_scope.

(** ** Indexes and ranges *)

Definition normalize_index (index size : Z) : Z := if index <? 0 then index + size else index.

(** [first] and [count] of a [ListRange]. *)
Definition normalize_list_range (start stop size : Z) : option (Z * Z) :=
  if size =? 0 then None
  else
    let start := if start <? 0 then start + size else start in
    let stop := if stop <? 0 then stop + size else stop in
    let start := Z.max 0 start in
    if stop <? 0 then None
    else
      let stop := Z.min (size - 1) stop in
      if (size <=? start) || (stop <? start) then None else Some (start, stop - start + 1).

(** The objects of the keyspace that are not strings: lists, and the others, which the operations here never look into. *)
Inductive Value (R Other : Type) := VList (list : R) | VOther (object : Other).
Arguments VList {_ _} _.
Arguments VOther {_ _} _.

Inductive ListSetResult := Stored | MissingKey | OutOfRange.

Section lists.
Context {L : LZ4} {R Other : Type} `{ListObject R}.
Variable string_encoding_ : Z.
(** [sizeof(List)]. *)
Variable sizeof_list : Z.

Abbreviation St := (@Store (Value R Other)).
Abbreviation Op A := (M (world St) A).

(** A call of the store or its keyspace that does not allocate under the budget. *)
Definition store_call {A} (m : M St A) : Op A := fun w =>
  match m (obj w) with
  | Ok a s => Ok a (World (mem w) s)
  | Exn e s => Exn e (World (mem w) s)
  | Ub => Ub
  end.

(** The list a slot owns, and a call on it. *)
Definition list_of (id : nat) (s : St) : option R :=
  match objects_ (keyspace_ s) !! id with Some (ObjOther (VList l)) => Some l | _ => None end.
Definition put_list (id : nat) (l : R) (s : St) : St :=
  set_ks (set_objects (<[id := ObjOther (VList l)]> (objects_ (keyspace_ s))) (keyspace_ s)) s.
Definition on_list {A} (id : nat) (m : M (world R) A) : Op A :=
  l ← obj_get (list_of id);
  l ← need l;
  zoom (fun _ => l) (put_list id) m.

(** ** The keyspace *)

(** [find_list]; [None] is the null pointer. *)
Definition find_list (key : bytes) : Op (option nat) :=
  found ← obj_get (fun s => find_id key (keyspace_ s));
  match found with
  | None => mret None
  | Some id =>
      t ← obj_get (fun s => types_ (keyspace_ s) !! id);
      t ← need t;
      mret (if bool_decide (t = KT_List) then Some id else None)
  end.

Definition get_or_create_list (key : bytes) : Op nat :=
  found ← obj_get (fun s => find_id key (keyspace_ s));
  match found with
  | Some id =>
      t ← obj_get (fun s => types_ (keyspace_ s) !! id);
      t ← need t;
      if bool_decide (t = KT_List) then mret id else throw LogicError
  | None =>
      ensure_memory_growth sizeof_list;;
      prepared ← local lo_blank lo_construct;
      store_call (on_ks (place_loaded key KT_List (VList prepared)))
  end.

(** [rollback_last_created_key]: nobody is told. *)
Definition rollback_last_created_key (key : bytes) : M (@Keyspace (Value R Other)) unit :=
  found ← gets (find_id key);
  id ← need found;
  n ← gets ks_size;
  require (Nat.eqb (id + 1) n);;
  key ← key_for_id id;
  modify (fun ks => set_index (delete key (index_ ks)) ks);;
  pop_back_key;;
  modify (fun ks => set_objects (pop_back (objects_ ks)) ks);;
  modify (fun ks => set_types (pop_back (types_ ks)) ks).
Definition rollback_empty_created_key (key : bytes) : Op unit := store_call (on_ks (rollback_last_created_key key)).

(** ** The operations *)

Definition list_empty (id : nat) : Op bool := n ← on_list id lo_size; mret (n =? 0).

Definition erase_if_empty (key : bytes) (id : nat) : Op unit :=
  none ← list_empty id;
  if negb none then mret tt else store_call (erase_key key);; mret tt.

Definition signal (key : bytes) : Op unit := store_call (signal_key_modified key).

(** [lpush] and [rpush], which differ in the end of the list. *)
Definition push_at (front : bool) (key : bytes) (values : list bytes) (created : bool) (id : nat) : Op Z :=
  size ← try_catch (on_list id (lo_push front values))
    (fun e =>
       none ← (if created then list_empty id else mret false);
       when none (rollback_empty_created_key key);;
       throw e);
  signal key;;
  mret size.
Definition push (front : bool) (key : bytes) (values : list bytes) (only_if_exists : bool) : Op Z :=
  found ← find_list key;
  contained ← obj_get (fun s => contains key (keyspace_ s));
  match found with
  | Some id => push_at front key values false id
  | None =>
      if only_if_exists then mret 0
      else id ← get_or_create_list key; push_at front key values (negb contained) id
  end.
Definition lpush : bytes -> list bytes -> bool -> Op Z := push true.
Definition rpush : bytes -> list bytes -> bool -> Op Z := push false.

(** [lpop] and [rpop] of one value. *)
Definition pop (front : bool) (key : bytes) : Op (option bytes) :=
  found ← find_list key;
  match found with
  | None => mret None
  | Some id =>
      value ← on_list id (lo_pop_one front);
      none ← list_empty id;
      when (bool_decide (is_Some value) && negb none) (signal key);;
      erase_if_empty key id;;
      mret value
  end.

(** [lpop] and [rpop] of several values. *)
Definition pop_count (front : bool) (key : bytes) (count : Z) : Op (list bytes) :=
  found ← find_list key;
  match found with
  | None => mret []
  | Some id =>
      if count =? 0 then mret []
      else
        values ← on_list id (lo_pop count front);
        none ← list_empty id;
        when (negb (Nat.eqb (length values) 0) && negb none) (signal key);;
        erase_if_empty key id;;
        mret values
  end.

(** The two pushes of [lmove] into the destination; [restore_source] is the same call at the end the value came from. *)
Definition push_back_to (id : nat) (front : bool) (value : bytes) : Op unit := on_list id (lo_push_one front value);; mret tt.

Definition lmove (source destination : bytes) (source_front destination_front : bool) : Op (option bytes) :=
  found ← find_list source;
  match found with
  | None => mret None
  | Some id =>
      none ← list_empty id;
      if none : bool then mret None
      else
        value ← on_list id (lo_pop_one source_front);
        match value with
        | None => mret None
        | Some value =>
            if bool_decide (source = destination) then
              try_catch (push_back_to id destination_front value)
                (fun e => push_back_to id source_front value;; throw e);;
              signal source;;
              mret (Some value)
            else
              try_catch (destination_id ← get_or_create_list destination; push_back_to destination_id destination_front value)
                (fun e => push_back_to id source_front value;; throw e);;
              none ← list_empty id;
              (if none : bool then store_call (erase_key source);; mret tt else signal source);;
              signal destination;;
              mret (Some value)
        end
  end.

(** ** Reading *)

Definition llen (key : bytes) : Op Z :=
  found ← find_list key;
  match found with None => mret 0 | Some id => on_list id lo_size end.

Definition lindex (key : bytes) (index : Z) : Op (option EncodedStringView) :=
  found ← find_list key;
  match found with
  | None => mret None
  | Some id =>
      n ← on_list id lo_size;
      let index := normalize_index index n in
      if (index <? 0) || (n <=? index) then mret None
      else
        l ← obj_get (list_of id);
        l ← need l;
        v ← lift (lo_at index l);
        mret (Some v)
  end.

Definition lrange (key : bytes) (start stop : Z) : Op (list EncodedStringView) :=
  found ← find_list key;
  match found with
  | None => mret []
  | Some id =>
      n ← on_list id lo_size;
      match normalize_list_range start stop n with
      | None => mret []
      | Some (first, count) =>
          l ← obj_get (list_of id);
          l ← need l;
          lift (lo_for_range first count l)
      end
  end.

(** ** Changing values *)

Definition lset (key : bytes) (index : Z) (value : bytes) : Op ListSetResult :=
  found ← find_list key;
  match found with
  | None => mret MissingKey
  | Some id =>
      n ← on_list id lo_size;
      let index := normalize_index index n in
      if (index <? 0) || (n <=? index) then mret OutOfRange
      else
        on_list id (lo_set index value);;
        signal key;;
        mret Stored
  end.

Definition ltrim (key : bytes) (start stop : Z) : Op unit :=
  found ← find_list key;
  match found with
  | None => mret tt
  | Some id =>
      n ← on_list id lo_size;
      match normalize_list_range start stop n with
      | None => store_call (erase_key key);; mret tt
      | Some (first, count) =>
          on_list id (lo_trim first count);;
          signal key
      end
  end.

Definition lrem (key : bytes) (count : Z) (value : bytes) : Op Z :=
  found ← find_list key;
  match found with
  | None => mret 0
  | Some id =>
      removed ← on_list id (lo_remove value count);
      none ← list_empty id;
      when (negb (removed =? 0) && negb none) (signal key);;
      erase_if_empty key id;;
      mret removed
  end.

Definition linsert (key : bytes) (before : bool) (pivot value : bytes) : Op Z :=
  found ← find_list key;
  match found with
  | None => mret 0
  | Some id =>
      l ← obj_get (list_of id);
      l ← need l;
      index ← lift (lo_find_first pivot 0 l);
      match index with
      | Some index =>
          on_list id (lo_insert (if before then index else index + 1) value);;
          signal key;;
          on_list id lo_size
      | None => mret (-1)
      end
  end.
End lists.
