(* ===== verification/StoreListsSpec.v ===== *)
(** * What the lists of the store promise

    The store as a map from keys to texts, lists and other objects, each with an optional expiry: every list
    operation of [StoreLists] answers and changes the map as the command means, and reports every key it changed;
    when a memory limit refuses an allocation, what can be left is stated.  Everything is proved against the laws of
    a list ([ListObject]). *)

From S2P Require Import Prelude StringEncoding MemoryLimit CommandClass Keyspace Store SegmentedSpec ListValue ListObject StoreLists.
From stdpp Require Import gmap.
From Stdlib Require Import ZArith Lia ZifyBool.

Import Classes.

Local Open Scope Z_scope.

(** ** The store as a map *)

Inductive Val (Other : Type) := Text (text : bytes) | Elements (values : list bytes) | Opaque (type : KeyType) (object : Other).
Arguments Text {_} _.
Arguments Elements {_} _.
Arguments Opaque {_} _ _.

Section spec.
Context {L : LZ4} {LC : LZ4Correct L} {R Other : Type} `{ListObject R}.
Context {ok : bytes -> Prop} {lim : Prop} {repr : R -> list bytes -> Prop} {Laws : ListLaws R ok lim repr}.
Variable string_encoding_ : Z.
Variable sizeof_list : Z.

Abbreviation St := (@Store (Value R Other)).
Abbreviation AMap := (gmap bytes (@AObj (Value R Other) * option Z)).
Abbreviation VMap := (gmap bytes (Val Other * option Z)).
Abbreviation rep := (Store.rep string_encoding_).

(** An entry of the store shows as an entry of the map. *)
Definition shows (e : @AObj (Value R Other) * option Z) (x : Val Other * option Z) : Prop :=
  e.2 = x.2 /\
  match e.1, x.1 with
  | AStr t, Text t' => t = t'
  | AOther ty (VList l), Elements vs => ty = KT_List /\ repr l vs
  | AOther ty (VOther o), Opaque ty' o' => ty = ty' /\ o = o' /\ ty <> KT_List
  | _, _ => False
  end.
Definition views (m : AMap) (v : VMap) : Prop := forall k, option_Forall2 shows (m !! k) (v !! k).
Definition srep (s : St) (v : VMap) : Prop := exists m, rep s m /\ views m v.

(** The values of a list key, and the expiry of a key. *)
Definition elements (v : VMap) (k : bytes) : option (list bytes) := e ← v !! k; match e.1 with Elements vs => Some vs | _ => None end.
Definition v_ttl (v : VMap) (k : bytes) : option Z := e ← v !! k; e.2.

(** [id] is where the list of [k] lives. *)
Definition held (s : St) (v : VMap) (k : bytes) (id : nat) (vs : list bytes) (o : option Z) : Prop :=
  srep s v /\ find_id k (keyspace_ s) = Some id /\ v !! k = Some (Elements vs, o).

Lemma views_none m v k : views m v -> m !! k = None <-> v !! k = None.
Proof. intros Hv. specialize (Hv k). destruct Hv as [e x|]; done. Qed.

Lemma views_insert m v k e x : views m v -> shows e x -> views (<[k := e]> m) (<[k := x]> v).
Proof. intros Hv He k'. destruct (decide (k' = k)) as [->|]; [rewrite !lookup_insert_eq; by constructor|rewrite !lookup_insert_ne by done; apply Hv]. Qed.

Lemma views_delete m v k : views m v -> views (delete k m) (delete k v).
Proof. intros Hv k'. destruct (decide (k' = k)) as [->|]; [rewrite !lookup_delete_eq; by constructor|rewrite !lookup_delete_ne by done; apply Hv]. Qed.

Lemma views_size m v : views m v -> size m = size v.
Proof.
  intros Hv. rewrite <- !size_dom. f_equal. apply set_eq. intros k. rewrite !elem_of_dom, <- !not_eq_None_Some. by rewrite (views_none m v k).
Qed.

Lemma srep_none s v k : srep s v -> v !! k = None <-> find_id k (keyspace_ s) = None.
Proof. intros (m & Hr & Hv). rewrite <- (views_none m v k Hv). apply (rep_none _ _ _ Hr). Qed.

(** A key that is there shows its type and its expiry. *)
Lemma srep_found s v k x o : srep s v -> v !! k = Some (x, o) ->
  exists id t, find_id k (keyspace_ s) = Some id /\ types_ (keyspace_ s) !! id = Some t /\ ttl_ s !! id = o /\
    match x with Text _ => t = KT_String | Elements vs => t = KT_List /\ exists l, list_of id s = Some l /\ repr l vs | Opaque ty _ => t = ty /\ ty <> KT_List end.
Proof.
  intros (m & Hr & Hv) Hk. specialize (Hv k). rewrite Hk in Hv. destruct (m !! k) as [[a o']|] eqn:Hm; [|inversion Hv]. inversion Hv as [e y He|]; subst. destruct He as [[= ->] He]. cbn [fst snd] in He.
  pose proof (r_inv _ _ _ Hr) as Hi. destruct (find_id k (keyspace_ s)) as [id|] eqn:Hf; [|apply (rep_none _ _ _ Hr) in Hf; congruence].
  destruct (find_id_slot _ _ Hi k id Hf) as (Hl & _ & t & ob & Ht & Ho & Hty). exists id, t. pose proof Hm as Hm'. rewrite (rep_lookup _ _ _ Hr k), Hf in Hm'. unfold obj_at in Hm'. cbn in Hm'. rewrite Ht, Ho in Hm'. cbn in Hm'.
  split_and!; [done|done| |].
  - destruct (abs_object _ t ob); cbn in Hm'; congruence.
  - unfold list_of. rewrite Ho. destruct ob as [|slot|[l|p]]; cbn in Hm'; [done| | |].
    + destruct (to_string _); cbn in Hm'; [|done..]. injection Hm' as <- _. destruct x; try done. by destruct Hty.
    + injection Hm' as <- _. destruct x; try done. destruct He as [-> He]. split; [done|]. by exists l.
    + injection Hm' as <- _. destruct x; try done. by destruct He as (-> & _ & ?).
Qed.

Lemma elements_found s v k id t : srep s v -> find_id k (keyspace_ s) = Some id -> types_ (keyspace_ s) !! id = Some t -> (t = KT_List <-> is_Some (elements v k)).
Proof.
  intros Hs Hf Ht. destruct (v !! k) as [[x o]|] eqn:Hk; [|apply (srep_none _ _ _ Hs) in Hk; congruence]. destruct (srep_found _ _ _ _ _ Hs Hk) as (id' & t' & Hf' & Ht' & _ & Hx).
  assert (id' = id) as -> by congruence. assert (t' = t) as -> by congruence. unfold elements. rewrite Hk. cbn. destruct x; cbn.
  - subst. split; [done|]. by intros [].
  - destruct Hx as [-> _]. split; [by eexists|done].
  - destruct Hx as [-> Hx]. split; [done|]. by intros [].
Qed.

Lemma elements_Some v k vs : elements v k = Some vs <-> exists o, v !! k = Some (Elements vs, o).
Proof.
  unfold elements. destruct (v !! k) as [[x o]|]; cbn; [|split; [done|by intros []]]. split.
  - destruct x; intros [= ->]. by exists o.
  - intros [o' [= -> ->]]. done.
Qed.

(** *** Writing the list of a slot *)

Lemma put_list_ks id l (s : St) t : types_ (keyspace_ s) !! id = Some t -> keyspace_ (put_list id l s) = updated (keyspace_ s) id t (ObjOther (VList l)).
Proof. intros Ht. apply keyspace_eq; cbn; try done. by rewrite list_insert_id. Qed.

Lemma list_of_put id l (s : St) l0 : list_of id s = Some l0 -> list_of id (put_list id l s) = Some l.
Proof.
  unfold list_of, put_list. cbn. intros Hl. destruct (objects_ (keyspace_ s) !! id) as [ob|] eqn:E; [|done]. by rewrite list_lookup_insert_eq by (by eapply lookup_lt_Some).
Qed.

Lemma put_list_same id l (s : St) : list_of id s = Some l -> put_list id l s = s.
Proof.
  unfold list_of, put_list. destruct (objects_ (keyspace_ s) !! id) as [[| |[l'|]]|] eqn:E; intros; simplify_eq. rewrite list_insert_id by done. by destruct s as [[]].
Qed.

Lemma held_put s v k id vs o l vs' : held s v k id vs o -> repr l vs' -> held (put_list id l s) (<[k := (Elements vs', o)]> v) k id vs' o.
Proof.
  intros (Hs & Hf & Hk) Hl. destruct (srep_found _ _ _ _ _ Hs Hk) as (id' & t & Hf' & Ht & Ho & -> & _). assert (id' = id) as -> by congruence. destruct Hs as (m & Hr & Hv).
  split_and!; [|done|by rewrite lookup_insert_eq]. exists (<[k := (AOther KT_List (VList l), o)]> m). split; [|by apply views_insert].
  pose proof (r_inv _ _ _ Hr) as Hi. split.
  - rewrite (put_list_ks _ _ _ _ Ht). by eapply updated_inv.
  - intros j e Hj. cbn in Hj. destruct (r_ttl _ _ _ Hr j e Hj). done.
  - rewrite (put_list_ks _ _ _ _ Ht). rewrite <- (r_map _ _ _ Hr). rewrite (amap_updated _ _ Hi (expiries s) (expiries (put_list id l s)) k id KT_List (ObjOther (VList l)) (AOther KT_List (VList l)) Hf eq_refl); [|done].
    unfold expiries. cbn. by rewrite Ho.
Qed.

(** *** Keys that come and go *)

Definition addable (v : VMap) (k : bytes) : Prop := v !! k = None -> Z.of_nat (length k) <= kMaxBlobBytes /\ Z.of_nat (size v) <= kMaxKeyId.

(** A new key with a finished list. *)
Lemma place_list s v k l vs : srep s v -> v !! k = None -> addable v k -> repr l vs ->
  exists id s', on_ks (place_loaded k KT_List (VList l)) s = Ok id s' /\ held s' (<[k := (Elements vs, None)]> v) k id vs None /\ told_ s' = told_ s /\
    S id = ks_size (keyspace_ s') /\ (forall k' id', find_id k' (keyspace_ s) = Some id' -> find_id k' (keyspace_ s') = Some id').
Proof.
  intros (m & Hr & Hv) Hn Ha Hl. destruct (Ha Hn) as [Hk Hsz]. pose proof (r_inv _ _ _ Hr) as Hi. rewrite <- (views_size m v Hv), <- (rep_size _ _ _ Hr) in Hsz.
  assert (Hm : m !! k = None) by (by apply (views_none m v k Hv)). assert (Hf : find_id k (keyspace_ s) = None) by (by apply (rep_none _ _ _ Hr)).
  set (ks' := appended (keyspace_ s) k KT_List (ObjOther (VList l))). exists (length (types_ (keyspace_ s))), (set_ks ks' s).
  assert (Hty : typed (Payload := Value R Other) string_encoding_ KT_List (ObjOther (VList l))) by done.
  split_and!.
  - unfold on_ks, place_loaded, mbind, M_bind. rewrite (create_key_run _ _ Hi) by done. by rewrite (put_appended _ _ Hi).
  - split_and!; [|unfold find_id; cbn; apply lookup_insert_eq|by rewrite lookup_insert_eq]. exists (<[k := (AOther KT_List (VList l), None)]> m). split; [|by apply views_insert]. split; cbn.
    + by apply appended_inv.
    + intros j e Hj. destruct (r_ttl _ _ _ Hr j e Hj). split; [|done]. unfold ks_size in *. cbn. rewrite length_app. cbn. lia.
    + etransitivity; [apply (amap_appended _ _ Hi (expiries s) (expiries s) k KT_List (ObjOther (VList l)) (AOther KT_List (VList l)) Hf eq_refl); done|]. rewrite (r_map _ _ _ Hr). do 2 f_equal. by apply (ttl_fresh _ _ _ Hr).
  - done.
  - unfold ks_size. cbn. rewrite length_app. cbn. lia.
  - intros k' id' Hf'. unfold find_id in *. cbn. rewrite lookup_insert_ne; [done|]. intros <-. congruence.
Qed.

Lemma erase_listed s v k : srep s v -> is_Some (v !! k) -> exists s', erase_key k s = Ok true s' /\ srep s' (delete k v) /\ told_ s' = told_ s ++ [k].
Proof.
  intros (m & Hr & Hv) [x Hx]. destruct (find_id k (keyspace_ s)) as [id|] eqn:Hf.
  - destruct (erase_slot _ _ _ Hr k id Hf) as (s' & E & Hr' & Ht & _). exists s'. split_and!; [|exists (delete k m); split; [done|by apply views_delete]|done].
    unfold erase_key, id_of, mbind, M_bind, gets in *. rewrite Hf. destruct (ttl_clear id s) as [b s1| |]; [|done..]. destruct (erase_keyspace_at id s1) as [[] s2| |]; [|done..]. by injection E as ->.
  - apply (rep_none _ _ _ Hr) in Hf. apply (views_none m v k Hv) in Hf. congruence.
Qed.

(** The key created last, taken back. *)
Lemma rollback_created s v k id vs : held s v k id vs None -> S id = ks_size (keyspace_ s) ->
  exists s', on_ks (rollback_last_created_key k) s = Ok tt s' /\ srep s' (delete k v) /\ told_ s' = told_ s.
Proof.
  intros (Hs & Hf & Hk) Hlast. destruct (srep_found _ _ _ _ _ Hs Hk) as (id' & t & Hf' & _ & Ho & _). assert (id' = id) as -> by congruence. destruct Hs as (m & Hr & Hv). pose proof (r_inv _ _ _ Hr) as Hi.
  destruct (find_id_slot _ _ Hi k id Hf) as (Hl & Hkey & _). destruct (erase_at_run _ _ Hi k id Hf) as (lk & lt & lo & Hlk & Hlt & Hlo & Hrun).
  assert (Hid : id = (length (types_ (keyspace_ s)) - 1)%nat) by (unfold ks_size in Hlast; lia). exists (set_ks (removed (keyspace_ s) id k lk lt lo) s). split_and!; [| |done].
  - unfold on_ks, rollback_last_created_key, mbind, M_bind, gets, need, require, key_for_id. rewrite Hf. rewrite (proj2 (Nat.eqb_eq _ _)) by lia. cbn. unfold mbind, M_bind, gets, need, modify. rewrite Hkey. cbn. do 2 f_equal.
    rewrite <- Hid in *. apply keyspace_eq; cbn; rewrite ?list_insert_id by congruence; try done; [by rewrite <- Hid, Nat.eqb_refl|unfold pop_back; by rewrite <- Hid].
  - exists (delete k m). split; [|by apply views_delete]. split; cbn.
    + by apply removed_inv.
    + intros j e Hj. destruct (r_ttl _ _ _ Hr j e Hj) as [Hj' He]. split; [|done]. unfold ks_size in *. cbn. unfold pop_back. rewrite length_take, length_insert. assert (j <> id) by congruence. lia.
    + rewrite <- (r_map _ _ _ Hr). apply amap_removed; try done.
Qed.

Lemma told_srep s v keys : srep s v -> srep (mkStore (keyspace_ s) (ttl_ s) keys) v.
Proof. intros (m & [Hi Ht Hm] & Hv). exists m. split; [|done]. by split. Qed.

(** ** Calls on the list of a slot *)

(** The names, types and reports are the same. *)
Definition beside (s s' : St) : Prop := index_ (keyspace_ s') = index_ (keyspace_ s) /\ types_ (keyspace_ s') = types_ (keyspace_ s) /\ told_ s' = told_ s.

Lemma wp_on_list {A} (m : M (world R) A) after kept s v k id vs o b (Q : A -> world St -> Prop) E :
  held s v k id vs o -> calm lim b -> (forall b r, calm lim b -> repr r vs -> follows lim repr m (World b r) after kept) ->
  (forall a b' s' l, calm lim b' -> held s' (<[k := (Elements l, o)]> v) k id l o -> beside s s' -> after a l -> Q a (World b' s')) ->
  (lim -> forall e b' s' l, is_bad_alloc e = true -> calm lim b' -> held s' (<[k := (Elements l, o)]> v) k id l o -> beside s s' -> kept l -> E e (World b' s')) ->
  wp (on_list id m) Q E (World b s).
Proof.
  intros Hh Hb Hm HQ HE. pose proof Hh as (Hs & Hf & Hk). destruct (srep_found _ _ _ _ _ Hs Hk) as (id' & t & Hf' & _ & _ & _ & l & Hl & Hr). assert (id' = id) as -> by congruence.
  unfold on_list. apply wp_bind, wp_obj_get. cbn [obj]. apply wp_bind. eapply wp_need; [exact Hl|]. apply wp_zoom. cbn [obj mem]. eapply wp_mono; [exact (Hm b l Hb Hr)| |].
  - intros a w' (Hb' & vs' & Hr' & Ha). by eapply (HQ a); [|eapply held_put| |].
  - intros e w' (Hlim & He & Hb' & vs' & Hr' & Ha). by eapply HE; [..|eapply held_put| |].
Qed.

Lemma wp_list_len s v k id vs o b (Q : Z -> world St -> Prop) E :
  held s v k id vs o -> Q (Z.of_nat (length vs)) (World b s) -> wp (on_list id lo_size) Q E (World b s).
Proof.
  intros (Hs & Hf & Hk) HQ. destruct (srep_found _ _ _ _ _ Hs Hk) as (id' & t & Hf' & _ & _ & _ & l & Hl & Hr). assert (id' = id) as -> by congruence.
  unfold on_list. apply wp_bind, wp_obj_get. cbn [obj]. apply wp_bind. eapply wp_need; [exact Hl|]. apply wp_zoom. cbn [obj mem]. eapply wp_intro; [by apply law_size|]. cbn [obj mem]. by rewrite put_list_same.
Qed.

Lemma wp_list_empty s v k id vs o b (Q : bool -> world St -> Prop) E :
  held s v k id vs o -> Q (bool_decide (vs = [])) (World b s) -> wp (list_empty id) Q E (World b s).
Proof.
  intros Hh HQ. unfold list_empty. apply wp_bind. eapply wp_list_len; [done|]. apply wp_ret. replace (_ =? 0) with (bool_decide (vs = [])); [done|]. by destruct vs.
Qed.

Lemma wp_find_list s v k b (Q : option nat -> world St -> Prop) E :
  srep s v -> (elements v k = None -> Q None (World b s)) -> (forall id vs o, held s v k id vs o -> Q (Some id) (World b s)) -> wp (find_list k) Q E (World b s).
Proof.
  intros Hs HN HS. unfold find_list. apply wp_bind, wp_obj_get. cbn [obj]. destruct (find_id k (keyspace_ s)) as [id|] eqn:Hf.
  - destruct (v !! k) as [[x o]|] eqn:Hk; [|apply (srep_none _ _ _ Hs) in Hk; congruence]. destruct (srep_found _ _ _ _ _ Hs Hk) as (id' & t & Hf' & Ht & _ & Hx). assert (id' = id) as -> by congruence.
    apply wp_bind, wp_obj_get. cbn [obj]. apply wp_bind. eapply wp_need; [exact Ht|]. apply wp_ret. case_bool_decide as Hd; destruct x as [text|vs|ty ob].
    + congruence.
    + by eapply HS.
    + destruct Hx. congruence.
    + apply HN. unfold elements. by rewrite Hk.
    + by destruct Hx.
    + apply HN. unfold elements. by rewrite Hk.
  - apply wp_ret, HN. unfold elements. apply (srep_none _ _ _ Hs) in Hf. by rewrite Hf.
Qed.

Lemma wp_store_call {A} (m : M St A) a s s' b (Q : A -> world St -> Prop) E : m s = Ok a s' -> Q a (World b s') -> wp (store_call m) Q E (World b s).
Proof. intros Hm HQ. unfold wp, store_call. cbn [obj]. by rewrite Hm. Qed.

Lemma wp_signal k s b (Q : unit -> world St -> Prop) E : Q tt (World b (mkStore (keyspace_ s) (ttl_ s) (told_ s ++ [k]))) -> wp (signal k) Q E (World b s).
Proof. intros HQ. by eapply wp_store_call. Qed.

Lemma wp_get_or_create s v k b (Q : nat -> world St -> Prop) E :
  srep s v -> calm lim b -> addable v k -> (v !! k = None \/ is_Some (elements v k)) ->
  (forall id vs o, held s v k id vs o -> Q id (World b s)) ->
  (forall id b' s', v !! k = None -> calm lim b' -> held s' (<[k := (Elements [], None)]> v) k id [] None -> told_ s' = told_ s -> S id = ks_size (keyspace_ s') ->
     (forall k' id', find_id k' (keyspace_ s) = Some id' -> find_id k' (keyspace_ s') = Some id') -> Q id (World b' s')) ->
  (lim -> forall e b', is_bad_alloc e = true -> calm lim b' -> E e (World b' s)) ->
  wp (get_or_create_list sizeof_list k) Q E (World b s).
Proof.
  intros Hs Hb Ha Hty HS HN HE. unfold get_or_create_list. apply wp_bind, wp_obj_get. cbn [obj]. destruct (find_id k (keyspace_ s)) as [id|] eqn:Hf.
  - destruct Hty as [Hn|[vs Hv]]; [apply (srep_none _ _ _ Hs) in Hn; congruence|]. apply elements_Some in Hv as [o Hk]. destruct (srep_found _ _ _ _ _ Hs Hk) as (id' & t & Hf' & Ht & _ & -> & _). assert (id' = id) as -> by congruence.
    apply wp_bind, wp_obj_get. cbn [obj]. apply wp_bind. eapply wp_need; [exact Ht|]. rewrite bool_decide_eq_true_2 by done. apply wp_ret. by eapply HS.
  - pose proof Hf as Hn. apply (srep_none _ _ _ Hs) in Hn. pose proof (steady_ensure sizeof_list (World b s)) as Hst. apply wp_bind. unfold wp at 1. destruct (ensure_memory_growth sizeof_list (World b s)) as [[] w1|e w1|] eqn:Een; cbn [mem] in Hst.
    + assert (w1 = World (mem w1) s) as ->. { unfold ensure_memory_growth in Een. cbn [mem obj] in Een. destruct b as [b|]; [|by simplify_eq]. destruct (ensure _ b) as [[] b']; by simplify_eq. }
      assert (Hb1 : calm lim (mem w1)) by (unfold calm in *; by rewrite Hst). apply wp_bind, wp_local. cbn [mem obj]. eapply wp_mono; [exact (law_construct (mem w1) Hb1)| |].
      * intros _ w2 (Hb2 & vs & Hr & ->). cbn. destruct (place_list s v k (obj w2) [] Hs Hn Ha Hr) as (id & s' & E' & Hh & Ht & Hl & Hids). eapply wp_store_call; [exact E'|]. by apply HN.
      * intros e w2 (Hlim & He & Hb2 & _). by apply HE.
    + unfold ensure_memory_growth in Een. cbn [mem obj] in Een. destruct b as [b|]; [|done]. destruct (ensure sizeof_list b) as [[] b'] eqn:Eb; [done|]. injection Een as <- <-. cbn [mem] in *.
      assert (Hb1 : calm lim (Some b')) by (unfold calm in *; by rewrite Hst). destruct Hb as [[Hl Hu]|[_ Hu]]; [by apply HE|]. rewrite (unlimited_ensure _ _ Hu) in Eb. done.
    + unfold ensure_memory_growth in Een. cbn [mem obj] in Een. destruct b as [b|]; [|done]. by destruct (ensure sizeof_list b) as [[] ?].
Qed.

(** ** Each operation on the map *)

(** A list that becomes empty takes its key with it; otherwise the key keeps its expiry. *)
Definition set_list (k : bytes) (l : list bytes) (v : VMap) : VMap := if bool_decide (l = []) then delete k v else <[k := (Elements l, v_ttl v k)]> v.

(** The answer [a], the map [v'], and every key that changed reported. *)
Definition ends_well {A : Type} (s : St) (v : VMap) (a : A) (v' : VMap) (a' : A) (w' : world St) : Prop :=
  a' = a /\ calm lim (mem w') /\ srep (obj w') v' /\ exists keys, told_ (obj w') = told_ s ++ keys /\ forall k, k ∉ keys -> v' !! k = v !! k.
(** Memory was refused: nothing is reported, and a map [kept] allows is left. *)
Definition ends_short (s : St) (kept : VMap -> Prop) (e : exn) (w' : world St) : Prop :=
  lim /\ is_bad_alloc e = true /\ calm lim (mem w') /\ told_ (obj w') = told_ s /\ exists v', srep (obj w') v' /\ kept v'.

Definition grants {A : Type} (op : M (world St) A) (v : VMap) (a : A) (v' : VMap) (kept : VMap -> Prop) : Prop :=
  forall b s, calm lim b -> srep s v -> wp op (ends_well s v a v') (ends_short s kept) (World b s).

(** Only the list under [k] is another one. *)
Definition keeps_list (v : VMap) (k : bytes) (P : list bytes -> Prop) (v' : VMap) : Prop := exists l, P l /\ v' = <[k := (Elements l, v_ttl v k)]> v.

Lemma held_ttl s v k id vs o : held s v k id vs o -> v_ttl v k = o /\ elements v k = Some vs.
Proof. intros (_ & _ & Hk). unfold v_ttl, elements. by rewrite Hk. Qed.

Lemma other_insert (v : VMap) k x k' : k' ∉ [k] -> <[k := x]> v !! k' = v !! k'.
Proof. intros Hk. apply lookup_insert_ne. intros ->. apply Hk. constructor. Qed.
Lemma other_delete (v : VMap) k k' : k' ∉ [k] -> delete k v !! k' = v !! k'.
Proof. intros Hk. apply lookup_delete_ne. intros ->. apply Hk. constructor. Qed.

Lemma ends_same {A} s v (a : A) b : calm lim b -> srep s v -> ends_well s v a v a (World b s).
Proof. intros Hb Hs. split_and!; [done..|]. exists []. by rewrite app_nil_r. Qed.

Lemma short_list s v k id vs o b e s' l (P : list bytes -> Prop) : held s v k id vs o -> lim -> is_bad_alloc e = true -> calm lim b -> held s' (<[k := (Elements l, o)]> v) k id l o -> beside s s' -> P l ->
  ends_short s (keeps_list v k P) e (World b s').
Proof.
  intros Hh Hlim He Hb (Hs' & _) (_ & _ & Ht) Hp. split_and!; [done..|]. eexists. split; [exact Hs'|]. exists l. split; [done|]. by destruct (held_ttl _ _ _ _ _ _ Hh) as [-> _].
Qed.

(** The list was changed, and the key is reported. *)
Lemma wp_changed {A} s v k id vs o s' l b (a : A) E :
  held s v k id vs o -> calm lim b -> held s' (<[k := (Elements l, o)]> v) k id l o -> beside s s' -> l <> [] ->
  wp (signal k;; mret a) (ends_well s v a (set_list k l v)) E (World b s').
Proof.
  intros Hh Hb (Hs' & _) (_ & _ & Ht) Hl. apply wp_bind, wp_signal, wp_ret. destruct (held_ttl _ _ _ _ _ _ Hh) as [Ho _]. unfold set_list. rewrite bool_decide_eq_false_2, Ho by done.
  split_and!; [done|done|by apply told_srep|]. exists [k]. cbn [obj told_]. rewrite Ht. split; [done|]. intros. by apply other_insert.
Qed.

(** After values were removed: the key is reported or, with its last value, erased. *)
Lemma wp_list_settle {A} s v k id vs o s' l b changed (a : A) E :
  held s v k id vs o -> calm lim b -> held s' (<[k := (Elements l, o)]> v) k id l o -> beside s s' -> (changed = false -> l = vs) ->
  wp (none ← list_empty id; when (changed && negb none) (signal k);; erase_if_empty k id;; mret a) (ends_well s v a (set_list k l v)) E (World b s').
Proof.
  intros Hh Hb Hh' Hbe Hc. pose proof Hbe as (_ & _ & Ht). pose proof Hh' as (Hs' & Hf & Hk). destruct (held_ttl _ _ _ _ _ _ Hh) as [Ho _]. apply wp_bind. eapply wp_list_empty; [done|]. unfold erase_if_empty, set_list. case_bool_decide as El.
  - rewrite andb_false_r. apply wp_bind, wp_ret. apply wp_bind, wp_bind. eapply wp_list_empty; [done|]. rewrite bool_decide_eq_true_2 by done. cbn [negb].
    destruct (erase_listed _ _ k Hs') as (s2 & E2 & Hs2 & Ht2); [by eexists|]. apply wp_bind. eapply wp_store_call; [exact E2|]. apply wp_ret, wp_ret. rewrite delete_insert_eq in Hs2.
    split_and!; [done..|]. exists [k]. cbn [obj]. rewrite Ht2, Ht. split; [done|]. intros. by apply other_delete.
  - rewrite Ho, andb_true_r. apply wp_bind. destruct changed; cbn [when].
    + apply wp_signal, wp_bind, wp_bind. eapply (wp_list_empty _ _ k _ l o); [split_and!; [by apply told_srep|done|done]|]. rewrite bool_decide_eq_false_2 by done. cbn [negb]. apply wp_ret, wp_ret.
      split_and!; [done|done|by apply told_srep|]. exists [k]. cbn [obj told_]. rewrite Ht. split; [done|]. intros. by apply other_insert.
    + apply wp_ret, wp_bind, wp_bind. eapply wp_list_empty; [done|]. rewrite bool_decide_eq_false_2 by done. cbn [negb]. apply wp_ret, wp_ret. rewrite (Hc eq_refl) in *. destruct Hh as (_ & _ & Hkv). rewrite (insert_id _ _ _ Hkv) in *.
      split_and!; [done..|]. exists []. cbn [obj]. rewrite app_nil_r. done.
Qed.

Lemma grants_pop front k v :
  let vs := default [] (elements v k) in
  grants (pop front k) v (popped front 1 vs !! 0%nat) (if elements v k then set_list k (rest_of front 1 vs) v else v) (keeps_list v k (fun l => exists vs, elements v k = Some vs /\ (l = vs \/ l = rest_of front 1 vs))).
Proof.
  intros vs0 b s Hb Hs. unfold pop. apply wp_bind. eapply wp_find_list; [done| |].
  - unfold vs0. intros ->. apply wp_ret. cbn [default from_option]. replace (popped front 1 [] !! 0%nat) with (@None bytes) by (by destruct front). by apply ends_same.
  - intros id vs o Hh. destruct (held_ttl _ _ _ _ _ _ Hh) as [_ Hv]. unfold vs0. rewrite Hv. change (default [] (Some vs)) with vs. apply wp_bind. eapply wp_on_list; [done|done|intros; by apply law_pop_one| |].
    + intros a b' s' l Hb' Hh' Hbe [-> ->]. eapply wp_list_settle; [done..|]. intros Hc. destruct vs as [|x vs]; [by destruct front|]. exfalso.
      destruct front; [done|]. unfold popped in Hc. destruct (exists_last (l := x :: vs)) as (l & y & El); [done|]. rewrite El, length_app in Hc. cbn [length] in Hc. rewrite Nat.add_sub, drop_app_length in Hc. done.
    + intros Hlim e b' s' l He Hb' Hh' Hbe Hl. eapply short_list; [done..|]. eauto.
Qed.

Lemma popped_length front k vs : (k <= length vs)%nat -> length (popped front k vs) = k.
Proof. intros Hk. destruct front; cbn [popped]; [rewrite length_take; lia|]. rewrite length_rev, length_drop. lia. Qed.

Lemma rest_of_none front vs : rest_of front 0 vs = vs.
Proof. destruct front; cbn [rest_of]; [done|]. by rewrite Nat.sub_0_r, take_ge. Qed.

Lemma grants_pop_count front k count v : 0 <= count ->
  let vs := default [] (elements v k) in
  let n := Nat.min (Z.to_nat count) (length vs) in
  grants (pop_count front k count) v (popped front n vs) (if elements v k then if count =? 0 then v else set_list k (rest_of front n vs) v else v) (keeps_list v k (fun l => exists vs, elements v k = Some vs /\ (l = vs \/ l = rest_of front (Nat.min (Z.to_nat count) (length vs)) vs))).
Proof.
  intros Hc vs0 n b s Hb Hs. unfold pop_count. apply wp_bind. eapply wp_find_list; [done| |].
  - unfold n, vs0. intros ->. apply wp_ret. cbn [default from_option length]. rewrite Nat.min_0_r. replace (popped front 0 []) with (@nil bytes) by (by destruct front). by apply ends_same.
  - intros id vs o Hh. destruct (held_ttl _ _ _ _ _ _ Hh) as [_ Hv]. subst n. unfold vs0. rewrite Hv. change (default [] (Some vs)) with vs. set (n := Nat.min _ _). assert (Hn : length (popped front n vs) = n) by (apply popped_length; unfold n; lia). destruct (Z.eqb_spec count 0) as [->|H0].
    + apply wp_ret. change n with 0%nat in *. apply nil_length_inv in Hn. rewrite Hn. by apply ends_same.
    + apply wp_bind. eapply wp_on_list; [done|done|intros; by apply law_pop| |].
      * intros a b' s' l Hb' Hh' Hbe [-> ->]. eapply wp_list_settle; [done..|]. intros Hch. fold n in Hch |- *. assert (n = 0%nat) as -> by lia. apply rest_of_none.
      * intros Hlim e b' s' l He Hb' Hh' Hbe Hl. eapply short_list; [done..|]. eauto.
Qed.

(** *** Pushing *)

Definition push_keeps (front : bool) (k : bytes) (values : list bytes) (v v' : VMap) : Prop :=
  v' = v \/ exists l, push_kept front values (default [] (elements v k)) l /\ (v !! k = None -> l <> []) /\ v' = <[k := (Elements l, v_ttl v k)]> v.

Lemma pushed_nonempty front values vs : values <> [] -> pushed front values vs <> [].
Proof. intros Hv Hp. apply Hv. unfold pushed in Hp. destruct front; apply app_nil in Hp as [H1 H2]; [|done]. by rewrite <- (rev_involutive values), H1. Qed.

Lemma wp_push_at front k values created s s0 v v0 id vs o b :
  held s0 v0 k id vs o -> calm lim b -> told_ s0 = told_ s -> (forall x, <[k := x]> v0 = <[k := x]> v) -> delete k v0 = delete k v -> v_ttl v k = o -> default [] (elements v k) = vs ->
  (created = true -> S id = ks_size (keyspace_ s0) /\ o = None /\ v !! k = None) -> (v !! k = None -> created = true) ->
  values <> [] -> Forall ok values -> Z.of_nat (length vs) + Z.of_nat (length values) < 2 ^ 32 ->
  wp (push_at front k values created id) (ends_well s v (Z.of_nat (length (pushed front values vs))) (set_list k (pushed front values vs) v)) (ends_short s (push_keeps front k values v)) (World b s0).
Proof.
  intros Hh Hb Ht Hins Hdel Ho Hvs Hcr Hcr' Hne Hok Hlen. unfold push_at. apply wp_bind, wp_catch. eapply wp_on_list; [done|done|intros; by apply law_push| |].
  - intros a b' s' l Hb' Hh' (_ & _ & Ht') [-> ->]. rewrite Hins in Hh'. destruct Hh' as (Hs' & _). pose proof (pushed_nonempty front values vs Hne) as Hp. apply wp_bind, wp_signal, wp_ret.
    unfold set_list. rewrite bool_decide_eq_false_2, Ho by done. split_and!; [done|done|by apply told_srep|]. exists [k]. cbn [obj told_]. rewrite Ht', Ht. split; [done|]. intros. by apply other_insert.
  - intros Hlim e b' s' l He Hb' Hh' (Hi & Hty & Ht') Hl. pose proof Hh' as (Hs' & _). destruct created.
    + destruct (Hcr eq_refl) as (Hlast & -> & Hn). apply wp_bind. eapply wp_list_empty; [done|]. case_bool_decide as El; cbn [when].
      * destruct (rollback_created _ _ _ _ _ Hh') as (s2 & E2 & Hs2 & Ht2); [unfold ks_size in *; by rewrite Hty|]. apply wp_bind. eapply wp_store_call; [exact E2|]. apply wp_throw. split_and!; [done|done|done|cbn [obj]; congruence|].
        exists v. split; [|by left]. rewrite delete_insert_eq, Hdel, delete_id in Hs2 by done. done.
      * apply wp_bind, wp_ret, wp_throw. split_and!; [done|done|done|cbn [obj]; congruence|]. eexists. split; [exact Hs'|]. right. exists l. rewrite Hvs. split_and!; [done|done|]. by rewrite Ho.
    + apply wp_bind, wp_ret, wp_bind, wp_ret, wp_throw. split_and!; [done|done|done|cbn [obj]; congruence|]. eexists. split; [exact Hs'|]. right. exists l. rewrite Hvs. split_and!; [done|by intros ?%Hcr'|]. by rewrite Ho.
Qed.

Lemma grants_push front k values xx v :
  (v !! k = None \/ is_Some (elements v k)) -> addable v k -> values <> [] -> Forall ok values -> Z.of_nat (length (default [] (elements v k))) + Z.of_nat (length values) < 2 ^ 32 ->
  let l := pushed front values (default [] (elements v k)) in
  let absent := xx && bool_decide (elements v k = None) in
  grants (push sizeof_list front k values xx) v (if absent then 0 else Z.of_nat (length l)) (if absent then v else set_list k l v) (push_keeps front k values v).
Proof.
  intros Hty Ha Hne Hok Hlen l absent b s Hb Hs. unfold push. apply wp_bind. eapply wp_find_list; [done| |].
  - intros He. apply wp_bind, wp_obj_get. cbn [obj]. unfold absent, l. rewrite He, bool_decide_eq_true_2, andb_true_r by done. destruct xx; [apply wp_ret; by apply ends_same|].
    assert (Hn : v !! k = None) by (destruct Hty as [|[? ?]]; congruence). rewrite He in Hlen. apply wp_bind. eapply wp_get_or_create; [done..| | |].
    + intros id vs o (_ & _ & Hk). congruence.
    + intros id b' s' _ Hb' Hh Ht Hlast _. replace (negb _) with true by (unfold contains; apply (srep_none _ _ _ Hs) in Hn; by rewrite Hn).
      eapply wp_push_at; [done|done|done|intros; by rewrite insert_insert_eq|by rewrite delete_insert_eq|unfold v_ttl; by rewrite Hn|by rewrite He|done|done|done|done|done].
    + intros Hlim e b' Hbad Hb'. split_and!; [done..|]. exists v. split; [done|by left].
  - intros id vs o Hh. destruct (held_ttl _ _ _ _ _ _ Hh) as [Ho Hv]. apply wp_bind, wp_obj_get. unfold absent, l. rewrite Hv in *. rewrite bool_decide_eq_false_2, andb_false_r by done. change (default [] (Some vs)) with vs in *.
    eapply wp_push_at; [done|done|done|done|done|done|by rewrite Hv|done| |done|done|done]. intros Hn. destruct Hh as (_ & _ & Hk). congruence.
Qed.

(** *** Reading *)

Lemma wp_owned {B} s v k id vs o b (f : R -> M (world St) B) (Q : B -> world St -> Prop) E :
  held s v k id vs o -> (forall l, repr l vs -> wp (f l) Q E (World b s)) -> wp (l ← obj_get (list_of id); l ← need l; f l) Q E (World b s).
Proof.
  intros (Hs & Hf & Hk) HQ. destruct (srep_found _ _ _ _ _ Hs Hk) as (id' & t & Hf' & _ & _ & _ & l & Hl & Hr). assert (id' = id) as -> by congruence.
  apply wp_bind, wp_obj_get. cbn [obj]. apply wp_bind. eapply wp_need; [exact Hl|]. by apply HQ.
Qed.

Lemma grants_llen k v : grants (llen k) v (Z.of_nat (length (default [] (elements v k)))) v (fun _ => False).
Proof.
  intros b s Hb Hs. unfold llen. apply wp_bind. eapply wp_find_list; [done| |].
  - intros ->. apply wp_ret. by apply ends_same.
  - intros id vs o Hh. destruct (held_ttl _ _ _ _ _ _ Hh) as [_ ->]. eapply wp_list_len; [done|]. by apply ends_same.
Qed.

(** The position an index means: from the end when it is negative. *)
Definition position (i : Z) (vs : list bytes) : Z := if i <? 0 then Z.of_nat (length vs) + i else i.
Definition value_at (i : Z) (vs : list bytes) : option bytes := if position i vs <? 0 then None else vs !! Z.to_nat (position i vs).
(** The values from one index to another, both included. *)
Definition slice (i j : Z) (vs : list bytes) : list bytes :=
  let first := Z.max 0 (position i vs) in take (Z.to_nat (position j vs - first + 1)) (drop (Z.to_nat first) vs).

Lemma normalize_position i vs : normalize_index i (Z.of_nat (length vs)) = position i vs.
Proof. unfold normalize_index, position. destruct (i <? 0); lia. Qed.

Lemma normalize_slice i j vs :
  match normalize_list_range i j (Z.of_nat (length vs)) with
  | None => slice i j vs = []
  | Some (first, n) => 0 <= first /\ 0 <= n /\ slice i j vs = take (Z.to_nat n) (drop (Z.to_nat first) vs) /\ slice i j vs <> [] /\ first + n <= Z.of_nat (length vs)
  end.
Proof.
  unfold normalize_list_range, slice. destruct (Z.eqb_spec (Z.of_nat (length vs)) 0) as [E|E]; [destruct vs; [|done]; by rewrite drop_nil, take_nil|].
  replace (if i <? 0 then i + Z.of_nat (length vs) else i) with (position i vs) by (unfold position; destruct (i <? 0); lia). replace (if j <? 0 then j + Z.of_nat (length vs) else j) with (position j vs) by (unfold position; destruct (j <? 0); lia).
  destruct (Z.ltb_spec (position j vs) 0) as [Hj|Hj]; [replace (Z.to_nat _) with 0%nat by lia; done|]. destruct (Z.leb_spec (Z.of_nat (length vs)) (Z.max 0 (position i vs))) as [Hi|Hi]; cbn [orb]; [rewrite (drop_ge vs) by lia; by rewrite take_nil|].
  destruct (Z.ltb_spec (Z.min (Z.of_nat (length vs) - 1) (position j vs)) (Z.max 0 (position i vs))) as [Hm|Hm]; [replace (Z.to_nat _) with 0%nat by lia; done|].
  assert (Hd : length (drop (Z.to_nat (Z.max 0 (position i vs))) vs) = (length vs - Z.to_nat (Z.max 0 (position i vs)))%nat) by (by rewrite length_drop).
  split_and!; [lia|lia| | |lia].
  - destruct (Z.le_ge_cases (position j vs) (Z.of_nat (length vs) - 1)); [by rewrite Z.min_r|]. rewrite !take_ge; [done| |]; rewrite Hd; lia.
  - intros Hn%(f_equal length). rewrite length_take, Hd in Hn. cbn in Hn. lia.
Qed.

Lemma wp_lindex k i v s b (Q : option EncodedStringView -> world St -> Prop) E :
  srep s v -> (forall found, match elements v k ≫= value_at i with None => found = None | Some t => exists w, found = Some w /\ reads_as w t /\ headed_view w end -> Q found (World b s)) ->
  wp (lindex k i) Q E (World b s).
Proof.
  intros Hs HQ. unfold lindex. apply wp_bind. eapply wp_find_list; [done| |].
  - intros He. apply wp_ret, HQ. by rewrite He.
  - intros id vs o Hh. destruct (held_ttl _ _ _ _ _ _ Hh) as [_ Hv]. rewrite Hv in HQ. cbn [mbind option_bind] in HQ. apply wp_bind. eapply wp_list_len; [done|]. rewrite normalize_position. unfold value_at in HQ. destruct (Z.ltb_spec (position i vs) 0) as [Hp|Hp]; cbn [orb].
    { apply wp_ret. by apply HQ. }
    destruct (Z.leb_spec (Z.of_nat (length vs)) (position i vs)) as [Hl|Hl].
    { apply wp_ret, HQ. by rewrite lookup_ge_None_2 by lia. }
    destruct (lookup_lt_is_Some_2 vs (Z.to_nat (position i vs))) as [x Hx]; [lia|]. rewrite Hx in HQ. eapply wp_owned; [done|]. intros l Hr. destruct (law_at l vs (position i vs) x Hr Hp Hx) as (w & Ew & Hw).
    apply wp_bind. eapply wp_lift; [exact Ew|]. apply wp_ret, HQ. exists w. split_and!; [done|done|]. by eapply (proj1 law_headed).
Qed.

Lemma wp_lrange k i j v s b (Q : list EncodedStringView -> world St -> Prop) E :
  srep s v -> (forall found, Forall2 reads_as found (default [] (slice i j <$> elements v k)) -> Forall headed_view found -> Q found (World b s)) -> wp (lrange k i j) Q E (World b s).
Proof.
  intros Hs HQ. unfold lrange. apply wp_bind. eapply wp_find_list; [done| |].
  - intros He. apply wp_ret, HQ; [rewrite He|]; constructor.
  - intros id vs o Hh. destruct (held_ttl _ _ _ _ _ _ Hh) as [_ Hv]. rewrite Hv in HQ. change (default [] (slice i j <$> Some vs)) with (slice i j vs) in HQ. apply wp_bind. eapply wp_list_len; [done|]. pose proof (normalize_slice i j vs) as Hn. destruct (normalize_list_range i j _) as [[first n]|].
    + destruct Hn as (Hf & H0 & Hsl & _ & Hle). eapply wp_owned; [done|]. intros l Hr. pose proof (law_small l vs Hr) as Hsmall. destruct (law_for_range l vs first n Hr Hf H0 ltac:(lia)) as (found & Ev & HF). eapply wp_lift; [exact Ev|]. apply HQ; [by rewrite Hsl|by eapply (proj2 law_headed)].
    + apply wp_ret, HQ; [rewrite Hn|]; constructor.
Qed.

(** What is read, as texts. *)
Definition lindex_text (k : bytes) (i : Z) : M (world St) (option bytes) :=
  v ← lindex k i;
  match v with Some v => t ← lift (to_string v); mret (Some t) | None => mret None end.
Definition lrange_texts (k : bytes) (i j : Z) : M (world St) (list bytes) := views ← lrange k i j; lift (mapM to_string views).

Lemma grants_lindex k i v : grants (lindex_text k i) v (elements v k ≫= value_at i) v (fun _ => False).
Proof.
  intros b s Hb Hs. unfold lindex_text. apply wp_bind. eapply wp_lindex; [done|]. intros found Hf. destruct (elements v k ≫= value_at i) as [t|].
  - destruct Hf as (w & -> & (_ & _ & Hw) & _). apply wp_bind. eapply wp_lift; [exact Hw|]. apply wp_ret. by apply ends_same.
  - subst found. apply wp_ret. by apply ends_same.
Qed.

Lemma grants_lrange k i j v : grants (lrange_texts k i j) v (default [] (slice i j <$> elements v k)) v (fun _ => False).
Proof.
  intros b s Hb Hs. unfold lrange_texts. apply wp_bind. eapply wp_lrange; [done|]. intros found Hf _. eapply wp_lift; [by apply mapM_strings|]. by apply ends_same.
Qed.

(** *** Changing values *)

Definition a_lset (k : bytes) (i : Z) (value : bytes) (v : VMap) : ListSetResult * VMap :=
  match elements v k with
  | None => (MissingKey, v)
  | Some vs => if value_at i vs then (Stored, set_list k (<[Z.to_nat (position i vs) := value]> vs) v) else (OutOfRange, v)
  end.

Lemma grants_lset k i value v : ok value ->
  grants (lset k i value) v (a_lset k i value v).1 (a_lset k i value v).2 (keeps_list v k (fun l => elements v k = Some l \/ l = [])).
Proof.
  intros Hok b s Hb Hs. unfold lset, a_lset. apply wp_bind. eapply wp_find_list; [done| |].
  - intros ->. apply wp_ret. by apply ends_same.
  - intros id vs o Hh. destruct (held_ttl _ _ _ _ _ _ Hh) as [Ho Hv]. rewrite Hv. apply wp_bind. eapply wp_list_len; [done|]. rewrite normalize_position. unfold value_at. destruct (Z.ltb_spec (position i vs) 0) as [Hp|Hp]; cbn [orb].
    { apply wp_ret. by apply ends_same. }
    destruct (Z.leb_spec (Z.of_nat (length vs)) (position i vs)) as [Hl|Hl].
    { apply wp_ret. rewrite lookup_ge_None_2 by lia. by apply ends_same. }
    destruct (lookup_lt_is_Some_2 vs (Z.to_nat (position i vs))) as [x Hx]; [lia|]. rewrite Hx. cbn [fst snd]. apply wp_bind. eapply wp_on_list; [done|done|intros; by apply law_set| |].
    + intros [] b' s' l Hb' Hh' Hbe ->. eapply wp_changed; [done..|]. intros Hn%(f_equal length). rewrite length_insert in Hn. cbn in Hn. lia.
    + intros Hlim e b' s' l He Hb' Hh' Hbe Hl'. eapply short_list; [done..|]. destruct Hl' as [->| ->]; [by left|by right].
Qed.

Lemma grants_ltrim k i j v : 
  grants (ltrim k i j) v tt (match elements v k with Some vs => set_list k (slice i j vs) v | None => v end) (keeps_list v k (fun l => exists vs, elements v k = Some vs /\ part_of l vs)).
Proof.
  intros b s Hb Hs. unfold ltrim. apply wp_bind. eapply wp_find_list; [done| |].
  - intros ->. apply wp_ret. by apply ends_same.
  - intros id vs o Hh. destruct (held_ttl _ _ _ _ _ _ Hh) as [Ho Hv]. rewrite Hv. change (default [] (Some vs)) with vs. apply wp_bind. eapply wp_list_len; [done|]. pose proof (normalize_slice i j vs) as Hn. destruct (normalize_list_range i j _) as [[first n]|].
    + destruct Hn as (Hf & H0 & Hsl & Hne & _). apply wp_bind. eapply wp_on_list; [done|done|intros; by apply law_trim| |].
      * intros [] b' s' l Hb' Hh' Hbe ->. rewrite <- Hsl in Hh'. pose proof (wp_changed s v k id vs o s' (slice i j vs) b' tt (ends_short s (keeps_list v k (fun l => exists vs0, Some vs = Some vs0 /\ part_of l vs0))) Hh Hb' Hh' Hbe Hne) as Hw. by apply wp_bind_inv in Hw.
      * intros Hlim e b' s' l He Hb' Hh' Hbe Hl'. eapply short_list; [done..|]. destruct_and?. naive_solver.
    + destruct Hh as (_ & Hf & Hk). destruct (erase_listed _ _ k Hs) as (s2 & E2 & Hs2 & Ht2); [by eexists|]. apply wp_bind. eapply wp_store_call; [exact E2|]. apply wp_ret. unfold set_list. rewrite Hn, bool_decide_eq_true_2 by done.
      split_and!; [done..|]. exists [k]. split; [done|]. intros. by apply other_delete.
Qed.

(** Nothing is removed only when nothing matches. *)
Lemma lrem_head_whole n value l : (length (lrem_head n value l) <= length l)%nat /\ (length (lrem_head n value l) = length l -> lrem_head n value l = l).
Proof.
  revert n. induction l as [|x l IH]; intros n; cbn [lrem_head]; [done|]. case_bool_decide as Hx; [destruct n as [|n]; [done|]|]; cbn [length].
  - destruct (IH n) as [Hl _]. split; [lia|]. intros. lia.
  - destruct (IH n) as [Hl He]. split; [lia|]. intros Hlen. f_equal. apply He. lia.
Qed.

Lemma lrem_whole count value l : Z.of_nat (length l) - Z.of_nat (length (ListValue.lrem count value l)) = 0 -> ListValue.lrem count value l = l.
Proof.
  unfold ListValue.lrem. intros Hl. destruct (count =? 0); [|destruct (0 <? count)]; unfold lrem_tail in *; rewrite ?length_rev in Hl;
    match goal with |- context [lrem_head ?n ?x ?l'] => destruct (lrem_head_whole n x l') as [Hle He] end; rewrite ?length_rev in *; rewrite He by lia; by rewrite ?rev_involutive.
Qed.

Lemma grants_lrem k count value v : - 2 ^ 63 <= count < 2 ^ 63 ->
  let vs := default [] (elements v k) in let l := ListValue.lrem count value vs in
  grants (lrem k count value) v (Z.of_nat (length vs) - Z.of_nat (length l)) (if elements v k then set_list k l v else v) (keeps_list v k (fun l => exists vs n, elements v k = Some vs /\ (l = lrem_head n value vs \/ l = lrem_tail n value vs))).
Proof.
  intros Hc vs0 l0 b s Hb Hs. unfold lrem. apply wp_bind. eapply wp_find_list; [done| |].
  - unfold l0, vs0. intros ->. apply wp_ret. change (default [] None) with (@nil bytes). assert (Hz : ListValue.lrem count value [] = []) by (unfold ListValue.lrem; destruct (count =? 0); [|destruct (0 <? count)]; done).
    rewrite Hz. by apply ends_same.
  - intros id vs o Hh. destruct (held_ttl _ _ _ _ _ _ Hh) as [Ho Hv]. unfold l0, vs0. rewrite Hv. change (default [] (Some vs)) with vs. apply wp_bind. eapply wp_on_list; [done|done|intros; by apply law_remove| |].
    + intros a b' s' l Hb' Hh' Hbe [-> ->]. eapply wp_list_settle; [done..|]. intros Hz%negb_false_iff%Z.eqb_eq. by apply lrem_whole.
    + intros Hlim e b' s' l He Hb' Hh' Hbe Hl'. eapply short_list; [done..|]. destruct_and?. naive_solver.
Qed.

Definition a_linsert (k : bytes) (before : bool) (pivot value : bytes) (v : VMap) : Z * VMap :=
  match elements v k with
  | None => (0, v)
  | Some vs =>
      match list_find (fun s => s = pivot) vs with
      | Some (p, _) => (Z.of_nat (length vs) + 1, set_list k (insert_at_place (if before then p else S p) [value] vs) v)
      | None => (-1, v)
      end
  end.

Lemma grants_linsert k before pivot value v : ok value -> Z.of_nat (length (default [] (elements v k))) + 1 < 2 ^ 32 ->
  grants (linsert k before pivot value) v (a_linsert k before pivot value v).1 (a_linsert k before pivot value v).2 (keeps_list v k (fun l => elements v k = Some l \/ l = [])).
Proof.
  intros Hok Hlen b s Hb Hs. unfold linsert, a_linsert. apply wp_bind. eapply wp_find_list; [done| |].
  - intros ->. apply wp_ret. by apply ends_same.
  - intros id vs o Hh. destruct (held_ttl _ _ _ _ _ _ Hh) as [Ho Hv]. rewrite Hv in *. change (default [] (Some vs)) with vs in Hlen. eapply wp_owned; [done|]. intros l Hr. apply wp_bind. eapply wp_lift; [by apply law_find_first|].
    destruct (list_find _ vs) as [[p x]|] eqn:Ep; cbn [fmap option_fmap option_map fst snd]; [|apply wp_ret; by apply ends_same]. apply list_find_Some in Ep as (Hp & _). apply lookup_lt_Some in Hp.
    set (at_ := if before then Z.of_nat p else Z.of_nat p + 1). assert (Hat : Z.to_nat at_ = if before then p else S p) by (unfold at_; destruct before; lia).
    apply wp_bind. eapply wp_on_list; [done|done|intros; apply law_insert; [done..|unfold at_; destruct before; lia|done|done]| |].
    + intros [] b' s' l' Hb' Hh' Hbe ->. rewrite Hat in Hh'. set (l1 := insert_at_place _ _ _) in *. assert (Hl1 : length l1 = S (length vs)) by (unfold l1, insert_at_place; rewrite !length_app, length_take, length_drop; cbn; destruct before; lia).
      assert (Hne : l1 <> []) by (intros E; by rewrite E in Hl1). apply wp_bind, wp_signal. pose proof Hh' as (Hs' & Hf' & Hk'). pose proof Hbe as (_ & _ & Ht).
      eapply (wp_list_len _ _ k _ l1 o); [split_and!; [by apply told_srep|done|done]|]. unfold set_list. rewrite bool_decide_eq_false_2, Ho by done.
      split_and!; [lia|done|by apply told_srep|]. exists [k]. cbn [obj told_]. rewrite Ht. split; [done|]. intros. by apply other_insert.
    + intros Hlim e b' s' l' He Hb' Hh' Hbe Hl'. eapply short_list; [done..|]. destruct Hl' as [->| ->]; [by left|by right].
Qed.

(** *** Moving a value *)

Definition a_lmove (src dst : bytes) (sf df : bool) (v : VMap) : option bytes * VMap :=
  match elements v src with
  | Some vs =>
      match popped sf 1 vs with
      | value :: _ =>
          (Some value,
           if bool_decide (src = dst) then set_list src (pushed df [value] (rest_of sf 1 vs)) v
           else set_list src (rest_of sf 1 vs) (set_list dst (pushed df [value] (default [] (elements v dst))) v))
      | [] => (None, v)
      end
  | None => (None, v)
  end.

(** The source keeps its values, or lacks the one that was taken, or has only that one, or none; the destination is as
    it was, or empty. *)
Definition move_keeps (src dst : bytes) (sf : bool) (v v' : VMap) : Prop :=
  exists vs l, elements v src = Some vs /\ (l = vs \/ l = rest_of sf 1 vs \/ l = popped sf 1 vs \/ l = []) /\
    (v' = <[src := (Elements l, v_ttl v src)]> v \/
     src <> dst /\ exists d, (elements v dst = Some d \/ d = []) /\ v' = <[src := (Elements l, v_ttl v src)]> (<[dst := (Elements d, v_ttl v dst)]> v)).

Lemma pop_split sf vs : vs <> [] -> exists value, popped sf 1 vs = [value] /\ pushed sf [value] (rest_of sf 1 vs) = vs /\ value ∈ vs /\ S (length (rest_of sf 1 vs)) = length vs.
Proof.
  intros Hne. destruct sf; cbn [popped rest_of pushed].
  - destruct vs as [|x vs]; [done|]. exists x. split_and!; [done|done|by left|done].
  - destruct (exists_last Hne) as (l & x & ->). exists x. rewrite length_app, Nat.add_sub, drop_app_length, take_app_length. split_and!; [done|done|rewrite elem_of_app; right; by left|cbn; lia].
Qed.

(** Putting the value back after a failure. *)
Lemma wp_restore src dst sf s s2 v v2 id vs l o b e value :
  held s2 v2 src id l o -> calm lim b -> lim -> is_bad_alloc e = true -> told_ s2 = told_ s -> elements v src = Some vs -> popped sf 1 vs = [value] ->
  (l = rest_of sf 1 vs \/ l = []) -> (forall l', (l' = vs \/ l' = rest_of sf 1 vs \/ l' = popped sf 1 vs \/ l' = []) -> move_keeps src dst sf v (<[src := (Elements l', o)]> v2)) ->
  Forall ok vs -> Z.of_nat (length vs) < 2 ^ 32 ->
  wp (push_back_to id sf value;; throw (A := unit) e) (fun _ _ => False) (ends_short s (move_keeps src dst sf v)) (World b s2).
Proof.
  intros Hh Hb Hlim He Ht Hv Hp Hl Hk Hok Hlen. destruct (pop_split sf vs) as (x & Hp' & Hback & Hin & Hr); [intros ->; by destruct sf|]. assert (x = value) as -> by congruence. unfold push_back_to. apply wp_bind, wp_bind.
  assert (Hll : Z.of_nat (length l) + 1 < 2 ^ 32) by (destruct Hl as [->| ->]; cbn; lia).
  eapply wp_on_list; [done|done|intros; apply law_push_one; [done..|by eapply Forall_forall|done]| |].
  - intros n b' s' l' Hb' (Hs' & _) (_ & _ & Ht') ->. apply wp_ret, wp_throw. split_and!; [done|done|done|cbn [obj]; congruence|]. eexists. split; [exact Hs'|]. apply Hk. rewrite Hp. destruct Hl as [->| ->]; [left; by rewrite Hback|right; right; left; by destruct sf].
  - intros _ e' b' s' l' He' Hb' (Hs' & _) (_ & _ & Ht') Hl'. split_and!; [done|done|done|cbn [obj]; congruence|]. eexists. split; [exact Hs'|]. apply Hk. destruct Hl' as [->| ->]; [|tauto]. destruct Hl; tauto.
Qed.

(** The push into the destination, which may be created for it. *)
Lemma wp_into dst df value s1 v1 src id rest o b :
  held s1 v1 src id rest o -> calm lim b -> src <> dst -> (v1 !! dst = None \/ is_Some (elements v1 dst)) -> addable v1 dst -> ok value -> Z.of_nat (length (default [] (elements v1 dst))) + 1 < 2 ^ 32 ->
  wp (destination_id ← get_or_create_list sizeof_list dst; push_back_to destination_id df value)
     (fun _ w => calm lim (mem w) /\ told_ (obj w) = told_ s1 /\ held (obj w) (<[dst := (Elements (pushed df [value] (default [] (elements v1 dst))), v_ttl v1 dst)]> v1) src id rest o)
     (fun e w => lim /\ is_bad_alloc e = true /\ calm lim (mem w) /\ told_ (obj w) = told_ s1 /\
        (held (obj w) v1 src id rest o \/ exists d, (elements v1 dst = Some d \/ d = []) /\ held (obj w) (<[dst := (Elements d, v_ttl v1 dst)]> v1) src id rest o)) (World b s1).
Proof.
  intros Hh Hb Hne Hty Ha Hok Hlen. pose proof Hh as (Hs1 & Hf & Hk). apply wp_bind. eapply wp_get_or_create; [done..| | |].
  - intros did dvs od Hd. destruct (held_ttl _ _ _ _ _ _ Hd) as [Hod Hdv]. rewrite Hdv in *. rewrite Hod. change (default [] (Some dvs)) with dvs in *. unfold push_back_to. apply wp_bind. eapply wp_on_list; [done|done|intros; by apply law_push_one| |].
    + intros n b' s' l Hb' (Hs' & _) (Hi & _ & Ht) ->. apply wp_ret. split_and!; [done|done|]. split_and!; [done|unfold find_id in *; cbn [obj]; by rewrite Hi|by rewrite lookup_insert_ne].
    + intros Hlim e b' s' l He Hb' (Hs' & _) (Hi & _ & Ht) Hl. split_and!; [done..|]. right. exists l. split; [destruct Hl as [->| ->]; [by left|by right]|]. split_and!; [done|unfold find_id in *; cbn [obj]; by rewrite Hi|by rewrite lookup_insert_ne].
  - intros did b' s' Hn Hb' Hd Ht _ Hids. assert (v_ttl v1 dst = None /\ elements v1 dst = None) as [-> ->] by (unfold v_ttl, elements; by rewrite Hn). change (default [] None) with (@nil bytes). unfold push_back_to. apply wp_bind. eapply wp_on_list; [done|done|intros; by apply law_push_one| |].
    + intros n b2 s2 l Hb2 (Hs2 & _) (Hi & _ & Ht2) ->. rewrite insert_insert_eq in Hs2. apply wp_ret. split_and!; [done|cbn [obj]; congruence|]. split_and!; [done|unfold find_id in *; cbn [obj]; rewrite Hi; by apply Hids|by rewrite lookup_insert_ne].
    + intros Hlim e b2 s2 l He Hb2 (Hs2 & _) (Hi & _ & Ht2) Hl. rewrite insert_insert_eq in Hs2. split_and!; [done|done|done|cbn [obj]; congruence|]. right. exists l. split; [right; by destruct Hl as [->| ->]|]. split_and!; [done|unfold find_id in *; cbn [obj]; rewrite Hi; by apply Hids|by rewrite lookup_insert_ne].
  - intros Hlim e b' He Hb'. split_and!; [done..|]. by left.
Qed.

(** The destination can take a value, if there is one to move. *)
Definition movable (src dst : bytes) (v : VMap) : Prop :=
  default [] (elements v src) <> [] -> src <> dst -> (v !! dst = None \/ is_Some (elements v dst)) /\ addable v dst /\ Z.of_nat (length (default [] (elements v dst))) + 1 < 2 ^ 32.

Lemma wp_move_within src sf df value s s1 v id vs o b :
  held s v src id vs o -> popped sf 1 vs = [value] -> calm lim b -> held s1 (<[src := (Elements (rest_of sf 1 vs), o)]> v) src id (rest_of sf 1 vs) o -> beside s s1 -> Forall ok vs -> Z.of_nat (length vs) < 2 ^ 32 ->
  wp (try_catch (push_back_to id df value) (fun e => push_back_to id sf value;; throw e);; signal src;; mret (Some value))
    (ends_well s v (Some value) (set_list src (pushed df [value] (rest_of sf 1 vs)) v)) (ends_short s (move_keeps src src sf v)) (World b s1).
Proof.
  intros Hh Hp Hb Hh1 (_ & _ & Ht) Hok Hlen. destruct (pop_split sf vs) as (x & Hp' & _ & Hin & Hr); [intros ->; by destruct sf|]. assert (x = value) as -> by congruence. destruct (held_ttl _ _ _ _ _ _ Hh) as [Ho Hv].
  apply wp_bind, wp_catch. unfold push_back_to at 1. apply wp_bind. eapply wp_on_list; [done|done|intros; apply law_push_one; [done..|by eapply Forall_forall|lia]| |].
  - intros n b' s' l Hb' (Hs' & _) (_ & _ & Ht') ->. rewrite insert_insert_eq in Hs'. apply wp_ret, wp_bind, wp_signal, wp_ret. unfold set_list. rewrite bool_decide_eq_false_2, Ho by (by apply pushed_nonempty).
    split_and!; [done|done|by apply told_srep|]. exists [src]. cbn [obj told_]. rewrite Ht', Ht. split; [done|]. intros. by apply other_insert.
  - intros Hlim e b' s' l He Hb' Hh' (_ & _ & Ht') Hl. eapply wp_mono; [eapply (wp_restore src src sf s s' v); [exact Hh'|done|done|done|congruence|exact Hv|done|done| |done|done]|done|done].
    intros l' Hl'. exists vs, l'. rewrite !insert_insert_eq, Ho. tauto.
Qed.

Lemma wp_move_across src dst sf df value s s1 v id vs o b :
  held s v src id vs o -> popped sf 1 vs = [value] -> calm lim b -> held s1 (<[src := (Elements (rest_of sf 1 vs), o)]> v) src id (rest_of sf 1 vs) o -> beside s s1 -> Forall ok vs -> Z.of_nat (length vs) < 2 ^ 32 ->
  src <> dst -> movable src dst v ->
  wp (try_catch (destination_id ← get_or_create_list sizeof_list dst; push_back_to destination_id df value) (fun e => push_back_to id sf value;; throw e);;
      none ← list_empty id;
      (if none : bool then store_call (erase_key src);; mret tt else signal src);;
      signal dst;;
      mret (Some value))
    (ends_well s v (Some value) (set_list src (rest_of sf 1 vs) (set_list dst (pushed df [value] (default [] (elements v dst))) v))) (ends_short s (move_keeps src dst sf v)) (World b s1).
Proof.
  intros Hh Hp Hb Hh1 (_ & _ & Ht) Hok Hlen Hne Hmv. destruct (pop_split sf vs) as (x & Hp' & _ & Hin & Hr); [intros ->; by destruct sf|]. assert (x = value) as -> by congruence. destruct (held_ttl _ _ _ _ _ _ Hh) as [Ho Hv].
  destruct Hmv as (Hty & Ha & Hdl); [rewrite Hv; intros E; change (default [] (Some vs)) with vs in E; subst; by destruct sf|done|]. set (v1 := <[src := (Elements (rest_of sf 1 vs), o)]> v) in *. set (rest := rest_of sf 1 vs) in *.
  assert (Hd1 : v1 !! dst = v !! dst) by (by apply lookup_insert_ne). assert (He1 : elements v1 dst = elements v dst) by (unfold elements; by rewrite Hd1). assert (Ht1 : v_ttl v1 dst = v_ttl v dst) by (unfold v_ttl; by rewrite Hd1).
  assert (Ha1 : addable v1 dst). { unfold addable. rewrite Hd1. intros Hn. destruct (Ha Hn). split; [done|]. unfold v1. by rewrite map_size_insert_Some by (destruct Hh as (_ & _ & ->); by eexists). }
  apply wp_bind, wp_catch. eapply wp_mono; [eapply (wp_into dst df value s1 v1); [exact Hh1|done|done|by rewrite Hd1, He1|done|by eapply Forall_forall|by rewrite He1]| |]; rewrite He1, Ht1.
  - intros [] [b2 s2] (Hb2 & Ht2 & Hh2). cbn [mem obj] in *. set (dl := pushed df [value] _) in *. pose proof Hh2 as (Hs2 & Hf2 & Hk2). assert (Hdne : dl <> []) by (by apply pushed_nonempty).
    assert (Hset : set_list dst dl v = <[dst := (Elements dl, v_ttl v dst)]> v) by (unfold set_list; by rewrite bool_decide_eq_false_2). assert (Hts : v_ttl (<[dst := (Elements dl, v_ttl v dst)]> v) src = o) by (unfold v_ttl in *; by rewrite lookup_insert_ne).
    rewrite Hset. apply wp_bind. eapply wp_list_empty; [exact Hh2|]. unfold set_list. rewrite Hts. case_bool_decide as Er; apply wp_bind.
    + destruct (erase_listed _ _ src Hs2) as (s3 & E3 & Hs3 & Ht3); [by eexists|]. apply wp_bind. eapply wp_store_call; [exact E3|]. apply wp_ret, wp_bind, wp_signal, wp_ret. unfold v1 in Hs3. rewrite delete_insert_ne, delete_insert_eq, <- delete_insert_ne in Hs3 by done.
      split_and!; [done|done|by apply told_srep|]. exists [src; dst]. cbn [obj told_]. rewrite Ht3, Ht2, Ht, <- app_assoc. split; [done|]. intros k' Hk'. apply not_elem_of_cons in Hk' as [H1 H2]. rewrite lookup_delete_ne by done. by apply other_insert.
    + apply wp_signal, wp_bind, wp_signal, wp_ret. unfold v1 in Hs2. rewrite insert_insert_ne in Hs2 by done.
      split_and!; [done|done|apply told_srep; by apply told_srep|]. exists [src; dst]. cbn [obj told_]. rewrite Ht2, Ht, <- app_assoc. split; [done|]. intros k' Hk'. apply not_elem_of_cons in Hk' as [H1 H2]. rewrite lookup_insert_ne by done. by apply other_insert.
  - intros e [b2 s2] (Hlim & He & Hb2 & Ht2 & Hcase). cbn [mem obj] in *. destruct Hcase as [Hh2|(d & Hd & Hh2)].
    + eapply wp_mono; [eapply (wp_restore src dst sf s s2 v); [exact Hh2|done|done|done|congruence|exact Hv|done|by left| |done|done]|done|done]. intros l' Hl'. exists vs, l'. unfold v1. rewrite insert_insert_eq, Ho. tauto.
    + eapply wp_mono; [eapply (wp_restore src dst sf s s2 v); [exact Hh2|done|done|done|congruence|exact Hv|done|by left| |done|done]|done|done]. intros l' Hl'. exists vs, l'. split_and!; [done|done|]. right. split; [done|]. exists d. split; [done|].
      unfold v1. rewrite (insert_insert_ne v dst src), insert_insert_eq, Ho by done. done.
Qed.

Lemma grants_lmove src dst sf df v : movable src dst v ->
  grants (lmove sizeof_list src dst sf df) v (a_lmove src dst sf df v).1 (a_lmove src dst sf df v).2 (move_keeps src dst sf v).
Proof.
  intros Hmv b s Hb Hs. unfold lmove, a_lmove. apply wp_bind. eapply wp_find_list; [done| |].
  - intros ->. apply wp_ret. by apply ends_same.
  - intros id vs o Hh. destruct (held_ttl _ _ _ _ _ _ Hh) as [Ho Hv]. rewrite Hv. apply wp_bind. eapply wp_list_empty; [done|]. case_bool_decide as E.
    { apply wp_ret. subst vs. destruct sf; cbn; by apply ends_same. }
    destruct (pop_split sf vs E) as (value & Hp & _). rewrite Hp. cbn [fst snd].
    assert (Hfacts : Forall ok vs /\ Z.of_nat (length vs) < 2 ^ 32). { destruct Hh as (Hs0 & _ & Hk). destruct (srep_found _ _ _ _ _ Hs0 Hk) as (? & ? & _ & _ & _ & _ & l & _ & Hr). split; [by eapply law_ok|by eapply law_small]. }
    destruct Hfacts as [Hok Hlen]. apply wp_bind. eapply wp_on_list; [done|done|intros; by apply law_pop_one| |].
    + intros a b' s' l Hb' Hh' Hbe [-> ->]. rewrite Hp. cbn [lookup list_lookup]. case_bool_decide as Hd; [subst dst; by eapply wp_move_within|by eapply wp_move_across].
    + intros Hlim e b' s' l He Hb' (Hs' & _) (_ & _ & Ht) Hl. split_and!; [done..|]. eexists. split; [exact Hs'|]. exists vs, l. rewrite Ho. split_and!; [done|destruct Hl; tauto|by left].
Qed.

(** ** Requests *)

Inductive ListRequest :=
| QPush (front : bool) (key : bytes) (values : list bytes) (only_if_exists : bool)
| QPop (front : bool) (key : bytes)
| QPopCount (front : bool) (key : bytes) (count : Z)
| QMove (source destination : bytes) (source_front destination_front : bool)
| QLen (key : bytes)
| QIndex (key : bytes) (index : Z)
| QRange (key : bytes) (start stop : Z)
| QSet (key : bytes) (index : Z) (value : bytes)
| QTrim (key : bytes) (start stop : Z)
| QRem (key : bytes) (count : Z) (value : bytes)
| QInsert (key : bytes) (before : bool) (pivot value : bytes).

Inductive ListAnswer := AnInt (n : Z) | AnText (text : option bytes) | AnTexts (texts : list bytes) | AnSet (result : ListSetResult) | AnOk.

Definition list_request (q : ListRequest) : M (world St) ListAnswer :=
  match q with
  | QPush front k values xx => n ← push sizeof_list front k values xx; mret (AnInt n)
  | QPop front k => t ← pop front k; mret (AnText t)
  | QPopCount front k count => l ← pop_count front k count; mret (AnTexts l)
  | QMove src dst sf df => t ← lmove sizeof_list src dst sf df; mret (AnText t)
  | QLen k => n ← llen k; mret (AnInt n)
  | QIndex k i => t ← lindex_text k i; mret (AnText t)
  | QRange k i j => l ← lrange_texts k i j; mret (AnTexts l)
  | QSet k i value => r ← lset k i value; mret (AnSet r)
  | QTrim k i j => ltrim k i j;; mret AnOk
  | QRem k count value => n ← lrem k count value; mret (AnInt n)
  | QInsert k before pivot value => n ← linsert k before pivot value; mret (AnInt n)
  end.

(** What the request means: its answer and the map after it. *)
Definition a_list (q : ListRequest) (v : VMap) : ListAnswer * VMap :=
  match q with
  | QPush front k values xx =>
      let l := pushed front values (default [] (elements v k)) in
      if xx && bool_decide (elements v k = None) then (AnInt 0, v) else (AnInt (Z.of_nat (length l)), set_list k l v)
  | QPop front k =>
      match elements v k with Some vs => (AnText (popped front 1 vs !! 0%nat), set_list k (rest_of front 1 vs) v) | None => (AnText None, v) end
  | QPopCount front k count =>
      match elements v k with
      | Some vs => let n := Nat.min (Z.to_nat count) (length vs) in (AnTexts (popped front n vs), if count =? 0 then v else set_list k (rest_of front n vs) v)
      | None => (AnTexts [], v)
      end
  | QMove src dst sf df => let r := a_lmove src dst sf df v in (AnText r.1, r.2)
  | QLen k => (AnInt (Z.of_nat (length (default [] (elements v k)))), v)
  | QIndex k i => (AnText (elements v k ≫= value_at i), v)
  | QRange k i j => (AnTexts (default [] (slice i j <$> elements v k)), v)
  | QSet k i value => let r := a_lset k i value v in (AnSet r.1, r.2)
  | QTrim k i j => (AnOk, match elements v k with Some vs => set_list k (slice i j vs) v | None => v end)
  | QRem k count value =>
      match elements v k with
      | Some vs => let l := ListValue.lrem count value vs in (AnInt (Z.of_nat (length vs) - Z.of_nat (length l)), set_list k l v)
      | None => (AnInt 0, v)
      end
  | QInsert k before pivot value => let r := a_linsert k before pivot value v in (AnInt r.1, r.2)
  end.

(** The limits of the code: a key that is written holds a list or nothing and can be added, values can be stored, a list
    stays below 2^32 values, and counts fit their types. *)
Definition allowed (q : ListRequest) (v : VMap) : Prop :=
  match q with
  | QPush _ k values _ => (v !! k = None \/ is_Some (elements v k)) /\ addable v k /\ values <> [] /\ Forall ok values /\ Z.of_nat (length (default [] (elements v k))) + Z.of_nat (length values) < 2 ^ 32
  | QPopCount _ _ count => 0 <= count
  | QMove src dst _ _ => movable src dst v
  | QSet _ _ value => ok value
  | QRem _ count _ => - 2 ^ 63 <= count < 2 ^ 63
  | QInsert k _ _ value => ok value /\ Z.of_nat (length (default [] (elements v k))) + 1 < 2 ^ 32
  | _ => True
  end.

(** What is left when memory was refused. *)
Definition may_leave (q : ListRequest) (v v' : VMap) : Prop :=
  match q with
  | QPush front k values _ => push_keeps front k values v v'
  | QPop front k => keeps_list v k (fun l => exists vs, elements v k = Some vs /\ (l = vs \/ l = rest_of front 1 vs)) v'
  | QPopCount front k count => keeps_list v k (fun l => exists vs, elements v k = Some vs /\ (l = vs \/ l = rest_of front (Nat.min (Z.to_nat count) (length vs)) vs)) v'
  | QMove src dst sf _ => move_keeps src dst sf v v'
  | QSet k _ _ | QInsert k _ _ _ => keeps_list v k (fun l => elements v k = Some l \/ l = []) v'
  | QTrim k _ _ => keeps_list v k (fun l => exists vs, elements v k = Some vs /\ part_of l vs) v'
  | QRem k _ value => keeps_list v k (fun l => exists vs n, elements v k = Some vs /\ (l = lrem_head n value vs \/ l = lrem_tail n value vs)) v'
  | QLen _ | QIndex _ _ | QRange _ _ _ => False
  end.

(** Without a list nothing is left to fail. *)
Lemma grants_answer {A B} (op : M (world St) A) (f : A -> B) (v : VMap) (a : A) (v' : VMap) (kept : VMap -> Prop) (b : B) (v2 : VMap) (kept2 : VMap -> Prop) :
  grants op v a v' kept -> f a = b -> v' = v2 -> (forall x, kept x -> kept2 x) -> grants (x ← op; mret (f x)) v b v2 kept2.
Proof.
  intros Hg <- <- Hk b0 s Hb Hs. apply wp_bind. eapply wp_mono; [exact (Hg b0 s Hb Hs)| |].
  - intros x w (-> & Hr). by apply wp_ret.
  - intros e w (? & ? & ? & ? & v'' & Hv & Hk'). split_and!; [done..|]. exists v''. split; [done|by apply Hk].
Qed.

Lemma request_granted q v : allowed q v -> grants (list_request q) v (a_list q v).1 (a_list q v).2 (may_leave q v).
Proof.
  destruct q; cbn [allowed list_request a_list may_leave].
  - intros (Hty & Ha & Hne & Hok & Hl). eapply grants_answer; [by apply grants_push|..]; [| |done]; destruct (_ && _); done.
  - intros _. eapply grants_answer; [apply grants_pop|..]; [| |done]; destruct (elements v key); try done. by destruct front.
  - intros Hc. eapply grants_answer; [by apply grants_pop_count|..]; [| |done]; destruct (elements v key); try done. cbn. rewrite Nat.min_0_r. by destruct front.
  - intros Hm. by eapply grants_answer; [apply grants_lmove|..].
  - intros _. by eapply grants_answer; [apply grants_llen|..].
  - intros _. by eapply grants_answer; [apply grants_lindex|..].
  - intros _. by eapply grants_answer; [apply grants_lrange|..].
  - intros Hok. by eapply grants_answer; [apply grants_lset|..].
  - intros _. by eapply (grants_answer (ltrim key start stop) (fun _ => AnOk)); [apply grants_ltrim|..].
  - intros Hc. eapply grants_answer; [by apply grants_lrem|..]; [| |done]; destruct (elements v key); try done.
    change (default [] None) with (@nil bytes). cbn [fst]. unfold ListValue.lrem. destruct (count =? 0); [done|]. by destruct (0 <? count).
  - intros [Hok Hl]. by eapply grants_answer; [apply grants_linsert|..].
Qed.

Fixpoint list_requests (qs : list ListRequest) : M (world St) (list ListAnswer) :=
  match qs with
  | [] => mret []
  | q :: qs => a ← list_request q; l ← list_requests qs; mret (a :: l)
  end.
Fixpoint a_lists (qs : list ListRequest) (v : VMap) : list ListAnswer * VMap :=
  match qs with
  | [] => ([], v)
  | q :: qs => let r := a_list q v in let rest := a_lists qs r.2 in (r.1 :: rest.1, rest.2)
  end.
Fixpoint all_allowed (qs : list ListRequest) (v : VMap) : Prop :=
  match qs with [] => True | q :: qs => allowed q v /\ all_allowed qs (a_list q v).2 end.

(** No key holds a list without values. *)
Definition no_empty (v : VMap) : Prop := forall k, elements v k <> Some [].

Lemma no_empty_set_list k l v : no_empty v -> no_empty (set_list k l v).
Proof.
  intros Hv k'. unfold set_list. case_bool_decide as E; unfold elements in *; specialize (Hv k'); destruct (decide (k' = k)) as [->|Hne].
  - by rewrite lookup_delete_eq.
  - by rewrite lookup_delete_ne.
  - rewrite lookup_insert_eq. cbn. congruence.
  - by rewrite lookup_insert_ne.
Qed.

Lemma no_empty_list q v : no_empty v -> no_empty (a_list q v).2.
Proof.
  intros Hv. pose proof (fun k l => no_empty_set_list k l v Hv) as Hset. destruct q; cbn [a_list]; unfold a_lmove, a_lset, a_linsert;
    repeat (match goal with |- context [match ?x with _ => _ end] => destruct x end; cbn [fst snd]); try done; try apply Hset. by apply no_empty_set_list, Hset.
Qed.

Lemma no_empty_lists qs : forall v, no_empty v -> no_empty (a_lists qs v).2.
Proof. induction qs as [|q qs IH]; intros v Hv; [done|]. by apply IH, no_empty_list. Qed.

Lemma requests_run qs : forall b s v, ~ lim -> unlimited b -> srep s v -> all_allowed qs v ->
  exists w keys, list_requests qs (World b s) = Ok (a_lists qs v).1 w /\ unlimited (mem w) /\ srep (obj w) (a_lists qs v).2 /\ told_ (obj w) = told_ s ++ keys /\ forall k, k ∉ keys -> (a_lists qs v).2 !! k = v !! k.
Proof.
  induction qs as [|q qs IH]; intros b s v Hlim Hb Hs Hq.
  - exists (World b s), []. rewrite app_nil_r. by split_and!.
  - destruct Hq as [Hq Hqs]. assert (Hc : calm lim b) by (by right). pose proof (request_granted q v Hq b s Hc Hs) as Hw. cbn [list_requests a_lists]. unfold mbind, M_bind. unfold wp in Hw. destruct (list_request q (World b s)) as [a [b1 s1]|e w1|]; [|by destruct Hw|done].
    destruct Hw as (-> & Hb1 & Hs1 & keys1 & Ht1 & Hk1). cbn [mem obj] in *. assert (Hu1 : unlimited b1) by (by destruct Hb1 as [[? _]|[_ ?]]).
    destruct (IH b1 s1 _ Hlim Hu1 Hs1 Hqs) as (w & keys2 & -> & Hu & Hs2 & Ht2 & Hk2). exists w, (keys1 ++ keys2). split_and!; [done|done|done|by rewrite Ht2, Ht1, app_assoc|]. intros k Hk. rewrite elem_of_app in Hk. cbn [snd]. rewrite Hk2, Hk1; tauto.
Qed.

(** C14: the lists of the store.  Without a memory limit, every run of list commands within the limits of the code answers
    and changes the store as the commands mean for a map from keys to texts, lists and other objects: pushes, pops, moves,
    reads by index and range, replacements, trims, removals and insertions.  A key goes away with its last value and keeps
    its expiry otherwise, no list is ever left empty, keys of other types are untouched, and every key that changed was
    reported to the mutation observer. *)
Theorem store_lists_refine qs b s v :
  ~ lim -> unlimited b -> srep s v -> all_allowed qs v ->
  exists w keys, list_requests qs (World b s) = Ok (a_lists qs v).1 w /\ srep (obj w) (a_lists qs v).2 /\
    told_ (obj w) = told_ s ++ keys /\ (forall k, (a_lists qs v).2 !! k <> v !! k -> k ∈ keys) /\ (no_empty v -> no_empty (a_lists qs v).2).
Proof.
  intros Hlim Hb Hs Hq. destruct (requests_run qs b s v Hlim Hb Hs Hq) as (w & keys & E & _ & Hs' & Ht & Hk). exists w, keys. split_and!; [done|done|done| |apply no_empty_lists].
  intros k Hne. destruct (decide (k ∈ keys)); [done|]. by destruct Hne; apply Hk.
Qed.

(** C18: list commands under a memory limit.  A command that is allowed either does what it means, or throws for lack of memory.
    Then no key is reported, no key but those the command names has changed, and of those: a push leaves some of its values,
    or nothing where it created the key; a pop, a trim or a removal leaves part of the list; LSET and LINSERT leave the list
    or an empty one; LMOVE may leave the value in the source, nowhere, or as the only one, and an empty destination. *)
Theorem list_limit_outcomes q b s v :
  lim -> ~ unlimited b -> srep s v -> allowed q v ->
  wp (list_request q) (fun a w => a = (a_list q v).1 /\ srep (obj w) (a_list q v).2)
     (fun e w => is_bad_alloc e = true /\ told_ (obj w) = told_ s /\ exists v', srep (obj w) v' /\ may_leave q v v') (World b s).
Proof.
  intros Hlim Hb Hs Hq. eapply wp_mono; [apply request_granted; [done|by left|done]| |].
  - intros a w (-> & _ & Hs' & _). done.
  - intros e w (_ & He & _ & Ht & Hv). done.
Qed.

(** ** What a refused command leaves unreported *)

Lemma on_list_run {A} id (m : M (world R) A) (s : St) l b :
  list_of id s = Some l ->
  on_list id m (World b s) = match m (World b l) with Ok a w => Ok a (World (mem w) (put_list id (obj w) s : St)) | Exn e w => Exn e (World (mem w) (put_list id (obj w) s)) | Ub => Ub end.
Proof. intros Hl. unfold on_list, mbind, M_bind, obj_get, gets, need, zoom. cbn [obj mem]. by rewrite Hl. Qed.

Lemma find_list_run s v k id vs o b : held s v k id vs o -> find_list k (World b s) = Ok (Some id) (World b s).
Proof.
  intros (Hs & Hf & Hk). destruct (srep_found _ _ _ _ _ Hs Hk) as (id' & t & Hf' & Ht & _ & -> & _). assert (id' = id) as -> by congruence.
  unfold find_list, mbind, M_bind, obj_get, gets, need. cbn [obj]. rewrite Hf. cbn [obj]. by rewrite Ht.
Qed.

Lemma list_empty_run s v k id vs o b : held s v k id vs o -> vs <> [] -> list_empty id (World b s) = Ok false (World b s).
Proof.
  intros (Hs & Hf & Hk) Hne. destruct (srep_found _ _ _ _ _ Hs Hk) as (id' & t & Hf' & _ & _ & _ & l & Hl & Hr). assert (id' = id) as -> by congruence.
  unfold list_empty, mbind, M_bind. rewrite (on_list_run _ _ _ _ _ Hl), (law_size b l vs Hr). cbn [obj mem]. rewrite put_list_same by done. by destruct vs.
Qed.

(** An operation of the list that threw, and one that returned. *)
Lemma follows_thrown {A} (m : M (world R) A) w after kept e w' : follows lim repr m w after kept -> m w = Exn e w' -> calm lim (mem w') /\ exists l, repr (obj w') l /\ kept l.
Proof. unfold follows, wp. intros HF E. rewrite E in HF. by destruct HF as (_ & _ & HF). Qed.
Lemma follows_done {A} (m : M (world R) A) w after kept a w' : follows lim repr m w after kept -> m w = Ok a w' -> calm lim (mem w') /\ exists l, repr (obj w') l /\ after a l.
Proof. unfold follows, wp. intros HF E. by rewrite E in HF. Qed.

Lemma refused_push s v k id vs o l b front values xx e b' l' :
  held s v k id vs o -> list_of id s = Some l -> lo_push front values (World b l) = Exn e (World b' l') ->
  push sizeof_list front k values xx (World b s) = Exn e (World b' (put_list id l' s)).
Proof.
  intros Hh Hl He. unfold push, mbind at 1, M_bind at 1. rewrite (find_list_run _ _ _ _ _ _ _ Hh). unfold mbind at 1, M_bind at 1, obj_get, gets. unfold push_at, mbind at 1, M_bind at 1, try_catch.
  rewrite (on_list_run _ _ _ _ _ Hl), He. done.
Qed.

(** The state in which the destination of a move was made, under [dst] and [id2]. *)
Lemma created_list s v k id vs o dst b id2 b2 s2 :
  held s v k id vs o -> calm lim b -> v !! dst = None -> addable v dst -> get_or_create_list sizeof_list dst (World b s) = Ok id2 (World b2 s2) ->
  calm lim b2 /\ held s2 (<[dst := (Elements [], None)]> v) dst id2 [] None /\ held s2 (<[dst := (Elements [], None)]> v) k id vs o /\ told_ s2 = told_ s.
Proof.
  intros Hh Hb Hn Ha E. pose proof Hh as (Hs & Hf & Hk). assert (Hne : k <> dst) by (intros ->; congruence).
  assert (Hw : wp (get_or_create_list sizeof_list dst) (fun j w => calm lim (mem w) /\ held (obj w) (<[dst := (Elements [], None)]> v) dst j [] None /\ held (obj w) (<[dst := (Elements [], None)]> v) k id vs o /\ told_ (obj w) = told_ s) (fun _ _ => True) (World b s)).
  { eapply wp_get_or_create; [done|done|done|by left|intros j vs' o' (_ & _ & Hd); congruence| |done]. intros j b' s' _ Hb' Hd Ht _ Hids. split_and!; [done|done| |done].
    destruct Hd as (Hs' & _ & _). split_and!; [done|by apply Hids|by rewrite lookup_insert_ne]. }
  unfold wp in Hw. by rewrite E in Hw.
Qed.

Lemma list_of_put_ne id id' l (s : St) : id <> id' -> list_of id (put_list id' l s) = list_of id s.
Proof. intros Hne. unfold list_of, put_list. cbn. by rewrite list_lookup_insert_ne by done. Qed.

Lemma held_ne s v k id vs o k' id' vs' o' : held s v k id vs o -> held s v k' id' vs' o' -> k <> k' -> id <> id'.
Proof.
  intros (Hs & Hf & _) (_ & Hf' & _) Hne ->. destruct Hs as (m & Hr & _). destruct (find_id_slot _ _ (r_inv _ _ _ Hr) _ _ Hf) as (_ & Hk & _), (find_id_slot _ _ (r_inv _ _ _ Hr) _ _ Hf') as (_ & Hk' & _). congruence.
Qed.

Lemma held_list s v k id vs o l : held s v k id vs o -> list_of id s = Some l -> repr l vs.
Proof. intros (Hs & Hf & Hk) Hl. destruct (srep_found _ _ _ _ _ Hs Hk) as (id' & t & Hf' & _ & _ & _ & l' & Hl' & Hr). assert (id' = id) as -> by congruence. by assert (l' = l) as <- by congruence. Qed.

(** A move whose value is refused at the destination and when it is put back. *)
Lemma refused_move s v k id vs o l b dst sf df value b1 l1 id2 b2 s2 l1' l2 e3 b3 l3 e4 b4 l4 :
  held s v k id vs o -> list_of id s = Some l -> vs <> [] -> k <> dst -> id <> id2 ->
  lo_pop_one sf (World b l) = Ok (Some value) (World b1 l1) ->
  get_or_create_list sizeof_list dst (World b1 (put_list id l1 s)) = Ok id2 (World b2 s2) -> list_of id s2 = Some l1' -> list_of id2 s2 = Some l2 ->
  lo_push_one df value (World b2 l2) = Exn e3 (World b3 l3) -> lo_push_one sf value (World b3 l1') = Exn e4 (World b4 l4) ->
  lmove sizeof_list k dst sf df (World b s) = Exn e4 (World b4 (put_list id l4 (put_list id2 l3 s2))).
Proof.
  intros Hh Hl Hne Hd Hid E1 E2 Hl1 Hl2 E3 E4. unfold lmove, mbind at 1, M_bind at 1. rewrite (find_list_run _ _ _ _ _ _ _ Hh). unfold mbind at 1, M_bind at 1. rewrite (list_empty_run _ _ _ _ _ _ _ Hh Hne).
  unfold mbind at 1, M_bind at 1. rewrite (on_list_run _ _ _ _ _ Hl), E1. cbn [obj mem]. rewrite bool_decide_eq_false_2 by done. unfold try_catch, mbind, M_bind. rewrite E2.
  unfold push_back_to, mbind, M_bind. rewrite (on_list_run _ _ _ _ _ Hl2), E3. cbn [obj mem]. rewrite (on_list_run id _ (put_list id2 l3 s2) l1') by (by rewrite list_of_put_ne). by rewrite E4.
Qed.

(** C19: what a refused list command leaves is visible to clients and reported to nobody.  On a key with a list: when the
    list throws in the middle of a push, LPUSH or RPUSH throws the same and leaves the values the list has by then, which
    are those before, those with some of the new ones, or none.  When LMOVE to a new key has taken a value, made the destination
    and is refused the memory for the value both there and when it is put back, it throws and leaves the value in neither
    list and the destination as a list without values.  In both cases no key is reported to the
    observer, through which WATCH learns of changes. *)
Theorem refused_list_commands_leave_traces s v k id vs o l b :
  held s v k id vs o -> list_of id s = Some l -> calm lim b ->
  (forall front values xx e b' l', Forall ok values -> Z.of_nat (length vs) + Z.of_nat (length values) < 2 ^ 32 ->
     lo_push front values (World b l) = Exn e (World b' l') ->
     exists kept, push sizeof_list front k values xx (World b s) = Exn e (World b' (put_list id l' s)) /\ told_ (put_list id l' s) = told_ s /\
       repr l' kept /\ push_kept front values vs kept /\ srep (put_list id l' s) (<[k := (Elements kept, o)]> v)) /\
  (forall dst sf df value b1 l1 id2 b2 s2 l1' l2 e3 b3 l3 e4 b4 l4, v !! dst = None -> addable v dst -> vs <> [] ->
     lo_pop_one sf (World b l) = Ok (Some value) (World b1 l1) ->
     get_or_create_list sizeof_list dst (World b1 (put_list id l1 s)) = Ok id2 (World b2 s2) -> list_of id s2 = Some l1' -> list_of id2 s2 = Some l2 ->
     lo_push_one df value (World b2 l2) = Exn e3 (World b3 l3) -> lo_push_one sf value (World b3 l1') = Exn e4 (World b4 l4) ->
     exists s4 rest, lmove sizeof_list k dst sf df (World b s) = Exn e4 (World b4 s4) /\ told_ s4 = told_ s /\ (rest = rest_of sf 1 vs \/ rest = []) /\
       srep s4 (<[k := (Elements rest, o)]> (<[dst := (Elements [], None)]> v))).
Proof.
  intros Hh Hl Hb. pose proof (held_list _ _ _ _ _ _ _ Hh Hl) as Hr. split.
  - intros front values xx e b' l' Hok Hlen He. destruct (follows_thrown _ _ _ _ _ _ (law_push b l vs front values Hb Hr Hok Hlen) He) as (_ & kept & Hr' & Hk). exists kept.
    split_and!; [by eapply refused_push|done|done|done|]. by destruct (held_put _ _ _ _ _ _ _ _ Hh Hr') as (Hs & _).
  - intros dst sf df value b1 l1 id2 b2 s2 l1' l2 e3 b3 l3 e4 b4 l4 Hn Ha Hne E1 E2 Hl1 Hl2 E3 E4. pose proof Hh as (_ & _ & Hk). assert (Hkd : k <> dst) by (intros ->; congruence).
    destruct (follows_done _ _ _ _ _ _ (law_pop_one b l vs sf Hb Hr) E1) as (Hb1 & l0 & Hr1 & Hv1 & ->). cbn [obj mem] in *. destruct (pop_split sf vs Hne) as (x & Hp & _ & Hin & Hlen). rewrite Hp in Hv1. injection Hv1 as ->.
    assert (Hok : ok x) by (exact (proj1 (Forall_forall _ _) (law_ok l vs Hr) x Hin)). pose proof (law_small l vs Hr) as Hsm.
    pose proof (held_put _ _ _ _ _ _ _ _ Hh Hr1) as Hh1. assert (Hn1 : <[k := (Elements (rest_of sf 1 vs), o)]> v !! dst = None) by (by rewrite lookup_insert_ne).
    destruct (created_list _ _ _ _ _ _ dst _ _ _ _ Hh1 Hb1 Hn1 ltac:(intros _; destruct (Ha Hn) as [? ?]; split; [done|]; rewrite map_size_insert_Some by (by eexists); done) E2) as (Hb2 & Hd2 & Hh2 & Ht2).
    pose proof (held_ne _ _ _ _ _ _ _ _ _ _ Hh2 Hd2 Hkd) as Hid.
    destruct (follows_thrown _ _ _ _ _ _ (law_push_one b2 l2 [] df x Hb2 (held_list _ _ _ _ _ _ _ Hd2 Hl2) Hok ltac:(cbn; lia)) E3) as (Hb3 & l3' & Hr3 & Hl3). cbn [obj mem] in *. assert (l3' = []) as -> by (by destruct Hl3).
    pose proof (held_put _ _ _ _ _ _ _ _ Hd2 Hr3) as Hd3. rewrite insert_insert_eq in Hd3.
    destruct (follows_thrown _ _ _ _ _ _ (law_push_one b3 l1' (rest_of sf 1 vs) sf x Hb3 (held_list _ _ _ _ _ _ _ Hh2 Hl1) Hok ltac:(lia)) E4) as (_ & rest & Hr4 & Hrest). cbn [obj mem] in *.
    exists (put_list id l4 (put_list id2 l3 s2)), rest. split_and!; [by eapply refused_move|exact Ht2|done|].
    destruct Hd3 as (Hs3 & _ & _), Hh2 as (_ & Hf2 & Hk2). assert (Hh3 : held (put_list id2 l3 s2) (<[dst := (Elements [], None)]> (<[k := (Elements (rest_of sf 1 vs), o)]> v)) k id (rest_of sf 1 vs) o) by (by split_and!).
    destruct (held_put _ _ _ _ _ _ _ _ Hh3 Hr4) as (Hs4 & _). by rewrite (insert_insert_ne _ dst k), insert_insert_eq in Hs4.
Qed.
End spec.

(** ** Concrete runs *)

Section examples.
#[local] Existing Instance copy_lz4.
#[local] Existing Instance copy_lz4_correct.

(** Lists of at most four values in the compact form, over an allocator that asks for what it is asked. *)
#[local] Instance small_lists : ListObject ListRep := list_value_object Options.default AllowLz4 4 x00 id doubled 72.
Abbreviation small_repr lim := (list_repr Options.default AllowLz4 4 lim).
#[local] Instance small_laws lim : ListLaws ListRep (encodable Options.default AllowLz4) lim (small_repr lim) :=
  list_value_laws Options.default AllowLz4 4 x00 id doubled 72 doubled_range lim.

Definition no_keys : @Store (Value ListRep unit) := mkStore ks_empty ∅ [].

Lemma srep_no_keys lim : srep (repr := small_repr lim) Options.default no_keys ∅.
Proof. exists ∅. split; [split; [apply ks_empty_inv|done|exact (omap_empty _)]|]. intros k. constructor. Qed.

Definition session : list ListRequest :=
  [QPush false (str "k") [str "hello"; str "42"; str "x"] false; QMove (str "k") (str "d") true false; QInsert (str "k") true (str "x") (str "y"); QRange (str "k") 0 (-1);
   QTrim (str "k") (-1) (-1); QRem (str "k") 0 (str "x"); QLen (str "k"); QPop true (str "d")].

Lemma session_allowed : all_allowed (Other := unit) (ok := encodable Options.default AllowLz4) session ∅.
Proof.
  assert (Hok : forall x, x ∈ [str "hello"; str "42"; str "x"; str "y"] -> encodable Options.default AllowLz4 x).
  { intros x. rewrite !elem_of_cons, elem_of_nil. intros [->|[->|[->|[->|[]]]]]; (split; [eexists|]; vm_compute; reflexivity). }
  cbn [all_allowed session allowed]. split_and!; [| | | | | | | |done|done| | |done|done|done].
  - by left.
  - intros _. vm_compute. split; discriminate.
  - done.
  - repeat (constructor; [apply Hok; set_solver|]). constructor.
  - vm_compute. reflexivity.
  - intros _ _. split_and!; [left; vm_compute; reflexivity|intros _; vm_compute; split; discriminate|vm_compute; reflexivity].
  - apply Hok. set_solver.
  - vm_compute. reflexivity.
  - lia.
  - lia.
Qed.

Lemma store_lists_refine_witness :
  exists w keys, list_requests (R := ListRep) (Other := unit) 16 session (World None no_keys) =
      Ok [AnInt 3; AnText (Some (str "hello")); AnInt 3; AnTexts [str "42"; str "y"; str "x"]; AnOk; AnInt 1; AnInt 0; AnText (Some (str "hello"))] w /\
    srep (repr := small_repr False) Options.default (obj w) ∅ /\ told_ (obj w) = keys.
Proof.
  assert (E : a_lists session (∅ : gmap bytes (Val unit * option Z)) =
    ([AnInt 3; AnText (Some (str "hello")); AnInt 3; AnTexts [str "42"; str "y"; str "x"]; AnOk; AnInt 1; AnInt 0; AnText (Some (str "hello"))], ∅)) by (vm_compute; reflexivity).
  destruct (store_lists_refine (lim := False) Options.default 16 session None no_keys ∅) as (w & keys & Hr & Hs & Ht & _); [by intros []|done|apply srep_no_keys|apply session_allowed|].
  rewrite E in Hr, Hs. exists w, keys. by split_and!.
Defined.

(** A budget that grants [n] bytes more. *)
Definition room (n : Z) : option ActiveMemoryBudget := Some (new_budget (Some {| address := 1; limit_ := 1000; usage_ := Some (1000 - n) |})).

Lemma list_limit_outcomes_witness :
  wp (list_request (R := ListRep) (Other := unit) 16 (QPush false (str "k") [str "x"] false)) (fun a _ => a = AnInt 1)
     (fun e w => is_bad_alloc e = true /\ told_ (obj w) = []) (World (room 20) no_keys).
Proof.
  eapply wp_mono; [apply (list_limit_outcomes (lim := True) Options.default 16 (QPush false (str "k") [str "x"] false) (room 20) no_keys ∅ I)| |].
  - vm_compute. discriminate.
  - apply srep_no_keys.
  - cbn [allowed]. split_and!; [by left|intros _; vm_compute; split; discriminate|done|constructor; [split; [eexists|]; vm_compute; reflexivity|constructor]|vm_compute; reflexivity].
  - intros a w [-> _]. vm_compute. reflexivity.
  - intros e w (He & Ht & _). by split.
Defined.

(** The store after RPUSH k hello 42. *)
Definition with_pair : @Store (Value ListRep unit) :=
  match push (R := ListRep) 16 false (str "k") [str "hello"; str "42"] false (World None no_keys) with Ok _ w => obj w | _ => no_keys end.

(** The texts under a key, and the reports since the list was made. *)
Definition texts_of (k : bytes) (s : @Store (Value ListRep unit)) : option (list bytes) :=
  match lrange_texts (R := ListRep) k 0 (-1) (World None s) with Ok l _ => Some l | _ => None end.

(** The texts: RPUSH whose second value is refused has pushed the first; LMOVE refused twice has lost the value. *)
Example refused_runs :
  texts_of (str "k") with_pair = Some [str "hello"; str "42"] /\ told_ with_pair = [str "k"] /\
  (exists w, push (R := ListRep) 16 false (str "k") [str "x"; str "y"] false (World (room 20) with_pair) = Exn MaxMemoryExceeded w /\
     texts_of (str "k") (obj w) = Some [str "hello"; str "42"; str "x"] /\ told_ (obj w) = [str "k"]) /\
  (exists w, lmove (R := ListRep) 16 (str "k") (str "d") true false (World (room 30) with_pair) = Exn MaxMemoryExceeded w /\
     texts_of (str "k") (obj w) = Some [str "42"] /\ contains (str "d") (keyspace_ (obj w)) = true /\ texts_of (str "d") (obj w) = Some [] /\ told_ (obj w) = [str "k"]).
Proof.
  split; [vm_compute; reflexivity|]. split; [vm_compute; reflexivity|]. split.
  - eexists. split; [vm_compute; reflexivity|]. split; vm_compute; reflexivity.
  - eexists. split; [vm_compute; reflexivity|]. split_and!; vm_compute; reflexivity.
Qed.

(** That store represents the list, under a limit too. *)
Definition pair_lists : gmap bytes (Val unit * option Z) := {[str "k" := (Elements [str "hello"; str "42"], None)]}.
Definition pair_list : ListRep := default lo_blank (list_of 0 with_pair).

Lemma pair_held : held (repr := small_repr True) Options.default with_pair pair_lists (str "k") 0 [str "hello"; str "42"] None.
Proof.
  assert (Hc : calm True (room 900)) by (left; split; [done|vm_compute; discriminate]).
  assert (Hok : Forall (encodable Options.default AllowLz4) [str "hello"; str "42"]) by (repeat (constructor; [split; [eexists|]; vm_compute; reflexivity|]); constructor).
  pose proof (grants_push (Other := unit) (lim := True) Options.default 16 false (str "k") [str "hello"; str "42"] false ∅ ltac:(by left) ltac:(intros _; vm_compute; split; discriminate) ltac:(done) Hok ltac:(vm_compute; reflexivity) (room 900) no_keys Hc (srep_no_keys True)) as Hw.
  assert (E : exists n w, push (R := ListRep) 16 false (str "k") [str "hello"; str "42"] false (World (room 900) no_keys) = Ok n w /\ obj w = with_pair) by (eexists _, _; split; vm_compute; reflexivity).
  destruct E as (n & w & E & Ew). unfold wp in Hw. rewrite E in Hw. destruct Hw as (_ & _ & Hs & _). rewrite Ew in Hs. split_and!; [exact Hs|vm_compute; reflexivity..].
Qed.

Lemma refused_list_commands_leave_traces_witness :
  (exists w kept, push (R := ListRep) 16 false (str "k") [str "x"; str "y"] false (World (room 20) with_pair) = Exn MaxMemoryExceeded w /\ told_ (obj w) = told_ with_pair /\
     srep (repr := small_repr True) Options.default (obj w) (<[str "k" := (Elements kept, None)]> pair_lists)) /\
  (exists w rest, lmove (R := ListRep) 16 (str "k") (str "d") true false (World (room 30) with_pair) = Exn MaxMemoryExceeded w /\ told_ (obj w) = told_ with_pair /\
     (rest = [str "42"] \/ rest = []) /\ srep (repr := small_repr True) Options.default (obj w) (<[str "k" := (Elements rest, None)]> (<[str "d" := (Elements [], None)]> pair_lists))).
Proof.
  assert (Hl : list_of 0 with_pair = Some pair_list) by (vm_compute; reflexivity).
  assert (Hc : forall n, calm True (room n)) by (intros n; left; split; [done|by intros Hu]). split.
  - pose proof (proj1 (refused_list_commands_leave_traces (lim := True) Options.default 16 with_pair pair_lists (str "k") 0 [str "hello"; str "42"] None pair_list (room 20) pair_held Hl (Hc 20))) as HT.
    edestruct (HT false [str "x"; str "y"] false) as (kept & E & Ht & _ & _ & Hs); [| |vm_compute; reflexivity|].
    + repeat (constructor; [split; [eexists|]; vm_compute; reflexivity|]). constructor.
    + vm_compute. reflexivity.
    + eexists _, kept. split_and!; [exact E|exact Ht|exact Hs].
  - pose proof (proj2 (refused_list_commands_leave_traces (lim := True) Options.default 16 with_pair pair_lists (str "k") 0 [str "hello"; str "42"] None pair_list (room 30) pair_held Hl (Hc 30))) as HT.
    edestruct (HT (str "d") true false) as (s4 & rest & E & Ht & Hr & Hs); [vm_compute; reflexivity|intros _; vm_compute; split; discriminate|done|vm_compute; reflexivity..|].
    eexists _, rest. split_and!; [exact E|exact Ht|exact Hr|exact Hs].
Defined.
End examples.
