(* ===== verification/EncodedReply.v ===== *)
(** * Replies straight from the stored form

    Models the overload of [resp::append_bulk_string] of
    [include/goblin/core/resp_writer.hpp] that writes a stored string without first
    decoding it, and shows that its five paths write the same reply. *)

From S2P Require Import Prelude ParseInt RespWriter StringEncoding Keyspace.
From Stdlib Require Import ZArith Lia.

Local Open Scope Z_scope.

(** [EncodedStringView::is_raw]. *)
Definition view_is_raw (v : EncodedStringView) : bool := negb (encoding_enabled_ v) || (view_prefix v =? kStringRaw).

(** The small split payload: the header, the pieces and the line end copied to consecutive places. *)
Definition write_small_split (out head tail : bytes) (logical : Z) : option bytes :=
  let offset := length out in
  let out := grow (Z.to_nat (bulk_string_wire_size logical)) out in
  let header := make_header "$"%byte logical in
  out ← poke offset header out;
  let dst := (offset + length header)%nat in
  '(out, dst) ←
    (if (1 <? length head)%nat then out ← poke dst (drop 1 head) out; Some (out, (dst + (length head - 1))%nat) else Some (out, dst));
  '(out, dst) ←
    (if negb (bool_decide (tail = [])) then out ← poke dst tail out; Some (out, (dst + length tail)%nat) else Some (out, dst));
  poke dst crlf out.

Section encoded.
Context {L : LZ4}.

(** [append_bulk_string] of an [EncodedStringView]; [Throw] and [Undef] are those of the decoder. *)
Definition append_bulk_view (out : bytes) (value : EncodedStringView) : result bytes :=
  if view_is_raw value then
    if negb (encoding_enabled_ value) then
      if bool_decide (tail_ value = []) then of_option (append_bulk_string out (head_ value))
      else Ret (append_bulk_framing out (Z.of_nat (encoded_size value)) ++ head_ value ++ tail_ value ++ crlf)
    else
      let encoded := encoded_size value in
      if (encoded =? 0)%nat then of_option (append_bulk_string out [])
      else
        let logical := Z.of_nat encoded - 1 in
        if bool_decide (tail_ value = []) && (1 <=? length (head_ value))%nat then of_option (append_bulk_string out (drop 1 (head_ value)))
        else if can_write_small_bulk_string logical then of_option (write_small_split out (head_ value) (tail_ value) logical)
        else Ret (append_bulk_framing out logical ++ (if (1 <? length (head_ value))%nat then drop 1 (head_ value) else []) ++ tail_ value ++ crlf)
  else
    text ← to_string value;
    Ret (append_bulk_framing out (view_size value) ++ text ++ crlf).

Lemma valid_nonempty v : valid v = true -> encoding_enabled_ v = true -> (1 <= encoded_size v)%nat.
Proof. unfold valid. intros Hv En. rewrite En in Hv. cbn [negb] in Hv. destruct (Z.eqb_spec (Z.of_nat (encoded_size v)) 0); [done|lia]. Qed.

(** The text of a raw value. *)
Lemma raw_text v t :
  reads_as v t -> headed v -> view_is_raw v = true ->
  t = if encoding_enabled_ v then drop 1 (head_ v) ++ tail_ v else head_ v ++ tail_ v.
Proof.
  intros (Hv & Hs & Ht) Hh Hr. unfold to_string in Ht. rewrite Hv in Ht. cbn [negb] in Ht. unfold view_is_raw in Hr.
  destruct (encoding_enabled_ v) eqn:En; cbn [negb orb] in *; [|congruence]. rewrite Hr in Ht. pose proof (valid_nonempty v Hv En) as H1.
  rewrite copy_range_slice in Ht by lia. unfold slice in Ht. rewrite encoded_size_bytes in *. rewrite decide_True in Ht by lia. cbn in Ht. injection Ht as <-.
  rewrite take_ge by (rewrite length_drop; lia). unfold view_bytes. destruct (head_ v) eqn:E; [|done]. by rewrite (Hh E).
Qed.

Lemma write_small_split_eq out head tail :
  head <> [] -> Z.of_nat (length head + length tail) - 1 < 65 ->
  write_small_split out head tail (Z.of_nat (length head + length tail) - 1) = Some (out ++ bulk (drop 1 head ++ tail)).
Proof.
  intros Hh Hl. destruct head as [|b head]; [done|]. change (drop 1 (b :: head)) with head. cbn [length] in *. set (v := head ++ tail).
  assert (Hn : Z.of_nat (S (length head) + length tail) - 1 = Z.of_nat (length v)) by (unfold v; rewrite length_app; lia). rewrite Hn in *.
  unfold write_small_split. rewrite <- bulk_length_small by lia. rewrite Nat2Z.id, make_header_line by lia. set (h := header_line _ _).
  assert (E : bulk v = h ++ (head ++ tail) ++ crlf) by reflexivity. rewrite E, <- app_assoc, !length_app.
  rewrite poke_grow_prefix. cbn [mbind option_bind].
  assert (H1 : (if (1 <? length (b :: head))%nat
                then out0 ← poke (length out + length h)%nat (drop 1 (b :: head)) (grow (length head + (length tail + length crlf)) (out ++ h)); Some (out0, (length out + length h + (length (b :: head) - 1))%nat)
                else Some (grow (length head + (length tail + length crlf)) (out ++ h), (length out + length h)%nat))
               = Some (grow (length tail + length crlf) ((out ++ h) ++ head), length ((out ++ h) ++ head))).
  { destruct head as [|c head]; [cbn; rewrite app_nil_r, length_app; done|]. cbn [length Nat.ltb Nat.leb drop]. rewrite <- (length_app out h), poke_grow_prefix. cbn [mbind option_bind].
    do 2 f_equal. rewrite !length_app. cbn. lia. }
  rewrite H1. cbn [mbind option_bind]. clear H1. destruct tail as [|c tail].
  - rewrite bool_decide_eq_true_2 by done. cbn [negb mbind option_bind]. rewrite (poke_grow ((out ++ h) ++ head) crlf) by done. by rewrite <- !app_assoc.
  - rewrite bool_decide_eq_false_2 by done. cbn [negb]. rewrite poke_grow_prefix. cbn [mbind option_bind].
    rewrite <- (length_app ((out ++ h) ++ head)), (poke_grow _ crlf) by done. by rewrite <- !app_assoc.
Qed.

(** Whatever the form of a stored string, its reply is the bulk string of its text. *)
Lemma append_bulk_view_eq out v t : reads_as v t -> headed v -> append_bulk_view out v = Ret (out ++ bulk t).
Proof.
  intros Hr Hh. unfold append_bulk_view. destruct (view_is_raw v) eqn:Hraw.
  - pose proof (raw_text v t Hr Hh Hraw) as ->. destruct Hr as (Hv & _ & _). destruct (encoding_enabled_ v) eqn:En; cbn [negb].
    + pose proof (valid_nonempty v Hv En) as H1. destruct (Nat.eqb_spec (encoded_size v) 0); [lia|].
      case_bool_decide as Ht; cbn [andb].
      * unfold encoded_size in H1. rewrite Ht in *. cbn [length] in H1. destruct (Nat.leb_spec 1 (length (head_ v))); [|lia].
        by rewrite append_bulk_string_eq, app_nil_r.
      * assert (head_ v <> []) as Hne by (intros E; by apply Ht, Hh). unfold can_write_small_bulk_string, kSmallBulkHeaders_size, encoded_size in *.
        destruct (Z.ltb_spec (Z.of_nat (length (head_ v) + length (tail_ v)) - 1) 65) as [Hl|Hl].
        -- by rewrite write_small_split_eq.
        -- rewrite append_bulk_framing_eq by lia. destruct (head_ v) as [|b h]; [done|]. cbn [drop length]. unfold bulk.
           destruct h as [|c h]; cbn [length Nat.ltb Nat.leb drop app]; rewrite <- ?app_assoc, ?length_app; do 4 f_equal; lia.
    + case_bool_decide as Ht; [by rewrite append_bulk_string_eq, Ht, app_nil_r|]. rewrite append_bulk_framing_eq by lia. unfold bulk, encoded_size.
      rewrite length_app. by rewrite <- !app_assoc.
  - destruct Hr as (Hv & Hs & ->). cbn [mbind result_bind]. rewrite Hs, append_bulk_framing_eq by lia. unfold bulk. by rewrite <- !app_assoc.
Qed.

End encoded.
