(* ===== verification/CommandExec.v ===== *)
(** * The command handlers

    Models [execute_command_into] of [src/command.cpp] for the string, key and expiry
    commands: the gates every command passes (read-only replica, lazy expiry of the
    first key, the type of the key), the handlers with their options and error
    replies, and the hand-over of a write to replication.  The handlers of the other
    commands and of INCRBYFLOAT are parameters, and the store has no memory limit; the clock is a sequence of readings. *)

From S2P Require Import Prelude ParseInt RespWriter StringEncoding MemoryLimit Glob CommandType CommandClass CommandParse Keyspace Store EncodedReply.
From stdpp Require Import gmap.
From Stdlib Require Import ZArith Lia ZifyBool.

Import Classes Names Parse.

Local Open Scope Z_scope.

(** ** Texts *)

Definition kWrongType : bytes := str "WRONGTYPE Operation against a key holding the wrong kind of value".
Definition kValueTooLarge : bytes := str "ERR value does not fit the 65,535-byte encoded limit; use https://goblin-store.dev".

Definition key_type_name (type : KeyType) : bytes :=
  match type with
  | KT_String => str "string"
  | KT_Zset => str "zset"
  | KT_Hash => str "hash"
  | KT_List => str "list"
  | KT_Set => str "set"
  | KT_Array => str "array"
  | KT_PackedZset => str "zset"
  end.

(** The generator behind RANDOMKEY: the new state and the number. *)
Definition random_u64 (state : Z) : Z * Z :=
  let state := Z.lxor state (Z.shiftr state 12) in
  let state := Z.lxor state (u64 (Z.shiftl state 25)) in
  let state := Z.lxor state (Z.shiftr state 27) in
  (state, u64 (state * 0x2545F4914F6CDD1D)).

(** ** Options of the commands *)

Record SetOptions := mkSetOptions { nx : bool; xx : bool; keepttl : bool; want_get : bool; expire_when : option Z }.

(** The time an EX, PX, EXAT or PXAT option names. *)
Definition option_when (opt : bytes) (now amount : Z) : option Z :=
  if equals_ci opt (str "EX") then compute_when_ms now amount 1000
  else if equals_ci opt (str "PX") then compute_when_ms now amount 1
  else if equals_ci opt (str "EXAT") then compute_when_ms 0 amount 1000
  else compute_when_ms 0 amount 1.

Definition is_time_option (opt : bytes) : bool :=
  equals_ci opt (str "EX") || equals_ci opt (str "PX") || equals_ci opt (str "EXAT") || equals_ci opt (str "PXAT").

(** The option loop of SET. *)
Fixpoint set_options (now : Z) (opts : list bytes) (o : SetOptions) : bytes + SetOptions :=
  match opts with
  | [] => inr o
  | opt :: rest =>
      if equals_ci opt (str "NX") then set_options now rest (mkSetOptions true (xx o) (keepttl o) (want_get o) (expire_when o))
      else if equals_ci opt (str "XX") then set_options now rest (mkSetOptions (nx o) true (keepttl o) (want_get o) (expire_when o))
      else if equals_ci opt (str "GET") then set_options now rest (mkSetOptions (nx o) (xx o) (keepttl o) true (expire_when o))
      else if equals_ci opt (str "KEEPTTL") then set_options now rest (mkSetOptions (nx o) (xx o) true (want_get o) (expire_when o))
      else if is_time_option opt then
        match rest with
        | [] => inl syntax_error
        | amount :: rest =>
            match parse_i64 amount with
            | None => inl integer_range_error
            | Some amount =>
                match option_when opt now amount with
                | None => inl (str "ERR invalid expire time in 'set' command")
                | Some w => set_options now rest (mkSetOptions (nx o) (xx o) (keepttl o) (want_get o) (Some w))
                end
            end
        end
      else inl syntax_error
  end.

Inductive ExpiryAction := ActNone | ActPersist | ActSet (when : Z).

(** The option of GETEX. *)
Definition getex_option (now : Z) (opts : list bytes) : bytes + ExpiryAction :=
  let invalid := str "ERR invalid expire time in 'getex' command" in
  match opts with
  | [] => inr ActNone
  | [opt] => if equals_ci opt (str "PERSIST") then inr ActPersist else inl syntax_error
  | [opt; amount] =>
      if is_time_option opt then
        match parse_i64 amount with
        | None => inl integer_range_error
        | Some amount =>
            if amount <=? 0 then inl invalid
            else match option_when opt now amount with Some w => inr (ActSet w) | None => inl invalid end
        end
      else inl syntax_error
  | _ => inl syntax_error
  end.

(** The flags of the EXPIRE family. *)
Fixpoint expire_flags (opts : list bytes) (f : ExpireFlags) : bytes + ExpireFlags :=
  match opts with
  | [] => inr f
  | opt :: rest =>
      if equals_ci opt (str "NX") then expire_flags rest (mkFlags true (kXx f) (kGt f) (kLt f))
      else if equals_ci opt (str "XX") then expire_flags rest (mkFlags (kNx f) true (kGt f) (kLt f))
      else if equals_ci opt (str "GT") then expire_flags rest (mkFlags (kNx f) (kXx f) true (kLt f))
      else if equals_ci opt (str "LT") then expire_flags rest (mkFlags (kNx f) (kXx f) (kGt f) true)
      else inl (str "ERR Unsupported option " ++ opt)
  end.

(** The options of COPY. *)
Fixpoint copy_options (opts : list bytes) (saw_db replace : bool) : bytes + bool :=
  match opts with
  | [] => inr replace
  | opt :: rest =>
      let other :=
        if equals_ci opt (str "REPLACE") && negb replace then copy_options rest saw_db true else inl syntax_error in
      match rest with
      | db :: rest' =>
          if equals_ci opt (str "DB") && negb saw_db then
            match parse_i64 db with
            | None => inl integer_range_error
            | Some db => if negb (db =? 0) then inl (str "ERR DB index is out of range") else copy_options rest' true replace
            end
          else other
      | [] => other
      end
  end.

Record ScanOptions := mkScanOptions { pattern : option bytes; type_filter : option bytes; count : Z }.

(** The options of SCAN. *)
Fixpoint scan_options (opts : list bytes) (o : ScanOptions) : bytes + ScanOptions :=
  match opts with
  | [] => inr o
  | opt :: rest =>
      match rest with
      | [] => inl syntax_error
      | value :: rest' =>
          if equals_ci opt (str "MATCH") then scan_options rest' (mkScanOptions (Some value) (type_filter o) (count o))
          else if equals_ci opt (str "COUNT") then
            match parse_u64 value with
            | Some n => if n =? 0 then inl syntax_error else scan_options rest' (mkScanOptions (pattern o) (type_filter o) n)
            | None => inl syntax_error
            end
          else if equals_ci opt (str "TYPE") then scan_options rest' (mkScanOptions (pattern o) (Some value) (count o))
          else inl syntax_error
      end
  end.

(** ** Executing a command *)

Section exec.
Context {L : LZ4} {Payload : Type}.
Variable string_encoding_ : Z.
Variable clone : KeyType -> Payload -> Payload.
(** What the range comparisons of a glob class see of a [char]. *)
Variable char_value : byte -> Z.
(** The readings of the system clock, in milliseconds. *)
Variable clock : nat -> Z.

Abbreviation St := (@Store Payload).

(** [sent_] lists the writes handed to replication, each with its reply. *)
Record Exec := mkExec { store_ : St; ticks_ : nat; rng_ : Z; out_ : bytes; sent_ : list (Command * bytes) }.

Abbreviation H A := (M Exec A).

Definition set_store (s : St) (x : Exec) : Exec := mkExec s (ticks_ x) (rng_ x) (out_ x) (sent_ x).
Definition set_out (o : bytes) (x : Exec) : Exec := mkExec (store_ x) (ticks_ x) (rng_ x) o (sent_ x).

(** A call of the store. *)
Definition on_store {A} (op : M St A) : H A := fun x =>
  match op (store_ x) with
  | Ok a s => Ok a (set_store s x)
  | Exn e s => Exn e (set_store s x)
  | Ub => Ub
  end.

Definition now_ms : H Z := fun x => Ok (clock (ticks_ x)) (mkExec (store_ x) (S (ticks_ x)) (rng_ x) (out_ x) (sent_ x)).
Definition next_random : H Z := fun x =>
  let '(state, n) := random_u64 (rng_ x) in Ok n (mkExec (store_ x) (ticks_ x) state (out_ x) (sent_ x)).

Record CommandExecutionOptions := mkOptions { version : Version; read_only : bool; replicate_write : bool }.

(** The writer calls of the handlers. *)
Definition write (f : bytes -> bytes) : H unit := modify (fun x => set_out (f (out_ x)) x).
Definition error (message : bytes) : H unit := write (fun out => append_error out message).
Definition simple (message : bytes) : H unit := write (fun out => append_simple_string out message).
Definition integer (n : Z) : H unit := write (fun out => append_integer out n).
Definition bulk_reply (value : bytes) : H unit :=
  out ← gets out_; out ← need (append_bulk_string out value); write (fun _ => out).
Definition view_reply (value : EncodedStringView) : H unit := fun x =>
  match append_bulk_view (out_ x) value with
  | Ret out => Ok tt (set_out out x)
  | Throw _ => Exn LengthError x
  | Undef => Ub
  end.

Section handlers.
Variable options : CommandExecutionOptions.

Definition null : H unit := write (fun out => append_null out (version options)).
Definition text_or_null (text : option bytes) : H unit := match text with Some t => bulk_reply t | None => null end.
Definition integer_or (error_text : bytes) (n : option Z) : H unit := match n with Some n => integer n | None => error error_text end.
Definition flag (b : bool) : H unit := integer (if b then 1 else 0).

(** [command.args[i]]; outside of the arguments is undefined. *)
Definition arg (c : Command) (i : nat) : H bytes := need (c_args c !! i).

(** [parse_ll] of an argument, or the range error. *)
Definition with_integer (text : bytes) (f : Z -> H unit) : H unit :=
  match parse_i64 text with None => error integer_range_error | Some n => f n end.

Definition append_incr (key : bytes) (delta : Z) : H unit :=
  result ← on_store (incr_by string_encoding_ key delta);
  integer_or integer_range_error result.

Definition with_value (value : bytes) (f : H unit) : H unit :=
  if negb (value_fits string_encoding_ value) then error kValueTooLarge else f.

(** SET with options. *)
Definition set_command (key value : bytes) (opts : list bytes) : H unit :=
  with_value value
    match opts with
    | [] => on_store (set string_encoding_ key value);; simple (str "OK")
    | _ =>
        now ← now_ms;
        match set_options now opts (mkSetOptions false false false false None) with
        | inl message => error message
        | inr o =>
            if (nx o && xx o) || (keepttl o && bool_decide (is_Some (expire_when o))) then error syntax_error
            else
              found ← on_store (exists_ key);
              type ← on_store (on_ks (type_of key));
              if want_get o && found && negb (bool_decide (type = Some KT_String)) then error kWrongType
              else
                let condition_met := negb (nx o && found) && negb (xx o && negb found) in
                old_value ← (if want_get o then on_store (get_text string_encoding_ key) else mret None);
                (if condition_met then
                   (if keepttl o then on_store (set_keep_ttl string_encoding_ key value) else on_store (set string_encoding_ key value));;
                   match expire_when o with
                   | Some when_ms => on_store (expire_at_ms key when_ms now kNone);; mret tt
                   | None => mret tt
                   end
                 else mret tt);;
                if want_get o then text_or_null old_value
                else if condition_met then simple (str "OK")
                else null
        end
    end.

Definition getex_command (key : bytes) (opts : list bytes) : H unit :=
  now ← now_ms;
  match getex_option now opts with
  | inl message => error message
  | inr action =>
      current ← on_store (get_text string_encoding_ key);
      match current with
      | None => null
      | Some value =>
          match action with
          | ActPersist => on_store (persist key);; mret tt
          | ActSet when_ms => on_store (expire_at_ms key when_ms now kNone);; mret tt
          | ActNone => mret tt
          end;;
          bulk_reply value
      end
  end.

Definition get_command (key : bytes) : H unit :=
  result ← on_store (get_result string_encoding_ key);
  match result with
  | Missing => null
  | WrongType => error kWrongType
  | OkString value => view_reply value
  end.

(** The key and value arguments of MSET and MSETNX; a last key without a value is left out. *)
Fixpoint pairs_of (args : list bytes) : list (bytes * bytes) :=
  match args with
  | key :: value :: args => (key, value) :: pairs_of args
  | _ => []
  end.

Definition mset_command (args : list bytes) : H unit :=
  if negb (forallb (fun p => value_fits string_encoding_ p.2) (pairs_of args)) then error kValueTooLarge
  else on_store (set_all string_encoding_ (pairs_of args));; simple (str "OK").

Fixpoint purge_all (keys : list bytes) (now : Z) : H unit :=
  match keys with
  | [] => mret tt
  | key :: keys => on_store (purge_if_expired key now);; purge_all keys now
  end.

Definition msetnx_command (args : list bytes) : H unit :=
  if negb (forallb (fun p => value_fits string_encoding_ p.2) (pairs_of args)) then error kValueTooLarge
  else
    none ← gets (fun x => ttl_empty (store_ x));
    (if negb none then now ← now_ms; purge_all (pairs_of args).*1 now else mret tt);;
    stored ← on_store (mset_nx string_encoding_ (pairs_of args));
    flag stored.

(** The clock is read only when a key can expire. *)
Definition now_if_ttl : H (bool * Z) :=
  none ← gets (fun x => ttl_empty (store_ x));
  if negb none then now ← now_ms; mret (true, now) else mret (false, 0).

Fixpoint mget_loop (keys : list bytes) (has_ttl : bool) (now : Z) : H unit :=
  match keys with
  | [] => mret tt
  | key :: keys =>
      (if has_ttl then on_store (purge_if_expired key now);; mret tt else mret tt);;
      value ← on_store (get string_encoding_ key);
      match value with None => null | Some v => view_reply v end;;
      mget_loop keys has_ttl now
  end.

Definition mget_command (args : list bytes) : H unit :=
  t ← now_if_ttl;
  write (fun out => append_array_header out (Z.of_nat (length args)));;
  mget_loop args t.1 t.2.

Fixpoint del_loop (keys : list bytes) (removed : Z) : H unit :=
  match keys with
  | [] => integer removed
  | key :: keys => gone ← on_store (erase_key key); del_loop keys (if gone : bool then removed + 1 else removed)
  end.

Fixpoint exists_loop (keys : list bytes) (has_ttl : bool) (now found : Z) : H unit :=
  match keys with
  | [] => integer found
  | key :: keys =>
      (if has_ttl then on_store (purge_if_expired key now);; mret tt else mret tt);;
      there ← on_store (exists_ key);
      exists_loop keys has_ttl now (if there : bool then found + 1 else found)
  end.

Definition rename_command (nx : bool) (source destination : bytes) : H unit :=
  now ← now_ms;
  result ← on_store (rename source destination nx now);
  match result with
  | RenameSourceMissing => error (str "ERR no such key")
  | Renamed => if nx then integer 1 else simple (str "OK")
  | RenameDestinationExists => if nx then integer 0 else simple (str "OK")
  end.

Definition copy_command (source destination : bytes) (opts : list bytes) : H unit :=
  match copy_options opts false false with
  | inl message => error message
  | inr replace =>
      now ← now_ms;
      result ← on_store (copy string_encoding_ clone source destination replace now);
      match result with
      | Copied => integer 1
      | CopySourceMissing | CopyDestinationExists => integer 0
      | CopySameKey => error (str "ERR source and destination objects are the same")
      end
  end.

(** The callback of SCAN. *)
Definition scan_shows (o : ScanOptions) (kt : bytes * KeyType) : option bool :=
  matched ← (match pattern o with Some p => Scan.scan_glob_match char_value p kt.1 | None => Some true end);
  Some (matched && match type_filter o with Some t => equals_ci t (key_type_name kt.2) | None => true end).

Fixpoint shown_keys (o : ScanOptions) (page : list (bytes * KeyType)) : option (list bytes) :=
  match page with
  | [] => Some []
  | kt :: page => shows ← scan_shows o kt; rest ← shown_keys o page; Some (if shows : bool then kt.1 :: rest else rest)
  end.

Fixpoint bulk_replies (values : list bytes) : H unit :=
  match values with
  | [] => mret tt
  | v :: values => bulk_reply v;; bulk_replies values
  end.

Definition scan_command (cursor : bytes) (opts : list bytes) : H unit :=
  match parse_u64 cursor with
  | None => error (str "ERR invalid cursor")
  | Some cursor =>
      match scan_options opts (mkScanOptions None None 10) with
      | inl message => error message
      | inr o =>
          none ← gets (fun x => ttl_empty (store_ x));
          now ← (if none : bool then mret 0 else now_ms);
          page ← gets (fun x => scan cursor (count o) now (store_ x));
          keys ← need (shown_keys o page.1);
          write (fun out => append_array_header out 2);;
          bulk_reply (to_chars_u64 page.2);;
          write (fun out => append_array_header out (Z.of_nat (length keys)));;
          bulk_replies keys
      end
  end.

Definition unit_of (type : CommandType) : Z * bool :=
  match type with
  | CT_expire => (1000, true)
  | CT_pexpire => (1, true)
  | CT_expireat => (1000, false)
  | _ => (1, false)
  end.

Definition expire_command (type : CommandType) (key amount : bytes) (opts : list bytes) : H unit :=
  with_integer amount (fun amount =>
    match expire_flags opts kNone with
    | inl message => error message
    | inr f =>
        if kNx f && (kXx f || kGt f || kLt f) then error (str "ERR NX and XX, GT or LT options at the same time are not compatible")
        else if kGt f && kLt f then error (str "ERR GT and LT options at the same time are not compatible")
        else
          now ← now_ms;
          let '(unit_ms, relative) := unit_of type in
          match compute_when_ms (if relative then now else 0) amount unit_ms with
          | None => error (str "ERR invalid expire time")
          | Some when_ms => done ← on_store (expire_at_ms key when_ms now f); flag done
          end
    end).

Definition ttl_command (in_ms : bool) (key : bytes) : H unit :=
  now ← now_ms;
  ms ← on_store (pttl_ms key now);
  integer (if in_ms || (ms <? 0) then ms else (ms + 500) / 1000).

Definition expiretime_command (in_ms : bool) (key : bytes) : H unit :=
  ms ← on_store (expiretime_ms key);
  integer (if in_ms || (ms <? 0) then ms else ms / 1000).

Definition caexpire_command (key token ms : bytes) : H unit :=
  with_integer ms (fun ms =>
    now ← now_ms;
    match compute_when_ms now ms 1 with
    | None => error (str "ERR invalid expire time")
    | Some when_ms => renewed ← on_store (compare_and_expire string_encoding_ key token when_ms now); flag renewed
    end).

Definition cas_command (key expected new_value : bytes) : H unit :=
  with_value new_value
    (swapped ← on_store (compare_and_set string_encoding_ key expected new_value);
     if swapped : bool then simple (str "OK") else integer 0).

Definition increx_command (key seconds : bytes) : H unit :=
  with_integer seconds (fun seconds =>
    now ← now_ms;
    match compute_when_ms now seconds 1000 with
    | None => error (str "ERR invalid expire time")
    | Some when_ms => value ← on_store (incr_expire string_encoding_ key when_ms now); integer_or integer_range_error value
    end).

Definition claim_command (claim_key result_key token seconds : bytes) : H unit :=
  let invalid := str "ERR invalid expire time in 'goblin.claim' command" in
  with_integer seconds (fun seconds =>
    if seconds <=? 0 then error invalid
    else
      with_value token
        (now ← now_ms;
         match compute_when_ms now seconds 1000 with
         | None => error invalid
         | Some when_ms =>
             outcome ← on_store (claim string_encoding_ claim_key result_key token when_ms now);
             if claimed outcome then bulk_reply (str "CLAIMED")
             else if result_wrongtype outcome then error kWrongType
             else text_or_null (claim_result outcome)
         end)).

Definition setrange_command (key offset value : bytes) : H unit :=
  with_integer offset (fun offset =>
    if offset <? 0 then error (str "ERR offset is out of range")
    else len ← on_store (setrange string_encoding_ key offset value); integer_or kValueTooLarge len).

Definition decrby_command (key delta : bytes) : H unit :=
  with_integer delta (fun delta => if delta =? i64_min then error integer_range_error else append_incr key (- delta)).

(** ** The dispatcher *)

(** The configuration of the store, and the handlers that are not modelled. *)
Variable list_implementation : ListImplementation.
Variable default_packed_zset_kind : option Z.
Variable packed_kind : Payload -> Z.
Variable execute_packed_zset_command : Z -> Command -> H unit.
Variable execute_other : CommandType -> Command -> H unit.

(** [store.packed_zset_kind(key)]. *)
Definition packed_zset_kind (key : bytes) : H (option Z) :=
  type ← on_store (on_ks (type_of key));
  if bool_decide (type = Some KT_PackedZset) then p ← on_store (object_of key); mret (Some (packed_kind p)) else mret None.

(** The commands handled here: the string, key and expiry commands without INCRBYFLOAT, which is left to [execute_other]. *)
Definition is_string_command (type : CommandType) : bool :=
  match type with
  | CT_ping | CT_set | CT_get | CT_getex | CT_getset | CT_setnx | CT_getdel | CT_strlen | CT_append | CT_incr | CT_decr
  | CT_incrby | CT_decrby | CT_getrange | CT_setrange | CT_mset | CT_msetnx | CT_mget | CT_del | CT_exists | CT_dbsize
  | CT_rename | CT_renamenx | CT_copy | CT_randomkey | CT_touch | CT_scan | CT_key_type | CT_expire | CT_pexpire
  | CT_expireat | CT_pexpireat | CT_ttl | CT_pttl | CT_persist | CT_expiretime | CT_pexpiretime | CT_goblin_cad
  | CT_goblin_caexpire | CT_goblin_cas | CT_goblin_increx | CT_goblin_incrbound | CT_goblin_decrpos | CT_goblin_claim
  | CT_unknown => true
  | _ => false
  end.

Definition execute_switch (type : CommandType) (c : Command) : H unit :=
  let args := c_args c in
  match type with
  | CT_ping => match args with [] => simple (str "PONG") | a :: _ => bulk_reply a end
  | CT_set => key ← arg c 0; value ← arg c 1; set_command key value (drop 2 args)
  | CT_get => key ← arg c 0; get_command key
  | CT_getex => key ← arg c 0; getex_command key (drop 1 args)
  | CT_getset =>
      key ← arg c 0; value ← arg c 1;
      with_value value (previous ← on_store (get_set string_encoding_ key value); text_or_null previous)
  | CT_setnx =>
      key ← arg c 0; value ← arg c 1;
      with_value value (stored ← on_store (set_nx string_encoding_ key value); flag stored)
  | CT_getdel => key ← arg c 0; previous ← on_store (get_del string_encoding_ key); text_or_null previous
  | CT_strlen => key ← arg c 0; len ← on_store (strlen string_encoding_ key); integer (default 0 len)
  | CT_append =>
      key ← arg c 0; value ← arg c 1; len ← on_store (append string_encoding_ key value); integer_or kValueTooLarge len
  | CT_incr => key ← arg c 0; append_incr key 1
  | CT_decr => key ← arg c 0; append_incr key (-1)
  | CT_incrby => key ← arg c 0; delta ← arg c 1; with_integer delta (append_incr key)
  | CT_decrby => key ← arg c 0; delta ← arg c 1; decrby_command key delta
  | CT_getrange =>
      key ← arg c 0; start ← arg c 1; end_ ← arg c 2;
      match parse_i64 start, parse_i64 end_ with
      | Some start, Some end_ => text ← on_store (getrange string_encoding_ key start end_); bulk_reply text
      | _, _ => error integer_range_error
      end
  | CT_setrange => key ← arg c 0; offset ← arg c 1; value ← arg c 2; setrange_command key offset value
  | CT_mset => mset_command args
  | CT_msetnx => msetnx_command args
  | CT_mget => mget_command args
  | CT_del => del_loop args 0
  | CT_exists => t ← now_if_ttl; exists_loop args t.1 t.2 0
  | CT_dbsize => now ← now_ms; n ← on_store (dbsize now); integer n
  | CT_rename => source ← arg c 0; destination ← arg c 1; rename_command false source destination
  | CT_renamenx => source ← arg c 0; destination ← arg c 1; rename_command true source destination
  | CT_copy => source ← arg c 0; destination ← arg c 1; copy_command source destination (drop 2 args)
  | CT_randomkey => now ← now_ms; random ← next_random; key ← on_store (random_key now random); text_or_null key
  | CT_touch => now ← now_ms; n ← on_store (touch args now 0); integer n
  | CT_scan => cursor ← arg c 0; scan_command cursor (drop 1 args)
  | CT_key_type =>
      key ← arg c 0; t ← on_store (on_ks (type_of key)); simple (match t with Some t => key_type_name t | None => str "none" end)
  | CT_expire | CT_pexpire | CT_expireat | CT_pexpireat =>
      key ← arg c 0; amount ← arg c 1; expire_command type key amount (drop 2 args)
  | CT_ttl => key ← arg c 0; ttl_command false key
  | CT_pttl => key ← arg c 0; ttl_command true key
  | CT_persist => key ← arg c 0; removed ← on_store (persist key); flag removed
  | CT_expiretime => key ← arg c 0; expiretime_command false key
  | CT_pexpiretime => key ← arg c 0; expiretime_command true key
  | CT_goblin_cad =>
      key ← arg c 0; expected ← arg c 1; deleted ← on_store (compare_and_delete string_encoding_ key expected); flag deleted
  | CT_goblin_caexpire => key ← arg c 0; token ← arg c 1; ms ← arg c 2; caexpire_command key token ms
  | CT_goblin_cas => key ← arg c 0; expected ← arg c 1; value ← arg c 2; cas_command key expected value
  | CT_goblin_increx => key ← arg c 0; seconds ← arg c 1; increx_command key seconds
  | CT_goblin_incrbound =>
      key ← arg c 0; delta ← arg c 1; max ← arg c 2;
      match parse_i64 delta, parse_i64 max with
      | Some delta, Some max => result ← on_store (incr_bound string_encoding_ key delta max); integer_or integer_range_error result
      | _, _ => error integer_range_error
      end
  | CT_goblin_decrpos => key ← arg c 0; result ← on_store (decr_positive string_encoding_ key); integer_or integer_range_error result
  | CT_goblin_claim =>
      claim_key ← arg c 0; result_key ← arg c 1; token ← arg c 2; seconds ← arg c 3; claim_command claim_key result_key token seconds
  | CT_unknown => error (str "ERR unknown command '" ++ c_name c ++ str "'")
  | _ => execute_other type c
  end.

(** The first key is removed when it has expired. *)
Definition lazy_expiry (type : CommandType) (c : Command) : H unit :=
  match c_args c with
  | [] => mret tt
  | key :: _ =>
      none ← gets (fun x => ttl_empty (store_ x));
      if command_has_key_arg type && negb none then now ← now_ms; on_store (purge_if_expired key now);; mret tt
      else mret tt
  end.

(** The representation a sorted-set command works on, when it is a packed one. *)
Definition effective_packed_kind (type : CommandType) (c : Command) : H (option Z) :=
  if negb (c_packed_zset_kind c =? 0) then mret (Some (c_packed_zset_kind c))
  else if is_packed_zset_command type then
    if ct_eqb type CT_zinterstore || ct_eqb type CT_zunionstore then mret default_packed_zset_kind
    else
      match c_args c with
      | [] => mret None
      | key :: _ =>
          actual ← on_store (on_ks (type_of key));
          match actual with
          | Some KT_PackedZset => packed_zset_kind key
          | Some _ => mret None
          | None => mret default_packed_zset_kind
          end
      end
  else mret None.

(** Whether the key holds a type the command does not work on. *)
Definition wrong_type (type : CommandType) (packed : option Z) (c : Command) : H bool :=
  match c_args c with
  | [] => mret false
  | key :: _ =>
      actual ← on_store (on_ks (type_of key));
      match packed with
      | Some requested =>
          if ct_eqb type CT_zinterstore || ct_eqb type CT_zunionstore then mret false
          else if (match actual with Some t => negb (bool_decide (t = KT_PackedZset)) | None => false end) then mret true
          else kind ← packed_zset_kind key; mret (match kind with Some k => negb (k =? requested) | None => false end)
      | None =>
          mret (match command_requires_type type, actual with
                | Some required, Some t => negb (bool_decide (t = required))
                | _, _ => false
                end)
      end
  end.

(** Between the replication guard and the end of the function. *)
Definition guarded (type : CommandType) (c : Command) : H unit :=
  lazy_expiry type c;;
  packed ← effective_packed_kind type c;
  wrong ← wrong_type type packed c;
  if wrong : bool then error kWrongType
  else
    match packed with
    | Some kind => execute_packed_zset_command kind c
    | None => execute_switch type c
    end.

(** [~ReplicationGuard]: whether the handler returned or threw, the write is handed over with what it wrote. *)
Definition with_guard (type : CommandType) (c : Command) (body : H unit) : H unit := fun x =>
  let begin := length (out_ x) in
  let hand_over (y : Exec) :=
    if replicate_write options && command_mutates_store type
    then mkExec (store_ y) (ticks_ y) (rng_ y) (out_ y) (sent_ y ++ [(c, drop begin (out_ y))])
    else y in
  match body x with
  | Ok a y => Ok a (hand_over y)
  | Exn e y => Exn e (hand_over y)
  | Ub => Ub
  end.

Definition kReadOnly : bytes := str "READONLY You can't write against a read-only replica.".

Definition execute_command_into_impl (c : Command) : H unit :=
  let type := resolve_list_command (c_type c) list_implementation in
  if read_only options && (command_mutates_store type || ct_eqb type CT_goblin_load) then error kReadOnly
  else if ct_eqb type CT_goblin_load && replicate_write options then
    error (str "ERR GOBLIN.LOAD is disabled on a running replicated server; use --load at startup")
  else with_guard type c (guarded type c).

(** Only the refusal of the memory ceiling is caught. *)
Definition execute_command_into (c : Command) : H unit := fun x =>
  let output_start := length (out_ x) in
  match execute_command_into_impl c x with
  | Exn MaxMemoryExceeded y =>
      Ok tt (set_out (append_error (take output_start (out_ y)) (str "OOM command not allowed when used memory exceeds 'maxmemory'.")) y)
  | r => r
  end.

Definition handle_command_into (fields : list bytes) : H unit :=
  match parse_fields fields with
  | inl message => error message
  | inr c => execute_command_into c
  end.
End handlers.
End exec.
