(* ===== verification/CommandFrame.v ===== *)
(** * What any command leaves alone

    [StoreFrame] lifted to the handlers of [CommandExec]: for every request with a
    string, key or expiry command (INCRBYFLOAT is not one of them), well-formed or not, the execution returns a reply or
    ends in [std::length_error], the store still represents a map, every changed key was
    reported, and only keys at the positions COMMAND advertises (for GOBLIN.CLAIM the
    first argument) and keys that had expired differ.  Commands that are not classified as writes change nothing else. *)

From S2P Require Import Prelude ParseInt RespWriter StringEncoding MemoryLimit Glob CommandType CommandTable CommandClass CommandParse Keyspace Store StoreSpec StoreFrame EncodedReply CommandExec.
From stdpp Require Import gmap.
From Stdlib Require Import ZArith Lia ZifyBool.

Import Classes Names Parse.

Local Open Scope Z_scope.

(** ** The keys a command names *)

(** The arguments at the positions COMMAND advertises; a negative last position counts from the end. *)
Definition advertised_keys (type : CommandType) (args : list bytes) : list bytes :=
  let r := command_key_range type in
  let last := if kr_last r <? 0 then Z.of_nat (length args) + 1 + kr_last r else kr_last r in
  concat (imap (fun i a =>
    let position := Z.of_nat i + 1 in
    if (1 <=? kr_first r) && (kr_first r <=? position) && (position <=? last) && ((position - kr_first r) mod kr_step r =? 0) then [a] else []) args).

Lemma elem_of_advertised type args i a :
  let r := command_key_range type in
  args !! i = Some a -> 1 <= kr_first r <= Z.of_nat i + 1 ->
  Z.of_nat i + 1 <= (if kr_last r <? 0 then Z.of_nat (length args) + 1 + kr_last r else kr_last r) ->
  (Z.of_nat i + 1 - kr_first r) mod kr_step r = 0 -> a ∈ advertised_keys type args.
Proof.
  intros r Hi Hf Hl Hm. unfold advertised_keys. fold r. apply list_elem_of_In, in_concat. exists [a]. split; [|by left].
  apply list_elem_of_In, elem_of_lookup_imap. exists i, a. split; [|done]. by replace (_ && _) with true by lia.
Qed.

(** The keys a write command may change; GOBLIN.CLAIM writes its first argument, which it does not advertise. *)
Definition written_keys (type : CommandType) (args : list bytes) : list bytes :=
  if negb (command_mutates_store type) then []
  else match type with CT_goblin_claim => take 1 args | _ => advertised_keys type args end.

Lemma pairs_of_keys args : Forall (fun p => exists j, args !! (2 * j)%nat = Some p.1) (pairs_of args).
Proof.
  assert (H : forall n args, (length args <= n)%nat -> Forall (fun p => exists j, args !! (2 * j)%nat = Some p.1) (pairs_of args)); [|by eapply H].
  induction n as [|n IH]; intros l Hl; (destruct l as [|k [|v l]]; cbn [pairs_of]; [constructor|constructor|]); cbn in Hl; [lia|].
  constructor; [by exists 0%nat|]. eapply Forall_impl; [apply (IH l); lia|]. intros p [j Hj]. exists (S j).
  by replace (2 * S j)%nat with (S (S (2 * j))) by lia.
Qed.

(** *** What a parsed request guarantees *)

(** The number of arguments every parsed command of a type has. *)
Definition min_args (type : CommandType) : nat :=
  match type with
  | CT_unknown => 0
  | _ => if expire_family type then 2 else Z.to_nat (Z.abs (command_arity type) - 1)
  end.

Lemma string_not_packed type : is_string_command type = true -> is_packed_zset_command type = false.
Proof. intros Ht. by destruct type. Qed.

Lemma parsed_args name args c :
  parse_fields (name :: args) = inr c -> lookup_command_type name <> CT_unknown ->
  c_type c = lookup_command_type name /\ c_args c = args /\ (min_args (c_type c) <= length args)%nat.
Proof.
  intros Hp Hu. pose proof (parse_fields_eq (name :: args)) as E. rewrite Hp, parse_command_switch in E by done. set (t := lookup_command_type name) in *.
  pose proof (switch_good t _ (prepared_fresh name args)) as Hg. pose proof (switch_arity t (prepared name args) Hu) as Har.
  pose proof (expire_arity_diverges name args) as Hex. fold t in Hex. rewrite parse_command_switch in Hex by done. fold t in Hex.
  unfold good in Hg. rewrite E in *. destruct Hg as (Ht & (_ & Ha & _) & _). rewrite prepared_args in *. split_and!; [done|done|].
  rewrite Ht. replace (min_args t) with (if expire_family t then 2%nat else Z.to_nat (Z.abs (command_arity t) - 1)) by (by destruct t).
  destruct (expire_family t).
  - destruct (Hex eq_refl) as [_ Hex']. destruct (decide (length args < 2)%nat) as [Hl|]; [|lia]. apply Hex' in Hl as [? ?]. done.
  - specialize (Har eq_refl) as [Har _]. destruct (admits (command_arity t) (S (length args))) eqn:Hadm; [|by destruct (Har eq_refl)].
    unfold admits in Hadm. destruct (0 <=? command_arity t) eqn:?; lia.
Qed.

(** Only the packed sorted-set commands carry a packed kind. *)
Lemma parsed_unpacked name args c :
  parse_fields (name :: args) = inr c -> lookup_command_type name <> CT_unknown -> is_packed_zset_command (c_type c) = false -> c_packed_zset_kind c = 0.
Proof.
  intros Hp Hn Hs. destruct (parsed_args name args c Hp Hn) as (Ht & _).
  pose proof (parse_fields_eq (name :: args)) as E. rewrite Hp, parse_command_switch in E by done.
  pose proof (switch_good (lookup_command_type name) _ (prepared_fresh name args)) as Hg. unfold good in Hg. rewrite E in Hg.
  destruct Hg as (_ & (_ & _ & _ & ->) & _). unfold prepared. destruct (packed_zset_command_name name) as [[k s]|] eqn:Hpk; [|done]. exfalso.
  rewrite Ht in Hs. rewrite lookup_command_type_entry in Hs, Hn. unfold is_packed, dispatch_name in Hs, Hn. rewrite Hpk in Hs, Hn.
  rewrite bool_decide_eq_true_2 in Hs, Hn by (by eexists). destruct (dispatch_entry true s) as [e|] eqn:He; [|done].
  apply dispatch_entry_spec in He as (_ & _ & Hk). specialize (Hk eq_refl). by rewrite Hs in Hk.
Qed.

Lemma parsed_string fields c :
  parse_fields fields = inr c -> is_string_command (c_type c) = true -> c_type c <> CT_unknown ->
  c_packed_zset_kind c = 0 /\ (min_args (c_type c) <= length (c_args c))%nat.
Proof.
  intros Hp Hs Hu. destruct fields as [|name args]; [done|].
  assert (Hn : lookup_command_type name <> CT_unknown).
  { intros Hl. destruct (parse_command_unknown name args Hl) as (c' & E & Ht & _). rewrite parse_fields_eq, Hp in E. injection E as ->. done. }
  destruct (parsed_args name args c Hp Hn) as (_ & Ha & Hm). split; [by eapply parsed_unpacked; [..|apply string_not_packed]|by rewrite Ha].
Qed.

Section frame.
Context {L : LZ4} {LC : LZ4Correct L} {Payload : Type}.
Variable string_encoding_ : Z.
Variable clone : KeyType -> Payload -> Payload.
Variable char_value : byte -> Z.
Variable clock : nat -> Z.
Variable options : CommandExecutionOptions.
Variable list_implementation : ListImplementation.
Variable default_packed_zset_kind : option Z.
Variable packed_kind : Payload -> Z.

Abbreviation St := (@Store Payload).
Abbreviation AMap := (gmap bytes (@AObj Payload * option Z)).
Abbreviation Ex := (@Exec Payload).

Variable execute_packed_zset_command : Z -> Command -> M Ex unit.
Variable execute_other : CommandType -> Command -> M Ex unit.

Section body.
Variables (writes : list bytes) (s0 : St) (m0 : AMap).

Abbreviation settles_ := (settles string_encoding_ clock writes s0 m0).
Abbreviation ok := (settles_ store_).
Abbreviation fine op := (ok op (fun _ => True)).
Abbreviation reading := (reading clock).

Lemma ok_store {A} (op : M St A) (P : A -> Prop) : settles_ (fun s => s) op P -> ok (on_store op) P.
Proof.
  intros H x Hx. specialize (H (store_ x) Hx). unfold wp, on_store in *. destruct (op (store_ x)) as [a s|e s|]; cbn; [|done..]. exact H.
Qed.

Lemma ok_now : ok (now_ms clock) reading.
Proof. intros x Hx. split; [by eexists|done]. Qed.
Lemma ok_random : ok next_random (fun n => 0 <= n).
Proof.
  intros x Hx. unfold next_random, wp, random_u64. split; [|done]. apply wrap_range. lia.
Qed.
Lemma ok_write f : fine (write f).
Proof. intros x Hx. by split. Qed.
Lemma ok_bulk t : fine (bulk_reply t).
Proof.
  unfold bulk_reply. eapply settles_bind; [apply settles_gets|]. intros out _. eapply (settles_bind _ _ _ _ _ _ _ _ (fun _ => True)); [eapply settles_need; [apply append_bulk_string_eq|exact I]|].
  intros o _. apply ok_write.
Qed.
Lemma ok_view v : readable v -> fine (view_reply v).
Proof. intros (t & Hr & Hh) x Hx. unfold wp, view_reply. rewrite (append_bulk_view_eq _ _ t) by done. by split. Qed.

Lemma ok_error e : fine (error e).  Proof. apply ok_write. Qed.
Lemma ok_simple e : fine (simple e).  Proof. apply ok_write. Qed.
Lemma ok_integer n : fine (integer n).  Proof. apply ok_write. Qed.
Lemma ok_flag b : fine (flag b).  Proof. apply ok_write. Qed.
Lemma ok_null : fine (null options).  Proof. apply ok_write. Qed.
Lemma ok_text o : fine (text_or_null options o).
Proof. destruct o; [apply ok_bulk|apply ok_null]. Qed.
Lemma ok_integer_or e n : fine (integer_or e n).
Proof. destruct n; [apply ok_integer|apply ok_error]. Qed.
Lemma ok_ret {A} (a : A) : fine (mret a).
Proof. by apply settles_ret. Qed.
Lemma ok_gets {A} (f : Ex -> A) : fine (gets f).
Proof. apply settles_gets. Qed.

Lemma ok_with_integer t f : (forall n, fine (f n)) -> fine (with_integer t f).
Proof. intros Hf. unfold with_integer. destruct (parse_i64 t); [apply Hf|apply ok_error]. Qed.
Lemma ok_with_value v f : fine f -> fine (with_value string_encoding_ v f).
Proof. intros Hf. unfold with_value. destruct (negb _); [apply ok_error|done]. Qed.

Hint Resolve settles_get settles_get_result settles_get_text settles_holds settles_exists settles_type_of settles_strlen
  settles_getrange settles_pttl settles_expiretime settles_erase settles_persist settles_expire_at settles_purge settles_dbsize settles_touch
  settles_random_key settles_set settles_set_keep_ttl settles_set_nx settles_get_set settles_get_del settles_cad settles_cas settles_caexpire
  settles_append settles_incr_by settles_incr_bound settles_decr_positive settles_incr_expire settles_setrange settles_claim settles_rename settles_copy
  settles_set_all settles_mset_nx : settles.
Hint Resolve ok_store ok_now ok_random ok_write ok_bulk ok_view ok_error ok_simple ok_integer ok_flag ok_null ok_text ok_integer_or ok_ret ok_gets : settles.

Ltac step := eapply settles_bind; [by eauto with settles|cbn beta].
Ltac finish := by eauto with settles.

(** *** Times *)

Definition time (w : Z) : Prop := 0 <= w < 2 ^ 48.

Lemma compute_when_time b a u w : compute_when_ms b a u = Some w -> time w.
Proof.
  unfold compute_when_ms, time. destruct (Z.ltb_spec (b + a * u) 0); [intros [= <-]; lia|].
  destruct (Z.leb_spec (2 ^ 48) (b + a * u)); [done|]. intros [= <-]. rewrite wrap_small; lia.
Qed.

Lemma option_when_time opt now a w : option_when opt now a = Some w -> time w.
Proof. unfold option_when. repeat case_match; apply compute_when_time. Qed.

Lemma set_options_time now opts o o' :
  set_options now opts o = inr o' -> (forall w, expire_when o = Some w -> time w) -> forall w, expire_when o' = Some w -> time w.
Proof.
  assert (H : forall n opts o, (length opts <= n)%nat -> set_options now opts o = inr o' -> (forall w, expire_when o = Some w -> time w) ->
    forall w, expire_when o' = Some w -> time w); [|by eapply H].
  clear. induction n as [|n IH]; intros opts o Hl H Ho; (destruct opts as [|opt rest]; cbn [set_options] in H; [injection H as <-; done|]); cbn in Hl; [lia|].
  destruct (equals_ci opt (str "NX")); [eapply IH; [|exact H|done]; lia|]. destruct (equals_ci opt (str "XX")); [eapply IH; [|exact H|done]; lia|].
  destruct (equals_ci opt (str "GET")); [eapply IH; [|exact H|done]; lia|]. destruct (equals_ci opt (str "KEEPTTL")); [eapply IH; [|exact H|done]; lia|].
  destruct (is_time_option opt); [|done]. destruct rest as [|amount rest]; [done|]. destruct (parse_i64 amount) as [a|]; [|done].
  destruct (option_when opt now a) as [w|] eqn:E; [|done]. cbn in Hl. eapply IH; [|exact H|]; [lia|]. cbn. intros w' [= <-]. by eapply option_when_time.
Qed.

Lemma getex_option_time now opts w : getex_option now opts = inr (ActSet w) -> time w.
Proof.
  unfold getex_option. destruct opts as [|opt [|amount [|]]]; try done; repeat case_match; try done. intros [= <-]. by eapply option_when_time.
Qed.

(** *** The handlers *)

Lemma ok_incr k d : k ∈ writes -> fine (append_incr string_encoding_ k d).
Proof. intros Hk. unfold append_incr. step. intros; finish. Qed.

Lemma ok_set_command k v opts : k ∈ writes -> fine (set_command string_encoding_ clock options k v opts).
Proof.
  intros Hk. unfold set_command. apply ok_with_value. destruct opts as [|opt opts]; [step; intros; finish|]. step. intros now Hnow.
  destruct (set_options now (opt :: opts) _) as [e|o] eqn:Ho; [finish|]. pose proof (set_options_time _ _ _ _ Ho ltac:(done)) as Hw. destruct (_ || _); [finish|].
  step. intros found _. step. intros ty _. destruct (_ && _ && _); [finish|]. cbn zeta.
  eapply (settles_bind _ _ _ _ _ _ _ _ (fun _ => True)); [destruct (want_get o); finish|]. intros old _.
  eapply (settles_bind _ _ _ _ _ _ _ _ (fun _ => True)).
  - destruct (_ && _); [|finish]. eapply (settles_bind _ _ _ _ _ _ _ _ (fun _ => True)); [destruct (keepttl o); finish|]. intros _ _.
    destruct (expire_when o) as [w|] eqn:Ew; [|finish]. specialize (Hw w eq_refl). step. intros; finish.
  - intros _ _. destruct (want_get o); [finish|]. destruct (_ && _); finish.
Qed.

Lemma ok_getex_command k opts : k ∈ writes -> fine (getex_command string_encoding_ clock options k opts).
Proof.
  intros Hk. unfold getex_command. step. intros now Hnow. destruct (getex_option now opts) as [e|act] eqn:Ho; [finish|]. step. intros [v|] _; [|finish].
  eapply (settles_bind _ _ _ _ _ _ _ _ (fun _ => True)); [|intros; finish].
  destruct act as [| |w]; [finish|step; intros; finish|]. apply getex_option_time in Ho. step. intros; finish.
Qed.

Lemma ok_get_command k : fine (get_command string_encoding_ options k).
Proof. unfold get_command. step. intros [| |v] Hv; finish. Qed.

Lemma ok_mset_command args : Forall (fun p => p.1 ∈ writes) (pairs_of args) -> fine (mset_command string_encoding_ args).
Proof. intros Hp. unfold mset_command. destruct (negb _); [finish|]. step. intros; finish. Qed.

Lemma ok_purge_all keys now : reading now -> fine (purge_all keys now).
Proof. intros Hn. induction keys as [|k keys IH]; cbn [purge_all]; [finish|]. step. intros; done. Qed.
Hint Resolve ok_purge_all : settles.

Lemma ok_msetnx_command args : Forall (fun p => p.1 ∈ writes) (pairs_of args) -> fine (msetnx_command string_encoding_ clock args).
Proof.
  intros Hp. unfold msetnx_command. destruct (negb _); [finish|]. step. intros none _.
  eapply (settles_bind _ _ _ _ _ _ _ _ (fun _ => True)); [destruct none; cbn [negb]; [finish|step; intros; finish]|]. intros _ _. step. intros; finish.
Qed.

Lemma ok_now_if_ttl : ok (now_if_ttl clock) (fun t => t.1 = true -> reading t.2).
Proof.
  unfold now_if_ttl. step. intros none _. destruct none; cbn [negb]; [by apply settles_ret|]. step. intros now Hn. by apply settles_ret.
Qed.
Hint Resolve ok_now_if_ttl : settles.

Lemma ok_purge_if (b : bool) k now : (b = true -> reading now) -> fine (if b then on_store (purge_if_expired k now);; mret tt else mret tt).
Proof. intros Hn. destruct b; [specialize (Hn eq_refl); step; intros; finish|finish]. Qed.

Lemma ok_mget_loop keys (b : bool) now : (b = true -> reading now) -> fine (mget_loop string_encoding_ options keys b now).
Proof.
  intros Hn. induction keys as [|k keys IH]; cbn [mget_loop]; [finish|]. eapply settles_bind; [by apply ok_purge_if|]. intros _ _. step. intros v Hv.
  eapply (settles_bind _ _ _ _ _ _ _ _ (fun _ => True)); [destruct v; finish|]. done.
Qed.

Lemma ok_del_loop keys n : Forall (fun k => k ∈ writes) keys -> fine (del_loop keys n).
Proof.
  intros Hk. revert n. induction Hk as [|k keys Hk _ IH]; intros n; cbn [del_loop]; [finish|]. step. intros b _. apply IH.
Qed.

Lemma ok_exists_loop keys (b : bool) now n : (b = true -> reading now) -> fine (exists_loop keys b now n).
Proof.
  intros Hn. revert n. induction keys as [|k keys IH]; intros n; cbn [exists_loop]; [finish|]. eapply settles_bind; [by apply ok_purge_if|]. intros _ _.
  step. intros; apply IH.
Qed.

Lemma ok_rename_command nx s d : s ∈ writes -> d ∈ writes -> fine (rename_command clock nx s d).
Proof. intros Hs Hd. unfold rename_command. step. intros now Hn. step. intros [] _; destruct nx; finish. Qed.

Lemma ok_copy_command s d opts : s ∈ writes -> d ∈ writes -> fine (copy_command string_encoding_ clone clock s d opts).
Proof. intros Hs Hd. unfold copy_command. destruct (copy_options _ _ _); [finish|]. step. intros now Hn. step. intros [] _; finish. Qed.

Lemma shown_keys_total o page : exists keys, shown_keys char_value o page = Some keys.
Proof.
  induction page as [|kt page [keys IH]]; [by eexists|]. cbn [shown_keys]. unfold scan_shows.
  assert (exists b, match pattern o with Some p => Scan.scan_glob_match char_value p kt.1 | None => Some true end = Some b) as [b ->].
  { destruct (pattern o) as [p|]; [|by eexists]. unfold Scan.scan_glob_match.
    apply (Scan.scan_loop_total char_value (length p + length kt.1)); [lia|done|unfold PubSub.glob_fuel; lia]. }
  cbn. rewrite IH. by eexists.
Qed.

Lemma ok_bulk_replies l : fine (bulk_replies l).
Proof. induction l as [|v l IH]; cbn [bulk_replies]; [finish|]. step. by intros _ _. Qed.
Hint Resolve ok_bulk_replies : settles.

Lemma ok_scan_command cur opts : fine (scan_command char_value clock cur opts).
Proof.
  unfold scan_command. destruct (parse_u64 cur); [|finish]. destruct (scan_options _ _); [finish|]. step. intros none _.
  eapply (settles_bind _ _ _ _ _ _ _ _ (fun _ => True)); [destruct none; [finish|by eapply settles_any, ok_now]|]. intros now _. step. intros page _.
  destruct (shown_keys_total s page.1) as [keys Hk]. eapply settles_bind; [by eapply (settles_need _ _ _ _ _ _ _ (fun _ => True))|]. intros ks _.
  step. intros _ _. step. intros _ _. step. intros; finish.
Qed.

Lemma ok_expire_command type k a opts : k ∈ writes -> fine (expire_command clock type k a opts).
Proof.
  intros Hk. unfold expire_command. apply ok_with_integer. intros n. destruct (expire_flags _ _); [finish|]. destruct (_ && _); [finish|].
  destruct (_ && _); [finish|]. step. intros now Hn. destruct (unit_of type) as [u rel].
  destruct (compute_when_ms _ _ _) as [w|] eqn:E; [|finish]. apply compute_when_time in E. step. intros; finish.
Qed.

Lemma ok_ttl_command b k : fine (ttl_command clock b k).
Proof. unfold ttl_command. step. intros now Hn. step. intros; finish. Qed.
Lemma ok_expiretime_command b k : fine (expiretime_command b k).
Proof. unfold expiretime_command. step. intros; finish. Qed.

Lemma ok_caexpire_command k t ms : k ∈ writes -> fine (caexpire_command string_encoding_ clock k t ms).
Proof.
  intros Hk. unfold caexpire_command. apply ok_with_integer. intros n. step. intros now Hn.
  destruct (compute_when_ms _ _ _) as [w|] eqn:E; [|finish]. apply compute_when_time in E. step. intros; finish.
Qed.

Lemma ok_cas_command k e v : k ∈ writes -> fine (cas_command string_encoding_ k e v).
Proof. intros Hk. unfold cas_command. apply ok_with_value. step. intros [] _; finish. Qed.

Lemma ok_increx_command k s : k ∈ writes -> fine (increx_command string_encoding_ clock k s).
Proof.
  intros Hk. unfold increx_command. apply ok_with_integer. intros n. step. intros now Hn.
  destruct (compute_when_ms _ _ _) as [w|] eqn:E; [|finish]. apply compute_when_time in E. step. intros; finish.
Qed.

Lemma ok_claim_command c r t s : c ∈ writes -> fine (claim_command string_encoding_ clock options c r t s).
Proof.
  intros Hk. unfold claim_command. apply ok_with_integer. intros n. destruct (_ <=? _); [finish|]. apply ok_with_value. step. intros now Hn.
  destruct (compute_when_ms _ _ _) as [w|] eqn:E; [|finish]. apply compute_when_time in E. step. intros o _. repeat case_match; finish.
Qed.

Lemma ok_setrange_command k o v : k ∈ writes -> fine (setrange_command string_encoding_ k o v).
Proof. intros Hk. unfold setrange_command. apply ok_with_integer. intros n. destruct (_ <? _); [finish|]. step. intros; finish. Qed.

Lemma ok_decrby_command k d : k ∈ writes -> fine (decrby_command string_encoding_ k d).
Proof. intros Hk. unfold decrby_command. apply ok_with_integer. intros n. destruct (_ =? _); [finish|]. by apply ok_incr. Qed.

(** *** The dispatcher *)

Lemma ok_arg c i : (i < length (c_args c))%nat -> ok (arg c i) (fun a => c_args c !! i = Some a).
Proof. intros Hi. apply lookup_lt_is_Some_2 in Hi as [a Ha]. by eapply settles_need. Qed.

Section switch.
Context (type : CommandType) (c : Command).
Context (Hw : forall k, k ∈ written_keys type (c_args c) -> k ∈ writes).

Lemma first_written k : command_mutates_store type = true -> kr_first (command_key_range type) = 1 -> kr_step (command_key_range type) <> 0 ->
  type <> CT_goblin_claim -> (kr_last (command_key_range type) = -1 \/ 1 <= kr_last (command_key_range type)) -> c_args c !! 0%nat = Some k -> k ∈ writes.
Proof.
  intros Hm Hf Hs Hc Hl Hk. apply Hw. unfold written_keys. rewrite Hm. cbn [negb].
  replace (match type with CT_goblin_claim => _ | _ => _ end) with (advertised_keys type (c_args c)) by (by destruct type).
  pose proof (lookup_lt_Some _ _ _ Hk). eapply elem_of_advertised; [done|lia|destruct (_ <? _) eqn:E; lia|].
  rewrite Hf. cbn. by rewrite Z.mod_0_l.
Qed.
End switch.

Ltac args := repeat (eapply settles_bind; [apply ok_arg; lia|cbn beta; intros ? ?]).
Ltac key := eapply first_written; [eassumption|reflexivity|reflexivity|discriminate|discriminate|cbn; lia|eassumption].

Hint Resolve ok_incr ok_set_command ok_getex_command ok_get_command ok_mget_loop ok_exists_loop ok_scan_command ok_expire_command ok_ttl_command
  ok_expiretime_command ok_caexpire_command ok_cas_command ok_increx_command ok_setrange_command ok_decrby_command : settles.

Lemma pair_keys_written type c :
  (type = CT_mset \/ type = CT_msetnx) -> (forall k, k ∈ written_keys type (c_args c) -> k ∈ writes) -> Forall (fun p => p.1 ∈ writes) (pairs_of (c_args c)).
Proof.
  intros Ht Hw. eapply Forall_impl; [apply pairs_of_keys|]. intros p [j Hj]. apply Hw. pose proof (lookup_lt_Some _ _ _ Hj).
  destruct Ht as [-> | ->]; unfold written_keys; cbn [negb command_mutates_store]; (eapply elem_of_advertised; [done|cbn; lia|cbn; lia|]);
    cbn [command_key_range kr_first kr_step]; (replace (Z.of_nat (2 * j) + 1 - 1) with (Z.of_nat j * 2) by lia; by apply Z.mod_mul).
Qed.

Lemma ok_del_command c : (forall k, k ∈ written_keys CT_del (c_args c) -> k ∈ writes) -> fine (del_loop (c_args c) 0).
Proof.
  intros Hw. apply ok_del_loop. apply Forall_lookup. intros i k Hk. apply Hw. pose proof (lookup_lt_Some _ _ _ Hk).
  unfold written_keys. cbn [negb command_mutates_store]. eapply elem_of_advertised; [done|cbn; lia|cbn; lia|apply Z.mod_1_r].
Qed.

Lemma two_written type c k k' :
  (type = CT_rename \/ type = CT_renamenx \/ type = CT_copy) -> (forall k, k ∈ written_keys type (c_args c) -> k ∈ writes) ->
  c_args c !! 0%nat = Some k -> c_args c !! 1%nat = Some k' -> k ∈ writes /\ k' ∈ writes.
Proof.
  intros Ht Hw Hk Hk'. split; apply Hw; destruct Ht as [->|[->| ->]]; unfold written_keys; cbn [negb command_mutates_store];
    (eapply elem_of_advertised; [eassumption|cbn; lia|cbn; lia|reflexivity]).
Qed.

Lemma ok_switch type c :
  is_string_command type = true -> (forall k, k ∈ written_keys type (c_args c) -> k ∈ writes) -> (min_args type <= length (c_args c))%nat ->
  fine (execute_switch string_encoding_ clone char_value clock options execute_other type c).
Proof.
  intros Ht Hw Hn. remember (length (c_args c)) as n eqn:Hlen. destruct type; try (clear - Ht; discriminate Ht).
  all: cbv beta iota zeta delta [execute_switch].
  all: vm_compute in Hn.
  all: args.
  all: try match goal with Hk : c_args ?c !! 0%nat = Some ?k |- _ => assert (k ∈ writes) by key end.
  all: try solve [finish | step; intros; finish | apply ok_with_value; step; intros; finish | apply ok_with_integer; intros; finish
    | step; intros; step; intros; finish | step; intros; step; intros; step; intros; finish].
  - destruct (c_args c); finish.
  - destruct (parse_i64 _); [|finish]. destruct (parse_i64 _); [|finish]. step. intros; finish.
  - apply ok_mset_command. eapply pair_keys_written; [|exact Hw]. auto.
  - apply ok_msetnx_command. eapply pair_keys_written; [|exact Hw]. auto.
  - by apply ok_del_command.
  - edestruct two_written as [? ?]; [left; reflexivity|exact Hw|eassumption..|]. by apply ok_rename_command.
  - edestruct two_written as [? ?]; [right; left; reflexivity|exact Hw|eassumption..|]. by apply ok_rename_command.
  - edestruct two_written as [? ?]; [right; right; reflexivity|exact Hw|eassumption..|]. by apply ok_copy_command.
  - destruct (parse_i64 _); [|finish]. destruct (parse_i64 _); [|finish]. step. intros; finish.
  - apply ok_claim_command, Hw. unfold written_keys. cbn [negb command_mutates_store]. destruct (c_args c); [done|]. simplify_eq/=. by left.
Qed.

Lemma ok_lazy_expiry type c : fine (lazy_expiry clock type c).
Proof.
  unfold lazy_expiry. destruct (c_args c) as [|k l]; [finish|]. step. intros none _. destruct (_ && _); [|finish]. step. intros now Hn. step. intros; finish.
Qed.

Lemma ok_wrong_type type c : fine (wrong_type packed_kind type None c).
Proof. unfold wrong_type. destruct (c_args c) as [|k l]; [finish|]. step. intros; finish. Qed.

Lemma ok_guarded type c :
  is_string_command type = true -> c_packed_zset_kind c = 0 -> (forall k, k ∈ written_keys type (c_args c) -> k ∈ writes) ->
  (min_args type <= length (c_args c))%nat ->
  fine (guarded string_encoding_ clone char_value clock options default_packed_zset_kind packed_kind execute_packed_zset_command execute_other type c).
Proof.
  intros Ht Hp Hw Hn. unfold guarded. eapply settles_bind; [apply ok_lazy_expiry|]. intros _ _. unfold effective_packed_kind.
  rewrite Hp, string_not_packed by done. cbn [Z.eqb negb]. eapply (settles_bind _ _ _ _ _ _ _ _ (fun o => o = None)); [by apply settles_ret|].
  intros o ->. eapply settles_bind; [apply ok_wrong_type|]. intros [] _; [finish|]. by apply ok_switch.
Qed.

Lemma ok_with_guard type c body : fine body -> fine (with_guard options type c body).
Proof.
  intros Hb x Hx. specialize (Hb x Hx). unfold wp, with_guard in *. destruct (body x) as [a y|e y|]; [|..]; try done; destruct (_ && _); done.
Qed.

Lemma string_resolves type i : is_string_command type = true -> resolve_list_command type i = type.
Proof. intros Ht. by destruct type, i. Qed.

Lemma ok_execute c :
  is_string_command (c_type c) = true -> c_packed_zset_kind c = 0 -> (forall k, k ∈ written_keys (c_type c) (c_args c) -> k ∈ writes) ->
  (min_args (c_type c) <= length (c_args c))%nat ->
  fine (execute_command_into string_encoding_ clone char_value clock options list_implementation default_packed_zset_kind packed_kind
          execute_packed_zset_command execute_other c).
Proof.
  intros Ht Hp Hw Hn x Hx. unfold execute_command_into, wp.
  assert (H : fine (execute_command_into_impl string_encoding_ clone char_value clock options list_implementation default_packed_zset_kind packed_kind
          execute_packed_zset_command execute_other c)).
  { unfold execute_command_into_impl. rewrite string_resolves by done. cbn zeta. destruct (_ && _); [finish|]. destruct (_ && _); [finish|].
    by apply ok_with_guard, ok_guarded. }
  specialize (H x Hx). unfold wp in H. destruct (execute_command_into_impl _ _ _ _ _ _ _ _ _ _ c x) as [a y|e y|]; [done| |done].
  destruct H as [-> H]. by split.
Qed.

End body.

Abbreviation handle := (handle_command_into string_encoding_ clone char_value clock options list_implementation default_packed_zset_kind packed_kind
  execute_packed_zset_command execute_other).

Lemma handle_frame (fields : list bytes) (c : Command) (x : Ex) (m : AMap) :
  parse_fields fields = inr c -> is_string_command (c_type c) = true -> c_type c <> CT_unknown -> rep string_encoding_ (store_ x) m ->
  match handle fields x with
  | Ok _ y | Exn LengthError y =>
      exists m' keys, rep string_encoding_ (store_ y) m' /\ told_ (store_ y) = told_ (store_ x) ++ keys /\
        (forall k, m' !! k <> m !! k -> k ∈ keys) /\
        (forall k, k ∈ written_keys (c_type c) (c_args c) \/ m' !! k = m !! k \/
           (m' !! k = None /\ exists e n, a_ttl m k = Some e /\ e <= clock n))
  | _ => False
  end.
Proof.
  intros Hp Hs Hu R. destruct (parsed_string fields c Hp Hs Hu) as [Hk Hn].
  pose proof (ok_execute (written_keys (c_type c) (c_args c)) (store_ x) m c Hs Hk (fun _ H => H) Hn x) as H.
  unfold handle_command_into. rewrite Hp. unfold wp, settles, too_long, reached, at_map in H.
  assert (Hshow : forall y, (exists m', rep string_encoding_ (store_ y) m' /\ (exists keys, told_ (store_ y) = told_ (store_ x) ++ keys /\ noted keys m m') /\
      only clock (written_keys (c_type c) (c_args c)) m m') ->
    exists m' keys, rep string_encoding_ (store_ y) m' /\ told_ (store_ y) = told_ (store_ x) ++ keys /\
        (forall k, m' !! k <> m !! k -> k ∈ keys) /\
        only clock (written_keys (c_type c) (c_args c)) m m').
  { intros y (m' & R' & (keys & T & N) & O). exists m', keys. split_and!; [done|done|..].
    - intros k Hne. destruct (decide (k ∈ keys)); [done|]. by destruct Hne; apply N.
    - exact O. }
  specialize (H ltac:(exists m; split_and!; [done|by exists []; rewrite app_nil_r|apply only_refl])).
  destruct (execute_command_into _ _ _ _ _ _ _ _ _ _ c x) as [a y|e y|]; [|destruct H as [-> H]|done]; apply Hshow; naive_solver.
Qed.

(** C2: no request with a string, key or expiry command can corrupt the store.  This is a server without a memory
    limit, and [is_string_command] has every such command but INCRBYFLOAT.  Whatever its arguments,
    the request is answered or ends in [std::length_error], nothing undefined happens, and afterwards the
    store still represents a map; every key whose object or expiry changed was reported to the mutation
    observer; and the only keys that changed are those the command writes, at the positions COMMAND
    advertises (for GOBLIN.CLAIM its first argument, which COMMAND does not advertise), and keys whose time had come, which are gone.  A
    command that is not classified as a write, which a read-only replica accepts, changes nothing else. *)
Theorem command_frame (fields : list bytes) (c : Command) (x : Ex) (m : AMap) :
  parse_fields fields = inr c -> is_string_command (c_type c) = true -> c_type c <> CT_unknown -> rep string_encoding_ (store_ x) m ->
  match handle fields x with
  | Ok _ y | Exn LengthError y =>
      exists m' keys, rep string_encoding_ (store_ y) m' /\ told_ (store_ y) = told_ (store_ x) ++ keys /\
        (forall k, m' !! k <> m !! k -> k ∈ keys) /\
        (forall k, k ∈ written_keys (c_type c) (c_args c) \/ m' !! k = m !! k \/
           (m' !! k = None /\ exists e n, a_ttl m k = Some e /\ e <= clock n))
  | _ => False
  end.
Proof. apply handle_frame. Qed.

End frame.
