(* ===== verification/ListCommands.v ===== *)
(** * The list commands

    Models the handlers of the list commands in [execute_command_into_impl] of [src/command.cpp], for the segmented
    family, which a plain list command resolves to by default.  They take the place of the handlers [CommandExec]
    leaves open: the dispatcher, its gates and the replies are those of [CommandExec], the store operations those of
    [StoreLists].  No memory limit is configured here; what a limit does to a store operation is in
    [StoreListsSpec]. *)

From S2P Require Import Prelude ParseInt RespWriter StringEncoding MemoryLimit CommandType CommandClass CommandParse Keyspace Store EncodedReply CommandExec ListObject StoreLists.
From stdpp Require Import gmap.
From Stdlib Require Import ZArith Lia ZifyBool.

Import Classes Names Parse.

Local Open Scope Z_scope.

Section handlers.
Context {L : LZ4} {R Other : Type} {LO : ListObject R}.
Variable string_encoding_ : Z.
Variable sizeof_list : Z.
Variable clock : nat -> Z.
Variable options : CommandExecutionOptions.

Abbreviation St := (@Store (Value R Other)).
Abbreviation Ex := (@Exec (Value R Other)).
Abbreviation H A := (M Ex A).

(** [options.blocking_lists.park]: whether the server took the command to run it later; [None] is the null pointer. *)
Variable park : option (Command -> H bool).
(** The handlers of the commands that are not list commands. *)
Variable execute_rest : CommandType -> Command -> H unit.

(** A call of a list operation of the store, outside of any memory budget. *)
Definition on_lists {A} (op : M (world St) A) : H A := fun x =>
  match op (World None (store_ x)) with
  | Ok a w => Ok a (set_store (obj w) x)
  | Exn e w => Exn e (set_store (obj w) x)
  | Ub => Ub
  end.

Definition array_header (n : nat) : H unit := write (fun out => append_array_header out (Z.of_nat n)).
Definition null_array : H unit :=
  write (fun out => match version options with resp3 => append_null out (version options) | _ => out ++ str "*-1" ++ crlf end).

Fixpoint view_replies (values : list EncodedStringView) : H unit :=
  match values with
  | [] => mret tt
  | value :: values => view_reply value;; view_replies values
  end.

(** LPUSH, RPUSH, LPUSHX, RPUSHX. *)
Definition push_command (front only_if_exists : bool) (c : Command) : H unit :=
  if negb (forallb (value_fits string_encoding_) (drop 1 (c_args c))) then error kValueTooLarge
  else
    key ← arg c 0;
    length ← on_lists (push sizeof_list front key (drop 1 (c_args c)) only_if_exists);
    integer length.

(** LPOP, RPOP. *)
Definition pop_command (front : bool) (c : Command) : H unit :=
  if (length (c_args c) =? 1)%nat then
    key ← arg c 0;
    value ← on_lists (pop front key);
    text_or_null options value
  else
    count ← arg c 1;
    with_integer count (fun count =>
      if count <? 0 then error (str "ERR value is out of range, must be positive")
      else
        key ← arg c 0;
        found ← on_store (exists_ key);
        if negb found then null options
        else
          values ← on_lists (pop_count front key count);
          array_header (length values);;
          bulk_replies values).

(** The command waits in the server, or gets its reply. *)
Definition park_or (blocking : bool) (c : Command) (reply : H unit) : H unit :=
  parked ← (match park with Some park => if blocking then park c else mret false | None => mret false end);
  if (parked : bool) then mret tt else reply.

(** LMOVE, RPOPLPUSH, BLMOVE: the type of the destination matters only once there is a value to move. *)
Definition move_command (blocking : bool) (c : Command) : H unit :=
  source ← arg c 0;
  destination ← arg c 1;
  n ← on_lists (llen source);
  if negb (n =? 0) then
    wrong ← (if bool_decide (destination = source) then mret false
             else
               none ← gets (fun x => ttl_empty (store_ x));
               (if negb none then now ← now_ms clock; on_store (purge_if_expired destination now);; mret tt else mret tt);;
               type ← on_store (on_ks (type_of destination));
               mret (match type with Some t => negb (bool_decide (t = KT_List)) | None => false end));
    if (wrong : bool) then error kWrongType
    else
      value ← on_lists (lmove sizeof_list source destination (c_list_pop_front c) (c_list_push_front c));
      match value with
      | Some value => bulk_reply value
      | None => park_or blocking c (null options)
      end
  else park_or blocking c (null options).

(** BLPOP, BRPOP, LMPOP, BLMPOP: the first key that has values; [true] when the command was answered. *)
Fixpoint mpop_loop (single front : bool) (count : Z) (now : Z) (keys : list bytes) : H bool :=
  match keys with
  | [] => mret false
  | key :: keys =>
      none ← gets (fun x => ttl_empty (store_ x));
      (if negb none then on_store (purge_if_expired key now);; mret tt else mret tt);;
      type ← on_store (on_ks (type_of key));
      if (match type with Some t => negb (bool_decide (t = KT_List)) | None => false end) then error kWrongType;; mret true
      else
        n ← on_lists (llen key);
        if n =? 0 then mpop_loop single front count now keys
        else if single then
          value ← on_lists (pop front key);
          match value with
          | None => mpop_loop single front count now keys
          | Some value => array_header 2;; bulk_reply key;; bulk_reply value;; mret true
          end
        else
          values ← on_lists (pop_count front key count);
          if (length values =? 0)%nat then mpop_loop single front count now keys
          else array_header 2;; bulk_reply key;; array_header (length values);; bulk_replies values;; mret true
  end.
Definition mpop_command (blocking single : bool) (c : Command) : H unit :=
  let keys := take (c_list_key_count c) (drop (c_list_key_offset c) (c_args c)) in
  now ← now_ms clock;
  answered ← mpop_loop single (c_list_pop_front c) (c_list_count c) now keys;
  if (answered : bool) then mret tt else park_or blocking c null_array.

Definition llen_command (c : Command) : H unit := key ← arg c 0; n ← on_lists (llen key); integer n.

Definition lindex_command (c : Command) : H unit :=
  index ← arg c 1;
  with_integer index (fun index =>
    key ← arg c 0;
    value ← on_lists (lindex key index);
    match value with Some value => view_reply value | None => null options end).

Definition lrange_command (c : Command) : H unit :=
  key ← arg c 0;
  values ← on_lists (lrange key (c_range_start c) (c_range_stop c));
  array_header (length values);;
  view_replies values.

Definition lset_command (c : Command) : H unit :=
  index ← arg c 1;
  with_integer index (fun index =>
    value ← arg c 2;
    with_value string_encoding_ value (
      key ← arg c 0;
      result ← on_lists (lset key index value);
      match result with
      | Stored => simple (str "OK")
      | MissingKey => error (str "ERR no such key")
      | OutOfRange => error (str "ERR index out of range")
      end)).

Definition ltrim_command (c : Command) : H unit :=
  key ← arg c 0;
  on_lists (ltrim key (c_range_start c) (c_range_stop c));;
  simple (str "OK").

Definition lrem_command (c : Command) : H unit :=
  count ← arg c 1;
  with_integer count (fun count =>
    key ← arg c 0;
    value ← arg c 2;
    n ← on_lists (lrem key count value);
    integer n).

Definition linsert_command (c : Command) : H unit :=
  place ← arg c 1;
  if equals_ci place (str "BEFORE") || equals_ci place (str "AFTER") then
    value ← arg c 3;
    with_value string_encoding_ value (
      key ← arg c 0;
      pivot ← arg c 2;
      n ← on_lists (linsert key (equals_ci place (str "BEFORE")) pivot value);
      integer n)
  else error syntax_error.

(** The cases of the switch for the segmented family. *)
Definition execute_list (type : CommandType) (c : Command) : H unit :=
  match type with
  | CT_segmented_lpush => push_command true false c
  | CT_segmented_rpush => push_command false false c
  | CT_segmented_lpushx => push_command true true c
  | CT_segmented_rpushx => push_command false true c
  | CT_segmented_lpop => pop_command true c
  | CT_segmented_rpop => pop_command false c
  | CT_segmented_lmove | CT_segmented_rpoplpush => move_command false c
  | CT_segmented_blmove => move_command true c
  | CT_segmented_blpop | CT_segmented_brpop => mpop_command true true c
  | CT_segmented_lmpop => mpop_command false false c
  | CT_segmented_blmpop => mpop_command true false c
  | CT_segmented_llen => llen_command c
  | CT_segmented_lindex => lindex_command c
  | CT_segmented_lrange => lrange_command c
  | CT_segmented_lset => lset_command c
  | CT_segmented_ltrim => ltrim_command c
  | CT_segmented_lrem => lrem_command c
  | CT_segmented_linsert => linsert_command c
  | _ => execute_rest type c
  end.
End handlers.
