(* ===== verification/ListCommandsSpec.v ===== *)
(** * List commands from end to end

    From the fields of a request to the reply and the store after it: what each list command means for the map of
    [StoreListsSpec], with the expiry of its key, the check of its type, and every error it answers. *)

From stdpp Require Import gmap.
From S2P Require Import Prelude ParseInt RespWriter StringEncoding MemoryLimit CommandType CommandClass CommandParse Keyspace Store EncodedReply CommandExec CommandFrame SegmentedSpec ListValue ListObject StoreLists StoreListsSpec ListCommands.
From Stdlib Require Import ZArith Lia ZifyBool.

Import Classes Names Parse.

Local Open Scope Z_scope.

Section spec.
Context {L : LZ4} {LC : LZ4Correct L} {R Other : Type} {LO : ListObject R}.
Context {ok : bytes -> Prop} {repr : R -> list bytes -> Prop} {Laws : ListLaws R ok False repr}.
Variable string_encoding_ : Z.
Variable sizeof_list : Z.
Variable clone : KeyType -> Value R Other -> Value R Other.
Variable char_value : byte -> Z.
Variable clock : nat -> Z.
Variable options : CommandExecutionOptions.
Variable default_packed_zset_kind : option Z.
Variable packed_kind : Value R Other -> Z.

Abbreviation St := (@Store (Value R Other)).
Abbreviation Ex := (@Exec (Value R Other)).
Abbreviation VMap := (gmap bytes (Val Other * option Z)).
Abbreviation srep := (srep (repr := repr) string_encoding_).

Variable park : option (Command -> M Ex bool).
Variable execute_rest : CommandType -> Command -> M Ex unit.
Variable execute_packed_zset_command : Z -> Command -> M Ex unit.

(** ** Computations of the handlers *)

(** From [x], whose store represents [v]: the answer [a], the bytes [r] appended to the reply, nothing handed over to
    replication, a store that represents [v'], and every key that changed reported. *)
Definition yields {A : Type} (m : M Ex A) (x : Ex) (v : VMap) (a : A) (r : bytes) (v' : VMap) : Prop :=
  exists y, m x = Ok a y /\ out_ y = out_ x ++ r /\ (sent_ y = sent_ x /\ (ticks_ x <= ticks_ y)%nat) /\ srep (store_ y) v' /\
    exists keys, told_ (store_ y) = told_ (store_ x) ++ keys /\ forall k, k ∉ keys -> v' !! k = v !! k.
Definition gives {A : Type} (m : M Ex A) (v : VMap) (a : A) (r : bytes) (v' : VMap) : Prop := forall x, srep (store_ x) v -> yields m x v a r v'.

Lemma gives_ret {A : Type} (a : A) (v : VMap) : gives (mret a) v a [] v.
Proof. intros x Hx. exists x. rewrite app_nil_r. split_and!; [done..|]. exists []. by rewrite app_nil_r. Qed.

Lemma yields_bind {A B : Type} (m : M Ex A) (f : A -> M Ex B) (x : Ex) (v v1 v2 : VMap) (a : A) (b : B) (r1 r2 r : bytes) :
  yields m x v a r1 v1 -> (forall y, m x = Ok a y -> (ticks_ x <= ticks_ y)%nat -> srep (store_ y) v1 -> yields (f a) y v1 b r2 v2) -> r = r1 ++ r2 -> yields (m ≫= f) x v b r v2.
Proof.
  intros (y & Ey & Oy & [Py Ty] & Sy & k1 & T1 & N1) Hf ->. destruct (Hf y Ey Ty Sy) as (z & Ez & Oz & [Pz Tz] & Sz & k2 & T2 & N2).
  exists z. unfold mbind, M_bind. rewrite Ey. split_and!; [done|by rewrite Oz, Oy, app_assoc|by rewrite Pz|lia|done|]. exists (k1 ++ k2). split; [by rewrite T2, T1, app_assoc|]. intros k Hk. rewrite elem_of_app in Hk. rewrite N2, N1; tauto.
Qed.

(** The same where what follows depends on a later reading of the clock. *)
Lemma yields_later {A B : Type} (m : M Ex A) (f : A -> M Ex B) (x : Ex) (v v1 : VMap) (a : A) (b : B) (o : nat -> bytes * VMap) :
  yields m x v a [] v1 -> (forall y, srep (store_ y) v1 -> exists n, (ticks_ y <= n)%nat /\ yields (f a) y v1 b (o n).1 (o n).2) ->
  exists n, (ticks_ x <= n)%nat /\ yields (m ≫= f) x v b (o n).1 (o n).2.
Proof.
  intros Hm Hf. pose proof Hm as (y & Ey & _ & [_ Ty] & Sy & _). destruct (Hf y Sy) as (n & Hn & Hy). exists n. split; [lia|].
  eapply yields_bind; [exact Hm| |done]. intros y' Ey' _ _. by assert (y' = y) as -> by congruence.
Qed.

Lemma gives_bind {A B : Type} (m : M Ex A) (f : A -> M Ex B) (v v1 v2 : VMap) (a : A) (b : B) (r1 r2 r : bytes) :
  gives m v a r1 v1 -> gives (f a) v1 b r2 v2 -> r = r1 ++ r2 -> gives (m ≫= f) v b r v2.
Proof. intros Hm Hf Hr x Hx. eapply yields_bind; [by apply Hm|intros y _ _; apply Hf|done]. Qed.

(** A step that writes nothing. *)
Lemma gives_then {A B : Type} (m : M Ex A) (f : A -> M Ex B) (v v1 v2 : VMap) (a : A) (b : B) (r : bytes) :
  gives m v a [] v1 -> gives (f a) v1 b r v2 -> gives (m ≫= f) v b r v2.
Proof. intros Hm Hf. by eapply gives_bind. Qed.

Lemma gives_lists {A : Type} (op : M (world St) A) (v : VMap) (a : A) (v' : VMap) (kept : VMap -> Prop) :
  grants (lim := False) (repr := repr) string_encoding_ op v a v' kept -> gives (on_lists op) v a [] v'.
Proof.
  intros Hg x Hx. assert (Hc : calm False None) by (right; split; [by intros []|done]). pose proof (Hg None (store_ x) Hc Hx) as Hw. unfold yields, on_lists, wp in *. destruct (op (World None (store_ x))) as [a' w|e w|]; [|by destruct Hw|done].
  destruct Hw as (-> & _ & Hs & Ht). exists (set_store (obj w) x). rewrite app_nil_r. split_and!; [done..|exact Hs|exact Ht].
Qed.

Lemma gives_write (f : bytes -> bytes) (v : VMap) (r : bytes) : (forall out, f out = out ++ r) -> gives (write f) v tt r v.
Proof. intros Hf x Hx. exists (set_out (f (out_ x)) x). split_and!; [done|apply Hf|done..|]. exists []. by rewrite app_nil_r. Qed.

Definition int_reply (n : Z) : bytes := append_integer [] n.
Definition error_reply (message : bytes) : bytes := append_error [] message.
Definition simple_reply (message : bytes) : bytes := append_simple_string [] message.
Definition null_reply : bytes := append_null [] (version options).

Lemma gives_integer (n : Z) (v : VMap) : gives (integer n) v tt (int_reply n) v.
Proof. apply gives_write. intros out. unfold int_reply, append_integer, append_decimal_i64. by rewrite <- !app_assoc. Qed.
Lemma gives_error (e : bytes) (v : VMap) : gives (error e) v tt (error_reply e) v.
Proof. by apply gives_write. Qed.
Lemma gives_simple (e : bytes) (v : VMap) : gives (simple e) v tt (simple_reply e) v.
Proof. by apply gives_write. Qed.
Lemma gives_null (v : VMap) : gives (null options) v tt null_reply v.
Proof. apply gives_write. intros out. unfold null_reply, append_null, append_null_bulk_string. by destruct (version options). Qed.
Lemma gives_header (n : nat) (v : VMap) : gives (array_header n) v tt (header_line "*"%byte (Z.of_nat n)) v.
Proof. apply gives_write. intros out. apply append_array_header_eq. lia. Qed.
Lemma gives_bulk (t : bytes) (v : VMap) : gives (bulk_reply t) v tt (bulk t) v.
Proof.
  intros x Hx. exists (set_out (out_ x ++ bulk t) x). split_and!; [|done..|exists []; by rewrite app_nil_r]. unfold bulk_reply, mbind, M_bind, gets, need, write, modify. by rewrite append_bulk_string_eq.
Qed.
Lemma gives_bulks (l : list bytes) (v : VMap) : gives (bulk_replies l) v tt (bulks l) v.
Proof. induction l as [|t l IH]; [apply gives_ret|]. cbn [bulk_replies]. eapply gives_bind; [apply gives_bulk|exact IH|done]. Qed.
Lemma gives_view (w : EncodedStringView) (t : bytes) (v : VMap) : reads_as w t -> headed_view w -> gives (view_reply w) v tt (bulk t) v.
Proof. intros Hr Hh x Hx. exists (set_out (out_ x ++ bulk t) x). split_and!; [|done..|exists []; by rewrite app_nil_r]. unfold view_reply. by rewrite (append_bulk_view_eq _ _ t). Qed.
Lemma gives_views (ws : list EncodedStringView) (l : list bytes) (v : VMap) : Forall2 reads_as ws l -> Forall headed_view ws -> gives (view_replies ws) v tt (bulks l) v.
Proof.
  induction 1 as [|w t ws l Hr _ IH]; intros Hh; [apply gives_ret|]. apply Forall_cons in Hh as [Hw Hh]. cbn [view_replies]. eapply gives_bind; [by apply gives_view|by apply IH|done].
Qed.

Lemma gives_arg {B : Type} (c : Command) (i : nat) (a : bytes) (f : bytes -> M Ex B) (v : VMap) (b : B) (r : bytes) (v' : VMap) : c_args c !! i = Some a -> gives (f a) v b r v' -> gives (arg c i ≫= f) v b r v'.
Proof. intros Ha Hf. eapply gives_then; [|exact Hf]. intros x Hx. exists x. unfold arg. rewrite Ha, app_nil_r. split_and!; [done..|]. exists []. by rewrite app_nil_r. Qed.

(** ** What a command asks *)

(** An error, or a request of the store. *)
Definition fitting (values : list bytes) (q : ListRequest) : bytes + ListRequest := if forallb (value_fits string_encoding_) values then inr q else inl kValueTooLarge.
Definition with_count (text : bytes) (q : Z -> bytes + ListRequest) : bytes + ListRequest := match parse_i64 text with Some n => q n | None => inl integer_range_error end.
Definition pop_query (front : bool) (key count : bytes) : bytes + ListRequest :=
  with_count count (fun n => if n <? 0 then inl (str "ERR value is out of range, must be positive") else inr (QPopCount front key n)).

(** The commands on one list. *)
Definition list_query (type : CommandType) (args : list bytes) : option (bytes + ListRequest) :=
  match type, args with
  | CT_segmented_lpush, key :: _ :: _ => Some (fitting (drop 1 args) (QPush true key (drop 1 args) false))
  | CT_segmented_rpush, key :: _ :: _ => Some (fitting (drop 1 args) (QPush false key (drop 1 args) false))
  | CT_segmented_lpushx, key :: _ :: _ => Some (fitting (drop 1 args) (QPush true key (drop 1 args) true))
  | CT_segmented_rpushx, key :: _ :: _ => Some (fitting (drop 1 args) (QPush false key (drop 1 args) true))
  | CT_segmented_lpop, [key] => Some (inr (QPop true key))
  | CT_segmented_rpop, [key] => Some (inr (QPop false key))
  | CT_segmented_lpop, [key; count] => Some (pop_query true key count)
  | CT_segmented_rpop, [key; count] => Some (pop_query false key count)
  | CT_segmented_llen, [key] => Some (inr (QLen key))
  | CT_segmented_lindex, [key; index] => Some (with_count index (fun i => inr (QIndex key i)))
  | CT_segmented_lrange, [key; start; stop] => Some (with_count start (fun i => with_count stop (fun j => inr (QRange key i j))))
  | CT_segmented_lset, [key; index; value] => Some (with_count index (fun i => fitting [value] (QSet key i value)))
  | CT_segmented_ltrim, [key; start; stop] => Some (with_count start (fun i => with_count stop (fun j => inr (QTrim key i j))))
  | CT_segmented_lrem, [key; count; value] => Some (with_count count (fun n => inr (QRem key n value)))
  | CT_segmented_linsert, [key; place; pivot; value] =>
      Some (if equals_ci place (str "BEFORE") || equals_ci place (str "AFTER") then fitting [value] (QInsert key (equals_ci place (str "BEFORE")) pivot value) else inl syntax_error)
  | _, _ => None
  end.
Definition on_one_list (type : CommandType) : bool :=
  match type with
  | CT_segmented_lpush | CT_segmented_rpush | CT_segmented_lpushx | CT_segmented_rpushx | CT_segmented_lpop | CT_segmented_rpop | CT_segmented_llen | CT_segmented_lindex
  | CT_segmented_lrange | CT_segmented_lset | CT_segmented_ltrim | CT_segmented_lrem | CT_segmented_linsert => true
  | _ => false
  end.

(** The indexes of LRANGE and LTRIM are numbers once the command is parsed. *)
Definition ranged (type : CommandType) (c : Command) : Prop :=
  match type with
  | CT_segmented_lrange | CT_segmented_ltrim => exists key start stop, c_args c = [key; start; stop] /\ parse_i64 start = Some (c_range_start c) /\ parse_i64 stop = Some (c_range_stop c)
  | _ => True
  end.

(** What the parser leaves to the handlers. *)
Lemma list_parsed (t : CommandType) (c0 c : Command) :
  on_one_list (resolve_list_command t Segmented) = true -> parse_switch t c0 = Some (inr c) ->
  c_args c = c_args c0 /\ is_Some (list_query (resolve_list_command t Segmented) (c_args c)) /\ ranged (resolve_list_command t Segmented) c.
Proof.
  intros Hl Hp. destruct t; try discriminate Hl; cbv beta iota zeta delta [parse_switch parse_session parse_scripts parse_zset parse_hash parse_set parse_array parse_list] in Hp; cbn [resolve_list_command resolve_segmented].
  all: unfold checked, parse_lrange, parse_range_indexes, parsed, parse_error in Hp; destruct (c_args c0) as [|a [|b [|d [|e [|]]]]] eqn:Ha; try discriminate Hp.
  all: cbn in Hp; try discriminate Hp.
  all: repeat (match type of Hp with context [parse_i64 ?x] => destruct (parse_i64 x) eqn:? end; try discriminate Hp; cbn in Hp).
  all: injection Hp as <-; cbn; rewrite Ha; (split; [done|]); (split; [by eexists|]); try exact I; by eexists _, _, _.
Qed.

(** The reply to a request: LPOP and RPOP with a count answer null, not an array, when the key is not there. *)
Definition list_reply (q : ListRequest) (v : VMap) : bytes :=
  match (a_list q v).1 with
  | AnInt n => int_reply n
  | AnText (Some t) => bulk t
  | AnText None => null_reply
  | AnTexts l => match q with QPopCount _ k _ => if v !! k then command_wire l else null_reply | _ => command_wire l end
  | AnSet Stored | AnOk => simple_reply (str "OK")
  | AnSet MissingKey => error_reply (str "ERR no such key")
  | AnSet OutOfRange => error_reply (str "ERR index out of range")
  end.

(** The reply to a command and the map after it. *)
Definition list_meaning (what : bytes + ListRequest) (v : VMap) : bytes * VMap :=
  match what with
  | inl message => (error_reply message, v)
  | inr q => (list_reply q v, (a_list q v).2)
  end.

Abbreviation execute_list := (execute_list string_encoding_ sizeof_list clock options park execute_rest).
Abbreviation allowed := (allowed (Other := Other) (ok := ok)).

(** What the handler does, given what its store operation does. *)
Lemma gives_push (c : Command) (front xx : bool) (key : bytes) (values : list bytes) (v : VMap) :
  c_args c = key :: values -> (forall q, fitting values (QPush front key values xx) = inr q -> allowed q v) ->
  let m := list_meaning (fitting values (QPush front key values xx)) v in gives (push_command string_encoding_ sizeof_list front xx c) v tt m.1 m.2.
Proof.
  intros Ha Hq. unfold push_command, fitting in *. rewrite Ha. change (drop 1 (key :: values)) with values. destruct (forallb _ values); cbn [negb list_meaning fst snd]; [|apply gives_error]. pose proof (Hq _ eq_refl) as (Hty & Hadd & Hne & Hok & Hlen).
  eapply gives_arg; [by rewrite Ha|]. eapply gives_then; [eapply gives_lists, grants_push; done|]. unfold list_reply, a_list. destruct (xx && _); cbn [fst snd]; apply gives_integer.
Qed.

Lemma srep_exists (s : St) (v : VMap) (k : bytes) : srep s v -> contains k (keyspace_ s) = bool_decide (is_Some (v !! k)).
Proof.
  intros Hs. unfold contains. apply bool_decide_ext. rewrite <- !not_eq_None_Some. by rewrite (srep_none _ _ _ k Hs).
Qed.

Lemma gives_exists (k : bytes) (v : VMap) : gives (on_store (exists_ k)) v (bool_decide (is_Some (v !! k))) [] v.
Proof.
  intros x Hx. exists x. rewrite app_nil_r. split_and!; [|done..|exists []; by rewrite app_nil_r]. unfold on_store, exists_, gets. rewrite (srep_exists _ v) by done. by destruct x.
Qed.

Lemma gives_pop (c : Command) (front : bool) (key : bytes) (v : VMap) :
  c_args c = [key] -> let m := list_meaning (inr (QPop front key)) v in gives (pop_command options front c) v tt m.1 m.2.
Proof.
  intros Ha m. unfold pop_command. rewrite Ha. cbn [length Nat.eqb]. eapply gives_arg; [by rewrite Ha|]. eapply gives_then; [eapply gives_lists, grants_pop|]. subst m. unfold list_meaning, list_reply, a_list. cbn [fst snd].
  destruct (elements v key) as [vs|]; cbn [fst snd].
  - change (default [] (Some vs)) with vs. destruct (popped front 1 vs !! 0%nat) as [t|]; [apply gives_bulk|apply gives_null].
  - replace (popped front 1 (default [] None) !! 0%nat) with (@None bytes) by (by destruct front). apply gives_null.
Qed.

Lemma gives_pop_count (c : Command) (front : bool) (key count : bytes) (v : VMap) :
  (v !! key = None \/ is_Some (elements v key)) ->
  c_args c = [key; count] -> let m := list_meaning (pop_query front key count) v in gives (pop_command options front c) v tt m.1 m.2.
Proof.
  intros Hty Ha m. subst m. unfold pop_command, pop_query, with_count, with_integer. rewrite Ha. cbn [length Nat.eqb]. eapply gives_arg; [by rewrite Ha|]. destruct (parse_i64 count) as [n|]; [|apply gives_error]. destruct (Z.ltb_spec n 0) as [Hn|Hn]; [apply gives_error|].
  eapply gives_arg; [by rewrite Ha|]. eapply gives_then; [apply gives_exists|]. unfold list_meaning, list_reply, a_list. cbn [fst snd]. destruct Hty as [Hk|[vs Hv]].
  - assert (elements v key = None) as -> by (unfold elements; by rewrite Hk). rewrite Hk. cbn [fst snd]. rewrite bool_decide_eq_false_2 by (by intros []). apply gives_null.
  - pose proof Hv as [o Hk]%elements_Some. rewrite Hk, Hv. cbn [fst snd]. rewrite bool_decide_eq_true_2 by (by eexists). cbn [negb]. eapply gives_then; [eapply gives_lists, grants_pop_count; done|]. rewrite Hv. change (default [] (Some vs)) with vs.
    eapply gives_bind; [apply gives_header|apply gives_bulks|done].
Qed.

(** A call that leaves the store as it is, with an answer in [P]. *)
Lemma gives_read {A B : Type} (op : M (world St) A) (P : A -> Prop) (f : A -> M Ex B) (v : VMap) (b : B) (r : bytes) (v' : VMap) :
  (forall s, srep s v -> wp op (fun a w => w = World None s /\ P a) (fun _ _ => False) (World None s)) -> (forall a, P a -> gives (f a) v b r v') -> gives (on_lists op ≫= f) v b r v'.
Proof.
  intros Hop Hf x Hx. specialize (Hop _ Hx). unfold wp in Hop. destruct (op (World None (store_ x))) as [a w|e w|] eqn:E; [|done..]. destruct Hop as [-> Ha].
  destruct (Hf a Ha x Hx) as (y & Ey & Hy). exists y. split; [|exact Hy]. unfold mbind, M_bind, on_lists. rewrite E. cbn [obj]. assert (set_store (store_ x) x = x) as -> by (by destruct x). done.
Qed.

Lemma gives_lindex (k : bytes) (i : Z) (v : VMap) :
  gives (value ← on_lists (lindex k i); match value with Some value => view_reply value | None => null options end) v tt (match elements v k ≫= value_at i with Some t => bulk t | None => null_reply end) v.
Proof.
  apply (gives_read _ (fun found => match elements v k ≫= value_at i with None => found = None | Some t => exists w, found = Some w /\ reads_as w t /\ headed_view w end)).
  - intros s Hs. eapply wp_lindex; [exact Hs|]; done.
  - intros found Hf. destruct (elements v k ≫= value_at i) as [t|]; [destruct Hf as (w & -> & Hr & Hh); by apply gives_view|subst found; by apply gives_null].
Qed.

Lemma gives_lrange (k : bytes) (i j : Z) (v : VMap) :
  gives (values ← on_lists (lrange k i j); array_header (length values);; view_replies values) v tt (command_wire (default [] (slice i j <$> elements v k))) v.
Proof.
  apply (gives_read _ (fun found => Forall2 reads_as found (default [] (slice i j <$> elements v k)) /\ Forall headed_view found)).
  - intros s Hs. eapply wp_lrange; [exact Hs|]; done.
  - intros found [Hr Hh]. eapply gives_bind; [apply gives_header|by apply gives_views|]. by rewrite (Forall2_length _ _ _ Hr).
Qed.

Lemma gives_value (value : bytes) (q : ListRequest) (f : M Ex unit) (v : VMap) :
  (allowed q v -> gives f v tt (list_reply q v) (a_list q v).2) -> (forall q', fitting [value] q = inr q' -> allowed q' v) ->
  let m := list_meaning (fitting [value] q) v in gives (with_value string_encoding_ value f) v tt m.1 m.2.
Proof.
  intros Hf Hq. unfold with_value, fitting in *. cbn [forallb] in *. rewrite andb_true_r in *. destruct (value_fits string_encoding_ value); cbn [negb list_meaning fst snd]; [by apply Hf, Hq|apply gives_error].
Qed.

(** Every command on one list, given that its key holds a list or nothing. *)
Lemma execute_list_gives (type : CommandType) (c : Command) (key : bytes) (args : list bytes) (what : bytes + ListRequest) (v : VMap) :
  list_query type (c_args c) = Some what -> ranged type c -> c_args c = key :: args -> (v !! key = None \/ is_Some (elements v key)) -> (forall q, what = inr q -> allowed q v) ->
  gives (execute_list type c) v tt (list_meaning what v).1 (list_meaning what v).2.
Proof.
  intros Hw Hr Ha Hty Hq. unfold list_query in Hw. rewrite Ha in Hw. destruct type; try discriminate Hw; cbn [ListCommands.execute_list].
  - destruct args; [discriminate Hw|]. injection Hw as <-. by apply gives_push.
  - destruct args; [discriminate Hw|]. injection Hw as <-. by apply gives_push.
  - destruct args; [discriminate Hw|]. injection Hw as <-. by apply gives_push.
  - destruct args; [discriminate Hw|]. injection Hw as <-. by apply gives_push.
  - destruct args as [|count [|]]; try discriminate Hw; injection Hw as <-; [by apply gives_pop|by apply gives_pop_count].
  - destruct args as [|count [|]]; try discriminate Hw; injection Hw as <-; [by apply gives_pop|by apply gives_pop_count].
  - destruct args; [|discriminate Hw]. injection Hw as <-. unfold llen_command. eapply gives_arg; [by rewrite Ha|]. eapply gives_then; [eapply gives_lists, grants_llen|]. apply gives_integer.
  - destruct args as [|index [|]]; try discriminate Hw. injection Hw as <-. unfold lindex_command, with_integer, with_count. eapply gives_arg; [by rewrite Ha|]. destruct (parse_i64 index) as [i|]; [|apply gives_error]. eapply gives_arg; [by rewrite Ha|]. apply gives_lindex.
  - destruct Hr as (k & start & stop & Hargs & Hi & Hj). rewrite Ha in Hargs. injection Hargs as -> ->. injection Hw as <-. unfold with_count. rewrite Hi, Hj. unfold lrange_command. eapply gives_arg; [by rewrite Ha|]. apply gives_lrange.
  - destruct args as [|index [|value [|]]]; try discriminate Hw. injection Hw as <-. unfold lset_command, with_integer, with_count in *. eapply gives_arg; [by rewrite Ha|]. destruct (parse_i64 index) as [i|]; [|apply gives_error]. eapply gives_arg; [by rewrite Ha|].
    apply gives_value; [|done]. intros Hok. eapply gives_arg; [by rewrite Ha|]. eapply gives_then; [eapply gives_lists, grants_lset; done|]. unfold list_reply, a_list. cbn [fst snd]. destruct (a_lset key i value v).1; [apply gives_simple|apply gives_error|apply gives_error].
  - destruct Hr as (k & start & stop & Hargs & Hi & Hj). rewrite Ha in Hargs. injection Hargs as -> ->. injection Hw as <-. unfold with_count. rewrite Hi, Hj. unfold ltrim_command. eapply gives_arg; [by rewrite Ha|]. eapply gives_then; [eapply gives_lists, grants_ltrim|]. apply gives_simple.
  - destruct args as [|count [|value [|]]]; try discriminate Hw. injection Hw as <-. unfold lrem_command, with_integer, with_count in *. eapply gives_arg; [by rewrite Ha|]. destruct (parse_i64 count) as [n|]; [|apply gives_error]. eapply gives_arg; [by rewrite Ha|]. eapply gives_arg; [by rewrite Ha|].
    pose proof (Hq _ eq_refl) as Hn. eapply gives_then; [eapply gives_lists, grants_lrem; exact Hn|]. unfold list_meaning, list_reply, a_list. cbn [fst snd]. destruct (elements v key) as [vs|]; cbn [fst snd]; [apply gives_integer|].
    replace (_ - _) with 0; [apply gives_integer|]. change (default [] None) with (@nil bytes). unfold ListValue.lrem. destruct (n =? 0); [done|]. by destruct (0 <? n).
  - destruct args as [|place [|pivot [|value [|]]]]; try discriminate Hw. injection Hw as <-. unfold linsert_command. eapply gives_arg; [by rewrite Ha|]. destruct (_ || _); [|apply gives_error]. eapply gives_arg; [by rewrite Ha|].
    apply gives_value; [|done]. intros [Hok Hl]. eapply gives_arg; [by rewrite Ha|]. eapply gives_arg; [by rewrite Ha|]. eapply gives_then; [eapply gives_lists, grants_linsert; done|]. apply gives_integer.
Qed.

(** ** The gates of the dispatcher *)

Definition v_due (now : Z) (k : bytes) (v : VMap) : bool := match v_ttl v k with Some e => e <=? now | None => false end.
Definition v_purge (now : Z) (k : bytes) (v : VMap) : VMap := if v_due now k v then delete k v else v.

(** The key holds a value that is not a list. *)
Definition other_type (v : VMap) (k : bytes) : bool := match v !! k with Some (Elements _, _) | None => false | Some _ => true end.

Lemma views_ttl (m : gmap bytes (@AObj (Value R Other) * option Z)) (v : VMap) (k : bytes) : views (repr := repr) m v -> a_ttl m k = v_ttl v k.
Proof. intros Hv. unfold a_ttl, v_ttl. by destruct (Hv k) as [e y [He _]|]. Qed.

Lemma views_purge (now : Z) (k : bytes) (m : gmap bytes (@AObj (Value R Other) * option Z)) (v : VMap) : views (repr := repr) m v -> views (repr := repr) (a_purge now k m) (v_purge now k v).
Proof. intros Hv. unfold a_purge, a_due, v_purge, v_due. rewrite (views_ttl m v k Hv). destruct (match v_ttl v k with Some e => e <=? now | None => false end); [by apply views_delete|done]. Qed.

Lemma views_type (m : gmap bytes (@AObj (Value R Other) * option Z)) (v : VMap) (k : bytes) :
  views (repr := repr) m v -> (match a_type m k with Some t => negb (bool_decide (t = KT_List)) | None => false end) = other_type v k.
Proof.
  intros Hv. unfold a_type, other_type. destruct (Hv k) as [[a o] [y o'] [_ Hs]|]; [|done]. cbn in *. destruct a as [t|ty [l|p]], y as [t'|vs|ty' p']; try done.
  - by destruct Hs as [-> _].
  - destruct Hs as (-> & _ & Hne). by rewrite bool_decide_eq_false_2.
Qed.

Lemma other_type_false (v : VMap) (k : bytes) : other_type v k = false -> v !! k = None \/ is_Some (elements v k).
Proof. unfold other_type, elements. destruct (v !! k) as [[[]]|]; try done; [right; by eexists|by left]. Qed.

Lemma unexpiring (s : St) (v : VMap) (now : Z) (k : bytes) : srep s v -> ttl_empty s = true -> v_purge now k v = v.
Proof. intros (m & Hr & Hv) He%bool_decide_eq_true. unfold v_purge, v_due. by rewrite <- (views_ttl m v k Hv), (rep_no_ttl _ _ _ Hr He). Qed.

Lemma gives_purge (now : Z) (k : bytes) (v : VMap) : gives (on_store (purge_if_expired k now)) v (v_due now k v) [] (v_purge now k v).
Proof.
  intros x (m & Hr & Hv). destruct (does_purge string_encoding_ k now m (store_ x) Hr) as (s' & keys & E & Hr' & Ht & Hn). exists (set_store s' x). rewrite app_nil_r. unfold on_store. rewrite E.
  unfold a_due. rewrite (views_ttl m v k Hv). split_and!; [done..|eexists; split; [exact Hr'|by apply views_purge]|]. exists keys. split; [exact Ht|].
  intros k' Hk'. specialize (Hn k' Hk'). revert Hn. unfold a_purge, a_due, v_purge, v_due. rewrite (views_ttl m v k Hv). destruct (match v_ttl v k with Some e => e <=? now | None => false end); [|done].
  destruct (decide (k' = k)) as [->|]; [|by rewrite !lookup_delete_ne]. rewrite !lookup_delete_eq. intros Hm. symmetry. by apply (views_none m v k Hv).
Qed.

(** The expiry of a key at the time the clock shows; only a key that went away is reported. *)
Definition expire_now (k : bytes) : M Ex unit :=
  none ← gets (fun x => ttl_empty (store_ x));
  if negb none then now ← now_ms clock; on_store (purge_if_expired k now);; mret tt else mret tt.

Lemma yields_expiry (k : bytes) (x : Ex) (v : VMap) : srep (store_ x) v -> yields (expire_now k) x v tt [] (v_purge (clock (ticks_ x)) k v).
Proof.
  intros Hx. unfold yields, expire_now, mbind at 1, M_bind at 1, gets. destruct (ttl_empty (store_ x)) eqn:He; cbn [negb].
  - rewrite (unexpiring _ v _ k Hx He). exact (gives_ret tt v x Hx).
  - set (x1 := mkExec (store_ x) (S (ticks_ x)) (rng_ x) (out_ x) (sent_ x)).
    destruct (gives_purge (clock (ticks_ x)) k v x1 Hx) as (y & E & Ho & [Hs Ht] & Hy & Hk). exists y. unfold mbind, M_bind, now_ms. fold x1. rewrite E. cbn in Ht. split_and!; [done|done|done|lia|exact Hy|exact Hk].
Qed.

(** The lazy expiry of the dispatcher. *)
Lemma yields_lazy (type : CommandType) (c : Command) (k : bytes) (l : list bytes) (x : Ex) (v : VMap) :
  c_args c = k :: l -> srep (store_ x) v -> yields (lazy_expiry clock type c) x v tt [] (if command_has_key_arg type then v_purge (clock (ticks_ x)) k v else v).
Proof.
  intros Ha Hx. unfold lazy_expiry. rewrite Ha. destruct (command_has_key_arg type); [by apply yields_expiry|]. exact (gives_ret tt v x Hx).
Qed.

Abbreviation switch := (execute_switch string_encoding_ clone char_value clock options execute_list).
Abbreviation handle := (handle_command_into string_encoding_ clone char_value clock options Segmented default_packed_zset_kind packed_kind execute_packed_zset_command execute_list).

(** The room a command needs: a key and values that can be stored, and a list below 2^32 values. *)
Definition roomy (q : ListRequest) (v : VMap) : Prop :=
  match q with
  | QPush _ k values _ => addable v k /\ Forall ok values /\ Z.of_nat (length (default [] (elements v k))) + Z.of_nat (length values) < 2 ^ 32
  | QSet _ _ value => ok value
  | QInsert k _ _ value => ok value /\ Z.of_nat (length (default [] (elements v k))) + 1 < 2 ^ 32
  | _ => True
  end.

Lemma parsed_number (text : bytes) (n : Z) : parse_i64 text = Some n -> - 2 ^ 63 <= n < 2 ^ 63.
Proof. intros H%parse_i64_in. unfold in_i64, i64_min, i64_max in H. lia. Qed.

Lemma query_allowed (type : CommandType) (key : bytes) (rest : list bytes) (q : ListRequest) (v : VMap) :
  list_query type (key :: rest) = Some (inr q) -> (v !! key = None \/ is_Some (elements v key)) -> roomy q v -> allowed q v.
Proof.
  intros Hq Hty Hr. destruct type; try discriminate Hq; destruct rest as [|a [|b [|d [|]]]]; try discriminate Hq; cbn [list_query drop] in Hq; unfold pop_query, with_count, fitting in Hq.
  all: repeat (match type of Hq with context [if ?x then _ else _] => destruct x eqn:? | context [parse_i64 ?x] => destruct (parse_i64 x) eqn:? end; try discriminate Hq).
  all: injection Hq as <-; cbn [StoreListsSpec.allowed roomy] in *; try done; try (by destruct Hr as (? & ? & ?); split_and!); first [lia|by eapply parsed_number].
Qed.

(** The reply and the map after a command whose key is [key]. *)
Definition list_outcome (key : bytes) (what : bytes + ListRequest) (v : VMap) : bytes * VMap :=
  if other_type v key then (error_reply kWrongType, v) else list_meaning what v.

(** A computation that asks whether a key holds another type. *)
Lemma gives_type {B : Type} (k : bytes) (f : option KeyType -> M Ex B) (v : VMap) (b : B) (r : bytes) (v' : VMap) :
  (forall type, (match type with Some t => negb (bool_decide (t = KT_List)) | None => false end) = other_type v k -> gives (f type) v b r v') ->
  gives (on_store (on_ks (type_of k)) ≫= f) v b r v'.
Proof.
  intros Hf x Hx. pose proof Hx as (m & Hm & Hv). destruct (Hf _ (views_type m v k Hv) x Hx) as (y & Ey & Hy). exists y. split; [|exact Hy].
  unfold mbind, M_bind, on_store, on_ks. rewrite (type_of_spec _ _ (r_inv _ _ _ Hm) (expiries (store_ x))), (r_map _ _ _ Hm). fold (a_type m k). rewrite <- Ey. by destruct x as [[] ? ? ? ?].
Qed.

(** The type check of a list command. *)
Lemma gives_wrong (type : CommandType) (c : Command) (key : bytes) (rest : list bytes) (v : VMap) :
  is_list_command type = true -> c_args c = key :: rest -> gives (wrong_type packed_kind type None c) v (command_has_key_arg type && other_type v key) [] v.
Proof.
  intros Hl Ha. unfold wrong_type. rewrite Ha. apply gives_type. intros t Ht. rewrite <- Ht. destruct type; try discriminate Hl; try apply gives_ret; destruct t; apply gives_ret.
Qed.

(** From the type check on. *)
Lemma checked_gives (type : CommandType) (c : Command) (key : bytes) (rest : list bytes) (what : bytes + ListRequest) (v : VMap) :
  on_one_list type = true -> c_packed_zset_kind c = 0 -> c_args c = key :: rest -> list_query type (key :: rest) = Some what -> ranged type c ->
  (forall q, what = inr q -> other_type v key = false -> roomy q v) ->
  gives (packed ← effective_packed_kind default_packed_zset_kind packed_kind type c; wrong ← wrong_type packed_kind type packed c;
         if wrong : bool then error kWrongType else match packed with Some kind => execute_packed_zset_command kind c | None => switch type c end)
    v tt (list_outcome key what v).1 (list_outcome key what v).2.
Proof.
  intros Hl Hp Ha Hq Hr Hroom. unfold effective_packed_kind. rewrite Hp. replace (is_packed_zset_command type) with false by (by destruct type). cbn [Z.eqb negb]. eapply gives_then; [apply gives_ret|].
  eapply gives_then; [apply (gives_wrong type c key rest); [by destruct type|done]|]. replace (command_has_key_arg type) with true by (by destruct type). cbn [andb]. unfold list_outcome. destruct (other_type v key) eqn:Ho; [apply gives_error|]. replace (switch type c) with (execute_list type c) by (by destruct type).
  apply other_type_false in Ho as Hty. eapply execute_list_gives; [by rewrite Ha|done|done|done|]. intros q ->. eapply query_allowed; [done|done|by apply Hroom].
Qed.

(** The gates around a command that is let through: a write is handed over with its reply. *)
Lemma dispatched (fields : list bytes) (c : Command) (x : Ex) (v : VMap) (r : bytes) (v' : VMap) (type : CommandType) :
  parse_fields fields = inr c -> type = resolve_list_command (c_type c) Segmented ->
  read_only options && command_mutates_store type = false -> ct_eqb type CT_goblin_load = false ->
  yields (guarded string_encoding_ clone char_value clock options default_packed_zset_kind packed_kind execute_packed_zset_command execute_list type c) x v tt r v' ->
  exists y keys, handle fields x = Ok tt y /\ out_ y = out_ x ++ r /\ srep (store_ y) v' /\
    sent_ y = sent_ x ++ (if replicate_write options && command_mutates_store type then [(c, r)] else []) /\
    told_ (store_ y) = told_ (store_ x) ++ keys /\ forall k, v' !! k <> v !! k -> k ∈ keys.
Proof.
  intros Hp Ht Hro Hload (z & Ez & Oz & [Pz _] & Sz & keys & T & N). unfold handle_command_into. rewrite Hp. unfold execute_command_into, execute_command_into_impl. rewrite <- Ht, Hload, orb_false_r, Hro. cbn [andb].
  unfold with_guard. rewrite Ez. exists (if replicate_write options && command_mutates_store type then mkExec (store_ z) (ticks_ z) (rng_ z) (out_ z) (sent_ z ++ [(c, drop (length (out_ x)) (out_ z))]) else z), keys.
  assert (Hd : drop (length (out_ x)) (out_ z) = r) by (by rewrite Oz, drop_app_length).
  assert (Hn : forall k, v' !! k <> v !! k -> k ∈ keys) by (intros k Hk; destruct (decide (k ∈ keys)) as [|Hni]; [done|]; by destruct Hk; apply N).
  destruct (replicate_write options && command_mutates_store type); cbn [store_ out_ sent_]; (split; [done|]); rewrite ?Hd, Oz, Pz, ?app_nil_r; by split_and!.
Qed.

(** C12: list commands from end to end.  For every request that parses to a list command on one key (LPUSH, RPUSH, LPUSHX,
    RPUSHX, LPOP, RPOP, LLEN, LINDEX, LRANGE, LSET, LTRIM, LREM and LINSERT, under their plain names or those of the segmented
    family) and that a read-only replica does not refuse: the key is removed first when it has expired; a key of another type
    is answered with WRONGTYPE and changes nothing; otherwise the reply is the one the command has for the list under the
    key, with the errors of its numbers, places and values, and the store represents the map after the command.  A write is
    handed over to replication with exactly its reply, and every key that changed was reported. *)
Theorem list_command_end_to_end (name : bytes) (args : list bytes) (c : Command) (x : Ex) (v : VMap) :
  let type := resolve_list_command (lookup_command_type name) Segmented in
  parse_fields (name :: args) = inr c -> on_one_list type = true -> read_only options && command_mutates_store type = false -> srep (store_ x) v ->
  exists key rest what, args = key :: rest /\ list_query type args = Some what /\
    let v1 := v_purge (clock (ticks_ x)) key v in
    let r := list_outcome key what v1 in
    ((forall q, what = inr q -> other_type v1 key = false -> roomy q v1) ->
     exists y keys, handle (name :: args) x = Ok tt y /\ out_ y = out_ x ++ r.1 /\ srep (store_ y) r.2 /\
       sent_ y = sent_ x ++ (if replicate_write options && command_mutates_store type then [(c, r.1)] else []) /\
       told_ (store_ y) = told_ (store_ x) ++ keys /\ forall k, r.2 !! k <> v !! k -> k ∈ keys).
Proof.
  intros type Hp Hl Hro Hs. assert (Hu : lookup_command_type name <> CT_unknown) by (intros E; unfold type in Hl; by rewrite E in Hl).
  destruct (parsed_args name args c Hp Hu) as (Ht & Ha & _). pose proof (parse_fields_eq (name :: args)) as E. rewrite Hp, parse_command_switch in E by done.
  destruct (list_parsed _ _ c Hl E) as (_ & [what Hw] & Hr). fold type in Hw, Hr. rewrite Ha in Hw. destruct args as [|key rest]; [by destruct type|]. exists key, rest, what. split; [done|]. split; [done|]. intros v1 r Hroom.
  assert (Hpk : c_packed_zset_kind c = 0) by (eapply parsed_unpacked; [done|done|]; rewrite Ht; unfold type in Hl; by destruct (lookup_command_type name)).
  eapply dispatched; [done|by rewrite Ht|done|by destruct type|]. unfold guarded.
  eapply yields_bind; [by eapply yields_lazy|intros y _ _ Hy|done]. replace (command_has_key_arg type) with true in Hy |- * by (by destruct type). exact (checked_gives type c key rest what v1 Hl Hpk Ha Hw Hr Hroom y Hy).
Qed.

(** ** Commands on several lists *)

Lemma gives_expire {B : Type} (now : Z) (k : bytes) (f : M Ex B) (v : VMap) (b : B) (r : bytes) (v' : VMap) :
  gives f (v_purge now k v) b r v' -> gives (none ← gets (fun x => ttl_empty (store_ x)); (if negb none then on_store (purge_if_expired k now);; mret tt else mret tt);; f) v b r v'.
Proof.
  intros Hf x Hx. unfold yields, mbind at 1, M_bind at 1, gets. destruct (ttl_empty (store_ x)) eqn:He; cbn [negb].
  - rewrite (unexpiring _ v _ k Hx He) in Hf. exact (Hf x Hx).
  - revert x Hx He. intros x Hx _. revert x Hx. change (gives ((on_store (purge_if_expired k now);; mret tt);; f) v b r v'). eapply gives_then; [eapply gives_then; [apply gives_purge|apply gives_ret]|exact Hf].
Qed.

Definition null_array_reply : bytes := match version options with resp3 => append_null [] (version options) | _ => str "*-1" ++ crlf end.
Lemma gives_null_array (v : VMap) : gives (null_array options) v tt null_array_reply v.
Proof. apply gives_write. intros out. unfold null_array_reply, append_null. by destruct (version options). Qed.

Lemma gives_park (blocking : bool) (c : Command) (reply : M Ex unit) (v : VMap) (r : bytes) (v' : VMap) :
  (blocking = true -> park = None) -> gives reply v tt r v' -> gives (park_or park blocking c reply) v tt r v'.
Proof.
  intros Hp Hr. unfold park_or. eapply (gives_then _ _ v v v' false); [|exact Hr]. destruct park as [p|], blocking; try apply gives_ret. by specialize (Hp eq_refl).
Qed.

(** What BLPOP, BRPOP, LMPOP and BLMPOP take, one after the other: the reply, when a key has values or another type. *)
Fixpoint a_mpop (single front : bool) (count now : Z) (keys : list bytes) (v : VMap) : option bytes * VMap :=
  match keys with
  | [] => (None, v)
  | key :: keys =>
      let v := v_purge now key v in
      if other_type v key then (Some (error_reply kWrongType), v)
      else
        let vs := default [] (elements v key) in
        let n := if single then 1%nat else Nat.min (Z.to_nat count) (length vs) in
        if bool_decide (vs = []) then a_mpop single front count now keys v
        else (Some (header_line "*"%byte 2 ++ bulk key ++ (if single then bulks else command_wire) (popped front n vs)), set_list key (rest_of front n vs) v)
  end.

Lemma gives_mpop (single front : bool) (count now : Z) (keys : list bytes) : 1 <= count -> forall v : VMap,
  let o := a_mpop single front count now keys v in gives (mpop_loop single front count now keys) v (bool_decide (is_Some o.1)) (default [] o.1) o.2.
Proof.
  intros Hc. induction keys as [|key keys IH]; intros v; [apply gives_ret|]. cbn [mpop_loop a_mpop]. set (v1 := v_purge now key v). apply gives_expire. fold v1. apply gives_type. intros type ->.
  destruct (other_type v1 key) eqn:Ho; [eapply gives_bind; [apply gives_error|apply gives_ret|by rewrite app_nil_r]|]. eapply gives_then; [eapply gives_lists, grants_llen|].
  destruct (decide (default [] (elements v1 key) = [])) as [Hvs|Hvs]; [rewrite (bool_decide_eq_true_2 _ Hvs), Hvs; apply IH|]. rewrite (bool_decide_eq_false_2 _ Hvs). apply other_type_false in Ho as [Hn|[vs Hv]]; [by destruct Hvs; unfold elements; rewrite Hn|]. rewrite Hv in *. change (default [] (Some vs)) with vs in *.
  replace (Z.of_nat (length vs) =? 0) with false by (destruct vs; [done|cbn; lia]). destruct single.
  - destruct (pop_split front vs Hvs) as (value & Hp & _). eapply gives_then; [eapply gives_lists, grants_pop|]. rewrite Hv. change (default [] (Some vs)) with vs. rewrite Hp. cbn [lookup list_lookup fst snd].
    eapply gives_bind; [apply gives_header| |reflexivity]. eapply gives_bind; [apply gives_bulk| |reflexivity]. eapply gives_bind; [apply gives_bulk|apply gives_ret|reflexivity].
  - eapply gives_then; [eapply gives_lists, grants_pop_count; lia|]. rewrite Hv. change (default [] (Some vs)) with vs. replace (count =? 0) with false by lia. set (n := Nat.min _ _). assert (Hl : length (popped front n vs) = n) by (apply popped_length; unfold n; lia).
    replace (length (popped front n vs) =? 0)%nat with false by (rewrite Hl; unfold n; destruct vs; [done|cbn; lia]). cbn [fst snd].
    eapply gives_bind; [apply gives_header| |reflexivity]. eapply gives_bind; [apply gives_bulk| |reflexivity]. eapply gives_bind; [apply gives_header| |reflexivity]. eapply gives_bind; [apply gives_bulks|apply gives_ret|by rewrite app_nil_r].
Qed.

(** What LMOVE, RPOPLPUSH and BLMOVE do, once the source is known to hold a list or nothing. *)
Definition a_move (now : Z) (src dst : bytes) (from_front to_front : bool) (v : VMap) : bytes * VMap :=
  if bool_decide (default [] (elements v src) = []) then (null_reply, v)
  else
    let v := if bool_decide (dst = src) then v else v_purge now dst v in
    if negb (bool_decide (dst = src)) && other_type v dst then (error_reply kWrongType, v)
    else (match (a_lmove src dst from_front to_front v).1 with Some t => bulk t | None => null_reply end, (a_lmove src dst from_front to_front v).2).

(** The room a value needs in the destination. *)
Definition room_for_move (dst : bytes) (v : VMap) : Prop :=
  (forall now, addable (v_purge now dst v) dst) /\ forall now, Z.of_nat (length (default [] (elements (v_purge now dst v) dst))) + 1 < 2 ^ 32.

Lemma gives_lmove (blocking : bool) (c : Command) (src dst : bytes) (v : VMap) :
  (blocking = true -> park = None) -> (dst <> src -> other_type v dst = false /\ addable v dst /\ Z.of_nat (length (default [] (elements v dst))) + 1 < 2 ^ 32) ->
  gives (value ← on_lists (lmove sizeof_list src dst (c_list_pop_front c) (c_list_push_front c)); match value with Some value => bulk_reply value | None => park_or park blocking c (null options) end) v tt
    (match (a_lmove src dst (c_list_pop_front c) (c_list_push_front c) v).1 with Some t => bulk t | None => null_reply end) (a_lmove src dst (c_list_pop_front c) (c_list_push_front c) v).2.
Proof.
  intros Hp Hd. eapply gives_then; [eapply gives_lists, grants_lmove|].
  - intros _ Hne. destruct Hd as (Ho & Ha & Hl); [by intros ->|]. by apply other_type_false in Ho.
  - destruct (_.1); [apply gives_bulk|apply gives_park, gives_null; done].
Qed.

(** The clock is read when there is a value to move and the store has expiries. *)
Lemma move_yields (blocking : bool) (c : Command) (src dst : bytes) (rest : list bytes) (x : Ex) (v : VMap) :
  (blocking = true -> park = None) -> c_args c = src :: dst :: rest -> room_for_move dst v -> srep (store_ x) v ->
  exists n, (ticks_ x <= n)%nat /\ let r := a_move (clock n) src dst (c_list_pop_front c) (c_list_push_front c) v in yields (move_command sizeof_list clock options park blocking c) x v tt r.1 r.2.
Proof.
  intros Hp Ha [Hadd Hlen] Hx. unfold move_command. set (o n := a_move (clock n) src dst (c_list_pop_front c) (c_list_push_front c) v). change (exists n, (ticks_ x <= n)%nat /\ yields (move_command sizeof_list clock options park blocking c) x v tt (o n).1 (o n).2).
  unfold move_command, arg. rewrite Ha. do 2 (eapply yields_later; [exact (gives_ret _ v x Hx)|clear x Hx; intros x Hx]). eapply yields_later; [eapply gives_lists; [apply grants_llen|exact Hx]|]. clear x Hx. intros x Hx. exists (ticks_ x). split; [done|].
  subst o. unfold a_move. cbn beta. destruct (decide (default [] (elements v src) = [])) as [Hvs|Hvs].
  { rewrite (bool_decide_eq_true_2 _ Hvs), Hvs. apply gives_park; [done|apply gives_null|done]. }
  rewrite (bool_decide_eq_false_2 _ Hvs). replace (Z.of_nat _ =? 0) with false by (destruct (default [] (elements v src)); [done|cbn; lia]). cbn [negb].
  destruct (decide (dst = src)) as [Hds|Hds]; [rewrite (bool_decide_eq_true_2 _ Hds)|rewrite (bool_decide_eq_false_2 _ Hds)]; cbn [negb andb].
  { eapply gives_then; [apply gives_ret| |exact Hx]. by apply gives_lmove. }
  set (v2 := v_purge (clock (ticks_ x)) dst v).
  assert (Hw : yields (none ← gets (fun x => ttl_empty (store_ x)); (if negb none then now ← now_ms clock; on_store (purge_if_expired dst now);; mret tt else mret tt);;
      type ← on_store (on_ks (type_of dst)); mret (match type with Some t => negb (bool_decide (t = KT_List)) | None => false end)) x v (other_type v2 dst) [] v2).
  { change (yields (expire_now dst;; type ← on_store (on_ks (type_of dst)); mret (match type with Some t => negb (bool_decide (t = KT_List)) | None => false end)) x v (other_type v2 dst) [] v2).
    eapply yields_bind; [by apply yields_expiry| |done]. intros y _ _ Hy. revert y Hy. apply gives_type. intros type ->. apply gives_ret. }
  eapply yields_bind; [exact Hw| |done]. intros y _ _ Hy. destruct (other_type v2 dst) eqn:Ho; [by apply gives_error|]. apply gives_lmove; [done| |done]. intros _. split_and!; [done|apply Hadd|apply Hlen].
Qed.

(** The commands that take from one list for another key or for the client, and those of them that may wait. *)
Definition transfers (type : CommandType) : bool :=
  match type with
  | CT_segmented_lmove | CT_segmented_rpoplpush | CT_segmented_blmove | CT_segmented_blpop | CT_segmented_brpop | CT_segmented_lmpop | CT_segmented_blmpop => true
  | _ => false
  end.
Definition may_wait (type : CommandType) : bool :=
  match type with CT_segmented_blmove | CT_segmented_blpop | CT_segmented_brpop | CT_segmented_blmpop => true | _ => false end.

Definition listed_keys (c : Command) : list bytes := take (c_list_key_count c) (drop (c_list_key_offset c) (c_args c)).
Definition a_pops (single : bool) (c : Command) (now : Z) (v : VMap) : bytes * VMap :=
  let o := a_mpop single (c_list_pop_front c) (c_list_count c) now (listed_keys c) v in (default null_array_reply o.1, o.2).
Definition a_transfer (type : CommandType) (c : Command) (now : Z) (v : VMap) : bytes * VMap :=
  match type, c_args c with
  | CT_segmented_blpop, _ | CT_segmented_brpop, _ => a_pops true c now v
  | CT_segmented_lmpop, _ | CT_segmented_blmpop, _ => a_pops false c now v
  | _, src :: dst :: _ => a_move now src dst (c_list_pop_front c) (c_list_push_front c) v
  | _, _ => (null_reply, v)
  end.
Definition room_for_transfer (type : CommandType) (c : Command) (v : VMap) : Prop :=
  match type, c_args c with
  | CT_segmented_lmove, _ :: dst :: _ | CT_segmented_rpoplpush, _ :: dst :: _ | CT_segmented_blmove, _ :: dst :: _ => room_for_move dst v
  | _, _ => True
  end.

Lemma yields_now (x : Ex) (v : VMap) : srep (store_ x) v -> yields (now_ms clock) x v (clock (ticks_ x)) [] v.
Proof. intros Hx. eexists. split; [done|]. cbn. rewrite app_nil_r. split_and!; [done..|lia|done|]. exists []. by rewrite app_nil_r. Qed.

Lemma pops_yield (blocking single : bool) (c : Command) (x : Ex) (v : VMap) :
  (blocking = true -> park = None) -> 1 <= c_list_count c -> srep (store_ x) v ->
  let r := a_pops single c (clock (ticks_ x)) v in yields (mpop_command clock options park blocking single c) x v tt r.1 r.2.
Proof.
  intros Hp Hc Hx r. unfold mpop_command. eapply yields_bind; [by apply yields_now| |done]. intros y _ _ Hy. revert y Hy. fold (listed_keys c).
  eapply (gives_bind _ _ _ _ _ _ _ _ (match (a_mpop single (c_list_pop_front c) (c_list_count c) (clock (ticks_ x)) (listed_keys c) v).1 with Some _ => [] | None => null_array_reply end)); [by apply gives_mpop| |].
  - destruct (a_mpop _ _ _ _ _ v) as [[a|] v2] eqn:E; subst r; unfold a_pops; rewrite E; cbn [fst snd]; [apply gives_ret|apply gives_park; [done|apply gives_null_array]].
  - subst r. unfold a_pops. destruct (a_mpop _ _ _ _ _ v) as [[a|] v2]; cbn [fst snd]; [by rewrite app_nil_r|done].
Qed.

Lemma transfer_yields (type : CommandType) (c : Command) (x : Ex) (v : VMap) :
  transfers type = true -> (may_wait type = true -> park = None) -> (min_args type <= length (c_args c))%nat -> 1 <= c_list_count c -> room_for_transfer type c v -> srep (store_ x) v ->
  exists n, (ticks_ x <= n)%nat /\ yields (execute_list type c) x v tt (a_transfer type c (clock n) v).1 (a_transfer type c (clock n) v).2.
Proof.
  intros Ht Hp Ha Hc Hroom Hx. unfold a_transfer, room_for_transfer in *. destruct type; try discriminate Ht; cbn [ListCommands.execute_list].
  all: try (exists (ticks_ x); split; [done|]; by apply pops_yield).
  all: destruct (c_args c) as [|src [|dst args]] eqn:E; [cbn in Ha; lia..|]; by eapply move_yields.
Qed.

(** The map after the expiry of the first key, for the commands that begin with a key, and what they do from there. *)
Definition first_expired (type : CommandType) (c : Command) (now : Z) (v : VMap) : VMap :=
  match c_args c with key :: _ => if command_has_key_arg type then v_purge now key v else v | [] => v end.
Definition transfer_outcome (type : CommandType) (c : Command) (now : Z) (v : VMap) : bytes * VMap :=
  if match c_args c with key :: _ => command_has_key_arg type && other_type v key | [] => false end then (error_reply kWrongType, v) else a_transfer type c now v.

Lemma guarded_transfer (type : CommandType) (c : Command) (key : bytes) (rest : list bytes) (x : Ex) (v : VMap) :
  transfers type = true -> (may_wait type = true -> park = None) -> c_packed_zset_kind c = 0 -> c_args c = key :: rest -> (min_args type <= length (c_args c))%nat -> 1 <= c_list_count c ->
  srep (store_ x) v -> let v1 := first_expired type c (clock (ticks_ x)) v in room_for_transfer type c v1 ->
  exists n, (ticks_ x <= n)%nat /\
    yields (guarded string_encoding_ clone char_value clock options default_packed_zset_kind packed_kind execute_packed_zset_command execute_list type c) x v tt (transfer_outcome type c (clock n) v1).1 (transfer_outcome type c (clock n) v1).2.
Proof.
  intros Ht Hp Hpk Ha Hn Hc Hx v1 Hroom. apply (yields_later _ _ x v v1 tt tt (fun n => transfer_outcome type c (clock n) v1)).
  { unfold v1, first_expired. rewrite Ha. by eapply yields_lazy. }
  clearbody v1. clear x Hx. intros x Hx. unfold effective_packed_kind. rewrite Hpk. replace (is_packed_zset_command type) with false by (by destruct type). cbn [Z.eqb negb].
  apply (yields_later _ _ x v1 v1 None tt (fun n => transfer_outcome type c (clock n) v1)); [by apply gives_ret|]. clear x Hx. intros x Hx.
  apply (yields_later _ _ x v1 v1 (command_has_key_arg type && other_type v1 key) tt (fun n => transfer_outcome type c (clock n) v1)); [eapply gives_wrong; [by destruct type|done|done]|]. clear x Hx. intros x Hx.
  unfold transfer_outcome. rewrite Ha. destruct (command_has_key_arg type && other_type v1 key).
  - exists (ticks_ x). split; [done|]. by apply gives_error.
  - replace (switch type c) with (execute_list type c) by (by destruct type). by apply transfer_yields.
Qed.

(** C13: moves and pops over several lists, from end to end.  For every request that parses to LMOVE, RPOPLPUSH, BLMOVE, BLPOP,
    BRPOP, LMPOP or BLMPOP and that neither a read-only replica refuses nor the server parks: LMOVE and its kin answer null
    and change nothing when the source has no values, whatever the destination holds; otherwise the destination, removed
    first when it has expired, must hold a list or nothing, and the value moves from one end to the other.  The pops take
    the given number of values from the first key that has some, answer WRONGTYPE when a key of another type comes before it, and a
    null array when no key has values; keys that have expired are removed on the way and no other key changes. *)
Theorem list_transfer_end_to_end (name : bytes) (args : list bytes) (c : Command) (x : Ex) (v : VMap) :
  let type := resolve_list_command (lookup_command_type name) Segmented in
  let v1 := first_expired type c (clock (ticks_ x)) v in
  parse_fields (name :: args) = inr c -> transfers type = true -> (may_wait type = true -> park = None) -> read_only options && command_mutates_store type = false ->
  srep (store_ x) v -> room_for_transfer type c v1 ->
  exists n y keys, (ticks_ x <= n)%nat /\
    let r := transfer_outcome type c (clock n) v1 in
    handle (name :: args) x = Ok tt y /\ out_ y = out_ x ++ r.1 /\ srep (store_ y) r.2 /\
    sent_ y = sent_ x ++ (if replicate_write options && command_mutates_store type then [(c, r.1)] else []) /\
    told_ (store_ y) = told_ (store_ x) ++ keys /\ forall k, r.2 !! k <> v !! k -> k ∈ keys.
Proof.
  intros type v1 Hp Ht Hw Hro Hs Hroom. assert (Hu : lookup_command_type name <> CT_unknown) by (intros E; unfold type in Ht; by rewrite E in Ht).
  destruct (parsed_args name args c Hp Hu) as (Hty & Ha & Hm). pose proof (parse_fields_eq (name :: args)) as E. rewrite Hp, parse_command_switch in E by done.
  pose proof (switch_good (lookup_command_type name) _ (prepared_fresh name args)) as Hg. unfold good in Hg. rewrite E in Hg. destruct Hg as (_ & _ & [_ _ [Hc _] _ _ _] & _).
  assert (Hpk : c_packed_zset_kind c = 0) by (eapply parsed_unpacked; [done|done|]; rewrite Hty; unfold type in Ht; by destruct (lookup_command_type name)).
  assert (Hmin : (min_args type <= length (c_args c))%nat) by (rewrite Ha; rewrite Hty in Hm; unfold type in *; destruct (lookup_command_type name); try discriminate Ht; exact Hm).
  assert (exists key rest, c_args c = key :: rest) as (key & rest & Hargs). { destruct (c_args c) as [|key rest]; [exfalso; destruct type; try discriminate Ht; cbn in Hmin; lia|by eexists _, _]. }
  destruct (guarded_transfer type c key rest x v Ht Hw Hpk Hargs Hmin Hc Hs Hroom) as (n & Hn & Hy).
  destruct (dispatched (name :: args) c x v _ _ type Hp ltac:(by rewrite Hty) Hro ltac:(by destruct type) Hy) as (y & keys & Hall). by exists n, y, keys.
Qed.
End spec.

(** ** Concrete runs *)

Section examples.
#[local] Existing Instance copy_lz4.
#[local] Existing Instance copy_lz4_correct.
#[local] Existing Instance small_lists.
#[local] Existing Instance small_laws.

Definition list_options : CommandExecutionOptions := mkOptions resp2 false true.
Definition seconds (n : nat) : Z := 1000 * Z.of_nat n.
Definition first_exec : @Exec (Value ListRep unit) := mkExec no_keys 0 1 [] [].
Definition no_rest (t : CommandType) (c : Command) : M (@Exec (Value ListRep unit)) unit := mret tt.
Definition no_packed_zsets (kind : Z) (c : Command) : M (@Exec (Value ListRep unit)) unit := mret tt.

Abbreviation serve_lists := (handle_command_into Options.default (fun _ p => p) u8 seconds list_options Segmented None (fun _ => 0) no_packed_zsets
  (execute_list (R := ListRep) Options.default 16 seconds list_options None no_rest)).

Definition rpush_fields : list bytes := [str "rpush"; str "k"; str "hello"; str "42"].

Lemma list_command_end_to_end_witness :
  exists y keys, serve_lists rpush_fields first_exec = Ok tt y /\ out_ y = str ":2" ++ crlf /\
    srep (repr := list_repr Options.default AllowLz4 4 False) Options.default (store_ y) {[str "k" := (Elements [str "hello"; str "42"], None)]} /\
    (sent_ y).*2 = [str ":2" ++ crlf] /\ told_ (store_ y) = keys /\ str "k" ∈ keys.
Proof.
  destruct (list_command_end_to_end (Other := unit) Options.default 16 (fun _ p => p) u8 seconds list_options None (fun _ => 0) None no_rest no_packed_zsets
    (str "rpush") [str "k"; str "hello"; str "42"] (with_type CT_rpush (prepared (str "rpush") [str "k"; str "hello"; str "42"])) first_exec ∅
    ltac:(vm_compute; reflexivity) ltac:(vm_compute; reflexivity) ltac:(reflexivity) (srep_no_keys False)) as (key & rest & what & Ha & Hw & Hr).
  injection Ha as <- <-. assert (Some (inr (QPush false (str "k") [str "hello"; str "42"] false)) = Some what) as [= <-] by (rewrite <- Hw; vm_compute; reflexivity).
  destruct Hr as (y & keys & E & Ho & Hs & Hsent & Ht & Hk).
  - intros q [= <-] _. split_and!; [intros _; vm_compute; split; discriminate|repeat (constructor; [split; [eexists|]; vm_compute; reflexivity|]); constructor|vm_compute; reflexivity].
  - exists y, keys. split_and!; [exact E|by rewrite Ho; vm_compute|exact Hs|rewrite Hsent; vm_compute; reflexivity|exact Ht|apply Hk; vm_compute; discriminate].
Defined.

(** The store with the list of "hello" and "42" under "k". *)
Definition pair_map : gmap bytes (Val unit * option Z) := {[str "k" := (Elements [str "hello"; str "42"], None)]}.

Lemma srep_with_pair : srep (repr := list_repr Options.default AllowLz4 4 False) Options.default with_pair pair_map.
Proof.
  assert (Hc : calm False None) by (right; split; [by intros []|done]).
  assert (Hok : Forall (encodable Options.default AllowLz4) [str "hello"; str "42"]) by (repeat (constructor; [split; [eexists|]; vm_compute; reflexivity|]); constructor).
  pose proof (grants_push (Other := unit) (lim := False) Options.default 16 false (str "k") [str "hello"; str "42"] false ∅ ltac:(by left) ltac:(intros _; vm_compute; split; discriminate) ltac:(done) Hok ltac:(vm_compute; reflexivity) None no_keys Hc (srep_no_keys False)) as Hw.
  unfold with_pair. unfold wp in Hw. destruct (push _ _ _ _ _ _) as [n w|e w|]; [by destruct Hw as (_ & _ & Hs & _)|by destruct Hw as [[] _]|done].
Qed.

Definition lmove_args : list bytes := [str "k"; str "d"; str "LEFT"; str "RIGHT"].
Definition lmove_parsed : Command := with_list_push_front false (with_list_pop_front true (with_type CT_lmove (prepared (str "LMOVE") lmove_args))).
Definition moved_map : gmap bytes (Val unit * option Z) := {[str "k" := (Elements [str "42"], None); str "d" := (Elements [str "hello"], None)]}.

Lemma list_transfer_end_to_end_witness :
  exists y keys, serve_lists (str "LMOVE" :: lmove_args) (mkExec with_pair 0 1 [] []) = Ok tt y /\ out_ y = bulk (str "hello") /\
    srep (repr := list_repr Options.default AllowLz4 4 False) Options.default (store_ y) moved_map /\ told_ (store_ y) = [str "k"] ++ keys /\ str "k" ∈ keys /\ str "d" ∈ keys.
Proof.
  destruct (list_transfer_end_to_end (Other := unit) Options.default 16 (fun _ p => p) u8 seconds list_options None (fun _ => 0) None no_rest no_packed_zsets
    (str "LMOVE") lmove_args lmove_parsed (mkExec with_pair 0 1 [] []) pair_map) as (n & y & keys & _ & E & Ho & Hs & _ & Ht & Hk).
  - vm_compute. reflexivity.
  - vm_compute. reflexivity.
  - done.
  - reflexivity.
  - apply srep_with_pair.
  - split; intros now; vm_compute; [intros _; split; discriminate|reflexivity].
  - assert (Hr : transfer_outcome list_options CT_segmented_lmove lmove_parsed (seconds n) pair_map = (bulk (str "hello"), moved_map)) by (vm_compute; reflexivity).
    exists y, keys. split_and!; [exact E|exact (eq_trans Ho (f_equal fst Hr))|exact (eq_ind _ (fun v => srep (repr := list_repr Options.default AllowLz4 4 False) Options.default (store_ y) v) Hs _ (f_equal snd Hr))|exact Ht|apply Hk; vm_compute; discriminate..].
Defined.
End examples.
