(* ===== verification/CommandRuns.v ===== *)
(** * Commands from end to end

    What single requests do, from their fields to the reply: the passage through the
    gates of the dispatcher, and the commands a replica receives (SET, DEL, PEXPIREAT,
    PERSIST) with GET. *)

From S2P Require Import Prelude ParseInt RespWriter StringEncoding MemoryLimit CommandType CommandClass CommandParse Keyspace Store StoreSpec EncodedReply CommandExec CommandFrame.
From stdpp Require Import gmap.
From Stdlib Require Import ZArith Lia ZifyBool.

Import Classes Names Parse.

Local Open Scope Z_scope.

Section runs.
Context {L : LZ4} {LC : LZ4Correct L} {Payload : Type}.
Variable string_encoding_ : Z.
Variable clone : KeyType -> Payload -> Payload.
Variable char_value : byte -> Z.
Variable clock : nat -> Z.
Variable options : CommandExecutionOptions.
Variable list_implementation : ListImplementation.
Variable default_packed_zset_kind : option Z.
Variable packed_kind : Payload -> Z.

Abbreviation St := (@Store Payload).
Abbreviation AMap := (gmap bytes (@AObj Payload * option Z)).
Abbreviation Ex := (@Exec Payload).
Implicit Types (m : AMap) (k : bytes) (x : Ex) (now : Z).

Variable execute_packed_zset_command : Z -> Command -> M Ex unit.
Variable execute_other : CommandType -> Command -> M Ex unit.

Abbreviation rep_ := (rep string_encoding_).
Abbreviation switch := (execute_switch string_encoding_ clone char_value clock options execute_other).
Abbreviation execute := (execute_command_into string_encoding_ clone char_value clock options list_implementation default_packed_zset_kind packed_kind
  execute_packed_zset_command execute_other).
Abbreviation handle := (handle_command_into string_encoding_ clone char_value clock options list_implementation default_packed_zset_kind packed_kind
  execute_packed_zset_command execute_other).

(** A call of the store whose effect is known. *)
Lemma store_run {A} (op : M St A) m a m' x :
  does string_encoding_ op m a m' -> rep_ (store_ x) m -> exists s', on_store op x = Ok a (set_store s' x) /\ rep_ s' m'.
Proof. intros Hd R. destruct (Hd _ R) as (s' & keys & E & R' & _). exists s'. unfold on_store. by rewrite E. Qed.

(** What the lazy expiry of the first key leaves; the reply is not touched. *)
Lemma lazy_run type c k l x m :
  c_args c = k :: l -> rep_ (store_ x) m -> command_has_key_arg type = true ->
  exists y, lazy_expiry clock type c x = Ok tt y /\ out_ y = out_ x /\ (ticks_ x <= ticks_ y)%nat /\ rep_ (store_ y) (a_purge (clock (ticks_ x)) k m).
Proof.
  intros Ha R Hk. unfold lazy_expiry. rewrite Ha. unfold mbind at 1, M_bind at 1, gets. rewrite Hk. cbn [andb].
  destruct (ttl_empty (store_ x)) eqn:He; cbn [negb].
  - exists x. split_and!; [done|done|done|]. unfold a_purge, a_due. apply bool_decide_eq_true in He. by rewrite (rep_no_ttl _ _ _ R He).
  - set (x1 := mkExec (store_ x) (S (ticks_ x)) (rng_ x) (out_ x) (sent_ x)).
    destruct (store_run (purge_if_expired k (clock (ticks_ x))) m _ _ x1 (does_purge _ _ _ _) R) as (s' & E & R').
    exists (set_store s' x1). unfold mbind, M_bind, now_ms. fold x1. rewrite E. split_and!; [done|done|cbn; lia|done].
Qed.

(** The gates of a command whose first argument is a key. *)
Lemma enter c k l x m :
  is_string_command (c_type c) = true -> c_packed_zset_kind c = 0 -> command_has_key_arg (c_type c) = true -> c_args c = k :: l ->
  read_only options = false -> rep_ (store_ x) m ->
  let m1 := a_purge (clock (ticks_ x)) k m in
  (forall r t, command_requires_type (c_type c) = Some r -> a_type m1 k = Some t -> t = r) ->
  exists y, out_ y = out_ x /\ (ticks_ x <= ticks_ y)%nat /\ rep_ (store_ y) m1 /\
    (forall z, switch (c_type c) c y = Ok tt z -> exists w, execute c x = Ok tt w /\ store_ w = store_ z /\ out_ w = out_ z /\ ticks_ w = ticks_ z) /\
    (forall z, switch (c_type c) c y = Exn LengthError z -> exists w, execute c x = Exn LengthError w /\ store_ w = store_ z).
Proof.
  intros Hs Hp Hk Ha Hro R m1 Hty. destruct (lazy_run (c_type c) c k l x m Ha R Hk) as (y & El & Ho & Hticks & Ry). fold m1 in Ry. exists y. split; [done|]. split; [done|]. split; [done|].
  assert (Hb : execute_command_into_impl string_encoding_ clone char_value clock options list_implementation default_packed_zset_kind packed_kind
      execute_packed_zset_command execute_other c x = with_guard options (c_type c) c (fun _ => switch (c_type c) c y) x).
  { unfold execute_command_into_impl. replace (resolve_list_command (c_type c) list_implementation) with (c_type c) by (by destruct (c_type c), list_implementation).
    rewrite Hro. replace (ct_eqb (c_type c) CT_goblin_load) with false by (by destruct (c_type c)). cbn [andb]. unfold with_guard.
    replace (guarded _ _ _ _ _ _ _ _ _ (c_type c) c x) with (switch (c_type c) c y); [done|]. symmetry. unfold guarded, mbind, M_bind. rewrite El.
    unfold effective_packed_kind. rewrite Hp. replace (is_packed_zset_command (c_type c)) with false by (by destruct (c_type c)). cbn [Z.eqb negb].
    unfold mret, M_ret, wrong_type. rewrite Ha. destruct (store_run (on_ks (type_of k)) m1 _ _ y (does_type_of _ _ _) Ry) as (s' & E & R').
    assert (set_store s' y = y) as Hid.
    { revert E. unfold on_store, on_ks. rewrite (type_of_spec _ _ (r_inv _ _ _ Ry) (expiries (store_ y))). intros [= _ <-]. destruct y as [[] ? ? ? ?]. done. }
    unfold mbind, M_bind. rewrite E, Hid. unfold mret, M_ret. destruct (command_requires_type (c_type c)) as [r|] eqn:Hr; [|done].
    destruct (a_type m1 k) as [t|] eqn:Ht; [|done]. rewrite (Hty r t eq_refl eq_refl). by rewrite bool_decide_eq_true_2. }
  split; intros z Hz; unfold execute_command_into; rewrite Hb; unfold with_guard; rewrite Hz; destruct (_ && _); eexists; (split; [reflexivity|done]).
Qed.

(** ** Requests *)

Definition parsed_as (name : bytes) (type : CommandType) (args : list bytes) : Command := with_type type (prepared name args).

Lemma handle_parsed fields c x : parse_fields fields = inr c -> handle fields x = execute c x.
Proof. intros Hp. unfold handle_command_into. by rewrite Hp. Qed.

Lemma parse_set k v : parse_fields [str "SET"; k; v] = inr (parsed_as (str "SET") CT_set [k; v]).
Proof. vm_compute. reflexivity. Qed.
Lemma parse_get k : parse_fields [str "GET"; k] = inr (parsed_as (str "GET") CT_get [k]).
Proof. vm_compute. reflexivity. Qed.
Lemma parse_del k : parse_fields [str "DEL"; k] = inr (parsed_as (str "DEL") CT_del [k]).
Proof. vm_compute. reflexivity. Qed.
Lemma parse_persist k : parse_fields [str "PERSIST"; k] = inr (parsed_as (str "PERSIST") CT_persist [k]).
Proof. vm_compute. reflexivity. Qed.
Lemma parse_pexpireat k w : parse_fields [str "PEXPIREAT"; k; w] = inr (parsed_as (str "PEXPIREAT") CT_pexpireat [k; w]).
Proof. vm_compute. reflexivity. Qed.

Context (Hro : read_only options = false).

Ltac entered name type args := edestruct (enter (parsed_as name type args)) as (y & Ho & Hticks & Ry & Hok & Hex); [reflexivity|reflexivity|reflexivity|reflexivity|exact Hro|eassumption|done|];
  cbn [c_type parsed_as with_type] in Hok, Hex; change (c_args (parsed_as name type args)) with args in *.

(** The limits of a key and a text; a key that is there already needs no room. *)
Definition settable (m : AMap) (k v : bytes) : Prop :=
  Z.of_nat (length k) <= kMaxBlobBytes /\ (m !! k = None -> Z.of_nat (size m) <= kMaxKeyId) /\ plain v /\ storable string_encoding_ v = true.

Lemma settable_purge (s : St) m k v now : rep_ s m -> settable m k v -> writable string_encoding_ (a_purge now k m) k v.
Proof.
  intros R (Hl & Hs & Hp & Hst). split_and!; [|done..]. intros Hn. split; [done|]. unfold a_purge in *. destruct (a_due now k m) eqn:Hd; [|by apply Hs].
  assert (is_Some (m !! k)) as [e He]. { unfold a_due, a_ttl in Hd. destruct (m !! k); [by eexists|done]. }
  pose proof (rep_size _ _ _ R) as Hsz. pose proof (k_small _ _ (r_inv _ _ _ R)) as Hk. unfold ks_size in Hsz. rewrite Hsz in Hk.
  rewrite map_size_delete_Some by (by eexists). unfold kMaxKeyId. lia.
Qed.

Lemma insert_purge now k (e : @AObj Payload * option Z) m : <[k := e]> (a_purge now k m) = <[k := e]> m.
Proof. unfold a_purge. destruct (a_due now k m); [apply insert_delete_eq|done]. Qed.

Lemma delete_purge now k m : delete k (a_purge now k m) = delete k m.
Proof. unfold a_purge. destruct (a_due now k m); [by rewrite delete_delete_eq|done]. Qed.

Lemma set_run k v x m :
  rep_ (store_ x) m -> settable m k v ->
  exists w, handle [str "SET"; k; v] x = Ok tt w /\ out_ w = out_ x ++ str "+OK" ++ crlf /\ rep_ (store_ w) (<[k := (AStr v, None)]> m).
Proof.
  intros R Hw. rewrite (handle_parsed _ _ _ (parse_set k v)). entered (str "SET") CT_set [k; v].
  destruct (store_run (set string_encoding_ k v) _ _ _ y (does_set _ _ _ _ (settable_purge _ _ _ _ _ R Hw)) Ry) as (s' & E & R').
  destruct (Hok (set_out (out_ y ++ str "+OK" ++ crlf) (set_store s' y))) as (w & Ew & Hst & Hout & _).
  { cbv beta iota zeta delta [execute_switch arg]. change (c_args _) with [k; v]. unfold mbind at 1 2, M_bind at 1 2, need. cbn [lookup list_lookup drop].
    unfold set_command, with_value. rewrite value_fits_storable. destruct Hw as (_ & _ & _ & ->). cbn [negb]. unfold mbind, M_bind. rewrite E. done. }
  exists w. split; [done|]. rewrite Hout, Hst. cbn. rewrite Ho. split; [done|]. by rewrite insert_purge in R'.
Qed.

Lemma get_run k x m :
  rep_ (store_ x) m ->
  exists w, handle [str "GET"; k] x = Ok tt w /\ rep_ (store_ w) (a_purge (clock (ticks_ x)) k m) /\
    out_ w = (match a_purge (clock (ticks_ x)) k m !! k with
              | None => append_null (out_ x) (version options)
              | Some (AStr t, _) => out_ x ++ bulk t
              | Some (AOther _ _, _) => append_error (out_ x) kWrongType
              end).
Proof.
  intros R. rewrite (handle_parsed _ _ _ (parse_get k)). entered (str "GET") CT_get [k]. set (m1 := a_purge (clock (ticks_ x)) k m) in *.
  pose proof (get_string_result_spec _ _ (r_inv _ _ _ Ry) (expiries (store_ y)) k) as Hg. rewrite (r_map _ _ _ Ry) in Hg.
  assert (Hid : set_store (set_ks (keyspace_ (store_ y)) (store_ y)) y = y) by (by destruct y as [[] ? ? ? ?]).
  assert (Hsw : switch CT_get (parsed_as (str "GET") CT_get [k]) y = Ok tt (set_out (match m1 !! k with
              | None => append_null (out_ y) (version options)
              | Some (AStr t, _) => out_ y ++ bulk t
              | Some (AOther _ _, _) => append_error (out_ y) kWrongType
              end) y)).
  { cbv beta iota zeta delta [execute_switch arg]. change (c_args _) with [k]. unfold mbind at 1, M_bind at 1, need. cbn [lookup list_lookup].
    unfold get_command, get_result, mbind, M_bind, on_store, on_ks. destruct (m1 !! k) as [[[t|ty p] b]|].
    - destruct Hg as (v & -> & Hr & Hh). rewrite Hid. unfold view_reply. by rewrite (append_bulk_view_eq _ _ t).
    - rewrite Hg, Hid. done.
    - rewrite Hg, Hid. done. }
  destruct (Hok _ Hsw) as (w & Ew & Hst & Hout & _). exists w. rewrite Hst, Hout. cbn. rewrite Ho. done.
Qed.

Lemma del_run k x m :
  rep_ (store_ x) m ->
  exists w, handle [str "DEL"; k] x = Ok tt w /\ rep_ (store_ w) (delete k m) /\ exists n, out_ w = append_integer (out_ x) n.
Proof.
  intros R. rewrite (handle_parsed _ _ _ (parse_del k)). entered (str "DEL") CT_del [k].
  destruct (store_run (erase_key k) _ _ _ y (does_erase _ _ _) Ry) as (s' & E & R'). rewrite delete_purge in R'.
  destruct (Hok (set_out (append_integer (out_ y) (if a_has (a_purge (clock (ticks_ x)) k m) k then 1 else 0)) (set_store s' y))) as (w & Ew & Hst & Hout & _).
  { cbv beta iota zeta delta [execute_switch]. change (c_args _) with [k]. cbn [del_loop]. unfold mbind, M_bind. rewrite E. by destruct (a_has _ k). }
  exists w. rewrite Hst, Hout. cbn. rewrite Ho. split_and!; [done|done|by eexists].
Qed.

Lemma persist_run k x m :
  rep_ (store_ x) m ->
  exists w, handle [str "PERSIST"; k] x = Ok tt w /\ rep_ (store_ w) (with_ttl k None (a_purge (clock (ticks_ x)) k m)) /\ exists n, out_ w = append_integer (out_ x) n.
Proof.
  intros R. rewrite (handle_parsed _ _ _ (parse_persist k)). entered (str "PERSIST") CT_persist [k]. set (m1 := a_purge (clock (ticks_ x)) k m) in *.
  destruct (store_run (persist k) _ _ _ y (does_persist _ _ _) Ry) as (s' & E & R').
  destruct (Hok (set_out (append_integer (out_ y) (if bool_decide (is_Some (a_ttl m1 k)) then 1 else 0)) (set_store s' y))) as (w & Ew & Hst & Hout & _).
  { cbv beta iota zeta delta [execute_switch arg]. change (c_args _) with [k]. unfold mbind at 1, M_bind at 1, need. cbn [lookup list_lookup]. unfold mbind, M_bind. rewrite E. done. }
  exists w. rewrite Hst, Hout. cbn. rewrite Ho. split_and!; [done|done|by eexists].
Qed.

(** PEXPIREAT with a time of 48 bits; [n] is the reading of the clock the command works with. *)
Lemma pexpireat_run k when_ms x m :
  rep_ (store_ x) m -> 0 <= when_ms < 2 ^ 48 ->
  exists w n, handle [str "PEXPIREAT"; k; to_chars_u64 when_ms] x = Ok tt w /\ (ticks_ x <= n)%nat /\
    rep_ (store_ w) (a_expire k when_ms (clock n) kNone (a_purge (clock (ticks_ x)) k m)).2 /\ exists b, out_ w = append_integer (out_ x) b.
Proof.
  intros R Hw. rewrite (handle_parsed _ _ _ (parse_pexpireat k _)). entered (str "PEXPIREAT") CT_pexpireat [k; to_chars_u64 when_ms].
  set (m1 := a_purge (clock (ticks_ x)) k m) in *. set (y1 := mkExec (store_ y) (S (ticks_ y)) (rng_ y) (out_ y) (sent_ y)).
  destruct (store_run (expire_at_ms k when_ms (clock (ticks_ y)) kNone) _ _ _ y1 (does_expire_at _ _ _ _ _ _ Hw) Ry) as (s' & E & R').
  destruct (Hok (set_out (append_integer (out_ y) (if (a_expire k when_ms (clock (ticks_ y)) kNone m1).1 then 1 else 0)) (set_store s' y1))) as (w & Ew & Hst & Hout & _).
  { cbv beta iota zeta delta [execute_switch arg]. change (c_args _) with [k; to_chars_u64 when_ms]. unfold mbind at 1 2, M_bind at 1 2, need. cbn [lookup list_lookup drop].
    unfold expire_command, with_integer. assert (parse_i64 (to_chars_u64 when_ms) = Some when_ms) as ->.
    { rewrite <- (parse_to_string when_ms) by (unfold Store.in_i64, i64_min, i64_max; lia). unfold to_string_i64. by replace (when_ms <? 0) with false by lia. }
    cbn [expire_flags]. unfold kNone at 1 2 3 4 5 6. cbn [kNx kXx kGt kLt andb orb]. unfold mbind, M_bind, now_ms. cbn [unit_of]. fold y1.
    assert (compute_when_ms 0 when_ms 1 = Some when_ms) as ->.
    { unfold compute_when_ms. replace (0 + when_ms * 1) with when_ms by lia. replace (when_ms <? 0) with false by lia. replace (2 ^ 48 <=? when_ms) with false by lia.
      by rewrite wrap_small by lia. }
    rewrite E. done. }
  exists w, (ticks_ y). rewrite Hst, Hout. cbn. rewrite Ho. split_and!; [done|done|done|by eexists].
Qed.

(** ** Across requests *)

(** Requests in order. *)
Fixpoint handle_all (requests : list (list bytes)) : M Ex unit :=
  match requests with
  | [] => mret tt
  | fields :: requests => handle fields;; handle_all requests
  end.

(** A request that parses to a string, key or expiry command and does not write [k]. *)
Definition spares (k : bytes) (fields : list bytes) : Prop :=
  exists c, parse_fields fields = inr c /\ is_string_command (c_type c) = true /\ c_type c <> CT_unknown /\ k ∉ written_keys (c_type c) (c_args c).

(** A key without expiry keeps its value through requests that do not write it. *)
Lemma spared_kept k requests x y m a :
  Forall (spares k) requests -> rep_ (store_ x) m -> m !! k = Some (a, None) -> handle_all requests x = Ok tt y ->
  exists m', rep_ (store_ y) m' /\ m' !! k = Some (a, None).
Proof.
  intros Hf. revert x m. induction Hf as [|fields requests (c & Hp & Hs & Hu & Hk) _ IH]; intros x m R Hm E; [injection E as <-; by exists m|].
  cbn [handle_all] in E. unfold mbind, M_bind in E.
  pose proof (handle_frame string_encoding_ clone char_value clock options list_implementation default_packed_zset_kind packed_kind
    execute_packed_zset_command execute_other fields c x m Hp Hs Hu R) as Hfr.
  destruct (handle fields x) as [[] x1|e x1|]; [|done|done]. destruct Hfr as (m1 & keys & R1 & _ & _ & Ho). eapply (IH x1 m1); [done| |done].
  destruct (Ho k) as [?|[->|[_ (e & n & He & _)]]]; [done|done|]. unfold a_ttl in He. by rewrite Hm in He.
Qed.

(** C10: a value that was SET can be read back until something writes its key.  For a key and a value within
    the limits of the store, the value being none of the decimal texts the integer reader wraps, and without a memory limit: SET replies OK; after any
    number of further string, key and expiry commands that end without an exception, none of which writes the key, GET replies with the bulk string of exactly
    the value that was set, whichever compact form the store chose for it and however the ids of the keys
    were reassigned meanwhile. *)
Theorem set_then_get (k v : bytes) (requests : list (list bytes)) (x z : Ex) (m : AMap) :
  rep_ (store_ x) m -> settable m k v -> Forall (spares k) requests -> handle_all ([str "SET"; k; v] :: requests) x = Ok tt z ->
  exists y w, handle [str "SET"; k; v] x = Ok tt y /\ out_ y = out_ x ++ str "+OK" ++ crlf /\
    handle_all requests y = Ok tt z /\ handle [str "GET"; k] z = Ok tt w /\ out_ w = out_ z ++ bulk v.
Proof.
  intros R Hw Hf E. destruct (set_run k v x m R Hw) as (y & Ey & Hy & Ry). cbn [handle_all] in E. unfold mbind, M_bind in E. rewrite Ey in E.
  destruct (spared_kept k requests y z _ (AStr v) Hf Ry (lookup_insert_eq _ _ _) E) as (m' & Rz & Hz).
  destruct (get_run k z m' Rz) as (w & Ew & _ & Hout). exists y, w. split_and!; [done..|].
  assert (Hp : a_purge (clock (ticks_ z)) k m' = m') by (unfold a_purge, a_due, a_ttl; by rewrite Hz). by rewrite Hp, Hz in Hout.
Qed.

(** C38: a request with a key of more than 65,535 bytes ends the process: SET of such a key that is not
    there throws [std::length_error], which [execute_command_into] does not catch. *)
Theorem overlong_key_escapes (k v : bytes) (x : Ex) (m : AMap) :
  rep_ (store_ x) m -> m !! k = None -> Z.of_nat (size m) <= kMaxKeyId -> storable string_encoding_ v = true -> kMaxBlobBytes < Z.of_nat (length k) ->
  exists y, handle [str "SET"; k; v] x = Exn LengthError y.
Proof.
  intros R Hn Hsz Hst Hl. rewrite (handle_parsed _ _ _ (parse_set k v)). entered (str "SET") CT_set [k; v].
  assert (Hp : a_purge (clock (ticks_ x)) k m = m) by (unfold a_purge, a_due, a_ttl; by rewrite Hn). rewrite Hp in Ry.
  assert (E : set string_encoding_ k v (store_ y) = Exn LengthError (store_ y)).
  { unfold set, mbind, M_bind. by rewrite (set_string_refused string_encoding_ (store_ y) m k v Ry (conj (fun _ => Hsz) (or_intror (conj Hn Hl)))). }
  destruct (Hex (set_store (store_ y) y)) as (w & Ew & _); [|by exists w].
  cbv beta iota zeta delta [execute_switch arg]. change (c_args _) with [k; v]. unfold mbind at 1 2, M_bind at 1 2, need. cbn [lookup list_lookup drop].
  unfold set_command, with_value. rewrite value_fits_storable, Hst. cbn [negb]. unfold mbind, M_bind, on_store. by rewrite E.
Qed.

End runs.

(** ** Concrete runs *)

Section examples.
#[local] Existing Instance copy_lz4.
#[local] Existing Instance copy_lz4_correct.

Definition example_options : CommandExecutionOptions := mkOptions resp2 false false.
Definition example_clock (n : nat) : Z := 1000 * Z.of_nat n.
Definition no_packed (kind : Z) (c : Command) : M (@Exec unit) unit := mret tt.
Definition no_other (t : CommandType) (c : Command) : M (@Exec unit) unit := mret tt.
Definition start : @Exec unit := mkExec new_store 0 1 [] [].

Abbreviation serve := (handle_command_into 0 (fun _ p => p) u8 example_clock example_options Pma None (fun _ => 0) no_packed no_other).

Lemma command_frame_witness :
  match serve [str "set"; str "k"; str "v"; str "EX"; str "5"] start with
  | Ok _ y | Exn LengthError y =>
      exists m' keys, rep 0 (store_ y) m' /\ told_ (store_ y) = [] ++ keys /\
        (forall k, m' !! k <> (∅ : gmap bytes (@AObj unit * option Z)) !! k -> k ∈ keys) /\
        (forall k, k ∈ [str "k"] \/ m' !! k = (∅ : gmap bytes (@AObj unit * option Z)) !! k \/
           (m' !! k = None /\ exists e n, a_ttl (∅ : gmap bytes (@AObj unit * option Z)) k = Some e /\ e <= example_clock n))
  | _ => False
  end.
Proof.
  exact (command_frame 0 (fun _ p => p) u8 example_clock example_options Pma None (fun _ => 0) no_packed no_other
    [str "set"; str "k"; str "v"; str "EX"; str "5"] (parsed_as (str "set") CT_set [str "k"; str "v"; str "EX"; str "5"]) start ∅
    ltac:(vm_compute; reflexivity) ltac:(reflexivity) ltac:(discriminate) (rep_new 0)).
Defined.

Lemma set_then_get_witness :
  exists z y w, serve [str "SET"; str "k"; str "15"] start = Ok tt y /\ out_ y = [] ++ str "+OK" ++ crlf /\
    handle_all 0 (fun _ p => p) u8 example_clock example_options Pma None (fun _ => 0) no_packed no_other [[str "INCR"; str "n"]; [str "DEL"; str "n"; str "j"]] y = Ok tt z /\
    serve [str "GET"; str "k"] z = Ok tt w /\ out_ w = out_ z ++ bulk (str "15").
Proof.
  eexists. eapply (set_then_get 0 (fun _ p => p) u8 example_clock example_options Pma None (fun _ => 0) no_packed no_other eq_refl
    (str "k") (str "15") [[str "INCR"; str "n"]; [str "DEL"; str "n"; str "j"]] start _ ∅ (rep_new 0)).
  - repeat split; vm_compute; try discriminate; reflexivity.
  - repeat constructor; eexists; (split; [vm_compute; reflexivity|]); (split; [reflexivity|]); (split; [discriminate|]); vm_compute; intros Hin;
      repeat (apply elem_of_cons in Hin as [Hin|Hin]; [discriminate Hin|]); by apply not_elem_of_nil in Hin.
  - vm_compute. reflexivity.
Defined.

Lemma overlong_key_escapes_witness :
  exists y, serve [str "SET"; replicate (Z.to_nat 65536) "k"%byte; str "v"] start = Exn LengthError y.
Proof.
  apply (overlong_key_escapes 0 (fun _ p => p) u8 example_clock example_options Pma None (fun _ => 0) no_packed no_other eq_refl _ _ start ∅ (rep_new 0));
    [reflexivity|vm_compute; discriminate|vm_compute; reflexivity|vm_compute; reflexivity].
Defined.

(** GOBLIN.CLAIM writes a key COMMAND says nothing of. *)
Example claim_not_advertised :
  command_mutates_store CT_goblin_claim = true /\ command_key_range CT_goblin_claim = mkRange 0 0 0 /\
  match serve [str "GOBLIN.CLAIM"; str "c"; str "r"; str "t"; str "9"] start with Ok _ y => told_ (store_ y) | _ => [] end = [str "c"; str "c"].
Proof. vm_compute. repeat split. Qed.

End examples.
