(* ===== verification/Replication.v ===== *)
(** * Replication records

    Models the encodings of [src/replication.cpp]: the identity of a lineage, the
    compaction keys, the canonical RESP2 commands, the firehose frames with their
    decoders, and the reading of an SPOP reply.  The decoders run the parser of
    [RespParser] on a fresh buffer. *)

From S2P Require Import Prelude ParseInt RespParser RespWriter.
From Stdlib Require Import ZArith Lia ZifyBool.

Local Open Scope Z_scope.

(** ** Data *)

(** [std::array<std::uint8_t, 16>]. *)
Record ReplicationId := mkId { id_bytes : bytes }.

#[global] Instance ReplicationId_eq_dec : EqDecision ReplicationId.
Proof. solve_decision. Defined.

(** A value of the class has sixteen bytes. *)
Definition id_ok (id : ReplicationId) : Prop := length (id_bytes id) = 16%nat.

Record ReplicationMutation := mkMutation { kafka_key : bytes; payload : bytes }.
Record ReplicationBatch := mkBatch { b_id : ReplicationId; b_offset : Z; mutations : list ReplicationMutation }.
Record FirehoseHello := mkHello { h_id : ReplicationId; h_offset : Z }.
Record ReplicationState := mkState { s_id : ReplicationId; s_offset : Z; s_kafka_acknowledged_offset : Z; s_valid : bool }.

Definition kReplicationProtocolVersion : Z := 1.

(** ** The identity *)

Definition id_empty (id : ReplicationId) : bool := forallb (fun b => bool_decide (b = x00)) (id_bytes id).

Definition hex_digit (n : Z) : byte := b8 (if n <? 10 then 48 + n else 87 + n).

Definition hex (id : ReplicationId) : bytes :=
  concat (map (fun b => [hex_digit (Z.shiftr (u8 b) 4); hex_digit (Z.land (u8 b) 15)]) (id_bytes id)).

Definition nibble (ch : byte) : option Z :=
  let c := u8 ch in
  if (48 <=? c) && (c <=? 57) then Some (c - 48)
  else if (97 <=? c) && (c <=? 102) then Some (c - 97 + 10)
  else if (65 <=? c) && (c <=? 70) then Some (c - 65 + 10)
  else None.

(** The loop over the pairs of digits. *)
Fixpoint hex_pairs (text : bytes) : option bytes :=
  match text with
  | a :: b :: text =>
      high ← nibble a;
      low ← nibble b;
      rest ← hex_pairs text;
      Some (b8 (Z.lor (Z.shiftl high 4) low) :: rest)
  | _ => Some []
  end.

Definition parse_replication_id (text : bytes) : option ReplicationId :=
  if negb (length text =? 32)%nat then None else l ← hex_pairs text; Some (mkId l).

(** ** Compaction keys *)

(** The four bytes of a length, the lowest first. *)
Definition length_bytes (n : Z) : bytes := [b8 n; b8 (Z.shiftr n 8); b8 (Z.shiftr n 16); b8 (Z.shiftr n 24)].

(** [None] is [std::length_error]. *)
Definition make_replication_compaction_key (components : list bytes) : option bytes :=
  if existsb (fun c => 2 ^ 32 - 1 <? Z.of_nat (length c)) components then None
  else Some (b8 (Z.of_nat (length components)) :: concat (map (fun c => length_bytes (Z.of_nat (length c)) ++ c) components)).

(** ** Commands *)

(** [encode_resp2_command]; the writer stays inside what it reserved. *)
Definition encode_resp2_command (fields : list bytes) : option bytes :=
  append_bulk_strings (append_array_header [] (Z.of_nat (length fields))) fields.

Definition response_is_error (response : bytes) : bool :=
  match response with [] => true | b :: _ => bool_decide (b = "-"%byte) end.

Definition response_is_zero (response : bytes) : bool :=
  bool_decide (response = str ":0" ++ crlf) || bool_decide (response = str "$-1" ++ crlf) || bool_decide (response = str "_" ++ crlf).

(** ** Numbers *)

(** [std::from_chars] of a 64-bit unsigned integer that takes the whole text. *)
Definition parse_u64_exact (text : bytes) : option Z :=
  match text with
  | [] => None
  | _ => if forallb is_digit text && (dec_val text <=? u64_max) then Some (dec_val text) else None
  end.

(** [std::from_chars] of a [long long] that takes the whole text. *)
Definition from_chars_i64 (text : bytes) : option Z :=
  let '(neg, ds) := match text with "-"%byte :: ds => (true, ds) | _ => (false, text) end in
  let v := if neg then - dec_val ds else dec_val ds in
  match ds with
  | [] => None
  | _ => if forallb is_digit ds && (i64_min <=? v) && (v <=? i64_max) then Some v else None
  end.

(** ** The reply of SPOP *)

Definition parse_resp_integer_line (text : bytes) (cursor : nat) (prefix : byte) : option (Z * nat) :=
  if bool_decide (text !! cursor = Some prefix) then
    stop ← find_crlf text (cursor + 1);
    value ← from_chars_i64 (substr text (cursor + 1) (stop - (cursor + 1)));
    Some (value, (stop + 2)%nat)
  else None.

Definition parse_resp_bulk (text : bytes) (cursor : nat) : option (option bytes * nat) :=
  '(size, cursor) ← parse_resp_integer_line text cursor "$"%byte;
  if size <? -1 then None
  else if size =? -1 then Some (None, cursor)
  else
    let left := Z.of_nat (length text) - Z.of_nat cursor in
    if (left <? size) || (left - size <? 2) then None
    else
      let size := Z.to_nat size in
      if bool_decide (text !! (cursor + size)%nat = Some CR) && bool_decide (text !! (cursor + size + 1)%nat = Some LF)
      then Some (Some (substr text cursor size), (cursor + size + 2)%nat)
      else None.

Fixpoint parse_members (count : nat) (text : bytes) (cursor : nat) : option (list bytes * nat) :=
  match count with
  | O => Some ([], cursor)
  | S count =>
      '(member, cursor) ← parse_resp_bulk text cursor;
      member ← member;
      '(rest, cursor) ← parse_members count text cursor;
      Some (member :: rest, cursor)
  end.

Definition parse_spop_response (response : bytes) : option (list bytes) :=
  if bool_decide (response = str "_" ++ crlf) then Some []
  else if bool_decide (head response = Some "$"%byte) then
    '(member, cursor) ← parse_resp_bulk response 0;
    if (cursor =? length response)%nat then Some (match member with Some m => [m] | None => [] end) else None
  else
    '(count, cursor) ← parse_resp_integer_line response 0 "*"%byte;
    if count <? 0 then None
    else
      '(members, cursor) ← parse_members (Z.to_nat count) response cursor;
      if (cursor =? length response)%nat then Some members else None.

(** ** Firehose frames *)

(** An error message, or the fields of the one frame. *)
Definition parse_firehose_frame (frame : bytes) : bytes + list bytes :=
  if bool_decide (head frame = Some "*"%byte) then
    let parser := RespParser.append fresh frame in
    if has_error parser then inl (error_ parser)
    else if has_unparsed_input parser then inl (str "incomplete firehose frame")
    else
      match pop parser with
      | (Some fields, parser) => if has_queued_frames parser then inl (str "firehose record must contain exactly one RESP2 frame") else inr fields
      | (None, _) => inl (str "firehose record must contain exactly one RESP2 frame")
      end
  else inl (str "firehose frame is not a RESP2 array").

Definition validate_firehose_header (fields : list bytes) (command : bytes) (minimum_fields : nat) : bytes + (ReplicationId * Z) :=
  match fields with
  | name :: version :: id :: offset :: _ =>
      if (length fields <? minimum_fields)%nat || negb (bool_decide (name = command)) then inl (str "unexpected firehose frame")
      else if negb (bool_decide (parse_u64_exact version = Some kReplicationProtocolVersion)) then inl (str "unsupported firehose protocol version")
      else
        match parse_replication_id id with
        | None => inl (str "invalid firehose replication id")
        | Some id =>
            if id_empty id then inl (str "invalid firehose replication id")
            else
              match parse_u64_exact offset with
              | None => inl (str "invalid firehose logical offset")
              | Some offset => inr (id, offset)
              end
        end
  | _ => inl (str "unexpected firehose frame")
  end.

Definition encode_firehose_batch (batch : ReplicationBatch) : option bytes :=
  append_bulk_strings (append_array_header [] (4 + Z.of_nat (length (mutations batch))))
    ([str "GOBLIN.REPL"; to_chars_u64 kReplicationProtocolVersion; hex (b_id batch); to_chars_u64 (b_offset batch)] ++ map payload (mutations batch)).

Definition encode_firehose_hello (state : ReplicationState) : option bytes :=
  array [str "GOBLIN.FIREHOSE"; to_chars_u64 kReplicationProtocolVersion; hex (s_id state); to_chars_u64 (s_offset state)].

Definition decode_firehose_hello (frame : bytes) : bytes + FirehoseHello :=
  match parse_firehose_frame frame with
  | inl error => inl error
  | inr fields =>
      if negb (length fields =? 4)%nat then inl (str "firehose hello must contain exactly four fields")
      else
        match validate_firehose_header fields (str "GOBLIN.FIREHOSE") 4 with
        | inl error => inl error
        | inr (id, offset) => inr (mkHello id offset)
        end
  end.

Definition decode_firehose_batch (frame : bytes) : bytes + ReplicationBatch :=
  match parse_firehose_frame frame with
  | inl error => inl error
  | inr fields =>
      if (length fields <? 5)%nat then inl (str "firehose batch must contain at least one mutation")
      else
        match validate_firehose_header fields (str "GOBLIN.REPL") 5 with
        | inl error => inl error
        | inr (id, offset) =>
            if offset =? 0 then inl (str "firehose batch logical offset is zero")
            else if u64 (u64_max - offset + 1) <? Z.of_nat (length fields) - 4 then inl (str "firehose batch logical offsets overflow")
            else inr (mkBatch id offset (map (mkMutation []) (drop 4 fields)))
        end
  end.

(** ** Compaction keys are unique *)

Lemma length_bytes_le n : length_bytes n = le_bytes 4 n.
Proof.
  unfold length_bytes, le_bytes. rewrite !Z.shiftr_div_pow2 by lia. rewrite !Z.div_div by lia. done.
Qed.

(** Length-prefixed components can be read back one by one. *)
Lemma components_inj l1 l2 :
  Forall (fun c => Z.of_nat (length c) < 2 ^ 32) l1 -> Forall (fun c => Z.of_nat (length c) < 2 ^ 32) l2 ->
  concat (map (fun c => length_bytes (Z.of_nat (length c)) ++ c) l1) = concat (map (fun c => length_bytes (Z.of_nat (length c)) ++ c) l2) -> l1 = l2.
Proof.
  intros H1. revert l2. induction H1 as [|c l1 Hc _ IH]; intros l2 H2 E; destruct H2 as [|c' l2 Hc' H2]; [done|done|done|].
  cbn [map concat] in E. rewrite <- !app_assoc in E. apply app_inj_1 in E as [El E]; [|by rewrite !length_bytes_le, !length_le_bytes].
  rewrite !length_bytes_le in El. apply (f_equal le_val) in El. rewrite !le_val_bytes, !Z.mod_small in El by lia. apply app_inj_1 in E as [-> E]; [|lia].
  f_equal. by apply IH.
Qed.

(** The length-framed compaction key identifies its components: two commands get the same Kafka key
    only when they name the same operation on the same key and field or member, whatever bytes those
    contain, so log compaction never drops the record of another object. *)
Theorem compaction_key_injective (l1 l2 : list bytes) (k : bytes) :
  make_replication_compaction_key l1 = Some k -> make_replication_compaction_key l2 = Some k -> l1 = l2.
Proof.
  assert (H : forall l k, make_replication_compaction_key l = Some k ->
    Forall (fun c => Z.of_nat (length c) < 2 ^ 32) l /\ k = b8 (Z.of_nat (length l)) :: concat (map (fun c => length_bytes (Z.of_nat (length c)) ++ c) l)).
  { intros l k'. unfold make_replication_compaction_key. destruct (existsb _ l) eqn:E; [done|]. intros [= <-]. split; [|done].
    apply Forall_forall. intros c Hc. destruct (Z.ltb_spec (2 ^ 32 - 1) (Z.of_nat (length c))) as [Hl|]; [|lia].
    rewrite (proj2 (existsb_exists _ l)) in E; [done|]. exists c. split; [by apply list_elem_of_In|lia]. }
  intros [H1 ->]%H [H2 E]%H. injection E as _ E. by eapply components_inj.
Qed.

Lemma compaction_key_injective_witness :
  make_replication_compaction_key [str "HSET"; str "k"; str "f"] = Some ([b8 3] ++ length_bytes 4 ++ str "HSET" ++ length_bytes 1 ++ str "k" ++ length_bytes 1 ++ str "f") /\
  [str "HSET"; str "k"; str "f"] = [str "HSET"; str "k"; str "f"].
Proof. split; [vm_compute; reflexivity|]. eapply compaction_key_injective; vm_compute; reflexivity. Defined.

(** ** Identities *)

Lemma hex_pairs_byte b rest l : hex_pairs rest = Some l ->
  hex_pairs (hex_digit (Z.shiftr (u8 b) 4) :: hex_digit (Z.land (u8 b) 15) :: rest) = Some (b :: l).
Proof. intros H. destruct b; cbn [hex_pairs]; rewrite H; reflexivity. Qed.

Lemma hex_pairs_hex l : hex_pairs (hex (mkId l)) = Some l.
Proof. unfold hex. induction l as [|b l IH]; [done|]. cbn [id_bytes map concat app] in *. by apply hex_pairs_byte. Qed.

Lemma length_hex id : length (hex id) = (2 * length (id_bytes id))%nat.
Proof. destruct id as [l]. unfold hex. induction l as [|b l IH]; [done|]. cbn [id_bytes map concat app length] in *. lia. Qed.

Lemma parse_hex id : id_ok id -> parse_replication_id (hex id) = Some id.
Proof.
  intros Hid. unfold parse_replication_id. rewrite length_hex, Hid. cbn [Nat.mul Nat.add Nat.eqb negb]. destruct id as [l]. by rewrite hex_pairs_hex.
Qed.

Lemma length_hex_pairs text l : hex_pairs text = Some l -> length l = (length text / 2)%nat.
Proof.
  revert text l. assert (H : forall n text l, (length text <= n)%nat -> hex_pairs text = Some l -> length l = (length text / 2)%nat); [|by eauto].
  induction n as [|n IH]; intros text l Hn; (destruct text as [|a [|b text]]; cbn [hex_pairs]; [intros [= <-]; done|intros [= <-]; done|]); cbn in Hn; [lia|].
  destruct (nibble a); [|done]. destruct (nibble b); [|done]. cbn [mbind option_bind]. destruct (hex_pairs text) as [r|] eqn:E; [|done].
  cbn. intros [= <-]. cbn [length]. rewrite (IH text r) by (done || lia). change (S (length text / 2) = (2 + length text) / 2)%nat.
  rewrite <- (Nat.div_add_l 1 2) by done. done.
Qed.

Lemma parsed_id_ok text id : parse_replication_id text = Some id -> id_ok id.
Proof.
  unfold parse_replication_id. destruct (Nat.eqb_spec (length text) 32) as [Hl|]; [|done]. cbn [negb]. destruct (hex_pairs text) as [l|] eqn:E; [|done].
  intros [= <-]. unfold id_ok. cbn. by rewrite (length_hex_pairs _ _ E), Hl.
Qed.

(** ** Frames *)

Lemma parse_u64_exact_chars n : 0 <= n <= u64_max -> parse_u64_exact (to_chars_u64 n) = Some n.
Proof.
  unfold u64_max. intros Hn. destruct (to_chars_u64_canonical n ltac:(lia)) as [(Hd & Hne & _) Hv]. unfold parse_u64_exact. rewrite Hv.
  destruct (to_chars_u64 n) as [|b l] eqn:E; [done|]. replace (forallb is_digit (b :: l)) with true; [by replace (n <=? u64_max) with true by (unfold u64_max; lia)|].
  symmetry. apply forallb_forall. intros x Hx. eapply Forall_forall in Hd; [exact Hd|by apply list_elem_of_In].
Qed.

Lemma parse_frame fields : sendable fields -> parse_firehose_frame (command_wire fields) = inr fields.
Proof.
  intros Hs. unfold parse_firehose_frame. destruct (command_wire_head fields) as [t Ht]. rewrite bool_decide_eq_true_2 by (by rewrite Ht).
  destruct (parse_available_wires [fields] (append_buffer fresh (command_wire fields)) []) as (H1 & H2 & H3); try done.
  { constructor; simpl; first [lia | done | constructor]. }
  { unfold wires. cbn. by rewrite app_nil_r. }
  { by constructor. }
  rewrite <- append_fresh in *. unfold has_error. rewrite H1, bool_decide_eq_false_2 by (intros H; by apply H).
  unfold has_unparsed_input. rewrite H3, Nat.eqb_refl. cbn [negb]. destruct (pop_queued _ _ _ H2) as [H4 H5].
  destruct (pop _) as [o p']. cbn in H4, H5. subst o. unfold queued in H5. apply fmap_nil_inv in H5. unfold has_queued_frames. by rewrite H5.
Qed.

(** What a batch that was made by the source satisfies. *)
Record batch_ok (b : ReplicationBatch) : Prop := mkBatchOk {
  bo_id : id_ok (b_id b);
  bo_named : id_empty (b_id b) = false;
  bo_first : 1 <= b_offset b;
  bo_some : mutations b <> [];
  bo_last : b_offset b + Z.of_nat (length (mutations b)) - 1 <= u64_max;
}.

Definition batch_fields (b : ReplicationBatch) : list bytes :=
  [str "GOBLIN.REPL"; to_chars_u64 kReplicationProtocolVersion; hex (b_id b); to_chars_u64 (b_offset b)] ++ map payload (mutations b).

(** The limits of the parser. *)
Definition transmittable (b : ReplicationBatch) : Prop :=
  Z.of_nat (length (mutations b)) + 4 <= kMaxArrayElements /\ Forall (fun x => Z.of_nat (length (payload x)) <= kMaxBulkBytes) (mutations b).

Lemma short_chars n : Z.of_nat (length (to_chars_u64 n)) <= kMaxBulkBytes.
Proof.
  assert (H : forall k v, (length (to_dec k v) <= k)%nat).
  { induction k as [|k IH]; intros v; cbn [to_dec]; [done|]. destruct (v <? 10); [cbn; lia|]. rewrite length_app. specialize (IH (v / 10)). cbn. lia. }
  unfold to_chars_u64, kMaxBulkBytes. specialize (H 20%nat n). lia.
Qed.

Lemma batch_sendable b : id_ok (b_id b) -> transmittable b -> sendable (batch_fields b).
Proof.
  intros Hid [Hn Hp]. unfold batch_fields. split; [rewrite length_app, length_map; cbn [length]; lia|].
  apply Forall_app. split; [|by apply Forall_map].
  repeat apply Forall_cons_2; try apply Forall_nil_2; [vm_compute; discriminate|apply short_chars| |apply short_chars].
  rewrite length_hex, Hid. unfold kMaxBulkBytes. lia.
Qed.

Lemma encode_batch_wire b : encode_firehose_batch b = Some (command_wire (batch_fields b)).
Proof.
  unfold encode_firehose_batch. rewrite append_bulk_strings_eq, append_array_header_eq by lia. fold (batch_fields b). unfold command_wire.
  replace (Z.of_nat (length (batch_fields b))) with (4 + Z.of_nat (length (mutations b))); [done|].
  unfold batch_fields. rewrite length_app, length_map. cbn [length]. lia.
Qed.

Lemma header_reads name id offset rest minimum :
  id_ok id -> id_empty id = false -> 0 <= offset <= u64_max -> (minimum <= 4 + length rest)%nat ->
  validate_firehose_header ([name; to_chars_u64 kReplicationProtocolVersion; hex id; to_chars_u64 offset] ++ rest) name minimum = inr (id, offset).
Proof.
  intros Hid He Ho Hm. unfold validate_firehose_header. cbn [app length]. destruct (Nat.ltb_spec (S (S (S (S (length rest))))) minimum); [lia|].
  rewrite (bool_decide_eq_true_2 (name = name)) by done. cbn [orb negb].
  rewrite bool_decide_eq_true_2 by (by apply parse_u64_exact_chars). cbn [negb]. by rewrite parse_hex, He, parse_u64_exact_chars.
Qed.

(** A batch that came in is the record of the offsets it claims. *)
Lemma decode_batch_ok frame b : decode_firehose_batch frame = inr b -> batch_ok b.
Proof.
  unfold decode_firehose_batch. destruct (parse_firehose_frame frame) as [|fields]; [done|]. destruct (Nat.ltb_spec (length fields) 5) as [|Hl]; [done|].
  unfold validate_firehose_header. destruct fields as [|name [|version [|id [|off rest]]]]; try done. destruct (_ || _); [done|]. destruct (negb _); [done|].
  destruct (parse_replication_id id) as [i|] eqn:Hi; [|done]. destruct (id_empty i) eqn:He; [done|]. destruct (parse_u64_exact off) as [o|] eqn:Ho; [|done].
  destruct (Z.eqb_spec o 0) as [|Hz]; [done|]. destruct (Z.ltb_spec (u64 (u64_max - o + 1)) (Z.of_nat (length (name :: version :: id :: off :: rest)) - 4)) as [|Hn]; [done|].
  intros [= <-]. cbn in Hl, Hn.
  assert (Hr : 0 <= o <= u64_max).
  { unfold parse_u64_exact in Ho. destruct off; [done|]. destruct (_ && _) eqn:E; [|done]. injection Ho as <-. apply andb_true_iff in E as [E1 E2].
    split; [|lia]. apply dec_val_range. apply Forall_forall. intros x Hx. rewrite forallb_forall in E1. by apply E1, list_elem_of_In. }
  split; cbn; [by eapply parsed_id_ok|done|lia|destruct rest; [cbn in Hl; lia|done]|].
  rewrite length_map, drop_0. unfold u64_max in *. rewrite wrap_small in Hn by lia. lia.
Qed.

(** What the source sends is what the replica receives.  Every batch within the limits of the parser
    is encoded into one frame that decodes to the same lineage, offset and payloads (the Kafka keys stay
    behind), the hello likewise; and a frame that decodes carries a named lineage of sixteen bytes, at
    least one mutation and offsets that do not overflow, so it can be applied. *)
Theorem firehose_roundtrip (b : ReplicationBatch) (st : ReplicationState) :
  batch_ok b -> transmittable b -> id_ok (s_id st) -> id_empty (s_id st) = false -> 0 <= s_offset st <= u64_max ->
  (exists frame, encode_firehose_batch b = Some frame /\
     decode_firehose_batch frame = inr (mkBatch (b_id b) (b_offset b) (map (fun x => mkMutation [] (payload x)) (mutations b)))) /\
  (exists frame, encode_firehose_hello st = Some frame /\ decode_firehose_hello frame = inr (mkHello (s_id st) (s_offset st))) /\
  (forall frame b', decode_firehose_batch frame = inr b' -> batch_ok b').
Proof.
  intros [Hid He Hf Hs Hl] Ht Hid' He' Ho'. split_and!; [| |by apply decode_batch_ok].
  - exists (command_wire (batch_fields b)). split; [apply encode_batch_wire|]. unfold decode_firehose_batch. rewrite parse_frame by (by apply batch_sendable).
    assert (Hn : (1 <= length (mutations b))%nat) by (destruct (mutations b); [done|cbn; lia]).
    assert (Hlen : length (batch_fields b) = (4 + length (mutations b))%nat) by (unfold batch_fields; by rewrite length_app, length_map).
    rewrite Hlen. destruct (Nat.ltb_spec (4 + length (mutations b)) 5); [lia|]. unfold batch_fields at 1.
    rewrite header_reads by (done || (unfold u64_max in *; lia) || (rewrite length_map; lia)).
    destruct (Z.eqb_spec (b_offset b) 0); [lia|]. unfold u64_max in *. rewrite wrap_small by lia.
    destruct (Z.ltb_spec (2 ^ 64 - 1 - b_offset b + 1) (Z.of_nat (4 + length (mutations b)) - 4)); [lia|]. do 2 f_equal.
    unfold batch_fields. change (drop 4 _) with (map payload (mutations b)). by rewrite map_map.
  - set (fields := [str "GOBLIN.FIREHOSE"; to_chars_u64 kReplicationProtocolVersion; hex (s_id st); to_chars_u64 (s_offset st)]).
    exists (command_wire fields). split; [apply array_eq|]. unfold decode_firehose_hello. rewrite parse_frame.
    + cbn [length fields Nat.eqb negb]. unfold fields. rewrite <- (app_nil_r [_; _; _; _]). by rewrite header_reads by (done || cbn; lia).
    + split; [vm_compute; discriminate|]. repeat apply Forall_cons_2; try apply Forall_nil_2; [vm_compute; discriminate|apply short_chars| |apply short_chars].
      rewrite length_hex, Hid'. unfold kMaxBulkBytes. lia.
Qed.

Definition example_id : ReplicationId := mkId (replicate 15 x00 ++ [x01]).

Lemma firehose_roundtrip_witness :
  exists frame, encode_firehose_batch (mkBatch example_id 7 [mkMutation (str "k") (str "*0")]) = Some frame /\
    decode_firehose_batch frame = inr (mkBatch example_id 7 [mkMutation [] (str "*0")]).
Proof.
  refine (proj1 (firehose_roundtrip (mkBatch example_id 7 [mkMutation (str "k") (str "*0")]) (mkState example_id 3 (-1) true) _ _ _ _ _)).
  - split; try done; vm_compute; discriminate.
  - split; [vm_compute; discriminate|]. constructor; [vm_compute; discriminate|constructor].
  - reflexivity.
  - reflexivity.
  - vm_compute; split; discriminate.
Defined.

(** ** The reply of SPOP *)

Lemma from_chars_to_chars n : 0 <= n <= i64_max -> from_chars_i64 (to_chars_u64 n) = Some n.
Proof.
  unfold i64_max. intros Hn. destruct (to_chars_u64_canonical n ltac:(lia)) as [(Hd & Hne & _) Hv]. unfold from_chars_i64.
  destruct (to_chars_u64 n) as [|b l] eqn:E; [done|]. assert (Hb : b <> "-"%byte) by (intros ->; by apply Forall_cons in Hd as [Hd _]).
  replace (match b :: l with "-"%byte :: ds => (true, ds) | _ => (false, b :: l) end) with (false, b :: l) by (by destruct b). cbv zeta iota.
  rewrite Hv. replace (forallb is_digit (b :: l)) with true.
  - unfold i64_min, i64_max. by replace (true && (- 2 ^ 63 <=? n) && (n <=? 2 ^ 63 - 1)) with true by lia.
  - symmetry. apply forallb_forall. intros x Hx. eapply Forall_forall in Hd; [exact Hd|by apply list_elem_of_In].
Qed.

Lemma read_integer_line p prefix n r :
  0 <= n <= i64_max -> parse_resp_integer_line (p ++ header_line prefix n ++ r) (length p) prefix = Some (n, length (p ++ header_line prefix n)).
Proof.
  intros Hn. unfold parse_resp_integer_line.
  destruct (read_header_line p prefix n r _ ltac:(unfold i64_max in *; lia) eq_refl) as (H1 & H2 & H3 & H4). rewrite bool_decide_eq_true_2 by done.
  rewrite H2. cbn [mbind option_bind]. set (e := (length p + 1 + length (to_chars_u64 n))%nat) in *.
  replace (e - (length p + 1))%nat with (e - length p - 1)%nat by lia. rewrite H3, from_chars_to_chars by done. cbn [mbind option_bind]. do 2 f_equal.
  rewrite length_app. lia.
Qed.

Lemma read_bulk p v r :
  Z.of_nat (length v) <= i64_max -> parse_resp_bulk (p ++ bulk v ++ r) (length p) = Some (Some v, length (p ++ bulk v)).
Proof.
  intros Hv. unfold parse_resp_bulk, bulk. set (h := header_line "$"%byte (Z.of_nat (length v))).
  replace (p ++ (h ++ v ++ crlf) ++ r) with (p ++ h ++ (v ++ crlf ++ r)) by (by rewrite <- !app_assoc).
  pose proof (read_integer_line p "$"%byte (Z.of_nat (length v)) (v ++ crlf ++ r) ltac:(lia)) as E. fold h in E. rewrite E. cbn [mbind option_bind]. replace (Z.of_nat (length v) <? -1) with false by lia.
  replace (Z.of_nat (length v) =? -1) with false by lia. cbv zeta. rewrite Nat2Z.id.
  replace (_ || _) with false by (rewrite !length_app; cbn [length crlf]; lia).
  assert (Hq : p ++ h ++ v ++ crlf ++ r = ((p ++ h) ++ v) ++ crlf ++ r) by (by rewrite <- !app_assoc).
  rewrite (bool_decide_eq_true_2 (_ !! (_ + _)%nat = _)).
  2: { rewrite Hq, <- (length_app (p ++ h) v). by rewrite lookup_app_r, Nat.sub_diag by lia. }
  rewrite bool_decide_eq_true_2.
  2: { rewrite Hq, <- (length_app (p ++ h) v), lookup_app_r by lia. by replace (_ + 1 - _)%nat with 1%nat by lia. }
  cbn [andb]. do 3 f_equal.
  - unfold substr. replace (p ++ h ++ v ++ crlf ++ r) with ((p ++ h) ++ v ++ crlf ++ r) by (by rewrite <- !app_assoc).
    by rewrite drop_app_length, take_app_length.
  - rewrite !length_app. cbn. lia.
Qed.

Lemma read_members vs p r :
  Forall (fun v => Z.of_nat (length v) <= i64_max) vs -> parse_members (length vs) (p ++ bulks vs ++ r) (length p) = Some (vs, length (p ++ bulks vs)).
Proof.
  intros Hf. revert p. induction Hf as [|v vs Hv _ IH]; intros p; [unfold bulks; cbn; by rewrite app_nil_r|].
  cbn [length parse_members]. rewrite bulks_cons, <- app_assoc, read_bulk by done. cbn [mbind option_bind].
  replace (p ++ bulk v ++ bulks vs ++ r) with ((p ++ bulk v) ++ bulks vs ++ r) by (by rewrite <- !app_assoc). rewrite IH. cbn. by rewrite app_assoc.
Qed.

(** SPOP is replicated by what it removed.  Reading back the three replies the handler writes gives
    the removed members in order: the bulk string of one member, the array of a count, and the null of an
    empty set in either protocol version. *)
Theorem spop_reply_roundtrip (members : list bytes) (version : Version) :
  Z.of_nat (length members) <= i64_max -> Forall (fun v => Z.of_nat (length v) <= i64_max) members ->
  (exists reply, array members = Some reply /\ parse_spop_response reply = Some members) /\
  (forall member, members = [member] -> exists reply, append_bulk_string [] member = Some reply /\ parse_spop_response reply = Some [member]) /\
  parse_spop_response (append_null [] version) = Some [].
Proof.
  intros Hn Hf. split_and!; [| |by destruct version].
  - exists (command_wire members). split; [apply array_eq|]. unfold parse_spop_response.
    destruct (command_wire_head members) as [t Ht]. rewrite !bool_decide_eq_false_2 by (by rewrite Ht).
    pose proof (read_integer_line [] "*"%byte (Z.of_nat (length members)) (bulks members) ltac:(lia)) as E. cbn [app length] in E. fold (command_wire members) in E. rewrite E. cbn [mbind option_bind]. replace (Z.of_nat (length members) <? 0) with false by lia. rewrite Nat2Z.id.
    pose proof (read_members members (header_line "*"%byte (Z.of_nat (length members))) [] Hf) as E2. rewrite app_nil_r in E2. fold (command_wire members) in E2. rewrite E2.
    cbn [mbind option_bind]. by rewrite Nat.eqb_refl.
  - intros member ->. apply Forall_cons in Hf as [Hv _]. exists (bulk member). rewrite append_bulk_string_eq. split; [done|].
    unfold parse_spop_response. rewrite bool_decide_eq_false_2 by done. rewrite bool_decide_eq_true_2 by done.
    pose proof (read_bulk [] member [] Hv) as E. cbn [app length] in E. rewrite app_nil_r in E. rewrite E. cbn [mbind option_bind]. by rewrite Nat.eqb_refl.
Qed.

Lemma spop_reply_roundtrip_witness :
  exists reply, array [str "a"; str ""] = Some reply /\ parse_spop_response reply = Some [str "a"; str ""].
Proof.
  refine (proj1 (spop_reply_roundtrip [str "a"; str ""] resp2 _ _)); [vm_compute; discriminate|]. repeat constructor; vm_compute; discriminate.
Defined.
