(* ===== verification/ReplicationApply.v ===== *)
(** * Building and applying mutations

    Models [build_replication_mutations], [apply_resp2_write] and
    [apply_firehose_batch] of [src/replication.cpp].  The source turns a command that
    succeeded into canonical commands made from the state it left; the replica runs
    them.  The readers of hashes, sorted sets and sets are parameters. *)

From S2P Require Import Prelude ParseInt RespParser RespWriter StringEncoding MemoryLimit CommandType CommandClass CommandParse Keyspace Store CommandExec Replication.
From stdpp Require Import gmap.
From Stdlib Require Import ZArith Lia ZifyBool.

Import Classes Names Parse.

Local Open Scope Z_scope.

(** The comparison ZADD's options are recognised with. *)
Fixpoint ci_equal (a b : bytes) : bool :=
  match a, b with
  | [], [] => true
  | x :: a, y :: b => bool_decide ((if (97 <=? u8 x) && (u8 x <=? 122) then b8 (u8 x - 32) else x) = y) && ci_equal a b
  | _, _ => false
  end.

Definition is_zadd_option (option : bytes) : bool :=
  ci_equal option (str "NX") || ci_equal option (str "XX") || ci_equal option (str "GT") || ci_equal option (str "LT") ||
  ci_equal option (str "CH") || ci_equal option (str "INCR").

(** The arguments from the first score on. *)
Fixpoint skip_zadd_options (args : list bytes) : list bytes :=
  match args with
  | a :: rest => if is_zadd_option a then skip_zadd_options rest else args
  | [] => []
  end.

Section build.
Context {L : LZ4} {Payload : Type}.
Variable string_encoding_ : Z.

Abbreviation St := (@Store Payload).
Abbreviation B A := (M St A).

(** The readers that are not modelled: [hget], [format_score] of [zscore], the name of
    [packed_zset_kind], [sismember]. *)
Variable hget : bytes -> bytes -> B (option bytes).
Variable zscore_text : bytes -> bytes -> B (option bytes).
Variable packed_name : bytes -> B (option bytes).
Variable sismember : bytes -> bytes -> B bool.

Definition key_for (parts : list bytes) : B bytes :=
  match make_replication_compaction_key parts with Some k => mret k | None => throw LengthError end.

Definition command_mutation (fields : list bytes) (key : bytes) : B ReplicationMutation :=
  wire ← need (encode_resp2_command fields);
  mret (mkMutation key wire).

Definition append_current_ttl (key : bytes) (out : list ReplicationMutation) : B (list ReplicationMutation) :=
  expiry ← expiretime_ms key;
  ttl_key ← key_for [str "TTL"; key];
  mutation ← (if 0 <=? expiry then command_mutation [str "PEXPIREAT"; key; to_string_i64 expiry] ttl_key
              else command_mutation [str "PERSIST"; key] ttl_key);
  mret (out ++ [mutation]).

Definition append_current_string (key : bytes) (out : list ReplicationMutation) : B (list ReplicationMutation) :=
  compact_key ← key_for [str "SET"; key];
  value ← get string_encoding_ key;
  match value with
  | None => mutation ← command_mutation [str "DEL"; key] compact_key; mret (out ++ [mutation])
  | Some value =>
      materialized ← join_value value;
      mutation ← command_mutation [str "SET"; key; materialized] compact_key;
      expiry ← expiretime_ms key;
      if 0 <=? expiry then append_current_ttl key (out ++ [mutation]) else mret (out ++ [mutation])
  end.

Definition append_current_hash_field (key field : bytes) (out : list ReplicationMutation) : B (list ReplicationMutation) :=
  compact_key ← key_for [str "HSET"; key; field];
  value ← hget key field;
  mutation ← match value with
             | Some value => command_mutation [str "HSET"; key; field; value] compact_key
             | None => command_mutation [str "HDEL"; key; field] compact_key
             end;
  mret (out ++ [mutation]).

Definition append_current_zset_member (key member : bytes) (out : list ReplicationMutation) : B (list ReplicationMutation) :=
  compact_key ← key_for [str "ZADD"; key; member];
  score ← zscore_text key member;
  packed ← packed_name key;
  let name (plain : bytes) := match packed with Some kind => str "GOBLIN.PACKED_" ++ kind ++ str "." ++ plain | None => plain end in
  mutation ← match score with
             | Some text => command_mutation [name (str "ZADD"); key; text; member] compact_key
             | None => command_mutation [name (str "ZREM"); key; member] compact_key
             end;
  mret (out ++ [mutation]).

Definition append_current_set_member (key member : bytes) (out : list ReplicationMutation) : B (list ReplicationMutation) :=
  compact_key ← key_for [str "SADD"; key; member];
  there ← sismember key member;
  mutation ← (if there : bool then command_mutation [str "SADD"; key; member] compact_key else command_mutation [str "SREM"; key; member] compact_key);
  mret (out ++ [mutation]).

(** One record after another. *)
Fixpoint append_each {A} (f : A -> list ReplicationMutation -> B (list ReplicationMutation)) (l : list A) (out : list ReplicationMutation) : B (list ReplicationMutation) :=
  match l with
  | [] => mret out
  | a :: l => out ← f a out; append_each f l out
  end.

(** Every second argument: the keys of key/value pairs, or with the first argument dropped the members of
    score/member pairs; a last one without its partner is left out. *)
Definition firsts (args : list bytes) : list bytes := (pairs_of args).*1.
Definition seconds (args : list bytes) : list bytes := (pairs_of args).*2.

Definition command_fields (c : Command) : list bytes := c_name c :: c_args c.

(** The command itself, for operations whose effect is not described by a final state. *)
Definition as_sent (c : Command) : B ReplicationMutation := command_mutation (command_fields c) [].

Definition delete_each (keys : list bytes) : B (list ReplicationMutation) :=
  append_each (fun key out => compact_key ← key_for [str "SET"; key]; mutation ← command_mutation [str "DEL"; key] compact_key; mret (out ++ [mutation])) keys [].

(** [None] is [std::runtime_error]: the reply of SPOP could not be read. *)
Definition build_replication_mutations (c : Command) (response : bytes) : B (option (list ReplicationMutation)) :=
  let args := c_args c in
  let sent (m : B (list ReplicationMutation)) : B (option (list ReplicationMutation)) := l ← m; mret (Some l) in
  if response_is_error response then mret (Some [])
  else if negb (c_packed_zset_kind c =? 0) then sent (m ← as_sent c; mret [m])
  else
    match c_type c with
    | CT_hset | CT_hmset =>
        match args with [] => mret (Some []) | key :: rest => sent (append_each (append_current_hash_field key) (firsts rest) []) end
    | CT_hsetnx =>
        match args with
        | key :: field :: _ => if negb (response_is_zero response) then sent (append_current_hash_field key field []) else mret (Some [])
        | _ => mret (Some [])
        end
    | CT_hincrby | CT_hincrbyfloat | CT_goblin_hcad | CT_goblin_hsetgt =>
        match args with key :: field :: _ => sent (append_current_hash_field key field []) | _ => mret (Some []) end
    | CT_hdel => match args with [] => mret (Some []) | key :: fields => sent (append_each (append_current_hash_field key) fields []) end
    | CT_zadd => match args with [] => mret (Some []) | key :: rest => sent (append_each (append_current_zset_member key) (seconds (skip_zadd_options rest)) []) end
    | CT_zincrby => match args with key :: _ :: member :: _ => sent (append_current_zset_member key member []) | _ => mret (Some []) end
    | CT_zrem => match args with [] => mret (Some []) | key :: members => sent (append_each (append_current_zset_member key) members []) end
    | CT_sadd | CT_srem => match args with [] => mret (Some []) | key :: members => sent (append_each (append_current_set_member key) members []) end
    | CT_spop =>
        match args with
        | [] => mret (Some [])
        | key :: _ =>
            match parse_spop_response response with
            | None => mret None
            | Some members => sent (append_each (append_current_set_member key) members [])
            end
        end
    | CT_set | CT_getset | CT_setnx | CT_getdel | CT_append | CT_incr | CT_decr | CT_incrby | CT_decrby | CT_incrbyfloat | CT_setrange | CT_getex
    | CT_goblin_cad | CT_goblin_caexpire | CT_goblin_cas | CT_goblin_increx | CT_goblin_incrbound | CT_goblin_decrpos =>
        match args with
        | key :: _ => if ct_eqb (c_type c) CT_setnx && response_is_zero response then mret (Some []) else sent (append_current_string key [])
        | [] => mret (Some [])
        end
    | CT_mset | CT_msetnx =>
        if ct_eqb (c_type c) CT_msetnx && response_is_zero response then mret (Some [])
        else sent (append_each append_current_string (firsts args) [])
    | CT_del => sent (delete_each args)
    | CT_expire | CT_pexpire | CT_expireat | CT_pexpireat | CT_persist =>
        match args with key :: _ => sent (append_current_ttl key []) | [] => mret (Some []) end
    | CT_goblin_zwindow =>
        sent (m ← as_sent c; match args with key :: _ => append_current_ttl key [m] | [] => mret [m] end)
    | CT_goblin_claim =>
        match args with
        | key :: _ => if bool_decide (response = str "$7" ++ crlf ++ str "CLAIMED" ++ crlf) then sent (append_current_string key []) else mret (Some [])
        | [] => mret (Some [])
        end
    | _ => sent (m ← as_sent c; mret [m])
    end.
End build.

(** ** The replica *)

Section apply.
Context {L : LZ4} {Payload : Type}.
Variable string_encoding_ : Z.
Variable clone : KeyType -> Payload -> Payload.
Variable char_value : byte -> Z.
Variable clock : nat -> Z.
Variable list_implementation : ListImplementation.
Variable default_packed_zset_kind : option Z.
Variable packed_kind : Payload -> Z.

Abbreviation Ex := (@Exec Payload).

Variable execute_packed_zset_command : Z -> Command -> M Ex unit.
Variable execute_other : CommandType -> Command -> M Ex unit.

(** The options of a direct call: RESP2, not read-only, no replication of its own. *)
Definition direct_options : CommandExecutionOptions := mkOptions resp2 false false.

(** [None] is success; the reply goes to a string of its own. *)
Definition apply_resp2_write (payload : bytes) : M Ex (option bytes) := fun x =>
  match parse_firehose_frame payload with
  | inl error => Ok (Some (str "invalid replicated RESP2 write: " ++ error)) x
  | inr fields =>
      match parse_fields fields with
      | inl error => Ok (Some error) x
      | inr c =>
          if ct_eqb (c_type c) CT_unknown || negb (command_mutates_store (c_type c))
          then Ok (Some (str "firehose payload is not a recognized write command")) x
          else
            match execute_command_into string_encoding_ clone char_value clock direct_options list_implementation default_packed_zset_kind packed_kind
                    execute_packed_zset_command execute_other c (set_out [] x) with
            | Ok _ y =>
                let response := out_ y in
                let y := set_out (out_ x) y in
                if bool_decide (head response = Some "-"%byte) then
                  let stop := match find_crlf response 0 with None => (length response - 1)%nat | Some e => (e - 1)%nat end in
                  Ok (Some (str "replicated write failed: " ++ substr response 1 stop)) y
                else Ok None y
            | Exn e y => Exn e (set_out (out_ x) y)
            | Ub => Ub
            end
      end
  end.

(** A server with the position it has reached. *)
Record Replica := mkReplica { exec_ : Ex; repl_ : ReplicationState }.

Definition set_replication_offset (offset : Z) (r : Replica) : Replica :=
  mkReplica (exec_ r) (mkState (s_id (repl_ r)) offset (s_kafka_acknowledged_offset (repl_ r)) (s_valid (repl_ r))).

Definition on_exec {A} (op : M Ex A) : M Replica A := fun r =>
  match op (exec_ r) with
  | Ok a x => Ok a (mkReplica x (repl_ r))
  | Exn e x => Exn e (mkReplica x (repl_ r))
  | Ub => Ub
  end.

(** The loop over the mutations not yet applied. *)
Fixpoint apply_from (payloads : list bytes) (next_offset : Z) : M Replica (option bytes) :=
  match payloads with
  | [] => mret None
  | payload :: payloads =>
      result ← on_exec (apply_resp2_write payload);
      match result with
      | Some error => mret (Some error)
      | None => modify (set_replication_offset next_offset);; apply_from payloads (u64 (next_offset + 1))
      end
  end.

Definition apply_firehose_batch (batch : ReplicationBatch) : M Replica (option bytes) :=
  state ← gets repl_;
  let count := Z.of_nat (length (mutations batch)) in
  if (count =? 0) || (b_offset batch =? 0) then mret (Some (str "empty or zero-offset firehose batch"))
  else if u64_max - b_offset batch <? count - 1 then mret (Some (str "firehose batch logical offsets overflow"))
  else
    let last_offset := b_offset batch + count - 1 in
    if negb (s_valid state) || negb (bool_decide (s_id state = b_id batch))
    then mret (Some (str "firehose replication lineage does not match the loaded state"))
    else if last_offset <=? s_offset state then mret None
    else if (s_offset state =? u64_max) || (u64 (s_offset state + 1) <? b_offset batch)
    then mret (Some (str "firehose logical offset gap: expected " ++ to_chars_u64 (u64 (s_offset state + 1)) ++ str ", received " ++ to_chars_u64 (b_offset batch)))
    else
      let first := if b_offset batch <=? s_offset state then Z.to_nat (s_offset state - b_offset batch + 1) else 0%nat in
      apply_from (drop first (map payload (mutations batch))) (b_offset batch + Z.of_nat first).
End apply.
