(* ===== verification/ReplicationSpec.v ===== *)
(** * Following a source

    What replication promises, proved of [ReplicationApply]: a replica that is sent
    segments of a log in whatever order and however often applies each record once and
    in order; and a string command leaves source and replica with the same key. *)

From S2P Require Import Prelude ParseInt RespParser RespWriter StringEncoding MemoryLimit CommandType CommandClass CommandParse Keyspace Store StoreSpec CommandExec CommandFrame CommandRuns Replication ReplicationApply.
From stdpp Require Import gmap.
From Stdlib Require Import ZArith Lia ZifyBool.

Import Classes Names Parse.

Local Open Scope Z_scope.

Section follows.
Context {L : LZ4} {Payload : Type}.
Variable string_encoding_ : Z.
Variable clone : KeyType -> Payload -> Payload.
Variable char_value : byte -> Z.
Variable clock : nat -> Z.
Variable list_implementation : ListImplementation.
Variable default_packed_zset_kind : option Z.
Variable packed_kind : Payload -> Z.

Abbreviation Ex := (@Exec Payload).
Abbreviation Rp := (@Replica Payload).

Variable execute_packed_zset_command : Z -> Command -> M Ex unit.
Variable execute_other : CommandType -> Command -> M Ex unit.

Abbreviation write := (apply_resp2_write string_encoding_ clone char_value clock list_implementation default_packed_zset_kind packed_kind
  execute_packed_zset_command execute_other).
Abbreviation from := (apply_from string_encoding_ clone char_value clock list_implementation default_packed_zset_kind packed_kind
  execute_packed_zset_command execute_other).
Abbreviation receive := (apply_firehose_batch string_encoding_ clone char_value clock list_implementation default_packed_zset_kind packed_kind
  execute_packed_zset_command execute_other).

Implicit Types (r : Rp) (b : ReplicationBatch) (log : list bytes).

(** A log applied in two parts. *)
Lemma apply_from_app l1 l2 o r r' :
  0 <= o -> o + Z.of_nat (length l1) + Z.of_nat (length l2) <= u64_max + 1 ->
  from l1 o r = Ok None r' -> from (l1 ++ l2) o r = from l2 (o + Z.of_nat (length l1)) r'.
Proof.
  revert o r. induction l1 as [|p l1 IH]; intros o r Ho Hl E; [injection E as <-; cbn [app length]; by replace (o + Z.of_nat 0) with o by lia|].
  cbn [app apply_from] in *. unfold mbind, M_bind in *. destruct (on_exec (write p) r) as [[e|] x|e x|]; [done| |done|done].
  unfold modify in *. cbn [length] in Hl. destruct (decide (length l1 = 0 /\ length l2 = 0)%nat) as [[H1 H2]|Hn].
  - destruct l1, l2; by simplify_eq/=.
  - rewrite !wrap_small in * by (unfold u64_max in *; lia). rewrite (IH (o + 1)) by (done || lia). f_equal. cbn [length]. lia.
Qed.

(** Where a log stops, when it does. *)
Lemma apply_from_stops l o r :
  0 <= o -> o + Z.of_nat (length l) <= u64_max + 1 -> (forall r', from l o r <> Ok None r') ->
  exists k p r', l !! k = Some p /\ from (take k l) o r = Ok None r' /\
    match on_exec (write p) r' with
    | Ok (Some e) r'' => from l o r = Ok (Some e) r''
    | Ok None _ => False
    | Exn e r'' => from l o r = Exn e r''
    | Ub => from l o r = Ub
    end.
Proof.
  revert o r. induction l as [|p l IH]; intros o r Ho Hl Hn; [by destruct (Hn r)|]. cbn [length] in Hl. destruct (on_exec (write p) r) as [[e|] x|e x|] eqn:E.
  2: { destruct (decide (l = [])) as [->|Hl']; [exfalso; eapply Hn; cbn [apply_from]; unfold mbind, M_bind; by rewrite E|].
       assert (Hpos : (1 <= length l)%nat) by (destruct l; [done|cbn; lia]).
       destruct (IH (o + 1) (set_replication_offset o x)) as (k & q & r' & H1 & H2 & H3); [lia|lia| |].
       - intros r' E'. apply (Hn r'). cbn [apply_from]. unfold mbind, M_bind, modify. rewrite E. by rewrite wrap_small by (unfold u64_max in *; lia).
       - exists (S k), q, r'. split; [done|]. cbn [take apply_from]. unfold mbind, M_bind, modify. rewrite E. by rewrite !wrap_small by (unfold u64_max in *; lia). }
  all: exists 0%nat, p, r; split; [done|]; split; [done|]; rewrite E; cbn [apply_from]; unfold mbind, M_bind; by rewrite E.
Qed.

Lemma apply_from_position l o r r' :
  0 <= o -> o + Z.of_nat (length l) <= u64_max + 1 -> from l o r = Ok None r' -> 
  s_id (repl_ r') = s_id (repl_ r) /\ s_valid (repl_ r') = s_valid (repl_ r) /\
  s_offset (repl_ r') = (if decide (l = []) then s_offset (repl_ r) else o + Z.of_nat (length l) - 1).
Proof.
  revert o r. induction l as [|p l IH]; intros o r Ho Hl E; [by injection E as <-|]. cbn [apply_from length] in *. unfold mbind, M_bind in E.
  assert (Hk : forall e x, on_exec (write p) r = Ok e x -> repl_ x = repl_ r).
  { unfold on_exec. intros e x. destruct (write p (exec_ r)); [|done|done]. by intros [= _ <-]. }
  destruct (on_exec (write p) r) as [[e|] x|e x|]; [done| |done|done]. specialize (Hk _ _ eq_refl). unfold modify in E.
  destruct (decide (l = [])) as [->|Hl'].
  - cbn in E. injection E as <-. cbn. rewrite Hk, decide_False by done. split_and!; [done|done|lia].
  - assert (Hpos : (1 <= length l)%nat) by (destruct l; [done|cbn; lia]). rewrite wrap_small in E by (unfold u64_max in *; lia).
    destruct (IH (o + 1) _ ltac:(lia) ltac:(lia) E) as (H1 & H2 & H3). rewrite H1, H2, H3. cbn. rewrite Hk. rewrite !decide_False by done. split_and!; [done|done|].
    cbn [length]. lia.
Qed.

Variable base : Z.
Variable id : ReplicationId.
Variable log : list bytes.
Variable origin : Rp.

(** The state the replica was loaded with: a snapshot of the lineage at offset [base]. *)
Hypothesis Hbase : 0 <= base.
Hypothesis Hlog : base + Z.of_nat (length log) <= u64_max.
Hypothesis Horigin : s_valid (repl_ origin) = true /\ s_id (repl_ origin) = id /\ s_offset (repl_ origin) = base.

(** The first [j] records were applied, each once and in order. *)
Definition caught_up (j : nat) (r : Rp) : Prop := (j <= length log)%nat /\ from (take j log) (base + 1) origin = Ok None r.

(** A batch that carries [n] records from the [i]-th on. *)
Definition segment (i n : nat) (b : ReplicationBatch) : Prop :=
  b_id b = id /\ b_offset b = base + 1 + Z.of_nat i /\ (1 <= n)%nat /\ (i + n <= length log)%nat /\ map payload (mutations b) = take n (drop i log).

(** How far a segment takes a replica that is at [j]: not at all beyond a gap. *)
Definition reach (j : nat) (s : nat * nat) : nat := if (s.1 <=? j)%nat then Nat.max j (s.1 + s.2) else j.

Lemma caught_up_position j r : caught_up j r -> s_valid (repl_ r) = true /\ s_id (repl_ r) = id /\ s_offset (repl_ r) = base + Z.of_nat j.
Proof.
  intros [Hj E]. destruct Horigin as (Hv & Hi & Ho). pose proof (length_take_le log j Hj) as Hlen.
  destruct (apply_from_position (take j log) (base + 1) _ _ ltac:(lia) ltac:(lia) E) as (H1 & H2 & H3).
  rewrite H1, H2, H3, Hlen. split_and!; [done|done|]. destruct (decide (take j log = [])) as [En|]; [|lia].
  rewrite En in Hlen. cbn in Hlen. lia.
Qed.

(** One batch, at a replica that is caught up to [j]. *)
Lemma receive_segment j r i n b :
  caught_up j r -> segment i n b ->
  (j < i -> exists e, receive b r = Ok (Some e) r)%nat /\
  (i + n <= j -> receive b r = Ok None r)%nat /\
  (i <= j < i + n -> receive b r = from (take (i + n - j) (drop j log)) (base + 1 + Z.of_nat j) r)%nat.
Proof.
  intros Hc (Hid & Hoff & Hn & Hin & Hp). destruct (caught_up_position _ _ Hc) as (Hv & Hi & Ho). destruct Hc as [Hj _].
  assert (Hlen : length (mutations b) = n). { rewrite <- (length_map payload), Hp. rewrite length_take, length_drop. lia. }
  unfold apply_firehose_batch, gets, mbind, M_bind. rewrite Hlen, Hoff, Hv, Hi, Hid, Ho.
  replace ((Z.of_nat n =? 0) || _) with false by lia. replace (u64_max - (base + 1 + Z.of_nat i) <? Z.of_nat n - 1) with false by (unfold u64_max in *; lia).
  cbn [negb orb]. rewrite bool_decide_eq_true_2 by done. cbn [negb]. split_and!; intros Hcase.
  - rewrite wrap_small by (unfold u64_max in *; lia). replace (_ <=? _) with false by lia. replace ((_ =? u64_max) || _) with true by lia. by eexists.
  - by replace (_ <=? _) with true by lia.
  - rewrite wrap_small by (unfold u64_max in *; lia). replace (base + 1 + Z.of_nat i + Z.of_nat n - 1 <=? base + Z.of_nat j) with false by lia.
    replace ((_ =? u64_max) || _) with false by lia. rewrite Hp.
    assert ((if base + 1 + Z.of_nat i <=? base + Z.of_nat j then Z.to_nat (base + Z.of_nat j - (base + 1 + Z.of_nat i) + 1) else 0%nat) = (j - i)%nat) as ->
      by (destruct (Z.leb_spec (base + 1 + Z.of_nat i) (base + Z.of_nat j)); lia).
    rewrite skipn_firstn_comm, drop_drop. f_equal; [f_equal; [lia|f_equal; lia]|lia].
Qed.

(** What one delivery leaves. *)
Lemma receive_caught_up j r i n b r' :
  caught_up j r -> segment i n b -> receive b r = Ok None r' -> caught_up (reach j (i, n)) r'.
Proof.
  intros Hc Hs E. destruct (receive_segment _ _ _ _ _ Hc Hs) as (H1 & H2 & H3). destruct Hs as (_ & _ & Hn & Hin & _). unfold reach. cbn.
  destruct (Nat.leb_spec i j) as [Hle|Hlt]; [|by destruct (H1 Hlt) as [e He]; rewrite He in E].
  destruct (decide (i + n <= j)%nat) as [Hd|Hd]; [rewrite (H2 Hd) in E; injection E as <-; by replace (Nat.max j (i + n)) with j by lia|].
  rewrite H3 in E by lia. destruct Hc as [Hj Ec]. replace (Nat.max j (i + n)) with (i + n)%nat by lia. split; [done|].
  replace (take (i + n) log) with (take j log ++ take (i + n - j) (drop j log)) by (rewrite take_take_drop; f_equal; lia).
  rewrite (apply_from_app _ _ _ _ r); [|lia| |done].
  - by rewrite length_take_le by done.
  - rewrite !length_take, length_drop. unfold u64_max in *. lia.
Qed.

(** Batches as they arrive.  A batch beyond a gap is refused and nothing else happens; the source sends
    again. *)
Inductive delivered : Rp -> list ReplicationBatch -> Rp -> Prop :=
  | delivered_nil r : delivered r [] r
  | delivered_applied r b bs r' r'' : receive b r = Ok None r' -> delivered r' bs r'' -> delivered r (b :: bs) r''
  | delivered_refused r b bs e r'' : receive b r = Ok (Some e) r -> s_offset (repl_ r) + 1 < b_offset b -> delivered r bs r'' -> delivered r (b :: bs) r''.

Lemma delivered_caught_up segments bs j r r' :
  caught_up j r -> Forall2 (fun s b => segment s.1 s.2 b) segments bs -> delivered r bs r' -> caught_up (fold_left reach segments j) r'.
Proof.
  intros Hc Hf. revert j r Hc. induction Hf as [|[i n] b segments bs Hs _ IH]; intros j r Hc Hd; inversion Hd; subst; [done| |].
  - eapply IH; [by eapply receive_caught_up|done].
  - cbn [fold_left]. replace (reach j (i, n)) with j; [by eapply IH|]. unfold reach. cbn.
    destruct (caught_up_position _ _ Hc) as (_ & _ & Ho). destruct Hs as (_ & Hoff & _). destruct (Nat.leb_spec i j); [cbn in Hoff; lia|done].
Qed.

(** C3: every record of the log is applied exactly once and in order, whatever is delivered.  For batches
    that carry segments of the log and arrive in any order, repeated or overlapping, the replica ends in
    the state of applying the first so many records one after another to its snapshot, with the offset of
    the last; how many is what the segments reach without a gap. *)
Theorem exactly_once (segments : list (nat * nat)) (bs : list ReplicationBatch) (r : Rp) :
  Forall2 (fun s b => segment s.1 s.2 b) segments bs -> delivered origin bs r ->
  let j := fold_left reach segments 0%nat in
  from (take j log) (base + 1) origin = Ok None r /\ (j <= length log)%nat /\
  s_offset (repl_ r) = base + Z.of_nat j /\ s_id (repl_ r) = id /\ s_valid (repl_ r) = true.
Proof.
  intros Hf Hd j. assert (Hc : caught_up 0 origin) by (split; [lia|done]). pose proof (delivered_caught_up _ _ _ _ _ Hc Hf Hd) as [Hj E].
  destruct (caught_up_position _ _ (conj Hj E)) as (Hv & Hi & Ho). done.
Qed.

(** C39: a batch never leaves the log.  A replica caught up to [j] refuses a batch beyond the next offset
    and keeps its state; it accepts one it has already applied without running anything; and where it
    must run records and does not succeed, the records before the one that failed were applied, the
    offset names the last of them, and the failure is that of the record. *)
Theorem receive_outcomes (j : nat) (r : Rp) (i n : nat) (b : ReplicationBatch) :
  caught_up j r -> segment i n b ->
  (j < i -> exists e, receive b r = Ok (Some e) r)%nat /\
  (i + n <= j -> receive b r = Ok None r)%nat /\
  (i <= j < i + n ->
     (exists r', receive b r = Ok None r' /\ caught_up (i + n) r') \/
     (exists (k : nat) (p : bytes) r', j <= k < i + n /\ log !! k = Some p /\ caught_up k r' /\ s_offset (repl_ r') = (base + Z.of_nat k)%Z /\
        match on_exec (write p) r' with
        | Ok (Some e) r'' => receive b r = Ok (Some e) r''
        | Ok None _ => False
        | Exn e r'' => receive b r = Exn e r''
        | Ub => receive b r = Ub
        end))%nat.
Proof.
  intros Hc Hs. destruct (receive_segment _ _ _ _ _ Hc Hs) as (H1 & H2 & H3). split; [done|]. split; [done|]. intros Hm.
  destruct (receive b r) as [[e|] r'|e r'|] eqn:E.
  2: { left. exists r'. split; [done|]. pose proof (receive_caught_up _ _ _ _ _ _ Hc Hs E) as Hr. unfold reach in Hr. cbn in Hr.
       replace (i <=? j)%nat with true in Hr by lia. by replace (Nat.max j (i + n)) with (i + n)%nat in Hr by lia. }
  all: right; pose proof (H3 Hm) as E'; destruct Hs as (_ & _ & Hn & Hin & _); destruct Hc as [Hj Ec].
  all: destruct (apply_from_stops (take (i + n - j) (drop j log)) (base + 1 + Z.of_nat j) r) as (k & p & r1 & Hk & Et & Hw);
    [lia|rewrite length_take, length_drop; unfold u64_max in *; lia|intros ? ?; congruence|].
  all: apply lookup_take_Some in Hk as [Hk Hlt]; rewrite lookup_drop in Hk; rewrite take_take, Nat.min_l in Et by lia.
  all: assert (Hc1 : caught_up (j + k) r1) by (split; [lia|]; rewrite <- take_take_drop; rewrite (apply_from_app _ _ _ _ r);
    [by rewrite length_take_le by done|lia|rewrite !length_take, length_drop; unfold u64_max in *; lia|done]).
  all: exists (j + k)%nat, p, r1; split; [lia|]; split; [done|]; split; [done|]; split; [by destruct (caught_up_position _ _ Hc1) as (_ & _ & ?)|].
  all: rewrite <- E' in Hw; exact Hw.
Qed.
End follows.

(** ** What a string command sends *)

Section converges.
Context {L : LZ4} {LC : LZ4Correct L} {Payload : Type}.
Variable string_encoding_ : Z.
Variable clone : KeyType -> Payload -> Payload.
Variable char_value : byte -> Z.
Variable clock : nat -> Z.
Variable list_implementation : ListImplementation.
Variable default_packed_zset_kind : option Z.
Variable packed_kind : Payload -> Z.

Abbreviation St := (@Store Payload).
Abbreviation AMap := (gmap bytes (@AObj Payload * option Z)).
Abbreviation Ex := (@Exec Payload).
Abbreviation Rp := (@Replica Payload).
Implicit Types (m : AMap) (k : bytes) (x : Ex) (r : Rp).

Variable execute_packed_zset_command : Z -> Command -> M Ex unit.
Variable execute_other : CommandType -> Command -> M Ex unit.
Variable hget : bytes -> bytes -> M St (option bytes).
Variable zscore_text : bytes -> bytes -> M St (option bytes).
Variable packed_name : bytes -> M St (option bytes).
Variable sismember : bytes -> bytes -> M St bool.

Abbreviation rep_ := (rep string_encoding_).
Abbreviation write := (apply_resp2_write string_encoding_ clone char_value clock list_implementation default_packed_zset_kind packed_kind
  execute_packed_zset_command execute_other).
Abbreviation from := (apply_from string_encoding_ clone char_value clock list_implementation default_packed_zset_kind packed_kind
  execute_packed_zset_command execute_other).
Abbreviation direct := (handle_command_into string_encoding_ clone char_value clock direct_options list_implementation default_packed_zset_kind packed_kind
  execute_packed_zset_command execute_other).
Abbreviation build := (build_replication_mutations string_encoding_ hget zscore_text packed_name sismember).

(** The commands that carry what the source holds at a key. *)
Definition current_commands (k : bytes) (m : AMap) : list (list bytes) :=
  match m !! k with
  | Some (AStr t, None) => [[str "SET"; k; t]]
  | Some (AStr t, Some e) => [[str "SET"; k; t]; [str "PEXPIREAT"; k; to_chars_u64 e]]
  | _ => [[str "DEL"; k]]
  end.

Lemma mutation_run (name k : bytes) (fields : list bytes) (s : St) :
  Z.of_nat (length name) < 2 ^ 32 -> Z.of_nat (length k) < 2 ^ 32 ->
  exists ck, key_for [name; k] s = Ok ck s /\ command_mutation fields ck s = Ok (mkMutation ck (command_wire fields)) s.
Proof.
  intros Hn Hk. unfold key_for, make_replication_compaction_key. cbn [existsb]. replace (_ || _) with false by lia. eexists. split; [reflexivity|].
  unfold command_mutation, encode_resp2_command, mbind, M_bind. by rewrite append_bulk_strings_eq, append_array_header_eq by lia.
Qed.

Lemma expiretime_run k (s : St) m : rep_ s m -> expiretime_ms k s = Ok (a_expiretime k m) s.
Proof.
  intros R. destruct (does_expiretime string_encoding_ k m s R) as (s' & keys & E & _). rewrite E. f_equal.
  unfold expiretime_ms, id_of, mbind, M_bind, gets in E. by destruct (find_id k (keyspace_ s)); injection E.
Qed.

Lemma to_string_nonneg e : 0 <= e -> to_string_i64 e = to_chars_u64 e.
Proof. intros He. unfold to_string_i64. by replace (e <? 0) with false by lia. Qed.

(** The records made of the state a string command left. *)
Lemma current_string_run k (s : St) m :
  rep_ s m -> Z.of_nat (length k) < 2 ^ 32 ->
  exists l, append_current_string string_encoding_ k [] s = Ok l s /\ map payload l = map command_wire (current_commands k m).
Proof.
  intros R Hk. destruct (get_view _ s m k R) as (ov & E & Hov). unfold append_current_string, mbind, M_bind.
  destruct (mutation_run (str "SET") k [] s ltac:(vm_compute; done) Hk) as (ck & Eck & _). rewrite Eck, E.
  assert (Hm : forall fields, command_mutation fields ck s = Ok (mkMutation ck (command_wire fields)) s).
  { intros fields. destruct (mutation_run (str "SET") k fields s ltac:(vm_compute; done) Hk) as (ck' & E1 & E2). rewrite Eck in E1. by injection E1 as ->. }
  unfold current_commands. unfold a_text in Hov. pose proof (expiretime_run k s m R) as Ex. unfold a_expiretime, a_has, a_ttl in Ex.
  destruct (m !! k) as [[[t|ty p] o]|] eqn:Hl; cbn [mbind option_bind fst snd] in Hov, Ex; [| |].
  - destruct Hov as (v & -> & (_ & _ & Ht) & _). unfold join_value, of_result.
    rewrite bool_decide_eq_true_2 in Ex by done. rewrite Ht, Hm, Ex. destruct o as [e|]; [|by eexists].
    assert (He : 0 <= e) by (destruct (rep_ttl_range _ _ _ k e R) as [? _]; [unfold a_ttl; by rewrite Hl|done]).
    cbn [default from_option id] in *. replace (0 <=? e) with true by lia. unfold append_current_ttl, mbind, M_bind. rewrite Ex.
    destruct (mutation_run (str "TTL") k [str "PEXPIREAT"; k; to_string_i64 e] s ltac:(vm_compute; done) Hk) as (ck2 & E1 & E2). rewrite E1.
    replace (0 <=? e) with true by lia. rewrite E2. rewrite to_string_nonneg by done. by eexists.
  - subst ov. rewrite Hm. by eexists.
  - subst ov. rewrite Hm. by eexists.
Qed.

(** *** What the replica makes of them *)

Lemma write_run fields c x w :
  sendable fields -> parse_fields fields = inr c -> c_type c <> CT_unknown -> command_mutates_store (c_type c) = true ->
  direct fields (set_out [] x) = Ok tt w -> head (out_ w) <> Some "-"%byte -> write (command_wire fields) x = Ok None (set_out (out_ x) w).
Proof.
  intros Hs Hp Hu Hm E Hh. unfold apply_resp2_write. rewrite parse_frame, Hp by done. replace (ct_eqb _ _ || _) with false.
  - unfold handle_command_into in E. rewrite Hp in E. rewrite E. by rewrite bool_decide_eq_false_2.
  - rewrite Hm. by destruct (c_type c).
Qed.

Lemma integer_head n : head (append_integer [] n) <> Some "-"%byte.
Proof. done. Qed.

Lemma sendable_key name k : Z.of_nat (length name) <= kMaxBulkBytes -> Z.of_nat (length k) <= kMaxBulkBytes -> sendable [name; k].
Proof. intros H1 H2. split; [vm_compute; discriminate|]. by repeat constructor. Qed.

Lemma sendable_key_text name k t :
  Z.of_nat (length name) <= kMaxBulkBytes -> Z.of_nat (length k) <= kMaxBulkBytes -> Z.of_nat (length t) <= kMaxBulkBytes -> sendable [name; k; t].
Proof. intros H1 H2 H3. split; [vm_compute; discriminate|]. by repeat constructor. Qed.

(** The records of a key, run where [mr] is represented. *)
Lemma current_commands_run k m mr o r :
  rep_ (store_ (exec_ r)) mr -> Z.of_nat (length k) <= kMaxBulkBytes ->
  (forall t e, m !! k = Some (AStr t, e) -> settable string_encoding_ mr k t /\ Z.of_nat (length t) <= kMaxBulkBytes) ->
  (forall e, a_ttl m k = Some e -> 0 <= e < 2 ^ 48) ->
  exists r' mr', from (map command_wire (current_commands k m)) o r = Ok None r' /\ rep_ (store_ (exec_ r')) mr' /\
    (forall k', k' <> k -> mr' !! k' = mr !! k') /\
    ((forall ty p e, m !! k <> Some (AOther ty p, e)) -> mr' !! k = m !! k \/ (mr' !! k = None /\ exists e n, a_ttl m k = Some e /\ e <= clock n)).
Proof.
  intros R Hk Hset Hrange.
  assert (Hon : forall fields w (r0 : Rp), write (command_wire fields) (exec_ r0) = Ok None w ->
    on_exec (write (command_wire fields)) r0 = Ok None (mkReplica w (repl_ r0))) by (intros fields w r0 E; unfold on_exec; by rewrite E).
  assert (Hdel : exists r' mr', from (map command_wire [[str "DEL"; k]]) o r = Ok None r' /\ rep_ (store_ (exec_ r')) mr' /\ mr' = delete k mr).
  { destruct (del_run string_encoding_ clone char_value clock direct_options list_implementation default_packed_zset_kind packed_kind
      execute_packed_zset_command execute_other eq_refl k (set_out [] (exec_ r)) mr R) as (w & E & Rw & n & Hout).
    assert (Ew : write (command_wire [str "DEL"; k]) (exec_ r) = Ok None (set_out (out_ (exec_ r)) w)).
    { eapply write_run; [by apply sendable_key|apply CommandRuns.parse_del|discriminate|reflexivity|exact E|rewrite Hout; apply integer_head]. }
    cbn [map apply_from]. unfold mbind, M_bind. rewrite (Hon _ _ _ Ew). do 2 eexists. split; [reflexivity|]. by split. }
  assert (Hst : forall t e, m !! k = Some (AStr t, e) -> exists w, on_exec (write (command_wire [str "SET"; k; t])) r = Ok None (mkReplica w (repl_ r)) /\
    rep_ (store_ w) (<[k := (AStr t, None)]> mr)).
  { intros t e Hl. destruct (Hset _ _ Hl) as [Hw Ht].
    destruct (set_run string_encoding_ clone char_value clock direct_options list_implementation default_packed_zset_kind packed_kind
      execute_packed_zset_command execute_other eq_refl k t (set_out [] (exec_ r)) mr R Hw) as (w & E & Hout & Rw).
    assert (Ew : write (command_wire [str "SET"; k; t]) (exec_ r) = Ok None (set_out (out_ (exec_ r)) w)).
    { eapply write_run; [by apply sendable_key_text|apply CommandRuns.parse_set|discriminate|reflexivity|exact E|by rewrite Hout]. }
    exists (set_out (out_ (exec_ r)) w). split; [by apply Hon|done]. }
  unfold current_commands. destruct (m !! k) as [[[t|ty p] [e|]]|] eqn:Hl.
  - destruct (Hst _ _ eq_refl) as (w & E & Rw). cbn [map apply_from]. unfold mbind, M_bind, modify. rewrite E.
    set (r1 := set_replication_offset o (mkReplica w (repl_ r))).
    assert (He : 0 <= e < 2 ^ 48) by (apply Hrange; unfold a_ttl; by rewrite Hl).
    destruct (pexpireat_run string_encoding_ clone char_value clock direct_options list_implementation default_packed_zset_kind packed_kind
      execute_packed_zset_command execute_other eq_refl k e (set_out [] (exec_ r1)) _ Rw He) as (w1 & n & E1 & _ & R1 & b & Hout).
    assert (Ew : write (command_wire [str "PEXPIREAT"; k; to_chars_u64 e]) (exec_ r1) = Ok None (set_out (out_ (exec_ r1)) w1)).
    { eapply write_run; [apply sendable_key_text; [done|done|apply short_chars]|apply CommandRuns.parse_pexpireat|discriminate|reflexivity|exact E1|rewrite Hout; apply integer_head]. }
    rewrite (Hon _ _ _ Ew). do 2 eexists. split; [reflexivity|]. split; [exact R1|].
    assert (Hp : forall now, a_purge now k (<[k := (AStr t, None)]> mr) = <[k := (AStr t, None)]> mr) by (intros now; unfold a_purge, a_due, a_ttl; by rewrite lookup_insert_eq).
    rewrite Hp. unfold a_expire, a_has, a_ttl, allows. rewrite lookup_insert_eq. rewrite bool_decide_eq_true_2 by done. cbn [andb].
    destruct (Z.leb_spec e (clock n)) as [Hle|Hgt]; cbn.
    + split; [intros k' Hne; by rewrite lookup_delete_ne, lookup_insert_ne|]. intros _. right. rewrite lookup_delete_eq. split; [done|]. exists e, n. by rewrite Hl.
    + rewrite (with_ttl_insert _ _ _ (AStr t) None) by apply lookup_insert_eq. rewrite insert_insert_eq.
      split; [intros k' Hne; by rewrite lookup_insert_ne|]. intros _. left. apply lookup_insert_eq.
  - destruct (Hst _ _ eq_refl) as (w & E & Rw). cbn [map apply_from]. unfold mbind, M_bind, modify. rewrite E. do 2 eexists. split; [reflexivity|].
    split; [exact Rw|]. split; [intros k' Hne; by rewrite lookup_insert_ne|]. intros _. left. apply lookup_insert_eq.
  - destruct Hdel as (r' & mr' & E & Rr & ->). do 2 eexists. split; [exact E|]. split; [exact Rr|]. split; [intros k' Hne; by rewrite lookup_delete_ne|].
    intros Hn. by destruct (Hn ty p (Some e)).
  - destruct Hdel as (r' & mr' & E & Rr & ->). do 2 eexists. split; [exact E|]. split; [exact Rr|]. split; [intros k' Hne; by rewrite lookup_delete_ne|].
    intros Hn. by destruct (Hn ty p None).
  - destruct Hdel as (r' & mr' & E & Rr & ->). do 2 eexists. split; [exact E|]. split; [exact Rr|]. split; [intros k' Hne; by rewrite lookup_delete_ne|].
    intros _. left. apply lookup_delete_eq.
Qed.

(** *** Source and replica together *)

(** The commands that are replicated by the value they leave at their first argument. *)
Definition by_value (type : CommandType) : bool :=
  match type with
  | CT_set | CT_getset | CT_setnx | CT_getdel | CT_append | CT_incr | CT_decr | CT_incrby | CT_decrby | CT_setrange | CT_getex
  | CT_goblin_cad | CT_goblin_caexpire | CT_goblin_cas | CT_goblin_increx | CT_goblin_incrbound | CT_goblin_decrpos => true
  | _ => false
  end.

Lemma by_value_string type : by_value type = true -> is_string_command type = true /\ type <> CT_unknown /\ (1 <= min_args type)%nat.
Proof. intros Ht. destruct type; try discriminate Ht; split_and!; try done; vm_compute; lia. Qed.

Lemma by_value_keys type k args k' : by_value type = true -> k' ∈ written_keys type (k :: args) -> k' = k.
Proof.
  intros Ht Hin. assert (Hr : command_key_range type = mkRange 1 1 1) by (by destruct type).
  assert (Ha : k' ∈ advertised_keys type (k :: args)) by (unfold written_keys in Hin; by destruct type).
  unfold advertised_keys in Ha. rewrite Hr in Ha. apply list_elem_of_In, in_concat in Ha as (l & Hl & Hk').
  apply list_elem_of_In, elem_of_lookup_imap in Hl as (i & a & -> & Hi). cbn in Hk'. destruct (_ && _) eqn:E in Hk'; [|done].
  destruct Hk' as [<-|[]]. assert (i = 0%nat) as -> by lia. by injection Hi.
Qed.

(** The records a successful command of this kind makes. *)
Lemma build_by_value c k args response (s : St) m :
  by_value (c_type c) = true -> c_packed_zset_kind c = 0 -> c_args c = k :: args -> response_is_error response = false ->
  (c_type c = CT_setnx -> response_is_zero response = false) -> rep_ s m -> Z.of_nat (length k) < 2 ^ 32 ->
  exists l, build c response s = Ok (Some l) s /\ map payload l = map command_wire (current_commands k m).
Proof.
  intros Ht Hk Ha He Hz R Hlen. destruct (current_string_run k s m R Hlen) as (l & El & Hl). exists l. split; [|done].
  assert (Hb : build c response s = (l ← append_current_string string_encoding_ k []; mret (Some l)) s).
  { unfold build_replication_mutations. rewrite He, Hk, Ha. cbn [Z.eqb negb]. destruct (c_type c) eqn:Hc; try discriminate Ht; try done. by rewrite (Hz eq_refl). }
  rewrite Hb. unfold mbind, M_bind. by rewrite El.
Qed.

Variable options : CommandExecutionOptions.

Abbreviation handle := (handle_command_into string_encoding_ clone char_value clock options list_implementation default_packed_zset_kind packed_kind
  execute_packed_zset_command execute_other).

(** Gone because its time has come. *)
Definition ran_out (m m' : AMap) (k : bytes) : Prop := m' !! k = None /\ exists e n, a_ttl m k = Some e /\ e <= clock n.

(** C4: a string command leaves source and replica with the same data.  Let both hold the same map and let
    the source run a command that is replicated by value, with a reply that is no error (and for SETNX
    not zero).  Unless the key then holds something other than a string, the records made from the state
    the source is in are all applied, the replica moves to the offset of the last, and afterwards every
    key has the same value and expiry on both sides, or has run out on one of them. *)
Theorem string_commands_converge (fields : list bytes) (c : Command) (k : bytes) (args : list bytes) (x y : Ex) (r : Rp) (m m' : AMap) (o : Z) :
  parse_fields fields = inr c -> by_value (c_type c) = true -> c_args c = k :: args -> Z.of_nat (length k) <= kMaxBulkBytes ->
  rep_ (store_ x) m -> rep_ (store_ (exec_ r)) m -> handle fields x = Ok tt y -> rep_ (store_ y) m' ->
  let response := drop (length (out_ x)) (out_ y) in
  response_is_error response = false -> (c_type c = CT_setnx -> response_is_zero response = false) ->
  (forall t e, m' !! k = Some (AStr t, e) -> settable string_encoding_ m k t /\ Z.of_nat (length t) <= kMaxBulkBytes) ->
  (forall ty p e, m' !! k <> Some (AOther ty p, e)) ->
  0 <= o -> o + 2 <= u64_max ->
  exists l r' mr, build c response (store_ y) = Ok (Some l) (store_ y) /\ from (map payload l) o r = Ok None r' /\
    s_offset (repl_ r') = o + Z.of_nat (length l) - 1 /\ rep_ (store_ (exec_ r')) mr /\
    (forall k', mr !! k' = m' !! k' \/ ran_out m' mr k' \/ ran_out m m' k').
Proof.
  intros Hp Ht Ha Hlen R Rr E Ry response He Hz Hset Hstr Ho Ho'. destruct (by_value_string _ Ht) as (Hs & Hu & _).
  destruct (parsed_string fields c Hp Hs Hu) as [Hk _].
  destruct (build_by_value c k args response (store_ y) m' Ht Hk Ha He Hz Ry ltac:(unfold kMaxBulkBytes in Hlen; lia)) as (l & El & Hl).
  destruct (current_commands_run k m' m o r Rr Hlen Hset (fun e => rep_ttl_range _ _ _ k e Ry)) as (r' & mr & Ef & Rm & Hother & Hkey).
  exists l, r', mr. split; [done|]. rewrite <- Hl in Ef. split; [done|].
  assert (Hc : (1 <= length l <= 2)%nat).
  { rewrite <- (length_map payload l), Hl, length_map. unfold current_commands. destruct (m' !! k) as [[[t|ty p] [e|]]|]; cbn; lia. }
  split. { destruct (apply_from_position string_encoding_ clone char_value clock list_implementation default_packed_zset_kind packed_kind
             execute_packed_zset_command execute_other (map payload l) o r r' Ho ltac:(rewrite length_map; lia) Ef) as (_ & _ & ->).
           rewrite decide_False, length_map; [done|]. intros Hn. apply (f_equal length) in Hn. rewrite length_map in Hn. cbn in Hn. lia. }
  split; [done|]. intros k'. destruct (decide (k' = k)) as [->|Hne]; [destruct (Hkey Hstr) as [?|?]; [by left|right; by left]|].
  pose proof (handle_frame string_encoding_ clone char_value clock options list_implementation default_packed_zset_kind packed_kind
    execute_packed_zset_command execute_other fields c x m Hp Hs Hu R) as Hf. rewrite E in Hf. destruct Hf as (m1 & keys & R1 & _ & _ & Hall).
  assert (m1 = m') as -> by (by rewrite <- (r_map _ _ _ R1), <- (r_map _ _ _ Ry)).
  rewrite (Hother k' Hne). destruct (Hall k') as [Hin|[->|Hx]]; [|by left|by right; right].
  rewrite Ha in Hin. by destruct (Hne (by_value_keys _ _ _ _ Ht Hin)).
Qed.

(** *** Two commands that do not *)

Hypothesis Hro : read_only options = false.

Lemma integer_reply (out : bytes) n : drop (length out) (append_integer out n) = append_integer [] n.
Proof. unfold append_integer, append_decimal_i64. rewrite <- !app_assoc. by rewrite drop_app_length. Qed.

Lemma integer_no_error n : response_is_error (append_integer [] n) = false.
Proof. done. Qed.

(** C40: an expiry in the past is not replicated.  PEXPIREAT with a time that has passed deletes the key at
    the source; what is sent is PERSIST, because the deleted key has no expiry, and the replica keeps the
    value for good. *)
Theorem past_expiry_diverges (k : bytes) (when_ms : Z) (x : Ex) (r : Rp) (m : AMap) (a : @AObj Payload) (o : Z) :
  rep_ (store_ x) m -> rep_ (store_ (exec_ r)) m -> m !! k = Some (a, None) -> Z.of_nat (length k) <= kMaxBulkBytes ->
  0 <= when_ms < 2 ^ 48 -> (forall n, when_ms <= clock n) ->
  exists y c l r', handle [str "PEXPIREAT"; k; to_chars_u64 when_ms] x = Ok tt y /\ rep_ (store_ y) (delete k m) /\
    parse_fields [str "PEXPIREAT"; k; to_chars_u64 when_ms] = inr c /\ build c (drop (length (out_ x)) (out_ y)) (store_ y) = Ok (Some l) (store_ y) /\
    from (map payload l) o r = Ok None r' /\ rep_ (store_ (exec_ r')) m.
Proof.
  intros R Rr Hl Hk Hw Hpast.
  destruct (pexpireat_run string_encoding_ clone char_value clock options list_implementation default_packed_zset_kind packed_kind
    execute_packed_zset_command execute_other Hro k when_ms x m R Hw) as (y & n & E & _ & Ry & b & Hout).
  assert (Hp : forall now, a_purge now k m = m) by (intros now; unfold a_purge, a_due, a_ttl; by rewrite Hl).
  assert (Hd : (a_expire k when_ms (clock n) kNone m).2 = delete k m).
  { unfold a_expire, a_has, a_ttl, allows. rewrite Hl, bool_decide_eq_true_2 by done. cbn. by replace (when_ms <=? clock n) with true by (specialize (Hpast n); lia). }
  rewrite Hp, Hd in Ry.
  destruct (mutation_run (str "TTL") k [str "PERSIST"; k] (store_ y) ltac:(vm_compute; done) ltac:(unfold kMaxBulkBytes in Hk; lia)) as (ck & Eck & Em).
  destruct (persist_run string_encoding_ clone char_value clock direct_options list_implementation default_packed_zset_kind packed_kind
    execute_packed_zset_command execute_other eq_refl k (set_out [] (exec_ r)) m Rr) as (w & Ew & Rw & b' & Hout').
  assert (Hwr : write (command_wire [str "PERSIST"; k]) (exec_ r) = Ok None (set_out (out_ (exec_ r)) w)).
  { eapply write_run; [by apply sendable_key|apply CommandRuns.parse_persist|discriminate|reflexivity|exact Ew|rewrite Hout'; apply integer_head]. }
  exists y, (parsed_as (str "PEXPIREAT") CT_pexpireat [k; to_chars_u64 when_ms]), [mkMutation ck (command_wire [str "PERSIST"; k])], (set_replication_offset o (mkReplica (set_out (out_ (exec_ r)) w) (repl_ r))).
  split; [done|]. split; [done|]. split; [apply CommandRuns.parse_pexpireat|]. split; [|split].
  - rewrite Hout, integer_reply. unfold build_replication_mutations. rewrite integer_no_error. cbn [c_packed_zset_kind c_type c_args parsed_as with_type].
    change (c_packed_zset_kind (prepared _ _)) with 0. change (c_args _) with [k; to_chars_u64 when_ms]. cbn [Z.eqb negb]. unfold append_current_ttl, mbind, M_bind. rewrite (expiretime_run k _ _ Ry). unfold a_expiretime, a_has. rewrite lookup_delete_eq.
    rewrite bool_decide_eq_false_2 by apply is_Some_None. rewrite Eck. cbn [Z.leb Z.compare]. by rewrite Em.
  - cbn [map apply_from payload]. unfold mbind, M_bind, modify, on_exec. by rewrite Hwr.
  - cbn. rewrite Hp, with_ttl_same in Rw; [done|]. unfold a_ttl. by rewrite Hl.
Qed.

Lemma parse_set_nx k v : parse_fields [str "SET"; k; v; str "NX"] = inr (parsed_as (str "SET") CT_set [k; v; str "NX"]).
Proof. vm_compute. reflexivity. Qed.

(** SET with NX on a key that is there: nothing but the reply. *)
Lemma set_nx_run k v x m e :
  rep_ (store_ x) m -> m !! k = Some (e, None) -> storable string_encoding_ v = true ->
  exists y, handle [str "SET"; k; v; str "NX"] x = Ok tt y /\ out_ y = append_null (out_ x) (version options) /\ rep_ (store_ y) m.
Proof.
  intros R Hl Hst. rewrite (handle_parsed _ _ _ _ _ _ _ _ _ _ _ _ _ (parse_set_nx k v)).
  edestruct (enter string_encoding_ clone char_value clock options list_implementation default_packed_zset_kind packed_kind
    execute_packed_zset_command execute_other (parsed_as (str "SET") CT_set [k; v; str "NX"])) as (y & Ho & _ & Ry & Hok & _);
    [reflexivity|reflexivity|reflexivity|reflexivity|exact Hro|eassumption|done|].
  assert (Hp : forall now, a_purge now k m = m) by (intros now; unfold a_purge, a_due, a_ttl; by rewrite Hl). rewrite Hp in Ry.
  set (y1 := mkExec (store_ y) (S (ticks_ y)) (rng_ y) (out_ y) (sent_ y)).
  destruct (store_run string_encoding_ (exists_ k) _ _ _ y1 (does_exists _ _ _) Ry) as (s1 & E1 & R1).
  destruct (store_run string_encoding_ (on_ks (type_of k)) _ _ _ (set_store s1 y1) (does_type_of _ _ _) R1) as (s2 & E2 & R2).
  destruct (Hok (set_out (append_null (out_ y) (version options)) (set_store s2 (set_store s1 y1)))) as (w & Ew & Hs & Hout & _).
  { cbn [c_type parsed_as with_type]. cbv beta iota zeta delta [execute_switch arg]. change (c_args _) with [k; v; str "NX"]. unfold mbind at 1 2, M_bind at 1 2, need.
    cbn [lookup list_lookup drop]. unfold set_command, with_value. rewrite value_fits_storable, Hst. cbn [negb]. unfold mbind at 1, M_bind at 1, now_ms. fold y1.
    replace (set_options _ _ _) with (inr (A := bytes) (mkSetOptions true false false false None)) by reflexivity. cbn [nx xx keepttl expire_when want_get andb orb].
    unfold mbind, M_bind. rewrite E1, E2. unfold a_has. rewrite Hl, bool_decide_eq_true_2 by done. done. }
  exists w. rewrite Hs, Hout. cbn. by rewrite Ho.
Qed.

(** SET with NX that is refused deletes the key at the replica when it holds no string.  The reply is
    null, the key stays at the source; the record made of its current string is DEL. *)
Theorem refused_set_nx_deletes (k v : bytes) (x : Ex) (r : Rp) (m : AMap) (ty : KeyType) (p : Payload) (o : Z) :
  rep_ (store_ x) m -> rep_ (store_ (exec_ r)) m -> m !! k = Some (AOther ty p, None) -> storable string_encoding_ v = true -> Z.of_nat (length k) <= kMaxBulkBytes ->
  exists y c l r' mr, handle [str "SET"; k; v; str "NX"] x = Ok tt y /\ rep_ (store_ y) m /\
    parse_fields [str "SET"; k; v; str "NX"] = inr c /\ build c (drop (length (out_ x)) (out_ y)) (store_ y) = Ok (Some l) (store_ y) /\
    from (map payload l) o r = Ok None r' /\ rep_ (store_ (exec_ r')) mr /\ mr !! k = None.
Proof.
  intros R Rr Hl Hst Hk. destruct (set_nx_run k v x m _ R Hl Hst) as (y & E & Hout & Ry). set (c := parsed_as (str "SET") CT_set [k; v; str "NX"]).
  assert (He : response_is_error (drop (length (out_ x)) (out_ y)) = false).
  { rewrite Hout. unfold append_null, append_null_bulk_string. destruct (version options); by rewrite drop_app_length. }
  destruct (build_by_value c k [v; str "NX"] (drop (length (out_ x)) (out_ y)) (store_ y) m eq_refl eq_refl eq_refl He ltac:(done) Ry
    ltac:(unfold kMaxBulkBytes in Hk; lia)) as (l & El & Hpl).
  assert (Hc : current_commands k m = current_commands k (∅ : AMap)) by (unfold current_commands; by rewrite Hl, lookup_empty).
  destruct (current_commands_run k (∅ : AMap) m o r Rr Hk) as (r' & mr & Ef & Rm & _ & Hkey); [intros t e; by rewrite lookup_empty|intros e; unfold a_ttl; by rewrite lookup_empty|].
  exists y, c, l, r', mr. split_and!; [done|done|apply parse_set_nx|done|by rewrite Hpl, Hc|done|].
  destruct Hkey as [Hn|[Hn _]]; [intros ty' p' e'; by rewrite lookup_empty|by rewrite Hn, lookup_empty|done].
Qed.

End converges.

(** ** Concrete runs *)

Section examples.
#[local] Existing Instance copy_lz4.
#[local] Existing Instance copy_lz4_correct.

(** The readers of the other types are not reached by string commands. *)
Definition no_text (key member : bytes) : M (@Store unit) (option bytes) := mret None.
Definition no_kind (key : bytes) : M (@Store unit) (option bytes) := mret None.
Definition no_member (key member : bytes) : M (@Store unit) bool := mret false.

Abbreviation serve := (handle_command_into 0 (fun _ p => p) u8 example_clock example_options Pma None (fun _ => 0) no_packed no_other).

Definition example_log : list bytes :=
  [command_wire [str "SET"; str "a"; str "1"]; command_wire [str "SET"; str "b"; str "2"]; command_wire [str "DEL"; str "a"]].
Definition example_batch (i n : nat) : ReplicationBatch := mkBatch example_id (5 + 1 + Z.of_nat i) (map (mkMutation []) (take n (drop i example_log))).
Definition loaded : @Replica unit := mkReplica start (mkState example_id 5 (-1) true).

Abbreviation replay := (apply_from 0 (fun _ p => p) u8 example_clock Pma None (fun _ => 0) no_packed no_other).

Lemma example_segment i n : (1 <= n)%nat -> (i + n <= 3)%nat -> segment 5 example_id example_log i n (example_batch i n).
Proof.
  intros Hn Hl. unfold segment. split_and!; [done|done|done|done|]. unfold example_batch. cbn [mutations]. rewrite map_map. cbn [payload]. apply map_id.
Qed.

(** The last two, refused because of the gap; the first two; the last two again, of which one is left. *)
Lemma exactly_once_witness : exists r, replay example_log 6 loaded = Ok None r /\ s_offset (repl_ r) = 8.
Proof.
  eexists. edestruct (exactly_once 0 (fun _ p => p) u8 example_clock Pma None (fun _ => 0) no_packed no_other 5 example_id example_log loaded)
    with (segments := [(1, 2); (0, 2); (1, 2)]%nat) (bs := [example_batch 1 2; example_batch 0 2; example_batch 1 2]) as (H1 & _ & H3 & _).
  - discriminate.
  - vm_compute. discriminate.
  - repeat split.
  - repeat constructor; apply example_segment; cbn; lia.
  - eapply delivered_refused; [vm_compute; reflexivity|vm_compute; reflexivity|]. eapply delivered_applied; [vm_compute; reflexivity|].
    eapply delivered_applied; [vm_compute; reflexivity|]. apply delivered_nil.
  - split; [exact H1|exact H3].
Defined.

Lemma receive_outcomes_witness :
  exists e, apply_firehose_batch 0 (fun _ p => p) u8 example_clock Pma None (fun _ => 0) no_packed no_other (example_batch 1 2) loaded = Ok (Some e) loaded.
Proof.
  refine (proj1 (receive_outcomes 0 (fun _ p => p) u8 example_clock Pma None (fun _ => 0) no_packed no_other 5 example_id example_log loaded
    ltac:(lia) ltac:(vm_compute; discriminate) ltac:(done) 0 loaded 1 2 (example_batch 1 2) _ _) _); [by split; [lia|]|apply example_segment; lia|lia].
Defined.

Lemma string_commands_converge_witness :
  exists y l r' mr, serve [str "APPEND"; str "k"; str "xy"] start = Ok tt y /\
    build_replication_mutations 0 no_text no_text no_kind no_member (parsed_as (str "APPEND") CT_append [str "k"; str "xy"]) (out_ y) (store_ y) = Ok (Some l) (store_ y) /\
    replay (map payload l) 6 loaded = Ok None r' /\ rep 0 (store_ (exec_ r')) mr /\ s_offset (repl_ r') = 6 + Z.of_nat (length l) - 1.
Proof.
  assert (exists y m', serve [str "APPEND"; str "k"; str "xy"] start = Ok tt y /\ rep 0 (store_ y) m' /\ m' = {[str "k" := (AStr (str "xy"), None)]}) as (y & m' & E & Ry & Hm).
  { pose proof (handle_frame 0 (fun _ p => p) u8 example_clock example_options Pma None (fun _ => 0) no_packed no_other [str "APPEND"; str "k"; str "xy"]
      (parsed_as (str "APPEND") CT_append [str "k"; str "xy"]) start ∅ ltac:(vm_compute; reflexivity) ltac:(reflexivity) ltac:(discriminate) (rep_new 0)) as Hf.
    eexists. exists {[str "k" := (AStr (str "xy"), None)]}. split; [vm_compute; reflexivity|]. split; [|done].
    match type of Hf with match ?h with _ => _ end => let v := eval vm_compute in h in change h with v in Hf end. cbv beta iota in Hf.
    destruct Hf as (m1 & keys & R1 & _). replace {[str "k" := (AStr (str "xy"), None)]} with m1; [exact R1|]. rewrite <- (r_map _ _ _ R1). vm_compute. reflexivity. }
  exists y. destruct (string_commands_converge 0 (fun _ p => p) u8 example_clock Pma None (fun _ => 0) no_packed no_other no_text no_text no_kind no_member example_options
    [str "APPEND"; str "k"; str "xy"] (parsed_as (str "APPEND") CT_append [str "k"; str "xy"]) (str "k") [str "xy"] start y loaded ∅ m' 6) as (l & r' & mr & H1 & H2 & H3 & H4 & _).
  - vm_compute. reflexivity.
  - reflexivity.
  - reflexivity.
  - vm_compute. discriminate.
  - apply rep_new.
  - apply rep_new.
  - exact E.
  - exact Ry.
  - vm_compute in E. injection E as <-. reflexivity.
  - discriminate.
  - subst m'. intros t e. rewrite lookup_singleton_eq. intros [= <- <-]. repeat split; vm_compute; try discriminate; reflexivity.
  - subst m'. intros ty p e. rewrite lookup_singleton_eq. discriminate.
  - lia.
  - vm_compute. discriminate.
  - exists l, r', mr. split; [exact E|]. split; [exact H1|]. split; [exact H2|]. split; [exact H4|exact H3].
Defined.

Lemma past_expiry_diverges_witness :
  exists x m, rep 0 (store_ x) m /\ is_Some (m !! str "k") /\
    exists y c l r', serve [str "PEXPIREAT"; str "k"; str "0"] x = Ok tt y /\ rep 0 (store_ y) (delete (str "k") m) /\
      parse_fields [str "PEXPIREAT"; str "k"; str "0"] = inr c /\
      build_replication_mutations 0 no_text no_text no_kind no_member c (drop (length (out_ x)) (out_ y)) (store_ y) = Ok (Some l) (store_ y) /\
      replay (map payload l) 6 (mkReplica x (mkState example_id 5 (-1) true)) = Ok None r' /\ rep 0 (store_ (exec_ r')) m.
Proof.
  destruct (set_run 0 (fun _ p => p) u8 example_clock example_options Pma None (fun _ => 0) no_packed no_other eq_refl (str "k") (str "v") start ∅ (rep_new 0)) as (x & _ & _ & R).
  { repeat split; vm_compute; try discriminate; reflexivity. }
  exists x, (<[str "k" := (AStr (str "v"), None)]> ∅). split; [exact R|]. split; [by rewrite lookup_insert_eq|].
  apply (past_expiry_diverges 0 (fun _ p => p) u8 example_clock Pma None (fun _ => 0) no_packed no_other no_text no_text no_kind no_member example_options eq_refl
    (str "k") 0 x (mkReplica x (mkState example_id 5 (-1) true)) _ (AStr (str "v")) 6 R R (lookup_insert_eq _ _ _)); [vm_compute; discriminate|lia|unfold example_clock; lia].
Defined.

Lemma refused_set_nx_deletes_witness :
  exists x m, rep 0 (store_ x) m /\ m !! str "k" = Some (AOther KT_List tt, None) /\
    exists y c l r' mr, serve [str "SET"; str "k"; str "v"; str "NX"] x = Ok tt y /\ rep 0 (store_ y) m /\
      parse_fields [str "SET"; str "k"; str "v"; str "NX"] = inr c /\
      build_replication_mutations 0 no_text no_text no_kind no_member c (drop (length (out_ x)) (out_ y)) (store_ y) = Ok (Some l) (store_ y) /\
      replay (map payload l) 6 (mkReplica x (mkState example_id 5 (-1) true)) = Ok None r' /\ rep 0 (store_ (exec_ r')) mr /\ mr !! str "k" = None.
Proof.
  destruct (does_place 0 (str "k") KT_List tt ∅) with (s := @new_store unit) as (s & _ & R & _); [reflexivity|split; vm_compute; discriminate|discriminate|apply rep_new|].
  exists (mkExec s 0 1 [] []), (<[str "k" := (AOther KT_List tt, None)]> ∅). split; [exact R|]. split; [by rewrite lookup_insert_eq|].
  apply (refused_set_nx_deletes 0 (fun _ p => p) u8 example_clock Pma None (fun _ => 0) no_packed no_other no_text no_text no_kind no_member example_options eq_refl
    (str "k") (str "v") (mkExec s 0 1 [] []) (mkReplica (mkExec s 0 1 [] []) (mkState example_id 5 (-1) true)) _ KT_List tt 6 R R (lookup_insert_eq _ _ _)); [vm_compute; reflexivity|vm_compute; discriminate].
Defined.
End examples.
