(* ===== verification/PubSubRegistry.v ===== *)
(** * Publish and subscribe

    Models [PubSubRegistry] of [src/pubsub.hpp] and [src/pubsub.cpp], in the build
    with the binary (SBE) protocol and without a direct writer.  Sessions live in a
    store and are named by their address, as the registry keeps pointers; their
    queues of unsolicited output are those of [OutputQueue], their patterns are
    matched by [Glob.PubSub].  The tables of names are maps ([SwissTable] refines
    them).  Parameters stand for code outside the sources: the generated SBE encoders
    and the order in which the dense set of subscribers is traversed. *)

From S2P Require Import Prelude ParseInt RespWriter Glob CommandType.
From S2P Require OutputQueue.
From stdpp Require Import gmap.
From Stdlib Require Import ZArith Lia.

Local Open Scope Z_scope.

Abbreviation UnsolicitedOutputQueue := OutputQueue.UnsolicitedOutputQueue.
Abbreviation PatternKind := PubSub.PatternKind.

Inductive WireMode := undecided | resp2_mode | resp3_mode | sbe_mode.
Inductive AckKind := ack_subscribe | ack_psubscribe | ack_unsubscribe | ack_punsubscribe.

#[global] Instance WireMode_eq_dec : EqDecision WireMode.
Proof. solve_decision. Defined.

(** The value of an [AckKind]. *)
Definition ack_value (kind : AckKind) : Z :=
  match kind with ack_subscribe => 2 | ack_psubscribe => 3 | ack_unsubscribe => 4 | ack_punsubscribe => 5 end.

(** [BluefieldAggregateState]: the weights of the names an edge is subscribed to. *)
Record BluefieldAggregateState := { agg_channels : gmap bytes Z; agg_patterns : gmap bytes Z }.

Record PubSubSession := mkSession {
  wire_mode : WireMode;
  unsolicited : UnsolicitedOutputQueue;
  literal_subscriptions : nat;
  pattern_subscriptions : nat;
  next_output_sequence : Z;
  unsolicited_front_offset : nat;
  has_unsolicited_front : bool;
  unsolicited_front : Z * bytes;
  channel_names : list bytes;
  pattern_names : list bytes;
  bluefield_edge_id : Z;
  bluefield_aggregate : bool;
  bluefield_aggregate_state : option BluefieldAggregateState;
  close_requested : bool;
}.

Definition subscription_count (s : PubSubSession) : nat := literal_subscriptions s + pattern_subscriptions s.

(** A session with its queue and sequence number, its closing flag, or one half of
    its subscriptions replaced. *)
Definition with_output (q : UnsolicitedOutputQueue) (seq : Z) (s : PubSubSession) : PubSubSession :=
  mkSession (wire_mode s) q (literal_subscriptions s) (pattern_subscriptions s) seq
    (unsolicited_front_offset s) (has_unsolicited_front s) (unsolicited_front s) (channel_names s) (pattern_names s)
    (bluefield_edge_id s) (bluefield_aggregate s) (bluefield_aggregate_state s) (close_requested s).
Definition with_close (s : PubSubSession) : PubSubSession :=
  mkSession (wire_mode s) (unsolicited s) (literal_subscriptions s) (pattern_subscriptions s) (next_output_sequence s)
    (unsolicited_front_offset s) (has_unsolicited_front s) (unsolicited_front s) (channel_names s) (pattern_names s)
    (bluefield_edge_id s) (bluefield_aggregate s) (bluefield_aggregate_state s) true.
Definition with_names (patterns : bool) (count : nat) (names : list bytes) (s : PubSubSession) : PubSubSession :=
  mkSession (wire_mode s) (unsolicited s)
    (if patterns then literal_subscriptions s else count) (if patterns then count else pattern_subscriptions s)
    (next_output_sequence s) (unsolicited_front_offset s) (has_unsolicited_front s) (unsolicited_front s)
    (if patterns then channel_names s else names) (if patterns then names else pattern_names s)
    (bluefield_edge_id s) (bluefield_aggregate s) (bluefield_aggregate_state s) (close_requested s).
Definition with_aggregate (a : option BluefieldAggregateState) (s : PubSubSession) : PubSubSession :=
  mkSession (wire_mode s) (unsolicited s) (literal_subscriptions s) (pattern_subscriptions s) (next_output_sequence s)
    (unsolicited_front_offset s) (has_unsolicited_front s) (unsolicited_front s) (channel_names s) (pattern_names s)
    (bluefield_edge_id s) (bluefield_aggregate s) a (close_requested s).

(** [session.unsolicited.clear()] and [clear_unsolicited_front_cache]. *)
Definition clear_output (s : PubSubSession) : PubSubSession :=
  mkSession (wire_mode s) (OutputQueue.clear (unsolicited s)) (literal_subscriptions s) (pattern_subscriptions s)
    (next_output_sequence s) 0 false (0, []) (channel_names s) (pattern_names s)
    (bluefield_edge_id s) (bluefield_aggregate s) (bluefield_aggregate_state s) (close_requested s).

(** The count and the reverse index of one kind of subscription. *)
Definition count_of (patterns : bool) (s : PubSubSession) : nat :=
  if patterns then pattern_subscriptions s else literal_subscriptions s.
Definition names_of (patterns : bool) (s : PubSubSession) : list bytes :=
  if patterns then pattern_names s else channel_names s.
Definition weights_of (patterns : bool) (a : BluefieldAggregateState) : gmap bytes Z :=
  if patterns then agg_patterns a else agg_channels a.
Definition with_weights (patterns : bool) (w : gmap bytes Z) (a : BluefieldAggregateState) : BluefieldAggregateState :=
  if patterns then {| agg_channels := agg_channels a; agg_patterns := w |}
  else {| agg_channels := w; agg_patterns := agg_patterns a |}.

(** An update of the weights, on sessions that keep them. *)
Definition update_weights (patterns : bool) (f : gmap bytes Z -> gmap bytes Z) (s : PubSubSession) : PubSubSession :=
  match bluefield_aggregate s, bluefield_aggregate_state s with
  | true, Some a => with_aggregate (Some (with_weights patterns (f (weights_of patterns a)) a)) s
  | _, _ => s
  end.

(** The registry, with the store of sessions and the calls made to the observer. *)
Record PubSubRegistry := mkRegistry {
  channels_ : gmap bytes (gset nat);
  patterns_ : gmap bytes (gset nat);
  pattern_publish_ : list (bytes * PatternKind);
  overflowed_ : list nat;
  resp2_scratch_ : bytes;
  resp3_scratch_ : bytes;
  sbe_scratch_ : bytes;
  aggregate_delivered_ : gset nat;
  sessions : gmap nat PubSubSession;
  notified : list (bytes * bool * nat);
}.

Definition table_of (patterns : bool) (r : PubSubRegistry) : gmap bytes (gset nat) :=
  if patterns then patterns_ r else channels_ r.
Definition with_table (patterns : bool) (t : gmap bytes (gset nat)) (r : PubSubRegistry) : PubSubRegistry :=
  mkRegistry (if patterns then channels_ r else t) (if patterns then t else patterns_ r) (pattern_publish_ r) (overflowed_ r)
    (resp2_scratch_ r) (resp3_scratch_ r) (sbe_scratch_ r) (aggregate_delivered_ r) (sessions r) (notified r).
Definition with_publish (l : list (bytes * PatternKind)) (r : PubSubRegistry) : PubSubRegistry :=
  mkRegistry (channels_ r) (patterns_ r) l (overflowed_ r)
    (resp2_scratch_ r) (resp3_scratch_ r) (sbe_scratch_ r) (aggregate_delivered_ r) (sessions r) (notified r).
Definition with_overflowed (l : list nat) (r : PubSubRegistry) : PubSubRegistry :=
  mkRegistry (channels_ r) (patterns_ r) (pattern_publish_ r) l
    (resp2_scratch_ r) (resp3_scratch_ r) (sbe_scratch_ r) (aggregate_delivered_ r) (sessions r) (notified r).
Definition with_scratch (f : bytes * bytes * bytes) (r : PubSubRegistry) : PubSubRegistry :=
  mkRegistry (channels_ r) (patterns_ r) (pattern_publish_ r) (overflowed_ r)
    f.1.1 f.1.2 f.2 (aggregate_delivered_ r) (sessions r) (notified r).
Definition with_delivered (d : gset nat) (r : PubSubRegistry) : PubSubRegistry :=
  mkRegistry (channels_ r) (patterns_ r) (pattern_publish_ r) (overflowed_ r)
    (resp2_scratch_ r) (resp3_scratch_ r) (sbe_scratch_ r) d (sessions r) (notified r).
Definition with_session (i : nat) (s : PubSubSession) (r : PubSubRegistry) : PubSubRegistry :=
  mkRegistry (channels_ r) (patterns_ r) (pattern_publish_ r) (overflowed_ r)
    (resp2_scratch_ r) (resp3_scratch_ r) (sbe_scratch_ r) (aggregate_delivered_ r) (<[i := s]> (sessions r)) (notified r).

Definition kResp2MessagePrefix : bytes := str "*3" ++ crlf ++ str "$7" ++ crlf ++ str "message" ++ crlf.
Definition kResp3MessagePrefix : bytes := str ">3" ++ crlf ++ str "$7" ++ crlf ++ str "message" ++ crlf.
Definition kResp2PmessagePrefix : bytes := str "*4" ++ crlf ++ str "$8" ++ crlf ++ str "pmessage" ++ crlf.
Definition kResp3PmessagePrefix : bytes := str ">4" ++ crlf ++ str "$8" ++ crlf ++ str "pmessage" ++ crlf.

Definition kModeResp2 : Z := 1.
Definition kModeResp3 : Z := 2.
Definition kModeSbe : Z := 4.
Definition has_mode (modes mode : Z) : bool := negb (Z.land modes mode =? 0).

(** [equals_ci] of this file. *)
Definition lower (c : byte) : byte := if (65 <=? u8 c) && (u8 c <=? 90) then b8 (u8 c + 32) else c.
Definition equals_ci (lhs rhs : bytes) : bool :=
  if negb (Nat.eqb (length lhs) (length rhs)) then false
  else forallb (fun p => bool_decide (lower p.1 = lower p.2)) (zip lhs rhs).

Definition append_literal_body (out prefix channel payload : bytes) : option bytes :=
  out ← append_bulk_string (out ++ prefix) channel;
  append_bulk_string out payload.
Definition append_pattern_body (out prefix pattern channel payload : bytes) : option bytes :=
  out ← append_bulk_string (out ++ prefix) pattern;
  out ← append_bulk_string out channel;
  append_bulk_string out payload.

(** Replacing an entry by the last one and dropping the last. *)
Fixpoint find_index {A} (p : A -> bool) (l : list A) : option nat :=
  match l with [] => None | x :: l => if p x then Some 0%nat else S <$> find_index p l end.
Definition swap_erase {A} (p : A -> bool) (l : list A) : list A :=
  match find_index p l, last l with
  | Some i, Some b => removelast (<[i := b]> l)
  | _, _ => l
  end.

Definition erase_name (names : list bytes) (name : bytes) : list bytes :=
  swap_erase (fun n => bool_decide (n = name)) names.

Definition erase_pattern_publish_entry (pattern : bytes) (r : PubSubRegistry) : PubSubRegistry :=
  with_publish (swap_erase (fun e => bool_decide (e.1 = pattern)) (pattern_publish_ r)) r.

(** [add_delivery_count]: saturating. *)
Definition add_delivery_count (deliveries count : Z) : Z := deliveries + Z.min count (i64_max - deliveries).

Definition skipped (excluded : Z) (s : PubSubSession) : bool :=
  bluefield_aggregate s || (negb (excluded =? 0) && (bluefield_edge_id s =? excluded)).

Definition mode_bit (m : WireMode) : Z :=
  match m with resp3_mode => kModeResp3 | sbe_mode => kModeSbe | _ => kModeResp2 end.

Fixpoint collect_modes (store : gmap nat PubSubSession) (excluded : Z) (subscribers : list nat) (modes : Z) : option Z :=
  match subscribers with
  | [] => Some modes
  | i :: subscribers =>
      s ← store !! i;
      if skipped excluded s then collect_modes store excluded subscribers modes
      else
        let modes := Z.lor modes (mode_bit (wire_mode s)) in
        if modes =? Z.lor (Z.lor kModeResp2 kModeResp3) kModeSbe then Some modes
        else collect_modes store excluded subscribers modes
  end.

(** [bluefield_subscription_weight] and [subscriber_count]. *)
Definition bluefield_subscription_weight (s : PubSubSession) (name : bytes) (pattern : bool) : Z :=
  match bluefield_aggregate s, bluefield_aggregate_state s with
  | true, Some a => default 0 (weights_of pattern a !! name)
  | _, _ => 1
  end.
Fixpoint subscriber_weights (store : gmap nat PubSubSession) (subscribers : list nat) (name : bytes) (pattern : bool) (count : Z) : option Z :=
  match subscribers with
  | [] => Some count
  | i :: subscribers =>
      s ← store !! i;
      subscriber_weights store subscribers name pattern (u64 (count + bluefield_subscription_weight s name pattern))
  end.
Definition subscriber_count (store : gmap nat PubSubSession) (subscribers : list nat) (name : bytes) (pattern : bool) : option Z :=
  count ← subscriber_weights store subscribers name pattern 0;
  Some (Z.min count (2 ^ 32 - 1)).

Section registry.
(** The generated encoders: a push (kind, count, pattern, channel, payload), an
    integer, an error, an array of strings and the pairs of PUBSUB NUMSUB, each with
    its length prefix. *)
Context (sbe_push : Z -> Z -> bytes -> bytes -> bytes -> bytes) (sbe_integer : Z -> bytes) (sbe_error : bytes -> bytes)
  (sbe_string_array : list bytes -> bytes) (sbe_numsub : list (bytes * Z) -> bytes).
(** The order of a traversal of a set of subscribers and of a table of names. *)
Context (iterate : gset nat -> list nat) (table_names : gmap bytes (gset nat) -> list bytes).
(** Whether an observer of subscriptions is installed. *)
Context (observed : bool).

Definition append_command_error (out : bytes) (mode : WireMode) (message : bytes) : bytes :=
  if decide (mode = sbe_mode) then out ++ sbe_error message
  else out ++ str "-" ++ str "ERR " ++ message ++ crlf.

(** The frames of the modes in [modes]; the other buffers keep what they held. *)
Definition encode_literal_frames (modes : Z) (channel payload : bytes) (f : bytes * bytes * bytes) : option (bytes * bytes * bytes) :=
  let '(resp2_frame, resp3_frame, sbe) := f in
  let need_resp2 := has_mode modes kModeResp2 in
  let need_resp3 := has_mode modes kModeResp3 in
  '(resp2_frame, resp3_frame) ←
    (if need_resp2 && need_resp3 then
       resp2_frame ← append_literal_body [] kResp2MessagePrefix channel payload;
       Some (resp2_frame, <[0%nat := ">"%byte]> resp2_frame)
     else if need_resp2 then
       resp2_frame ← append_literal_body [] kResp2MessagePrefix channel payload; Some (resp2_frame, resp3_frame)
     else if need_resp3 then
       resp3_frame ← append_literal_body [] kResp3MessagePrefix channel payload; Some (resp2_frame, resp3_frame)
     else Some (resp2_frame, resp3_frame));
  Some (resp2_frame, resp3_frame, if has_mode modes kModeSbe then sbe_push 0 0 [] channel payload else sbe).

Definition encode_pattern_frames (modes : Z) (pattern channel payload : bytes) (f : bytes * bytes * bytes) : option (bytes * bytes * bytes) :=
  let '(resp2_frame, resp3_frame, sbe) := f in
  let need_resp2 := has_mode modes kModeResp2 in
  let need_resp3 := has_mode modes kModeResp3 in
  '(resp2_frame, resp3_frame) ←
    (if need_resp2 && need_resp3 then
       resp2_frame ← append_pattern_body [] kResp2PmessagePrefix pattern channel payload;
       Some (resp2_frame, <[0%nat := ">"%byte]> resp2_frame)
     else if need_resp2 then
       resp2_frame ← append_pattern_body [] kResp2PmessagePrefix pattern channel payload; Some (resp2_frame, resp3_frame)
     else if need_resp3 then
       resp3_frame ← append_pattern_body [] kResp3PmessagePrefix pattern channel payload; Some (resp2_frame, resp3_frame)
     else Some (resp2_frame, resp3_frame));
  Some (resp2_frame, resp3_frame, if has_mode modes kModeSbe then sbe_push 1 0 pattern channel payload else sbe).

(** [enqueue]: the part on the session (whether the push was accepted, and the
    session), then the note of the first overflow. *)
Definition offer (bytes : bytes) (s : PubSubSession) : option (bool * PubSubSession) :=
  let sequence := next_output_sequence s in
  '(ok, q) ← OutputQueue.push sequence bytes (unsolicited s);
  if (ok : bool) then Some (true, with_output q (u64 (sequence + 1)) s)
  else if close_requested s then Some (false, with_output q sequence s)
  else Some (false, with_close (with_output q sequence s)).
Definition enqueue (i : nat) (bytes : bytes) (r : PubSubRegistry) : option (bool * PubSubRegistry) :=
  s ← sessions r !! i;
  '(ok, s') ← offer bytes s;
  let r := with_session i s' r in
  Some (ok : bool, if negb ok && negb (close_requested s) then with_overflowed (overflowed_ r ++ [i]) r else r).

(** [by_mode] and the fallback of [deliver_to_set]. *)
Definition frame_by_mode (modes : Z) (r : PubSubRegistry) (m : WireMode) : option bytes :=
  match m with
  | resp3_mode => if has_mode modes kModeResp3 then Some (resp3_scratch_ r) else None
  | sbe_mode => if has_mode modes kModeSbe then Some (sbe_scratch_ r) else None
  | _ => if has_mode modes kModeResp2 then Some (resp2_scratch_ r) else None
  end.
Definition fallback_frame (modes : Z) (r : PubSubRegistry) : option bytes :=
  let fallback := if has_mode modes kModeResp2 then resp2_scratch_ r
                  else if has_mode modes kModeResp3 then resp3_scratch_ r else [] in
  if Nat.eqb (length fallback) 0 then None else Some fallback.

Fixpoint deliver_to_set (subscribers : list nat) (modes excluded : Z) (r : PubSubRegistry) (deliveries : Z) : option (Z * PubSubRegistry) :=
  match subscribers with
  | [] => Some (deliveries, r)
  | i :: subscribers =>
      s ← sessions r !! i;
      if skipped excluded s then deliver_to_set subscribers modes excluded r deliveries
      else
        let bytes := match frame_by_mode modes r (wire_mode s) with
                     | Some bytes => Some bytes
                     | None => fallback_frame modes r
                     end in
        match bytes with
        | None => deliver_to_set subscribers modes excluded r deliveries
        | Some bytes =>
            '(ok, r) ← enqueue i bytes r;
            deliver_to_set subscribers modes excluded r (if (ok : bool) then deliveries + 1 else deliveries)
        end
  end.

(** The lambda [deliver_aggregates] of [publish]; [encoded] is [aggregate_frame_encoded]. *)
Fixpoint deliver_aggregates (subscribers : list nat) (subscription : bytes) (pattern : bool) (channel payload : bytes) (excluded : Z)
    (encoded : bool) (r : PubSubRegistry) (deliveries : Z) : option (bool * Z * PubSubRegistry) :=
  match subscribers with
  | [] => Some (encoded, deliveries, r)
  | i :: subscribers =>
      s ← sessions r !! i;
      if negb (bluefield_aggregate s) || close_requested s || (negb (excluded =? 0) && (bluefield_edge_id s =? excluded))
      then deliver_aggregates subscribers subscription pattern channel payload excluded encoded r deliveries
      else
        let weight := bluefield_subscription_weight s subscription pattern in
        if weight =? 0 then deliver_aggregates subscribers subscription pattern channel payload excluded encoded r deliveries
        else if decide (i ∈ aggregate_delivered_ r)
        then deliver_aggregates subscribers subscription pattern channel payload excluded encoded r (add_delivery_count deliveries weight)
        else
          let r := with_delivered ({[i]} ∪ aggregate_delivered_ r) r in
          r ← (if encoded then Some r
               else f ← encode_literal_frames kModeSbe channel payload (resp2_scratch_ r, resp3_scratch_ r, sbe_scratch_ r);
                    Some (with_scratch f r));
          '(ok, r) ← enqueue i (sbe_scratch_ r) r;
          deliver_aggregates subscribers subscription pattern channel payload excluded true r
            (if (ok : bool) then add_delivery_count deliveries weight else deliveries)
  end.

Definition notify_subscription_changed (name : bytes) (pattern : bool) (subscribers : nat) (r : PubSubRegistry) : PubSubRegistry :=
  if observed then
    mkRegistry (channels_ r) (patterns_ r) (pattern_publish_ r) (overflowed_ r) (resp2_scratch_ r) (resp3_scratch_ r)
      (sbe_scratch_ r) (aggregate_delivered_ r) (sessions r) (notified r ++ [(name, pattern, subscribers)])
  else r.

(** A name loses a subscriber: [subscribers->erase(&session)], whether it was there,
    and how many are left ([None]: the name is not in the table). *)
Definition erase_subscriber (patterns : bool) (i : nat) (name : bytes) (r : PubSubRegistry) : option (bool * nat) * PubSubRegistry :=
  match table_of patterns r !! name with
  | None => (None, r)
  | Some subscribers =>
      let left := subscribers ∖ {[i]} in
      (Some (bool_decide (i ∈ subscribers), size left), with_table patterns (<[name := left]> (table_of patterns r)) r)
  end.

(** The name and its publish entry go when nobody is left. *)
Definition erase_unused (patterns : bool) (name : bytes) (r : PubSubRegistry) : PubSubRegistry :=
  let r := with_table patterns (delete name (table_of patterns r)) r in
  if patterns then erase_pattern_publish_entry name r else r.

(** A round of the loops of [remove]. *)
Definition remove_name (patterns : bool) (i : nat) (r : PubSubRegistry) (name : bytes) : PubSubRegistry :=
  match erase_subscriber patterns i name r with
  | (None, r) => r
  | (Some (removed, remaining), r) =>
      let r := if (removed : bool) then notify_subscription_changed name patterns remaining r else r in
      if Nat.eqb remaining 0 then erase_unused patterns name r else r
  end.

Definition remove (i : nat) (r : PubSubRegistry) : option PubSubRegistry :=
  s ← sessions r !! i;
  if Nat.eqb (subscription_count s) 0 && Nat.eqb (length (channel_names s)) 0 && Nat.eqb (length (pattern_names s)) 0
  then Some (with_session i (clear_output s) r)
  else
    let r := foldl (remove_name false i) r (channel_names s) in
    let s := with_names false 0 [] s in
    let r := foldl (remove_name true i) r (pattern_names s) in
    let s := with_names true 0 [] s in
    let s := match bluefield_aggregate_state s with
             | Some _ => with_aggregate (Some {| agg_channels := ∅; agg_patterns := ∅ |}) s
             | None => s
             end in
    Some (with_session i (clear_output s) r).

Fixpoint remove_all (l : list nat) (r : PubSubRegistry) : option PubSubRegistry :=
  match l with
  | [] => Some r
  | i :: l => r ← remove i r; remove_all l r
  end.
Definition cleanup_overflowed (r : PubSubRegistry) : option PubSubRegistry :=
  r ← remove_all (overflowed_ r) r;
  Some (with_overflowed [] r).

(** The deliveries of one name, shared by the two halves of [publish]. *)
Definition publish_to (subscribers : gset nat) (subscription : bytes) (pattern : bool) (channel payload : bytes) (excluded : Z)
    (encoded : bool) (r : PubSubRegistry) (deliveries : Z) : option (bool * Z * PubSubRegistry) :=
  modes ← collect_modes (sessions r) excluded (iterate subscribers) 0;
  '(deliveries, r) ←
    (if negb (modes =? 0) then
       let f := (resp2_scratch_ r, resp3_scratch_ r, sbe_scratch_ r) in
       f ← (if pattern then encode_pattern_frames modes subscription channel payload f
            else encode_literal_frames modes channel payload f);
       deliver_to_set (iterate subscribers) modes excluded (with_scratch f r) deliveries
     else Some (deliveries, r));
  deliver_aggregates (iterate subscribers) subscription pattern channel payload excluded encoded r deliveries.

Fixpoint publish_patterns (entries : list (bytes * PatternKind)) (channel payload : bytes) (excluded : Z)
    (encoded : bool) (r : PubSubRegistry) (deliveries : Z) : option (bool * Z * PubSubRegistry) :=
  match entries with
  | [] => Some (encoded, deliveries, r)
  | (pattern, kind) :: entries =>
      matched ← PubSub.match_classified kind pattern channel;
      if negb matched then publish_patterns entries channel payload excluded encoded r deliveries
      else
        match patterns_ r !! pattern with
        | None => publish_patterns entries channel payload excluded encoded r deliveries
        | Some subscribers =>
            if decide (subscribers = ∅) then publish_patterns entries channel payload excluded encoded r deliveries
            else
              '(encoded, deliveries, r) ← publish_to subscribers pattern true channel payload excluded encoded r deliveries;
              publish_patterns entries channel payload excluded encoded r deliveries
        end
  end.

Definition publish (channel payload : bytes) (excluded : Z) (r : PubSubRegistry) : option (Z * PubSubRegistry) :=
  let r := with_delivered ∅ r in
  '(encoded, deliveries, r) ←
    (match channels_ r !! channel with
     | Some subscribers =>
         if decide (subscribers = ∅) then Some (false, 0, r)
         else publish_to subscribers channel false channel payload excluded false r 0
     | None => Some (false, 0, r)
     end);
  '(_, deliveries, r) ← publish_patterns (pattern_publish_ r) channel payload excluded encoded r deliveries;
  r ← cleanup_overflowed r;
  Some (deliveries, with_delivered ∅ r).

Definition append_ack (out : bytes) (s : PubSubSession) (kind : AckKind) (name : option bytes) : option bytes :=
  if decide (wire_mode s = sbe_mode) then
    let pattern := match kind with ack_psubscribe | ack_punsubscribe => true | _ => false end in
    Some (out ++ sbe_push (ack_value kind) (u32 (Z.of_nat (subscription_count s)))
                   (if pattern then default [] name else []) (if pattern then [] else default [] name) [])
  else
    let kind_text := match kind with
                     | ack_subscribe => str "subscribe"
                     | ack_psubscribe => str "psubscribe"
                     | ack_unsubscribe => str "unsubscribe"
                     | ack_punsubscribe => str "punsubscribe"
                     end in
    let out := if decide (wire_mode s = resp3_mode) then append_push_header out 3 else append_array_header out 3 in
    out ← append_bulk_string out kind_text;
    out ← (match name with
           | Some name => append_bulk_string out name
           | None => Some (append_null out (if decide (wire_mode s = resp3_mode) then resp3 else resp2))
           end);
    Some (append_integer out (Z.of_nat (subscription_count s))).

Definition subscribe_kind (patterns : bool) : AckKind := if patterns then ack_psubscribe else ack_subscribe.
Definition unsubscribe_kind (patterns : bool) : AckKind := if patterns then ack_punsubscribe else ack_unsubscribe.

(** [table.try_emplace(name)], and the publish entry of a new pattern. *)
Definition try_emplace_name (patterns : bool) (name : bytes) (r : PubSubRegistry) : gset nat * PubSubRegistry :=
  match table_of patterns r !! name with
  | Some subscribers => (subscribers, r)
  | None =>
      let r := with_table patterns (<[name := ∅]> (table_of patterns r)) r in
      (∅, if patterns then with_publish (pattern_publish_ r ++ [(name, PubSub.classify_pattern name)]) r else r)
  end.

(** A round of the loop of [subscribe]. *)
Definition subscribe_name (patterns : bool) (i : nat) (name : bytes) (r : PubSubRegistry) : option PubSubRegistry :=
  s ← sessions r !! i;
  let '(subscribers, r) := try_emplace_name patterns name r in
  if decide (i ∈ subscribers) then Some r
  else
    let subscribers := {[i]} ∪ subscribers in
    let r := with_table patterns (<[name := subscribers]> (table_of patterns r)) r in
    let s := with_names patterns (S (count_of patterns s)) (names_of patterns s ++ [name]) s in
    let s := update_weights patterns (fun w => match w !! name with Some _ => w | None => <[name := 1]> w end) s in
    Some (notify_subscription_changed name patterns (size subscribers) (with_session i s r)).

Fixpoint subscribe (patterns : bool) (i : nat) (names : list bytes) (r : PubSubRegistry) (out : bytes) : option (PubSubRegistry * bytes) :=
  match names with
  | [] => Some (r, out)
  | name :: names =>
      r ← subscribe_name patterns i name r;
      s ← sessions r !! i;
      out ← append_ack out s (subscribe_kind patterns) (Some name);
      subscribe patterns i names r out
  end.

(** A round of the loops of [unsubscribe]; [listed] when the names were given, and the
    reverse index is updated name by name. *)
Definition unsubscribe_name (patterns listed : bool) (i : nat) (name : bytes) (r : PubSubRegistry) : option PubSubRegistry :=
  s ← sessions r !! i;
  match erase_subscriber patterns i name r with
  | (None, r) => Some r
  | (Some (removed, remaining), r) =>
      let r :=
        if (removed : bool) then
          let s := with_names patterns (count_of patterns s - 1)
                     (if listed then erase_name (names_of patterns s) name else names_of patterns s) s in
          let s := update_weights patterns (delete name) s in
          notify_subscription_changed name patterns remaining (with_session i s r)
        else r in
      Some (if Nat.eqb remaining 0 then erase_unused patterns name r else r)
  end.

Fixpoint unsubscribe_names (patterns listed : bool) (i : nat) (names : list bytes) (r : PubSubRegistry) (out : bytes) : option (PubSubRegistry * bytes) :=
  match names with
  | [] => Some (r, out)
  | name :: names =>
      r ← unsubscribe_name patterns listed i name r;
      s ← sessions r !! i;
      out ← append_ack out s (unsubscribe_kind patterns) (Some name);
      unsubscribe_names patterns listed i names r out
  end.

Definition unsubscribe (patterns : bool) (i : nat) (names : list bytes) (r : PubSubRegistry) (out : bytes) : option (PubSubRegistry * bytes) :=
  s ← sessions r !! i;
  match names with
  | [] =>
      if Nat.eqb (length (names_of patterns s)) 0 then
        out ← append_ack out s (unsubscribe_kind patterns) None; Some (r, out)
      else
        '(r, out) ← unsubscribe_names patterns false i (names_of patterns s) r out;
        s ← sessions r !! i;
        Some (with_session i (with_names patterns (count_of patterns s) [] s) r, out)
  | _ => unsubscribe_names patterns true i names r out
  end.

Definition set_bluefield_subscription_weight (i : nat) (name : bytes) (pattern : bool) (subscribers : Z) (r : PubSubRegistry) : option (bool * PubSubRegistry) :=
  s ← sessions r !! i;
  match bluefield_aggregate s, bluefield_aggregate_state s with
  | true, Some a =>
      if subscribers =? 0 then Some (false, r)
      else
        match table_of pattern r !! name with
        | None => Some (false, r)
        | Some subscribed =>
            if decide (i ∈ subscribed) then
              match weights_of pattern a !! name with
              | None => Some (false, r)
              | Some _ => Some (true, with_session i (update_weights pattern (<[name := subscribers]>) s) r)
              end
            else Some (false, r)
        end
  | _, _ => Some (false, r)
  end.

(** The three queries of PUBSUB. *)
Fixpoint matching_names (match_all : bool) (kind : PatternKind) (filter : bytes) (names : list bytes) : option (list bytes) :=
  match names with
  | [] => Some []
  | name :: names =>
      ok ← (if match_all then Some true else PubSub.match_classified kind filter name);
      rest ← matching_names match_all kind filter names;
      Some (if (ok : bool) then name :: rest else rest)
  end.
Fixpoint numsub_values (names : list bytes) (r : PubSubRegistry) : option (list (bytes * Z)) :=
  match names with
  | [] => Some []
  | name :: names =>
      n ← (match channels_ r !! name with
           | None => Some 0
           | Some subscribers => subscriber_count (sessions r) (iterate subscribers) name false
           end);
      rest ← numsub_values names r;
      Some ((name, n) :: rest)
  end.
Fixpoint append_numsub (out : bytes) (values : list (bytes * Z)) : option bytes :=
  match values with
  | [] => Some out
  | (name, n) :: values => out ← append_bulk_string out name; append_numsub (append_integer out n) values
  end.

Definition execute_pubsub (s : PubSubSession) (args : list bytes) (r : PubSubRegistry) (out : bytes) : option bytes :=
  subcommand ← args !! 0%nat;
  if Nat.eqb (length subcommand) 8 && equals_ci subcommand (str "channels") then
    if (2 <? length args)%nat then
      Some (append_command_error out (wire_mode s) (str "wrong number of arguments for 'pubsub|channels' command"))
    else
      let filter := if Nat.eqb (length args) 2 then default [] (args !! 1%nat) else str "*" in
      let match_all := bool_decide (filter = str "*") in
      let filter_kind := if match_all then PubSub.always else PubSub.classify_pattern filter in
      names ← matching_names match_all filter_kind filter (table_names (channels_ r));
      if decide (wire_mode s = sbe_mode) then
        if 65535 <? Z.of_nat (length names) then Some (out ++ sbe_error (str "PUBSUB CHANNELS result exceeds the SBE group limit"))
        else Some (out ++ sbe_string_array names)
      else append_bulk_strings (append_array_header out (Z.of_nat (length names))) names
  else if Nat.eqb (length subcommand) 6 && equals_ci subcommand (str "numpat") then
    if negb (Nat.eqb (length args) 1) then
      Some (append_command_error out (wire_mode s) (str "wrong number of arguments for 'pubsub|numpat' command"))
    else if decide (wire_mode s = sbe_mode) then Some (out ++ sbe_integer (Z.of_nat (size (patterns_ r))))
    else Some (append_integer out (Z.of_nat (size (patterns_ r))))
  else if Nat.eqb (length subcommand) 6 && equals_ci subcommand (str "numsub") then
    values ← numsub_values (drop 1 args) r;
    if decide (wire_mode s = sbe_mode) then
      if 65535 <? Z.of_nat (length values) then Some (out ++ sbe_error (str "PUBSUB NUMSUB request exceeds the SBE group limit"))
      else Some (out ++ sbe_numsub values)
    else append_numsub (append_array_header out (Z.of_nat ((length args - 1) * 2))) values
  else Some (append_command_error out (wire_mode s) (str "unknown PUBSUB subcommand")).

Definition execute (i : nat) (command : Command) (r : PubSubRegistry) (out : bytes) : option (PubSubRegistry * bytes) :=
  s ← sessions r !! i;
  let args := c_args command in
  match c_type command with
  | CT_subscribe =>
      if Nat.eqb (length args) 0
      then Some (r, append_command_error out (wire_mode s) (str "SUBSCRIBE requires at least one channel"))
      else subscribe false i args r out
  | CT_psubscribe =>
      if Nat.eqb (length args) 0
      then Some (r, append_command_error out (wire_mode s) (str "PSUBSCRIBE requires at least one pattern"))
      else subscribe true i args r out
  | CT_unsubscribe => unsubscribe false i args r out
  | CT_punsubscribe => unsubscribe true i args r out
  | CT_publish =>
      channel ← args !! 0%nat;
      payload ← args !! 1%nat;
      '(delivered, r) ← publish channel payload (bluefield_edge_id s) r;
      Some (r, if decide (wire_mode s = sbe_mode) then out ++ sbe_integer delivered else append_integer out delivered)
  | CT_pubsub => out ← execute_pubsub s args r out; Some (r, out)
  | _ => Some (r, out)
  end.
End registry.

(** ** The invariant *)

Definition subs (patterns : bool) (name : bytes) (r : PubSubRegistry) : gset nat :=
  default ∅ (table_of patterns r !! name).

(** The tables hold no empty set, and the publish list has one entry, with its
    kind, for every pattern of the table. *)
Record tables_ok (r : PubSubRegistry) : Prop := {
  t_nonempty : forall patterns name set, table_of patterns r !! name = Some set -> set <> ∅;
  t_publish_nodup : NoDup (map fst (pattern_publish_ r));
  t_publish_names : forall p, p ∈ map fst (pattern_publish_ r) <-> is_Some (patterns_ r !! p);
  t_publish_kinds : Forall (fun e => e.2 = PubSub.classify_pattern e.1) (pattern_publish_ r);
}.

(** The reverse index of a session: the names it is subscribed to, once each, and how many. *)
Definition names_ok (r : PubSubRegistry) (i : nat) (s : PubSubSession) (patterns : bool) : Prop :=
  NoDup (names_of patterns s) /\ count_of patterns s = length (names_of patterns s)
  /\ forall name, name ∈ names_of patterns s <-> i ∈ subs patterns name r.

Definition output_ok (s : PubSubSession) : Prop :=
  (exists l, OutputQueue.holds (unsolicited s) l) /\ 0 <= next_output_sequence s < 2 ^ 64.

Record registry_ok (r : PubSubRegistry) : Prop := {
  r_tables : tables_ok r;
  r_known : forall patterns name i, i ∈ subs patterns name r -> is_Some (sessions r !! i);
  r_names : forall i s patterns, sessions r !! i = Some s -> names_ok r i s patterns;
  r_output : forall i s, sessions r !! i = Some s -> output_ok s;
}.

(** *** Lists that drop an entry by overwriting it with the last *)

Lemma first_index_spec {A} (p : A -> bool) l :
  match find_index p l with
  | Some i => exists a x b, l = a ++ x :: b /\ length a = i /\ p x = true /\ forallb (fun y => negb (p y)) a = true
  | None => forallb (fun y => negb (p y)) l = true
  end.
Proof.
  induction l as [|x l IH]; simpl; [done|]. destruct (p x) eqn:Hp; [by exists [], x, l|].
  destruct (find_index p l) as [i|]; simpl; [|done]. destruct IH as (a & y & b & -> & <- & Hy & Ha).
  exists (x :: a), y, b. simpl. by rewrite Hp.
Qed.

Lemma removelast_app_one {A} (l : list A) x : removelast (l ++ [x]) = l.
Proof. rewrite removelast_app by done. simpl. apply app_nil_r. Qed.

(** The first entry that satisfies the test goes; the others stay, in some order. *)
Lemma swap_erase_spec {A} (p : A -> bool) (l : list A) :
  (forallb (fun y => negb (p y)) l = true /\ swap_erase p l = l) \/
  exists x rest, p x = true /\ l ≡ₚ x :: rest /\ swap_erase p l ≡ₚ rest.
Proof.
  unfold swap_erase. pose proof (first_index_spec p l) as Hf. destruct (find_index p l) as [i|]; [|by left].
  right. destruct Hf as (a & x & b & -> & <- & Hx & _). exists x, (a ++ b). split; [done|].
  split; [by rewrite <- Permutation_middle|].
  destruct b as [|y b _] using rev_ind.
  - rewrite last_snoc. rewrite insert_app_r_alt by lia. rewrite Nat.sub_diag. simpl. by rewrite removelast_app_one, app_nil_r.
  - rewrite app_comm_cons, app_assoc, last_snoc. rewrite <- app_assoc, insert_app_r_alt by lia. rewrite Nat.sub_diag. simpl.
    rewrite app_comm_cons, app_assoc, removelast_app_one.
    apply Permutation_app_head, Permutation_cons_append.
Qed.

(** On entries with distinct keys, exactly the entry with the key goes. *)
Lemma swap_erase_keyed {A} (f : A -> bytes) (l : list A) name :
  let l' := swap_erase (fun x => bool_decide (f x = name)) l in
  NoDup (map f l) ->
  NoDup (map f l') /\ (forall n, n ∈ map f l' <-> n ∈ map f l /\ n <> name)
  /\ (name ∈ map f l -> length l = S (length l')) /\ forall P, Forall P l -> Forall P l'.
Proof.
  intros l' Hn. destruct (swap_erase_spec (fun x => bool_decide (f x = name)) l) as [[Ha He]|(x & rest & Hx & Hp & He)]; fold l' in He.
  - rewrite He. assert (name ∉ map f l).
    { intros (x & -> & Hin)%list_elem_of_fmap. rewrite forallb_forall in Ha. specialize (Ha x). rewrite bool_decide_eq_true_2 in Ha by done.
      by discriminate Ha; apply list_elem_of_In. }
    split_and!; [done| |done|done]. intros n. split; [|tauto]. intros Hin. split; [done|]. by intros ->.
  - apply bool_decide_eq_true in Hx. assert (Hm : map f l ≡ₚ name :: map f rest) by (rewrite Hp; simpl; by rewrite Hx).
    assert (Hm' : map f l' ≡ₚ map f rest) by (by rewrite He).
    rewrite Hm in Hn. apply NoDup_cons in Hn as [Hnot Hn]. split_and!.
    + by rewrite Hm'.
    + intros n. rewrite Hm, Hm', elem_of_cons. split; [|naive_solver]. intros Hin. split; [by right|]. by intros ->.
    + intros _. rewrite He. by rewrite Hp.
    + intros P. rewrite Hp, He. by inversion 1.
Qed.

Lemma erase_name_spec names name :
  NoDup names ->
  NoDup (erase_name names name) /\ (forall n, n ∈ erase_name names name <-> n ∈ names /\ n <> name)
  /\ (name ∈ names -> length names = S (length (erase_name names name))).
Proof.
  intros Hn. destruct (swap_erase_keyed id names name) as (H1 & H2 & H3 & _); [by rewrite map_id|].
  rewrite !map_id in *. done.
Qed.

(** *** A name loses a subscriber *)

Lemma table_of_with_table b b' t r : table_of b (with_table b' t r) = if decide (b = b') then t else table_of b r.
Proof. by destruct b, b'. Qed.

Lemma subs_lookup b name r set : table_of b r !! name = Some set -> subs b name r = set.
Proof. unfold subs. by intros ->. Qed.

Lemma remove_name_spec observed b i name r :
  tables_ok r ->
  let r' := remove_name observed b i r name in
  tables_ok r' /\ sessions r' = sessions r /\ overflowed_ r' = overflowed_ r
  /\ forall b' n, subs b' n r' = if decide (b' = b /\ n = name) then subs b' n r ∖ {[i]} else subs b' n r.
Proof.
  intros Ht r'. subst r'. unfold remove_name, erase_subscriber, erase_unused, notify_subscription_changed.
  destruct (table_of b r !! name) as [set|] eqn:Hl.
  2:{ split_and!; [done|done|done|]. intros b' n. case_decide as Hd; [|done]. destruct Hd as [-> ->]. unfold subs. rewrite Hl. simpl. set_solver. }
  cbn zeta. set (left := set ∖ {[i]}). set (gone := Nat.eqb (size left) 0). set (r' := if gone then _ else _).
  assert (Htab : forall b', table_of b' r' = if decide (b' = b) then (if gone then delete name (<[name := left]> (table_of b r)) else <[name := left]> (table_of b r)) else table_of b' r).
  { intros b'. subst r'. destruct gone, b, b', (bool_decide (i ∈ set)), observed; done. }
  assert (Hpub : pattern_publish_ r' = if b && gone then swap_erase (fun e => bool_decide (e.1 = name)) (pattern_publish_ r) else pattern_publish_ r).
  { subst r'. destruct gone, b, (bool_decide (i ∈ set)), observed; done. }
  assert (Hses : sessions r' = sessions r /\ overflowed_ r' = overflowed_ r).
  { subst r'. destruct gone, b, (bool_decide (i ∈ set)), observed; done. }
  destruct Hses as [Hses Hov]. clearbody r'.
  assert (Hleft : gone = true <-> left = ∅).
  { unfold gone. rewrite Nat.eqb_eq, size_empty_iff. apply leibniz_equiv_iff. }
  assert (Hlook : forall b' n, table_of b' r' !! n = if decide (b' = b /\ n = name) then (if gone then None else Some left) else table_of b' r !! n).
  { intros b' n. rewrite Htab. destruct (decide (b' = b)) as [->|], (decide (n = name)) as [->|].
    - rewrite decide_True by done. destruct gone; [apply lookup_delete_eq|apply lookup_insert_eq].
    - rewrite decide_False by naive_solver. destruct gone; rewrite ?lookup_delete_ne, ?lookup_insert_ne by done; done.
    - rewrite decide_False by naive_solver. done.
    - rewrite decide_False by naive_solver. done. }
  split_and!; [|done|done|].
  - destruct (swap_erase_keyed fst (pattern_publish_ r) name (t_publish_nodup _ Ht)) as (H1 & H2 & _ & H4).
    split.
    + intros b' n set'. rewrite Hlook. case_decide as Hd; [|apply (t_nonempty _ Ht)].
      destruct gone; [done|]. intros [= <-] He. by apply Hleft in He.
    + rewrite Hpub. destruct (b && gone); [done|apply Ht].
    + intros p. change (patterns_ r') with (table_of true r'). rewrite Hpub, Hlook. destruct b; cbn [andb].
      * destruct gone; [rewrite H2|]; rewrite (t_publish_names _ Ht p); case_decide as Hd.
        -- destruct Hd as [_ ->]. split; [tauto|by intros [? ?]].
        -- split; [tauto|]. intros Hs. split; [done|]. by intros ->; destruct Hd.
        -- destruct Hd as [_ ->]. split; [done|]. intros _. by exists set.
        -- done.
      * rewrite decide_False by naive_solver. apply (t_publish_names _ Ht).
    + rewrite Hpub. destruct (b && gone); [apply H4, Ht|apply Ht].
  - intros b' n. unfold subs. rewrite Hlook. case_decide as Hd; [|done]. destruct Hd as [-> ->]. rewrite Hl. simpl. fold left.
    destruct gone; simpl; [|done]. symmetry. by apply Hleft.
Qed.

Lemma remove_names_spec observed b i names r :
  tables_ok r ->
  let r' := foldl (remove_name observed b i) r names in
  tables_ok r' /\ sessions r' = sessions r /\ overflowed_ r' = overflowed_ r
  /\ forall b' n, subs b' n r' = if decide (b' = b /\ n ∈ names) then subs b' n r ∖ {[i]} else subs b' n r.
Proof.
  revert r. induction names as [|name names IH]; intros r Ht; simpl.
  { split_and!; [done|done|done|]. intros b' n. rewrite decide_False; [done|]. intros [_ H]. by apply elem_of_nil in H. }
  destruct (remove_name_spec observed b i name r Ht) as (H1 & H2 & H3 & H4).
  destruct (IH _ H1) as (I1 & I2 & I3 & I4). simpl in *. split_and!; [done|congruence|congruence|].
  intros b' n. rewrite I4, H4. destruct (decide (b' = b)) as [->|Hb]; [|by rewrite !decide_False by naive_solver].
  assert (Hx : forall (P : Prop) `{Decision P} (x y : gset nat), (if decide (b = b /\ P) then x else y) = if decide P then x else y)
    by (intros; apply decide_ext; tauto).
  rewrite !Hx. destruct (decide (n = name)), (decide (n ∈ names)), (decide (n ∈ name :: names)) as [Hc|Hc];
    rewrite elem_of_cons in Hc; set_solver.
Qed.

(** *** One session changes *)

Lemma registry_ok_update r r' i s' :
  registry_ok r -> is_Some (sessions r !! i) -> tables_ok r' -> sessions r' = <[i := s']> (sessions r) ->
  (forall b n j, j <> i -> j ∈ subs b n r' <-> j ∈ subs b n r) -> (forall b, names_ok r' i s' b) -> output_ok s' -> registry_ok r'.
Proof.
  intros Hr Hi Ht Hs Hsub Hn Ho. split; [done| | |].
  - intros b n j Hj. rewrite Hs. destruct (decide (j = i)) as [->|Hne]; [by rewrite lookup_insert_eq|].
    rewrite lookup_insert_ne by done. apply (r_known _ Hr b n). by apply Hsub.
  - intros j s b. rewrite Hs. destruct (decide (j = i)) as [->|Hne]; [rewrite lookup_insert_eq; by intros [= <-]|].
    rewrite lookup_insert_ne by done. intros Hl. destruct (r_names _ Hr j s b Hl) as (H1 & H2 & H3).
    split_and!; [done|done|]. intros n. by rewrite H3, Hsub.
  - intros j s. rewrite Hs. destruct (decide (j = i)) as [->|Hne]; [rewrite lookup_insert_eq; by intros [= <-]|].
    rewrite lookup_insert_ne by done. apply Hr.
Qed.

(** What a change of the subscriptions leaves alone. *)
Definition same_output (s s' : PubSubSession) : Prop :=
  wire_mode s' = wire_mode s /\ unsolicited s' = unsolicited s /\ next_output_sequence s' = next_output_sequence s
  /\ close_requested s' = close_requested s /\ bluefield_edge_id s' = bluefield_edge_id s
  /\ bluefield_aggregate s' = bluefield_aggregate s.

Lemma same_output_ok s s' : same_output s s' -> output_ok s -> output_ok s'.
Proof. intros (_ & H1 & H2 & _). unfold output_ok. by rewrite H1, H2. Qed.

Lemma update_weights_same b f s :
  same_output s (update_weights b f s) /\ forall b', names_of b' (update_weights b f s) = names_of b' s
    /\ count_of b' (update_weights b f s) = count_of b' s.
Proof.
  unfold update_weights. destruct (bluefield_aggregate s) eqn:Ha, (bluefield_aggregate_state s); unfold same_output; simpl;
    (split; [split_and!; congruence|intros []; done]).
Qed.

Lemma remove_spec observed i r s :
  registry_ok r -> sessions r !! i = Some s ->
  exists r' s', remove observed i r = Some r' /\ registry_ok r' /\ sessions r' = <[i := s']> (sessions r)
    /\ overflowed_ r' = overflowed_ r /\ (forall b n, subs b n r' = subs b n r ∖ {[i]})
    /\ unsolicited s' = OutputQueue.clear (unsolicited s) /\ wire_mode s' = wire_mode s /\ close_requested s' = close_requested s
    /\ next_output_sequence s' = next_output_sequence s /\ has_unsolicited_front s' = false
    /\ forall b, names_of b s' = [].
Proof.
  intros Hr Hs. unfold remove. rewrite Hs. cbn [mbind option_bind].
  destruct (r_output _ Hr _ _ Hs) as [[l Hl] Hseq].
  assert (Hclear : exists l, OutputQueue.holds (OutputQueue.clear (unsolicited s)) l) by (exists []; by eapply OutputQueue.queue_clear_spec).
  assert (Hfinish : forall r1 s', tables_ok r1 -> sessions r1 = sessions r -> overflowed_ r1 = overflowed_ r ->
    (forall b n, subs b n r1 = subs b n r ∖ {[i]}) -> (forall b, names_of b s' = [] /\ count_of b s' = 0%nat) ->
    unsolicited s' = OutputQueue.clear (unsolicited s) -> next_output_sequence s' = next_output_sequence s ->
    registry_ok (with_session i s' r1)).
  { intros r1 s' Ht1 Hs1 Ho1 Hsub1 Hn Hu Hq. eapply (registry_ok_update r _ i s'); eauto.
    - destruct Ht1. by split.
    - simpl. by rewrite Hs1.
    - intros b n j Hj. change (subs b n (with_session i s' r1)) with (subs b n r1). rewrite Hsub1. set_solver.
    - intros b. destruct (Hn b) as [Hn1 Hn2]. split_and!; [rewrite Hn1; constructor|by rewrite Hn1, Hn2|].
      intros n. change (subs b n (with_session i s' r1)) with (subs b n r1). rewrite Hsub1, Hn1. set_solver.
    - unfold output_ok. by rewrite Hu, Hq. }
  destruct (r_names _ Hr i s false Hs) as (Hn1 & Hc1 & Hi1). destruct (r_names _ Hr i s true Hs) as (Hn2 & Hc2 & Hi2).
  destruct (Nat.eqb_spec (subscription_count s) 0) as [Hz|Hz]; simpl.
  - destruct (Nat.eqb_spec (length (channel_names s)) 0) as [Hz1|]; simpl;
      [|exfalso; unfold subscription_count in Hz; simpl in *; lia].
    destruct (Nat.eqb_spec (length (pattern_names s)) 0) as [Hz2|]; simpl;
      [|exfalso; unfold subscription_count in Hz; simpl in *; lia].
    apply nil_length_inv in Hz1, Hz2.
    assert (Hsub : forall b n, subs b n r = subs b n r ∖ {[i]}).
    { intros b n. assert (i ∉ subs b n r); [|set_solver]. destruct b; [rewrite <- Hi2|rewrite <- Hi1]; simpl; rewrite ?Hz1, ?Hz2; apply not_elem_of_nil. }
    eexists _, (clear_output s). split; [done|]. split_and!; try done; [|by intros []].
    apply Hfinish; try done; [apply Hr|]. unfold subscription_count in Hz. intros []; simpl in *; split; done || lia.
  - destruct (remove_names_spec observed false i (channel_names s) r (r_tables _ Hr)) as (T1 & S1 & O1 & B1).
    destruct (remove_names_spec observed true i (pattern_names (with_names false 0 [] s)) _ T1) as (T2 & S2 & O2 & B2).
    simpl in *. set (r2 := foldl (remove_name observed true i) _ _) in *.
    assert (Hsub : forall b n, subs b n r2 = subs b n r ∖ {[i]}).
    { intros b n. rewrite B2, B1. pose proof (Hi1 n) as G1. pose proof (Hi2 n) as G2. destruct b; cbn [names_of] in G1, G2.
      - rewrite (decide_False (P := true = false /\ _)) by naive_solver. case_decide as Hd; [done|].
        assert (i ∉ subs true n r) by naive_solver. set_solver.
      - rewrite (decide_False (P := false = true /\ _)) by naive_solver. case_decide as Hd; [done|].
        assert (i ∉ subs false n r) by naive_solver. set_solver. }
    eexists _, _. split; [done|]. split_and!.
    + apply Hfinish; try done; [congruence|congruence|..]; destruct (bluefield_aggregate_state s); try done; by intros [].
    + simpl. by rewrite S2, S1.
    + simpl. by rewrite O2, O1.
    + exact Hsub.
    + by destruct (bluefield_aggregate_state s).
    + by destruct (bluefield_aggregate_state s).
    + by destruct (bluefield_aggregate_state s).
    + by destruct (bluefield_aggregate_state s).
    + by destruct (bluefield_aggregate_state s).
    + destruct (bluefield_aggregate_state s); by intros [].
Qed.

(** *** Subscribing *)

Definition add_name (name : bytes) (names : list bytes) : list bytes :=
  if decide (name ∈ names) then names else names ++ [name].

(** What a change of one kind of subscription of a session shows. *)
Definition changed (b : bool) (i : nat) (s : PubSubSession) (r : PubSubRegistry) (names : list bytes) (r' : PubSubRegistry) (s' : PubSubSession) : Prop :=
  registry_ok r' /\ sessions r' = <[i := s']> (sessions r) /\ overflowed_ r' = overflowed_ r
  /\ same_output s s' /\ names_of b s' = names /\ names_of (negb b) s' = names_of (negb b) s.

Lemma count_total r i s : registry_ok r -> sessions r !! i = Some s ->
  forall b, subscription_count s = (length (names_of b s) + length (names_of (negb b) s))%nat.
Proof.
  intros Hr Hs b. destruct (r_names _ Hr i s true Hs) as (_ & H1 & _). destruct (r_names _ Hr i s false Hs) as (_ & H2 & _).
  unfold subscription_count. destruct b; simpl in *; lia.
Qed.

Lemma changed_refl b i s r : registry_ok r -> sessions r !! i = Some s -> changed b i s r (names_of b s) r s.
Proof. intros Hr Hs. unfold changed, same_output. rewrite insert_id by done. by split_and!. Qed.

Lemma changed_trans b i s r names1 r1 s1 names2 r2 s2 :
  changed b i s r names1 r1 s1 -> changed b i s1 r1 names2 r2 s2 -> changed b i s r names2 r2 s2.
Proof.
  intros (A1 & A2 & A3 & (A4 & A5 & A6 & A7 & A8 & A9) & A10 & A11) (B1 & B2 & B3 & (B4 & B5 & B6 & B7 & B8 & B9) & B10 & B11).
  unfold changed, same_output. split_and!; try congruence. rewrite B2, A2. apply insert_insert_eq.
Qed.

Lemma changed_lookup b i s r names r' s' : changed b i s r names r' s' -> sessions r' !! i = Some s'.
Proof. intros (_ & -> & _). apply lookup_insert_eq. Qed.

Lemma names_of_with_names b b' n names s : names_of b' (with_names b n names s) = if decide (b' = b) then names else names_of b' s.
Proof. by destruct b, b'. Qed.

Lemma count_of_with_names b b' n names s : count_of b' (with_names b n names s) = if decide (b' = b) then n else count_of b' s.
Proof. by destruct b, b'. Qed.

(** The table after a subscriber was added. *)
Lemma subscribe_tables observed b i name r r1 s' :
  tables_ok r ->
  let set := {[i]} ∪ subs b name r in
  r1 = (try_emplace_name b name r).2 ->
  let r' := notify_subscription_changed observed name b (size set)
              (with_session i s' (with_table b (<[name := set]> (table_of b r1)) r1)) in
  tables_ok r' /\ sessions r' = <[i := s']> (sessions r) /\ overflowed_ r' = overflowed_ r
  /\ forall b' n, subs b' n r' = if decide (b' = b /\ n = name) then set else subs b' n r.
Proof.
  intros Ht set Hr1 r'.
  assert (Hlook : forall b' n, table_of b' r' !! n = if decide (b' = b /\ n = name) then Some set else table_of b' r !! n).
  { intros b' n. assert (Htab : table_of b' r' = if decide (b' = b) then <[name := set]> (table_of b r) else table_of b' r).
    { subst r' r1. unfold try_emplace_name. destruct (table_of b r !! name) eqn:Hl; destruct b, b', observed; simpl in *; try done; by rewrite insert_insert_eq. }
    rewrite Htab. destruct (decide (b' = b)) as [->|], (decide (n = name)) as [->|]; [rewrite decide_True by done; apply lookup_insert_eq|..];
      rewrite decide_False by naive_solver; rewrite ?lookup_insert_ne by done; done. }
  assert (Hpub : pattern_publish_ r' = if b then (if table_of b r !! name then pattern_publish_ r
                                        else pattern_publish_ r ++ [(name, PubSub.classify_pattern name)]) else pattern_publish_ r).
  { subst r' r1. unfold try_emplace_name. destruct (table_of b r !! name), b, observed; done. }
  assert (Hses : sessions r' = <[i := s']> (sessions r) /\ overflowed_ r' = overflowed_ r).
  { subst r' r1. unfold try_emplace_name. destruct (table_of b r !! name), b, observed; done. }
  destruct Hses as [Hses Hov]. clearbody r'. clear Hr1. split_and!; [|done|done|].
  2:{ intros b' n. unfold subs at 1. rewrite Hlook. by case_decide. }
  split.
  - intros b' n set'. rewrite Hlook. case_decide as Hd; [|apply (t_nonempty _ Ht)]. intros [= <-]. unfold set. set_solver.
  - rewrite Hpub. destruct b; [|apply Ht]. destruct (table_of true r !! name) eqn:Hl; [apply Ht|].
    rewrite map_app. apply NoDup_app. split_and!; [apply Ht| |apply NoDup_singleton].
    intros p Hp. simpl. rewrite list_elem_of_singleton. intros ->. apply (t_publish_names _ Ht) in Hp as [? Hp].
    simpl in Hl. congruence.
  - intros p. change (patterns_ r') with (table_of true r'). rewrite Hpub, Hlook. destruct b.
    + case_decide as Hd.
      * destruct Hd as [_ ->]. split; [by eexists|]. intros _. destruct (table_of true r !! name) eqn:Hl.
        -- apply (t_publish_names _ Ht). by exists g.
        -- rewrite map_app. apply elem_of_app. right. simpl. by apply list_elem_of_singleton.
      * change (table_of true r) with (patterns_ r). rewrite <- (t_publish_names _ Ht). destruct (patterns_ r !! name); [done|].
        rewrite map_app, elem_of_app. simpl. rewrite list_elem_of_singleton. naive_solver.
    + rewrite decide_False by naive_solver. apply (t_publish_names _ Ht).
  - rewrite Hpub. destruct b; [|apply Ht]. destruct (table_of true r !! name); [apply Ht|].
    apply Forall_app. split; [apply Ht|by constructor].
Qed.

Lemma subscribe_name_spec observed b i name r s :
  registry_ok r -> sessions r !! i = Some s ->
  exists r' s', subscribe_name observed b i name r = Some r' /\ changed b i s r (add_name name (names_of b s)) r' s'.
Proof.
  intros Hr Hs. unfold subscribe_name. rewrite Hs. cbn [mbind option_bind].
  destruct (r_names _ Hr i s b Hs) as (Hnd & Hc & Hin). unfold add_name.
  assert (He : try_emplace_name b name r = (subs b name r, (try_emplace_name b name r).2)).
  { unfold subs, try_emplace_name. by destruct (table_of b r !! name). }
  rewrite He. cbn [snd]. destruct (decide (name ∈ names_of b s)) as [Hn|Hn].
  { pose proof Hn as Hi. rewrite Hin in Hi. rewrite decide_True by done.
    assert ((try_emplace_name b name r).2 = r) as ->.
    { unfold try_emplace_name, subs in *. destruct (table_of b r !! name); [done|]. set_solver. }
    exists r, s. split; [done|]. by apply changed_refl. }
  assert (Hni : i ∉ subs b name r) by (by rewrite <- Hin).
  set (s1 := with_names b (S (count_of b s)) (names_of b s ++ [name]) s).
  set (f := fun w : gmap bytes Z => match w !! name with Some _ => w | None => <[name := 1]> w end).
  destruct (update_weights_same b f s1) as (Hsame & Hnames). set (s' := update_weights b f s1) in *.
  destruct (subscribe_tables observed b i name r _ s' (r_tables _ Hr) eq_refl) as (T & S & O & B).
  set (r' := notify_subscription_changed _ _ _ _ _) in *.
  rewrite decide_False by done. exists r', s'. split; [done|].
  assert (Hs' : forall b', names_of b' s' = if decide (b' = b) then names_of b s ++ [name] else names_of b' s).
  { intros b'. destruct (Hnames b') as [-> _]. apply names_of_with_names. }
  assert (Hc' : forall b', count_of b' s' = if decide (b' = b) then Datatypes.S (count_of b s) else count_of b' s).
  { intros b'. destruct (Hnames b') as [_ ->]. apply count_of_with_names. }
  assert (Hsame' : same_output s s') by (destruct b; exact Hsame).
  unfold changed. split_and!; [|done|done|done|rewrite Hs'; by rewrite decide_True|rewrite Hs', decide_False; [done|by destruct b]].
  eapply (registry_ok_update r r' i s'); eauto.
  - intros b' n j Hj. rewrite B. case_decide as Hd; [destruct Hd as [-> ->]|done]. set_solver.
  - intros b'. destruct (r_names _ Hr i s b' Hs) as (H1 & H2 & H3). unfold names_ok. rewrite Hs', Hc'. case_decide as Hb.
    + subst b'. split_and!.
      * apply NoDup_app. split_and!; [done| |apply NoDup_singleton]. intros x Hx. rewrite list_elem_of_singleton. by intros ->.
      * rewrite length_app, Hc. simpl. lia.
      * intros n. rewrite elem_of_app, list_elem_of_singleton, B, H3. case_decide as Hd; [set_solver|naive_solver].
    + split_and!; [done|done|]. intros n. rewrite B, H3, decide_False by naive_solver. done.
  - eapply same_output_ok; [exact Hsame'|]. by eapply r_output.
Qed.

(** *** Acknowledgements *)

Definition kind_text (kind : AckKind) : bytes :=
  match kind with
  | ack_subscribe => str "subscribe" | ack_psubscribe => str "psubscribe"
  | ack_unsubscribe => str "unsubscribe" | ack_punsubscribe => str "punsubscribe"
  end.

Section acks.
Context (sbe_push : Z -> Z -> bytes -> bytes -> bytes -> bytes) (observed : bool).

(** The frame that acknowledges a change, with the number of subscriptions after it. *)
Definition ack_frame (mode : WireMode) (patterns : bool) (kind : AckKind) (name : option bytes) (count : nat) : bytes :=
  if decide (mode = sbe_mode) then
    sbe_push (ack_value kind) (u32 (Z.of_nat count)) (if patterns then default [] name else [])
      (if patterns then [] else default [] name) []
  else
    header_line (if decide (mode = resp3_mode) then ">"%byte else "*"%byte) 3 ++ bulk (kind_text kind)
    ++ match name with
       | Some name => bulk name
       | None => if decide (mode = resp3_mode) then str "_" ++ crlf else str "$-1" ++ crlf
       end
    ++ str ":" ++ to_chars_u64 (Z.of_nat count) ++ crlf.

Lemma append_push_header_eq out n : 0 <= n < 2 ^ 64 -> append_push_header out n = out ++ header_line ">" n.
Proof.
  intros Hn. unfold append_push_header, kSmallPushHeaders_size. destruct (Z.ltb_spec n 17).
  - rewrite make_header_line by lia. done.
  - unfold append_decimal, header_line. by rewrite <- !app_assoc.
Qed.

Lemma append_ack_eq out s patterns kind name :
  (patterns = match kind with ack_psubscribe | ack_punsubscribe => true | _ => false end) ->
  append_ack sbe_push out s kind name = Some (out ++ ack_frame (wire_mode s) patterns kind name (subscription_count s)).
Proof.
  intros ->. unfold append_ack, ack_frame. case_decide as Hm; [done|]. rewrite append_bulk_string_eq. cbn [mbind option_bind].
  rewrite append_push_header_eq, append_array_header_eq by lia.
  assert (Hint : forall o, append_integer o (Z.of_nat (subscription_count s)) = o ++ str ":" ++ to_chars_u64 (Z.of_nat (subscription_count s)) ++ crlf).
  { intros o. unfold append_integer, append_decimal_i64. destruct (Z.ltb_spec (Z.of_nat (subscription_count s)) 0); [lia|]. by rewrite <- !app_assoc. }
  case_decide as H3.
  - destruct name as [name|]; [rewrite append_bulk_string_eq|]; cbn [mbind option_bind append_null];
      rewrite Hint; by rewrite <- !app_assoc.
  - destruct name as [name|]; [rewrite append_bulk_string_eq|]; cbn [mbind option_bind append_null append_null_bulk_string];
      unfold append_null_bulk_string; rewrite Hint; by rewrite <- !app_assoc.
Qed.

(** The names of a session after a SUBSCRIBE, and its acknowledgements. *)
Definition subscribed (names0 names : list bytes) : list bytes := foldl (fun l n => add_name n l) names0 names.
Fixpoint subscribe_acks (mode : WireMode) (patterns : bool) (other : nat) (names0 names : list bytes) : bytes :=
  match names with
  | [] => []
  | n :: names =>
      ack_frame mode patterns (subscribe_kind patterns) (Some n) (length (add_name n names0) + other)
      ++ subscribe_acks mode patterns other (add_name n names0) names
  end.

Lemma subscribe_spec b i names r s out :
  registry_ok r -> sessions r !! i = Some s ->
  exists r' s', subscribe sbe_push observed b i names r out =
      Some (r', out ++ subscribe_acks (wire_mode s) b (length (names_of (negb b) s)) (names_of b s) names)
    /\ changed b i s r (subscribed (names_of b s) names) r' s'.
Proof.
  revert r s out. induction names as [|n names IH]; intros r s out Hr Hs; simpl.
  { exists r, s. split; [by rewrite app_nil_r|by apply changed_refl]. }
  destruct (subscribe_name_spec observed b i n r s Hr Hs) as (r1 & s1 & -> & Hc). cbn [mbind option_bind].
  pose proof (changed_lookup _ _ _ _ _ _ _ Hc) as Hs1. rewrite Hs1. cbn [mbind option_bind].
  rewrite (append_ack_eq _ _ b) by (by destruct b). cbn [mbind option_bind].
  pose proof Hc as (Hr1 & _ & _ & (Hm & _) & Hn1 & Hn2).
  destruct (IH r1 s1 (out ++ ack_frame (wire_mode s1) b (subscribe_kind b) (Some n) (subscription_count s1)) Hr1 Hs1) as (r2 & s2 & -> & Hc2).
  exists r2, s2. rewrite (count_total _ _ _ Hr1 Hs1 b), Hn1, Hn2, Hm, app_assoc in *. split; [done|]. by eapply changed_trans.
Qed.

(** *** Unsubscribing *)

Lemma unsubscribe_name_eq b listed i name r :
  unsubscribe_name observed b listed i name r =
  s ← sessions r !! i;
  let r' := remove_name observed b i r name in
  Some (if decide (i ∈ subs b name r) then
          with_session i (update_weights b (delete name)
            (with_names b (count_of b s - 1) (if listed then erase_name (names_of b s) name else names_of b s) s)) r'
        else r').
Proof.
  unfold unsubscribe_name, remove_name, erase_subscriber, subs. destruct (sessions r !! i) as [s|]; [|done]. cbn [mbind option_bind].
  destruct (table_of b r !! name) as [set|]; cbn zeta; [|by rewrite decide_False by set_solver]. simpl default. f_equal.
  destruct (decide (i ∈ set)) as [Hi|Hi].
  - rewrite bool_decide_eq_true_2 by done. set (s' := update_weights _ _ _). destruct (Nat.eqb _ 0), b, observed; done.
  - rewrite bool_decide_eq_false_2 by done. done.
Qed.

(** The registry while a session loses the names of its list [todo], and keeps the list. *)
Record leaving (b : bool) (i : nat) (s : PubSubSession) (r : PubSubRegistry) (todo : list bytes) (r1 : PubSubRegistry) (s1 : PubSubSession) : Prop := {
  lv_tables : tables_ok r1;
  lv_sessions : sessions r1 = <[i := s1]> (sessions r);
  lv_overflowed : overflowed_ r1 = overflowed_ r;
  lv_output : same_output s s1;
  lv_names : forall b', names_of b' s1 = names_of b' s;
  lv_count : forall b', count_of b' s1 = if decide (b' = b) then length todo else count_of b' s;
  lv_subs : forall b' n, subs b' n r1 = if decide (b' = b /\ n ∉ todo) then subs b' n r ∖ {[i]} else subs b' n r;
}.

Fixpoint unsubscribe_all_acks (mode : WireMode) (patterns : bool) (other : nat) (names : list bytes) : bytes :=
  match names with
  | [] => []
  | n :: names =>
      ack_frame mode patterns (unsubscribe_kind patterns) (Some n) (length names + other)
      ++ unsubscribe_all_acks mode patterns other names
  end.

Lemma leaving_step b i s r name todo r1 s1 :
  registry_ok r -> sessions r !! i = Some s -> NoDup (name :: todo) -> (forall n, n ∈ name :: todo -> n ∈ names_of b s) ->
  leaving b i s r (name :: todo) r1 s1 ->
  exists r2 s2, unsubscribe_name observed b false i name r1 = Some r2 /\ leaving b i s r todo r2 s2.
Proof.
  intros Hr Hs Hnd Hin [T S O U N C B]. rewrite unsubscribe_name_eq, S, lookup_insert_eq. cbn [mbind option_bind].
  destruct (r_names _ Hr i s b Hs) as (_ & _ & Hlink).
  assert (Hi : i ∈ subs b name r1).
  { rewrite B, decide_False by (intros [_ Hx]; apply Hx; by left). apply Hlink, Hin. by left. }
  rewrite decide_True by done. cbn zeta. destruct (remove_name_spec observed b i name r1 T) as (T' & S' & O' & B').
  set (r' := remove_name observed b i r1 name) in *.
  set (s2 := with_names b (count_of b s1 - 1) (names_of b s1) s1).
  destruct (update_weights_same b (delete name) s2) as (Hsame & Hnames).
  eexists _, _. split; [done|]. split.
  - destruct T'. by split.
  - simpl. rewrite S', S. apply insert_insert_eq.
  - simpl. congruence.
  - assert (same_output s1 s2) by (by destruct b). unfold same_output in *. naive_solver congruence.
  - intros b'. destruct (Hnames b') as [-> _]. unfold s2. rewrite names_of_with_names. case_decide; subst; apply N.
  - intros b'. destruct (Hnames b') as [_ ->]. unfold s2. rewrite count_of_with_names, !C. case_decide; [|done].
    rewrite decide_True by done. simpl. lia.
  - intros b' n. change (subs b' n (with_session _ _ r')) with (subs b' n r'). rewrite B', B. apply NoDup_cons in Hnd as [Hnot _].
    repeat case_decide; try (rewrite not_elem_of_cons in *); try naive_solver; set_solver.
Qed.

Lemma unsubscribe_all_spec b i s r todo r1 s1 out :
  registry_ok r -> sessions r !! i = Some s -> NoDup todo -> (forall n, n ∈ todo -> n ∈ names_of b s) -> leaving b i s r todo r1 s1 ->
  exists r2 s2, unsubscribe_names sbe_push observed b false i todo r1 out =
      Some (r2, out ++ unsubscribe_all_acks (wire_mode s) b (length (names_of (negb b) s)) todo)
    /\ leaving b i s r [] r2 s2.
Proof.
  intros Hr Hs. revert r1 s1 out. induction todo as [|n todo IH]; intros r1 s1 out Hnd Hin Hl; simpl.
  { exists r1, s1. by rewrite app_nil_r. }
  destruct (leaving_step b i s r n todo r1 s1 Hr Hs Hnd Hin Hl) as (r2 & s2 & -> & Hl2). cbn [mbind option_bind].
  rewrite (lv_sessions _ _ _ _ _ _ _ Hl2), lookup_insert_eq. cbn [mbind option_bind].
  rewrite (append_ack_eq _ _ b) by (by destruct b). cbn [mbind option_bind].
  inversion_clear Hnd. destruct (IH r2 s2 (out ++ ack_frame (wire_mode s2) b (unsubscribe_kind b) (Some n) (subscription_count s2)))
    as (r3 & s3 & -> & Hl3); [done|intros; apply Hin; by right|done|].
  exists r3, s3. split; [|done]. rewrite app_assoc. do 5 f_equal; [apply Hl2|].
  assert (subscription_count s2 = count_of b s2 + count_of (negb b) s2)%nat as -> by (unfold subscription_count; destruct b; simpl; lia).
  rewrite !(lv_count _ _ _ _ _ _ _ Hl2), decide_True by done. rewrite decide_False by (by destruct b). f_equal.
  by destruct (r_names _ Hr i s (negb b) Hs) as (_ & ? & _).
Qed.

Lemma leaving_done b i s r r1 s1 :
  registry_ok r -> sessions r !! i = Some s -> leaving b i s r [] r1 s1 ->
  let s2 := with_names b (count_of b s1) [] s1 in changed b i s r [] (with_session i s2 r1) s2.
Proof.
  intros Hr Hs [T S O U N C B] s2. assert (Hsame : same_output s s2) by (unfold same_output in *; by destruct b).
  assert (Hses : sessions (with_session i s2 r1) = <[i := s2]> (sessions r)) by (simpl; rewrite S; apply insert_insert_eq).
  unfold changed. split_and!; [|done|done|done|by destruct b|unfold s2; rewrite names_of_with_names, decide_False by (by destruct b); apply N].
  eapply (registry_ok_update r _ i s2); eauto.
  - destruct T. by split.
  - intros b' n j Hj. change (subs b' n (with_session i s2 r1)) with (subs b' n r1). rewrite B. case_decide; set_solver.
  - intros b'. destruct (r_names _ Hr i s b' Hs) as (H1 & H2 & H3). unfold names_ok, s2. rewrite names_of_with_names, count_of_with_names, !C.
    change (subs b' ?n (with_session i _ r1)) with (subs b' n r1). setoid_rewrite B. case_decide as Hb.
    + subst b'. rewrite decide_True by done. split_and!; [constructor|done|]. intros n. rewrite decide_True by (split; [done|apply not_elem_of_nil]). set_solver.
    + rewrite N. split_and!; [done|done|]. intros n. rewrite decide_False by naive_solver. apply H3.
  - eapply same_output_ok; [exact Hsame|]. by eapply r_output.
Qed.

(** Names given: the list of the session shrinks name by name. *)
Definition unsubscribed (names0 names : list bytes) : list bytes := foldl erase_name names0 names.
Fixpoint unsubscribe_acks (mode : WireMode) (patterns : bool) (other : nat) (names0 names : list bytes) : bytes :=
  match names with
  | [] => []
  | n :: names =>
      ack_frame mode patterns (unsubscribe_kind patterns) (Some n) (length (erase_name names0 n) + other)
      ++ unsubscribe_acks mode patterns other (erase_name names0 n) names
  end.

Lemma erase_name_absent names name : name ∉ names -> erase_name names name = names.
Proof.
  intros Hn. unfold erase_name. destruct (swap_erase_spec (fun n => bool_decide (n = name)) names) as [[_ He]|(x & rest & Hx & Hp & _)]; [done|].
  apply bool_decide_eq_true in Hx as ->. destruct Hn. rewrite Hp. by left.
Qed.

Lemma unsubscribe_name_spec b i name r s :
  registry_ok r -> sessions r !! i = Some s ->
  exists r' s', unsubscribe_name observed b true i name r = Some r' /\ changed b i s r (erase_name (names_of b s) name) r' s'.
Proof.
  intros Hr Hs. rewrite unsubscribe_name_eq, Hs. cbn [mbind option_bind]. cbn zeta.
  destruct (r_names _ Hr i s b Hs) as (Hnd & Hc & Hlink). destruct (remove_name_spec observed b i name r (r_tables _ Hr)) as (T & S & O & B).
  set (r1 := remove_name observed b i r name) in *. destruct (decide (i ∈ subs b name r)) as [Hi|Hi].
  - set (s1 := with_names b (count_of b s - 1) (erase_name (names_of b s) name) s).
    destruct (update_weights_same b (delete name) s1) as (Hsame & Hnames). set (s' := update_weights b (delete name) s1) in *.
    assert (Hs' : forall b', names_of b' s' = if decide (b' = b) then erase_name (names_of b s) name else names_of b' s).
    { intros b'. destruct (Hnames b') as [-> _]. apply names_of_with_names. }
    assert (Hc' : forall b', count_of b' s' = if decide (b' = b) then (count_of b s - 1)%nat else count_of b' s).
    { intros b'. destruct (Hnames b') as [_ ->]. apply count_of_with_names. }
    assert (Hsame' : same_output s s') by (by destruct b).
    assert (Hses : sessions (with_session i s' r1) = <[i := s']> (sessions r)) by (simpl; by rewrite S).
    exists (with_session i s' r1), s'. split; [done|]. unfold changed.
    split_and!; [|done|simpl; congruence|done|rewrite Hs'; by rewrite decide_True|rewrite Hs', decide_False; [done|by destruct b]].
    eapply (registry_ok_update r _ i s'); eauto.
    + destruct T. by split.
    + intros b' n j Hj. change (subs b' n (with_session i s' r1)) with (subs b' n r1). rewrite B. case_decide; set_solver.
    + intros b'. destruct (r_names _ Hr i s b' Hs) as (H1 & H2 & H3). unfold names_ok. rewrite Hs', Hc'.
      change (subs b' ?n (with_session i _ r1)) with (subs b' n r1). setoid_rewrite B.
      destruct (erase_name_spec (names_of b s) name Hnd) as (E1 & E2 & E3). case_decide as Hb.
      * subst b'. split_and!; [done|rewrite Hc, E3 by (by apply Hlink); lia|]. intros n. rewrite E2, H3. case_decide; set_solver.
      * split_and!; [done|done|]. intros n. rewrite decide_False by naive_solver. apply H3.
    + eapply same_output_ok; [exact Hsame'|]. by eapply r_output.
  - rewrite erase_name_absent by (by rewrite Hlink). exists r1, s. split; [done|]. unfold changed, same_output.
    assert (Hsub : forall b' n, subs b' n r1 = subs b' n r) by (intros; rewrite B; case_decide as Hd; [destruct Hd as [-> ->]; set_solver|done]).
    split_and!; try done; [|by rewrite S, insert_id].
    eapply (registry_ok_update r r1 i s); eauto.
    + by rewrite S, insert_id.
    + intros. by rewrite Hsub.
    + intros b'. destruct (r_names _ Hr i s b' Hs) as (H1 & H2 & H3). split_and!; [done|done|]. intros n. by rewrite Hsub.
    + by eapply r_output.
Qed.

Lemma unsubscribe_names_spec b i names r s out :
  registry_ok r -> sessions r !! i = Some s ->
  exists r' s', unsubscribe_names sbe_push observed b true i names r out =
      Some (r', out ++ unsubscribe_acks (wire_mode s) b (length (names_of (negb b) s)) (names_of b s) names)
    /\ changed b i s r (unsubscribed (names_of b s) names) r' s'.
Proof.
  revert r s out. induction names as [|n names IH]; intros r s out Hr Hs; simpl.
  { exists r, s. split; [by rewrite app_nil_r|by apply changed_refl]. }
  destruct (unsubscribe_name_spec b i n r s Hr Hs) as (r1 & s1 & -> & Hc). cbn [mbind option_bind].
  pose proof (changed_lookup _ _ _ _ _ _ _ Hc) as Hs1. rewrite Hs1. cbn [mbind option_bind].
  rewrite (append_ack_eq _ _ b) by (by destruct b). cbn [mbind option_bind].
  pose proof Hc as (Hr1 & _ & _ & (Hm & _) & Hn1 & Hn2).
  destruct (IH r1 s1 (out ++ ack_frame (wire_mode s1) b (unsubscribe_kind b) (Some n) (subscription_count s1)) Hr1 Hs1) as (r2 & s2 & -> & Hc2).
  exists r2, s2. rewrite (count_total _ _ _ Hr1 Hs1 b), Hn1, Hn2, Hm, app_assoc in *. split; [done|]. by eapply changed_trans.
Qed.
End acks.

(** ** Publishing *)

(** *** Offering frames to a session *)

Fixpoint offer_all (frames : list bytes) (s : PubSubSession) : option (nat * PubSubSession) :=
  match frames with
  | [] => Some (0%nat, s)
  | f :: frames =>
      '(ok, s) ← offer f s;
      '(n, s) ← offer_all frames s;
      Some ((if (ok : bool) then 1 else 0) + n, s)%nat
  end.

(** Frames with the sequence numbers from [seq] on. *)
Fixpoint numbered (seq : Z) (frames : list bytes) : list (Z * bytes) :=
  match frames with [] => [] | f :: frames => (seq, f) :: numbered (u64 (seq + 1)) frames end.

(** What output leaves alone. *)
Definition same_subscriptions (s s' : PubSubSession) : Prop :=
  wire_mode s' = wire_mode s /\ (forall b, names_of b s' = names_of b s /\ count_of b s' = count_of b s)
  /\ bluefield_edge_id s' = bluefield_edge_id s /\ bluefield_aggregate s' = bluefield_aggregate s
  /\ bluefield_aggregate_state s' = bluefield_aggregate_state s.

#[local] Instance same_subscriptions_preorder : PreOrder same_subscriptions.
Proof.
  split; [by intros s; repeat split|]. intros a b c (A1 & A2 & A3 & A4 & A5) (B1 & B2 & B3 & B4 & B5).
  unfold same_subscriptions. split_and!; try congruence. intros d. destruct (A2 d), (B2 d). split; congruence.
Qed.

Lemma offer_spec f s :
  output_ok s ->
  exists (ok : bool) s', offer f s = Some (ok, s') /\ output_ok s' /\ same_subscriptions s s'
    /\ close_requested s' = (if ok then close_requested s else true)
    /\ forall l, OutputQueue.holds (unsolicited s) l ->
       OutputQueue.holds (unsolicited s') (if ok then l ++ [(next_output_sequence s, f)] else l)
       /\ next_output_sequence s' = (if ok then u64 (next_output_sequence s + 1) else next_output_sequence s).
Proof.
  intros [[l Hl] Hseq]. unfold offer.
  assert (Hex : exists (ok : bool) q', OutputQueue.push (next_output_sequence s) f (unsolicited s) = Some (ok, q')
    /\ forall l, OutputQueue.holds (unsolicited s) l -> OutputQueue.holds q' (if ok then l ++ [(next_output_sequence s, f)] else l)).
  { destruct (OutputQueue.push_spec (next_output_sequence s) f _ _ Hl Hseq) as (ok & q' & Hp & Hh & _). exists ok, q'. split; [done|].
    intros l2 Hl2. destruct (OutputQueue.push_spec (next_output_sequence s) f _ _ Hl2 Hseq) as (ok2 & q2 & Hp2 & Hh2 & _).
    rewrite Hp in Hp2. by injection Hp2 as <- <-. }
  destruct Hex as (ok & q' & -> & Hq). cbn [mbind option_bind].
  assert (Hw : 0 <= u64 (next_output_sequence s + 1) < 2 ^ 64) by (apply wrap_range; lia).
  destruct ok; [|destruct (close_requested s) eqn:Hc]; eexists _, _; split_and!; try done;
    try (split; [by eexists; apply (Hq l)|done]); try (repeat split; done); intros l2 Hl2; split; try done; by apply Hq.
Qed.

Lemma offer_all_snoc frames f s :
  offer_all (frames ++ [f]) s =
  '(n, s1) ← offer_all frames s;
  '(ok, s2) ← offer f s1;
  Some (n + (if (ok : bool) then 1 else 0), s2)%nat.
Proof.
  revert s. induction frames as [|g frames IH]; intros s; simpl.
  - destruct (offer f s) as [[ok s1]|]; simpl; [|done]. by rewrite Nat.add_0_r.
  - destruct (offer g s) as [[ok s1]|]; simpl; [|done]. rewrite IH. destruct (offer_all frames s1) as [[n s2]|]; simpl; [|done].
    destruct (offer f s2) as [[ok2 s3]|]; simpl; [|done]. f_equal. f_equal. lia.
Qed.

(** A session that is still open accepted every frame, in order. *)
Lemma offer_all_open frames s n s' l :
  output_ok s -> offer_all frames s = Some (n, s') -> OutputQueue.holds (unsolicited s) l ->
  close_requested s' = false ->
  n = length frames /\ OutputQueue.holds (unsolicited s') (l ++ numbered (next_output_sequence s) frames).
Proof.
  revert s n l. induction frames as [|f frames IH]; intros s n l Ho Hf Hl Hc; simpl in Hf.
  { injection Hf as <- <-. simpl. by rewrite app_nil_r. }
  destruct (offer_spec f s Ho) as (ok & s1 & Hs1 & Ho1 & _ & Hc1 & Hq). rewrite Hs1 in Hf. cbn [mbind option_bind] in Hf.
  destruct (offer_all frames s1) as [[m s2]|] eqn:Hr; [|done]. simpl in Hf. injection Hf as <- ->.
  destruct (Hq l Hl) as [Hq1 Hq2]. destruct ok.
  - destruct (IH s1 m _ Ho1 Hr Hq1 Hc) as [-> Hh]. split; [done|]. by rewrite Hq2, <- app_assoc in Hh.
  - assert (Hmono : close_requested s1 = true -> close_requested s' = true); [|rewrite Hmono in Hc by done; done].
    clear IH Hs1 Hq Hq1 Hq2 Hc Hc1 Hl Ho. revert s1 m Ho1 Hr. induction frames as [|g frames IH]; intros s1 m Ho1 Hr; simpl in Hr.
    { by injection Hr as <- <-. }
    destruct (offer_spec g s1 Ho1) as (ok & s3 & Hs3 & Ho3 & _ & Hc3 & _). rewrite Hs3 in Hr. cbn [mbind option_bind] in Hr.
    destruct (offer_all frames s3) as [[m3 s4]|] eqn:Hr3; [|done]. simpl in Hr. injection Hr as <- ->.
    intros Hcl. eapply IH; [exact Ho3|exact Hr3|]. rewrite Hc3, Hcl. by destruct ok.
Qed.

(** *** Frames *)

Lemma has_mode_lor a b m : has_mode (Z.lor a b) m = has_mode a m || has_mode b m.
Proof.
  unfold has_mode. rewrite Z.land_lor_distr_l. destruct (Z.eqb_spec (Z.land a m) 0) as [->|H]; [done|]. simpl.
  apply negb_true_iff, Z.eqb_neq. rewrite Z.lor_eq_0_iff. tauto.
Qed.

Lemma collect_modes_spec store excluded l modes :
  (forall i, i ∈ l -> is_Some (store !! i)) ->
  exists modes', collect_modes store excluded l modes = Some modes'
    /\ (forall b, has_mode modes (mode_bit b) = true -> has_mode modes' (mode_bit b) = true)
    /\ forall i s, i ∈ l -> store !! i = Some s -> skipped excluded s = false -> has_mode modes' (mode_bit (wire_mode s)) = true.
Proof.
  revert modes. induction l as [|i l IH]; intros modes Hk; simpl.
  { exists modes. split_and!; [done|done|]. intros i s Hi. by apply elem_of_nil in Hi. }
  destruct (Hk i ltac:(by left)) as [s Hs]. rewrite Hs. cbn [mbind option_bind].
  assert (Hk' : forall i, i ∈ l -> is_Some (store !! i)) by (intros; apply Hk; by right).
  destruct (skipped excluded s) eqn:Hsk.
  { destruct (IH modes Hk') as (m' & Hm & H1 & H2). exists m'. split_and!; [done|done|]. intros j sj [->|Hj]%elem_of_cons; [congruence|by apply H2]. }
  cbn zeta. set (m := Z.lor modes (mode_bit (wire_mode s))).
  assert (Hself : has_mode m (mode_bit (wire_mode s)) = true).
  { unfold m. rewrite has_mode_lor. apply orb_true_iff. right. by destruct (wire_mode s). }
  assert (Hold : forall b, has_mode modes (mode_bit b) = true -> has_mode m (mode_bit b) = true).
  { intros b Hb. unfold m. by rewrite has_mode_lor, Hb. }
  destruct (Z.eqb_spec m (Z.lor (Z.lor kModeResp2 kModeResp3) kModeSbe)) as [Hall|_].
  - exists m. split_and!; [done|done|]. intros j sj _ _ _. rewrite Hall. by destruct (wire_mode sj).
  - destruct (IH m Hk') as (m' & Hm & H1 & H2). exists m'. split_and!; [done|auto|].
    intros j sj [->|Hj]%elem_of_cons; [|by apply H2]. rewrite Hs. intros [= <-] _. auto.
Qed.

Section publishing.
Context (sbe_push : Z -> Z -> bytes -> bytes -> bytes -> bytes).
Context (iterate : gset nat -> list nat) (observed : bool).

(** The frame of a message for a wire mode. *)
Definition literal_frame (channel payload : bytes) (mode : WireMode) : bytes :=
  match mode with
  | sbe_mode => sbe_push 0 0 [] channel payload
  | resp3_mode => header_line ">" 3 ++ bulks [str "message"; channel; payload]
  | _ => command_wire [str "message"; channel; payload]
  end.
Definition pattern_frame (pattern channel payload : bytes) (mode : WireMode) : bytes :=
  match mode with
  | sbe_mode => sbe_push 1 0 pattern channel payload
  | resp3_mode => header_line ">" 4 ++ bulks [str "pmessage"; pattern; channel; payload]
  | _ => command_wire [str "pmessage"; pattern; channel; payload]
  end.

(** The buffers hold the frames of the modes in [modes]. *)
Definition scratch_ok (frame : WireMode -> bytes) (modes : Z) (f : bytes * bytes * bytes) : Prop :=
  (has_mode modes kModeResp2 = true -> f.1.1 = frame resp2_mode) /\
  (has_mode modes kModeResp3 = true -> f.1.2 = frame resp3_mode) /\
  (has_mode modes kModeSbe = true -> f.2 = frame sbe_mode).

Lemma append_literal_body_eq prefix channel payload :
  append_literal_body [] prefix channel payload = Some (prefix ++ bulk channel ++ bulk payload).
Proof. unfold append_literal_body. rewrite append_bulk_string_eq. cbn [mbind option_bind]. by rewrite append_bulk_string_eq, <- app_assoc. Qed.

Lemma append_pattern_body_eq prefix pattern channel payload :
  append_pattern_body [] prefix pattern channel payload = Some (prefix ++ bulk pattern ++ bulk channel ++ bulk payload).
Proof.
  unfold append_pattern_body. rewrite !append_bulk_string_eq. cbn [mbind option_bind]. rewrite append_bulk_string_eq.
  cbn [mbind option_bind]. by rewrite append_bulk_string_eq, <- !app_assoc.
Qed.

(** The prefixes are the headers and the first element; the two versions differ in the first byte. *)
Lemma prefixes :
  kResp2MessagePrefix = header_line "*" 3 ++ bulk (str "message") /\ kResp3MessagePrefix = header_line ">" 3 ++ bulk (str "message")
  /\ kResp2PmessagePrefix = header_line "*" 4 ++ bulk (str "pmessage") /\ kResp3PmessagePrefix = header_line ">" 4 ++ bulk (str "pmessage").
Proof. by vm_compute. Qed.

Lemma flip_message x : <[0%nat := ">"%byte]> (kResp2MessagePrefix ++ x) = kResp3MessagePrefix ++ x.
Proof. done. Qed.
Lemma flip_pmessage x : <[0%nat := ">"%byte]> (kResp2PmessagePrefix ++ x) = kResp3PmessagePrefix ++ x.
Proof. done. Qed.

Lemma literal_frame_eq channel payload :
  literal_frame channel payload resp2_mode = kResp2MessagePrefix ++ bulk channel ++ bulk payload
  /\ literal_frame channel payload resp3_mode = kResp3MessagePrefix ++ bulk channel ++ bulk payload.
Proof.
  destruct prefixes as (-> & -> & _). unfold literal_frame, command_wire.
  rewrite !bulks_cons. change (bulks []) with (@nil byte). rewrite app_nil_r, <- !app_assoc. done.
Qed.

Lemma pattern_frame_eq pattern channel payload :
  pattern_frame pattern channel payload resp2_mode = kResp2PmessagePrefix ++ bulk pattern ++ bulk channel ++ bulk payload
  /\ pattern_frame pattern channel payload resp3_mode = kResp3PmessagePrefix ++ bulk pattern ++ bulk channel ++ bulk payload.
Proof.
  destruct prefixes as (_ & _ & -> & ->). unfold pattern_frame, command_wire.
  rewrite !bulks_cons. change (bulks []) with (@nil byte). rewrite app_nil_r, <- !app_assoc. done.
Qed.

Lemma encode_literal_spec modes channel payload f :
  exists f', encode_literal_frames sbe_push modes channel payload f = Some f' /\ scratch_ok (literal_frame channel payload) modes f'.
Proof.
  destruct f as [[f2 f3] fs]. unfold encode_literal_frames, scratch_ok. rewrite !append_literal_body_eq.
  destruct (literal_frame_eq channel payload) as [-> ->].
  destruct (has_mode modes kModeResp2), (has_mode modes kModeResp3), (has_mode modes kModeSbe); cbn [andb mbind option_bind];
    rewrite ?flip_message; (eexists; split; [reflexivity|]; done).
Qed.

Lemma encode_pattern_spec modes pattern channel payload f :
  exists f', encode_pattern_frames sbe_push modes pattern channel payload f = Some f' /\ scratch_ok (pattern_frame pattern channel payload) modes f'.
Proof.
  destruct f as [[f2 f3] fs]. unfold encode_pattern_frames, scratch_ok. rewrite !append_pattern_body_eq.
  destruct (pattern_frame_eq pattern channel payload) as [-> ->].
  destruct (has_mode modes kModeResp2), (has_mode modes kModeResp3), (has_mode modes kModeSbe); cbn [andb mbind option_bind];
    rewrite ?flip_pmessage; (eexists; split; [reflexivity|]; done).
Qed.

Lemma frame_by_mode_spec frame modes r s :
  scratch_ok frame modes (resp2_scratch_ r, resp3_scratch_ r, sbe_scratch_ r) -> frame undecided = frame resp2_mode ->
  has_mode modes (mode_bit (wire_mode s)) = true -> frame_by_mode modes r (wire_mode s) = Some (frame (wire_mode s)).
Proof.
  intros (H2 & H3 & Hs) Hu Hm. simpl in *. destruct (wire_mode s); simpl in *; rewrite Hm; f_equal; auto. rewrite Hu. auto.
Qed.

(** *** A publication under way

    Between the first delivery and the cleanup: the tables are those of the start,
    every ordinary session is the one of the start after the frames sent to it so far,
    and the sessions to be cleaned up are those that overflowed. *)
Definition no_aggregates (r : PubSubRegistry) : Prop :=
  forall i s, sessions r !! i = Some s -> bluefield_aggregate s = false.

Record progress (r0 r : PubSubRegistry) (sent : nat -> list bytes) (accepted : nat -> nat) (d : Z) : Prop := {
  p_channels : channels_ r = channels_ r0;
  p_patterns : patterns_ r = patterns_ r0;
  p_publish : pattern_publish_ r = pattern_publish_ r0;
  p_sessions : forall j s0, sessions r0 !! j = Some s0 ->
    exists s, sessions r !! j = Some s /\ output_ok s /\ same_subscriptions s0 s
      /\ (close_requested s0 = true -> close_requested s = true)
      /\ (j ∈ overflowed_ r <-> close_requested s0 = false /\ close_requested s = true)
      /\ (bluefield_aggregate s0 = false -> offer_all (sent j) s0 = Some (accepted j, s));
  p_known : forall j, sessions r0 !! j = None -> sessions r !! j = None /\ j ∉ overflowed_ r;
  p_count : no_aggregates r0 -> d = Z.of_nat (sum_list_with accepted (elements (dom (sessions r0))));
}.

Definition same_buffers (r r' : PubSubRegistry) : Prop :=
  resp2_scratch_ r' = resp2_scratch_ r /\ resp3_scratch_ r' = resp3_scratch_ r /\ sbe_scratch_ r' = sbe_scratch_ r.

Lemma sum_list_with_ext {A} (f g : A -> nat) l : (forall x, x ∈ l -> f x = g x) -> sum_list_with f l = sum_list_with g l.
Proof. induction l as [|x l IH]; intros H; simpl; [done|]. rewrite IH, H; [done|by left|]. intros y Hy. apply H. by right. Qed.

Lemma sum_list_with_upd (f g : nat -> nat) i l :
  NoDup l -> i ∈ l -> (forall j, j <> i -> g j = f j) -> (sum_list_with g l + f i = sum_list_with f l + g i)%nat.
Proof.
  intros Hn Hi Hg. induction l as [|x l IH]; [by apply elem_of_nil in Hi|]. apply NoDup_cons in Hn as [Hx Hn].
  apply elem_of_cons in Hi as [->|Hi]; simpl.
  - rewrite (sum_list_with_ext g f l); [lia|]. intros y Hy. apply Hg. by intros ->.
  - rewrite (Hg x) by (by intros ->). specialize (IH Hn Hi). lia.
Qed.

Lemma progress_weaken r0 r sent sent' acc acc' d d' :
  progress r0 r sent acc d ->
  (forall j s0, sessions r0 !! j = Some s0 -> bluefield_aggregate s0 = false -> sent' j = sent j /\ acc' j = acc j) ->
  (no_aggregates r0 -> d' = d) -> progress r0 r sent' acc' d'.
Proof.
  intros [H1 H2 H3 H4 H5 H6] Hs Hd. split; auto.
  - intros j s0 Hj. destruct (H4 j s0 Hj) as (s & A1 & A2 & A3 & A4 & A5 & A6). exists s. split_and!; auto.
    intros Ha. destruct (Hs j s0 Hj Ha) as [-> ->]. auto.
  - intros Hno. rewrite Hd, H6 by done. f_equal. apply sum_list_with_ext. intros j Hj%elem_of_elements%elem_of_dom.
    destruct Hj as [s0 Hj]. symmetry. apply (Hs j s0 Hj). by eapply Hno.
Qed.

Definition upd {A} (f : nat -> A) (i : nat) (x : A) : nat -> A := fun j => if decide (j = i) then x else f j.

Lemma enqueue_spec r0 r sent acc d i s0 f :
  progress r0 r sent acc d -> sessions r0 !! i = Some s0 ->
  exists (ok : bool) r', enqueue i f r = Some (ok, r') /\ same_buffers r r' /\ aggregate_delivered_ r' = aggregate_delivered_ r
    /\ progress r0 r' (upd sent i (sent i ++ [f])) (upd acc i (acc i + (if ok then 1 else 0))%nat) (if ok then d + 1 else d).
Proof.
  intros [H1 H2 H3 H4 H5 H6] Hi. destruct (H4 i s0 Hi) as (s & A1 & A2 & A3 & A4 & A5 & A6). unfold enqueue. rewrite A1. cbn [mbind option_bind].
  destruct (offer_spec f s A2) as (ok & s' & Hoff & Ho' & Hsub & Hc & _). rewrite Hoff. cbn [mbind option_bind].
  set (r1 := with_session i s' r). set (r' := if negb ok && negb (close_requested s) then with_overflowed (overflowed_ r1 ++ [i]) r1 else r1).
  assert (Hr' : channels_ r' = channels_ r /\ patterns_ r' = patterns_ r /\ pattern_publish_ r' = pattern_publish_ r
    /\ sessions r' = <[i := s']> (sessions r) /\ aggregate_delivered_ r' = aggregate_delivered_ r /\ same_buffers r r'
    /\ overflowed_ r' = if negb ok && negb (close_requested s) then overflowed_ r ++ [i] else overflowed_ r).
  { unfold r', r1, same_buffers. destruct (negb ok && negb (close_requested s)); by split_and!. }
  clearbody r'. destruct Hr' as (R1 & R2 & R3 & R4 & R5 & R6 & R7). exists ok, r'. split_and!; [done|done|done|].
  split; try congruence.
  - intros j sj Hj. rewrite R4. unfold upd. destruct (decide (j = i)) as [->|Hne].
    + assert (sj = s0) as -> by congruence. exists s'. rewrite lookup_insert_eq. split_and!; [done|done|by etrans| | |].
      * intros Hcl. rewrite Hc, A4 by done. by destruct ok.
      * rewrite R7, Hc. destruct ok; simpl; [exact A5|]. destruct (close_requested s) eqn:Hs; simpl; [exact A5|].
        rewrite elem_of_app, list_elem_of_singleton. split; [|by right]. intros _. split; [|done].
        apply not_true_iff_false. intros Hx. by discriminate (A4 Hx).
      * intros Ha. rewrite offer_all_snoc, A6 by done. cbn [mbind option_bind]. rewrite Hoff. done.
    + destruct (H4 j sj Hj) as (t & B1 & B2 & B3 & B4 & B5 & B6). exists t. rewrite lookup_insert_ne by done. split_and!; auto.
      rewrite R7. destruct (negb ok && _); [|done]. rewrite elem_of_app, list_elem_of_singleton. naive_solver.
  - intros j Hj. destruct (H5 j Hj) as [B1 B2]. assert (j <> i) by congruence. rewrite R4, lookup_insert_ne, R7 by done. split; [done|].
    destruct (negb ok && _); [|done]. rewrite elem_of_app, list_elem_of_singleton. naive_solver.
  - intros Hno. specialize (H6 Hno).
    assert (Hin : i ∈ elements (dom (sessions r0))) by (apply elem_of_elements, elem_of_dom; by exists s0).
    pose proof (sum_list_with_upd acc (upd acc i (acc i + (if ok then 1 else 0))%nat) i _ (NoDup_elements _) Hin) as Hsum.
    assert (Hu : forall j, j <> i -> upd acc i (acc i + (if ok then 1 else 0))%nat j = acc j) by (intros; unfold upd; by rewrite decide_False).
    specialize (Hsum Hu). assert (Hii : upd acc i (acc i + (if ok then 1 else 0))%nat i = (acc i + (if ok then 1 else 0))%nat)
      by (unfold upd; by rewrite decide_True).
    rewrite Hii in Hsum. destruct ok; lia.
Qed.

(** The frame sent to session [j] of a set, if it is not excluded. *)
Definition addressed (r0 : PubSubRegistry) (excluded : Z) (l : list nat) (frame : WireMode -> bytes) (j : nat) : list bytes :=
  match sessions r0 !! j with
  | Some s => if decide (j ∈ l) then (if skipped excluded s then [] else [frame (wire_mode s)]) else []
  | None => []
  end.

Lemma skipped_same excluded s s' : same_subscriptions s s' -> skipped excluded s' = skipped excluded s.
Proof. intros (_ & _ & He & Ha & _). unfold skipped. by rewrite He, Ha. Qed.

Lemma deliver_to_set_spec r0 excluded frame modes l r sent acc d :
  progress r0 r sent acc d -> NoDup l -> (forall i, i ∈ l -> is_Some (sessions r0 !! i)) ->
  scratch_ok frame modes (resp2_scratch_ r, resp3_scratch_ r, sbe_scratch_ r) -> frame undecided = frame resp2_mode ->
  (forall i s, i ∈ l -> sessions r0 !! i = Some s -> skipped excluded s = false -> has_mode modes (mode_bit (wire_mode s)) = true) ->
  exists d' r' acc', deliver_to_set l modes excluded r d = Some (d', r') /\ aggregate_delivered_ r' = aggregate_delivered_ r
    /\ progress r0 r' (fun j => sent j ++ addressed r0 excluded l frame j) acc' d'.
Proof.
  intros Hp Hnd Hk Hscr Hu Hm. revert r sent acc d Hp Hscr. induction l as [|i l IH]; intros r sent acc d Hp Hscr; simpl.
  { exists d, r, acc. split_and!; [done|done|]. eapply progress_weaken; [done| |done]. intros j s0 Hj _. split; [|done].
    unfold addressed. rewrite Hj, decide_False by apply not_elem_of_nil. apply app_nil_r. }
  apply NoDup_cons in Hnd as [Hnot Hnd]. destruct (Hk i ltac:(by left)) as [s0 Hs0].
  assert (IH' := IH Hnd (fun j Hj => Hk j (list_elem_of_further _ _ _ Hj)) (fun j s Hj => Hm j s (list_elem_of_further _ _ _ Hj))). clear IH.
  destruct (p_sessions _ _ _ _ _ Hp i s0 Hs0) as (s & A1 & A2 & A3 & _). rewrite A1. cbn [mbind option_bind].
  rewrite (skipped_same _ _ _ A3). destruct (skipped excluded s0) eqn:Hsk.
  - destruct (IH' r sent acc d Hp Hscr) as (d' & r' & acc' & -> & Hd & Hp'). exists d', r', acc'. split_and!; [done|done|].
    eapply progress_weaken; [done| |done]. intros j sj Hj _. split; [|done]. f_equal. unfold addressed. rewrite Hj.
    destruct (decide (j = i)) as [->|Hne].
    + rewrite decide_True by (by left). rewrite decide_False by done. assert (sj = s0) as -> by congruence. by rewrite Hsk.
    + apply decide_ext. rewrite elem_of_cons. naive_solver.
  - pose proof (Hm i s0 ltac:(by left) Hs0 Hsk) as Hmode. pose proof A3 as (Hw & _). rewrite Hw.
    rewrite (frame_by_mode_spec frame modes r s0 Hscr Hu Hmode).
    destruct (enqueue_spec r0 r sent acc d i s0 (frame (wire_mode s0)) Hp Hs0) as (ok & r1 & -> & (B1 & B2 & B3) & Bd & Hp1).
    cbn [mbind option_bind]. destruct (IH' r1 _ _ _ Hp1) as (d' & r' & acc' & -> & Hd & Hp'); [by rewrite B1, B2, B3|].
    exists d', r', acc'. split_and!; [done|congruence|]. eapply progress_weaken; [done| |done]. intros j sj Hj _. split; [|done].
    unfold addressed, upd. rewrite Hj. destruct (decide (j = i)) as [->|Hne].
    + rewrite decide_True by (by left). rewrite decide_False by done. assert (sj = s0) as -> by congruence.
      by rewrite Hsk, app_nil_r.
    + f_equal. apply decide_ext. rewrite elem_of_cons. naive_solver.
Qed.

Lemma progress_ext r0 r r' sent acc d :
  progress r0 r sent acc d -> channels_ r' = channels_ r -> patterns_ r' = patterns_ r -> pattern_publish_ r' = pattern_publish_ r ->
  sessions r' = sessions r -> overflowed_ r' = overflowed_ r -> progress r0 r' sent acc d.
Proof. intros [H1 H2 H3 H4 H5 H6] E1 E2 E3 E4 E5. split; [congruence..| | |done]; by rewrite E4, E5. Qed.

(** Aggregates are served apart: ordinary sessions do not notice. *)
Lemma deliver_aggregates_spec r0 l subscription pattern channel payload excluded encoded r sent acc d :
  progress r0 r sent acc d -> (forall i, i ∈ l -> is_Some (sessions r0 !! i)) ->
  exists encoded' d' r', deliver_aggregates sbe_push l subscription pattern channel payload excluded encoded r d = Some (encoded', d', r')
    /\ progress r0 r' sent acc d'.
Proof.
  revert encoded r d. induction l as [|i l IH]; intros encoded r d Hp Hk; cbn [deliver_aggregates]; [by exists encoded, d, r|].
  destruct (Hk i ltac:(by left)) as [s0 Hs0]. assert (Hk' : forall i, i ∈ l -> is_Some (sessions r0 !! i)) by (intros; apply Hk; by right).
  destruct (p_sessions _ _ _ _ _ Hp i s0 Hs0) as (s & A1 & A2 & A3 & _). rewrite A1. cbn [mbind option_bind].
  destruct (bluefield_aggregate s) eqn:Ha; cbn [negb orb]; [|by apply IH].
  assert (Ha0 : bluefield_aggregate s0 = true) by (destruct A3 as (_ & _ & _ & Hx & _); congruence).
  assert (Hany : forall r' d' d'', progress r0 r' sent acc d' -> progress r0 r' sent acc d'').
  { intros r' d' d'' Hp'. eapply progress_weaken; [done|done|]. intros Hno. apply Hno in Hs0. congruence. }
  destruct (close_requested s || _); [by apply IH|]. destruct (_ =? 0); [by apply IH|].
  case_decide as Hin; [apply IH; eauto|].
  set (r1 := with_delivered _ r). assert (Hp1 : progress r0 r1 sent acc d) by (by eapply progress_ext).
  assert (exists r2, (if encoded then Some r1 else f ← encode_literal_frames sbe_push kModeSbe channel payload
      (resp2_scratch_ r1, resp3_scratch_ r1, sbe_scratch_ r1); Some (with_scratch f r1)) = Some r2 /\ progress r0 r2 sent acc d) as (r2 & -> & Hp2).
  { destruct encoded; [by exists r1|]. destruct (encode_literal_spec kModeSbe channel payload (resp2_scratch_ r1, resp3_scratch_ r1, sbe_scratch_ r1)) as (f & -> & _).
    eexists. split; [done|]. by eapply progress_ext. }
  cbn [mbind option_bind].
  destruct (enqueue_spec r0 r2 sent acc d i s0 (sbe_scratch_ r2) Hp2 Hs0) as (ok & r3 & -> & _ & _ & Hp3). cbn [mbind option_bind].
  apply IH; [|done]. eapply Hany, progress_weaken; [exact Hp3| |done]. intros j sj Hj Haj. unfold upd.
  rewrite !decide_False by (intros ->; congruence). done.
Qed.

Hypothesis iterate_elements : forall X, iterate X ≡ₚ elements X.

Lemma publish_to_spec r0 (set : gset nat) subscription (pattern : bool) channel payload excluded encoded r sent acc d :
  progress r0 r sent acc d -> (forall i, i ∈ set -> is_Some (sessions r0 !! i)) ->
  let frame := if pattern then pattern_frame subscription channel payload else literal_frame channel payload in
  exists encoded' d' r' acc', publish_to sbe_push iterate set subscription pattern channel payload excluded encoded r d = Some (encoded', d', r')
    /\ progress r0 r' (fun j => sent j ++ addressed r0 excluded (elements set) frame j) acc' d'.
Proof.
  intros Hp Hk frame. unfold publish_to.
  assert (Hin : forall i, i ∈ iterate set <-> i ∈ set) by (intros i; by rewrite iterate_elements, elem_of_elements).
  assert (Hnd : NoDup (iterate set)) by (rewrite iterate_elements; apply NoDup_elements).
  assert (Hk' : forall i, i ∈ iterate set -> is_Some (sessions r0 !! i)) by (intros i Hi; by apply Hk, Hin).
  assert (Hsame : forall i s0, sessions r0 !! i = Some s0 -> exists s, sessions r !! i = Some s /\ same_subscriptions s0 s).
  { intros i s0 Hi. destruct (p_sessions _ _ _ _ _ Hp i s0 Hi) as (s & B1 & _ & B3 & _). by exists s. }
  destruct (collect_modes_spec (sessions r) excluded (iterate set) 0) as (modes & -> & _ & Hmodes).
  { intros i Hi. destruct (Hk' i Hi) as [s0 Hs0]. destruct (Hsame i s0 Hs0) as (s & -> & _). done. }
  cbn [mbind option_bind].
  assert (Hmode0 : forall i s0, i ∈ iterate set -> sessions r0 !! i = Some s0 -> skipped excluded s0 = false -> has_mode modes (mode_bit (wire_mode s0)) = true).
  { intros i s0 Hi Hs0 Hsk. destruct (Hsame i s0 Hs0) as (s & Hs & Hss). pose proof Hss as (Hw & _). rewrite <- Hw.
    apply (Hmodes i s); [done|done|]. by rewrite (skipped_same _ _ _ Hss). }
  assert (Haddr : forall j, addressed r0 excluded (iterate set) frame j = addressed r0 excluded (elements set) frame j).
  { intros j. unfold addressed. destruct (sessions r0 !! j); [|done]. apply decide_ext. by rewrite Hin, elem_of_elements. }
  assert (exists d1 r1 acc1, (if negb (modes =? 0) then
       f ← (if pattern then encode_pattern_frames sbe_push modes subscription channel payload (resp2_scratch_ r, resp3_scratch_ r, sbe_scratch_ r)
            else encode_literal_frames sbe_push modes channel payload (resp2_scratch_ r, resp3_scratch_ r, sbe_scratch_ r));
       deliver_to_set (iterate set) modes excluded (with_scratch f r) d else Some (d, r)) = Some (d1, r1)
     /\ progress r0 r1 (fun j => sent j ++ addressed r0 excluded (elements set) frame j) acc1 d1) as (d1 & r1 & acc1 & -> & Hp1).
  - destruct (Z.eqb_spec modes 0) as [->|Hz]; cbn [negb].
    + exists d, r, acc. split; [done|]. eapply progress_weaken; [done| |done]. intros j s0 Hj _. split; [|done].
      rewrite <- Haddr. unfold addressed. rewrite Hj. destruct (decide (j ∈ iterate set)) as [Hd|]; [|apply app_nil_r].
      destruct (skipped excluded s0) eqn:Hsk; [apply app_nil_r|]. by rewrite (Hmode0 j s0 Hd Hj Hsk) || (specialize (Hmode0 j s0 Hd Hj Hsk); by destruct (wire_mode s0)).
    + assert (exists f, (if pattern then encode_pattern_frames sbe_push modes subscription channel payload (resp2_scratch_ r, resp3_scratch_ r, sbe_scratch_ r)
            else encode_literal_frames sbe_push modes channel payload (resp2_scratch_ r, resp3_scratch_ r, sbe_scratch_ r)) = Some f
            /\ scratch_ok frame modes f) as (f & -> & Hf) by (unfold frame; destruct pattern; [apply encode_pattern_spec|apply encode_literal_spec]).
      cbn [mbind option_bind].
      destruct (deliver_to_set_spec r0 excluded frame modes (iterate set) (with_scratch f r) sent acc d) as (d1 & r1 & acc1 & He & _ & Hp1); try done.
      * by eapply progress_ext.
      * unfold frame. by destruct pattern.
      * exists d1, r1, acc1. split; [done|]. eapply progress_weaken; [done| |done]. intros j s0 Hj _. cbn beta. by rewrite Haddr.
  - cbn [mbind option_bind]. destruct (deliver_aggregates_spec r0 (iterate set) subscription pattern channel payload excluded encoded r1 _ _ d1 Hp1 Hk') as (e2 & d2 & r2 & -> & Hp2).
    by exists e2, d2, r2, acc1.
Qed.

(** The frames a publication sends to session [j]: the message if it is subscribed to
    the channel, then one message for every matching pattern it is subscribed to. *)
Definition pattern_frames (r0 : PubSubRegistry) (channel payload : bytes) (excluded : Z) (j : nat) (entries : list (bytes * PatternKind)) : list bytes :=
  concat (map (fun e : bytes * PatternKind =>
    if default false (PubSub.glob_match e.1 channel)
    then addressed r0 excluded (elements (subs true e.1 r0)) (pattern_frame e.1 channel payload) j else []) entries).
Definition frames_for (r0 : PubSubRegistry) (channel payload : bytes) (excluded : Z) (j : nat) : list bytes :=
  addressed r0 excluded (elements (subs false channel r0)) (literal_frame channel payload) j
  ++ pattern_frames r0 channel payload excluded j (pattern_publish_ r0).

Lemma addressed_nil r0 excluded frame j : addressed r0 excluded [] frame j = [].
Proof. unfold addressed. destruct (sessions r0 !! j); [|done]. by rewrite decide_False by apply not_elem_of_nil. Qed.

Lemma publish_patterns_spec r0 entries channel payload excluded encoded r sent acc d :
  registry_ok r0 -> progress r0 r sent acc d -> Forall (fun e => e.2 = PubSub.classify_pattern e.1) entries ->
  exists encoded' d' r' acc', publish_patterns sbe_push iterate entries channel payload excluded encoded r d = Some (encoded', d', r')
    /\ progress r0 r' (fun j => sent j ++ pattern_frames r0 channel payload excluded j entries) acc' d'.
Proof.
  intros Hr. revert encoded r sent acc d. induction entries as [|[p k] entries IH]; intros encoded r sent acc d Hp Hk; simpl.
  { exists encoded, d, r, acc. split; [done|]. eapply progress_weaken; [done| |done]. intros. by rewrite app_nil_r. }
  inversion_clear Hk as [|? ? Hk1 Hk2]. simpl in Hk1. subst k. change (PubSub.match_classified (PubSub.classify_pattern p) p channel) with (PubSub.glob_match p channel).
  destruct (PubSub.glob_match_spec p channel) as (m & Hm & _). rewrite Hm. cbn [mbind option_bind].
  assert (Hskip : forall frames, (forall j, frames j = []) -> exists encoded' d' r' acc',
    publish_patterns sbe_push iterate entries channel payload excluded encoded r d = Some (encoded', d', r')
    /\ progress r0 r' (fun j => sent j ++ frames j ++ pattern_frames r0 channel payload excluded j entries) acc' d').
  { intros frames Hf. destruct (IH encoded r sent acc d Hp Hk2) as (e' & d' & r' & acc' & -> & Hp'). exists e', d', r', acc'. split; [done|].
    eapply progress_weaken; [done| |done]. intros. by rewrite Hf. }
  assert (Hhead : forall j, pattern_frames r0 channel payload excluded j ((p, PubSub.classify_pattern p) :: entries) =
    (if m then addressed r0 excluded (elements (subs true p r0)) (pattern_frame p channel payload) j else [])
    ++ pattern_frames r0 channel payload excluded j entries).
  { intros j. unfold pattern_frames. simpl. by rewrite Hm. }
  assert (Hgoal : forall x : option (bool * Z * PubSubRegistry), (exists encoded' d' r' acc', x = Some (encoded', d', r') /\ progress r0 r'
     (fun j => sent j ++ (if m then addressed r0 excluded (elements (subs true p r0)) (pattern_frame p channel payload) j else [])
                 ++ pattern_frames r0 channel payload excluded j entries) acc' d') ->
     exists encoded' d' r' acc', x = Some (encoded', d', r') /\ progress r0 r'
     (fun j => sent j ++ pattern_frames r0 channel payload excluded j ((p, PubSub.classify_pattern p) :: entries)) acc' d').
  { intros x (e' & d' & r' & acc' & -> & Hp'). exists e', d', r', acc'. split; [done|]. eapply progress_weaken; [done| |done]. intros. by rewrite Hhead. }
  apply Hgoal. destruct m; simpl negb; cbn match; [|by apply (Hskip (fun _ => []))].
  rewrite (p_patterns _ _ _ _ _ Hp). unfold subs at 1. simpl table_of. destruct (patterns_ r0 !! p) as [set|] eqn:Hl; simpl default.
  2:{ apply (Hskip (fun j => _)). intros j. change (elements ∅) with (@nil nat). apply addressed_nil. }
  case_decide as He; [subst set; by destruct (t_nonempty _ (r_tables _ Hr) true p _ Hl)|].
  destruct (publish_to_spec r0 set p true channel payload excluded encoded r sent acc d Hp) as (e1 & d1 & r1 & acc1 & -> & Hp1).
  { intros i Hi. apply (r_known _ Hr true p). by rewrite (subs_lookup true p r0 set Hl). }
  cbn [mbind option_bind]. destruct (IH e1 r1 _ _ d1 Hp1 Hk2) as (e' & d' & r' & acc' & -> & Hp'). exists e', d', r', acc'. split; [done|].
  eapply progress_weaken; [done| |done]. intros j s0 _ _. by rewrite app_assoc.
Qed.

(** *** After the deliveries *)

Lemma progress_ok r0 r sent acc d : registry_ok r0 -> progress r0 r sent acc d -> registry_ok r.
Proof.
  intros [T K N O] [H1 H2 H3 H4 H5 _]. assert (Ht : forall b, table_of b r = table_of b r0) by (by intros []).
  assert (Hs : forall b n, subs b n r = subs b n r0) by (intros; unfold subs; by rewrite Ht).
  assert (Hback : forall j s, sessions r !! j = Some s -> exists s0, sessions r0 !! j = Some s0 /\ output_ok s /\ same_subscriptions s0 s).
  { intros j s Hj. destruct (sessions r0 !! j) as [s0|] eqn:Hj0; [|destruct (H5 j Hj0); congruence].
    destruct (H4 j s0 Hj0) as (s' & A1 & A2 & A3 & _). exists s0. assert (s' = s) as -> by congruence. done. }
  split.
  - destruct T as [T1 T2 T3 T4]. split; [intros b; rewrite Ht; apply T1|by rewrite H3| |by rewrite H3]. intros p. by rewrite H3, H2.
  - intros b n i. rewrite Hs. intros Hi. destruct (K b n i Hi) as [s0 Hi0]. destruct (H4 i s0 Hi0) as (s & -> & _). done.
  - intros i s b Hi. destruct (Hback i s Hi) as (s0 & Hi0 & _ & (_ & Hn & _)). destruct (N i s0 b Hi0) as (A1 & A2 & A3). destruct (Hn b) as [E1 E2].
    unfold names_ok. rewrite E1, E2. split_and!; [done|done|]. intros n. by rewrite Hs.
  - intros i s Hi. by destruct (Hback i s Hi) as (s0 & _ & ? & _).
Qed.

(** A session that was dropped: no subscription, nothing queued. *)
Definition dropped (s s' : PubSubSession) : Prop :=
  (forall b, names_of b s' = []) /\ OutputQueue.is_empty (unsolicited s') = true /\ has_unsolicited_front s' = false
  /\ wire_mode s' = wire_mode s /\ close_requested s' = close_requested s.

Lemma remove_all_spec l r :
  registry_ok r -> (forall i, i ∈ l -> is_Some (sessions r !! i)) ->
  exists r', remove_all observed l r = Some r' /\ registry_ok r' /\ dom (sessions r') = dom (sessions r)
    /\ (forall j, j ∉ l -> sessions r' !! j = sessions r !! j)
    /\ (forall j s, j ∈ l -> sessions r !! j = Some s -> exists s', sessions r' !! j = Some s' /\ dropped s s').
Proof.
  revert r. induction l as [|i l IH]; intros r Hr Hk; simpl.
  { exists r. split_and!; try done. intros j s Hj. by apply elem_of_nil in Hj. }
  destruct (Hk i ltac:(by left)) as [s Hs].
  destruct (remove_spec observed i r s Hr Hs) as (r1 & s1 & -> & Hr1 & Hses & _ & _ & Hq & Hw & Hc & _ & Hf & Hn). cbn [mbind option_bind].
  assert (Hd1 : dropped s s1) by (unfold dropped; by rewrite Hq).
  destruct (IH r1 Hr1) as (r2 & -> & Hr2 & Hdom & Hout & Hin).
  { intros j Hj. rewrite Hses. destruct (decide (j = i)) as [->|]; [by rewrite lookup_insert_eq|]. rewrite lookup_insert_ne by done. apply Hk. by right. }
  exists r2. split_and!; [done|done| | |].
  - rewrite Hdom, Hses. apply dom_insert_lookup_L. by exists s.
  - intros j [Hj1 Hj2]%not_elem_of_cons. rewrite Hout, Hses, lookup_insert_ne by done. done.
  - intros j sj Hj Hsj. destruct (decide (j ∈ l)) as [Hl|Hl].
    + destruct (decide (j = i)) as [->|Hne].
      * assert (sj = s) as -> by congruence. destruct (Hin i s1 Hl) as (s' & Hs' & D1 & D2 & D3 & D4 & D5); [by rewrite Hses, lookup_insert_eq|].
        exists s'. split; [done|]. unfold dropped. split_and!; [done|done|done|congruence|congruence].
      * apply (Hin j sj Hl). by rewrite Hses, lookup_insert_ne.
    + apply elem_of_cons in Hj as [->|]; [|done]. assert (sj = s) as -> by congruence. exists s1. by rewrite Hout, Hses, lookup_insert_eq.
Qed.

Lemma progress_start r0 : registry_ok r0 -> overflowed_ r0 = [] -> progress r0 (with_delivered ∅ r0) (fun _ => []) (fun _ => 0%nat) 0.
Proof.
  intros Hr Ho. split; try done.
  - intros j s0 Hj. exists s0. simpl. rewrite Ho. split_and!; try done; [by eapply r_output|].
    split; [intros H; by apply elem_of_nil in H|]. intros [H1 H2]. congruence.
  - intros j Hj. simpl. rewrite Ho. split; [done|apply not_elem_of_nil].
  - intros _. induction (elements (dom (sessions r0))) as [|x l IH]; simpl; lia.
Qed.

Lemma publish_spec channel payload excluded r :
  registry_ok r -> overflowed_ r = [] ->
  exists n r' accepted, publish sbe_push iterate observed channel payload excluded r = Some (n, r')
    /\ registry_ok r' /\ overflowed_ r' = [] /\ dom (sessions r') = dom (sessions r)
    /\ (forall j s, sessions r !! j = Some s -> bluefield_aggregate s = false ->
          exists s1 s', offer_all (frames_for r channel payload excluded j) s = Some (accepted j, s1) /\ sessions r' !! j = Some s'
            /\ if close_requested s1 && negb (close_requested s) then dropped s1 s' else s' = s1)
    /\ (no_aggregates r -> n = Z.of_nat (sum_list_with accepted (elements (dom (sessions r))))).
Proof.
  intros Hr Ho. unfold publish. pose proof (progress_start r Hr Ho) as Hp0. cbn zeta. set (ra := with_delivered ∅ r) in *.
  assert (exists e1 d1 r1 acc1, (match channels_ ra !! channel with
     | Some subscribers => if decide (subscribers = ∅) then Some (false, 0, ra)
         else publish_to sbe_push iterate subscribers channel false channel payload excluded false ra 0
     | None => Some (false, 0, ra) end) = Some (e1, d1, r1)
     /\ progress r r1 (addressed r excluded (elements (subs false channel r)) (literal_frame channel payload)) acc1 d1) as (e1 & d1 & r1 & acc1 & -> & Hp1).
  { change (channels_ ra) with (table_of false r). unfold subs. destruct (table_of false r !! channel) as [set|] eqn:Hl; simpl default.
    2:{ exists false, 0, ra, (fun _ => 0%nat). split; [done|]. eapply progress_weaken; [exact Hp0| |done].
        intros. change (elements ∅) with (@nil nat). by rewrite addressed_nil. }
    case_decide as He; [subst set; by destruct (t_nonempty _ (r_tables _ Hr) false channel _ Hl)|].
    destruct (publish_to_spec r set channel false channel payload excluded false ra _ _ 0 Hp0) as (e1 & d1 & r1 & acc1 & -> & Hp1).
    { intros i Hi. apply (r_known _ Hr false channel). by rewrite (subs_lookup false channel r set Hl). }
    by exists e1, d1, r1, acc1. }
  cbn [mbind option_bind]. rewrite (p_publish _ _ _ _ _ Hp1).
  destruct (publish_patterns_spec r (pattern_publish_ r) channel payload excluded e1 r1 _ acc1 d1 Hr Hp1 (t_publish_kinds _ (r_tables _ Hr)))
    as (e2 & d2 & r2 & acc2 & -> & Hp2). cbn [mbind option_bind]. unfold cleanup_overflowed.
  pose proof (progress_ok _ _ _ _ _ Hr Hp2) as Hr2.
  assert (Hknown : forall j s, sessions r2 !! j = Some s -> is_Some (sessions r !! j)).
  { intros j s Hj. destruct (sessions r !! j) eqn:E; [done|]. destruct (p_known _ _ _ _ _ Hp2 j E). congruence. }
  destruct (remove_all_spec (overflowed_ r2) r2 Hr2) as (r3 & -> & Hr3 & Hdom & Hout & Hin).
  { intros i Hi. destruct (sessions r !! i) as [s0|] eqn:E; [|by destruct (p_known _ _ _ _ _ Hp2 i E)].
    destruct (p_sessions _ _ _ _ _ Hp2 i s0 E) as (s & -> & _). done. }
  cbn [mbind option_bind]. exists d2, (with_delivered ∅ (with_overflowed [] r3)), acc2. split_and!; [done| |done| | |].
  - destruct Hr3 as [T3 K3 N3 O3]. split; [destruct T3; by split|done|done|done].
  - simpl. rewrite Hdom. apply set_eq. intros j. rewrite !elem_of_dom. split.
    + intros [s Hj]. by eapply Hknown.
    + intros [s0 Hj]. destruct (p_sessions _ _ _ _ _ Hp2 j s0 Hj) as (s & -> & _). done.
  - intros j s0 Hj Ha. destruct (p_sessions _ _ _ _ _ Hp2 j s0 Hj) as (s & A1 & _ & _ & A4 & A5 & A6).
    exists s. simpl sessions. destruct (close_requested s0) eqn:Hc0, (close_requested s) eqn:Hc; simpl.
    + exists s. rewrite Hout by naive_solver. split_and!; [by apply A6|done|done].
    + by specialize (A4 eq_refl).
    + destruct (Hin j s) as (s' & Hs' & Hd); [naive_solver|done|]. exists s'. split_and!; [by apply A6|done|done].
    + exists s. rewrite Hout by naive_solver. split_and!; [by apply A6|done|done].
  - apply Hp2.
Qed.
End publishing.

(** ** SUBSCRIBE and UNSUBSCRIBE *)

Section subscriptions.
Context (sbe_push : Z -> Z -> bytes -> bytes -> bytes -> bytes) (observed : bool).

Lemma unsubscribe_spec b i names r s out :
  registry_ok r -> sessions r !! i = Some s ->
  exists r' s', unsubscribe sbe_push observed b i names r out =
      Some (r', out ++ match names with
                       | [] => match names_of b s with
                               | [] => ack_frame sbe_push (wire_mode s) b (unsubscribe_kind b) None (subscription_count s)
                               | l => unsubscribe_all_acks sbe_push (wire_mode s) b (length (names_of (negb b) s)) l
                               end
                       | _ => unsubscribe_acks sbe_push (wire_mode s) b (length (names_of (negb b) s)) (names_of b s) names
                       end)
    /\ changed b i s r (match names with [] => [] | _ => unsubscribed (names_of b s) names end) r' s'.
Proof.
  intros Hr Hs. unfold unsubscribe. rewrite Hs. cbn [mbind option_bind]. destruct names as [|n names]; [|by apply unsubscribe_names_spec].
  destruct (Nat.eqb_spec (length (names_of b s)) 0) as [Hz|Hz].
  - apply nil_length_inv in Hz. rewrite (append_ack_eq _ _ _ b) by (by destruct b). cbn [mbind option_bind]. exists r, s. rewrite Hz.
    split; [done|]. pose proof (changed_refl b i s r Hr Hs) as Hc. by rewrite Hz in Hc.
  - destruct (r_names _ Hr i s b Hs) as (Hnd & Hc & Hlink).
    destruct (unsubscribe_all_spec sbe_push observed b i s r (names_of b s) r s out Hr Hs Hnd) as (r1 & s1 & -> & Hl); [done| |].
    { split; try done; [apply Hr|by rewrite insert_id| |].
      - intros b'. case_decide; [by subst|done].
      - intros b' n. case_decide as Hd; [|done]. destruct Hd as [-> Hd]. rewrite Hlink in Hd. set_solver. }
    cbn [mbind option_bind]. rewrite (lv_sessions _ _ _ _ _ _ _ Hl), lookup_insert_eq. cbn [mbind option_bind].
    eexists _, _. split; [|by eapply leaving_done]. destruct (names_of b s) eqn:E; [done|]. reflexivity.
Qed.

(** *** What the changes mean for the tables *)

Lemma changed_subs b i s r names r' s' :
  registry_ok r -> sessions r !! i = Some s -> changed b i s r names r' s' ->
  forall b' n j, j ∈ subs b' n r' <-> if decide (j = i /\ b' = b) then n ∈ names else j ∈ subs b' n r.
Proof.
  intros Hr Hs Hc. pose proof (changed_lookup _ _ _ _ _ _ _ Hc) as Hs'. destruct Hc as (Hr' & Hses & _ & _ & Hn1 & Hn2).
  intros b' n j. destruct (decide (j = i)) as [->|Hne].
  - destruct (r_names _ Hr' i s' b' Hs') as (_ & _ & <-). destruct (decide (b' = b)) as [->|Hb].
    + rewrite decide_True by done. by rewrite Hn1.
    + rewrite decide_False by naive_solver. assert (b' = negb b) as -> by (by destruct b, b'). rewrite Hn2.
      by destruct (r_names _ Hr i s (negb b) Hs) as (_ & _ & ->).
  - rewrite decide_False by naive_solver.
    assert (Hj : sessions r' !! j = sessions r !! j) by (rewrite Hses; by apply lookup_insert_ne). split; intros Hin.
    + destruct (r_known _ Hr' _ _ _ Hin) as [t Ht]. destruct (r_names _ Hr' j t b' Ht) as (_ & _ & Hl).
      rewrite Hj in Ht. destruct (r_names _ Hr j t b' Ht) as (_ & _ & Hl0). by rewrite <- Hl0, Hl.
    + destruct (r_known _ Hr _ _ _ Hin) as [t Ht]. destruct (r_names _ Hr j t b' Ht) as (_ & _ & Hl).
      rewrite <- Hj in Ht. destruct (r_names _ Hr' j t b' Ht) as (_ & _ & Hl0). by rewrite <- Hl0, Hl.
Qed.

Lemma elem_of_subscribed l names n : n ∈ subscribed l names <-> n ∈ l \/ n ∈ names.
Proof.
  unfold subscribed. revert l. induction names as [|m names IH]; intros l; simpl; [set_solver|]. rewrite IH. unfold add_name.
  case_decide; set_solver.
Qed.

Lemma elem_of_unsubscribed l names n : NoDup l -> n ∈ unsubscribed l names <-> n ∈ l /\ n ∉ names.
Proof.
  unfold unsubscribed. revert l. induction names as [|m names IH]; intros l Hl; simpl; [set_solver|].
  destruct (erase_name_spec l m Hl) as (H1 & H2 & _). rewrite IH, H2 by done. set_solver.
Qed.

(** SUBSCRIBE adds exactly the names to the subscriptions of the session, and
    UNSUBSCRIBE takes away exactly the names given, or all of them when none is given;
    the subscriptions of the other kind and of the other sessions stay.  Each name is
    acknowledged in order with the number of subscriptions left at that point. *)
Theorem subscriptions_exact b i names r s out :
  registry_ok r -> sessions r !! i = Some s ->
  (exists r', subscribe sbe_push observed b i names r out =
     Some (r', out ++ subscribe_acks sbe_push (wire_mode s) b (length (names_of (negb b) s)) (names_of b s) names)
     /\ forall b' n j, j ∈ subs b' n r' <-> j ∈ subs b' n r \/ (j = i /\ b' = b /\ n ∈ names)) /\
  (exists r' acks, unsubscribe sbe_push observed b i names r out = Some (r', out ++ acks)
     /\ acks = match names, names_of b s with
                | [], [] => ack_frame sbe_push (wire_mode s) b (unsubscribe_kind b) None (subscription_count s)
                | [], l => unsubscribe_all_acks sbe_push (wire_mode s) b (length (names_of (negb b) s)) l
                | _, l => unsubscribe_acks sbe_push (wire_mode s) b (length (names_of (negb b) s)) l names
                end
     /\ forall b' n j, j ∈ subs b' n r' <-> j ∈ subs b' n r /\ ~ (j = i /\ b' = b /\ (names = [] \/ n ∈ names))).
Proof.
  intros Hr Hs. destruct (r_names _ Hr i s b Hs) as (Hnd & _ & Hlink). split.
  - destruct (subscribe_spec sbe_push observed b i names r s out Hr Hs) as (r' & s' & He & Hc). exists r'. split; [done|].
    intros b' n j. rewrite (changed_subs _ _ _ _ _ _ _ Hr Hs Hc). case_decide as Hd; [|naive_solver].
    destruct Hd as [-> ->]. rewrite elem_of_subscribed, Hlink. naive_solver.
  - destruct (unsubscribe_spec b i names r s out Hr Hs) as (r' & s' & He & Hc). eexists r', _. split; [exact He|]. split.
    + by destruct names, (names_of b s).
    + intros b' n j. rewrite (changed_subs _ _ _ _ _ _ _ Hr Hs Hc). case_decide as Hd; [|naive_solver].
      destruct Hd as [-> ->]. destruct names as [|m names].
      * split; [intros H; by apply elem_of_nil in H|]. intros [_ H]. destruct H. auto.
      * rewrite elem_of_unsubscribed, Hlink by done. naive_solver.
Qed.

End subscriptions.

(** ** The registry as a whole *)

Section operations.
Context (sbe_push : Z -> Z -> bytes -> bytes -> bytes -> bytes) (sbe_integer : Z -> bytes) (sbe_error : bytes -> bytes)
  (sbe_string_array : list bytes -> bytes) (sbe_numsub : list (bytes * Z) -> bytes).
Context (iterate : gset nat -> list nat) (table_names : gmap bytes (gset nat) -> list bytes) (observed : bool).
Hypothesis iterate_elements : forall X, iterate X ≡ₚ elements X.

Abbreviation execute := (execute sbe_push sbe_integer sbe_error sbe_string_array sbe_numsub iterate table_names observed).

Lemma matching_names_total match_all filter names :
  exists l, matching_names match_all (if match_all then PubSub.always else PubSub.classify_pattern filter) filter names = Some l.
Proof.
  induction names as [|n names [l IH]]; simpl; [by eexists|]. rewrite IH. destruct match_all; simpl; [by eexists|].
  change (PubSub.match_classified (PubSub.classify_pattern filter) filter n) with (PubSub.glob_match filter n).
  destruct (PubSub.glob_match_spec filter n) as (m & -> & _). simpl. by eexists.
Qed.

Lemma subscriber_weights_total store l name pattern count :
  (forall i, i ∈ l -> is_Some (store !! i)) -> exists n, subscriber_weights store l name pattern count = Some n.
Proof.
  revert count. induction l as [|i l IH]; intros count Hk; simpl; [by eexists|]. destruct (Hk i ltac:(by left)) as [s ->]. simpl.
  apply IH. intros j Hj. apply Hk. by right.
Qed.

Lemma numsub_values_total names r : registry_ok r -> exists l, numsub_values iterate names r = Some l.
Proof.
  intros Hr. induction names as [|n names [l IH]]; simpl; [by eexists|]. rewrite IH.
  destruct (channels_ r !! n) as [set|] eqn:Hl; simpl; [|by eexists]. unfold subscriber_count.
  destruct (subscriber_weights_total (sessions r) (iterate set) n false 0) as (m & ->); [|simpl; by eexists].
  intros i Hi. rewrite iterate_elements, elem_of_elements in Hi. apply (r_known _ Hr false n). by rewrite (subs_lookup false n r set).
Qed.

Lemma append_numsub_total out l : exists out', append_numsub out l = Some out'.
Proof. revert out. induction l as [|[n c] l IH]; intros out; simpl; [by eexists|]. rewrite append_bulk_string_eq. apply IH. Qed.

Lemma execute_pubsub_total s args r out :
  registry_ok r -> args <> [] -> exists out', execute_pubsub sbe_integer sbe_error sbe_string_array sbe_numsub iterate table_names s args r out = Some out'.
Proof.
  intros Hr Ha. unfold execute_pubsub. destruct args as [|a args]; [done|]. cbn [lookup list_lookup mbind option_bind].
  destruct (_ && equals_ci a (str "channels")).
  { destruct (_ <? _)%nat; [by eexists|]. cbn zeta. set (filter := if Nat.eqb _ 2 then _ else _).
    destruct (matching_names_total (bool_decide (filter = str "*")) filter (table_names (channels_ r))) as (l & ->). cbn [mbind option_bind].
    case_decide; [destruct (_ <? _); by eexists|]. rewrite append_bulk_strings_eq. by eexists. }
  destruct (_ && equals_ci a (str "numpat")).
  { destruct (negb _); [by eexists|]. case_decide; by eexists. }
  destruct (_ && equals_ci a (str "numsub")); [|by eexists].
  destruct (numsub_values_total (drop 1 (a :: args)) r Hr) as (l & ->). cbn [mbind option_bind].
  case_decide; [destruct (_ <? _); by eexists|]. apply append_numsub_total.
Qed.

(** The operations of the server on a registry; [parse_command] ensures the arities. *)
Inductive operation :=
| op_execute (i : nat) (command : Command)
| op_remove (i : nat)
| op_weight (i : nat) (name : bytes) (pattern : bool) (subscribers : Z).

Definition operation_ok (r : PubSubRegistry) (o : operation) : Prop :=
  match o with
  | op_execute i c =>
      is_Some (sessions r !! i)
      /\ (c_type c = CT_publish -> (2 <= length (c_args c))%nat) /\ (c_type c = CT_pubsub -> c_args c <> [])
  | op_remove i | op_weight i _ _ _ => is_Some (sessions r !! i)
  end.

Definition perform (o : operation) (r : PubSubRegistry) : option PubSubRegistry :=
  match o with
  | op_execute i c => '(r, _) ← execute i c r []; Some r
  | op_remove i => remove observed i r
  | op_weight i name pattern n => '(_, r) ← set_bluefield_subscription_weight i name pattern n r; Some r
  end.
Fixpoint perform_all (os : list operation) (r : PubSubRegistry) : option PubSubRegistry :=
  match os with [] => Some r | o :: os => r ← perform o r; perform_all os r end.

Definition quiet (r : PubSubRegistry) : Prop := registry_ok r /\ overflowed_ r = [].

Lemma changed_quiet b i s r names r' s' : quiet r -> is_Some (sessions r !! i) -> changed b i s r names r' s' -> quiet r' /\ dom (sessions r') = dom (sessions r).
Proof. intros [_ Ho] Hi (H1 & H2 & H3 & _). split; [split; [done|congruence]|]. rewrite H2. by apply dom_insert_lookup_L. Qed.

Lemma execute_spec i c r s out :
  quiet r -> sessions r !! i = Some s -> (c_type c = CT_publish -> (2 <= length (c_args c))%nat) -> (c_type c = CT_pubsub -> c_args c <> []) ->
  exists r' out', execute i c r out = Some (r', out') /\ quiet r' /\ dom (sessions r') = dom (sessions r).
Proof.
  intros Hq Hs Hpub Hps. pose proof Hq as [Hr Ho]. unfold PubSubRegistry.execute. rewrite Hs. cbn [mbind option_bind]. cbn zeta.
  assert (Hsub : forall b names, exists r' out', subscribe sbe_push observed b i names r out = Some (r', out') /\ quiet r' /\ dom (sessions r') = dom (sessions r)).
  { intros b names. destruct (subscribe_spec sbe_push observed b i names r s out Hr Hs) as (r' & s' & -> & Hc). eexists _, _. split; [done|].
    eapply changed_quiet; eauto. }
  assert (Hunsub : forall b names, exists r' out', unsubscribe sbe_push observed b i names r out = Some (r', out') /\ quiet r' /\ dom (sessions r') = dom (sessions r)).
  { intros b names. destruct (unsubscribe_spec sbe_push observed b i names r s out Hr Hs) as (r' & s' & -> & Hc). eexists _, _. split; [done|].
    eapply changed_quiet; eauto. }
  destruct (c_type c); try (by eexists _, _); auto.
  - destruct (Nat.eqb _ 0); [by eexists _, _|auto].
  - destruct (Nat.eqb _ 0); [by eexists _, _|auto].
  - destruct (c_args c) as [|ch [|pl args]]; [specialize (Hpub eq_refl); simpl in Hpub; lia..|]. cbn [lookup list_lookup mbind option_bind].
    destruct (publish_spec sbe_push iterate observed iterate_elements ch pl (bluefield_edge_id s) r Hr Ho) as (n & r' & acc & -> & Hr' & Ho' & Hd & _).
    eexists _, _. split; [done|]. done.
  - destruct (execute_pubsub_total s (c_args c) r out Hr (Hps eq_refl)) as (out' & ->). by eexists _, _.
Qed.

Lemma perform_spec o r : quiet r -> operation_ok r o -> exists r', perform o r = Some r' /\ quiet r' /\ dom (sessions r') = dom (sessions r).
Proof.
  intros Hq Ho. pose proof Hq as [Hr Hov]. destruct o as [i c|i|i name pattern n]; simpl in *.
  - destruct Ho as ([s Hs] & H1 & H2). destruct (execute_spec i c r s [] Hq Hs H1 H2) as (r' & out' & -> & Hq' & Hd). by exists r'.
  - destruct Ho as [s Hs]. destruct (remove_spec observed i r s Hr Hs) as (r' & s' & -> & Hr' & Hses & Hov' & _). exists r'.
    split_and!; [done|split; [done|congruence]|]. rewrite Hses. by apply dom_insert_lookup_L.
  - destruct Ho as [s Hs]. unfold set_bluefield_subscription_weight. rewrite Hs. cbn [mbind option_bind].
    destruct (bluefield_aggregate s); [|by exists r]. destruct (bluefield_aggregate_state s) as [a|]; [|by exists r].
    destruct (n =? 0); [by exists r|]. destruct (table_of pattern r !! name); [|by exists r]. case_decide; [|by exists r].
    destruct (weights_of pattern a !! name); [|by exists r]. cbn [mbind option_bind].
    destruct (update_weights_same pattern (<[name := n]>) s) as (Hsame & Hn). eexists. split; [done|]. split.
    2:{ simpl. apply dom_insert_lookup_L. by exists s. }
    split; [|done]. eapply (registry_ok_update r _ i); [done|by exists s| |reflexivity|done| |].
    + destruct (r_tables _ Hr). by split.
    + intros b. destruct (Hn b) as [E1 E2]. destruct (r_names _ Hr i s b Hs) as (A1 & A2 & A3). unfold names_ok. by rewrite E1, E2.
    + eapply same_output_ok; [exact Hsame|]. by eapply r_output.
Qed.

Lemma perform_all_spec os r :
  quiet r -> Forall (operation_ok r) os ->
  exists r', perform_all os r = Some r' /\ quiet r' /\ dom (sessions r') = dom (sessions r).
Proof.
  intros Hq Ho. assert (Hdom : forall r', dom (sessions r') = dom (sessions r) -> Forall (operation_ok r') os).
  { intros r' Hd. eapply Forall_impl; [exact Ho|]. intros o Hok.
    assert (Hs : forall i, is_Some (sessions r !! i) -> is_Some (sessions r' !! i)) by (intros i; rewrite <- !elem_of_dom, Hd; done).
    destruct o; simpl in *; naive_solver. }
  specialize (Hdom r eq_refl) as Hok. clear Ho. revert r Hq Hdom Hok.
  induction os as [|o os IH]; intros r Hq Hdom Hok; simpl; [by exists r|]. inversion_clear Hok as [|? ? H1 H2].
  destruct (perform_spec o r Hq H1) as (r1 & -> & Hq1 & Hd1). cbn [mbind option_bind].
  destruct (IH r1 Hq1) as (r2 & -> & Hq2 & Hd2).
  - intros r' Hd. assert (Hx : Forall (operation_ok r') (o :: os)) by (apply Hdom; congruence). by inversion Hx.
  - assert (Hx : Forall (operation_ok r1) (o :: os)) by (by apply Hdom). by inversion Hx.
  - exists r2. split_and!; [done|done|congruence].
Qed.

(** C33: Every sequence of commands (SUBSCRIBE, UNSUBSCRIBE, their pattern forms,
    PUBLISH, PUBSUB), disconnections and edge weights runs to its end, and keeps the
    invariant of the registry: the tables and the reverse indexes of the sessions
    describe the same subscriptions, the counters count them, no empty set stays in a
    table, the publish list is the set of active patterns with their kinds, the queues
    are well formed, and no overflowed session is left behind. *)
Theorem registry_invariant r os :
  quiet r -> Forall (operation_ok r) os ->
  exists r', perform_all os r = Some r' /\ registry_ok r' /\ overflowed_ r' = [] /\ dom (sessions r') = dom (sessions r).
Proof. intros Hq Ho. destruct (perform_all_spec os r Hq Ho) as (r' & ? & [? ?] & ?). by exists r'. Qed.

(** C8: PUBLISH offers every ordinary session exactly the frames it is due, in order:
    the message when it is subscribed to the channel, then one pattern message for
    every pattern it is subscribed to that matches the channel, each encoded for the
    wire mode of the session.  A session that stays open has all of them queued behind
    what it had, numbered consecutively; one that overflows loses its queue and its
    subscriptions.  The answer is the number of frames accepted. *)
Theorem publish_delivers channel payload excluded r :
  registry_ok r -> overflowed_ r = [] ->
  exists n r' accepted, publish sbe_push iterate observed channel payload excluded r = Some (n, r')
    /\ (forall j s, sessions r !! j = Some s -> bluefield_aggregate s = false ->
          let frames := frames_for sbe_push r channel payload excluded j in
          exists s1 s', offer_all frames s = Some (accepted j, s1) /\ sessions r' !! j = Some s'
            /\ (if close_requested s1 && negb (close_requested s) then dropped s1 s' else s' = s1)
            /\ forall l, OutputQueue.holds (unsolicited s) l -> close_requested s1 = false ->
               accepted j = length frames
               /\ OutputQueue.holds (unsolicited s') (l ++ numbered (next_output_sequence s) frames))
    /\ (no_aggregates r -> n = Z.of_nat (sum_list_with accepted (elements (dom (sessions r))))).
Proof.
  intros Hr Ho. destruct (publish_spec sbe_push iterate observed iterate_elements channel payload excluded r Hr Ho) as (n & r' & acc & He & _ & _ & _ & Hs & Hn).
  exists n, r', acc. split_and!; [done| |done]. intros j s Hj Ha frames. destruct (Hs j s Hj Ha) as (s1 & s' & H1 & H2 & H3).
  exists s1, s'. split_and!; [done|done|done|]. intros l Hl Hc. rewrite Hc in H3. simpl in H3. subst s'.
  eapply offer_all_open; eauto. by eapply r_output.
Qed.
End operations.

(** *** Two sessions *)

Definition new_session (mode : WireMode) (mapping : bytes) : PubSubSession :=
  mkSession mode (OutputQueue.new_queue mapping) 0 0 1 0 false (0, []) [] [] 0 false None false.
Definition new_registry (store : gmap nat PubSubSession) : PubSubRegistry :=
  mkRegistry ∅ ∅ [] [] [] [] [] ∅ store [].

Lemma new_registry_quiet store :
  (forall i s, store !! i = Some s -> exists mode mapping, s = new_session mode mapping /\ 0 < Z.of_nat (length mapping) <= 2 ^ 32) ->
  quiet (new_registry store).
Proof.
  intros Hs. assert (Hsub : forall b n i, i ∉ subs b n (new_registry store)) by (intros [] n i; unfold subs; simpl; set_solver).
  split; [|done]. split.
  - split; simpl; [|constructor| |constructor]; [by intros []|]. intros p. rewrite lookup_empty. split; [intros H; by apply elem_of_nil in H|by intros [? ?]].
  - intros b n i Hi. by destruct (Hsub b n i).
  - intros i s b Hi. destruct (Hs i s Hi) as (mode & mapping & -> & _). split_and!; [destruct b; constructor|by destruct b|].
    intros n. split; intros Hx; [destruct b; by apply elem_of_nil in Hx|by destruct (Hsub b n i)].
  - intros i s Hi. destruct (Hs i s Hi) as (mode & mapping & -> & Hm). split; [eexists; by apply OutputQueue.holds_new|simpl; lia].
Qed.

Definition example_store : gmap nat PubSubSession :=
  <[1%nat := new_session resp2_mode (repeat x00 80)]> {[2%nat := new_session resp3_mode (repeat x00 80)]}.

Lemma example_quiet : quiet (new_registry example_store).
Proof.
  apply new_registry_quiet. intros i s. unfold example_store. rewrite lookup_insert_Some, lookup_singleton_Some.
  intros [[<- <-]|[_ [<- <-]]]; eexists _, _; (split; [done|]); rewrite repeat_length; lia.
Qed.

Abbreviation no_push := (fun (_ _ : Z) (_ _ _ : bytes) => @nil byte) (only parsing).

Abbreviation example_perform := (perform_all no_push (fun _ => []) id (fun _ => []) (fun _ => []) elements (fun t => elements (dom t)) true) (only parsing).

Definition example_operations : list operation :=
  [op_execute 1 (default_Command CT_subscribe (str "SUBSCRIBE") [str "news"]);
   op_execute 2 (default_Command CT_psubscribe (str "PSUBSCRIBE") [str "n*"; str "x"])].

Lemma example_operations_ok : Forall (operation_ok (new_registry example_store)) example_operations.
Proof. repeat constructor; simpl; try (intros; discriminate); by eexists. Qed.

Lemma registry_invariant_witness :
  exists r, example_perform example_operations (new_registry example_store) = Some r /\ registry_ok r.
Proof.
  destruct (registry_invariant no_push (fun _ => []) id (fun _ => []) (fun _ => []) elements (fun t => elements (dom t)) true
    (fun X => reflexivity (elements X)) (new_registry example_store) example_operations example_quiet example_operations_ok) as (r & H1 & H2 & _).
  exists r. split; [exact H1|exact H2].
Defined.

Lemma subscriptions_exact_witness :
  exists r', subscribe no_push true false 1 [str "news"; str "news"] (new_registry example_store) [] =
    Some (r', subscribe_acks no_push resp2_mode false 0 [] [str "news"; str "news"]) /\ (1%nat ∈ subs false (str "news") r').
Proof.
  destruct (subscriptions_exact no_push true false 1 [str "news"; str "news"] (new_registry example_store)
    (new_session resp2_mode (repeat x00 80)) [] (proj1 example_quiet) eq_refl) as ((r' & H1 & H2) & _).
  exists r'. split; [exact H1|]. apply H2. right. split_and!; [done|done|by left].
Defined.

(** With a subscriber of the channel and one of a matching pattern. *)
Definition example_subscribed : PubSubRegistry :=
  default (new_registry ∅) (example_perform example_operations (new_registry example_store)).

Lemma example_subscribed_quiet : quiet example_subscribed.
Proof.
  destruct (perform_all_spec no_push (fun _ => []) id (fun _ => []) (fun _ => []) elements (fun t => elements (dom t)) true
    (fun X => reflexivity (elements X)) example_operations (new_registry example_store) example_quiet example_operations_ok) as (r & H1 & H2 & _).
  unfold example_subscribed. rewrite H1. exact H2.
Qed.

Lemma publish_delivers_witness :
  exists r', publish no_push elements true (str "news") (str "hi") 0 example_subscribed = Some (2, r').
Proof.
  destruct (publish_delivers no_push elements true (fun X => reflexivity (elements X)) (str "news") (str "hi") 0 example_subscribed
    (proj1 example_subscribed_quiet) (proj2 example_subscribed_quiet)) as (n & r' & acc & H & _).
  exists r'. assert (n = 2) as <-; [|exact H].
  assert (Hc : fst <$> publish no_push elements true (str "news") (str "hi") 0 example_subscribed = Some 2) by (vm_compute; reflexivity).
  rewrite H in Hc. simpl in Hc. congruence.
Defined.
