(* ===== verification/Transaction.v ===== *)
(** * Transactions

    Models [src/transaction.hpp] and [src/transaction.cpp] (the buffer of queued
    commands, the state of a connection, the registry of watched keys) and, from
    [src/server.cpp], [execute_queued_transaction], [execute_transaction_control] and
    [dispatch_resp_command].  The store, the subscriptions, replication and the
    blocked list commands are one world [W]; what the dispatcher calls in it are
    parameters of the second section, each answering the new world, the reply and
    the keys reported to the mutation observer. *)

From S2P Require Import Prelude ParseInt RespWriter CommandType CommandParse.
From stdpp Require Import gmap.
From Stdlib Require Import ZArith Lia.

Local Open Scope Z_scope.

(** ** The buffer *)

Record TransactionBuffer := mkBuffer {
  data_ : bytes;
  capacity_ : nat;
  used_bytes_ : nat;
  command_count_ : nat;
}.

Definition kRecordHeaderBytes : nat := 8.
Definition kFieldHeaderBytes : nat := 4.
Definition kMaxRecord : Z := 4294967295.

Definition new_buffer (mapping : bytes) : TransactionBuffer := mkBuffer mapping (length mapping) 0 0.

(** The size of a record; [None] when it does not fit 32 bits. *)
Fixpoint record_size (fields : list bytes) (record_bytes : Z) : option Z :=
  match fields with
  | [] => Some record_bytes
  | field :: fields =>
      let size := Z.of_nat (length field) in
      if (kMaxRecord - Z.of_nat kFieldHeaderBytes <? size) || (kMaxRecord - Z.of_nat kFieldHeaderBytes - size <? record_bytes) then None
      else record_size fields (record_bytes + Z.of_nat kFieldHeaderBytes + size)
  end.

Fixpoint write_fields (cursor : nat) (fields : list bytes) (data : bytes) : option bytes :=
  match fields with
  | [] => Some data
  | field :: fields =>
      data ← poke cursor (le_bytes 4 (Z.of_nat (length field))) data;
      data ← (if Nat.eqb (length field) 0 then Some data else poke (cursor + 4) field data);
      write_fields (cursor + 4 + length field) fields data
  end.

Definition append (fields : list bytes) (b : TransactionBuffer) : option (bool * TransactionBuffer) :=
  if kMaxRecord <? Z.of_nat (length fields) then Some (false, b)
  else
    match record_size fields (Z.of_nat kRecordHeaderBytes) with
    | None => Some (false, b)
    | Some record_bytes =>
        if Z.of_nat (capacity_ b - used_bytes_ b) <? record_bytes then Some (false, b)
        else
          let cursor := used_bytes_ b in
          data ← poke cursor (le_bytes 4 record_bytes) (data_ b);
          data ← poke (cursor + 4) (le_bytes 4 (Z.of_nat (length fields))) data;
          data ← write_fields (cursor + 8) fields data;
          Some (true, mkBuffer data (capacity_ b) (used_bytes_ b + Z.to_nat record_bytes) (S (command_count_ b)))
    end.

(** A decoded field is a view of the mapping: its offset and length. *)
Abbreviation view := (nat * nat)%type.

Fixpoint decode_fields (count : nat) (cursor end_ : nat) (data : bytes) (fields : list view) : option (option (list view)) :=
  match count with
  | O => Some (if Nat.eqb cursor end_ then Some fields else None)
  | S count =>
      if (end_ - cursor <? kFieldHeaderBytes)%nat then Some None
      else
        field_bytes ← read_le 4 cursor data;
        let cursor := (cursor + 4)%nat in
        if Z.of_nat (end_ - cursor) <? field_bytes then Some None
        else decode_fields count (cursor + Z.to_nat field_bytes) end_ data (fields ++ [(cursor, Z.to_nat field_bytes)])
  end.

(** [decode]: the next offset and the fields, or [None] for the answer [false]. *)
Definition decode (offset : nat) (b : TransactionBuffer) : option (option (nat * list view)) :=
  if (used_bytes_ b <=? offset)%nat || (used_bytes_ b - offset <? kRecordHeaderBytes)%nat then Some None
  else
    record_bytes ← read_le 4 offset (data_ b);
    field_count ← read_le 4 (offset + 4) (data_ b);
    if (record_bytes <? Z.of_nat kRecordHeaderBytes) || (Z.of_nat (used_bytes_ b - offset) <? record_bytes) then Some None
    else
      fields ← decode_fields (Z.to_nat field_count) (offset + kRecordHeaderBytes) (offset + Z.to_nat record_bytes) (data_ b) [];
      Some (match fields with
            | None => None
            | Some fields => Some ((offset + Z.to_nat record_bytes)%nat, fields)
            end).

(** [secure_zero_memory] over a range. *)
Definition zero (offset size : nat) (data : bytes) : option bytes := poke offset (repeat x00 size) data.

Definition clear (b : TransactionBuffer) : option TransactionBuffer :=
  data ← zero 0 (used_bytes_ b) (data_ b);
  Some (mkBuffer data (capacity_ b) 0 0).

(** *** Round trip *)

Definition fields_enc (fields : list bytes) : bytes :=
  concat (map (fun f => le_bytes 4 (Z.of_nat (length f)) ++ f) fields).
Definition record_length (fields : list bytes) : nat := (kRecordHeaderBytes + length (fields_enc fields))%nat.
Definition record_enc (fields : list bytes) : bytes :=
  le_bytes 4 (Z.of_nat (record_length fields)) ++ le_bytes 4 (Z.of_nat (length fields)) ++ fields_enc fields.

Lemma fields_enc_cons f fields : fields_enc (f :: fields) = le_bytes 4 (Z.of_nat (length f)) ++ f ++ fields_enc fields.
Proof. unfold fields_enc. cbn [map concat]. by rewrite <- app_assoc. Qed.

Lemma fields_enc_length f fields : length (fields_enc (f :: fields)) = (4 + length f + length (fields_enc fields))%nat.
Proof. rewrite fields_enc_cons, !length_app, length_le_bytes. lia. Qed.

Lemma command_record_length fields : length (record_enc fields) = record_length fields.
Proof. unfold record_enc, record_length, kRecordHeaderBytes. rewrite !length_app, !length_le_bytes. lia. Qed.

Lemma record_size_spec fields n :
  0 <= n <= kMaxRecord ->
  record_size fields n = let size := n + Z.of_nat (length (fields_enc fields)) in if size <=? kMaxRecord then Some size else None.
Proof.
  revert n. induction fields as [|f fields IH]; intros n Hn; cbn [record_size].
  { simpl. rewrite Z.add_0_r. by rewrite (proj2 (Z.leb_le _ _)) by lia. }
  rewrite fields_enc_length. unfold kMaxRecord, kFieldHeaderBytes in *. cbn zeta in *.
  destruct (Z.ltb_spec (4294967295 - Z.of_nat 4) (Z.of_nat (length f))); cbn [orb].
  { by rewrite (proj2 (Z.leb_gt _ _)) by lia. }
  destruct (Z.ltb_spec (4294967295 - Z.of_nat 4 - Z.of_nat (length f)) n).
  { by rewrite (proj2 (Z.leb_gt _ _)) by lia. }
  rewrite IH by lia. replace (n + Z.of_nat 4 + Z.of_nat (length f) + Z.of_nat (length (fields_enc fields)))
    with (n + Z.of_nat (4 + length f + length (fields_enc fields))) by lia. done.
Qed.

Lemma fields_count fields : (4 * length fields <= length (fields_enc fields))%nat.
Proof. induction fields as [|f fields IH]; [done|]. rewrite fields_enc_length. simpl. lia. Qed.

Lemma write_fields_spec fields pre old post cursor :
  cursor = length pre -> length old = length (fields_enc fields) ->
  write_fields cursor fields (pre ++ old ++ post) = Some (pre ++ fields_enc fields ++ post).
Proof.
  revert pre old cursor. induction fields as [|f fields IH]; intros pre old cursor -> Ho; cbn [write_fields].
  { apply nil_length_inv in Ho as ->. done. }
  rewrite fields_enc_length in Ho. rewrite <- (take_drop 4 old). set (o1 := take 4 old). set (rest := drop 4 old).
  rewrite <- (take_drop (length f) rest). set (o2 := take (length f) rest). set (o3 := drop (length f) rest).
  assert (length o1 = 4%nat) by (unfold o1; rewrite length_take; lia).
  assert (length o2 = length f) by (unfold o2, rest; rewrite length_take, length_drop; lia).
  assert (length o3 = length (fields_enc fields)) by (unfold o3, rest; rewrite !length_drop; lia).
  rewrite <- !app_assoc, (poke_app pre o1) by (rewrite ?length_le_bytes; done). cbn [mbind option_bind].
  set (h := le_bytes 4 (Z.of_nat (length f))).
  assert (Hf : (if Nat.eqb (length f) 0 then Some (pre ++ h ++ o2 ++ o3 ++ post) else poke (length pre + 4) f (pre ++ h ++ o2 ++ o3 ++ post))
               = Some (pre ++ h ++ f ++ o3 ++ post)).
  { destruct (Nat.eqb_spec (length f) 0) as [Hz|Hz].
    - assert (f = []) as -> by (by apply nil_length_inv). assert (o2 = []) as -> by (apply nil_length_inv; done). done.
    - rewrite (app_assoc pre), (poke_app _ o2) by (unfold h; rewrite ?length_app, ?length_le_bytes; done). by rewrite <- app_assoc. }
  rewrite Hf. cbn [mbind option_bind]. replace (pre ++ h ++ f ++ o3 ++ post) with ((pre ++ h ++ f) ++ o3 ++ post) by (by rewrite <- !app_assoc).
  rewrite IH by (unfold h; rewrite ?length_app, ?length_le_bytes; lia || done). f_equal. rewrite fields_enc_cons. fold h. by rewrite <- !app_assoc.
Qed.

(** The buffer holds the records of these commands. *)
Definition queue_enc (cmds : list (list bytes)) : bytes := concat (map record_enc cmds).
Record buffer_holds (b : TransactionBuffer) (cmds : list (list bytes)) : Prop := {
  b_capacity : capacity_ b = length (data_ b);
  b_data : exists post, data_ b = queue_enc cmds ++ post;
  b_used : used_bytes_ b = length (queue_enc cmds);
  b_count : command_count_ b = length cmds;
  b_sizes : Forall (fun fields => Z.of_nat (record_length fields) <= kMaxRecord) cmds;
}.

Lemma queue_enc_app a b : queue_enc (a ++ b) = queue_enc a ++ queue_enc b.
Proof. unfold queue_enc. by rewrite map_app, concat_app. Qed.

Lemma queue_enc_one fields : queue_enc [fields] = record_enc fields.
Proof. unfold queue_enc. cbn [map concat]. apply app_nil_r. Qed.

(** Whether a command is accepted. *)
Definition fits (b : TransactionBuffer) (fields : list bytes) : bool :=
  (Z.of_nat (record_length fields) <=? kMaxRecord) && (record_length fields <=? capacity_ b - used_bytes_ b)%nat.

Lemma append_spec fields b cmds :
  buffer_holds b cmds ->
  exists b', append fields b = Some (fits b fields, b') /\ capacity_ b' = capacity_ b
    /\ buffer_holds b' (if fits b fields then cmds ++ [fields] else cmds).
Proof.
  intros Hb. pose proof Hb as [Hc [post Hd] Hu Hn Hs]. unfold append, fits.
  pose proof (fields_count fields) as Hcount. rewrite record_size_spec by (unfold kMaxRecord, kRecordHeaderBytes; lia). cbn zeta.
  replace (Z.of_nat kRecordHeaderBytes + Z.of_nat (length (fields_enc fields))) with (Z.of_nat (record_length fields)) by (unfold record_length; lia).
  destruct (Z.leb_spec (Z.of_nat (record_length fields)) kMaxRecord) as [Hsz|Hsz]; cbn [andb].
  2:{ exists b. destruct (_ <? _); by split_and!. }
  destruct (Z.ltb_spec kMaxRecord (Z.of_nat (length fields))) as [Hbad|_]; [unfold record_length in Hsz; lia|].
  destruct (Nat.leb_spec (record_length fields) (capacity_ b - used_bytes_ b)) as [Hf|Hf].
  2:{ rewrite (proj2 (Z.ltb_lt _ _)) by lia. exists b. by split_and!. }
  rewrite (proj2 (Z.ltb_ge _ _)) by lia.
  assert (Hlen : length post = (capacity_ b - used_bytes_ b)%nat) by (rewrite Hc, Hd, length_app; lia).
  rewrite <- (take_drop (record_length fields) post) in Hd. set (old := take _ post) in *. set (rest := drop _ post) in *.
  assert (Hold : length old = record_length fields) by (unfold old; rewrite length_take; lia).
  rewrite Hd, Hu. unfold record_length, kRecordHeaderBytes in Hold.
  rewrite <- (take_drop 4 old). set (o1 := take 4 old). set (old2 := drop 4 old).
  rewrite <- (take_drop 4 old2). set (o2 := take 4 old2). set (o3 := drop 4 old2).
  assert (length o1 = 4%nat) by (unfold o1; rewrite length_take; lia).
  assert (length o2 = 4%nat) by (unfold o2, old2; rewrite length_take, length_drop; lia).
  assert (length o3 = length (fields_enc fields)) by (unfold o3, old2; rewrite !length_drop; lia).
  rewrite <- !app_assoc, (poke_app _ o1) by (rewrite ?length_le_bytes; done). cbn [mbind option_bind].
  rewrite (app_assoc (queue_enc cmds)), (poke_app _ o2) by (rewrite ?length_app, ?length_le_bytes; done). cbn [mbind option_bind].
  rewrite (app_assoc _ (le_bytes 4 (Z.of_nat (length fields)))), write_fields_spec by (rewrite ?length_app, ?length_le_bytes; lia || done).
  cbn [mbind option_bind]. eexists. split; [done|]. split; [done|]. rewrite Nat2Z.id.
  split; cbn [data_ capacity_ used_bytes_ command_count_].
  - rewrite Hc, Hd, !length_app, !length_le_bytes, Hold. lia.
  - exists rest. rewrite queue_enc_app, queue_enc_one. unfold record_enc. by rewrite <- !app_assoc.
  - rewrite queue_enc_app, queue_enc_one, length_app, command_record_length. lia.
  - rewrite length_app, Hn. simpl. lia.
  - apply Forall_app. split; [done|]. by constructor.
Qed.

(** The bytes of a view. *)
Definition view_bytes (data : bytes) (v : view) : option bytes := slice v.1 v.2 data.

Fixpoint field_views (cursor : nat) (fields : list bytes) : list view :=
  match fields with
  | [] => []
  | f :: fields => ((cursor + 4)%nat, length f) :: field_views (cursor + 4 + length f) fields
  end.

Lemma decode_fields_spec fields pre post acc :
  Z.of_nat (length (fields_enc fields)) <= kMaxRecord ->
  decode_fields (length fields) (length pre) (length pre + length (fields_enc fields)) (pre ++ fields_enc fields ++ post) acc
  = Some (Some (acc ++ field_views (length pre) fields))
  /\ mapM (view_bytes (pre ++ fields_enc fields ++ post)) (field_views (length pre) fields) = Some fields.
Proof.
  revert pre acc. induction fields as [|f fields IH]; intros pre acc Hs; cbn [decode_fields length].
  { simpl. rewrite Nat.add_0_r, Nat.eqb_refl, app_nil_r. done. }
  rewrite fields_enc_length in *. unfold kFieldHeaderBytes, kMaxRecord in *.
  destruct (Nat.ltb_spec (length pre + (4 + length f + length (fields_enc fields)) - length pre) 4); [lia|].
  rewrite fields_enc_cons. set (h := le_bytes 4 (Z.of_nat (length f))).
  assert (Hr : read_le 4 (length pre) (pre ++ (h ++ f ++ fields_enc fields) ++ post) = Some (Z.of_nat (length f))).
  { unfold h. rewrite <- !app_assoc. apply read_le_app; [done|]. change (2 ^ (8 * Z.of_nat 4)) with 4294967296. lia. }
  rewrite Hr. cbn [mbind option_bind]. cbn zeta. rewrite (proj2 (Z.ltb_ge _ _)) by lia. rewrite Nat2Z.id.
  destruct (IH (pre ++ h ++ f) (acc ++ [((length pre + 4)%nat, length f)])) as [I1 I2]; [unfold kMaxRecord; lia|].
  assert (Hl : length (pre ++ h ++ f) = (length pre + 4 + length f)%nat) by (unfold h; rewrite !length_app, length_le_bytes; lia).
  assert (Hd : (pre ++ h ++ f) ++ fields_enc fields ++ post = pre ++ (h ++ f ++ fields_enc fields) ++ post) by (by rewrite <- !app_assoc).
  rewrite Hl, Hd in I1, I2. cbn [field_views]. split.
  - replace (length pre + (4 + length f + length (fields_enc fields)))%nat with (length pre + 4 + length f + length (fields_enc fields))%nat by lia.
    rewrite I1. by rewrite <- app_assoc.
  - cbn [mapM]. change (view_bytes ?d (?o, ?n)) with (slice o n d).
    assert (Hsl : slice (length pre + 4) (length f) (pre ++ (h ++ f ++ fields_enc fields) ++ post) = Some f).
    { rewrite <- !app_assoc, (app_assoc pre). apply slice_app; [unfold h; rewrite length_app, length_le_bytes; lia|done]. }
    rewrite Hsl. cbn [mbind option_bind]. rewrite I2. done.
Qed.

(** Decoding in front of the remaining records, whatever happened to the bytes before. *)
Lemma decode_spec fields cmds b pre post :
  data_ b = pre ++ queue_enc (fields :: cmds) ++ post -> used_bytes_ b = (length pre + length (queue_enc (fields :: cmds)))%nat ->
  Z.of_nat (record_length fields) <= kMaxRecord ->
  exists views, decode (length pre) b = Some (Some ((length pre + record_length fields)%nat, views))
    /\ mapM (view_bytes (data_ b)) views = Some fields /\ views = field_views (length pre + kRecordHeaderBytes) fields.
Proof.
  intros Hd Hu Hs. change (fields :: cmds) with ([fields] ++ cmds) in *. rewrite queue_enc_app, queue_enc_one in *.
  rewrite length_app, command_record_length in Hu. unfold decode. pose proof (fields_count fields) as Hcount.
  assert (Hrl : record_length fields = (8 + length (fields_enc fields))%nat) by done. unfold kRecordHeaderBytes, kMaxRecord in *.
  destruct (Nat.leb_spec (used_bytes_ b) (length pre)); [lia|]. destruct (Nat.ltb_spec (used_bytes_ b - length pre) 8); [lia|]. cbn [orb].
  unfold record_enc in Hd. rewrite <- !app_assoc in Hd.
  assert (H1 : read_le 4 (length pre) (data_ b) = Some (Z.of_nat (record_length fields))).
  { rewrite Hd. apply read_le_app; [done|]. change (2 ^ (8 * Z.of_nat 4)) with 4294967296. lia. }
  assert (H2 : read_le 4 (length pre + 4) (data_ b) = Some (Z.of_nat (length fields))).
  { rewrite Hd, app_assoc. apply read_le_app; [by rewrite length_app, length_le_bytes|]. change (2 ^ (8 * Z.of_nat 4)) with 4294967296. lia. }
  rewrite H1, H2. cbn [mbind option_bind]. rewrite (proj2 (Z.ltb_ge _ _)) by lia. rewrite (proj2 (Z.ltb_ge _ _)) by lia. cbn [orb].
  rewrite !Nat2Z.id. set (pre8 := pre ++ le_bytes 4 (Z.of_nat (record_length fields)) ++ le_bytes 4 (Z.of_nat (length fields))).
  assert (Hp8 : length pre8 = (length pre + 8)%nat) by (unfold pre8; rewrite !length_app, !length_le_bytes; lia).
  assert (Hd8 : data_ b = pre8 ++ fields_enc fields ++ queue_enc cmds ++ post) by (unfold pre8; rewrite Hd, <- !app_assoc; done).
  destruct (decode_fields_spec fields pre8 (queue_enc cmds ++ post) []) as [D1 D2]; [unfold kMaxRecord; lia|].
  rewrite <- Hd8, Hp8 in D1, D2. rewrite Hrl. replace (length pre + (8 + length (fields_enc fields)))%nat with (length pre + 8 + length (fields_enc fields))%nat by lia.
  rewrite D1. cbn [mbind option_bind]. eexists. split; [reflexivity|]. by split.
Qed.

(** All that [clear] needs. *)
Definition buffer_sized (b : TransactionBuffer) : Prop := capacity_ b = length (data_ b) /\ (used_bytes_ b <= length (data_ b))%nat.

Lemma holds_sized b cmds : buffer_holds b cmds -> buffer_sized b.
Proof. intros [Hc [post Hd] Hu _ _]. split; [done|]. rewrite Hd, length_app. lia. Qed.

Lemma buffer_clear_spec b : buffer_sized b -> exists b', clear b = Some b' /\ buffer_holds b' [] /\ capacity_ b' = capacity_ b.
Proof.
  intros [Hc Hu]. unfold clear, zero. rewrite <- (take_drop (used_bytes_ b) (data_ b)).
  pose proof (poke_app [] (take (used_bytes_ b) (data_ b)) (drop (used_bytes_ b) (data_ b)) (repeat x00 (used_bytes_ b)) 0) as Hp. cbn [app] in Hp.
  rewrite Hp by (rewrite ?repeat_length, ?length_take; done || lia). cbn [mbind option_bind].
  eexists. split; [done|]. split; [|done]. split; simpl; [|by eexists|done|done|constructor].
  rewrite Hc, length_app, repeat_length, length_drop. lia.
Qed.

(** ** The state of a connection *)

Inductive TransactionFailure := no_failure | command_error | buffer_limit.
#[global] Instance TransactionFailure_eq_dec : EqDecision TransactionFailure.
Proof. solve_decision. Defined.

Record TransactionState := mkState {
  commands : TransactionBuffer;
  in_multi : bool;
  watch_dirty : bool;
  has_watches : bool;
  failure : TransactionFailure;
}.

Definition begin_ (t : TransactionState) : option TransactionState :=
  b ← clear (commands t); Some (mkState b true (watch_dirty t) (has_watches t) no_failure).
Definition finish (t : TransactionState) : option TransactionState :=
  b ← clear (commands t); Some (mkState b false (watch_dirty t) (has_watches t) no_failure).
Definition reset (t : TransactionState) : option TransactionState :=
  t ← finish t; Some (mkState (commands t) (in_multi t) false false (failure t)).

Definition with_commands (b : TransactionBuffer) (t : TransactionState) : TransactionState :=
  mkState b (in_multi t) (watch_dirty t) (has_watches t) (failure t).
Definition with_multi (m : bool) (t : TransactionState) : TransactionState :=
  mkState (commands t) m (watch_dirty t) (has_watches t) (failure t).
Definition with_dirty (d : bool) (t : TransactionState) : TransactionState :=
  mkState (commands t) (in_multi t) d (has_watches t) (failure t).
Definition with_watches (h : bool) (t : TransactionState) : TransactionState :=
  mkState (commands t) (in_multi t) (watch_dirty t) h (failure t).
Definition with_failure (f : TransactionFailure) (t : TransactionState) : TransactionState :=
  mkState (commands t) (in_multi t) (watch_dirty t) (has_watches t) f.

(** ** Watched keys

    The registry holds addresses of states; [transactions] is the store of states. *)
Record Watches := mkWatches {
  watched_ : gmap bytes (gset nat);
  transactions : gmap nat TransactionState;
}.

Definition put (i : nat) (t : TransactionState) (w : Watches) : Watches :=
  mkWatches (watched_ w) (<[i := t]> (transactions w)).

Definition watch_remove (i : nat) (w : Watches) : option Watches :=
  t ← transactions w !! i;
  if negb (has_watches t) then Some (put i (with_dirty false t) w)
  else
    let watched := omap (fun watchers : gset nat => let left := watchers ∖ {[i]} in if decide (left = ∅) then None else Some left) (watched_ w) in
    Some (mkWatches watched (<[i := with_dirty false (with_watches false t)]> (transactions w))).

(** Where the registration of a key runs out of memory, if it does. *)
Inductive watch_fate := registered | emplace_throws | insert_throws.

Fixpoint watch_keys (fate : nat -> watch_fate) (n : nat) (i : nat) (keys : list bytes) (watched : gmap bytes (gset nat)) : bool * gmap bytes (gset nat) :=
  match keys with
  | [] => (true, watched)
  | key :: keys =>
      match fate n with
      | emplace_throws => (false, watched)
      | insert_throws => (false, <[key := default ∅ (watched !! key)]> watched)
      | registered => watch_keys fate (S n) i keys (<[key := {[i]} ∪ default ∅ (watched !! key)]> watched)
      end
  end.

(** [watch]: [false] is the exception, after the clean-up of the handler. *)
Definition watch (fate : nat -> watch_fate) (i : nat) (keys : list bytes) (w : Watches) : option (bool * Watches) :=
  t ← transactions w !! i;
  let '(ok, watched) := watch_keys fate 0 i keys (watched_ w) in
  let w := mkWatches watched (<[i := with_watches true t]> (transactions w)) in
  if (ok : bool) then Some (true, w) else w ← watch_remove i w; Some (false, w).

Definition mark_dirty (watchers : list nat) (ts : gmap nat TransactionState) : gmap nat TransactionState :=
  foldl (fun ts i => alter (with_dirty true) i ts) ts watchers.
Definition modified (key : bytes) (w : Watches) : Watches :=
  match watched_ w !! key with
  | None => w
  | Some watchers => mkWatches (watched_ w) (mark_dirty (elements watchers) (transactions w))
  end.
Definition modified_all (w : Watches) : Watches :=
  mkWatches (watched_ w) (map_fold (fun _ (watchers : gset nat) ts => mark_dirty (elements watchers) ts) (transactions w) (watched_ w)).

(** What the mutation observer of the store is told. *)
Inductive modification := key_modified (key : bytes) | all_modified.
Definition observe (w : Watches) (m : modification) : Watches :=
  match m with key_modified key => modified key w | all_modified => modified_all w end.

(** *** What the registry promises *)

Definition watching (w : Watches) (key : bytes) (i : nat) : Prop := i ∈ default ∅ (watched_ w !! key).
Definition dirty (w : Watches) (i : nat) : Prop := exists t, transactions w !! i = Some t /\ watch_dirty t = true.
Definition touches (m : modification) (key : bytes) : Prop :=
  match m with key_modified k => k = key | all_modified => True end.

Record watches_ok (w : Watches) : Prop := {
  w_nonempty : forall key set, watched_ w !! key = Some set -> set <> ∅;
  w_known : forall key i, watching w key i -> exists t, transactions w !! i = Some t /\ has_watches t = true;
  w_buffers : forall i t, transactions w !! i = Some t -> buffer_sized (commands t);
}.

Lemma mark_dirty_lookup l ts i : mark_dirty l ts !! i = (if decide (i ∈ l) then with_dirty true else id) <$> ts !! i.
Proof.
  unfold mark_dirty. revert ts. induction l as [|j l IH]; intros ts; cbn [foldl].
  { rewrite decide_False by apply not_elem_of_nil. by destruct (ts !! i). }
  rewrite IH. destruct (decide (j = i)) as [->|Hne].
  - rewrite lookup_alter_eq, (decide_True (P := i ∈ i :: l)) by (by left). by destruct (ts !! i), (decide (i ∈ l)).
  - rewrite lookup_alter_ne by done. f_equal. apply decide_ext. rewrite elem_of_cons. naive_solver.
Qed.

(** The states a modification marks. *)
Definition hit (w : Watches) (m : modification) (i : nat) : Prop := exists key, touches m key /\ watching w key i.

Lemma modified_all_lookup (watched : gmap bytes (gset nat)) (ts : gmap nat TransactionState) (i : nat) :
  exists b : bool, map_fold (fun _ (watchers : gset nat) ts => mark_dirty (elements watchers) ts) ts watched !! i
     = (if b then with_dirty true else id) <$> ts !! i
   /\ (b = true <-> exists key, i ∈ default ∅ (watched !! key)).
Proof.
  apply (map_fold_weak_ind (fun r m => exists b : bool, r !! i = (if b then with_dirty true else id) <$> ts !! i
    /\ (b = true <-> exists key, i ∈ default ∅ ((m : gmap bytes (gset nat)) !! key)))).
  - exists false. split; [by destruct (ts !! i)|]. split; [done|]. intros (key & Hk). rewrite lookup_empty in Hk. set_solver.
  - intros key x m r Hm (b & Hr & Hb). exists (b || bool_decide (i ∈ x)). split.
    + rewrite mark_dirty_lookup, Hr. destruct (decide (i ∈ x)) as [Hx|Hx].
      * rewrite decide_True by (by apply elem_of_elements). rewrite bool_decide_eq_true_2 by done. by destruct (ts !! i), b.
      * rewrite decide_False by (by rewrite elem_of_elements). rewrite bool_decide_eq_false_2 by done. by destruct (ts !! i), b.
    + rewrite orb_true_iff, bool_decide_eq_true, Hb. split.
      * intros [(k & Hk)|Hx]; [|exists key; by rewrite lookup_insert_eq]. exists k. rewrite lookup_insert_ne; [done|].
        intros ->. rewrite Hm in Hk. set_solver.
      * intros (k & Hk). destruct (decide (k = key)) as [->|]; [right; by rewrite lookup_insert_eq in Hk|].
        left. exists k. by rewrite lookup_insert_ne in Hk.
Qed.

Lemma observe_spec w m i :
  watched_ (observe w m) = watched_ w
  /\ exists b : bool, transactions (observe w m) !! i = (if b then with_dirty true else id) <$> transactions w !! i /\ (b = true <-> hit w m i).
Proof.
  destruct m as [key|]; simpl.
  - unfold modified. destruct (watched_ w !! key) as [set|] eqn:Hl; simpl; (split; [done|]).
    + exists (bool_decide (i ∈ set)). rewrite mark_dirty_lookup. split.
      * case_bool_decide; [rewrite decide_True by (by apply elem_of_elements)|rewrite decide_False by (by rewrite elem_of_elements)]; done.
      * rewrite bool_decide_eq_true. unfold hit, watching. simpl. split; [intros Hi; exists key; by rewrite Hl|]. intros (k & <- & Hi). by rewrite Hl in Hi.
    + exists false. split; [by destruct (transactions w !! i)|]. unfold hit, watching. simpl. split; [done|]. intros (k & <- & Hi). rewrite Hl in Hi. set_solver.
  - split; [done|]. destruct (modified_all_lookup (watched_ w) (transactions w) i) as (b & H1 & H2). exists b. split; [done|]. rewrite H2.
    unfold hit, watching. simpl. naive_solver.
Qed.

Lemma observe_all_spec ms w i :
  watched_ (foldl observe w ms) = watched_ w
  /\ exists b : bool, transactions (foldl observe w ms) !! i = (if b then with_dirty true else id) <$> transactions w !! i
     /\ (b = true <-> exists m, m ∈ ms /\ hit w m i).
Proof.
  revert w. induction ms as [|m ms IH]; intros w; simpl.
  { split; [done|]. exists false. split; [by destruct (transactions w !! i)|]. split; [done|]. intros (m & Hm & _). by apply elem_of_nil in Hm. }
  destruct (observe_spec w m i) as (H1 & b1 & H2 & H3). destruct (IH (observe w m)) as (I1 & b2 & I2 & I3). split; [congruence|].
  exists (b1 || b2). split.
  - rewrite I2, H2. by destruct (transactions w !! i), b1, b2.
  - assert (Hh : forall m', hit (observe w m) m' i <-> hit w m' i) by (intros; unfold hit, watching; by rewrite H1).
    rewrite orb_true_iff, H3, I3. setoid_rewrite Hh. setoid_rewrite elem_of_cons. naive_solver.
Qed.

(** A state that has watches loses them, and sets left empty go. *)
Lemma watch_remove_registered w i t :
  (forall key j, watching w key j -> exists t, transactions w !! j = Some t /\ has_watches t = true) ->
  (forall j t, transactions w !! j = Some t -> buffer_sized (commands t)) ->
  transactions w !! i = Some t -> has_watches t = true ->
  exists w', watch_remove i w = Some w' /\ watches_ok w' /\ (forall key j, watching w' key j <-> watching w key j /\ j <> i)
    /\ transactions w' = <[i := with_dirty false (with_watches false t)]> (transactions w).
Proof.
  intros H2 H3 Ht Hh. unfold watch_remove. rewrite Ht. cbn [mbind option_bind]. rewrite Hh. cbn [negb].
  set (drop_i := fun watchers : gset nat => let left := watchers ∖ {[i]} in if decide (left = ∅) then None else Some left).
  eexists. split; [done|].
  assert (Hw : forall key j, j ∈ default ∅ (omap drop_i (watched_ w) !! key) <-> watching w key j /\ j <> i).
  { intros key j. rewrite lookup_omap. unfold watching. destruct (watched_ w !! key) as [set|]; simpl; [|set_solver].
    unfold drop_i. cbn zeta. case_decide as Hd; simpl; set_solver. }
  split_and!; [|exact Hw|done]. split; simpl.
  - intros key set. rewrite lookup_omap. destruct (watched_ w !! key) as [set0|]; simpl; [|done]. unfold drop_i. cbn zeta. case_decide; [done|]. by intros [= <-].
  - intros key j. unfold watching. simpl. rewrite Hw. intros [Hj Hne]. destruct (H2 key j Hj) as (tj & Htj & Hhj). exists tj. by rewrite lookup_insert_ne.
  - intros j tj. rewrite lookup_insert_Some. intros [[<- <-]|[_ Hj]]; [by apply (H3 i t)|by eapply H3].
Qed.

Lemma watch_remove_spec w i t :
  watches_ok w -> transactions w !! i = Some t ->
  exists w', watch_remove i w = Some w' /\ watches_ok w' /\ (forall key j, watching w' key j <-> watching w key j /\ j <> i)
    /\ transactions w' = <[i := with_dirty false (with_watches false t)]> (transactions w).
Proof.
  intros [H1 H2 H3] Ht. destruct (has_watches t) eqn:Hh; [by apply watch_remove_registered|].
  unfold watch_remove. rewrite Ht. cbn [mbind option_bind]. rewrite Hh. cbn [negb]. eexists. split; [done|].
  assert (Hnot : forall key, ~ watching w key i) by (intros key Hk; destruct (H2 key i Hk) as (t' & Ht' & Hh'); congruence).
  split_and!.
  - split; simpl; [done| |].
    + intros key j Hj. destruct (H2 key j Hj) as (tj & Htj & Hhj). exists tj. rewrite lookup_insert_ne; [done|]. intros ->. by destruct (Hnot key).
    + intros j tj. rewrite lookup_insert_Some. intros [[<- <-]|[_ Hj]]; [by apply (H3 i t)|by eapply H3].
  - intros key j. change (watching (put i (with_dirty false t) w) key j) with (watching w key j). split; [|tauto]. intros Hj. split; [done|]. intros ->. by destruct (Hnot key).
  - simpl. f_equal. destruct t. simpl in *. by subst.
Qed.

Lemma watch_keys_spec (fate : nat -> watch_fate) (n : nat) (i : nat) (keys : list bytes) (watched : gmap bytes (gset nat)) :
  let '(ok, watched') := watch_keys fate n i keys watched in
  (forall (key : bytes) (j : nat), j <> i -> j ∈ default ∅ (watched' !! key) <-> j ∈ default ∅ (watched !! key))
  /\ (forall key : bytes, i ∈ default ∅ (watched !! key) -> i ∈ default ∅ (watched' !! key))
  /\ (ok = true -> forall key : bytes, i ∈ default ∅ (watched' !! key) <-> i ∈ default ∅ (watched !! key) \/ key ∈ keys)
  /\ (ok = true -> (forall (key : bytes) (set : gset nat), watched !! key = Some set -> set <> ∅) -> forall (key : bytes) (set : gset nat), watched' !! key = Some set -> set <> ∅).
Proof.
  revert n watched. induction keys as [|k keys IH]; intros n watched; simpl.
  { split_and!; try done. intros _ key. rewrite elem_of_nil. tauto. }
  assert (Hlook : forall key x, default ∅ (<[k := x]> watched !! key) = if decide (key = k) then x else default ∅ (watched !! key)).
  { intros key x. case_decide; [subst; by rewrite lookup_insert_eq|by rewrite lookup_insert_ne]. }
  destruct (fate n); simpl; try (split_and!; [..|done|done]); try done.
  2,3: intros; rewrite Hlook; case_decide; subst; done.
  specialize (IH (S n) (<[k := {[i]} ∪ default ∅ (watched !! k)]> watched)). destruct (watch_keys _ _ _ _ _) as [ok watched'].
  destruct IH as (I1 & I2 & I3 & I4). split_and!.
  - intros key j Hj. rewrite I1, Hlook by done. case_decide; subst; set_solver.
  - intros key Hk. apply I2. rewrite Hlook. case_decide; subst; set_solver.
  - intros Hok key. rewrite I3, Hlook, elem_of_cons by done. case_decide; subst; set_solver.
  - intros Hok Hne. apply I4; [done|]. intros key set. rewrite lookup_insert_Some. intros [[-> <-]|[_ Hl]]; [set_solver|by eapply Hne].
Qed.

Lemma watch_keys_fails fate n i keys watched : (watch_keys fate n i keys watched).1 = false -> exists n, fate n <> registered.
Proof.
  revert n watched. induction keys as [|k keys IH]; intros n watched; simpl; [done|].
  destruct (fate n) eqn:E; [apply IH|intros _; exists n; congruence..].
Qed.

(** WATCH registers the keys, or, when memory runs out, leaves the state without any. *)
Lemma watch_spec fate w i (keys : list bytes) t :
  watches_ok w -> transactions w !! i = Some t ->
  exists (ok : bool) w' t', watch fate i keys w = Some (ok, w') /\ watches_ok w' /\ transactions w' = <[i := t']> (transactions w)
    /\ commands t' = commands t /\ in_multi t' = in_multi t /\ failure t' = failure t
    /\ watch_dirty t' = (if ok then watch_dirty t else false)
    /\ (forall key j, watching w' key j <-> if ok then watching w key j \/ (j = i /\ key ∈ keys) else watching w key j /\ j <> i)
    /\ (ok = false -> exists n, fate n <> registered).
Proof.
  intros Hw Ht. unfold watch. rewrite Ht. cbn [mbind option_bind]. pose proof (watch_keys_spec fate 0 i keys (watched_ w)) as Hk.
  pose proof (watch_keys_fails fate 0 i keys (watched_ w)) as Hfate.
  destruct (watch_keys fate 0 i keys (watched_ w)) as [ok watched]. destruct Hk as (K1 & K2 & K3 & K4). destruct Hw as [H1 H2 H3].
  assert (Hbuf : forall j tj, <[i := with_watches true t]> (transactions w) !! j = Some tj -> buffer_sized (commands tj)).
  { intros j tj. rewrite lookup_insert_Some. intros [[<- <-]|[_ Hj]]; [by apply (H3 i t)|by eapply H3]. }
  assert (Hknown : forall key j, j ∈ default ∅ (watched !! key) -> exists t0, <[i := with_watches true t]> (transactions w) !! j = Some t0 /\ has_watches t0 = true).
  { intros key j Hj. destruct (decide (j = i)) as [->|Hne]; [exists (with_watches true t); by rewrite lookup_insert_eq|].
    rewrite lookup_insert_ne by done. rewrite K1 in Hj by done. by eapply H2. }
  destruct ok.
  - eexists _, _, _. split; [done|].
    assert (Hwt : forall key j, j ∈ default ∅ (watched !! key) <-> watching w key j \/ j = i /\ key ∈ keys).
    { intros key j. destruct (decide (j = i)) as [->|Hne]; [rewrite K3 by done; unfold watching; naive_solver|]. rewrite K1 by done. unfold watching. naive_solver. }
    split_and!; try done. split; [by apply K4|done|done].
  - destruct (watch_remove_registered (mkWatches watched (<[i := with_watches true t]> (transactions w))) i (with_watches true t))
      as (w' & Hr & Hok & Hwt & Htr); [done|done|apply lookup_insert_eq|done|].
    rewrite Hr. cbn [mbind option_bind]. eexists _, _, _. split; [done|]. split; [done|]. split; [rewrite Htr; simpl; apply insert_insert_eq|].
    split_and!; try done.
    intros key j. rewrite Hwt. unfold watching. simpl. destruct (decide (j = i)) as [->|Hne]; [naive_solver|]. by rewrite K1.
Qed.

(** ** The dispatcher *)

Definition ascii_upper (c : byte) : byte := if (97 <=? u8 c) && (u8 c <=? 122) then b8 (u8 c - 32) else c.
Definition equals_ascii_ci (lhs rhs : bytes) : bool :=
  Nat.eqb (length lhs) (length rhs) && forallb (fun p => bool_decide (ascii_upper p.1 = ascii_upper p.2)) (zip lhs rhs).

Fixpoint zero_views (views : list view) (data : bytes) : option bytes :=
  match views with
  | [] => Some data
  | v :: views => data ← zero v.1 v.2 data; zero_views views data
  end.
(** [scrub_auth_request] of a decoded record, in the mapping. *)
Definition scrub_auth_request (fields : list bytes) (views : list view) (b : TransactionBuffer) : option TransactionBuffer :=
  match fields with
  | [] => Some b
  | name :: _ =>
      if negb (equals_ascii_ci name (str "AUTH")) && negb (equals_ascii_ci name (str "HELLO")) then Some b
      else data ← zero_views (drop 1 views) (data_ b); Some (mkBuffer data (capacity_ b) (used_bytes_ b) (command_count_ b))
  end.

Definition is_pubsub_command (type : CommandType) : bool :=
  match type with CT_subscribe | CT_unsubscribe | CT_psubscribe | CT_punsubscribe | CT_publish | CT_pubsub => true | _ => false end.
Definition allowed_while_resp2_subscribed (type : CommandType) : bool :=
  match type with CT_subscribe | CT_unsubscribe | CT_psubscribe | CT_punsubscribe | CT_ping | CT_quit => true | _ => false end.
Definition allowed_before_authentication (type : CommandType) : bool :=
  match type with CT_auth | CT_hello | CT_quit => true | _ => false end.

Definition append_transaction_limit_error (out : bytes) (mapped_bytes : nat) : bytes :=
  append_error out (str "ERR transaction exceeds the configured " ++ to_chars_u64 (Z.of_nat mapped_bytes) ++ str "-byte buffer limit").

Section dispatch.
Context {W : Type}.
(** The handlers of ordinary and of subscription commands; expiry of a key;
    the two streams that take a connection over; the service of blocked commands. *)
Context (execute_command_into : nat -> bool -> Command -> W -> W * bytes * list modification)
  (pubsub_execute : nat -> Command -> W -> W * bytes)
  (purge_if_expired : bytes -> W -> W * list modification)
  (firehose : nat -> W -> W * bytes) (leave : nat -> W -> W) (dump_world : nat -> bool -> W -> W * bytes)
  (serve_ready : W -> W * list modification).
(** What the dispatcher reads and writes of the session besides the transaction. *)
Context (resp_version : nat -> W -> Version) (resp2_subscribed : nat -> W -> bool) (unauthenticated : nat -> W -> bool)
  (set_wire_mode : nat -> W -> W) (record_reply : nat -> bytes -> W -> W).
(** Whether a registration of watched keys runs out of memory. *)
Context (fate : nat -> watch_fate).

(** The world, the watches, and what the observer was told so far. *)
Record Sys := mkSys { world : W; watches : Watches; told : list modification }.

Definition with_world (x : W) (s : Sys) : Sys := mkSys x (watches s) (told s).
Definition with_state (i : nat) (t : TransactionState) (s : Sys) : Sys := mkSys (world s) (put i t (watches s)) (told s).
Definition tell (ms : list modification) (s : Sys) : Sys := mkSys (world s) (foldl observe (watches s) ms) (told s ++ ms).

Definition run_command (i : nat) (blocking : bool) (c : Command) (s : Sys) : Sys * bytes :=
  let '(x, out, ms) := execute_command_into i blocking c (world s) in (tell ms (with_world x s), out).
Definition run_pubsub (i : nat) (c : Command) (s : Sys) : Sys * bytes :=
  let '(x, out) := pubsub_execute i c (world s) in (with_world x s, out).

(** A command of the queue. *)
Definition run_queued (i : nat) (fields : list bytes) (s : Sys) (out : bytes) : Sys * bytes :=
  match Parse.parse_fields fields with
  | inl error => (s, append_error out error)
  | inr c =>
      if ct_eqb (c_type c) CT_unwatch then (s, append_simple_string out (str "OK"))
      else if is_pubsub_command (c_type c) then let '(s, reply) := run_pubsub i c s in (s, out ++ reply)
      else let '(s, reply) := run_command i false c s in (s, out ++ reply)
  end.

Fixpoint run_queue (count : nat) (i : nat) (offset : nat) (s : Sys) (out : bytes) : option (Sys * bytes) :=
  match count with
  | O => Some (s, out)
  | S count =>
      t ← transactions (watches s) !! i;
      decoded ← decode offset (commands t);
      match decoded with
      | None => Some (s, append_error out (str "ERR corrupt transaction buffer"))
      | Some (offset, views) =>
          fields ← mapM (view_bytes (data_ (commands t))) views;
          let '(s, out) := run_queued i fields s out in
          t ← transactions (watches s) !! i;
          b ← scrub_auth_request fields views (commands t);
          run_queue count i offset (with_state i (with_commands b t) s) out
      end
  end.

Definition finish_state (i : nat) (s : Sys) : option Sys :=
  t ← transactions (watches s) !! i; t ← finish t; Some (with_state i t s).
Definition remove_watches (i : nat) (s : Sys) : option Sys :=
  w ← watch_remove i (watches s); Some (mkSys (world s) w (told s)).

Definition execute_queued_transaction (i : nat) (s : Sys) (out : bytes) : option (Sys * bytes) :=
  t ← transactions (watches s) !! i;
  if negb (in_multi t) then Some (s, append_error out (str "ERR EXEC without MULTI"))
  else
    let dirty := watch_dirty t in
    s ← remove_watches i s;
    if (dirty : bool) then
      s ← finish_state i s;
      Some (s, match resp_version i (world s) with
               | resp3 => append_null out resp3
               | resp2 => out ++ str "*-1" ++ crlf
               end)
    else
      let failure := failure t in
      if negb (bool_decide (failure = no_failure)) then
        let capacity := capacity_ (commands t) in
        s ← finish_state i s;
        Some (s, if decide (failure = buffer_limit)
                 then append_error out (str "EXECABORT Transaction discarded because its "
                        ++ to_chars_u64 (Z.of_nat capacity) ++ str "-byte buffer limit was exceeded.")
                 else append_error out (str "EXECABORT Transaction discarded because of previous errors."))
      else
        let count := command_count_ (commands t) in
        t ← transactions (watches s) !! i;
        '(s, out) ← run_queue count i 0 (with_state i (with_multi false t) s) (append_array_header out (Z.of_nat count));
        s ← finish_state i s;
        Some (s, out).

Fixpoint purge_keys (keys : list bytes) (s : Sys) : Sys :=
  match keys with
  | [] => s
  | key :: keys => let '(x, ms) := purge_if_expired key (world s) in purge_keys keys (tell ms (with_world x s))
  end.

(** [execute_transaction_control]: whether the command was handled. *)
Definition queue_command (i : nat) (t : TransactionState) (fields : list bytes) (s : Sys) (out : bytes) : option (bool * Sys * bytes) :=
  if negb (in_multi t) then Some (false, s, out)
  else if decide (failure t = buffer_limit) then Some (true, s, append_transaction_limit_error out (capacity_ (commands t)))
  else
    '(ok, b) ← append fields (commands t);
    if (ok : bool) then Some (true, with_state i (with_commands b t) s, append_simple_string out (str "QUEUED"))
    else Some (true, with_state i (with_failure buffer_limit (with_commands b t)) s,
               append_transaction_limit_error out (capacity_ (commands t))).

Definition execute_transaction_control (i : nat) (command : Command) (fields : list bytes) (s : Sys) (out : bytes) : option (bool * Sys * bytes) :=
  t ← transactions (watches s) !! i;
  match c_type command with
  | CT_multi =>
      if in_multi t then Some (true, s, append_error out (str "ERR MULTI calls can not be nested"))
      else t ← begin_ t; Some (true, with_state i t s, append_simple_string out (str "OK"))
  | CT_exec => '(s, out) ← execute_queued_transaction i s out; Some (true, s, out)
  | CT_discard =>
      if negb (in_multi t) then Some (true, s, append_error out (str "ERR DISCARD without MULTI"))
      else s ← remove_watches i s; s ← finish_state i s; Some (true, s, append_simple_string out (str "OK"))
  | CT_watch =>
      if in_multi t then Some (true, s, append_error out (str "ERR WATCH inside MULTI is not allowed"))
      else
        let s := purge_keys (c_args command) s in
        '(ok, w) ← watch fate i (c_args command) (watches s);
        Some (true, mkSys (world s) w (told s),
              if (ok : bool) then append_simple_string out (str "OK") else append_error out (str "ERR unable to register watched keys"))
  | CT_unwatch =>
      if negb (in_multi t) then s ← remove_watches i s; Some (true, s, append_simple_string out (str "OK"))
      else queue_command i t fields s out
  | _ => queue_command i t fields s out
  end.

(** The end of a dispatch: the wire mode, the boundary of the reply and the blocked commands. *)
Definition finish_dispatch (i : nat) (out : bytes) (s : Sys) : Sys * bytes :=
  let s := with_world (record_reply i out (set_wire_mode i (world s))) s in
  let '(x, ms) := serve_ready (world s) in (tell ms (with_world x s), out).

Definition mark_command_error (t : TransactionState) : TransactionState :=
  if decide (failure t = buffer_limit) then t else with_failure command_error t.

Definition dispatch_resp_command (i : nat) (fields : list bytes) (s : Sys) : option (Sys * bytes) :=
  t ← transactions (watches s) !! i;
  match Parse.parse_fields fields with
  | inl error =>
      let s := if in_multi t then with_state i (mark_command_error t) s else s in
      let out := append_error [] error in
      Some (with_world (record_reply i out (world s)) s, out)
  | inr command =>
      let type := c_type command in
      if in_multi t && ct_eqb type CT_unknown then
        let s := with_state i (mark_command_error t) s in
        let '(s, out) := run_command i true command s in
        Some (with_world (record_reply i out (world s)) s, out)
      else if unauthenticated i (world s) && negb (allowed_before_authentication type) then
        Some (finish_dispatch i (append_error [] (str "NOAUTH Authentication required.")) s)
      else if resp2_subscribed i (world s) && negb (allowed_while_resp2_subscribed type) then
        Some (finish_dispatch i (append_error [] (str "ERR Can't execute this command while subscribed to a channel")) s)
      else if resp2_subscribed i (world s) && ct_eqb type CT_ping then
        out ← append_bulk_string (append_array_header [] 2) (str "pong");
        out ← append_bulk_string out (default [] (c_args command !! 0%nat));
        Some (finish_dispatch i out s)
      else
        '(handled, s, out) ← execute_transaction_control i command fields s [];
        if (handled : bool) then Some (finish_dispatch i out s)
        else
          match type with
          | CT_goblin_firehose =>
              s ← remove_watches i s;
              let '(x, out) := firehose i (leave i (world s)) in
              Some (finish_dispatch i out (with_world x s))
          | CT_goblin_dumpworld =>
              match resp_version i (world s) with
              | resp2 => Some (finish_dispatch i (append_error [] (str "ERR GOBLIN.DUMPWORLD requires HELLO 3")) s)
              | resp3 =>
                  let accel := match c_args command with
                               | [] => Some true
                               | a :: _ => if equals_ascii_ci a (str "NOACCEL") then Some false
                                           else if equals_ascii_ci a (str "ACCEL") then Some true else None
                               end in
                  match accel with
                  | None => Some (finish_dispatch i (append_error [] (str "ERR syntax error, expected ACCEL or NOACCEL")) s)
                  | Some with_accelerator =>
                      s ← remove_watches i s;
                      let '(x, out) := dump_world i with_accelerator (leave i (world s)) in
                      Some (finish_dispatch i out (with_world x s))
                  end
              end
          | _ =>
              let '(s, out) := if is_pubsub_command type then run_pubsub i command s else run_command i true command s in
              Some (finish_dispatch i out s)
          end
  end.

(** A connection goes away: its watches, then its state. *)
Definition disconnect (i : nat) (s : Sys) : option Sys :=
  s ← remove_watches i s;
  t ← transactions (watches s) !! i;
  t ← reset t;
  Some (with_state i t s).
(** *** Steps, as a watcher sees them *)

Definition sys_ok (s : Sys) : Prop := watches_ok (watches s).
Definition clients (s : Sys) : gset nat := dom (transactions (watches s)).

(** From [s] to [s'] the watches of [i] only grow, and its state is dirty afterwards
    when it was or when a key it watched was reported, and only then. *)
Definition advance (i : nat) (s s' : Sys) : Prop :=
  exists ms, told s' = told s ++ ms
    /\ (forall key, watching (watches s) key i -> watching (watches s') key i)
    /\ (dirty (watches s) i -> dirty (watches s') i)
    /\ (forall key m, watching (watches s) key i -> m ∈ ms -> touches m key -> dirty (watches s') i)
    /\ (dirty (watches s') i -> dirty (watches s) i \/ exists m key, m ∈ ms /\ touches m key /\ watching (watches s') key i).

Lemma advance_refl i s : advance i s s.
Proof. exists []. rewrite app_nil_r. split_and!; auto. intros key m _ H. by apply elem_of_nil in H. Qed.

Lemma advance_trans i s1 s2 s3 : advance i s1 s2 -> advance i s2 s3 -> advance i s1 s3.
Proof.
  intros (m1 & A1 & A2 & A3 & A4 & A5) (m2 & B1 & B2 & B3 & B4 & B5). exists (m1 ++ m2). rewrite B1, A1, app_assoc. split_and!; auto.
  - intros key m Hw Hm Ht. apply elem_of_app in Hm as [Hm|Hm]; eauto.
  - intros Hd. destruct (B5 Hd) as [Hd2|(m & key & H1 & H2 & H3)].
    + destruct (A5 Hd2) as [?|(m & key & H1 & H2 & H3)]; [by left|]. right. exists m, key. split_and!; auto. apply elem_of_app. by left.
    + right. exists m, key. split_and!; auto. apply elem_of_app. by right.
Qed.

(** A client's queue and its flags are as before. *)
Definition same_queue (j : nat) (s s' : Sys) : Prop :=
  forall t, transactions (watches s) !! j = Some t ->
  exists t', transactions (watches s') !! j = Some t' /\ commands t' = commands t /\ in_multi t' = in_multi t /\ failure t' = failure t.

(** A step of the system by client [a]: it keeps the invariant, the clients and the
    queues of the others, and advances every client but those of [except]. *)
Definition step_ok (a : nat) (except : nat -> Prop) (s s' : Sys) : Prop :=
  sys_ok s' /\ clients s' = clients s /\ (forall j, j <> a -> same_queue j s s') /\ forall i, ~ except i -> advance i s s'.

Lemma same_queue_refl j s : same_queue j s s.
Proof. intros t Ht. by exists t. Qed.

Lemma same_queue_trans j s1 s2 s3 : same_queue j s1 s2 -> same_queue j s2 s3 -> same_queue j s1 s3.
Proof.
  intros H1 H2 t Ht. destruct (H1 t Ht) as (t1 & A1 & A2 & A3 & A4). destruct (H2 t1 A1) as (t2 & B1 & B2 & B3 & B4).
  exists t2. split_and!; congruence.
Qed.

Lemma step_ok_refl a P s : sys_ok s -> step_ok a P s s.
Proof. intros H. split_and!; [done|done| |]; intros; [apply same_queue_refl|apply advance_refl]. Qed.

Lemma step_ok_trans a P s1 s2 s3 : step_ok a P s1 s2 -> step_ok a P s2 s3 -> step_ok a P s1 s3.
Proof.
  intros (A1 & A2 & A3 & A4) (B1 & B2 & B3 & B4). split_and!; [done|congruence| |].
  - intros j Hj. eapply same_queue_trans; eauto.
  - intros i Hi. eapply advance_trans; eauto.
Qed.

Lemma step_ok_weaken a (P Q : nat -> Prop) s s' : (forall i, P i -> Q i) -> step_ok a P s s' -> step_ok a Q s s'.
Proof. intros HPQ (A1 & A2 & A3 & A4). split_and!; auto. Qed.

Lemma step_ok_world a P x s : sys_ok s -> step_ok a P s (with_world x s).
Proof.
  intros H. split_and!; [done|done|intros; apply (same_queue_refl j s)|]. intros i _. exists []. simpl. rewrite app_nil_r. split_and!; auto.
  intros key m _ Hm. by apply elem_of_nil in Hm.
Qed.

Lemma tell_same_queue ms s j : same_queue j s (tell ms s).
Proof.
  intros t Ht. destruct (observe_all_spec ms (watches s) j) as (_ & b & Hb & _). simpl. rewrite Hb, Ht. simpl. eexists. split; [done|]. by destruct b.
Qed.

Lemma step_ok_tell a P ms s : sys_ok s -> step_ok a P s (tell ms s).
Proof.
  intros [H1 H2 H3]. assert (Hw : watched_ (foldl observe (watches s) ms) = watched_ (watches s)) by apply (observe_all_spec ms _ 0).
  assert (Hl : forall i, exists b : bool, transactions (foldl observe (watches s) ms) !! i = (if b then with_dirty true else id) <$> transactions (watches s) !! i
     /\ (b = true <-> exists m, m ∈ ms /\ hit (watches s) m i)) by (intros; apply observe_all_spec).
  assert (Hwt : forall key i, watching (foldl observe (watches s) ms) key i <-> watching (watches s) key i) by (intros; unfold watching; by rewrite Hw).
  split_and!.
  - split; simpl.
    + intros key set. rewrite Hw. apply H1.
    + intros key i Hi. rewrite Hwt in Hi. destruct (H2 key i Hi) as (t & Ht & Hh). destruct (Hl i) as (b & -> & _). rewrite Ht. simpl. eexists. split; [done|]. by destruct b.
    + intros i t. destruct (Hl i) as (b & -> & _). destruct (transactions (watches s) !! i) as [t0|] eqn:E; [|done]. simpl. intros [= <-].
      specialize (H3 i t0 E). by destruct b.
  - unfold clients. simpl. apply set_eq. intros i. rewrite !elem_of_dom. destruct (Hl i) as (b & -> & _). by rewrite fmap_is_Some.
  - intros j _. apply tell_same_queue.
  - intros i _. exists ms. split; [done|]. simpl. destruct (Hl i) as (b & Hb & Hhit). unfold dirty. rewrite Hb. split_and!.
    + intros key. by rewrite Hwt.
    + intros (t & Ht & Hd). rewrite Ht. simpl. eexists. split; [done|]. by destruct b.
    + intros key m Hk Hm Ht. destruct (H2 key i Hk) as (t & Hti & _). rewrite Hti. simpl. eexists. split; [done|].
      rewrite (proj2 Hhit); [done|]. exists m. split; [done|]. by exists key.
    + intros (t & Ht & Hd). destruct b.
      * right. destruct (proj1 Hhit eq_refl) as (m & Hm & key & Hk & Hw2). exists m, key. by rewrite Hwt.
      * left. destruct (transactions (watches s) !! i) as [t0|]; [|done]. simpl in Ht. injection Ht as <-. by exists t0.
Qed.

(** A state is replaced by one with the same watches. *)
Lemma step_ok_state P i t t' s :
  sys_ok s -> transactions (watches s) !! i = Some t -> watch_dirty t' = watch_dirty t -> has_watches t' = has_watches t ->
  buffer_sized (commands t') -> step_ok i P s (with_state i t' s).
Proof.
  intros [H1 H2 H3] Ht Hd Hh Hb. split_and!.
  - split; simpl; [done| |].
    + intros key j Hj. destruct (H2 key j Hj) as (tj & Htj & Hhj). destruct (decide (j = i)) as [->|Hne]; [exists t'; rewrite lookup_insert_eq; split; [done|congruence]|].
      exists tj. by rewrite lookup_insert_ne.
    + intros j tj. rewrite lookup_insert_Some. intros [[<- <-]|[_ Hj]]; [done|by eapply H3].
  - unfold clients. simpl. apply dom_insert_lookup_L. by exists t.
  - intros j Hj tj Htj. exists tj. simpl. by rewrite lookup_insert_ne.
  - intros j _. exists []. simpl. rewrite app_nil_r. split_and!; auto.
    + intros (tj & Htj & Hdj). destruct (decide (j = i)) as [->|Hne]; [exists t'; simpl; rewrite lookup_insert_eq; split; [done|congruence]|].
      exists tj. simpl. by rewrite lookup_insert_ne.
    + intros key m _ Hm. by apply elem_of_nil in Hm.
    + intros (tj & Htj & Hdj). left. simpl in Htj. destruct (decide (j = i)) as [->|Hne].
      * rewrite lookup_insert_eq in Htj. injection Htj as <-. exists t. split; [done|congruence].
      * rewrite lookup_insert_ne in Htj by done. by exists tj.
Qed.

Lemma step_ok_remove i s t :
  sys_ok s -> transactions (watches s) !! i = Some t ->
  exists s', remove_watches i s = Some s' /\ step_ok i (fun j => j = i) s s' /\ world s' = world s /\ told s' = told s
    /\ transactions (watches s') = <[i := with_dirty false (with_watches false t)]> (transactions (watches s)).
Proof.
  intros Hs Ht. destruct (watch_remove_spec (watches s) i t Hs Ht) as (w' & Hr & Hok & Hw & Htr). unfold remove_watches. rewrite Hr. cbn [mbind option_bind].
  eexists. split; [done|]. split; [|done]. split_and!; [done|unfold clients; simpl; rewrite Htr; apply dom_insert_lookup_L; by exists t| |].
  { intros j Hj tj Htj. exists tj. simpl. by rewrite Htr, lookup_insert_ne. }
  intros j Hj. exists []. simpl. rewrite app_nil_r. unfold dirty. rewrite Htr, lookup_insert_ne by (by intros ->; destruct Hj). split_and!; auto.
  - intros key Hk. apply Hw. split; [done|]. by intros ->; destruct Hj.
  - intros key m _ Hm. by apply elem_of_nil in Hm.
Qed.

Lemma step_ok_watch i keys s t :
  sys_ok s -> transactions (watches s) !! i = Some t ->
  exists (ok : bool) w, watch fate i keys (watches s) = Some (ok, w)
    /\ step_ok i (fun j => j = i /\ ok = false) s (mkSys (world s) w (told s))
    /\ (ok = false -> exists n, fate n <> registered)
    /\ (ok = true -> forall key, key ∈ keys -> watching w key i).
Proof.
  intros Hs Ht. destruct (watch_spec fate (watches s) i keys t Hs Ht) as (ok & w & t' & Hw & Hok & Htr & E1 & E2 & E3 & E4 & E5 & E6).
  exists ok, w. split; [done|]. split; [|split; [done|]].
  2:{ intros -> key Hk. apply E5. by right. }
  split_and!; [done|unfold clients; simpl; rewrite Htr; apply dom_insert_lookup_L; by exists t| |].
  { intros j Hj tj Htj. exists tj. simpl. by rewrite Htr, lookup_insert_ne. }
  intros j Hj. exists []. simpl. rewrite app_nil_r. unfold dirty. rewrite Htr. split_and!; auto.
  - intros key Hk. apply E5. destruct ok; [by left|]. split; [done|]. naive_solver.
  - intros (tj & Htj & Hdj). destruct (decide (j = i)) as [->|Hne]; [|rewrite lookup_insert_ne by done; by exists tj].
    rewrite lookup_insert_eq. exists t'. split; [done|]. destruct ok; [congruence|naive_solver].
  - intros key m _ Hm. by apply elem_of_nil in Hm.
  - intros (tj & Htj & Hdj). left. destruct (decide (j = i)) as [->|Hne]; [|rewrite lookup_insert_ne in Htj by done; by exists tj].
    rewrite lookup_insert_eq in Htj. injection Htj as <-. exists t. split; [done|]. destruct ok; [congruence|naive_solver].
Qed.
(** *** The queue *)

(** What one queued command does to the world. *)
Definition queued_effect (i : nat) (fields : list bytes) (x : W) : W * bytes * list modification :=
  match Parse.parse_fields fields with
  | inl error => (x, append_error [] error, [])
  | inr c =>
      if ct_eqb (c_type c) CT_unwatch then (x, append_simple_string [] (str "OK"), [])
      else if is_pubsub_command (c_type c) then let '(x, out) := pubsub_execute i c x in (x, out, [])
      else execute_command_into i false c x
  end.
Fixpoint queue_effect (i : nat) (cmds : list (list bytes)) (x : W) : W * bytes * list modification :=
  match cmds with
  | [] => (x, [], [])
  | fields :: cmds =>
      let '(x, out, ms) := queued_effect i fields x in
      let '(x, outs, mss) := queue_effect i cmds x in
      (x, out ++ outs, ms ++ mss)
  end.

Lemma run_queued_spec i fields s out P :
  sys_ok s ->
  let '(x, reply, ms) := queued_effect i fields (world s) in
  let '(s', out') := run_queued i fields s out in
  world s' = x /\ out' = out ++ reply /\ told s' = told s ++ ms /\ step_ok i P s s' /\ same_queue i s s'
  /\ watched_ (watches s') = watched_ (watches s).
Proof.
  intros Hs. unfold queued_effect, run_queued. destruct (Parse.parse_fields fields) as [e|c].
  { rewrite app_nil_r. split_and!; [done|done|done|by apply step_ok_refl|apply same_queue_refl|done]. }
  destruct (ct_eqb (c_type c) CT_unwatch).
  { rewrite app_nil_r. split_and!; [done|done|done|by apply step_ok_refl|apply same_queue_refl|done]. }
  destruct (is_pubsub_command (c_type c)).
  - unfold run_pubsub. destruct (pubsub_execute i c (world s)) as [x o]. rewrite app_nil_r.
    split_and!; [done|done|done|by apply step_ok_world|apply (same_queue_refl i s)|done].
  - unfold run_command. destruct (execute_command_into i false c (world s)) as [[x o] ms].
    split_and!; [done|done|done| |apply (tell_same_queue ms (with_world x s))|apply (observe_all_spec ms (watches s) i)].
    eapply step_ok_trans; [by apply (step_ok_world i P x)|]. by apply step_ok_tell.
Qed.

Lemma zero_prefix off n p rest :
  (off + n <= length p)%nat -> exists p', zero off n (p ++ rest) = Some (p' ++ rest) /\ length p' = length p.
Proof.
  intros Hn. unfold zero. rewrite <- (take_drop off p). set (p1 := take off p). rewrite <- (take_drop n (drop off p)). set (p2 := take n _). set (p3 := drop n _).
  assert (length p1 = off) by (unfold p1; rewrite length_take; lia).
  assert (length p2 = n) by (unfold p2; rewrite length_take, length_drop; lia).
  rewrite <- !app_assoc, (poke_app p1 p2) by (rewrite ?repeat_length; done).
  exists (p1 ++ repeat x00 n ++ p3). rewrite <- !app_assoc. split; [done|]. rewrite !length_app, repeat_length. lia.
Qed.

Lemma zero_views_prefix views p rest :
  Forall (fun v : view => (v.1 + v.2 <= length p)%nat) views ->
  exists p', zero_views views (p ++ rest) = Some (p' ++ rest) /\ length p' = length p.
Proof.
  revert p. induction views as [|v views IH]; intros p Hv; cbn [zero_views]; [by exists p|]. inversion_clear Hv as [|? ? H1 H2].
  destruct (zero_prefix v.1 v.2 p rest H1) as (p1 & -> & Hl). cbn [mbind option_bind].
  destruct (IH p1) as (p2 & -> & Hl2); [by rewrite Hl|]. exists p2. split; [done|congruence].
Qed.

Lemma field_views_bound fields cursor :
  Forall (fun v : view => (v.1 + v.2 <= cursor + length (fields_enc fields))%nat) (field_views cursor fields).
Proof.
  revert cursor. induction fields as [|f fields IH]; intros cursor; cbn [field_views]; [constructor|]. rewrite fields_enc_length. constructor; [simpl; lia|].
  eapply Forall_impl; [apply IH|]. intros v. simpl. lia.
Qed.

Lemma scrub_spec fields views b pre rest :
  data_ b = pre ++ rest -> Forall (fun v : view => (v.1 + v.2 <= length pre)%nat) views ->
  exists b' pre', scrub_auth_request fields views b = Some b' /\ data_ b' = pre' ++ rest /\ length pre' = length pre
    /\ capacity_ b' = capacity_ b /\ used_bytes_ b' = used_bytes_ b /\ command_count_ b' = command_count_ b.
Proof.
  intros Hd Hv. unfold scrub_auth_request. destruct fields as [|name fields]; [by exists b, pre|].
  destruct (_ && _); [by exists b, pre|]. rewrite Hd.
  destruct (zero_views_prefix (drop 1 views) pre rest) as (p' & -> & Hl); [by apply Forall_drop|]. cbn [mbind option_bind]. eexists _, p'. split; [done|]. done.
Qed.

Lemma run_queue_spec i cmds s out t pre post P :
  sys_ok s -> transactions (watches s) !! i = Some t ->
  data_ (commands t) = pre ++ queue_enc cmds ++ post -> used_bytes_ (commands t) = (length pre + length (queue_enc cmds))%nat ->
  Forall (fun fields => Z.of_nat (record_length fields) <= kMaxRecord) cmds ->
  let '(x, reply, ms) := queue_effect i cmds (world s) in
  exists s', run_queue (length cmds) i (length pre) s out = Some (s', out ++ reply) /\ world s' = x /\ told s' = told s ++ ms /\ step_ok i P s s'
    /\ watched_ (watches s') = watched_ (watches s) /\ exists t', transactions (watches s') !! i = Some t'.
Proof.
  revert s out t pre. induction cmds as [|fields cmds IH]; intros s out t pre Hs Ht Hd Hu Hsz; cbn [queue_effect length run_queue].
  { exists s. rewrite !app_nil_r. split_and!; [done|done|done|by apply step_ok_refl|done|by exists t]. }
  inversion_clear Hsz as [|? ? Hz1 Hz2]. rewrite Ht. cbn [mbind option_bind].
  destruct (decode_spec fields cmds (commands t) pre post Hd Hu Hz1) as (views & -> & Hv & Hviews). cbn [mbind option_bind]. rewrite Hv. cbn [mbind option_bind].
  pose proof (run_queued_spec i fields s out P Hs) as Hq. destruct (queued_effect i fields (world s)) as [[x1 o1] ms1].
  destruct (run_queued i fields s out) as [s1 out1]. destruct Hq as (Hx1 & -> & Hm1 & Hst1 & Hsq1 & Hw1).
  destruct (Hsq1 t Ht) as (t1 & Ht1 & Hc1 & _). rewrite Ht1. cbn [mbind option_bind].
  change (fields :: cmds) with ([fields] ++ cmds) in Hd, Hu. rewrite queue_enc_app, queue_enc_one in Hd, Hu. rewrite length_app, command_record_length in Hu.
  destruct (scrub_spec fields views (commands t1) (pre ++ record_enc fields) (queue_enc cmds ++ post)) as (b' & pre' & -> & Hb1 & Hb2 & Hb3 & Hb4 & Hb5).
  { by rewrite Hc1, Hd, <- !app_assoc. }
  { rewrite Hviews, length_app, command_record_length. eapply Forall_impl; [apply field_views_bound|]. intros v. cbn beta. unfold record_length, kRecordHeaderBytes. lia. }
  cbn [mbind option_bind]. rewrite length_app, command_record_length in Hb2.
  set (s2 := with_state i (with_commands b' t1) s1).
  assert (Hst2 : step_ok i P s1 s2).
  { destruct Hst1 as (Hok1 & _). apply (step_ok_state P i t1); [done|done|done|done|]. simpl.
    destruct (w_buffers _ Hok1 i t1 Ht1) as [W1 W2]. split; [rewrite Hb3, W1|rewrite Hb4; etrans; [exact W2|]]; rewrite Hb1, Hc1, Hd, !length_app, command_record_length; lia. }
  destruct Hst2 as [Hok2 Hst2]. specialize (IH s2 (out ++ o1) (with_commands b' t1) pre' Hok2).
  rewrite Hb2 in IH. assert (Hw2 : world s2 = x1) by done. rewrite Hw2 in IH.
  destruct (queue_effect i cmds x1) as [[x2 o2] ms2]. destruct IH as (s3 & He & Hx3 & Hm3 & Hst3 & Hw3 & Ht3); [apply lookup_insert_eq|done|simpl; rewrite Hb4, Hc1; lia|done|].
  exists s3. split_and!; [by rewrite He, <- app_assoc|done|rewrite Hm3; simpl; by rewrite Hm1, app_assoc| |rewrite Hw3; exact Hw1|done].
  eapply step_ok_trans; [exact Hst1|]. eapply step_ok_trans; [|exact Hst3]. by split.
Qed.
Lemma finish_state_spec i s t P :
  sys_ok s -> transactions (watches s) !! i = Some t ->
  exists s' t', finish_state i s = Some s' /\ step_ok i P s s' /\ world s' = world s /\ told s' = told s
    /\ watched_ (watches s') = watched_ (watches s)
    /\ transactions (watches s') !! i = Some t' /\ buffer_holds (commands t') [] /\ capacity_ (commands t') = capacity_ (commands t)
    /\ in_multi t' = false /\ failure t' = no_failure /\ watch_dirty t' = watch_dirty t.
Proof.
  intros Hs Ht. unfold finish_state, finish. rewrite Ht. cbn [mbind option_bind].
  destruct (buffer_clear_spec (commands t) (w_buffers _ Hs i t Ht)) as (b & -> & Hb & Hc). cbn [mbind option_bind].
  set (t' := mkState b false (watch_dirty t) (has_watches t) no_failure). exists (with_state i t' s), t'.
  split_and!; try done; [|simpl; apply lookup_insert_eq]. apply (step_ok_state P i t); try done. by eapply holds_sized.
Qed.

(** The state of a client outside MULTI, with nothing queued or watched. *)
Definition idle (i : nat) (s : Sys) : Prop :=
  (exists t, transactions (watches s) !! i = Some t /\ in_multi t = false /\ failure t = no_failure /\ watch_dirty t = false
     /\ buffer_holds (commands t) []) /\ forall key, ~ watching (watches s) key i.

Definition null_array (v : Version) : bytes := match v with resp3 => str "_" ++ crlf | resp2 => str "*-1" ++ crlf end.
Definition abort_message (f : TransactionFailure) (capacity : nat) : bytes :=
  if decide (f = buffer_limit)
  then str "EXECABORT Transaction discarded because its " ++ to_chars_u64 (Z.of_nat capacity) ++ str "-byte buffer limit was exceeded."
  else str "EXECABORT Transaction discarded because of previous errors.".

Lemma exec_spec i s out t cmds :
  sys_ok s -> transactions (watches s) !! i = Some t -> buffer_holds (commands t) cmds ->
  exists s' out', execute_queued_transaction i s out = Some (s', out') /\ step_ok i (fun j => j = i) s s' /\
    if negb (in_multi t) then s' = s /\ out' = append_error out (str "ERR EXEC without MULTI")
    else idle i s' /\
      if watch_dirty t then world s' = world s /\ told s' = told s /\ out' = out ++ null_array (resp_version i (world s))
      else if decide (failure t = no_failure) then
        let '(x, reply, ms) := queue_effect i cmds (world s) in
        world s' = x /\ told s' = told s ++ ms /\ out' = out ++ header_line "*" (Z.of_nat (length cmds)) ++ reply
      else world s' = world s /\ told s' = told s /\ out' = append_error out (abort_message (failure t) (capacity_ (commands t))).
Proof.
  intros Hs Ht Hb. unfold execute_queued_transaction. rewrite Ht. cbn [mbind option_bind].
  destruct (in_multi t) eqn:Hm; cbn [negb]; [|eexists _, _; split; [done|]; split; [by apply step_ok_refl|done]]. cbn zeta.
  destruct (step_ok_remove i s t Hs Ht) as (s1 & Hrem & Hst1 & Hw1 & Hm1 & Htr1).
  assert (Hnw : forall key, ~ watching (watches s1) key i).
  { intros key Hk. unfold remove_watches in Hrem. destruct (watch_remove_spec (watches s) i t Hs Ht) as (w' & Hwr & _ & Hww & _).
    rewrite Hwr in Hrem. simpl in Hrem. injection Hrem as <-. apply Hww in Hk. tauto. }
  rewrite Hrem. cbn [mbind option_bind]. set (t1 := with_dirty false (with_watches false t)) in *.
  assert (Ht1 : transactions (watches s1) !! i = Some t1) by (rewrite Htr1; apply lookup_insert_eq). destruct Hst1 as [Hok1 Hst1'].
  pose proof (conj Hok1 Hst1' : step_ok i (fun j => j = i) s s1) as Hst1.
  assert (Hend : exists s2, finish_state i s1 = Some s2 /\ step_ok i (fun j => j = i) s s2 /\ world s2 = world s /\ told s2 = told s /\ idle i s2).
  { destruct (finish_state_spec i s1 t1 (fun j => j = i) Hok1 Ht1) as (s2 & t2 & -> & Hst2 & A1 & A2 & A3 & A4 & A5 & A6 & A7 & A8 & A9).
    exists s2. split_and!; [done|by eapply step_ok_trans|congruence|congruence|]. split; [by exists t2|]. intros key. unfold watching. rewrite A3. apply Hnw. }
  destruct (watch_dirty t).
  { destruct Hend as (s2 & -> & B1 & B2 & B3 & B4). cbn [mbind option_bind]. eexists _, _. split; [done|]. split_and!; try done. rewrite B2. by destruct (resp_version i (world s)). }
  destruct (decide (failure t = no_failure)) as [Hf|Hf].
  2:{ rewrite bool_decide_eq_false_2 by done. cbn [negb]. destruct Hend as (s2 & -> & B1 & B2 & B3 & B4). cbn [mbind option_bind].
      eexists _, _. split; [done|]. split_and!; try done. unfold abort_message. by case_decide. }
  rewrite bool_decide_eq_true_2 by done. cbn [negb]. rewrite Ht1. cbn [mbind option_bind].
  set (s2 := with_state i (with_multi false t1) s1).
  assert (Hst2 : step_ok i (fun j => j = i) s1 s2) by (apply (step_ok_state _ i t1); try done; by eapply holds_sized).
  destruct Hst2 as [Hok2 Hst2']. destruct Hb as [Hbc [post Hbd] Hbu Hbn Hbs]. rewrite Hbn, append_array_header_eq by lia.
  pose proof (run_queue_spec i cmds s2 (out ++ header_line "*" (Z.of_nat (length cmds))) (with_multi false t1) [] post (fun j => j = i) Hok2) as Hrun.
  assert (Hws : world s2 = world s) by (simpl; done). rewrite Hws in Hrun. destruct (queue_effect i cmds (world s)) as [[x reply] ms].
  destruct Hrun as (s3 & He & Hx3 & Hm3 & Hst3 & Hw3 & [t3 Ht3]); [apply lookup_insert_eq|done|done|done|]. cbn [length] in He. rewrite He. cbn [mbind option_bind].
  destruct Hst3 as [Hok3 Hst3']. pose proof (conj Hok3 Hst3' : step_ok i (fun j => j = i) s2 s3) as Hst3.
  destruct (finish_state_spec i s3 t3 (fun j => j = i) Hok3 Ht3) as (s4 & t4 & -> & Hst4 & A1 & A2 & A3 & A4 & A5 & A6 & A7 & A8 & A9).
  cbn [mbind option_bind]. eexists _, _. split; [done|]. split.
  { eapply step_ok_trans; [exact Hst1|]. eapply step_ok_trans; [exact (conj Hok2 Hst2')|]. eapply step_ok_trans; [exact Hst3|exact Hst4]. }
  assert (Hnw3 : forall key, ~ watching (watches s3) key i) by (intros key; unfold watching; rewrite Hw3; apply Hnw).
  assert (Hd3 : watch_dirty t3 = false).
  { pose proof (run_queue_spec i cmds s2 (out ++ header_line "*" (Z.of_nat (length cmds))) (with_multi false t1) [] post (fun _ => False) Hok2) as Hrun.
    rewrite Hws in Hrun. destruct (queue_effect i cmds (world s)) as [[x' reply'] ms'].
    destruct Hrun as (s3' & He' & _ & _ & (_ & _ & _ & Hadv) & _); [apply lookup_insert_eq|done|done|done|]. cbn [length] in He'. rewrite He in He'. injection He' as <- _.
    destruct (Hadv i ltac:(tauto)) as (ms2 & _ & _ & _ & _ & Hback). apply not_true_iff_false. intros Hd.
    destruct (Hback (ex_intro _ t3 (conj Ht3 Hd))) as [(t2 & Ht2 & Hd2)|(m & key & _ & _ & Hk)]; [|by destruct (Hnw3 key)].
    simpl in Ht2. rewrite lookup_insert_eq in Ht2. injection Ht2 as <-. done. }
  split.
  - split; [exists t4; split_and!; try done; congruence|]. intros key. unfold watching. rewrite A3. apply Hnw3.
  - split_and!; [congruence|rewrite A2, Hm3; simpl; by rewrite Hm1|]. by rewrite <- !app_assoc.
Qed.
(** *** A whole dispatch *)

Definition queue_has (i : nat) (s : Sys) : Prop := exists t cmds, transactions (watches s) !! i = Some t /\ buffer_holds (commands t) cmds.

(** A step after which the queue of the client who made it is well formed. *)
Definition turn (a : nat) (P : nat -> Prop) (s s' : Sys) : Prop := step_ok a P s s' /\ (queue_has a s -> queue_has a s').

Lemma same_queue_has i s s' : same_queue i s s' -> queue_has i s -> queue_has i s'.
Proof. intros Hq (t & cmds & Ht & Hb). destruct (Hq t Ht) as (t' & Ht' & Hc & _). exists t', cmds. by rewrite Hc. Qed.

Lemma turn_refl a P s : sys_ok s -> turn a P s s.
Proof. intros Hs. split; [by apply step_ok_refl|done]. Qed.

Lemma turn_trans a P s1 s2 s3 : turn a P s1 s2 -> turn a P s2 s3 -> turn a P s1 s3.
Proof. intros [A1 A2] [B1 B2]. split; [by eapply step_ok_trans|auto]. Qed.

Lemma turn_ok a P s s' : turn a P s s' -> sys_ok s'.
Proof. by intros [[? _] _]. Qed.

Lemma turn_weaken a (P Q : nat -> Prop) s s' : (forall i, P i -> Q i) -> turn a P s s' -> turn a Q s s'.
Proof. intros HPQ [H1 H2]. split; [by eapply step_ok_weaken|done]. Qed.

Lemma turn_world a P x s : sys_ok s -> turn a P s (with_world x s).
Proof. intros Hs. split; [by apply step_ok_world|done]. Qed.

Lemma turn_tell a P ms s : sys_ok s -> turn a P s (tell ms s).
Proof. intros Hs. split; [by apply step_ok_tell|]. apply same_queue_has, tell_same_queue. Qed.

Lemma turn_told a P ms x s : sys_ok s -> turn a P s (tell ms (with_world x s)).
Proof. intros Hs. eapply turn_trans; [by apply (turn_world a P x)|]. by apply turn_tell. Qed.

Lemma turn_state P i t t' s cmds :
  sys_ok s -> transactions (watches s) !! i = Some t -> watch_dirty t' = watch_dirty t -> has_watches t' = has_watches t ->
  buffer_holds (commands t') cmds -> turn i P s (with_state i t' s).
Proof.
  intros Hs Ht Hd Hh Hb. split; [apply (step_ok_state P i t); try done; by eapply holds_sized|].
  intros _. exists t', cmds. simpl. by rewrite lookup_insert_eq.
Qed.

Lemma turn_remove i s t P :
  sys_ok s -> transactions (watches s) !! i = Some t -> P i -> exists s', remove_watches i s = Some s' /\ turn i P s s'.
Proof.
  intros Hs Ht HP. destruct (step_ok_remove i s t Hs Ht) as (s' & -> & Hst & _ & _ & Htr). exists s'. split; [done|].
  split; [eapply step_ok_weaken; [|exact Hst]; by intros j ->|]. intros (t0 & cmds & Ht0 & Hb). assert (t0 = t) as -> by congruence.
  eexists _, cmds. rewrite Htr, lookup_insert_eq. done.
Qed.

Lemma turn_finish i s t P : sys_ok s -> transactions (watches s) !! i = Some t -> exists s', finish_state i s = Some s' /\ turn i P s s'.
Proof.
  intros Hs Ht. destruct (finish_state_spec i s t P Hs Ht) as (s' & t' & -> & Hst & _ & _ & _ & A4 & A5 & _). exists s'. split; [done|].
  split; [done|]. intros _. by exists t', [].
Qed.

Lemma finish_dispatch_turn a P out s : sys_ok s -> turn a P s (finish_dispatch a out s).1 /\ (finish_dispatch a out s).2 = out.
Proof.
  intros Hs. unfold finish_dispatch. cbn zeta. destruct (serve_ready _) as [x ms]. split; [|done]. simpl.
  eapply turn_trans; [by apply (turn_world a P (record_reply a out (set_wire_mode a (world s))))|]. by apply turn_told.
Qed.

Lemma purge_keys_turn a P keys s : sys_ok s -> turn a P s (purge_keys keys s).
Proof.
  revert s. induction keys as [|key keys IH]; intros s Hs; cbn [purge_keys]; [by apply turn_refl|].
  destruct (purge_if_expired key (world s)) as [x ms]. pose proof (turn_told a P ms x s Hs) as H1. eapply turn_trans; [exact H1|]. apply IH. by eapply turn_ok.
Qed.

Lemma run_command_turn a P blocking c s : sys_ok s -> turn a P s (run_command a blocking c s).1.
Proof. intros Hs. unfold run_command. destruct (execute_command_into a blocking c (world s)) as [[x o] ms]. by apply turn_told. Qed.

Lemma run_pubsub_turn a P c s : sys_ok s -> turn a P s (run_pubsub a c s).1.
Proof. intros Hs. unfold run_pubsub. destruct (pubsub_execute a c (world s)) as [x o]. by apply turn_world. Qed.

Lemma turn_queue a P s s' : turn a P s s' -> queue_has a s -> exists t cmds, sys_ok s' /\ transactions (watches s') !! a = Some t /\ buffer_holds (commands t) cmds.
Proof. intros Ht Hq. destruct Ht as [[Hok _] H2]. destruct (H2 Hq) as (t & cmds & H). by exists t, cmds. Qed.

Lemma queue_command_turn a P t cmds fields s out :
  sys_ok s -> transactions (watches s) !! a = Some t -> buffer_holds (commands t) cmds ->
  exists (h : bool) s' out', queue_command a t fields s out = Some (h, s', out') /\ turn a P s s'
    /\ (h = false -> s' = s /\ out' = out /\ in_multi t = false).
Proof.
  intros Hs Ht Hb. unfold queue_command. destruct (in_multi t); cbn [negb]; [|exists false, s, out; split_and!; [done|by apply turn_refl|done]].
  case_decide; [eexists true, s, _; split_and!; [done|by apply turn_refl|done]|].
  destruct (append_spec fields (commands t) cmds Hb) as (b' & -> & _ & Hb'). cbn [mbind option_bind].
  destruct (fits (commands t) fields); eexists true, _, _; (split; [done|]); (split; [|done]); by eapply (turn_state P a t).
Qed.

(** Commands that let go of the watches of their client. *)
Definition releasing (type : CommandType) : Prop :=
  match type with
  | CT_exec | CT_discard | CT_unwatch | CT_goblin_firehose | CT_goblin_dumpworld => True
  | CT_watch => exists n, fate n <> registered
  | _ => False
  end.

Lemma control_turn a t cmds c fields s out :
  sys_ok s -> transactions (watches s) !! a = Some t -> buffer_holds (commands t) cmds ->
  exists (h : bool) s' out', execute_transaction_control a c fields s out = Some (h, s', out')
    /\ turn a (fun j => j = a /\ releasing (c_type c)) s s' /\ (h = false -> s' = s /\ out' = out).
Proof.
  intros Hs Ht Hb. unfold execute_transaction_control. rewrite Ht. cbn [mbind option_bind].
  assert (Hqc : forall P, exists (h : bool) s' out', queue_command a t fields s out = Some (h, s', out') /\ turn a P s s' /\ (h = false -> s' = s /\ out' = out)).
  { intros P. destruct (queue_command_turn a P t cmds fields s out Hs Ht Hb) as (h & s' & o & H1 & H2 & H3). exists h, s', o. split_and!; [done|done|]. intros Hh. by destruct (H3 Hh) as (? & ? & _). }
  assert (Hq0 : queue_has a s) by (by exists t, cmds).
  destruct (c_type c); try apply Hqc.
  - destruct (in_multi t); [eexists true, s, _; split_and!; [done|by apply turn_refl|done]|].
    unfold begin_. destruct (buffer_clear_spec (commands t) (w_buffers _ Hs a t Ht)) as (b & -> & Hb' & _). cbn [mbind option_bind].
    eexists true, _, _. split_and!; [done|by eapply (turn_state _ a t)|done].
  - destruct (exec_spec a s out t cmds Hs Ht Hb) as (s' & out' & -> & Hst & Hcase). cbn [mbind option_bind]. exists true, s', out'.
    split_and!; [done| |done]. split; [eapply step_ok_weaken; [|exact Hst]; by intros j ->|]. intros _.
    destruct (in_multi t); cbn [negb] in Hcase; [|destruct Hcase as [-> _]; done].
    destruct Hcase as [[(t' & H1 & _ & _ & _ & H2) _] _]. by exists t', [].
  - destruct (in_multi t); cbn [negb]; [|eexists true, s, _; split_and!; [done|by apply turn_refl|done]].
    destruct (turn_remove a s t (fun j => j = a /\ True) Hs Ht) as (s1 & -> & H1); [done|]. cbn [mbind option_bind].
    destruct (turn_queue _ _ _ _ H1 Hq0) as (t1 & cmds1 & Hok1 & Ht1 & _).
    destruct (turn_finish a s1 t1 (fun j => j = a /\ True) Hok1 Ht1) as (s2 & -> & H2). cbn [mbind option_bind].
    eexists true, _, _. split_and!; [done|by eapply turn_trans|done].
  - destruct (in_multi t); [eexists true, s, _; split_and!; [done|by apply turn_refl|done]|]. cbn zeta.
    pose proof (purge_keys_turn a (fun j => j = a /\ (exists n, fate n <> registered)) (c_args c) s Hs) as H1. set (s1 := purge_keys (c_args c) s) in *.
    destruct (turn_queue _ _ _ _ H1 Hq0) as (t1 & cmds1 & Hok1 & Ht1 & Hb1).
    destruct (watch_spec fate (watches s1) a (c_args c) t1 Hok1 Ht1) as (ok & w & t2 & Hw & _ & Htr & Hc & _).
    destruct (step_ok_watch a (c_args c) s1 t1 Hok1 Ht1) as (ok' & w' & Hw' & Hst & Hreg & _). rewrite Hw in Hw'. injection Hw' as <- <-.
    rewrite Hw. cbn [mbind option_bind]. eexists true, _, _. split_and!; [done| |done]. eapply turn_trans; [exact H1|]. split.
    + eapply step_ok_weaken; [|exact Hst]. intros j [-> Hok]. split; [done|]. subst ok.
      by apply Hreg.
    + intros _. exists t2, cmds1. simpl. rewrite Htr, lookup_insert_eq, Hc. done.
  - destruct (in_multi t); cbn [negb]; [apply Hqc|].
    destruct (turn_remove a s t (fun j => j = a /\ True) Hs Ht) as (s1 & -> & H1); [done|]. cbn [mbind option_bind].
    eexists true, s1, _. split_and!; [done|done|done].
Qed.

Definition releases (fields : list bytes) : Prop :=
  match Parse.parse_fields fields with inl _ => False | inr c => releasing (c_type c) end.

Lemma dispatch_turn a fields s :
  sys_ok s -> queue_has a s ->
  exists s' out, dispatch_resp_command a fields s = Some (s', out) /\ turn a (fun j => j = a /\ releases fields) s s'.
Proof.
  intros Hs Hq. pose proof Hq as (t & cmds & Ht & Hb). unfold dispatch_resp_command, releases. rewrite Ht. cbn [mbind option_bind].
  assert (Hmark : forall P, turn a P s (with_state a (mark_command_error t) s)).
  { intros P. unfold mark_command_error. case_decide; by eapply (turn_state P a t). }
  destruct (Parse.parse_fields fields) as [e|c].
  { eexists _, _. split; [done|]. set (s1 := if in_multi t then _ else s).
    assert (H1 : turn a (fun j => j = a /\ False) s s1) by (unfold s1; destruct (in_multi t); [apply Hmark|by apply turn_refl]).
    eapply turn_trans; [exact H1|]. apply turn_world. by eapply turn_ok. }
  cbn zeta. set (P := fun j => j = a /\ releasing (c_type c)).
  assert (Hfin : forall s1 o, turn a P s s1 -> exists s' out, Some (finish_dispatch a o s1) = Some (s', out) /\ turn a P s s').
  { intros s1 o H1. destruct (finish_dispatch_turn a P o s1 (turn_ok _ _ _ _ H1)) as [H2 _]. destruct (finish_dispatch a o s1) as [s' out]. exists s', out.
    split; [done|]. by eapply turn_trans. }
  destruct (in_multi t && ct_eqb (c_type c) CT_unknown).
  { pose proof (Hmark P) as H1. set (s1 := with_state a (mark_command_error t) s) in *. pose proof (run_command_turn a P true c s1 (turn_ok _ _ _ _ H1)) as H2.
    destruct (run_command a true c s1) as [s2 o]. simpl in H2. eexists _, _. split; [done|]. eapply turn_trans; [exact H1|]. eapply turn_trans; [exact H2|].
    apply turn_world. by eapply turn_ok. }
  destruct (unauthenticated a (world s) && _); [apply Hfin; by apply turn_refl|].
  destruct (resp2_subscribed a (world s) && negb _); [apply Hfin; by apply turn_refl|].
  destruct (resp2_subscribed a (world s) && _).
  { rewrite append_bulk_string_eq. cbn [mbind option_bind]. rewrite append_bulk_string_eq. cbn [mbind option_bind]. apply Hfin. by apply turn_refl. }
  destruct (control_turn a t cmds c fields s [] Hs Ht Hb) as (h & s1 & o & -> & H1 & Hh). cbn [mbind option_bind]. fold P in H1.
  destruct h; [by apply Hfin|]. destruct (Hh eq_refl) as [-> ->]. clear Hh.
  assert (Hrun : exists s' out, (let '(s, out) := if is_pubsub_command (c_type c) then run_pubsub a c s else run_command a true c s in Some (finish_dispatch a out s)) = Some (s', out) /\ turn a P s s').
  { destruct (is_pubsub_command (c_type c)).
    - pose proof (run_pubsub_turn a P c s Hs) as H2. destruct (run_pubsub a c s) as [s2 o2]. by apply Hfin.
    - pose proof (run_command_turn a P true c s Hs) as H2. destruct (run_command a true c s) as [s2 o2]. by apply Hfin. }
  destruct (c_type c) eqn:Htype; try exact Hrun; clear Hrun.
  - destruct (turn_remove a s t P Hs Ht) as (s2 & -> & H2); [done|]. cbn [mbind option_bind].
    destruct (firehose a (leave a (world s2))) as [x o]. apply Hfin. eapply turn_trans; [exact H2|]. apply turn_world. by eapply turn_ok.
  - destruct (resp_version a (world s)); [apply Hfin; by apply turn_refl|]. destruct (match c_args c with [] => _ | _ => _ end) as [acc|]; [|apply Hfin; by apply turn_refl].
    destruct (turn_remove a s t P Hs Ht) as (s2 & -> & H2); [done|]. cbn [mbind option_bind].
    destruct (dump_world a acc (leave a (world s2))) as [x o]. apply Hfin. eapply turn_trans; [exact H2|]. apply turn_world. by eapply turn_ok.
Qed.
(** *** Traces *)

Inductive event := request (client : nat) (fields : list bytes) | disconnected (client : nat).
Definition event_client (e : event) : nat := match e with request a _ | disconnected a => a end.
Definition event_releases (e : event) : Prop := match e with request _ fields => releases fields | disconnected _ => True end.

Definition run_event (e : event) (s : Sys) : option Sys :=
  match e with
  | request a fields => '(s, _) ← dispatch_resp_command a fields s; Some s
  | disconnected a => disconnect a s
  end.
Fixpoint run_trace (es : list event) (s : Sys) : option Sys :=
  match es with [] => Some s | e :: es => s ← run_event e s; run_trace es s end.

Definition queues_ok (s : Sys) : Prop := forall a, a ∈ clients s -> queue_has a s.

Lemma run_event_turn e s :
  sys_ok s -> queue_has (event_client e) s ->
  exists s', run_event e s = Some s' /\ turn (event_client e) (fun j => j = event_client e /\ event_releases e) s s'.
Proof.
  intros Hs Hq. destruct e as [a fields|a]; simpl in *.
  - destruct (dispatch_turn a fields s Hs Hq) as (s' & out & -> & Ht). by exists s'.
  - pose proof Hq as (t & cmds & Ht & Hb). unfold disconnect.
    destruct (turn_remove a s t (fun j => j = a /\ True) Hs Ht) as (s1 & Hr & H1); [done|]. rewrite Hr. cbn [mbind option_bind].
    destruct (step_ok_remove a s t Hs Ht) as (s1' & Hr' & (Hok1 & Hcl & Hsq & Hadv) & _ & _ & Htr). rewrite Hr in Hr'. injection Hr' as <-.
    rewrite Htr, lookup_insert_eq. cbn [mbind option_bind]. unfold reset, finish. simpl commands.
    destruct (buffer_clear_spec (commands t) (w_buffers _ Hs a t Ht)) as (b & -> & Hb' & _). cbn [mbind option_bind]. eexists. split; [done|].
    eapply turn_trans; [exact H1|]. eapply (turn_state _ a); [done|by rewrite Htr, lookup_insert_eq|done|done|exact Hb'].
Qed.

Lemma run_trace_spec es s :
  sys_ok s -> queues_ok s -> Forall (fun e => event_client e ∈ clients s) es ->
  exists s', run_trace es s = Some s' /\ sys_ok s' /\ queues_ok s' /\ clients s' = clients s
    /\ forall i, (forall e, e ∈ es -> event_client e = i -> ~ event_releases e) -> advance i s s'.
Proof.
  revert s. induction es as [|e es IH]; intros s Hs Hq Hc; cbn [run_trace].
  { exists s. split_and!; try done. intros. apply advance_refl. }
  inversion_clear Hc as [|? ? Hc1 Hc2]. destruct (run_event_turn e s Hs (Hq _ Hc1)) as (s1 & -> & (Hok1 & Hcl1 & Hsq1 & Hadv1) & Hq1). cbn [mbind option_bind].
  assert (Hqs1 : queues_ok s1).
  { intros j Hj. rewrite Hcl1 in Hj. destruct (decide (j = event_client e)) as [->|Hne]; [by apply Hq1, Hq|]. eapply same_queue_has; [by apply Hsq1|by apply Hq]. }
  destruct (IH s1 Hok1 Hqs1) as (s2 & -> & Hok2 & Hqs2 & Hcl2 & Hadv2); [by rewrite Hcl1|].
  exists s2. split_and!; [done|done|done|congruence|]. intros i Hi. eapply advance_trans; [apply Hadv1|apply Hadv2].
  - intros [-> Hr]. by apply (Hi e); [left| |].
  - intros e' He'. apply Hi. by right.
Qed.

(** C9: EXEC is all or nothing.  Outside MULTI it is refused.  Otherwise the client
    leaves MULTI with an empty queue and no watches, and: if a watched key was
    modified nothing runs and the answer is null; if a command was refused while
    queueing, or the buffer was full, nothing runs and the answer is EXECABORT;
    otherwise exactly the queued commands run, in order, each on the world the previous
    one left, and the answer is the array of their replies. *)
Theorem exec_atomic i s out t cmds :
  sys_ok s -> transactions (watches s) !! i = Some t -> buffer_holds (commands t) cmds ->
  exists s' out', execute_queued_transaction i s out = Some (s', out') /\ sys_ok s' /\
    if negb (in_multi t) then s' = s /\ out' = append_error out (str "ERR EXEC without MULTI")
    else idle i s' /\
      if watch_dirty t then world s' = world s /\ told s' = told s /\ out' = out ++ null_array (resp_version i (world s))
      else if decide (failure t = no_failure) then
        let '(x, reply, ms) := queue_effect i cmds (world s) in
        world s' = x /\ told s' = told s ++ ms /\ out' = out ++ header_line "*" (Z.of_nat (length cmds)) ++ reply
      else world s' = world s /\ told s' = told s /\ out' = append_error out (abort_message (failure t) (capacity_ (commands t))).
Proof.
  intros Hs Ht Hb. destruct (exec_spec i s out t cmds Hs Ht Hb) as (s' & out' & H1 & (H2 & _) & H3). by exists s', out'.
Qed.

(** C5: WATCH gives optimistic locking.  Take any interleaving of requests and
    disconnections of all clients in which client [i], which watches a key, does not
    let go of its watches.  The interleaving runs to its end, and if the observer was
    told of a modification of that key, the EXEC of [i] runs nothing and answers null;
    if no key that [i] watches was modified since it was clean, EXEC runs its queue. *)
Theorem optimistic_locking es s i key :
  sys_ok s -> queues_ok s -> Forall (fun e => event_client e ∈ clients s) es ->
  watching (watches s) key i -> (forall e, e ∈ es -> event_client e = i -> ~ event_releases e) ->
  exists s1 ms, run_trace es s = Some s1 /\ told s1 = told s ++ ms /\
    forall t out, transactions (watches s1) !! i = Some t -> in_multi t = true ->
    ((exists m, m ∈ ms /\ touches m key) ->
       exists s2, execute_queued_transaction i s1 out = Some (s2, out ++ null_array (resp_version i (world s1)))
         /\ world s2 = world s1 /\ told s2 = told s1) /\
    (~ dirty (watches s) i -> (forall m k, m ∈ ms -> watching (watches s1) k i -> ~ touches m k) -> failure t = no_failure ->
       exists cmds s2 x reply ms', buffer_holds (commands t) cmds /\ queue_effect i cmds (world s1) = (x, reply, ms')
         /\ execute_queued_transaction i s1 out = Some (s2, out ++ header_line "*" (Z.of_nat (length cmds)) ++ reply) /\ world s2 = x).
Proof.
  intros Hs Hq Hc Hw Hrel. destruct (run_trace_spec es s Hs Hq Hc) as (s1 & Hr & Hok1 & Hq1 & Hcl1 & Hadv).
  destruct (Hadv i Hrel) as (ms & Hm & A1 & A2 & A3 & A4). exists s1, ms. split_and!; [done|done|]. intros t out Ht Hmulti.
  assert (Hin : i ∈ clients s1) by (apply elem_of_dom; by exists t). destruct (Hq1 i Hin) as (t' & cmds & Ht' & Hb). assert (t' = t) as -> by congruence.
  destruct (exec_spec i s1 out t cmds Hok1 Ht Hb) as (s2 & out' & He & _ & Hcase). rewrite Hmulti in Hcase. cbn [negb] in Hcase. destruct Hcase as [_ Hcase].
  split.
  - intros (m & Hmin & Htouch). destruct (A3 key m Hw Hmin Htouch) as (t1 & Ht1 & Hd). assert (t1 = t) as -> by congruence. rewrite Hd in Hcase.
    destruct Hcase as (B1 & B2 & ->). by exists s2.
  - intros Hclean Hnone Hf. assert (Hd : watch_dirty t = false).
    { apply not_true_iff_false. intros Hd. destruct A4 as [?|(m & k & H1 & H2 & H3)]; [by exists t|done|]. by destruct (Hnone m k). }
    rewrite Hd, decide_True in Hcase by done. destruct (queue_effect i cmds (world s1)) as [[x reply] ms'] eqn:Hqe. destruct Hcase as (B1 & B2 & ->).
    by exists cmds, s2, x, reply, ms'.
Qed.
End dispatch.

(** ** The buffer as a whole *)

Fixpoint append_all (cmds : list (list bytes)) (b : TransactionBuffer) : option (list bool * TransactionBuffer) :=
  match cmds with
  | [] => Some ([], b)
  | fields :: cmds => '(ok, b) ← append fields b; '(oks, b) ← append_all cmds b; Some (ok :: oks, b)
  end.
(** The loop of EXEC over the records. *)
Fixpoint decode_all (count : nat) (offset : nat) (b : TransactionBuffer) : option (list (list bytes) * nat) :=
  match count with
  | O => Some ([], offset)
  | S count =>
      decoded ← decode offset b;
      '(offset, views) ← decoded;
      fields ← mapM (view_bytes (data_ b)) views;
      '(rest, offset) ← decode_all count offset b;
      Some (fields :: rest, offset)
  end.

(** The commands that were accepted, and the room they leave. *)
Fixpoint accepted (room : nat) (cmds : list (list bytes)) : list bool :=
  match cmds with
  | [] => []
  | fields :: cmds =>
      let ok := (Z.of_nat (record_length fields) <=? kMaxRecord) && (record_length fields <=? room)%nat in
      ok :: accepted (if ok then room - record_length fields else room) cmds
  end.

Lemma append_all_spec cmds b done_ :
  buffer_holds b done_ ->
  exists b', append_all cmds b = Some (accepted (capacity_ b - used_bytes_ b) cmds, b')
    /\ capacity_ b' = capacity_ b
    /\ buffer_holds b' (done_ ++ map fst (filter (fun p => p.2 = true) (zip cmds (accepted (capacity_ b - used_bytes_ b) cmds)))).
Proof.
  revert b done_. induction cmds as [|fields cmds IH]; intros b done_ Hb; cbn [append_all accepted].
  { exists b. split_and!; [done|done|]. simpl. by rewrite app_nil_r. }
  destruct (append_spec fields b done_ Hb) as (b1 & -> & Hc & Hb1). cbn [mbind option_bind].
  assert (Hfit : (Z.of_nat (record_length fields) <=? kMaxRecord) && (record_length fields <=? capacity_ b - used_bytes_ b)%nat = fits b fields)
    by (unfold fits; reflexivity). cbn zeta. rewrite !Hfit. destruct (IH b1 _ Hb1) as (b2 & -> & Hc2 & Hb2). cbn [mbind option_bind].
  assert (Hroom : (capacity_ b1 - used_bytes_ b1)%nat = if fits b fields then (capacity_ b - used_bytes_ b - record_length fields)%nat else (capacity_ b - used_bytes_ b)%nat).
  { rewrite Hc, (b_used _ _ Hb1), (b_used _ _ Hb). destruct (fits b fields); [|done]. rewrite queue_enc_app, queue_enc_one, length_app, command_record_length. lia. }
  rewrite Hroom in *. exists b2. split_and!; [done|congruence|]. destruct (fits b fields); cbn [zip zip_with].
  - rewrite filter_cons_True by done. cbn [map fst]. by rewrite <- app_assoc in Hb2.
  - rewrite filter_cons_False by done. exact Hb2.
Qed.

Lemma decode_all_spec cmds b pre post :
  data_ b = pre ++ queue_enc cmds ++ post -> used_bytes_ b = (length pre + length (queue_enc cmds))%nat ->
  Forall (fun fields => Z.of_nat (record_length fields) <= kMaxRecord) cmds ->
  decode_all (length cmds) (length pre) b = Some (cmds, used_bytes_ b).
Proof.
  revert pre. induction cmds as [|fields cmds IH]; intros pre Hd Hu Hs; cbn [decode_all length].
  { simpl in Hu. by rewrite Hu, Nat.add_0_r. }
  inversion_clear Hs as [|? ? H1 H2]. destruct (decode_spec fields cmds b pre post Hd Hu H1) as (views & -> & Hv & _). cbn [mbind option_bind].
  rewrite Hv. cbn [mbind option_bind]. change (fields :: cmds) with ([fields] ++ cmds) in Hd, Hu. rewrite queue_enc_app, queue_enc_one in Hd, Hu.
  rewrite length_app, command_record_length in Hu. specialize (IH (pre ++ record_enc fields)). rewrite length_app, command_record_length in IH.
  rewrite IH; [done|by rewrite Hd, <- !app_assoc|lia|done].
Qed.

(** What is queued is what is executed: after any sequence of appends the decoding
    loop returns exactly the accepted commands, field by field and in order, and stops
    at the end of the used bytes.  A command is refused exactly when its record does
    not fit the room that is left (or 32 bits). *)
Theorem transaction_buffer_roundtrip mapping cmds :
  exists b, append_all cmds (new_buffer mapping) = Some (accepted (length mapping) cmds, b)
    /\ (used_bytes_ b <= capacity_ b)%nat /\ capacity_ b = length mapping
    /\ decode_all (command_count_ b) 0 b =
         Some (map fst (filter (fun p => p.2 = true) (zip cmds (accepted (length mapping) cmds))), used_bytes_ b)
    /\ decode (used_bytes_ b) b = Some None.
Proof.
  assert (H0 : buffer_holds (new_buffer mapping) []) by (split; simpl; [done|by exists mapping|done|done|constructor]).
  destruct (append_all_spec cmds (new_buffer mapping) [] H0) as (b & He & Hc & Hb). simpl in He, Hc, Hb. rewrite Nat.sub_0_r in *.
  exists b. destruct (holds_sized _ _ Hb) as [S1 S2]. split_and!; [done|lia|done| |].
  - destruct Hb as [_ [post Hd] Hu Hn Hs]. rewrite Hn. by apply (decode_all_spec _ b [] post).
  - unfold decode. by rewrite Nat.leb_refl.
Qed.

(** ** Two clients

    A world that records the names of the commands it ran; every command modifies the
    key it names. *)
Module Example.
Definition exec (i : nat) (blocking : bool) (c : Command) (x : list bytes) : list bytes * bytes * list modification :=
  (x ++ [c_name c], append_simple_string [] (str "OK"), match c_args c with k :: _ => [key_modified k] | [] => [] end).

Definition empty_state : TransactionState := mkState (new_buffer (repeat x00 64)) false false false no_failure.
Definition start : @Sys (list bytes) :=
  mkSys [] (mkWatches {[str "k" := {[1%nat]}]} (<[1%nat := with_watches true empty_state]> {[2%nat := empty_state]})) [].

Lemma empty_buffer : buffer_holds (commands empty_state) [].
Proof. split; simpl; [done|by eexists|done|done|constructor]. Qed.

Lemma start_states i t : transactions (watches start) !! i = Some t -> commands t = commands empty_state.
Proof. simpl. rewrite lookup_insert_Some, lookup_singleton_Some. by intros [[_ <-]|[_ [_ <-]]]. Qed.

Lemma start_ok : sys_ok start /\ queues_ok start.
Proof.
  split.
  - split; simpl.
    + intros key set. rewrite lookup_singleton_Some. intros [_ <-]. set_solver.
    + intros key i. unfold watching. simpl. rewrite lookup_singleton. case_decide; simpl; [|set_solver]. rewrite elem_of_singleton. intros ->.
      eexists. by rewrite lookup_insert_eq.
    + intros i t Ht. rewrite (start_states i t Ht). eapply holds_sized, empty_buffer.
  - intros a Ha. unfold clients in Ha. apply elem_of_dom in Ha as [t Ht]. exists t, []. split; [done|]. rewrite (start_states a t Ht). apply empty_buffer.
Qed.

Abbreviation pub := (fun (_ : nat) (_ : Command) (x : list bytes) => (x, @nil byte)) (only parsing).
Abbreviation quietly := (fun (_ : bytes) (x : list bytes) => (x, @nil modification)) (only parsing).
Abbreviation hose := (fun (_ : nat) (x : list bytes) => (x, @nil byte)) (only parsing).
Abbreviation same := (fun (_ : nat) (x : list bytes) => x) (only parsing).
Abbreviation dump := (fun (_ : nat) (_ : bool) (x : list bytes) => (x, @nil byte)) (only parsing).
Abbreviation served := (fun x : list bytes => (x, @nil modification)) (only parsing).
Abbreviation version2 := (fun (_ : nat) (_ : list bytes) => resp2) (only parsing).
Abbreviation never := (fun (_ : nat) (_ : list bytes) => false) (only parsing).
Abbreviation record := (fun (_ : nat) (_ : bytes) (x : list bytes) => x) (only parsing).
Abbreviation no_throw := (fun _ : nat => registered) (only parsing).

(** Client 1 queues a command while client 2 modifies the watched key. *)
Definition trace : list event :=
  [request 1 [str "MULTI"]; request 1 [str "SET"; str "j"; str "1"]; request 2 [str "SET"; str "k"; str "2"]].
Definition after_trace : option (@Sys (list bytes)) := run_trace exec pub quietly hose same dump served version2 never never same record no_throw trace start.
Definition final : @Sys (list bytes) := default start after_trace.
Definition state1 : TransactionState := default empty_state (transactions (watches final) !! 1%nat).

Lemma final_eq : after_trace = Some final /\ transactions (watches final) !! 1%nat = Some state1 /\ in_multi state1 = true
  /\ told final = [key_modified (str "k")].
Proof. by vm_compute. Qed.

(** A client in MULTI with one command queued. *)
Definition queued : list bytes := [str "SET"; str "j"; str "1"].
Definition queued_state : TransactionState :=
  mkState (default (new_buffer []) (snd <$> append queued (commands empty_state))) true false false no_failure.
Definition in_transaction : @Sys (list bytes) := mkSys [] (mkWatches ∅ {[1%nat := queued_state]}) [].

Lemma queued_holds : buffer_holds (commands queued_state) [queued].
Proof.
  destruct (append_spec queued (commands empty_state) [] empty_buffer) as (b & Ha & _ & Hb). unfold queued_state. rewrite Ha. exact Hb.
Qed.

Lemma in_transaction_ok : sys_ok in_transaction.
Proof.
  split; simpl.
  - intros key set. by rewrite lookup_empty.
  - intros key i. unfold watching. simpl. rewrite lookup_empty. set_solver.
  - intros i t. rewrite lookup_singleton_Some. intros [_ <-]. eapply holds_sized, queued_holds.
Qed.
End Example.

Lemma optimistic_locking_witness :
  exists s2, execute_queued_transaction Example.exec Example.pub Example.version2 1 Example.final [] = Some (s2, null_array resp2)
    /\ world s2 = world Example.final.
Proof.
  destruct Example.start_ok as [Hok Hq]. destruct Example.final_eq as (Hf & Ht & Hm & Htold).
  destruct (optimistic_locking Example.exec Example.pub Example.quietly Example.hose Example.same Example.dump Example.served
    Example.version2 Example.never Example.never Example.same Example.record Example.no_throw Example.trace Example.start 1 (str "k") Hok Hq)
    as (s1 & ms & Hr & Hms & H).
  - repeat constructor; unfold clients; apply elem_of_dom; by eexists.
  - unfold watching. simpl. rewrite lookup_singleton_eq. simpl. set_solver.
  - intros e He _. unfold Example.trace in He. rewrite !elem_of_cons, elem_of_nil in He. destruct He as [->|[->|[->|[]]]]; vm_compute; tauto.
  - unfold Example.after_trace in Hf. rewrite Hf in Hr. injection Hr as <-.
    destruct (H Example.state1 [] Ht Hm) as [Habort _]. destruct Habort as (s2 & H1 & H2 & _).
    + exists (key_modified (str "k")). split; [|done]. simpl in Hms. rewrite Htold in Hms. subst ms. by left.
    + exists s2. split; [exact H1|exact H2].
Defined.

Lemma exec_atomic_witness :
  exists s', execute_queued_transaction Example.exec Example.pub Example.version2 1 Example.in_transaction [] =
    Some (s', header_line "*" 1 ++ str "+OK" ++ crlf) /\ world s' = [str "SET"].
Proof.
  destruct (exec_atomic Example.exec Example.pub Example.quietly Example.hose Example.same Example.dump Example.served
    Example.version2 Example.never Example.never Example.same Example.record Example.no_throw 1 Example.in_transaction [] Example.queued_state
    [Example.queued] Example.in_transaction_ok eq_refl Example.queued_holds) as (s' & out' & H1 & _ & H2).
  exists s'. simpl in H2. destruct H2 as (_ & H3 & _ & ->). split; [exact H1|exact H3].
Defined.
